(* ===== verification/_CoqProject ===== *)
-Q . S2P
Prelude.v
Ordered.v
Net.v
Fields.v
Packet.v
Firewall.v
Reassembly.v
PolicyDoc.v
PolicyCodec.v
PolicyEval.v
QuicFragments.v
Wire.v
PeerRuntime.v
RelayPool.v
Directory.v
Topology.v
Credentials.v
IdentityProofs.v
DirectorySigning.v
Envelope.v
RelayPresence.v
RelayRouter.v
RelayBackbone.v
RelayMesh.v
Coordination.v
PathMtu.v
Connectivity.v
WgEngine.v
Stun.v
PortMapping.v
Resources.v
Gateways.v
Admission.v
Leases.v
Webhooks.v
Signatures.v
Configuration.v
Dns.v
