(* ===== verification/Prelude.v ===== *)
(** * Peerward: a verification library

    Peerward is a private mesh: a control plane certifies Peers and Relays under an
    offline root, signs the directories, policies and topologies they use, and the
    Peers exchange encrypted packets directly or through Relays. This library
    models the program's own core logic, crate by crate, and proves what makes it
    correct. Definitions are translated from the Rust sources under src/crates/ and
    keep their names; this file is the prelude every other one imports.

    ** The parts and how they interact

    Trust. [Credentials.v] (module Cred; peerward-credentials authority.rs,
    subject.rs, bundle.rs, transcripts.rs, dynamic.rs) has certificates, their
    codecs and the trust set: the root certifies authorities, authorities issue
    subject credentials, name the directory key in a distribution certificate and
    rotate by signed bundles. [IdentityProofs.v] (Idp; identity_claim.rs,
    rotation_proof.rs, terminal.rs) adds the proofs a Peer identity signs and the
    termination of a mesh. [Directory.v] (Dir; peerward-directory chunks.rs and the
    canonicity checks of transcripts.rs), [Topology.v] (Topo; relay_topology.rs) and
    [DirectorySigning.v] (Sg; signing.rs, transcripts.rs, and the endpoint lists of
    peerward-types endpoint.rs) model what the directory key signs, how it is
    distributed in chunks, and the backbone graph Relays route by. [Signatures.v]
    (Sig) composes these: what a signature of any kind means, and the chain from a
    Peer directory back to the root, for directory keys that also sign what the
    management crate defines.

    Management. What an operator decides and the directory key signs beside the
    directories. [Resources.v] (Rs; peerward-management internet_addresses.rs,
    resources.rs, collections.rs, resource_policy.rs, target_health.rs) has the
    networks behind gateway Peers, the rules and approvals that grant them, and the
    decision over every name of an address; [Gateways.v] (Gs; selection.rs) observes
    the gateways and chooses one. [Admission.v] (Ad; device_conditions.rs) evaluates
    what a device says of itself. [Leases.v] (Ls; leases.rs and the digest of lib.rs)
    is the lease a Peer's authority rests on and the clock that judges it.
    [Webhooks.v] (Wh; webhooks.rs) signs notifications. [Configuration.v] (Cf;
    configuration.rs, client_network.rs, auto_approval.rs, preferences.rs) checks what
    is delivered, derives the routes a client captures and approves gateways by rule;
    [Dns.v] (Dn; dns.rs) joins DNS profiles and answers from them.

    Packets. [Packet.v] (Pkt; peerward-dataplane parse.rs) parses untrusted IP
    packets, [Reassembly.v] (Ra; reassembly.rs) joins their fragments, and
    [Firewall.v] (Fw; firewall.rs) admits them: it calls the parser's results and a
    policy callback. [PolicyDoc.v] (Pol) and [PolicyCodec.v] (Codec) are
    peerward-policy document.rs - the ordered policy and its canonical document -
    and [PolicyEval.v] (Ev; evaluator.rs) is the stateful evaluator over it.

    Transport. [Wire.v] (Wire; peerward-wire relay_preface.rs, records.rs,
    transport.rs, session.rs and peerward-carrier records.rs) frames and encrypts
    records on a Relay link; [QuicFragments.v] (Qf; peerward-carrier fragments.rs)
    carries ciphertext over datagrams. [PeerRuntime.v] (Rt) and [RelayPool.v] (Rp)
    are peerward-peer-core runtime.rs, schedule.rs and relay_pool.rs: the lifecycle
    of a Peer and its choice of Relays. [Envelope.v] (Env; peerward-wire control.rs,
    peerward-types correlation.rs) has the messages of a control envelope and the
    trace context it carries.

    Relays. [RelayPresence.v] (Pc; peerward-relay presence_cache.rs) is the cache of
    which Peer is attached where, fenced by generations; [RelayRouter.v] (Rr;
    routing.rs and the gate of protocol.rs) admits sessions and keeps the queue of
    each attached Peer; [RelayBackbone.v] (Bb; backbone_codec.rs) is what Relays
    write to each other; [RelayMesh.v] (Rm; the runtime_backbone files,
    runtime_routing.rs, runtime_shared.rs and runtime_freshness.rs) has the handlers
    over their shared state: it floods presence over the edges of the signed
    topology and passes a control message from the Relay of its source to the Relay
    of its destination, with [Topo.next_hops] choosing each hop.

    Paths. [Coordination.v] (Co; peerward-peer-core coordination.rs and the errors of
    lib.rs) is what two Peers write to each other inside the tunnel - candidate
    addresses, probes, acknowledgements - and the IP/UDP packet that carries it, which
    goes through the parser of Packet.v. [PathMtu.v] (Pm; wireguard_mtu.rs and
    wireguard_quality.rs) searches the largest datagram a path takes and scores
    paths; [Connectivity.v] (Cn; wireguard_connectivity.rs, wireguard_checks.rs) owns
    one track per Peer with both, sends its checks and decides which direct path
    traffic may take. [WgEngine.v] (Wg; peerward-wireguard lib.rs, queue.rs, engine.rs)
    is the engine those paths carry: it owns the tunnel and the queue of each installed
    Peer and asks its caller before anything is sealed or opened. Beside the tunnel, a
    host learns its public address: [Stun.v] (St; peerward-p2p stun.rs,
    stun_runtime.rs, stun_server.rs and the port prediction of mapping.rs) by asking
    servers on a schedule, and [PortMapping.v] (Mp; mapping.rs, mapping_codec.rs,
    mapping_upnp.rs) by a lease of its gateway.

    [Ordered.v], [Net.v] and [Fields.v] hold what these share: total orders with
    stable sorting and ordered collections, addresses, protocol numbers and
    identifiers (peerward-types lib.rs and protocol.rs), and codecs of fixed fields.

    ** How state and operations correspond to the code

    Unsigned integers are [N] at their width, with checked, saturating and wrapping
    operations written out; bytes are [Byte.byte]; a string is its UTF-8 bytes. A
    fallible function returns [outcome E A]: [Ok], [Err], or [Panic] for what
    aborts in Rust - an index or slice out of range, an overflow that is not
    checked, [expect], [unreachable!] - so that panic freedom is a theorem. A method
    with [&mut self] takes the state last and returns the next state with its
    result, on every early return the state the code leaves. A [HashMap] is a
    [gmap], a [BTreeSet] a [gset] and a [BTreeMap] a [gmap] read in key order
    ([bt_entries], [bt_first]); a [Vec] is a list. Shared state is threaded: the
    budgets of QuicFragments through every operation, a locked shard of the
    firewall or a [RwLock] as one step per access. The lock-free counter of
    fragments.rs is a step relation over any number of threads.

    Code that is not in the repository is a type class whose laws state its
    documentation: [UuidLib] and [IpNetLib] (Net.v), [SnowLib], [ProstLib] with
    [SnowLaws], [ProstLaws] (Wire.v), [Ed25519Lib], [X25519Lib] with [Ed25519Laws]
    (Credentials.v), [StrictLib] with [StrictLaws] (IdentityProofs.v), [TimeLib]
    with [TimeLaws] (RelayPresence.v), [UuidLaws] (RelayBackbone.v), [EnvelopeView]
    with [EnvelopeLaws], the prost derive (Envelope.v), [MpscLib] with
    [MpscLaws], the bounded channels of tokio (RelayMesh.v), [Gotatun], [X25519Dh] with
    [GotatunLaws], the sessions, index table and rate limiter of the WireGuard library
    (WgEngine.v), [UuidInfo], [IpNetAddrs], [IpNetDefaults] with [IpNetIntervals], what
    the management crate asks of UUIDs and networks (Resources.v, Configuration.v),
    [SemverLib] with [SemverLaws] (Admission.v), [LeaseLib], JSON and SHA-256 (Leases.v),
    [WebhookLib] with [WebhookLaws] (Webhooks.v), [Gateway], the exchanges with a gateway (PortMapping.v), and [OsRng]
    (Net.v), the random transactions, of which Connectivity.v assumes nothing,
    Stun.v their length and PortMapping.v also that a nonce is not zero. Theorems that
    need unforgeability take it as a hypothesis about the keys of honest holders,
    never as a law: what verifies was signed, and what holders sign is a statement of
    the two crates or begins with one of the other domains the keys sign under. Each file ends with concrete instances on which its examples,
    and the witness of every property with hypotheses, are evaluated.

    ** What the theorems show

    - Trust: a signature has one meaning across the fourteen kinds of statement the
      credential and directory crates sign ([signature_has_one_meaning]); an accepted subject
      ([trust_chain]) and a verified directory ([directory_chain]) are anchored in
      the root; revocation and rollback protection survive every sequence of
      operations ([revocation_is_permanent]); rotation takes effect at a Peer
      ([rotation_takes_effect]); a termination holds after its authority expired
      ([termination_lasts]); the bundle codec is exact ([bundle_codec_exact]); a
      verified directory maps each address and key to one Peer
      ([verified_directory_unambiguous]); what is signed verifies
      ([signed_objects_verify]).
    - Management: a Peer acts only under a lease that stands, told by two clocks and
      through crashes ([authorization_justified]), no lease counts twice
      ([lease_activates_once]), the floor never goes back ([floor_never_back]), and a
      lease the control plane issues is taken ([issued_lease_authorizes]). A packet
      reaches a resource only by a rule that covers it and an approved gateway, no
      denial before it ([resource_access_justified]), whatever the order of the lists
      ([decision_order_independent]); a gateway is chosen only for a reason
      ([gateway_choice_justified]). Decisions about devices do not outlast what they
      rest on ([decision_stays_exact]) and a restriction restricts
      ([only_restricts_sound]). A valid configuration is closed ([configuration_closed]),
      captured routes are exact ([captured_exactly]) and automatic approvals bounded
      ([automatic_approval_bounded]). The DNS of a Peer is the union of its profiles
      ([effective_is_union]), routed by the longest suffix ([route_longest], with the one
      exception [root_shadows_letter]) and every answer ends ([answers_resolve]).
    - Distribution and routing: chunks reassemble exactly in any order
      ([chunks_reassemble], [chunk_assembly_exact]); a built topology connects every
      pair within four hops ([built_topology_routes], [build_accepts]), its search is
      optimal ([shortest_next_hop_optimal]) and ends ([search_terminates]).
    - Admission: the parser is total and its results well formed
      ([parse_packet_total]); nothing passes the firewall or the evaluator without a
      reason ([allow_is_justified], [evaluate_allow_justified],
      [tcp_phase_is_evidenced]), replies pass ([reply_is_allowed],
      [allowed_flow_stays_open]), memory is bounded and every index matches its
      table ([firewall_bounded], [evaluator_invariant], [reassembler_invariant]);
      reassembled datagrams are the fragments that were accepted, whole and to their
      end ([complete_is_exact], [overlap_discards_set]); the policy decides by the first applicable rule, in
      whatever order the rules came ([decision_is_first_applicable],
      [policy_order_independent]), and its document is canonical
      ([policy_document_roundtrip], [policy_document_canonical]).
    - Transport: links deliver records in order ([link_delivers]), the frame reader
      refines the byte stream under any segmentation and cancellation
      ([reader_refines_stream]), what one key protects is bounded ([stream_key_bounded]) and
      handshakes bind their preface ([handshake_binds_preface]); fragments deliver,
      intact, at most once, within their budgets ([fragments_deliver],
      [delivery_intact], [delivered_at_most_once], [fragments_bounded],
      [concurrent_budget_exact]).
    - Peer: no false health ([healthy_is_proved]); the Relay pool is consistent and
      fences generations for good ([relay_pool_invariant], [relay_generation_fenced]).
    - Relay: presence never goes back behind a fence ([presence_fenced]), does not
      depend on the order of announcements ([presence_converges]), and a snapshot
      replaces only what it may ([snapshot_merges]); only admitted sessions are
      served ([served_sessions_admitted], [stale_sessions_refused],
      [credential_gate_exact]) and what is accepted is delivered in order, once
      ([router_delivers]); the codecs are exact ([presence_codec_exact],
      [backbone_codec_exact], [trace_context_exact]).
    - Relay to Relay: while edges cost the same a message reaches the owner of its
      destination ([control_delivered]), forwarding always ends
      ([forwarding_bounded]), and nothing leaves a Relay that is not bound to the
      Peer that sent it ([peer_source_bound]). Three theorems state where the code
      falls short: with weighted edges a message can run out of hops
      ([weighted_route_refused]), an oversized message ends a link
      ([oversized_ends_link]), and under a sparse topology the announcements of an
      opening link are refused ([link_opening]).
    - Tunnels and addresses: a packet is sealed or released by the engine only while its
      caller authorizes it, also when it waited ([drained_plaintext_current],
      [received_plaintext_gated]), what waited for a session arrives in order, once
      ([tunnel_delivers]), and the engine stays within its limits ([engine_bounded]). A
      STUN answer is believed when it was solicited, only then, once, and never beyond the two seconds of its transaction
      ([accepted_mapping_solicited], [stun_observes]); the schedule and the public
      server are bounded ([stun_bounded], [stun_server_rate]). A PCP lease is what the
      gateway granted ([pcp_lease_exact]) and keeps its identity over renewals
      ([lease_keeps_mapping]).
    - Paths: a direct path is used only while a probe of this host, sent on exactly
      that path, was answered recently by that Peer ([path_is_proven]); an answered
      check opens its path ([answered_check_opens_path]); whatever Peers send, tracks,
      candidates, checks and routes stay bounded ([connectivity_bounded]). The search
      finds what the path carries, up to the step, within a bounded number of probes
      ([mtu_search_converges]) and a probe fills exactly the size it tests
      ([probe_fills_mtu]). The codec is exact ([coordination_codec_exact]) and
      accepted by the parser of the other side ([coordination_travels]); candidates that
      differ only in a flow label are encoded and then refused ([flow_label_refused]).

    ** Bounds and fuel

    Some loops are not structural. [chunks_fuel] runs with the length of the slice,
    since every chunk is non-empty; [fold_carries] (Packet.v) with the two rounds
    that bring any [u32] below 2^16; [expire_loop]
    (Reassembly.v) with the number of deadlines, each turn removing one;
    [search_loop] (Topology.v) with the turns [search_fuel] counts for the largest
    degree of the graph, since paths have at most four hops. [read_loop] and [drain]
    (Wire.v) run with the number of segments and bytes left. [drain_payloads]
    (RelayMesh.v) has the 64 turns of the loop it models; [parse_attributes] (Stun.v) the
    length of the message, each turn consuming four bytes; [follow] (Dns.v), which walks
    a chain of aliases, one more than the number of records; [answer_loop] (Dns.v) the
    16 turns of the loop it models. In each other case a lemma
    shows that the fuel suffices, and the theorems are about the complete function.
    The numeric limits are the code's: 2^20 messages per key, 32 frames and 256 KiB
    per reassembler, 4096 relays, 8 overlapping authorities, 256 tracks with 4 checks each of which 64
    per mesh and 256 per process, and so on.

    ** Not modelled

    Sockets, TUN devices, tokio tasks, files, HTTP handlers, PostgreSQL statements,
    command lines and user interfaces (peerward-peer, -control, -store, -api,
    -service, -platform, -updater, -cli, apps/) are input and output around the core.
    The codec of the directory is serde. Of peerward-management, the requests of
    enrollment, credential renewal, Peer commands and addresses are not modelled, nor
    the comparison of two configurations and the wrapper that delivers one. Of the Relay, the listeners,
    the timers and loops that connect and drive a link, and the session task of a Peer
    are not modelled: their steps are. A handler of RelayMesh.v is one step, so
    interleavings inside a handler are not considered. The WireGuard runtime of
    peerward-peer-core (wireguard_runtime.rs, its directory, resources, gateways,
    policy and checkpoints) drives the modelled engine, firewall, policy and
    connectivity from one state; none of its handlers is modelled, so the authorization
    callbacks of WgEngine.v are arbitrary. Of peerward-p2p, the resolver and
    the loops that own a socket are not modelled; zeroizing of the engine's queue is
    not either, and the order it visits its map in is an argument.
    Parsing one endpoint string is the url crate plus the text forms of addresses.
    Secrets, randomness and constant-time behaviour are outside the model. *)

From Stdlib Require Import ZArith NArith Lia.
From stdpp Require Import base tactics decidable countable numbers list sorting gmap fin_maps fin_sets.
From Stdlib.Init Require Import Byte.

Set Default Goal Selector "!".

Declare Scope rust_scope.
Delimit Scope rust_scope with rust.

(** ** Outcomes of Rust code

    [Ok] and [Err] are the two constructors of [Result]; [Panic] is an
    out-of-range index, a failed [expect] or an arithmetic overflow. *)

Inductive outcome (E A : Type) : Type :=
| Ok (a : A)
| Err (e : E)
| Panic.
Arguments Ok {E A} a.
Arguments Err {E A} e.
Arguments Panic {E A}.

#[export] Instance outcome_eq_dec {E A} `{EqDecision E} `{EqDecision A} :
  EqDecision (outcome E A).
Proof. solve_decision. Defined.

#[export] Instance outcome_bind E : MBind (outcome E) := fun A B f m =>
  match m with Ok a => f a | Err e => Err e | Panic => Panic end.
#[export] Instance outcome_ret E : MRet (outcome E) := fun A a => Ok a.
#[export] Instance outcome_fmap E : FMap (outcome E) := fun A B f m =>
  match m with Ok a => Ok (f a) | Err e => Err e | Panic => Panic end.

(** [Option::ok_or] *)
Definition ok_or {E A} (o : option A) (e : E) : outcome E A :=
  match o with Some a => Ok a | None => Err e end.

(** [Result::map_err] *)
Definition map_err {E F A} (f : E -> F) (m : outcome E A) : outcome F A :=
  match m with Ok a => Ok a | Err e => Err (f e) | Panic => Panic end.

(** [Option::expect], and every operation whose failure aborts. *)
Definition expect {E A} (o : option A) : outcome E A :=
  match o with Some a => Ok a | None => Panic end.

Definition is_ok {E A} (m : outcome E A) : bool :=
  match m with Ok _ => true | _ => false end.

Definition no_panic {E A} (m : outcome E A) : Prop := m <> Panic.

Lemma bind_Ok {E A B} (m : outcome E A) (f : A -> outcome E B) b :
  m ≫= f = Ok b <-> exists a, m = Ok a /\ f a = Ok b.
Proof. destruct m; cbn; naive_solver. Qed.

Lemma no_panic_Ok {E A} (a : A) : @no_panic E A (Ok a).
Proof. by unfold no_panic. Qed.
Lemma no_panic_Err {E A} (e : E) : @no_panic E A (Err e).
Proof. by unfold no_panic. Qed.
Lemma no_panic_bind {E A B} (m : outcome E A) (f : A -> outcome E B) :
  no_panic m -> (forall a, m = Ok a -> no_panic (f a)) -> no_panic (m ≫= f).
Proof. unfold no_panic. destruct m; cbn; naive_solver. Qed.
Lemma no_panic_ok_or {E A} (o : option A) (e : E) : no_panic (ok_or o e).
Proof. by destruct o. Qed.
Lemma no_panic_map_err {E F A} (f : E -> F) (m : outcome E A) :
  no_panic m -> no_panic (map_err f m).
Proof. by destruct m. Qed.
Lemma no_panic_expect {E A} (o : option A) : is_Some o -> @no_panic E A (expect o).
Proof. by intros [? ->]. Qed.

Lemma Ok_inj {E A} (a b : A) : Ok (E:=E) a = Ok b -> a = b.
Proof. by injection 1. Qed.
Lemma pair_snd {A B} (p : A * B) b : p.2 = b -> p = (p.1, b).
Proof. by destruct p as [x y]; intros <-. Qed.

Create HintDb rust.
#[export] Hint Resolve no_panic_Ok no_panic_Err no_panic_ok_or no_panic_map_err : rust.

(** ** Machine integers: unsigned Rust integers are [N], kept below their width. *)

Local Open Scope N_scope.

Definition U8_MAX : N := 0xff.
Definition U16_MAX : N := 0xffff.
Definition U32_MAX : N := 0xffff_ffff.
Definition U64_MAX : N := 0xffff_ffff_ffff_ffff.
(** [usize] on the 64-bit targets. *)
Definition USIZE_MAX : N := U64_MAX.

(** [u64::saturating_add]; [saturating_sub] is [N.sub]. *)
Definition sat_add (a b : N) : N := N.min (a + b) U64_MAX.

Definition checked_add (a b : N) : option N :=
  if a + b <=? U64_MAX then Some (a + b) else None.

(** [u32] addition; overflow aborts. *)
Definition add_u32 {E} (a b : N) : outcome E N :=
  if a + b <=? U32_MAX then Ok (a + b) else Panic.

(** [usize::div_ceil] *)
Definition div_ceil (a b : N) : N := (a + b - 1) / b.

Lemma sat_add_le a b : a <= U64_MAX -> a <= sat_add a b.
Proof. unfold sat_add. lia. Qed.
Lemma sat_add_ge_r a b : sat_add a b <= a + b.
Proof. unfold sat_add. lia. Qed.
Lemma sat_add_mono a a' b : a <= a' -> sat_add a b <= sat_add a' b.
Proof. unfold sat_add. lia. Qed.

Lemma add_u32_Ok {E} a b : a + b <= U32_MAX -> @add_u32 E a b = Ok (a + b).
Proof. unfold add_u32. intros ?%N.leb_le. by rewrite H. Qed.

Lemma div_ceil_spec a b : 0 < b -> a <= div_ceil a b * b /\ div_ceil a b * b < a + b.
Proof.
  intros Hb. unfold div_ceil.
  pose proof (N.div_mod (a + b - 1) b ltac:(lia)) as Hd.
  pose proof (N.mod_lt (a + b - 1) b ltac:(lia)) as Hr.
  revert Hd Hr. generalize ((a + b - 1) / b), ((a + b - 1) mod b). intros q r Hd Hr.
  rewrite (N.mul_comm q b). generalize dependent (b * q). intros; lia.
Qed.

(** ** Bytes and big-endian integers *)

#[export] Instance byte_eq_dec : EqDecision byte := Byte.byte_eq_dec.
#[export] Instance byte_inhabited : Inhabited byte := populate x00.

Definition u8 (b : byte) : N := Byte.to_N b.
Definition byte_of (n : N) : byte :=
  match Byte.of_N (n mod 256) with Some b => b | None => x00 end.

Lemma u8_lt b : u8 b < 256.
Proof. pose proof (Byte.to_N_bounded b). unfold u8. lia. Qed.

Lemma u8_byte_of n : u8 (byte_of n) = n mod 256.
Proof.
  unfold u8, byte_of. pose proof (N.mod_lt n 256 ltac:(lia)) as Hlt.
  destruct (Byte.of_N (n mod 256)) eqn:Hb.
  - by apply Byte.to_of_N.
  - apply Byte.of_N_None_iff in Hb. lia.
Qed.

Lemma byte_of_u8 b : byte_of (u8 b) = b.
Proof.
  unfold byte_of, u8. rewrite N.mod_small by (apply u8_lt).
  by rewrite Byte.of_to_N.
Qed.

Lemma u8_inj a b : u8 a = u8 b -> a = b.
Proof. intros H. by rewrite <- (byte_of_u8 a), H, byte_of_u8. Qed.

#[export] Instance byte_countable : Countable byte.
Proof. apply (inj_countable' u8 byte_of), byte_of_u8. Defined.

Definition lenN {A} (l : list A) : N := N.of_nat (length l).

Lemma lenN_nil {A} : lenN (@nil A) = 0.
Proof. done. Qed.
Lemma lenN_cons {A} (x : A) l : lenN (x :: l) = lenN l + 1.
Proof. unfold lenN. cbn [length]. lia. Qed.
Lemma lenN_app {A} (l k : list A) : lenN (l ++ k) = lenN l + lenN k.
Proof. unfold lenN. rewrite length_app. lia. Qed.
Lemma lenN_take {A} n (l : list A) : lenN (take (N.to_nat n) l) = N.min n (lenN l).
Proof. unfold lenN. rewrite length_take. lia. Qed.
Lemma lenN_drop {A} n (l : list A) : lenN (drop (N.to_nat n) l) = lenN l - n.
Proof. unfold lenN. rewrite length_drop. lia. Qed.

(** [from_be_bytes] of any width, and [to_be_bytes] at [n] bytes. *)
Definition from_be (bs : list byte) : N := foldl (fun acc b => acc * 256 + u8 b) 0 bs.
Fixpoint to_be (n : nat) (v : N) : list byte :=
  match n with
  | O => []
  | S n' => byte_of (v / 256 ^ N.of_nat n') :: to_be n' (v mod 256 ^ N.of_nat n')
  end.

Lemma length_to_be n v : length (to_be n v) = n.
Proof. revert v. induction n; intros; cbn; [done|]. by rewrite IHn. Qed.
Lemma lenN_to_be n v : lenN (to_be n v) = N.of_nat n.
Proof. unfold lenN. by rewrite length_to_be. Qed.

Lemma from_be_acc bs acc :
  foldl (fun acc b => acc * 256 + u8 b) acc bs = acc * 256 ^ lenN bs + from_be bs.
Proof.
  unfold from_be. revert acc. induction bs as [|b bs IH]; intros acc; cbn [foldl].
  - change (256 ^ lenN []) with 1. lia.
  - rewrite IH, (IH (0 * 256 + u8 b)), lenN_cons, N.pow_add_r, N.pow_1_r. lia.
Qed.

Lemma from_be_cons b bs : from_be (b :: bs) = u8 b * 256 ^ lenN bs + from_be bs.
Proof. unfold from_be. cbn [foldl]. rewrite from_be_acc. unfold from_be. lia. Qed.

Lemma from_be_app l k : from_be (l ++ k) = from_be l * 256 ^ lenN k + from_be k.
Proof. unfold from_be at 1. rewrite foldl_app. apply from_be_acc. Qed.

Lemma from_be_lt bs : from_be bs < 256 ^ lenN bs.
Proof.
  induction bs as [|b bs IH]; [done|].
  rewrite from_be_cons, lenN_cons, N.pow_add_r, N.pow_1_r.
  pose proof (u8_lt b). nia.
Qed.

Lemma from_be_to_be n v : v < 256 ^ N.of_nat n -> from_be (to_be n v) = v.
Proof.
  revert v. induction n as [|n IH]; intros v Hv; [cbn in *; lia|].
  cbn [to_be]. rewrite from_be_cons, lenN_to_be, u8_byte_of.
  assert (0 < 256 ^ N.of_nat n) by (apply N.neq_0_lt_0, N.pow_nonzero; lia).
  rewrite IH by (apply N.mod_lt; lia).
  rewrite N.mod_small.
  - rewrite (N.div_mod v (256 ^ N.of_nat n)) at 3 by lia. lia.
  - apply N.Div0.div_lt_upper_bound. rewrite Nat2N.inj_succ, N.pow_succ_r' in Hv. lia.
Qed.

Lemma to_be_from_be bs : to_be (length bs) (from_be bs) = bs.
Proof.
  induction bs as [|b bs IH]; [done|].
  cbn [length to_be]. rewrite from_be_cons. unfold lenN.
  pose proof (from_be_lt bs) as Hlt. unfold lenN in Hlt.
  set (m := 256 ^ N.of_nat (length bs)) in *.
  rewrite N.div_add_l by lia. rewrite N.div_small, N.add_0_r by done.
  rewrite byte_of_u8. f_equal.
  rewrite N.add_comm, N.Div0.mod_add, N.mod_small by done. apply IH.
Qed.

Lemma to_be_from_be' n bs : length bs = n -> to_be n (from_be bs) = bs.
Proof. intros <-. apply to_be_from_be. Qed.

Lemma from_be_inj l k : length l = length k -> from_be l = from_be k -> l = k.
Proof.
  intros Hlen Heq. rewrite <- (to_be_from_be l), <- (to_be_from_be k). by rewrite Hlen, Heq.
Qed.

Lemma to_be_inj n v w :
  v < 256 ^ N.of_nat n -> w < 256 ^ N.of_nat n -> to_be n v = to_be n w -> v = w.
Proof. intros Hv Hw H. by rewrite <- (from_be_to_be n v), H, from_be_to_be. Qed.

Definition u16_be (a b : byte) : N := from_be [a; b].
Lemma u16_be_lt a b : u16_be a b < 0x1_0000.
Proof. apply (from_be_lt [a; b]). Qed.
Lemma u16_be_eq a b : u16_be a b = u8 a * 256 + u8 b.
Proof. unfold u16_be, from_be. cbn [foldl]. lia. Qed.

(** ** Signed 64-bit integers: [i64] is [Z], its [to_be_bytes] two's complement. *)
Definition i64_ok (z : Z) : Prop := (- 2 ^ 63 <= z < 2 ^ 63)%Z.
#[export] Instance i64_ok_dec z : Decision (i64_ok z).
Proof. unfold i64_ok. apply _. Defined.
Definition i64_to_be (z : Z) : list byte := to_be 8 (Z.to_N (z mod 2 ^ 64)).
Definition i64_from_be (bs : list byte) : Z :=
  let n := Z.of_N (from_be bs) in if (n <? 2 ^ 63)%Z then n else (n - 2 ^ 64)%Z.

Lemma lenN_i64 z : lenN (i64_to_be z) = 8.
Proof. apply lenN_to_be. Qed.
Lemma i64_roundtrip z : i64_ok z -> i64_from_be (i64_to_be z) = z.
Proof.
  unfold i64_ok, i64_from_be, i64_to_be. intros Hz.
  pose proof (Z.mod_pos_bound z (2 ^ 64) ltac:(lia)) as Hm.
  rewrite from_be_to_be by lia. rewrite Z2N.id by lia.
  destruct (Z.leb_spec 0 z).
  - rewrite Z.mod_small by lia. case_match; lia.
  - assert (z mod 2 ^ 64 = z + 2 ^ 64)%Z as ->; [|case_match; lia].
    symmetry. apply (Z.mod_unique_pos _ _ (-1)); lia.
Qed.
Lemma i64_from_be_ok bs : lenN bs = 8 -> i64_ok (i64_from_be bs) /\ i64_to_be (i64_from_be bs) = bs.
Proof.
  intros Hl. pose proof (from_be_lt bs) as Hlt. rewrite Hl in Hlt. change (256 ^ 8) with (2 ^ 64) in Hlt.
  unfold i64_ok, i64_to_be, i64_from_be.
  assert (Hm : Z.to_N ((if (Z.of_N (from_be bs) <? 2 ^ 63)%Z then Z.of_N (from_be bs)
                        else Z.of_N (from_be bs) - 2 ^ 64) mod 2 ^ 64)%Z = from_be bs).
  { case_match; [rewrite Z.mod_small; lia|].
    rewrite <-(Z.mod_unique_pos _ (2 ^ 64) (-1) (Z.of_N (from_be bs))); lia. }
  split; [case_match; lia|]. rewrite Hm. apply to_be_from_be'. unfold lenN in Hl. lia.
Qed.
Lemma i64_to_be_inj y z : i64_ok y -> i64_ok z -> i64_to_be y = i64_to_be z -> y = z.
Proof. intros Hy Hz He. by rewrite <-(i64_roundtrip y), He, i64_roundtrip. Qed.

(** ** Slices: [s[i]], [s[a..b]], [s[a..]] abort out of range; [get] does not. *)

Definition index {E} (bs : list byte) (i : N) : outcome E byte :=
  expect (bs !! N.to_nat i).
Definition slice {E} (bs : list byte) (a b : N) : outcome E (list byte) :=
  if (a <=? b) && (b <=? lenN bs)
  then Ok (take (N.to_nat (b - a)) (drop (N.to_nat a) bs)) else Panic.
Definition slice_from {E} (bs : list byte) (a : N) : outcome E (list byte) :=
  slice bs a (lenN bs).
Definition get_slice (bs : list byte) (a b : N) : option (list byte) :=
  if (a <=? b) && (b <=? lenN bs)
  then Some (take (N.to_nat (b - a)) (drop (N.to_nat a) bs)) else None.
(** [bs[a..a + new.len()].copy_from_slice(new)] *)
Definition copy_at {E} (bs : list byte) (a : N) (new : list byte) : outcome E (list byte) :=
  if a + lenN new <=? lenN bs
  then Ok (take (N.to_nat a) bs ++ new ++ drop (N.to_nat (a + lenN new)) bs) else Panic.
(** [u16::from_be_bytes([bs[i], bs[i + 1]])] *)
Definition be16_at {E} (bs : list byte) (i : N) : outcome E N :=
  a ← index bs i; b ← index bs (i + 1); mret (u16_be a b).

Lemma index_is_Ok {E} bs i : i < lenN bs -> exists b, @index E bs i = Ok b.
Proof.
  intros Hi. unfold index. destruct (bs !! N.to_nat i) as [b|] eqn:Hb; [by exists b|].
  apply lookup_ge_None in Hb. unfold lenN in Hi. lia.
Qed.
Lemma no_panic_index {E} bs i : i < lenN bs -> no_panic (@index E bs i).
Proof. intros [b ->]%(@index_is_Ok E). by apply no_panic_Ok. Qed.
Lemma no_panic_slice {E} bs a b : a <= b -> b <= lenN bs -> no_panic (@slice E bs a b).
Proof.
  intros Ha Hb. unfold slice.
  apply N.leb_le in Ha, Hb. rewrite Ha, Hb. by apply no_panic_Ok.
Qed.
Lemma no_panic_slice_from {E} bs a : a <= lenN bs -> no_panic (@slice_from E bs a).
Proof. intros. by apply no_panic_slice. Qed.
Lemma no_panic_be16_at {E} bs i : i + 1 < lenN bs -> no_panic (@be16_at E bs i).
Proof.
  intros Hi. apply no_panic_bind; [apply no_panic_index; lia|]. intros.
  apply no_panic_bind; [apply no_panic_index; lia|]. intros. apply no_panic_Ok.
Qed.
Lemma no_panic_copy_at {E} bs a new :
  a + lenN new <= lenN bs -> no_panic (@copy_at E bs a new).
Proof. intros H%N.leb_le. unfold copy_at. rewrite H. by apply no_panic_Ok. Qed.
#[export] Hint Resolve no_panic_index no_panic_slice no_panic_slice_from
  no_panic_be16_at no_panic_copy_at : rust.

Lemma slice_Ok {E} bs a b r :
  @slice E bs a b = Ok r <->
  a <= b /\ b <= lenN bs /\ r = take (N.to_nat (b - a)) (drop (N.to_nat a) bs).
Proof.
  unfold slice. destruct (N.leb_spec a b), (N.leb_spec b (lenN bs)); cbn; naive_solver lia.
Qed.
Lemma slice_0_Ok {E} bs b r :
  @slice E bs 0 b = Ok r <-> b <= lenN bs /\ r = take (N.to_nat b) bs.
Proof.
  rewrite slice_Ok, N.sub_0_r. change (N.to_nat 0) with 0%nat. rewrite drop_0. naive_solver lia.
Qed.
Lemma slice_len {E} bs a b r : @slice E bs a b = Ok r -> lenN r = b - a.
Proof. intros (?&?&->)%slice_Ok. rewrite lenN_take, lenN_drop. lia. Qed.
Lemma slice_from_Ok {E} bs a r :
  @slice_from E bs a = Ok r <-> a <= lenN bs /\ r = drop (N.to_nat a) bs.
Proof.
  unfold slice_from. rewrite slice_Ok. split.
  - intros (?&_&->). split; [done|]. apply take_ge. rewrite length_drop. unfold lenN. lia.
  - intros [? ->]. split_and!; [done|lia|]. symmetry. apply take_ge.
    rewrite length_drop. unfold lenN. lia.
Qed.
Lemma slice_from_len {E} bs a r : @slice_from E bs a = Ok r -> lenN r = lenN bs - a.
Proof. apply slice_len. Qed.
Lemma copy_at_len {E} bs a new r : @copy_at E bs a new = Ok r -> lenN r = lenN bs.
Proof.
  unfold copy_at. destruct (N.leb_spec (a + lenN new) (lenN bs)); [|done].
  intros [= <-]. rewrite !lenN_app, lenN_take, lenN_drop. lia.
Qed.
Lemma copy_at_lookup {E} bs a new r (i : nat) :
  @copy_at E bs a new = Ok r ->
  r !! i = if decide (N.to_nat a <= i < N.to_nat a + length new)%nat
           then new !! (i - N.to_nat a)%nat else bs !! i.
Proof.
  unfold copy_at. destruct (N.leb_spec (a + lenN new) (lenN bs)) as [Hle|]; [|done].
  intros [= <-]. unfold lenN in *. rewrite !lookup_app, length_take, lookup_take, lookup_drop.
  replace (N.to_nat a `min` length bs)%nat with (N.to_nat a) by lia.
  destruct (decide (i < N.to_nat a)%nat) as [Hi|Hi].
  - destruct (bs !! i) eqn:Hb; [by rewrite decide_False by lia|].
    apply lookup_ge_None in Hb. lia.
  - destruct (decide _) as [Hin|Hout].
    + destruct (new !! (i - N.to_nat a)%nat) eqn:Hn; [done|]. apply lookup_ge_None in Hn. lia.
    + rewrite (proj2 (lookup_ge_None new _)) by lia. f_equal. lia.
Qed.

Lemma slice_app {E} (x y z : list byte) a b :
  a = lenN x -> b = lenN x + lenN y -> @slice E (x ++ y ++ z) a b = Ok y.
Proof.
  intros -> ->. apply slice_Ok. rewrite !lenN_app. split; [lia|]. split; [lia|].
  unfold lenN. rewrite skipn_app, skipn_all2 by lia. cbn [app].
  match goal with |- _ = take ?n (drop ?m _) => replace n with (length y) by lia; replace m with 0%nat by lia end.
  by rewrite drop_0, take_app_length.
Qed.
(** Reading past a known prefix, and joining adjacent reads. *)
Lemma slice_skip {E} (x r : list byte) a b :
  lenN x <= a -> a <= b -> @slice E (x ++ r) a b = slice r (a - lenN x) (b - lenN x).
Proof.
  intros Ha Hb. unfold slice. rewrite lenN_app.
  destruct (N.leb_spec a b), (N.leb_spec (a - lenN x) (b - lenN x)),
    (N.leb_spec b (lenN x + lenN r)), (N.leb_spec (b - lenN x) (lenN r)); cbn; try lia; try done.
  f_equal. rewrite drop_app_ge by (unfold lenN in *; lia).
  f_equal; [lia|]. f_equal. unfold lenN in *. lia.
Qed.
Lemma slice_here {E} (y z : list byte) b : b = lenN y -> @slice E (y ++ z) 0 b = Ok y.
Proof. intros ->. apply slice_0_Ok. rewrite lenN_app. split; [lia|]. unfold lenN. by rewrite Nat2N.id, take_app_length. Qed.
Lemma slice_join {E} bs a b c x y :
  @slice E bs a b = Ok x -> @slice E bs b c = Ok y -> @slice E bs a c = Ok (x ++ y).
Proof.
  rewrite !slice_Ok. intros (Hab & _ & ->) (Hbc & Hc & ->). split_and!; [lia|done|].
  replace (drop (N.to_nat b) bs) with (drop (N.to_nat (b - a)) (drop (N.to_nat a) bs)) by (rewrite drop_drop; f_equal; lia).
  rewrite take_take_drop. f_equal. lia.
Qed.
Lemma slice_all {E} bs n x : @slice E bs 0 n = Ok x -> n = lenN bs -> x = bs.
Proof. rewrite slice_0_Ok. intros [_ ->] ->. unfold lenN. by rewrite Nat2N.id, firstn_all. Qed.

Lemma be16_at_app {E} (x z : list byte) v a :
  v < 0x1_0000 -> a = lenN x -> @be16_at E (x ++ to_be 2 v ++ z) a = Ok v.
Proof.
  intros Hv ->. pose proof (from_be_to_be 2 v Hv) as Hr. pose proof (length_to_be 2 v) as Hl.
  destruct (to_be 2 v) as [|b0 [|b1 [|]]]; try done. unfold be16_at, index, lenN.
  replace (N.to_nat (N.of_nat (length x))) with (length x + 0)%nat by lia.
  replace (N.to_nat (N.of_nat (length x) + 1)) with (length x + 1)%nat by lia.
  assert (Hat : forall (k : list byte) i, (x ++ k) !! (length x + i)%nat = k !! i).
  { intros k i. rewrite lookup_app_r by lia. f_equal. lia. }
  rewrite !Hat. exact (f_equal Ok Hr).
Qed.

Lemma copy_at_other {E} bs a new r (i : nat) :
  @copy_at E bs a new = Ok r -> ~ (N.to_nat a <= i < N.to_nat a + length new)%nat -> r !! i = bs !! i.
Proof. intros Hr Hi. rewrite (copy_at_lookup _ _ _ _ i Hr). by rewrite decide_False. Qed.

Lemma index_Ok {E} bs i b : @index E bs i = Ok b <-> bs !! N.to_nat i = Some b.
Proof. unfold index. destruct (bs !! _); cbn; naive_solver. Qed.
Lemma be16_at_lt {E} bs i v : @be16_at E bs i = Ok v -> v < 0x1_0000.
Proof.
  unfold be16_at. intros (a & _ & (b & _ & [= <-])%bind_Ok)%bind_Ok. apply u16_be_lt.
Qed.

Lemma list_pair_ind {A} (P : list A -> Prop) :
  P [] -> (forall a, P [a]) -> (forall a b l, P l -> P (a :: b :: l)) -> forall l, P l.
Proof.
  intros H0 H1 H2. fix IH 1. intros [|a [|b l]]; [exact H0|exact (H1 a)|exact (H2 a b l (IH l))].
Qed.

(** ** Loops *)

(** [for x in l { .. }] with [?] inside, over a state. *)
Fixpoint foldM {E S A} (f : S -> A -> outcome E S) (s : S) (l : list A) : outcome E S :=
  match l with
  | [] => Ok s
  | x :: l' => s' ← f s x; foldM f s' l'
  end.
(** [for _ in 0..n { .. }] *)
Fixpoint for_n {E S} (n : nat) (f : S -> outcome E S) (s : S) : outcome E S :=
  match n with
  | O => Ok s
  | S n' => s' ← f s; for_n n' f s'
  end.

Lemma no_panic_for_n {E S} n (f : S -> outcome E S) s :
  (forall s, no_panic (f s)) -> no_panic (for_n n f s).
Proof.
  intros Hf. revert s. induction n as [|n IH]; intros s; cbn; [apply no_panic_Ok|].
  apply no_panic_bind; auto.
Qed.
Lemma no_panic_for_n_inv {E S} (P : S -> Prop) n (f : S -> outcome E S) s :
  P s -> (forall s, P s -> no_panic (f s)) -> (forall s s', P s -> f s = Ok s' -> P s') ->
  no_panic (for_n n f s).
Proof.
  intros Hs Hf HP. revert s Hs. induction n as [|n IH]; intros s Hs; cbn; [apply no_panic_Ok|].
  apply no_panic_bind; eauto.
Qed.
Lemma for_n_inv {E S} (P : S -> Prop) n (f : S -> outcome E S) s s' :
  P s -> (forall s s', P s -> f s = Ok s' -> P s') -> for_n n f s = Ok s' -> P s'.
Proof.
  intros Hs HP. revert s Hs. induction n as [|n IH]; intros s Hs; cbn; [by intros [= <-]|].
  intros (s1 & H1 & H2)%bind_Ok. eauto.
Qed.
Lemma no_panic_foldM {E S A} (f : S -> A -> outcome E S) s l :
  (forall s x, no_panic (f s x)) -> no_panic (foldM f s l).
Proof.
  intros Hf. revert s. induction l as [|x l IH]; intros s; cbn; [apply no_panic_Ok|].
  apply no_panic_bind; auto.
Qed.

Lemma foldM_ind {E S A} (P : list A -> S -> Prop) (f : S -> A -> outcome E S) l s s' :
  P [] s -> (forall seen s x s', P seen s -> f s x = Ok s' -> P (seen ++ [x]) s') -> foldM f s l = Ok s' -> P l s'.
Proof.
  intros H0 Hf. change l with ([] ++ l) at 2. revert H0. generalize (@nil A) as seen. revert s.
  induction l as [|x l IH]; intros s seen Hs; cbn [foldM]; [by intros [= <-]; rewrite app_nil_r|].
  intros (s1 & H1 & H2)%bind_Ok. replace (seen ++ x :: l) with ((seen ++ [x]) ++ l) by by rewrite <-app_assoc. eapply IH; eauto.
Qed.

Lemma NoDup_snoc {A} (l : list A) x : NoDup l -> x ∉ l -> NoDup (l ++ [x]).
Proof. intros Hl Hx. apply NoDup_app. split_and!; [done|by intros y Hy ->%list_elem_of_singleton|apply NoDup_singleton]. Qed.

(** ** Automation *)

(** Turn the boolean tests of the code into propositions, in every hypothesis. *)
Ltac breflect :=
  repeat match goal with
  | H : negb _ = true |- _ => apply negb_true_iff in H
  | H : negb _ = false |- _ => apply negb_false_iff in H
  | H : (_ && _) = true |- _ => apply andb_true_iff in H; destruct H
  | H : (_ && _) = false |- _ => apply andb_false_iff in H
  | H : (_ || _) = true |- _ => apply orb_true_iff in H
  | H : (_ || _) = false |- _ => apply orb_false_iff in H; destruct H
  | H : (_ =? _) = true |- _ => apply N.eqb_eq in H
  | H : (_ =? _) = false |- _ => apply N.eqb_neq in H
  | H : (_ <? _) = true |- _ => apply N.ltb_lt in H
  | H : (_ <? _) = false |- _ => apply N.ltb_ge in H
  | H : (_ <=? _) = true |- _ => apply N.leb_le in H
  | H : (_ <=? _) = false |- _ => apply N.leb_gt in H
  | H : _ \/ _ |- _ =>
      progress rewrite ?andb_true_iff, ?andb_false_iff, ?orb_true_iff, ?orb_false_iff,
        ?negb_true_iff, ?negb_false_iff, ?N.eqb_eq, ?N.eqb_neq, ?N.ltb_lt, ?N.ltb_ge,
        ?N.leb_le, ?N.leb_gt in H
  end.

(** Invert a successful run of a computation written with binds and early
    returns: every test and every intermediate result becomes a hypothesis. *)
Ltac inv_ok :=
  repeat match goal with
  | H : Ok _ = Ok _ |- _ => injection H as H
  | H : Err _ = Ok _ |- _ => discriminate H
  | H : Panic = Ok _ |- _ => discriminate H
  | H : true = false |- _ => discriminate H
  | H : false = true |- _ => discriminate H
  | H : ?x = ?x |- _ => clear H
  | H : mret _ = Ok _ |- _ => change (@Ok _ _ _ = Ok _) in H
  | H : (_ ≫= _) = Ok _ |- _ =>
      apply bind_Ok in H; let a := fresh "r" in let Ha := fresh "Hr" in
      destruct H as (a & Ha & H)
  | H : (if ?b then _ else _) = Ok _ |- _ => let Hb := fresh "Hb" in destruct b eqn:Hb
  | H : (match ?x with _ => _ end) = Ok _ |- _ => let Hx := fresh "Hx" in destruct x eqn:Hx
  end; breflect; try discriminate.

Lemma no_panic_fmap {E A B} (f : A -> B) (m : outcome E A) :
  no_panic m -> no_panic (f <$> m).
Proof. by destruct m. Qed.

(** Panic freedom: split binds and tests; [rust] closes the guarded accesses. *)
Ltac panic_step :=
  match goal with
  | |- no_panic (Ok _) => apply no_panic_Ok
  | |- no_panic (mret _) => apply no_panic_Ok
  | |- no_panic (Err _) => apply no_panic_Err
  | |- no_panic (_ ≫= _) => apply no_panic_bind; [|intros ? ?]
  | |- no_panic (_ <$> _) => apply no_panic_fmap
  | |- no_panic (if ?b then _ else _) => let Hb := fresh "Hb" in destruct b eqn:Hb; breflect
  | |- no_panic (match ?x with _ => _ end) => let Hx := fresh "Hx" in destruct x eqn:Hx; breflect
  end.

Lemma fmap_Ok {E A B} (f : A -> B) (m : outcome E A) b :
  f <$> m = Ok b <-> exists a, m = Ok a /\ f a = b.
Proof. destruct m; cbn; naive_solver. Qed.

Ltac panic_free := repeat first [ panic_step | solve [eauto with rust] | solve [apply no_panic_index; lia]
  | solve [apply no_panic_slice; lia] | solve [apply no_panic_slice_from; lia]
  | solve [apply no_panic_be16_at; lia] | solve [apply no_panic_copy_at; lia] ].

(** ** Maps *)
Lemma size_delete_le {K V} `{Countable K} (m : gmap K V) k : (size (delete k m) <= size m)%nat.
Proof.
  destruct (m !! k) as [v|] eqn:Hk.
  - rewrite map_size_delete_Some by eauto. lia.
  - by rewrite delete_id.
Qed.

(** ** [slice::chunks] *)

(** The fuel is the length of the slice. *)
Fixpoint chunks_fuel (fuel stride : nat) (l : list byte) : list (list byte) :=
  match fuel, l with
  | _, [] => []
  | O, _ => []
  | S fuel', _ => take stride l :: chunks_fuel fuel' stride (drop stride l)
  end.
Definition chunks (stride : N) (l : list byte) : list (list byte) :=
  chunks_fuel (length l) (N.to_nat stride) l.

Lemma chunks_fuel_lookup fuel stride l (i : nat) :
  (0 < stride)%nat -> (length l <= fuel)%nat ->
  chunks_fuel fuel stride l !! i =
  if decide (i * stride < length l)%nat then Some (take stride (drop (i * stride) l)) else None.
Proof.
  intros Hst. revert l i. induction fuel as [|fuel IH]; intros l i Hf.
  { destruct l; [|cbn in Hf; lia]. cbn. case_decide; [lia|done]. }
  destruct l as [|b l].
  { cbn. case_decide; [lia|done]. }
  cbn [chunks_fuel]. destruct i as [|i]; cbn [lookup list_lookup].
  - by rewrite decide_True by (cbn; lia).
  - change ((chunks_fuel fuel stride (drop stride (b :: l))) !! i =
      if decide (S i * stride < length (b :: l))%nat
      then Some (take stride (drop (S i * stride) (b :: l))) else None).
    rewrite IH by (rewrite length_drop; cbn in *; lia). rewrite drop_drop, length_drop.
    replace (S i * stride)%nat with (stride + i * stride)%nat by lia.
    destruct (decide (i * stride < length (b :: l) - stride)%nat),
      (decide (stride + i * stride < length (b :: l))%nat); try done; lia.
Qed.

(** The bytes of fragment [index]. *)
Definition chunk (frame : list byte) (stride index : N) : list byte :=
  take (N.to_nat stride) (drop (N.to_nat (index * stride)) frame).
Lemma chunks_lookup stride l i :
  0 < stride ->
  chunks stride l !! N.to_nat i = if i * stride <? lenN l then Some (chunk l stride i) else None.
Proof.
  intros Hs. unfold chunks, chunk. rewrite chunks_fuel_lookup by lia. unfold lenN.
  rewrite N2Nat.inj_mul.
  destruct (decide _), (N.ltb_spec (i * stride) (N.of_nat (length l))); try done; lia.
Qed.
Lemma chunk_len frame stride i :
  lenN (chunk frame stride i) = N.min stride (lenN frame - i * stride).
Proof. unfold chunk. rewrite lenN_take, lenN_drop. done. Qed.

Lemma div_ceil_lt a b i : 0 < b -> (i < div_ceil a b <-> i * b < a).
Proof.
  intros Hb. pose proof (div_ceil_spec a b Hb) as [H1 H2]. split; intros Hi; nia.
Qed.

Lemma length_chunks stride l : 0 < stride -> lenN (chunks stride l) = div_ceil (lenN l) stride.
Proof.
  intros Hs. apply N.le_antisymm.
  - apply N.le_ngt. intros Hlt. pose proof (chunks_lookup stride l (div_ceil (lenN l) stride) Hs) as Hl.
    destruct (lookup_lt_is_Some_2 (chunks stride l) (N.to_nat (div_ceil (lenN l) stride))) as [c Hc];
      [unfold lenN in *; lia|].
    rewrite Hc in Hl. destruct (N.ltb_spec (div_ceil (lenN l) stride * stride) (lenN l)) as [Hd|]; [|done].
    apply div_ceil_lt in Hd; [lia|done].
  - apply N.le_ngt. intros Hlt. pose proof (chunks_lookup stride l (lenN (chunks stride l)) Hs) as Hl.
    apply div_ceil_lt, N.ltb_lt in Hlt; [|done]. rewrite Hlt in Hl. apply lookup_lt_Some in Hl.
    unfold lenN in Hl. lia.
Qed.
Lemma concat_chunks_fuel fuel stride l : (0 < stride)%nat -> (length l <= fuel)%nat -> concat (chunks_fuel fuel stride l) = l.
Proof.
  intros Hs. revert l. induction fuel as [|fuel IH]; intros [|b l] Hl; cbn [chunks_fuel]; try done; [cbn in Hl; lia|].
  cbn [concat]. rewrite IH; [apply take_drop|]. rewrite length_drop. cbn in *. lia.
Qed.
Lemma concat_chunks stride l : 0 < stride -> concat (chunks stride l) = l.
Proof. intros Hs. apply concat_chunks_fuel; lia. Qed.
Lemma chunks_fuel_concat fuel stride ls :
  (0 < stride)%nat -> Forall (fun c => length c = stride) ls -> (length (concat ls) <= fuel)%nat ->
  chunks_fuel fuel stride (concat ls) = ls.
Proof.
  intros Hs Hls. revert fuel. induction Hls as [|c ls Hc _ IH]; intros fuel Hf; cbn [concat] in *.
  { by destruct fuel. }
  rewrite length_app in Hf. destruct fuel as [|fuel]; [lia|]. destruct c as [|b c]; [cbn in Hc; lia|].
  change (chunks_fuel (S fuel) stride ((b :: c) ++ concat ls)) with
    (take stride ((b :: c) ++ concat ls) :: chunks_fuel fuel stride (drop stride ((b :: c) ++ concat ls))).
  rewrite <-Hc, take_app_length, drop_app_length, Hc, IH; [done|]. cbn in Hf. lia.
Qed.
Lemma chunks_concat stride ls : 0 < stride -> Forall (fun c => lenN c = stride) ls -> chunks stride (concat ls) = ls.
Proof.
  intros Hs Hls. apply chunks_fuel_concat; [lia| |done]. eapply Forall_impl; [exact Hls|]. unfold lenN. cbn. lia.
Qed.
(** The chunks of a slice of exactly [k] strides are all full. *)
Lemma chunks_full stride k l :
  0 < stride -> lenN l = k * stride -> Forall (fun c => lenN c = stride) (chunks stride l).
Proof.
  intros Hs Hl. apply Forall_lookup. intros i c Hi. rewrite <-(Nat2N.id i), chunks_lookup in Hi by done.
  destruct (N.ltb_spec (N.of_nat i * stride) (lenN l)); [|done]. injection Hi as <-. rewrite chunk_len, Hl.
  assert (N.of_nat i + 1 <= k) by nia. nia.
Qed.
Lemma app_field {A} (x y a b : list A) : lenN x = lenN y -> x ++ a = y ++ b -> x = y /\ a = b.
Proof. unfold lenN. intros Hl He. apply app_inj_1 in He; [done|lia]. Qed.

(** ** Self-delimiting encodings

    [f] delimits the values in [P]: where an encoding ends, and which value it
    encodes, can be read off any concatenation that starts with it. *)
Definition delimits {A} (P : A -> Prop) (f : A -> list byte) : Prop :=
  forall x y a b, P x -> P y -> f x ++ a = f y ++ b -> x = y /\ a = b.

Lemma delimits_inj {A} P (f : A -> list byte) x y : delimits P f -> P x -> P y -> f x = f y -> x = y.
Proof. intros Hf Hx Hy He. destruct (Hf x y [] []) as [-> _]; [done|done|by rewrite He|done]. Qed.
Lemma delimits_fixed n : delimits (fun l => lenN l = n) (fun l => l).
Proof. intros x y a b Hx Hy. apply app_field. congruence. Qed.
Lemma delimits_be n : delimits (fun v => v < 256 ^ N.of_nat n) (to_be n).
Proof.
  intros x y a b Hx Hy He. apply app_field in He as [He Ha]; [|by rewrite !lenN_to_be].
  split; [by apply (to_be_inj n)|done].
Qed.
Lemma be8_width v : v <= U64_MAX -> v < 256 ^ N.of_nat 8.
Proof. change (256 ^ N.of_nat 8) with (U64_MAX + 1). lia. Qed.
Lemma be4_width v : v <= U32_MAX -> v < 256 ^ N.of_nat 4.
Proof. change (256 ^ N.of_nat 4) with (U32_MAX + 1). lia. Qed.
Lemma delimits_prefixed : delimits (fun l => lenN l <= U32_MAX) (fun l => to_be 4 (lenN l) ++ l).
Proof.
  intros x y a b Hx Hy He. rewrite <-!app_assoc in He.
  destruct (delimits_be 4 _ _ _ _ (be4_width _ Hx) (be4_width _ Hy) He) as [Hl Hr]. by apply app_field.
Qed.
Lemma delimits_list {A} P (f : A -> list byte) :
  delimits P f -> delimits (fun l => lenN l <= U32_MAX /\ Forall P l) (fun l => to_be 4 (lenN l) ++ concat (f <$> l)).
Proof.
  intros Hf x y a b [Hx HFx] [Hy HFy] He. rewrite <-!app_assoc in He.
  destruct (delimits_be 4 _ _ _ _ (be4_width _ Hx) (be4_width _ Hy) He) as [Hl Hr]. clear Hx Hy He.
  revert y HFy Hl Hr. induction HFx as [|u x Hu _ IH]; intros [|v y] HFy Hl Hr; try done.
  apply Forall_cons in HFy as [Hv HFy]. cbn in Hr. rewrite <-!app_assoc in Hr.
  apply Hf in Hr as [-> Hr]; [|done..]. destruct (IH y HFy) as [-> ->]; [|done|done].
  rewrite !lenN_cons in Hl. lia.
Qed.
(** Two parts of one value, each self-delimiting. *)
Lemma delimits_app {A B} (P : A -> Prop) (Q : B -> Prop) f g x x' y y' a b :
  delimits P f -> delimits Q g -> P x -> P x' -> Q y -> Q y' ->
  (f x ++ g y) ++ a = (f x' ++ g y') ++ b -> x = x' /\ y = y' /\ a = b.
Proof.
  intros Hf Hg Hx Hx' Hy Hy' He. rewrite <-!app_assoc in He. apply Hf in He as [-> He]; [|done..].
  by apply Hg in He as [-> ->].
Qed.
