(* ===== verification/Ordered.v ===== *)
(** * Total orders, stable sorting and ordered collections

    Rust's derived [Ord] compares fields lexicographically; [BTreeSet] and
    [BTreeMap] iterate in that order.  A [BTreeSet<K>] is a [gset K], a
    [BTreeMap<K, V>] a [gmap K V], and the operations that depend on the order
    ([first], [last_key_value], [range], iteration) are defined here on top of
    an order class whose laws are the ones Rust's [Ord] documents. *)

From S2P Require Import Prelude.
From Stdlib Require Import ZArith NArith Lia.
From stdpp Require Import base tactics decidable countable numbers list sorting gmap fin_maps fin_sets.
Set Default Goal Selector "!".

Class Compare (A : Type) := compare : A -> A -> comparison.
#[export] Hint Mode Compare ! : typeclass_instances.

Class CompareLaws (A : Type) `{Compare A} : Prop := {
  compare_eq (x y : A) : compare x y = Eq <-> x = y;
  compare_antisym (x y : A) : compare y x = CompOpp (compare x y);
  compare_lt_trans (x y z : A) : compare x y = Lt -> compare y z = Lt -> compare x z = Lt;
}.

Definition leb_of {A} `{Compare A} (x y : A) : bool :=
  match compare x y with Gt => false | _ => true end.
Definition ltb_of {A} `{Compare A} (x y : A) : bool :=
  match compare x y with Lt => true | _ => false end.

#[export] Instance N_compare : Compare N := N.compare.
#[export] Instance N_compare_laws : CompareLaws N.
Proof.
  split; unfold compare, N_compare.
  - apply N.compare_eq_iff.
  - intros. apply N.compare_antisym.
  - intros x y z. rewrite !N.compare_lt_iff. lia.
Qed.

Lemma leb_of_N (x y : N) : leb_of x y = true <-> (x <= y)%N.
Proof. unfold leb_of, compare, N_compare. destruct (N.compare_spec x y); naive_solver lia. Qed.
Lemma leb_of_N_false (x y : N) : leb_of x y = false <-> (y < x)%N.
Proof. unfold leb_of, compare, N_compare. destruct (N.compare_spec x y); naive_solver lia. Qed.

Section laws.
Context {A} `{CompareLaws A}.
Implicit Types x y z : A.

Lemma compare_refl x : compare x x = Eq.
Proof. by apply compare_eq. Qed.
Lemma compare_gt_lt x y : compare x y = Gt <-> compare y x = Lt.
Proof. rewrite (compare_antisym x y). destruct (compare x y); naive_solver. Qed.
Lemma leb_of_refl x : leb_of x x = true.
Proof. unfold leb_of. by rewrite compare_refl. Qed.
Lemma leb_of_total x y : leb_of x y = true \/ leb_of y x = true.
Proof. unfold leb_of. rewrite (compare_antisym x y). destruct (compare x y); auto. Qed.
Lemma leb_of_false x y : leb_of x y = false -> leb_of y x = true.
Proof. destruct (leb_of_total x y); congruence. Qed.
Lemma leb_of_antisym x y : leb_of x y = true -> leb_of y x = true -> x = y.
Proof.
  unfold leb_of. rewrite (compare_antisym x y). intros. apply compare_eq.
  by destruct (compare x y).
Qed.
Lemma leb_of_trans x y z : leb_of x y = true -> leb_of y z = true -> leb_of x z = true.
Proof.
  unfold leb_of. destruct (compare x y) eqn:Hxy, (compare y z) eqn:Hyz; try done; intros _ _.
  - apply compare_eq in Hxy as ->. by rewrite Hyz.
  - apply compare_eq in Hxy as ->. by rewrite Hyz.
  - apply compare_eq in Hyz as <-. by rewrite Hxy.
  - by rewrite (compare_lt_trans x y z).
Qed.
Lemma ltb_of_leb x y : ltb_of x y = negb (leb_of y x).
Proof. unfold ltb_of, leb_of. rewrite (compare_antisym x y). by destruct (compare x y). Qed.
Lemma ltb_of_irrefl x : ltb_of x x = false.
Proof. unfold ltb_of. by rewrite compare_refl. Qed.
End laws.

(** Fieldwise orders: tuples, [Option] ([None] first), byte strings. *)
#[export] Instance prod_compare {A B} `{Compare A} `{Compare B} : Compare (A * B) :=
  fun x y => match compare x.1 y.1 with Eq => compare x.2 y.2 | c => c end.
#[export] Instance prod_compare_laws {A B} `{CompareLaws A} `{CompareLaws B} :
  CompareLaws (A * B).
Proof.
  split; unfold compare, prod_compare.
  - intros [x1 x2] [y1 y2]; cbn. split.
    + destruct (compare x1 y1) eqn:E1; try done. apply compare_eq in E1 as ->.
      by intros ->%compare_eq.
    + intros [= -> ->]. by rewrite compare_refl, compare_refl.
  - intros [x1 x2] [y1 y2]; cbn. rewrite (compare_antisym x1 y1).
    destruct (compare x1 y1); cbn; [apply compare_antisym|done..].
  - intros [x1 x2] [y1 y2] [z1 z2]; cbn.
    destruct (compare x1 y1) eqn:E1, (compare y1 z1) eqn:E2; try done.
    + apply compare_eq in E1 as ->. rewrite E2. apply compare_lt_trans.
    + apply compare_eq in E1 as ->. by rewrite E2.
    + apply compare_eq in E2 as ->. by rewrite E1.
    + by rewrite (compare_lt_trans x1 y1 z1).
Qed.

#[export] Instance option_compare {A} `{Compare A} : Compare (option A) :=
  fun x y => match x, y with
             | None, None => Eq | None, Some _ => Lt | Some _, None => Gt
             | Some a, Some b => compare a b end.
#[export] Instance option_compare_laws {A} `{CompareLaws A} : CompareLaws (option A).
Proof.
  split; unfold compare, option_compare.
  - intros [x|] [y|]; rewrite ?compare_eq; naive_solver.
  - intros [x|] [y|]; try done. apply compare_antisym.
  - intros [x|] [y|] [z|]; try done. apply compare_lt_trans.
Qed.

#[export] Instance list_compare {A} `{Compare A} : Compare (list A) :=
  fix go x y := match x, y with
                | [], [] => Eq | [], _ :: _ => Lt | _ :: _, [] => Gt
                | a :: x', b :: y' => match compare a b with Eq => go x' y' | c => c end
                end.
#[export] Instance list_compare_laws {A} `{CompareLaws A} : CompareLaws (list A).
Proof.
  split; unfold compare.
  - induction x as [|a x IH]; intros [|b y]; cbn; try done.
    split.
    + destruct (compare a b) eqn:E; try done. apply compare_eq in E as ->.
      by intros ->%IH.
    + intros [= -> ->]. rewrite compare_refl. by apply IH.
  - induction x as [|a x IH]; intros [|b y]; cbn; try done.
    rewrite (compare_antisym a b). destruct (compare a b); cbn; auto.
  - induction x as [|a x IH]; intros [|b y] [|c z]; cbn; try done.
    destruct (compare a b) eqn:E1, (compare b c) eqn:E2; try done.
    + apply compare_eq in E1 as ->. rewrite E2. apply IH.
    + apply compare_eq in E1 as ->. by rewrite E2.
    + apply compare_eq in E2 as ->. by rewrite E1.
    + by rewrite (compare_lt_trans a b c).
Qed.

(** A derived [Ord] on a struct is the order of the tuple of its fields. *)
Definition compare_via {A B} `{Compare B} (f : A -> B) : Compare A :=
  fun x y => compare (f x) (f y).
Lemma compare_via_laws {A B} `{CompareLaws B} (f : A -> B) `{!Inj (=) (=) f} :
  @CompareLaws A (compare_via f).
Proof.
  split; unfold compare, compare_via.
  - intros x y. rewrite compare_eq. split; [apply (inj f)|congruence].
  - intros. apply compare_antisym.
  - intros x y z. apply compare_lt_trans.
Qed.

#[export] Instance byte_compare : Compare Byte.byte := compare_via u8.
#[export] Instance byte_compare_laws : CompareLaws Byte.byte.
Proof. apply compare_via_laws. intros ???. by apply u8_inj. Qed.

(** [std::cmp::Reverse] *)
Record Reverse (A : Type) := mkReverse { reversed : A }.
Arguments mkReverse {A} reversed.
Arguments reversed {A} _.
#[export] Instance Reverse_compare {A} `{Compare A} : Compare (Reverse A) :=
  fun x y => compare (reversed y) (reversed x).
#[export] Instance Reverse_compare_laws {A} `{CompareLaws A} : CompareLaws (Reverse A).
Proof.
  split; unfold compare, Reverse_compare.
  - intros [x] [y]; cbn. rewrite compare_eq. naive_solver.
  - intros [x] [y]; cbn. apply compare_antisym.
  - intros [x] [y] [z]; cbn. rewrite <-!compare_gt_lt. intros Hxy Hyz.
    apply compare_gt_lt in Hxy, Hyz. apply compare_gt_lt. by eapply compare_lt_trans.
Qed.

(** ** [slice::sort_by_key]: a stable sort *)

Section sorting.
Context {A K} `{CompareLaws K} (key : A -> K).

Fixpoint insert_by (x : A) (l : list A) : list A :=
  match l with
  | [] => [x]
  | y :: l' => if leb_of (key x) (key y) then x :: l else y :: insert_by x l'
  end.
Definition sort_by_key (l : list A) : list A := foldr insert_by [] l.

Definition key_le (x y : A) : Prop := leb_of (key x) (key y) = true.

Lemma insert_by_perm x l : insert_by x l ≡ₚ x :: l.
Proof.
  induction l as [|y l IH]; cbn; [done|]. case_match; [done|].
  rewrite IH. apply Permutation_swap.
Qed.
Lemma sort_by_key_perm l : sort_by_key l ≡ₚ l.
Proof.
  induction l as [|x l IH]; cbn; [done|].
  rewrite insert_by_perm. by constructor.
Qed.
Lemma length_sort_by_key l : length (sort_by_key l) = length l.
Proof. by rewrite sort_by_key_perm. Qed.
Lemma elem_of_sort_by_key x l : x ∈ sort_by_key l <-> x ∈ l.
Proof. by rewrite sort_by_key_perm. Qed.

Lemma insert_by_sorted x l :
  StronglySorted key_le l -> StronglySorted key_le (insert_by x l).
Proof.
  induction 1 as [|y l Hs IH Hy]; cbn; [repeat constructor|].
  destruct (leb_of (key x) (key y)) eqn:Hxy.
  - constructor; [by constructor|]. constructor; [done|].
    eapply Forall_impl; [exact Hy|]. intros z. by apply leb_of_trans.
  - constructor; [done|]. rewrite insert_by_perm. constructor; [|done].
    by apply leb_of_false.
Qed.
Lemma sort_by_key_sorted l : StronglySorted key_le (sort_by_key l).
Proof. induction l; cbn; [constructor|by apply insert_by_sorted]. Qed.

(** A list that is already sorted is left as it is. *)
Lemma insert_by_head x l : Forall (key_le x) l -> insert_by x l = x :: l.
Proof. destruct 1 as [|y l Hy _]; cbn; [done|]. unfold key_le in Hy. by rewrite Hy. Qed.
Lemma sort_by_key_id l : StronglySorted key_le l -> sort_by_key l = l.
Proof.
  induction 1 as [|x l Hs IH Hx]; [done|].
  change (insert_by x (sort_by_key l) = x :: l). rewrite IH. by apply insert_by_head.
Qed.
Lemma sort_by_key_idemp l : sort_by_key (sort_by_key l) = sort_by_key l.
Proof. apply sort_by_key_id, sort_by_key_sorted. Qed.

(** Stability: elements with the same key keep their relative order. *)
Lemma insert_by_filter (P : A -> Prop) `{!forall x, Decision (P x)} x l :
  (forall y z, P y -> P z -> key y = key z) ->
  filter P (insert_by x l) = filter P (x :: l).
Proof.
  intros HP. induction l as [|y l IH]; cbn [insert_by]; [done|].
  destruct (leb_of (key x) (key y)) eqn:Hxy; [done|].
  rewrite filter_cons, IH, !filter_cons.
  destruct (decide (P x)) as [Px|], (decide (P y)) as [Py|]; try done.
  exfalso. rewrite (HP x y), leb_of_refl in Hxy by done. done.
Qed.
Lemma sort_by_key_stable (P : A -> Prop) `{!forall x, Decision (P x)} l :
  (forall y z, P y -> P z -> key y = key z) ->
  filter P (sort_by_key l) = filter P l.
Proof.
  intros HP. induction l as [|x l IH]; [done|].
  change (sort_by_key (x :: l)) with (insert_by x (sort_by_key l)).
  rewrite insert_by_filter by done. by rewrite !filter_cons, IH.
Qed.

(** [iter().find(m)] after a stable sort: the least matching key, and among
    equal keys the element that came first. *)
Lemma find_insert_by (m : A -> bool) x l :
  StronglySorted key_le l ->
  find m (insert_by x l) =
  if m x then match find m l with
              | Some r => if leb_of (key x) (key r) then Some x else Some r
              | None => Some x
              end
  else find m l.
Proof.
  induction 1 as [|y l Hs IH Hy]; cbn; [by destruct (m x)|].
  destruct (leb_of (key x) (key y)) eqn:Hxy; cbn.
  - destruct (m x) eqn:Hmx, (m y) eqn:Hmy; rewrite ?Hxy; try done.
    destruct (find m l) as [r|] eqn:Hr; [|done].
    apply find_some in Hr as [Hr _]. rewrite Forall_forall in Hy.
    apply list_elem_of_In, Hy in Hr. unfold key_le in Hr.
    by rewrite (leb_of_trans _ _ _ Hxy Hr).
  - rewrite IH. destruct (m y) eqn:Hmy; [|done]. by destruct (m x); rewrite ?Hxy.
Qed.
Lemma find_sort_by_key (m : A -> bool) l r :
  find m (sort_by_key l) = Some r ->
  exists l1 l2, l = l1 ++ r :: l2 /\ m r = true /\
    (forall x, x ∈ l1 -> m x = true -> leb_of (key x) (key r) = false) /\
    (forall x, x ∈ l -> m x = true -> leb_of (key r) (key x) = true).
Proof.
  revert r. induction l as [|x l IH]; intros r; [done|].
  change (sort_by_key (x :: l)) with (insert_by x (sort_by_key l)).
  rewrite find_insert_by by apply sort_by_key_sorted.
  destruct (m x) eqn:Hmx.
  - assert (Hx : (forall y, y ∈ l -> m y = true -> leb_of (key x) (key y) = true) ->
      exists l1 l2, x :: l = l1 ++ x :: l2 /\ m x = true /\
        (forall y, y ∈ l1 -> m y = true -> leb_of (key y) (key x) = false) /\
        (forall y, y ∈ x :: l -> m y = true -> leb_of (key x) (key y) = true)).
    { intros Hle. exists [], l. split_and!; [done|done|by intros ? ?%not_elem_of_nil|].
      intros y [->|Hy]%elem_of_cons; [intros _; apply leb_of_refl|by apply Hle]. }
    destruct (find m (sort_by_key l)) as [r0|] eqn:Hr0.
    + destruct (IH r0 eq_refl) as (l1 & l2 & -> & Hr & H1 & H2).
      destruct (leb_of (key x) (key r0)) eqn:Hle; intros [= <-].
      * apply Hx. intros y Hy Hmy. by eapply leb_of_trans, H2.
      * exists (x :: l1), l2. split_and!; [done|done| |].
        -- intros y [->|Hy]%elem_of_cons; [done|by apply H1].
        -- intros y [->|Hy]%elem_of_cons; [intros _; by apply leb_of_false|by apply H2].
    + intros [= <-]. apply Hx. intros y Hy Hmy.
      eapply find_none in Hr0; [|by apply list_elem_of_In, elem_of_sort_by_key]. congruence.
  - intros Hf. destruct (IH r Hf) as (l1 & l2 & -> & Hr & H1 & H2).
    exists (x :: l1), l2. split_and!; [done|done| |].
    + intros y [->|Hy]%elem_of_cons; [congruence|by apply H1].
    + intros y [->|Hy]%elem_of_cons; [congruence|by apply H2].
Qed.
Lemma find_sort_by_key_None (m : A -> bool) l :
  find m (sort_by_key l) = None <-> forall x, x ∈ l -> m x = false.
Proof.
  split.
  - intros Hn x Hx. eapply find_none in Hn; [done|]. by apply list_elem_of_In, elem_of_sort_by_key.
  - intros Hall. destruct (find m (sort_by_key l)) as [r|] eqn:Hr; [|done].
    apply find_some in Hr as [Hin Hm]. apply list_elem_of_In, elem_of_sort_by_key, Hall in Hin.
    congruence.
Qed.

(** Two sorted permutations with pairwise distinct keys are equal. *)
Lemma sorted_perm_unique l k :
  NoDup (key <$> l) -> StronglySorted key_le l -> StronglySorted key_le k -> l ≡ₚ k -> l = k.
Proof.
  revert k. induction l as [|x l IH]; intros k Hnd Hl Hk Hp.
  { symmetry in Hp. by apply Permutation_nil_r in Hp. }
  destruct k as [|y k]; [by apply Permutation_nil_r in Hp|].
  assert (x = y) as ->.
  { assert (x ∈ y :: k) as Hx by (rewrite <- Hp; left).
    assert (y ∈ x :: l) as Hy by (rewrite Hp; left).
    apply elem_of_cons in Hx as [?|Hx]; [done|].
    apply elem_of_cons in Hy as [?|Hy]; [done|].
    apply StronglySorted_inv in Hl as [_ Hl], Hk as [_ Hk].
    rewrite Forall_forall in Hl, Hk.
    assert (key x = key y) as Hxy.
    { apply leb_of_antisym; [by apply Hl|by apply Hk]. }
    apply NoDup_cons in Hnd as [Hnd _]. contradict Hnd.
    rewrite Hxy. by apply list_elem_of_fmap_2. }
  apply StronglySorted_inv in Hl as [Hl _], Hk as [Hk _].
  apply NoDup_cons in Hnd as [_ Hnd].
  f_equal. apply IH; try done. by apply (Permutation_cons_inv (a:=y)).
Qed.
End sorting.

Lemma sorted_keys_strict {A K} `{CompareLaws K} (key : A -> K) (l : list A) :
  StronglySorted (key_le key) l -> NoDup (key <$> l) ->
  StronglySorted (fun x y => leb_of y x = false) (key <$> l).
Proof.
  induction 1 as [|x l Hs IH Hx]; cbn; [constructor|]. intros [Hn Hnd]%NoDup_cons. constructor; [by apply IH|].
  apply Forall_fmap. rewrite Forall_forall in Hx |- *. intros y Hy. apply not_true_is_false. intros Hle. destruct Hn.
  rewrite (leb_of_antisym _ _ (Hx y Hy) Hle). by apply list_elem_of_fmap_2.
Qed.
Lemma sort_by_key_perm_eq {A K} `{CompareLaws K} (key : A -> K) (l k : list A) :
  NoDup (key <$> l) -> l ≡ₚ k -> sort_by_key key l = sort_by_key key k.
Proof.
  intros Hnd Hp. apply (sorted_perm_unique key); try apply sort_by_key_sorted.
  - by rewrite sort_by_key_perm.
  - by rewrite !sort_by_key_perm.
Qed.

(** ** [BTreeSet] and [BTreeMap] *)

Section collections.
Context {K} `{Countable K} `{CompareLaws K}.
Implicit Types (s : gset K) (k : K).

Definition bt_elements s : list K := sort_by_key id (elements s).
(** [BTreeSet::first], [BTreeSet::last] *)
Definition bt_first s : option K := head (bt_elements s).
Definition bt_last s : option K := last (bt_elements s).

Lemma elem_of_bt_elements k s : k ∈ bt_elements s <-> k ∈ s.
Proof. unfold bt_elements. by rewrite elem_of_sort_by_key, elem_of_elements. Qed.
Lemma length_bt_elements s : length (bt_elements s) = size s.
Proof. unfold bt_elements. by rewrite length_sort_by_key. Qed.
Lemma NoDup_bt_elements s : NoDup (bt_elements s).
Proof. unfold bt_elements. rewrite sort_by_key_perm. apply NoDup_elements. Qed.

Lemma bt_elements_sorted s : StronglySorted (fun x y => leb_of y x = false) (bt_elements s).
Proof.
  pose proof (sorted_keys_strict id (bt_elements s)) as Hs. rewrite list_fmap_id in Hs.
  apply Hs; [apply sort_by_key_sorted|apply NoDup_bt_elements].
Qed.

Lemma bt_first_Some s k :
  bt_first s = Some k <-> k ∈ s /\ forall k', k' ∈ s -> leb_of k k' = true.
Proof.
  unfold bt_first.
  pose proof (sort_by_key_sorted id (elements s)) as Hs. fold (bt_elements s) in Hs.
  pose proof (fun x => elem_of_bt_elements x s) as Hel.
  destruct (bt_elements s) as [|x l]; cbn.
  - split; [done|]. intros [Hk _]. by apply Hel, not_elem_of_nil in Hk.
  - apply StronglySorted_inv in Hs as [_ Hs]. rewrite Forall_forall in Hs.
    assert (forall k', k' ∈ s -> leb_of x k' = true) as Hle.
    { intros k' [->|Hk']%Hel%elem_of_cons; [apply leb_of_refl|]. by apply Hs. }
    split.
    + intros [= <-]. split; [|done]. apply Hel. by left.
    + intros [Hk Hmin]. f_equal. apply leb_of_antisym; [by apply Hle|].
      apply Hmin, Hel. by left.
Qed.
Lemma bt_first_None s : bt_first s = None <-> s = ∅.
Proof.
  unfold bt_first. split.
  - intros Hn. apply set_eq. intros x. rewrite <- elem_of_bt_elements.
    destruct (bt_elements s); [set_solver|done].
  - intros ->. unfold bt_elements. by rewrite elements_empty.
Qed.
Lemma bt_first_elem s k : bt_first s = Some k -> k ∈ s.
Proof. by intros [? _]%bt_first_Some. Qed.
Lemma bt_first_is_Some s : s <> ∅ -> is_Some (bt_first s).
Proof. rewrite <- not_eq_None_Some. intros Hs ?. by apply Hs, bt_first_None. Qed.

Context {V : Type}.
Implicit Types m : gmap K V.

Definition bt_entries m : list (K * V) := sort_by_key fst (map_to_list m).
(** [BTreeMap::last_key_value] *)
Definition bt_last_key_value m : option (K * V) := last (bt_entries m).
(** [map.range(..=k).next_back()] *)
Definition bt_range_back k m : option (K * V) :=
  last (filter (fun e => leb_of e.1 k = true) (bt_entries m)).
(** [map.range(k..).next()] *)
Definition bt_range_next k m : option (K * V) :=
  head (filter (fun e => leb_of k e.1 = true) (bt_entries m)).

Lemma elem_of_bt_entries k v m : (k, v) ∈ bt_entries m <-> m !! k = Some v.
Proof. unfold bt_entries. by rewrite elem_of_sort_by_key, elem_of_map_to_list. Qed.
Lemma bt_entries_perm m : bt_entries m ≡ₚ map_to_list m.
Proof. apply sort_by_key_perm. Qed.
Lemma bt_entries_sorted m : StronglySorted (key_le fst) (bt_entries m).
Proof. apply sort_by_key_sorted. Qed.
Lemma NoDup_bt_entries m : NoDup (fst <$> bt_entries m).
Proof. rewrite bt_entries_perm. apply NoDup_fst_map_to_list. Qed.

(** The entries are the only sorted listing of the map. *)
Lemma bt_entries_unique m l :
  StronglySorted (key_le fst) l -> l ≡ₚ map_to_list m -> bt_entries m = l.
Proof.
  intros Hl Hp. apply (sorted_perm_unique fst); [apply NoDup_bt_entries|apply bt_entries_sorted|done|].
  by rewrite bt_entries_perm, Hp.
Qed.

Lemma last_sorted_max (l : list (K * V)) e :
  StronglySorted (key_le fst) l -> last l = Some e ->
  e ∈ l /\ forall e', e' ∈ l -> leb_of e'.1 e.1 = true.
Proof.
  intros Hs. induction Hs as [|x l Hs IH Hx]; cbn; [done|].
  destruct l as [|y l].
  - intros [= <-]. split; [by left|]. intros e' [->|[]%elem_of_nil]%elem_of_cons. apply leb_of_refl.
  - intros He. destruct (IH He) as [Hin Hmax]. split; [by right|].
    intros e' [->|He']%elem_of_cons; [|by apply Hmax].
    rewrite Forall_forall in Hx. by apply (Hx e).
Qed.
Lemma head_sorted_min (l : list (K * V)) e :
  StronglySorted (key_le fst) l -> head l = Some e ->
  e ∈ l /\ forall e', e' ∈ l -> leb_of e.1 e'.1 = true.
Proof.
  intros Hs. destruct Hs as [|x l Hs Hx]; cbn; [done|]. intros [= <-]. split; [by left|].
  intros e' [->|He']%elem_of_cons; [apply leb_of_refl|].
  rewrite Forall_forall in Hx. by apply (Hx e').
Qed.
Lemma filter_sorted (P : K * V -> Prop) `{!forall x, Decision (P x)} l :
  StronglySorted (key_le fst) l -> StronglySorted (key_le fst) (filter P l).
Proof.
  induction 1 as [|x l Hs IH Hx]; [constructor|]. rewrite filter_cons.
  case_decide; [|done]. constructor; [done|]. rewrite Forall_forall in *.
  intros y [_ Hy]%list_elem_of_filter. by apply Hx.
Qed.

Lemma bt_last_Some m k v :
  bt_last_key_value m = Some (k, v) ->
  m !! k = Some v /\ forall k' v', m !! k' = Some v' -> leb_of k' k = true.
Proof.
  intros [Hin Hmax]%last_sorted_max; [|apply bt_entries_sorted].
  split; [by apply elem_of_bt_entries|].
  intros k' v' Hk'. by apply (Hmax (k', v')), elem_of_bt_entries.
Qed.
Lemma bt_last_None m : bt_last_key_value m = None -> m = ∅.
Proof.
  unfold bt_last_key_value. intros Hn%last_None. apply map_eq. intros k.
  rewrite lookup_empty. destruct (m !! k) eqn:Hk; [|done].
  apply elem_of_bt_entries in Hk. rewrite Hn in Hk. by apply not_elem_of_nil in Hk.
Qed.
Lemma bt_range_back_Some k m k0 v0 :
  bt_range_back k m = Some (k0, v0) ->
  m !! k0 = Some v0 /\ leb_of k0 k = true /\
  forall k' v', m !! k' = Some v' -> leb_of k' k = true -> leb_of k' k0 = true.
Proof.
  intros [[Hle Hin]%list_elem_of_filter Hmax]%last_sorted_max;
    [|apply filter_sorted, bt_entries_sorted].
  split_and!; [by apply elem_of_bt_entries|done|].
  intros k' v' Hk' Hle'. apply (Hmax (k', v')), list_elem_of_filter.
  split; [done|]. by apply elem_of_bt_entries.
Qed.
Lemma bt_range_back_None k m k' v' :
  bt_range_back k m = None -> m !! k' = Some v' -> leb_of k' k = false.
Proof.
  unfold bt_range_back. intros Hn%last_None Hk'. apply not_true_iff_false. intros Hle.
  assert ((k', v') ∈ filter (fun e => leb_of e.1 k = true) (bt_entries m)) as Hin.
  { apply list_elem_of_filter. split; [done|]. by apply elem_of_bt_entries. }
  rewrite Hn in Hin. by apply not_elem_of_nil in Hin.
Qed.
Lemma bt_range_next_Some k m k0 v0 :
  bt_range_next k m = Some (k0, v0) ->
  m !! k0 = Some v0 /\ leb_of k k0 = true /\
  forall k' v', m !! k' = Some v' -> leb_of k k' = true -> leb_of k0 k' = true.
Proof.
  intros [[Hle Hin]%list_elem_of_filter Hmin]%head_sorted_min;
    [|apply filter_sorted, bt_entries_sorted].
  split_and!; [by apply elem_of_bt_entries|done|].
  intros k' v' Hk' Hle'. apply (Hmin (k', v')), list_elem_of_filter.
  split; [done|]. by apply elem_of_bt_entries.
Qed.
Lemma bt_range_next_None k m k' v' :
  bt_range_next k m = None -> m !! k' = Some v' -> leb_of k k' = false.
Proof.
  unfold bt_range_next. intros Hn%head_None Hk'. apply not_true_iff_false. intros Hle.
  assert ((k', v') ∈ filter (fun e => leb_of k e.1 = true) (bt_entries m)) as Hin.
  { apply list_elem_of_filter. split; [done|]. by apply elem_of_bt_entries. }
  rewrite Hn in Hin. by apply not_elem_of_nil in Hin.
Qed.
End collections.

Section map_sum.
Context {K V} `{Countable K} (f : V -> N).
Local Open Scope N_scope.
Implicit Types m : gmap K V.

(** The sum of [f] over the values of a map. *)
Definition map_sum m : N := map_fold (fun _ v acc => f v + acc) 0 m.

Lemma map_sum_empty : map_sum ∅ = 0.
Proof. done. Qed.
Lemma map_sum_insert_None m k v : m !! k = None -> map_sum (<[k := v]> m) = f v + map_sum m.
Proof. intros Hk. unfold map_sum. rewrite map_fold_insert_L; [done| |done]. intros; lia. Qed.
Lemma map_sum_delete m k v : m !! k = Some v -> map_sum m = f v + map_sum (delete k m).
Proof.
  intros Hk. rewrite <- (map_sum_insert_None _ k) by apply lookup_delete_eq.
  by rewrite insert_delete_eq, insert_id.
Qed.
Lemma map_sum_insert m k v :
  map_sum (<[k := v]> m) = f v + map_sum (delete k m).
Proof.
  rewrite <- insert_delete_eq. apply map_sum_insert_None, lookup_delete_eq.
Qed.
Lemma map_sum_insert_Some m k v v0 :
  m !! k = Some v0 -> map_sum (<[k := v]> m) + f v0 = map_sum m + f v.
Proof. intros Hk. rewrite map_sum_insert, (map_sum_delete m k v0 Hk). lia. Qed.
Lemma map_sum_lookup_le m k v : m !! k = Some v -> f v <= map_sum m.
Proof. intros Hk. rewrite (map_sum_delete m k v Hk). lia. Qed.
Lemma map_sum_mono m m' : m ⊆ m' -> map_sum m <= map_sum m'.
Proof.
  revert m'. induction m as [|k v m Hk IH] using map_ind; intros m' Hsub; [rewrite map_sum_empty; lia|].
  assert (Hv : m' !! k = Some v) by (eapply lookup_weaken; [apply lookup_insert_eq|done]).
  rewrite map_sum_insert_None, (map_sum_delete m' k v) by done.
  assert (Hm : m ⊆ delete k m'); [|pose proof (IH _ Hm); lia].
  apply map_subseteq_spec. intros j w Hj. destruct (decide (j = k)) as [->|Hne]; [congruence|].
  rewrite lookup_delete_ne by done. eapply lookup_weaken; [|exact Hsub]. by rewrite lookup_insert_ne.
Qed.
Lemma map_sum_list_to_map (l : list (K * V)) :
  NoDup l.*1 -> map_sum (list_to_map l) = foldr (fun kv acc => f kv.2 + acc) 0 l.
Proof.
  induction l as [|[k v] l IH]; cbn; [done|]. intros [Hk Hl]%NoDup_cons.
  rewrite map_sum_insert_None by by apply not_elem_of_list_to_map_1. by rewrite IH.
Qed.
End map_sum.

Lemma map_sum_entries {K V} `{Countable K} `{!Compare K} `{!CompareLaws K} (f : V -> N) (m : gmap K V) :
  map_sum f m = foldr (fun v acc => f v + acc)%N 0%N (bt_entries m).*2.
Proof.
  transitivity (map_sum f (list_to_map (bt_entries m))).
  { f_equal. rewrite <-(list_to_map_to_list m) at 1.
    apply list_to_map_proper; [apply NoDup_fst_map_to_list|]. by rewrite bt_entries_perm. }
  rewrite map_sum_list_to_map by apply NoDup_bt_entries. by induction (bt_entries m); cbn; f_equal.
Qed.

(** ** A [HashMap] with a [BTreeSet] index of its deadlines

    The pattern shared by the firewall, the reassembler, the policy evaluator
    and the relay queues: [ix] holds exactly the pairs (deadline, key) of [m]. *)

Section indexed.
Context {K V} `{Countable K} `{CompareLaws K} (deadline : V -> N).
Local Open Scope N_scope.
Implicit Types (m : gmap K V) (ix : gset (N * K)).

Definition index_ok m ix : Prop :=
  forall t k, (t, k) ∈ ix <-> exists v, m !! k = Some v /\ deadline v = t.

Lemma index_ok_empty : index_ok ∅ ∅.
Proof. intros t k. rewrite lookup_empty. set_solver. Qed.

Lemma index_ok_delete m ix k v :
  index_ok m ix -> m !! k = Some v -> index_ok (delete k m) (ix ∖ {[(deadline v, k)]}).
Proof.
  intros Hix Hk t k'. rewrite elem_of_difference, elem_of_singleton, (Hix t k').
  destruct (decide (k = k')) as [<-|Hne].
  - rewrite lookup_delete_eq. naive_solver.
  - rewrite lookup_delete_ne by done. naive_solver.
Qed.

Lemma index_ok_insert_new m ix k v :
  index_ok m ix -> m !! k = None -> index_ok (<[k := v]> m) (ix ∪ {[(deadline v, k)]}).
Proof.
  intros Hix Hk t k'. rewrite elem_of_union, elem_of_singleton, (Hix t k').
  destruct (decide (k = k')) as [<-|Hne].
  - rewrite lookup_insert_eq. naive_solver.
  - rewrite lookup_insert_ne by done. naive_solver.
Qed.

Lemma index_ok_insert_same m ix k v v0 :
  index_ok m ix -> m !! k = Some v0 -> deadline v0 = deadline v -> index_ok (<[k := v]> m) ix.
Proof.
  intros Hix Hk Hd t k'. rewrite (Hix t k').
  destruct (decide (k = k')) as [<-|Hne].
  - rewrite lookup_insert_eq. naive_solver.
  - by rewrite lookup_insert_ne.
Qed.

Lemma index_ok_replace m ix k v v0 :
  index_ok m ix -> m !! k = Some v0 ->
  index_ok (<[k := v]> m) ((ix ∖ {[(deadline v0, k)]}) ∪ {[(deadline v, k)]}).
Proof.
  intros Hix Hk. rewrite <- insert_delete_eq. apply index_ok_insert_new.
  - by apply index_ok_delete.
  - apply lookup_delete_eq.
Qed.

Lemma compare_pair_le (t t' : N) (k k' : K) : leb_of (t, k) (t', k') = true -> t <= t'.
Proof.
  unfold leb_of, compare at 1, prod_compare, compare, N_compare; cbn.
  destruct (N.compare_spec t t'); [lia|lia|done].
Qed.

Lemma index_ok_first m ix t k :
  index_ok m ix -> bt_first ix = Some (t, k) ->
  exists v, m !! k = Some v /\ deadline v = t /\
    forall k' v', m !! k' = Some v' -> t <= deadline v'.
Proof.
  intros Hix [Hin Hmin]%bt_first_Some. apply Hix in Hin as (v & Hk & Hd).
  exists v; split_and!; [done..|]. intros k' v' Hk'.
  apply (compare_pair_le _ _ k k'), Hmin, Hix. eauto.
Qed.
Lemma index_ok_first_None m ix : index_ok m ix -> bt_first ix = None -> m = ∅.
Proof.
  intros Hix ->%bt_first_None. apply map_eq. intros k. rewrite lookup_empty.
  destruct (m !! k) as [v|] eqn:Hk; [|done].
  assert ((deadline v, k) ∈ (∅ : gset (N * K))) by (apply Hix; eauto). set_solver.
Qed.

(** The index holds one entry per key. *)
Lemma index_ok_size m ix : index_ok m ix -> size ix = size m.
Proof.
  revert ix. induction m as [|k v m Hk IH] using map_ind; intros ix Hix.
  - assert (ix = ∅) as ->; [|by rewrite size_empty, map_size_empty].
    apply set_eq. intros [t k]. rewrite (Hix t k), lookup_empty. set_solver.
  - rewrite map_size_insert_None by done.
    assert (Hin : (deadline v, k) ∈ ix) by (apply Hix; exists v; by rewrite lookup_insert_eq).
    assert (Hm : index_ok m (ix ∖ {[(deadline v, k)]})).
    { rewrite <- (delete_insert_id m k v) by done.
      apply index_ok_delete; [done|apply lookup_insert_eq]. }
    apply IH in Hm. rewrite size_difference in Hm by set_solver.
    rewrite size_singleton in Hm.
    assert (size ix <> 0)%nat by (apply size_non_empty_iff; set_solver). lia.
Qed.
End indexed.

(** [dedup]: of equal neighbours the first stays. *)
Fixpoint dedup {A} `{EqDecision A} (l : list A) : list A :=
  match l with
  | x :: (y :: _) as rest => if decide (x = y) then dedup rest else x :: dedup rest
  | _ => l
  end.
