(* ===== verification/Net.v ===== *)
(** * Shared domain values (crate [peerward-types], and the [std::net] addresses)

    Addresses, protocol numbers, identifiers.  The [uuid] and [ipnet] crates are
    not part of the repository: what the code asks of them is the content of the
    classes [UuidLib] and [IpNetLib], over which the components are generic. *)

From S2P Require Import Prelude Ordered.
From Stdlib Require Import NArith Lia.
From stdpp Require Import base tactics decidable countable numbers list gmap.
Set Default Goal Selector "!".
Local Open Scope N_scope.

(** ** [std::net::IpAddr]: the octets, read big-endian *)

Inductive IpAddr : Type :=
| V4 (n : N)
| V6 (n : N).

#[export] Instance IpAddr_eq_dec : EqDecision IpAddr.
Proof. solve_decision. Defined.
#[export] Instance IpAddr_inhabited : Inhabited IpAddr := populate (V4 0).

Definition IpAddr_sum (a : IpAddr) : N + N := match a with V4 n => inl n | V6 n => inr n end.
Definition IpAddr_of_sum (s : N + N) : IpAddr := match s with inl n => V4 n | inr n => V6 n end.
#[export] Instance IpAddr_countable : Countable IpAddr.
Proof. apply (inj_countable' IpAddr_sum IpAddr_of_sum). by intros []. Defined.

Definition IpAddr_key (a : IpAddr) : N * N := match a with V4 n => (4, n) | V6 n => (6, n) end.
#[export] Instance IpAddr_compare : Compare IpAddr := compare_via IpAddr_key.
#[export] Instance IpAddr_compare_laws : CompareLaws IpAddr.
Proof. apply compare_via_laws. intros [] []; cbn; congruence. Qed.

Definition is_ipv6 (a : IpAddr) : bool := match a with V6 _ => true | V4 _ => false end.
(** [Ipv4Addr::octets] and [Ipv6Addr::octets] *)
Definition v4_octets (n : N) : list Byte.byte := to_be 4 n.
Definition v6_octets (n : N) : list Byte.byte := to_be 16 n.
Definition IpAddr_wf (a : IpAddr) : Prop :=
  match a with V4 n => n < 2 ^ 32 | V6 n => n < 2 ^ 128 end.

(** ** [std::net::SocketAddr] *)

Inductive SocketAddr : Type :=
| SockV4 (ip port : N)
| SockV6 (ip port flowinfo scope_id : N).
#[export] Instance SocketAddr_eq_dec : EqDecision SocketAddr.
Proof. solve_decision. Defined.
(** The derived order: IPv4 first, then the fields in their order. *)
Definition SocketAddr_key (e : SocketAddr) : N * (N * (N * (N * N))) :=
  match e with SockV4 ip port => (4, (ip, (port, (0, 0)))) | SockV6 ip port fl sc => (6, (ip, (port, (fl, sc)))) end.
Definition SocketAddr_of_key (k : N * (N * (N * (N * N)))) : SocketAddr :=
  let '(v, (ip, (port, (fl, sc)))) := k in if v =? 4 then SockV4 ip port else SockV6 ip port fl sc.
#[export] Instance SocketAddr_countable : Countable SocketAddr.
Proof. apply (inj_countable' SocketAddr_key SocketAddr_of_key). by intros []. Defined.
#[export] Instance SocketAddr_compare : Compare SocketAddr := compare_via SocketAddr_key.
#[export] Instance SocketAddr_compare_laws : CompareLaws SocketAddr.
Proof. apply compare_via_laws. intros [] []; cbn; congruence. Qed.

(** [SocketAddr::new], [ip], [port], [is_ipv4] *)
Definition socket_new (a : IpAddr) (port : N) : SocketAddr :=
  match a with V4 ip => SockV4 ip port | V6 ip => SockV6 ip port 0 0 end.
Definition socket_ip (e : SocketAddr) : IpAddr :=
  match e with SockV4 ip _ => V4 ip | SockV6 ip _ _ _ => V6 ip end.
Definition socket_port (e : SocketAddr) : N := match e with SockV4 _ p => p | SockV6 _ p _ _ => p end.
Definition socket_is_ipv4 (e : SocketAddr) : bool := match e with SockV4 _ _ => true | SockV6 _ _ _ _ => false end.

(** [Ipv4Addr::is_unspecified], [is_loopback], [is_multicast], [is_broadcast] and
    their IPv6 forms, of the standard library. *)
Definition is_unspecified (a : IpAddr) : bool := match a with V4 n => n =? 0 | V6 n => n =? 0 end.
Definition is_loopback (a : IpAddr) : bool := match a with V4 n => N.shiftr n 24 =? 127 | V6 n => n =? 1 end.
Definition is_multicast (a : IpAddr) : bool :=
  match a with V4 n => (224 <=? N.shiftr n 24) && (N.shiftr n 24 <=? 239) | V6 n => N.shiftr n 120 =? 0xff end.
Definition is_broadcast (n : N) : bool := n =? 0xffff_ffff.
Definition is_unicast_link_local (n : N) : bool := N.land (N.shiftr n 112) 0xffc0 =? 0xfe80.

(** [OsRng.fill_bytes], of the rand crate: the n-th call, for a buffer of that length. *)
Class OsRng := { fill_bytes : nat -> nat -> list Byte.byte }.

(** ** Protocol numbers (protocol.rs) *)

Record IpProtocol := mkIpProtocol { protocol_get : N }.
#[export] Instance IpProtocol_eq_dec : EqDecision IpProtocol.
Proof. solve_decision. Defined.
#[export] Instance IpProtocol_countable : Countable IpProtocol.
Proof. apply (inj_countable' protocol_get mkIpProtocol). by intros []. Defined.
#[export] Instance IpProtocol_compare : Compare IpProtocol := compare_via protocol_get.
#[export] Instance IpProtocol_compare_laws : CompareLaws IpProtocol.
Proof. apply compare_via_laws. intros [] []; cbn; congruence. Qed.

Definition ICMPV4 : IpProtocol := mkIpProtocol 1.
Definition TCP : IpProtocol := mkIpProtocol 6.
Definition UDP : IpProtocol := mkIpProtocol 17.
Definition ICMPV6 : IpProtocol := mkIpProtocol 58.

Definition is_icmp (p : IpProtocol) : bool :=
  (protocol_get p =? protocol_get ICMPV4) || (protocol_get p =? protocol_get ICMPV6).

Inductive PolicyProtocol := PAny | PTcp | PUdp | PIcmp.
#[export] Instance PolicyProtocol_eq_dec : EqDecision PolicyProtocol.
Proof. solve_decision. Defined.

Definition policy_protocol_matches (self : PolicyProtocol) (actual : IpProtocol) : bool :=
  match self with
  | PAny => true
  | PTcp => protocol_get actual =? protocol_get TCP
  | PUdp => protocol_get actual =? protocol_get UDP
  | PIcmp => is_icmp actual
  end.

(** ** Identifiers: the 16 UUID bytes, read big-endian

    [Uuid]'s order is the order of its bytes, that is of this number. *)

Class UuidLib := {
  (** [get_version() == Some(Version::Random)] *)
  uuid_version_random : N -> bool;
  (** [get_variant() == Variant::RFC4122] *)
  uuid_variant_rfc4122 : N -> bool;
}.

Record DomainId := mkDomainId { id_uuid : N }.
#[export] Instance DomainId_eq_dec : EqDecision DomainId.
Proof. solve_decision. Defined.
#[export] Instance DomainId_countable : Countable DomainId.
Proof. apply (inj_countable' id_uuid mkDomainId). by intros []. Defined.
#[export] Instance DomainId_compare : Compare DomainId := compare_via id_uuid.
#[export] Instance DomainId_compare_laws : CompareLaws DomainId.
Proof. apply compare_via_laws. intros [] []; cbn; congruence. Qed.

Notation MeshId := DomainId (only parsing).
Notation PeerId := DomainId (only parsing).
Notation RelayId := DomainId (only parsing).
Notation RuleId := DomainId (only parsing).

Definition from_uuid `{UuidLib} (value : N) : option DomainId :=
  if uuid_version_random value && uuid_variant_rfc4122 value
  then Some (mkDomainId value) else None.
(** [as_bytes] *)
Definition id_bytes (i : DomainId) : list Byte.byte := to_be 16 (id_uuid i).

Definition id_wf `{UuidLib} (i : DomainId) : Prop :=
  id_uuid i < 2 ^ 128 /\ from_uuid (id_uuid i) = Some i.

Lemma length_id_bytes i : length (id_bytes i) = 16%nat.
Proof. apply length_to_be. Qed.
Lemma from_be_id_bytes `{UuidLib} i : id_wf i -> from_be (id_bytes i) = id_uuid i.
Proof. intros [Hi _]. by apply from_be_to_be. Qed.
Lemma id_bytes_inj `{UuidLib} i j : id_wf i -> id_wf j -> id_bytes i = id_bytes j -> i = j.
Proof.
  intros [Hi _] [Hj _] He. destruct i as [x], j as [y]. f_equal. by apply (to_be_inj 16).
Qed.
Lemma from_uuid_Some `{UuidLib} v i : from_uuid v = Some i -> id_uuid i = v.
Proof. unfold from_uuid. case_match; naive_solver. Qed.

(** The bit positions RFC 9562 gives the version and variant fields, the
    concrete instance examples run with. *)
Definition uuid_rfc : UuidLib := {|
  uuid_version_random v := N.land (N.shiftr v 76) 0xf =? 4;
  uuid_variant_rfc4122 v := N.land (N.shiftr v 62) 0x3 =? 2;
|}.

(** ** CIDR networks (crate [ipnet])

    [IpNet] is the crate's [IpNet::V4 | IpNet::V6]; membership, order, canonical
    network address and prefix length are whatever the crate computes. *)

Class IpNetLib := {
  Ipv4Net : Type;
  Ipv6Net : Type;
  Ipv4Net_eq_dec :: EqDecision Ipv4Net;
  Ipv6Net_eq_dec :: EqDecision Ipv6Net;
  (** [Ipv4Net::new(address, prefix_len)] and [Ipv6Net::new] *)
  v4net_new : N -> N -> option Ipv4Net;
  v6net_new : N -> N -> option Ipv6Net;
  v4net_network : Ipv4Net -> N;
  v6net_network : Ipv6Net -> N;
  v4net_prefix_len : Ipv4Net -> N;
  v6net_prefix_len : Ipv6Net -> N;
  net_contains : Ipv4Net + Ipv6Net -> IpAddr -> bool;
  net_compare :: Compare (Ipv4Net + Ipv6Net);
  net_compare_laws :: CompareLaws (Ipv4Net + Ipv6Net);
}.

Notation IpNet := (Ipv4Net + Ipv6Net)%type.

(** A concrete instance, for examples: a network is an address and a prefix
    length; it contains the addresses of its family that agree on the prefix. *)
Section prefix_instance.
Definition prefix_contains (width : N) (net : N * N) (a : N) : bool :=
  N.shiftr a (width - net.2) =? N.shiftr net.1 (width - net.2).
Definition prefix_network (width : N) (net : N * N) : N :=
  N.shiftl (N.shiftr net.1 (width - net.2)) (width - net.2).
Definition prefix_new (width addr len : N) : option (N * N) :=
  if len <=? width then Some (addr, len) else None.
Definition prefix_net_contains (net : N * N + N * N) (a : IpAddr) : bool :=
  match net, a with
  | inl n, V4 x => prefix_contains 32 n x
  | inr n, V6 x => prefix_contains 128 n x
  | _, _ => false
  end.
Definition prefix_net_key (net : N * N + N * N) : N * (N * N) :=
  match net with inl n => (4, n) | inr n => (6, n) end.
End prefix_instance.

#[local] Instance prefix_net_compare : Compare (N * N + N * N) := compare_via prefix_net_key.
#[local] Instance prefix_net_compare_laws : CompareLaws (N * N + N * N).
Proof. apply compare_via_laws. intros [] []; cbn; congruence. Qed.

Definition ipnet_prefix : IpNetLib := {|
  Ipv4Net := N * N;
  Ipv6Net := N * N;
  Ipv4Net_eq_dec := _;
  Ipv6Net_eq_dec := _;
  v4net_new := prefix_new 32;
  v6net_new := prefix_new 128;
  v4net_network := prefix_network 32;
  v6net_network := prefix_network 128;
  v4net_prefix_len := snd;
  v6net_prefix_len := snd;
  net_contains := prefix_net_contains;
  net_compare := prefix_net_compare;
  net_compare_laws := prefix_net_compare_laws;
|}.
