(* ===== verification/Fields.v ===== *)
(** * Fixed-width fields

    The Relay formats are concatenations of identifiers and big-endian integers at
    fixed offsets. A [field] is one such type with its encoder and its partial
    decoder; its laws make the two inverse, so that the decoders that read fields
    at offsets are exact inverses of the encoders that write them in sequence. *)

From S2P Require Import Prelude Ordered Net.
From Stdlib Require Import ZArith NArith Lia.
From stdpp Require Import base tactics decidable numbers list.
From Stdlib.Init Require Import Byte.
Set Default Goal Selector "!".
Local Open Scope N_scope.

Record field (A : Type) := mkField {
  f_len : N;
  f_enc : A -> list byte;
  f_dec : list byte -> option A;
  f_ok : A -> Prop;
}.
Arguments mkField {A}.
Arguments f_len {A}.
Arguments f_enc {A}.
Arguments f_dec {A}.
Arguments f_ok {A}.

Class FieldLaws {A} (f : field A) : Prop := {
  f_enc_len a : lenN (f_enc f a) = f_len f;
  f_dec_enc a : f_ok f a -> f_dec f (f_enc f a) = Some a;
  f_enc_dec bs a : lenN bs = f_len f -> f_dec f bs = Some a -> f_enc f a = bs /\ f_ok f a;
}.

(** The field at [bytes[a..b]]; [e] is the error of a slice its decoder refuses. *)
Definition read {E A} (f : field A) (e : E) (bytes : list byte) (a b : N) : outcome E A :=
  s ← slice bytes a b; ok_or (f_dec f s) e.

(** [T::from_uuid(Uuid::from_slice(..)?)] *)
Definition id_field `{UuidLib} : field DomainId :=
  mkField 16 id_bytes (fun s => if lenN s =? 16 then from_uuid (from_be s) else None) id_wf.
(** [i64::from_be_bytes(..try_into()?)], and the unsigned widths. *)
Definition i64_field : field Z :=
  mkField 8 i64_to_be (fun s => if lenN s =? 8 then Some (i64_from_be s) else None) i64_ok.
Definition be_field (n : nat) : field N :=
  mkField (N.of_nat n) (to_be n) (fun s => if lenN s =? N.of_nat n then Some (from_be s) else None)
    (fun v => v < 256 ^ N.of_nat n).
(** One tag byte, given by its table. *)
Definition tag_field {A} (enc : A -> byte) (dec : N -> option A) : field A :=
  mkField 1 (fun a => [enc a]) (fun s => match s with [b] => dec (u8 b) | _ => None end) (fun _ => True).

#[export] Instance id_field_laws `{UuidLib} : FieldLaws id_field.
Proof.
  split; cbn [id_field f_len f_enc f_dec f_ok].
  - intros i. unfold id_bytes. by rewrite lenN_to_be.
  - intros i Hi. unfold id_bytes at 1. rewrite lenN_to_be. cbn [N.eqb Pos.eqb N.of_nat Pos.of_succ_nat Pos.succ].
    rewrite from_be_id_bytes by done. by destruct Hi as [_ ->].
  - intros bs i Hl. rewrite Hl. cbn [N.eqb Pos.eqb]. intros Hf. pose proof (from_uuid_Some _ _ Hf) as Hid. split.
    + unfold id_bytes. rewrite Hid. apply to_be_from_be'. unfold lenN in Hl. lia.
    + split; [|by rewrite Hid]. rewrite Hid. pose proof (from_be_lt bs) as Hlt. by rewrite Hl in Hlt.
Qed.
#[export] Instance i64_field_laws : FieldLaws i64_field.
Proof.
  split; cbn [i64_field f_len f_enc f_dec f_ok].
  - apply lenN_i64.
  - intros z Hz. rewrite lenN_i64. cbn [N.eqb Pos.eqb]. by rewrite i64_roundtrip.
  - intros bs z Hl. rewrite Hl. cbn [N.eqb Pos.eqb]. intros [= <-]. destruct (i64_from_be_ok bs Hl). done.
Qed.
#[export] Instance be_field_laws n : FieldLaws (be_field n).
Proof.
  split; cbn [be_field f_len f_enc f_dec f_ok].
  - intros v. apply lenN_to_be.
  - intros v Hv. rewrite lenN_to_be, N.eqb_refl. by rewrite from_be_to_be.
  - intros bs v Hl. rewrite Hl, N.eqb_refl. intros [= <-]. split.
    + apply to_be_from_be'. unfold lenN in Hl. lia.
    + pose proof (from_be_lt bs) as Hlt. by rewrite Hl in Hlt.
Qed.
Lemma tag_field_laws {A} (enc : A -> byte) (dec : N -> option A) :
  (forall a, dec (u8 (enc a)) = Some a) -> (forall n a, dec n = Some a -> u8 (enc a) = n) ->
  FieldLaws (tag_field enc dec).
Proof.
  intros H1 H2. split; cbn [tag_field f_len f_enc f_dec f_ok]; [done|by intros a _|].
  intros [|b [|]] a Hl; try done. intros Ha%H2. split; [|done]. by rewrite (u8_inj _ _ Ha).
Qed.

Section fields.
Context {A} (f : field A) `{!FieldLaws f} {E : Type} (e : E).

Lemma read_skip x r a b : lenN x <= a -> a <= b -> read f e (x ++ r) a b = read f e r (a - lenN x) (b - lenN x).
Proof. intros Ha Hb. unfold read. by rewrite slice_skip. Qed.
Lemma read_here v z n : f_ok f v -> n = f_len f -> read f e (f_enc f v ++ z) 0 n = Ok v.
Proof. intros Hv ->. unfold read. rewrite slice_here by by rewrite f_enc_len. cbn. by rewrite f_dec_enc. Qed.
Lemma read_at x v z a b :
  f_ok f v -> a = lenN x -> b = a + f_len f -> read f e (x ++ f_enc f v ++ z) a b = Ok v.
Proof.
  intros Hv -> ->. rewrite read_skip by lia. rewrite N.sub_diag. apply read_here; [done|lia].
Qed.
Lemma read_Ok bytes a b v : read f e bytes a b = Ok v -> b - a = f_len f ->
  f_ok f v /\ slice (E:=E) bytes a b = Ok (f_enc f v).
Proof.
  unfold read. intros (s & Hs & Hv)%bind_Ok Hab. destruct (f_dec f s) as [v'|] eqn:Hd; [|done]. injection Hv as ->.
  apply f_enc_dec in Hd as [<- Hok]; [by split|]. by rewrite (slice_len _ _ _ _ Hs).
Qed.
Lemma no_panic_read bytes a b : a <= b -> b <= lenN bytes -> no_panic (read f e bytes a b).
Proof. intros. unfold read. panic_free. Qed.
(** Encodings of a field delimit it. *)
Lemma delimits_field : delimits (f_ok f) (f_enc f).
Proof.
  intros x y a b Hx Hy He. apply app_field in He as [He Ha]; [|by rewrite !f_enc_len].
  split; [|done]. apply (f_equal (f_dec f)) in He. rewrite !f_dec_enc in He by done. by injection He.
Qed.
End fields.

(** The byte at [bytes[a]]. *)
Lemma index_at {E} x b z a : a = lenN x -> @index E (x ++ b :: z) a = Ok b.
Proof. intros ->. apply index_Ok. unfold lenN. rewrite Nat2N.id. by apply list_lookup_middle. Qed.

(** Reads the next field of a concatenation at its offset: skips what precedes it. *)
Ltac fields_len :=
  repeat first [rewrite lenN_app | rewrite lenN_cons | rewrite lenN_nil | rewrite f_enc_len by typeclasses eauto];
  repeat match goal with |- context [f_len ?f] => let n := eval cbv in (f_len f) in change (f_len f) with n end;
  first [done | lia].
Ltac read_field_at :=
  repeat rewrite read_skip by fields_len;
  match goal with
  | |- read ?f ?e (f_enc ?f ?v ++ _) ?a ?b = _ => replace a with 0 by fields_len; apply read_here; [typeclasses eauto|assumption|fields_len]
  | |- read ?f ?e (f_enc ?f ?v) ?a ?b = _ =>
      rewrite <-(app_nil_r (f_enc f v)); replace a with 0 by fields_len; apply read_here; [typeclasses eauto|assumption|fields_len]
  end.
Ltac read_field :=
  match goal with
  | |- read ?f ?e ?bs ?a ?b ≫= _ = _ =>
      let H := fresh in eassert (H : read f e bs a b = Ok _) by read_field_at; rewrite H; clear H; cbn [mbind outcome_bind]
  end.
