(* ===== verification/Packet.v ===== *)
(** * Strict IP packet parsing (crate [peerward-dataplane], parse.rs)

    The parser that every untrusted packet goes through.  Slices are lists of
    bytes; an out-of-range index, a [u32] overflow, a failed [expect] or
    [unreachable!] is [Panic], so that panic freedom is a theorem. *)

From S2P Require Import Prelude Ordered Net.
From Stdlib Require Import NArith ZArith Lia.
From stdpp Require Import base tactics decidable countable numbers list gmap.
From Stdlib.Init Require Import Byte.
Set Default Goal Selector "!".
Local Open Scope N_scope.

(** ** Data *)

Module Pkt.

Definition TCP : N := 6.
Definition UDP : N := 17.
Definition ICMP_V4 : N := 1.
Definition ICMP_V6 : N := 58.
Definition TCP_FIN : N := 0x01.
Definition TCP_SYN : N := 0x02.
Definition TCP_RST : N := 0x04.
Definition TCP_ACK : N := 0x10.

Inductive ParseError := Truncated | Malformed | Unsupported.
#[export] Instance ParseError_eq_dec : EqDecision ParseError.
Proof. solve_decision. Defined.

Record Fragment := mkFragment {
  identification : N;
  offset : N;
  more : bool;
}.
#[export] Instance Fragment_eq_dec : EqDecision Fragment.
Proof. solve_decision. Defined.

(** Directional transport identity (firewall.rs). *)
Record FlowKey := mkFlowKey {
  fk_source : IpAddr;
  fk_destination : IpAddr;
  fk_protocol : N;
  fk_source_port : option N;
  fk_destination_port : option N;
}.
#[export] Instance FlowKey_eq_dec : EqDecision FlowKey.
Proof. solve_decision. Defined.
Definition FlowKey_tuple (k : FlowKey) : IpAddr * (IpAddr * (N * (option N * option N))) :=
  (fk_source k, (fk_destination k, (fk_protocol k, (fk_source_port k, fk_destination_port k)))).
Definition FlowKey_of_tuple (t : IpAddr * (IpAddr * (N * (option N * option N)))) : FlowKey :=
  let '(a, (b, (c, (d, e)))) := t in mkFlowKey a b c d e.
#[export] Instance FlowKey_countable : Countable FlowKey.
Proof. apply (inj_countable' FlowKey_tuple FlowKey_of_tuple). by intros []. Defined.
(** [derive(PartialOrd, Ord)]: the fields in declaration order. *)
#[export] Instance FlowKey_compare : Compare FlowKey := compare_via FlowKey_tuple.
#[export] Instance FlowKey_compare_laws : CompareLaws FlowKey.
Proof.
  apply compare_via_laws. intros [] [] Heq. unfold FlowKey_tuple in Heq. cbn in Heq.
  by simplify_eq.
Qed.

Record ParsedPacket := mkParsedPacket {
  source : IpAddr;
  destination : IpAddr;
  protocol : N;
  source_port : option N;
  destination_port : option N;
  tcp_flags : option N;
  icmp : option (N * N);
  fragment : option Fragment;
  packet_len : N;
  related_flow : option FlowKey;
}.
#[export] Instance ParsedPacket_eq_dec : EqDecision ParsedPacket.
Proof. solve_decision. Defined.

(** ** Checksums *)

(** The sum of the big-endian 16-bit words, an odd last byte padded on the right. *)
Fixpoint checksum_words {E} (sum : N) (bytes : list byte) : outcome E N :=
  match bytes with
  | [] => Ok sum
  | [last] => add_u32 sum (N.shiftl (u8 last) 8)
  | a :: b :: rest => sum' ← add_u32 sum (u16_be a b); checksum_words sum' rest
  end.

(** [while sum > 0xffff { sum = (sum & 0xffff) + (sum >> 16) }] *)
Fixpoint fold_carries (fuel : nat) (sum : N) : option N :=
  if sum <=? 0xffff then Some sum
  else match fuel with
       | O => None
       | S fuel' => fold_carries fuel' (N.land sum 0xffff + N.shiftr sum 16)
       end.
(** Two rounds bring any [u32] below [0x10000]. *)
Definition FOLD_FUEL : nat := 2.

Definition internet_checksum {E} (bytes : list byte) : outcome E N :=
  sum ← checksum_words 0 bytes;
  sum ← expect (fold_carries FOLD_FUEL sum);
  if sum <=? U16_MAX then Ok (U16_MAX - sum) else Panic.

Definition ipv4_checksum {E} (header : list byte) : outcome E N := internet_checksum header.

Definition transport_checksum_valid {E} (payload : list byte) (source destination : IpAddr)
    (protocol : N) : outcome E bool :=
  let length := lenN payload in
  if U32_MAX <? length then Ok false else
  match source, destination with
  | V4 s, V4 d =>
      sum ← checksum_words 0 (v4_octets s);
      sum ← checksum_words sum (v4_octets d);
      sum ← add_u32 sum protocol;
      sum ← add_u32 sum length;
      sum ← checksum_words sum payload;
      sum ← expect (fold_carries FOLD_FUEL sum);
      Ok (sum =? 0xffff)
  | V6 s, V6 d =>
      sum ← checksum_words 0 (v6_octets s);
      sum ← checksum_words sum (v6_octets d);
      sum ← checksum_words sum (to_be 4 length);
      sum ← add_u32 sum protocol;
      sum ← checksum_words sum payload;
      sum ← expect (fold_carries FOLD_FUEL sum);
      Ok (sum =? 0xffff)
  | _, _ => Ok false
  end.

(** ** The quoted flow of an ICMP error *)

Definition parse_quoted_flow {E} (bytes : list byte) : outcome E (option FlowKey) :=
  let flow src dst proto (transport : list byte) :=
    sp ← be16_at transport 0;
    dp ← be16_at transport 2;
    Ok (Some (mkFlowKey src dst proto (Some sp) (Some dp))) in
  match head bytes with
  | Some b0 =>
      if (N.shiftr (u8 b0) 4 =? 4) && (24 <=? lenN bytes) then
        let header := N.land (u8 b0) 0x0f * 4 in
        match get_slice bytes header (header + 4) with
        | None => Ok None
        | Some transport =>
            proto ← index bytes 9;
            s ← slice bytes 12 16;
            d ← slice bytes 16 20;
            flow (V4 (from_be s)) (V4 (from_be d)) (u8 proto) transport
        end
      else if (N.shiftr (u8 b0) 4 =? 6) && (44 <=? lenN bytes) then
        transport ← slice bytes 40 44;
        s ← slice bytes 8 24;
        d ← slice bytes 24 40;
        proto ← index bytes 6;
        flow (V6 (from_be s)) (V6 (from_be d)) (u8 proto) transport
      else Ok None
  | None => Ok None
  end.

(** ** Transport headers *)

Definition transport_view : Type :=
  option N * option N * option N * option (N * N) * option FlowKey.

Definition finish_tcp (payload : list byte) (source destination : IpAddr)
    (incomplete_fragment : bool) : outcome ParseError transport_view :=
  if lenN payload <? 20 then Err Truncated else
  b12 ← index payload 12;
  let header_len := N.shiftr (u8 b12) 4 * 4 in
  if header_len <? 20 then Err Malformed else
  if lenN payload <? header_len then Err Truncated else
  ok ← (if incomplete_fragment then Ok true
        else transport_checksum_valid payload source destination TCP);
  if negb ok then Err Malformed else
  sp ← be16_at payload 0;
  dp ← be16_at payload 2;
  flags ← index payload 13;
  Ok (Some sp, Some dp, Some (N.land (u8 flags) 0x3f), None, None).

Definition finish_udp (payload : list byte) (source destination : IpAddr)
    (incomplete_fragment : bool) : outcome ParseError transport_view :=
  if lenN payload <? 8 then Err Truncated else
  length ← be16_at payload 4;
  if (length <? 8)
     || (negb incomplete_fragment && negb (length =? lenN payload))
     || (incomplete_fragment && (length <? lenN payload))
  then Err Malformed else
  checksum ← be16_at payload 6;
  bad ← (if incomplete_fragment then Ok false
         else if is_ipv6 source && (checksum =? 0) then Ok true
         else if checksum =? 0 then Ok false
         else negb <$> transport_checksum_valid payload source destination UDP);
  if (bad : bool) then Err Malformed else
  sp ← be16_at payload 0;
  dp ← be16_at payload 2;
  Ok (Some sp, Some dp, None, None, None).

Definition icmp_echo (protocol kind : N) : bool :=
  ((protocol =? ICMP_V4) && ((kind =? 0) || (kind =? 8)))
  || ((protocol =? ICMP_V6) && ((kind =? 128) || (kind =? 129))).
Definition icmp_error (protocol kind : N) : bool :=
  ((protocol =? ICMP_V4) && ((kind =? 3) || (kind =? 11) || (kind =? 12)))
  || ((protocol =? ICMP_V6) && ((1 <=? kind) && (kind <=? 4))).

Definition finish_icmp (payload : list byte) (source destination : IpAddr) (protocol : N)
    (incomplete_fragment related : bool) : outcome ParseError transport_view :=
  if lenN payload <? 8 then Err Truncated else
  bad ← (if incomplete_fragment then Ok false
         else if protocol =? ICMP_V4 then
           ck ← internet_checksum payload; Ok (negb (ck =? 0))
         else if protocol =? ICMP_V6 then
           negb <$> transport_checksum_valid payload source destination ICMP_V6
         else Panic);
  if (bad : bool) then Err Malformed else
  kind ← index payload 0;
  code ← index payload 1;
  identifier ← (if icmp_echo protocol (u8 kind)
                then Some <$> be16_at payload 4 else Ok None);
  quoted ← (if related && icmp_error protocol (u8 kind)
            then quote ← slice_from payload 8; parse_quoted_flow quote
            else Ok None);
  Ok (identifier, identifier, None, Some (u8 kind, u8 code), quoted).

Definition finish_transport (payload : list byte) (source destination : IpAddr) (protocol : N)
    (fragment : option Fragment) (packet_len : N) (related : bool)
    : outcome ParseError ParsedPacket :=
  if match fragment with Some item => negb (offset item =? 0) | None => false end then
    Ok (mkParsedPacket source destination protocol None None None None fragment packet_len None)
  else
  let incomplete_fragment :=
    match fragment with Some item => negb (offset item =? 0) || more item | None => false end in
  view ← (if protocol =? TCP then finish_tcp payload source destination incomplete_fragment
          else if protocol =? UDP then finish_udp payload source destination incomplete_fragment
          else if (protocol =? ICMP_V4) || (protocol =? ICMP_V6) then
            finish_icmp payload source destination protocol incomplete_fragment related
          else Ok (None, None, None, None, None));
  let '(sp, dp, flags, icmp, quoted) := view in
  Ok (mkParsedPacket source destination protocol sp dp flags icmp fragment packet_len quoted).

(** ** Network headers *)

Definition parse_ipv4 (bytes : list byte) (related : bool) : outcome ParseError ParsedPacket :=
  if lenN bytes <? 20 then Err Truncated else
  b0 ← index bytes 0;
  let header_len := N.land (u8 b0) 0x0f * 4 in
  if (header_len <? 20) || (lenN bytes <? header_len) then Err Malformed else
  total ← be16_at bytes 2;
  if negb (total =? lenN bytes) || (total <? header_len) then Err Malformed else
  header ← slice bytes 0 header_len;
  ck ← ipv4_checksum header;
  if negb (ck =? 0) then Err Malformed else
  s ← slice bytes 12 16;
  d ← slice bytes 16 20;
  bits ← be16_at bytes 6;
  let off := N.land bits 0x1fff in
  let mf := negb (N.land bits 0x2000 =? 0) in
  id ← be16_at bytes 4;
  let fragment := if negb (off =? 0) || mf then Some (mkFragment id off mf) else None in
  payload ← slice_from bytes header_len;
  proto ← index bytes 9;
  finish_transport payload (V4 (from_be s)) (V4 (from_be d)) (u8 proto) fragment total related.

(** The [for _ in 0..8] over the extension header chain. *)
Fixpoint ipv6_chain (rounds : nat) (bytes : list byte) (src dst : IpAddr) (next cursor : N)
    (fragment : option Fragment) (related : bool) : outcome ParseError ParsedPacket :=
  match rounds with
  | O => Err Malformed
  | S rounds' =>
      if (next =? 0) || (next =? 43) || (next =? 60) then
        if lenN bytes <? cursor + 2 then Err Truncated else
        len ← index bytes (cursor + 1);
        let extension_len := (u8 len + 1) * 8 in
        if lenN bytes <? cursor + extension_len then Err Truncated else
        next' ← index bytes cursor;
        ipv6_chain rounds' bytes src dst (u8 next') (cursor + extension_len) fragment related
      else if next =? 44 then
        if (lenN bytes <? cursor + 8) || match fragment with Some _ => true | None => false end then Err Malformed else
        bits ← be16_at bytes (cursor + 2);
        id ← slice bytes (cursor + 4) (cursor + 8);
        let fragment' := Some (mkFragment (from_be id) (N.shiftr bits 3)
                                 (negb (N.land bits 1 =? 0))) in
        next' ← index bytes cursor;
        if negb (N.shiftr bits 3 =? 0) then
          payload ← slice_from bytes (cursor + 8);
          finish_transport payload src dst (u8 next') fragment' (lenN bytes) related
        else ipv6_chain rounds' bytes src dst (u8 next') (cursor + 8) fragment' related
      else
        payload ← slice_from bytes cursor;
        finish_transport payload src dst next fragment (lenN bytes) related
  end.

Definition parse_ipv6 (bytes : list byte) (related : bool) : outcome ParseError ParsedPacket :=
  if lenN bytes <? 40 then Err Truncated else
  payload_len ← be16_at bytes 4;
  if negb (payload_len + 40 =? lenN bytes) then Err Malformed else
  s ← slice bytes 8 24;
  d ← slice bytes 24 40;
  next ← index bytes 6;
  ipv6_chain 8 bytes (V6 (from_be s)) (V6 (from_be d)) (u8 next) 40 None related.

Definition parse_packet (bytes : list byte) : outcome ParseError ParsedPacket :=
  match bytes with
  | [] => Err Truncated
  | b0 :: _ =>
      let version := N.shiftr (u8 b0) 4 in
      if version =? 4 then parse_ipv4 bytes true
      else if version =? 6 then parse_ipv6 bytes true
      else Err Unsupported
  end.


(** ** Checksum arithmetic *)

Section checksum.
Context {E : Type}.

(** The mathematical sum of the 16-bit words. *)
Fixpoint words_sum (bytes : list byte) : N :=
  match bytes with
  | [] => 0
  | [last] => u8 last * 256
  | a :: b :: rest => u16_be a b + words_sum rest
  end.

Lemma words_sum_bound bytes : 2 * words_sum bytes <= 0xffff * (lenN bytes + 1).
Proof.
  induction bytes as [|a|a b bytes IH] using list_pair_ind; cbn [words_sum].
  - lia.
  - rewrite lenN_cons, lenN_nil. pose proof (u8_lt a). lia.
  - rewrite !lenN_cons. pose proof (u16_be_lt a b). lia.
Qed.

Lemma checksum_words_Ok sum bytes :
  sum + words_sum bytes <= U32_MAX ->
  checksum_words (E:=E) sum bytes = Ok (sum + words_sum bytes).
Proof.
  revert sum. induction bytes as [|a|a b bytes IH] using list_pair_ind;
    intros sum; cbn [words_sum checksum_words]; intros Hle.
  - by rewrite N.add_0_r.
  - rewrite N.shiftl_mul_pow2. change (2 ^ 8) with 256. by rewrite add_u32_Ok.
  - rewrite add_u32_Ok by lia. cbn [mbind outcome_bind]. rewrite IH by lia. f_equal. lia.
Qed.

Lemma fold_round_low sum : N.land sum 0xffff = sum mod 0x1_0000.
Proof. apply (N.land_ones sum 16). Qed.
Lemma fold_round_high sum : N.shiftr sum 16 = sum / 0x1_0000.
Proof. apply (N.shiftr_div_pow2 sum 16). Qed.

(** Two rounds are enough for any [u32], and fold the sum modulo [0xffff]. *)
Lemma fold_carries_spec sum :
  sum <= U32_MAX ->
  exists r, fold_carries FOLD_FUEL sum = Some r /\ r <= 0xffff /\
            r mod 0xffff = sum mod 0xffff /\ (r = 0 <-> sum = 0).
Proof.
  unfold FOLD_FUEL, U32_MAX. cbn [fold_carries]. rewrite !fold_round_low, !fold_round_high.
  intros Hsum.
  destruct (N.leb_spec sum 0xffff); [exists sum; naive_solver|].
  pose proof (N.div_mod sum 0x1_0000 ltac:(lia)) as Hd.
  pose proof (N.mod_lt sum 0x1_0000 ltac:(lia)) as Hm.
  assert (Hq : sum / 0x1_0000 <= 0xffff) by (apply N.lt_succ_r, N.Div0.div_lt_upper_bound; lia).
  generalize dependent (sum mod 0x1_0000). generalize dependent (sum / 0x1_0000). intros q Hq r Hd Hr.
  assert (Hmod : (r + q) mod 0xffff = sum mod 0xffff).
  { rewrite Hd. replace (0x1_0000 * q + r) with (r + q + q * 0xffff) by lia.
    by rewrite N.Div0.mod_add. }
  destruct (N.leb_spec (r + q) 0xffff); [exists (r + q); split_and!; [done|done|done|lia]|].
  pose proof (N.div_mod (r + q) 0x1_0000 ltac:(lia)) as Hd'.
  assert (Hq' : (r + q) / 0x1_0000 = 1) by (symmetry; apply (N.div_unique _ _ 1 (r + q - 0x1_0000)); lia).
  rewrite Hq' in *.
  assert (Hr' : (r + q) mod 0x1_0000 = r + q - 0x1_0000) by lia.
  rewrite Hr'. destruct (N.leb_spec (r + q - 0x1_0000 + 1) 0xffff); [|lia].
  eexists; split_and!; [done|lia| |lia].
  rewrite <- Hmod. replace (r + q) with (r + q - 0x1_0000 + 1 + 1 * 0xffff) at 2 by lia.
  by rewrite N.Div0.mod_add.
Qed.

(** A sum folds to [0xffff] exactly when it is a positive multiple of it. *)
Lemma fold_carries_ffff sum r :
  sum <= U32_MAX -> fold_carries FOLD_FUEL sum = Some r ->
  (r = 0xffff <-> sum <> 0 /\ sum mod 0xffff = 0).
Proof.
  intros Hs Hr. destruct (fold_carries_spec sum Hs) as (r' & Hr' & Hle & Hmod & H0).
  rewrite Hr in Hr'. injection Hr' as <-.
  split.
  - intros ->. rewrite N.Div0.mod_same in Hmod. split; [|done]. intros Hz. by apply H0 in Hz.
  - intros [Hne Hz]. rewrite Hz in Hmod.
    destruct (N.eq_dec r 0xffff); [done|]. rewrite N.mod_small in Hmod by lia.
    exfalso. by apply Hne, H0.
Qed.

Lemma internet_checksum_spec bytes :
  lenN bytes <= 0x1_1000 ->
  exists ck, internet_checksum (E:=E) bytes = Ok ck /\ ck <= 0xffff /\
             (ck = 0 <-> words_sum bytes <> 0 /\ words_sum bytes mod 0xffff = 0) /\
             (ck + words_sum bytes) mod 0xffff = 0.
Proof.
  intros Hlen. pose proof (words_sum_bound bytes).
  assert (Hsum : words_sum bytes <= U32_MAX) by (unfold U32_MAX; lia).
  unfold internet_checksum. rewrite checksum_words_Ok by (by rewrite N.add_0_l).
  cbn [mbind outcome_bind]. rewrite N.add_0_l.
  destruct (fold_carries_spec _ Hsum) as (r & Hr & Hle & Hmod & H0).
  pose proof (fold_carries_ffff _ _ Hsum Hr) as Hff.
  rewrite Hr. cbn [expect mbind outcome_bind].
  unfold U16_MAX. destruct (N.leb_spec r 0xffff); [|lia].
  eexists; split_and!; [done|lia| |].
  - rewrite <- Hff. lia.
  - rewrite <- N.Div0.add_mod_idemp_r, <- Hmod, N.Div0.add_mod_idemp_r.
    replace (0xffff - r + r) with 0xffff by lia. apply N.Div0.mod_same.
Qed.

Lemma no_panic_internet_checksum bytes :
  lenN bytes <= 0x1_1000 -> no_panic (internet_checksum (E:=E) bytes).
Proof. intros H. destruct (internet_checksum_spec bytes H) as (? & -> & _). apply no_panic_Ok. Qed.

Lemma no_panic_checksum_words sum bytes :
  2 * sum + 0xffff * (lenN bytes + 1) <= 2 * U32_MAX ->
  no_panic (checksum_words (E:=E) sum bytes).
Proof.
  intros H. pose proof (words_sum_bound bytes). rewrite checksum_words_Ok by lia. apply no_panic_Ok.
Qed.
Lemma checksum_words_bound sum bytes r :
  checksum_words (E:=E) sum bytes = Ok r ->
  2 * sum + 0xffff * (lenN bytes + 1) <= 2 * U32_MAX ->
  2 * r <= 2 * sum + 0xffff * (lenN bytes + 1).
Proof.
  intros Hr H. pose proof (words_sum_bound bytes). rewrite checksum_words_Ok in Hr by lia.
  injection Hr as <-. lia.
Qed.
End checksum.

(** The RFC 1071 sum of pseudo-header and payload, when the families agree. *)
Definition pseudo_sum (payload : list byte) (src dst : IpAddr) (protocol : N) : option N :=
  match src, dst with
  | V4 s, V4 d => Some (words_sum (v4_octets s) + words_sum (v4_octets d) + protocol
                        + lenN payload + words_sum payload)
  | V6 s, V6 d => Some (words_sum (v6_octets s) + words_sum (v6_octets d)
                        + words_sum (to_be 4 (lenN payload)) + protocol + words_sum payload)
  | _, _ => None
  end.
Definition transport_checksum_ok (payload : list byte) (src dst : IpAddr) (protocol : N) : Prop :=
  exists sum, pseudo_sum payload src dst protocol = Some sum /\ sum <> 0 /\ sum mod 0xffff = 0.

Lemma transport_checksum_valid_spec {E} payload src dst protocol :
  lenN payload <= 0x1_1000 -> protocol < 256 ->
  exists b, transport_checksum_valid (E:=E) payload src dst protocol = Ok b /\
            (b = true <-> transport_checksum_ok payload src dst protocol).
Proof.
  intros Hlen Hp. unfold transport_checksum_valid, transport_checksum_ok, U32_MAX.
  pose proof (words_sum_bound payload) as Hw.
  assert (HL : forall n v, 2 * words_sum (to_be n v) <= 0xffff * (N.of_nat n + 1)).
  { intros n v. rewrite <- (lenN_to_be n v). apply words_sum_bound. }
  destruct (N.ltb_spec 0xffff_ffff (lenN payload)); [lia|].
  destruct src as [s|s], dst as [d|d]; cbn [pseudo_sum].
  2,3: exists false; split; [done|]; split; [done|]; naive_solver.
  - pose proof (HL 4%nat s) as Hs. pose proof (HL 4%nat d) as Hd. unfold v4_octets.
    rewrite checksum_words_Ok by (unfold U32_MAX; lia). cbn [mbind outcome_bind].
    rewrite checksum_words_Ok by (unfold U32_MAX; lia). cbn [mbind outcome_bind].
    rewrite add_u32_Ok by (unfold U32_MAX; lia). cbn [mbind outcome_bind].
    rewrite add_u32_Ok by (unfold U32_MAX; lia). cbn [mbind outcome_bind].
    rewrite checksum_words_Ok by (unfold U32_MAX; lia). cbn [mbind outcome_bind].
    rewrite N.add_0_l. set (sum := _ + words_sum payload).
    assert (Hsum : sum <= U32_MAX) by (unfold sum, U32_MAX; lia).
    destruct (fold_carries_spec sum Hsum) as (r & Hr & _). rewrite Hr. cbn [expect mbind outcome_bind].
    pose proof (fold_carries_ffff _ _ Hsum Hr) as Hff. rewrite <- N.eqb_eq in Hff.
    eexists; split; [reflexivity|]. rewrite Hff. split.
    + intros Hz. by exists sum.
    + by intros (? & [= <-] & Hz).
  - pose proof (HL 16%nat s) as Hs. pose proof (HL 16%nat d) as Hd.
    pose proof (HL 4%nat (lenN payload)) as Hl. unfold v6_octets.
    rewrite checksum_words_Ok by (unfold U32_MAX; lia). cbn [mbind outcome_bind].
    rewrite checksum_words_Ok by (unfold U32_MAX; lia). cbn [mbind outcome_bind].
    rewrite checksum_words_Ok by (unfold U32_MAX; lia). cbn [mbind outcome_bind].
    rewrite add_u32_Ok by (unfold U32_MAX; lia). cbn [mbind outcome_bind].
    rewrite checksum_words_Ok by (unfold U32_MAX; lia). cbn [mbind outcome_bind].
    rewrite N.add_0_l. set (sum := _ + words_sum payload).
    assert (Hsum : sum <= U32_MAX) by (unfold sum, U32_MAX; lia).
    destruct (fold_carries_spec sum Hsum) as (r & Hr & _). rewrite Hr. cbn [expect mbind outcome_bind].
    pose proof (fold_carries_ffff _ _ Hsum Hr) as Hff. rewrite <- N.eqb_eq in Hff.
    eexists; split; [reflexivity|]. rewrite Hff. split.
    + intros Hz. by exists sum.
    + by intros (? & [= <-] & Hz).
Qed.

Lemma no_panic_transport_checksum_valid {E} payload src dst protocol :
  lenN payload <= 0x1_1000 -> protocol < 256 ->
  no_panic (transport_checksum_valid (E:=E) payload src dst protocol).
Proof.
  intros H1 H2. destruct (transport_checksum_valid_spec (E:=E) payload src dst protocol H1 H2)
    as (? & -> & _). apply no_panic_Ok.
Qed.

Ltac parse_panic_free :=
  repeat first [ panic_step
    | apply no_panic_index; lia | apply no_panic_slice; lia | apply no_panic_slice_from; lia
    | apply no_panic_be16_at; lia
    | apply no_panic_internet_checksum; lia
    | apply no_panic_transport_checksum_valid; [lia|unfold TCP, UDP, ICMP_V4, ICMP_V6 in *; lia] ].

Lemma no_panic_parse_quoted_flow {E} bytes : no_panic (parse_quoted_flow (E:=E) bytes).
Proof.
  unfold parse_quoted_flow. destruct (head bytes) as [b0|]; parse_panic_free.
  - match goal with H : get_slice _ _ _ = Some _ |- _ => unfold get_slice in H end.
    case_match; [|done]. breflect. simplify_eq.
    apply no_panic_be16_at. rewrite lenN_take, lenN_drop. lia.
  - match goal with H : get_slice _ _ _ = Some _ |- _ => unfold get_slice in H end.
    case_match; [|done]. breflect. simplify_eq.
    apply no_panic_be16_at. rewrite lenN_take, lenN_drop. lia.
  - match goal with H : slice _ 40 44 = Ok _ |- _ => apply slice_len in H end.
    apply no_panic_be16_at. lia.
  - match goal with H : slice _ 40 44 = Ok _ |- _ => apply slice_len in H end.
    apply no_panic_be16_at. lia.
Qed.

Lemma no_panic_finish_transport payload src dst protocol fragment packet_len related :
  lenN payload <= 0x1_1000 -> protocol < 256 ->
  no_panic (finish_transport payload src dst protocol fragment packet_len related).
Proof.
  intros Hlen Hp. unfold finish_transport.
  set (incomplete := match fragment with Some item => _ | None => _ end).
  destruct (match fragment with Some item => negb (offset item =? 0) | None => false end);
    [apply no_panic_Ok|].
  apply no_panic_bind; [|intros [[[[sp dp] fl] ic] q] _; apply no_panic_Ok].
  destruct (protocol =? TCP) eqn:H1; [unfold finish_tcp; parse_panic_free|].
  destruct (protocol =? UDP) eqn:H2; [unfold finish_udp; parse_panic_free|].
  destruct ((protocol =? ICMP_V4) || (protocol =? ICMP_V6)) eqn:H3; [|apply no_panic_Ok].
  unfold finish_icmp; parse_panic_free; try apply no_panic_parse_quoted_flow.
  breflect. destruct H3; lia.
Qed.

Lemma land_0f_le n : N.land n 0x0f <= 15.
Proof.
  assert (Hl : N.land n 0x0f = n mod 16) by apply (N.land_ones n 4).
  rewrite Hl. pose proof (N.mod_lt n 16 ltac:(lia)). lia.
Qed.

Lemma no_panic_parse_ipv4 bytes related : no_panic (parse_ipv4 bytes related).
Proof.
  unfold parse_ipv4, ipv4_checksum. parse_panic_free.
  all: repeat match goal with
       | H : be16_at _ 2 = Ok _ |- _ => apply be16_at_lt in H
       | H : slice _ 0 _ = Ok _ |- _ => apply slice_len in H
       | H : slice_from _ _ = Ok _ |- _ => apply slice_from_len in H end.
  - apply no_panic_internet_checksum. lia.
  - apply no_panic_finish_transport; [lia|apply u8_lt].
Qed.

Lemma no_panic_ipv6_chain rounds bytes src dst next cursor fragment related :
  lenN bytes <= 0x1_1000 -> cursor <= lenN bytes -> next < 256 ->
  no_panic (ipv6_chain rounds bytes src dst next cursor fragment related).
Proof.
  intros Hlen. revert next cursor fragment. induction rounds as [|rounds IH];
    intros next cursor fragment Hc Hn; cbn [ipv6_chain]; [apply no_panic_Err|].
  parse_panic_free;
    repeat match goal with H : slice_from _ _ = Ok _ |- _ => apply slice_from_len in H end.
  all: try (apply IH; [lia|apply u8_lt]).
  all: try (apply no_panic_finish_transport; [lia|first [apply u8_lt|lia]]).
Qed.

Lemma no_panic_parse_ipv6 bytes related : no_panic (parse_ipv6 bytes related).
Proof.
  unfold parse_ipv6. parse_panic_free.
  match goal with H : be16_at _ 4 = Ok _ |- _ => apply be16_at_lt in H end.
  apply no_panic_ipv6_chain; [lia|lia|apply u8_lt].
Qed.

Lemma no_panic_parse_packet bytes : no_panic (parse_packet bytes).
Proof.
  unfold parse_packet. parse_panic_free; [apply no_panic_parse_ipv4|apply no_panic_parse_ipv6].
Qed.

(** ** What a successful parse guarantees *)

(** Field ranges and field presence, for a packet parsed from [bytes]. *)
Record parsed_wf (bytes : list byte) (p : ParsedPacket) : Prop := {
  wf_len : packet_len p = lenN bytes;
  wf_family : is_ipv6 (source p) = is_ipv6 (destination p);
  wf_source : IpAddr_wf (source p);
  wf_destination : IpAddr_wf (destination p);
  wf_protocol : protocol p < 256;
  wf_source_port : forall v, source_port p = Some v -> v < 0x1_0000;
  wf_destination_port : forall v, destination_port p = Some v -> v < 0x1_0000;
  wf_flags : forall v, tcp_flags p = Some v -> v < 64 /\ protocol p = TCP;
  wf_icmp : forall k c, icmp p = Some (k, c) -> protocol p = ICMP_V4 \/ protocol p = ICMP_V6;
  wf_fragment : forall f, fragment p = Some f -> identification f < 2 ^ 32 /\ offset f < 8192;
  (** A later fragment exposes no transport field: its payload is not a header. *)
  wf_later : forall f, fragment p = Some f -> offset f <> 0 ->
    source_port p = None /\ destination_port p = None /\ tcp_flags p = None /\
    icmp p = None /\ related_flow p = None;
  (** Everything else does, for the protocols the firewall tracks. *)
  wf_first : (forall f, fragment p = Some f -> offset f = 0) ->
    (protocol p = TCP -> is_Some (tcp_flags p)) /\
    (protocol p = TCP \/ protocol p = UDP ->
       is_Some (source_port p) /\ is_Some (destination_port p)) /\
    (protocol p = ICMP_V4 \/ protocol p = ICMP_V6 -> is_Some (icmp p));
  (** Only an ICMP error quotes a flow. *)
  wf_related : is_Some (related_flow p) -> exists k c, icmp p = Some (k, c) /\
    icmp_error (protocol p) k = true;
}.

Lemma land_mask_lt n k : N.land n (N.ones k) < 2 ^ k.
Proof. rewrite N.land_ones. apply N.mod_lt, N.pow_nonzero. lia. Qed.

Definition view_wf (protocol : N) (v : transport_view) : Prop :=
  let '(sp, dp, flags, icmp, quoted) := v in
  (forall x, sp = Some x -> x < 0x1_0000) /\ (forall x, dp = Some x -> x < 0x1_0000) /\
  (forall x, flags = Some x -> x < 64 /\ protocol = TCP) /\
  (forall k c, icmp = Some (k, c) -> protocol = ICMP_V4 \/ protocol = ICMP_V6) /\
  (protocol = TCP -> is_Some flags) /\
  (protocol = TCP \/ protocol = UDP -> is_Some sp /\ is_Some dp) /\
  (protocol = ICMP_V4 \/ protocol = ICMP_V6 -> is_Some icmp) /\
  (is_Some quoted -> exists k c, icmp = Some (k, c) /\ icmp_error protocol k = true).

Lemma finish_tcp_wf payload src dst incomplete v :
  finish_tcp payload src dst incomplete = Ok v -> view_wf TCP v.
Proof.
  unfold finish_tcp. intros H. inv_ok; subst; cbn;
    repeat match goal with H : be16_at _ _ = Ok _ |- _ => apply be16_at_lt in H end;
    unfold TCP, UDP, ICMP_V4, ICMP_V6; split_and!; try naive_solver.
  all: try (intros [?|?]; lia).
  all: try (intros [? ?]; done).
  all: intros x [= <-]; split; [apply (land_mask_lt _ 6)|done].
Qed.

Lemma finish_udp_wf payload src dst incomplete v :
  finish_udp payload src dst incomplete = Ok v -> view_wf UDP v.
Proof.
  unfold finish_udp. intros H. inv_ok; subst; cbn;
    repeat match goal with H : be16_at _ _ = Ok _ |- _ => apply be16_at_lt in H end;
    unfold TCP, UDP, ICMP_V4, ICMP_V6; split_and!; try naive_solver.
  all: try (intros [?|?]; lia).
  all: try (intros [? ?]; done).
Qed.

Lemma finish_icmp_wf payload src dst protocol incomplete related v :
  protocol = ICMP_V4 \/ protocol = ICMP_V6 ->
  finish_icmp payload src dst protocol incomplete related = Ok v -> view_wf protocol v.
Proof.
  unfold finish_icmp. intros Hp H. inv_ok; subst; cbn;
    repeat match goal with
    | H : Some <$> be16_at _ _ = Ok _ |- _ => apply fmap_Ok in H as (? & H & <-)
    | H : be16_at _ _ = Ok _ |- _ => apply be16_at_lt in H end;
    unfold TCP, UDP, ICMP_V4, ICMP_V6 in *.
  all: split_and!; try naive_solver.
  all: try (intros; lia).
  all: try (intros ->; lia).
  all: intros [? ?]; first [done|eexists _, _; split; [done|]; congruence].
Qed.

Lemma transport_view_wf payload src dst protocol incomplete related v :
  (if protocol =? TCP then finish_tcp payload src dst incomplete
   else if protocol =? UDP then finish_udp payload src dst incomplete
   else if (protocol =? ICMP_V4) || (protocol =? ICMP_V6) then
     finish_icmp payload src dst protocol incomplete related
   else Ok (None, None, None, None, None)) = Ok v -> view_wf protocol v.
Proof.
  destruct (N.eqb_spec protocol TCP) as [->|]; [apply finish_tcp_wf|].
  destruct (N.eqb_spec protocol UDP) as [->|]; [apply finish_udp_wf|].
  destruct ((protocol =? ICMP_V4) || (protocol =? ICMP_V6)) eqn:Hi; breflect.
  - by apply finish_icmp_wf.
  - intros [= <-]. unfold view_wf. split_and!; naive_solver.
Qed.

Definition fragment_wf (f : option Fragment) : Prop :=
  forall x, f = Some x -> identification x < 2 ^ 32 /\ offset x < 8192.

Lemma finish_transport_wf bytes payload src dst protocol fragment related p :
  is_ipv6 src = is_ipv6 dst -> IpAddr_wf src -> IpAddr_wf dst -> protocol < 256 ->
  fragment_wf fragment ->
  finish_transport payload src dst protocol fragment (lenN bytes) related = Ok p ->
  parsed_wf bytes p.
Proof.
  intros Hfam Hs Hd Hp Hf. unfold finish_transport.
  destruct fragment as [f|]; [destruct (N.eqb_spec (offset f) 0)|]; cbn [negb].
  2:{ intros [= <-]. split; cbn; naive_solver. }
  all: intros (view & Hview & H)%bind_Ok; destruct view as [[[[sp dp] fl] ic] q];
    injection H as <-.
  all: apply transport_view_wf in Hview.
  all: destruct Hview as (H1 & H2 & H3 & H4 & H5 & H6 & H7 & H8).
  all: split; cbn; try done; try naive_solver.
Qed.

Lemma from_be_slice_lt {E} bytes a b s n :
  @slice E bytes a b = Ok s -> b - a = n -> from_be s < 256 ^ n.
Proof. intros Hs%slice_len <-. rewrite <- Hs. apply from_be_lt. Qed.

Lemma parse_ipv4_wf bytes related p : parse_ipv4 bytes related = Ok p -> parsed_wf bytes p.
Proof.
  unfold parse_ipv4. intros H. inv_ok.
  all: match goal with
       | H1 : slice _ 12 16 = Ok _, H2 : slice _ 16 20 = Ok _ |- _ =>
           apply (from_be_slice_lt _ _ _ _ 4) in H1; [|lia];
           apply (from_be_slice_lt _ _ _ _ 4) in H2; [|lia] end.
  all: match goal with H : negb _ || (_ =? _) = _ |- _ => idtac | _ => idtac end.
  all: match goal with H : finish_transport _ _ _ _ _ ?t _ = _ |- _ =>
         assert (t = lenN bytes) as Ht by lia; rewrite Ht in H;
         eapply finish_transport_wf in H; [exact H|done|done|done|apply u8_lt|] end.
  all: match goal with H : be16_at _ 4 = Ok _ |- _ => apply be16_at_lt in H end.
  all: unfold fragment_wf; case_match; intros ? [= <-]; cbn.
  all: split; [lia|apply (land_mask_lt _ 13)].
Qed.

Lemma ipv6_chain_wf rounds bytes src dst next cursor fragment related p :
  is_ipv6 src = is_ipv6 dst -> IpAddr_wf src -> IpAddr_wf dst -> next < 256 ->
  fragment_wf fragment ->
  ipv6_chain rounds bytes src dst next cursor fragment related = Ok p -> parsed_wf bytes p.
Proof.
  intros Hfam Hs Hd. revert next cursor fragment.
  induction rounds as [|rounds IH]; intros next cursor fragment Hn Hf H; cbn [ipv6_chain] in H; [done|].
  assert (Hf44 : forall bits id, be16_at (E:=ParseError) bytes (cursor + 2) = Ok bits ->
    slice (E:=ParseError) bytes (cursor + 4) (cursor + 8) = Ok id ->
    fragment_wf (Some (mkFragment (from_be id) (N.shiftr bits 3) (negb (N.land bits 1 =? 0))))).
  { intros bits id Hb%be16_at_lt Hid f [= <-]; cbn. split.
    - by apply (from_be_slice_lt _ _ _ _ 4) in Hid; [|lia].
    - rewrite N.shiftr_div_pow2. change (2 ^ 3) with 8. apply N.Div0.div_lt_upper_bound. lia. }
  inv_ok.
  - eapply IH in H; [done|apply u8_lt|done].
  - eapply finish_transport_wf in H; [done|done|done|done|apply u8_lt|eauto].
  - eapply IH in H; [done|apply u8_lt|eauto].
  - by eapply finish_transport_wf in H.
Qed.

Lemma parse_ipv6_wf bytes related p : parse_ipv6 bytes related = Ok p -> parsed_wf bytes p.
Proof.
  unfold parse_ipv6. intros H. inv_ok.
  match goal with
  | H1 : slice _ 8 24 = Ok _, H2 : slice _ 24 40 = Ok _ |- _ =>
      apply (from_be_slice_lt _ _ _ _ 16) in H1; [|lia];
      apply (from_be_slice_lt _ _ _ _ 16) in H2; [|lia] end.
  eapply ipv6_chain_wf in H; [done|done|done|done|apply u8_lt|done].
Qed.

Lemma parse_packet_parsed_wf bytes p : parse_packet bytes = Ok p -> parsed_wf bytes p.
Proof.
  unfold parse_packet. intros H. inv_ok; [by eapply parse_ipv4_wf|by eapply parse_ipv6_wf].
Qed.

(** The transport payload of an unfragmented packet carries a correct checksum;
    only IPv4 UDP may say (with a zero field) that it has none. *)
Definition payload_checksummed (payload : list byte) (p : ParsedPacket) : Prop :=
  (protocol p = TCP -> transport_checksum_ok payload (source p) (destination p) TCP) /\
  (protocol p = UDP ->
     transport_checksum_ok payload (source p) (destination p) UDP \/
     (is_ipv6 (source p) = false /\ be16_at (E:=ParseError) payload 6 = Ok 0)) /\
  (protocol p = ICMP_V4 -> words_sum payload <> 0 /\ words_sum payload mod 0xffff = 0) /\
  (protocol p = ICMP_V6 -> transport_checksum_ok payload (source p) (destination p) ICMP_V6).

Lemma checksum_valid_true {E} payload src dst protocol :
  lenN payload <= 0x1_1000 -> protocol < 256 ->
  transport_checksum_valid (E:=E) payload src dst protocol = Ok true ->
  transport_checksum_ok payload src dst protocol.
Proof.
  intros H1 H2 H. destruct (transport_checksum_valid_spec (E:=E) payload src dst protocol H1 H2)
    as (b & Hb & Hiff). rewrite H in Hb. injection Hb as <-. by apply Hiff.
Qed.

Lemma finish_udp_checksum payload src dst v :
  lenN payload <= 0x1_1000 -> finish_udp payload src dst false = Ok v ->
  transport_checksum_ok payload src dst UDP \/
  (is_ipv6 src = false /\ be16_at (E:=ParseError) payload 6 = Ok 0).
Proof.
  intros Hlen H. unfold finish_udp in H. inv_ok; subst.
  - right. split; [|by subst].
    naive_solver.
  - match goal with H : negb <$> _ = Ok _ |- _ => apply fmap_Ok in H as (b & H & ?) end.
    destruct b; [|done]. left. by eapply checksum_valid_true.
Qed.

Lemma finish_transport_checksum payload src dst protocol packet_len related p :
  lenN payload <= 0x1_1000 -> protocol < 256 ->
  finish_transport payload src dst protocol None packet_len related = Ok p ->
  payload_checksummed payload p.
Proof.
  intros Hlen Hp. unfold finish_transport. intros ([[[[sp dp] fl] ic] q] & Hv & [= <-])%bind_Ok.
  unfold payload_checksummed; cbn. split_and!; intros ->; cbn in Hv.
  - unfold finish_tcp in Hv. inv_ok; subst. by eapply checksum_valid_true.
  - by eapply finish_udp_checksum.
  - unfold finish_icmp in Hv. inv_ok; subst; try (exfalso; unfold ICMP_V4, ICMP_V6 in *; lia);
      match goal with H : internet_checksum _ = Ok ?ck |- _ =>
        destruct (internet_checksum_spec (E:=ParseError) payload Hlen) as (c & Hc & _ & Hz & _);
        rewrite H in Hc; injection Hc as <-; apply Hz; lia end.
  - unfold finish_icmp in Hv. inv_ok; subst; try (exfalso; unfold ICMP_V4, ICMP_V6 in *; lia);
      match goal with H : negb <$> _ = Ok _ |- _ => apply fmap_Ok in H as (b & H & ?) end;
      destruct b; try done; by eapply checksum_valid_true.
Qed.

Lemma ipv6_chain_checksum rounds bytes src dst next cursor p related :
  lenN bytes <= 0x1_1000 -> next < 256 ->
  ipv6_chain rounds bytes src dst next cursor None related = Ok p -> fragment p = None ->
  exists payload, payload `suffix_of` bytes /\ payload_checksummed payload p.
Proof.
  intros Hlen. revert next cursor.
  induction rounds as [|rounds IH]; intros next cursor Hn H Hfr; cbn [ipv6_chain] in H; [done|].
  assert (Hkeep : forall rounds src dst n c f p,
    ipv6_chain rounds bytes src dst n c (Some f) related = Ok p -> fragment p <> None).
  { clear. induction rounds as [|r IHr]; cbn [ipv6_chain]; intros src dst n c f p H; [done|].
    inv_ok; try (by eapply IHr).
    unfold finish_transport in H. inv_ok; subst; by cbn. }
  inv_ok.
  - eapply IH in H; [done|apply u8_lt|done].
  - unfold finish_transport in H. inv_ok; subst; by cbn in Hfr.
  - by apply Hkeep in H.
  - match goal with H : slice_from _ _ = Ok ?r |- _ =>
      apply slice_from_Ok in H as [? ->] end.
    eexists; split; [apply suffix_drop|].
    eapply finish_transport_checksum in H; [done| |done]. rewrite lenN_drop. lia.
Qed.

Lemma parse_packet_checksummed bytes p :
  parse_packet bytes = Ok p ->
  (is_ipv6 (source p) = false ->
     exists header, header `prefix_of` bytes /\ 20 <= lenN header /\
       words_sum header <> 0 /\ words_sum header mod 0xffff = 0) /\
  (fragment p = None -> exists payload, payload `suffix_of` bytes /\ payload_checksummed payload p).
Proof.
  unfold parse_packet. intros H. inv_ok.
  - (* IPv4 *)
    set (bs := b :: l) in *. unfold parse_ipv4 in H. inv_ok.
    all: repeat match goal with
         | H : be16_at _ 2 = Ok _ |- _ => apply be16_at_lt in H
         | H : slice_from _ _ = Ok _ |- _ => apply slice_from_Ok in H as [? ->]
         | H : slice _ 0 _ = Ok _ |- _ => apply slice_0_Ok in H as (? & ->) end.
    all: match goal with H : ipv4_checksum ?h = Ok ?ck |- _ =>
           destruct (internet_checksum_spec (E:=ParseError) h) as (c & Hc & _ & Hz & _);
           [rewrite lenN_take; lia|];
           unfold ipv4_checksum in H; rewrite H in Hc; injection Hc as Hc end.
    all: split.
    all: try (intros _; match goal with H : internet_checksum ?h = Ok _ |- _ => exists h end;
              split; [apply prefix_take|]; split;
              [rewrite lenN_take; lia|]; apply Hz; congruence).
    all: intros Hfr; eexists; split; [apply suffix_drop|].
    all: match goal with H : finish_transport _ _ _ _ ?f _ _ = Ok _ |- _ =>
           destruct f eqn:Hfe;
           [unfold finish_transport in H; inv_ok; subst; by cbn in Hfr|];
           eapply finish_transport_checksum in H; [done| |apply u8_lt] end.
    all: rewrite lenN_drop; lia.
  - (* IPv6 *)
    set (bs := b :: l) in *.
    assert (is_ipv6 (source p) = true) as Hsix.
    { apply parse_ipv6_wf in H as Hwf. clear Hwf. unfold parse_ipv6 in H. inv_ok.
      assert (Hsrc : forall rounds src dst n c f p,
        ipv6_chain rounds bs src dst n c f true = Ok p -> source p = src).
      { clear. induction rounds as [|r IHr]; cbn [ipv6_chain]; intros src dst n c f p H; [done|].
        inv_ok; try (by eapply IHr); unfold finish_transport in H; inv_ok; by subst. }
      apply Hsrc in H. by rewrite H. }
    split; [intros Hz; congruence|]. intros Hfr.
    unfold parse_ipv6 in H. inv_ok.
    match goal with H : be16_at _ 4 = Ok _ |- _ => apply be16_at_lt in H end.
    eapply ipv6_chain_checksum in H; [done|lia|apply u8_lt|done].
Qed.

(** ** Main theorems *)

(** The parser is total on arbitrary bytes: it never aborts on an
    out-of-range index or an overflowing sum, and what it accepts is well
    formed (declared length equal to the received length, one address family,
    field widths, transport fields exactly where the packet has a transport
    header, related flows only for ICMP errors). *)
Theorem parse_packet_total bytes :
  match parse_packet bytes with
  | Ok p => parsed_wf bytes p
  | Err _ => True
  | Panic => False
  end.
Proof.
  pose proof (no_panic_parse_packet bytes) as Hn.
  destruct (parse_packet bytes) as [p|e|] eqn:Hp; [by apply parse_packet_parsed_wf|done|].
  by apply Hn.
Qed.

(** An accepted packet had correct checksums: the IPv4 header always, and
    for an unfragmented packet the TCP, UDP (unless IPv4 UDP declares none),
    ICMP or ICMPv6 checksum over some suffix of the bytes, in the sense of the
    ones'-complement sum of RFC 1071. *)
Theorem accepted_packet_checksums bytes p :
  parse_packet bytes = Ok p ->
  (is_ipv6 (source p) = false ->
     exists header, header `prefix_of` bytes /\ 20 <= lenN header /\
       words_sum header <> 0 /\ words_sum header mod 0xffff = 0) /\
  (fragment p = None -> exists payload, payload `suffix_of` bytes /\ payload_checksummed payload p).
Proof. apply parse_packet_checksummed. Qed.

(** The folded checksum is the ones' complement of the sum modulo 0xffff:
    zero exactly for a non-zero multiple of 0xffff; two folding rounds suffice
    and no 32-bit addition overflows for any buffer up to 69632 bytes. *)
Theorem internet_checksum_correct bytes :
  lenN bytes <= 0x1_1000 ->
  exists c, internet_checksum (E:=ParseError) bytes = Ok c /\ c <= 0xffff /\
    (c + words_sum bytes) mod 0xffff = 0 /\
    (c = 0 <-> words_sum bytes <> 0 /\ words_sum bytes mod 0xffff = 0).
Proof.
  intros Hlen. destruct (internet_checksum_spec (E:=ParseError) bytes Hlen) as (c & ? & ? & ? & ?).
  by exists c.
Qed.

(** ** Examples *)

Definition of_octets (l : list N) : list byte := byte_of <$> l.
(** UDP 10.0.0.1:1000 to 10.0.0.2:53, five bytes of payload. *)
Definition example_udp : list byte := of_octets
  [69; 0; 0; 33; 0; 7; 0; 0; 64; 17; 102; 195; 10; 0; 0; 1; 10; 0; 0; 2; 3; 232; 0; 53; 0; 13; 163; 226; 104; 101; 108; 108; 111].
Definition example_parsed : ParsedPacket :=
  mkParsedPacket (V4 0x0a000001) (V4 0x0a000002) UDP (Some 1000) (Some 53) None None None 33 None.

Example example_udp_parses : parse_packet example_udp = Ok example_parsed.
Proof. vm_compute. reflexivity. Qed.
Example example_udp_truncated : parse_packet (take 32 example_udp) = Err Malformed.
Proof. vm_compute. reflexivity. Qed.

Lemma accepted_packet_checksums_witness :
  parse_packet example_udp = Ok example_parsed /\
  exists payload, payload `suffix_of` example_udp /\ payload_checksummed payload example_parsed.
Proof.
  assert (H : parse_packet example_udp = Ok example_parsed) by (vm_compute; reflexivity).
  split; [exact H|]. exact (proj2 (accepted_packet_checksums _ _ H) eq_refl).
Defined.

Lemma internet_checksum_correct_witness :
  lenN example_udp <= 0x1_1000 /\
  exists c, internet_checksum (E:=ParseError) example_udp = Ok c.
Proof.
  assert (H : lenN example_udp <= 0x1_1000) by (vm_compute; discriminate).
  split; [exact H|]. destruct (internet_checksum_correct _ H) as (c & Hc & _). by exists c.
Defined.

End Pkt.
