(* ===== verification/Firewall.v ===== *)
(** * The sharded stateful firewall (crate [peerward-dataplane], firewall.rs)

    State tables are [HashMap]s with a companion [BTreeSet] of deadlines; both
    are modelled as the code keeps them, and the well-formedness invariant says
    how they correspond.  A method that locks a shard is a function of the
    shard; a method of the firewall returns the updated firewall.  The two
    instances of the default hasher are parameters: nothing depends on them. *)

From S2P Require Import Prelude Ordered Net Packet.
From Stdlib Require Import NArith ZArith Lia.
From stdpp Require Import base tactics decidable countable numbers list gmap.
Import Pkt.
Set Default Goal Selector "!".
Local Open Scope N_scope.

Module Fw.

(** ** Data *)

Inductive Action := Allow | Deny.
#[export] Instance Action_eq_dec : EqDecision Action.
Proof. solve_decision. Defined.

Record Rule `{IpNetLib} := mkRule {
  rule_id : RuleId;
  priority : N;
  rule_action : Action;
  rule_source : option IpNet;
  rule_destination : option IpNet;
  rule_protocol : option N;
  destination_ports : list (N * N);
}.

(** [Option::is_none_or] *)
Definition is_none_or {A} (o : option A) (f : A -> bool) : bool :=
  match o with None => true | Some a => f a end.
(** [Option::is_some_and] *)
Definition is_some_and {A} (o : option A) (f : A -> bool) : bool :=
  match o with None => false | Some a => f a end.
(** [RangeInclusive::contains] *)
Definition range_contains (range : N * N) (port : N) : bool :=
  (range.1 <=? port) && (port <=? range.2).

Definition rule_matches `{IpNetLib} (self : Rule) (packet : ParsedPacket) : bool :=
  is_none_or (rule_source self) (fun network => net_contains network (source packet))
  && is_none_or (rule_destination self) (fun network => net_contains network (destination packet))
  && is_none_or (rule_protocol self) (fun value => value =? protocol packet)
  && (match destination_ports self with [] => true | _ => false end
      || is_some_and (destination_port packet) (fun port =>
           existsb (fun range => range_contains range port) (destination_ports self))).

(** [FlowKey::from_endpoints], [FlowKey::from_packet], [FlowKey::reverse] *)
Definition from_endpoints (origin target : IpAddr * option N) (protocol : N) : FlowKey :=
  let '(source, source_port) := origin in
  let '(destination, destination_port) := target in
  mkFlowKey source destination protocol source_port destination_port.
Definition from_packet (packet : ParsedPacket) : option FlowKey :=
  let transport_header_is_present :=
    is_none_or (fragment packet) (fun fragment => offset fragment =? 0) in
  if transport_header_is_present then
    Some (from_endpoints (source packet, source_port packet)
            (destination packet, destination_port packet) (protocol packet))
  else None.
Definition reverse (k : FlowKey) : FlowKey :=
  mkFlowKey (fk_destination k) (fk_source k) (fk_protocol k)
    (fk_destination_port k) (fk_source_port k).

Inductive TcpPhase := SynSent | SynReceived | Established | Closing.
#[export] Instance TcpPhase_eq_dec : EqDecision TcpPhase.
Proof. solve_decision. Defined.

Record FlowState := mkFlowState { flow_expires_at : N; phase : option TcpPhase }.

Record FragmentKey := mkFragmentKey {
  fr_source : IpAddr;
  fr_destination : IpAddr;
  fr_protocol : N;
  fr_identification : N;
}.
#[export] Instance FragmentKey_eq_dec : EqDecision FragmentKey.
Proof. solve_decision. Defined.
Definition FragmentKey_tuple (k : FragmentKey) : IpAddr * (IpAddr * (N * N)) :=
  (fr_source k, (fr_destination k, (fr_protocol k, fr_identification k))).
Definition FragmentKey_of_tuple (t : IpAddr * (IpAddr * (N * N))) : FragmentKey :=
  let '(a, (b, (c, d))) := t in mkFragmentKey a b c d.
#[export] Instance FragmentKey_countable : Countable FragmentKey.
Proof. apply (inj_countable' FragmentKey_tuple FragmentKey_of_tuple). by intros []. Defined.
#[export] Instance FragmentKey_compare : Compare FragmentKey := compare_via FragmentKey_tuple.
#[export] Instance FragmentKey_compare_laws : CompareLaws FragmentKey.
Proof.
  apply compare_via_laws. intros [] [] Heq. unfold FragmentKey_tuple in Heq. cbn in Heq.
  by simplify_eq.
Qed.

Record FragmentState := mkFragmentState {
  fragment_expires_at : N;
  fragment_action : Action;
  fragment_rule_id : option RuleId;
}.

Record Shard := mkShard {
  flows : gmap FlowKey FlowState;
  flow_expirations : gset (N * FlowKey);
  fragments : gmap FragmentKey FragmentState;
  fragment_expirations : gset (N * FragmentKey);
}.
Definition empty_shard : Shard := mkShard ∅ ∅ ∅ ∅.
#[export] Instance Shard_inhabited : Inhabited Shard := populate empty_shard.

Record Decision := mkDecision {
  action : Action;
  decision_rule_id : option RuleId;
  stateful : bool;
}.
Definition denied : Decision := mkDecision Deny None false.

(** ** Shard operations *)

Definition remove_flow (key : FlowKey) (self : Shard) : Shard :=
  match flows self !! key with
  | Some state =>
      mkShard (delete key (flows self))
        (flow_expirations self ∖ {[(flow_expires_at state, key)]})
        (fragments self) (fragment_expirations self)
  | None => self
  end.

Definition store_flow (key : FlowKey) (state : FlowState) (self : Shard) : Shard :=
  let flows' := <[key := state]> (flows self) in
  match flows self !! key with
  | Some previous =>
      if flow_expires_at previous =? flow_expires_at state then
        mkShard flows' (flow_expirations self) (fragments self) (fragment_expirations self)
      else
        mkShard flows'
          ((flow_expirations self ∖ {[(flow_expires_at previous, key)]})
             ∪ {[(flow_expires_at state, key)]})
          (fragments self) (fragment_expirations self)
  | None =>
      mkShard flows' (flow_expirations self ∪ {[(flow_expires_at state, key)]})
        (fragments self) (fragment_expirations self)
  end.

Definition remove_fragment (key : FragmentKey) (self : Shard) : Shard :=
  match fragments self !! key with
  | Some state =>
      mkShard (flows self) (flow_expirations self) (delete key (fragments self))
        (fragment_expirations self ∖ {[(fragment_expires_at state, key)]})
  | None => self
  end.

Definition evict_flow_if_full (shard : Shard) (limit : N) : Shard :=
  if N.of_nat (size (flows shard)) <? limit then shard
  else match bt_first (flow_expirations shard) with
       | Some (_, oldest) => remove_flow oldest shard
       | None => shard
       end.

Fixpoint expire_flows (budget : nat) (now : N) (shard : Shard) : Shard :=
  match budget with
  | O => shard
  | S budget' =>
      match bt_first (flow_expirations shard) with
      | None => shard
      | Some (expires_at, key) =>
          if now <? expires_at then shard
          else expire_flows budget' now (remove_flow key shard)
      end
  end.
Fixpoint expire_fragments (budget : nat) (now : N) (shard : Shard) : Shard :=
  match budget with
  | O => shard
  | S budget' =>
      match bt_first (fragment_expirations shard) with
      | None => shard
      | Some (expires_at, key) =>
          if now <? expires_at then shard
          else expire_fragments budget' now (remove_fragment key shard)
      end
  end.
Definition expire (shard : Shard) (now : N) (budget : nat) : Shard :=
  expire_fragments budget now (expire_flows budget now shard).

(** ** Packet classification *)

Definition valid_initiation (packet : ParsedPacket) : bool :=
  if protocol packet =? TCP then
    is_some_and (tcp_flags packet) (fun flags =>
      negb (N.land flags TCP_SYN =? 0) && (N.land flags TCP_ACK =? 0))
  else if protocol packet =? ICMP_V4 then
    is_some_and (icmp packet) (fun '(kind, _) => kind =? 8)
  else if protocol packet =? ICMP_V6 then
    is_some_and (icmp packet) (fun '(kind, _) => kind =? 128)
  else true.

(** [None] is the refusal; the flow keeps the state it had. *)
Definition advance_tcp (state : FlowState) (flags : N) (initiator : bool) : option FlowState :=
  let go p := Some (mkFlowState (flow_expires_at state) p) in
  if negb (N.land flags TCP_RST =? 0) then go (Some Closing) else
  let value := N.land flags (N.lor (N.lor TCP_SYN TCP_ACK) TCP_FIN) in
  match phase state, initiator with
  | Some (SynSent | SynReceived), true =>
      if value =? TCP_SYN then go (phase state)
      else match phase state with
           | Some SynReceived =>
               if negb (N.land value TCP_ACK =? 0) then go (Some Established) else None
           | _ => None
           end
  | Some SynReceived, false =>
      if value =? N.lor TCP_SYN TCP_ACK then go (phase state) else None
  | Some SynSent, false =>
      if N.land value (N.lor TCP_SYN TCP_ACK) =? N.lor TCP_SYN TCP_ACK
      then go (Some SynReceived) else None
  | Some Established, _ =>
      if negb (N.land value TCP_FIN =? 0) then go (Some Closing) else go (phase state)
  | Some Closing, _ => go (phase state)
  | None, _ => None
  end.

Definition timeout (protocol flow tcp : N) : N := if protocol =? TCP then tcp else flow.

Definition fragment_key (packet : ParsedPacket) (fragment : Fragment) : FragmentKey :=
  mkFragmentKey (source packet) (destination packet)
    (if is_ipv6 (source packet) then 0 else protocol packet) (identification fragment).

(** ** The firewall *)

Section firewall.
Context `{IpNetLib}.
(** [DefaultHasher] applied to a key. *)
Context (hash_flow : FlowKey -> N) (hash_fragment : FragmentKey -> N).

Record Firewall := mkFirewall {
  rules : list Rule;
  default_action : Action;
  revision : N;
  shards : list Shard;
  per_shard_limit : N;
  flow_timeout : N;
  tcp_timeout : N;
  fragment_timeout : N;
  expiry_budget : nat;
}.

Definition new (revision : N) (default : Action) (rules : list Rule)
    (state_limit shard_count : N) : Firewall :=
  let count := N.max shard_count 1 in
  mkFirewall (sort_by_key priority rules) default revision
    (replicate (N.to_nat count) empty_shard)
    (div_ceil (N.max state_limit 1) count) 60 600 15 64.

Definition with_shards (self : Firewall) (s : list Shard) : Firewall :=
  mkFirewall (rules self) (default_action self) (revision self) s (per_shard_limit self)
    (flow_timeout self) (tcp_timeout self) (fragment_timeout self) (expiry_budget self).

Definition invalidate_state (self : Firewall) : Firewall :=
  with_shards self ((fun _ => empty_shard) <$> shards self).

Definition replace (self : Firewall) (revision' : N) (default : Action) (rules' : list Rule)
    : bool * Firewall :=
  if revision' <=? revision self then (false, self)
  else
    (true, invalidate_state
      (mkFirewall (sort_by_key priority rules') default revision' (shards self)
         (per_shard_limit self) (flow_timeout self) (tcp_timeout self)
         (fragment_timeout self) (expiry_budget self))).

Definition fragment_of_flow (key : FlowKey) (fragment : FragmentKey) : bool :=
  ((fr_protocol fragment =? fk_protocol key) || is_ipv6 (fr_source fragment))
  && ((bool_decide (fr_source fragment = fk_source key)
       && bool_decide (fr_destination fragment = fk_destination key))
      || (bool_decide (fr_source fragment = fk_destination key)
          && bool_decide (fr_destination fragment = fk_source key))).
Definition forget_flow_shard (key : FlowKey) (state : Shard) : Shard :=
  let state := remove_flow key state in
  let state := remove_flow (reverse key) state in
  let fragments_to_remove :=
    filter (fun k => fragment_of_flow key k = true) (map_to_list (fragments state)).*1 in
  foldl (fun state fragment => remove_fragment fragment state) state fragments_to_remove.
Definition forget_flow (key : FlowKey) (self : Firewall) : Firewall :=
  with_shards self (forget_flow_shard key <$> shards self).

Definition state_len (self : Firewall) : N :=
  foldr (fun shard acc => N.of_nat (size (flows shard)) + acc) 0 (shards self).

Definition policy_decision (self : Firewall) (packet : ParsedPacket) : Decision :=
  match find (fun rule => rule_matches rule packet) (rules self) with
  | Some rule => mkDecision (rule_action rule) (Some (rule_id rule)) false
  | None => mkDecision (default_action self) None false
  end.

Definition shard_index (hash : N) (self : Firewall) : nat :=
  N.to_nat (hash mod lenN (shards self)).
(** Locking shard [index] and running a function of it. *)
Definition lock_shard (index : nat) (self : Firewall) : Shard := shards self !!! index.
Definition put_shard (index : nat) (shard : Shard) (self : Firewall) : Firewall :=
  with_shards self (<[index := shard]> (shards self)).

Definition has_state (self : Firewall) (key : FlowKey) (now : N) : bool :=
  let shard := lock_shard (shard_index (hash_flow key) self) self in
  is_some_and (flows shard !! key) (fun state => now <? flow_expires_at state).

(** One round of the loop of [evaluate_existing], on the locked shard:
    [None] continues with the other direction. *)
Definition existing_in_shard (self : Firewall) (packet : ParsedPacket) (key : FlowKey)
    (initiator_direction : bool) (now : N) (shard : Shard) : option Decision * Shard :=
  let shard := expire shard now (expiry_budget self) in
  match flows shard !! key with
  | None => (None, shard)
  | Some state =>
      if flow_expires_at state <=? now then (None, remove_flow key shard) else
      let flags := default 0 (tcp_flags packet) in
      match (if protocol packet =? TCP then advance_tcp state flags initiator_direction
             else Some state) with
      | None => (Some denied, shard)
      | Some state =>
          let remove := (protocol packet =? TCP) && negb (N.land flags TCP_RST =? 0) in
          let shard :=
            if remove then remove_flow key shard
            else
              let timeout := if bool_decide (phase state = Some Closing) then flow_timeout self
                             else timeout (protocol packet) (flow_timeout self) (tcp_timeout self) in
              store_flow key (mkFlowState (sat_add now timeout) (phase state)) shard in
          (Some (mkDecision Allow None true), shard)
      end
  end.

Definition evaluate_direction (packet : ParsedPacket) (key : FlowKey)
    (initiator_direction : bool) (now : N) (self : Firewall) : option Decision * Firewall :=
  let index := shard_index (hash_flow key) self in
  let '(result, shard) :=
    existing_in_shard self packet key initiator_direction now (lock_shard index self) in
  (result, put_shard index shard self).

Definition evaluate_existing (packet : ParsedPacket) (flow : FlowKey) (now : N)
    (self : Firewall) : option Decision * Firewall :=
  let '(result, self) := evaluate_direction packet flow true now self in
  match result with
  | Some decision => (Some decision, self)
  | None => evaluate_direction packet (reverse flow) false now self
  end.

Definition insert_flow_shard (self : Firewall) (flow : FlowKey) (packet : ParsedPacket) (now : N)
    (shard : Shard) : Shard :=
  let shard := expire shard now (expiry_budget self) in
  let shard := evict_flow_if_full shard (per_shard_limit self) in
  store_flow flow
    (mkFlowState
       (sat_add now (timeout (protocol packet) (flow_timeout self) (tcp_timeout self)))
       (if protocol packet =? TCP then Some SynSent else None)) shard.
Definition insert_flow (flow : FlowKey) (packet : ParsedPacket) (now : N) (self : Firewall)
    : Firewall :=
  let index := shard_index (hash_flow flow) self in
  put_shard index (insert_flow_shard self flow packet now (lock_shard index self)) self.

Definition insert_fragment_shard (self : Firewall) (key : FragmentKey) (action : Action)
    (rule_id : option RuleId) (now : N) (shard : Shard) : Shard :=
  let shard := remove_fragment key shard in
  let shard :=
    if per_shard_limit self <=? N.of_nat (size (fragments shard)) then
      match bt_first (fragment_expirations shard) with
      | Some (_, expiring) => remove_fragment expiring shard
      | None => shard
      end
    else shard in
  let expires_at := sat_add now (fragment_timeout self) in
  mkShard (flows shard) (flow_expirations shard)
    (<[key := mkFragmentState expires_at action rule_id]> (fragments shard))
    (fragment_expirations shard ∪ {[(expires_at, key)]}).
Definition insert_fragment (packet : ParsedPacket) (fragment : Fragment) (action : Action)
    (rule_id : option RuleId) (now : N) (self : Firewall) : Firewall :=
  let key := fragment_key packet fragment in
  let index := shard_index (hash_fragment key) self in
  put_shard index
    (insert_fragment_shard self key action rule_id now (lock_shard index self)) self.

Definition evaluate_later_fragment (packet : ParsedPacket) (fragment : Fragment) (now : N)
    (self : Firewall) : Decision * Firewall :=
  let key := fragment_key packet fragment in
  let index := shard_index (hash_fragment key) self in
  let shard := lock_shard index self in
  match fragments shard !! key with
  | None => (denied, self)
  | Some state =>
      if fragment_expires_at state <=? now
      then (denied, put_shard index (remove_fragment key shard) self)
      else (mkDecision (fragment_action state) (fragment_rule_id state) true, self)
  end.

(** The tail of [evaluate_with_policy], after the later-fragment and
    related-error cases returned. *)
Definition evaluate_flow (packet : ParsedPacket) (now : N)
    (policy : ParsedPacket -> Action * option RuleId) (self : Firewall) : Decision * Firewall :=
  match from_packet packet with
  | None => (denied, self)
  | Some flow =>
      let '(existing, self) := evaluate_existing packet flow now self in
      match existing with
      | Some decision => (decision, self)
      | None =>
          if negb (valid_initiation packet) then (denied, self) else
          let '(action, rule_id) := policy packet in
          let self :=
            match action with
            | Allow =>
                let self :=
                  if (protocol packet =? TCP) || (protocol packet =? UDP)
                     || (protocol packet =? ICMP_V4) || (protocol packet =? ICMP_V6)
                  then insert_flow flow packet now self else self in
                match fragment packet with
                | Some item =>
                    if more item then insert_fragment packet item action rule_id now self
                    else self
                | None => self
                end
            | Deny => self
            end in
          (mkDecision action rule_id false, self)
      end
  end.

Definition evaluate_with_policy (packet : ParsedPacket) (now : N)
    (policy : ParsedPacket -> Action * option RuleId) (self : Firewall) : Decision * Firewall :=
  let first :=
    if is_some_and (related_flow packet) (fun related =>
         has_state self related now || has_state self (reverse related) now)
    then (mkDecision Allow None true, self)
    else evaluate_flow packet now policy self in
  match fragment packet with
  | Some f => if negb (offset f =? 0) then evaluate_later_fragment packet f now self else first
  | None => first
  end.

Definition evaluate (packet : ParsedPacket) (now : N) (self : Firewall) : Decision * Firewall :=
  evaluate_with_policy packet now
    (fun packet => let decision := policy_decision self packet in
                   (action decision, decision_rule_id decision)) self.
End firewall.

(** ** Shard invariant

    Deadline indices describe their tables exactly, the tables respect the
    shard's limit, and only permitted first fragments are remembered. *)
Record shard_wf (limit : N) (s : Shard) : Prop := {
  swf_flows : index_ok flow_expires_at (flows s) (flow_expirations s);
  swf_fragments : index_ok fragment_expires_at (fragments s) (fragment_expirations s);
  swf_flow_bound : N.of_nat (size (flows s)) <= limit;
  swf_fragment_bound : N.of_nat (size (fragments s)) <= limit;
  swf_allowed : forall k st, fragments s !! k = Some st -> fragment_action st = Allow;
}.


Section shard.
Context (limit : N).
Implicit Types s : Shard.

Lemma empty_shard_wf : shard_wf limit empty_shard.
Proof.
  split; cbn; try apply index_ok_empty; try done; rewrite ?map_size_empty; lia.
Qed.

Lemma remove_flow_lookup key s k :
  flows (remove_flow key s) !! k = if decide (key = k) then None else flows s !! k.
Proof.
  unfold remove_flow. destruct (flows s !! key) eqn:Hk; cbn.
  - by rewrite lookup_delete.
  - case_decide; by subst.
Qed.
Lemma remove_flow_fragments key s :
  fragments (remove_flow key s) = fragments s /\
  fragment_expirations (remove_flow key s) = fragment_expirations s.
Proof. unfold remove_flow. by destruct (flows s !! key). Qed.
Lemma remove_flow_size key s : (size (flows (remove_flow key s)) <= size (flows s))%nat.
Proof. unfold remove_flow. destruct (flows s !! key); cbn; [apply size_delete_le|done]. Qed.

Lemma remove_flow_wf key s : shard_wf limit s -> shard_wf limit (remove_flow key s).
Proof.
  intros Hs. pose proof (remove_flow_size key s) as Hsz. destruct Hs as [Hf Hg Hb Hc Ha].
  unfold remove_flow in *. destruct (flows s !! key) as [st|] eqn:Hk; [|done].
  split; cbn in *; try done; [by apply index_ok_delete|lia].
Qed.

Lemma remove_fragment_lookup key s k :
  fragments (remove_fragment key s) !! k = if decide (key = k) then None else fragments s !! k.
Proof.
  unfold remove_fragment. destruct (fragments s !! key) eqn:Hk; cbn.
  - by rewrite lookup_delete.
  - case_decide; by subst.
Qed.
Lemma remove_fragment_flows key s :
  flows (remove_fragment key s) = flows s /\
  flow_expirations (remove_fragment key s) = flow_expirations s.
Proof. unfold remove_fragment. by destruct (fragments s !! key). Qed.
Lemma remove_fragment_size key s :
  (size (fragments (remove_fragment key s)) <= size (fragments s))%nat.
Proof. unfold remove_fragment. destruct (fragments s !! key); cbn; [apply size_delete_le|done]. Qed.

Lemma remove_fragment_wf key s : shard_wf limit s -> shard_wf limit (remove_fragment key s).
Proof.
  intros Hs. pose proof (remove_fragment_size key s) as Hsz. destruct Hs as [Hf Hg Hb Hc Ha].
  unfold remove_fragment in *. destruct (fragments s !! key) as [st|] eqn:Hk; [|done].
  split; cbn in *; try done; [by apply index_ok_delete|lia|].
  intros k' st' [_ Hk']%lookup_delete_Some. by eapply Ha.
Qed.

Lemma store_flow_lookup key st s k :
  flows (store_flow key st s) !! k = if decide (key = k) then Some st else flows s !! k.
Proof.
  unfold store_flow. destruct (flows s !! key); [destruct (_ =? _)|]; cbn; apply lookup_insert.
Qed.
Lemma store_flow_fragments key st s :
  fragments (store_flow key st s) = fragments s /\
  fragment_expirations (store_flow key st s) = fragment_expirations s.
Proof. unfold store_flow. by repeat case_match. Qed.
Lemma store_flow_wf key st s :
  shard_wf limit s ->
  is_Some (flows s !! key) \/ N.of_nat (size (flows s)) < limit ->
  shard_wf limit (store_flow key st s).
Proof.
  intros [Hf Hg Hb Hc Ha] Hroom. unfold store_flow.
  destruct (flows s !! key) as [st0|] eqn:Hk.
  - assert (Hsz : size (<[key:=st]> (flows s)) = size (flows s))
      by (apply map_size_insert_Some; eauto).
    destruct (N.eqb_spec (flow_expires_at st0) (flow_expires_at st)); split; cbn; try done;
      try (by rewrite Hsz); [by eapply index_ok_insert_same|by apply index_ok_replace].
  - destruct Hroom as [[? ?]|Hroom]; [done|].
    split; cbn; try done; [by apply index_ok_insert_new|].
    rewrite map_size_insert_None by done. lia.
Qed.

Lemma expire_flows_wf budget now s :
  shard_wf limit s -> shard_wf limit (expire_flows budget now s).
Proof.
  revert s. induction budget as [|b IH]; intros s Hs; cbn; [done|].
  repeat case_match; try done. by apply IH, remove_flow_wf.
Qed.
Lemma expire_fragments_wf budget now s :
  shard_wf limit s -> shard_wf limit (expire_fragments budget now s).
Proof.
  revert s. induction budget as [|b IH]; intros s Hs; cbn; [done|].
  repeat case_match; try done. by apply IH, remove_fragment_wf.
Qed.
Lemma expire_wf now budget s : shard_wf limit s -> shard_wf limit (expire s now budget).
Proof. intros. by apply expire_fragments_wf, expire_flows_wf. Qed.

(** Expiry only removes entries whose deadline has passed. *)
Lemma expire_flows_lookup budget now s k st :
  shard_wf limit s ->
  flows (expire_flows budget now s) !! k = Some st -> flows s !! k = Some st.
Proof.
  revert s. induction budget as [|b IH]; intros s Hs; cbn; [done|].
  repeat case_match; try done. intros Hk%IH; [|by apply remove_flow_wf].
  rewrite remove_flow_lookup in Hk. by case_decide.
Qed.
Lemma expire_flows_keep budget now s k st :
  shard_wf limit s -> flows s !! k = Some st -> now < flow_expires_at st ->
  flows (expire_flows budget now s) !! k = Some st.
Proof.
  revert s. induction budget as [|b IH]; intros s Hs Hk Hlive; cbn; [done|].
  destruct (bt_first _) as [[t key]|] eqn:Hfirst; [|done].
  destruct (N.ltb_spec now t) as [|Hle]; [done|].
  apply IH; [by apply remove_flow_wf| |done].
  rewrite remove_flow_lookup. case_decide as Heq; [|done]. subst key.
  destruct (index_ok_first _ _ _ _ _ (swf_flows _ _ Hs) Hfirst) as (v & Hv & Hd & _).
  assert (v = st) as -> by congruence. lia.
Qed.
Lemma expire_fragments_flows budget now s : flows (expire_fragments budget now s) = flows s.
Proof.
  revert s. induction budget as [|b IH]; intros s; cbn; [done|].
  repeat case_match; try done. rewrite IH. apply remove_fragment_flows.
Qed.
Lemma expire_flows_fragments budget now s : fragments (expire_flows budget now s) = fragments s.
Proof.
  revert s. induction budget as [|b IH]; intros s; cbn; [done|].
  repeat case_match; try done. rewrite IH. apply remove_flow_fragments.
Qed.
Lemma expire_fragments_lookup budget now s k st :
  fragments (expire_fragments budget now s) !! k = Some st -> fragments s !! k = Some st.
Proof.
  revert s. induction budget as [|b IH]; intros s; cbn; [done|].
  repeat case_match; try done. intros Hk%IH.
  rewrite remove_fragment_lookup in Hk. by destruct (decide _).
Qed.

Lemma expire_lookup now budget s k st :
  shard_wf limit s -> flows (expire s now budget) !! k = Some st -> flows s !! k = Some st.
Proof. intros Hs. unfold expire. rewrite expire_fragments_flows. by apply expire_flows_lookup. Qed.
Lemma expire_keep now budget s k st :
  shard_wf limit s -> flows s !! k = Some st -> now < flow_expires_at st ->
  flows (expire s now budget) !! k = Some st.
Proof. intros. unfold expire. rewrite expire_fragments_flows. by apply expire_flows_keep. Qed.

(** Eviction makes room, and only touches a full shard. *)
Lemma evict_wf s : shard_wf limit s -> shard_wf limit (evict_flow_if_full s limit).
Proof.
  intros Hs. unfold evict_flow_if_full. repeat case_match; try done. by apply remove_flow_wf.
Qed.
Lemma evict_room s :
  0 < limit -> shard_wf limit s ->
  N.of_nat (size (flows (evict_flow_if_full s limit))) < limit.
Proof.
  intros Hl Hs. unfold evict_flow_if_full.
  destruct (N.ltb_spec (N.of_nat (size (flows s))) limit) as [|Hfull]; [done|].
  destruct (bt_first _) as [[t key]|] eqn:Hfirst.
  - destruct (index_ok_first _ _ _ _ _ (swf_flows _ _ Hs) Hfirst) as (v & Hv & _).
    unfold remove_flow. rewrite Hv. cbn. rewrite map_size_delete_Some by eauto.
    pose proof (swf_flow_bound _ _ Hs).
    assert (size (flows s) <> 0)%nat by 
      (intros Hz%map_size_empty_inv; by rewrite Hz, lookup_empty in Hv). lia.
  - apply (index_ok_first_None _ _ _ (swf_flows _ _ Hs)) in Hfirst.
    rewrite Hfirst, map_size_empty in *. lia.
Qed.
Lemma evict_lookup s k st :
  flows (evict_flow_if_full s limit) !! k = Some st -> flows s !! k = Some st.
Proof.
  unfold evict_flow_if_full. repeat case_match; try done.
  rewrite remove_flow_lookup. by case_decide.
Qed.
(** The victim is the entry closest to its deadline. *)
Lemma evict_oldest s k st :
  shard_wf limit s -> flows s !! k = Some st ->
  flows (evict_flow_if_full s limit) !! k = None ->
  limit <= N.of_nat (size (flows s)) /\
  forall k' st', flows s !! k' = Some st' -> flow_expires_at st <= flow_expires_at st'.
Proof.
  intros Hs Hk. unfold evict_flow_if_full.
  destruct (N.ltb_spec (N.of_nat (size (flows s))) limit) as [|Hfull]; [congruence|].
  destruct (bt_first _) as [[t key]|] eqn:Hfirst; [|congruence].
  rewrite remove_flow_lookup. case_decide as Heq; [|congruence]. subst key. intros _.
  destruct (index_ok_first _ _ _ _ _ (swf_flows _ _ Hs) Hfirst) as (v & Hv & Hd & Hmin).
  assert (v = st) as -> by congruence. split; [done|]. intros k' st' Hk'.
  rewrite Hd. by eapply Hmin.
Qed.
End shard.

(** ** The firewall invariant *)

Section firewall_proofs.
Context `{IpNetLib}.
Context (hash_flow : FlowKey -> N) (hash_fragment : FragmentKey -> N).
Implicit Types (fw : Firewall) (s : Shard).

Record fw_wf fw : Prop := {
  fwf_limit : 0 < per_shard_limit fw;
  fwf_count : shards fw <> [];
  fwf_shards : forall i s, shards fw !! i = Some s -> shard_wf (per_shard_limit fw) s;
}.

Lemma shard_index_lt hash fw : shards fw <> [] -> (shard_index hash fw < length (shards fw))%nat.
Proof.
  intros Hne. unfold shard_index, lenN. destruct (shards fw) as [|x l]; [done|].
  pose proof (N.mod_lt hash (N.of_nat (length (x :: l))) ltac:(cbn [length]; lia)). lia.
Qed.

Lemma lock_shard_lookup hash fw :
  shards fw <> [] ->
  shards fw !! shard_index hash fw = Some (lock_shard (shard_index hash fw) fw).
Proof.
  intros Hne. unfold lock_shard. rewrite list_lookup_lookup_total_lt; [done|].
  by apply shard_index_lt.
Qed.
Lemma lock_shard_wf hash fw :
  fw_wf fw -> shard_wf (per_shard_limit fw) (lock_shard (shard_index hash fw) fw).
Proof. intros Hw. eapply fwf_shards; [done|]. by apply lock_shard_lookup, fwf_count. Qed.

Lemma put_shard_wf i s fw :
  fw_wf fw -> shard_wf (per_shard_limit fw) s -> fw_wf (put_shard i s fw).
Proof.
  intros [Hl Hc Hs] Hnew. split; cbn; [done| |].
  - intros Hnil. apply Hc. apply nil_length_inv.
    apply (f_equal length) in Hnil. by rewrite length_insert in Hnil.
  - intros j s' [(-> & -> & _)|[_ Hj]]%list_lookup_insert_Some; [done|by eapply Hs].
Qed.

(** *** Locked regions

    What a method does to one shard while it holds the lock.  Between two of
    them any other thread may run. *)
Inductive locked fw : Shard -> Shard -> Prop :=
| locked_existing packet key dir now s :
    locked fw s (existing_in_shard fw packet key dir now s).2
| locked_insert_flow flow packet now s :
    locked fw s (insert_flow_shard fw flow packet now s)
| locked_insert_fragment key rule now s :
    locked fw s (insert_fragment_shard fw key Allow rule now s)
| locked_drop_fragment key s :
    locked fw s (remove_fragment key s)
| locked_forget key s :
    locked fw s (forget_flow_shard key s)
| locked_clear s :
    locked fw s empty_shard.

Lemma existing_wf fw packet key dir now s :
  shard_wf (per_shard_limit fw) s ->
  shard_wf (per_shard_limit fw) (existing_in_shard fw packet key dir now s).2.
Proof.
  intros Hs. unfold existing_in_shard. apply (expire_wf _ now (expiry_budget fw)) in Hs.
  set (s1 := expire s now (expiry_budget fw)) in *.
  destruct (flows s1 !! key) as [st|] eqn:Hk; [|done].
  destruct (flow_expires_at st <=? now); [by apply remove_flow_wf|].
  destruct (if protocol packet =? TCP then _ else _); [|done]. cbn.
  destruct (_ && _); [by apply remove_flow_wf|]. apply store_flow_wf; eauto.
Qed.

Lemma insert_flow_shard_wf fw flow packet now s :
  0 < per_shard_limit fw -> shard_wf (per_shard_limit fw) s ->
  shard_wf (per_shard_limit fw) (insert_flow_shard fw flow packet now s).
Proof.
  intros Hl Hs. unfold insert_flow_shard. apply (expire_wf _ now (expiry_budget fw)) in Hs.
  apply store_flow_wf; [by apply evict_wf|]. right. by apply evict_room.
Qed.

Lemma insert_fragment_shard_wf fw key rule now s :
  0 < per_shard_limit fw -> shard_wf (per_shard_limit fw) s ->
  shard_wf (per_shard_limit fw) (insert_fragment_shard fw key Allow rule now s).
Proof.
  intros Hl Hs. unfold insert_fragment_shard.
  assert (Hnone : fragments (remove_fragment key s) !! key = None).
  { rewrite remove_fragment_lookup. by rewrite decide_True. }
  apply (remove_fragment_wf _ key) in Hs. set (s1 := remove_fragment key s) in *.
  set (s2 := if _ <=? _ then _ else _).
  assert (Hs2 : shard_wf (per_shard_limit fw) s2 /\ fragments s2 !! key = None /\
                N.of_nat (size (fragments s2)) < per_shard_limit fw).
  { unfold s2. destruct (N.leb_spec (per_shard_limit fw) (N.of_nat (size (fragments s1))));
      [|done].
    destruct (bt_first _) as [[t k]|] eqn:Hfirst.
    - destruct (index_ok_first _ _ _ _ _ (swf_fragments _ _ Hs) Hfirst) as (v & Hv & _).
      split_and!; [by apply remove_fragment_wf| |].
      + rewrite remove_fragment_lookup. by destruct (decide _).
      + unfold remove_fragment. rewrite Hv. cbn. rewrite map_size_delete_Some by eauto.
        pose proof (swf_fragment_bound _ _ Hs).
        assert (size (fragments s1) <> 0)%nat
          by (intros Hz%map_size_empty_inv; by rewrite Hz, lookup_empty in Hv). lia.
    - apply (index_ok_first_None _ _ _ (swf_fragments _ _ Hs)) in Hfirst.
      rewrite Hfirst, map_size_empty in *. lia. }
  destruct Hs2 as ([Hf Hg Hb Hc Ha] & Hn & Hroom).
  split; cbn; [done| |done| |].
  - by apply (index_ok_insert_new fragment_expires_at _ _ key
      (mkFragmentState (sat_add now (fragment_timeout fw)) Allow rule)).
  - rewrite map_size_insert_None by done. lia.
  - intros k st [[-> <-]|[_ Hk]]%lookup_insert_Some; [done|by eapply Ha].
Qed.

Lemma forget_flow_shard_wf limit key s :
  shard_wf limit s -> shard_wf limit (forget_flow_shard key s).
Proof.
  intros Hs. unfold forget_flow_shard.
  apply (remove_flow_wf _ key), (remove_flow_wf _ (reverse key)) in Hs.
  set (s1 := remove_flow _ _) in *. clearbody s1.
  generalize (filter (fun k => fragment_of_flow key k = true) (map_to_list (fragments s1)).*1).
  intros l. revert s1 Hs. induction l as [|f l IH]; intros s1 Hs; cbn; [done|].
  by apply IH, remove_fragment_wf.
Qed.

Lemma locked_wf fw s s' :
  0 < per_shard_limit fw -> locked fw s s' ->
  shard_wf (per_shard_limit fw) s -> shard_wf (per_shard_limit fw) s'.
Proof.
  intros Hl [] Hs; [by apply existing_wf|by apply insert_flow_shard_wf
    |by apply insert_fragment_shard_wf|by apply remove_fragment_wf
    |by apply forget_flow_shard_wf|apply empty_shard_wf].
Qed.

(** *** Whole operations *)

Lemma evaluate_direction_wf packet key dir now fw :
  fw_wf fw -> fw_wf (evaluate_direction hash_flow packet key dir now fw).2.
Proof.
  intros Hw. unfold evaluate_direction.
  pose proof (existing_wf fw packet key dir now _ (lock_shard_wf (hash_flow key) fw Hw)) as He.
  destruct (existing_in_shard _ _ _ _ _ _). by apply put_shard_wf.
Qed.
Lemma evaluate_direction_config packet key dir now fw :
  let fw' := (evaluate_direction hash_flow packet key dir now fw).2 in
  per_shard_limit fw' = per_shard_limit fw /\ revision fw' = revision fw /\
  rules fw' = rules fw /\ default_action fw' = default_action fw /\
  length (shards fw') = length (shards fw).
Proof.
  unfold evaluate_direction. destruct (existing_in_shard _ _ _ _ _ _). cbn.
  by rewrite length_insert.
Qed.
Lemma evaluate_existing_wf packet flow now fw :
  fw_wf fw -> fw_wf (evaluate_existing hash_flow packet flow now fw).2.
Proof.
  intros Hw. unfold evaluate_existing.
  pose proof (evaluate_direction_wf packet flow true now fw Hw) as H1.
  destruct (evaluate_direction _ packet flow true now fw) as [[d|] fw1]; [done|].
  by apply evaluate_direction_wf.
Qed.
Lemma insert_flow_wf flow packet now fw :
  fw_wf fw -> fw_wf (insert_flow hash_flow flow packet now fw).
Proof.
  intros Hw. apply put_shard_wf; [done|]. apply insert_flow_shard_wf; [apply Hw|].
  by apply lock_shard_wf.
Qed.
Lemma insert_fragment_wf packet f rule now fw :
  fw_wf fw -> fw_wf (insert_fragment hash_fragment packet f Allow rule now fw).
Proof.
  intros Hw. apply put_shard_wf; [done|]. apply insert_fragment_shard_wf; [apply Hw|].
  by apply lock_shard_wf.
Qed.

Lemma evaluate_flow_wf packet now policy fw :
  fw_wf fw -> fw_wf (evaluate_flow hash_flow hash_fragment packet now policy fw).2.
Proof.
  intros Hw. unfold evaluate_flow. destruct (from_packet packet) as [flow|]; [|done].
  pose proof (evaluate_existing_wf packet flow now fw Hw) as H1.
  destruct (evaluate_existing _ packet flow now fw) as [[d|] fw1]; cbn in H1; [done|].
  destruct (negb _); [done|]. destruct (policy packet) as [[] rid]; [|done]. cbn.
  match goal with |- context [if ?b then insert_flow _ _ _ _ _ else _] => destruct b end;
    destruct (fragment packet) as [f|]; try destruct (more f);
    auto using insert_flow_wf, insert_fragment_wf.
Qed.

Lemma evaluate_with_policy_wf packet now policy fw :
  fw_wf fw -> fw_wf (evaluate_with_policy hash_flow hash_fragment packet now policy fw).2.
Proof.
  intros Hw. unfold evaluate_with_policy.
  assert (Hfirst : fw_wf (if is_some_and (related_flow packet) (fun related =>
      has_state hash_flow fw related now || has_state hash_flow fw (reverse related) now)
    then (mkDecision Allow None true, fw)
    else evaluate_flow hash_flow hash_fragment packet now policy fw).2).
  { destruct (is_some_and _ _); [done|]. by apply evaluate_flow_wf. }
  destruct (fragment packet) as [f|]; [|done]. destruct (negb _); [|done].
  unfold evaluate_later_fragment.
  destruct (fragments _ !! _) as [st|]; [|done]. destruct (_ <=? now); [|done]. cbn.
  apply put_shard_wf; [done|]. apply remove_fragment_wf. by apply lock_shard_wf.
Qed.

Lemma map_shards_wf (f : Shard -> Shard) fw :
  (forall s, shard_wf (per_shard_limit fw) s -> shard_wf (per_shard_limit fw) (f s)) ->
  fw_wf fw -> fw_wf (with_shards fw (f <$> shards fw)).
Proof.
  intros Hf [Hl Hc Hs]. split; cbn; [done| |].
  - by intros ?%fmap_nil_inv.
  - intros i s (s0 & -> & Hi)%list_lookup_fmap_Some. apply Hf. by eapply Hs.
Qed.
Lemma invalidate_state_wf fw : fw_wf fw -> fw_wf (invalidate_state fw).
Proof. apply map_shards_wf. intros. apply empty_shard_wf. Qed.
Lemma forget_flow_wf key fw : fw_wf fw -> fw_wf (forget_flow key fw).
Proof. apply map_shards_wf. intros. by apply forget_flow_shard_wf. Qed.
Lemma replace_wf rev d rs fw : fw_wf fw -> fw_wf (replace fw rev d rs).2.
Proof.
  intros Hw. unfold replace. destruct (_ <=? _); [done|]. cbn.
  apply invalidate_state_wf. by destruct Hw.
Qed.
Lemma new_wf rev d rs state_limit shard_count : fw_wf (new rev d rs state_limit shard_count).
Proof.
  unfold new. split; cbn.
  - pose proof (div_ceil_spec (N.max state_limit 1) (N.max shard_count 1) ltac:(lia)). nia.
  - destruct (N.to_nat (N.max shard_count 1)) eqn:Hn; [lia|done].
  - intros i s [-> _]%lookup_replicate. apply empty_shard_wf.
Qed.

(** *** What a key's entry is, across shards *)

Definition fw_flow fw (key : FlowKey) : option FlowState :=
  flows (lock_shard (shard_index (hash_flow key) fw) fw) !! key.

Lemma has_state_spec fw key now :
  has_state hash_flow fw key now = true <->
  exists st, fw_flow fw key = Some st /\ now < flow_expires_at st.
Proof.
  unfold has_state, fw_flow, is_some_and. destruct (_ !! key) as [st|].
  - rewrite N.ltb_lt. naive_solver.
  - naive_solver.
Qed.

Lemma lock_put_shard i j s fw :
  (i < length (shards fw))%nat ->
  lock_shard j (put_shard i s fw) = if decide (i = j) then s else lock_shard j fw.
Proof.
  intros Hi. unfold lock_shard, put_shard; cbn. case_decide as Hij.
  - subst j. by rewrite list_lookup_total_insert_eq.
  - by rewrite list_lookup_total_insert_ne.
Qed.
Lemma shard_index_put hash i s fw :
  shard_index hash (put_shard i s fw) = shard_index hash fw.
Proof. unfold shard_index, lenN; cbn. by rewrite length_insert. Qed.

Lemma fw_flow_put key s fw k :
  shards fw <> [] ->
  fw_flow (put_shard (shard_index (hash_flow key) fw) s fw) k =
  if decide (shard_index (hash_flow key) fw = shard_index (hash_flow k) fw)
  then flows s !! k else fw_flow fw k.
Proof.
  intros Hne. unfold fw_flow. rewrite shard_index_put, lock_put_shard by (by apply shard_index_lt).
  by case_decide.
Qed.

(** One direction of [evaluate_existing]: what it allows, keeps and creates. *)
Lemma existing_allow fw packet key dir now s d s' :
  shard_wf (per_shard_limit fw) s ->
  existing_in_shard fw packet key dir now s = (Some d, s') -> action d = Allow ->
  d = mkDecision Allow None true /\
  exists st, flows s !! key = Some st /\ now < flow_expires_at st.
Proof.
  intros Hs He Hd. unfold existing_in_shard in He.
  destruct (flows (expire s now _) !! key) as [st|] eqn:Hk; [|done].
  destruct (N.leb_spec (flow_expires_at st) now); [done|].
  destruct (if protocol packet =? TCP then _ else _) as [st'|].
  - injection He as <- <-. split; [done|]. exists st; split; [|done].
    by eapply expire_lookup.
  - injection He as <- <-. done.
Qed.

Lemma existing_None_keep fw packet key dir now s s' k st :
  shard_wf (per_shard_limit fw) s ->
  existing_in_shard fw packet key dir now s = (None, s') ->
  flows s !! k = Some st -> now < flow_expires_at st -> flows s' !! k = Some st.
Proof.
  intros Hs He Hk Hlive. unfold existing_in_shard in He.
  pose proof (expire_keep _ now (expiry_budget fw) s k st Hs Hk Hlive) as Hkeep.
  destruct (flows (expire s now _) !! key) as [st0|] eqn:Hk0; [|by injection He as <-].
  destruct (N.leb_spec (flow_expires_at st0) now).
  - injection He as <-. rewrite remove_flow_lookup. case_decide; [|done].
    subst k. assert (st0 = st) as -> by congruence. lia.
  - by destruct (if protocol packet =? TCP then _ else _).
Qed.

Lemma existing_live fw packet key dir now s st :
  shard_wf (per_shard_limit fw) s -> protocol packet <> TCP ->
  flows s !! key = Some st -> now < flow_expires_at st ->
  (existing_in_shard fw packet key dir now s).1 = Some (mkDecision Allow None true).
Proof.
  intros Hs Hp Hk Hlive. unfold existing_in_shard.
  rewrite (expire_keep _ now (expiry_budget fw) s key st Hs Hk Hlive).
  destruct (N.leb_spec (flow_expires_at st) now); [lia|].
  by destruct (N.eqb_spec (protocol packet) TCP).
Qed.

(** Unless it allows, a direction only drops entries. *)
Lemma existing_no_create fw packet key dir now s r s' k st :
  shard_wf (per_shard_limit fw) s ->
  existing_in_shard fw packet key dir now s = (r, s') ->
  (forall d, r = Some d -> action d = Deny) ->
  flows s' !! k = Some st -> flows s !! k = Some st.
Proof.
  intros Hs He Hr Hk. unfold existing_in_shard in He.
  destruct (flows (expire s now _) !! key) as [st0|] eqn:Hk0.
  2:{ injection He as <- <-. by eapply expire_lookup. }
  destruct (flow_expires_at st0 <=? now).
  { injection He as <- <-. rewrite remove_flow_lookup in Hk.
    destruct (decide (key = k)); [done|]. by eapply expire_lookup. }
  destruct (if protocol packet =? TCP then _ else _) as [st'|].
  - injection He as <- <-. by specialize (Hr _ eq_refl).
  - injection He as <- <-. by eapply expire_lookup.
Qed.

(** After it allowed a packet of a tracked non-TCP flow, the entry is fresh. *)
Lemma existing_refresh fw packet key dir now s d s' :
  protocol packet <> TCP ->
  existing_in_shard fw packet key dir now s = (Some d, s') ->
  (forall st, flows s !! key = Some st -> phase st = None) -> shard_wf (per_shard_limit fw) s ->
  exists st, flows s' !! key = Some st /\ phase st = None /\
    flow_expires_at st = sat_add now (flow_timeout fw).
Proof.
  intros Hp He Hph Hs. unfold existing_in_shard in He.
  destruct (flows (expire s now _) !! key) as [st0|] eqn:Hk0; [|done].
  destruct (flow_expires_at st0 <=? now); [done|].
  eapply expire_lookup in Hk0; [|done]. specialize (Hph _ Hk0).
  destruct (N.eqb_spec (protocol packet) TCP) as [|Hn]; [done|]. cbn in He.
  injection He as <- <-. rewrite store_flow_lookup, decide_True by done.
  eexists; split; [done|]. cbn. split; [done|]. rewrite Hph. cbn.
  unfold timeout. by destruct (N.eqb_spec (protocol packet) TCP).
Qed.

Lemma direction_Some fw packet key dir now r fw' :
  evaluate_direction hash_flow packet key dir now fw = (r, fw') ->
  exists s', existing_in_shard fw packet key dir now
               (lock_shard (shard_index (hash_flow key) fw) fw) = (r, s') /\
             fw' = put_shard (shard_index (hash_flow key) fw) s' fw.
Proof.
  unfold evaluate_direction. destruct (existing_in_shard _ _ _ _ _ _) as [r' s'].
  intros [= <- <-]. eauto.
Qed.

Lemma direction_allow fw packet key dir now d fw' :
  fw_wf fw -> evaluate_direction hash_flow packet key dir now fw = (Some d, fw') ->
  action d = Allow ->
  d = mkDecision Allow None true /\ has_state hash_flow fw key now = true.
Proof.
  intros Hw (s' & He & ->)%direction_Some Hd.
  apply existing_allow in He as [-> Hst]; [|by apply lock_shard_wf|done].
  split; [done|]. by apply has_state_spec.
Qed.

Lemma direction_no_create fw packet key dir now r fw' k st :
  fw_wf fw -> evaluate_direction hash_flow packet key dir now fw = (r, fw') ->
  (forall d, r = Some d -> action d = Deny) ->
  fw_flow fw' k = Some st -> fw_flow fw k = Some st.
Proof.
  intros Hw (s' & He & ->)%direction_Some Hr. rewrite fw_flow_put by apply Hw.
  case_decide as Hi; [|done]. intros Hk.
  eapply existing_no_create in Hk; [|by apply lock_shard_wf|done..].
  unfold fw_flow. by rewrite <- Hi.
Qed.

Lemma direction_None_keep fw packet key dir now fw' k st :
  fw_wf fw -> evaluate_direction hash_flow packet key dir now fw = (None, fw') ->
  fw_flow fw k = Some st -> now < flow_expires_at st -> fw_flow fw' k = Some st.
Proof.
  intros Hw (s' & He & ->)%direction_Some Hk Hlive. rewrite fw_flow_put by apply Hw.
  case_decide as Hi; [|done].
  eapply existing_None_keep; [by apply lock_shard_wf|done| |done].
  unfold fw_flow in Hk. by rewrite Hi.
Qed.

Lemma direction_live fw packet key dir now st :
  fw_wf fw -> protocol packet <> TCP ->
  fw_flow fw key = Some st -> now < flow_expires_at st ->
  (evaluate_direction hash_flow packet key dir now fw).1 = Some (mkDecision Allow None true).
Proof.
  intros Hw Hp Hk Hlive. unfold evaluate_direction.
  pose proof (existing_live fw packet key dir now _ st (lock_shard_wf _ _ Hw) Hp Hk Hlive) as He.
  by destruct (existing_in_shard _ _ _ _ _ _).
Qed.

Lemma evaluate_existing_allow fw packet flow now d fw' :
  fw_wf fw -> evaluate_existing hash_flow packet flow now fw = (Some d, fw') ->
  action d = Allow ->
  d = mkDecision Allow None true /\
  (has_state hash_flow fw flow now = true \/ has_state hash_flow fw (reverse flow) now = true).
Proof.
  intros Hw He Hd. unfold evaluate_existing in He.
  destruct (evaluate_direction _ packet flow true now fw) as [[d1|] fw1] eqn:H1.
  - injection He as -> ->. apply direction_allow in H1; naive_solver.
  - pose proof (evaluate_direction_wf packet flow true now fw Hw) as Hw1. rewrite H1 in Hw1.
    apply direction_allow in He as [-> Hst]; [|done..]. split; [done|]. right.
    apply has_state_spec in Hst as (st & Hk & Hlive). apply has_state_spec.
    eexists; split; [|done]. by eapply direction_no_create.
Qed.

Lemma evaluate_existing_no_create fw packet flow now r fw' k st :
  fw_wf fw -> evaluate_existing hash_flow packet flow now fw = (r, fw') ->
  (forall d, r = Some d -> action d = Deny) ->
  fw_flow fw' k = Some st -> fw_flow fw k = Some st.
Proof.
  intros Hw He Hr Hk. unfold evaluate_existing in He.
  destruct (evaluate_direction _ packet flow true now fw) as [[d1|] fw1] eqn:H1.
  - injection He as <- <-. by eapply direction_no_create.
  - pose proof (evaluate_direction_wf packet flow true now fw Hw) as Hw1. rewrite H1 in Hw1.
    eapply direction_no_create in H1; [done..|]. by eapply direction_no_create in He.
Qed.
End firewall_proofs.

(** ** TCP handshake *)

(** Packets of one flow, as (flags, sent by the initiator). *)
Fixpoint run_tcp (st : FlowState) (trace : list (N * bool)) : option FlowState :=
  match trace with
  | [] => Some st
  | (flags, initiator) :: rest =>
      match advance_tcp st flags initiator with
      | Some st' => run_tcp st' rest
      | None => None
      end
  end.

Definition syn_ack (p : N * bool) : Prop :=
  p.2 = false /\ N.land p.1 (N.lor TCP_SYN TCP_ACK) = N.lor TCP_SYN TCP_ACK.
Definition initiator_ack (p : N * bool) : Prop :=
  p.2 = true /\ N.land p.1 TCP_ACK <> 0.

(** What a phase witnesses about the packets seen since the initial SYN. *)
Definition phase_evidence (ph : option TcpPhase) (trace : list (N * bool)) : Prop :=
  match ph with
  | Some SynReceived => exists a x b, trace = a ++ x :: b /\ syn_ack x
  | Some Established =>
      exists a x b y c, trace = a ++ x :: b ++ y :: c /\ syn_ack x /\ initiator_ack y
  | _ => True
  end.

Lemma run_tcp_snoc st trace p :
  run_tcp st (trace ++ [p]) =
  match run_tcp st trace with Some st' => advance_tcp st' p.1 p.2 | None => None end.
Proof.
  revert st. induction trace as [|[f i] trace IH]; intros st; cbn.
  - destruct p as [f i]; cbn. by destruct (advance_tcp st f i).
  - by destruct (advance_tcp st f i).
Qed.

Lemma land_submask a m k : N.land m k = k -> N.land (N.land a m) k = N.land a k.
Proof. intros H. by rewrite <- N.land_assoc, H. Qed.

Lemma phase_evidence_snoc ph trace p : phase_evidence ph trace -> phase_evidence ph (trace ++ [p]).
Proof.
  destruct ph as [[]|]; cbn; try done.
  - intros (a & x & b & -> & Hx). exists a, x, (b ++ [p]). by rewrite <- app_assoc.
  - intros (a & x & b & y & c & -> & Hx & Hy). exists a, x, b, y, (c ++ [p]). split; [|done].
    by rewrite <- !app_assoc, <- !app_comm_cons, <- app_assoc.
Qed.

Lemma advance_tcp_evidence st st' trace flags initiator :
  phase_evidence (phase st) trace -> advance_tcp st flags initiator = Some st' ->
  phase_evidence (phase st') (trace ++ [(flags, initiator)]).
Proof.
  intros Hev. unfold advance_tcp.
  destruct (negb (N.land flags TCP_RST =? 0)); [by intros [= <-]|].
  set (value := N.land flags (N.lor (N.lor TCP_SYN TCP_ACK) TCP_FIN)).
  assert (Hkeep := phase_evidence_snoc _ _ (flags, initiator) Hev).
  destruct (phase st) as [[]|] eqn:Hph; destruct initiator; try done.
  - destruct (value =? TCP_SYN); [by intros [= <-]|done].
  - destruct (N.eqb_spec (N.land value (N.lor TCP_SYN TCP_ACK)) (N.lor TCP_SYN TCP_ACK)) as [Hv|];
      [|done].
    intros [= <-]; cbn. exists trace, (flags, false), []. split; [done|]. split; [done|]. cbn.
    unfold value in Hv. by rewrite land_submask in Hv.
  - destruct (value =? TCP_SYN); [by intros [= <-]|].
    destruct (N.eqb_spec (N.land value TCP_ACK) 0) as [|Hv]; cbn; [done|].
    intros [= <-]; cbn. destruct Hev as (a & x & b & -> & Hx).
    exists a, x, b, (flags, true), []. split; [by rewrite <- app_assoc|]. split; [done|].
    split; [done|]. cbn. unfold value in Hv. by rewrite land_submask in Hv.
  - destruct (value =? N.lor TCP_SYN TCP_ACK); [by intros [= <-]|done].
  - destruct (negb _); [by intros [= <-]|]. by intros [= <-].
  - destruct (negb _); [by intros [= <-]|]. by intros [= <-].
  - by intros [= <-].
  - by intros [= <-].
Qed.

Lemma run_tcp_evidence st trace st' :
  phase st = Some SynSent -> run_tcp st trace = Some st' -> phase_evidence (phase st') trace.
Proof.
  intros Hph. revert st'. induction trace as [|p trace IH] using rev_ind; intros st' Hrun.
  - injection Hrun as <-. by rewrite Hph.
  - rewrite run_tcp_snoc in Hrun. destruct (run_tcp st trace) as [st1|] eqn:H1; [|done].
    destruct p as [f i]. eapply advance_tcp_evidence; [by apply IH|done].
Qed.

(** ** Executions of the firewall *)

Section runs.
Context `{IpNetLib}.
Context (hash_flow : FlowKey -> N) (hash_fragment : FragmentKey -> N).
Implicit Types (fw : Firewall) (s : Shard).

(** The public entry points that change state. *)
Inductive FwOp :=
| OpEvaluate (packet : ParsedPacket) (now : N) (policy : ParsedPacket -> Action * option RuleId)
| OpForget (key : FlowKey)
| OpInvalidate
| OpReplace (revision' : N) (default : Action) (rules' : list Rule).

Definition fw_apply fw (op : FwOp) : Firewall :=
  match op with
  | OpEvaluate packet now policy =>
      (evaluate_with_policy hash_flow hash_fragment packet now policy fw).2
  | OpForget key => forget_flow key fw
  | OpInvalidate => invalidate_state fw
  | OpReplace revision' d rs => (replace fw revision' d rs).2
  end.
Definition fw_run (ops : list FwOp) fw : Firewall := foldl fw_apply fw ops.

Lemma fw_apply_wf fw op : fw_wf fw -> fw_wf (fw_apply fw op).
Proof.
  intros Hw. destruct op; cbn; [by apply evaluate_with_policy_wf|by apply forget_flow_wf
    |by apply invalidate_state_wf|by apply replace_wf].
Qed.
Lemma fw_run_wf ops fw : fw_wf fw -> fw_wf (fw_run ops fw).
Proof.
  revert fw. induction ops as [|op ops IH]; intros fw Hw; [done|]. by apply IH, fw_apply_wf.
Qed.

(** Limits and the number of shards never change. *)
Definition same_geometry fw fw' : Prop :=
  per_shard_limit fw' = per_shard_limit fw /\ length (shards fw') = length (shards fw) /\
  flow_timeout fw' = flow_timeout fw.

Lemma same_geometry_refl fw : same_geometry fw fw.
Proof. done. Qed.
Lemma same_geometry_trans fw1 fw2 fw3 :
  same_geometry fw1 fw2 -> same_geometry fw2 fw3 -> same_geometry fw1 fw3.
Proof. unfold same_geometry. intuition congruence. Qed.
Lemma put_shard_geometry i s fw : same_geometry fw (put_shard i s fw).
Proof. split_and!; [done| |done]. cbn. by rewrite length_insert. Qed.
Lemma evaluate_direction_geometry packet key dir now fw :
  same_geometry fw (evaluate_direction hash_flow packet key dir now fw).2.
Proof.
  unfold evaluate_direction. destruct (existing_in_shard _ _ _ _ _ _). apply put_shard_geometry.
Qed.
Lemma evaluate_existing_geometry packet flow now fw :
  same_geometry fw (evaluate_existing hash_flow packet flow now fw).2.
Proof.
  unfold evaluate_existing. pose proof (evaluate_direction_geometry packet flow true now fw) as H1.
  destruct (evaluate_direction _ _ flow _ _ _) as [[d|] fw1]; [done|].
  eapply same_geometry_trans; [done|]. apply evaluate_direction_geometry.
Qed.
Lemma evaluate_flow_geometry packet now policy fw :
  same_geometry fw (evaluate_flow hash_flow hash_fragment packet now policy fw).2.
Proof.
  unfold evaluate_flow. destruct (from_packet packet) as [flow|]; [|done].
  pose proof (evaluate_existing_geometry packet flow now fw) as H1.
  destruct (evaluate_existing _ packet flow now fw) as [[d|] fw1]; cbn in H1; [done|].
  destruct (negb _); [done|]. destruct (policy packet) as [[] rid]; [|done]. cbn.
  eapply same_geometry_trans; [exact H1|].
  match goal with |- context [if ?b then insert_flow _ _ _ _ _ else _] => destruct b end;
    destruct (fragment packet) as [f|]; try destruct (more f); try done;
    try apply put_shard_geometry;
    (eapply same_geometry_trans; [apply put_shard_geometry|apply put_shard_geometry]).
Qed.
Lemma evaluate_geometry packet now policy fw :
  same_geometry fw (evaluate_with_policy hash_flow hash_fragment packet now policy fw).2.
Proof.
  unfold evaluate_with_policy.
  destruct (fragment packet) as [f|]; [destruct (negb _)|].
  - unfold evaluate_later_fragment. destruct (fragments _ !! _); [|done].
    destruct (_ <=? now); [apply put_shard_geometry|done].
  - destruct (is_some_and _ _); [done|]. apply evaluate_flow_geometry.
  - destruct (is_some_and _ _); [done|]. apply evaluate_flow_geometry.
Qed.
Lemma fw_apply_geometry fw op : same_geometry fw (fw_apply fw op).
Proof.
  destruct op; cbn; [apply evaluate_geometry|..].
  - split_and!; try done. cbn. by rewrite length_fmap.
  - split_and!; try done. cbn. by rewrite length_fmap.
  - unfold replace. destruct (_ <=? _); [done|]. split_and!; try done. cbn. by rewrite length_fmap.
Qed.
Lemma fw_run_geometry ops fw : same_geometry fw (fw_run ops fw).
Proof.
  revert fw. induction ops as [|op ops IH]; intros fw; [done|].
  eapply same_geometry_trans; [apply (fw_apply_geometry fw op)|apply IH].
Qed.

Lemma state_len_bound fw :
  fw_wf fw -> state_len fw <= per_shard_limit fw * lenN (shards fw).
Proof.
  intros [_ _ Hs]. unfold state_len, lenN. revert Hs.
  generalize (per_shard_limit fw). intros limit. induction (shards fw) as [|s l IH]; intros Hs.
  - cbn. lia.
  - cbn [foldr length]. pose proof (Hs 0%nat s eq_refl) as Hb. apply swf_flow_bound in Hb.
    specialize (IH (fun i s' Hi => Hs (S i) s' Hi)). lia.
Qed.

(** *** Lemmas behind the main theorems *)

Lemma later_fragment_allow fw packet f now d fw' :
  evaluate_later_fragment hash_fragment packet f now fw = (d, fw') -> action d = Allow ->
  exists st, fragments (lock_shard (shard_index (hash_fragment (fragment_key packet f)) fw) fw)
               !! fragment_key packet f = Some st /\
    now < fragment_expires_at st /\ d = mkDecision Allow (fragment_rule_id st) true.
Proof.
  unfold evaluate_later_fragment. intros He Hd.
  destruct (fragments _ !! _) as [st|] eqn:Hk; [|by injection He as <- <-].
  destruct (N.leb_spec (fragment_expires_at st) now); injection He as <- <-; [done|].
  exists st. split_and!; [done..|]. by rewrite <- Hd.
Qed.

(** What a packet that may open a flow looks like: a TCP segment with SYN and
    without ACK, an ICMP echo request, or any other protocol. *)
Definition initiates (packet : ParsedPacket) : Prop :=
  (protocol packet = TCP -> exists flags, tcp_flags packet = Some flags /\
     N.land flags TCP_SYN <> 0 /\ N.land flags TCP_ACK = 0) /\
  (protocol packet = ICMP_V4 -> exists code, icmp packet = Some (8, code)) /\
  (protocol packet = ICMP_V6 -> exists code, icmp packet = Some (128, code)).
Lemma valid_initiation_initiates packet : valid_initiation packet = true -> initiates packet.
Proof.
  unfold valid_initiation, initiates, is_some_and. intros Hv. split_and!; intros Hp; rewrite Hp in Hv; cbn in Hv.
  - destruct (tcp_flags packet) as [flags|]; [|done]. exists flags.
    apply andb_true_iff in Hv as [Hs%negb_true_iff%N.eqb_neq Ha%N.eqb_eq]. done.
  - destruct (icmp packet) as [[kind code]|]; [|done]. apply N.eqb_eq in Hv as ->. by exists code.
  - destruct (icmp packet) as [[kind code]|]; [|done]. apply N.eqb_eq in Hv as ->. by exists code.
Qed.

(** The justifications the code accepts for a permitted packet. *)
Inductive allow_reason fw (packet : ParsedPacket) (now : N)
    (policy : ParsedPacket -> Action * option RuleId) : Decision -> Prop :=
| reason_policy rid :
    initiates packet -> policy packet = (Allow, rid) ->
    (forall f, fragment packet = Some f -> offset f = 0) ->
    allow_reason fw packet now policy (mkDecision Allow rid false)
| reason_fragment f st :
    fragment packet = Some f -> offset f <> 0 ->
    fragments (lock_shard (shard_index (hash_fragment (fragment_key packet f)) fw) fw)
      !! fragment_key packet f = Some st -> now < fragment_expires_at st ->
    allow_reason fw packet now policy (mkDecision Allow (fragment_rule_id st) true)
| reason_related related :
    related_flow packet = Some related ->
    has_state hash_flow fw related now = true \/ has_state hash_flow fw (reverse related) now = true ->
    allow_reason fw packet now policy (mkDecision Allow None true)
| reason_flow flow :
    from_packet packet = Some flow ->
    has_state hash_flow fw flow now = true \/ has_state hash_flow fw (reverse flow) now = true ->
    allow_reason fw packet now policy (mkDecision Allow None true).

Lemma evaluate_flow_allow fw packet now policy d fw' :
  fw_wf fw -> (forall f, fragment packet = Some f -> offset f = 0) ->
  evaluate_flow hash_flow hash_fragment packet now policy fw = (d, fw') -> action d = Allow ->
  allow_reason fw packet now policy d.
Proof.
  intros Hw Hf He Hd. unfold evaluate_flow in He.
  destruct (from_packet packet) as [flow|] eqn:Hflow; [|by injection He as <- <-].
  destruct (evaluate_existing _ packet flow now fw) as [[d1|] fw1] eqn:H1.
  - injection He as -> ->. apply evaluate_existing_allow in H1 as [-> Hst]; [|done..].
    by eapply reason_flow.
  - destruct (negb (valid_initiation packet)) eqn:Hv; [by injection He as <- <-|].
    apply negb_false_iff in Hv. destruct (policy packet) as [a rid] eqn:Hp.
    destruct a; injection He as <- <-; [|done]. apply reason_policy; [by apply valid_initiation_initiates|done|done].
Qed.

Lemma evaluate_allow fw packet now policy d fw' :
  fw_wf fw -> evaluate_with_policy hash_flow hash_fragment packet now policy fw = (d, fw') ->
  action d = Allow -> allow_reason fw packet now policy d.
Proof.
  intros Hw He Hd. unfold evaluate_with_policy in He.
  assert (Hfirst : (forall f, fragment packet = Some f -> offset f = 0) ->
    (if is_some_and (related_flow packet) (fun related =>
        has_state hash_flow fw related now || has_state hash_flow fw (reverse related) now)
     then (mkDecision Allow None true, fw)
     else evaluate_flow hash_flow hash_fragment packet now policy fw) = (d, fw') ->
    allow_reason fw packet now policy d).
  { intros Hf. destruct (is_some_and _ _) eqn:Hr; [|intros; by eapply evaluate_flow_allow].
    intros [= <- <-]. unfold is_some_and in Hr.
    destruct (related_flow packet) as [related|] eqn:Hrel; [|done].
    apply orb_true_iff in Hr. by eapply reason_related. }
  destruct (fragment packet) as [f|] eqn:Hfr; [|by apply Hfirst].
  destruct (N.eqb_spec (offset f) 0); cbn in He; [apply Hfirst; naive_solver|].
  apply later_fragment_allow in He as (st & Hk & Hlive & ->); [|done]. by eapply reason_fragment.
Qed.

Lemma evaluate_deny fw packet now policy d fw' k st :
  fw_wf fw -> evaluate_with_policy hash_flow hash_fragment packet now policy fw = (d, fw') ->
  action d = Deny -> fw_flow hash_flow fw' k = Some st -> fw_flow hash_flow fw k = Some st.
Proof.
  intros Hw He Hd. unfold evaluate_with_policy in He.
  assert (Hflow : evaluate_flow hash_flow hash_fragment packet now policy fw = (d, fw') ->
    fw_flow hash_flow fw' k = Some st -> fw_flow hash_flow fw k = Some st).
  { clear He. unfold evaluate_flow. intros He.
    destruct (from_packet packet) as [flow|]; [|by injection He as <- <-].
    destruct (evaluate_existing _ packet flow now fw) as [r fw1] eqn:H1.
    assert ((forall d, r = Some d -> action d = Deny) /\ fw' = fw1) as [Hr ->].
    { destruct r as [d1|]; [injection He as -> ->; naive_solver|]. split; [done|].
      destruct (negb _); [by injection He as <- <-|].
      destruct (policy packet) as [[] rid]; by injection He as <- <-. }
    by eapply evaluate_existing_no_create. }
  destruct (fragment packet) as [f|]; [destruct (negb _)|].
  - unfold evaluate_later_fragment in He.
    destruct (fragments _ !! _) as [st0|]; [|by injection He as <- <-].
    destruct (_ <=? now); injection He as <- <-; [|done].
    unfold fw_flow. rewrite shard_index_put, lock_put_shard
      by (apply shard_index_lt, Hw).
    case_decide as Hi; [|done]. rewrite (proj1 (remove_fragment_flows _ _)). by rewrite Hi.
  - destruct (is_some_and _ _); [by injection He as <- <-|by apply Hflow].
  - destruct (is_some_and _ _); [by injection He as <- <-|by apply Hflow].
Qed.

(** Entries of connectionless flows carry no TCP phase. *)
Definition phase_matches fw : Prop :=
  forall k st, fw_flow hash_flow fw k = Some st -> fk_protocol k <> TCP -> phase st = None.

Lemma insert_flow_lookup fw flow packet now :
  fw_wf fw ->
  exists st, fw_flow hash_flow (insert_flow hash_flow flow packet now fw) flow = Some st /\
    flow_expires_at st = sat_add now (timeout (protocol packet) (flow_timeout fw) (tcp_timeout fw)).
Proof.
  intros Hw. unfold insert_flow. rewrite fw_flow_put by apply Hw. rewrite decide_True by done.
  unfold insert_flow_shard. rewrite store_flow_lookup, decide_True by done. eauto.
Qed.
Lemma insert_fragment_flow fw packet f a rid now k :
  fw_wf fw ->
  fw_flow hash_flow (insert_fragment hash_fragment packet f a rid now fw) k = fw_flow hash_flow fw k.
Proof.
  intros Hw. unfold insert_fragment, fw_flow. rewrite shard_index_put, lock_put_shard
    by (apply shard_index_lt, Hw).
  case_decide as Hi; [|done]. rewrite <- Hi. unfold insert_fragment_shard. cbn [flows].
  destruct (_ <=? _); [destruct (bt_first _) as [[t e]|]|];
    by rewrite !(proj1 (remove_fragment_flows _ _)).
Qed.

(** A reply to a live connectionless flow is allowed in either direction. *)
Lemma evaluate_existing_live fw packet flow now :
  fw_wf fw -> protocol packet <> TCP ->
  has_state hash_flow fw flow now = true \/ has_state hash_flow fw (reverse flow) now = true ->
  (evaluate_existing hash_flow packet flow now fw).1 = Some (mkDecision Allow None true).
Proof.
  intros Hw Hp Hst. unfold evaluate_existing.
  destruct (evaluate_direction _ packet flow true now fw) as [r fw1] eqn:H1.
  pose proof (evaluate_direction_wf hash_flow packet flow true now fw Hw) as Hw1.
  rewrite H1 in Hw1. cbn in Hw1.
  destruct Hst as [Hst|Hst]; apply has_state_spec in Hst as (st & Hk & Hlive).
  - pose proof (direction_live hash_flow fw packet flow true now st Hw Hp Hk Hlive) as Hd.
    rewrite H1 in Hd. cbn in Hd. by rewrite Hd.
  - destruct r as [d|].
    + apply direction_Some in H1 as (s' & He & _).
      unfold existing_in_shard in He.
      destruct (flows _ !! flow); [|done]. destruct (_ <=? now); [done|].
      destruct (N.eqb_spec (protocol packet) TCP) as [Hq|Hq]; [by destruct Hp|].
      cbn in He. injection He as He1 He2. by rewrite <- He1.
    + apply (direction_live hash_flow fw1 packet (reverse flow) false now st); try done.
      by apply (direction_None_keep hash_flow fw packet flow true now).
Qed.

Lemma evaluate_existing_stateful fw packet flow now d fw' :
  evaluate_existing hash_flow packet flow now fw = (Some d, fw') ->
  d = denied \/ d = mkDecision Allow None true.
Proof.
  assert (Hdir : forall key dir fw0 r fw1,
    evaluate_direction hash_flow packet key dir now fw0 = (r, fw1) ->
    r = None \/ r = Some denied \/ r = Some (mkDecision Allow None true)).
  { intros key dir fw0 r fw1 (s' & He & _)%direction_Some. unfold existing_in_shard in He.
    destruct (flows _ !! key); [|naive_solver]. destruct (_ <=? now); [naive_solver|].
    destruct (if protocol packet =? TCP then _ else _); naive_solver. }
  unfold evaluate_existing.
  destruct (evaluate_direction _ packet flow true now fw) as [r fw1] eqn:H1. intros H2.
  apply Hdir in H1. destruct r as [d1|]; [injection H2 as -> ->; naive_solver|].
  apply Hdir in H2. naive_solver.
Qed.

Lemma stateful_allows fw packet now policy d fw' :
  fw_wf fw -> evaluate_with_policy hash_flow hash_fragment packet now policy fw = (d, fw') ->
  stateful d = true -> action d = Allow.
Proof.
  intros Hw He Hs. unfold evaluate_with_policy in He.
  assert (Hflow : evaluate_flow hash_flow hash_fragment packet now policy fw = (d, fw') ->
    action d = Allow).
  { clear He. unfold evaluate_flow. intros He.
    destruct (from_packet packet) as [flow|]; [|by injection He as <- <-].
    destruct (evaluate_existing _ packet flow now fw) as [[d1|] fw1] eqn:H1.
    - injection He as -> ->. apply evaluate_existing_stateful in H1. naive_solver.
    - destruct (negb _); [by injection He as <- <-|].
      destruct (policy packet) as [[] rid]; by injection He as <- <-. }
  destruct (fragment packet) as [f|]; [destruct (negb _)|].
  - unfold evaluate_later_fragment in He.
    destruct (fragments _ !! _) as [st0|] eqn:Hk; [|by injection He as <- <-].
    destruct (_ <=? now); injection He as <- <-; [done|]. cbn.
    eapply swf_allowed; [by apply lock_shard_wf|done].
  - destruct (is_some_and _ _); [by injection He as <- <-|by apply Hflow].
  - destruct (is_some_and _ _); [by injection He as <- <-|by apply Hflow].
Qed.

(** ** Main theorems *)

(** C32: from any initial configuration and after any sequence of packets,
    policy replacements and invalidations, every shard's deadline indices match
    its tables, and the number of tracked flows stays below the configured
    limit plus the number of shards. *)
Theorem firewall_bounded revision' default' rules' state_limit shard_count ops :
  let fw := fw_run ops (new revision' default' rules' state_limit shard_count) in
  fw_wf fw /\ state_len fw < N.max state_limit 1 + N.max shard_count 1.
Proof.
  cbn. set (fw0 := new _ _ _ _ _).
  pose proof (fw_run_wf ops fw0 (new_wf _ _ _ _ _)) as Hw. split; [done|].
  destruct (fw_run_geometry ops fw0) as (Hl & Hc & _).
  pose proof (state_len_bound _ Hw) as Hb. unfold lenN in Hb. rewrite Hl, Hc in Hb.
  cbn in Hb. rewrite length_replicate in Hb.
  pose proof (div_ceil_spec (N.max state_limit 1) (N.max shard_count 1) ltac:(lia)). lia.
Qed.

(** Any interleaving, by any number of threads, of the regions executed
    under a shard's lock keeps that shard well formed. *)
Theorem interleaved_locks_wf fw s s' :
  0 < per_shard_limit fw -> rtc (locked fw) s s' ->
  shard_wf (per_shard_limit fw) s -> shard_wf (per_shard_limit fw) s'.
Proof. intros Hl. induction 1; [done|]. intros. eauto using locked_wf. Qed.

(** C1: a packet is allowed only for one of the four reasons of the design: a
    structurally valid initiation that the policy callback allows, an unexpired
    association of a permitted first fragment, an ICMP error quoting a live
    flow, or a live flow in either direction. *)
Theorem allow_is_justified fw packet now policy d fw' :
  fw_wf fw -> evaluate_with_policy hash_flow hash_fragment packet now policy fw = (d, fw') ->
  action d = Allow -> allow_reason fw packet now policy d.
Proof. apply evaluate_allow. Qed.

(** A denied packet creates or refreshes no flow: whatever flow entry
    exists afterwards existed, unchanged, before. *)
Theorem deny_creates_no_state fw packet now policy d fw' k st :
  fw_wf fw -> evaluate_with_policy hash_flow hash_fragment packet now policy fw = (d, fw') ->
  action d = Deny -> fw_flow hash_flow fw' k = Some st -> fw_flow hash_flow fw k = Some st.
Proof. apply evaluate_deny. Qed.

Lemma flow_unfragmented q k : from_packet q = Some k -> forall f, fragment q = Some f -> offset f = 0.
Proof. unfold from_packet, is_none_or. intros Hk f Hf. rewrite Hf in Hk. by destruct (N.eqb_spec (offset f) 0). Qed.
(** A packet with a flow is judged by [evaluate_flow], unless a quoted flow is live. *)
Lemma evaluate_packet_flow fw packet flow now policy :
  from_packet packet = Some flow ->
  evaluate_with_policy hash_flow hash_fragment packet now policy fw = (mkDecision Allow None true, fw) \/
  evaluate_with_policy hash_flow hash_fragment packet now policy fw =
    evaluate_flow hash_flow hash_fragment packet now policy fw.
Proof.
  intros Hflow. unfold evaluate_with_policy. destruct (fragment packet) as [f|] eqn:Hf.
  - rewrite (flow_unfragmented _ _ Hflow f Hf). cbn. destruct (is_some_and _ _); [by left|by right].
  - destruct (is_some_and _ _); [by left|by right].
Qed.
(** A stateless admission stores the packet's flow. *)
Lemma admission_inserts fw packet flow now rid policy fw' :
  fw_wf fw -> protocol packet = UDP \/ protocol packet = ICMP_V4 \/ protocol packet = ICMP_V6 ->
  from_packet packet = Some flow ->
  evaluate_flow hash_flow hash_fragment packet now policy fw = (mkDecision Allow rid false, fw') ->
  exists fw1, fw_wf fw1 /\ flow_timeout fw1 = flow_timeout fw /\
    forall k, fw_flow hash_flow fw' k = fw_flow hash_flow (insert_flow hash_flow flow packet now fw1) k.
Proof.
  intros Hw Hp Hflow Hfl. unfold evaluate_flow in Hfl. rewrite Hflow in Hfl.
  pose proof (evaluate_existing_wf hash_flow packet flow now fw Hw) as Hw1.
  pose proof (evaluate_existing_geometry packet flow now fw) as (_ & _ & Hto).
  destruct (evaluate_existing _ packet flow now fw) as [[d1|] fw1] eqn:H1; cbn in Hw1, Hto.
  { injection Hfl as -> ->. by apply evaluate_existing_allow in H1 as [[=] _]. }
  exists fw1. split; [done|]. split; [done|].
  destruct (negb _); [done|]. destruct (policy packet) as [a r].
  destruct a; [|done]. injection Hfl as -> <-.
  assert ((protocol packet =? TCP) || (protocol packet =? UDP) || (protocol packet =? ICMP_V4)
    || (protocol packet =? ICMP_V6) = true) as -> by (destruct Hp as [Hq|[Hq|Hq]]; by rewrite Hq).
  intros k. destruct (fragment packet) as [f|]; [destruct (more f)|]; try done.
  apply insert_fragment_flow. by apply insert_flow_wf.
Qed.
(** Once a UDP or ICMP packet is admitted by policy, the reply is allowed
    statefully, without consulting any policy, until the flow timeout. *)
Theorem reply_is_allowed fw packet reply flow now t rid policy policy' fw' :
  fw_wf fw -> protocol packet = UDP \/ protocol packet = ICMP_V4 \/ protocol packet = ICMP_V6 ->
  from_packet packet = Some flow ->
  evaluate_with_policy hash_flow hash_fragment packet now policy fw = (mkDecision Allow rid false, fw') ->
  from_packet reply = Some (reverse flow) -> protocol reply = protocol packet ->
  t < sat_add now (flow_timeout fw) ->
  (evaluate_with_policy hash_flow hash_fragment reply t policy' fw').1 = mkDecision Allow None true.
Proof.
  intros Hw Hp Hflow He Hrev Hpr Ht.
  assert (Hnt : protocol packet <> TCP) by (unfold TCP, UDP, ICMP_V4, ICMP_V6 in *; lia).
  pose proof (evaluate_with_policy_wf hash_flow hash_fragment packet now policy fw Hw) as Hw'.
  rewrite He in Hw'. cbn in Hw'.
  assert (Hlive : has_state hash_flow fw' flow t = true).
  { destruct (evaluate_packet_flow fw packet flow now policy Hflow) as [Hx|Hx]; rewrite He in Hx; [done|].
    destruct (admission_inserts fw packet flow now rid policy fw' Hw Hp Hflow (eq_sym Hx)) as (fw1 & Hw1 & Hto & Hk).
    destruct (insert_flow_lookup fw1 flow packet now Hw1) as (st & Hst & Hexp).
    apply has_state_spec. exists st. rewrite Hk. split; [done|]. rewrite Hexp, Hto.
    unfold timeout. by destruct (N.eqb_spec (protocol packet) TCP). }
  destruct (evaluate_packet_flow fw' reply (reverse flow) t policy' Hrev) as [->| ->]; [done|].
  unfold evaluate_flow. rewrite Hrev.
  pose proof (evaluate_existing_live fw' reply (reverse flow) t Hw' ltac:(congruence)) as Hx.
  destruct flow; cbn in *. destruct (evaluate_existing _ reply _ t fw') as [r fw2]; cbn in *.
  rewrite Hx by auto. done.
Qed.

(** A policy replacement succeeds exactly when its revision increases; it
    then leaves no flow and no fragment association behind, so nothing is
    allowed statefully until a new initiation is. *)
Theorem replace_invalidates fw revision' default' rules' ok fw' :
  replace fw revision' default' rules' = (ok, fw') ->
  (ok = true <-> revision fw < revision') /\
  (ok = false -> fw' = fw) /\
  (ok = true -> revision fw' = revision' /\ rules fw' = sort_by_key priority rules' /\
     default_action fw' = default' /\
     (fw_wf fw -> forall packet now policy d fw'',
        evaluate_with_policy hash_flow hash_fragment packet now policy fw' = (d, fw'') ->
        stateful d = false)).
Proof.
  unfold replace. destruct (N.leb_spec revision' (revision fw)); intros [= <- <-].
  { split_and!; [naive_solver lia|done|done]. }
  split; [naive_solver lia|]. split; [done|]. intros _. cbn. split_and!; [done..|].
  intros Hw packet now policy d fw'' He.
  set (fw1 := invalidate_state _) in *.
  assert (Hw1 : fw_wf fw1) by (apply invalidate_state_wf; by destruct Hw).
  assert (Hclear : forall i, lock_shard i fw1 = empty_shard).
  { intros i. unfold lock_shard. rewrite list_lookup_total_alt.
    destruct (shards fw1 !! i) as [s|] eqn:Hi; [|done].
    unfold fw1, invalidate_state in Hi; cbn in Hi.
    by apply list_lookup_fmap_Some in Hi as (s0 & -> & _). }
  assert (Hno : forall k t, has_state hash_flow fw1 k t = false).
  { intros k t. unfold has_state. by rewrite Hclear. }
  destruct (stateful d) eqn:Hst; [|done].
  pose proof (stateful_allows _ _ _ _ _ _ Hw1 He Hst) as Ha.
  pose proof (evaluate_allow _ _ _ _ _ _ Hw1 He Ha) as Hr.
  destruct Hr as [rid Hv Hp Hf|f st Hf Ho Hk Hl|related Hr Hs|flow Hf Hs]; [done|..].
  - by rewrite Hclear in Hk.
  - rewrite !Hno in Hs. naive_solver.
  - rewrite !Hno in Hs. naive_solver.
Qed.

(** The configured policy decides by the first match in priority order,
    ties broken by the order the rules were given in; with no matching rule it
    falls back to the default action. *)
Theorem policy_first_match rev d rs state_limit shard_count packet :
  let decision := policy_decision (new rev d rs state_limit shard_count) packet in
  stateful decision = false /\
  ((decision_rule_id decision = None /\ action decision = d /\
    forall r, r ∈ rs -> rule_matches r packet = false) \/
   exists before r after, rs = before ++ r :: after /\ rule_matches r packet = true /\
     action decision = rule_action r /\ decision_rule_id decision = Some (rule_id r) /\
     (forall r', r' ∈ before -> rule_matches r' packet = true -> priority r < priority r') /\
     (forall r', r' ∈ rs -> rule_matches r' packet = true -> priority r <= priority r')).
Proof.
  unfold policy_decision, new; cbn.
  destruct (find _ _) as [r|] eqn:Hfind; cbn; (split; [done|]).
  - apply find_sort_by_key in Hfind as (l1 & l2 & -> & Hm & Hb & Hle). right.
    exists l1, r, l2. split_and!; try done.
    + intros r' Hin Hm'. specialize (Hb r' Hin Hm'). apply leb_of_N_false in Hb. lia.
    + intros r' Hin Hm'. specialize (Hle r' Hin Hm'). by apply leb_of_N in Hle.
  - left. split_and!; [done..|]. by apply (find_sort_by_key_None priority).
Qed.

Lemma foldl_remove_fragment l s k :
  fragments (foldl (fun state fragment => remove_fragment fragment state) s l) !! k =
  if decide (k ∈ l) then None else fragments s !! k.
Proof.
  clear hash_flow hash_fragment.
  revert s. induction l as [|x l IH]; intros s; cbn [foldl].
  - by rewrite decide_False by (apply not_elem_of_nil).
  - rewrite IH, remove_fragment_lookup. destruct (decide (k ∈ l)), (decide (k ∈ x :: l)),
      (decide (x = k)); set_solver.
Qed.
Lemma foldl_remove_fragment_flows l s :
  flows (foldl (fun state fragment => remove_fragment fragment state) s l) = flows s.
Proof.
  clear hash_flow hash_fragment.
  revert s. induction l as [|x l IH]; intros s; cbn [foldl]; [done|].
  by rewrite IH, (proj1 (remove_fragment_flows _ _)).
Qed.
Lemma forget_flow_shard_flows key s k :
  flows (forget_flow_shard key s) !! k =
  if decide (k = key \/ k = reverse key) then None else flows s !! k.
Proof.
  clear hash_flow hash_fragment.
  unfold forget_flow_shard. rewrite foldl_remove_fragment_flows, !remove_flow_lookup.
  repeat case_decide; naive_solver.
Qed.
Lemma forget_flow_shard_fragments key s k :
  fragments (forget_flow_shard key s) !! k =
  if fragment_of_flow key k then None else fragments s !! k.
Proof.
  clear hash_flow hash_fragment.
  unfold forget_flow_shard. rewrite foldl_remove_fragment.
  rewrite !(proj1 (remove_flow_fragments _ _)).
  destruct (fragment_of_flow key k) eqn:Hk; case_decide as Hin; try done.
  - destruct (fragments s !! k) as [st|] eqn:Hs; [|done]. exfalso. apply Hin.
    apply list_elem_of_filter. split; [done|]. apply list_elem_of_fmap. exists (k, st).
    split; [done|]. by apply elem_of_map_to_list.
  - apply list_elem_of_filter in Hin as [Hf _]. congruence.
Qed.

(** Forgetting a flow removes its entry in both directions and every
    fragment association between its two endpoints, in every shard, and
    touches no other flow and no other fragment association. *)
Theorem forget_flow_exact key fw i s :
  shards fw !! i = Some s ->
  exists s', shards (forget_flow key fw) !! i = Some s' /\
    (forall k, flows s' !! k =
       if decide (k = key \/ k = reverse key) then None else flows s !! k) /\
    (forall k, fragments s' !! k =
       if fragment_of_flow key k then None else fragments s !! k).
Proof.
  intros Hi. exists (forget_flow_shard key s). split_and!.
  - unfold forget_flow; cbn. by rewrite list_lookup_fmap, Hi.
  - apply forget_flow_shard_flows.
  - apply forget_flow_shard_fragments.
Qed.

(** *** The packets behind a TCP phase *)

(** What the packets of [ops] contribute to the flow [k]. *)
Definition tcp_event (k : FlowKey) (op : FwOp) : list (N * bool) :=
  match op with
  | OpEvaluate packet _ _ =>
      let flags := default 0 (tcp_flags packet) in
      (if bool_decide (from_packet packet = Some k) then [(flags, true)] else [])
      ++ (if bool_decide (from_packet packet = Some (reverse k)) then [(flags, false)] else [])
  | _ => []
  end.
Definition tcp_trace (k : FlowKey) (ops : list FwOp) : list (N * bool) := ops ≫= tcp_event k.

Lemma phase_evidence_app ph trace more : phase_evidence ph trace -> phase_evidence ph (trace ++ more).
Proof.
  revert trace. induction more as [|p more IH]; intros trace Hev; [by rewrite app_nil_r|].
  rewrite cons_middle, app_assoc. by apply IH, phase_evidence_snoc.
Qed.

Lemma existing_phase fw packet key dir now s r s' k st' trace :
  shard_wf (per_shard_limit fw) s ->
  existing_in_shard fw packet key dir now s = (r, s') -> flows s' !! k = Some st' ->
  (forall st, flows s !! k = Some st -> phase_evidence (phase st) trace) ->
  phase_evidence (phase st') trace \/
  k = key /\ phase_evidence (phase st') (trace ++ [(default 0 (tcp_flags packet), dir)]).
Proof.
  intros Hs He Hk Hev. unfold existing_in_shard in He.
  assert (Hold : forall st, flows (expire s now (expiry_budget fw)) !! k = Some st ->
    phase_evidence (phase st) trace) by (intros st Hst; eapply Hev, expire_lookup, Hst; done).
  destruct (flows (expire s now _) !! key) as [st0|] eqn:Hk0; [|injection He as <- <-; naive_solver].
  destruct (flow_expires_at st0 <=? now).
  { injection He as <- <-. rewrite remove_flow_lookup in Hk. case_decide; naive_solver. }
  destruct (if protocol packet =? TCP then _ else _) as [st1|] eqn:Hadv;
    injection He as <- <-; [|naive_solver].
  assert (Hcase : flows (expire s now (expiry_budget fw)) !! k = Some st' \/
    k = key /\ phase st' = phase st1).
  { destruct (_ && _); [rewrite remove_flow_lookup in Hk|rewrite store_flow_lookup in Hk];
      case_decide; naive_solver. }
  destruct Hcase as [|[-> ->]]; [naive_solver|]. right. split; [done|].
  destruct (protocol packet =? TCP).
  - eapply advance_tcp_evidence; [by apply Hold|done].
  - injection Hadv as <-. by apply phase_evidence_snoc, Hold.
Qed.

Lemma direction_phase fw packet key dir now r fw' k st' trace :
  fw_wf fw -> evaluate_direction hash_flow packet key dir now fw = (r, fw') ->
  fw_flow hash_flow fw' k = Some st' ->
  (forall st, fw_flow hash_flow fw k = Some st -> phase_evidence (phase st) trace) ->
  phase_evidence (phase st')
    (trace ++ if bool_decide (k = key) then [(default 0 (tcp_flags packet), dir)] else []).
Proof.
  intros Hw (s' & He & ->)%direction_Some. rewrite fw_flow_put by apply Hw.
  case_decide as Hi; [|by intros; apply phase_evidence_app; auto].
  unfold fw_flow. rewrite <- Hi. intros Hk Hev.
  eapply existing_phase in He as [|[-> ?]]; [| |by apply lock_shard_wf|done..].
  - by apply phase_evidence_app.
  - by rewrite bool_decide_eq_true_2.
Qed.

Lemma reverse_reverse k : reverse (reverse k) = k.
Proof. by destruct k. Qed.

Lemma evaluate_existing_phase fw packet flow now r fw' k st' trace :
  fw_wf fw -> from_packet packet = Some flow ->
  evaluate_existing hash_flow packet flow now fw = (r, fw') ->
  fw_flow hash_flow fw' k = Some st' ->
  (forall st, fw_flow hash_flow fw k = Some st -> phase_evidence (phase st) trace) ->
  phase_evidence (phase st')
    (trace ++ (if bool_decide (from_packet packet = Some k)
               then [(default 0 (tcp_flags packet), true)] else [])
       ++ (if bool_decide (from_packet packet = Some (reverse k))
           then [(default 0 (tcp_flags packet), false)] else [])).
Proof.
  intros Hw Hflow He Hk Hev. rewrite Hflow, app_assoc.
  rewrite (bool_decide_ext (Some flow = Some k) (k = flow)) by naive_solver.
  rewrite (bool_decide_ext (Some flow = Some (reverse k)) (k = reverse flow))
    by (split; [intros [= ->]; by rewrite reverse_reverse|intros ->; by rewrite reverse_reverse]).
  unfold evaluate_existing in He.
  destruct (evaluate_direction _ packet flow true now fw) as [r1 fw1] eqn:H1.
  pose proof (evaluate_direction_wf hash_flow packet flow true now fw Hw) as Hw1.
  rewrite H1 in Hw1. cbn in Hw1.
  pose proof (fun st Hst => direction_phase _ _ _ _ _ _ _ k st trace Hw H1 Hst Hev) as Hev1.
  destruct r1 as [d|]; [injection He as <- <-; by apply phase_evidence_app, Hev1|].
  eapply (direction_phase fw1 packet (reverse flow) false); done.
Qed.

Lemma lookup_put_other hash_value s fw k :
  fw_wf fw -> flows s = flows (lock_shard (shard_index hash_value fw) fw) ->
  fw_flow hash_flow (put_shard (shard_index hash_value fw) s fw) k = fw_flow hash_flow fw k.
Proof.
  intros Hw Hs. unfold fw_flow. rewrite shard_index_put, lock_put_shard
    by (apply shard_index_lt, Hw). case_decide as Hi; [|done]. by rewrite Hs, Hi.
Qed.

Lemma insert_flow_phase fw flow packet now k st' trace :
  fw_wf fw -> fw_flow hash_flow (insert_flow hash_flow flow packet now fw) k = Some st' ->
  (forall st, fw_flow hash_flow fw k = Some st -> phase_evidence (phase st) trace) ->
  phase_evidence (phase st') trace.
Proof.
  intros Hw Hk Hev. unfold insert_flow in Hk. rewrite fw_flow_put in Hk by apply Hw.
  case_decide as Hi; [|by apply Hev].
  unfold insert_flow_shard in Hk. rewrite store_flow_lookup in Hk. case_decide.
  - injection Hk as <-. cbn. by destruct (_ =? TCP).
  - apply Hev. unfold fw_flow. rewrite <- Hi. apply evict_lookup in Hk.
    eapply expire_lookup, Hk. by apply lock_shard_wf.
Qed.

Lemma evaluate_phase fw packet now policy k st' trace :
  fw_wf fw ->
  fw_flow hash_flow (evaluate_with_policy hash_flow hash_fragment packet now policy fw).2 k = Some st' ->
  (forall st, fw_flow hash_flow fw k = Some st -> phase_evidence (phase st) trace) ->
  phase_evidence (phase st') (trace ++ tcp_event k (OpEvaluate packet now policy)).
Proof.
  intros Hw Hk Hev.
  assert (Hsame : fw_flow hash_flow fw k = Some st' ->
    phase_evidence (phase st') (trace ++ tcp_event k (OpEvaluate packet now policy)))
    by (intros; by apply phase_evidence_app, Hev).
  assert (Hflow : fw_flow hash_flow (evaluate_flow hash_flow hash_fragment packet now policy fw).2 k
      = Some st' ->
    phase_evidence (phase st') (trace ++ tcp_event k (OpEvaluate packet now policy))).
  { clear Hk. unfold evaluate_flow. destruct (from_packet packet) as [flow|] eqn:Hf; [|done].
    destruct (evaluate_existing _ packet flow now fw) as [r fw1] eqn:H1. intros Hk.
    pose proof (evaluate_existing_wf hash_flow packet flow now fw Hw) as Hw1.
    rewrite H1 in Hw1. cbn in Hw1.
    pose proof (fun st Hst => evaluate_existing_phase _ _ _ _ _ _ k st trace Hw Hf H1 Hst Hev) as Hev1.
    change (_ ++ _) with (tcp_event k (OpEvaluate packet now policy)) in Hev1 at 2.
    destruct r as [d|]; [by apply Hev1|]. destruct (negb _); [by apply Hev1|].
    destruct (policy packet) as [[] rid]; [|by apply Hev1]. cbn in Hk.
    assert (Hk' : fw_flow hash_flow (if (protocol packet =? TCP) || (protocol packet =? UDP)
        || (protocol packet =? ICMP_V4) || (protocol packet =? ICMP_V6)
        then insert_flow hash_flow flow packet now fw1 else fw1) k = Some st').
    { destruct (fragment packet) as [f|]; [|done]. destruct (more f); [|done].
      rewrite insert_fragment_flow in Hk; [done|]. destruct (_ || _); [by apply insert_flow_wf|done]. }
    destruct (_ || _); [|by apply Hev1]. eapply insert_flow_phase; [exact Hw1|exact Hk'|done]. }
  unfold evaluate_with_policy in Hk.
  destruct (fragment packet) as [f|]; [destruct (negb _)|].
  - unfold evaluate_later_fragment in Hk. destruct (fragments _ !! _); [|by apply Hsame].
    destruct (_ <=? now); [|by apply Hsame]. cbn in Hk. apply Hsame.
    rewrite lookup_put_other in Hk; [done|done|]. apply remove_fragment_flows.
  - destruct (is_some_and _ _); [by apply Hsame|by apply Hflow].
  - destruct (is_some_and _ _); [by apply Hsame|by apply Hflow].
Qed.

Lemma mapped_flows (g : Shard -> Shard) fw k st :
  (forall s, flows (g s) !! k = Some st -> flows s !! k = Some st) -> g empty_shard = empty_shard ->
  fw_flow hash_flow (with_shards fw (g <$> shards fw)) k = Some st -> fw_flow hash_flow fw k = Some st.
Proof.
  intros Hg He. unfold fw_flow, shard_index, lenN, lock_shard; cbn.
  rewrite length_fmap, !list_lookup_total_alt, list_lookup_fmap.
  destruct (shards fw !! _) as [s|]; cbn; [apply Hg|]. change inhabitant with empty_shard. done.
Qed.

Lemma fw_apply_phase fw op k st' trace :
  fw_wf fw -> fw_flow hash_flow (fw_apply fw op) k = Some st' ->
  (forall st, fw_flow hash_flow fw k = Some st -> phase_evidence (phase st) trace) ->
  phase_evidence (phase st') (trace ++ tcp_event k op).
Proof.
  intros Hw Hk Hev. destruct op as [packet now policy|key| |rev d rs].
  - by eapply evaluate_phase.
  - rewrite app_nil_r. apply Hev. eapply mapped_flows, Hk; [|done].
    intros s. rewrite forget_flow_shard_flows. by case_decide.
  - rewrite app_nil_r. apply Hev. by eapply mapped_flows, Hk.
  - rewrite app_nil_r. apply Hev. cbn in Hk. unfold replace in Hk. destruct (_ <=? _); [done|].
    by apply (mapped_flows (fun _ => empty_shard) _ k st') in Hk.
Qed.

(** C14: the phase the firewall keeps for a TCP flow is backed by the packets
    it has seen: a flow is only [SynReceived] after a SYN+ACK from the
    responder, and only [Established] after a SYN+ACK from the responder
    followed later by an ACK from the initiator, whatever else happened. *)
Theorem tcp_phase_is_evidenced rev d rs state_limit shard_count ops k st :
  fw_flow hash_flow (fw_run ops (new rev d rs state_limit shard_count)) k = Some st ->
  phase_evidence (phase st) (tcp_trace k ops).
Proof.
  revert st. induction ops as [|op ops IH] using rev_ind; intros st.
  - unfold fw_flow, lock_shard, new; cbn. rewrite list_lookup_total_alt.
    destruct (replicate _ _ !! _) as [s|] eqn:Hs; [|done].
    by apply lookup_replicate in Hs as [-> _].
  - unfold fw_run. rewrite foldl_app. cbn. unfold tcp_trace. rewrite bind_app. cbn.
    rewrite app_nil_r. intros Hk. eapply fw_apply_phase, IH; [|exact Hk].
    apply fw_run_wf, new_wf.
Qed.

(** When a full shard admits a new flow, the flow it drops is the one
    whose deadline is nearest. *)
Theorem eviction_is_oldest limit s k st :
  shard_wf limit s -> flows s !! k = Some st ->
  flows (evict_flow_if_full s limit) !! k = None ->
  limit <= N.of_nat (size (flows s)) /\
  forall k' st', flows s !! k' = Some st' -> flow_expires_at st <= flow_expires_at st'.
Proof. apply evict_oldest. Qed.

End runs.

(** ** Examples *)

Section examples.
#[local] Existing Instance ipnet_prefix.

Definition hash0 {A} (_ : A) : N := 0.
Definition dns_query : ParsedPacket := example_parsed.
Definition dns_reply : ParsedPacket :=
  mkParsedPacket (V4 0x0a000002) (V4 0x0a000001) UDP (Some 53) (Some 1000) None None None 90 None.
Definition dns_flow : FlowKey := mkFlowKey (V4 0x0a000001) (V4 0x0a000002) UDP (Some 1000) (Some 53).
Definition fw_start : Firewall := new 1 Deny [] 1 4.
Definition allow_all (_ : ParsedPacket) : Action * option RuleId := (Allow, None).
Definition deny_all (_ : ParsedPacket) : Action * option RuleId := (Deny, None).
Definition fw_open : Firewall := (evaluate_with_policy hash0 hash0 dns_query 100 allow_all fw_start).2.

Definition tcp_segment (forward : bool) (flags : N) : ParsedPacket :=
  let a := V4 0x0a000001 in let b := V4 0x0a000002 in
  if forward then mkParsedPacket a b Pkt.TCP (Some 9) (Some 80) (Some flags) None None 40 None
  else mkParsedPacket b a Pkt.TCP (Some 80) (Some 9) (Some flags) None None 40 None.
Definition handshake : list FwOp :=
  [OpEvaluate (tcp_segment true TCP_SYN) 1 allow_all;
   OpEvaluate (tcp_segment false (N.lor TCP_SYN TCP_ACK)) 2 deny_all;
   OpEvaluate (tcp_segment true TCP_ACK) 3 deny_all].
Definition tcp_flow : FlowKey := mkFlowKey (V4 0x0a000001) (V4 0x0a000002) Pkt.TCP (Some 9) (Some 80).

Lemma fw_start_wf : fw_wf fw_start.
Proof. apply new_wf. Qed.
Lemma fw_open_wf : fw_wf fw_open.
Proof. by apply evaluate_with_policy_wf, fw_start_wf. Qed.
Lemma fw_open_shard : shard_wf 1 (lock_shard 0 fw_open).
Proof. exact (lock_shard_wf 0 fw_open fw_open_wf). Qed.

Lemma interleaved_locks_wf_witness :
  shard_wf 1 (insert_flow_shard fw_start dns_flow dns_query 0 (forget_flow_shard dns_flow empty_shard)).
Proof.
  apply (interleaved_locks_wf fw_start empty_shard).
  - vm_compute. reflexivity.
  - eapply rtc_l; [apply locked_forget|]. eapply rtc_l; [apply locked_insert_flow|apply rtc_refl].
  - apply empty_shard_wf.
Defined.

Lemma allow_is_justified_witness :
  allow_reason hash0 hash0 fw_open dns_reply 110 deny_all (mkDecision Allow None true).
Proof.
  refine (allow_is_justified hash0 hash0 fw_open dns_reply 110 deny_all _ _ fw_open_wf
    (surjective_pairing _) _); vm_compute; reflexivity.
Defined.

Lemma deny_creates_no_state_witness :
  exists st, fw_flow hash0
    (evaluate_with_policy hash0 hash0 (tcp_segment true TCP_SYN) 110 deny_all fw_open).2 dns_flow
      = Some st /\ fw_flow hash0 fw_open dns_flow = Some st.
Proof.
  eexists. split; [vm_compute; reflexivity|].
  refine (deny_creates_no_state hash0 hash0 fw_open (tcp_segment true TCP_SYN) 110 deny_all _ _
    dns_flow _ fw_open_wf (surjective_pairing _) _ _); vm_compute; reflexivity.
Defined.

Lemma reply_is_allowed_witness :
  (evaluate_with_policy hash0 hash0 dns_reply 159 deny_all fw_open).1 = mkDecision Allow None true.
Proof.
  refine (reply_is_allowed hash0 hash0 fw_start dns_query dns_reply dns_flow 100 159 None allow_all
    deny_all fw_open fw_start_wf _ _ _ _ _ _); [by left|reflexivity..|].
  vm_compute. reflexivity.
Defined.

Lemma replace_invalidates_witness :
  (evaluate_with_policy hash0 hash0 dns_reply 110 deny_all (replace fw_open 2 Deny []).2).1
    = denied /\
  stateful (evaluate_with_policy hash0 hash0 dns_reply 110 deny_all (replace fw_open 2 Deny []).2).1
    = false.
Proof.
  split; [vm_compute; reflexivity|].
  destruct (replace_invalidates hash0 hash0 fw_open 2 Deny [] _ _ (surjective_pairing _))
    as (_ & _ & Hok).
  destruct Hok as (_ & _ & _ & Hno); [vm_compute; reflexivity|].
  exact (Hno fw_open_wf dns_reply 110 deny_all _ _ (surjective_pairing _)).
Defined.

Lemma forget_flow_exact_witness :
  exists s', shards (forget_flow dns_flow fw_open) !! 0%nat = Some s' /\
    flows s' !! dns_flow = None.
Proof.
  destruct (forget_flow_exact dns_flow fw_open 0 (lock_shard 0 fw_open)) as (s' & Hs & Hf & _);
    [vm_compute; reflexivity|].
  exists s'. split; [exact Hs|]. rewrite Hf. apply decide_True. by left.
Defined.

Lemma tcp_phase_is_evidenced_witness :
  exists st, fw_flow hash0 (fw_run hash0 hash0 handshake (new 1 Deny [] 8 1)) tcp_flow = Some st /\
    phase st = Some Established /\ phase_evidence (Some Established) (tcp_trace tcp_flow handshake).
Proof.
  eexists. split; [vm_compute; reflexivity|]. split; [reflexivity|].
  refine (tcp_phase_is_evidenced hash0 hash0 1 Deny [] 8 1 handshake tcp_flow
    (mkFlowState 603 (Some Established)) _).
  vm_compute. reflexivity.
Defined.

Lemma eviction_is_oldest_witness :
  flows (lock_shard 0 fw_open) !! dns_flow = Some (mkFlowState 160 None) /\
  1 <= N.of_nat (size (flows (lock_shard 0 fw_open))).
Proof.
  split; [vm_compute; reflexivity|].
  refine (proj1 (eviction_is_oldest 1 (lock_shard 0 fw_open) dns_flow (mkFlowState 160 None)
    fw_open_shard _ _)); vm_compute; reflexivity.
Defined.

End examples.

End Fw.
