(* ===== verification/Reassembly.v ===== *)
(** * Fragment reassembly (crate [peerward-dataplane], reassembly.rs)

    [FragmentReassembler] keeps a [HashMap] of fragment sets, a [BTreeSet] of
    their deadlines, and byte counters per source and in total.  All four are
    modelled, with the saturating arithmetic of the code; [push] returns the
    next state together with its result, and an error leaves the state the code
    leaves.  [usize] additions guarded by the quota comparisons are written on
    [N]: the invariant bounds them by the quotas. *)

From S2P Require Import Prelude Ordered Net Packet.
From Stdlib Require Import NArith ZArith Lia Strings.Byte Sorting.Sorted.
From stdpp Require Import base tactics decidable countable numbers list gmap.
Import Pkt.
Set Default Goal Selector "!".
Local Open Scope N_scope.

Module Ra.

(** ** Data *)

Definition DEFAULT_PER_SOURCE_BYTES : N := 4 * 1024 * 1024.
Definition DEFAULT_GLOBAL_BYTES : N := 64 * 1024 * 1024.
Definition DEFAULT_FRAGMENT_TIMEOUT_SECONDS : N := 15.

Inductive ReassemblyError := RMalformed | ROverlap | RContradictory | RQuotaExceeded.
#[export] Instance ReassemblyError_eq_dec : EqDecision ReassemblyError.
Proof. solve_decision. Defined.

Record ReassembledDatagram := mkDatagram {
  dg_packet : list byte;
  original_fragments : list (list byte);
}.
Inductive ReassemblyStatus := Pending | Complete (d : ReassembledDatagram).

Record ReassemblyKey := mkReassemblyKey {
  rk_source : IpAddr;
  rk_destination : IpAddr;
  rk_protocol : N;
  rk_identification : N;
}.
#[export] Instance ReassemblyKey_eq_dec : EqDecision ReassemblyKey.
Proof. solve_decision. Defined.
Definition ReassemblyKey_tuple (k : ReassemblyKey) : IpAddr * (IpAddr * (N * N)) :=
  (rk_source k, (rk_destination k, (rk_protocol k, rk_identification k))).
Definition ReassemblyKey_of_tuple (t : IpAddr * (IpAddr * (N * N))) : ReassemblyKey :=
  let '(a, (b, (c, d))) := t in mkReassemblyKey a b c d.
#[export] Instance ReassemblyKey_countable : Countable ReassemblyKey.
Proof. apply (inj_countable' ReassemblyKey_tuple ReassemblyKey_of_tuple). by intros []. Defined.
#[export] Instance ReassemblyKey_compare : Compare ReassemblyKey := compare_via ReassemblyKey_tuple.
#[export] Instance ReassemblyKey_compare_laws : CompareLaws ReassemblyKey.
Proof.
  apply compare_via_laws. intros [] [] Heq. unfold ReassemblyKey_tuple in Heq. cbn in Heq.
  by simplify_eq.
Qed.

Inductive HeaderTemplate :=
| TIpv4 (header : list byte)
| TIpv6 (prefix : list byte) (previous_next_header : N) (fragment_next_header : byte).

Record StoredFragment := mkStored { sf_payload : list byte; sf_original : list byte }.

Record FragmentSet := mkSet {
  fs_source : IpAddr;
  fs_expires_at : N;
  fs_retained_bytes : N;
  fs_payload_bytes : N;
  fs_template : option HeaderTemplate;
  fs_final_length : option N;
  fs_fragments : gmap N StoredFragment;
}.

Record FragmentReassembler := mkReassembler {
  sets : gmap ReassemblyKey FragmentSet;
  expirations : gset (N * ReassemblyKey);
  source_bytes : gmap IpAddr N;
  retained_bytes : N;
  per_source_bytes : N;
  global_bytes : N;
  timeout_seconds : N;
}.

Definition new (per_source global timeout : N) : outcome ReassemblyError FragmentReassembler :=
  if (per_source =? 0) || (global <? per_source) || (timeout =? 0) then Err RMalformed
  else Ok (mkReassembler ∅ ∅ ∅ 0 per_source global timeout).

(** ** Decoding one fragment *)

Record DecodedFragment := mkDecoded { df_template : HeaderTemplate; df_payload : list byte }.

(** The [for _ in 0..8] over the unfragmentable header chain. *)
Fixpoint ipv6_fragment_chain (rounds : nat) (packet : list byte) (next previous_next_header cursor : N)
    : outcome ReassemblyError (N * N) :=
  match rounds with
  | O => Err RMalformed
  | S rounds' =>
      if next =? 44 then Ok (cursor, previous_next_header)
      else if (next =? 0) || (next =? 43) || (next =? 60) then
        len ← ok_or (packet !! N.to_nat (cursor + 1)) RMalformed;
        let extension_length := (u8 len + 1) * 8 in
        extension_next ← ok_or (packet !! N.to_nat cursor) RMalformed;
        if cursor + extension_length <=? lenN packet
        then ipv6_fragment_chain rounds' packet (u8 extension_next) cursor (cursor + extension_length)
        else Err RMalformed
      else Err RMalformed
  end.
Definition ipv6_fragment_header (packet : list byte) : outcome ReassemblyError (N * N) :=
  if lenN packet <? 48 then Err RMalformed else
  next ← index packet 6;
  ipv6_fragment_chain 8 packet (u8 next) 6 40.

Definition decode_fragment (packet : list byte) (fragment : Fragment)
    : outcome ReassemblyError DecodedFragment :=
  match head packet with
  | None => Err RMalformed
  | Some b0 =>
      if N.shiftr (u8 b0) 4 =? 4 then
        let header_length := N.land (u8 b0) 0x0f * 4 in
        payload ← ok_or (get_slice packet header_length (lenN packet)) RMalformed;
        template ← (if offset fragment =? 0
                    then TIpv4 <$> slice packet 0 header_length else Ok (TIpv4 []));
        Ok (mkDecoded template payload)
      else if N.shiftr (u8 b0) 4 =? 6 then
        '(cursor, previous_next_header) ← ipv6_fragment_header packet;
        payload ← ok_or (get_slice packet (cursor + 8) (lenN packet)) RMalformed;
        template ← (if offset fragment =? 0
                    then prefix ← slice packet 0 cursor;
                         fragment_next_header ← index packet cursor;
                         Ok (TIpv6 prefix previous_next_header fragment_next_header)
                    else Ok (TIpv6 [] 0 x00));
        Ok (mkDecoded template payload)
      else Err RMalformed
  end.

(** ** Completion and assembly *)

Definition is_complete (set : FragmentSet) : bool :=
  match fs_template set with Some _ => true | None => false end
  && bool_decide (fs_final_length set = Some (fs_payload_bytes set)).

Definition stored_values (set : FragmentSet) : list StoredFragment :=
  snd <$> bt_entries (fs_fragments set).

(** [header[a..b].fill(0)] *)
Definition fill0 {E} (bs : list byte) (a b : N) : outcome E (list byte) :=
  copy_at bs a (replicate (N.to_nat (b - a)) x00).

Definition assemble_ipv4 (header payload : list byte) : outcome ReassemblyError (list byte) :=
  if (lenN header <? 20) || (U16_MAX <? lenN header + lenN payload) then Err RMalformed else
  bits ← be16_at header 6;
  let original_flags := N.land bits 0x4000 in
  header ← copy_at header 6 (to_be 2 original_flags);
  header ← copy_at header 2 (to_be 2 (lenN header + lenN payload));
  header ← fill0 header 10 12;
  checksum ← ipv4_checksum header;
  header ← copy_at header 10 (to_be 2 checksum);
  Ok (header ++ payload).

Definition assemble_ipv6 (prefix payload : list byte) (previous_next_header : N)
    (fragment_next_header : byte) : outcome ReassemblyError (list byte) :=
  if (lenN prefix <? 40) || (lenN prefix <=? previous_next_header)
     || (U16_MAX <? lenN prefix + lenN payload - 40) then Err RMalformed else
  prefix ← copy_at prefix previous_next_header [fragment_next_header];
  prefix ← copy_at prefix 4 (to_be 2 (lenN prefix + lenN payload - 40));
  Ok (prefix ++ payload).

Definition assemble (set : FragmentSet) : outcome ReassemblyError ReassembledDatagram :=
  let payload := concat (sf_payload <$> stored_values set) in
  let originals := sf_original <$> stored_values set in
  template ← ok_or (fs_template set) RMalformed;
  packet ← match template with
           | TIpv4 header => assemble_ipv4 header payload
           | TIpv6 prefix previous next => assemble_ipv6 prefix payload previous next
           end;
  Ok (mkDatagram packet originals).

(** ** State changes *)

Definition release_usage (set : FragmentSet) (self : FragmentReassembler) : FragmentReassembler :=
  mkReassembler (sets self) (expirations self)
    (match source_bytes self !! fs_source set with
     | None => source_bytes self
     | Some source =>
         let source := source - fs_retained_bytes set in
         if source =? 0 then delete (fs_source set) (source_bytes self)
         else <[fs_source set := source]> (source_bytes self)
     end)
    (retained_bytes self - fs_retained_bytes set)
    (per_source_bytes self) (global_bytes self) (timeout_seconds self).

(** [sets.remove(key)], the removal of the deadline, and [release_usage]. *)
Definition detach_set (key : ReassemblyKey) (set : FragmentSet) (self : FragmentReassembler)
    : FragmentReassembler :=
  release_usage set
    (mkReassembler (delete key (sets self)) (expirations self ∖ {[(fs_expires_at set, key)]})
       (source_bytes self) (retained_bytes self) (per_source_bytes self) (global_bytes self)
       (timeout_seconds self)).

Definition remove_set (key : ReassemblyKey) (self : FragmentReassembler) : FragmentReassembler :=
  match sets self !! key with
  | Some set => detach_set key set self
  | None => self
  end.

(** The [while let Some(first)] loop; [None] when the fuel does not suffice. *)
Fixpoint expire_loop (fuel : nat) (now count : N) (self : FragmentReassembler)
    : option (FragmentReassembler * N) :=
  match bt_first (expirations self) with
  | None => Some (self, count)
  | Some (deadline, key) =>
      if now <? deadline then Some (self, count)
      else match fuel with
           | O => None
           | S fuel' => expire_loop fuel' now (count + 1) (remove_set key self)
           end
  end.
Definition expire (now : N) (self : FragmentReassembler) : option (FragmentReassembler * N) :=
  expire_loop (size (expirations self)) now 0 self.

(** [entry(key).or_insert_with(..)] *)
Definition entry_set (key : ReassemblyKey) (now : N) (self : FragmentReassembler)
    : FragmentSet * FragmentReassembler :=
  match sets self !! key with
  | Some set => (set, self)
  | None =>
      let expires_at := sat_add now (timeout_seconds self) in
      let set := mkSet (rk_source key) expires_at 0 0 None None ∅ in
      (set, mkReassembler (<[key := set]> (sets self)) (expirations self ∪ {[(expires_at, key)]})
              (source_bytes self) (retained_bytes self) (per_source_bytes self)
              (global_bytes self) (timeout_seconds self))
  end.
Definition put_set (key : ReassemblyKey) (set : FragmentSet) (self : FragmentReassembler)
    : FragmentReassembler :=
  mkReassembler (<[key := set]> (sets self)) (expirations self) (source_bytes self)
    (retained_bytes self) (per_source_bytes self) (global_bytes self) (timeout_seconds self).
(** [*source_bytes.entry(source).or_default() += charge; retained_bytes += charge] *)
Definition charge_usage (source : IpAddr) (charge : N) (self : FragmentReassembler)
    : FragmentReassembler :=
  mkReassembler (sets self) (expirations self)
    (<[source := default 0 (source_bytes self !! source) + charge]> (source_bytes self))
    (retained_bytes self + charge) (per_source_bytes self) (global_bytes self)
    (timeout_seconds self).

Definition neighbours_overlap (fragments : gmap N StoredFragment) (off fin : N) : bool :=
  match bt_range_back off fragments with
  | Some (start, fragment) => off <? start + lenN (sf_payload fragment)
  | None => false
  end
  || match bt_range_next off fragments with
     | Some (start, _) => start <? fin
     | None => false
     end.

Definition with_final_length (set : FragmentSet) (l : option N) : FragmentSet :=
  mkSet (fs_source set) (fs_expires_at set) (fs_retained_bytes set) (fs_payload_bytes set)
    (fs_template set) l (fs_fragments set).
Definition with_template (set : FragmentSet) (t : option HeaderTemplate) : FragmentSet :=
  mkSet (fs_source set) (fs_expires_at set) (fs_retained_bytes set) (fs_payload_bytes set)
    t (fs_final_length set) (fs_fragments set).

(** The checks on the set, with the set each of them leaves behind. *)
Definition check_final (set : FragmentSet) (last : bool) (fin : N) : FragmentSet + ReassemblyError :=
  if match fs_final_length set with Some length => length <? fin | None => false end
  then inr RContradictory else
  if last then
    if match fs_final_length set with Some length => negb (length =? fin) | None => false end
       || match bt_last_key_value (fs_fragments set) with
          | Some (existing_offset, existing) => fin <? existing_offset + lenN (sf_payload existing)
          | None => false
          end
    then inr RContradictory
    else inl (with_final_length set (Some fin))
  else inl set.

Definition store_fragment (set : FragmentSet) (off charge : N) (payload original : list byte)
    : FragmentSet :=
  mkSet (fs_source set) (fs_expires_at set) (fs_retained_bytes set + charge)
    (fs_payload_bytes set + lenN payload) (fs_template set) (fs_final_length set)
    (<[off := mkStored payload original]> (fs_fragments set)).

Definition finish_set (key : ReassemblyKey) (self : FragmentReassembler)
    : FragmentReassembler * outcome ReassemblyError ReassemblyStatus :=
  match sets self !! key with
  | None => (self, Panic)
  | Some set =>
      if negb (is_complete set) then (self, Ok Pending) else
      let self := detach_set key set self in
      (self,
       datagram ← assemble set;
       _ ← map_err (fun _ => RMalformed) (parse_packet (dg_packet datagram));
       Ok (Complete datagram))
  end.

Definition insert_fragment (key : ReassemblyKey) (fragment : Fragment) (off fin : N)
    (decoded : DecodedFragment) (packet : list byte) (charge now : N) (self : FragmentReassembler)
    : FragmentReassembler * outcome ReassemblyError ReassemblyStatus :=
  let source_retained := default 0 (source_bytes self !! rk_source key) in
  if (per_source_bytes self <? sat_add source_retained charge)
     || (global_bytes self <? sat_add (retained_bytes self) charge)
  then (self, Err RQuotaExceeded) else
  let '(set, self) := entry_set key now self in
  if neighbours_overlap (fs_fragments set) off fin then (self, Err ROverlap) else
  match check_final set (negb (more fragment)) fin with
  | inr e => (self, Err e)
  | inl set =>
      if (off =? 0) && match fs_template set with Some _ => true | None => false end
      then (put_set key set self, Err ROverlap)
      else
        let set := if off =? 0 then with_template set (Some (df_template decoded)) else set in
        let set := store_fragment set off charge (df_payload decoded) packet in
        finish_set key (charge_usage (rk_source key) charge (put_set key set self))
  end.

Definition reassembly_key (parsed : ParsedPacket) (fragment : Fragment) : ReassemblyKey :=
  mkReassemblyKey (source parsed) (destination parsed)
    (if is_ipv6 (source parsed) then 0 else protocol parsed) (identification fragment).

(** The closure [prepared]. *)
Definition prepare (packet : list byte) (fragment : Fragment)
    : outcome ReassemblyError (DecodedFragment * N * N * N) :=
  decoded ← decode_fragment packet fragment;
  let off := offset fragment * 8 in
  let fin := off + lenN (df_payload decoded) in
  if U16_MAX <? fin then Err RMalformed else
  if (lenN (df_payload decoded) =? 0)
     || (more fragment && negb (lenN (df_payload decoded) mod 8 =? 0))
  then Err RMalformed else
  charge ← ok_or (checked_add (lenN (df_payload decoded)) (lenN packet)) RQuotaExceeded;
  Ok (decoded, off, fin, charge).

Definition push_fragment (packet : list byte) (key : ReassemblyKey) (fragment : Fragment) (now : N)
    (self : FragmentReassembler) : FragmentReassembler * outcome ReassemblyError ReassemblyStatus :=
  match prepare packet fragment with
  | Panic => (self, Panic)
  | Err error => (remove_set key self, Err error)
  | Ok (decoded, off, fin, charge) =>
      let '(self, result) := insert_fragment key fragment off fin decoded packet charge now self in
      match result with
      | Err e => (remove_set key self, Err e)
      | _ => (self, result)
      end
  end.

(** Running out of fuel in [expire] counts as an abort. *)
Definition push (packet : list byte) (now : N) (self : FragmentReassembler)
    : FragmentReassembler * outcome ReassemblyError ReassemblyStatus :=
  match expire now self with
  | None => (self, Panic)
  | Some (self, _) =>
      match parse_packet packet with
      | Panic => (self, Panic)
      | Err _ => (self, Err RMalformed)
      | Ok parsed =>
          match fragment parsed with
          | None => (self, Ok (Complete (mkDatagram packet [packet])))
          | Some f =>
              if (offset f =? 0) && negb (more f)
              then (self, Ok (Complete (mkDatagram packet [packet])))
              else push_fragment packet (reassembly_key parsed f) f now self
          end
      end
  end.

(** ** Invariant *)

Definition stored_bytes (f : StoredFragment) : N := lenN (sf_payload f) + lenN (sf_original f).
Definition payload_len (f : StoredFragment) : N := lenN (sf_payload f).

(** The stored fragments occupy pairwise disjoint, non-empty intervals below
    the final length, and the counters of the set are their exact sums. *)
Record set_wf (key : ReassemblyKey) (set : FragmentSet) : Prop := {
  sw_source : fs_source set = rk_source key;
  sw_retained : fs_retained_bytes set = map_sum stored_bytes (fs_fragments set);
  sw_payload : fs_payload_bytes set = map_sum payload_len (fs_fragments set);
  sw_interval : forall o f, fs_fragments set !! o = Some f ->
    0 < payload_len f /\ o + payload_len f <= U16_MAX;
  sw_disjoint : forall o1 f1 o2 f2, fs_fragments set !! o1 = Some f1 ->
    fs_fragments set !! o2 = Some f2 -> o1 < o2 -> o1 + payload_len f1 <= o2;
  sw_final : forall l, fs_final_length set = Some l ->
    forall o f, fs_fragments set !! o = Some f -> o + payload_len f <= l;
  sw_template : is_Some (fs_template set) <-> is_Some (fs_fragments set !! 0);
}.

(** What a set holds on behalf of a source. *)
Definition source_share (src : IpAddr) (set : FragmentSet) : N :=
  if decide (fs_source set = src) then fs_retained_bytes set else 0.

Record ra_wf (self : FragmentReassembler) : Prop := {
  rw_index : index_ok fs_expires_at (sets self) (expirations self);
  rw_sets : forall key set, sets self !! key = Some set -> set_wf key set;
  rw_retained : retained_bytes self = map_sum fs_retained_bytes (sets self);
  rw_source : forall src,
    default 0 (source_bytes self !! src) = map_sum (source_share src) (sets self);
  rw_source_pos : forall src n, source_bytes self !! src = Some n -> 0 < n;
  rw_global : retained_bytes self <= global_bytes self;
  rw_per_source : forall src, default 0 (source_bytes self !! src) <= per_source_bytes self;
  rw_limits : per_source_bytes self <= global_bytes self /\ global_bytes self < USIZE_MAX;
}.

Lemma map_sum_le {K V} `{Countable K} (f g : V -> N) (m : gmap K V) :
  (forall v, f v <= g v) -> map_sum f m <= map_sum g m.
Proof.
  intros Hfg. induction m as [|k v m Hk IH] using map_ind.
  - done.
  - rewrite !map_sum_insert_None by done. specialize (Hfg v). lia.
Qed.

Lemma reassembler_new_wf per_source global timeout self :
  global < USIZE_MAX -> new per_source global timeout = Ok self -> ra_wf self.
Proof.
  intros Hg. unfold new. destruct (per_source =? 0); [done|].
  destruct (N.ltb_spec global per_source); [done|]. destruct (timeout =? 0); [done|].
  intros [= <-]. split; cbn; try done; try lia.
  - apply index_ok_empty.
  - intros src. rewrite lookup_empty. cbn. lia.
Qed.

(** *** Removal *)

Lemma detach_set_wf key set self :
  ra_wf self -> sets self !! key = Some set -> ra_wf (detach_set key set self).
Proof.
  intros [Hix Hsets Hr Hs Hp Hg Hps Hl] Hk.
  pose proof (map_sum_delete fs_retained_bytes _ _ _ Hk) as Hsum.
  assert (Hsrc : forall src, default 0 (source_bytes (detach_set key set self) !! src) =
            default 0 (source_bytes self !! src) - source_share src set).
  { intros src. cbn. unfold source_share. case_decide as Heq.
    - subst src. destruct (source_bytes self !! fs_source set) as [n|] eqn:Hn; cbn; [|by rewrite Hn].
      destruct (N.eqb_spec (n - fs_retained_bytes set) 0) as [->|].
      + by rewrite lookup_delete_eq.
      + by rewrite lookup_insert_eq.
    - rewrite N.sub_0_r. destruct (source_bytes self !! fs_source set); [|done].
      destruct (_ =? 0); [by rewrite lookup_delete_ne|by rewrite lookup_insert_ne]. }
  split; cbn [detach_set release_usage sets expirations retained_bytes per_source_bytes global_bytes].
  - by apply index_ok_delete.
  - intros k s [_ Hks]%lookup_delete_Some. by apply Hsets.
  - lia.
  - intros src. rewrite Hsrc, Hs, (map_sum_delete (source_share src) _ _ _ Hk). lia.
  - intros src n. cbn. destruct (source_bytes self !! fs_source set) as [m|] eqn:Hm.
    + destruct (N.eqb_spec (m - fs_retained_bytes set) 0).
      * intros [_ ?]%lookup_delete_Some. by eapply Hp.
      * intros [[_ <-]|[_ ?]]%lookup_insert_Some; [lia|by eapply Hp].
    + apply Hp.
  - lia.
  - intros src. specialize (Hps src). rewrite Hsrc. lia.
  - done.
Qed.

Lemma remove_set_wf key self : ra_wf self -> ra_wf (remove_set key self).
Proof.
  intros Hw. unfold remove_set. destruct (sets self !! key) eqn:Hk; [|done]. by apply detach_set_wf.
Qed.
Lemma remove_set_lookup key self k :
  sets (remove_set key self) !! k = if decide (key = k) then None else sets self !! k.
Proof.
  unfold remove_set. destruct (sets self !! key) eqn:Hk; cbn.
  - apply lookup_delete.
  - case_decide; by subst.
Qed.
Lemma remove_set_config key self :
  per_source_bytes (remove_set key self) = per_source_bytes self /\
  global_bytes (remove_set key self) = global_bytes self /\
  timeout_seconds (remove_set key self) = timeout_seconds self.
Proof. unfold remove_set. by destruct (sets self !! key). Qed.
Lemma remove_set_size key set self :
  sets self !! key = Some set -> size (sets self) = S (size (sets (remove_set key self))).
Proof.
  intros Hk. unfold remove_set. rewrite Hk. cbn. rewrite map_size_delete_Some by eauto.
  assert (size (sets self) <> 0)%nat
    by (intros Hz%map_size_empty_inv; by rewrite Hz, lookup_empty in Hk). lia.
Qed.

(** The loop of [expire] ends, within as many rounds as there are deadlines,
    and drops exactly the sets whose deadline has passed. *)
Lemma expire_loop_spec fuel now count self :
  ra_wf self -> (size (sets self) <= fuel)%nat ->
  exists self' count', expire_loop fuel now count self = Some (self', count') /\ ra_wf self' /\
    sets self' = filter (fun e => now < fs_expires_at e.2) (sets self) /\
    per_source_bytes self' = per_source_bytes self /\ global_bytes self' = global_bytes self /\
    timeout_seconds self' = timeout_seconds self /\
    count' + N.of_nat (size (sets self')) = count + N.of_nat (size (sets self)).
Proof.
  intros Hw0. assert (Hnone : forall self, ra_wf self -> bt_first (expirations self) = None ->
    sets self = filter (fun e => now < fs_expires_at e.2) (sets self)).
  { intros s Hs Hfirst. apply (index_ok_first_None _ _ _ (rw_index _ Hs)) in Hfirst.
    by rewrite Hfirst, map_filter_empty. }
  revert count self Hw0.
  induction fuel as [|fuel IH]; intros count self Hw Hsz; cbn;
    destruct (bt_first (expirations self)) as [[t key]|] eqn:Hfirst.
  - destruct (index_ok_first _ _ _ _ _ (rw_index _ Hw) Hfirst) as (v & Hv & _).
    assert (size (sets self) = 0)%nat as Hz%map_size_empty_inv by lia.
    by rewrite Hz, lookup_empty in Hv.
  - exists self, count. split_and!; auto.
  - destruct (index_ok_first _ _ _ _ _ (rw_index _ Hw) Hfirst) as (v & Hv & Ht & Hmin).
    destruct (N.ltb_spec now t) as [Hlive|Hdead].
    + exists self, count. split_and!; try done. symmetry. apply map_filter_id.
      intros k set Hk. cbn. specialize (Hmin _ _ Hk). lia.
    + pose proof (remove_set_size key v self Hv) as Hsize.
      destruct (IH (count + 1) (remove_set key self)) as (self' & count' & He & Hw' & Hk & Hp & Hg & Hto & Hc);
        [by apply remove_set_wf|lia|].
      destruct (remove_set_config key self) as (Hp0 & Hg0 & Hto0).
      exists self', count'. split_and!; try done; [|congruence..|lia].
      rewrite Hk. unfold remove_set. rewrite Hv. cbn. apply map_filter_delete_not.
      cbn. intros y Hy. assert (y = v) as -> by congruence. lia.
  - exists self, count. split_and!; auto.
Qed.

Lemma expire_spec now self :
  ra_wf self ->
  exists self' count', expire now self = Some (self', count') /\ ra_wf self' /\
    sets self' = filter (fun e => now < fs_expires_at e.2) (sets self) /\
    per_source_bytes self' = per_source_bytes self /\ global_bytes self' = global_bytes self /\
    timeout_seconds self' = timeout_seconds self /\
    count' + N.of_nat (size (sets self')) = N.of_nat (size (sets self)).
Proof.
  intros Hw. apply (expire_loop_spec _ now 0 self Hw).
  by rewrite (index_ok_size _ _ _ (rw_index _ Hw)).
Qed.

(** *** Overlap *)

Definition intersects (a1 a2 b1 b2 : N) : Prop := a1 < b2 /\ b1 < a2.

(** Looking at the two neighbours decides intersection with the whole set. *)
Lemma neighbours_overlap_spec key set off fin :
  set_wf key set -> off < fin ->
  neighbours_overlap (fs_fragments set) off fin = true <->
  exists o f, fs_fragments set !! o = Some f /\ intersects off fin o (o + payload_len f).
Proof.
  intros Hs Hlt. unfold neighbours_overlap, intersects. rewrite orb_true_iff. split.
  - intros [Hb|Hn].
    + destruct (bt_range_back _ _) as [[o f]|] eqn:Hr; [|done].
      apply bt_range_back_Some in Hr as (Hk & Hle & _). apply leb_of_N in Hle.
      apply N.ltb_lt in Hb. exists o, f. unfold payload_len in *. split_and!; [done|lia..].
    + destruct (bt_range_next _ _) as [[o f]|] eqn:Hr; [|done].
      apply bt_range_next_Some in Hr as (Hk & Hle & _). apply leb_of_N in Hle.
      apply N.ltb_lt in Hn. exists o, f. destruct (sw_interval _ _ Hs _ _ Hk). split_and!; [done|lia..].
  - intros (o & f & Hk & Hlo & Hhi). destruct (N.le_gt_cases o off) as [Hle|Hgt].
    + left. destruct (bt_range_back off (fs_fragments set)) as [[o' f']|] eqn:Hr.
      * apply bt_range_back_Some in Hr as (Hk' & Hle' & Hmax).
        specialize (Hmax o f Hk (proj2 (leb_of_N _ _) Hle)). apply leb_of_N in Hmax, Hle'.
        apply N.ltb_lt. destruct (decide (o = o')) as [<-|Hne].
        -- assert (f' = f) as -> by congruence. unfold payload_len in Hlo. lia.
        -- pose proof (sw_disjoint _ _ Hs o f o' f' Hk Hk' ltac:(lia)). lia.
      * eapply bt_range_back_None in Hr; [|done]. apply leb_of_N_false in Hr. lia.
    + right. destruct (bt_range_next off (fs_fragments set)) as [[o' f']|] eqn:Hr.
      * apply bt_range_next_Some in Hr as (Hk' & Hle' & Hmin).
        specialize (Hmin o f Hk (proj2 (leb_of_N _ _) (N.lt_le_incl _ _ Hgt))).
        apply leb_of_N in Hmin. apply N.ltb_lt. lia.
      * eapply bt_range_next_None in Hr; [|done]. apply leb_of_N_false in Hr. lia.
Qed.

(** *** Insertion *)

Lemma put_set_wf key set set0 self :
  ra_wf self -> sets self !! key = Some set0 -> set_wf key set ->
  fs_expires_at set = fs_expires_at set0 -> fs_retained_bytes set = fs_retained_bytes set0 ->
  ra_wf (put_set key set self).
Proof.
  intros [Hix Hsets Hr Hs Hp Hg Hps Hl] Hk Hset He Hret.
  split; cbn [put_set sets expirations source_bytes retained_bytes per_source_bytes global_bytes];
    try done.
  - by eapply index_ok_insert_same.
  - intros k s [[<- <-]|[_ ?]]%lookup_insert_Some; [done|by apply Hsets].
  - pose proof (map_sum_insert_Some fs_retained_bytes _ _ set _ Hk). lia.
  - intros src. pose proof (map_sum_insert_Some (source_share src) _ _ set _ Hk) as Hsum.
    rewrite Hs. assert (source_share src set = source_share src set0); [|lia].
    unfold source_share. pose proof (Hsets _ _ Hk) as H0.
    by rewrite (sw_source _ _ Hset), (sw_source _ _ H0), Hret.
Qed.

Lemma empty_set_wf key t : set_wf key (mkSet (rk_source key) t 0 0 None None ∅).
Proof.
  split; cbn; try done; try (intros *; by rewrite lookup_empty).
Qed.

Lemma entry_set_spec key now self set self' :
  ra_wf self -> entry_set key now self = (set, self') ->
  ra_wf self' /\ sets self' !! key = Some set /\
  (forall k, k <> key -> sets self' !! k = sets self !! k) /\
  fs_fragments set = from_option fs_fragments ∅ (sets self !! key) /\
  source_bytes self' = source_bytes self /\ retained_bytes self' = retained_bytes self /\
  per_source_bytes self' = per_source_bytes self /\ global_bytes self' = global_bytes self /\
  timeout_seconds self' = timeout_seconds self.
Proof.
  intros Hw. unfold entry_set. destruct (sets self !! key) as [s|] eqn:Hk; intros [= <- <-].
  { by rewrite Hk. }
  destruct Hw as [Hix Hsets Hr Hs Hp Hg Hps Hl]. split_and!; cbn; try done.
  - split; cbn [sets expirations source_bytes retained_bytes per_source_bytes global_bytes]; try done.
    + by apply (index_ok_insert_new fs_expires_at _ _ key (mkSet (rk_source key) _ 0 0 None None ∅)).
    + intros k s [[<- <-]|[_ ?]]%lookup_insert_Some; [apply empty_set_wf|by apply Hsets].
    + by rewrite map_sum_insert_None.
    + intros src. rewrite map_sum_insert_None by done. rewrite Hs. unfold source_share at 2. cbn.
      by destruct (decide _).
  - by rewrite lookup_insert_eq.
  - intros k Hne. by rewrite lookup_insert_ne.
Qed.

Lemma check_final_spec key set last fin set' :
  set_wf key set -> check_final set last fin = inl set' ->
  set_wf key set' /\ fs_fragments set' = fs_fragments set /\ fs_template set' = fs_template set /\
  fs_expires_at set' = fs_expires_at set /\ fs_retained_bytes set' = fs_retained_bytes set /\
  (forall l, fs_final_length set' = Some l -> fin <= l).
Proof.
  intros Hs. unfold check_final.
  destruct (match fs_final_length set with Some length => length <? fin | None => false end) eqn:H1;
    [done|].
  destruct last.
  2:{ intros [= <-]. split_and!; try done. intros l Hl. rewrite Hl in H1. breflect. lia. }
  destruct (_ || _) eqn:H2; [done|]. intros [= <-].
  apply orb_false_iff in H2 as [H2 H3]. cbn. split_and!; try done; [|intros l [= <-]; lia].
  destruct Hs as [Hsrc Hret Hpay Hint Hdis Hfin Ht]. split; cbn; try done.
  intros l [= <-] o f Hk.
  destruct (bt_last_key_value (fs_fragments set)) as [[o' f']|] eqn:Hlast.
  - apply bt_last_Some in Hlast as (Hk' & Hmax). specialize (Hmax _ _ Hk). apply leb_of_N in Hmax.
    breflect. destruct (decide (o = o')) as [<-|Hne].
    + assert (f' = f) as -> by congruence. unfold payload_len. lia.
    + pose proof (Hdis _ _ _ _ Hk Hk' ltac:(lia)). unfold payload_len in *. lia.
  - apply bt_last_None in Hlast. by rewrite Hlast, lookup_empty in Hk.
Qed.

Lemma store_fragment_wf key set t off payload packet :
  set_wf key set -> 0 < lenN payload -> off + lenN payload <= U16_MAX ->
  (forall o f, fs_fragments set !! o = Some f ->
     ~ intersects off (off + lenN payload) o (o + payload_len f)) ->
  (forall l, fs_final_length set = Some l -> off + lenN payload <= l) ->
  (is_Some t <-> off = 0 \/ is_Some (fs_fragments set !! 0)) ->
  set_wf key (store_fragment (with_template set t) off (lenN payload + lenN packet) payload packet).
Proof.
  intros [Hsrc Hret Hpay Hint Hdis Hfin Ht] Hpos Hmax Hno Hl Htmpl.
  assert (Hnone : fs_fragments set !! off = None).
  { destruct (fs_fragments set !! off) as [f|] eqn:Hk; [|done]. destruct (Hint _ _ Hk).
    destruct (Hno _ _ Hk). unfold intersects. lia. }
  split; cbn [store_fragment with_template fs_source fs_retained_bytes fs_payload_bytes fs_fragments
    fs_final_length fs_template].
  - done.
  - rewrite map_sum_insert_None, Hret by done. unfold stored_bytes at 2. cbn. lia.
  - rewrite map_sum_insert_None, Hpay by done. unfold payload_len at 2. cbn. lia.
  - intros o f [[<- <-]|[_ Hk]]%lookup_insert_Some; [done|by apply Hint].
  - unfold intersects in Hno.
    intros o1 f1 o2 f2 [[<- <-]|[Hn1 H1]]%lookup_insert_Some [[<- <-]|[Hn2 H2]]%lookup_insert_Some Hlt.
    + lia.
    + destruct (Hint _ _ H2). specialize (Hno _ _ H2). unfold payload_len at 1. cbn. lia.
    + specialize (Hno _ _ H1). destruct (Hint _ _ H1). lia.
    + by eapply Hdis.
  - intros l Hfl o f [[<- <-]|[_ Hk]]%lookup_insert_Some; [by apply Hl|by eapply Hfin].
  - rewrite Htmpl. destruct (decide (off = 0)) as [->|Hne].
    + rewrite lookup_insert_eq. split; [by eexists|by left].
    + rewrite lookup_insert_ne by done. naive_solver.
Qed.

Lemma charge_usage_wf key set set0 charge self :
  ra_wf self -> sets self !! key = Some set0 -> set_wf key set -> 0 < charge ->
  fs_expires_at set = fs_expires_at set0 ->
  fs_retained_bytes set = fs_retained_bytes set0 + charge ->
  default 0 (source_bytes self !! rk_source key) + charge <= per_source_bytes self ->
  retained_bytes self + charge <= global_bytes self ->
  ra_wf (charge_usage (rk_source key) charge (put_set key set self)).
Proof.
  intros [Hix Hsets Hr Hs Hp Hg Hps Hl] Hk Hset Hpos He Hret Hq1 Hq2.
  pose proof (sw_source _ _ (Hsets _ _ Hk)) as Hsrc0.
  split; cbn [charge_usage put_set sets expirations source_bytes retained_bytes per_source_bytes
    global_bytes]; try done.
  - by eapply index_ok_insert_same.
  - intros k s [[<- <-]|[_ ?]]%lookup_insert_Some; [done|by apply Hsets].
  - pose proof (map_sum_insert_Some fs_retained_bytes _ _ set _ Hk). lia.
  - intros src. pose proof (map_sum_insert_Some (source_share src) _ _ set _ Hk) as Hsum.
    rewrite <- Hs in Hsum. unfold source_share in Hsum at 2 3.
    rewrite (sw_source _ _ Hset), Hsrc0 in Hsum.
    destruct (decide (rk_source key = src)) as [<-|Hne].
    + rewrite lookup_insert_eq. cbn. lia.
    + rewrite lookup_insert_ne by done. lia.
  - intros src n [[<- <-]|[_ ?]]%lookup_insert_Some; [lia|by eapply Hp].
  - intros src. destruct (decide (rk_source key = src)) as [<-|Hne].
    + by rewrite lookup_insert_eq.
    + by rewrite lookup_insert_ne.
Qed.

(** *** No aborts *)

Lemma no_panic_ipv6_fragment_chain rounds packet next prev cursor :
  no_panic (ipv6_fragment_chain rounds packet next prev cursor).
Proof.
  revert next prev cursor. induction rounds as [|r IH]; intros; cbn [ipv6_fragment_chain];
    panic_free; apply IH.
Qed.
Lemma ipv6_fragment_chain_bound rounds packet next prev cursor c q :
  cursor <= lenN packet -> ipv6_fragment_chain rounds packet next prev cursor = Ok (c, q) ->
  c <= lenN packet.
Proof.
  revert next prev cursor. induction rounds as [|r IH]; intros next prev cursor Hc H;
    cbn [ipv6_fragment_chain] in H; [done|]. inv_ok; [by simplify_eq|].
  eapply IH; [|done]. lia.
Qed.

Lemma get_slice_from_Some packet a r :
  get_slice packet a (lenN packet) = Some r -> a <= lenN packet /\ r = drop (N.to_nat a) packet.
Proof.
  unfold get_slice. destruct (N.leb_spec a (lenN packet)); [|done]. cbn.
  destruct (N.leb_spec (lenN packet) (lenN packet)); [|lia]. intros [= <-]. split; [done|].
  apply take_ge. rewrite length_drop. unfold lenN. lia.
Qed.

Lemma no_panic_decode_fragment packet f : no_panic (decode_fragment packet f).
Proof.
  unfold decode_fragment. destruct (head packet) as [b0|]; [|apply no_panic_Err].
  destruct (_ =? 4); [|destruct (_ =? 6); [|apply no_panic_Err]].
  - apply no_panic_bind; [auto with rust|]. intros payload Hp.
    destruct (get_slice _ _ _) as [r|] eqn:Hg; [|done]. apply get_slice_from_Some in Hg as [Hle _].
    apply no_panic_bind; [|intros; apply no_panic_Ok]. destruct (_ =? 0); [|apply no_panic_Ok].
    apply no_panic_fmap. apply no_panic_slice; lia.
  - apply no_panic_bind.
    { unfold ipv6_fragment_header. destruct (N.ltb_spec (lenN packet) 48); [apply no_panic_Err|].
      apply no_panic_bind; [apply no_panic_index; lia|]. intros. apply no_panic_ipv6_fragment_chain. }
    intros [cursor prev] _. apply no_panic_bind; [auto with rust|]. intros payload Hp.
    destruct (get_slice _ _ _) as [r|] eqn:Hg; [|done]. apply get_slice_from_Some in Hg as [Hle _].
    apply no_panic_bind; [|intros; apply no_panic_Ok]. destruct (_ =? 0); [|apply no_panic_Ok].
    apply no_panic_bind; [apply no_panic_slice; lia|]. intros.
    apply no_panic_bind; [apply no_panic_index; lia|]. intros. apply no_panic_Ok.
Qed.

Lemma no_panic_assemble_ipv4 header payload : no_panic (assemble_ipv4 header payload).
Proof.
  unfold assemble_ipv4. destruct (N.ltb_spec (lenN header) 20); [apply no_panic_Err|]. cbn [orb].
  destruct (N.ltb_spec U16_MAX (lenN header + lenN payload)) as [|Hmax]; [apply no_panic_Err|].
  unfold U16_MAX in Hmax. pose proof (lenN_to_be 2) as H2.
  apply no_panic_bind; [apply no_panic_be16_at; lia|]. intros bits _.
  apply no_panic_bind; [apply no_panic_copy_at; rewrite H2; lia|]. intros h1 H1%copy_at_len.
  apply no_panic_bind; [apply no_panic_copy_at; rewrite H2; lia|]. intros h3 H3%copy_at_len.
  assert (Hz : lenN (replicate (N.to_nat (12 - 10)) x00) = 2) by done.
  apply no_panic_bind; [apply no_panic_copy_at; rewrite Hz; lia|].
  intros h4 H4%copy_at_len.
  apply no_panic_bind; [apply no_panic_internet_checksum; lia|]. intros ck _.
  apply no_panic_bind; [apply no_panic_copy_at; rewrite H2; lia|]. intros. apply no_panic_Ok.
Qed.
Lemma no_panic_assemble_ipv6 prefix payload prev next :
  no_panic (assemble_ipv6 prefix payload prev next).
Proof.
  unfold assemble_ipv6. destruct (N.ltb_spec (lenN prefix) 40); [apply no_panic_Err|]. cbn [orb].
  destruct (N.leb_spec (lenN prefix) prev); [apply no_panic_Err|]. cbn [orb].
  destruct (U16_MAX <? _); [apply no_panic_Err|].
  apply no_panic_bind; [apply no_panic_copy_at; rewrite lenN_cons, lenN_nil; lia|].
  intros p1 H1%copy_at_len.
  apply no_panic_bind; [apply no_panic_copy_at; rewrite lenN_to_be; lia|]. intros. apply no_panic_Ok.
Qed.
Lemma no_panic_assemble set : no_panic (assemble set).
Proof.
  unfold assemble. apply no_panic_bind; [auto with rust|]. intros t _.
  apply no_panic_bind; [|intros; apply no_panic_Ok].
  destruct t; [apply no_panic_assemble_ipv4|apply no_panic_assemble_ipv6].
Qed.
Lemma no_panic_prepare packet f : no_panic (prepare packet f).
Proof.
  unfold prepare. apply no_panic_bind; [apply no_panic_decode_fragment|]. intros d _.
  destruct (U16_MAX <? _); [apply no_panic_Err|]. destruct (_ || _); [apply no_panic_Err|].
  apply no_panic_bind; [auto with rust|]. intros. apply no_panic_Ok.
Qed.

Lemma prepare_Ok packet f decoded off fin charge :
  prepare packet f = Ok (decoded, off, fin, charge) ->
  decode_fragment packet f = Ok decoded /\ off = offset f * 8 /\ fin = off + lenN (df_payload decoded) /\ fin <= U16_MAX /\
  0 < lenN (df_payload decoded) /\ charge = lenN (df_payload decoded) + lenN packet /\
  (more f = true -> lenN (df_payload decoded) mod 8 = 0).
Proof.
  unfold prepare. intros (d & Hd & H)%bind_Ok.
  destruct (N.ltb_spec U16_MAX (offset f * 8 + lenN (df_payload d))); [done|].
  destruct (_ || _) eqn:He; [done|]. apply orb_false_iff in He as [Hne Hal].
  apply bind_Ok in H as (c & Hc & [= <- <- <- <-]).
  unfold checked_add in Hc. destruct (_ <=? U64_MAX); [|done]. cbn in Hc. injection Hc as <-.
  apply N.eqb_neq in Hne. split_and!; try done; [lia|]. intros Hm. rewrite Hm in Hal. cbn in Hal.
  by apply negb_false_iff, N.eqb_eq in Hal.
Qed.

(** *** Contiguity *)

(** Consecutive intervals from [b] up. *)
Fixpoint tiled (b : N) (l : list (N * StoredFragment)) : Prop :=
  match l with
  | [] => True
  | (o, f) :: l' => o = b /\ tiled (b + payload_len f) l'
  end.

Definition total_len (l : list (N * StoredFragment)) : N :=
  foldr (fun e acc => payload_len e.2 + acc) 0 l.

Lemma total_le_gap b top l :
  StronglySorted (fun e1 e2 => e1.1 + payload_len e1.2 <= e2.1) l ->
  (forall e, e ∈ l -> b <= e.1 /\ e.1 + payload_len e.2 <= top) -> b <= top ->
  total_len l <= top - b.
Proof.
  intros Hs. revert b. induction Hs as [|[o f] l Hs IH Hall]; intros b Hb Hle; cbn; [lia|].
  pose proof (Hb (o, f) ltac:(by left)) as [Ho Htop]. cbn in *.
  rewrite Forall_forall in Hall.
  assert (Hin : forall e, e ∈ l -> o + payload_len f <= e.1 /\ e.1 + payload_len e.2 <= top).
  { intros e He. split; [by apply (Hall e)|]. apply Hb. by right. }
  specialize (IH _ Hin Htop). unfold total_len in *. lia.
Qed.

(** Disjoint intervals below [top] whose lengths add up to [top - b] leave no
    gap. *)
Lemma full_is_tiled b top l :
  StronglySorted (fun e1 e2 => e1.1 + payload_len e1.2 <= e2.1) l ->
  (forall e, e ∈ l -> b <= e.1 /\ e.1 + payload_len e.2 <= top) -> b <= top ->
  total_len l = top - b -> tiled b l.
Proof.
  intros Hs. revert b. induction Hs as [|[o f] l Hs IH Hall]; intros b Hb Hle Hsum; cbn; [done|].
  pose proof (Hb (o, f) ltac:(by left)) as [Ho Htop]. cbn in *.
  rewrite Forall_forall in Hall.
  assert (Hin : forall e, e ∈ l -> o + payload_len f <= e.1 /\ e.1 + payload_len e.2 <= top).
  { intros e He. split; [by apply (Hall e)|]. apply Hb. by right. }
  pose proof (total_le_gap (o + payload_len f) top l Hs Hin Htop) as Hgap.
  unfold total_len in *.
  assert (o = b) as -> by lia. split; [done|]. apply IH; [done|lia|lia].
Qed.

Lemma entries_disjoint key set :
  set_wf key set ->
  StronglySorted (fun e1 e2 : N * StoredFragment => e1.1 + payload_len e1.2 <= e2.1)
    (bt_entries (fs_fragments set)).
Proof.
  intros Hs. assert (Hin : forall e, e ∈ bt_entries (fs_fragments set) ->
    fs_fragments set !! e.1 = Some e.2) by (intros [o f]; apply elem_of_bt_entries).
  pose proof (NoDup_bt_entries (fs_fragments set)) as Hnd.
  pose proof (bt_entries_sorted (fs_fragments set)) as Hsort.
  induction Hsort as [|e l Hl IH Hall]; [constructor|].
  apply NoDup_cons in Hnd as [Hne Hnd]. constructor.
  - apply IH; [|done]. intros e' He'. apply Hin. by right.
  - rewrite Forall_forall in *. intros e' He'. specialize (Hall _ He').
    unfold key_le in Hall. apply leb_of_N in Hall.
    eapply (sw_disjoint _ _ Hs); [apply Hin; by left|apply Hin; by right|].
    assert (e.1 <> e'.1); [|lia]. intros Heq. apply Hne. rewrite Heq. by apply list_elem_of_fmap_2.
Qed.

Lemma complete_tiled key set :
  set_wf key set -> is_complete set = true ->
  tiled 0 (bt_entries (fs_fragments set)) /\
  fs_final_length set = Some (total_len (bt_entries (fs_fragments set))).
Proof.
  intros Hs Hc. unfold is_complete in Hc. apply andb_true_iff in Hc as [_ Hfin].
  apply bool_decide_eq_true in Hfin.
  assert (Hsum : fs_payload_bytes set = total_len (bt_entries (fs_fragments set)))
    by (by rewrite (sw_payload _ _ Hs), map_sum_entries, foldr_fmap).
  rewrite <- Hsum. split; [|done]. apply (full_is_tiled 0 (fs_payload_bytes set)).
  - by eapply entries_disjoint.
  - intros [o f] Hin%elem_of_bt_entries. cbn. split; [lia|]. by eapply (sw_final _ _ Hs).
  - lia.
  - lia.
Qed.

(** The concatenated payloads put every fragment's bytes at its offset. *)
Lemma tiled_payload b l o f :
  tiled b l -> (o, f) ∈ l ->
  b <= o /\
  get_slice (concat (sf_payload <$> (snd <$> l))) (o - b) (o - b + payload_len f) = Some (sf_payload f).
Proof.
  revert b. induction l as [|[o0 f0] l IH]; intros b; cbn [tiled]; [by intros _ ?%not_elem_of_nil|].
  intros [-> Ht] [[= -> ->]|Hin]%elem_of_cons; cbn [fmap list_fmap concat snd].
  - split; [lia|]. rewrite N.sub_diag. unfold get_slice. cbn [N.to_nat drop].
    rewrite lenN_app. unfold payload_len. destruct (N.leb_spec 0 (0 + lenN (sf_payload f0))); [|lia].
    destruct (N.leb_spec (0 + lenN (sf_payload f0)) (lenN (sf_payload f0) +
      lenN (concat (sf_payload <$> (snd <$> l))))); [|lia].
    cbn [andb]. f_equal. rewrite N.add_0_l, N.sub_0_r. change (N.to_nat 0) with 0%nat.
    rewrite drop_0. unfold lenN. rewrite Nat2N.id. by rewrite take_app_length.
  - destruct (IH _ Ht Hin) as [Hle Hget]. unfold payload_len in *. split; [lia|].
    unfold get_slice in *. rewrite lenN_app.
    destruct (_ && _) eqn:Hb in Hget; [|done]. breflect.
    destruct (N.leb_spec (o - b) (o - b + lenN (sf_payload f))); [|lia].
    destruct (N.leb_spec (o - b + lenN (sf_payload f))
      (lenN (sf_payload f0) + lenN (concat (sf_payload <$> (snd <$> l))))); [|lia].
    cbn. rewrite <- Hget. f_equal. f_equal; [lia|].
    rewrite skipn_app. rewrite skipn_all2 by (unfold lenN in *; lia). cbn. f_equal.
    unfold lenN in *. lia.
Qed.

(** *** [insert_fragment] and [push] *)

Definition stored (self : FragmentReassembler) (key : ReassemblyKey) : gmap N StoredFragment :=
  from_option fs_fragments ∅ (sets self !! key).

(** What an accepted fragment leaves behind, pending or complete. *)
Definition accepted (key : ReassemblyKey) (fragments : gmap N StoredFragment)
    (self' : FragmentReassembler) (st : ReassemblyStatus) : Prop :=
  exists set', set_wf key set' /\ fs_fragments set' = fragments /\
  match st with
  | Pending => sets self' !! key = Some set' /\ is_complete set' = false
  | Complete d => sets self' !! key = None /\ is_complete set' = true /\ assemble set' = Ok d /\
                  exists p, parse_packet (dg_packet d) = Ok p
  end.

Lemma finish_set_spec key set self self' r :
  ra_wf self -> sets self !! key = Some set -> finish_set key self = (self', r) ->
  ra_wf self' /\ (forall k, k <> key -> sets self' !! k = sets self !! k) /\ r <> Panic /\
  (forall st, r = Ok st -> accepted key (fs_fragments set) self' st).
Proof.
  intros Hw Hk. unfold finish_set. rewrite Hk.
  pose proof (rw_sets _ Hw _ _ Hk) as Hset.
  destruct (is_complete set) eqn:Hc; cbn [negb]; intros [= <- <-].
  - split_and!.
    + by apply detach_set_wf.
    + intros k Hne. cbn. by rewrite lookup_delete_ne.
    + apply no_panic_bind; [apply no_panic_assemble|]. intros d _.
      apply no_panic_bind; [apply no_panic_map_err, no_panic_parse_packet|]. intros. apply no_panic_Ok.
    + intros st (d & Hd & (p & Hp & [= <-])%bind_Ok)%bind_Ok. exists set. split_and!; try done.
      * cbn. by rewrite lookup_delete_eq.
      * exists p. destruct (parse_packet (dg_packet d)); cbn in Hp; congruence.
  - split_and!; try done. intros st [= <-]. by exists set.
Qed.

Lemma with_template_id set : with_template set (fs_template set) = set.
Proof. by destruct set. Qed.

Lemma quota_spec a c limit : limit < USIZE_MAX -> (limit <? sat_add a c) = false -> a + c <= limit.
Proof. unfold USIZE_MAX, sat_add. intros Hl H%N.ltb_ge. lia. Qed.

Lemma insert_fragment_spec key f off fin decoded packet charge now self self' r :
  ra_wf self -> fin = off + lenN (df_payload decoded) -> 0 < lenN (df_payload decoded) ->
  fin <= U16_MAX -> charge = lenN (df_payload decoded) + lenN packet ->
  insert_fragment key f off fin decoded packet charge now self = (self', r) ->
  ra_wf self' /\ (forall k, k <> key -> sets self' !! k = sets self !! k) /\ r <> Panic /\
  (forall st, r = Ok st ->
     (forall o g, stored self key !! o = Some g -> ~ intersects off fin o (o + payload_len g)) /\
     accepted key (<[off := mkStored (df_payload decoded) packet]> (stored self key)) self' st).
Proof.
  intros Hw Hfin Hpos Hmax Hcharge. unfold insert_fragment.
  destruct (_ || _) eqn:Hquota; [by intros [= <- <-]|].
  apply orb_false_iff in Hquota as [Hq1 Hq2].
  destruct (rw_limits _ Hw) as [Hl1 Hl2].
  apply quota_spec in Hq1; [|lia]. apply quota_spec in Hq2; [|done].
  destruct (entry_set key now self) as [set self1] eqn:Hentry.
  apply entry_set_spec in Hentry as (Hw1 & Hk1 & Hother & Hfr & Hsb & Hrb & Hps & Hg & _); [|done].
  pose proof (rw_sets _ Hw1 _ _ Hk1) as Hset.
  pose proof (neighbours_overlap_spec key set off fin Hset ltac:(lia)) as Hov.
  destruct (neighbours_overlap _ off fin) eqn:Hn; [by intros [= <- <-]|].
  assert (Hno : forall o g, fs_fragments set !! o = Some g -> ~ intersects off fin o (o + payload_len g)).
  { intros o g Hg' Hi. assert (false = true) by (apply Hov; eauto). done. }
  clear Hov Hn. fold (stored self key) in Hfr.
  destruct (check_final set _ fin) as [set2|e] eqn:Hcf; [|by intros [= <- <-]].
  eapply check_final_spec in Hcf as (Hset2 & Hfr2 & Ht2 & He2 & Hr2 & Hfl2); [|done].
  assert (Hother2 : forall s k, k <> key -> sets (put_set key s self1) !! k = sets self !! k).
  { intros s k Hne. cbn. rewrite lookup_insert_ne by done. by apply Hother. }
  destruct (_ && _) eqn:Hdup.
  { intros [= <- <-]. split_and!; try done; [by eapply put_set_wf|by apply Hother2]. }
  set (t := if off =? 0 then Some (df_template decoded) else fs_template set2).
  assert (Ht : (if off =? 0 then with_template set2 (Some (df_template decoded)) else set2)
    = with_template set2 t) by (unfold t; destruct (off =? 0); by rewrite ?with_template_id).
  rewrite Ht. clear Ht. set (set3 := store_fragment _ _ _ _ _).
  assert (Hset3 : set_wf key set3).
  { unfold set3. rewrite Hcharge. apply store_fragment_wf; try done.
    - lia.
    - intros o g. rewrite Hfr2, <- Hfin. apply Hno.
    - intros l Hl. rewrite <- Hfin. by apply Hfl2.
    - unfold t. destruct (N.eqb_spec off 0) as [->|Hne]; [split; [by left|by eexists]|].
      rewrite (sw_template _ _ Hset2). naive_solver. }
  intros Hfinish. eapply finish_set_spec in Hfinish as (Hw' & Hk' & Hp' & Hst').
  2:{ eapply charge_usage_wf; [exact Hw1|done|done|lia|done| |by rewrite Hsb, Hps|by rewrite Hrb, Hg].
      cbn. by rewrite Hr2. }
  2:{ cbn. by rewrite lookup_insert_eq. }
  split_and!; [done| |done|].
  - intros k Hne. rewrite Hk' by done. by apply Hother2.
  - intros st Hst. rewrite <- Hfr. split; [done|]. specialize (Hst' st Hst).
    unfold set3 in Hst'. cbn in Hst'. by rewrite Hfr2 in Hst'.
Qed.

Lemma push_fragment_spec packet key f now self self' r :
  ra_wf self -> push_fragment packet key f now self = (self', r) ->
  ra_wf self' /\ (forall k, k <> key -> sets self' !! k = sets self !! k) /\ r <> Panic /\
  (forall e, r = Err e -> sets self' !! key = None) /\
  (forall st, r = Ok st -> exists decoded,
     decode_fragment packet f = Ok decoded /\
     0 < lenN (df_payload decoded) /\ offset f * 8 + lenN (df_payload decoded) <= U16_MAX /\
     (more f = true -> lenN (df_payload decoded) mod 8 = 0) /\
     (forall o g, stored self key !! o = Some g ->
        ~ intersects (offset f * 8) (offset f * 8 + lenN (df_payload decoded)) o (o + payload_len g)) /\
     accepted key (<[offset f * 8 := mkStored (df_payload decoded) packet]> (stored self key)) self' st).
Proof.
  intros Hw. unfold push_fragment.
  pose proof (no_panic_prepare packet f) as Hnp.
  assert (Hrm : forall self0 k, k <> key -> sets (remove_set key self0) !! k = sets self0 !! k).
  { intros self0 k Hne. rewrite remove_set_lookup. by rewrite decide_False. }
  destruct (prepare packet f) as [[[[d off] fin] charge]|e|] eqn:Hprep; [|intros [= <- <-]|done].
  - apply prepare_Ok in Hprep as (Hdec & -> & Hfin & Hmax & Hpos & Hcharge & Hal).
    destruct (insert_fragment _ _ _ _ _ _ _ _ _) as [self1 r1] eqn:Hins.
    apply insert_fragment_spec in Hins as (Hw1 & Hk1 & Hp1 & Hst1); [|done..].
    destruct r1 as [st|e|]; intros [= <- <-]; [| |done].
    + split_and!; try done. intros st' [= <-]. exists d.
      destruct (Hst1 st eq_refl) as [Hno Hacc]. subst fin. done.
    + split_and!; try done; [by apply remove_set_wf|intros k Hne; by rewrite Hrm, Hk1 by done|].
      intros e' _. rewrite remove_set_lookup. by rewrite decide_True.
  - split_and!; try done; [by apply remove_set_wf|by apply Hrm|].
    intros e' _. rewrite remove_set_lookup. by rewrite decide_True.
Qed.

(** The fragments of [key] that survive the expiry at [now]. *)
Definition live_stored (now : N) (self : FragmentReassembler) (key : ReassemblyKey)
    : gmap N StoredFragment :=
  match sets self !! key with
  | Some set => if now <? fs_expires_at set then fs_fragments set else ∅
  | None => ∅
  end.
Definition live_set (now : N) (self : FragmentReassembler) (key : ReassemblyKey)
    : option FragmentSet :=
  match sets self !! key with
  | Some set => if now <? fs_expires_at set then Some set else None
  | None => None
  end.

Lemma filter_live now self self1 key :
  sets self1 = filter (fun e => now < fs_expires_at e.2) (sets self) ->
  sets self1 !! key = live_set now self key.
Proof.
  intros ->. rewrite map_lookup_filter. unfold live_set.
  destruct (sets self !! key) as [set|]; [|done]. cbn.
  destruct (N.ltb_spec now (fs_expires_at set)).
  - by rewrite option_guard_True.
  - rewrite option_guard_False; [done|]. cbn. lia.
Qed.

Lemma push_wf packet now self :
  ra_wf self -> ra_wf (push packet now self).1 /\ (push packet now self).2 <> Panic.
Proof.
  intros Hw. unfold push.
  destruct (expire_spec now self Hw) as (self1 & n & -> & Hw1 & _).
  pose proof (no_panic_parse_packet packet) as Hnp.
  destruct (parse_packet packet) as [parsed|e|]; [|done..].
  destruct (fragment parsed) as [f|]; [|done]. destruct (_ && _); [done|].
  destruct (push_fragment _ _ _ _ _) as [self2 r] eqn:Hpf.
  by apply push_fragment_spec in Hpf as (? & _ & ? & _).
Qed.

Lemma push_fragmented packet now self self' r parsed f :
  ra_wf self -> parse_packet packet = Ok parsed -> fragment parsed = Some f ->
  offset f <> 0 \/ more f = true -> push packet now self = (self', r) ->
  exists self1, ra_wf self1 /\ (forall k, sets self1 !! k = live_set now self k) /\
    push_fragment packet (reassembly_key parsed f) f now self1 = (self', r).
Proof.
  intros Hw Hp Hf Hfrag. unfold push.
  destruct (expire_spec now self Hw) as (self1 & n & -> & Hw1 & Hs & _).
  rewrite Hp, Hf. intros Hpush. exists self1. split; [done|].
  split; [intros; by apply filter_live|].
  destruct (N.eqb_spec (offset f) 0), (more f); naive_solver.
Qed.

Lemma stored_live now self self1 key :
  sets self1 !! key = live_set now self key -> stored self1 key = live_stored now self key.
Proof.
  unfold stored, live_set, live_stored. intros ->.
  destruct (sets self !! key) as [set|]; [|done]. by destruct (now <? _).
Qed.

Lemma assemble_Ok set d :
  assemble set = Ok d ->
  exists header, dg_packet d = header ++ concat (sf_payload <$> stored_values set) /\
    original_fragments d = sf_original <$> stored_values set /\
    (forall h, fs_template set = Some (TIpv4 h) -> lenN header = lenN h /\
       forall i, i ∉ [2; 3; 6; 7; 10; 11]%nat -> header !! i = h !! i).
Proof.
  unfold assemble. intros (t & Ht & (packet & Hp & [= <-])%bind_Ok)%bind_Ok. cbn.
  destruct (fs_template set) as [t'|]; [|done]. cbn in Ht. injection Ht as ->.
  destruct t as [h|prefix prev next].
  - unfold assemble_ipv4, fill0 in Hp. inv_ok. subst packet. eexists. split; [done|]. split; [done|].
    intros h' [= <-]. split.
    + by repeat match goal with H : copy_at _ _ _ = Ok ?r |- lenN ?r = _ =>
        apply copy_at_len in H; rewrite H; clear H end.
    + intros i Hi. rewrite !not_elem_of_cons in Hi.
      repeat match goal with H : copy_at _ ?a ?new = Ok ?r |- ?r !! _ = _ =>
        rewrite (copy_at_other _ _ _ _ i H);
        [clear H|rewrite ?length_to_be, ?length_replicate; lia] end.
      done.
  - unfold assemble_ipv6 in Hp. inv_ok. subst packet. eexists. split; [done|]. split; [done|]. done.
Qed.

(** ** Where the stored fragments come from *)

Definition run_pushes (self : FragmentReassembler) (l : list (list byte * N)) : FragmentReassembler :=
  foldl (fun self '(packet, now) => (push packet now self).1) self l.

(** The packet [sf_original g] is a fragment of the datagram [key] at byte [o], and its
    data is what is stored. *)
Definition fragment_of (key : ReassemblyKey) (o : N) (g : StoredFragment) (f : Fragment) (dec : DecodedFragment) : Prop :=
  exists parsed, parse_packet (sf_original g) = Ok parsed /\ fragment parsed = Some f /\ reassembly_key parsed f = key /\
    o = offset f * 8 /\ decode_fragment (sf_original g) f = Ok dec /\ sf_payload g = df_payload dec.
Record provenance (key : ReassemblyKey) (set : FragmentSet) : Prop := {
  pv_each : forall o g, fs_fragments set !! o = Some g -> exists f dec, fragment_of key o g f dec;
  pv_last : forall l, fs_final_length set = Some l -> exists o g f dec,
    fs_fragments set !! o = Some g /\ fragment_of key o g f dec /\ more f = false /\ o + payload_len g = l;
  pv_first : forall t, fs_template set = Some t -> exists g f dec,
    fs_fragments set !! 0 = Some g /\ fragment_of key 0 g f dec /\ df_template dec = t;
  pv_payload : fs_payload_bytes set = map_sum payload_len (fs_fragments set);
}.
Definition traced (self : FragmentReassembler) : Prop := forall key set, sets self !! key = Some set -> provenance key set.

Lemma provenance_store key set set2 f off dec packet charge : set_wf key set -> provenance key set ->
  fragment_of key off (mkStored (df_payload dec) packet) f dec -> 0 < lenN (df_payload dec) ->
  neighbours_overlap (fs_fragments set) off (off + lenN (df_payload dec)) = false ->
  check_final set (negb (more f)) (off + lenN (df_payload dec)) = inl set2 ->
  provenance key (store_fragment (if off =? 0 then with_template set2 (Some (df_template dec)) else set2) off charge (df_payload dec) packet).
Proof.
  intros Hset [He Hl Hf _] Hnew Hpos Hov Hcf.
  assert (Hnone : fs_fragments set !! off = None).
  { destruct (fs_fragments set !! off) as [g|] eqn:Hg; [|done]. exfalso. destruct (sw_interval _ _ Hset _ _ Hg) as [Hg0 _].
    assert (Hx : neighbours_overlap (fs_fragments set) off (off + lenN (df_payload dec)) = true); [|congruence].
    apply (neighbours_overlap_spec key); [done|lia|]. exists off, g. split; [done|]. split; lia. }
  destruct (check_final_spec key set _ _ set2 Hset Hcf) as (Hset2 & Hfr & Ht & _). set (g0 := mkStored (df_payload dec) packet) in *.
  assert (Hfin : forall l, fs_final_length set2 = Some l ->
    (more f = false /\ l = off + lenN (df_payload dec)) \/ fs_final_length set = Some l).
  { revert Hcf. unfold check_final. destruct (match fs_final_length set with Some length => length <? _ | None => false end); [done|].
    destruct (more f); cbn [negb]; [intros [= <-] l Hx; by right|]. destruct (_ || _); [done|]. intros [= <-] l [= <-]. by left. }
  assert (Hold : forall o g, fs_fragments set !! o = Some g -> (<[off:=g0]> (fs_fragments set)) !! o = Some g).
  { intros o g Hg. rewrite lookup_insert_ne; [done|]. intros ->. congruence. }
  assert (Hfr' : forall t, fs_fragments (if off =? 0 then with_template set2 t else set2) = fs_fragments set) by (intros t; rewrite <-Hfr; by destruct (off =? 0)).
  assert (Hfl' : forall t, fs_final_length (if off =? 0 then with_template set2 t else set2) = fs_final_length set2) by (intros t; by destruct (off =? 0)).
  split; cbn [store_fragment fs_fragments fs_final_length fs_template fs_payload_bytes]; rewrite ?Hfr', ?Hfl'.
  - intros o g [[<- <-]|[_ Hg]]%lookup_insert_Some; [by exists f, dec|by apply He].
  - intros l [[Hm ->]|Hx]%Hfin.
    + exists off, g0, f, dec. by rewrite lookup_insert_eq.
    + destruct (Hl l Hx) as (o & g & f' & dec' & Hg & Hrest). exists o, g, f', dec'. split; [by apply Hold|done].
  - intros t. destruct (N.eqb_spec off 0) as [->|Hne]; cbn.
    + intros [= <-]. exists g0, f, dec. by rewrite lookup_insert_eq.
    + rewrite Ht. intros (g & f' & dec' & Hg & Hrest)%Hf. exists g, f', dec'. split; [by apply Hold|done].
  - assert (Hpb : forall t, fs_payload_bytes (if off =? 0 then with_template set2 t else set2) = fs_payload_bytes set2) by (intros t; by destruct (off =? 0)).
    rewrite Hpb, (sw_payload _ _ Hset2), Hfr, map_sum_insert_None by done. unfold payload_len at 2. cbn. lia.
Qed.
Lemma empty_provenance key e : provenance key (mkSet (rk_source key) e 0 0 None None ∅).
Proof. split; cbn; [intros *; by rewrite lookup_empty|done|done|done]. Qed.
Lemma insert_fragment_provenance key f off dec packet charge now self self' st :
  ra_wf self -> traced self -> fragment_of key off (mkStored (df_payload dec) packet) f dec -> 0 < lenN (df_payload dec) ->
  insert_fragment key f off (off + lenN (df_payload dec)) dec packet charge now self = (self', Ok st) ->
  exists set, provenance key set /\ fs_fragments set = <[off := mkStored (df_payload dec) packet]> (stored self key) /\
    match st with Pending => sets self' !! key = Some set | Complete d => is_complete set = true /\ assemble set = Ok d end.
Proof.
  intros Hw Ht Hfo Hpos. unfold insert_fragment. destruct (_ || _); [done|]. destruct (entry_set key now self) as [set self1] eqn:Hentry.
  assert (Hpv : provenance key set).
  { unfold entry_set in Hentry. destruct (sets self !! key) eqn:Hk; injection Hentry as <- <-; [by apply Ht|apply empty_provenance]. }
  apply entry_set_spec in Hentry as (Hw1 & Hk1 & _ & Hfr & _); [|done]. fold (stored self key) in Hfr. pose proof (rw_sets _ Hw1 _ _ Hk1) as Hset.
  destruct (neighbours_overlap _ _ _) eqn:Hov; [done|]. destruct (check_final _ _ _) as [set2|e] eqn:Hcf; [|done].
  destruct (_ && _); [done|]. unfold finish_set. cbn [charge_usage put_set sets]. rewrite lookup_insert_eq.
  pose proof (provenance_store key set set2 f off dec packet charge Hset Hpv Hfo Hpos Hov Hcf) as Hnew.
  assert (Hfr3 : fs_fragments (if off =? 0 then with_template set2 (Some (df_template dec)) else set2) = stored self key).
  { destruct (check_final_spec key set _ _ set2 Hset Hcf) as (_ & Hfr2 & _). rewrite <-Hfr, <-Hfr2. by destruct (off =? 0). }
  set (set3 := store_fragment _ _ _ _ _) in *. assert (Hf3 : fs_fragments set3 = <[off := mkStored (df_payload dec) packet]> (stored self key)) by (cbn; by rewrite Hfr3).
  destruct (is_complete set3) eqn:Hc; cbn [negb]; intros [= <- Hst].
  - apply bind_Ok in Hst as (d & Hd & (p & _ & [= <-])%bind_Ok). by exists set3.
  - subst st. exists set3. split; [done|]. split; [done|]. cbn. by rewrite lookup_insert_eq.
Qed.
Lemma push_fragment_provenance packet key f parsed now self self' r : ra_wf self -> traced self ->
  parse_packet packet = Ok parsed -> fragment parsed = Some f -> key = reassembly_key parsed f ->
  push_fragment packet key f now self = (self', r) -> traced self' /\
  forall d, r = Ok (Complete d) -> exists set dec, provenance key set /\ is_complete set = true /\ assemble set = Ok d /\
    decode_fragment packet f = Ok dec /\ fs_fragments set = <[offset f * 8 := mkStored (df_payload dec) packet]> (stored self key).
Proof.
  intros Hw Ht Hp Hf -> Hpush. destruct (push_fragment_spec _ _ _ _ _ _ _ Hw Hpush) as (_ & Hother & Hnp & Herr & Hok).
  revert Hpush. unfold push_fragment. destruct (prepare packet f) as [[[[dec off] fin] charge]|e|] eqn:Hprep.
  - apply prepare_Ok in Hprep as (Hdec & -> & -> & _ & Hpos & _). destruct (insert_fragment _ _ _ _ _ _ _ _ _) as [self1 r1] eqn:Hins.
    assert (Hfo : fragment_of (reassembly_key parsed f) (offset f * 8) (mkStored (df_payload dec) packet) f dec) by (by exists parsed).
    destruct r1 as [st|e|]; intros [= <- <-]; [| |done].
    + destruct (insert_fragment_provenance _ _ _ _ _ _ _ _ _ _ Hw Ht Hfo Hpos Hins) as (set & Hpv & Hfrs & Hst). split.
      * intros k s Hk. destruct (decide (k = reassembly_key parsed f)) as [->|Hne]; [|apply Ht; by rewrite <-Hother].
        destruct st as [|d]; [congruence|]. destruct (Hok _ eq_refl) as (? & _ & _ & _ & _ & _ & (set' & _ & _ & Hgone & _)). congruence.
      * intros d [= ->]. destruct Hst as [Hc Has]. by exists set, dec.
    + split; [|done]. intros k s Hk. destruct (decide (k = reassembly_key parsed f)) as [->|Hne]; [|apply Ht; by rewrite <-Hother].
      rewrite (Herr e eq_refl) in Hk. done.
  - intros [= <- <-]. split; [|done]. intros k s Hk. destruct (decide (k = reassembly_key parsed f)) as [->|Hne]; [|apply Ht; by rewrite <-Hother].
    rewrite (Herr e eq_refl) in Hk. done.
  - by intros [= <- <-].
Qed.
Lemma live_traced now self self1 : traced self -> (forall k, sets self1 !! k = live_set now self k) -> traced self1.
Proof.
  intros Ht Hl k s Hk. rewrite Hl in Hk. unfold live_set in Hk. destruct (sets self !! k) as [s'|] eqn:Hs; [|done].
  destruct (now <? _); [|done]. injection Hk as <-. by apply Ht.
Qed.
Lemma push_traced packet now self : ra_wf self -> traced self -> traced (push packet now self).1.
Proof.
  intros Hw Ht. unfold push. destruct (expire_spec now self Hw) as (self1 & n & -> & Hw1 & Hs & _).
  assert (Ht1 : traced self1) by (eapply live_traced; [exact Ht|intros k; by apply filter_live]).
  destruct (parse_packet packet) as [parsed|e|] eqn:Hp; [|done..]. destruct (fragment parsed) as [f|] eqn:Hf; [|done]. destruct (_ && _); [done|].
  destruct (push_fragment _ _ _ _ _) as [self2 r] eqn:Hpf. by eapply push_fragment_provenance in Hpf as [? _].
Qed.

Lemma run_pushes_traced per_source global timeout self l : global < USIZE_MAX -> new per_source global timeout = Ok self ->
  ra_wf (run_pushes self l) /\ traced (run_pushes self l).
Proof.
  intros Hg Hnew. pose proof (reassembler_new_wf _ _ _ _ Hg Hnew) as Hw.
  assert (Ht : traced self).
  { unfold new in Hnew. destruct (_ || _); [done|]. injection Hnew as <-. intros k s Hk. cbn in Hk. by rewrite lookup_empty in Hk. }
  clear Hnew Hg. unfold run_pushes. revert self Hw Ht. induction l as [|[packet now] l IH]; intros self Hw Ht; [done|].
  cbn. apply IH; [by apply push_wf|by apply push_traced].
Qed.

(** The header of the result is that of the first fragment, without the fragmentation. *)
Definition header_from (t : HeaderTemplate) (header : list byte) (total : N) : Prop :=
  match t with
  | TIpv4 h => lenN header = lenN h /\ (forall i, i ∉ [2; 3; 6; 7; 10; 11]%nat -> header !! i = h !! i) /\
      take 2 (drop 2 header) = to_be 2 total /\
      exists bits, be16_at (E:=ReassemblyError) h 6 = Ok bits /\ take 2 (drop 6 header) = to_be 2 (N.land bits 0x4000)
  | TIpv6 prefix previous next => lenN header = lenN prefix /\
      (forall i, i ∉ [4; 5; N.to_nat previous]%nat -> header !! i = prefix !! i) /\
      (5 < previous -> header !! N.to_nat previous = Some next) /\ take 2 (drop 4 header) = to_be 2 (total - 40)
  end.
Lemma slice_same {A} (r s : list A) a n : (forall i, (a <= i < a + n)%nat -> r !! i = s !! i) -> take n (drop a r) = take n (drop a s).
Proof.
  intros He. apply list_eq. intros i. destruct (decide (i < n)%nat) as [Hi|Hi].
  - rewrite !lookup_take_lt, !lookup_drop by done. apply He. lia.
  - rewrite !lookup_take_ge by lia. done.
Qed.
Lemma copy_at_slice {E} bs a new r : @copy_at E bs a new = Ok r -> take (length new) (drop (N.to_nat a) r) = new.
Proof.
  intros Hr. apply list_eq. intros i. destruct (decide (i < length new)%nat) as [Hi|Hi].
  - rewrite lookup_take_lt, lookup_drop, (copy_at_lookup _ _ _ _ _ Hr), decide_True by lia. f_equal. lia.
  - rewrite lookup_take_ge, lookup_ge_None_2 by lia. done.
Qed.
Lemma assemble_header set d t : assemble set = Ok d -> fs_template set = Some t ->
  exists header, dg_packet d = header ++ concat (sf_payload <$> stored_values set) /\
    original_fragments d = sf_original <$> stored_values set /\ header_from t header (lenN (dg_packet d)).
Proof.
  unfold assemble. intros (t' & Ht & (packet & Hp & [= <-])%bind_Ok)%bind_Ok Hset. rewrite Hset in Ht. cbn in Ht. injection Ht as <-. cbn.
  set (body := concat _) in *. destruct t as [h|prefix prev next].
  - unfold assemble_ipv4, fill0 in Hp. inv_ok. subst packet.
    pose proof (copy_at_len _ _ _ _ Hr0) as L0. pose proof (copy_at_len _ _ _ _ Hr1) as L1.
    pose proof (copy_at_len _ _ _ _ Hr2) as L2. pose proof (copy_at_len _ _ _ _ Hr4) as L4.
    assert (Hlate : forall i, (i < 10)%nat -> r4 !! i = r1 !! i).
    { intros i Hi. rewrite (copy_at_other _ _ _ _ i Hr4), (copy_at_other _ _ _ _ i Hr2); [done|lia..]. }
    exists r4. split; [done|]. split; [done|]. split; [lia|]. split; [|split].
    + intros i Hi. rewrite !not_elem_of_cons in Hi.
      rewrite (copy_at_other _ _ _ _ i Hr4), (copy_at_other _ _ _ _ i Hr2), (copy_at_other _ _ _ _ i Hr1), (copy_at_other _ _ _ _ i Hr0);
        [done|rewrite ?length_to_be, ?length_replicate; lia..].
    + rewrite (slice_same r4 r1) by (intros; apply Hlate; lia). pose proof (copy_at_slice _ _ _ _ Hr1) as Hs. rewrite length_to_be in Hs.
      rewrite lenN_app, L4, L2, L1. exact Hs.
    + exists r. split; [done|]. pose proof (copy_at_slice _ _ _ _ Hr0) as Hs. rewrite length_to_be in Hs. rewrite <-Hs. apply slice_same.
      intros i Hi. rewrite Hlate by lia. apply (copy_at_other _ _ _ _ i Hr1). rewrite length_to_be. lia.
  - unfold assemble_ipv6 in Hp. inv_ok. subst packet. pose proof (copy_at_len _ _ _ _ Hr) as L0. pose proof (copy_at_len _ _ _ _ Hr0) as L1.
    exists r0. split; [done|]. split; [done|]. split; [lia|]. split; [|split].
    + intros i Hi. rewrite !not_elem_of_cons in Hi.
      rewrite (copy_at_other _ _ _ _ i Hr0), (copy_at_other _ _ _ _ i Hr); [done|rewrite ?length_to_be; cbn [length]; lia..].
    + intros Hprev. rewrite (copy_at_other _ _ _ _ _ Hr0) by (rewrite length_to_be; lia).
      rewrite (copy_at_lookup _ _ _ _ _ Hr), decide_True by (cbn; lia). by rewrite Nat.sub_diag.
    + pose proof (copy_at_slice _ _ _ _ Hr0) as Hs. rewrite length_to_be in Hs. rewrite lenN_app, L1. exact Hs.
Qed.

(** Whatever packets arrive in whatever order and at whatever times, no
    submission aborts (in particular the expiry loop ends), and the memory
    accounting is exact: the retained bytes are the sum over all sets, each
    source's bytes the sum over its sets, both within their quotas; every set's
    fragments are disjoint and below its final length. *)
Theorem reassembler_invariant per_source global timeout self l :
  global < USIZE_MAX -> new per_source global timeout = Ok self ->
  ra_wf (run_pushes self l) /\
  forall packet now, (push packet now (run_pushes self l)).2 <> Panic.
Proof.
  intros Hg Hnew. pose proof (reassembler_new_wf _ _ _ _ Hg Hnew) as Hw. clear Hnew Hg.
  assert (Hrun : ra_wf (run_pushes self l)).
  { unfold run_pushes. revert self Hw. induction l as [|[packet now] l IH]; intros self Hw; [done|].
    cbn. by apply IH, push_wf. }
  split; [done|]. intros. by apply push_wf.
Qed.

(** ** Main theorems *)

(** C36: A completed datagram is exactly its fragments, and all of them. In any state
    reached by submissions, when a fragment completes a datagram, the stored intervals
    tile the payload from 0 to its end without gap or overlap; every stored fragment is
    the data of a fragment of this very datagram at its own offset; the one that ends
    the payload says that no more follow; every fragment's bytes stand at its offset;
    the header is the first fragment's with the fragmentation removed, the total length
    set and, for IPv4, a new checksum; the originals are returned in offset order; the
    result is a packet that parses, and the set is gone. *)
Theorem complete_is_exact per_source global timeout self0 l packet now self' d parsed f :
  global < USIZE_MAX -> new per_source global timeout = Ok self0 -> parse_packet packet = Ok parsed -> fragment parsed = Some f ->
  offset f <> 0 \/ more f = true -> push packet now (run_pushes self0 l) = (self', Ok (Complete d)) ->
  let key := reassembly_key parsed f in
  exists decoded header body, decode_fragment packet f = Ok decoded /\
    let frags := <[offset f * 8 := mkStored (df_payload decoded) packet]> (live_stored now (run_pushes self0 l) key) in
    dg_packet d = header ++ body /\ tiled 0 (bt_entries frags) /\
    lenN body = total_len (bt_entries frags) /\
    (forall o g, frags !! o = Some g ->
       get_slice body o (o + payload_len g) = Some (sf_payload g) /\ exists f' dec, fragment_of key o g f' dec) /\
    (exists o g f' dec, frags !! o = Some g /\ fragment_of key o g f' dec /\ more f' = false /\ o + payload_len g = lenN body) /\
    (exists g f' dec, frags !! 0 = Some g /\ fragment_of key 0 g f' dec /\ header_from (df_template dec) header (lenN (dg_packet d))) /\
    original_fragments d = (fun e => sf_original e.2) <$> bt_entries frags /\
    (exists p, parse_packet (dg_packet d) = Ok p) /\ sets self' !! key = None.
Proof.
  intros Hg Hnew Hp Hf Hfrag Hpush key. destruct (run_pushes_traced _ _ _ _ l Hg Hnew) as [Hw Ht].
  pose proof Hpush as Hpush'. eapply push_fragmented in Hpush' as (self1 & Hw1 & Hl & Hpf); [|done..].
  fold key in Hpf. pose proof (live_traced _ _ _ Ht Hl) as Ht1.
  destruct (push_fragment_provenance _ _ _ _ _ _ _ _ Hw1 Ht1 Hp Hf eq_refl Hpf) as [_ Hset].
  destruct (Hset d eq_refl) as (set & dec & Hpv & Hc & Has & Hdec & Hfr). clear Hset.
  apply push_fragment_spec in Hpf as (_ & _ & _ & _ & Hok); [|done].
  destruct (Hok _ eq_refl) as (dec' & Hdec' & _ & _ & _ & _ & set' & Hset' & Hfr' & Hgone & Hc' & _ & Hparse).
  assert (dec' = dec) as -> by congruence. rewrite (stored_live now (run_pushes self0 l)) in Hfr, Hfr' by apply Hl. fold key in Hfr, Hfr'.
  destruct (complete_tiled _ _ Hset' Hc') as [Htile Hfin']. rewrite Hfr' in Htile, Hfin'.
  assert (Hfin : fs_final_length set = Some (total_len (bt_entries (fs_fragments set)))).
  { unfold is_complete in Hc, Hc'. apply andb_true_iff in Hc as [_ Hc%bool_decide_eq_true], Hc' as [_ Hc'%bool_decide_eq_true].
    rewrite Hc, Hfr, (pv_payload _ _ Hpv), Hfr. rewrite Hc', (sw_payload _ _ Hset'), Hfr' in Hfin'. exact Hfin'. }
  assert (Ht0 : exists t, fs_template set = Some t).
  { unfold is_complete in Hc. destruct (fs_template set) as [t|]; [by exists t|done]. }
  destruct Ht0 as [t Ht0]. destruct (assemble_header _ _ _ Has Ht0) as (header & Hd & Ho & Hh).
  assert (Hbody : lenN (concat (sf_payload <$> stored_values set)) = total_len (bt_entries (fs_fragments set))).
  { clear. unfold stored_values. induction (bt_entries (fs_fragments set)) as [|[o g] es IH]; [done|]. cbn in *. by rewrite lenN_app, IH. }
  exists dec, header, (concat (sf_payload <$> stored_values set)). split; [done|]. cbn zeta. rewrite <-Hfr in Htile |- *.
  split_and!; try done.
  - intros o g Hk. split; [|by apply (pv_each _ _ Hpv)]. destruct (tiled_payload 0 _ o g Htile) as [_ Hget]; [by apply elem_of_bt_entries|].
    by rewrite N.sub_0_r in Hget.
  - rewrite Hbody. by apply (pv_last _ _ Hpv).
  - destruct (pv_first _ _ Hpv t Ht0) as (g & f' & dec0 & Hg0 & Hfo & <-). by exists g, f', dec0.
  - rewrite Ho. unfold stored_values. by rewrite <- !list_fmap_compose.
Qed.

(** A fragment that covers a byte some live fragment of its set covers is
    rejected, and the rejection discards its whole set and nothing else: every
    other set that has not expired is kept. *)
Theorem overlap_discards_set packet now self self' r parsed f decoded o g :
  ra_wf self -> parse_packet packet = Ok parsed -> fragment parsed = Some f ->
  offset f <> 0 \/ more f = true -> decode_fragment packet f = Ok decoded ->
  live_stored now self (reassembly_key parsed f) !! o = Some g ->
  intersects (offset f * 8) (offset f * 8 + lenN (df_payload decoded)) o (o + payload_len g) ->
  push packet now self = (self', r) ->
  exists e, r = Err e /\ sets self' !! reassembly_key parsed f = None /\
    forall k, k <> reassembly_key parsed f -> sets self' !! k = live_set now self k.
Proof.
  intros Hw Hp Hf Hfrag Hdec Hk Hint Hpush.
  eapply push_fragmented in Hpush as (self1 & Hw1 & Hl & Hpf); [|done..].
  apply push_fragment_spec in Hpf as (_ & Hother & Hnp & Herr & Hok); [|done].
  destruct r as [st|e|]; [|exists e|done].
  - exfalso. destruct (Hok st eq_refl) as (dec & Hdec' & _ & _ & _ & Hno & _).
    assert (dec = decoded) as -> by congruence.
    rewrite (stored_live now self) in Hno by apply Hl. by apply (Hno o g).
  - split_and!; [done|by eapply Herr|]. intros k Hne. rewrite Hother by done. apply Hl.
Qed.

(** The header of a reassembled IPv4 datagram is the first fragment's,
    except for the total length, the flags and offset, and the checksum. *)
Theorem assembled_header_kept set d h :
  assemble set = Ok d -> fs_template set = Some (TIpv4 h) ->
  exists header, dg_packet d = header ++ concat (sf_payload <$> stored_values set) /\
    lenN header = lenN h /\ forall i, i ∉ [2; 3; 6; 7; 10; 11]%nat -> header !! i = h !! i.
Proof.
  intros (header & Hd & _ & Hh)%assemble_Ok Ht. exists header. split; [done|]. by apply Hh.
Qed.

(** Expiry ends, drops exactly the sets whose deadline has passed, and
    returns how many it dropped. *)
Theorem expire_exact now self :
  ra_wf self ->
  exists self' count, expire now self = Some (self', count) /\
    (forall k, sets self' !! k = live_set now self k) /\
    count + N.of_nat (size (sets self')) = N.of_nat (size (sets self)).
Proof.
  intros Hw. destruct (expire_spec now self Hw) as (self' & n & He & _ & Hs & _ & _ & _ & Hn).
  exists self', n. split_and!; try done. intros. by apply filter_live.
Qed.

(** ** Examples *)

Section examples.
(** The datagram of [example_udp] in two fragments, of 8 and 5 bytes. *)
Definition example_first : list byte := of_octets
  [69; 0; 0; 28; 0; 7; 32; 0; 64; 17; 70; 200; 10; 0; 0; 1; 10; 0; 0; 2; 3; 232; 0; 53; 0; 13; 163; 226].
Definition example_second : list byte := of_octets
  [69; 0; 0; 25; 0; 7; 0; 1; 64; 17; 102; 202; 10; 0; 0; 1; 10; 0; 0; 2; 104; 101; 108; 108; 111].
Definition example_start : FragmentReassembler := mkReassembler ∅ ∅ ∅ 0 4096 65536 15.
Definition example_half : FragmentReassembler := (push example_second 10 example_start).1.
Definition example_frag (off : N) (more : bool) : Fragment := mkFragment 7 off more.
Definition example_view (off : N) (more : bool) (len : N) (ports : option (N * N)) : ParsedPacket :=
  mkParsedPacket (V4 0x0a000001) (V4 0x0a000002) UDP (fst <$> ports) (snd <$> ports) None None
    (Some (example_frag off more)) len None.

Example reassembles_out_of_order :
  (push example_first 12 example_half).2 =
  Ok (Complete (mkDatagram example_udp [example_first; example_second])).
Proof. vm_compute. reflexivity. Qed.
Example expired_set_restarts : (push example_first 25 example_half).2 = Ok Pending.
Proof. vm_compute. reflexivity. Qed.

Lemma example_start_wf : ra_wf example_start.
Proof. by apply (reassembler_new_wf 4096 65536 15). Qed.
Lemma example_half_wf : ra_wf example_half.
Proof. apply push_wf, example_start_wf. Qed.

Lemma reassembler_invariant_witness :
  65536 < USIZE_MAX /\ ra_wf (run_pushes example_start [(example_second, 10); (example_first, 12)]).
Proof.
  split; [vm_compute; reflexivity|].
  refine (proj1 (reassembler_invariant 4096 65536 15 example_start _ _ _)); vm_compute; reflexivity.
Defined.

Lemma complete_is_exact_witness :
  exists header body, example_udp = header ++ body /\ lenN body = 13 /\
    exists o g f' dec, fragment_of (reassembly_key (example_view 0 true 28 (Some (1000, 53))) (example_frag 0 true)) o g f' dec /\
      more f' = false /\ o + payload_len g = 13.
Proof.
  destruct (complete_is_exact 4096 65536 15 example_start [(example_second, 10)] example_first 12 (push example_first 12 example_half).1
    (mkDatagram example_udp [example_first; example_second])
    (example_view 0 true 28 (Some (1000, 53))) (example_frag 0 true)) as (d & h & b & Hdec & Hrest);
    [vm_compute; reflexivity|vm_compute; reflexivity|vm_compute; reflexivity|reflexivity|by right|vm_compute; reflexivity|].
  cbn zeta in Hrest. destruct Hrest as (Hd & _ & Hlen & _ & (o & g & f' & dec & _ & Hfo & Hm & Hend) & _). exists h, b. split; [exact Hd|].
  assert (Hb : lenN b = 13) by (rewrite Hlen; vm_compute in Hdec; injection Hdec as <-; vm_compute; reflexivity).
  split; [exact Hb|]. exists o, g, f', dec. rewrite Hb in Hend. exact (conj Hfo (conj Hm Hend)).
Defined.

Lemma overlap_discards_set_witness :
  exists e, (push example_second 12 example_half).2 = Err e.
Proof.
  destruct (overlap_discards_set example_second 12 example_half
    (push example_second 12 example_half).1 (push example_second 12 example_half).2
    (example_view 1 false 25 None) (example_frag 1 false)
    (mkDecoded (TIpv4 []) (drop 20 example_second)) 8
    (mkStored (drop 20 example_second) example_second)
    example_half_wf) as (e & He & _);
    [vm_compute; reflexivity|reflexivity|by left|vm_compute; reflexivity|vm_compute; reflexivity
    |split; vm_compute; reflexivity|apply surjective_pairing|].
  exists e. exact He.
Defined.

Lemma assembled_header_kept_witness :
  exists header, example_udp = header ++ drop 20 example_udp /\ lenN header = 20.
Proof.
  destruct (assembled_header_kept
    (mkSet (V4 0x0a000001) 25 66 13 (Some (TIpv4 (take 20 example_first))) (Some 13)
       (<[0 := mkStored (drop 20 example_first) example_first]>
          (<[8 := mkStored (drop 20 example_second) example_second]> ∅)))
    (mkDatagram example_udp [example_first; example_second]) (take 20 example_first))
    as (h & Hd & Hl & _); [vm_compute; reflexivity..|].
  exists h. split; [exact Hd|]. rewrite Hl. vm_compute. reflexivity.
Defined.

Lemma expire_exact_witness :
  exists self' count, expire 25 example_half = Some (self', count) /\ count = 1.
Proof.
  destruct (expire_exact 25 example_half example_half_wf) as (self' & n & He & _ & _).
  exists self', n. split; [exact He|]. vm_compute in He. by injection He as _ <-.
Defined.

End examples.

End Ra.
