(* ===== verification/PolicyDoc.v ===== *)
(** * Ordered policy (crate [peerward-policy], document.rs: data and evaluation)

    A [String] is its UTF-8 bytes; a label map is a [gmap] on them.  [IpNet] is
    the class of Net.v.  [sort_unstable] and [sort_by_key] are the stable sort of
    Ordered.v: for [sort_unstable] equal elements are identical, so stability is
    not observable. *)

From S2P Require Import Prelude Ordered Net.
From Stdlib Require Import NArith ZArith Lia Strings.Byte Sorting.Sorted.
From stdpp Require Import base tactics decidable countable numbers list gmap.
Set Default Goal Selector "!".
Local Open Scope N_scope.

Module Pol.

(** ** Data *)

Inductive PolicyError := InvalidPortRange | RevisionRollback | InvalidEncoding.
#[export] Instance PolicyError_eq_dec : EqDecision PolicyError.
Proof. solve_decision. Defined.

Inductive Action := Allow | Deny.
#[export] Instance Action_eq_dec : EqDecision Action.
Proof. solve_decision. Defined.

Definition Text : Type := list byte.

Record PeerDescriptor := mkPeer {
  peer_id : PeerId;
  peer_address : IpAddr;
  peer_labels : gmap Text Text;
}.

Record Selector `{IpNetLib} := mkSelector {
  peer_ids : gset PeerId;
  labels : gmap Text Text;
  cidrs : list IpNet;
}.

(** [PortRange(first..=last)] *)
Record PortRange := mkPortRange { port_first : N; port_last : N }.
#[export] Instance PortRange_eq_dec : EqDecision PortRange.
Proof. solve_decision. Defined.
Definition port_key (p : PortRange) : N * N := (port_first p, port_last p).

Record Rule `{IpNetLib} := mkRule {
  rule_id : RuleId;
  priority : N;
  enabled : bool;
  log : bool;
  rule_action : Action;
  rule_source : Selector;
  rule_destination : Selector;
  rule_protocol : PolicyProtocol;
  destination_ports : list PortRange;
}.

Record PolicyDecision := mkPolicyDecision {
  pd_action : Action;
  pd_rule_id : option RuleId;
  pd_log : bool;
}.

Record Policy `{IpNetLib} := mkPolicy {
  revision : N;
  default_action : Action;
  rules : list Rule;
}.

Arguments mkSelector {_} _ _ _.
Arguments mkRule {_} _ _ _ _ _ _ _ _ _.
Arguments mkPolicy {_} _ _ _.

(** ** Operations *)

(** [Vec::dedup]: drop elements equal to their predecessor. *)
Fixpoint dedup {A} `{EqDecision A} (l : list A) : list A :=
  match l with
  | [] => []
  | x :: l' => match dedup l' with
               | [] => [x]
               | y :: l'' => if decide (x = y) then y :: l'' else x :: y :: l''
               end
  end.

Definition port_range_new (first last : N) : outcome PolicyError PortRange :=
  if (first =? 0) || (last <? first) then Err InvalidPortRange else Ok (mkPortRange first last).
Definition port_contains (self : PortRange) (port : N) : bool :=
  (port_first self <=? port) && (port <=? port_last self).

Definition action_order (a : Action) : N := match a with Deny => 0 | Allow => 1 end.

Section policy.
Context `{IpNetLib}.

(** [cidrs.sort_unstable(); cidrs.dedup()] *)
Definition canonical_cidrs (l : list IpNet) : list IpNet := dedup (sort_by_key id l).
(** [ports.sort_by_key(|p| (p.first(), p.last())); ports.dedup()] *)
Definition canonical_ports (l : list PortRange) : list PortRange := dedup (sort_by_key port_key l).

Definition selector_any : Selector := mkSelector ∅ ∅ [].
Definition selector_peer (peer : PeerId) : Selector := mkSelector {[peer]} ∅ [].
Definition selector_labels (l : gmap Text Text) : Selector := mkSelector ∅ l [].
Definition selector_cidr (network : IpNet) : Selector := mkSelector ∅ ∅ [network].
Definition selector_new (peers : gset PeerId) (l : gmap Text Text) (nets : list IpNet) : Selector :=
  mkSelector peers l (canonical_cidrs nets).

Definition selector_matches (self : Selector) (peer : PeerDescriptor) : bool :=
  (bool_decide (peer_ids self = ∅) || bool_decide (peer_id peer ∈ peer_ids self))
  && forallb (fun '(key, value) => bool_decide (peer_labels peer !! key = Some value))
       (map_to_list (labels self))
  && (match cidrs self with [] => true | _ => false end
      || existsb (fun network => net_contains network (peer_address peer)) (cidrs self)).

Definition canonical_selector (s : Selector) : Selector :=
  mkSelector (peer_ids s) (labels s) (canonical_cidrs (cidrs s)).
Definition canonical_rule (r : Rule) : Rule :=
  mkRule (rule_id r) (priority r) (enabled r) (log r) (rule_action r)
    (canonical_selector (rule_source r)) (canonical_selector (rule_destination r))
    (rule_protocol r) (canonical_ports (destination_ports r)).
Definition rule_key (r : Rule) : N * (N * RuleId) :=
  (priority r, (action_order (rule_action r), rule_id r)).

Definition policy_new (revision : N) (default : Action) (rules : list Rule) : Policy :=
  mkPolicy revision default (sort_by_key rule_key (canonical_rule <$> rules)).

(** The body of the loop: does this rule decide? *)
Definition rule_applies (r : Rule) (source destination : PeerDescriptor) (protocol : IpProtocol)
    (destination_port : option N) : bool :=
  if negb (enabled r) || negb (policy_protocol_matches (rule_protocol r) protocol)
     || negb (selector_matches (rule_source r) source)
     || negb (selector_matches (rule_destination r) destination)
  then false
  else match rule_protocol r with
       | PTcp | PUdp =>
           match destination_ports r with [] => true | _ => false end
           || match destination_port with
              | Some port => existsb (fun range => port_contains range port) (destination_ports r)
              | None => false
              end
       | PAny | PIcmp => true
       end.
Fixpoint decide_rules (l : list Rule) (default : Action) (source destination : PeerDescriptor)
    (protocol : IpProtocol) (destination_port : option N) : PolicyDecision :=
  match l with
  | [] => mkPolicyDecision default None false
  | r :: l' =>
      if rule_applies r source destination protocol destination_port
      then mkPolicyDecision (rule_action r) (Some (rule_id r)) (log r)
      else decide_rules l' default source destination protocol destination_port
  end.
Definition decide_initiation (self : Policy) (source destination : PeerDescriptor)
    (protocol : IpProtocol) (destination_port : option N) : PolicyDecision :=
  decide_rules (rules self) (default_action self) source destination protocol destination_port.
End policy.

(** ** [dedup] *)

Section dedup.
Context {A} `{EqDecision A}.
Implicit Types l : list A.

Lemma elem_of_dedup x l : x ∈ dedup l <-> x ∈ l.
Proof.
  induction l as [|y l IH]; cbn; [done|].
  destruct (dedup l) as [|z k] eqn:Hd.
  - assert (forall a, a ∉ l).
    { intros a Ha. destruct l as [|b l']; [by apply not_elem_of_nil in Ha|].
      cbn in Hd. destruct (dedup l') as [|c k']; [done|]. by case_decide. }
    set_solver.
  - case_decide as Heq; [subst z|]; rewrite !elem_of_cons; rewrite elem_of_cons in IH; naive_solver.
Qed.

(** No two neighbours are equal. *)
Fixpoint no_repeat l : Prop :=
  match l with
  | x :: (y :: _) as l' => x <> y /\ no_repeat l'
  | _ => True
  end.
Lemma dedup_no_repeat l : no_repeat (dedup l).
Proof.
  induction l as [|x l IH]; cbn; [done|]. destruct (dedup l) as [|y k]; [done|].
  by case_decide.
Qed.
Lemma dedup_id l : no_repeat l -> dedup l = l.
Proof.
  induction l as [|x l IH]; [done|]. destruct l as [|y l]; [done|]. intros [Hne Hr].
  cbn [dedup]. cbn [dedup] in IH. rewrite (IH Hr). by rewrite decide_False.
Qed.
Lemma dedup_sublist l : dedup l `sublist_of` l.
Proof.
  induction l as [|x l IH]; cbn; [done|]. destruct (dedup l) as [|y k]; [|case_decide].
  - by apply sublist_skip.
  - by apply sublist_cons.
  - by apply sublist_skip.
Qed.
Lemma StronglySorted_sublist (R : A -> A -> Prop) l k :
  l `sublist_of` k -> StronglySorted R k -> StronglySorted R l.
Proof.
  induction 1 as [|x l k Hs IH|x l k Hs IH]; intros Hk; [done|..];
    apply StronglySorted_inv in Hk as [Hk Hall]; [|auto].
  constructor; [auto|]. rewrite Forall_forall in *. intros y Hy. apply Hall.
  by eapply elem_of_sublist.
Qed.

(** Sorting and deduplicating twice changes nothing more. *)
Lemma sort_dedup_id {K} `{CompareLaws K} (key : A -> K) l :
  StronglySorted (key_le key) l -> no_repeat l -> dedup (sort_by_key key l) = l.
Proof. intros Hs Hr. by rewrite sort_by_key_id, dedup_id. Qed.
Lemma sort_dedup_sorted {K} `{CompareLaws K} (key : A -> K) l :
  StronglySorted (key_le key) (dedup (sort_by_key key l)).
Proof. eapply StronglySorted_sublist; [apply dedup_sublist|apply sort_by_key_sorted]. Qed.
Lemma sort_dedup_idemp {K} `{CompareLaws K} (key : A -> K) l :
  dedup (sort_by_key key (dedup (sort_by_key key l))) = dedup (sort_by_key key l).
Proof. apply sort_dedup_id; [apply sort_dedup_sorted|apply dedup_no_repeat]. Qed.
Lemma elem_of_sort_dedup {K} `{CompareLaws K} (key : A -> K) x l :
  x ∈ dedup (sort_by_key key l) <-> x ∈ l.
Proof. by rewrite elem_of_dedup, elem_of_sort_by_key. Qed.
End dedup.

(** ** Evaluation *)

Section evaluation.
Context `{IpNetLib}.
Implicit Types (r : Rule) (p : Policy) (s : Selector).

Lemma canonical_rule_idemp r : canonical_rule (canonical_rule r) = canonical_rule r.
Proof.
  unfold canonical_rule, canonical_selector, canonical_ports, canonical_cidrs;
    cbn -[sort_by_key dedup].
  by rewrite !sort_dedup_idemp.
Qed.

(** Rules that [Policy::new] leaves as they are. *)
Definition policy_canonical p : Prop :=
  StronglySorted (key_le rule_key) (rules p) /\ forall r, r ∈ rules p -> canonical_rule r = r.

Lemma policy_new_canonical rev d l : policy_canonical (policy_new rev d l).
Proof.
  split; [apply sort_by_key_sorted|]. intros r Hr. cbn in Hr.
  apply elem_of_sort_by_key, list_elem_of_fmap in Hr as (r0 & -> & _). apply canonical_rule_idemp.
Qed.
Lemma policy_new_id p : policy_canonical p -> policy_new (revision p) (default_action p) (rules p) = p.
Proof.
  intros [Hs Hc]. destruct p as [rev d l]; cbn in *. unfold policy_new. f_equal.
  assert (canonical_rule <$> l = l) as ->; [|by apply sort_by_key_id].
  clear Hs. induction l as [|r l IH]; [done|]. rewrite fmap_cons. f_equal.
  - apply Hc. by left.
  - apply IH. intros r' Hr'. apply Hc. by right.
Qed.

Lemma existsb_elem_of {A} (f : A -> bool) l : existsb f l = true <-> exists x, x ∈ l /\ f x = true.
Proof.
  rewrite existsb_exists. split; intros (x & Hx & Hf); exists x; (split; [|done]);
    by apply list_elem_of_In.
Qed.
Lemma existsb_same {A} (f : A -> bool) l k :
  (forall x, x ∈ l <-> x ∈ k) -> existsb f l = existsb f k.
Proof.
  intros Hlk. apply eq_true_iff_eq. rewrite !existsb_elem_of. naive_solver.
Qed.
Lemma is_nil_same {A} (l k : list A) :
  (forall x, x ∈ l <-> x ∈ k) ->
  match l with [] => true | _ => false end = match k with [] => true | _ => false end.
Proof.
  intros Hlk. destruct l as [|x l], k as [|y k]; try done.
  - specialize (Hlk y). set_solver.
  - specialize (Hlk x). set_solver.
Qed.

(** Canonicalising a rule does not change what it matches. *)
Lemma canonical_selector_matches s peer :
  selector_matches (canonical_selector s) peer = selector_matches s peer.
Proof.
  unfold selector_matches; cbn [canonical_selector peer_ids labels cidrs].
  assert (Hsame : forall x, x ∈ canonical_cidrs (cidrs s) <-> x ∈ cidrs s)
    by (intros; apply elem_of_sort_dedup).
  by rewrite (existsb_same _ _ _ Hsame), (is_nil_same _ _ Hsame).
Qed.
Lemma canonical_rule_applies r src dst proto port :
  rule_applies (canonical_rule r) src dst proto port = rule_applies r src dst proto port.
Proof.
  unfold rule_applies; cbn [canonical_rule enabled rule_protocol rule_source rule_destination
    destination_ports]. rewrite !canonical_selector_matches.
  assert (Hsame : forall x, x ∈ canonical_ports (destination_ports r) <-> x ∈ destination_ports r)
    by (intros; apply elem_of_sort_dedup).
  rewrite (is_nil_same _ _ Hsame).
  destruct port; [by rewrite (existsb_same _ _ _ Hsame)|done].
Qed.

Lemma decide_rules_find l d src dst proto port :
  decide_rules l d src dst proto port =
  match find (fun r => rule_applies r src dst proto port) l with
  | Some r => mkPolicyDecision (rule_action r) (Some (rule_id r)) (log r)
  | None => mkPolicyDecision d None false
  end.
Proof. induction l as [|r l IH]; cbn; [done|]. by destruct (rule_applies r _ _ _ _). Qed.

Lemma rule_key_canonical r : rule_key (canonical_rule r) = rule_key r.
Proof. done. Qed.

(** The decision is the one of the applicable rule that comes first by
    priority, then deny before allow, then rule identity, among the rules as
    they were given; without an applicable rule it is the default. *)
Theorem decision_is_first_applicable rev d l src dst proto port :
  let decision := decide_initiation (policy_new rev d l) src dst proto port in
  let applies r := rule_applies r src dst proto port in
  (decision = mkPolicyDecision d None false /\ forall r, r ∈ l -> applies r = false) \/
  exists r, r ∈ l /\ applies r = true /\
    decision = mkPolicyDecision (rule_action r) (Some (rule_id r)) (log r) /\
    forall r', r' ∈ l -> applies r' = true -> leb_of (rule_key r) (rule_key r') = true.
Proof.
  cbn zeta. unfold decide_initiation. rewrite decide_rules_find. cbn [policy_new rules].
  destruct (find _ _) as [r|] eqn:Hfind.
  - right. apply find_sort_by_key in Hfind as (l1 & l2 & Hl & Hm & _ & Hmin).
    assert (Hin : r ∈ canonical_rule <$> l) by (rewrite Hl; set_solver).
    apply list_elem_of_fmap in Hin as (r0 & -> & Hr0). exists r0.
    rewrite canonical_rule_applies in Hm. split_and!; try done.
    intros r' Hr' Happ. specialize (Hmin (canonical_rule r')).
    rewrite canonical_rule_applies in Hmin. apply Hmin; [|done]. by apply list_elem_of_fmap_2.
  - left. split; [done|]. intros r Hr.
    eapply find_sort_by_key_None in Hfind; [|by apply list_elem_of_fmap_2].
    by rewrite canonical_rule_applies in Hfind.
Qed.

(** C34: Rules with distinct identities make the same policy in whatever order
    they are supplied. *)
Theorem policy_order_independent rev d l k :
  NoDup (rule_id <$> l) -> l ≡ₚ k -> policy_new rev d l = policy_new rev d k.
Proof.
  intros Hnd Hp. unfold policy_new. f_equal. apply (sorted_perm_unique rule_key).
  - rewrite sort_by_key_perm, <- list_fmap_compose.
    eapply (NoDup_fmap_1 (fun key : N * (N * RuleId) => key.2.2)).
    by rewrite <- list_fmap_compose.
  - apply sort_by_key_sorted.
  - apply sort_by_key_sorted.
  - rewrite !sort_by_key_perm. by rewrite Hp.
Qed.
End evaluation.

(** ** Examples *)

Section examples.
#[local] Existing Instance ipnet_prefix.

(** A version 4, RFC 4122 identifier. *)
Definition example_id (n : N) : DomainId := mkDomainId (N.shiftl 4 76 + N.shiftl 2 62 + n).
(** 10.0.0.0/8 *)
Definition example_net : IpNet := inl (0x0a000000, 8).
Definition example_rule (n prio : N) (a : Action) : Rule :=
  mkRule (example_id n) prio true false a
    (mkSelector {[example_id 9]} {[ [x61] := [x62] ]} [example_net]) selector_any PTcp
    [mkPortRange 80 443].
Definition example_policy : Policy :=
  policy_new 3 Deny [example_rule 1 5 Allow; example_rule 2 5 Deny].
Definition example_peer : PeerDescriptor :=
  mkPeer (example_id 9) (V4 0x0a000001) {[ [x61] := [x62] ]}.

Example deny_wins_ties :
  decide_initiation example_policy example_peer example_peer Net.TCP (Some 80) =
  mkPolicyDecision Deny (Some (example_id 2)) false.
Proof. vm_compute. reflexivity. Qed.

Lemma policy_order_independent_witness :
  policy_new 3 Deny [example_rule 1 5 Allow; example_rule 2 5 Deny] =
  policy_new 3 Deny [example_rule 2 5 Deny; example_rule 1 5 Allow].
Proof.
  refine (policy_order_independent 3 Deny _ _ _ (perm_swap _ _ _)).
  apply (bool_decide_unpack _). vm_compute. exact I.
Defined.
End examples.

End Pol.
