(* ===== verification/PolicyCodec.v ===== *)
(** * The canonical policy document (crate [peerward-policy], document.rs: codec)

    [encode_policy_document] and [decode_policy_document] with the cursor
    [Decoder].  Byte vectors grow by appending, as in the code; every [?] is a
    bind of the outcome monad; slices that could abort can do so in the model. *)

From Stdlib Require Import NArith ZArith Lia Strings.String Strings.Byte Sorting.Sorted.
From stdpp Require Import base tactics decidable countable numbers list gmap.
From S2P Require Import Prelude Ordered Net PolicyDoc.
Import Pol.
Set Default Goal Selector "!".
Local Open Scope N_scope.

Module Codec.

Definition MAX_LABELS : N := 64.
Definition MAX_POLICY_RULES : N := 1024.
Definition MAX_SELECTOR_PEERS : N := 1024.
Definition MAX_SELECTOR_CIDRS : N := 256.
Definition MAX_PORT_SPANS : N := 256.
Definition POLICY_DOCUMENT_DOMAIN : list byte :=
  list_byte_of_string "peerward/policy-document/v2"%string ++ [x00].

(** [std::str::from_utf8]: the well-formed byte sequences of the Unicode
    standard. *)
Definition within (lo hi : N) (b : byte) : bool := (lo <=? u8 b) && (u8 b <=? hi).
Fixpoint utf8_valid (bs : list byte) : bool :=
  match bs with
  | [] => true
  | b0 :: r0 =>
      if u8 b0 <? 0x80 then utf8_valid r0
      else if within 0xc2 0xdf b0 then
        match r0 with
        | b1 :: r1 => within 0x80 0xbf b1 && utf8_valid r1
        | _ => false
        end
      else if within 0xe0 0xef b0 then
        match r0 with
        | b1 :: b2 :: r2 =>
            within (if u8 b0 =? 0xe0 then 0xa0 else 0x80) (if u8 b0 =? 0xed then 0x9f else 0xbf) b1
            && within 0x80 0xbf b2 && utf8_valid r2
        | _ => false
        end
      else if within 0xf0 0xf4 b0 then
        match r0 with
        | b1 :: b2 :: b3 :: r3 =>
            within (if u8 b0 =? 0xf0 then 0x90 else 0x80) (if u8 b0 =? 0xf4 then 0x8f else 0xbf) b1
            && within 0x80 0xbf b2 && within 0x80 0xbf b3 && utf8_valid r3
        | _ => false
        end
      else false
  end.

(** ** Tags *)

Definition action_tag (a : Action) : byte := match a with Allow => x01 | Deny => x02 end.
Definition decode_action (tag : byte) : outcome PolicyError Action :=
  if u8 tag =? 1 then Ok Allow else if u8 tag =? 2 then Ok Deny else Err InvalidEncoding.
Definition protocol_tag (p : PolicyProtocol) : byte :=
  byte_of match p with PAny => 0 | PTcp => 6 | PUdp => 17 | PIcmp => 1 end.
Definition decode_protocol (tag : byte) : outcome PolicyError PolicyProtocol :=
  if u8 tag =? 0 then Ok PAny else if u8 tag =? 6 then Ok PTcp
  else if u8 tag =? 17 then Ok PUdp else if u8 tag =? 1 then Ok PIcmp
  else Err InvalidEncoding.
Definition bool_tag (b : bool) : byte := if b then x01 else x00.

(** ** Encoding *)

Definition put_u32 (bytes : list byte) (value : N) : outcome PolicyError (list byte) :=
  if value <=? U32_MAX then Ok (bytes ++ to_be 4 value) else Err InvalidEncoding.
Definition put_text (bytes value : list byte) : outcome PolicyError (list byte) :=
  bytes ← put_u32 bytes (lenN value);
  Ok (bytes ++ value).

Section codec.
Context `{IpNetLib} `{UuidLib}.

Definition put_label (bytes : list byte) (entry : Text * Text) : outcome PolicyError (list byte) :=
  let '(key, value) := entry in
  if lenN key =? 0 then Err InvalidEncoding else
  bytes ← put_text bytes key;
  put_text bytes value.
Definition put_network (bytes : list byte) (network : IpNet) : list byte :=
  match network with
  | inl n => bytes ++ [x04] ++ v4_octets (v4net_network n) ++ [byte_of (v4net_prefix_len n)]
  | inr n => bytes ++ [x06] ++ v6_octets (v6net_network n) ++ [byte_of (v6net_prefix_len n)]
  end.

Definition label_refused (entry : Text * Text) : bool :=
  let '(key, value) := entry in
  (lenN key =? 0) || (64 <? lenN key) || (lenN value =? 0) || (256 <? lenN value).

Definition encode_selector (bytes : list byte) (selector : Selector) : outcome PolicyError (list byte) :=
  if (MAX_SELECTOR_PEERS <? N.of_nat (size (peer_ids selector)))
     || (MAX_LABELS <? N.of_nat (size (labels selector)))
     || (MAX_SELECTOR_CIDRS <? lenN (cidrs selector))
     || existsb label_refused (bt_entries (labels selector))
  then Err InvalidEncoding else
  bytes ← put_u32 bytes (N.of_nat (size (peer_ids selector)));
  let bytes := foldl (fun bytes peer => bytes ++ id_bytes peer) bytes (bt_elements (peer_ids selector)) in
  bytes ← put_u32 bytes (N.of_nat (size (labels selector)));
  bytes ← foldM put_label bytes (bt_entries (labels selector));
  bytes ← put_u32 bytes (lenN (cidrs selector));
  Ok (foldl put_network bytes (cidrs selector)).

Definition put_ports (bytes : list byte) (ports : PortRange) : list byte :=
  bytes ++ to_be 2 (port_first ports) ++ to_be 2 (port_last ports).

(** One round of the loop over the rules; the state is the bytes and the
    identities seen. *)
Definition encode_rule (state : list byte * gset RuleId) (rule : Rule)
    : outcome PolicyError (list byte * gset RuleId) :=
  let '(bytes, ids) := state in
  if bool_decide (rule_id rule ∈ ids)
     || (match rule_protocol rule with PAny | PIcmp => true | _ => false end
         && match destination_ports rule with [] => false | _ => true end)
  then Err InvalidEncoding else
  let bytes := bytes ++ id_bytes (rule_id rule) ++ to_be 4 (priority rule)
    ++ [bool_tag (enabled rule); bool_tag (log rule); action_tag (rule_action rule)] in
  bytes ← encode_selector bytes (rule_source rule);
  bytes ← encode_selector bytes (rule_destination rule);
  if MAX_PORT_SPANS <? lenN (destination_ports rule) then Err InvalidEncoding else
  bytes ← put_u32 (bytes ++ [protocol_tag (rule_protocol rule)]) (lenN (destination_ports rule));
  Ok (foldl put_ports bytes (destination_ports rule), {[rule_id rule]} ∪ ids).

Definition encode_policy_document (policy : Policy) : outcome PolicyError (list byte) :=
  if MAX_POLICY_RULES <? lenN (rules policy) then Err InvalidEncoding else
  bytes ← put_u32 (POLICY_DOCUMENT_DOMAIN ++ [action_tag (default_action policy)])
            (lenN (rules policy));
  '(bytes, _) ← foldM encode_rule (bytes, ∅) (rules policy);
  Ok bytes.

(** ** The cursor decoder *)

Record Decoder := mkDecoder { d_bytes : list byte; cursor : N }.
Definition decoder_new (bytes : list byte) : Decoder := mkDecoder bytes 0.

Definition d_take (length : N) (self : Decoder) : outcome PolicyError (list byte * Decoder) :=
  fin ← ok_or (match checked_add (cursor self) length with
               | Some fin => if fin <=? lenN (d_bytes self) then Some fin else None
               | None => None
               end) InvalidEncoding;
  value ← slice (d_bytes self) (cursor self) fin;
  Ok (value, mkDecoder (d_bytes self) fin).
Definition d_array (n : N) (self : Decoder) : outcome PolicyError (list byte * Decoder) :=
  '(value, self) ← d_take n self;
  if lenN value =? n then Ok (value, self) else Err InvalidEncoding.
Definition d_byte (self : Decoder) : outcome PolicyError (byte * Decoder) :=
  '(value, self) ← d_array 1 self;
  b ← index value 0;
  Ok (b, self).
Definition d_boolean (self : Decoder) : outcome PolicyError (bool * Decoder) :=
  '(b, self) ← d_byte self;
  if u8 b =? 0 then Ok (false, self) else if u8 b =? 1 then Ok (true, self)
  else Err InvalidEncoding.
Definition d_u16 (self : Decoder) : outcome PolicyError (N * Decoder) :=
  '(value, self) ← d_array 2 self; Ok (from_be value, self).
Definition d_u32 (self : Decoder) : outcome PolicyError (N * Decoder) :=
  '(value, self) ← d_array 4 self; Ok (from_be value, self).
Definition d_count (self : Decoder) : outcome PolicyError (N * Decoder) :=
  '(count, self) ← d_u32 self;
  if count <=? lenN (d_bytes self) - cursor self then Ok (count, self) else Err InvalidEncoding.
Definition d_text (self : Decoder) : outcome PolicyError (Text * Decoder) :=
  '(length, self) ← d_count self;
  '(value, self) ← d_take length self;
  if utf8_valid value then Ok (value, self) else Err InvalidEncoding.
Definition d_finished (self : Decoder) : bool := cursor self =? lenN (d_bytes self).

(** ** Decoding *)

Definition d_id (self : Decoder) : outcome PolicyError (DomainId * Decoder) :=
  '(value, self) ← d_array 16 self;
  id ← ok_or (from_uuid (from_be value)) InvalidEncoding;
  Ok (id, self).

Definition decode_peer (state : gset PeerId * Decoder) : outcome PolicyError (gset PeerId * Decoder) :=
  let '(peer_ids, decoder) := state in
  '(peer, decoder) ← d_id decoder;
  if bool_decide (peer ∈ peer_ids) then Err InvalidEncoding
  else Ok ({[peer]} ∪ peer_ids, decoder).
Definition decode_label (state : gmap Text Text * Decoder)
    : outcome PolicyError (gmap Text Text * Decoder) :=
  let '(labels, decoder) := state in
  '(key, decoder) ← d_text decoder;
  '(value, decoder) ← d_text decoder;
  if label_refused (key, value) || match labels !! key with Some _ => true | None => false end
  then Err InvalidEncoding
  else Ok (<[key := value]> labels, decoder).
Definition decode_network (state : list IpNet * Decoder) : outcome PolicyError (list IpNet * Decoder) :=
  let '(cidrs, decoder) := state in
  '(tag, decoder) ← d_byte decoder;
  '(network, decoder) ←
    (if u8 tag =? 4 then
       '(address, decoder) ← d_array 4 decoder;
       '(prefix, decoder) ← d_byte decoder;
       network ← ok_or (v4net_new (from_be address) (u8 prefix)) InvalidEncoding;
       Ok (inl network : IpNet, decoder)
     else if u8 tag =? 6 then
       '(address, decoder) ← d_array 16 decoder;
       '(prefix, decoder) ← d_byte decoder;
       network ← ok_or (v6net_new (from_be address) (u8 prefix)) InvalidEncoding;
       Ok (inr network : IpNet, decoder)
     else Err InvalidEncoding);
  Ok (cidrs ++ [network], decoder).

Definition decode_selector (decoder : Decoder) : outcome PolicyError (Selector * Decoder) :=
  '(peer_count, decoder) ← d_count decoder;
  if MAX_SELECTOR_PEERS <? peer_count then Err InvalidEncoding else
  '(peer_ids, decoder) ← for_n (N.to_nat peer_count) decode_peer (∅, decoder);
  '(label_count, decoder) ← d_count decoder;
  if MAX_LABELS <? label_count then Err InvalidEncoding else
  '(labels, decoder) ← for_n (N.to_nat label_count) decode_label (∅, decoder);
  '(cidr_count, decoder) ← d_count decoder;
  if MAX_SELECTOR_CIDRS <? cidr_count then Err InvalidEncoding else
  '(cidrs, decoder) ← for_n (N.to_nat cidr_count) decode_network ([], decoder);
  Ok (selector_new peer_ids labels cidrs, decoder).

Definition decode_ports (state : list PortRange * Decoder)
    : outcome PolicyError (list PortRange * Decoder) :=
  let '(ports, decoder) := state in
  '(first, decoder) ← d_u16 decoder;
  '(last, decoder) ← d_u16 decoder;
  range ← port_range_new first last;
  Ok (ports ++ [range], decoder).

Definition decode_rule (state : list Rule * Decoder) : outcome PolicyError (list Rule * Decoder) :=
  let '(rules, decoder) := state in
  '(id, decoder) ← d_id decoder;
  '(priority, decoder) ← d_u32 decoder;
  '(enabled, decoder) ← d_boolean decoder;
  '(log, decoder) ← d_boolean decoder;
  '(action, decoder) ← d_byte decoder;
  action ← decode_action action;
  '(source, decoder) ← decode_selector decoder;
  '(destination, decoder) ← decode_selector decoder;
  '(protocol, decoder) ← d_byte decoder;
  protocol ← decode_protocol protocol;
  '(range_count, decoder) ← d_count decoder;
  if MAX_PORT_SPANS <? range_count then Err InvalidEncoding else
  '(ports, decoder) ← for_n (N.to_nat range_count) decode_ports ([], decoder);
  Ok (rules ++ [mkRule id priority enabled log action source destination protocol ports], decoder).

Definition strip_prefix (prefix bytes : list byte) : option (list byte) :=
  if decide (take (length prefix) bytes = prefix) then Some (drop (length prefix) bytes) else None.

Definition decode_policy_document (revision : N) (bytes : list byte) : outcome PolicyError Policy :=
  body ← ok_or (strip_prefix POLICY_DOCUMENT_DOMAIN bytes) InvalidEncoding;
  let decoder := decoder_new body in
  '(tag, decoder) ← d_byte decoder;
  default ← decode_action tag;
  '(count, decoder) ← d_count decoder;
  if MAX_POLICY_RULES <? count then Err InvalidEncoding else
  '(rules, decoder) ← for_n (N.to_nat count) decode_rule ([], decoder);
  if negb (d_finished decoder) then Err InvalidEncoding else
  let policy := policy_new revision default rules in
  encoded ← encode_policy_document policy;
  if decide (encoded = bytes) then Ok policy else Err InvalidEncoding.
End codec.

(** ** Reading back what was written *)

Section reading.
Context `{IpNetLib} `{UuidLib}.
(** The whole buffer; a decoder that still has [rest] to read. *)
Context (B : list byte) (B_len : lenN B <= USIZE_MAX).
Definition dec (rest : list byte) : Decoder := mkDecoder B (lenN B - lenN rest).

Lemma suffix_rest (x rest : list byte) : (x ++ rest) `suffix_of` B -> rest `suffix_of` B.
Proof. clear B_len. intros [k Hk]. exists (k ++ x). by rewrite Hk, (assoc_L (++)). Qed.
Lemma suffix_lenN (x : list byte) : x `suffix_of` B -> lenN x <= lenN B.
Proof. intros Hs%suffix_length. unfold lenN. lia. Qed.

Lemma d_take_dec x rest :
  (x ++ rest) `suffix_of` B -> d_take (lenN x) (dec (x ++ rest)) = Ok (x, dec rest).
Proof.
  intros Hs. pose proof (suffix_lenN _ Hs) as Hle. rewrite lenN_app in Hle.
  unfold d_take, dec; cbn [cursor d_bytes]. rewrite lenN_app.
  replace (lenN B - (lenN x + lenN rest) + lenN x) with (lenN B - lenN rest) by lia.
  unfold checked_add. replace (lenN B - (lenN x + lenN rest) + lenN x) with (lenN B - lenN rest) by lia.
  unfold USIZE_MAX in B_len.
  destruct (N.leb_spec (lenN B - lenN rest) U64_MAX); [|lia].
  destruct (N.leb_spec (lenN B - lenN rest) (lenN B)); [|lia]. cbn [ok_or mbind outcome_bind].
  destruct Hs as [pre ->]. rewrite !lenN_app in *. unfold slice. rewrite !lenN_app.
  destruct (N.leb_spec (lenN pre + (lenN x + lenN rest) - (lenN x + lenN rest))
    (lenN pre + (lenN x + lenN rest) - lenN rest)); [|lia].
  destruct (N.leb_spec (lenN pre + (lenN x + lenN rest) - lenN rest)
    (lenN pre + (lenN x + lenN rest))); [|lia]. cbn [andb mbind outcome_bind].
  do 2 f_equal. unfold lenN.
  rewrite skipn_app, skipn_all2 by lia. cbn [app].
  match goal with |- take ?a (drop ?b _) = _ =>
    replace b with 0%nat by lia; replace a with (length x) by lia end.
  by rewrite drop_0, take_app_length.
Qed.

Lemma d_array_dec x rest n :
  lenN x = n -> (x ++ rest) `suffix_of` B -> d_array n (dec (x ++ rest)) = Ok (x, dec rest).
Proof.
  intros <- Hs. unfold d_array. rewrite d_take_dec by done. cbn [mbind outcome_bind].
  by rewrite N.eqb_refl.
Qed.
Lemma d_byte_dec b rest : (b :: rest) `suffix_of` B -> d_byte (dec (b :: rest)) = Ok (b, dec rest).
Proof.
  intros Hs. unfold d_byte. change (b :: rest) with ([b] ++ rest) in *.
  by rewrite (d_array_dec [b] rest 1).
Qed.
Lemma d_boolean_dec b rest :
  (bool_tag b :: rest) `suffix_of` B -> d_boolean (dec (bool_tag b :: rest)) = Ok (b, dec rest).
Proof. intros Hs. unfold d_boolean. rewrite d_byte_dec by done. by destruct b. Qed.
Lemma d_u16_dec v rest :
  v < 0x1_0000 -> (to_be 2 v ++ rest) `suffix_of` B -> d_u16 (dec (to_be 2 v ++ rest)) = Ok (v, dec rest).
Proof.
  intros Hv Hs. unfold d_u16. rewrite (d_array_dec _ _ 2) by (done || by rewrite lenN_to_be).
  cbn [mbind outcome_bind]. by rewrite from_be_to_be.
Qed.
Lemma d_u32_dec v rest :
  v <= U32_MAX -> (to_be 4 v ++ rest) `suffix_of` B -> d_u32 (dec (to_be 4 v ++ rest)) = Ok (v, dec rest).
Proof.
  unfold U32_MAX. intros Hv Hs. unfold d_u32.
  rewrite (d_array_dec _ _ 4) by (done || by rewrite lenN_to_be).
  cbn [mbind outcome_bind]. rewrite from_be_to_be; [done|]. cbn. lia.
Qed.
Lemma d_count_dec v rest :
  v <= U32_MAX -> v <= lenN rest -> (to_be 4 v ++ rest) `suffix_of` B ->
  d_count (dec (to_be 4 v ++ rest)) = Ok (v, dec rest).
Proof.
  intros Hv Hr Hs. unfold d_count. rewrite d_u32_dec by done. cbn [mbind outcome_bind].
  pose proof (suffix_lenN _ Hs) as Hle. rewrite lenN_app in Hle. cbn [cursor d_bytes dec].
  destruct (N.leb_spec v (lenN B - (lenN B - lenN rest))); [done|lia].
Qed.
Lemma d_text_dec x rest :
  lenN x <= U32_MAX -> utf8_valid x = true -> (to_be 4 (lenN x) ++ x ++ rest) `suffix_of` B ->
  d_text (dec (to_be 4 (lenN x) ++ x ++ rest)) = Ok (x, dec rest).
Proof.
  intros Hx Hu Hs. unfold d_text. rewrite d_count_dec by (rewrite ?lenN_app; done || lia).
  cbn [mbind outcome_bind]. rewrite d_take_dec by (by eapply suffix_rest).
  cbn [mbind outcome_bind]. by rewrite Hu.
Qed.
Lemma d_id_dec i rest :
  id_wf i -> (id_bytes i ++ rest) `suffix_of` B -> d_id (dec (id_bytes i ++ rest)) = Ok (i, dec rest).
Proof.
  intros Hi Hs. unfold d_id.
  rewrite (d_array_dec _ _ 16) by (done || unfold lenN; by rewrite length_id_bytes).
  cbn [mbind outcome_bind]. rewrite from_be_id_bytes by done. destruct Hi as [_ Hi]. by rewrite Hi.
Qed.

(** A counted loop over what a sequence of items encodes to. *)
Lemma for_n_dec {A S} (f : S * Decoder -> outcome PolicyError (S * Decoder)) (enc : A -> list byte)
    (step : S -> A -> S) (l : list A) (s : S) (rest : list byte) :
  (forall done_ x todo r, l = done_ ++ x :: todo -> (enc x ++ r) `suffix_of` B ->
     f (foldl step s done_, dec (enc x ++ r)) = Ok (foldl step s (done_ ++ [x]), dec r)) ->
  (concat (enc <$> l) ++ rest) `suffix_of` B ->
  for_n (length l) f (s, dec (concat (enc <$> l) ++ rest)) = Ok (foldl step s l, dec rest).
Proof.
  revert s. induction l as [|x l IH]; intros s Hf Hs; [done|].
  rewrite fmap_cons in *. cbn [concat length for_n] in *. rewrite <- app_assoc in Hs.
  rewrite <- app_assoc. pose proof (Hf [] x l _ eq_refl Hs) as Hx. cbn in Hx. rewrite Hx. cbn [mbind outcome_bind app foldl].
  apply IH; [|by eapply suffix_rest].
  intros d y todo r -> Hsuf. apply (Hf (x :: d) y todo r); [done|done].
Qed.
End reading.

(** ** What the encoder writes *)

Section writing.
Context `{IpNetLib} `{UuidLib}.

Definition text_enc (t : Text) : list byte := to_be 4 (lenN t) ++ t.
Definition label_enc (e : Text * Text) : list byte := text_enc e.1 ++ text_enc e.2.
Definition network_enc (n : IpNet) : list byte := put_network [] n.
Definition selector_enc (s : Selector) : list byte :=
  to_be 4 (N.of_nat (size (peer_ids s))) ++ concat (id_bytes <$> bt_elements (peer_ids s))
  ++ to_be 4 (N.of_nat (size (labels s))) ++ concat (label_enc <$> bt_entries (labels s))
  ++ to_be 4 (lenN (cidrs s)) ++ concat (network_enc <$> cidrs s).
Definition ports_enc (p : PortRange) : list byte := to_be 2 (port_first p) ++ to_be 2 (port_last p).
Definition rule_enc (r : Rule) : list byte :=
  id_bytes (rule_id r) ++ to_be 4 (priority r)
  ++ bool_tag (enabled r) :: bool_tag (log r) :: action_tag (rule_action r) ::
     selector_enc (rule_source r) ++ selector_enc (rule_destination r)
  ++ protocol_tag (rule_protocol r) :: to_be 4 (lenN (destination_ports r))
  ++ concat (ports_enc <$> destination_ports r).

Lemma put_network_enc bytes n : put_network bytes n = bytes ++ network_enc n.
Proof. by destruct n. Qed.
Lemma foldl_app_enc {A} (f : list byte -> A -> list byte) (enc : A -> list byte) bytes l :
  (forall b x, f b x = b ++ enc x) -> foldl f bytes l = bytes ++ concat (enc <$> l).
Proof.
  intros Hf. revert bytes. induction l as [|x l IH]; intros bytes; cbn; [by rewrite app_nil_r|].
  rewrite IH, Hf. by rewrite <- app_assoc.
Qed.
Lemma foldM_app_enc {A} (f : list byte -> A -> outcome PolicyError (list byte))
    (enc : A -> list byte) (P : A -> Prop) bytes l out :
  (forall b x o, f b x = Ok o -> o = b ++ enc x /\ P x) ->
  foldM f bytes l = Ok out -> out = bytes ++ concat (enc <$> l) /\ Forall P l.
Proof.
  intros Hf. revert bytes. induction l as [|x l IH]; intros bytes; cbn.
  - intros [= <-]. by rewrite app_nil_r.
  - intros (b & [-> HP]%Hf & [-> HF]%IH)%bind_Ok. split; [by rewrite <- app_assoc|by constructor].
Qed.

Lemma put_u32_Ok bytes v out : put_u32 bytes v = Ok out -> out = bytes ++ to_be 4 v /\ v <= U32_MAX.
Proof. unfold put_u32. destruct (N.leb_spec v U32_MAX); naive_solver. Qed.
Lemma put_label_Ok b e out :
  put_label b e = Ok out -> out = b ++ label_enc e /\ lenN e.1 <= U32_MAX /\ lenN e.2 <= U32_MAX.
Proof.
  destruct e as [k v]. unfold put_label, put_text, label_enc, text_enc; cbn.
  destruct (_ =? 0); [done|].
  intros (b1 & (b2 & [-> ?]%put_u32_Ok & [= <-])%bind_Ok & (b3 & [-> ?]%put_u32_Ok & [= <-])%bind_Ok)%bind_Ok.
  by rewrite <- !app_assoc.
Qed.

(** The limits [encode_selector] enforces. *)
Record selector_fits (s : Selector) : Prop := {
  fits_peers : N.of_nat (size (peer_ids s)) <= MAX_SELECTOR_PEERS;
  fits_labels : N.of_nat (size (labels s)) <= MAX_LABELS;
  fits_cidrs : lenN (cidrs s) <= MAX_SELECTOR_CIDRS;
  fits_text : forall k v, labels s !! k = Some v -> label_refused (k, v) = false;
}.
Lemma encode_selector_Ok b s out :
  encode_selector b s = Ok out -> out = b ++ selector_enc s /\ selector_fits s.
Proof.
  unfold encode_selector.
  destruct (N.ltb_spec MAX_SELECTOR_PEERS (N.of_nat (size (peer_ids s)))); [done|].
  destruct (N.ltb_spec MAX_LABELS (N.of_nat (size (labels s)))); [done|].
  destruct (N.ltb_spec MAX_SELECTOR_CIDRS (lenN (cidrs s))); [done|]. cbn [orb].
  destruct (existsb _ _) eqn:Hex; [done|].
  intros (b1 & [-> _]%put_u32_Ok & (b2 & [-> _]%put_u32_Ok & (b3 & Hl & (b4 & [-> _]%put_u32_Ok
    & [= <-])%bind_Ok)%bind_Ok)%bind_Ok)%bind_Ok.
  apply (foldM_app_enc _ label_enc (fun _ => True)) in Hl as [-> _].
  2:{ intros. split; [by apply put_label_Ok|done]. }
  rewrite (foldl_app_enc _ network_enc) by apply put_network_enc.
  rewrite (foldl_app_enc _ id_bytes) by done.
  unfold selector_enc. rewrite <- !app_assoc. split; [done|]. split; try done.
  intros k v Hkv. apply not_true_iff_false. intros Hr. apply not_true_iff_false in Hex. apply Hex.
  apply existsb_elem_of. exists (k, v). split; [by apply elem_of_bt_entries|done].
Qed.

(** What the rule loop has checked of every rule. *)
Record rule_fits (r : Rule) : Prop := {
  fits_source : selector_fits (rule_source r);
  fits_destination : selector_fits (rule_destination r);
  fits_ports : lenN (destination_ports r) <= MAX_PORT_SPANS;
}.
Lemma encode_rule_Ok b ids r b' ids' :
  encode_rule (b, ids) r = Ok (b', ids') ->
  b' = b ++ rule_enc r /\ ids' = {[rule_id r]} ∪ ids /\ rule_fits r /\ rule_id r ∉ ids.
Proof.
  unfold encode_rule. destruct (_ || _) eqn:Hd; [done|]. apply orb_false_iff in Hd as [Hd _].
  apply bool_decide_eq_false in Hd.
  intros (b1 & [-> Hs]%encode_selector_Ok & (b2 & [-> Ht]%encode_selector_Ok & Hr)%bind_Ok)%bind_Ok.
  destruct (N.ltb_spec MAX_PORT_SPANS (lenN (destination_ports r))); [done|].
  apply bind_Ok in Hr as (b3 & [-> _]%put_u32_Ok & [= <- <-]).
  rewrite (foldl_app_enc _ ports_enc) by done. split_and!; try done.
  unfold rule_enc. by rewrite <- !app_assoc.
Qed.
Lemma encode_rules_Ok l b ids b' ids' :
  foldM encode_rule (b, ids) l = Ok (b', ids') ->
  b' = b ++ concat (rule_enc <$> l) /\ Forall rule_fits l /\
  NoDup (rule_id <$> l) /\ forall i, i ∈ rule_id <$> l -> i ∉ ids.
Proof.
  revert b ids. induction l as [|r l IH]; intros b ids; cbn.
  - intros [= <- <-]. rewrite app_nil_r. split_and!; [done..|constructor|set_solver].
  - intros ([b1 ids1] & (-> & -> & Hf & Hnew)%encode_rule_Ok & (-> & Hl & Hnd & Hids)%IH)%bind_Ok.
    split_and!; [by rewrite <- app_assoc|by constructor| |].
    + constructor; [|done]. intros Hin. specialize (Hids _ Hin). set_solver.
    + intros i [->|Hin]%elem_of_cons; [done|]. specialize (Hids _ Hin). set_solver.
Qed.
Lemma encode_policy_Ok p out :
  encode_policy_document p = Ok out ->
  out = POLICY_DOCUMENT_DOMAIN ++ action_tag (default_action p) :: to_be 4 (lenN (rules p))
        ++ concat (rule_enc <$> rules p) /\
  lenN (rules p) <= MAX_POLICY_RULES /\ Forall rule_fits (rules p) /\
  NoDup (rule_id <$> rules p).
Proof.
  unfold encode_policy_document.
  destruct (N.ltb_spec MAX_POLICY_RULES (lenN (rules p))); [done|].
  intros (b & [-> _]%put_u32_Ok & ([b1 ids] & Hl & [= <-])%bind_Ok)%bind_Ok.
  apply encode_rules_Ok in Hl as (-> & Hf & Hnd & _). split_and!; [|done..].
  by rewrite <- !app_assoc.
Qed.
End writing.

(** ** The round trip *)

(** What the Rust types guarantee of a policy, and networks without host bits,
    the ones [ipnet] rebuilds from their network address. *)
Definition net_wf `{IpNetLib} (n : IpNet) : Prop :=
  match n with
  | inl m => v4net_network m < 2 ^ 32 /\ v4net_prefix_len m < 256 /\
             v4net_new (v4net_network m) (v4net_prefix_len m) = Some m
  | inr m => v6net_network m < 2 ^ 128 /\ v6net_prefix_len m < 256 /\
             v6net_new (v6net_network m) (v6net_prefix_len m) = Some m
  end.
Record selector_wf `{IpNetLib} `{UuidLib} (s : Selector) : Prop := {
  sel_peers : forall i, i ∈ peer_ids s -> id_wf i;
  sel_labels : forall k v, labels s !! k = Some v -> utf8_valid k = true /\ utf8_valid v = true;
  sel_cidrs : forall n, n ∈ cidrs s -> net_wf n;
}.
Definition port_wf (p : PortRange) : Prop :=
  0 < port_first p /\ port_first p <= port_last p /\ port_last p <= U16_MAX.
Record rule_wf `{IpNetLib} `{UuidLib} (r : Rule) : Prop := {
  rule_id_wf : id_wf (rule_id r);
  rule_priority_wf : priority r <= U32_MAX;
  rule_source_wf : selector_wf (rule_source r);
  rule_destination_wf : selector_wf (rule_destination r);
  rule_ports_wf : forall p, p ∈ destination_ports r -> port_wf p;
}.

Section roundtrip.
Context `{IpNetLib} `{UuidLib}.
Context (B : list byte) (B_len : lenN B <= USIZE_MAX).
#[local] Notation dec := (dec B).

Lemma lenN_concat_ge {A} (enc : A -> list byte) l :
  (forall x, x ∈ l -> enc x <> []) -> lenN l <= lenN (concat (enc <$> l)).
Proof.
  intros Hne. induction l as [|x l IH]; cbn; [done|]. rewrite lenN_cons, lenN_app.
  assert (enc x <> []) as Hx by (apply Hne; by left).
  assert (lenN l <= lenN (concat (enc <$> l))) by (apply IH; intros; apply Hne; by right).
  destruct (enc x); [done|]. rewrite lenN_cons. unfold fmap in *. lia.
Qed.

(** A count followed by that many items. *)
Lemma d_count_items {A} (enc : A -> list byte) l rest :
  (forall x, x ∈ l -> enc x <> []) -> lenN l <= U32_MAX ->
  (to_be 4 (lenN l) ++ concat (enc <$> l) ++ rest) `suffix_of` B ->
  d_count (dec (to_be 4 (lenN l) ++ concat (enc <$> l) ++ rest)) =
  Ok (lenN l, dec (concat (enc <$> l) ++ rest)).
Proof.
  intros Hne Hl Hs. apply d_count_dec; [done|done| |done].
  rewrite lenN_app. pose proof (lenN_concat_ge enc l Hne). lia.
Qed.

Lemma foldl_union l (s : gset PeerId) :
  foldl (fun s x => {[x]} ∪ s) s l = list_to_set l ∪ s.
Proof.
  revert s. induction l as [|x l IH]; intros s; cbn; [set_solver|]. rewrite IH. set_solver.
Qed.
Lemma decode_peers_dec s rest :
  (forall i, i ∈ s -> id_wf i) -> (concat (id_bytes <$> bt_elements s) ++ rest) `suffix_of` B ->
  for_n (length (bt_elements s)) decode_peer (∅, dec (concat (id_bytes <$> bt_elements s) ++ rest)) =
  Ok (s, dec rest).
Proof.
  intros Hwf Hs.
  rewrite (for_n_dec B _ id_bytes (fun s x => {[x]} ∪ s)); [| |done].
  - do 2 f_equal. rewrite foldl_union. apply set_eq. intros x.
    rewrite elem_of_union, elem_of_list_to_set, elem_of_bt_elements. set_solver.
  - intros d x todo r Hl Hsuf. unfold decode_peer.
    assert (Hx : x ∈ bt_elements s) by (rewrite Hl; set_solver).
    rewrite d_id_dec by (done || by apply Hwf, elem_of_bt_elements).
    cbn [mbind outcome_bind]. pose proof (NoDup_bt_elements s) as Hnd. rewrite Hl in Hnd.
    apply NoDup_app in Hnd as (_ & Hnd & _).
    rewrite bool_decide_eq_false_2, foldl_app; [done|].
    rewrite foldl_union, elem_of_union, elem_of_list_to_set. intros [Hin|Hin]; [|set_solver].
    apply (Hnd x Hin). by left.
Qed.

Lemma foldl_insert (l : list (Text * Text)) (m : gmap Text Text) :
  NoDup l.*1 -> (forall k, k ∈ l.*1 -> m !! k = None) ->
  foldl (fun m e => <[e.1 := e.2]> m) m l = list_to_map l ∪ m.
Proof.
  revert m. induction l as [|[k v] l IH]; intros m Hnd Hm; cbn; [by rewrite map_empty_union|].
  apply NoDup_cons in Hnd as [Hk Hnd]. cbn in Hk. rewrite IH; [|done|].
  - rewrite <- insert_union_l, <- insert_union_r; [done|]. by apply not_elem_of_list_to_map.
  - intros k' Hk'. rewrite lookup_insert_ne by (intros ->; done). apply Hm. by right.
Qed.
Lemma list_to_map_entries (m : gmap Text Text) : list_to_map (bt_entries m) = m.
Proof.
  rewrite (list_to_map_proper (bt_entries m) (map_to_list m)).
  - apply list_to_map_to_list.
  - apply NoDup_bt_entries.
  - apply bt_entries_perm.
Qed.
Lemma decode_labels_dec (m : gmap Text Text) rest :
  (forall k v, m !! k = Some v -> utf8_valid k = true /\ utf8_valid v = true) ->
  (forall k v, m !! k = Some v -> label_refused (k, v) = false) ->
  (concat (label_enc <$> bt_entries m) ++ rest) `suffix_of` B ->
  for_n (length (bt_entries m)) decode_label (∅, dec (concat (label_enc <$> bt_entries m) ++ rest)) =
  Ok (m, dec rest).
Proof.
  intros Hwf Hfit Hs.
  rewrite (for_n_dec B _ label_enc (fun m e => <[e.1 := e.2]> m)); [| |done].
  - do 2 f_equal. rewrite foldl_insert by (apply NoDup_bt_entries || done).
    by rewrite list_to_map_entries, map_union_empty.
  - intros d [k v] todo r Hl Hsuf. unfold decode_label, label_enc, text_enc in *; cbn [fst snd] in *.
    assert (Hx : m !! k = Some v) by (apply elem_of_bt_entries; rewrite Hl; set_solver).
    destruct (Hwf _ _ Hx) as [Hk Hv]. pose proof (Hfit _ _ Hx) as Hr.
    assert (Hlen : lenN k <= 64 /\ lenN v <= 256).
    { unfold label_refused in Hr. breflect. lia. }
    rewrite <- !app_assoc in *.
    rewrite d_text_dec by (done || (unfold U32_MAX; lia)). cbn [mbind outcome_bind].
    do 2 apply suffix_rest in Hsuf.
    rewrite d_text_dec by (done || (unfold U32_MAX; lia)). cbn [mbind outcome_bind].
    rewrite Hr. cbn [orb]. rewrite foldl_app. cbn [foldl fst snd].
    pose proof (NoDup_bt_entries m) as Hnd. rewrite Hl, fmap_app in Hnd.
    apply NoDup_app in Hnd as (Hd & Hnd & _).
    rewrite foldl_insert; [|exact Hd|intros; apply lookup_empty]. rewrite !map_union_empty.
    rewrite (not_elem_of_list_to_map_1 d k); [done|]. intros Hin. apply (Hnd k Hin). by left.
Qed.

Lemma foldl_snoc {A} (l k : list A) : foldl (fun s x => s ++ [x]) k l = k ++ l.
Proof.
  revert k. induction l as [|x l IH]; intros k; cbn; [by rewrite app_nil_r|].
  by rewrite IH, <- app_assoc.
Qed.
Lemma decode_networks_dec l rest :
  (forall n, n ∈ l -> net_wf n) -> (concat (network_enc <$> l) ++ rest) `suffix_of` B ->
  for_n (length l) decode_network ([], dec (concat (network_enc <$> l) ++ rest)) = Ok (l, dec rest).
Proof.
  intros Hwf Hs.
  rewrite (for_n_dec B _ network_enc (fun s x => s ++ [x])); [by rewrite foldl_snoc| |done].
  intros d x todo r Hl Hsuf. rewrite foldl_app. cbn [foldl].
  assert (Hx : net_wf x) by (apply Hwf; rewrite Hl; set_solver).
  unfold decode_network, network_enc, put_network in *.
  destruct x as [n|n]; destruct Hx as (Ha & Hp & Hn); cbn [app] in *; rewrite <- app_assoc in *;
    cbn [app] in *.
  - rewrite d_byte_dec by done. cbn [mbind outcome_bind]. change (u8 x04 =? 4) with true. cbn match.
    apply (suffix_rest B [_]) in Hsuf.
    rewrite (d_array_dec B B_len _ _ 4) by (done || by rewrite lenN_to_be). cbn [mbind outcome_bind].
    apply suffix_rest in Hsuf.
    rewrite d_byte_dec by done. cbn [mbind outcome_bind]. rewrite u8_byte_of, N.mod_small by done.
    unfold v4_octets. rewrite from_be_to_be by done. rewrite Hn. done.
  - rewrite d_byte_dec by done. cbn [mbind outcome_bind]. change (u8 x06 =? 4) with false.
    change (u8 x06 =? 6) with true. cbn match.
    apply (suffix_rest B [_]) in Hsuf.
    rewrite (d_array_dec B B_len _ _ 16) by (done || by rewrite lenN_to_be). cbn [mbind outcome_bind].
    apply suffix_rest in Hsuf.
    rewrite d_byte_dec by done. cbn [mbind outcome_bind]. rewrite u8_byte_of, N.mod_small by done.
    unfold v6_octets. rewrite from_be_to_be by done. rewrite Hn. done.
Qed.

Lemma id_bytes_ne i : id_bytes i <> [].
Proof. intros Hn. pose proof (length_id_bytes i) as Hl. by rewrite Hn in Hl. Qed.

Lemma decode_selector_dec s rest :
  selector_wf s -> selector_fits s -> canonical_cidrs (cidrs s) = cidrs s ->
  (selector_enc s ++ rest) `suffix_of` B ->
  decode_selector (dec (selector_enc s ++ rest)) = Ok (s, dec rest).
Proof.
  intros [Hp Hlb Hc] [Fp Fl Fc Ft] Hcan Hs. unfold decode_selector, selector_enc in *.
  rewrite <- (length_bt_elements (peer_ids s)) in *.
  assert (Hsz : size (labels s) = length (bt_entries (labels s)))
    by (by rewrite bt_entries_perm, length_map_to_list).
  rewrite Hsz in *. fold (lenN (bt_elements (peer_ids s))) in *. fold (lenN (bt_entries (labels s))) in *.
  unfold MAX_SELECTOR_PEERS, MAX_LABELS, MAX_SELECTOR_CIDRS in *.
  rewrite <- !app_assoc in *.
  rewrite d_count_items by (done || (unfold U32_MAX; lia) || (intros; apply id_bytes_ne)).
  cbn [mbind outcome_bind]. destruct (N.ltb_spec 1024 (lenN (bt_elements (peer_ids s)))); [lia|].
  apply suffix_rest in Hs. unfold lenN at 1. rewrite Nat2N.id. rewrite decode_peers_dec by done.
  cbn [mbind outcome_bind]. apply suffix_rest in Hs.
  rewrite d_count_items; [|intros; by destruct x|unfold U32_MAX; lia|done].
  cbn [mbind outcome_bind]. destruct (N.ltb_spec 64 (lenN (bt_entries (labels s)))); [lia|].
  apply suffix_rest in Hs. unfold lenN at 1. rewrite Nat2N.id. rewrite decode_labels_dec by done.
  cbn [mbind outcome_bind]. apply suffix_rest in Hs.
  rewrite d_count_items; [|intros; by destruct x|unfold U32_MAX; lia|done].
  cbn [mbind outcome_bind]. destruct (N.ltb_spec 256 (lenN (cidrs s))); [lia|].
  apply suffix_rest in Hs. unfold lenN at 1. rewrite Nat2N.id. rewrite decode_networks_dec by done.
  cbn [mbind outcome_bind]. unfold selector_new. rewrite Hcan. by destruct s.
Qed.

Lemma decode_ports_dec l rest :
  (forall p, p ∈ l -> port_wf p) -> (concat (ports_enc <$> l) ++ rest) `suffix_of` B ->
  for_n (length l) decode_ports ([], dec (concat (ports_enc <$> l) ++ rest)) = Ok (l, dec rest).
Proof.
  intros Hwf Hs.
  rewrite (for_n_dec B _ ports_enc (fun s x => s ++ [x])); [by rewrite foldl_snoc| |done].
  intros d x todo r Hl Hsuf. rewrite foldl_app. cbn [foldl].
  assert (Hx : port_wf x) by (apply Hwf; rewrite Hl; set_solver).
  destruct Hx as (H1 & H2 & H3). unfold U16_MAX in H3.
  unfold decode_ports, ports_enc in *. rewrite <- app_assoc in *.
  rewrite d_u16_dec by (done || lia). cbn [mbind outcome_bind]. apply suffix_rest in Hsuf.
  rewrite d_u16_dec by (done || lia). cbn [mbind outcome_bind].
  unfold port_range_new. destruct (N.eqb_spec (port_first x) 0); [lia|].
  destruct (N.ltb_spec (port_last x) (port_first x)); [lia|]. by destruct x.
Qed.

Lemma decode_action_tag a : decode_action (action_tag a) = Ok a.
Proof. by destruct a. Qed.
Lemma decode_protocol_tag p : decode_protocol (protocol_tag p) = Ok p.
Proof. by destruct p. Qed.

Lemma decode_rule_dec rs r rest :
  rule_wf r -> rule_fits r -> canonical_rule r = r -> (rule_enc r ++ rest) `suffix_of` B ->
  decode_rule (rs, dec (rule_enc r ++ rest)) = Ok (rs ++ [r], dec rest).
Proof.
  intros [Hid Hpr Hsrc Hdst Hports] [Fs Fd Fp] Hcan Hs.
  assert (Hc1 : canonical_cidrs (cidrs (rule_source r)) = cidrs (rule_source r))
    by exact (f_equal (fun r => cidrs (rule_source r)) Hcan).
  assert (Hc2 : canonical_cidrs (cidrs (rule_destination r)) = cidrs (rule_destination r))
    by exact (f_equal (fun r => cidrs (rule_destination r)) Hcan).
  unfold decode_rule, rule_enc in *. rewrite <- ?app_assoc in *. cbn [app] in *.
  rewrite <- ?app_assoc in *. cbn [app] in *.
  rewrite d_id_dec by done. cbn [mbind outcome_bind]. apply suffix_rest in Hs.
  rewrite d_u32_dec by done. cbn [mbind outcome_bind]. apply suffix_rest in Hs.
  rewrite d_boolean_dec by done. cbn [mbind outcome_bind]. apply (suffix_rest B [_]) in Hs.
  rewrite d_boolean_dec by done. cbn [mbind outcome_bind]. apply (suffix_rest B [_]) in Hs.
  rewrite d_byte_dec by done. cbn [mbind outcome_bind]. apply (suffix_rest B [_]) in Hs.
  rewrite decode_action_tag. cbn [mbind outcome_bind].
  rewrite decode_selector_dec by done. cbn [mbind outcome_bind]. apply suffix_rest in Hs.
  rewrite decode_selector_dec by done. cbn [mbind outcome_bind]. apply suffix_rest in Hs.
  rewrite d_byte_dec by done. cbn [mbind outcome_bind]. apply (suffix_rest B [_]) in Hs.
  rewrite decode_protocol_tag. cbn [mbind outcome_bind]. rewrite <- ?app_assoc in *.
  unfold MAX_PORT_SPANS in *.
  rewrite d_count_items by (done || unfold U32_MAX; lia). cbn [mbind outcome_bind].
  destruct (N.ltb_spec 256 (lenN (destination_ports r))); [lia|].
  apply suffix_rest in Hs. unfold lenN at 1. rewrite Nat2N.id. rewrite decode_ports_dec by done.
  cbn [mbind outcome_bind]. by destruct r.
Qed.

Lemma decode_rules_dec l rest :
  (forall r, r ∈ l -> rule_wf r /\ rule_fits r /\ canonical_rule r = r) ->
  (concat (rule_enc <$> l) ++ rest) `suffix_of` B ->
  for_n (length l) decode_rule ([], dec (concat (rule_enc <$> l) ++ rest)) = Ok (l, dec rest).
Proof.
  intros Hwf Hs.
  rewrite (for_n_dec B _ rule_enc (fun s x => s ++ [x])); [by rewrite foldl_snoc| |done].
  intros d x todo r Hl Hsuf. rewrite foldl_app. cbn [foldl].
  destruct (Hwf x) as (H1 & H2 & H3); [rewrite Hl; set_solver|].
  by apply decode_rule_dec.
Qed.
Lemma rule_enc_ne r : rule_enc r <> [].
Proof. unfold rule_enc. intros [Hn _]%app_nil. by apply id_bytes_ne in Hn. Qed.
End roundtrip.

Section documents.
Context `{IpNetLib} `{UuidLib}.

Definition policy_wf (p : Policy) : Prop :=
  policy_canonical p /\ forall r, r ∈ rules p -> rule_wf r.

Lemma strip_prefix_app (x y : list byte) : strip_prefix x (x ++ y) = Some y.
Proof. unfold strip_prefix. rewrite take_app_length, decide_True by done. by rewrite drop_app_length. Qed.

Lemma decode_encoded p bytes :
  policy_wf p -> lenN bytes <= USIZE_MAX -> encode_policy_document p = Ok bytes ->
  decode_policy_document (revision p) bytes = Ok p.
Proof.
  intros [Hcan Hwf] Hlen Henc.
  pose proof (encode_policy_Ok _ _ Henc) as (Hb & Hcount & Hfit & _). unfold MAX_POLICY_RULES in Hcount.
  rewrite Forall_forall in Hfit. unfold decode_policy_document.
  set (tail := action_tag (default_action p) :: to_be 4 (lenN (rules p)) ++ concat (rule_enc <$> rules p)) in *.
  rewrite Hb, strip_prefix_app. cbn [ok_or mbind outcome_bind]. rewrite <- Hb.
  assert (Hl : lenN tail <= USIZE_MAX) by (rewrite Hb, lenN_app in Hlen; lia).
  assert (Hs : tail `suffix_of` tail) by done.
  change (decoder_new tail) with (mkDecoder tail 0).
  replace (mkDecoder tail 0) with (dec tail tail) by (unfold dec; by rewrite N.sub_diag).
  unfold tail at 2. unfold tail at 1 in Hs.
  rewrite d_byte_dec by done. cbn [mbind outcome_bind]. apply (suffix_rest tail [_]) in Hs.
  rewrite decode_action_tag. cbn [mbind outcome_bind].
  rewrite <- (app_nil_r (concat _)) in Hs |- *.
  rewrite d_count_items by (done || (unfold U32_MAX; lia) || (intros; apply rule_enc_ne)).
  cbn [mbind outcome_bind]. unfold MAX_POLICY_RULES.
  destruct (N.ltb_spec 1024 (lenN (rules p))); [lia|]. apply suffix_rest in Hs.
  unfold lenN at 1. rewrite Nat2N.id. rewrite decode_rules_dec; [|done| |done].
  2:{ intros r Hr. split_and!; [by apply Hwf|by apply Hfit|by apply Hcan]. }
  cbn [mbind outcome_bind]. unfold d_finished, dec; cbn [cursor d_bytes]. rewrite N.sub_0_r, N.eqb_refl.
  cbn [negb]. rewrite policy_new_id by done. rewrite Henc. cbn [mbind outcome_bind].
  by rewrite decide_True.
Qed.

Lemma decode_is_encoding rev bytes p :
  decode_policy_document rev bytes = Ok p -> encode_policy_document p = Ok bytes /\ revision p = rev.
Proof.
  unfold decode_policy_document. intros (body & _ & H1)%bind_Ok.
  apply bind_Ok in H1 as ([tag d1] & _ & H1). apply bind_Ok in H1 as (default & _ & H1).
  apply bind_Ok in H1 as ([count d2] & _ & H1). destruct (_ <? count); [done|].
  apply bind_Ok in H1 as ([rs d3] & _ & H1). destruct (negb _); [done|].
  apply bind_Ok in H1 as (encoded & He & H1). case_decide as Heq; [|done].
  injection H1 as <-. subst encoded. done.
Qed.

(** A policy document survives encoding: whatever [encode_policy_document]
    produces from a policy built by [Policy::new], [decode_policy_document]
    accepts, and returns that very policy. *)
Theorem policy_document_roundtrip p bytes :
  policy_wf p -> lenN bytes <= USIZE_MAX -> encode_policy_document p = Ok bytes ->
  decode_policy_document (revision p) bytes = Ok p.
Proof. apply decode_encoded. Qed.

(** *** No aborts *)

Lemma no_panic_d_take n d : no_panic (d_take n d).
Proof.
  unfold d_take, checked_add. apply no_panic_bind; [auto with rust|]. intros fin Hf.
  destruct (cursor d + n <=? U64_MAX); [|done].
  destruct (N.leb_spec (cursor d + n) (lenN (d_bytes d))); [|done]. injection Hf as <-.
  apply no_panic_bind; [apply no_panic_slice; lia|]. intros. apply no_panic_Ok.
Qed.
Lemma no_panic_d_array n d : no_panic (d_array n d).
Proof.
  unfold d_array. apply no_panic_bind; [apply no_panic_d_take|]. intros [v d'] _.
  destruct (_ =? n); [apply no_panic_Ok|apply no_panic_Err].
Qed.
Lemma no_panic_d_byte d : no_panic (d_byte d).
Proof.
  unfold d_byte. apply no_panic_bind; [apply no_panic_d_array|]. intros [v d'] Hv.
  unfold d_array in Hv. apply bind_Ok in Hv as ([v' d''] & _ & Hv).
  destruct (N.eqb_spec (lenN v') 1); [|done]. injection Hv as -> ->.
  apply no_panic_bind; [apply no_panic_index; lia|]. intros. apply no_panic_Ok.
Qed.
#[local] Hint Resolve no_panic_d_take no_panic_d_array no_panic_d_byte : rust.
Ltac decoder_safe :=
  repeat first [ apply no_panic_bind; [auto with rust|intros [? ?] _]
               | progress cbn beta iota | solve [panic_free; auto with rust] ].
Lemma no_panic_d_u16 d : no_panic (d_u16 d).
Proof. unfold d_u16. decoder_safe. Qed.
Lemma no_panic_d_u32 d : no_panic (d_u32 d).
Proof. unfold d_u32. decoder_safe. Qed.
#[local] Hint Resolve no_panic_d_u16 no_panic_d_u32 : rust.
Lemma no_panic_d_boolean d : no_panic (d_boolean d).
Proof. unfold d_boolean. decoder_safe. Qed.
Lemma no_panic_d_count d : no_panic (d_count d).
Proof. unfold d_count. decoder_safe. Qed.
#[local] Hint Resolve no_panic_d_boolean no_panic_d_count : rust.
Lemma no_panic_d_text d : no_panic (d_text d).
Proof. unfold d_text. decoder_safe. Qed.
Lemma no_panic_d_id d : no_panic (d_id d).
Proof. unfold d_id. decoder_safe. Qed.
#[local] Hint Resolve no_panic_d_text no_panic_d_id : rust.
Lemma no_panic_decode_peer st : no_panic (decode_peer st).
Proof. destruct st. unfold decode_peer. decoder_safe. Qed.
Lemma no_panic_decode_label st : no_panic (decode_label st).
Proof. destruct st. unfold decode_label. decoder_safe. Qed.
Lemma no_panic_decode_network st : no_panic (decode_network st).
Proof.
  destruct st as [l d]. unfold decode_network. apply no_panic_bind; [auto with rust|intros [tag d1] _].
  apply no_panic_bind; [|intros [? ?] _; apply no_panic_Ok].
  destruct (_ =? 4); [decoder_safe|]. destruct (_ =? 6); [decoder_safe|apply no_panic_Err].
Qed.
Lemma no_panic_decode_ports st : no_panic (decode_ports st).
Proof.
  destruct st. unfold decode_ports, port_range_new. decoder_safe.
Qed.
#[local] Hint Resolve no_panic_for_n no_panic_decode_peer no_panic_decode_label
  no_panic_decode_network no_panic_decode_ports : rust.
Ltac decoder_steps :=
  repeat first
    [ apply no_panic_Ok | apply no_panic_Err
    | apply no_panic_bind; [solve [auto with rust]|first [intros [? ?] _|intros ? _]]
    | match goal with |- no_panic (if ?b then _ else _) => destruct b end ].
Lemma no_panic_decode_selector d : no_panic (decode_selector d).
Proof. unfold decode_selector. decoder_steps. Qed.
#[local] Hint Resolve no_panic_decode_selector : rust.
Lemma no_panic_decode_action t : no_panic (decode_action t).
Proof. unfold decode_action. panic_free. Qed.
Lemma no_panic_decode_protocol t : no_panic (decode_protocol t).
Proof. unfold decode_protocol. panic_free. Qed.
#[local] Hint Resolve no_panic_decode_action no_panic_decode_protocol : rust.
Lemma no_panic_decode_rule st : no_panic (decode_rule st).
Proof. destruct st. unfold decode_rule. decoder_steps. Qed.
#[local] Hint Resolve no_panic_decode_rule : rust.

Lemma no_panic_put_u32 b v : no_panic (put_u32 b v).
Proof. unfold put_u32. panic_free. Qed.
#[local] Hint Resolve no_panic_put_u32 no_panic_foldM : rust.
Lemma no_panic_put_label b e : no_panic (put_label b e).
Proof. destruct e. unfold put_label, put_text. panic_free. Qed.
#[local] Hint Resolve no_panic_put_label : rust.
Lemma no_panic_encode_selector b s : no_panic (encode_selector b s).
Proof. unfold encode_selector. decoder_steps. Qed.
#[local] Hint Resolve no_panic_encode_selector : rust.
Lemma no_panic_encode_rule st r : no_panic (encode_rule st r).
Proof. destruct st. unfold encode_rule. decoder_steps. Qed.
#[local] Hint Resolve no_panic_encode_rule : rust.
Lemma no_panic_encode_policy p : no_panic (encode_policy_document p).
Proof. unfold encode_policy_document. decoder_steps. Qed.
#[local] Hint Resolve no_panic_encode_policy : rust.

Lemma no_panic_decode_policy rev bytes : no_panic (decode_policy_document rev bytes).
Proof. unfold decode_policy_document. decoder_steps. Qed.

Lemma decode_is_new rev bytes p :
  decode_policy_document rev bytes = Ok p -> policy_canonical p.
Proof.
  unfold decode_policy_document. intros (body & _ & H1)%bind_Ok.
  apply bind_Ok in H1 as ([tag d1] & _ & H1). apply bind_Ok in H1 as (default & _ & H1).
  apply bind_Ok in H1 as ([count d2] & _ & H1). destruct (_ <? count); [done|].
  apply bind_Ok in H1 as ([rs d3] & _ & H1). destruct (negb _); [done|].
  apply bind_Ok in H1 as (encoded & He & H1). case_decide as Heq; [|done].
  injection H1 as <-. apply policy_new_canonical.
Qed.

(** Decoding untrusted bytes is canonical and total. It never aborts; and a
    document that decodes is the one byte string its policy encodes to, carries
    the requested revision, is in canonical order, and has at most 1024 rules with
    distinct identities, every rule within the limits on peers, labels, networks
    and port intervals. So two different documents never decode to one policy. *)
Theorem policy_document_canonical rev bytes :
  match decode_policy_document rev bytes with
  | Ok p => encode_policy_document p = Ok bytes /\ revision p = rev /\
            (forall bytes', decode_policy_document rev bytes' = Ok p -> bytes' = bytes) /\
            policy_canonical p /\ lenN (rules p) <= MAX_POLICY_RULES /\
            NoDup (rule_id <$> rules p) /\ Forall rule_fits (rules p)
  | Err _ => True
  | Panic => False
  end.
Proof.
  pose proof (no_panic_decode_policy rev bytes) as Hn.
  destruct (decode_policy_document rev bytes) as [p|e|] eqn:Hd; [|done|by apply Hn].
  pose proof (decode_is_encoding _ _ _ Hd) as [He Hrev]. pose proof He as (_ & Hc & Hf & Hnd)%encode_policy_Ok.
  split_and!; try done; [|by eapply decode_is_new].
  intros bytes' [He' _]%decode_is_encoding. congruence.
Qed.
End documents.

(** ** Examples *)

Section examples.
#[local] Existing Instance ipnet_prefix.
#[local] Existing Instance uuid_rfc.

Lemma example_id_wf n : n < 1000 -> id_wf (example_id n).
Proof.
  intros Hn. assert (Hall : forallb (fun i => (id_uuid (example_id i) <? 2 ^ 128) &&
    bool_decide (from_uuid (id_uuid (example_id i)) = Some (example_id i)))
    (N.of_nat <$> seq 0 1000) = true) by (vm_compute; reflexivity).
  rewrite forallb_forall in Hall. specialize (Hall n). rewrite andb_true_iff in Hall.
  destruct Hall as [H1 H2]; [|apply N.ltb_lt in H1; apply bool_decide_eq_true in H2; by split].
  apply list_elem_of_In, list_elem_of_fmap. exists (N.to_nat n). split; [lia|].
  apply elem_of_seq. lia.
Qed.

Lemma example_rule_wf n prio a : n < 1000 -> prio <= U32_MAX -> rule_wf (example_rule n prio a).
Proof.
  intros Hn Hp. split; cbn; [by apply example_id_wf|done| | |].
  - split; cbn.
    + intros i ->%elem_of_singleton. by apply example_id_wf.
    + intros k v [<- <-]%lookup_singleton_Some. done.
    + intros x ->%list_elem_of_singleton. by split_and!.
  - split; cbn; [set_solver| |set_solver]. intros k v Hk. by rewrite lookup_empty in Hk.
  - intros p ->%list_elem_of_singleton. by split_and!.
Qed.
Lemma example_policy_wf : policy_wf example_policy.
Proof.
  split; [apply policy_new_canonical|]. intros r Hr. cbn in Hr.
  assert (Hin : r ∈ [example_rule 2 5 Deny; example_rule 1 5 Allow]) by exact Hr.
  apply elem_of_cons in Hin as [-> | ->%list_elem_of_singleton]; by apply example_rule_wf.
Qed.

Definition example_document : list byte :=
  match encode_policy_document example_policy with Ok b => b | _ => [] end.

Lemma policy_document_roundtrip_witness :
  decode_policy_document 3 example_document = Ok example_policy.
Proof.
  refine (policy_document_roundtrip example_policy example_document example_policy_wf _ _).
  - vm_compute. discriminate.
  - vm_compute. reflexivity.
Defined.

End examples.

End Codec.
