(* ===== verification/PolicyEval.v ===== *)
(** * The stateful evaluator (crate [peerward-policy], evaluator.rs)

    Flow state is a [HashMap] with two [BTreeSet] indices, by deadline and by
    last use; audit throttling a [HashMap] with one.  Methods that take
    [&mut self] return the next evaluator; [||] over them evaluates, and
    mutates, from left to right and stops at the first success, as the code. *)

From S2P Require Import Prelude Ordered Net PolicyDoc.
From Stdlib Require Import NArith ZArith Lia Strings.Byte.
From stdpp Require Import base tactics decidable countable numbers list gmap.
Import Pol.
Set Default Goal Selector "!".
Local Open Scope N_scope.

Module Ev.

(** ** Data *)

Record FlowKey := mkFlowKey {
  source : IpAddr;
  destination : IpAddr;
  protocol : IpProtocol;
  source_port : option N;
  destination_port : option N;
}.
#[export] Instance FlowKey_eq_dec : EqDecision FlowKey.
Proof. solve_decision. Defined.
Definition FlowKey_tuple (k : FlowKey) : IpAddr * (IpAddr * (IpProtocol * (option N * option N))) :=
  (source k, (destination k, (protocol k, (source_port k, destination_port k)))).
Definition FlowKey_of_tuple (t : IpAddr * (IpAddr * (IpProtocol * (option N * option N)))) : FlowKey :=
  let '(a, (b, (c, (d, e)))) := t in mkFlowKey a b c d e.
#[export] Instance FlowKey_countable : Countable FlowKey.
Proof. apply (inj_countable' FlowKey_tuple FlowKey_of_tuple). by intros []. Defined.
#[export] Instance FlowKey_compare : Compare FlowKey := compare_via FlowKey_tuple.
#[export] Instance FlowKey_compare_laws : CompareLaws FlowKey.
Proof.
  apply compare_via_laws. intros [] [] Heq. unfold FlowKey_tuple in Heq. cbn in Heq.
  by simplify_eq.
Qed.

Definition reverse (k : FlowKey) : FlowKey :=
  mkFlowKey (destination k) (source k) (protocol k) (destination_port k) (source_port k).

Record Packet := mkPacket {
  packet_mesh : MeshId;
  packet_source : PeerDescriptor;
  packet_destination : PeerDescriptor;
  flow : FlowKey;
  initiating : bool;
  related_flow : option FlowKey;
  fragment_of : option FlowKey;
}.

Record Decision := mkDecision {
  action : Action;
  decision_rule_id : option RuleId;
  emit_denial_audit : bool;
  decision_revision : N;
}.

Record StateEntry := mkEntry { expires_at : N; touched_at : N }.

Definition flow_lifetime (p : IpProtocol) : N :=
  if bool_decide (p = TCP) then 300 else if bool_decide (p = UDP) then 60 else 30.

(** ** Operations *)

Section evaluator.
Context `{IpNetLib}.

Record Evaluator := mkEvaluator {
  mesh_id : MeshId;
  policy : Policy;
  states : gmap FlowKey StateEntry;
  state_expirations : gset (N * FlowKey);
  state_recency : gset (N * FlowKey);
  denial_audits : gmap FlowKey N;
  denial_expirations : gset (N * FlowKey);
  max_states : N;
  expiry_budget : nat;
  denial_interval : N;
}.
Implicit Types self : Evaluator.

Definition new (mesh : MeshId) (policy : Policy) (max_states : N) (expiry_budget : nat)
    (denial_interval : N) : Evaluator :=
  mkEvaluator mesh policy ∅ ∅ ∅ ∅ ∅ max_states expiry_budget denial_interval.

Definition with_states self (m : gmap FlowKey StateEntry) (e r : gset (N * FlowKey)) : Evaluator :=
  mkEvaluator (mesh_id self) (policy self) m e r (denial_audits self) (denial_expirations self)
    (max_states self) (expiry_budget self) (denial_interval self).
Definition with_audits self (m : gmap FlowKey N) (e : gset (N * FlowKey)) : Evaluator :=
  mkEvaluator (mesh_id self) (policy self) (states self) (state_expirations self)
    (state_recency self) m e (max_states self) (expiry_budget self) (denial_interval self).

Definition replace_policy (new_policy : Policy) self : outcome PolicyError Evaluator :=
  if revision new_policy <=? revision (policy self) then Err RevisionRollback
  else Ok (mkEvaluator (mesh_id self) new_policy ∅ ∅ ∅ ∅ ∅ (max_states self)
             (expiry_budget self) (denial_interval self)).

Definition remove_state (key : FlowKey) self : Evaluator :=
  match states self !! key with
  | Some entry =>
      with_states self (delete key (states self))
        (state_expirations self ∖ {[(expires_at entry, key)]})
        (state_recency self ∖ {[(touched_at entry, key)]})
  | None => self
  end.

Definition state_valid (key : FlowKey) (now : N) (refresh : bool) self : bool * Evaluator :=
  match states self !! key with
  | None => (false, self)
  | Some entry =>
      if expires_at entry <=? now then (false, remove_state key self)
      else if refresh && (touched_at entry <? now) then
        let fresh := mkEntry (sat_add now (flow_lifetime (protocol key))) now in
        (true, with_states self (<[key := fresh]> (states self))
           ((state_expirations self ∖ {[(expires_at entry, key)]}) ∪ {[(expires_at fresh, key)]})
           ((state_recency self ∖ {[(touched_at entry, key)]}) ∪ {[(touched_at fresh, key)]}))
      else (true, self)
  end.

Definition insert_state (key : FlowKey) (now : N) self : Evaluator :=
  if max_states self =? 0 then self else
  let self :=
    if max_states self <=? N.of_nat (size (states self)) then
      match bt_first (state_recency self) with
      | Some (_, oldest) => remove_state oldest self
      | None => self
      end
    else self in
  let entry := mkEntry (sat_add now (flow_lifetime (protocol key))) now in
  with_states self (<[key := entry]> (states self))
    (state_expirations self ∪ {[(expires_at entry, key)]})
    (state_recency self ∪ {[(now, key)]}).

Fixpoint expire_loop (budget : nat) (now : N) self : Evaluator :=
  match budget with
  | O => self
  | S budget' =>
      match bt_first (state_expirations self) with
      | None => self
      | Some (expires_at, key) =>
          if now <? expires_at then self else expire_loop budget' now (remove_state key self)
      end
  end.
Definition expire_some (now : N) self : Evaluator := expire_loop (expiry_budget self) now self.

Fixpoint reclaim_audits (budget : nat) (now : N) self : Evaluator :=
  match budget with
  | O => self
  | S budget' =>
      match bt_first (denial_expirations self) with
      | None => self
      | Some (last, key) =>
          if now - last <? denial_interval self then self
          else reclaim_audits budget' now
                 (with_audits self (delete key (denial_audits self))
                    (denial_expirations self ∖ {[(last, key)]}))
      end
  end.

Definition admit_denial_audit (key : FlowKey) (now : N) self : bool * Evaluator :=
  if denial_interval self =? 0 then (true, self) else
  let self := reclaim_audits (Nat.max (expiry_budget self) 1) now self in
  let admitted self :=
    (true, with_audits self (<[key := now]> (denial_audits self))
             (denial_expirations self ∪ {[(now, key)]})) in
  match denial_audits self !! key with
  | Some last =>
      if now - last <? denial_interval self then (false, self)
      else admitted (with_audits self (denial_audits self) (denial_expirations self ∖ {[(last, key)]}))
  | None =>
      if max_states self <=? N.of_nat (size (denial_audits self)) then (false, self)
      else admitted self
  end.

Definition denial (key : FlowKey) (rule_id : option RuleId) (now : N) self : Decision * Evaluator :=
  let '(emit, self) := admit_denial_audit key now self in
  (mkDecision Deny rule_id emit (revision (policy self)), self).

(** [a || b] on methods with side effects. *)
Definition or_else (f g : Evaluator -> bool * Evaluator) self : bool * Evaluator :=
  let '(b, self) := f self in if b then (true, self) else g self.

Definition has_state (packet : Packet) (now : N) : Evaluator -> bool * Evaluator :=
  match fragment_of packet with
  | Some first_fragment =>
      or_else (state_valid first_fragment now false) (state_valid (reverse first_fragment) now false)
  | None =>
      let refresh := match related_flow packet with None => true | Some _ => false end in
      or_else (state_valid (flow packet) now refresh)
        (or_else (state_valid (reverse (flow packet)) now refresh)
           (fun self => match related_flow packet with
                        | Some related => state_valid related now false self
                        | None => (false, self)
                        end))
  end.

Definition policy_decide (self : Policy) (packet : Packet) : PolicyDecision :=
  decide_initiation self (packet_source packet) (packet_destination packet)
    (protocol (flow packet)) (destination_port (flow packet)).

Definition evaluate (packet : Packet) (now : N) self : Decision * Evaluator :=
  let self := expire_some now self in
  if negb (bool_decide (packet_mesh packet = mesh_id self)) then denial (flow packet) None now self else
  let '(found, self) := has_state packet now self in
  if found then (mkDecision Allow None false (revision (policy self)), self) else
  if match fragment_of packet with Some _ => true | None => false end
     || match related_flow packet with Some _ => true | None => false end
     || negb (initiating packet)
  then denial (flow packet) None now self else
  let decision := policy_decide (policy self) packet in
  match pd_action decision with
  | Allow =>
      let self := insert_state (flow packet) now self in
      (mkDecision Allow (pd_rule_id decision) false (revision (policy self)), self)
  | Deny => denial (flow packet) (pd_rule_id decision) now self
  end.

Definition state_len self : N := N.of_nat (size (states self)).

(** ** Invariant *)

Record ev_wf self : Prop := {
  evw_expirations : index_ok expires_at (states self) (state_expirations self);
  evw_recency : index_ok touched_at (states self) (state_recency self);
  evw_audits : index_ok (fun t => t) (denial_audits self) (denial_expirations self);
  evw_states_bound : state_len self <= max_states self;
  evw_audits_bound : N.of_nat (size (denial_audits self)) <= max_states self;
  (** Idle lifetimes run from the last use. *)
  evw_lifetime : forall k e, states self !! k = Some e ->
    expires_at e = sat_add (touched_at e) (flow_lifetime (protocol k));
}.

(** What no packet changes. *)
Definition same_config self self' : Prop :=
  mesh_id self' = mesh_id self /\ policy self' = policy self /\ max_states self' = max_states self /\
  expiry_budget self' = expiry_budget self /\ denial_interval self' = denial_interval self.
#[local] Instance same_config_refl : Reflexive same_config.
Proof. done. Qed.
#[local] Instance same_config_trans : Transitive same_config.
Proof. unfold same_config. intros ???. intuition congruence. Qed.

Lemma ev_new_wf mesh p m b i : ev_wf (new mesh p m b i).
Proof. split; cbn; try apply index_ok_empty; unfold state_len; cbn; rewrite ?map_size_empty; try lia.
  intros k e. by rewrite lookup_empty. Qed.

Lemma remove_state_lookup key self k :
  states (remove_state key self) !! k = if decide (key = k) then None else states self !! k.
Proof.
  unfold remove_state. destruct (states self !! key) eqn:Hk; cbn.
  - apply lookup_delete.
  - case_decide; by subst.
Qed.
Lemma remove_state_frame key self :
  same_config self (remove_state key self) /\ denial_audits (remove_state key self) = denial_audits self.
Proof. unfold remove_state. by destruct (states self !! key). Qed.
Lemma remove_state_wf key self : ev_wf self -> ev_wf (remove_state key self).
Proof.
  intros [He Hr Ha Hs Hd Hlt]. unfold remove_state. destruct (states self !! key) as [e|] eqn:Hk; [|done].
  split; cbn; try done; [by apply index_ok_delete|by apply index_ok_delete| |].
  - unfold state_len in *; cbn. rewrite map_size_delete_Some by eauto. lia.
  - intros k e' [_ Hk']%lookup_delete_Some. by apply Hlt.
Qed.

(** Everything that only drops flows. *)
Definition only_drops (now : N) self self' : Prop :=
  ev_wf self' /\ same_config self self' /\ denial_audits self' = denial_audits self /\
  (forall k e, states self' !! k = Some e -> states self !! k = Some e) /\
  (forall k e, states self !! k = Some e -> now < expires_at e -> states self' !! k = Some e).

Lemma only_drops_refl now self : ev_wf self -> only_drops now self self.
Proof. done. Qed.
Lemma only_drops_trans now s1 s2 s3 : only_drops now s1 s2 -> only_drops now s2 s3 -> only_drops now s1 s3.
Proof.
  intros (_ & Hc1 & Ha1 & Hk1 & Hl1) (Hw2 & Hc2 & Ha2 & Hk2 & Hl2).
  split_and!; [done|by etrans|congruence|naive_solver|naive_solver].
Qed.
Lemma remove_expired now key self e :
  ev_wf self -> states self !! key = Some e -> expires_at e <= now ->
  only_drops now self (remove_state key self).
Proof.
  intros Hw Hk He. destruct (remove_state_frame key self) as [Hc Ha].
  split_and!; [by apply remove_state_wf|done|done| |].
  - intros k e'. rewrite remove_state_lookup. by case_decide.
  - intros k e' Hk' Hlive. rewrite remove_state_lookup. case_decide; [|done].
    subst k. assert (e' = e) as -> by congruence. lia.
Qed.

Lemma expire_loop_drops budget now self : ev_wf self -> only_drops now self (expire_loop budget now self).
Proof.
  revert self. induction budget as [|b IH]; intros self Hw; cbn; [by apply only_drops_refl|].
  destruct (bt_first _) as [[t key]|] eqn:Hf; [|by apply only_drops_refl].
  destruct (N.ltb_spec now t); [by apply only_drops_refl|].
  destruct (index_ok_first _ _ _ _ _ (evw_expirations _ Hw) Hf) as (e & Hk & <- & _).
  assert (Hd : only_drops now self (remove_state key self)) by by eapply remove_expired.
  eapply only_drops_trans; [exact Hd|]. apply IH, Hd.
Qed.

(** The effect of one lookup: either it fails and at most drops the dead entry,
    or the entry is live and at most refreshed. *)
Lemma state_valid_false key now refresh self self' :
  ev_wf self -> state_valid key now refresh self = (false, self') ->
  only_drops now self self' /\ states self' !! key = None.
Proof.
  intros Hw. unfold state_valid. destruct (states self !! key) as [e|] eqn:Hk.
  - destruct (N.leb_spec (expires_at e) now); [|by destruct (_ && _)].
    intros [= <-]. split; [by eapply remove_expired|].
    rewrite remove_state_lookup. by rewrite decide_True.
  - intros [= <-]. split; [by apply only_drops_refl|done].
Qed.
Lemma state_valid_true key now refresh self self' :
  ev_wf self -> state_valid key now refresh self = (true, self') ->
  ev_wf self' /\ same_config self self' /\ denial_audits self' = denial_audits self /\
  (exists e, states self !! key = Some e /\ now < expires_at e) /\
  (refresh = true -> exists e, states self' !! key = Some e /\ now <= touched_at e).
Proof.
  intros Hw. unfold state_valid. destruct (states self !! key) as [e|] eqn:Hk; [|done].
  destruct (N.leb_spec (expires_at e) now); [done|].
  destruct (refresh && _) eqn:Href; intros [= <-].
  - destruct Hw as [He Hr Ha Hs Hd Hlt]. set (fresh := mkEntry _ _).
    split_and!; try done; [|by eauto|].
    2:{ intros _. exists fresh. cbn. by rewrite lookup_insert_eq. }
    split; cbn; try done.
    + by apply (index_ok_replace expires_at _ _ key fresh e).
    + by apply (index_ok_replace touched_at _ _ key fresh e).
    + unfold state_len in *; cbn. rewrite map_size_insert_Some by eauto. lia.
    + intros k e' [[<- <-]|[_ Hk']]%lookup_insert_Some; [done|by apply Hlt].
  - split_and!; try done; [by eauto|]. intros ->. cbn in Href. apply N.ltb_ge in Href. eauto.
Qed.

Definition valid_key self (now : N) (k : FlowKey) : Prop :=
  exists e, states self !! k = Some e /\ now < expires_at e.

(** The contract of a state lookup over the keys [K]: failure leaves none of
    them and drops only dead entries; success means one of them is live. *)
Definition lookup_ok (now : N) (K : FlowKey -> Prop) (refresh : Prop)
    (m : Evaluator -> bool * Evaluator) : Prop :=
  forall self self', ev_wf self ->
  (m self = (false, self') ->
     only_drops now self self' /\ forall k, K k -> states self' !! k = None) /\
  (m self = (true, self') ->
     ev_wf self' /\ same_config self self' /\ denial_audits self' = denial_audits self /\
     (exists k, K k /\ valid_key self now k) /\
     (refresh -> exists k e, K k /\ states self' !! k = Some e /\ now <= touched_at e)).

Lemma state_valid_ok key now (refresh : bool) :
  lookup_ok now (eq key) (refresh = true) (state_valid key now refresh).
Proof.
  intros self self' Hw. split.
  - intros [Hd Hn]%state_valid_false; [|done]. split; [done|]. by intros k <-.
  - intros (Hw' & Hc & Ha & Hv & Hr)%state_valid_true; [|done]. split_and!; try done.
    + by exists key.
    + intros Href. destruct (Hr Href) as (e & He & Ht). by exists key, e.
Qed.

Lemma lookup_ok_weaken now (K K' : FlowKey -> Prop) (R R' : Prop) m :
  (forall k, K k <-> K' k) -> (R' -> R) -> lookup_ok now K R m -> lookup_ok now K' R' m.
Proof.
  intros HK HR Hm self self' Hw. destruct (Hm self self' Hw) as [Hf Ht]. split.
  - intros [Hd Hn]%Hf. split; [done|]. intros k Hk. by apply Hn, HK.
  - intros (? & ? & ? & (k & Hk & Hv) & Hr)%Ht. split_and!; try done.
    + exists k. by rewrite <- HK.
    + intros (k' & e & Hk' & He)%HR%Hr. exists k', e. by rewrite <- HK.
Qed.

Lemma or_else_ok now K1 K2 (R : Prop) f g :
  lookup_ok now K1 R f -> lookup_ok now K2 R g ->
  lookup_ok now (fun k => K1 k \/ K2 k) R (or_else f g).
Proof.
  intros Hf Hg self self' Hw. unfold or_else.
  destruct (f self) as [b self1] eqn:H1. destruct (Hf self self1 Hw) as [Hff Hft].
  destruct b.
  - destruct (Hft H1) as (Hw1 & Hc & Ha & (k & Hk & Hv) & Hr).
    split; [done|]. intros [= <-]. split_and!; try done; [by eauto|].
    intros (k' & e & Hk' & He)%Hr. exists k', e. split; [by left|done].
  - destruct (Hff H1) as [Hd1 Hn1]. pose proof Hd1 as (Hw1 & Hc1 & Ha1 & Hold & _).
    destruct (Hg self1 self' Hw1) as [Hgf Hgt]. split.
    + intros [Hd2 Hn2]%Hgf. split; [by eapply only_drops_trans|].
      intros k [Hk|Hk]; [|by apply Hn2]. destruct Hd2 as (_ & _ & _ & Hold2 & _).
      destruct (states self' !! k) eqn:He; [|done]. apply Hold2 in He. by rewrite Hn1 in He.
    + intros (Hw2 & Hc2 & Ha2 & (k & Hk & e & He & Hl) & Hr)%Hgt. split_and!; try done.
      * by etrans.
      * congruence.
      * exists k. split; [by right|]. exists e. split; [by apply Hold|done].
      * intros (k' & e' & Hk' & He')%Hr. exists k', e'. split; [by right|done].
Qed.

(** The keys a packet may borrow state from. *)
Definition borrowed (packet : Packet) (k : FlowKey) : Prop :=
  match fragment_of packet with
  | Some first => k = first \/ k = reverse first
  | None => k = flow packet \/ k = reverse (flow packet) \/ related_flow packet = Some k
  end.
Definition refreshes (packet : Packet) : Prop := fragment_of packet = None /\ related_flow packet = None.

Lemma has_state_ok packet now : lookup_ok now (borrowed packet) (refreshes packet) (has_state packet now).
Proof.
  unfold has_state, borrowed, refreshes. destruct (fragment_of packet) as [first|].
  - eapply lookup_ok_weaken; [| |apply or_else_ok; apply state_valid_ok]; [|by intros [[=] _]].
    intros k. cbn. naive_solver.
  - eapply (lookup_ok_weaken now (fun k => flow packet = k \/ reverse (flow packet) = k \/
      related_flow packet = Some k) _ (related_flow packet = None)); [intros k; cbn; naive_solver|tauto|].
    apply or_else_ok; [|apply or_else_ok].
    + eapply lookup_ok_weaken; [done| |apply state_valid_ok]. by intros ->.
    + eapply lookup_ok_weaken; [done| |apply state_valid_ok]. by intros ->.
    + destruct (related_flow packet) as [related|].
      * eapply lookup_ok_weaken; [| |apply (state_valid_ok related now false)]; [|done].
        intros k. cbn. naive_solver.
      * intros self self' Hw. split; [|done]. intros [= <-]. split; [by apply only_drops_refl|done].
Qed.

Lemma lookup_live now K R m self :
  lookup_ok now K R m -> ev_wf self -> (exists k, K k /\ valid_key self now k) -> (m self).1 = true.
Proof.
  intros Hm Hw (k & Hk & e & He & Hl). destruct (m self) as [[] self'] eqn:Hms; [done|].
  destruct (Hm self self' Hw) as [Hf _]. destruct (Hf Hms) as [(_ & _ & _ & _ & Hkeep) Hn].
  specialize (Hkeep _ _ He Hl). by rewrite Hn in Hkeep.
Qed.

(** *** Insertion *)

Lemma insert_state_spec key now self :
  ev_wf self -> states self !! key = None ->
  ev_wf (insert_state key now self) /\ same_config self (insert_state key now self) /\
  denial_audits (insert_state key now self) = denial_audits self /\
  (max_states self <> 0 -> states (insert_state key now self) !! key =
     Some (mkEntry (sat_add now (flow_lifetime (protocol key))) now)).
Proof.
  intros Hw Hnone. unfold insert_state. destruct (N.eqb_spec (max_states self) 0); [done|].
  set (self1 := if _ <=? _ then _ else _).
  assert (Hself1 : ev_wf self1 /\ same_config self self1 /\ denial_audits self1 = denial_audits self /\
    states self1 !! key = None /\ state_len self1 < max_states self).
  { unfold self1, state_len. destruct (N.leb_spec (max_states self) (N.of_nat (size (states self)))); [|done].
    destruct (bt_first _) as [[t old]|] eqn:Hf.
    - destruct (index_ok_first _ _ _ _ _ (evw_recency _ Hw) Hf) as (e & Hk & _).
      destruct (remove_state_frame old self) as [Hc Ha].
      split_and!; [by apply remove_state_wf|done|done| |].
      + rewrite remove_state_lookup. by case_decide.
      + unfold remove_state. rewrite Hk. cbn. rewrite map_size_delete_Some by eauto.
        pose proof (evw_states_bound _ Hw) as Hb. unfold state_len in Hb.
        assert (size (states self) <> 0)%nat
          by (intros Hz%map_size_empty_inv; by rewrite Hz, lookup_empty in Hk). lia.
    - apply (index_ok_first_None _ _ _ (evw_recency _ Hw)) in Hf.
      rewrite Hf, map_size_empty in *. lia. }
  clearbody self1. destruct Hself1 as ([He Hr Ha Hs Hd Hlt] & Hc & Haud & Hn1 & Hroom).
  set (entry := mkEntry _ _).
  assert (Hmax : max_states self1 = max_states self) by apply Hc.
  split_and!; [|done|done|intros _; cbn; by rewrite lookup_insert_eq].
  split; cbn [with_states states state_expirations state_recency denial_audits denial_expirations max_states].
  - by apply (index_ok_insert_new expires_at _ _ key entry).
  - by apply (index_ok_insert_new touched_at _ _ key entry).
  - done.
  - unfold state_len in *; cbn. rewrite map_size_insert_None by done. lia.
  - done.
  - intros k e [[<- <-]|[_ Hk]]%lookup_insert_Some; [done|by apply Hlt].
Qed.

(** *** Audit throttling *)

Definition recent self (now : N) (key : FlowKey) (last : N) : Prop :=
  denial_audits self !! key = Some last /\ now - last < denial_interval self.

(** What a denial may do: leave the flows alone and keep recent audits. *)
Definition audits_only (now : N) self self' : Prop :=
  ev_wf self' /\ same_config self self' /\ states self' = states self /\
  forall k last, recent self now k last -> recent self' now k last.

Lemma reclaim_audits_spec budget now self :
  ev_wf self -> audits_only now self (reclaim_audits budget now self).
Proof.
  revert self. induction budget as [|b IH]; intros self Hw; cbn; [done|].
  destruct (bt_first _) as [[last key]|] eqn:Hf; [|done].
  destruct (N.ltb_spec (now - last) (denial_interval self)) as [|Hold]; [done|].
  pose proof Hw as [He Hr Ha Hs Hd Hlt].
  destruct (index_ok_first _ _ _ _ _ Ha Hf) as (v & Hk & <- & _).
  set (self1 := with_audits _ _ _).
  assert (Hw1 : ev_wf self1).
  { split; cbn; try done.
    - by apply (index_ok_delete (fun t => t) _ _ key v).
    - rewrite map_size_delete_Some by eauto. lia. }
  destruct (IH self1 Hw1) as (Hw2 & Hc2 & Hs2 & Hrec). split_and!; try done.
  intros k l [Hl Hlt']. apply Hrec. split; [|done]. cbn. rewrite lookup_delete_ne; [done|].
  intros <-. assert (l = v) as -> by congruence. lia.
Qed.

Lemma admit_denial_audit_spec key now self b self' :
  ev_wf self -> admit_denial_audit key now self = (b, self') ->
  ev_wf self' /\ same_config self self' /\ states self' = states self /\
  (forall last, recent self now key last -> b = false) /\
  (forall k last, recent self now k last -> recent self' now k last) /\
  (b = true -> denial_interval self <> 0 -> denial_audits self' !! key = Some now).
Proof.
  intros Hw. unfold admit_denial_audit. destruct (N.eqb_spec (denial_interval self) 0) as [Hz|Hnz].
  { intros [= <- <-]. split_and!; try done. intros last [_ Hl]. lia. }
  destruct (reclaim_audits_spec (Nat.max (expiry_budget self) 1) now self Hw) as (Hw1 & Hc1 & Hs1 & Hrec).
  set (self1 := reclaim_audits _ now self) in *. clearbody self1.
  assert (Hint : denial_interval self1 = denial_interval self) by apply Hc1.
  assert (Hmax : max_states self1 = max_states self) by apply Hc1.
  pose proof Hw1 as [He Hr Ha Hs Hd Hlt].
  destruct (denial_audits self1 !! key) as [last|] eqn:Hk.
  - destruct (N.ltb_spec (now - last) (denial_interval self1)) as [|Hold]; intros [= <- <-].
    { split_and!; try done. }
    split_and!; try done.
    + split; cbn; try done.
      * by apply (index_ok_replace (fun t => t) _ _ key now last).
      * rewrite map_size_insert_Some by eauto. lia.
    + intros l [Hl Hll]%Hrec. assert (l = last) as -> by congruence. lia.
    + intros k l [Hl Hll]%Hrec. split; [|done]. cbn. rewrite lookup_insert_ne; [done|].
      intros <-. assert (l = last) as -> by congruence. lia.
    + intros _ _. cbn. by rewrite lookup_insert_eq.
  - destruct (N.leb_spec (max_states self1) (N.of_nat (size (denial_audits self1)))); intros [= <- <-].
    { split_and!; try done. }
    split_and!; try done.
    + split; cbn; try done.
      * by apply (index_ok_insert_new (fun t => t) _ _ key now).
      * rewrite map_size_insert_None by done. lia.
    + intros l [Hl Hll]%Hrec. congruence.
    + intros k l [Hl Hll]%Hrec. split; [|done]. cbn. rewrite lookup_insert_ne; [done|]. congruence.
    + intros _ _. cbn. by rewrite lookup_insert_eq.
Qed.

(** *** One evaluation *)

Lemma denial_spec key rid now self d self' :
  ev_wf self -> denial key rid now self = (d, self') ->
  ev_wf self' /\ same_config self self' /\ states self' = states self /\
  action d = Deny /\ decision_revision d = revision (policy self) /\ decision_rule_id d = rid /\
  (forall last, recent self now key last -> emit_denial_audit d = false) /\
  (forall k last, recent self now k last -> recent self' now k last) /\
  (emit_denial_audit d = true -> denial_interval self <> 0 -> denial_audits self' !! key = Some now).
Proof.
  intros Hw. unfold denial. destruct (admit_denial_audit key now self) as [b s1] eqn:Ha.
  apply admit_denial_audit_spec in Ha as (Hw1 & Hc & Hs & Hb & Hr & He); [|done].
  intros [= <- <-]. cbn. assert (policy s1 = policy self) as -> by apply Hc. split_and!; auto.
Qed.

(** Everything an evaluation guarantees, whatever it decides. *)
Record evaluated self (packet : Packet) (now : N) (d : Decision) self' : Prop := {
  ed_wf : ev_wf self';
  ed_config : same_config self self';
  ed_revision : decision_revision d = revision (policy self);
  ed_throttled : forall last, recent self now (flow packet) last -> emit_denial_audit d = false;
  ed_recent : forall k last, recent self now k last -> recent self' now k last;
  ed_emitted : emit_denial_audit d = true -> denial_interval self <> 0 ->
    denial_audits self' !! flow packet = Some now;
  ed_deny : action d = Deny -> forall k e, states self' !! k = Some e -> states self !! k = Some e;
  ed_allow : action d = Allow ->
    packet_mesh packet = mesh_id self /\ emit_denial_audit d = false /\
    (decision_rule_id d = None /\ (exists k, borrowed packet k /\ valid_key self now k) \/
     refreshes packet /\ initiating packet = true /\
     pd_action (policy_decide (policy self) packet) = Allow /\
     decision_rule_id d = pd_rule_id (policy_decide (policy self) packet));
  ed_open : action d = Allow -> refreshes packet -> max_states self <> 0 ->
    exists k e, (k = flow packet \/ k = reverse (flow packet)) /\ states self' !! k = Some e /\
      now <= touched_at e;
}.

Lemma recent_drops now self self1 k last :
  only_drops now self self1 -> recent self now k last -> recent self1 now k last.
Proof.
  intros (_ & Hc & Ha & _) [Hl Hlt]. split; [by rewrite Ha|].
  assert (denial_interval self1 = denial_interval self) as -> by apply Hc. done.
Qed.

Lemma denied_evaluated packet now rid self self1 d self' :
  only_drops now self self1 -> denial (flow packet) rid now self1 = (d, self') ->
  evaluated self packet now d self'.
Proof.
  intros Hd (Hw & Hc & Hs & Hact & Hrev & _ & Ht & Hr & He)%denial_spec; [|apply Hd].
  pose proof Hd as (_ & Hc1 & Ha1 & Hold & _). pose proof Hc1 as (Hm & Hp & Hx & Hb & Hi).
  split; try congruence.
  - by etrans.
  - intros last Hl. eapply Ht, recent_drops; done.
  - intros k last Hl. eapply Hr, recent_drops; done.
  - intros Hem Hint. apply He; [done|congruence].
  - intros _ k e. rewrite Hs. apply Hold.
Qed.

Lemma evaluate_spec packet now self d self' :
  ev_wf self -> evaluate packet now self = (d, self') -> evaluated self packet now d self'.
Proof.
  intros Hw. unfold evaluate. pose proof (expire_loop_drops (expiry_budget self) now self Hw) as Hd.
  fold (expire_some now self) in Hd. set (self1 := expire_some now self) in *. clearbody self1.
  pose proof Hd as (Hw1 & Hc1 & Ha1 & Hold1 & _). pose proof Hc1 as (Hm & Hp & Hx & Hb & Hi).
  destruct (bool_decide_reflect (packet_mesh packet = mesh_id self1)) as [Hmesh|]; cbn [negb];
    [|by apply denied_evaluated].
  destruct (has_state packet now self1) as [found self2] eqn:Hst.
  destruct (has_state_ok packet now self1 self2 Hw1) as [Hf Ht]. destruct found.
  - destruct (Ht Hst) as (Hw2 & Hc2 & Ha2 & (k & Hk & e & He & Hl) & Hr). intros [= <- <-].
    pose proof Hc2 as (Hm2 & Hp2 & Hx2 & Hb2 & Hi2).
    split; cbn; try done; try congruence.
    + by etrans.
    + intros k' last [Hl' Hlt']. split; congruence.
    + intros _. split_and!; [congruence|done|]. left. split; [done|].
      exists k. split; [done|]. exists e. split; [by apply Hold1|done].
    + intros _ Href _. destruct (Hr Href) as (k' & e' & Hk' & He' & Htouch).
      exists k', e'. split_and!; try done. destruct Href as [Hfr Hrel].
      unfold borrowed in Hk'. rewrite Hfr, Hrel in Hk'. naive_solver.
  - destruct (Hf Hst) as [Hd2 Hn2].
    assert (Hdd : only_drops now self self2) by by eapply only_drops_trans.
    destruct (_ || _) eqn:Hg; [by apply denied_evaluated|].
    apply orb_false_iff in Hg as [[Hfr Hrel]%orb_false_iff Hinit]. apply negb_false_iff in Hinit.
    assert (Hrf : refreshes packet).
    { split; [by destruct (fragment_of packet)|by destruct (related_flow packet)]. }
    destruct (pd_action (policy_decide (policy self2) packet)) eqn:Hact; [|by apply denied_evaluated].
    pose proof Hdd as (Hw2 & Hc2 & Ha2 & _). pose proof Hc2 as (Hm2 & Hp2 & Hx2 & Hb2 & Hi2).
    destruct (insert_state_spec (flow packet) now self2) as (Hw3 & Hc3 & Ha3 & Hin); [done| |].
    { apply Hn2. unfold borrowed. rewrite (proj1 Hrf). by left. }
    pose proof Hc3 as (Hm3 & Hp3 & Hx3 & Hb3 & Hi3).
    intros [= <- <-]. split; cbn; try done; try congruence.
    + by etrans.
    + intros k' last [Hl' Hlt']. split; congruence.
    + intros _. split_and!; [congruence|done|]. right. rewrite Hp2 in *. done.
    + intros _ _ Hmax. eexists _, _. split; [by left|]. split; [apply Hin; congruence|]. cbn. lia.
Qed.

(** ** Main theorems *)

Inductive EvOp := OpEvaluate (packet : Packet) (now : N) | OpReplace (new_policy : Policy).
(** A refused replacement leaves the evaluator as it is. *)
Definition ev_apply self (op : EvOp) : Evaluator :=
  match op with
  | OpEvaluate packet now => (evaluate packet now self).2
  | OpReplace p => match replace_policy p self with Ok self' => self' | _ => self end
  end.
Definition ev_run (ops : list EvOp) self : Evaluator := foldl ev_apply self ops.

Lemma replace_policy_wf p self self' : replace_policy p self = Ok self' -> ev_wf self'.
Proof.
  unfold replace_policy. destruct (_ <=? _); [done|]. intros [= <-].
  split; cbn; try apply index_ok_empty; unfold state_len; cbn; rewrite ?map_size_empty; try lia.
  intros k e. by rewrite lookup_empty.
Qed.
Lemma ev_apply_wf op self : ev_wf self -> ev_wf (ev_apply self op).
Proof.
  intros Hw. destruct op as [packet now|p]; cbn.
  - destruct (evaluate packet now self) as [d s1] eqn:He. cbn.
    by eapply ed_wf, evaluate_spec.
  - destruct (replace_policy p self) eqn:Hr; [|done..]. by eapply replace_policy_wf.
Qed.
Lemma ev_run_wf ops self : ev_wf self -> ev_wf (ev_run ops self).
Proof.
  revert self. induction ops as [|op ops IH]; intros self Hw; [done|]. by apply IH, ev_apply_wf.
Qed.
Lemma ev_apply_max op self : ev_wf self -> max_states (ev_apply self op) = max_states self.
Proof.
  intros Hw. destruct op as [packet now|p]; cbn.
  - destruct (evaluate packet now self) as [d s1] eqn:He. cbn.
    apply evaluate_spec in He; [|done]. apply (ed_config _ _ _ _ _ He).
  - unfold replace_policy. by destruct (_ <=? _).
Qed.

(** Over any run of evaluations and policy replacements the three indices
    describe their tables, and neither the flow table nor the audit table ever
    holds more than [max_states] entries, nor does an idle lifetime run from
    anything but the last use. *)
Theorem evaluator_invariant mesh p max budget interval ops :
  let self := ev_run ops (new mesh p max budget interval) in
  ev_wf self /\ state_len self <= max /\ N.of_nat (size (denial_audits self)) <= max.
Proof.
  cbn zeta. assert (Hmax : forall self, ev_wf self -> max_states (ev_run ops self) = max_states self).
  { induction ops as [|op ops IH]; intros self Hw; [done|].
    change (ev_run (op :: ops) self) with (ev_run ops (ev_apply self op)). rewrite IH by (by apply ev_apply_wf). by apply ev_apply_max. }
  pose proof (ev_new_wf mesh p max budget interval) as Hw0.
  pose proof (ev_run_wf ops _ Hw0) as Hw. pose proof (Hmax _ Hw0) as Hm.
  change (max_states (new mesh p max budget interval)) with max in Hm.
  pose proof (evw_states_bound _ Hw). pose proof (evw_audits_bound _ Hw).
  split_and!; [done|lia|lia].
Qed.

(** A packet is allowed only inside the evaluator's mesh, and only because
    a live flow in either direction (or the related or first-fragment flow it
    names) exists, or because it initiates and the ordered policy allows it,
    in which case the decision carries that rule. *)
Theorem evaluate_allow_justified packet now self d self' :
  ev_wf self -> evaluate packet now self = (d, self') -> action d = Allow ->
  packet_mesh packet = mesh_id self /\ emit_denial_audit d = false /\
  (decision_rule_id d = None /\ (exists k, borrowed packet k /\ valid_key self now k) \/
   refreshes packet /\ initiating packet = true /\
   pd_action (policy_decide (policy self) packet) = Allow /\
   decision_rule_id d = pd_rule_id (policy_decide (policy self) packet)).
Proof. intros Hw He. apply evaluate_spec in He; [|done]. apply (ed_allow _ _ _ _ _ He). Qed.

(** A denial creates and refreshes no flow. *)
Theorem evaluate_deny_no_state packet now self d self' k e :
  ev_wf self -> evaluate packet now self = (d, self') -> action d = Deny ->
  states self' !! k = Some e -> states self !! k = Some e.
Proof. intros Hw He Hd. apply evaluate_spec in He; [|done]. by apply (ed_deny _ _ _ _ _ He). Qed.

(** An allowed packet keeps its connection open: any packet of the flow, in
    either direction, that arrives within the idle lifetime is allowed from
    state, whatever the policy says. *)
Theorem allowed_flow_stays_open packet now self d self' reply t :
  ev_wf self -> max_states self <> 0 -> refreshes packet ->
  evaluate packet now self = (d, self') -> action d = Allow ->
  packet_mesh reply = mesh_id self -> fragment_of reply = None ->
  flow reply = flow packet \/ flow reply = reverse (flow packet) ->
  t < sat_add now (flow_lifetime (protocol (flow packet))) ->
  (evaluate reply t self').1 = mkDecision Allow None false (revision (policy self)).
Proof.
  intros Hw Hmax Href He Hact Hmesh Hfr Hflow Ht. apply evaluate_spec in He; [|done].
  destruct (ed_open _ _ _ _ _ He Hact Href Hmax) as (k & e & Hk & Hst & Htouch).
  pose proof (ed_wf _ _ _ _ _ He) as Hw'. destruct (ed_config _ _ _ _ _ He) as (Hm & Hp & _).
  assert (Hrev : reverse (reverse (flow packet)) = flow packet) by by destruct (flow packet).
  assert (Hlive : t < expires_at e).
  { rewrite (evw_lifetime _ Hw' _ _ Hst).
    assert (protocol k = protocol (flow packet)) as -> by (destruct Hk as [-> | ->]; done).
    pose proof (sat_add_mono now (touched_at e) (flow_lifetime (protocol (flow packet))) Htouch). lia. }
  unfold evaluate. pose proof (expire_loop_drops (expiry_budget self') t self' Hw') as Hd.
  fold (expire_some t self') in Hd. set (self1 := expire_some t self') in *. clearbody self1.
  destruct Hd as (Hw1 & (Hm1 & Hp1 & _) & _ & _ & Hkeep).
  rewrite bool_decide_eq_true_2 by congruence. cbn [negb].
  pose proof (lookup_live t _ _ _ self1 (has_state_ok reply t) Hw1) as Hfound.
  destruct (has_state_ok reply t self1 (has_state reply t self1).2 Hw1) as [_ Hok].
  destruct (has_state reply t self1) as [found self2]. cbn in Hfound, Hok |- *.
  assert (found = true) as ->.
  { apply Hfound. exists k. split.
    - unfold borrowed. rewrite Hfr. destruct Hk as [-> | ->], Hflow as [-> | ->]; rewrite ?Hrev; auto.
    - exists e. split; [by apply Hkeep|done]. }
  destruct (Hok eq_refl) as (_ & (_ & Hp2 & _) & _). cbn. congruence.
Qed.

(** Denials are audited at most once per interval and flow: after an
    audited denial at [t0], and as long as the clock stays within the interval
    and no policy is replaced, no denial of that flow is audited, whatever
    other packets arrive. *)
Theorem denial_audit_throttled packet t0 self d self' l packet' t :
  ev_wf self -> denial_interval self <> 0 ->
  evaluate packet t0 self = (d, self') -> emit_denial_audit d = true ->
  (forall p n, (p, n) ∈ l -> n - t0 < denial_interval self) ->
  flow packet' = flow packet -> t - t0 < denial_interval self ->
  emit_denial_audit (evaluate packet' t (ev_run ((fun e => OpEvaluate e.1 e.2) <$> l) self')).1 = false.
Proof.
  intros Hw Hint He Hem Hl Hflow Ht. apply evaluate_spec in He; [|done].
  pose proof (ed_emitted _ _ _ _ _ He Hem Hint) as Hlast.
  pose proof (ed_wf _ _ _ _ _ He) as Hw'. destruct (ed_config _ _ _ _ _ He) as (_ & _ & _ & _ & Hi).
  rewrite <- Hi in *. clear He Hi Hem Hint Hw d. revert self' Hw' Hlast Hl Ht.
  induction l as [|[p n] l IH]; intros s Hw Hlast Hl Ht.
  - cbn. destruct (evaluate packet' t s) as [d s2] eqn:He. apply evaluate_spec in He; [|done].
    apply (ed_throttled _ _ _ _ _ He t0). rewrite Hflow. by split.
  - cbn. destruct (evaluate p n s) as [d s2] eqn:He. apply evaluate_spec in He; [|done]. cbn.
    pose proof (ed_recent _ _ _ _ _ He (flow packet) t0) as Hrec.
    destruct Hrec as [Hlast2 _]; [split; [done|apply (Hl p); by left]|].
    destruct (ed_config _ _ _ _ _ He) as (_ & _ & _ & _ & Hi).
    apply IH; [apply (ed_wf _ _ _ _ _ He)|done|rewrite Hi; intros; eapply Hl; by right|by rewrite Hi].
Qed.

(** A replacement succeeds exactly when the revision increases; it then
    installs the policy and forgets every flow and audit, and otherwise
    reports a rollback. *)
Theorem replace_policy_exact p self :
  (revision (policy self) < revision p /\ exists self', replace_policy p self = Ok self' /\
     policy self' = p /\ mesh_id self' = mesh_id self /\ states self' = ∅ /\ denial_audits self' = ∅ /\
     ev_wf self') \/
  (revision p <= revision (policy self) /\ replace_policy p self = Err RevisionRollback).
Proof.
  unfold replace_policy. destruct (N.leb_spec (revision p) (revision (policy self))); [by right|].
  left. split; [done|]. eexists. split; [done|]. split_and!; try done.
  apply (replace_policy_wf p self). unfold replace_policy.
  by destruct (N.leb_spec (revision p) (revision (policy self))); [lia|].
Qed.
End evaluator.

(** ** Examples *)

Section examples.
#[local] Existing Instance ipnet_prefix.

Definition example_flow : FlowKey :=
  mkFlowKey (V4 0x0a000001) (V4 0x0a000002) TCP (Some 9) (Some 80).
Definition example_packet (k : FlowKey) (init : bool) : Packet :=
  mkPacket (example_id 7) example_peer example_peer k init None None.
Definition example_ev (a : Action) : Evaluator :=
  new (example_id 7) (policy_new 3 a []) 8 4 10.
Definition example_open : Evaluator :=
  (evaluate (example_packet example_flow true) 100 (example_ev Allow)).2.
Definition example_refused : Evaluator :=
  (evaluate (example_packet example_flow true) 100 (example_ev Deny)).2.

Lemma example_open_wf : ev_wf example_open.
Proof.
  refine (ed_wf _ _ _ _ _ (evaluate_spec (example_packet example_flow true) 100 (example_ev Allow)
    _ _ (ev_new_wf _ _ _ _ _) (surjective_pairing _))).
Qed.

Lemma evaluate_allow_justified_witness :
  exists k, borrowed (example_packet (reverse example_flow) false) k /\ valid_key example_open 120 k.
Proof.
  destruct (evaluate_allow_justified (example_packet (reverse example_flow) false) 120 example_open
    _ _ example_open_wf (surjective_pairing _)) as (_ & _ & [[_ Hk]|(_ & Hinit & _)]);
    [vm_compute; reflexivity|exact Hk|discriminate Hinit].
Defined.

Lemma evaluate_deny_no_state_witness :
  exists e, states example_open !! example_flow = Some e.
Proof.
  eexists. refine (evaluate_deny_no_state
    (example_packet (mkFlowKey (V4 1) (V4 2) UDP None None) false) 120 example_open _ _
    example_flow (mkEntry 400 100) example_open_wf (surjective_pairing _) _ _);
    vm_compute; reflexivity.
Defined.

Lemma allowed_flow_stays_open_witness :
  (evaluate (example_packet (reverse example_flow) false) 399 example_open).1 =
  mkDecision Allow None false 3.
Proof.
  refine (allowed_flow_stays_open (example_packet example_flow true) 100 (example_ev Allow) _ _
    (example_packet (reverse example_flow) false) 399 (ev_new_wf _ _ _ _ _) _ _ (surjective_pairing _)
    _ _ _ _ _); [discriminate|by split|vm_compute; reflexivity|reflexivity|reflexivity|by right|].
  vm_compute. reflexivity.
Defined.

Lemma denial_audit_throttled_witness :
  emit_denial_audit (evaluate (example_packet example_flow true) 109
    (ev_run [OpEvaluate (example_packet (reverse example_flow) true) 104] example_refused)).1 = false.
Proof.
  refine (denial_audit_throttled (example_packet example_flow true) 100 (example_ev Deny) _ _
    [(example_packet (reverse example_flow) true, 104)] (example_packet example_flow true) 109
    (ev_new_wf _ _ _ _ _) _ (surjective_pairing _) _ _ _ _);
    [discriminate|vm_compute; reflexivity| |reflexivity|vm_compute; reflexivity].
  intros p n Hin. apply list_elem_of_singleton in Hin. injection Hin as _ ->. vm_compute. reflexivity.
Defined.
End examples.

End Ev.
