(* ===== verification/QuicFragments.v ===== *)
(** * Bounded ciphertext fragmentation (crate [peerward-carrier], fragments.rs)

    The fragment codec, the retired-identity window, the reservation budgets and
    the per-connection [Reassembler].  An [Instant] is a number of nanoseconds.
    A budget is shared between reassemblers, so it is threaded through their
    operations; the compare-and-exchange loop of [Budget::reserve] is modelled
    separately as a step relation over any number of threads, and its atomic
    effect is what the operations use. *)

From S2P Require Import Prelude Ordered.
From Stdlib Require Import NArith ZArith Lia Strings.Byte.
From stdpp Require Import base tactics decidable countable numbers list gmap.
Set Default Goal Selector "!".
Local Open Scope N_scope.

Module Qf.

Definition MAX_FRAME : N := 65535.
Definition HEADER : N := 24.
Definition MAX_FRAGMENTS : N := 64.
Definition MAX_INCOMPLETE : N := 32.
Definition MAX_BUFFERED : N := 256 * 1024.
Definition LIFETIME : N := 2 * 1_000_000_000.
(** [b"PWQ1"] *)
Definition MAGIC : list byte := [x50; x57; x51; x31].

(** The distinct [invalid(..)] errors. *)
Inductive FragmentError :=
  InvalidFrame | PathTooSmall | InvalidHeader | InvalidGeometry | ConflictingGeometry
| ConflictingDuplicate.
#[export] Instance FragmentError_eq_dec : EqDecision FragmentError.
Proof. solve_decision. Defined.

(** ** Budgets *)

Record Budget := mkBudget { limit : N; used : N }.
Definition budget_new (limit : N) : Budget := mkBudget limit 0.
(** [reserve]: the new budget, the reservation being [size] bytes of it. *)
Definition reserve (size : N) (b : Budget) : option Budget :=
  match checked_add (used b) size with
  | Some next => if next <=? limit b then Some (mkBudget (limit b) next) else None
  | None => None
  end.
(** [Drop for Reservation]: [fetch_sub] wraps. *)
Definition release (size : N) (b : Budget) : Budget :=
  mkBudget (limit b) ((used b + 2 ^ 64 - size) mod 2 ^ 64).

(** ** Splitting *)

(** [T::try_from(n)] into an unsigned type of [n] bytes. *)
Definition try_from (max n : N) : outcome FragmentError N :=
  if n <=? max then Ok n else Err PathTooSmall.

Definition fragment_bytes (id total stride index count : N) (body : list byte) : list byte :=
  MAGIC ++ to_be 8 id ++ to_be 4 total ++ to_be 2 stride ++ to_be 2 index ++ to_be 2 count
  ++ [x00; x00] ++ body.

Fixpoint split_from (index : N) (id total stride count : N) (l : list (list byte))
    : outcome FragmentError (list (list byte)) :=
  match l with
  | [] => Ok []
  | body :: l' =>
      index_wire ← try_from U16_MAX index;
      rest ← split_from (index + 1) id total stride count l';
      Ok (fragment_bytes id total stride index_wire count body :: rest)
  end.

Definition split (id : N) (frame : list byte) (datagram_limit : N)
    : outcome FragmentError (list (list byte)) :=
  if (id =? 0) || (lenN frame =? 0) || (MAX_FRAME <? lenN frame) then Err InvalidFrame else
  let stride := N.min (datagram_limit - HEADER) MAX_FRAME in
  if (stride =? 0) || (MAX_FRAGMENTS <? div_ceil (lenN frame) stride) then Err PathTooSmall else
  total ← try_from U32_MAX (lenN frame);
  stride_wire ← try_from U16_MAX stride;
  count ← try_from U16_MAX (div_ceil (lenN frame) stride);
  split_from 0 id total stride_wire count (chunks stride frame).

(** ** Parsing *)

Record Header := mkHeader { h_id : N; h_total : N; h_stride : N; h_index : N; h_count : N }.

Definition be_at (bytes : list byte) (a b : N) : outcome FragmentError N :=
  from_be <$> slice bytes a b.

Definition header_parse (bytes : list byte) : outcome FragmentError Header :=
  if lenN bytes <=? HEADER then Err InvalidHeader else
  magic ← slice bytes 0 4;
  if negb (bool_decide (magic = MAGIC)) then Err InvalidHeader else
  reserved ← slice bytes 22 24;
  if negb (bool_decide (reserved = [x00; x00])) then Err InvalidHeader else
  id ← be_at bytes 4 12;
  total ← be_at bytes 12 16;
  stride ← be16_at bytes 16;
  index ← be16_at bytes 18;
  count ← be16_at bytes 20;
  if (id =? 0) || (total =? 0) || (MAX_FRAME <? total) || (stride =? 0) || (count =? 0)
     || (MAX_FRAGMENTS <? count) || (count <=? index) || negb (div_ceil total stride =? count)
  then Err InvalidGeometry else
  (* [total - index * stride] in [usize]: underflow aborts. *)
  if total <? index * stride then Panic else
  if negb (lenN bytes - HEADER =? N.min stride (total - index * stride))
  then Err InvalidGeometry
  else Ok (mkHeader id total stride index count).

(** ** The window of retired identities: 16 words of 64 bits, newest first *)

Record Retired := mkRetired { highest : N; bits : list N }.
Definition retired_default : Retired := mkRetired 0 (replicate 16 0).

Definition word (r : Retired) (i : N) : N := default 0 (bits r !! N.to_nat i).

Definition retired_contains (id : N) (self : Retired) : bool :=
  if highest self <? id then false else
  let age := highest self - id in
  (1024 <=? age) || negb (N.land (word self (age / 64)) (N.shiftl 1 (age mod 64)) =? 0).

(** [u64 << n] *)
Definition shl64 (x n : N) : N := N.shiftl x n mod 2 ^ 64.

(** Word [index] after the move by [shift] identities. *)
Definition moved_word (old : Retired) (shift index : N) : N :=
  let words := shift / 64 in
  let n := shift mod 64 in
  if index <? words then 0 else
  let low := shl64 (word old (index - words)) n in
  if negb (n =? 0) && (words <? index)
  then N.lor low (N.shiftr (word old (index - words - 1)) (64 - n))
  else low.
Definition move_window (id : N) (self : Retired) : Retired :=
  if highest self <? id then
    let shift := N.min (id - highest self) 1024 in
    mkRetired id (moved_word self shift <$> (N.of_nat <$> seq 0 16))
  else self.
Definition retired_insert (id : N) (self : Retired) : Retired :=
  let self := move_window id self in
  let age := highest self - id in
  if age <? 1024 then
    mkRetired (highest self)
      (alter (fun w => N.lor w (N.shiftl 1 (age mod 64))) (N.to_nat (age / 64)) (bits self))
  else self.

(** ** The reassembler *)

Record Partial := mkPartial {
  data : list byte;
  p_stride : N;
  p_count : N;
  seen : N;
  deadline : N;
  process_reservation : N;
  mesh_reservation : N;
}.

Record Reassembler := mkReassembler {
  frames : gmap N Partial;
  buffered : N;
  retired : Retired;
}.
Definition reassembler_new : Reassembler := mkReassembler ∅ 0 retired_default.

(** A reassembler with the budgets it shares: process and mesh. *)
Record World := mkWorld { reasm : Reassembler; process : Budget; mesh : Budget }.

Definition with_reasm (r : Reassembler) (self : World) : World :=
  mkWorld r (process self) (mesh self).
Definition retire (id : N) (self : World) : World :=
  with_reasm (mkReassembler (frames (reasm self)) (buffered (reasm self))
                (retired_insert id (retired (reasm self)))) self.

(** [buffered -= len]: underflow aborts; the removed frame drops its
    reservations. *)
Definition remove (id : N) (self : World) : outcome FragmentError (option Partial * World) :=
  match frames (reasm self) !! id with
  | None => Ok (None, self)
  | Some frame =>
      if buffered (reasm self) <? lenN (data frame) then Panic else
      Ok (Some frame,
          mkWorld (mkReassembler (delete id (frames (reasm self)))
                     (buffered (reasm self) - lenN (data frame)) (retired (reasm self)))
            (release (process_reservation frame) (process self))
            (release (mesh_reservation frame) (mesh self)))
  end.

Definition clear (self : World) : World :=
  let drop_all proj b := foldr (fun e b => release (proj e.2) b) b (bt_entries (frames (reasm self))) in
  mkWorld (mkReassembler ∅ 0 (retired (reasm self)))
    (drop_all process_reservation (process self)) (drop_all mesh_reservation (mesh self)).

Definition expired_ids (now : N) (r : Reassembler) : list N :=
  fst <$> filter (fun e => deadline e.2 <= now \/ retired_contains e.1 (retired r) = true)
            (bt_entries (frames r)).
Definition expire_one (self : World) (id : N) : outcome FragmentError World :=
  '(_, self) ← remove id self;
  Ok (retire id self).
Definition expire (now : N) (self : World) : outcome FragmentError World :=
  foldM expire_one self (expired_ids now (reasm self)).

(** The closure [reserve]: [None] leaves no reservation behind (the first is
    dropped when the second fails). *)
Definition reserve_both (total : N) (self : World) : option World :=
  if (MAX_INCOMPLETE <=? N.of_nat (size (frames (reasm self))))
     || (MAX_BUFFERED <? buffered (reasm self) + total)
  then None else
  p ← reserve total (process self);
  m ← reserve total (mesh self);
  Some (mkWorld (reasm self) p m).

Definition new_partial (h : Header) (now : N) : Partial :=
  mkPartial (replicate (N.to_nat (h_total h)) x00) (h_stride h) (h_count h) 0 (now + LIFETIME)
    (h_total h) (h_total h).

(** Finding or creating the frame of a header; [inr] returns from [push]. *)
Definition admit_frame (h : Header) (now : N) (self : World)
    : outcome FragmentError (World + World * outcome FragmentError (option (list byte))) :=
  match frames (reasm self) !! h_id h with
  | Some frame =>
      if negb (lenN (data frame) =? h_total h) || negb (p_stride frame =? h_stride h)
         || negb (p_count frame =? h_count h)
      then '(_, self) ← remove (h_id h) self;
           Ok (inr (retire (h_id h) self, Err ConflictingGeometry))
      else Ok (inl self)
  | None =>
      match reserve_both (h_total h) self with
      | None => Ok (inr (retire (h_id h) self, Ok None))
      | Some self =>
          Ok (inl (with_reasm
            (mkReassembler (<[h_id h := new_partial h now]> (frames (reasm self)))
               (buffered (reasm self) + h_total h) (retired (reasm self))) self))
      end
  end.

(** [u64::count_ones] *)
Definition count_ones (n : N) : N := lenN (filter (fun i => N.testbit n i = true) (N.of_nat <$> seq 0 64)).

Definition with_frame (id : N) (f : Partial) (self : World) : World :=
  with_reasm (mkReassembler (<[id := f]> (frames (reasm self))) (buffered (reasm self))
                (retired (reasm self))) self.

(** Storing the body in its frame. *)
Definition store (h : Header) (body : list byte) (self : World)
    : outcome FragmentError (World * outcome FragmentError (option (list byte))) :=
  frame ← expect (frames (reasm self) !! h_id h);
  let start := h_index h * h_stride h in
  let fin := start + lenN body in
  let bit := shl64 1 (h_index h) in
  if negb (N.land (seen frame) bit =? 0) then
    old ← slice (data frame) start fin;
    if negb (bool_decide (old = body)) then
      '(_, self) ← remove (h_id h) self;
      Ok (retire (h_id h) self, Err ConflictingDuplicate)
    else Ok (self, Ok None)
  else
    data' ← copy_at (data frame) start body;
    let frame := mkPartial data' (p_stride frame) (p_count frame) (N.lor (seen frame) bit)
                   (deadline frame) (process_reservation frame) (mesh_reservation frame) in
    let self := with_frame (h_id h) frame self in
    if negb (count_ones (seen frame) =? p_count frame) then Ok (self, Ok None) else
    '(done_frame, self) ← remove (h_id h) self;
    frame ← expect done_frame;
    Ok (retire (h_id h) self, Ok (Some (data frame))).

(** The outer outcome is an abort; the inner one the [io::Result]. *)
Definition push (bytes : list byte) (now : N) (self : World)
    : outcome FragmentError (World * outcome FragmentError (option (list byte))) :=
  self ← expire now self;
  match header_parse bytes with
  | Panic => Panic
  | Err e => Ok (self, Err e)
  | Ok h =>
      if retired_contains (h_id h) (retired (reasm self)) then Ok (self, Ok None) else
      admitted ← admit_frame h now self;
      match admitted with
      | inr early => Ok early
      | inl self => body ← slice_from bytes HEADER; store h body self
      end
  end.

(** ** The window as a set of identities *)

(** The bit of an age below 1024. *)
Definition age_bit (r : Retired) (age : N) : bool := N.testbit (word r (age / 64)) (age mod 64).

Record retired_wf (r : Retired) : Prop := {
  rw_length : length (bits r) = 16%nat;
  rw_words : forall i w, bits r !! i = Some w -> w < 2 ^ 64;
}.

Lemma retired_default_wf : retired_wf retired_default.
Proof. split; [done|]. intros i w [-> _]%lookup_replicate. done. Qed.

Lemma word_lt r i : retired_wf r -> word r i < 2 ^ 64.
Proof.
  intros Hw. unfold word. destruct (bits r !! N.to_nat i) as [w|] eqn:Hi; [|done].
  cbn. by eapply rw_words.
Qed.
Lemma testbit_above n i k : n < 2 ^ k -> k <= i -> N.testbit n i = false.
Proof.
  intros Hn Hi. destruct (N.eq_dec n 0) as [->|Hz]; [apply N.bits_0|].
  apply N.bits_above_log2. apply N.lt_le_trans with k; [|done].
  apply N.log2_lt_pow2; lia.
Qed.
Lemma land_bit n k : negb (N.land n (N.shiftl 1 k) =? 0) = N.testbit n k.
Proof.
  rewrite N.shiftl_1_l. destruct (N.testbit n k) eqn:Hk.
  - apply negb_true_iff, N.eqb_neq. intros Hz. apply (f_equal (fun m => N.testbit m k)) in Hz.
    rewrite N.land_spec, Hk, N.pow2_bits_true, N.bits_0 in Hz. done.
  - apply negb_false_iff, N.eqb_eq. apply N.bits_inj. intros j. rewrite N.land_spec, N.bits_0.
    destruct (N.eq_dec j k) as [->|Hne]; [by rewrite Hk|].
    rewrite N.pow2_bits_false by done. apply andb_false_r.
Qed.

Lemma retired_contains_spec id r :
  retired_contains id r = true <->
  id <= highest r /\ (1024 <= highest r - id \/ age_bit r (highest r - id) = true).
Proof.
  unfold retired_contains, age_bit. rewrite land_bit.
  destruct (N.ltb_spec (highest r) id); [split; [done|lia]|].
  rewrite orb_true_iff, N.leb_le. naive_solver.
Qed.

Lemma shl64_bit x n j : j < 64 -> N.testbit (shl64 x n) j = (n <=? j) && N.testbit x (j - n).
Proof.
  intros Hj. unfold shl64. rewrite N.mod_pow2_bits_low by done.
  destruct (N.leb_spec n j).
  - rewrite N.shiftl_spec_high'; [done|lia].
  - by rewrite N.shiftl_spec_low.
Qed.

Lemma moved_word_bit r shift i j :
  retired_wf r -> j < 64 ->
  N.testbit (moved_word r shift i) j =
  if 64 * i + j <? shift then false
  else N.testbit (word r ((64 * i + j - shift) / 64)) ((64 * i + j - shift) mod 64).
Proof.
  intros Hw Hj. unfold moved_word.
  pose proof (N.div_mod shift 64 ltac:(lia)) as Hs. pose proof (N.mod_lt shift 64 ltac:(lia)) as Hn.
  generalize dependent (shift mod 64). generalize dependent (shift / 64). intros w n Hs Hn.
  destruct (N.ltb_spec i w) as [Hi|Hi].
  { rewrite N.bits_0. destruct (N.ltb_spec (64 * i + j) shift); [done|lia]. }
  assert (Hdec : forall q m, m < 64 -> 64 * i + j - shift = 64 * q + m ->
    (64 * i + j - shift) / 64 = q /\ (64 * i + j - shift) mod 64 = m).
  { intros q m Hm ->. split.
    - symmetry. by apply (N.div_unique _ _ q m).
    - symmetry. by apply (N.mod_unique _ _ q m). }
  assert (Hlow : N.testbit (shl64 (word r (i - w)) n) j = (n <=? j) && N.testbit (word r (i - w)) (j - n))
    by by apply shl64_bit.
  destruct (negb (n =? 0) && (w <? i)) eqn:Hc.
  - apply andb_true_iff in Hc as [Hn0%negb_true_iff%N.eqb_neq Hwi%N.ltb_lt].
    destruct (N.ltb_spec (64 * i + j) shift); [lia|].
    rewrite N.lor_spec, Hlow, N.shiftr_spec'. destruct (N.leb_spec n j) as [Hnj|Hnj]; cbn [andb].
    + destruct (Hdec (i - w) (j - n)) as [-> ->]; [lia|lia|].
      rewrite (testbit_above _ (j + (64 - n)) 64); [by rewrite orb_false_r|by apply word_lt|lia].
    + destruct (Hdec (i - w - 1) (64 + j - n)) as [-> ->]; [lia|lia|].
      cbn [orb]. f_equal. lia.
  - rewrite Hlow. apply andb_false_iff in Hc. destruct (N.leb_spec n j) as [Hnj|Hnj]; cbn [andb].
    + destruct (N.ltb_spec (64 * i + j) shift); [lia|].
      destruct (Hdec (i - w) (j - n)) as [-> ->]; [lia|lia|done].
    + destruct (N.ltb_spec (64 * i + j) shift); [done|]. exfalso.
      destruct Hc as [Hc%negb_false_iff%N.eqb_eq|Hc%N.ltb_ge]; lia.
Qed.

Lemma moved_word_lt r shift i : retired_wf r -> moved_word r shift i < 2 ^ 64.
Proof.
  intros Hw. unfold moved_word. destruct (i <? _); [done|].
  assert (Hs : forall x n, shl64 x n < 2 ^ 64) by (intros; unfold shl64; apply N.mod_lt; done).
  destruct (_ && _); [|done].
  assert (Hlog : forall x y, x < 2 ^ 64 -> y < 2 ^ 64 -> N.lor x y < 2 ^ 64).
  { intros x y Hx Hy. destruct (N.eq_dec (N.lor x y) 0) as [->|Hne]; [done|].
    apply N.log2_lt_pow2; [lia|]. rewrite N.log2_lor.
    apply N.max_lub_lt.
    - destruct (N.eq_dec x 0) as [->|]; [done|]. apply N.log2_lt_pow2; lia.
    - destruct (N.eq_dec y 0) as [->|]; [done|]. apply N.log2_lt_pow2; lia. }
  apply Hlog; [apply Hs|]. rewrite N.shiftr_div_pow2.
  eapply N.le_lt_trans; [apply N.Div0.div_le_upper_bound|apply (word_lt r (i - shift / 64 - 1) Hw)].
  assert (2 ^ (64 - shift mod 64) <> 0) by (by apply N.pow_nonzero). nia.
Qed.

Lemma window_word r shift id i :
  i < 16 -> word (mkRetired id (moved_word r shift <$> (N.of_nat <$> seq 0 16))) i = moved_word r shift i.
Proof.
  intros Hi. unfold word; cbn [bits]. rewrite !list_lookup_fmap.
  rewrite (proj2 (lookup_seq 0 16 (N.to_nat i) (N.to_nat i))) by lia. cbn. by rewrite N2Nat.id.
Qed.

Lemma move_window_spec id r :
  retired_wf r -> retired_wf (move_window id r) /\ highest (move_window id r) = N.max id (highest r) /\
  forall x, x <= highest r -> highest (move_window id r) - x < 1024 ->
    age_bit (move_window id r) (highest (move_window id r) - x) = age_bit r (highest r - x).
Proof.
  intros Hw. unfold move_window. destruct (N.ltb_spec (highest r) id) as [Hlt|].
  2:{ split_and!; [done|lia|done]. }
  cbn [highest]. split_and!.
  - split; [done|]. intros i w. cbn [bits]. rewrite list_lookup_fmap_Some.
    intros (y & -> & _). by apply moved_word_lt.
  - lia.
  - intros x Hx Hage. unfold age_bit.
    pose proof (N.div_mod (id - x) 64 ltac:(lia)) as Hd. pose proof (N.mod_lt (id - x) 64 ltac:(lia)).
    rewrite window_word by (apply N.Div0.div_lt_upper_bound; lia).
    rewrite moved_word_bit by done.
    replace (64 * ((id - x) / 64) + (id - x) mod 64) with (id - x) by lia.
    destruct (N.ltb_spec (id - x) (N.min (id - highest r) 1024)); [lia|].
    replace (id - x - N.min (id - highest r) 1024) with (highest r - x) by lia. done.
Qed.

(** Ages that no identity occupied yet are clear after a move. *)
Lemma move_window_fresh id r x :
  retired_wf r -> highest r < x -> x <= highest (move_window id r) ->
  highest (move_window id r) - x < 1024 ->
  age_bit (move_window id r) (highest (move_window id r) - x) = false.
Proof.
  intros Hw Hx. unfold move_window. destruct (N.ltb_spec (highest r) id) as [Hlt|]; [|lia].
  cbn [highest]. intros Hle Hage. unfold age_bit.
  pose proof (N.div_mod (id - x) 64 ltac:(lia)) as Hd. pose proof (N.mod_lt (id - x) 64 ltac:(lia)).
  rewrite window_word by (apply N.Div0.div_lt_upper_bound; lia).
  rewrite moved_word_bit by done.
  replace (64 * ((id - x) / 64) + (id - x) mod 64) with (id - x) by lia.
  destruct (N.ltb_spec (id - x) (N.min (id - highest r) 1024)); [done|lia].
Qed.

Lemma word_alter r h a i f :
  length (bits r) = 16%nat -> a < 16 ->
  word (mkRetired h (alter f (N.to_nat a) (bits r))) i = if a =? i then f (word r i) else word r i.
Proof.
  intros Hlen Ha. unfold word; cbn [bits]. destruct (N.eqb_spec a i) as [<-|Hne].
  - rewrite list_lookup_alter_eq. destruct (bits r !! N.to_nat a) eqn:Hl; [done|].
    apply lookup_ge_None in Hl. lia.
  - rewrite list_lookup_alter_ne by lia. done.
Qed.

Lemma set_bit_spec r a b :
  retired_wf r -> a < 1024 -> b < 1024 ->
  let r' := mkRetired (highest r)
    (alter (fun w => N.lor w (N.shiftl 1 (a mod 64))) (N.to_nat (a / 64)) (bits r)) in
  retired_wf r' /\ age_bit r' b = (b =? a) || age_bit r b.
Proof.
  intros Hw Ha Hb. cbn zeta. split.
  - split; cbn [bits]; [by rewrite length_alter, (rw_length _ Hw)|].
    intros i w. destruct (decide (N.to_nat (a / 64) = i)) as [<-|Hne].
    + rewrite list_lookup_alter_eq. destruct (bits r !! _) as [w0|] eqn:H0; [|done]. cbn.
      intros [= <-]. apply (rw_words _ Hw) in H0. rewrite N.shiftl_1_l.
      destruct (N.eq_dec (N.lor w0 (2 ^ (a mod 64))) 0) as [->|Hz]; [done|].
      apply N.log2_lt_pow2; [lia|]. rewrite N.log2_lor, N.log2_pow2 by apply N.le_0_l.
      pose proof (N.mod_lt a 64 ltac:(lia)).
      destruct (N.eq_dec w0 0) as [->|]; [cbn; lia|].
      assert (N.log2 w0 < 64) by (apply N.log2_lt_pow2; lia). lia.
    + rewrite list_lookup_alter_ne by done. apply (rw_words _ Hw).
  - unfold age_bit. rewrite word_alter;
      [|apply (rw_length _ Hw)|apply N.Div0.div_lt_upper_bound; lia].
    pose proof (N.div_mod a 64 ltac:(lia)). pose proof (N.div_mod b 64 ltac:(lia)).
    destruct (N.eqb_spec (a / 64) (b / 64)) as [Hq|Hq].
    + rewrite N.lor_spec, N.shiftl_1_l, orb_comm. f_equal.
      destruct (N.eqb_spec b a) as [->|Hne]; [by rewrite N.pow2_bits_true|].
      apply N.pow2_bits_false. intros Hm. apply Hne. lia.
    + destruct (N.eqb_spec b a) as [->|Hne]; [done|]. done.
Qed.

Lemma retired_insert_spec id r :
  retired_wf r ->
  retired_wf (retired_insert id r) /\ highest (retired_insert id r) = N.max id (highest r) /\
  forall x, retired_contains x (retired_insert id r) = true <->
    x = id \/ retired_contains x r = true \/
    (x <= N.max id (highest r) /\ 1024 <= N.max id (highest r) - x).
Proof.
  intros Hw. unfold retired_insert.
  destruct (move_window_spec id r Hw) as (Hw1 & Hh & Hold).
  pose proof (fun x => move_window_fresh id r x Hw) as Hfresh.
  set (r1 := move_window id r) in *. clearbody r1.
  assert (Hbase : forall x, x <= highest r1 -> highest r1 - x < 1024 ->
    (age_bit r1 (highest r1 - x) = true <-> retired_contains x r = true)).
  { intros x Hx Ha. rewrite retired_contains_spec. destruct (N.le_gt_cases x (highest r)) as [Hle|Hgt].
    - rewrite Hold by done. split; [naive_solver|]. intros [_ [?|?]]; [lia|done].
    - rewrite Hfresh by done. split; [done|lia]. }
  destruct (N.ltb_spec (highest r1 - id) 1024) as [Hage|Hage].
  - destruct (set_bit_spec r1 (highest r1 - id) 0 Hw1 Hage ltac:(lia)) as [Hw2 _].
    split_and!; [done|done|]. intros x. rewrite <- Hh. rewrite retired_contains_spec. cbn [highest].
    destruct (N.le_gt_cases 1024 (highest r1 - x)) as [Hfar|Hnear].
    { split; [intros [? _]; right; right; lia|]. intros [->|[Hc|[? ?]]]; [lia| |lia].
      apply retired_contains_spec in Hc as [? _]. split; [lia|by left]. }
    destruct (set_bit_spec r1 (highest r1 - id) (highest r1 - x) Hw1 Hage Hnear) as [_ ->].
    rewrite orb_true_iff, N.eqb_eq. split.
    + intros [Hx [?|[He|Hb]]]; [lia|left; lia|right; left]. by apply Hbase.
    + intros [->|[Hc|[? ?]]]; [split; [lia|right; left; done]| |lia].
      pose proof Hc as Hc'. apply retired_contains_spec in Hc' as [? _].
      split; [lia|]. right. right. apply Hbase; [lia|done|done].
  - split_and!; [done|done|]. intros x. rewrite <- Hh, retired_contains_spec. split.
    + intros [Hx [Hfar|Hb]]; [by right; right|].
      destruct (N.le_gt_cases 1024 (highest r1 - x)); [by right; right|].
      right. left. by apply Hbase.
    + intros [->|[Hc|[? ?]]]; [split; [lia|by left]| |split; [done|by left]].
      pose proof Hc as Hc'. apply retired_contains_spec in Hc' as [? _]. split; [lia|].
      destruct (N.le_gt_cases 1024 (highest r1 - x)); [by left|]. right. apply Hbase; [lia|done|done].
Qed.

(** ** Fragments of a frame *)

Lemma split_from_Ok index id total stride count l frags :
  split_from index id total stride count l = Ok frags ->
  length frags = length l /\
  forall i body, l !! i = Some body ->
    index + N.of_nat i <= U16_MAX /\
    frags !! i = Some (fragment_bytes id total stride (index + N.of_nat i) count body).
Proof.
  revert index frags. induction l as [|b l IH]; intros index frags; cbn [split_from].
  - by intros [= <-].
  - unfold try_from. destruct (N.leb_spec index U16_MAX); [|done]. cbn [mbind outcome_bind].
    intros (rest & [Hl Hrest]%IH & [= <-])%bind_Ok. split; [by cbn; rewrite Hl|].
    intros [|i] body Hi; cbn in Hi.
    + injection Hi as ->. rewrite N.add_0_r. done.
    + destruct (Hrest _ _ Hi) as [Hle Hf]. split; [lia|]. transitivity (rest !! i); [done|]. rewrite Hf.
      replace (index + N.of_nat (S i)) with (index + 1 + N.of_nat i) by lia. done.
Qed.

(** What [split] accepts and produces. *)
Record split_ok (id : N) (frame : list byte) (datagram_limit stride count : N)
    (frags : list (list byte)) : Prop := {
  so_id : id <> 0;
  so_frame : 0 < lenN frame <= MAX_FRAME;
  so_stride : 0 < stride <= MAX_FRAME /\ stride + HEADER <= datagram_limit;
  so_count : count = div_ceil (lenN frame) stride /\ 0 < count <= MAX_FRAGMENTS;
  so_length : lenN frags = count;
  so_frag : forall i, i < count ->
    frags !! N.to_nat i =
      Some (fragment_bytes id (lenN frame) stride i count (chunk frame stride i));
}.

Lemma split_spec id frame datagram_limit frags :
  split id frame datagram_limit = Ok frags ->
  exists stride count, split_ok id frame datagram_limit stride count frags.
Proof.
  unfold split. destruct (N.eqb_spec id 0); [done|]. destruct (N.eqb_spec (lenN frame) 0); [done|].
  destruct (N.ltb_spec MAX_FRAME (lenN frame)); [done|]. cbn [orb].
  set (stride := N.min (datagram_limit - HEADER) MAX_FRAME).
  destruct (N.eqb_spec stride 0) as [|Hs0]; [done|]. cbn [orb].
  destruct (N.ltb_spec MAX_FRAGMENTS (div_ceil (lenN frame) stride)) as [|Hc]; [done|].
  assert (Hdef : stride = N.min (datagram_limit - 24) 65535) by done. clearbody stride.
  assert (Hst : 0 < stride <= MAX_FRAME /\ stride + HEADER <= datagram_limit)
    by (unfold MAX_FRAME, HEADER; lia).
  unfold try_from, MAX_FRAME, U32_MAX, U16_MAX, MAX_FRAGMENTS in *.
  destruct (N.leb_spec (lenN frame) 0xffff_ffff); [|lia]. cbn [mbind outcome_bind].
  destruct (N.leb_spec stride 0xffff); [|lia]. cbn [mbind outcome_bind].
  destruct (N.leb_spec (div_ceil (lenN frame) stride) 0xffff); [|lia]. cbn [mbind outcome_bind].
  intros [Hlen Hf]%split_from_Ok.
  assert (Hpos : 0 < div_ceil (lenN frame) stride) by (apply div_ceil_lt; lia).
  exists stride, (div_ceil (lenN frame) stride). split; unfold MAX_FRAME, MAX_FRAGMENTS; try done; try lia.
  - unfold lenN at 1. rewrite Hlen.
    assert (Hex : forall i, i < N.of_nat (length (chunks stride frame)) <->
      i < div_ceil (lenN frame) stride).
    { intros i. rewrite div_ceil_lt by lia. pose proof (chunks_lookup stride frame i ltac:(lia)) as Hl.
      destruct (N.ltb_spec (i * stride) (lenN frame)) as [Hi|Hi].
      - apply lookup_lt_Some in Hl. lia.
      - apply lookup_ge_None in Hl. lia. }
    pose proof (Hex (N.of_nat (length (chunks stride frame)))).
    pose proof (Hex (div_ceil (lenN frame) stride)). lia.
  - intros i Hi. pose proof (chunks_lookup stride frame i ltac:(lia)) as Hl.
    apply div_ceil_lt in Hi; [|lia].
    destruct (N.ltb_spec (i * stride) (lenN frame)); [|lia].
    apply Hf in Hl as [_ Hl]. rewrite N.add_0_l, N2Nat.id in Hl. done.
Qed.

(** The geometry a parsed header has. *)
Record header_ok (h : Header) (body_len : N) : Prop := {
  ho_id : h_id h <> 0;
  ho_total : 0 < h_total h <= MAX_FRAME;
  ho_stride : 0 < h_stride h <= U16_MAX;
  ho_count : h_count h = div_ceil (h_total h) (h_stride h) /\ 0 < h_count h <= MAX_FRAGMENTS;
  ho_index : h_index h < h_count h;
  ho_body : body_len = N.min (h_stride h) (h_total h - h_index h * h_stride h);
}.

Lemma header_parse_fragment h body :
  header_ok h (lenN body) -> h_id h < 2 ^ 64 ->
  header_parse (fragment_bytes (h_id h) (h_total h) (h_stride h) (h_index h) (h_count h) body) = Ok h.
Proof.
  intros [Hid Ht Hs [Hc Hcb] Hi Hb] Hid64. destruct h as [id total stride index count].
  cbn [h_id h_total h_stride h_index h_count] in *.
  unfold MAX_FRAME, MAX_FRAGMENTS, U16_MAX in *.
  assert (Hil : index * stride < total) by (apply div_ceil_lt; lia).
  set (bytes := fragment_bytes id total stride index count body).
  assert (Hlen : lenN bytes = 24 + lenN body).
  { unfold bytes, fragment_bytes. rewrite !lenN_app, !lenN_to_be.
    change (lenN MAGIC) with 4. change (lenN [x00; x00]) with 2. lia. }
  unfold header_parse, HEADER. rewrite Hlen. destruct (N.leb_spec (24 + lenN body) 24); [lia|].
  unfold bytes, fragment_bytes.
  assert (H8 := lenN_to_be 8 id). assert (H4 := lenN_to_be 4 total).
  assert (Hst := lenN_to_be 2 stride). assert (Hin := lenN_to_be 2 index).
  assert (Hco := lenN_to_be 2 count). assert (Hmg : lenN MAGIC = 4) by done.
  assert (Hsplit : forall {E} a b (x y z : list byte), a = lenN x -> b = lenN x + lenN y ->
    @slice E (x ++ y ++ z) a b = Ok y) by (intros; by apply slice_app).
  set (full := MAGIC ++ _).
  assert (F22 : full = (MAGIC ++ to_be 8 id ++ to_be 4 total ++ to_be 2 stride ++ to_be 2 index ++ to_be 2 count)
    ++ [x00; x00] ++ body) by (unfold full; by rewrite <- !app_assoc).
  assert (F4 : full = MAGIC ++ to_be 8 id ++ (to_be 4 total ++ to_be 2 stride ++ to_be 2 index ++
    to_be 2 count ++ [x00; x00] ++ body)) by done.
  assert (F12 : full = (MAGIC ++ to_be 8 id) ++ to_be 4 total ++ (to_be 2 stride ++ to_be 2 index ++
    to_be 2 count ++ [x00; x00] ++ body)) by (unfold full; by rewrite <- !app_assoc).
  assert (F16 : full = (MAGIC ++ to_be 8 id ++ to_be 4 total) ++ to_be 2 stride ++ (to_be 2 index ++
    to_be 2 count ++ [x00; x00] ++ body)) by (unfold full; by rewrite <- !app_assoc).
  assert (F18 : full = (MAGIC ++ to_be 8 id ++ to_be 4 total ++ to_be 2 stride) ++ to_be 2 index ++
    (to_be 2 count ++ [x00; x00] ++ body)) by (unfold full; by rewrite <- !app_assoc).
  assert (F20 : full = (MAGIC ++ to_be 8 id ++ to_be 4 total ++ to_be 2 stride ++ to_be 2 index) ++
    to_be 2 count ++ ([x00; x00] ++ body)) by (unfold full; by rewrite <- !app_assoc).
  assert (F0 : full = [] ++ MAGIC ++ (to_be 8 id ++ to_be 4 total ++ to_be 2 stride ++ to_be 2 index ++
    to_be 2 count ++ [x00; x00] ++ body)) by done.
  rewrite F0 at 1. rewrite Hsplit by done. cbn [mbind outcome_bind].
  rewrite bool_decide_eq_true_2 by done. cbn [negb].
  rewrite F22 at 1. rewrite Hsplit by (rewrite ?lenN_app, ?H8, ?H4, ?Hst, ?Hin, ?Hco, ?Hmg; done).
  cbn [mbind outcome_bind]. rewrite bool_decide_eq_true_2 by done. cbn [negb].
  unfold be_at. rewrite F4 at 1. rewrite Hsplit by (rewrite ?lenN_app, ?H8, ?Hmg; done).
  cbn [fmap outcome_fmap mbind outcome_bind]. rewrite from_be_to_be by done.
  rewrite F12 at 1. rewrite Hsplit by (rewrite ?lenN_app, ?H8, ?H4, ?Hmg; done).
  cbn [fmap outcome_fmap mbind outcome_bind]. rewrite from_be_to_be by (cbn; lia).
  rewrite F16 at 1. rewrite be16_at_app by (done || lia || (rewrite ?lenN_app, ?H8, ?H4, ?Hmg; done)).
  cbn [mbind outcome_bind].
  rewrite F18 at 1. rewrite be16_at_app by (done || lia || (rewrite ?lenN_app, ?H8, ?H4, ?Hst, ?Hmg; done)).
  cbn [mbind outcome_bind].
  rewrite F20 at 1. rewrite be16_at_app by (done || lia || (rewrite ?lenN_app, ?H8, ?H4, ?Hst, ?Hin, ?Hmg; done)).
  cbn [mbind outcome_bind]. unfold MAX_FRAME, MAX_FRAGMENTS.
  destruct (N.eqb_spec id 0); [done|]. destruct (N.eqb_spec total 0); [lia|].
  destruct (N.ltb_spec 65535 total); [lia|]. destruct (N.eqb_spec stride 0); [lia|].
  destruct (N.eqb_spec count 0); [lia|]. destruct (N.ltb_spec 64 count); [lia|].
  destruct (N.leb_spec count index); [lia|]. rewrite <- Hc, N.eqb_refl. cbn [orb negb].
  destruct (N.ltb_spec total (index * stride)); [lia|].
  replace (24 + lenN body - 24) with (lenN body) by lia. rewrite <- Hb, N.eqb_refl. done.
Qed.

Lemma header_parse_Ok bytes h :
  header_parse bytes = Ok h -> header_ok h (lenN bytes - HEADER) /\ HEADER < lenN bytes.
Proof.
  unfold header_parse. destruct (N.leb_spec (lenN bytes) HEADER) as [|Hl]; [done|].
  intros (m & _ & H)%bind_Ok. destruct (negb _); [done|].
  apply bind_Ok in H as (z & _ & H). destruct (negb _); [done|].
  apply bind_Ok in H as (id & _ & H). apply bind_Ok in H as (total & _ & H).
  apply bind_Ok in H as (stride & Hst & H). apply bind_Ok in H as (index & _ & H).
  apply bind_Ok in H as (count & _ & H). apply be16_at_lt in Hst.
  destruct (_ || _) eqn:Hg; [done|]. destruct (_ <? index * stride); [done|].
  destruct (negb (lenN bytes - HEADER =? _)) eqn:Hb; [done|]. injection H as <-.
  breflect. split; [|done]. split; cbn; unfold U16_MAX; try lia.
Qed.

Lemma no_panic_header_parse bytes : no_panic (header_parse bytes).
Proof.
  unfold header_parse, be_at, HEADER. destruct (N.leb_spec (lenN bytes) 24); [apply no_panic_Err|].
  apply no_panic_bind; [apply no_panic_slice; lia|]. intros m _. destruct (negb _); [apply no_panic_Err|].
  apply no_panic_bind; [apply no_panic_slice; lia|]. intros z _. destruct (negb _); [apply no_panic_Err|].
  do 2 (apply no_panic_bind; [apply no_panic_fmap, no_panic_slice; lia|]; intros ? _).
  do 3 (apply no_panic_bind; [apply no_panic_be16_at; lia|]; intros ? _).
  destruct (_ || _) eqn:Hg; [apply no_panic_Err|]. breflect.
  match goal with H : div_ceil ?t ?s = ?c |- _ =>
    pose proof (proj1 (div_ceil_lt t s _ ltac:(lia)) ltac:(rewrite H; eassumption)) end.
  destruct (N.ltb_spec a0 (a2 * a1)); [lia|]. destruct (negb _); [apply no_panic_Err|apply no_panic_Ok].
Qed.

(** ** Counting received fragments *)

Lemma filter_full {A} (P : A -> Prop) `{!forall x, Decision (P x)} l :
  (length (filter P l) <= length l)%nat /\ (length (filter P l) = length l <-> Forall P l).
Proof.
  induction l as [|x l [IH1 IH2]]; [done|]. rewrite filter_cons. case_decide as Hx; cbn.
  - split; [lia|]. rewrite Forall_cons, <- IH2. naive_solver lia.
  - split; [lia|]. rewrite Forall_cons. split; [lia|naive_solver].
Qed.

Lemma count_ones_spec n c :
  n < 2 ^ c -> c <= 64 ->
  count_ones n <= c /\ (count_ones n = c <-> forall i, i < c -> N.testbit n i = true).
Proof.
  intros Hn Hc. unfold count_ones, lenN.
  replace 64%nat with (N.to_nat c + (64 - N.to_nat c))%nat by lia.
  rewrite seq_app, fmap_app, filter_app, length_app.
  assert (Hhi : filter (fun i => N.testbit n i = true) (N.of_nat <$> seq (0 + N.to_nat c) (64 - N.to_nat c)) = []).
  { destruct (filter _ _) as [|x l] eqn:Hf; [done|].
    assert (Hin : x ∈ filter (fun i => N.testbit n i = true)
      (N.of_nat <$> seq (0 + N.to_nat c) (64 - N.to_nat c))) by (rewrite Hf; by left).
    apply list_elem_of_filter in Hin as [Hb Hin]. apply list_elem_of_fmap in Hin as (k & -> & Hk).
    apply elem_of_seq in Hk. by rewrite (testbit_above n _ c) in Hb by (done || lia). }
  rewrite Hhi. cbn [length]. rewrite Nat.add_0_r.
  destruct (filter_full (fun i => N.testbit n i = true) (N.of_nat <$> seq 0 (N.to_nat c))) as [Hle Hall].
  rewrite length_fmap, length_seq in *. split; [lia|].
  transitivity (Forall (fun i => N.testbit n i = true) (N.of_nat <$> seq 0 (N.to_nat c))).
  { rewrite <- Hall. lia. }
  rewrite Forall_forall. split.
  - intros H i Hi. apply H. apply list_elem_of_fmap. exists (N.to_nat i). split; [lia|].
    apply elem_of_seq. lia.
  - intros H i (k & -> & Hk)%list_elem_of_fmap. apply elem_of_seq in Hk. apply H. lia.
Qed.

Lemma shl64_one i : i < 64 -> shl64 1 i = 2 ^ i.
Proof.
  intros Hi. unfold shl64. rewrite N.shiftl_1_l. apply N.mod_small.
  apply N.pow_lt_mono_r; [lia|done].
Qed.
Lemma lor_pow2_bit n i j : N.testbit (N.lor n (2 ^ i)) j = (j =? i) || N.testbit n j.
Proof.
  rewrite N.lor_spec, orb_comm. f_equal. destruct (N.eqb_spec j i) as [->|Hne].
  - by rewrite N.pow2_bits_true.
  - by apply N.pow2_bits_false.
Qed.
Lemma bits_lt n c : (forall i, c <= i -> N.testbit n i = false) -> n < 2 ^ c.
Proof.
  intros Hb. destruct (N.eq_dec n 0) as [->|Hz]; [apply N.neq_0_lt_0, N.pow_nonzero; lia|].
  apply N.log2_lt_pow2; [lia|]. destruct (N.le_gt_cases c (N.log2 n)) as [Hle|]; [|done].
  apply Hb in Hle. by rewrite N.bit_log2 in Hle.
Qed.

(** ** Invariant *)

Record partial_wf (f : Partial) : Prop := {
  pw_len : 0 < lenN (data f) <= MAX_FRAME;
  pw_stride : 0 < p_stride f <= U16_MAX;
  pw_count : p_count f = div_ceil (lenN (data f)) (p_stride f) /\ 0 < p_count f <= MAX_FRAGMENTS;
  pw_seen : seen f < 2 ^ p_count f;
  pw_incomplete : count_ones (seen f) <> p_count f;
  pw_process : process_reservation f = lenN (data f);
  pw_mesh : mesh_reservation f = lenN (data f);
}.
Definition data_len (f : Partial) : N := lenN (data f).

(** A budget that holds at least [held] for this reassembler. *)
Definition budget_wf (held : N) (b : Budget) : Prop :=
  held <= used b /\ used b <= limit b /\ limit b <= USIZE_MAX.

Record qf_wf (w : World) : Prop := {
  qw_frames : forall id f, frames (reasm w) !! id = Some f -> partial_wf f;
  qw_buffered : buffered (reasm w) = map_sum data_len (frames (reasm w));
  qw_incomplete : N.of_nat (size (frames (reasm w))) <= MAX_INCOMPLETE;
  qw_bound : buffered (reasm w) <= MAX_BUFFERED;
  qw_retired : retired_wf (retired (reasm w));
  qw_process : budget_wf (buffered (reasm w)) (process w);
  qw_mesh : budget_wf (buffered (reasm w)) (mesh w);
}.

(** What the reassembler reserved is exactly what it buffers: the rest of each
    budget, used by others, is untouched. *)
Record accounted (w w' : World) : Prop := {
  ac_process_limit : limit (process w') = limit (process w);
  ac_mesh_limit : limit (mesh w') = limit (mesh w);
  ac_process : used (process w') + buffered (reasm w) = used (process w) + buffered (reasm w');
  ac_mesh : used (mesh w') + buffered (reasm w) = used (mesh w) + buffered (reasm w');
}.
(** Retired identities stay retired. *)
Definition retirement_grows (w w' : World) : Prop :=
  forall x, retired_contains x (retired (reasm w)) = true -> retired_contains x (retired (reasm w')) = true.

Lemma accounted_refl w : accounted w w.
Proof. done. Qed.
Lemma retirement_grows_refl w : retirement_grows w w.
Proof. by intros x. Qed.
#[local] Hint Resolve accounted_refl retirement_grows_refl : core.
Lemma accounted_trans w1 w2 w3 : accounted w1 w2 -> accounted w2 w3 -> accounted w1 w3.
Proof. intros [? ? ? ?] [? ? ? ?]. split; (congruence || lia). Qed.

Lemma release_wf size held b :
  budget_wf held b -> size <= held ->
  budget_wf (held - size) (release size b) /\ limit (release size b) = limit b /\
  used (release size b) = used b - size.
Proof.
  unfold budget_wf, release, USIZE_MAX, U64_MAX. intros (H1 & H2 & H3) Hs. cbn [limit used].
  change (2 ^ 64) with 0x1_0000_0000_0000_0000.
  assert ((used b + 0x1_0000_0000_0000_0000 - size) mod 0x1_0000_0000_0000_0000 = used b - size) as ->.
  { replace (used b + 0x1_0000_0000_0000_0000 - size)
      with (used b - size + 1 * 0x1_0000_0000_0000_0000) by lia.
    rewrite N.Div0.mod_add. apply N.mod_small. lia. }
  split_and!; lia.
Qed.

Lemma remove_spec id w :
  qf_wf w ->
  exists w', remove id w = Ok (frames (reasm w) !! id, w') /\ qf_wf w' /\ accounted w w' /\
    frames (reasm w') = delete id (frames (reasm w)) /\ retired (reasm w') = retired (reasm w).
Proof.
  intros [Hf Hb Hi Hm Hr Hp Hq]. unfold remove.
  destruct (frames (reasm w) !! id) as [f|] eqn:Hk.
  2:{ exists w. split_and!; try done. by rewrite delete_id. }
  pose proof (map_sum_delete data_len _ _ _ Hk) as Hsum. fold (data_len f).
  destruct (N.ltb_spec (buffered (reasm w)) (data_len f)); [lia|].
  destruct (Hf _ _ Hk) as [_ _ _ _ _ Hpr Hmr]. fold (data_len f) in Hpr, Hmr. rewrite Hpr, Hmr.
  destruct (release_wf (data_len f) _ _ Hp) as (Hp1 & Hp2 & Hp3); [lia|].
  destruct (release_wf (data_len f) _ _ Hq) as (Hq1 & Hq2 & Hq3); [lia|].
  eexists. split; [done|]. split; [|split; [|done]].
  - split; cbn; try done.
    + intros k f' [_ Hk']%lookup_delete_Some. by eapply Hf.
    + lia.
    + rewrite map_size_delete_Some by eauto. lia.
    + lia.
  - destruct Hp as [? _], Hq as [? _].
    split; cbn [reasm process mesh buffered]; lia.
Qed.

Lemma retire_spec id w :
  qf_wf w ->
  qf_wf (retire id w) /\ accounted w (retire id w) /\ retirement_grows w (retire id w) /\
  retired_contains id (retired (reasm (retire id w))) = true /\
  frames (reasm (retire id w)) = frames (reasm w).
Proof.
  intros [Hf Hb Hi Hm Hr Hp Hq]. destruct (retired_insert_spec id _ Hr) as (Hr' & _ & Hc).
  split_and!; try done.
  - intros x Hx. cbn. apply Hc. naive_solver.
  - cbn. apply Hc. by left.
Qed.

Lemma remove_retire id w :
  qf_wf w ->
  exists o w', remove id w = Ok (o, w') /\ o = frames (reasm w) !! id /\
    qf_wf (retire id w') /\ accounted w (retire id w') /\ retirement_grows w (retire id w') /\
    retired_contains id (retired (reasm (retire id w'))) = true /\
    frames (reasm (retire id w')) = delete id (frames (reasm w)).
Proof.
  intros Hw. destruct (remove_spec id w Hw) as (w' & Hrm & Hw' & Ha & Hf & Hr).
  destruct (retire_spec id w' Hw') as (Hw2 & Ha2 & Hg2 & Hc2 & Hf2).
  exists (frames (reasm w) !! id), w'. split_and!; try done.
  - by eapply accounted_trans.
  - intros x Hx. apply Hg2. by rewrite Hr.
Qed.

(** Expiry removes exactly the due or retired frames. *)
Lemma expire_list_spec l w :
  qf_wf w ->
  exists w', foldM expire_one w l = Ok w' /\ qf_wf w' /\ accounted w w' /\ retirement_grows w w' /\
    (forall id f, frames (reasm w') !! id = Some f -> frames (reasm w) !! id = Some f) /\
    (l = [] -> w' = w).
Proof.
  revert w. induction l as [|id l IH]; intros w Hw; cbn.
  { exists w. split_and!; try done. }
  destruct (remove_retire id w Hw) as (o & w1 & Hrm & _ & Hw2 & Ha2 & Hg2 & _ & Hf2).
  assert (expire_one w id = Ok (retire id w1)) as -> by (unfold expire_one; by rewrite Hrm).
  cbn [mbind outcome_bind].
  destruct (IH _ Hw2) as (w' & He & Hw' & Ha' & Hg' & Hf' & _).
  exists w'. split_and!; try done.
  - by eapply accounted_trans.
  - intros x Hx. by apply Hg', Hg2.
  - intros k f Hk%Hf'. rewrite Hf2 in Hk. by apply lookup_delete_Some in Hk as [_ ?].
Qed.

Lemma reserve_wf size held b b' :
  budget_wf held b -> reserve size b = Some b' ->
  budget_wf (held + size) b' /\ limit b' = limit b /\ used b' = used b + size.
Proof.
  unfold budget_wf, reserve, checked_add. intros (H1 & H2 & H3).
  destruct (used b + size <=? U64_MAX); [|done].
  destruct (N.leb_spec (used b + size) (limit b)); [|done]. intros [= <-]. cbn. split_and!; lia.
Qed.

Lemma new_partial_wf h now n : header_ok h n -> partial_wf (new_partial h now).
Proof.
  intros [_ Ht Hs [Hc Hcb] Hi _]. unfold new_partial.
  assert (Hl : lenN (replicate (N.to_nat (h_total h)) x00) = h_total h)
    by (unfold lenN; rewrite length_replicate; lia).
  split; cbn [data p_stride p_count seen process_reservation mesh_reservation]; rewrite ?Hl; try done.
  - apply N.neq_0_lt_0, N.pow_nonzero. lia.
  - change (count_ones 0) with 0. lia.
Qed.

(** The frame of a header after [admit_frame], and what it may look like. *)
Lemma admit_spec h now w n :
  qf_wf w -> header_ok h n ->
  exists r, admit_frame h now w = Ok r /\
  match r with
  | inr (w', res) => qf_wf w' /\ accounted w w' /\ retirement_grows w w' /\
      retired_contains (h_id h) (retired (reasm w')) = true /\
      (res = Ok None \/ exists e, res = Err e) /\
      (forall id f, frames (reasm w') !! id = Some f -> frames (reasm w) !! id = Some f)
  | inl w' => qf_wf w' /\ accounted w w' /\ retired (reasm w') = retired (reasm w) /\
      (exists f, frames (reasm w') !! h_id h = Some f /\
        lenN (data f) = h_total h /\ p_stride f = h_stride h /\ p_count f = h_count h /\
        (frames (reasm w) !! h_id h = Some f \/
         frames (reasm w) !! h_id h = None /\ f = new_partial h now)) /\
      (forall id, id <> h_id h -> frames (reasm w') !! id = frames (reasm w) !! id)
  end.
Proof.
  intros Hw Hh. unfold admit_frame. destruct (frames (reasm w) !! h_id h) as [f|] eqn:Hk.
  - destruct (negb (lenN (data f) =? h_total h)) eqn:H1; cbn [orb];
      [|destruct (negb (p_stride f =? h_stride h)) eqn:H2; cbn [orb];
        [|destruct (negb (p_count f =? h_count h)) eqn:H3]].
    4:{ breflect. eexists. split; [done|]. cbn. split_and!; try done. exists f. naive_solver. }
    all: destruct (remove_retire (h_id h) w Hw) as (o & w1 & Hrm & _ & Hw2 & Ha2 & Hg2 & Hc2 & Hf2);
      rewrite Hrm; cbn [mbind outcome_bind]; eexists; (split; [done|]); cbn; (split_and!; try done);
      [right; by eexists|]; intros id f' Hk'; cbn in Hf2; rewrite Hf2 in Hk';
      by apply lookup_delete_Some in Hk' as [_ ?].
  - destruct (reserve_both (h_total h) w) as [w1|] eqn:Hres.
    2:{ destruct (retire_spec (h_id h) w Hw) as (Hw2 & Ha2 & Hg2 & Hc2 & Hf2).
        eexists. split; [done|]. cbn. split_and!; try done. by left. }
    unfold reserve_both in Hres.
    destruct (N.leb_spec MAX_INCOMPLETE (N.of_nat (size (frames (reasm w))))); [done|].
    destruct (N.ltb_spec MAX_BUFFERED (buffered (reasm w) + h_total h)); [done|]. cbn [orb] in Hres.
    destruct (reserve (h_total h) (process w)) as [p|] eqn:Hp; [|done]. cbn in Hres.
    destruct (reserve (h_total h) (mesh w)) as [m|] eqn:Hm; [|done]. injection Hres as <-.
    destruct (reserve_wf _ _ _ _ (qw_process _ Hw) Hp) as (Hp1 & Hp2 & Hp3).
    destruct (reserve_wf _ _ _ _ (qw_mesh _ Hw) Hm) as (Hm1 & Hm2 & Hm3).
    pose proof (new_partial_wf h now n Hh) as Hnew.
    assert (Hlen : data_len (new_partial h now) = h_total h)
      by (unfold data_len, new_partial; cbn; unfold lenN; rewrite length_replicate; lia).
    eexists. split; [done|]. cbn [reasm with_reasm frames retired buffered process mesh].
    destruct Hw as [Hf Hb Hi Hmb Hr Hpw Hmw]. split_and!; try done.
    + split; cbn; try done.
      * intros k f [[<- <-]|[_ Hk']]%lookup_insert_Some; [done|by eapply Hf].
      * rewrite map_sum_insert_None by done. lia.
      * rewrite map_size_insert_None by done. lia.
    + split; cbn; lia.
    + exists (new_partial h now). rewrite lookup_insert_eq. split_and!; try done. by right.
    + intros id Hne. by rewrite lookup_insert_ne.
Qed.

Definition stored_frame (f : Partial) (index : N) (data' : list byte) : Partial :=
  mkPartial data' (p_stride f) (p_count f) (N.lor (seen f) (2 ^ index)) (deadline f)
    (process_reservation f) (mesh_reservation f).

(** What [store] does to the frame [f] of its header. *)
Definition stored (h : Header) (body : list byte) (w : World) (f : Partial) (w' : World)
    (r : outcome FragmentError (option (list byte))) : Prop :=
  (N.testbit (seen f) (h_index h) = true /\
     (r = Ok None /\ w' = w \/
      r = Err ConflictingDuplicate /\ frames (reasm w') = delete (h_id h) (frames (reasm w)))) \/
  (N.testbit (seen f) (h_index h) = false /\ exists data',
     copy_at (E:=FragmentError) (data f) (h_index h * h_stride h) body = Ok data' /\
     ((r = Ok None /\ count_ones (N.lor (seen f) (2 ^ h_index h)) <> p_count f /\
       retired (reasm w') = retired (reasm w) /\
       frames (reasm w') = <[h_id h := stored_frame f (h_index h) data']> (frames (reasm w))) \/
      (r = Ok (Some data') /\ count_ones (N.lor (seen f) (2 ^ h_index h)) = p_count f /\
       retired_contains (h_id h) (retired (reasm w')) = true /\
       frames (reasm w') = delete (h_id h) (frames (reasm w))))).

Lemma stored_seen_lt f index : partial_wf f -> index < p_count f -> N.lor (seen f) (2 ^ index) < 2 ^ p_count f.
Proof.
  intros Hf Hi. apply bits_lt. intros j Hj. rewrite lor_pow2_bit.
  destruct (N.eqb_spec j index); [lia|]. by apply (testbit_above _ _ (p_count f)), Hj; apply Hf.
Qed.

(** Replacing a frame by one of the same size, complete or not. *)
Lemma with_frame_wf id f f' w :
  qf_wf w -> frames (reasm w) !! id = Some f -> partial_wf f' -> data_len f' = data_len f ->
  qf_wf (with_frame id f' w) /\ accounted w (with_frame id f' w).
Proof.
  intros [Hf Hb Hi Hm Hr Hp Hq] Hk Hf' Hlen. split; [|done]. split; cbn; try done.
  - intros k g [[<- <-]|[_ Hg]]%lookup_insert_Some; [done|by eapply Hf].
  - pose proof (map_sum_insert_Some data_len _ _ f' _ Hk). lia.
  - rewrite map_size_insert_Some by eauto. lia.
Qed.

(** Completing a frame: the frame with all its bytes leaves and is retired. *)
Lemma complete_frame id f f' w :
  qf_wf w -> frames (reasm w) !! id = Some f -> data_len f' = data_len f ->
  process_reservation f' = data_len f -> mesh_reservation f' = data_len f ->
  exists w', remove id (with_frame id f' w) = Ok (Some f', w') /\
    qf_wf (retire id w') /\ accounted w (retire id w') /\ retirement_grows w (retire id w') /\
    retired_contains id (retired (reasm (retire id w'))) = true /\
    frames (reasm (retire id w')) = delete id (frames (reasm w)).
Proof.
  intros Hw Hk Hlen Hpr Hmr.
  destruct (remove_spec id w Hw) as (w1 & Hrm & Hw1 & Ha1 & Hf1 & Hr1).
  assert (Hrm' : remove id (with_frame id f' w) = Ok (Some f', w1)).
  { unfold remove in *. rewrite Hk in Hrm. cbn [with_frame with_reasm reasm frames] in *.
    rewrite lookup_insert_eq. cbn [buffered process mesh retired]. fold (data_len f') (data_len f) in *.
    destruct (qw_frames _ Hw _ _ Hk) as [_ _ _ _ _ Hp0 Hm0]. fold (data_len f) in Hp0, Hm0.
    rewrite Hlen, Hpr, Hmr. rewrite Hp0, Hm0 in Hrm.
    destruct (buffered (reasm w) <? data_len f); [done|]. injection Hrm as <-.
    by rewrite delete_insert_eq. }
  destruct (retire_spec id w1 Hw1) as (Hw2 & Ha2 & Hg2 & Hc2 & Hf2).
  exists w1. split_and!; try done.
  - by eapply accounted_trans.
  - intros x Hx. apply Hg2. by rewrite Hr1.
Qed.

Lemma store_spec h body w f :
  qf_wf w -> header_ok h (lenN body) -> frames (reasm w) !! h_id h = Some f ->
  lenN (data f) = h_total h -> p_stride f = h_stride h -> p_count f = h_count h ->
  exists w' r, store h body w = Ok (w', r) /\ qf_wf w' /\ accounted w w' /\ retirement_grows w w' /\
    stored h body w f w' r.
Proof.
  intros Hw Hh Hk Hl Hst Hct. pose proof (qw_frames _ Hw _ _ Hk) as Hf.
  destruct Hh as [Hid Ht Hs [Hc Hcb] Hi Hb]. unfold MAX_FRAGMENTS in Hcb.
  assert (Hil : h_index h * h_stride h < h_total h) by (apply div_ceil_lt; lia).
  unfold store. rewrite Hk. cbn [expect mbind outcome_bind].
  rewrite shl64_one by lia. rewrite <- N.shiftl_1_l, land_bit, N.shiftl_1_l.
  destruct (N.testbit (seen f) (h_index h)) eqn:Hbit.
  - destruct (slice (data f) (h_index h * h_stride h) (h_index h * h_stride h + lenN body))
      as [old|e|] eqn:Hsl.
    2-3: exfalso; unfold slice in Hsl;
      destruct (N.leb_spec (h_index h * h_stride h) (h_index h * h_stride h + lenN body)); [|lia];
      destruct (N.leb_spec (h_index h * h_stride h + lenN body) (lenN (data f))); [done|lia].
    cbn [mbind outcome_bind]. destruct (negb (bool_decide (old = body))).
    + destruct (remove_retire (h_id h) w Hw) as (o & w1 & Hrm & _ & Hw2 & Ha2 & Hg2 & Hc2 & Hf2).
      rewrite Hrm. cbn [mbind outcome_bind]. eexists _, _. split_and!; try done. left. auto.
    + eexists _, _. split_and!; try done. left. auto.
  - destruct (copy_at (data f) (h_index h * h_stride h) body) as [data'|e|] eqn:Hcp.
    2-3: exfalso; unfold copy_at in Hcp;
      destruct (N.leb_spec (h_index h * h_stride h + lenN body) (lenN (data f))); [done|lia].
    cbn [mbind outcome_bind]. fold (stored_frame f (h_index h) data').
    pose proof (copy_at_len _ _ _ _ Hcp) as Hlen.
    pose proof (stored_seen_lt f (h_index h) Hf ltac:(lia)) as Hseen.
    cbn [stored_frame seen p_count].
    destruct (N.eqb_spec (count_ones (N.lor (seen f) (2 ^ h_index h))) (p_count f)) as [Hfull|Hpart];
      cbn [negb].
    + destruct (complete_frame (h_id h) f (stored_frame f (h_index h) data') w Hw Hk)
        as (w1 & Hrm & Hw2 & Ha2 & Hg2 & Hc2 & Hf2); [done|apply Hf|apply Hf|].
      rewrite Hrm. cbn [mbind outcome_bind expect]. eexists _, _. split_and!; try done.
      right. split; [done|]. exists data'. split; [done|]. right. auto.
    + assert (Hf' : partial_wf (stored_frame f (h_index h) data')).
      { destruct Hf as [H1 H2 H3 H4 H5 H6 H7].
        split; cbn [stored_frame data p_stride p_count seen process_reservation mesh_reservation];
          rewrite ?Hlen; done. }
      destruct (with_frame_wf (h_id h) f _ w Hw Hk Hf' Hlen) as [Hw2 Ha2].
      eexists _, _. split_and!; try done; [by intros x|].
      right. split; [done|]. exists data'. split; [done|]. left. auto.
Qed.

(** ** Pushing *)

Lemma qf_expire_spec now w :
  qf_wf w ->
  exists w', expire now w = Ok w' /\ qf_wf w' /\ accounted w w' /\ retirement_grows w w' /\
    (forall id f, frames (reasm w') !! id = Some f -> frames (reasm w) !! id = Some f) /\
    (expired_ids now (reasm w) = [] -> w' = w).
Proof. apply expire_list_spec. Qed.

(** What one [push] returns, and to which state it leads; [w1] is the state
    after the expiry, [w2] the state in which the frame of the header exists. *)
Inductive pushed (bytes : list byte) (now : N) (w w' : World)
    : outcome FragmentError (option (list byte)) -> Prop :=
| pushed_quiet r :
    (r = Ok None \/ exists e, r = Err e) ->
    (forall id f, frames (reasm w') !! id = Some f -> frames (reasm w) !! id = Some f) ->
    pushed bytes now w w' r
| pushed_stored h f w1 w2 body r :
    header_parse bytes = Ok h -> slice_from bytes HEADER = Ok (E:=FragmentError) body ->
    expire now w = Ok w1 -> retired_contains (h_id h) (retired (reasm w1)) = false ->
    admit_frame h now w1 = Ok (inl w2) -> qf_wf w2 ->
    (forall id f, frames (reasm w1) !! id = Some f -> frames (reasm w) !! id = Some f) ->
    frames (reasm w2) !! h_id h = Some f ->
    (frames (reasm w1) !! h_id h = Some f \/
     frames (reasm w1) !! h_id h = None /\ f = new_partial h now) ->
    lenN (data f) = h_total h -> p_stride f = h_stride h -> p_count f = h_count h ->
    (forall id, id <> h_id h -> frames (reasm w2) !! id = frames (reasm w1) !! id) ->
    stored h body w2 f w' r ->
    pushed bytes now w w' r.

Lemma push_spec bytes now w :
  qf_wf w ->
  exists w' r, push bytes now w = Ok (w', r) /\ qf_wf w' /\ accounted w w' /\
    retirement_grows w w' /\ pushed bytes now w w' r.
Proof.
  intros Hw. unfold push. destruct (qf_expire_spec now w Hw) as (w1 & He & Hw1 & Ha1 & Hg1 & Hf1 & _).
  rewrite He. cbn [mbind outcome_bind]. pose proof (no_panic_header_parse bytes) as Hnp.
  destruct (header_parse bytes) as [h|e|] eqn:Hp; [|eexists _, _; split_and!; eauto using pushed|done].
  destruct (retired_contains (h_id h) (retired (reasm w1))) eqn:Hret;
    [eexists _, _; split_and!; eauto using pushed|].
  pose proof (header_parse_Ok _ _ Hp) as [Hh Hlen].
  destruct (admit_spec h now w1 _ Hw1 Hh) as (r & Hadm & Hr). rewrite Hadm. cbn [mbind outcome_bind].
  destruct r as [w2|[w2 res]].
  - destruct Hr as (Hw2 & Ha2 & Hret2 & (f & Hk & Hl & Hst & Hct & Hor) & Hoth).
    destruct (slice_from (E:=FragmentError) bytes HEADER) as [body|e|] eqn:Hsl.
    2-3: exfalso; unfold slice_from, slice in Hsl;
      destruct (N.leb_spec HEADER (lenN bytes)), (N.leb_spec (lenN bytes) (lenN bytes)); (done || lia).
    cbn [mbind outcome_bind]. rewrite <- (slice_from_len _ _ _ Hsl) in Hh.
    destruct (store_spec h body w2 f Hw2 Hh Hk Hl Hst Hct) as (w3 & r & Hsto & Hw3 & Ha3 & Hg3 & Hs).
    exists w3, r. split_and!; [done|done| | |].
    + eapply accounted_trans, Ha3. by eapply accounted_trans.
    + intros x Hx%Hg1. apply Hg3. by rewrite Hret2.
    + eapply (pushed_stored _ _ _ _ h f w1 w2); eauto.
  - destruct Hr as (Hw2 & Ha2 & Hg2 & _ & Hres & Hf2). exists w2, res. split_and!; [done|done| | |].
    + by eapply accounted_trans.
    + intros x Hx%Hg1. by apply Hg2.
    + apply pushed_quiet; [done|]. eauto.
Qed.

(** Dropping the reservations of every frame. *)
Definition held (l : list (N * Partial)) : N := foldr (fun e acc => data_len e.2 + acc) 0 l.
Lemma held_perm l k : l ≡ₚ k -> held l = held k.
Proof. unfold held. induction 1; cbn; lia. Qed.
Lemma held_entries (m : gmap N Partial) : held (bt_entries m) = map_sum data_len m.
Proof.
  rewrite (held_perm _ _ (bt_entries_perm m)). unfold map_sum. rewrite map_fold_foldr.
  unfold held. induction (map_to_list m) as [|[k v] l IH]; [done|]. cbn. by rewrite IH.
Qed.
Lemma release_all_wf proj l b n :
  Forall (fun e => proj e.2 = data_len e.2) l -> budget_wf n b -> held l <= n ->
  let b' := foldr (fun e b => release (proj e.2) b) b l in
  budget_wf (n - held l) b' /\ limit b' = limit b /\ used b' = used b - held l.
Proof.
  intros Hall Hb. induction Hall as [|[k f] l Hx Hall IH]; cbn zeta in *; cbn [foldr]; intros Hn;
    [unfold held in *; cbn [foldr] in *|change (held ((k, f) :: l)) with (data_len f + held l) in *].
  { split_and!; [by rewrite N.sub_0_r|done|by rewrite N.sub_0_r]. }
  destruct IH as (H1 & H2 & H3); [lia|]. cbn [snd] in *. rewrite Hx.
  destruct (release_wf (data_len f) _ _ H1) as (H4 & H5 & H6); [lia|].
  split_and!; [|by rewrite H5|rewrite H6, H3; lia].
  replace (n - (data_len f + held l)) with (n - held l - data_len f) by lia. done.
Qed.

Lemma clear_spec w :
  qf_wf w -> qf_wf (clear w) /\ accounted w (clear w) /\ retirement_grows w (clear w) /\
  frames (reasm (clear w)) = ∅.
Proof.
  intros [Hf Hb Hi Hm Hr Hp Hq]. unfold clear.
  pose proof (held_entries (frames (reasm w))) as Hh.
  assert (Hall : forall P : Partial -> Prop, (forall f, partial_wf f -> P f) ->
    Forall (fun e => P e.2) (bt_entries (frames (reasm w)))).
  { intros P HP. apply Forall_forall. intros [k f] Hin%elem_of_bt_entries. apply HP. by eapply Hf. }
  destruct (release_all_wf process_reservation _ _ _ (Hall _ pw_process) Hp) as (P1 & P2 & P3); [lia|].
  destruct (release_all_wf mesh_reservation _ _ _ (Hall _ pw_mesh) Hq) as (M1 & M2 & M3); [lia|].
  assert (Hz : buffered (reasm w) - held (bt_entries (frames (reasm w))) = 0) by lia.
  rewrite Hz in P1, M1. destruct Hp as (? & _), Hq as (? & _).
  split_and!; [|split; cbn [reasm process mesh buffered]; lia|by intros x|done].
  split; cbn; try done; lia.
Qed.

(** ** Runs

    The calls a connection makes, in any order, with what [push] delivered
    under which frame identity. *)
Inductive Op := Push (bytes : list byte) (now : N) | Expire (now : N) | Clear.
Definition delivery (bytes : list byte) (r : outcome FragmentError (option (list byte)))
    : list (N * list byte) :=
  match header_parse bytes, r with
  | Ok h, Ok (Some d) => [(h_id h, d)]
  | _, _ => []
  end.
Definition apply_op (w : World) (op : Op) : outcome FragmentError (World * list (N * list byte)) :=
  match op with
  | Push bytes now => '(w, r) ← push bytes now w; Ok (w, delivery bytes r)
  | Expire now => w ← expire now w; Ok (w, [])
  | Clear => Ok (clear w, [])
  end.
Fixpoint run (w : World) (ops : list Op) : outcome FragmentError (World * list (N * list byte)) :=
  match ops with
  | [] => Ok (w, [])
  | op :: ops => '(w, out) ← apply_op w op; '(w, rest) ← run w ops; Ok (w, out ++ rest)
  end.

(** A property of states that every call preserves holds along a run. *)
Lemma apply_op_spec w op :
  qf_wf w -> exists w' out, apply_op w op = Ok (w', out) /\ qf_wf w' /\ accounted w w' /\
    retirement_grows w w'.
Proof.
  intros Hw. destruct op as [bytes now|now|]; cbn [apply_op].
  - destruct (push_spec bytes now w Hw) as (w' & r & -> & ? & ? & ? & _). eexists _, _. done.
  - destruct (qf_expire_spec now w Hw) as (w' & -> & ? & ? & ? & _). eexists _, _. done.
  - destruct (clear_spec w Hw) as (? & ? & ? & _). eexists _, _. done.
Qed.
Lemma run_spec w ops :
  qf_wf w -> exists w' out, run w ops = Ok (w', out) /\ qf_wf w' /\ accounted w w' /\
    retirement_grows w w'.
Proof.
  revert w. induction ops as [|op ops IH]; intros w Hw; cbn [run].
  { eexists _, _. split_and!; try done. }
  destruct (apply_op_spec w op Hw) as (w1 & o1 & -> & Hw1 & Ha1 & Hg1). cbn [mbind outcome_bind].
  destruct (IH w1 Hw1) as (w2 & o2 & -> & Hw2 & Ha2 & Hg2). cbn [mbind outcome_bind].
  eexists _, _. split_and!; [done|done|by eapply accounted_trans|].
  intros x Hx. by apply Hg2, Hg1.
Qed.

Definition fresh_world (process mesh : Budget) : World := mkWorld reassembler_new process mesh.
Lemma fresh_world_wf p m :
  budget_wf 0 p -> budget_wf 0 m -> qf_wf (fresh_world p m).
Proof.
  intros Hp Hm. split; cbn; try done.
  apply retired_default_wf.
Qed.

(** ** What a frame under reassembly holds *)

Record filled (F : list byte) (stride count : N) (f : Partial) : Prop := {
  fi_len : lenN (data f) = lenN F;
  fi_stride : p_stride f = stride;
  fi_count : p_count f = count;
  fi_bytes : forall j, j < lenN F -> N.testbit (seen f) (j / stride) = true ->
    data f !! N.to_nat j = F !! N.to_nat j;
}.

Lemma filled_new F h now : h_total h = lenN F -> filled F (h_stride h) (h_count h) (new_partial h now).
Proof.
  intros Ht. split; cbn [new_partial data p_stride p_count seen]; try done.
  unfold lenN at 1. rewrite length_replicate, Ht. lia.
Qed.

Lemma filled_stored F stride count f i data' :
  0 < stride -> filled F stride count f ->
  copy_at (E:=FragmentError) (data f) (i * stride) (chunk F stride i) = Ok data' ->
  filled F stride count (stored_frame f i data').
Proof.
  intros Hs [Hl H1 H2 Hb] Hcp. pose proof (copy_at_len _ _ _ _ Hcp) as Hlen.
  split; cbn [stored_frame data p_stride p_count seen]; try (done || congruence).
  intros j Hj. rewrite lor_pow2_bit, (copy_at_lookup _ _ _ _ _ Hcp).
  pose proof (chunk_len F stride i) as Hck.
  assert (Hck' : length (chunk F stride i) = N.to_nat (N.min stride (lenN F - i * stride))) by (unfold lenN in *; lia).
  rewrite Hck'.
  pose proof (N.div_mod j stride ltac:(lia)) as Hd. pose proof (N.mod_lt j stride ltac:(lia)) as Hm.
  generalize dependent (j mod stride). intros m Hd Hm.
  destruct (N.eqb_spec (j / stride) i) as [Hi|Hi]; cbn [orb].
  - intros _. rewrite Hi in Hd. rewrite decide_True by lia. unfold chunk.
    rewrite lookup_take, lookup_drop. rewrite decide_True by lia. f_equal. lia.
  - intros Hbit. rewrite decide_False; [by apply Hb|].
    intros [Hlo Hhi]. apply Hi. symmetry. apply (N.div_unique _ _ i (j - i * stride)); lia.
Qed.

Lemma filled_complete F stride count f :
  0 < stride -> count = div_ceil (lenN F) stride -> filled F stride count f ->
  (forall i, i < count -> N.testbit (seen f) i = true) -> data f = F.
Proof.
  intros Hs Hc [Hl _ _ Hb] Hall. apply list_eq. intros j.
  destruct (decide (j < length F)%nat) as [Hj|Hj].
  - specialize (Hb (N.of_nat j)). rewrite Nat2N.id in Hb. apply Hb; [unfold lenN; lia|].
    apply Hall. rewrite Hc. apply div_ceil_lt; [done|].
    pose proof (N.Div0.mul_div_le (N.of_nat j) stride) as Hle. rewrite N.mul_comm in Hle.
    eapply N.le_lt_trans; [exact Hle|]. unfold lenN. lia.
  - by rewrite (lookup_ge_None_2 (data f) j), (lookup_ge_None_2 F j) by (unfold lenN in *; lia).
Qed.

(** The fragments of a split frame, as the receiver parses them. *)
Lemma fragment_body id total stride i count body :
  slice_from (E:=FragmentError) (fragment_bytes id total stride i count body) HEADER = Ok body /\
  lenN (fragment_bytes id total stride i count body) = HEADER + lenN body.
Proof.
  assert (Hl : lenN (fragment_bytes id total stride i count body) = HEADER + lenN body).
  { unfold fragment_bytes. rewrite !lenN_app, !lenN_to_be.
    change (lenN MAGIC) with 4. change (lenN [x00; x00]) with 2. unfold HEADER. lia. }
  split; [|done]. apply slice_from_Ok. split; [lia|].
  unfold fragment_bytes. rewrite !app_assoc. rewrite skipn_app, skipn_all2.
  - rewrite !length_app, !length_to_be. by cbn.
  - rewrite !length_app, !length_to_be. by cbn.
Qed.

Lemma split_header id F lim stride count frags bytes :
  split_ok id F lim stride count frags -> id < 2 ^ 64 -> bytes ∈ frags ->
  exists i, i < count /\ frags !! N.to_nat i = Some bytes /\
    header_parse bytes = Ok (mkHeader id (lenN F) stride i count) /\
    slice_from (E:=FragmentError) bytes HEADER = Ok (chunk F stride i) /\ lenN bytes <= lim.
Proof.
  intros [Hid HF [Hs Hsl] [Hc Hcb] Hl Hfr] H64 (k & Hk)%list_elem_of_lookup.
  pose proof (lookup_lt_Some _ _ _ Hk) as Hlt.
  assert (Hi : N.of_nat k < count) by (unfold lenN in Hl; lia).
  pose proof (Hfr _ Hi) as Hb. rewrite Nat2N.id, Hk in Hb. injection Hb as ->.
  exists (N.of_nat k). rewrite Nat2N.id. destruct (fragment_body id (lenN F) stride (N.of_nat k) count
    (chunk F stride (N.of_nat k))) as [Hbody Hlen].
  split_and!; [done|done| |done|rewrite Hlen, chunk_len; lia].
  apply (header_parse_fragment (mkHeader id (lenN F) stride (N.of_nat k) count)); [|done].
  split; cbn; try (done || lia). apply chunk_len.
Qed.

(** ** Integrity *)

Definition content (id : N) (F : list byte) (stride count : N) (w : World) : Prop :=
  forall f, frames (reasm w) !! id = Some f -> filled F stride count f.

(** Storing a fragment of [F] under [id]. *)
Lemma stored_content id F stride count f w w' i r now :
  0 < stride -> count = div_ceil (lenN F) stride -> i < count -> partial_wf f ->
  stored (mkHeader id (lenN F) stride i count) (chunk F stride i) w f w' r ->
  frames (reasm w) !! id = Some f ->
  filled F stride count f \/ f = new_partial (mkHeader id (lenN F) stride i count) now ->
  content id F stride count w' /\ forall d, r = Ok (Some d) -> d = F.
Proof.
  intros Hs Hc Hi Hwf Hst Hk Hor.
  assert (Hf : filled F stride count f).
  { destruct Hor as [|Heq]; [done|]. rewrite Heq. by apply (filled_new F (mkHeader id (lenN F) stride i count)). }
  unfold stored in Hst. cbn [h_id h_index h_stride] in Hst.
  destruct Hst as [(_ & [[-> ->]|[-> Hfr]])|(_ & data' & Hcp & [(-> & _ & _ & Hfr)|(-> & Hn & _ & Hfr)])].
  - split; [|done]. intros f' Hk'. rewrite Hk in Hk'. by injection Hk' as <-.
  - split; [|done]. intros f' Hk'. by rewrite Hfr, lookup_delete_eq in Hk'.
  - split; [|done]. intros f' Hk'. rewrite Hfr, lookup_insert_eq in Hk'. injection Hk' as <-.
    by apply (filled_stored _ _ _ _ _ _ Hs Hf).
  - split; [intros f' Hk'; by rewrite Hfr, lookup_delete_eq in Hk'|]. intros d [= <-].
    pose proof (filled_stored _ _ _ _ _ _ Hs Hf Hcp) as Hf'.
    apply (filled_complete _ _ _ _ Hs Hc Hf'). cbn [stored_frame seen].
    destruct Hwf as [_ _ [_ Hb] Hseen _ _ _]. pose proof (fi_count _ _ _ _ Hf) as Hpc.
    assert (Hlt : N.lor (seen f) (2 ^ i) < 2 ^ count).
    { apply bits_lt. intros j Hj. rewrite lor_pow2_bit. apply orb_false_iff. split.
      - apply N.eqb_neq. lia.
      - apply (testbit_above _ _ (p_count f)); [done|lia]. }
    unfold MAX_FRAGMENTS in Hb. apply (count_ones_spec _ count Hlt); lia.
Qed.

(** Every fragment pushed under [id] is one of [frags]. *)
Definition honest (id : N) (frags : list (list byte)) (bytes : list byte) : Prop :=
  forall h, header_parse bytes = Ok h -> h_id h = id -> bytes ∈ frags.

Lemma push_content id F lim stride count frags bytes now w w' r :
  split_ok id F lim stride count frags -> id < 2 ^ 64 -> qf_wf w -> content id F stride count w ->
  honest id frags bytes -> push bytes now w = Ok (w', r) ->
  content id F stride count w' /\ forall d, (id, d) ∈ delivery bytes r -> d = F.
Proof.
  intros Hsp H64 Hw Hcon Hhon Hpush.
  destruct (push_spec bytes now w Hw) as (w0 & r0 & Hp & _ & _ & _ & Hpd). rewrite Hpush in Hp.
  injection Hp as <- <-. pose proof Hsp as [_ _ [Hs _] [Hc _] _ _].
  destruct Hpd as [r Hr Hfr|h f w1 w2 body r Hh Hbody He Hret Hadm Hw2 Hf1 Hk Hor Hl Hst Hct Hoth Hsto].
  - split; [intros f Hf; by apply Hcon, Hfr|]. intros d. unfold delivery.
    destruct Hr as [->|[e ->]]; destruct (header_parse bytes); by intros ?%not_elem_of_nil.
  - destruct (decide (h_id h = id)) as [Hid|Hid].
    + destruct (split_header _ _ _ _ _ _ _ Hsp H64 (Hhon _ Hh Hid)) as (i & Hi & _ & Hh' & Hb' & _).
      rewrite Hh in Hh'. injection Hh' as ->. rewrite Hbody in Hb'. injection Hb' as ->.
      cbn [h_id] in *.
      destruct (stored_content id F stride count f w2 w' i r now ltac:(lia) Hc Hi
        (qw_frames _ Hw2 _ _ Hk) Hsto Hk) as [Hcon' Hd].
      { destruct Hor as [Hk1|[_ Hnew]]; [left; by apply Hcon, Hf1|by right]. }
      split; [done|]. intros d. unfold delivery. rewrite Hh.
      destruct r as [[d'|]|e|]; try by intros ?%not_elem_of_nil.
      intros [= ->]%list_elem_of_singleton. by apply Hd.
    + split.
      * intros f' Hk'. apply Hcon, Hf1. rewrite <- Hoth by done.
        unfold stored in Hsto.
        destruct Hsto as [(_ & [[_ ->]|[_ Hfr]])|(_ & d' & _ & [(_ & _ & _ & Hfr)|(_ & _ & _ & Hfr)])].
        -- done.
        -- rewrite Hfr in Hk'. by rewrite lookup_delete_ne in Hk'.
        -- rewrite Hfr in Hk'. by rewrite lookup_insert_ne in Hk'.
        -- rewrite Hfr in Hk'. by rewrite lookup_delete_ne in Hk'.
      * intros d. unfold delivery. rewrite Hh.
        destruct r as [[d'|]|e|]; try by intros ?%not_elem_of_nil.
        intros [= ? ?]%list_elem_of_singleton. congruence.
Qed.

Definition op_honest (id : N) (frags : list (list byte)) (op : Op) : Prop :=
  match op with Push bytes _ => honest id frags bytes | _ => True end.

Lemma run_content id F lim stride count frags ops w w' out :
  split_ok id F lim stride count frags -> id < 2 ^ 64 -> qf_wf w -> content id F stride count w ->
  Forall (op_honest id frags) ops -> run w ops = Ok (w', out) ->
  forall d, (id, d) ∈ out -> d = F.
Proof.
  intros Hsp H64. revert w out. induction ops as [|op ops IH]; intros w out Hw Hcon Hall; cbn [run].
  { intros [= _ <-] d ?%not_elem_of_nil. done. }
  apply Forall_cons in Hall as [Hop Hall].
  destruct (apply_op_spec w op Hw) as (w1 & o1 & Hap & Hw1 & _). rewrite Hap. cbn [mbind outcome_bind].
  destruct (run_spec w1 ops Hw1) as (w2 & o2 & Hrun & _). rewrite Hrun. cbn [mbind outcome_bind].
  intros [= <- <-].
  assert (content id F stride count w1 /\ forall d, (id, d) ∈ o1 -> d = F) as [Hcon1 Ho1].
  { destruct op as [bytes now|now|]; cbn [apply_op op_honest] in *.
    - apply bind_Ok in Hap as ([w1' r] & Hpush & [= -> <-]). exact (push_content id F lim stride count frags bytes now w w1 r Hsp H64 Hw Hcon Hop Hpush).
    - destruct (qf_expire_spec now w Hw) as (w1' & He & _ & _ & _ & Hf & _). rewrite He in Hap.
      injection Hap as -> <-. split; [intros f Hk; by apply Hcon, Hf|by intros d ?%not_elem_of_nil].
    - injection Hap as <- <-. split; [by intros f Hk|by intros d ?%not_elem_of_nil]. }
  intros d [Hd|Hd]%elem_of_app; [by apply Ho1|]. by eapply IH.
Qed.

(** ** Delivery *)

Lemma push_delivers bytes now w w' r id d :
  qf_wf w -> push bytes now w = Ok (w', r) -> (id, d) ∈ delivery bytes r ->
  delivery bytes r = [(id, d)] /\ retired_contains id (retired (reasm w)) = false /\
  retired_contains id (retired (reasm w')) = true.
Proof.
  intros Hw Hpush Hin. destruct (push_spec bytes now w Hw) as (w0 & r0 & Hp & _ & _ & _ & Hpd).
  rewrite Hpush in Hp. injection Hp as <- <-.
  unfold delivery in *. destruct Hpd as [r Hr _|h f w1 w2 body r Hh _ He Hret _ _ _ _ _ _ _ _ _ Hsto].
  - destruct Hr as [->|[e ->]]; destruct (header_parse bytes); by apply not_elem_of_nil in Hin.
  - rewrite Hh in *. destruct r as [[d'|]|e|]; try by apply not_elem_of_nil in Hin.
    apply list_elem_of_singleton in Hin as [= -> ->]. split; [done|].
    destruct (qf_expire_spec now w Hw) as (w1' & He' & _ & _ & Hg & _). rewrite He in He'.
    injection He' as <-. split.
    + destruct (retired_contains (h_id h) (retired (reasm w))) eqn:Hr0; [|done].
      apply Hg in Hr0. congruence.
    + unfold stored in Hsto. naive_solver.
Qed.

Lemma run_delivers w ops w' out :
  qf_wf w -> run w ops = Ok (w', out) ->
  NoDup out.*1 /\ forall id, id ∈ out.*1 ->
    retired_contains id (retired (reasm w)) = false /\ retired_contains id (retired (reasm w')) = true.
Proof.
  revert w out. induction ops as [|op ops IH]; intros w out Hw; cbn [run].
  { intros [= _ <-]. split; [constructor|by intros ? ?%not_elem_of_nil]. }
  destruct (apply_op_spec w op Hw) as (w1 & o1 & Hap & Hw1 & _ & Hg1).
  rewrite Hap. cbn [mbind outcome_bind].
  destruct (run_spec w1 ops Hw1) as (w2 & o2 & Hrun & _ & _ & Hg2). rewrite Hrun.
  cbn [mbind outcome_bind]. intros [= <- <-]. destruct (IH _ _ Hw1 Hrun) as [Hnd Hin].
  assert (o1 = [] \/ exists id d, o1 = [(id, d)] /\ retired_contains id (retired (reasm w)) = false /\
    retired_contains id (retired (reasm w1)) = true) as Ho1.
  { destruct op as [bytes now|now|]; cbn [apply_op] in Hap.
    - apply bind_Ok in Hap as ([w1' r] & Hpush & [= -> <-]).
      destruct (delivery bytes r) as [|[id d] l] eqn:Hd; [by left|]. right. exists id, d.
      rewrite <- Hd. apply (push_delivers _ _ _ _ _ _ _ Hw Hpush). rewrite Hd. by left.
    - apply bind_Ok in Hap as (? & _ & [= _ <-]). by left.
    - injection Hap as _ <-. by left. }
  assert (Hrest : forall id, id ∈ o2.*1 -> retired_contains id (retired (reasm w)) = false).
  { intros id [H _]%Hin. destruct (retired_contains id (retired (reasm w))) eqn:Hr; [|done].
    apply Hg1 in Hr. congruence. }
  destruct Ho1 as [->|(id & d & -> & Hr0 & Hr1)]; cbn [app fmap list_fmap fst].
  - split; [done|]. intros x Hx. split; [by apply Hrest|by apply Hin].
  - split.
    + constructor; [|done]. intros [H _]%Hin. congruence.
    + intros x [->|Hx]%elem_of_cons; [split; [done|by apply Hg2]|].
      split; [by apply Hrest|by apply Hin].
Qed.

(** ** Liveness: the fragments of one frame, in any order *)

Lemma expired_ids_none now r :
  (forall id f, frames r !! id = Some f -> now < deadline f /\ retired_contains id (retired r) = false) ->
  expired_ids now r = [].
Proof.
  intros Hf. unfold expired_ids. destruct (filter _ _) as [|[id f] l] eqn:Hfl; [done|].
  assert (Hin : (id, f) ∈ filter (fun e => deadline e.2 <= now \/ retired_contains e.1 (retired r) = true)
    (bt_entries (frames r))) by (rewrite Hfl; by left).
  apply list_elem_of_filter in Hin as [Hor Hin%elem_of_bt_entries].
  destruct (Hf _ _ Hin) as [H1 H2]. cbn in Hor. destruct Hor; [lia|congruence].
Qed.

Lemma expire_none now w : expired_ids now (reasm w) = [] -> expire now w = Ok w.
Proof. intros H. unfold expire. by rewrite H. Qed.

(** The only frame in [w] is [F], under [id], with exactly the fragments in
    [got] received. *)
Record receiving (id : N) (F : list byte) (stride count : N) (frags got : list (list byte))
    (t : N) (w : World) : Prop := {
  rc_wf : qf_wf w;
  rc_retired : retired_contains id (retired (reasm w)) = false;
  rc_frame : exists f, frames (reasm w) = {[id := f]} /\ filled F stride count f /\
    deadline f = t + LIFETIME /\
    forall i b, frags !! N.to_nat i = Some b -> (N.testbit (seen f) i = true <-> b ∈ got);
}.

(** The result of the fragment [b]. *)
Definition received (id : N) (F : list byte) (stride count : N) (frags got : list (list byte))
    (t : N) (w : World) (b : list byte) (w' : World) (r : outcome FragmentError (option (list byte))) : Prop :=
  (exists b', b' ∈ frags /\ b' ∉ (b :: got) /\ r = Ok None /\ receiving id F stride count frags (b :: got) t w') \/
  (frags ⊆ (b :: got) /\ r = Ok (Some F) /\ frames (reasm w') = ∅).

Lemma split_NoDup id F lim stride count frags :
  split_ok id F lim stride count frags -> id < 2 ^ 64 -> NoDup frags.
Proof.
  intros Hsp H64. apply NoDup_alt. intros i j b Hi Hj.
  pose proof (so_length _ _ _ _ _ _ Hsp) as Hl. unfold lenN in Hl.
  assert (Hat : forall k, frags !! k = Some b ->
    header_parse b = Ok (mkHeader id (lenN F) stride (N.of_nat k) count)).
  { intros k Hk. pose proof (lookup_lt_Some _ _ _ Hk).
    destruct Hsp as [Hid HF [Hs Hsl] [Hc Hcb] _ Hfr].
    pose proof (Hfr (N.of_nat k) ltac:(lia)) as Hb. rewrite Nat2N.id, Hk in Hb. injection Hb as ->.
    apply (header_parse_fragment (mkHeader id (lenN F) stride (N.of_nat k) count)); [|done].
    split; cbn; try (done || lia). apply chunk_len. }
  pose proof (Hat _ Hi) as H1. rewrite (Hat _ Hj) in H1. injection H1. lia.
Qed.

Lemma store_next id F lim stride count frags got t w i b :
  split_ok id F lim stride count frags -> id < 2 ^ 64 ->
  receiving id F stride count frags got t w ->
  i < count -> frags !! N.to_nat i = Some b -> b ∉ got ->
  exists w' r, store (mkHeader id (lenN F) stride i count) (chunk F stride i) w = Ok (w', r) /\
    qf_wf w' /\ accounted w w' /\ received id F stride count frags got t w b w' r.
Proof.
  intros Hsp H64 [Hw Hret (f & Hfr & Hfi & Hdl & Hseen)] Hi Hb Hnew.
  pose proof (split_NoDup _ _ _ _ _ _ Hsp H64) as Hnd.
  pose proof Hsp as [Hid HF [Hs Hsl] [Hc Hcb] Hlen Hfrag].
  assert (Hk : frames (reasm w) !! id = Some f) by (by rewrite Hfr, lookup_singleton_eq).
  pose proof Hfi as [Fl Fs Fc _]. pose proof (qw_frames _ Hw _ _ Hk) as Hpw.
  destruct (store_spec (mkHeader id (lenN F) stride i count) (chunk F stride i) w f Hw)
    as (w' & r & Hst & Hw' & Ha & _ & Hsto); try done.
  { split; cbn; try (done || lia). apply chunk_len. }
  exists w', r. split_and!; [done|done|done|].
  destruct (stored_content id F stride count f w w' i r 0 ltac:(lia) Hc Hi Hpw Hsto Hk (or_introl Hfi))
    as [Hcon Hd].
  assert (Hnotseen : N.testbit (seen f) i = false).
  { destruct (N.testbit (seen f) i) eqn:Hbit; [|done]. apply (Hseen _ _ Hb) in Hbit. done. }
  unfold stored in Hsto. cbn [h_id h_index h_stride] in Hsto.
  destruct Hsto as [[Hbad _]|(_ & data' & Hcp & Hor)]; [congruence|].
  assert (Hbits : forall j c, frags !! N.to_nat j = Some c ->
    (N.testbit (N.lor (seen f) (2 ^ i)) j = true <-> c ∈ (b :: got))).
  { intros j c Hj. rewrite lor_pow2_bit, orb_true_iff, N.eqb_eq, elem_of_cons, (Hseen _ _ Hj).
    split; intros [H|H]; [left|by right|left|by right].
    - subst j. congruence.
    - subst c. pose proof (NoDup_lookup _ _ _ _ Hnd Hj Hb). lia. }
  assert (Hlt : N.lor (seen f) (2 ^ i) < 2 ^ count).
  { rewrite <- Fc. apply stored_seen_lt; [done|lia]. }
  unfold MAX_FRAGMENTS in Hcb. destruct (count_ones_spec _ count Hlt ltac:(lia)) as [_ Hfull].
  destruct Hor as [(-> & Hne & Hr & Hfr')|(-> & Heq & _ & Hfr')].
  - left. destruct (decide (frags ⊆ (b :: got))) as [Hsub|Hsub].
    { exfalso. apply Hne. rewrite Fc. apply Hfull. intros j Hj.
      destruct (lookup_lt_is_Some_2 frags (N.to_nat j)) as [c Hcj]; [unfold lenN in *; lia|].
      apply (Hbits _ _ Hcj). by apply Hsub, (list_elem_of_lookup_2 _ _ _ Hcj). }
    assert (exists b', b' ∈ frags /\ b' ∉ (b :: got)) as (b' & Hb1 & Hb2).
    { destruct (decide (Forall (fun c => c ∈ (b :: got)) frags)) as [Hall|Hall].
      - exfalso. apply Hsub. intros x Hx. by apply (proj1 (Forall_forall _ _) Hall).
      - apply not_Forall_Exists, Exists_exists in Hall; [exact Hall|apply _]. }
    exists b'. split_and!; [done|done|done|]. split; [done|by rewrite Hr|].
    exists (stored_frame f i data'). split_and!.
    + by rewrite Hfr', Hfr, insert_singleton_eq.
    + by apply (filled_stored _ _ _ _ _ _ (proj1 Hs) Hfi).
    + done.
    + done.
  - right. split_and!.
    + intros c [k Hk']%list_elem_of_lookup. apply (Hbits (N.of_nat k)); [by rewrite Nat2N.id|].
      rewrite Fc in Heq. apply Hfull; [done|].
      apply lookup_lt_Some in Hk'. unfold lenN in *. lia.
    + by rewrite (Hd _ eq_refl).
    + by rewrite Hfr', Hfr, delete_singleton_eq.
Qed.

Lemma push_next id F lim stride count frags got t w b now :
  split_ok id F lim stride count frags -> id < 2 ^ 64 ->
  receiving id F stride count frags got t w -> b ∈ frags -> b ∉ got -> now < t + LIFETIME ->
  exists w' r, push b now w = Ok (w', r) /\ qf_wf w' /\ accounted w w' /\
    delivery b r = (match r with Ok (Some d) => [(id, d)] | _ => [] end) /\
    received id F stride count frags got t w b w' r.
Proof.
  intros Hsp H64 Hrc Hin Hnew Hnow. pose proof Hrc as [Hw Hret (f & Hfr & Hfi & Hdl & Hseen)].
  destruct (split_header _ _ _ _ _ _ _ Hsp H64 Hin) as (i & Hi & Hb & Hh & Hbody & _).
  destruct (store_next _ _ _ _ _ _ _ _ _ _ _ Hsp H64 Hrc Hi Hb Hnew) as (w' & r & Hst & Hw' & Ha & Hr).
  exists w', r. split_and!; [|done|done| |done].
  - unfold push. rewrite expire_none.
    + cbn [mbind outcome_bind]. rewrite Hh. cbn [h_id]. rewrite Hret.
      unfold admit_frame. cbn [h_id h_total h_stride h_count]. rewrite Hfr, lookup_singleton_eq.
      rewrite (fi_len _ _ _ _ Hfi), (fi_stride _ _ _ _ Hfi), (fi_count _ _ _ _ Hfi), !N.eqb_refl.
      cbn [negb orb mbind outcome_bind]. by rewrite Hbody.
    + apply expired_ids_none. intros k g. rewrite Hfr. intros [<- <-]%lookup_singleton_Some.
      split; [lia|done].
  - unfold delivery. rewrite Hh. by destruct r as [[]| |].
Qed.

(** Room for a frame of [n] bytes in an idle reassembler. *)
Record idle (id n : N) (w : World) : Prop := {
  id_wf : qf_wf w;
  id_frames : frames (reasm w) = ∅;
  id_retired : retired_contains id (retired (reasm w)) = false;
  id_process : used (process w) + n <= limit (process w);
  id_mesh : used (mesh w) + n <= limit (mesh w);
}.
Lemma no_frames_buffered w : qf_wf w -> frames (reasm w) = ∅ -> buffered (reasm w) = 0.
Proof. intros Hw He. rewrite (qw_buffered _ Hw), He. apply map_sum_empty. Qed.

Lemma push_first id F lim stride count frags w b now :
  split_ok id F lim stride count frags -> id < 2 ^ 64 -> idle id (lenN F) w -> b ∈ frags ->
  exists w' r, push b now w = Ok (w', r) /\ qf_wf w' /\ accounted w w' /\
    delivery b r = (match r with Ok (Some d) => [(id, d)] | _ => [] end) /\
    received id F stride count frags [] now w b w' r.
Proof.
  intros Hsp H64 [Hw Hfr Hret Hp Hm] Hin.
  destruct (split_header _ _ _ _ _ _ _ Hsp H64 Hin) as (i & Hi & Hb & Hh & Hbody & _).
  pose proof (header_parse_Ok _ _ Hh) as [Hok _]. pose proof (no_frames_buffered _ Hw Hfr) as Hz.
  pose proof (ho_total _ _ Hok) as Ht. cbn [h_total] in Ht. unfold MAX_FRAME in Ht.
  set (h := mkHeader id (lenN F) stride i count) in *.
  assert (Hadd : forall b0 held0, budget_wf held0 b0 -> used b0 + lenN F <= limit b0 ->
    exists b1, reserve (lenN F) b0 = Some b1).
  { intros b0 held0 (_ & _ & Hmax) Hle. unfold reserve, checked_add, USIZE_MAX in *.
    destruct (N.leb_spec (used b0 + lenN F) U64_MAX); [|lia].
    destruct (N.leb_spec (used b0 + lenN F) (limit b0)); [by eexists|lia]. }
  destruct (Hadd _ _ (qw_process _ Hw) Hp) as [p1 Hp1]. destruct (Hadd _ _ (qw_mesh _ Hw) Hm) as [m1 Hm1].
  destruct (admit_spec h now w _ Hw Hok) as (r0 & Hadm & Hr0). pose proof Hadm as Hadm'.
  unfold admit_frame, reserve_both in Hadm.
  change (h_id h) with id in Hadm. change (h_total h) with (lenN F) in Hadm.
  rewrite Hfr, lookup_empty, Hz, map_size_empty, Hp1, Hm1 in Hadm.
  destruct (N.leb_spec MAX_INCOMPLETE (N.of_nat 0)) as [|_]; [unfold MAX_INCOMPLETE in *; lia|].
  destruct (N.ltb_spec MAX_BUFFERED (0 + lenN F)) as [|_]; [unfold MAX_BUFFERED in *; lia|].
  cbn [orb mbind option_bind] in Hadm. injection Hadm as <-.
  match type of Hadm' with _ = Ok (inl ?x) => set (w2 := x) in * end.
  destruct Hr0 as (Hw2 & Ha2 & Hret2 & _ & _).
  assert (Hrc : receiving id F stride count frags [] now w2).
  { split; [done|by rewrite Hret2|]. exists (new_partial h now). split_and!; try done.
    - unfold w2. cbn [with_reasm reasm frames]. by rewrite Hfr.
    - by apply (filled_new F h).
    - intros j c _. cbn [new_partial seen]. rewrite N.bits_0. by rewrite elem_of_nil. }
  destruct (store_next _ _ _ _ _ _ _ _ _ _ _ Hsp H64 Hrc Hi Hb) as (w' & r & Hst & Hw' & Ha & Hr);
    [by apply not_elem_of_nil|].
  exists w', r. split_and!; [|done|by eapply accounted_trans| |done].
  - unfold push. rewrite expire_none.
    + cbn [mbind outcome_bind]. rewrite Hh. fold h. cbn [h_id]. change (h_id h) with id. rewrite Hret.
      rewrite Hadm'. cbn [mbind outcome_bind]. by rewrite Hbody.
    + apply expired_ids_none. intros k g. by rewrite Hfr, lookup_empty.
  - unfold delivery. rewrite Hh. by destruct r as [[]| |].
Qed.

Lemma accounted_idle w w' :
  accounted w w' -> qf_wf w -> qf_wf w' -> frames (reasm w') = ∅ ->
  used (process w') + buffered (reasm w) = used (process w) /\
  used (mesh w') + buffered (reasm w) = used (mesh w).
Proof. intros [_ _ H1 H2] Hw Hw' He. rewrite (no_frames_buffered _ Hw' He) in *. lia. Qed.

Definition push_op (p : list byte * N) : Op := Push p.1 p.2.

Lemma run_receiving id F lim stride count frags got t w pushes :
  split_ok id F lim stride count frags -> id < 2 ^ 64 ->
  receiving id F stride count frags got t w ->
  got ++ pushes.*1 ≡ₚ frags -> pushes <> [] -> Forall (fun p => p.2 < t + LIFETIME) pushes ->
  exists w', run w (push_op <$> pushes) = Ok (w', [(id, F)]) /\ frames (reasm w') = ∅ /\
    qf_wf w' /\ accounted w w'.
Proof.
  intros Hsp H64. pose proof (split_NoDup _ _ _ _ _ _ Hsp H64) as Hnd.
  revert got w. induction pushes as [|[b now] pushes IH]; intros got w Hrc Hperm Hne Htime; [done|].
  apply Forall_cons in Htime as [Hnow Htime]. cbn [fmap list_fmap fst snd] in *.
  assert (Hbin : b ∈ frags) by (rewrite <- Hperm; apply elem_of_app; right; by left).
  assert (Hall : NoDup (got ++ b :: pushes.*1)) by (by rewrite Hperm).
  apply NoDup_app in Hall as (_ & Hdis & [Hb _]%NoDup_cons).
  assert (Hbn : b ∉ got) by (intros Hg; apply (Hdis _ Hg); by left).
  destruct (push_next _ _ _ _ _ _ _ _ _ _ _ Hsp H64 Hrc Hbin Hbn Hnow)
    as (w1 & r & Hpush & Hw1 & Ha1 & Hdel & Hr).
  cbn [run push_op apply_op fst snd]. rewrite Hpush. cbn [mbind outcome_bind]. rewrite Hdel.
  destruct Hr as [(b' & Hb1 & Hb2 & -> & Hrc1)|(Hsub & -> & He)].
  - destruct (IH (b :: got) w1 Hrc1) as (w2 & Hrun & He & Hw2 & Ha2).
    + rewrite <- Hperm. cbn [app]. by rewrite Permutation_middle.
    + intros ->. apply Hb2. rewrite <- Hperm in Hb1.
      apply elem_of_app in Hb1 as [?|?]; [by right|]. cbn in *. set_solver.
    + done.
    + rewrite Hrun. eexists. split_and!; [done|done|done|by eapply accounted_trans].
  - destruct pushes as [|[c now'] pushes].
    + cbn [fmap list_fmap run mbind outcome_bind app]. by eexists.
    + exfalso. assert (Hc : c ∈ frags) by (rewrite <- Hperm; set_solver).
      apply Hsub in Hc as [->|Hc]%elem_of_cons; [set_solver|]. apply (Hdis _ Hc). set_solver.
Qed.

(** ** Theorems *)

(** C26: Whatever datagrams arrive, in whatever order and at whatever times, and
    however expiry and [clear] are interleaved with them, a reassembler never
    aborts, holds at most 32 incomplete frames and 256 KiB, its [buffered]
    counter is the sum of the frames it holds, each frame is within its bounds,
    and both budgets stay within their limits, having grown by exactly what is
    buffered: every reservation is released exactly once. *)
Theorem fragments_bounded ops p m :
  used p <= limit p -> limit p <= USIZE_MAX -> used m <= limit m -> limit m <= USIZE_MAX ->
  exists w out, run (fresh_world p m) ops = Ok (w, out) /\
    N.of_nat (size (frames (reasm w))) <= MAX_INCOMPLETE /\
    buffered (reasm w) = map_sum data_len (frames (reasm w)) /\ buffered (reasm w) <= MAX_BUFFERED /\
    (forall id f, frames (reasm w) !! id = Some f -> partial_wf f) /\
    used (process w) = used p + buffered (reasm w) /\ used (process w) <= limit p /\
    used (mesh w) = used m + buffered (reasm w) /\ used (mesh w) <= limit m.
Proof.
  intros Hp Hp' Hm Hm'.
  destruct (run_spec (fresh_world p m) ops) as (w & out & Hrun & Hw & [L1 L2 A1 A2] & _).
  { apply fresh_world_wf; unfold budget_wf; split_and!; (done || lia). }
  exists w, out. cbn [fresh_world reasm process mesh reassembler_new buffered] in *.
  destruct Hw as [Hf Hb Hi Hmb _ (_ & Hpu & _) (_ & Hmu & _)].
  split_and!; try done; lia.
Qed.

(** No frame identity is ever delivered twice, whatever is replayed. *)
Theorem delivered_at_most_once ops w w' out :
  qf_wf w -> run w ops = Ok (w', out) -> NoDup out.*1.
Proof. intros Hw Hrun. by destruct (run_delivers _ _ _ _ Hw Hrun). Qed.

(** Integrity.  If every fragment pushed under the identity [id] is one that
    [split] made of [F] under [id], then whatever else is received, lost,
    duplicated, reordered or expired, a delivery under [id] is [F]. *)
Theorem delivery_intact id F lim frags ops w w' out :
  id < 2 ^ 64 -> split id F lim = Ok frags -> qf_wf w -> frames (reasm w) !! id = None ->
  Forall (op_honest id frags) ops -> run w ops = Ok (w', out) ->
  forall d, (id, d) ∈ out -> d = F.
Proof.
  intros H64 (stride & count & Hsp)%split_spec Hw Hk.
  apply (run_content id F lim stride count frags ops w w' out Hsp H64 Hw).
  intros f Hf. congruence.
Qed.

(** C37: Delivery.  The fragments of one frame, pushed in any order within the
    two-second lifetime into an idle reassembler with room in its budgets,
    deliver exactly the frame, with the last of them, and leave nothing
    buffered and both budgets as they were. *)
Theorem fragments_deliver id F lim frags pushes w :
  id < 2 ^ 64 -> split id F lim = Ok frags -> idle id (lenN F) w ->
  pushes.*1 ≡ₚ frags ->
  (forall p q, p ∈ pushes -> q ∈ pushes -> q.2 < p.2 + LIFETIME) ->
  exists w', run w (push_op <$> pushes) = Ok (w', [(id, F)]) /\ frames (reasm w') = ∅ /\
    used (process w') = used (process w) /\ used (mesh w') = used (mesh w).
Proof.
  intros H64 (stride & count & Hsp)%split_spec Hidle Hperm Htime. pose proof Hidle as [Hw Hfr _ _ _].
  pose proof (split_NoDup _ _ _ _ _ _ Hsp H64) as Hnd.
  pose proof (no_frames_buffered _ Hw Hfr) as Hz.
  assert (Hfin : forall w', qf_wf w' -> accounted w w' -> frames (reasm w') = ∅ ->
    used (process w') = used (process w) /\ used (mesh w') = used (mesh w)).
  { intros w' Hw' Ha He. pose proof (accounted_idle _ _ Ha Hw Hw' He). lia. }
  destruct pushes as [|[b now] pushes].
  { cbn in Hperm. apply Permutation_nil_l in Hperm. subst frags.
    destruct Hsp as [_ _ _ [_ Hc] Hl _]. change (lenN []) with 0 in Hl. lia. }
  cbn [fmap list_fmap fst] in Hperm.
  assert (Hbin : b ∈ frags) by (rewrite <- Hperm; by left).
  destruct (push_first _ _ _ _ _ _ _ _ now Hsp H64 Hidle Hbin)
    as (w1 & r & Hpush & Hw1 & Ha1 & Hdel & Hr).
  cbn [fmap list_fmap run push_op apply_op fst snd]. rewrite Hpush. cbn [mbind outcome_bind].
  rewrite Hdel. destruct Hr as [(b' & Hb1 & Hb2 & -> & Hrc1)|(Hsub & -> & He)].
  - destruct (run_receiving _ _ _ _ _ _ [b] now w1 pushes Hsp H64 Hrc1) as (w2 & Hrun & He & Hw2 & Ha2).
    + done.
    + intros ->. apply Hb2. by rewrite Hperm.
    + apply Forall_forall. intros q Hq. apply (Htime (b, now) q); [by left|by right].
    + fold (push_op <$> pushes). rewrite Hrun. exists w2. split_and!; [done|done|..];
        apply Hfin; (done || by eapply accounted_trans).
  - destruct pushes as [|[c now'] pushes].
    + cbn [fmap list_fmap run mbind outcome_bind app]. exists w1. split_and!; [done|done|..]; by apply Hfin.
    + exfalso. assert (Hc : c ∈ frags) by (rewrite <- Hperm; set_solver).
      rewrite <- Hperm in Hnd. apply NoDup_cons in Hnd as [Hnd _].
      apply Hsub in Hc as [->|Hc]%elem_of_cons; set_solver.
Qed.

(** [split] accepts a frame exactly when its identity is not zero, its
    length is within [1..=65535] and the path carries it in at most 64
    fragments; the fragments then fit the path, and each parses back to its
    identity, geometry and bytes. *)
Theorem split_exact id F lim :
  id < 2 ^ 64 ->
  (is_ok (split id F lim) = true <->
    id <> 0 /\ 0 < lenN F <= MAX_FRAME /\ HEADER < lim /\
    div_ceil (lenN F) (N.min (lim - HEADER) MAX_FRAME) <= MAX_FRAGMENTS) /\
  forall frags, split id F lim = Ok frags ->
    lenN frags <= MAX_FRAGMENTS /\
    exists stride, forall i b, frags !! N.to_nat i = Some b ->
      lenN b <= lim /\ header_parse b = Ok (mkHeader id (lenN F) stride i (lenN frags)) /\
      slice_from (E:=FragmentError) b HEADER = Ok (chunk F stride i).
Proof.
  intros H64. split.
  - unfold split. destruct (N.eqb_spec id 0); [naive_solver|].
    destruct (N.eqb_spec (lenN F) 0); [split; [done|lia]|].
    destruct (N.ltb_spec MAX_FRAME (lenN F)); [split; [done|lia]|]. cbn [orb].
    destruct (N.eqb_spec (N.min (lim - HEADER) MAX_FRAME) 0) as [Hz|Hz];
      [split; [done|unfold HEADER, MAX_FRAME in *; lia]|]. cbn [orb].
    destruct (N.ltb_spec MAX_FRAGMENTS (div_ceil (lenN F) (N.min (lim - HEADER) MAX_FRAME))) as [|Hc];
      [split; [done|lia]|].
    split; [intros _; unfold HEADER in *; split_and!; (done || lia)|intros _].
    set (stride := N.min (lim - HEADER) MAX_FRAME) in *.
    assert (stride <= MAX_FRAME) by (unfold stride; lia).
    assert (Htry : forall max k, k <= max -> try_from max k = Ok k)
      by (intros max k Hle; unfold try_from; by destruct (N.leb_spec k max); [|lia]).
    unfold MAX_FRAME, MAX_FRAGMENTS in *.
    rewrite !Htry by (unfold U32_MAX, U16_MAX; lia). cbn [mbind outcome_bind].
    assert (Hex : forall l j, j + lenN l <= 64 + 1 -> exists frags,
      split_from j id (lenN F) stride (div_ceil (lenN F) stride) l = Ok frags).
    { intros l. induction l as [|x l IHl]; intros j Hj; cbn [split_from]; [by eexists|].
      rewrite lenN_cons in Hj. rewrite Htry by (unfold U16_MAX; lia). cbn [mbind outcome_bind].
      destruct (IHl (j + 1)) as [fr ->]; [lia|]. by eexists. }
    destruct (Hex (chunks stride F) 0) as [frags ->]; [|done].
    destruct (N.le_gt_cases (lenN (chunks stride F)) 64) as [|Hgt]; [lia|].
    destruct (lookup_lt_is_Some_2 (chunks stride F) (N.to_nat 64)) as [c Hl]; [unfold lenN in Hgt; lia|].
    rewrite chunks_lookup in Hl by lia.
    destruct (N.ltb_spec (64 * stride) (lenN F)) as [Hlt|]; [|done].
    apply div_ceil_lt in Hlt; lia.
  - intros frags (stride & count & Hsp)%split_spec.
    pose proof (so_length _ _ _ _ _ _ Hsp) as Hl. pose proof (so_count _ _ _ _ _ _ Hsp) as [_ Hc].
    split; [lia|]. exists stride. intros i b Hb.
    destruct (split_header _ _ _ _ _ _ b Hsp H64) as (j & Hj & Hbj & Hh & Hbody & Hlim);
      [by apply (list_elem_of_lookup_2 _ _ _ Hb)|].
    pose proof (NoDup_lookup _ _ _ _ (split_NoDup _ _ _ _ _ _ Hsp H64) Hb Hbj) as Hij.
    replace j with i in * by lia. by rewrite Hl.
Qed.

(** The window of retired identities is exact.  After retiring [id], exactly
    [id], what was retired before, and everything more than 1023 identities
    behind the highest one are retired; so nothing ever becomes acceptable
    again. *)
Theorem retired_window_exact id r :
  retired_wf r ->
  retired_wf (retired_insert id r) /\
  forall x, retired_contains x (retired_insert id r) = true <->
    x = id \/ retired_contains x r = true \/ x + 1024 <= N.max id (highest r).
Proof.
  intros Hw. destruct (retired_insert_spec id r Hw) as (H1 & _ & H2). split; [done|].
  intros x. rewrite H2. naive_solver lia.
Qed.

(** ** The compare-and-exchange loop of a shared budget

    One slot per call of [Budget::reserve], any number of them interleaved at
    the granularity of the atomic operations. *)
Inductive Slot :=
| Idle
| Trying (size loaded : N)
| Holding (size : N).
Record Shared := mkShared { sh_limit : N; sh_used : N; sh_slots : list Slot }.
Definition shared_budget (s : Shared) : Budget := mkBudget (sh_limit s) (sh_used s).
Definition set_slot (i : nat) (x : Slot) (used : N) (s : Shared) : Shared :=
  mkShared (sh_limit s) used (<[i := x]> (sh_slots s)).

Inductive budget_step : Shared -> Shared -> Prop :=
| step_load s i size :
    sh_slots s !! i = Some Idle ->
    budget_step s (set_slot i (Trying size (sh_used s)) (sh_used s) s)
| step_refuse s i size loaded :
    sh_slots s !! i = Some (Trying size loaded) ->
    reserve size (mkBudget (sh_limit s) loaded) = None ->
    budget_step s (set_slot i Idle (sh_used s) s)
| step_exchange s i size loaded next :
    sh_slots s !! i = Some (Trying size loaded) ->
    reserve size (mkBudget (sh_limit s) loaded) = Some next -> sh_used s = loaded ->
    budget_step s (set_slot i (Holding size) (used next) s)
| step_retry s i size loaded next :
    (* [compare_exchange_weak] may fail even when nothing changed. *)
    sh_slots s !! i = Some (Trying size loaded) ->
    reserve size (mkBudget (sh_limit s) loaded) = Some next ->
    budget_step s (set_slot i (Trying size (sh_used s)) (sh_used s) s)
| step_drop s i size :
    sh_slots s !! i = Some (Holding size) ->
    budget_step s (set_slot i Idle (used (release size (shared_budget s))) s).

Definition slot_held (x : Slot) : N := match x with Holding size => size | _ => 0 end.
Definition slots_held (l : list Slot) : N := foldr (fun x acc => slot_held x + acc) 0 l.
Lemma slots_held_insert l i x x' :
  l !! i = Some x -> slots_held (<[i := x']> l) + slot_held x = slots_held l + slot_held x'.
Proof.
  revert i. induction l as [|y l IH]; intros [|i]; [done|done|..]; cbn.
  - intros [= ->]. lia.
  - intros Hi%IH.
    change (slot_held y + slots_held (<[i := x']> l) + slot_held x = slot_held y + slots_held l + slot_held x').
    lia.
Qed.

Lemma budget_step_spec s s' :
  budget_wf (slots_held (sh_slots s)) (shared_budget s) -> sh_used s = slots_held (sh_slots s) ->
  budget_step s s' ->
  budget_wf (slots_held (sh_slots s')) (shared_budget s') /\ sh_used s' = slots_held (sh_slots s') /\
  sh_limit s' = sh_limit s /\
  (shared_budget s' = shared_budget s \/
   (exists size, reserve size (shared_budget s) = Some (shared_budget s')) \/
   exists size, size <= sh_used s /\ shared_budget s' = release size (shared_budget s)).
Proof.
  intros Hwf Hu Hst.
  destruct Hst as [s i size Hi|s i size u Hi _|s i size u b Hi Hr Heq|s i size u b Hi _|s i size Hi];
    pose proof (fun x' => slots_held_insert _ _ _ x' Hi) as Hh; cbn [slot_held] in Hh;
    unfold set_slot, shared_budget in *; cbn [sh_limit sh_used sh_slots] in *.
  1,2,4: match goal with |- context [<[?k := ?x]> _] => specialize (Hh x); cbn [slot_held] in Hh end;
    rewrite !N.add_0_r in Hh; rewrite Hh; split_and!; try done; by left.
  - specialize (Hh (Holding size)). cbn [slot_held] in Hh. subst u.
    destruct (reserve_wf _ _ _ _ Hwf Hr) as (Hb & Hl & Hus). cbn [used limit] in *.
    assert (Heq : mkBudget (sh_limit s) (used b) = b) by (destruct b; cbn in *; congruence).
    rewrite Heq. replace (slots_held (<[i:=Holding size]> (sh_slots s))) with
      (slots_held (sh_slots s) + size) by lia.
    split_and!; [done|lia|done|]. right. left. by exists size.
  - specialize (Hh Idle). cbn [slot_held] in Hh.
    assert (Hle : size <= slots_held (sh_slots s)) by lia.
    destruct (release_wf size _ _ Hwf Hle) as (Hb & Hl & Hus). cbn [used limit] in *.
    replace (slots_held (<[i:=Idle]> (sh_slots s))) with (slots_held (sh_slots s) - size) by lia.
    split_and!; [done|rewrite Hus; lia|done|]. right. right. exists size. split; [lia|done].
Qed.

(** The lock-free budget.  However many calls of [reserve] race, and
    however their atomic loads, exchanges (spurious failures included) and the
    drops of their reservations interleave, the counter is at all times the sum
    of the reservations held, never above the limit and never wrapping; and
    every step is invisible, or one atomic [reserve], or one atomic [release]:
    the operations the sequential model uses. *)
Theorem concurrent_budget_exact limit n s s' :
  limit <= USIZE_MAX ->
  rtc budget_step (mkShared limit 0 (replicate n Idle)) s -> budget_step s s' ->
  sh_used s = slots_held (sh_slots s) /\ sh_used s <= limit /\
  (shared_budget s' = shared_budget s \/
   (exists size, reserve size (shared_budget s) = Some (shared_budget s')) \/
   exists size, size <= sh_used s /\ shared_budget s' = release size (shared_budget s)).
Proof.
  intros Hlim Hrtc Hst.
  assert (Hinit : slots_held (replicate n Idle) = 0).
  { unfold slots_held. clear. induction n as [|n IH]; cbn; [done|]. by rewrite IH. }
  assert (Hinv : budget_wf (slots_held (sh_slots s)) (shared_budget s) /\
    sh_used s = slots_held (sh_slots s) /\ sh_limit s = limit).
  { remember (mkShared limit 0 (replicate n Idle)) as s0 eqn:Hs0.
    assert (H0 : budget_wf (slots_held (sh_slots s0)) (shared_budget s0) /\
      sh_used s0 = slots_held (sh_slots s0) /\ sh_limit s0 = limit).
    { subst s0. cbn [sh_slots sh_used sh_limit shared_budget]. rewrite Hinit.
      unfold budget_wf. cbn. split_and!; (done || lia). }
    clear Hs0 Hst Hinit. induction Hrtc as [|x y z Hxy _ IH]; [done|].
    apply IH. destruct H0 as (H1 & H2 & H3).
    destruct (budget_step_spec _ _ H1 H2 Hxy) as (? & ? & H4 & _). split_and!; [done|done|congruence]. }
  destruct Hinv as (H1 & H2 & H3). destruct (budget_step_spec _ _ H1 H2 Hst) as (_ & _ & _ & H4).
  destruct H1 as (_ & Hle & _). cbn [shared_budget used Qf.limit] in Hle. rewrite H3 in Hle. done.
Qed.

(** ** Witnesses *)

Definition example_frame : list byte := [x01; x02; x03].
Definition example_fragments : list (list byte) :=
  match split 7 example_frame 26 with Ok l => l | _ => [] end.
Definition example_world : World := fresh_world (budget_new 100) (budget_new 3).
(** The second fragment first, then the first, then a replay. *)
Definition example_pushes : list (list byte * N) :=
  zip (reverse example_fragments) [5; 6].
Definition example_ops : list Op :=
  (push_op <$> example_pushes) ++ [Push (default [] (head example_fragments)) 7; Expire 8].
Lemma example_world_wf : qf_wf example_world.
Proof. apply fresh_world_wf; unfold budget_wf; split_and!; done. Qed.

Lemma fragments_bounded_witness :
  exists w out, run (fresh_world (budget_new 100) (budget_new 3)) example_ops = Ok (w, out) /\
    used (process w) <= 100.
Proof.
  destruct (fragments_bounded example_ops (budget_new 100) (budget_new 3))
    as (w & out & Hrun & _ & _ & _ & _ & _ & Hle & _); [by vm_compute..|].
  exists w, out. exact (conj Hrun Hle).
Defined.

Lemma delivered_at_most_once_witness :
  exists w out, run example_world example_ops = Ok (w, out) /\ out = [(7, example_frame)] /\
    NoDup out.*1.
Proof.
  eexists _, _. split; [vm_compute; reflexivity|]. split; [vm_compute; reflexivity|].
  eapply (delivered_at_most_once example_ops example_world); [exact example_world_wf|].
  vm_compute. reflexivity.
Defined.

Lemma example_honest : Forall (op_honest 7 example_fragments) example_ops.
Proof.
  assert (Hmem : forall b, b ∈ example_fragments -> honest 7 example_fragments b) by (intros b Hb h _ _; done).
  repeat constructor; apply Hmem; vm_compute; set_solver.
Qed.

Lemma delivery_intact_witness :
  exists w out, run example_world example_ops = Ok (w, out) /\ length out = 1%nat /\
    Forall (fun x => x.1 = 7 -> x.2 = example_frame) out.
Proof.
  destruct (run_spec example_world example_ops example_world_wf) as (w & out & Hrun & _).
  exists w, out. split; [exact Hrun|]. split.
  - transitivity (length (match run example_world example_ops with Ok (_, o) => o | _ => [] end));
      [by rewrite Hrun|vm_compute; reflexivity].
  - apply Forall_forall. intros [k d] Hin Hk. cbn in Hk. subst k.
    apply (delivery_intact 7 example_frame 26 example_fragments example_ops example_world w out);
      [done|vm_compute; reflexivity|exact example_world_wf|done|exact example_honest|done|done].
Defined.

Lemma fragments_deliver_witness :
  exists w', run example_world (push_op <$> example_pushes) = Ok (w', [(7, example_frame)]) /\
    frames (reasm w') = ∅ /\ used (process w') = 0 /\ used (mesh w') = 0.
Proof.
  apply (fragments_deliver 7 example_frame 26 example_fragments example_pushes example_world).
  - done.
  - vm_compute. reflexivity.
  - split; [exact example_world_wf|done|done|by vm_compute|by vm_compute].
  - vm_compute. apply perm_swap.
  - intros p q Hp Hq. assert (Hb : forall x, x ∈ example_pushes -> 5 <= x.2 <= 6).
    { apply Forall_forall. vm_compute. repeat constructor; discriminate. }
    pose proof (Hb _ Hp). pose proof (Hb _ Hq). unfold LIFETIME. lia.
Defined.

Lemma split_exact_witness :
  is_ok (split 7 example_frame 26) = true /\ lenN example_fragments = 2.
Proof.
  split; [|vm_compute; reflexivity].
  apply (split_exact 7 example_frame 26); [done|]. by vm_compute.
Defined.

Lemma retired_window_exact_witness :
  retired_contains 5 (retired_insert 70 (retired_insert 5 retired_default)) = true /\
  retired_contains 6 (retired_insert 70 (retired_insert 5 retired_default)) = false.
Proof.
  split; [|vm_compute; reflexivity].
  destruct (retired_window_exact 5 retired_default retired_default_wf) as [Hw _].
  destruct (retired_window_exact 70 _ Hw) as [_ H]. apply H. right. left. vm_compute. reflexivity.
Defined.

(** Two calls for 2 bytes of 3 race: both load 0, one wins, the other retries. *)
Lemma concurrent_budget_exact_witness :
  let s := mkShared 3 2 [Holding 2; Trying 2 0] in
  sh_used s = slots_held (sh_slots s) /\ sh_used s <= 3.
Proof.
  destruct (concurrent_budget_exact 3 2 (mkShared 3 2 [Holding 2; Trying 2 0])
    (mkShared 3 2 [Holding 2; Trying 2 2])) as (H1 & H2 & _).
  - done.
  - eapply rtc_l; [apply (step_load _ 0 2); reflexivity|].
    eapply rtc_l; [apply (step_load _ 1 2); reflexivity|].
    eapply rtc_l; [eapply (step_exchange _ 0 2 0); reflexivity|]. apply rtc_refl.
  - exact (step_retry (mkShared 3 2 [Holding 2; Trying 2 0]) 1 2 0 (mkBudget 3 2) eq_refl eq_refl).
  - exact (conj H1 H2).
Defined.

End Qf.
