(* ===== verification/Wire.v ===== *)
(** * The wire formats of the Relay links (crates [peerward-wire], [peerward-carrier])

    The relay preface (relay_preface.rs), the record codec and the stream
    transport (records.rs, transport.rs), the envelope a Relay routes
    (session.rs), and the carrier's application records with the resumable frame
    reader (carrier records.rs).

    Noise is the [snow] crate and control envelopes are encoded by [prost]: both
    are parameters, the classes [SnowLib] and [ProstLib], and what the round
    trips rely on is stated in [SnowLaws] and [ProstLaws]. *)

From S2P Require Import Prelude Ordered Net.
From Stdlib Require Import NArith Lia Strings.Byte.
From stdpp Require Import base tactics decidable countable numbers list relations.
Set Default Goal Selector "!".
Local Open Scope N_scope.

Module Wire.

(** ** transport.rs *)

Definition PROTOCOL_MAJOR : N := 5.
(** [b"peerward/noise/v4"] *)
Definition NOISE_PROLOGUE : list byte :=
  [x70; x65; x65; x72; x77; x61; x72; x64; x2f; x6e; x6f; x69; x73; x65; x2f; x76; x34].
Inductive Suite := IK_SUITE | KK_SUITE.
#[export] Instance Suite_eq_dec : EqDecision Suite.
Proof. solve_decision. Defined.
Definition MAX_CIPHERTEXT_LEN : N := 65535.
Definition REKEY_MESSAGES : N := N.shiftl 1 19.
Definition REKEY_HARD_MESSAGES : N := N.shiftl 1 20.
Definition REKEY_SECONDS : N := 45 * 60.
Definition REKEY_HARD_SECONDS : N := 60 * 60.

Inductive WireError :=
  Noise | Authentication | Truncated | TrailingBytes | InvalidLength | Unsupported | KindMismatch
| MalformedControl | UnsupportedMajor | SequenceExhausted | RekeyRequired.
#[export] Instance WireError_eq_dec : EqDecision WireError.
Proof. solve_decision. Defined.

Record HandshakePayload := mkHandshakePayload {
  hp_major : N;
  hp_minor : N;
  capabilities : N;
  credential : list byte;
  attachment_id : list byte;
}.
Definition negotiate (self : HandshakePayload) (local_capabilities : N) : outcome WireError N :=
  if negb (hp_major self =? PROTOCOL_MAJOR) then Err UnsupportedMajor else
  if negb (lenN (attachment_id self) =? 16) || (lenN (credential self) =? 0)
  then Err KindMismatch else
  Ok (N.land (capabilities self) local_capabilities).

(** [snow]: keys and parameters are opaque; a failing call is [None].
    [write_message] and [read_message] get the length of the output buffer and
    return the bytes written into it. *)
Class SnowLib := {
  Builder : Type;
  HandshakeState : Type;
  TransportState : Type;
  builder_new : Suite -> option Builder;
  builder_prologue : Builder -> list byte -> option Builder;
  local_private_key : Builder -> list byte -> option Builder;
  remote_public_key : Builder -> list byte -> option Builder;
  build_initiator : Builder -> option HandshakeState;
  build_responder : Builder -> option HandshakeState;
  into_transport_mode : HandshakeState -> option TransportState;
  write_message : TransportState -> list byte -> N -> TransportState * option (list byte);
  read_message : TransportState -> list byte -> N -> TransportState * option (list byte);
}.

(** [prost]'s derived codec of [ControlEnvelope]. *)
Class ProstLib := {
  ControlEnvelope : Type;
  (** [envelope.message.is_some()] *)
  message_is_some : ControlEnvelope -> bool;
  encoded_len : ControlEnvelope -> N;
  encode_to_vec : ControlEnvelope -> list byte;
  envelope_decode : list byte -> option ControlEnvelope;
}.

Section handshake.
Context `{SnowLib}.
Definition build_handshake_with_prologue (suite : Suite) (initiator : bool)
    (local_private : list byte) (remote_public : option (list byte)) (prologue : list byte)
    : outcome WireError HandshakeState :=
  builder ← ok_or (builder_new suite) Noise;
  builder ← ok_or (builder_prologue builder prologue) Noise;
  builder ← ok_or (local_private_key builder local_private) Noise;
  builder ← match remote_public with
            | Some public => ok_or (remote_public_key builder public) Noise
            | None => Ok builder
            end;
  if initiator then ok_or (build_initiator builder) Noise
  else ok_or (build_responder builder) Noise.

Definition build_handshake (suite : Suite) (initiator : bool) (local_private : list byte)
    (remote_public : option (list byte)) : outcome WireError HandshakeState :=
  build_handshake_with_prologue suite initiator local_private remote_public NOISE_PROLOGUE.

Definition ik_initiator (local_private remote_public : list byte) :=
  build_handshake IK_SUITE true local_private (Some remote_public).
Definition ik_responder (local_private : list byte) :=
  build_handshake IK_SUITE false local_private None.
Definition kk_handshake (initiator : bool) (local_private remote_public : list byte) :=
  build_handshake KK_SUITE initiator local_private (Some remote_public).
End handshake.

(** ** relay_preface.rs *)

Definition RELAY_PREFACE_LEN : N := 56.
(** [b"PWR4"] *)
Definition MAGIC : list byte := [x50; x57; x52; x34].

Record RelayPreface := mkRelayPreface {
  mesh_id : MeshId;
  target : RelayId;
  source : option RelayId;
}.
#[export] Instance RelayPreface_eq_dec : EqDecision RelayPreface.
Proof. solve_decision. Defined.

Definition preface_encode (self : RelayPreface) : list byte :=
  MAGIC ++ [x04; match source self with Some _ => x02 | None => x01 end; x00; x00]
  ++ id_bytes (mesh_id self) ++ id_bytes (target self)
  ++ match source self with Some s => id_bytes s | None => replicate 16 x00 end.

Section preface.
Context `{UuidLib}.

(** The closure [id]: [Uuid::from_slice] accepts exactly 16 bytes. *)
Definition preface_uuid (bytes : list byte) (a b : N) : outcome WireError N :=
  s ← slice bytes a b;
  if lenN s =? 16 then Ok (from_be s) else Err KindMismatch.
Definition preface_id (bytes : list byte) (a b : N) : outcome WireError DomainId :=
  u ← preface_uuid bytes a b;
  ok_or (from_uuid u) KindMismatch.

Definition preface_source (bytes : list byte) : outcome WireError (option RelayId) :=
  tag ← index bytes 5;
  if u8 tag =? 1 then
    rest ← slice_from bytes 40;
    if bool_decide (rest = replicate 16 x00) then Ok None else Err KindMismatch
  else if u8 tag =? 2 then Some <$> preface_id bytes 40 56
  else Err KindMismatch.

Definition preface_decode (bytes : list byte) : outcome WireError RelayPreface :=
  if negb (lenN bytes =? RELAY_PREFACE_LEN) then Err InvalidLength else
  magic ← slice bytes 0 4;
  if negb (bool_decide (magic = MAGIC)) then Err UnsupportedMajor else
  version ← index bytes 4;
  if negb (u8 version =? 4) then Err UnsupportedMajor else
  reserved ← slice bytes 6 8;
  if negb (bool_decide (reserved = [x00; x00])) then Err Unsupported else
  mesh_id ← preface_id bytes 8 24;
  target ← preface_id bytes 24 40;
  source ← preface_source bytes;
  if bool_decide (source = Some target) then Err KindMismatch else
  Ok (mkRelayPreface mesh_id target source).

(** [b"/relay\0"] *)
Definition prologue (self : RelayPreface) : list byte :=
  NOISE_PROLOGUE ++ [x2f; x72; x65; x6c; x61; x79; x00] ++ preface_encode self.

Definition preface_handshake `{SnowLib} (self : RelayPreface) (initiator : bool)
    (local_private : list byte) (remote_public : option (list byte))
    : outcome WireError HandshakeState :=
  _ ← preface_decode (preface_encode self);
  let suite := match source self with Some _ => KK_SUITE | None => IK_SUITE end in
  build_handshake_with_prologue suite initiator local_private remote_public (prologue self).
End preface.

(** ** session.rs *)

Definition MAX_OPAQUE_FRAME_LEN : N := 65535.
Inductive OpaqueFrameKind := Session | Audit.
(** [TryFrom<i32>], derived from the discriminants; the wire field is an [i32]. *)
Definition opaque_frame_kind (kind : Z) : option OpaqueFrameKind :=
  if (kind =? 1)%Z then Some Session else if (kind =? 2)%Z then Some Audit else None.

Record RelayEnvelopeV2 := mkRelayEnvelopeV2 {
  major : N;
  env_mesh_id : list byte;
  destination_peer : list byte;
  source_peer : list byte;
  kind : Z;
  opaque : list byte;
}.
Definition validate_common (self : RelayEnvelopeV2) : outcome WireError unit :=
  if negb (major self =? PROTOCOL_MAJOR) then Err UnsupportedMajor else
  if negb (lenN (env_mesh_id self) =? 16) || negb (lenN (destination_peer self) =? 16)
  then Err KindMismatch else
  if match opaque_frame_kind (kind self) with Some _ => false | None => true end
     || (lenN (opaque self) =? 0) || (MAX_OPAQUE_FRAME_LEN <? lenN (opaque self))
  then Err InvalidLength else Ok tt.
Definition validate_from_peer (self : RelayEnvelopeV2) : outcome WireError unit :=
  if negb (lenN (source_peer self) =? 0) then Err KindMismatch else validate_common self.
Definition validate_for_relay (self : RelayEnvelopeV2) : outcome WireError unit :=
  if negb (lenN (source_peer self) =? 16) then Err KindMismatch else validate_common self.
Definition bind_authenticated_source (self : RelayEnvelopeV2) (source : list byte) : RelayEnvelopeV2 :=
  mkRelayEnvelopeV2 (major self) (env_mesh_id self) (destination_peer self) source (kind self)
    (opaque self).

(** ** records.rs *)

Section records.
Context `{SnowLib} `{ProstLib}.

Inductive WireRecord :=
| Control (envelope : ControlEnvelope)
| Ipv4 (packet : list byte)
| Ipv6 (packet : list byte).

Definition encode_plaintext (self : WireRecord) : outcome WireError (list byte) :=
  let body_len := match self with
                  | Control envelope => encoded_len envelope
                  | Ipv4 packet | Ipv6 packet => lenN packet
                  end in
  length ← ok_or (checked_add body_len 4) InvalidLength;
  if MAX_CIPHERTEXT_LEN - 16 <? length then Err InvalidLength else
  Ok match self with
     | Control envelope => to_be 2 1 ++ to_be 2 0 ++ encode_to_vec envelope
     | Ipv4 packet => to_be 2 2 ++ to_be 2 0 ++ packet
     | Ipv6 packet => to_be 2 3 ++ to_be 2 0 ++ packet
     end.

Definition has_version (payload : list byte) (version : N) : bool :=
  match payload with b :: _ => N.shiftr (u8 b) 4 =? version | [] => false end.

Definition decode_plaintext (plaintext : list byte) : outcome WireError WireRecord :=
  if lenN plaintext <? 4 then Err Truncated else
  kind ← be16_at plaintext 0;
  flags ← be16_at plaintext 2;
  if negb (flags =? 0) then Err Unsupported else
  payload ← slice_from plaintext 4;
  if kind =? 1 then
    envelope ← ok_or (envelope_decode payload) MalformedControl;
    if negb (message_is_some envelope) then Err KindMismatch else
    if negb (bool_decide (encode_to_vec envelope = payload)) then Err TrailingBytes else
    Ok (Control envelope)
  else if (kind =? 2) && has_version payload 4 then Ok (Ipv4 payload)
  else if (kind =? 3) && has_version payload 6 then Ok (Ipv6 payload)
  else if (kind =? 2) || (kind =? 3) then Err KindMismatch
  else Err Unsupported.

Record StreamTransport := mkStreamTransport {
  noise : TransportState;
  sent : N;
  received : N;
  epoch_started : N;
}.
Definition from_handshake (handshake : HandshakeState) (monotonic_seconds : N)
    : outcome WireError StreamTransport :=
  noise ← ok_or (into_transport_mode handshake) Noise;
  Ok (mkStreamTransport noise 0 0 monotonic_seconds).
Definition rekey_due (self : StreamTransport) (monotonic_seconds : N) : bool :=
  (REKEY_MESSAGES <=? N.max (sent self) (received self))
  || (REKEY_SECONDS <=? monotonic_seconds - epoch_started self).
Definition hard_expired (self : StreamTransport) (monotonic_seconds : N) : bool :=
  (REKEY_HARD_MESSAGES <=? N.max (sent self) (received self))
  || (REKEY_HARD_SECONDS <=? monotonic_seconds - epoch_started self).

Definition with_noise (n : TransportState) (self : StreamTransport) : StreamTransport :=
  mkStreamTransport n (sent self) (received self) (epoch_started self).

(** A fallible [&mut self] method: the state and the [Result]. *)
Definition stream_encode (self : StreamTransport) (record : WireRecord)
    : StreamTransport * outcome WireError (list byte) :=
  if REKEY_HARD_MESSAGES <=? sent self then (self, Err RekeyRequired) else
  match encode_plaintext record with
  | Panic => (self, Panic)
  | Err e => (self, Err e)
  | Ok plaintext =>
      let '(n, written) := write_message (noise self) plaintext (lenN plaintext + 16) in
      let self := with_noise n self in
      match written with
      | None => (self, Err Noise)
      | Some ciphertext =>
          if (lenN ciphertext =? 0) || (MAX_CIPHERTEXT_LEN <? lenN ciphertext)
          then (self, Err InvalidLength) else
          match checked_add (sent self) 1 with
          | None => (self, Err SequenceExhausted)
          | Some sent' =>
              let self := mkStreamTransport (noise self) sent' (received self) (epoch_started self) in
              if U32_MAX <? lenN ciphertext then (self, Err InvalidLength) else
              (self, Ok (to_be 4 (lenN ciphertext) ++ ciphertext))
          end
      end
  end.

(** The ciphertext of a frame. *)
Definition stream_frame (frame : list byte) : outcome WireError (list byte) :=
  if lenN frame <? 4 then Err Truncated else
  prefix ← slice frame 0 4;
  let length := from_be prefix in
  if (length =? 0) || (MAX_CIPHERTEXT_LEN <? length) then Err InvalidLength else
  expected ← ok_or (checked_add 4 length) InvalidLength;
  if lenN frame <? expected then Err Truncated else
  if expected <? lenN frame then Err TrailingBytes else
  slice_from frame 4.

Definition stream_decode (self : StreamTransport) (frame : list byte)
    : StreamTransport * outcome WireError WireRecord :=
  if REKEY_HARD_MESSAGES <=? received self then (self, Err RekeyRequired) else
  match stream_frame frame with
  | Panic => (self, Panic)
  | Err e => (self, Err e)
  | Ok ciphertext =>
      let '(n, read) := read_message (noise self) ciphertext (lenN ciphertext) in
      let self := with_noise n self in
      match read with
      | None => (self, Err Noise)
      | Some plaintext =>
          match checked_add (received self) 1 with
          | None => (self, Err SequenceExhausted)
          | Some received' =>
              (mkStreamTransport (noise self) (sent self) received' (epoch_started self),
               decode_plaintext plaintext)
          end
      end
  end.
End records.
Arguments WireRecord {_}.
Arguments StreamTransport {_}.

(** ** Carrier records (carrier records.rs) *)

(** [b"PWLC"] *)
Definition LOCAL_MAGIC : list byte := [x50; x57; x4c; x43].

Section carrier.
Context `{SnowLib} `{ProstLib}.

(** [frame[..frame_read]] is what was read of the current frame. *)
Record RecordTransport := mkRecordTransport {
  rt_noise : option StreamTransport;
  rt_sent : N;
  rt_received : N;
  epoch : N;
  frame : list byte;
  frame_read : N;
}.
Definition local (now : N) : RecordTransport :=
  mkRecordTransport None 0 0 now (replicate 4 x00) 0.
Definition from_stream (noise : StreamTransport) : RecordTransport :=
  mkRecordTransport (Some noise) 0 0 0 (replicate 4 x00) 0.
Definition into_noise (self : RecordTransport) : outcome WireError StreamTransport :=
  ok_or (rt_noise self) KindMismatch.
Definition rt_from_handshake (handshake : HandshakeState) (now : N)
    : outcome WireError RecordTransport :=
  from_stream <$> from_handshake handshake now.

Definition rt_rekey_due (self : RecordTransport) (now : N) : bool :=
  match rt_noise self with
  | None => (REKEY_MESSAGES <=? N.max (rt_sent self) (rt_received self))
            || (REKEY_SECONDS <=? now - epoch self)
  | Some noise => rekey_due noise now
  end.
Definition rt_hard_expired (self : RecordTransport) (now : N) : bool :=
  match rt_noise self with
  | None => (REKEY_HARD_MESSAGES <=? N.max (rt_sent self) (rt_received self))
            || (REKEY_HARD_SECONDS <=? now - epoch self)
  | Some noise => hard_expired noise now
  end.

Definition decode_local (frame : list byte) : outcome WireError WireRecord :=
  if (lenN frame <? 9) || (65539 <? lenN frame) then Err InvalidLength else
  prefix ← slice frame 0 4;
  if negb (from_be prefix + 4 =? lenN frame) then Err KindMismatch else
  magic ← slice frame 4 8;
  if negb (bool_decide (magic = LOCAL_MAGIC)) then Err KindMismatch else
  body ← slice_from frame 8;
  envelope ← ok_or (envelope_decode body) MalformedControl;
  if negb (message_is_some envelope) || negb (bool_decide (encode_to_vec envelope = body))
  then Err KindMismatch else Ok (Control envelope).

Definition encode_local (record : WireRecord) : outcome WireError (list byte) :=
  match record with
  | Control envelope =>
      let bytes := encode_to_vec envelope in
      let length := lenN bytes + 4 in
      if negb (message_is_some envelope) || (65535 <? length) then Err InvalidLength else
      if U32_MAX <? length then Err InvalidLength else
      Ok (to_be 4 length ++ LOCAL_MAGIC ++ bytes)
  | _ => Err KindMismatch
  end.

Definition with_stream (n : StreamTransport) (self : RecordTransport) : RecordTransport :=
  mkRecordTransport (Some n) (rt_sent self) (rt_received self) (epoch self) (frame self)
    (frame_read self).
(** [self.sent += 1]: overflow aborts. *)
Definition rt_encode (self : RecordTransport) (record : WireRecord)
    : RecordTransport * outcome WireError (list byte) :=
  match rt_noise self with
  | Some noise => let '(n, r) := stream_encode noise record in (with_stream n self, r)
  | None =>
      if REKEY_HARD_MESSAGES <=? rt_sent self then (self, Err RekeyRequired) else
      match encode_local record with
      | Ok f =>
          if U64_MAX <? rt_sent self + 1 then (self, Panic) else
          (mkRecordTransport None (rt_sent self + 1) (rt_received self) (epoch self) (frame self)
             (frame_read self), Ok f)
      | r => (self, r)
      end
  end.
Definition rt_decode (self : RecordTransport) (bytes : list byte)
    : RecordTransport * outcome WireError WireRecord :=
  match rt_noise self with
  | Some noise => let '(n, r) := stream_decode noise bytes in (with_stream n self, r)
  | None =>
      if REKEY_HARD_MESSAGES <=? rt_received self then (self, Err RekeyRequired) else
      match decode_local bytes with
      | Ok record =>
          if U64_MAX <? rt_received self + 1 then (self, Panic) else
          (mkRecordTransport None (rt_sent self) (rt_received self + 1) (epoch self) (frame self)
             (frame_read self), Ok record)
      | r => (self, r)
      end
  end.

(** The socket is what has arrived on it and was not read: the segments the
    peer's writes arrived in, an empty one standing for its end.  With nothing
    left, [read] stays pending, and the caller may drop the future. *)
Definition Socket : Type := list (list byte).
Definition socket_read (room : N) (socket : Socket) : option (list byte * Socket) :=
  match socket with
  | [] => None
  | seg :: rest =>
      if lenN seg <=? room then Some (seg, rest)
      else Some (take (N.to_nat room) seg, drop (N.to_nat room) seg :: rest)
  end.

Inductive Poll :=
| Pending
| Ready (frame : list byte)
| InvalidRecordLength
| UnexpectedEof
| OutOfFuel
| Aborted.

Definition with_frame (f : list byte) (read : N) (self : RecordTransport) : RecordTransport :=
  mkRecordTransport (rt_noise self) (rt_sent self) (rt_received self) (epoch self) f read.

(** The head of the loop: [inr] leaves it, [inl] goes on to read. *)
Definition frame_filled (self : RecordTransport) : RecordTransport + RecordTransport * Poll :=
  if frame_read self =? lenN (frame self) then
    if lenN (frame self) =? 4 then
      let length := from_be (take 4 (frame self)) in
      if (length =? 0) || (65535 <? length) then inr (self, InvalidRecordLength)
      else inl (with_frame (frame self ++ replicate (N.to_nat length) x00) (frame_read self) self)
    else inr (with_frame (replicate 4 x00) 0 self, Ready (frame self))
  else inl self.

Fixpoint read_loop (fuel : nat) (self : RecordTransport) (socket : Socket)
    : RecordTransport * Socket * Poll :=
  match fuel with
  | O => (self, socket, OutOfFuel)
  | S fuel' =>
      match frame_filled self with
      | inr (self, p) => (self, socket, p)
      | inl self =>
          match socket_read (lenN (frame self) - frame_read self) socket with
          | None => (self, socket, Pending)
          | Some (got, socket) =>
              match copy_at (E:=WireError) (frame self) (frame_read self) got with
              | Ok f =>
                  if lenN got =? 0 then (self, socket, UnexpectedEof)
                  else read_loop fuel' (with_frame f (frame_read self + lenN got) self) socket
              | _ => (self, socket, Aborted)
              end
          end
      end
  end.
(** Each turn of the loop that does not leave it reads a byte at least. *)
Definition read_frame (self : RecordTransport) (socket : Socket) : RecordTransport * Socket * Poll :=
  read_loop (S (length (concat socket))) self socket.
End carrier.
Arguments RecordTransport {_}.

(** ** The preface is canonical *)

Section preface_proofs.
Context `{UuidLib}.

Record preface_wf (p : RelayPreface) : Prop := {
  pw_mesh : id_wf (mesh_id p);
  pw_target : id_wf (target p);
  pw_source : forall s, source p = Some s -> id_wf s /\ s <> target p;
}.

Lemma preface_id_at x i z a b :
  id_wf i -> a = lenN x -> b = a + 16 -> preface_id (x ++ id_bytes i ++ z) a b = Ok i.
Proof.
  intros Hi -> ->. unfold preface_id, preface_uuid.
  assert (Hl : lenN (id_bytes i) = 16) by (unfold id_bytes; by rewrite lenN_to_be).
  rewrite (slice_app x (id_bytes i) z) by (done || lia). cbn [mbind outcome_bind]. rewrite Hl.
  cbn [N.eqb Pos.eqb]. rewrite (from_be_id_bytes i Hi). destruct Hi as [_ Hu]. cbn. by rewrite Hu.
Qed.
Lemma preface_id_Ok bytes a b i :
  preface_id bytes a b = Ok i ->
  id_wf i /\ slice (E:=WireError) bytes a b = Ok (id_bytes i).
Proof.
  unfold preface_id, preface_uuid. intros (u & (sl & Hs & Hu)%bind_Ok & Hi)%bind_Ok.
  destruct (N.eqb_spec (lenN sl) 16) as [Hl|]; [|done]. injection Hu as <-.
  destruct (from_uuid (from_be sl)) as [i'|] eqn:Hf; [|done]. injection Hi as ->.
  pose proof (from_uuid_Some _ _ Hf) as Hid. split.
  - split; [|by rewrite Hid]. rewrite Hid. pose proof (from_be_lt sl) as Hlt. by rewrite Hl in Hlt.
  - rewrite Hs. unfold id_bytes. rewrite Hid. f_equal. symmetry. apply to_be_from_be'.
    unfold lenN in Hl. lia.
Qed.

Lemma preface_encode_len p : lenN (preface_encode p) = RELAY_PREFACE_LEN.
Proof.
  unfold preface_encode, id_bytes. rewrite !lenN_app, !lenN_to_be.
  destruct (source p); [by rewrite lenN_to_be|done].
Qed.

(** What the identifier types guarantee. *)
Definition ids_wf (p : RelayPreface) : Prop :=
  id_wf (mesh_id p) /\ id_wf (target p) /\ forall s, source p = Some s -> id_wf s.
Lemma preface_decode_ids p :
  ids_wf p -> preface_decode (preface_encode p) =
    if bool_decide (source p = Some (target p)) then Err KindMismatch else Ok p.
Proof.
  intros (Hm & Ht & Hs). unfold preface_decode. rewrite preface_encode_len. cbn [negb N.eqb Pos.eqb RELAY_PREFACE_LEN].
  set (rest := match source p with Some s => id_bytes s | None => replicate 16 x00 end).
  set (tag := match source p with Some _ => x02 | None => x01 end).
  assert (He : preface_encode p = (MAGIC ++ [x04; tag; x00; x00]) ++ id_bytes (mesh_id p) ++ (id_bytes (target p) ++ rest))
    by (unfold preface_encode; fold tag rest; by rewrite <- !app_assoc).
  assert (He2 : preface_encode p = (MAGIC ++ [x04; tag; x00; x00] ++ id_bytes (mesh_id p)) ++ id_bytes (target p) ++ rest)
    by (rewrite He; by rewrite <- !app_assoc).
  assert (Hl1 : lenN (id_bytes (mesh_id p)) = 16) by (unfold id_bytes; by rewrite lenN_to_be).
  assert (Hl2 : lenN (id_bytes (target p)) = 16) by (unfold id_bytes; by rewrite lenN_to_be).
  assert (Hl3 : lenN rest = 16) by (unfold rest; destruct (source p); [unfold id_bytes; by rewrite lenN_to_be|done]).
  assert (Hmagic : slice (E:=WireError) (preface_encode p) 0 4 = Ok MAGIC)
    by (apply (slice_app [] MAGIC); done).
  rewrite Hmagic. cbn [mbind outcome_bind]. rewrite bool_decide_eq_true_2 by done. cbn [negb].
  change (index (preface_encode p) 4) with (@Ok WireError _ x04). cbn [mbind outcome_bind].
  change (negb (u8 x04 =? 4)) with false. cbn iota.
  assert (Hres : slice (E:=WireError) (preface_encode p) 6 8 = Ok [x00; x00]).
  { apply (slice_app (MAGIC ++ [x04; tag]) [x00; x00]); done. }
  rewrite Hres. cbn [mbind outcome_bind]. rewrite bool_decide_eq_true_2 by done. cbn [negb].
  rewrite He at 1. rewrite preface_id_at by (done || (rewrite lenN_app; done)). cbn [mbind outcome_bind].
  rewrite He2 at 1. rewrite preface_id_at by (done || (rewrite !lenN_app, Hl1; done)).
  cbn [mbind outcome_bind].
  assert (Hsrc : preface_source (preface_encode p) = Ok (source p)).
  { unfold preface_source. change (index (preface_encode p) 5) with (@Ok WireError _ tag).
    cbn [mbind outcome_bind].
    assert (He3 : preface_encode p = (MAGIC ++ [x04; tag; x00; x00] ++ id_bytes (mesh_id p) ++ id_bytes (target p)) ++ rest ++ [])
      by (rewrite He, app_nil_r; by rewrite <- !app_assoc).
    assert (Hl4 : lenN (MAGIC ++ [x04; tag; x00; x00] ++ id_bytes (mesh_id p) ++ id_bytes (target p)) = 40)
      by (rewrite !lenN_app, Hl1, Hl2; done).
    unfold tag, rest in *. destruct (source p) as [s0|] eqn:Hsp; cbn [u8 Byte.to_N N.eqb Pos.eqb].
    - rewrite He3, preface_id_at by (done || by apply Hs). done.
    - unfold slice_from. rewrite preface_encode_len. unfold RELAY_PREFACE_LEN.
      rewrite He3, slice_app by (rewrite ?Hl4; done). cbn [mbind outcome_bind].
      by rewrite bool_decide_eq_true_2. }
  rewrite Hsrc. cbn [mbind outcome_bind]. by destruct p.
Qed.
Lemma preface_decode_encode p : preface_wf p -> preface_decode (preface_encode p) = Ok p.
Proof.
  intros [Hm Ht Hs]. rewrite preface_decode_ids.
  - rewrite bool_decide_eq_false_2; [done|]. intros Heq. by destruct (Hs _ Heq).
  - split_and!; [done|done|]. intros s Hx. by apply Hs.
Qed.

Lemma preface_decode_Ok bytes p :
  preface_decode bytes = Ok p -> preface_wf p /\ preface_encode p = bytes.
Proof.
  unfold preface_decode. destruct (N.eqb_spec (lenN bytes) RELAY_PREFACE_LEN) as [Hl|]; [|done].
  cbn [negb]. intros (magic & Hmg & Hd)%bind_Ok. case_bool_decide as Hm; [|done]. subst magic.
  cbn [negb] in Hd. apply bind_Ok in Hd as (ver & Hv & Hd).
  destruct (N.eqb_spec (u8 ver) 4) as [Hv4|]; [|done]. cbn [negb] in Hd.
  apply bind_Ok in Hd as (res & Hr & Hd). case_bool_decide as Hrz; [|done]. subst res. cbn [negb] in Hd.
  apply bind_Ok in Hd as (mesh & Hmesh & Hd). apply bind_Ok in Hd as (tgt & Htgt & Hd).
  apply bind_Ok in Hd as (src & Hsrc & Hd). case_bool_decide as Hne; [done|]. injection Hd as <-.
  apply preface_id_Ok in Hmesh as [Hmw Hms]. apply preface_id_Ok in Htgt as [Htw Hts].
  apply slice_Ok in Hmg as (_ & _ & Hmg). apply slice_Ok in Hr as (_ & _ & Hr).
  apply slice_Ok in Hms as (_ & _ & Hms). apply slice_Ok in Hts as (_ & _ & Hts).
  apply index_Ok in Hv. apply (u8_inj ver x04) in Hv4. subst ver.
  unfold RELAY_PREFACE_LEN, lenN in Hl.
  assert (Hsplit : forall a n : nat, drop a bytes = take n (drop a bytes) ++ drop (a + n) bytes).
  { intros a n. by rewrite <- drop_drop, take_drop. }
  unfold preface_source in Hsrc. apply bind_Ok in Hsrc as (tag & Htag & Hsrc). apply index_Ok in Htag.
  assert (Hbytes : bytes = MAGIC ++ [x04; tag; x00; x00] ++ id_bytes mesh ++ id_bytes tgt ++ drop 40 bytes).
  { transitivity (drop 0 bytes); [by rewrite drop_0|]. rewrite (Hsplit 0%nat 4%nat).
    f_equal; [symmetry; exact Hmg|]. cbn [Nat.add].
    rewrite (drop_S _ x04 4 Hv), (drop_S _ tag 5 Htag). rewrite (Hsplit 6%nat 2%nat).
    change ([x04; tag; x00; x00] ++ ?l) with (x04 :: tag :: ([x00; x00] ++ l)). do 2 f_equal.
    f_equal; [symmetry; exact Hr|]. cbn [Nat.add]. rewrite (Hsplit 8%nat 16%nat).
    f_equal; [symmetry; exact Hms|]. cbn [Nat.add]. rewrite (Hsplit 24%nat 16%nat).
    f_equal. symmetry; exact Hts. }
  assert (Hfin : source (mkRelayPreface mesh tgt src) = src) by done.
  destruct (N.eqb_spec (u8 tag) 1) as [Ht1|Ht1].
  - apply (u8_inj tag x01) in Ht1. subst tag. apply bind_Ok in Hsrc as (rest & Hrest & Hsrc).
    apply slice_from_Ok in Hrest as [_ Hrest]. case_bool_decide as Hz; [|done]. injection Hsrc as <-.
    split; [split; cbn; [done|done|done]|]. unfold preface_encode. cbn [mesh_id target source].
    rewrite Hbytes. change (N.to_nat 40) with 40%nat in Hrest. by rewrite <- Hz, Hrest.
  - destruct (N.eqb_spec (u8 tag) 2) as [Ht2|]; [|done]. apply (u8_inj tag x02) in Ht2. subst tag.
    apply fmap_Ok in Hsrc as (s0 & Hs0 & <-). apply preface_id_Ok in Hs0 as [Hsw Hss].
    split.
    + split; cbn; [done|done|]. intros s1 [= <-]. split; [done|]. intros ->. by apply Hne.
    + unfold preface_encode. cbn [mesh_id target source]. rewrite Hbytes.
      do 4 f_equal. apply slice_Ok in Hss as (_ & _ & ->). apply take_ge.
      rewrite length_drop. change (N.to_nat (56 - 40)) with 16%nat. change (N.to_nat 40) with 40%nat. lia.
Qed.
End preface_proofs.

(** ** What the round trips ask of the libraries *)

Class ProstLaws `{ProstLib} : Prop := {
  decode_encode e : envelope_decode (encode_to_vec e) = Some e;
  encoded_len_exact e : encoded_len e = lenN (encode_to_vec e);
  (** A [oneof] that is set is always written, with its key. *)
  encode_nonempty e : message_is_some e = true -> encode_to_vec e <> [];
}.
(** [paired k w r]: [w] and [r] are the two ends of one direction of a completed
    handshake, [k] messages after it.  Until the 64-bit nonce is exhausted, a
    message of at most 65519 bytes is sealed with a 16-byte tag and opens on the
    other side. *)
Class SnowLaws `{SnowLib} := {
  paired : N -> TransportState -> TransportState -> Prop;
  seal_open k w r m room :
    paired k w r -> k < U64_MAX -> lenN m + 16 <= room -> lenN m + 16 <= 65535 ->
    exists w' c, write_message w m room = (w', Some c) /\ lenN c = lenN m + 16 /\
      forall room', lenN m <= room' ->
        exists r', read_message r c room' = (r', Some m) /\ paired (k + 1) w' r';
}.

Section stream_proofs.
Context `{SnowLib} `{ProstLib}.

Lemma has_version_nonempty p v : has_version p v = true -> 0 < lenN p.
Proof. destruct p; [done|]. intros _. rewrite lenN_cons. lia. Qed.

(** A record a receiver accepts: [encode] does not check the packet version. *)
Definition record_ok (r : WireRecord) : Prop :=
  match r with
  | Control e => message_is_some e = true /\ lenN (encode_to_vec e) + 20 <= MAX_CIPHERTEXT_LEN
  | Ipv4 p => has_version p 4 = true /\ lenN p + 20 <= MAX_CIPHERTEXT_LEN
  | Ipv6 p => has_version p 6 = true /\ lenN p + 20 <= MAX_CIPHERTEXT_LEN
  end.

Lemma decode_plaintext_tagged tag body :
  tag < 0x1_0000 ->
  decode_plaintext (to_be 2 tag ++ to_be 2 0 ++ body) =
  (if tag =? 1 then
    envelope ← ok_or (envelope_decode body) MalformedControl;
    if negb (message_is_some envelope) then Err KindMismatch else
    if negb (bool_decide (encode_to_vec envelope = body)) then Err TrailingBytes else
    Ok (Control envelope)
  else if (tag =? 2) && has_version body 4 then Ok (Ipv4 body)
  else if (tag =? 3) && has_version body 6 then Ok (Ipv6 body)
  else if (tag =? 2) || (tag =? 3) then Err KindMismatch
  else Err Unsupported).
Proof.
  intros Ht. unfold decode_plaintext. rewrite !lenN_app, !lenN_to_be.
  destruct (N.ltb_spec (N.of_nat 2 + (N.of_nat 2 + lenN body)) 4); [lia|].
  pose proof (be16_at_app (E:=WireError) [] (to_be 2 0 ++ body) tag 0 Ht eq_refl) as Hk.
  rewrite app_nil_l in Hk. rewrite Hk. cbn [mbind outcome_bind].
  rewrite (be16_at_app (to_be 2 tag) body 0 2) by done. cbn [mbind outcome_bind].
  cbn [N.eqb negb]. assert (Hs : slice_from (E:=WireError) (to_be 2 tag ++ to_be 2 0 ++ body) 4 = Ok body).
  { apply slice_from_Ok. rewrite !lenN_app, !lenN_to_be. split; [lia|].
    rewrite app_assoc. rewrite skipn_app, skipn_all2; [done|]. by rewrite length_app, !length_to_be. }
  rewrite Hs. done.
Qed.

Lemma plaintext_roundtrip `{!ProstLaws} r :
  record_ok r -> exists p, encode_plaintext r = Ok p /\ decode_plaintext p = Ok r /\
    0 < lenN p /\ lenN p + 16 <= MAX_CIPHERTEXT_LEN.
Proof.
  intros Hr. unfold encode_plaintext.
  assert (Hlen : forall n, n + 20 <= MAX_CIPHERTEXT_LEN ->
    ok_or (checked_add n 4) InvalidLength = Ok (n + 4) /\ (MAX_CIPHERTEXT_LEN - 16 <? n + 4) = false).
  { intros n. unfold MAX_CIPHERTEXT_LEN, checked_add, U64_MAX. intros Hn.
    destruct (N.leb_spec (n + 4) 0xffff_ffff_ffff_ffff); [|lia]. split; [done|].
    apply N.ltb_ge. lia. }
  unfold MAX_CIPHERTEXT_LEN in *.
  destruct r as [e|p|p]; cbn [record_ok] in Hr; destruct Hr as [Hv Hn];
    rewrite ?encoded_len_exact; destruct (Hlen _ Hn) as [-> Hlt]; cbn [mbind outcome_bind]; rewrite Hlt;
    (eexists; split; [done|]); rewrite decode_plaintext_tagged by done; rewrite !lenN_app, !lenN_to_be;
    cbn [N.eqb Pos.eqb andb]; (split; [|unfold MAX_CIPHERTEXT_LEN in *; split; lia]).
  - rewrite decode_encode. cbn [ok_or mbind outcome_bind]. rewrite Hv. cbn [negb].
    by rewrite bool_decide_eq_true_2.
  - by rewrite Hv.
  - by rewrite Hv.
Qed.


Lemma stream_frame_app c :
  0 < lenN c <= MAX_CIPHERTEXT_LEN -> stream_frame (to_be 4 (lenN c) ++ c) = Ok c.
Proof.
  unfold MAX_CIPHERTEXT_LEN. intros Hc. unfold stream_frame. rewrite lenN_app, lenN_to_be.
  destruct (N.ltb_spec (N.of_nat 4 + lenN c) 4); [lia|].
  rewrite (slice_app [] (to_be 4 (lenN c)) c) by (rewrite ?lenN_to_be; done). cbn [mbind outcome_bind].
  rewrite from_be_to_be by (cbn; lia). unfold MAX_CIPHERTEXT_LEN.
  destruct (N.eqb_spec (lenN c) 0); [lia|]. destruct (N.ltb_spec 65535 (lenN c)); [lia|]. cbn [orb].
  unfold checked_add, U64_MAX. destruct (N.leb_spec (4 + lenN c) 0xffff_ffff_ffff_ffff); [|lia].
  cbn [ok_or mbind outcome_bind]. destruct (N.ltb_spec (N.of_nat 4 + lenN c) (4 + lenN c)); [lia|].
  destruct (N.ltb_spec (4 + lenN c) (N.of_nat 4 + lenN c)); [lia|].
  apply slice_from_Ok. rewrite lenN_app, lenN_to_be. split; [lia|].
  rewrite skipn_app, skipn_all2; [done|]. by rewrite length_to_be.
Qed.

(** The two ends of one direction of a link. *)
Definition linked `{!SnowLaws} (s r : StreamTransport) : Prop :=
  paired (sent s) (noise s) (noise r) /\ received r = sent s.

Lemma stream_record `{!ProstLaws, !SnowLaws} s r rec :
  linked s r -> record_ok rec -> sent s < REKEY_HARD_MESSAGES ->
  exists s' f r', stream_encode s rec = (s', Ok f) /\ stream_decode r f = (r', Ok rec) /\
    linked s' r' /\ sent s' = sent s + 1.
Proof.
  intros [Hp Hrs] Hok Hsent. destruct (plaintext_roundtrip rec Hok) as (p & He & Hd & Hp0 & Hplen).
  unfold MAX_CIPHERTEXT_LEN in Hplen. change REKEY_HARD_MESSAGES with 1048576 in *.
  destruct (seal_open (sent s) (noise s) (noise r) p (lenN p + 16) Hp) as (w' & c & Hw & Hlen & Hopen);
    [unfold U64_MAX; lia|lia|lia|].
  destruct (Hopen (lenN c)) as (r' & Hr & Hp'); [lia|].
  unfold stream_encode. change REKEY_HARD_MESSAGES with 1048576.
  destruct (N.leb_spec 1048576 (sent s)); [lia|]. rewrite He, Hw.
  unfold MAX_CIPHERTEXT_LEN.
  destruct (N.eqb_spec (lenN c) 0); [lia|]. destruct (N.ltb_spec 65535 (lenN c)); [lia|]. cbn [orb].
  unfold checked_add. cbn [with_noise sent noise received epoch_started].
  destruct (N.leb_spec (sent s + 1) U64_MAX); [|unfold U64_MAX in *; lia].
  destruct (N.ltb_spec U32_MAX (lenN c)); [unfold U32_MAX in *; lia|].
  eexists _, _, _. split; [done|]. unfold stream_decode. change REKEY_HARD_MESSAGES with 1048576.
  rewrite Hrs. destruct (N.leb_spec 1048576 (sent s)); [lia|].
  rewrite stream_frame_app by (unfold MAX_CIPHERTEXT_LEN; lia). rewrite Hr.
  unfold checked_add. cbn [with_noise sent noise received epoch_started]. rewrite Hrs.
  destruct (N.leb_spec (sent s + 1) U64_MAX); [|unfold U64_MAX in *; lia].
  rewrite Hd. split; [done|]. split; [split; done|done].
Qed.

Fixpoint encode_all (s : StreamTransport) (rs : list WireRecord)
    : outcome WireError (StreamTransport * list (list byte)) :=
  match rs with
  | [] => Ok (s, [])
  | r :: rs' => let '(s, f) := stream_encode s r in
      f ← f; '(s, fs) ← encode_all s rs'; Ok (s, f :: fs)
  end.
Fixpoint decode_all (s : StreamTransport) (fs : list (list byte))
    : outcome WireError (StreamTransport * list WireRecord) :=
  match fs with
  | [] => Ok (s, [])
  | f :: fs' => let '(s, r) := stream_decode s f in
      r ← r; '(s, rs) ← decode_all s fs'; Ok (s, r :: rs)
  end.




End stream_proofs.

(** ** The frame reader: a refinement of splitting the byte stream *)

(** The specification: what the first bytes of a stream are. *)
Inductive Next := Wait | NextFrame (frame rest : list byte) | Bad.
Definition next_frame (bytes : list byte) : Next :=
  if lenN bytes <? 4 then Wait else
  let n := from_be (take 4 bytes) in
  if (n =? 0) || (65535 <? n) then Bad else
  if lenN bytes <? 4 + n then Wait
  else NextFrame (take (N.to_nat (4 + n)) bytes) (drop (N.to_nat (4 + n)) bytes).

(** [parses bytes fs rest]: the stream is the frames [fs], then [Some rest] that
    is no complete frame yet, or ([None]) a frame of invalid length. *)
Inductive parses : list byte -> list (list byte) -> option (list byte) -> Prop :=
| parses_wait b : next_frame b = Wait -> parses b [] (Some b)
| parses_bad b : next_frame b = Bad -> parses b [] None
| parses_frame b f r fs o : next_frame b = NextFrame f r -> parses r fs o -> parses b (f :: fs) o.

Lemma next_frame_frame b f r :
  next_frame b = NextFrame f r -> b = f ++ r /\ (length r < length b)%nat /\ f <> [] /\ 4 < lenN f.
Proof.
  unfold next_frame. destruct (N.ltb_spec (lenN b) 4) as [|H4]; [done|].
  destruct (N.eqb_spec (from_be (take 4 b)) 0); [done|]. cbn [orb].
  destruct (_ <? from_be _); [done|].
  destruct (N.ltb_spec (lenN b) (4 + from_be (take 4 b))) as [|Hl]; [done|]. intros [= <- <-].
  rewrite take_drop, length_drop, lenN_take. unfold lenN in *. split_and!; [done|lia| |lia].
  destruct b; [cbn in *; lia|]. by destruct (N.to_nat (4 + _)) eqn:He; [lia|].
Qed.

Lemma parses_total b : exists fs o, parses b fs o.
Proof.
  induction b as [b IH] using (induction_ltof1 _ (@length byte)). unfold ltof in IH.
  destruct (next_frame b) as [|f r|] eqn:Hn.
  - eexists _, _. by apply parses_wait.
  - destruct (next_frame_frame _ _ _ Hn) as (_ & Hlt & _). destruct (IH r Hlt) as (fs & o & Hp).
    eexists _, _. by eapply parses_frame.
  - eexists _, _. by apply parses_bad.
Qed.

Lemma parses_det b fs o fs' o' : parses b fs o -> parses b fs' o' -> fs = fs' /\ o = o'.
Proof.
  intros Hp. revert fs' o'. induction Hp as [b H|b H|b f r fs o H _ IH]; intros fs' o' Hp';
    destruct Hp' as [b' H'|b' H'|b' f' r' fs' o' H' Hp'']; try congruence; try done.
  rewrite H in H'. injection H' as <- <-. by destruct (IH _ _ Hp'') as [-> ->].
Qed.

Lemma next_frame_app b c :
  match next_frame b with
  | Wait => True
  | NextFrame f r => next_frame (b ++ c) = NextFrame f (r ++ c)
  | Bad => next_frame (b ++ c) = Bad
  end.
Proof.
  unfold next_frame. rewrite lenN_app. destruct (N.ltb_spec (lenN b) 4) as [|H4]; [done|].
  destruct (N.ltb_spec (lenN b + lenN c) 4); [lia|].
  rewrite take_app_le by (unfold lenN in *; lia).
  destruct (_ || _); [done|]. set (n := from_be (take 4 b)).
  destruct (N.ltb_spec (lenN b) (4 + n)) as [|Hl]; [done|].
  destruct (N.ltb_spec (lenN b + lenN c) (4 + n)); [lia|].
  rewrite take_app_le, drop_app_le by (unfold lenN in *; lia). done.
Qed.

Lemma parses_app b c fs r fs' o :
  parses b fs (Some r) -> parses (r ++ c) fs' o -> parses (b ++ c) (fs ++ fs') o.
Proof.
  remember (Some r) as x eqn:Hx. induction 1 as [b H|b H|b f r' fs o' H _ IH]; intros Hc; [|done|].
  - by injection Hx as ->.
  - pose proof (next_frame_app b c) as Hn. rewrite H in Hn. cbn [app].
    eapply parses_frame; [exact Hn|]. by apply IH.
Qed.
Lemma parses_app_bad b c fs : parses b fs None -> parses (b ++ c) fs None.
Proof.
  remember None as x eqn:Hx. induction 1 as [b H|b H|b f r' fs o' H _ IH]; [done|..];
    pose proof (next_frame_app b c) as Hn; rewrite H in Hn.
  - by apply parses_bad.
  - eapply parses_frame; [exact Hn|]. by apply IH.
Qed.

Section reader_proofs.
Context `{SnowLib} `{ProstLib}.

Record reader_wf (t : RecordTransport) : Prop := {
  rw_read : frame_read t <= lenN (frame t);
  rw_frame : lenN (frame t) = 4 \/
    4 <= frame_read t /\ lenN (frame t) = 4 + from_be (take 4 (frame t)) /\
    0 < from_be (take 4 (frame t)) <= 65535;
}.
(** The bytes of the current frame that were read. *)
Definition partial (t : RecordTransport) : list byte := take (N.to_nat (frame_read t)) (frame t).
Definition unread (t : RecordTransport) : Prop := frame t = replicate 4 x00 /\ frame_read t = 0.

Lemma partial_len t : reader_wf t -> lenN (partial t) = frame_read t.
Proof. intros [Hr _]. unfold partial. rewrite lenN_take. lia. Qed.
Lemma unread_wf t : unread t -> reader_wf t /\ partial t = [].
Proof. intros [Hf Hr]. unfold partial. rewrite Hf, Hr. split; [|done]. split; rewrite ?Hf, ?Hr; [|left]; done. Qed.

Lemma frame_filled_spec t :
  reader_wf t ->
  match frame_filled t with
  | inl t' => reader_wf t' /\ partial t' = partial t /\ frame_read t' < lenN (frame t')
  | inr (t', InvalidRecordLength) => t' = t /\ forall c, next_frame (partial t ++ c) = Bad
  | inr (t', p) => exists f, p = Ready f /\ unread t' /\ forall c, next_frame (partial t ++ c) = NextFrame f c
  end.
Proof.
  intros [Hr Hf]. unfold frame_filled. destruct (N.eqb_spec (frame_read t) (lenN (frame t))) as [He|Hne].
  2:{ split_and!; [done|done|lia]. }
  assert (Hp : partial t = frame t) by (unfold partial; rewrite He; apply take_ge; unfold lenN; lia).
  destruct (N.eqb_spec (lenN (frame t)) 4) as [H4|H4].
  - assert (Ht4 : take 4 (frame t) = frame t) by (apply take_ge; unfold lenN in *; lia).
    assert (Hn : forall c, take 4 (frame t ++ c) = frame t)
      by (intros c; rewrite take_app_le by (unfold lenN in *; lia); done).
    rewrite Ht4. destruct ((from_be (frame t) =? 0) || (65535 <? from_be (frame t))) eqn:Hbad.
    + split; [done|]. intros c. rewrite Hp. unfold next_frame. rewrite lenN_app, Hn, Hbad.
      destruct (N.ltb_spec (lenN (frame t) + lenN c) 4); [lia|done].
    + breflect. assert (Hl : lenN (frame t ++ replicate (N.to_nat (from_be (frame t))) x00) = 4 + from_be (frame t)).
      { rewrite lenN_app, H4. unfold lenN. rewrite length_replicate. lia. }
      split; [split; cbn [with_frame frame frame_read]|split].
      * lia.
      * right. rewrite Hn. lia.
      * unfold partial. cbn [with_frame frame frame_read]. by rewrite take_app_le by (unfold lenN in *; lia).
      * cbn [with_frame frame frame_read]. lia.
  - destruct Hf as [|(Hr4 & Hl & Hn)]; [done|]. exists (frame t). split_and!; [done|done|].
    intros c. rewrite Hp. unfold next_frame. rewrite lenN_app.
    destruct (N.ltb_spec (lenN (frame t) + lenN c) 4); [lia|].
    rewrite take_app_le by (unfold lenN in *; lia).
    destruct (N.eqb_spec (from_be (take 4 (frame t))) 0); [lia|].
    destruct (N.ltb_spec 65535 (from_be (take 4 (frame t)))); [lia|]. cbn [orb].
    destruct (N.ltb_spec (lenN (frame t) + lenN c) (4 + from_be (take 4 (frame t)))); [lia|].
    rewrite <- Hl. unfold lenN. rewrite Nat2N.id, take_app_length, drop_app_length. done.
Qed.

Lemma socket_read_spec room s got s' :
  0 < room -> Forall (fun seg => seg <> []) s -> socket_read room s = Some (got, s') ->
  got <> [] /\ lenN got <= room /\ got ++ concat s' = concat s /\ Forall (fun seg => seg <> []) s'.
Proof.
  intros Hroom Hs. unfold socket_read. destruct s as [|seg s]; [done|].
  apply Forall_cons in Hs as [Hseg Hs]. destruct (N.leb_spec (lenN seg) room) as [Hle|Hgt].
  - by intros [= <- <-].
  - intros [= <- <-]. split_and!.
    + destruct seg; [done|]. by destruct (N.to_nat room) eqn:He; [lia|].
    + rewrite lenN_take. lia.
    + cbn [concat]. by rewrite app_assoc, take_drop.
    + apply Forall_cons. split; [|done]. intros He. apply (f_equal length) in He.
      rewrite length_drop in He. unfold lenN in Hgt. cbn in He. lia.
Qed.

Lemma reader_more t got f :
  reader_wf t -> lenN got <= lenN (frame t) - frame_read t ->
  copy_at (E:=WireError) (frame t) (frame_read t) got = Ok f ->
  reader_wf (with_frame f (frame_read t + lenN got) t) /\
  partial (with_frame f (frame_read t + lenN got) t) = partial t ++ got.
Proof.
  intros [Hr Hf] Hg Hcp. pose proof (copy_at_len _ _ _ _ Hcp) as Hl.
  unfold copy_at in Hcp. destruct (N.leb_spec (frame_read t + lenN got) (lenN (frame t))); [|done].
  injection Hcp as Heq. split; [split; cbn [with_frame frame frame_read]|].
  - lia.
  - rewrite Hl. destruct Hf as [|(H4 & Hf & Hn)]; [by left|]. right.
    assert (Ht : take 4 f = take 4 (frame t)).
    { rewrite <- Heq, take_app_le by (rewrite length_take; unfold lenN in *; lia).
      rewrite take_take. f_equal. lia. }
    rewrite Ht. split; [lia|done].
  - unfold partial. cbn [with_frame frame frame_read]. rewrite <- Heq, app_assoc.
    rewrite take_app_length'; [done|]. rewrite length_app, length_take. unfold lenN in *. lia.
Qed.

Lemma read_loop_spec fuel t s :
  reader_wf t -> Forall (fun seg => seg <> []) s -> (length (concat s) < fuel)%nat ->
  exists t' s' p, read_loop fuel t s = (t', s', p) /\
  match next_frame (partial t ++ concat s) with
  | Wait => p = Pending /\ s' = [] /\ reader_wf t' /\ partial t' = partial t ++ concat s
  | NextFrame f rest => p = Ready f /\ unread t' /\ concat s' = rest /\ Forall (fun seg => seg <> []) s'
  | Bad => p = InvalidRecordLength
  end.
Proof.
  revert t s. induction fuel as [|fuel IH]; intros t s Hw Hs Hfuel; [lia|]. cbn [read_loop].
  pose proof (frame_filled_spec t Hw) as Hff. destruct (frame_filled t) as [t1|[t1 p]].
  2:{ eexists _, _, _. split; [done|]. destruct p as [|f| | | |].
      3:{ destruct Hff as [_ Hn]. by rewrite Hn. }
      all: destruct Hff as (f' & Hp & Hu & Hn); try done.
      injection Hp as ->. by rewrite Hn. }
  destruct Hff as (Hw1 & Hp1 & Hlt). rewrite <- Hp1.
  destruct (socket_read (lenN (frame t1) - frame_read t1) s) as [[got s1]|] eqn:Hrd.
  - assert (Hroom : 0 < lenN (frame t1) - frame_read t1) by lia.
    destruct (socket_read_spec _ _ _ _ Hroom Hs Hrd) as (Hne & Hle & Hcat & Hs1).
    assert (Hg0 : 0 < lenN got) by (destruct got; [done|rewrite lenN_cons; lia]).
    destruct (copy_at (E:=WireError) (frame t1) (frame_read t1) got) as [f|e|] eqn:Hcp.
    2-3: exfalso; unfold copy_at in Hcp;
      destruct (N.leb_spec (frame_read t1 + lenN got) (lenN (frame t1))); [done|lia].
    destruct (N.eqb_spec (lenN got) 0); [lia|].
    destruct (reader_more _ _ _ Hw1 Hle Hcp) as [Hw2 Hp2].
    assert (Hlen : (length (concat s) = length got + length (concat s1))%nat)
      by (rewrite <- Hcat, length_app; lia).
    destruct (IH _ s1 Hw2 Hs1) as (t' & s' & p & Hrun & Hres); [unfold lenN in Hg0; lia|].
    exists t', s', p. split; [done|]. by rewrite Hp2, <- app_assoc, Hcat in Hres.
  - destruct s as [|seg s]; [|cbn in Hrd; by destruct (_ <=? _)].
    eexists _, _, _. split; [done|]. cbn [concat]. rewrite app_nil_r.
    assert (next_frame (partial t1) = Wait) as ->; [|done].
    unfold next_frame. rewrite (partial_len t1 Hw1). destruct Hw1 as [Hr [H4|(H4 & Hl & Hn)]].
    + destruct (N.ltb_spec (frame_read t1) 4); [done|lia].
    + destruct (N.ltb_spec (frame_read t1) 4); [done|].
      assert (Ht : take 4 (partial t1) = take 4 (frame t1))
        by (unfold partial; rewrite take_take; f_equal; lia).
      rewrite Ht. destruct (N.eqb_spec (from_be (take 4 (frame t1))) 0); [lia|].
      destruct (N.ltb_spec 65535 (from_be (take 4 (frame t1)))); [lia|]. cbn [orb].
      destruct (N.ltb_spec (frame_read t1) (4 + from_be (take 4 (frame t1)))); [done|lia].
Qed.

(** A connection: a future reads frames until it has to wait, then is dropped
    (by a timeout, or a [select!]); the next one finds what arrived since. *)
Fixpoint drain (fuel : nat) (t : RecordTransport) (s : Socket)
    : RecordTransport * list (list byte) * Poll :=
  match fuel with
  | O => (t, [], OutOfFuel)
  | S fuel' =>
      match read_frame t s with
      | (t, s, Ready f) => let '(t, fs, p) := drain fuel' t s in (t, f :: fs, p)
      | (t, _, p) => (t, [], p)
      end
  end.
Fixpoint session (t : RecordTransport) (polls : list Socket) : RecordTransport * list (list byte) * Poll :=
  match polls with
  | [] => (t, [], Pending)
  | s :: polls' =>
      match drain (S (length (frame t) + length (concat s))) t s with
      | (t, fs, Pending) => let '(t, fs', p) := session t polls' in (t, fs ++ fs', p)
      | r => r
      end
  end.
Definition poll_of (o : option (list byte)) : Poll :=
  match o with Some _ => Pending | None => InvalidRecordLength end.

Lemma drain_spec fuel t s fs o :
  reader_wf t -> Forall (fun seg => seg <> []) s -> parses (partial t ++ concat s) fs o ->
  (length fs < fuel)%nat ->
  exists t', drain fuel t s = (t', fs, poll_of o) /\
    forall r, o = Some r -> reader_wf t' /\ partial t' = r.
Proof.
  revert t s fs. induction fuel as [|fuel IH]; intros t s fs Hw Hs Hp Hf; [lia|]. cbn [drain].
  destruct (read_loop_spec (S (length (concat s))) t s Hw Hs ltac:(lia)) as (t1 & s1 & p & Hrd & Hres).
  unfold read_frame. rewrite Hrd.
  destruct Hp as [b Hn|b Hn|b f r fs o Hn Hp]; rewrite Hn in Hres.
  - destruct Hres as (-> & -> & Hw1 & Hp1). eexists. split; [done|]. by intros r [= <-].
  - rewrite Hres. by eexists.
  - destruct Hres as (-> & Hu & <- & Hs1). destruct (unread_wf _ Hu) as [Hw1 Hp1].
    destruct (IH t1 s1 fs Hw1 Hs1) as (t' & -> & Hr); [by rewrite Hp1|cbn in Hf; lia|].
    by eexists.
Qed.

Lemma parses_length b fs o : parses b fs o -> (4 * length fs <= length b)%nat.
Proof.
  induction 1 as [| |b f r fs o Hn _ IH]; [cbn; lia..|].
  destruct (next_frame_frame _ _ _ Hn) as (-> & _ & _ & Hl). rewrite length_app. unfold lenN in Hl. cbn. lia.
Qed.
End reader_proofs.

Section session_proofs.
Context `{SnowLib} `{ProstLib}.

Lemma session_spec polls t fs o :
  reader_wf t -> Forall (Forall (fun seg => seg <> [])) polls ->
  parses (partial t ++ concat (concat polls)) fs o -> (polls = [] -> next_frame (partial t) = Wait) ->
  exists t', session t polls = (t', fs, poll_of o) /\ forall r, o = Some r -> reader_wf t' /\ partial t' = r.
Proof.
  revert t fs. induction polls as [|s polls IH]; intros t fs Hw Hall Hp Hwait; cbn [session].
  - cbn [concat] in Hp. rewrite app_nil_r in Hp.
    destruct (parses_det _ _ _ _ _ Hp (parses_wait _ (Hwait eq_refl))) as [-> ->].
    exists t. split; [done|]. by intros r [= <-].
  - apply Forall_cons in Hall as [Hs Hall]. cbn [concat] in Hp. rewrite concat_app, app_assoc in Hp.
    destruct (parses_total (partial t ++ concat s)) as (fs1 & o1 & Hp1).
    pose proof (parses_length _ _ _ Hp1) as Hlen. rewrite length_app in Hlen.
    assert (Hpl : (length (partial t) <= length (frame t))%nat) by (unfold partial; rewrite length_take; lia).
    destruct (drain_spec (S (length (frame t) + length (concat s))) t s fs1 o1 Hw Hs Hp1)
      as (t1 & Hd & Hr1); [lia|].
    rewrite Hd. destruct o1 as [r1|]; cbn [poll_of].
    + destruct (Hr1 _ eq_refl) as [Hw1 Hpt1].
      destruct (parses_total (r1 ++ concat (concat polls))) as (fs2 & o2 & Hp2).
      pose proof (parses_app _ _ _ _ _ _ Hp1 Hp2) as Hp12.
      destruct (parses_det _ _ _ _ _ Hp Hp12) as [-> ->].
      destruct (IH t1 fs2 Hw1 Hall) as (t2 & -> & Hr2).
      * by rewrite Hpt1.
      * intros _. rewrite Hpt1. clear -Hp1. remember (Some r1) as x eqn:Hx.
        induction Hp1 as [b Hn|b Hn|b f r fs o Hn _ IH]; [by injection Hx as <-|done|by apply IH].
      * by exists t2.
    + destruct (parses_det _ _ _ _ _ Hp (parses_app_bad _ (concat (concat polls)) _ Hp1)) as [-> ->].
      by exists t1.
Qed.

(** A length-prefixed frame. *)
Definition framed (f : list byte) : Prop :=
  4 < lenN f /\ lenN f = 4 + from_be (take 4 f) /\ from_be (take 4 f) <= 65535.
Lemma parses_frames fs rest :
  Forall framed fs -> next_frame rest = Wait -> parses (concat fs ++ rest) fs (Some rest).
Proof.
  intros Hfs Hrest. induction Hfs as [|f fs (Hl & He & Hn) _ IH]; cbn [concat app].
  - by apply parses_wait.
  - eapply (parses_frame _ f (concat fs ++ rest)); [|exact IH].
    rewrite <- app_assoc. unfold next_frame. rewrite lenN_app.
    destruct (N.ltb_spec (lenN f + lenN (concat fs ++ rest)) 4); [lia|].
    rewrite take_app_le by (unfold lenN in *; lia).
    destruct (N.eqb_spec (from_be (take 4 f)) 0); [lia|].
    destruct (N.ltb_spec 65535 (from_be (take 4 f))); [lia|]. cbn [orb].
    destruct (N.ltb_spec (lenN f + lenN (concat fs ++ rest)) (4 + from_be (take 4 f))); [lia|].
    rewrite <- He. unfold lenN. by rewrite Nat2N.id, take_app_length, drop_app_length.
Qed.

Lemma local_roundtrip `{!ProstLaws} e f :
  encode_local (Control e) = Ok f -> decode_local f = Ok (Control e) /\ framed f.
Proof.
  unfold encode_local. destruct (message_is_some e) eqn:Hm; [|done]. cbn [negb orb].
  destruct (N.ltb_spec 65535 (lenN (encode_to_vec e) + 4)) as [|Hl]; [done|].
  destruct (N.ltb_spec U32_MAX (lenN (encode_to_vec e) + 4)); [done|]. intros Hf.
  set (b := encode_to_vec e) in *.
  assert (f = to_be 4 (lenN b + 4) ++ LOCAL_MAGIC ++ b) as -> by congruence. clear Hf.
  assert (Hlen : lenN (to_be 4 (lenN b + 4) ++ LOCAL_MAGIC ++ b) = lenN b + 8)
    by (rewrite !lenN_app, lenN_to_be; change (lenN LOCAL_MAGIC) with 4; lia).
  assert (Hpre : take 4 (to_be 4 (lenN b + 4) ++ LOCAL_MAGIC ++ b) = to_be 4 (lenN b + 4))
    by (apply take_app_length'; by rewrite length_to_be).
  assert (Hbe : from_be (to_be 4 (lenN b + 4)) = lenN b + 4) by (apply from_be_to_be; cbn; lia).
  split.
  2:{ unfold framed. rewrite Hpre, Hbe, Hlen. lia. }
  unfold decode_local. rewrite Hlen.
  assert (Hb0 : 0 < lenN b).
  { pose proof (encode_nonempty e Hm) as Hne. fold b in Hne. destruct b; [done|rewrite lenN_cons; lia]. }
  destruct (N.ltb_spec (lenN b + 8) 9); [lia|]. destruct (N.ltb_spec 65539 (lenN b + 8)); [lia|].
  cbn [orb].
  rewrite (slice_app [] (to_be 4 (lenN b + 4)) (LOCAL_MAGIC ++ b) 0 4) by (rewrite ?lenN_to_be; done).
  cbn [mbind outcome_bind]. rewrite Hbe.
  destruct (N.eqb_spec (lenN b + 4 + 4) (lenN b + 8)); [|lia]. cbn [negb].
  rewrite (slice_app (to_be 4 (lenN b + 4)) LOCAL_MAGIC b 4 8) by (rewrite ?lenN_to_be; done).
  cbn [mbind outcome_bind]. rewrite bool_decide_eq_true_2 by done. cbn [negb].
  assert (Hs : slice_from (E:=WireError) (to_be 4 (lenN b + 4) ++ LOCAL_MAGIC ++ b) 8 = Ok b).
  { apply slice_from_Ok. rewrite Hlen. split; [lia|].
    rewrite app_assoc, drop_app_length'; [done|]. by rewrite length_app, length_to_be. }
  rewrite Hs. cbn [mbind outcome_bind]. unfold b. rewrite decode_encode. cbn [ok_or mbind outcome_bind].
  rewrite Hm. by rewrite bool_decide_eq_true_2.
Qed.
End session_proofs.

(** ** Theorems *)

Section theorems.
Context `{SnowLib} `{ProstLib} `{UuidLib}.

Lemma stream_encode_framed s rec s' f : stream_encode s rec = (s', Ok f) -> framed f.
Proof.
  unfold stream_encode. intros Hx. repeat (case_match; simplify_eq/=).
  match goal with Hc : (_ || _) = false |- _ => apply orb_false_iff in Hc; destruct Hc as [H0c Hc];
    apply N.eqb_neq in H0c; apply N.ltb_ge in Hc; unfold MAX_CIPHERTEXT_LEN in Hc end.
  match goal with Hw : write_message _ _ _ = (_, Some ?c) |- _ =>
    change (framed (to_be 4 (lenN c) ++ c)) end.
  unfold framed. rewrite take_app_length' by (by rewrite length_to_be).
  rewrite from_be_to_be by (cbn; lia). rewrite lenN_app, lenN_to_be. lia.
Qed.

Lemma encode_all_delivers `{!ProstLaws, !SnowLaws} rs s r :
  linked s r -> Forall record_ok rs -> sent s + lenN rs <= REKEY_HARD_MESSAGES ->
  exists s' fs r', encode_all s rs = Ok (s', fs) /\ decode_all r fs = Ok (r', rs) /\
    Forall framed fs /\ linked s' r' /\ sent s' = sent s + lenN rs.
Proof.
  intros Hl Hrs. revert s r Hl. induction Hrs as [|rec rs Hok _ IH]; intros s r Hl Hle.
  { eexists _, _, _. split_and!; [done|done|constructor|done|]. change (lenN []) with 0. lia. }
  rewrite lenN_cons in Hle.
  destruct (stream_record s r rec Hl Hok ltac:(lia)) as (s1 & f & r1 & He & Hd & Hl1 & Hs1).
  destruct (IH s1 r1 Hl1 ltac:(lia)) as (s2 & fs & r2 & Hea & Hda & Hfr & Hl2 & Hs2).
  exists s2, (f :: fs), r2. cbn [encode_all decode_all]. rewrite He, Hd. cbn [mbind outcome_bind].
  rewrite Hea, Hda. cbn [mbind outcome_bind].
  split_and!; [done|done| |done|rewrite lenN_cons; lia].
  constructor; [by eapply stream_encode_framed|done].
Qed.

(** The relay preface is canonical: the bytes [decode] accepts are exactly
    the encodings of well-formed prefaces, each of which decodes to the preface
    it encodes, and to nothing else. *)
Theorem preface_canonical bytes p :
  preface_decode bytes = Ok p <-> preface_wf p /\ bytes = preface_encode p.
Proof.
  split.
  - intros [Hw He]%preface_decode_Ok. done.
  - intros [Hw ->]. by apply preface_decode_encode.
Qed.

Lemma preface_encode_inj p q : ids_wf p -> ids_wf q -> preface_encode p = preface_encode q -> p = q.
Proof.
  intros (Hm & Ht & Hs) (Hm' & Ht' & Hs'). destruct p as [m t s], q as [m' t' s'].
  unfold preface_encode. cbn [mesh_id target source] in *. intros He.
  apply app_inv_head in He. apply app_inj_1 in He as [Htag He]; [|done].
  apply app_inj_1 in He as [Hmm He]; [|by rewrite !length_id_bytes].
  apply app_inj_1 in He as [Htt He]; [|by rewrite !length_id_bytes].
  apply id_bytes_inj in Hmm, Htt; try done. subst m' t'. f_equal.
  destruct s as [s|], s' as [s'|]; try done. f_equal. apply id_bytes_inj; auto.
Qed.

(** A handshake binds its preface.  A preface whose source is its target
    starts none, any other a KK one when it names a source (the backbone) and an
    IK one otherwise; and two sides whose Noise prologues agree agree on the
    Mesh, the target and the source. *)
Theorem handshake_binds_preface p q initiator private public :
  ids_wf p -> ids_wf q ->
  preface_handshake p initiator private public =
    (if bool_decide (source p = Some (target p)) then Err KindMismatch
     else build_handshake_with_prologue
            match source p with Some _ => KK_SUITE | None => IK_SUITE end
            initiator private public (prologue p)) /\
  (prologue q = prologue p -> q = p).
Proof.
  intros Hp Hq. split.
  - unfold preface_handshake. rewrite preface_decode_ids by done. by case_bool_decide.
  - intros Heq. unfold prologue in Heq. apply app_inv_head, app_inv_head in Heq.
    by apply preface_encode_inj.
Qed.
(** C38: A link delivers.  Whatever well-formed records - an IP packet of the version
    its kind says, a control envelope with a message, each small enough for a frame -
    a sender encodes on a fresh or used link, however the bytes are cut into segments by the network and however
    often the reader is cancelled and resumed between them, the receiver reads
    exactly the frames sent and decodes exactly the records, in order, up to the
    hard message bound of the key. *)
Theorem link_delivers `{!ProstLaws, !SnowLaws} s r rs :
  linked s r -> Forall record_ok rs -> sent s + lenN rs <= REKEY_HARD_MESSAGES ->
  exists s' fs, encode_all s rs = Ok (s', fs) /\
    forall t polls, unread t -> Forall (Forall (fun seg => seg <> [])) polls ->
      concat (concat polls) = concat fs ->
      exists t' r', session t polls = (t', fs, Pending) /\ partial t' = [] /\
        decode_all r fs = Ok (r', rs) /\ linked s' r'.
Proof.
  intros Hl Hrs Hle.
  destruct (encode_all_delivers rs s r Hl Hrs Hle) as (s' & fs & r' & He & Hd & Hfr & Hl' & _).
  exists s', fs. split; [exact He|]. intros t polls Hu Hne Hcat. destruct (unread_wf t Hu) as [Hw Hp].
  destruct (session_spec polls t fs (Some []) Hw Hne) as (t' & Hs & Ht).
  - rewrite Hp, Hcat, <- (app_nil_r (concat fs)). by apply parses_frames.
  - intros _. by rewrite Hp.
  - exists t', r'. split; [exact Hs|]. by destruct (Ht _ eq_refl) as [_ ->].
Qed.

(** C39: The frame reader refines the splitting of the byte stream: on any
    segmentation and any cancellations it returns the frames the stream parses
    into, waits with exactly the unfinished bytes kept, and fails exactly at a
    frame whose length is zero or above 65535; it always returns. *)
Theorem reader_refines_stream t polls :
  unread t -> Forall (Forall (fun seg => seg <> [])) polls ->
  exists t' fs o, parses (concat (concat polls)) fs o /\ session t polls = (t', fs, poll_of o) /\
    forall r, o = Some r -> partial t' = r.
Proof.
  intros Hu Hne. destruct (unread_wf t Hu) as [Hw Hp].
  destruct (parses_total (concat (concat polls))) as (fs & o & Hps).
  destruct (session_spec polls t fs o Hw Hne) as (t' & Hs & Ht).
  - by rewrite Hp.
  - intros _. by rewrite Hp.
  - exists t', fs, o. split_and!; [done|done|]. intros r Hr. by apply Ht.
Qed.


(** A local record decodes to what was encoded, for every envelope the
    encoder accepts, and is one frame for the reader. *)
Theorem local_record_roundtrip `{!ProstLaws} e f :
  encode_local (Control e) = Ok f -> decode_local f = Ok (Control e) /\ framed f.
Proof. apply local_roundtrip. Qed.
End theorems.


(** What a Relay routes.  An envelope is accepted from a Peer only without a
    source; bound to the authenticated 16-byte identity it is accepted for
    routing with that source and nothing else changed; and both validations
    accept exactly the Wire 5 envelopes with 16-byte identities, a known kind and
    a body of 1 to 65535 bytes. *)
Theorem relay_envelope_exact e src :
  let ok := major e = PROTOCOL_MAJOR /\ lenN (env_mesh_id e) = 16 /\ lenN (destination_peer e) = 16 /\
    (kind e = 1%Z \/ kind e = 2%Z) /\ 0 < lenN (opaque e) <= MAX_OPAQUE_FRAME_LEN in
  (validate_from_peer e = Ok tt <-> source_peer e = [] /\ ok) /\
  (validate_for_relay (bind_authenticated_source e src) = Ok tt <-> lenN src = 16 /\ ok) /\
  source_peer (bind_authenticated_source e src) = src.
Proof.
  cbn zeta. assert (Hk : match opaque_frame_kind (kind e) with Some _ => false | None => true end = false
    <-> kind e = 1%Z \/ kind e = 2%Z).
  { unfold opaque_frame_kind. destruct (Z.eqb_spec (kind e) 1), (Z.eqb_spec (kind e) 2); naive_solver. }
  assert (Hc : validate_common e = Ok tt <-> major e = PROTOCOL_MAJOR /\ lenN (env_mesh_id e) = 16 /\
    lenN (destination_peer e) = 16 /\ (kind e = 1%Z \/ kind e = 2%Z) /\
    0 < lenN (opaque e) <= MAX_OPAQUE_FRAME_LEN).
  { rewrite <- Hk. unfold validate_common. clear Hk.
    destruct (N.eqb_spec (major e) PROTOCOL_MAJOR); cbn [negb]; [|split; [done|tauto]].
    destruct (N.eqb_spec (lenN (env_mesh_id e)) 16), (N.eqb_spec (lenN (destination_peer e)) 16);
      cbn [negb orb]; try (split; [done|tauto]).
    destruct (match opaque_frame_kind (kind e) with Some _ => false | None => true end); cbn [orb];
      [split; [done|by intros (_ & _ & _ & ? & _)]|].
    destruct (N.eqb_spec (lenN (opaque e)) 0); cbn [orb]; [split; [done|lia]|].
    destruct (N.ltb_spec MAX_OPAQUE_FRAME_LEN (lenN (opaque e))); [split; [done|lia]|].
    split; [intros _; split_and!; (done || lia)|done]. }
  assert (Hnil : forall l : list byte, lenN l = 0 <-> l = [])
    by (intros []; [done|rewrite lenN_cons; split; [lia|done]]).
  split_and!; [| |done].
  - unfold validate_from_peer. rewrite <- Hc, <- Hnil.
    destruct (N.eqb_spec (lenN (source_peer e)) 0); cbn [negb]; [tauto|split; [done|tauto]].
  - unfold validate_for_relay. change (validate_common (bind_authenticated_source e src)) with
      (validate_common e). cbn [bind_authenticated_source source_peer]. rewrite <- Hc.
    destruct (N.eqb_spec (lenN src) 16); cbn [negb]; [tauto|split; [done|tauto]].
Qed.

(** ** Witnesses: concrete libraries

    A Noise whose tag is its nonce, and a codec that writes one key byte. *)
Definition snow_nonce : SnowLib := {|
  Builder := unit;
  HandshakeState := unit;
  TransportState := N;
  builder_new _ := Some tt;
  builder_prologue _ _ := Some tt;
  local_private_key _ _ := Some tt;
  remote_public_key _ _ := Some tt;
  build_initiator _ := Some tt;
  build_responder _ := Some tt;
  into_transport_mode _ := Some 0;
  write_message k m room :=
    if (k <? U64_MAX) && (lenN m + 16 <=? room) then (k + 1, Some (m ++ to_be 16 k)) else (k, None);
  read_message k c room :=
    let m := take (length c - 16) c in
    if bool_decide (drop (length c - 16) c = to_be 16 k) && (lenN m <=? room)
    then (k + 1, Some m) else (k, None);
|}.
Definition prost_tagged : ProstLib := {|
  ControlEnvelope := list byte;
  message_is_some _ := true;
  encoded_len e := lenN e + 1;
  encode_to_vec e := x0a :: e;
  envelope_decode l := match l with x0a :: e => Some e | _ => None end;
|}.
#[local] Existing Instance snow_nonce.
#[local] Existing Instance prost_tagged.
#[local] Existing Instance uuid_rfc.

#[local] Instance prost_tagged_laws : ProstLaws.
Proof. split; [done| |done]. intros e. cbn. by rewrite lenN_cons. Qed.
#[local] Instance snow_nonce_laws : SnowLaws.
Proof.
  refine (Build_SnowLaws snow_nonce (fun k (w r : N) => w = k /\ r = k) _).
  intros k w r m room [-> ->] Hk Hroom _. cbn [write_message read_message snow_nonce TransportState].
  destruct (N.ltb_spec k U64_MAX); [|lia]. destruct (N.leb_spec (lenN m + 16) room); [|lia].
  exists (k + 1), (m ++ to_be 16 k). split; [done|]. split; [by rewrite lenN_app, lenN_to_be|].
  intros room' Hr. exists (k + 1). split; [|done].
  rewrite length_app, length_to_be, Nat.add_sub, take_app_length, drop_app_length.
  rewrite bool_decide_eq_true_2 by done. destruct (N.leb_spec (lenN m) room'); [done|lia].
Defined.

Definition example_id (n : N) : DomainId := mkDomainId (0x970a3f18_1c6f_4da6_a223_f962_3958_a900 + n).
Definition example_preface : RelayPreface := mkRelayPreface (example_id 1) (example_id 2) (Some (example_id 3)).
Lemma wire_example_id_wf n : n < 3 -> id_wf (example_id (n + 1)).
Proof.
  intros Hn. assert (Hc : n = 0 \/ n = 1 \/ n = 2) by lia.
  destruct Hc as [-> | [-> | ->]]; split; vm_compute; done.
Qed.
Lemma example_ids_wf : ids_wf example_preface.
Proof.
  split_and!; [exact (wire_example_id_wf 0 eq_refl)|exact (wire_example_id_wf 1 eq_refl)|].
  intros s [= <-]. exact (wire_example_id_wf 2 eq_refl).
Qed.
Example example_preface_decodes : preface_decode (preface_encode example_preface) = Ok example_preface.
Proof. vm_compute. reflexivity. Qed.

Lemma handshake_binds_preface_witness :
  preface_handshake example_preface true [] None = Ok tt /\
  forall q, ids_wf q -> prologue q = prologue example_preface -> q = example_preface.
Proof.
  split.
  - rewrite (proj1 (handshake_binds_preface example_preface example_preface true [] None
      example_ids_wf example_ids_wf)). vm_compute. reflexivity.
  - intros q Hq. exact (proj2 (handshake_binds_preface example_preface q true [] None example_ids_wf Hq)).
Defined.

Definition example_stream : StreamTransport := mkStreamTransport 0 0 0 0.
Definition example_records : list WireRecord :=
  [Control [x01; x02]; Ipv4 [x45; x00]; Ipv6 [x60]].
Definition example_frames : list (list byte) :=
  match encode_all example_stream example_records with Ok (_, fs) => fs | _ => [] end.
Lemma example_records_ok : Forall record_ok example_records.
Proof. repeat constructor; vm_compute; done. Qed.
Lemma link_delivers_witness :
  exists s' fs, encode_all example_stream example_records = Ok (s', fs) /\
    exists t' r', session (local 0) [[take 3 (concat fs)]; [drop 3 (concat fs)]] = (t', fs, Pending) /\
      decode_all example_stream fs = Ok (r', example_records).
Proof.
  destruct (link_delivers example_stream example_stream example_records) as (s' & fs & He & Hd).
  - split; [split; reflexivity|reflexivity].
  - exact example_records_ok.
  - vm_compute. discriminate.
  - exists s', fs. split; [exact He|].
    assert (fs = example_frames) as -> by (unfold example_frames; by rewrite He).
    destruct (Hd (local 0) [[take 3 (concat example_frames)]; [drop 3 (concat example_frames)]])
      as (t' & r' & Hs & _ & Hr & _).
    + split; reflexivity.
    + repeat constructor; vm_compute; discriminate.
    + vm_compute. reflexivity.
    + exists t', r'. exact (conj Hs Hr).
Defined.

Definition example_polls : list Socket := [[[x00; x00]]; [[x00; x01; xff; x00]; [x00; x00; x00]]].
Lemma reader_refines_stream_witness :
  (session (local 0) example_polls).2 = InvalidRecordLength /\
  exists t' fs o, parses (concat (concat example_polls)) fs o /\
    session (local 0) example_polls = (t', fs, poll_of o).
Proof.
  split; [vm_compute; reflexivity|].
  destruct (reader_refines_stream (local 0) example_polls) as (t' & fs & o & Hp & Hs & _).
  - split; reflexivity.
  - repeat constructor; discriminate.
  - exists t', fs, o. exact (conj Hp Hs).
Defined.


Lemma local_record_roundtrip_witness :
  decode_local (to_be 4 6 ++ LOCAL_MAGIC ++ [x0a; x07]) = Ok (Control ([x07] : @ControlEnvelope prost_tagged)).
Proof. apply (local_record_roundtrip ([x07] : @ControlEnvelope prost_tagged)). reflexivity. Defined.

End Wire.
