(* ===== verification/PeerRuntime.v ===== *)
(** * The peer's lifecycle (crate [peerward-peer-core], runtime.rs and schedule.rs)

    The runtime state machine a platform adapter drives, and the scheduler of
    keepalives and health reports.  Times are milliseconds of a monotonic clock. *)

From S2P Require Import Prelude.
From Stdlib Require Import NArith Lia Sorting.Sorted.
From stdpp Require Import base tactics decidable numbers list sorting.
Set Default Goal Selector "!".
Local Open Scope N_scope.

Module Rt.

(** ** runtime.rs *)

Inductive RuntimePhase :=
  Stopped_ | PermissionRequired_ | Starting | Connecting_ | Healthy | Degraded | Reconnecting
| Stopping | Failed_.
#[export] Instance RuntimePhase_eq_dec : EqDecision RuntimePhase.
Proof. solve_decision. Defined.

Record RuntimeView := mkRuntimeView {
  sequence : N;
  phase : RuntimePhase;
  rust_runtime_running : bool;
  tun_open : bool;
  packet_pump_running : bool;
  underlay_available : bool;
  primary_relay_authenticated : bool;
  standby_relay_count : N;
  direct_path_count : N;
  signed_state_complete : bool;
  signed_state_revision : N;
}.

Inductive RuntimeEvent :=
| Reset_
| PermissionRequired
| StartRequested
| TunOpened
| Connecting
| TransportObserved (primary : bool) (standby direct : N) (complete : bool) (revision : N)
| UnderlayLost
| UnderlayRestored
| TransportLost
| StopRequested
| Stopped
| Failed.

Record RuntimeOrchestrator := mkRuntime { view : RuntimeView; was_authenticated : bool }.
Definition default_view : RuntimeView :=
  mkRuntimeView 0 Stopped_ false false false false false 0 0 false 0.
Definition runtime_default : RuntimeOrchestrator := mkRuntime default_view false.

Definition with_phase (p : RuntimePhase) (v : RuntimeView) : RuntimeView :=
  mkRuntimeView (sequence v) p (rust_runtime_running v) (tun_open v) (packet_pump_running v)
    (underlay_available v) (primary_relay_authenticated v) (standby_relay_count v)
    (direct_path_count v) (signed_state_complete v) (signed_state_revision v).
Definition set_phase (p : RuntimePhase) (self : RuntimeOrchestrator) : RuntimeOrchestrator :=
  mkRuntime (with_phase p (view self)) (was_authenticated self).
Definition set_running (self : RuntimeOrchestrator) : RuntimeOrchestrator :=
  let v := view self in
  mkRuntime (mkRuntimeView (sequence v) (phase v) true (tun_open v) (packet_pump_running v)
    (underlay_available v) (primary_relay_authenticated v) (standby_relay_count v)
    (direct_path_count v) (signed_state_complete v) (signed_state_revision v))
    (was_authenticated self).
Definition set_tun (self : RuntimeOrchestrator) : RuntimeOrchestrator :=
  let v := view self in
  mkRuntime (mkRuntimeView (sequence v) (phase v) true true true true
    (primary_relay_authenticated v) (standby_relay_count v)
    (direct_path_count v) (signed_state_complete v) (signed_state_revision v))
    (was_authenticated self).
Definition set_underlay (available : bool) (self : RuntimeOrchestrator) : RuntimeOrchestrator :=
  let v := view self in
  mkRuntime (mkRuntimeView (sequence v) (phase v) (rust_runtime_running v) (tun_open v)
    (packet_pump_running v) available (primary_relay_authenticated v) (standby_relay_count v)
    (direct_path_count v) (signed_state_complete v) (signed_state_revision v))
    (was_authenticated self).
Definition set_transport (primary : bool) (standby direct : N) (complete : bool) (revision : N)
    (self : RuntimeOrchestrator) : RuntimeOrchestrator :=
  let v := view self in
  mkRuntime (mkRuntimeView (sequence v) (phase v) (rust_runtime_running v) (tun_open v)
    (packet_pump_running v) (underlay_available v) primary standby direct complete revision)
    (was_authenticated self).
Definition set_sequence (n : N) (self : RuntimeOrchestrator) : RuntimeOrchestrator :=
  let v := view self in
  mkRuntime (mkRuntimeView n (phase v) (rust_runtime_running v) (tun_open v)
    (packet_pump_running v) (underlay_available v) (primary_relay_authenticated v)
    (standby_relay_count v) (direct_path_count v) (signed_state_complete v)
    (signed_state_revision v)) (was_authenticated self).

Definition reset_runtime (self : RuntimeOrchestrator) : RuntimeOrchestrator :=
  set_sequence (sequence (view self)) runtime_default.
Definition clear_transport (self : RuntimeOrchestrator) : RuntimeOrchestrator :=
  set_transport false 0 0 false 0 self.
Definition recompute_health (self : RuntimeOrchestrator) : RuntimeOrchestrator :=
  let v := view self in
  set_phase
    (if negb (tun_open v) || negb (packet_pump_running v) || negb (underlay_available v) then
       if was_authenticated self then Reconnecting else Connecting_
     else if negb (primary_relay_authenticated v) then Reconnecting
     else if signed_state_complete v && (0 <? signed_state_revision v) then Healthy
     else Degraded) self.

Definition closed_phase (p : RuntimePhase) : bool :=
  match p with Stopped_ | Stopping | PermissionRequired_ | Failed_ => true | _ => false end.
Definition platform_callback (e : RuntimeEvent) : bool :=
  match e with
  | TunOpened | Connecting | TransportObserved _ _ _ _ _ | UnderlayLost | UnderlayRestored
  | TransportLost => true
  | _ => false
  end.

Definition transition (event : RuntimeEvent) (self : RuntimeOrchestrator) : RuntimeOrchestrator :=
  let self := set_sequence (sat_add (sequence (view self)) 1) self in
  if closed_phase (phase (view self)) && platform_callback event then self else
  match event with
  | Reset_ | Stopped => reset_runtime self
  | PermissionRequired => set_phase PermissionRequired_ (reset_runtime self)
  | StartRequested => set_phase Starting (set_running (reset_runtime self))
  | TunOpened =>
      set_phase (if was_authenticated self then Reconnecting else Connecting_) (set_tun self)
  | Connecting =>
      set_phase (if was_authenticated self then Reconnecting else Connecting_) (set_running self)
  | TransportObserved primary standby direct complete revision =>
      let self := set_transport primary standby direct complete (if complete then revision else 0) self in
      recompute_health (mkRuntime (view self) (was_authenticated self || primary))
  | UnderlayLost => set_phase Reconnecting (set_underlay false (clear_transport self))
  | UnderlayRestored => recompute_health (set_underlay true (clear_transport self))
  | TransportLost =>
      let self := clear_transport self in
      set_phase (if tun_open (view self) then Reconnecting else Connecting_) self
  | StopRequested => set_phase Stopping self
  | Failed => set_phase Failed_ (reset_runtime self)
  end.

(** In milliseconds. *)
Definition reconnect_delay (attempt entropy : N) : N :=
  let exponent := N.min attempt 6 in
  let base := N.min (N.min (250 * N.shiftl 1 exponent) U64_MAX) 10000 in
  base + entropy mod 251.

(** ** schedule.rs *)

Record RuntimeHealthFingerprint := mkFingerprint {
  fp_state_generation : N;
  fp_primary_relay_authenticated : bool;
  fp_standby_relay_count : N;
  fp_direct_path_count : N;
  fp_signed_state_complete : bool;
  fp_signed_state_revision : N;
  degraded_reason_mask : N;
}.
#[export] Instance RuntimeHealthFingerprint_eq_dec : EqDecision RuntimeHealthFingerprint.
Proof. solve_decision. Defined.

Record RuntimeSchedule := mkSchedule {
  observe_status : bool;
  send_keepalive : bool;
  report_health : bool;
  next_poll_millis : N;
}.
Record RuntimeScheduler := mkScheduler {
  polled_at_millis : option N;
  keepalive_at_millis : option N;
  health_at_millis : option N;
  health_fingerprint : option RuntimeHealthFingerprint;
}.
Definition scheduler_default : RuntimeScheduler := mkScheduler None None None None.

Definition OBSERVATION_INTERVAL_MILLIS : N := 1000.
Definition KEEPALIVE_INTERVAL_MILLIS : N := 10000.
Definition HEALTH_INTERVAL_MILLIS : N := 30000.

Definition is_some_and {A} (o : option A) (f : A -> bool) : bool :=
  match o with Some x => f x | None => false end.

Definition poll (now_millis : N) (health : RuntimeHealthFingerprint) (self : RuntimeScheduler)
    : RuntimeSchedule * RuntimeScheduler :=
  let self := if is_some_and (polled_at_millis self) (fun previous => now_millis <? previous)
              then scheduler_default else self in
  let send_keepalive := is_some_and (keepalive_at_millis self)
    (fun last => KEEPALIVE_INTERVAL_MILLIS <=? now_millis - last) in
  let keepalive_at :=
    match keepalive_at_millis self with
    | None => Some now_millis
    | Some last => if send_keepalive then Some now_millis else Some last
    end in
  let health_changed :=
    match health_fingerprint self with
    | None => true
    | Some last => negb (bool_decide (last = health))
    end in
  let health_expired := is_some_and (health_at_millis self)
    (fun last => HEALTH_INTERVAL_MILLIS <=? now_millis - last) in
  let report_health := health_changed || health_expired in
  (mkSchedule true send_keepalive report_health OBSERVATION_INTERVAL_MILLIS,
   mkScheduler (Some now_millis) keepalive_at
     (if report_health then Some now_millis else health_at_millis self)
     (if report_health then Some health else health_fingerprint self)).

Definition retry_health (self : RuntimeScheduler) : RuntimeScheduler :=
  mkScheduler (polled_at_millis self) (keepalive_at_millis self) None None.

(** ** The runtime invariant *)

Definition active_phase (p : RuntimePhase) : bool :=
  match p with Starting | Connecting_ | Healthy | Degraded | Reconnecting => true | _ => false end.

Record rt_wf (r : RuntimeOrchestrator) : Prop := {
  rt_sequence : sequence (view r) <= U64_MAX;
  rt_running : active_phase (phase (view r)) = true -> rust_runtime_running (view r) = true;
  rt_healthy : phase (view r) = Healthy ->
    tun_open (view r) = true /\ packet_pump_running (view r) = true /\
    underlay_available (view r) = true /\ primary_relay_authenticated (view r) = true /\
    signed_state_complete (view r) = true /\ 0 < signed_state_revision (view r);
  rt_revision : signed_state_complete (view r) = false -> signed_state_revision (view r) = 0;
  rt_authenticated : primary_relay_authenticated (view r) = true -> was_authenticated r = true;
  rt_closed : (phase (view r) = Stopped_ \/ phase (view r) = PermissionRequired_ \/
    phase (view r) = Failed_) -> view r = with_phase (phase (view r)) (view (set_sequence (sequence (view r)) runtime_default));
}.

Lemma closed_not_active p : closed_phase p = negb (active_phase p).
Proof. by destruct p. Qed.

Lemma reset_phase_wf r p :
  sequence (view r) <= U64_MAX -> active_phase p = false -> rt_wf (set_phase p (reset_runtime r)).
Proof. intros Hs Hp. split; cbn; try done; [by rewrite Hp|by intros ->]. Qed.

(** A phase change between phases that are neither [Healthy] nor reset. *)
Lemma set_phase_wf r p :
  sequence (view r) <= U64_MAX ->
  (active_phase p = true -> rust_runtime_running (view r) = true) -> 
  (signed_state_complete (view r) = false -> signed_state_revision (view r) = 0) ->
  (primary_relay_authenticated (view r) = true -> was_authenticated r = true) ->
  p = Starting \/ p = Connecting_ \/ p = Degraded \/ p = Reconnecting \/ p = Stopping ->
  rt_wf (set_phase p r).
Proof.
  intros Hs Hr Hv Ha Hp. split; cbn; try done.
  - intros ->. exfalso. by destruct Hp as [?|[?|[?|[?|?]]]].
  - intros Hq. exfalso. destruct Hp as [-> | [-> | [-> | [-> | ->]]]], Hq as [?|[?|?]]; done.
Qed.

Lemma recompute_health_wf r :
  sequence (view r) <= U64_MAX -> rust_runtime_running (view r) = true ->
  (signed_state_complete (view r) = false -> signed_state_revision (view r) = 0) ->
  (primary_relay_authenticated (view r) = true -> was_authenticated r = true) ->
  rt_wf (recompute_health r).
Proof.
  intros Hs Hr Hv Ha. unfold recompute_health. cbn zeta.
  destruct (negb (tun_open (view r)) || _ || _) eqn:Hopen.
  { apply set_phase_wf; auto. destruct (was_authenticated r); auto. }
  apply orb_false_iff in Hopen as [[Ht Hp]%orb_false_iff Hu]. apply negb_false_iff in Ht, Hp, Hu.
  destruct (negb (primary_relay_authenticated (view r))) eqn:Hpr; [apply set_phase_wf; auto|].
  apply negb_false_iff in Hpr.
  destruct (signed_state_complete (view r) && (0 <? signed_state_revision (view r))) eqn:Hsc;
    [|apply set_phase_wf; auto].
  apply andb_true_iff in Hsc as [Hsc Hrev%N.ltb_lt].
  split; cbn; try done. by intros [?|[?|?]].
Qed.

Lemma transition_wf e r : rt_wf r -> rt_wf (transition e r).
Proof.
  intros [Hs Hr Hh Hv Ha Hc]. unfold transition.
  set (r1 := set_sequence (sat_add (sequence (view r)) 1) r).
  assert (Hseq : sequence (view r1) <= U64_MAX) by (cbn; unfold sat_add; lia).
  change (phase (view r1)) with (phase (view r)). rewrite closed_not_active.
  destruct (negb (active_phase (phase (view r))) && platform_callback e) eqn:Hcl.
  { split; cbn; try done. intros Hp. specialize (Hc Hp). destruct r as [v w], v. cbn in *.
    injection Hc. intros. by subst. }
  assert (Hrun : platform_callback e = true -> rust_runtime_running (view r) = true).
  { intros Hcb. rewrite Hcb, andb_true_r in Hcl. apply Hr. by apply negb_false_iff in Hcl. }
  clear Hcl. destruct e as [| | | | |pr st di sc rv| | | | | |]; cbn [platform_callback] in Hrun.
  - by apply (reset_phase_wf r1 Stopped_).
  - by apply reset_phase_wf.
  - by apply set_phase_wf; cbn; auto.
  - apply set_phase_wf; cbn; try done. destruct (was_authenticated r); auto.
  - apply set_phase_wf; cbn; try done. destruct (was_authenticated r); auto.
  - apply recompute_health_wf; cbn; [done|by apply Hrun|by intros ->|by intros ->; rewrite orb_true_r].
  - apply set_phase_wf; cbn; auto; done.
  - apply recompute_health_wf; cbn; auto; done.
  - apply set_phase_wf; cbn; auto; try done. destruct (tun_open (view r)); auto.
  - apply set_phase_wf; cbn; auto 6; done.
  - by apply (reset_phase_wf r1 Stopped_).
  - by apply reset_phase_wf.
Qed.

(** ** The scheduler *)

(** After a poll at [now], the reference times are at most an interval old. *)
Record sched_wf (s : RuntimeScheduler) : Prop := {
  sc_keepalive : is_Some (polled_at_millis s) <-> is_Some (keepalive_at_millis s);
  sc_recent : forall p k, polled_at_millis s = Some p -> keepalive_at_millis s = Some k ->
    k <= p /\ p - k < KEEPALIVE_INTERVAL_MILLIS;
  sc_health : forall p h, polled_at_millis s = Some p -> health_at_millis s = Some h ->
    h <= p /\ p - h < HEALTH_INTERVAL_MILLIS;
  sc_start : polled_at_millis s = None -> health_at_millis s = None;
}.
Lemma scheduler_default_wf : sched_wf scheduler_default.
Proof. by split. Qed.

Lemma poll_wf now h s r s' : sched_wf s -> poll now h s = (r, s') -> sched_wf s'.
Proof.
  intros Hw. unfold poll.
  set (s1 := if is_some_and _ _ then scheduler_default else s).
  assert (Hs1 : sched_wf s1 /\ forall p, polled_at_millis s1 = Some p -> p <= now).
  { unfold s1. destruct (polled_at_millis s) as [p|] eqn:Hp; cbn.
    - destruct (N.ltb_spec now p).
      + split; [apply scheduler_default_wf|done].
      + split; [done|]. rewrite Hp. by intros q [= <-].
    - split; [done|]. by rewrite Hp. }
  destruct Hs1 as [[Hk Hr Hh Hst] Hp]. clearbody s1. clear Hw s. intros [= <- <-].
  destruct s1 as [[p|] [k|] hm hf]; cbn in *.
  2,3: exfalso; destruct Hk as [Hk1 Hk2]; (by destruct Hk1) || (by destruct Hk2).
  - specialize (Hr _ _ eq_refl eq_refl). specialize (Hp _ eq_refl).
    assert (Hh' : forall x, hm = Some x -> x <= p /\ p - x < HEALTH_INTERVAL_MILLIS) by (intros x Hx; by apply Hh).
    split; cbn; [by destruct (_ <=? _)| | |done].
    + intros q j [= <-]. destruct (N.leb_spec KEEPALIVE_INTERVAL_MILLIS (now - k)); intros [= <-];
        unfold KEEPALIVE_INTERVAL_MILLIS in *; lia.
    + intros q j [= <-]. destruct (_ || _) eqn:Hrep; [intros [= <-]; unfold HEALTH_INTERVAL_MILLIS; lia|].
      intros Hj. destruct (Hh' _ Hj) as [? _]. apply orb_false_iff in Hrep as [_ Hrep]. rewrite Hj in Hrep.
      cbn in Hrep. apply N.leb_gt in Hrep. lia.
  - rewrite (Hst eq_refl) in *. split; cbn; [done| | |done].
    + intros q j [= <-] [= <-]. unfold KEEPALIVE_INTERVAL_MILLIS. lia.
    + intros q j [= <-]. destruct (_ || _); [intros [= <-]; unfold HEALTH_INTERVAL_MILLIS; lia|done].
Qed.

(** Poll at each time of a list. *)
Fixpoint poll_all (s : RuntimeScheduler) (polls : list (N * RuntimeHealthFingerprint))
    : list RuntimeSchedule * RuntimeScheduler :=
  match polls with
  | [] => ([], s)
  | (now, h) :: polls' =>
      let '(r, s) := poll now h s in let '(rs, s) := poll_all s polls' in (r :: rs, s)
  end.
Definition keepalives (rs : list RuntimeSchedule) : N := lenN (filter (fun r => send_keepalive r = true) rs).


Lemma poll_keepalive now h s r s' k p :
  poll now h s = (r, s') -> polled_at_millis s = Some p -> keepalive_at_millis s = Some k -> p <= now ->
  polled_at_millis s' = Some now /\ exists k', keepalive_at_millis s' = Some k' /\
    k + (if send_keepalive r then KEEPALIVE_INTERVAL_MILLIS else 0) <= k'.
Proof.
  intros Hp Hpo Hk Hle. unfold poll in Hp. rewrite Hpo in Hp. cbn [is_some_and] in Hp.
  destruct (N.ltb_spec now p); [lia|]. rewrite Hk in Hp. cbn [is_some_and] in Hp.
  destruct (N.leb_spec KEEPALIVE_INTERVAL_MILLIS (now - k)) as [Hd|Hd]; injection Hp as <- <-;
    cbn [send_keepalive polled_at_millis keepalive_at_millis]; (split; [done|]); eexists; (split; [done|]).
  - unfold KEEPALIVE_INTERVAL_MILLIS in *. lia.
  - lia.
Qed.

Lemma poll_all_keepalives polls s rs s' k p :
  poll_all s polls = (rs, s') -> polled_at_millis s = Some p -> keepalive_at_millis s = Some k ->
  StronglySorted N.le (p :: polls.*1) ->
  polled_at_millis s' = Some (default p (last polls.*1)) /\
  exists k', keepalive_at_millis s' = Some k' /\ k + keepalives rs * KEEPALIVE_INTERVAL_MILLIS <= k'.
Proof.
  revert s rs k p. induction polls as [|[now h] polls IH]; intros s rs k p Hrun Hp Hk Hs; cbn [poll_all] in Hrun.
  - injection Hrun as <- <-. split; [done|]. exists k. split; [done|]. change (keepalives []) with 0. lia.
  - destruct (poll now h s) as [r s1] eqn:Hpoll. destruct (poll_all s1 polls) as [rs2 s2] eqn:Hall.
    injection Hrun as <- <-. apply StronglySorted_inv in Hs as [Hs Hle]. cbn in Hle.
    apply Forall_cons in Hle as [Hle _].
    destruct (poll_keepalive _ _ _ _ _ _ _ Hpoll Hp Hk Hle) as (Hp1 & k1 & Hk1 & Hadd).
    destruct (IH _ _ _ _ Hall Hp1 Hk1 Hs) as (Hp2 & k2 & Hk2 & Hadd2).
    split.
    + rewrite Hp2. cbn [fmap list_fmap fst]. rewrite last_cons. by destruct (last _).
    + exists k2. split; [done|]. unfold keepalives in *. rewrite filter_cons.
      destruct (send_keepalive r) eqn:Hr; [rewrite decide_True by done; rewrite lenN_cons|rewrite decide_False by done];
        unfold KEEPALIVE_INTERVAL_MILLIS in *; lia.
Qed.

(** ** Theorems *)

(** No false health.  After any events whatever, [Healthy] is reported only
    with the TUN open, its packet pump running, the underlay available, the
    primary Relay authenticated and a complete signed state of positive revision;
    every active phase has the runtime running; and a reset, stopped, failed or
    unpermitted runtime shows no leftover of the previous one. *)
Theorem healthy_is_proved events :
  let v := view (foldl (fun r e => transition e r) runtime_default events) in
  (phase v = Healthy ->
    tun_open v = true /\ packet_pump_running v = true /\ underlay_available v = true /\
    primary_relay_authenticated v = true /\ signed_state_complete v = true /\ 0 < signed_state_revision v) /\
  (active_phase (phase v) = true -> rust_runtime_running v = true) /\
  (phase v = Stopped_ \/ phase v = PermissionRequired_ \/ phase v = Failed_ ->
    v = with_phase (phase v) (view (set_sequence (sequence v) runtime_default))).
Proof.
  cbn zeta. assert (Hw : rt_wf (foldl (fun r e => transition e r) runtime_default events)).
  { assert (H0 : rt_wf runtime_default) by (by split; cbn).
    revert H0. generalize runtime_default. induction events as [|e es IH]; intros r Hr; [done|].
    cbn. by apply IH, transition_wf. }
  by destruct Hw.
Qed.

(** Late callbacks cannot reopen a runtime.  Once it is stopped, stopping,
    failed or without permission, any number of TUN, transport and underlay
    callbacks leave the view as it is but for its sequence number, and the only
    event that leads to an active phase is an explicit start. *)
Theorem closed_stays_closed r :
  closed_phase (phase (view r)) = true ->
  (forall events, Forall (fun e => platform_callback e = true) events ->
    let r' := foldl (fun r e => transition e r) r events in
    r' = set_sequence (sequence (view r')) r) /\
  (forall e, active_phase (phase (view (transition e r))) = true -> e = StartRequested).
Proof.
  intros Hc. split.
  - intros events Hev. cbn zeta. revert r Hc. induction Hev as [|e es He _ IH]; intros r Hc; cbn [foldl].
    { by destruct r as [[] ?]. }
    assert (Ht : transition e r = set_sequence (sat_add (sequence (view r)) 1) r).
    { unfold transition. cbn [view set_sequence phase]. by rewrite Hc, He. }
    rewrite Ht, IH by done. by destruct r as [[] ?].
  - intros e. unfold transition. cbn [view set_sequence phase]. rewrite Hc.
    destruct e; cbn [platform_callback andb]; try done;
      (rewrite closed_not_active in Hc; apply negb_true_iff in Hc; cbn; congruence).
Qed.

(** Pacing.  Polled at non-decreasing times, the scheduler asks for at most
    one keepalive per ten seconds elapsed; after every poll the last keepalive
    mark is less than ten seconds and the last health report less than thirty
    seconds old; and a clock that runs backwards never causes a keepalive. *)
Theorem scheduler_paced t0 h0 polls rs s :
  StronglySorted N.le (t0 :: polls.*1) -> poll_all scheduler_default ((t0, h0) :: polls) = (rs, s) ->
  keepalives rs * KEEPALIVE_INTERVAL_MILLIS <= default t0 (last polls.*1) - t0 /\
  sched_wf s /\
  forall now h p, polled_at_millis s = Some p -> now < p -> send_keepalive (poll now h s).1 = false.
Proof.
  intros Hs Hrun. cbn [poll_all] in Hrun. destruct (poll t0 h0 scheduler_default) as [r s1] eqn:Hp.
  destruct (poll_all s1 polls) as [rs2 s2] eqn:Hall. injection Hrun as <- <-.
  assert (Hw : forall polls s rs s', sched_wf s -> poll_all s polls = (rs, s') -> sched_wf s').
  { clear. induction polls as [|[n h] polls IH]; intros s rs s' Hw; cbn [poll_all]; [by intros [= _ <-]|].
    destruct (poll n h s) as [r s1] eqn:Hp. destruct (poll_all s1 polls) as [rs2 s2] eqn:Ha.
    intros [= _ <-]. eapply IH; [|exact Ha]. by eapply poll_wf. }
  assert (Hw1 : sched_wf s1) by (eapply poll_wf; [apply scheduler_default_wf|exact Hp]).
  assert (Hw2 : sched_wf s2) by (by eapply Hw).
  injection Hp as <- <-.
  destruct (poll_all_keepalives _ _ _ _ t0 t0 Hall eq_refl eq_refl Hs) as (Hp2 & k' & Hk' & Hle).
  split_and!; [|done|].
  - unfold keepalives in *. rewrite filter_cons, decide_False by done.
    destruct (sc_recent _ Hw2 _ _ Hp2 Hk') as [Hkp _]. unfold KEEPALIVE_INTERVAL_MILLIS in *. lia.
  - intros now h p Hpo Hlt. unfold poll. rewrite Hpo. cbn [is_some_and].
    by apply N.ltb_lt in Hlt as ->.
Qed.

Lemma closed_stays_closed_witness :
  closed_phase (phase (view runtime_default)) = true /\
  phase (view (foldl (fun r e => transition e r) runtime_default [TunOpened; UnderlayRestored])) = Stopped_.
Proof.
  split; [reflexivity|].
  assert (Hc : closed_phase (phase (view runtime_default)) = true) by reflexivity.
  destruct (closed_stays_closed runtime_default Hc) as [H _].
  rewrite (H [TunOpened; UnderlayRestored]); [reflexivity|repeat constructor].
Defined.

Definition example_health : RuntimeHealthFingerprint := mkFingerprint 0 true 1 0 true 7 0.
Definition example_polls : list (N * RuntimeHealthFingerprint) :=
  [(10_100, example_health); (20_099, example_health)].
Definition example_run : list RuntimeSchedule * RuntimeScheduler :=
  poll_all scheduler_default ((100, example_health) :: example_polls).
Lemma scheduler_paced_witness :
  keepalives example_run.1 = 1 /\
  keepalives example_run.1 * KEEPALIVE_INTERVAL_MILLIS <= 20_099 - 100.
Proof.
  split; [vm_compute; reflexivity|].
  assert (Hs : StronglySorted N.le (100 :: example_polls.*1)).
  { change (StronglySorted N.le [100; 10_100; 20_099]).
    repeat first [apply SSorted_nil | apply SSorted_cons | apply List.Forall_nil | apply List.Forall_cons]; lia. }
  exact (proj1 (scheduler_paced 100 example_health example_polls example_run.1 example_run.2 Hs
    (surjective_pairing _))).
Defined.


End Rt.
