(* ===== verification/RelayPool.v ===== *)
(** * The relay pool of a peer (crate [peerward-peer-core], relay_pool.rs)

    Selection, promotion, replacement and retry of at most three Relay slots.
    Every connection attempt has a request identity and a generation; the
    generation is what fences inbound delivery. *)

From S2P Require Import Prelude PeerRuntime.
From Stdlib Require Import NArith Lia.
From stdpp Require Import base tactics decidable numbers list relations.
Set Default Goal Selector "!".
Local Open Scope N_scope.

Module Rp.

Definition MAX_RELAY_SLOTS : N := 3.

Record RelayConnectRequest := mkRequest {
  rq_request_id : N;
  rq_slot : N;
  rq_endpoint_index : N;
  rq_candidate_generation : N;
  rq_replacing_generation : option N;
}.
Record RelayRoute := mkRoute { rt_slot : N; rt_generation : N }.
#[export] Instance RelayRoute_eq_dec : EqDecision RelayRoute.
Proof. solve_decision. Defined.
Record RelayConnectCommit := mkCommit {
  cm_slot : N;
  cm_generation : N;
  replaced_generation : option N;
  cm_primary : option RelayRoute;
}.
Inductive RelayPoolError := InvalidConfiguration | Stale | Exhausted.
#[export] Instance RelayPoolError_eq_dec : EqDecision RelayPoolError.
Proof. solve_decision. Defined.

Record PendingConnect := mkPending {
  request_id : N;
  endpoint_index : N;
  candidate_generation : N;
  replacing_generation : option N;
}.
Record RelaySlot := mkSlot {
  endpoint_count : N;
  next_endpoint : N;
  active_endpoint : option N;
  active_generation : option N;
  pending : option PendingConnect;
  due_millis : option N;
  attempt : N;
}.
Record RelayPoolOrchestrator := mkPool {
  slots : list RelaySlot;
  next_request_id : N;
  next_generation : N;
  closed : bool;
}.

Definition slot_new (endpoint_count : N) : RelaySlot :=
  mkSlot endpoint_count 0 None None None (Some 0) 0.
Definition new (endpoint_counts : list N) : outcome RelayPoolError RelayPoolOrchestrator :=
  if (lenN endpoint_counts =? 0) || (MAX_RELAY_SLOTS <? lenN endpoint_counts)
     || existsb (N.eqb 0) endpoint_counts
  then Err InvalidConfiguration
  else Ok (mkPool (slot_new <$> endpoint_counts) 1 1 false).

(** [u8::try_from(slot).map_err(..)] *)
Definition slot_u8 (i : N) : outcome RelayPoolError N :=
  if i <=? U8_MAX then Ok i else Err Exhausted.

(** [poll]'s loop over the slots: what was done before an error stays done, so
    the state is returned with the [Result]. *)
Definition due_now (now_millis : N) (slot : RelaySlot) : bool :=
  match pending slot, due_millis slot with
  | None, Some due => due <=? now_millis
  | _, _ => false
  end.
Definition start_connect (request generation : N) (slot : RelaySlot) : RelaySlot :=
  mkSlot (endpoint_count slot) (next_endpoint slot) (active_endpoint slot) (active_generation slot)
    (Some (mkPending request (next_endpoint slot) generation (active_generation slot)))
    None (attempt slot).
Fixpoint poll_slots (now_millis : N) (index : N) (done todo : list RelaySlot)
    (next_request next_gen : N) (requests : list RelayConnectRequest)
    : RelayPoolOrchestrator * outcome RelayPoolError (list RelayConnectRequest) :=
  match todo with
  | [] => (mkPool done next_request next_gen false, Ok requests)
  | slot :: todo' =>
      if negb (due_now now_millis slot)
      then poll_slots now_millis (index + 1) (done ++ [slot]) todo' next_request next_gen requests
      else
        match checked_add next_request 1 with
        | None => (mkPool (done ++ todo) next_request next_gen false, Err Exhausted)
        | Some next_request' =>
            match checked_add next_gen 1 with
            | None => (mkPool (done ++ todo) next_request' next_gen false, Err Exhausted)
            | Some next_gen' =>
                let slot' := start_connect next_request next_gen slot in
                match slot_u8 index with
                | Ok i =>
                    poll_slots now_millis (index + 1) (done ++ [slot']) todo' next_request' next_gen'
                      (requests ++ [mkRequest next_request i (next_endpoint slot) next_gen
                                      (active_generation slot)])
                | Err e => (mkPool (done ++ slot' :: todo') next_request' next_gen' false, Err e)
                | Panic => (mkPool (done ++ slot' :: todo') next_request' next_gen' false, Panic)
                end
            end
        end
  end.
Definition poll (now_millis : N) (self : RelayPoolOrchestrator)
    : RelayPoolOrchestrator * outcome RelayPoolError (list RelayConnectRequest) :=
  if closed self then (self, Ok [])
  else poll_slots now_millis 0 [] (slots self) (next_request_id self) (next_generation self) [].

(** [slots.iter().enumerate().find_map(..)] *)
Fixpoint find_slot {A} (f : RelaySlot -> option A) (index : N) (l : list RelaySlot) : option (N * A) :=
  match l with
  | [] => None
  | slot :: l' => match f slot with Some a => Some (index, a) | None => find_slot f (index + 1) l' end
  end.

(** The [expect] of [primary] cannot fail: the index is below [MAX_RELAY_SLOTS]. *)
Definition primary (self : RelayPoolOrchestrator) : option RelayRoute :=
  (fun p => mkRoute p.1 p.2) <$> find_slot active_generation 0 (slots self).

Definition entropy_of (slot_index endpoint : N) : N := N.lor (N.shiftl slot_index 32) endpoint.
Definition schedule_retry (slot_index endpoint now_millis : N) (slot : RelaySlot) : RelaySlot :=
  let delay := Rt.reconnect_delay (attempt slot) (entropy_of slot_index endpoint) in
  mkSlot (endpoint_count slot) ((endpoint + 1) mod endpoint_count slot) (active_endpoint slot)
    (active_generation slot) (pending slot) (Some (sat_add now_millis delay))
    (N.min (N.min (attempt slot + 1) U8_MAX) 6).

Definition set_slot (i : N) (slot : RelaySlot) (self : RelayPoolOrchestrator) : RelayPoolOrchestrator :=
  mkPool (<[N.to_nat i := slot]> (slots self)) (next_request_id self) (next_generation self)
    (closed self).
Definition without_pending (slot : RelaySlot) : RelaySlot :=
  mkSlot (endpoint_count slot) (next_endpoint slot) (active_endpoint slot) (active_generation slot)
    None (due_millis slot) (attempt slot).

Definition pending_request (id : N) (slot : RelaySlot) : option PendingConnect :=
  match pending slot with
  | Some p => if request_id p =? id then Some p else None
  | None => None
  end.
Definition complete (id : N) (success : bool) (now_millis : N) (self : RelayPoolOrchestrator)
    : RelayPoolOrchestrator * outcome RelayPoolError (option RelayConnectCommit) :=
  match find_slot (pending_request id) 0 (slots self) with
  | None => (self, Err Stale)
  | Some (slot_index, p) =>
      match slots self !! N.to_nat slot_index with
      | None => (self, Panic)
      | Some slot =>
          let slot := without_pending slot in
          if negb success then
            (set_slot slot_index (schedule_retry slot_index (endpoint_index p) now_millis slot) self,
             Ok None)
          else if closed self || negb (bool_decide (active_generation slot = replacing_generation p))
          then (set_slot slot_index slot self, Err Stale)
          else
            let self := set_slot slot_index
              (mkSlot (endpoint_count slot) (next_endpoint slot) (Some (endpoint_index p))
                 (Some (candidate_generation p)) None None 0) self in
            match slot_u8 slot_index with
            | Ok i => (self, Ok (Some (mkCommit i (candidate_generation p) (active_generation slot)
                                         (primary self))))
            | Err e => (self, Err e)
            | Panic => (self, Panic)
            end
      end
  end.

Definition failed (route : RelayRoute) (now_millis : N) (self : RelayPoolOrchestrator)
    : RelayPoolOrchestrator * outcome RelayPoolError (option RelayRoute) :=
  match slots self !! N.to_nat (rt_slot route) with
  | None => (self, Err Stale)
  | Some slot =>
      if negb (bool_decide (active_generation slot = Some (rt_generation route)))
      then (self, Err Stale) else
      let cleared := mkSlot (endpoint_count slot) (next_endpoint slot) None None None
                       (due_millis slot) (attempt slot) in
      match active_endpoint slot with
      | None => (set_slot (rt_slot route) cleared self, Err Stale)
      | Some endpoint =>
          let self := set_slot (rt_slot route)
            (schedule_retry (rt_slot route) endpoint now_millis cleared) self in
          (self, Ok (primary self))
      end
  end.

Definition refresh (route : RelayRoute) (now_millis : N) (self : RelayPoolOrchestrator)
    : RelayPoolOrchestrator * outcome RelayPoolError unit :=
  match slots self !! N.to_nat (rt_slot route) with
  | None => (self, Err Stale)
  | Some slot =>
      if negb (bool_decide (active_generation slot = Some (rt_generation route)))
      then (self, Err Stale)
      else match pending slot with
           | Some _ => (self, Ok tt)
           | None =>
               (set_slot (rt_slot route)
                  (mkSlot (endpoint_count slot) 0 (active_endpoint slot) (active_generation slot)
                     None (Some now_millis) 0) self, Ok tt)
           end
  end.

(** [slots.iter().enumerate().filter_map(..)] *)
Fixpoint active_from (index : N) (l : list RelaySlot) : list RelayRoute :=
  match l with
  | [] => []
  | slot :: l' =>
      match active_generation slot with
      | Some generation => mkRoute index generation :: active_from (index + 1) l'
      | None => active_from (index + 1) l'
      end
  end.
Definition active (self : RelayPoolOrchestrator) : list RelayRoute := active_from 0 (slots self).

Definition accepts_inbound (route : RelayRoute) (self : RelayPoolOrchestrator) : bool :=
  negb (closed self) && bool_decide (primary self = Some route).

Definition min_list (l : list N) : option N :=
  match l with [] => None | x :: l' => Some (foldr N.min x l') end.
Definition next_poll_millis (now_millis : N) (self : RelayPoolOrchestrator) : N :=
  N.min (default 1000 (min_list ((fun due => N.max (due - now_millis) 1) <$> omap due_millis (slots self))))
    10000.

Definition close_slot (slot : RelaySlot) : RelaySlot :=
  mkSlot (endpoint_count slot) (next_endpoint slot) None None None None (attempt slot).
Definition close (self : RelayPoolOrchestrator) : RelayPoolOrchestrator * list RelayRoute :=
  (mkPool (close_slot <$> slots self) (next_request_id self) (next_generation self) true, active self).

(** ** Invariant *)

Definition gens (s : RelaySlot) : list N :=
  option_list (active_generation s) ++ option_list (candidate_generation <$> pending s).

Record slot_ok (nr ng : N) (is_closed : bool) (s : RelaySlot) : Prop := {
  so_count : 0 < endpoint_count s <= U16_MAX;
  so_next : next_endpoint s < endpoint_count s;
  so_endpoint : is_Some (active_endpoint s) <-> is_Some (active_generation s);
  so_active_endpoint : forall e, active_endpoint s = Some e -> e < endpoint_count s;
  so_active : forall g, active_generation s = Some g -> g < ng;
  so_pending : forall p, pending s = Some p ->
    endpoint_index p < endpoint_count s /\ request_id p < nr /\ candidate_generation p < ng /\
    replacing_generation p = active_generation s /\
    active_generation s <> Some (candidate_generation p) /\ due_millis s = None;
  so_attempt : attempt s <= 6;
  so_live : is_closed = false -> active_generation s = None -> pending s = None -> is_Some (due_millis s);
  so_closed : is_closed = true -> active_generation s = None /\ pending s = None /\ due_millis s = None;
}.

Record pool_wf (p : RelayPoolOrchestrator) : Prop := {
  pl_len : 0 < lenN (slots p) <= MAX_RELAY_SLOTS;
  pl_slot : forall i s, slots p !! i = Some s -> slot_ok (next_request_id p) (next_generation p) (closed p) s;
  pl_gen : forall i j si sj g, slots p !! i = Some si -> slots p !! j = Some sj ->
    g ∈ gens si -> g ∈ gens sj -> i = j;
  pl_req : forall i j si sj pi pj, slots p !! i = Some si -> slots p !! j = Some sj ->
    pending si = Some pi -> pending sj = Some pj -> request_id pi = request_id pj -> i = j;
}.

(** A generation that was handed out and is neither active nor a candidate. *)
Definition dead (g : N) (p : RelayPoolOrchestrator) : Prop :=
  g < next_generation p /\ forall i s, slots p !! i = Some s -> g ∉ gens s.

Definition evolves (p p' : RelayPoolOrchestrator) : Prop :=
  pool_wf p' /\ length (slots p') = length (slots p) /\ (closed p = true -> closed p' = true) /\
  forall g, dead g p -> dead g p'.

Lemma evolves_refl p : pool_wf p -> evolves p p.
Proof. by intros Hw. Qed.
Lemma evolves_trans p q r : evolves p q -> evolves q r -> evolves p r.
Proof.
  intros (_ & Hl & Hc & Hd) (Hw & Hl' & Hc' & Hd'). split; [done|]. split; [congruence|]. split; auto.
Qed.

Lemma gens_lt nr ng c s g : slot_ok nr ng c s -> g ∈ gens s -> g < ng.
Proof.
  intros Hs [Hg|Hg]%elem_of_app.
  - destruct (active_generation s) eqn:Ha; [|by apply not_elem_of_nil in Hg].
    apply list_elem_of_singleton in Hg as ->. by eapply so_active.
  - destruct (pending s) eqn:Hp; [|by apply not_elem_of_nil in Hg].
    apply list_elem_of_singleton in Hg as ->. by apply (so_pending _ _ _ _ Hs) in Hp as (_ & _ & ? & _).
Qed.

Lemma slot_ok_mono nr ng nr' ng' c s :
  nr <= nr' -> ng <= ng' -> slot_ok nr ng c s -> slot_ok nr' ng' c s.
Proof.
  intros Hr Hg [H1 H2 H3 H4 H5 H6 H7 H8 H9]. split; try done.
  - intros g Ha. specialize (H5 _ Ha). lia.
  - intros p Hp. destruct (H6 _ Hp) as (? & ? & ? & ? & ? & ?). split_and!; (done || lia).
Qed.

(** Replacing one slot: its generations and request are kept, dropped or new. *)
Lemma set_slot_evolves p i s s' nr' ng' :
  pool_wf p -> slots p !! i = Some s -> next_request_id p <= nr' -> next_generation p <= ng' ->
  slot_ok nr' ng' (closed p) s' ->
  (forall g, g ∈ gens s' -> g ∈ gens s \/ next_generation p <= g) ->
  (forall q', pending s' = Some q' ->
     (exists q, pending s = Some q /\ request_id q = request_id q') \/ next_request_id p <= request_id q') ->
  evolves p (mkPool (<[i := s']> (slots p)) nr' ng' (closed p)).
Proof.
  intros Hw Hi Hr Hg Hok Hgen Hreq. pose proof Hw as [H1 H2 H3 H4].
  assert (Hl : (i < length (slots p))%nat) by by eapply lookup_lt_Some.
  assert (Hcase : forall j t, <[i := s']> (slots p) !! j = Some t ->
    j = i /\ t = s' \/ j <> i /\ slots p !! j = Some t).
  { intros j t Hj. destruct (decide (j = i)) as [->|Hne].
    - rewrite list_lookup_insert_eq in Hj by done. left. by injection Hj.
    - rewrite list_lookup_insert_ne in Hj by done. by right. }
  assert (Hfresh : forall j t g, slots p !! j = Some t -> g ∈ gens t -> g < next_generation p)
    by (intros j t g Hj; eapply gens_lt; by eapply H2).
  assert (Hstale : forall j t q, slots p !! j = Some t -> pending t = Some q -> request_id q < next_request_id p)
    by (intros j t q Hj Hq; by apply (so_pending _ _ _ _ (H2 _ _ Hj)) in Hq as (_ & ? & _)).
  split; [split; cbn|split; [|split]].
  - unfold lenN in *. by rewrite length_insert.
  - intros j t [[-> ->]|[_ Hj]]%Hcase; [done|]. eapply slot_ok_mono; [exact Hr|exact Hg|by eapply H2].
  - intros j k sj sk g [[-> ->]|[Hji Hj]]%Hcase [[-> ->]|[Hki Hk]]%Hcase Hgj Hgk; [done| | |by eapply H3].
    + destruct (Hgen _ Hgj) as [Hg'|Hge]; [by eapply H3|]. pose proof (Hfresh _ _ _ Hk Hgk). lia.
    + destruct (Hgen _ Hgk) as [Hg'|Hge]; [by eapply H3|]. pose proof (Hfresh _ _ _ Hj Hgj). lia.
  - intros j k sj sk qj qk [[-> ->]|[Hji Hj]]%Hcase [[-> ->]|[Hki Hk]]%Hcase Hqj Hqk He; [done| | |by eapply H4].
    + destruct (Hreq _ Hqj) as [(q & Hq & Heq)|Hge].
      * eapply (H4 i k s sk q qk); (done || congruence).
      * pose proof (Hstale _ _ _ Hk Hqk). lia.
    + destruct (Hreq _ Hqk) as [(q & Hq & Heq)|Hge].
      * eapply (H4 j i sj s qj q); (done || congruence).
      * pose proof (Hstale _ _ _ Hj Hqj). lia.
  - cbn. by rewrite length_insert.
  - done.
  - intros g [Hlt Hd]. split; [cbn; lia|]. intros j t [[-> ->]|[_ Hj]]%Hcase; [|by eapply Hd].
    intros [Hin|Hge]%Hgen; [by eapply Hd|lia].
Qed.

Lemma new_pool_wf counts p :
  Forall (fun c => c <= U16_MAX) counts -> new counts = Ok p -> pool_wf p /\ closed p = false.
Proof.
  intros Hall. unfold new. destruct (_ || _) eqn:Hg; [done|]. intros [= <-].
  apply orb_false_iff in Hg as [[H0 H1]%orb_false_iff Hz]. apply N.eqb_neq in H0. apply N.ltb_ge in H1.
  split; [|done].
  assert (Hslot : forall i s, (slot_new <$> counts) !! i = Some s -> exists c, s = slot_new c /\ 0 < c <= U16_MAX).
  { intros i s Hi. apply list_lookup_fmap_Some in Hi as (c & -> & Hc). exists c. split; [done|].
    split; [|by eapply (proj1 (Forall_lookup _ _) Hall)].
    destruct (N.eq_dec c 0) as [->|]; [|lia]. exfalso.
    assert (existsb (N.eqb 0) counts = true); [|congruence].
    apply existsb_exists. exists 0. split; [|done]. apply list_elem_of_In. by eapply list_elem_of_lookup_2. }
  split; cbn [slots next_request_id next_generation closed].
  - unfold lenN in *. rewrite length_fmap. lia.
  - intros i s (c & -> & Hc)%Hslot. split; cbn; try (done || lia).
  - intros i j si sj g (c & -> & _)%Hslot _ Hg'. by apply not_elem_of_nil in Hg'.
  - by intros i j si sj pi pj (c & -> & _)%Hslot _ Hg'.
Qed.

Lemma checked_add_Some a b c : checked_add a b = Some c -> c = a + b.
Proof. unfold checked_add. case_match; [|done]. by intros [= <-]. Qed.

Lemma insert_middle (done todo : list RelaySlot) s s' :
  done ++ s' :: todo = <[length done := s']> (done ++ s :: todo).
Proof. by rewrite insert_app_r_alt, Nat.sub_diag by lia. Qed.

Lemma start_connect_evolves p i s :
  pool_wf p -> closed p = false -> slots p !! i = Some s -> pending s = None ->
  evolves p (mkPool (<[i := start_connect (next_request_id p) (next_generation p) s]> (slots p))
               (next_request_id p + 1) (next_generation p + 1) false).
Proof.
  intros Hw Hc Hi Hp. pose proof (pl_slot _ Hw _ _ Hi) as Hs.
  rewrite <-Hc at 1. eapply set_slot_evolves; try done; try lia.
  - rewrite Hc. destruct Hs as [H1 H2 H3 H4 H5 H6 H7 H8 H9]. rewrite Hc in *. split; cbn; try done.
    + intros g Hg. specialize (H5 _ Hg). lia.
    + intros q [= <-]; cbn. split_and!; try (done || lia). intros Hg. specialize (H5 _ Hg). lia.
  - intros g [Hg|Hg]%elem_of_app; [left; apply elem_of_app; by left|right].
    cbn in Hg. apply list_elem_of_singleton in Hg as ->. lia.
  - intros q' [= <-]; cbn. right. lia.
Qed.


Lemma bump_evolves p nr ng :
  pool_wf p -> next_request_id p <= nr -> next_generation p <= ng ->
  evolves p (mkPool (slots p) nr ng (closed p)).
Proof.
  intros [H1 H2 H3 H4] Hr Hg. split; [|split_and!; try done].
  - split; cbn; try done. intros i s Hi. eapply slot_ok_mono; [exact Hr|exact Hg|by eapply H2].
  - intros g [Hlt Hd]. split; [cbn; lia|done].
Qed.

Lemma poll_slots_evolves now todo index done nr ng reqs :
  pool_wf (mkPool (done ++ todo) nr ng false) ->
  let r := poll_slots now index done todo nr ng reqs in
  evolves (mkPool (done ++ todo) nr ng false) r.1 /\ r.2 <> Panic.
Proof.
  revert index done nr ng reqs. induction todo as [|s todo IH]; intros index dn nr ng reqs Hw; cbn zeta.
  { rewrite app_nil_r in *. cbn. split; [by apply evolves_refl|done]. }
  cbn [poll_slots]. destruct (due_now now s) eqn:Hdue; cbn [negb].
  2:{ rewrite cons_middle, app_assoc in *. by apply IH. }
  destruct (checked_add nr 1) as [nr'|] eqn:Hr; [|by split; [apply evolves_refl|]].
  apply checked_add_Some in Hr as ->.
  destruct (checked_add ng 1) as [ng'|] eqn:Hg; [|split; [apply (bump_evolves _ (nr + 1) ng Hw)|done]; cbn; lia].
  apply checked_add_Some in Hg as ->.
  assert (Hp : pending s = None) by (unfold due_now in Hdue; by case_match).
  assert (Hi : (dn ++ s :: todo) !! length dn = Some s) by by apply list_lookup_middle.
  pose proof (start_connect_evolves _ (length dn) s Hw eq_refl Hi Hp) as He. cbn in He.
  rewrite <-insert_middle in He. unfold slot_u8. destruct (index <=? U8_MAX); [|by split].
  pose proof (proj1 He) as Hw'. rewrite (cons_middle (start_connect _ _ _)), app_assoc in He, Hw'.
  destruct (IH (index + 1) _ _ _ (reqs ++ [mkRequest nr index (next_endpoint s) ng (active_generation s)]) Hw')
    as [IH1 IH2].
  split; [|exact IH2]. by eapply evolves_trans.
Qed.

Lemma poll_evolves now p : pool_wf p -> evolves p (poll now p).1 /\ (poll now p).2 <> Panic.
Proof.
  intros Hw. unfold poll. destruct (closed p) eqn:Hc; [by split; [apply evolves_refl|]|].
  assert (He : p = mkPool ([] ++ slots p) (next_request_id p) (next_generation p) false)
    by (destruct p; cbn in *; by subst).
  rewrite He at 1 2. apply poll_slots_evolves. by rewrite <-He.
Qed.

Lemma find_slot_Some {A} (f : RelaySlot -> option A) n l i a :
  find_slot f n l = Some (i, a) ->
  n <= i /\ exists s, l !! N.to_nat (i - n) = Some s /\ f s = Some a.
Proof.
  revert n. induction l as [|s l IH]; intros n; cbn; [done|].
  destruct (f s) as [b|] eqn:Hf.
  - intros [= <- <-]. split; [lia|]. exists s. by rewrite N.sub_diag.
  - intros (Hle & t & Ht & Hft)%IH. split; [lia|]. exists t. split; [|done].
    replace (N.to_nat (i - n)) with (S (N.to_nat (i - (n + 1)))) by lia. done.
Qed.

Lemma pending_request_Some id s p : pending_request id s = Some p -> pending s = Some p /\ request_id p = id.
Proof. unfold pending_request. repeat case_match; try done. intros [= ->]. split; [done|by apply N.eqb_eq]. Qed.

Lemma schedule_retry_ok nr ng i e now cnt next ae ag due att :
  0 < cnt <= U16_MAX -> e < cnt -> (is_Some ae <-> is_Some ag) -> (forall e', ae = Some e' -> e' < cnt) ->
  (forall g, ag = Some g -> g < ng) ->
  slot_ok nr ng false (schedule_retry i e now (mkSlot cnt next ae ag None due att)).
Proof.
  intros. split; cbn; try done.
  - apply N.mod_lt. lia.
  - unfold U8_MAX. lia.
Qed.


(** One slot is replaced and no number is handed out. *)
Lemma set_slot_same p i s s' :
  pool_wf p -> slots p !! N.to_nat i = Some s ->
  slot_ok (next_request_id p) (next_generation p) (closed p) s' ->
  gens s' ⊆ gens s -> (pending s' = None \/ pending s' = pending s) ->
  evolves p (set_slot i s' p).
Proof.
  intros Hw Hi Hok Hg Hp. eapply set_slot_evolves; try done; try lia.
  - intros g Hin. left. by apply Hg.
  - intros q Hq. destruct Hp as [Hp|Hp]; [congruence|]. left. exists q. split; [congruence|done].
Qed.

Lemma wf_not_closed p i s :
  pool_wf p -> slots p !! i = Some s -> is_Some (pending s) \/ is_Some (active_generation s) -> closed p = false.
Proof.
  intros Hw Hi Hs. destruct (closed p) eqn:Hc; [|done].
  destruct (so_closed _ _ _ _ (pl_slot _ Hw _ _ Hi) Hc) as (Ha & Hp & _).
  rewrite Ha, Hp in Hs. by destruct Hs as [[]|[]].
Qed.

(** What [complete] does on an outstanding request. *)
Definition committed (pend : PendingConnect) (s : RelaySlot) : RelaySlot :=
  mkSlot (endpoint_count s) (next_endpoint s) (Some (endpoint_index pend))
    (Some (candidate_generation pend)) None None 0.
Lemma committed_ok nr ng c s q :
  slot_ok nr ng c s -> pending s = Some q -> c = false -> slot_ok nr ng c (committed q s).
Proof.
  intros [H1 H2 H3 H4 H5 H6 H7 H8 H9] Hq ->. destruct (H6 _ Hq) as (? & ? & ? & ? & ? & ?).
  split; cbn; try done; by intros ? [= <-].
Qed.

Lemma complete_spec id success now p i q :
  pool_wf p -> find_slot (pending_request id) 0 (slots p) = Some (i, q) ->
  exists s, slots p !! N.to_nat i = Some s /\ pending s = Some q /\ request_id q = id /\
    replacing_generation q = active_generation s /\ i <= U8_MAX /\
    complete id success now p =
      if success
      then let p' := set_slot i (committed q s) p in
        (p', Ok (Some (mkCommit i (candidate_generation q) (active_generation s) (primary p'))))
      else (set_slot i (schedule_retry i (endpoint_index q) now (without_pending s)) p, Ok None).
Proof.
  intros Hw Hf. pose proof Hf as (_ & s & Hi & Hq)%find_slot_Some. rewrite N.sub_0_r in Hi.
  apply pending_request_Some in Hq as [Hq Hid]. pose proof (pl_slot _ Hw _ _ Hi) as Hs.
  destruct (so_pending _ _ _ _ Hs _ Hq) as (_ & _ & _ & Hrep & _).
  assert (Hmax : i <= U8_MAX).
  { pose proof (pl_len _ Hw) as Hlen. apply lookup_lt_Some in Hi. unfold lenN, MAX_RELAY_SLOTS, U8_MAX in *. lia. }
  exists s. split_and!; try done. unfold complete. rewrite Hf, Hi. destruct success; cbn [negb]; [|done].
  rewrite (wf_not_closed _ _ _ Hw Hi) by (left; eauto).
  cbn [orb active_generation without_pending]. rewrite bool_decide_eq_true_2 by done. cbn [negb].
  unfold slot_u8. by apply N.leb_le in Hmax as ->.
Qed.

Lemma complete_evolves id success now p :
  pool_wf p -> evolves p (complete id success now p).1 /\ (complete id success now p).2 <> Panic.
Proof.
  intros Hw. destruct (find_slot (pending_request id) 0 (slots p)) as [[i q]|] eqn:Hf.
  2:{ unfold complete. rewrite Hf. by split; [apply evolves_refl|]. }
  destruct (complete_spec id success now p i q Hw Hf) as (s & Hi & Hq & _ & Hrep & _ & ->).
  pose proof (pl_slot _ Hw _ _ Hi) as Hs.
  pose proof (wf_not_closed _ _ _ Hw Hi (or_introl (mk_is_Some _ _ Hq))) as Hc.
  destruct success; cbn zeta; (split; [|done]); apply (set_slot_same p i s); try done; try (by left).
  - by apply committed_ok.
  - intros g Hg. unfold gens in *. rewrite Hq. cbn in Hg |- *. apply list_elem_of_singleton in Hg as ->.
    apply elem_of_app. right. by apply list_elem_of_singleton.
  - rewrite Hc. destruct Hs as [H1 H2 H3 H4 H5 H6 H7 H8 H9]. apply schedule_retry_ok; try done.
    by apply H6.
  - unfold gens. cbn. rewrite app_nil_r. set_solver.
Qed.

Lemma failed_spec route now p s :
  pool_wf p -> slots p !! N.to_nat (rt_slot route) = Some s -> active_generation s = Some (rt_generation route) ->
  exists e, active_endpoint s = Some e /\
    let p' := set_slot (rt_slot route)
      (schedule_retry (rt_slot route) e now
         (mkSlot (endpoint_count s) (next_endpoint s) None None None (due_millis s) (attempt s))) p in
    failed route now p = (p', Ok (primary p')).
Proof.
  intros Hw Hi Ha. pose proof (so_endpoint _ _ _ _ (pl_slot _ Hw _ _ Hi)) as He.
  destruct (active_endpoint s) as [e|] eqn:Hae.
  - exists e. split; [done|]. unfold failed. by rewrite Hi, bool_decide_eq_true_2, Hae.
  - exfalso. rewrite Ha in He. destruct He as [_ He]. by destruct He.
Qed.
Lemma failed_stale route now p :
  (forall s, slots p !! N.to_nat (rt_slot route) = Some s -> active_generation s <> Some (rt_generation route)) ->
  failed route now p = (p, Err Stale).
Proof.
  intros Hn. unfold failed. destruct (slots p !! _) as [s|]; [|done].
  by rewrite bool_decide_eq_false_2 by by apply Hn.
Qed.

Lemma failed_evolves route now p :
  pool_wf p -> evolves p (failed route now p).1 /\ (failed route now p).2 <> Panic.
Proof.
  intros Hw.
  destruct (slots p !! N.to_nat (rt_slot route)) as [s|] eqn:Hi.
  2:{ rewrite failed_stale by congruence. by split; [apply evolves_refl|]. }
  destruct (decide (active_generation s = Some (rt_generation route))) as [Ha|Ha].
  2:{ rewrite failed_stale by congruence. by split; [apply evolves_refl|]. }
  destruct (failed_spec route now p s Hw Hi Ha) as (e & He & ->). pose proof (pl_slot _ Hw _ _ Hi) as Hs.
  split; [|done]. apply (set_slot_same p _ s); try done; [| |by left].
  - rewrite (wf_not_closed _ _ _ Hw Hi (or_intror (mk_is_Some _ _ Ha))).
    apply schedule_retry_ok; [by apply Hs|by eapply so_active_endpoint|split; by intros [? ?]|done|done].
  - unfold gens. cbn. set_solver.
Qed.

Lemma refresh_evolves route now p :
  pool_wf p -> evolves p (refresh route now p).1 /\ (refresh route now p).2 <> Panic.
Proof.
  intros Hw. pose proof (evolves_refl _ Hw) as Hr. unfold refresh.
  destruct (slots p !! _) as [s|] eqn:Hi; [|by split].
  case_bool_decide as Ha; [|by split]. cbn [negb]. destruct (pending s) eqn:Hp; [by split|].
  split; [|done]. pose proof (pl_slot _ Hw _ _ Hi) as Hs.
  pose proof (wf_not_closed _ _ _ Hw Hi (or_intror (mk_is_Some _ _ Ha))) as Hc.
  apply (set_slot_same p _ s); try done; [| |by left].
  - rewrite Hc in *. destruct Hs as [H1 H2 H3 H4 H5 H6 H7 H8 H9]. split; cbn; try done; lia.
  - unfold gens. cbn. rewrite app_nil_r. set_solver.
Qed.

Lemma close_evolves p : pool_wf p -> evolves p (close p).1.
Proof.
  intros [H1 H2 H3 H4].
  assert (Hslot : forall i s, (close_slot <$> slots p) !! i = Some s -> exists t, s = close_slot t /\ slots p !! i = Some t).
  { intros i s (t & -> & Ht)%list_lookup_fmap_Some. by exists t. }
  split; [split; cbn|split_and!; cbn; [by rewrite length_fmap|done|]].
  - unfold lenN in *. by rewrite length_fmap.
  - intros i s (t & -> & Ht)%Hslot. destruct (H2 _ _ Ht) as [S1 S2 S3 S4 S5 S6 S7 S8 S9]. by split; cbn.
  - intros i j si sj g (t & -> & Ht)%Hslot _ Hg. by apply not_elem_of_nil in Hg.
  - by intros i j si sj pi pj (t & -> & Ht)%Hslot _ Hp.
  - intros g [Hlt Hd]. split; [done|]. intros i s (t & -> & Ht)%Hslot. apply not_elem_of_nil.
Qed.


(** ** Runs *)

Inductive Op :=
  | OPoll (now : N)
  | OComplete (id : N) (success : bool) (now : N)
  | OFailed (route : RelayRoute) (now : N)
  | ORefresh (route : RelayRoute) (now : N)
  | OClose.
Definition step (p : RelayPoolOrchestrator) (o : Op) : RelayPoolOrchestrator :=
  match o with
  | OPoll now => (poll now p).1
  | OComplete id success now => (complete id success now p).1
  | OFailed route now => (failed route now p).1
  | ORefresh route now => (refresh route now p).1
  | OClose => (close p).1
  end.
Definition aborts (p : RelayPoolOrchestrator) (o : Op) : Prop :=
  match o with
  | OPoll now => (poll now p).2 = Panic
  | OComplete id success now => (complete id success now p).2 = Panic
  | OFailed route now => (failed route now p).2 = Panic
  | ORefresh route now => (refresh route now p).2 = Panic
  | OClose => False
  end.
Definition run : list Op -> RelayPoolOrchestrator -> RelayPoolOrchestrator := flip (foldl step).

Lemma step_evolves p o : pool_wf p -> evolves p (step p o) /\ ~ aborts p o.
Proof.
  intros Hw. destruct o; cbn.
  - by apply poll_evolves.
  - by apply complete_evolves.
  - by apply failed_evolves.
  - by apply refresh_evolves.
  - split; [by apply close_evolves|by intros []].
Qed.
Lemma run_evolves ops p : pool_wf p -> evolves p (run ops p).
Proof.
  revert p. induction ops as [|o ops IH]; intros p Hw; [by apply evolves_refl|].
  destruct (step_evolves p o Hw) as [He _]. eapply evolves_trans; [exact He|]. apply IH, He.
Qed.

Lemma active_from_elem n l r :
  r ∈ active_from n l <->
  n <= rt_slot r /\ exists s, l !! N.to_nat (rt_slot r - n) = Some s /\ active_generation s = Some (rt_generation r).
Proof.
  revert n. induction l as [|s l IH]; intros n; cbn [active_from].
  { split; [by intros ?%not_elem_of_nil|]. intros (_ & s & Hs & _). by rewrite lookup_nil in Hs. }
  assert (Hrest : r ∈ active_from (n + 1) l <->
    n < rt_slot r /\ exists t, (s :: l) !! N.to_nat (rt_slot r - n) = Some t /\ active_generation t = Some (rt_generation r)).
  { rewrite IH. split; intros [Hle (t & Ht & Hg)]; (split; [lia|]); exists t; (split; [|done]).
    - by replace (N.to_nat (rt_slot r - n)) with (S (N.to_nat (rt_slot r - (n + 1)))) by lia.
    - by replace (N.to_nat (rt_slot r - n)) with (S (N.to_nat (rt_slot r - (n + 1)))) in Ht by lia. }
  destruct (active_generation s) as [g|] eqn:Hg; rewrite ?elem_of_cons, Hrest; clear IH Hrest.
  - split.
    + intros [->|[Hlt He]]; [|by split; [lia|]]. cbn. rewrite N.sub_diag. split; [lia|]. by exists s.
    + intros [Hle He]. destruct (decide (n = rt_slot r)) as [->|]; [|right; split; [lia|done]].
      destruct He as (t & Ht & Hgt). rewrite N.sub_diag in Ht. injection Ht as <-.
      left. destruct r; cbn in *. congruence.
  - split; [intros [? ?]; by split; [lia|]|]. intros [Hle He]. split; [|done].
    destruct (decide (n = rt_slot r)) as [->|]; [|lia].
    destruct He as (t & Ht & Hgt). rewrite N.sub_diag in Ht. injection Ht as <-. congruence.
Qed.
Lemma active_elem p r :
  r ∈ active p <-> exists s, slots p !! N.to_nat (rt_slot r) = Some s /\ active_generation s = Some (rt_generation r).
Proof.
  unfold active. rewrite active_from_elem, N.sub_0_r. split; [by intros [_ H]|intros H]. split; [lia|done].
Qed.
Lemma primary_head p : primary p = head (active p).
Proof.
  unfold primary, active. generalize 0. induction (slots p) as [|s l IH]; intros n; cbn; [done|].
  by destruct (active_generation s).
Qed.
Lemma dead_not_active p g slot : dead g p -> mkRoute slot g ∉ active p.
Proof.
  intros [_ Hd] (s & Hs & Hg)%active_elem. cbn in *. apply (Hd _ _ Hs).
  apply elem_of_app. left. rewrite Hg. by apply list_elem_of_singleton.
Qed.
Lemma accepts_active p r : accepts_inbound r p = true -> r ∈ active p.
Proof.
  intros [_ Hp%bool_decide_eq_true]%andb_true_iff. rewrite primary_head in Hp.
  destruct (active p); [done|]. injection Hp as ->. left.
Qed.
Lemma active_gens p r : r ∈ active p -> exists s, slots p !! N.to_nat (rt_slot r) = Some s /\ rt_generation r ∈ gens s.
Proof.
  intros (s & Hs & Hg)%active_elem. exists s. split; [done|]. apply elem_of_app. left. rewrite Hg.
  by apply list_elem_of_singleton.
Qed.


(** What one pass over the slots requests. *)
Definition requested (index : N) (l : list RelaySlot) (now : N) (rq : RelayConnectRequest) : Prop :=
  exists s, index <= rq_slot rq /\ l !! N.to_nat (rq_slot rq - index) = Some s /\ due_now now s = true /\
    rq_endpoint_index rq = next_endpoint s /\ rq_replacing_generation rq = active_generation s.

Lemma requested_cons index s l now rq :
  requested (index + 1) l now rq -> requested index (s :: l) now rq.
Proof.
  intros (t & Hle & Ht & H). exists t. split; [lia|]. split; [|done].
  by replace (N.to_nat (rq_slot rq - index)) with (S (N.to_nat (rq_slot rq - (index + 1)))) by lia.
Qed.

Lemma poll_slots_spec now todo index done nr ng reqs :
  nr + lenN todo <= U64_MAX -> ng + lenN todo <= U64_MAX -> index + lenN todo <= U8_MAX + 1 ->
  exists new, (poll_slots now index done todo nr ng reqs).2 = Ok (reqs ++ new) /\
    Forall (requested index todo now) new /\
    forall j s, todo !! j = Some s -> due_now now s = true ->
      exists rq, rq ∈ new /\ rq_slot rq = index + N.of_nat j.
Proof.
  revert index done nr ng reqs. induction todo as [|s todo IH]; intros index dn nr ng reqs Hr Hg Hi; cbn [poll_slots].
  { exists []. rewrite app_nil_r. split; [done|]. split; [constructor|]. by intros j s ?. }
  rewrite lenN_cons in *. destruct (due_now now s) eqn:Hdue; cbn [negb].
  - unfold checked_add, slot_u8. rewrite !(proj2 (N.leb_le _ _)) by lia.
    destruct (IH (index + 1) (dn ++ [start_connect nr ng s]) (nr + 1) (ng + 1)
      (reqs ++ [mkRequest nr index (next_endpoint s) ng (active_generation s)])) as (new & He & Hall & Hex); try lia.
    rewrite <-app_assoc in He. eexists (_ :: new). split; [exact He|]. split.
    + constructor; [|eapply Forall_impl; [exact Hall|by apply requested_cons]].
      exists s. cbn. rewrite N.sub_diag. by split; [lia|].
    + intros [|j] t Ht Hd; [eexists; split; [left|]; cbn; lia|].
      destruct (Hex j t Ht Hd) as (rq & Hin & Heq). exists rq. split; [by right|lia].
  - destruct (IH (index + 1) (dn ++ [s]) nr ng reqs) as (new & He & Hall & Hex); try lia.
    exists new. split; [exact He|]. split; [eapply Forall_impl; [exact Hall|by apply requested_cons]|].
    intros [|j] t Ht Hd; [injection Ht as ->; congruence|].
    destruct (Hex j t Ht Hd) as (rq & Hin & Heq). exists rq. split; [done|lia].
Qed.

(** Room for the numbers one poll hands out. *)
Definition has_ids (p : RelayPoolOrchestrator) : Prop :=
  next_request_id p + lenN (slots p) <= U64_MAX /\ next_generation p + lenN (slots p) <= U64_MAX.

Lemma poll_spec now p :
  pool_wf p -> closed p = false -> has_ids p ->
  exists reqs, (poll now p).2 = Ok reqs /\ Forall (requested 0 (slots p) now) reqs /\
    forall i s, slots p !! N.to_nat i = Some s -> due_now now s = true -> exists rq, rq ∈ reqs /\ rq_slot rq = i.
Proof.
  intros Hw Hc [Hr Hg]. unfold poll. rewrite Hc. pose proof (pl_len _ Hw).
  destruct (poll_slots_spec now (slots p) 0 [] (next_request_id p) (next_generation p) []) as (new & He & Hall & Hex);
    try done.
  { unfold MAX_RELAY_SLOTS, U8_MAX in *. lia. }
  exists new. split; [done|]. split; [done|]. intros i s Hi Hd.
  destruct (Hex _ _ Hi Hd) as (rq & Hin & Heq). exists rq. split; [done|lia].
Qed.

Lemma min_list_spec l m : min_list l = Some m -> m ∈ l /\ Forall (fun x => m <= x) l.
Proof.
  destruct l as [|x l]; [done|]. intros [= <-]. induction l as [|y l [IH1 IH2]]; cbn.
  { split; [left|]. constructor; [lia|constructor]. }
  apply Forall_cons in IH2 as [Hx Hl]. split.
  - destruct (N.min_spec y (foldr N.min x l)) as [[_ ->]|[_ ->]]; [right; left|].
    apply elem_of_cons in IH1 as [->|IH1]; [left|by right; right].
  - repeat constructor; [lia|lia|]. eapply Forall_impl; [exact Hl|]. cbn. lia.
Qed.
Lemma next_poll_bounds now p : 1 <= next_poll_millis now p <= 10000.
Proof.
  unfold next_poll_millis. destruct (min_list _) as [m|] eqn:Hm; cbn [from_option]; [|by cbn].
  unfold id.
  apply min_list_spec in Hm as [(due & -> & _)%list_elem_of_fmap _]. lia.
Qed.


Lemma next_poll_covers now p s due :
  s ∈ slots p -> due_millis s = Some due -> now + next_poll_millis now p <= N.max due (now + 1).
Proof.
  intros Hs Hd. unfold next_poll_millis.
  assert (Hin : N.max (due - now) 1 ∈ (fun d => N.max (d - now) 1) <$> omap due_millis (slots p)).
  { apply list_elem_of_fmap. exists due. split; [done|]. apply list_elem_of_omap. by exists s. }
  destruct (min_list _) as [m|] eqn:Hm.
  - apply min_list_spec in Hm as [_ Hm]. pose proof (proj1 (Forall_forall _ _) Hm _ Hin) as Hle. cbn in *.
    unfold id. lia.
  - destruct (_ <$> _); [by apply not_elem_of_nil in Hin|done].
Qed.

Lemma active_from_sorted n l : NoDup (active_from n l).
Proof.
  revert n. induction l as [|s l IH]; intros n; cbn; [constructor|].
  destruct (active_generation s); [|done]. constructor; [|done].
  intros [Hle _]%active_from_elem. cbn in Hle. lia.
Qed.
Lemma active_inj p r r' :
  pool_wf p -> r ∈ active p -> r' ∈ active p -> rt_generation r = rt_generation r' -> r = r'.
Proof.
  intros Hw Hr Hr' He. pose proof (active_gens _ _ Hr) as (s & Hs & Hg).
  pose proof (active_gens _ _ Hr') as (s' & Hs' & Hg'). rewrite He in Hg.
  pose proof (pl_gen _ Hw _ _ _ _ _ Hs Hs' Hg Hg') as Hi. destruct r, r'; cbn in *. f_equal; [lia|done].
Qed.


Lemma reachable_wf counts p0 ops :
  Forall (fun c => c <= U16_MAX) counts -> new counts = Ok p0 ->
  pool_wf (run ops p0) /\ length (slots (run ops p0)) = length counts.
Proof.
  intros Hall Hn. pose proof (new_pool_wf _ _ Hall Hn) as [Hw _]. destruct (run_evolves ops _ Hw) as (Hw' & Hl & _).
  split; [done|]. rewrite Hl. unfold new in Hn. case_match; [done|]. injection Hn as <-. cbn. by rewrite length_fmap.
Qed.

(** After any sequence of polls, completions, failures, refreshes and a close, the pool is consistent: no
    operation aborts; the primary is the first active route and no two active routes share a generation; every
    slot of an open pool is connected, connecting or has a retry time, and a closed pool has nothing active and
    requests nothing; the wake-up delay is between 1 ms and 10 s and never sleeps past a slot's retry time. *)
Theorem relay_pool_invariant counts p0 ops o now
    (Hcounts : Forall (fun c => c <= U16_MAX) counts) (Hnew : new counts = Ok p0) :
  let p := run ops p0 in
  ~ aborts p o /\ length (slots p) = length counts /\
  primary p = head (active p) /\ NoDup (active p) /\
  (forall r r', r ∈ active p -> r' ∈ active p -> rt_generation r = rt_generation r' -> r = r') /\
  (closed p = false -> Forall (fun s => is_Some (active_generation s) \/ is_Some (pending s) \/
                                        is_Some (due_millis s)) (slots p)) /\
  (closed p = true -> active p = [] /\ poll now p = (p, Ok [])) /\
  1 <= next_poll_millis now p <= 10000 /\
  (forall s due, s ∈ slots p -> due_millis s = Some due ->
     now + next_poll_millis now p <= N.max due (now + 1)).
Proof.
  cbn zeta. destruct (reachable_wf _ _ ops Hcounts Hnew) as [Hw Hl]. set (p := run ops p0) in *.
  split_and!; try done; try apply next_poll_bounds.
  - by apply step_evolves.
  - apply primary_head.
  - apply active_from_sorted.
  - intros r r'. by apply active_inj.
  - intros Hc. apply Forall_lookup. intros i s Hi. pose proof (so_live _ _ _ _ (pl_slot _ Hw _ _ Hi) Hc) as Hlive.
    destruct (active_generation s); [left; eauto|]. destruct (pending s); [right; left; eauto|]. right; right; auto.
  - intros Hc. split; [|unfold poll; by rewrite Hc]. apply elem_of_nil_inv. intros r (s & Hs & Ha)%active_elem.
    destruct (so_closed _ _ _ _ (pl_slot _ Hw _ _ Hs) Hc) as (Hn & _). congruence.
  - intros s due. apply next_poll_covers.
Qed.

Lemma dead_after p i s s' g :
  pool_wf p -> slots p !! N.to_nat i = Some s -> g ∈ gens s -> g ∉ gens s' -> dead g (set_slot i s' p).
Proof.
  intros Hw Hi Hg Hn. split; [apply (gens_lt _ _ _ _ _ (pl_slot _ Hw _ _ Hi) Hg)|]. intros j t. cbn.
  destruct (decide (j = N.to_nat i)) as [->|Hne].
  - rewrite list_lookup_insert_eq by by eapply lookup_lt_Some. by intros [= <-].
  - rewrite list_lookup_insert_ne by done. intros Hj Hin. apply Hne. by eapply (pl_gen _ Hw).
Qed.
Lemma dead_fenced p later g slot :
  pool_wf p -> dead g p -> mkRoute slot g ∉ active (run later p) /\ accepts_inbound (mkRoute slot g) (run later p) = false.
Proof.
  intros Hw Hd. destruct (run_evolves later p Hw) as (_ & _ & _ & Hrun).
  pose proof (dead_not_active _ _ slot (Hrun _ Hd)) as Hn. split; [done|].
  destruct (accepts_inbound _ _) eqn:Ha; [|done]. by apply accepts_active in Ha.
Qed.

Lemma reconnect_delay_bounds a e : 250 <= Rt.reconnect_delay a e <= 10250.
Proof.
  unfold Rt.reconnect_delay. assert (H : e mod 251 < 251) by by apply N.mod_lt.
  cbn zeta.
  assert (Hs : 1 <= N.shiftl 1 (N.min a 6)).
  { rewrite N.shiftl_1_l. apply (N.pow_le_mono_r 2 0); lia. }
  assert (10000 <= U64_MAX) by done.
  revert H Hs. generalize (e mod 251), (N.shiftl 1 (N.min a 6)). lia.
Qed.

(** C30: A relay generation is fenced for good. Once an active route is reported failed, is replaced by a
    committed candidate, or the pool is closed, no later sequence of operations makes any route of that
    generation active or accepts an inbound frame from it; a commit leaves its candidate active. *)
Theorem relay_generation_fenced counts p0 ops later r slot now id
    (Hcounts : Forall (fun c => c <= U16_MAX) counts) (Hnew : new counts = Ok p0)
    (Hactive : r ∈ active (run ops p0)) :
  let p := run ops p0 in
  let fenced p' := mkRoute slot (rt_generation r) ∉ active (run later p') /\
                   accepts_inbound (mkRoute slot (rt_generation r)) (run later p') = false in
  fenced (failed r now p).1 /\ fenced (close p).1 /\
  (forall p' c, complete id true now p = (p', Ok (Some c)) -> replaced_generation c = Some (rt_generation r) ->
     fenced p' /\ mkRoute (cm_slot c) (cm_generation c) ∈ active p').
Proof.
  cbn zeta. destruct (reachable_wf _ _ ops Hcounts Hnew) as [Hw _]. set (p := run ops p0) in *.
  pose proof (active_gens _ _ Hactive) as (s & Hi & Hg). apply active_elem in Hactive as (s' & Hi' & Ha).
  rewrite Hi in Hi'. injection Hi' as <-.
  split; [|split].
  - apply dead_fenced; [by apply failed_evolves|]. destruct (failed_spec r now p s Hw Hi Ha) as (e & _ & ->).
    eapply dead_after; try done. apply not_elem_of_nil.
  - apply dead_fenced; [by apply close_evolves|]. split; [apply (gens_lt _ _ _ _ _ (pl_slot _ Hw _ _ Hi) Hg)|].
    intros j t (t' & -> & _)%list_lookup_fmap_Some. apply not_elem_of_nil.
  - intros p' c Hcomp Hrep.
    destruct (find_slot (pending_request id) 0 (slots p)) as [[i q]|] eqn:Hf.
    2:{ unfold complete in Hcomp. by rewrite Hf in Hcomp. }
    destruct (complete_spec id true now p i q Hw Hf) as (t & Ht & Hq & _ & _ & _ & He).
    rewrite He in Hcomp. injection Hcomp as <- <-. cbn in Hrep. cbn [cm_slot cm_generation].
    destruct (so_pending _ _ _ _ (pl_slot _ Hw _ _ Ht) _ Hq) as (_ & _ & _ & _ & Hne & _).
    split; [apply dead_fenced|].
    + pose proof (proj1 (proj1 (complete_evolves id true now p Hw))) as Hw'. by rewrite He in Hw'.
    + eapply dead_after; [done|done| |].
      * apply elem_of_app. left. rewrite Hrep. by apply list_elem_of_singleton.
      * unfold gens. cbn. intros Hin%list_elem_of_singleton. congruence.
    + apply active_elem. eexists. cbn. rewrite list_lookup_insert_eq by by eapply lookup_lt_Some. by split.
Qed.

(** A failed connection attempt rotates and backs off. The failure of an outstanding request re-arms its slot
    for the next endpoint of the slot, cyclically; the slot is not polled again before the retry time and is
    requested with exactly that endpoint at every poll from then on; the wait is at most 10,250 ms, and at
    least 250 ms. *)
Theorem relay_retry_rotates counts p0 ops id now i q t
    (Hcounts : Forall (fun c => c <= U16_MAX) counts) (Hnew : new counts = Ok p0)
    (Hout : find_slot (pending_request id) 0 (slots (run ops p0)) = Some (i, q))
    (Hids : has_ids (run ops p0)) (Hnow : now + 10250 <= U64_MAX) :
  let p' := (complete id false now (run ops p0)).1 in
  exists s delay, slots (run ops p0) !! N.to_nat i = Some s /\ 250 <= delay <= 10250 /\
    exists reqs, (poll t p').2 = Ok reqs /\
      (forall rq, rq ∈ reqs -> rq_slot rq = i ->
         now + delay <= t /\ rq_endpoint_index rq = (endpoint_index q + 1) mod endpoint_count s /\
         rq_replacing_generation rq = active_generation s) /\
      (now + delay <= t -> exists rq, rq ∈ reqs /\ rq_slot rq = i).
Proof.
  cbn zeta. destruct (reachable_wf _ _ ops Hcounts Hnew) as [Hw _]. set (p := run ops p0) in *.
  destruct (complete_spec id false now p i q Hw Hout) as (s & Hi & Hq & _ & _ & _ & He).
  pose proof (proj1 (proj1 (complete_evolves id false now p Hw))) as Hw'. rewrite He in Hw' |- *. cbn [fst] in Hw' |- *.
  destruct (reconnect_delay_bounds (attempt s) (entropy_of i (endpoint_index q))) as [Hlo Hhi].
  set (delay := Rt.reconnect_delay _ _) in *. exists s, delay. split; [done|]. split; [lia|].
  set (s' := schedule_retry _ _ _ _) in *. assert (Hlt : (N.to_nat i < length (slots p))%nat) by by eapply lookup_lt_Some.
  assert (Hi' : slots (set_slot i s' p) !! N.to_nat i = Some s') by (cbn; by rewrite list_lookup_insert_eq).
  assert (Hdue : due_now t s' = (now + delay <=? t)).
  { unfold due_now, s'. cbn. unfold sat_add. by rewrite N.min_l by (fold delay; lia). }
  destruct (poll_spec t _ Hw') as (reqs & -> & Hall & Hex).
  { apply (wf_not_closed p _ s Hw Hi). left. eauto. }
  { destruct Hids. split; cbn; unfold lenN in *; by rewrite length_insert. }
  exists reqs. split; [done|]. split.
  - intros rq Hin Hslot. destruct (proj1 (Forall_forall _ _) Hall _ Hin) as (u & _ & Hu & Hd & Hep & Hrep).
    rewrite Hslot, N.sub_0_r, Hi' in Hu. injection Hu as <-. rewrite Hdue in Hd. apply N.leb_le in Hd. done.
  - intros Hle%N.leb_le. rewrite <-Hdue in Hle. by apply (Hex i s').
Qed.

(** ** Witnesses *)

(** Two slots; the first connects, then its refresh candidate (request 3, generation 3) is outstanding. *)
Definition example_pool : RelayPoolOrchestrator :=
  mkPool [slot_new 2; slot_new 1] 1 1 false.
Definition example_ops : list Op :=
  [OPoll 0; OComplete 1 true 0; ORefresh (mkRoute 0 1) 5; OPoll 5].

Lemma relay_pool_invariant_witness :
  Forall (fun c => c <= U16_MAX) [2; 1] /\ new [2; 1] = Ok example_pool /\
  1 <= next_poll_millis 7 (run example_ops example_pool) <= 10000 /\
  primary (run example_ops example_pool) = Some (mkRoute 0 1).
Proof.
  assert (H : Forall (fun c => c <= U16_MAX) [2; 1]) by (repeat constructor; done).
  destruct (relay_pool_invariant [2; 1] example_pool example_ops OClose 7 H eq_refl)
    as (_ & _ & Hp & _ & _ & _ & _ & Hn & _).
  by rewrite Hp.
Defined.

Lemma relay_generation_fenced_witness :
  let p := run example_ops example_pool in
  mkRoute 0 1 ∈ active p /\
  accepts_inbound (mkRoute 0 1) p = true /\
  accepts_inbound (mkRoute 0 1) (run [OPoll 300; OComplete 4 true 300] (failed (mkRoute 0 1) 6 p).1) = false /\
  accepts_inbound (mkRoute 0 1) (run [] (complete 3 true 6 p).1) = false.
Proof.
  cbn zeta. assert (H : Forall (fun c => c <= U16_MAX) [2; 1]) by (repeat constructor; done).
  assert (Ha : mkRoute 0 1 ∈ active (run example_ops example_pool)) by (vm_compute; left).
  split; [done|]. split; [done|]. split.
  - by apply (relay_generation_fenced [2; 1] example_pool example_ops [OPoll 300; OComplete 4 true 300]
      (mkRoute 0 1) 0 6 3 H eq_refl Ha).
  - by eapply (relay_generation_fenced [2; 1] example_pool example_ops [] (mkRoute 0 1) 0 6 3 H eq_refl Ha).
Defined.

Lemma relay_retry_rotates_witness :
  exists q, find_slot (pending_request 1) 0 (slots (run [OPoll 0] example_pool)) = Some (0, q) /\
  exists reqs, (poll 10400 (complete 1 false 50 (run [OPoll 0] example_pool)).1).2 = Ok reqs /\
    exists rq, rq ∈ reqs /\ rq_endpoint_index rq = 1.
Proof.
  assert (H : Forall (fun c => c <= U16_MAX) [2; 1]) by (repeat constructor; done).
  eexists. split; [reflexivity|].
  destruct (relay_retry_rotates [2; 1] example_pool [OPoll 0] 1 50 0 _ 10400 H eq_refl eq_refl ltac:(done) ltac:(done))
    as (s & d & Hs & Hd & reqs & Hr & Hall & Hex).
  injection Hs as <-. exists reqs. split; [exact Hr|]. destruct Hex as (rq & Hin & Hslot); [lia|].
  exists rq. split; [done|]. by destruct (Hall _ Hin Hslot) as (_ & -> & _).
Defined.

End Rp.
