(* ===== verification/Directory.v ===== *)
(** * Signed mesh directories: ordering, uniqueness and revision chunks
    (crate [peerward-directory], transcripts.rs and chunks.rs)

    The error type and the canonicity checks the whole crate shares, and the
    bounded all-or-nothing assembly of one serialized signed object. *)

From S2P Require Import Prelude Ordered Net.
From Stdlib Require Import NArith Lia.
From stdpp Require Import base tactics decidable numbers list sorting gmap.
From Stdlib.Init Require Import Byte.
Set Default Goal Selector "!".
Local Open Scope N_scope.

Module Dir.

Inductive DirectoryError :=
  | InvalidSignature | WrongMesh | Rollback | MixedChunks | NonCanonical | InvalidEndpoint | Malformed.
#[export] Instance DirectoryError_eq_dec : EqDecision DirectoryError.
Proof. solve_decision. Defined.

(** ** Canonicity checks (transcripts.rs) *)

Fixpoint ensure_unique_from {K} `{Countable K} (seen : gset K) (items : list K)
    : outcome DirectoryError unit :=
  match items with
  | [] => Ok tt
  | item :: items' =>
      if bool_decide (item ∈ seen) then Err NonCanonical else ensure_unique_from ({[item]} ∪ seen) items'
  end.
Definition ensure_unique {K} `{Countable K} (items : list K) : outcome DirectoryError unit :=
  ensure_unique_from ∅ items.

Fixpoint ensure_sorted_unique_from {K} `{Compare K} (previous : option K) (items : list K)
    : outcome DirectoryError unit :=
  match items with
  | [] => Ok tt
  | item :: items' =>
      match previous with
      | Some old => if leb_of item old then Err NonCanonical else ensure_sorted_unique_from (Some item) items'
      | None => ensure_sorted_unique_from (Some item) items'
      end
  end.
Definition ensure_sorted_unique {K} `{Compare K} (items : list K) : outcome DirectoryError unit :=
  ensure_sorted_unique_from None items.

Definition ensure_scope_and_revision (actual_mesh expected_mesh : MeshId) (revision : N)
    (accepted : option N) : outcome DirectoryError unit :=
  if negb (bool_decide (actual_mesh = expected_mesh)) then Err WrongMesh
  else if match accepted with Some value => revision <=? value | None => false end then Err Rollback
  else Ok tt.

(** ** Revision chunks (chunks.rs) *)

Record RevisionChunk := mkChunk {
  ck_mesh_id : MeshId;
  ck_revision : N;
  ck_index : N;
  ck_count : N;
  ck_body : list byte;
}.

(** [chunks(maximum_body).enumerate().map(..).collect()] *)
Fixpoint number_chunks (mesh_id : MeshId) (revision count index : N) (bodies : list (list byte))
    : outcome DirectoryError (list RevisionChunk) :=
  match bodies with
  | [] => Ok []
  | body :: bodies' =>
      if U32_MAX <? index then Err MixedChunks else
      rest ← number_chunks mesh_id revision count (index + 1) bodies';
      Ok (mkChunk mesh_id revision index count body :: rest)
  end.
Definition split_chunks (mesh_id : MeshId) (revision : N) (bytes : list byte) (maximum_body : N)
    : outcome DirectoryError (list RevisionChunk) :=
  if (maximum_body =? 0) || (lenN bytes =? 0) then Err MixedChunks else
  let count := div_ceil (lenN bytes) maximum_body in
  if U32_MAX <? count then Err MixedChunks else
  number_chunks mesh_id revision count 0 (chunks maximum_body bytes).

Record PendingChunks := mkPendingChunks {
  pd_revision : N;
  pd_count : N;
  pd_bytes : N;
  pd_parts : gmap N (list byte);
}.
Record ChunkAssembler := mkAssembler {
  ca_mesh_id : MeshId;
  accepted_revision : option N;
  ca_pending : option PendingChunks;
  maximum_chunks : N;
  maximum_bytes : N;
}.

Definition new (mesh_id : MeshId) (maximum_chunks maximum_bytes : N) : ChunkAssembler :=
  mkAssembler mesh_id None None maximum_chunks maximum_bytes.

Definition set_pending (p : option PendingChunks) (a : ChunkAssembler) : ChunkAssembler :=
  mkAssembler (ca_mesh_id a) (accepted_revision a) p (maximum_chunks a) (maximum_bytes a).

(** [accepted_revision.is_some_and(|value| revision <= value)] *)
Definition rolled_back (revision : N) (a : ChunkAssembler) : bool :=
  match accepted_revision a with Some value => revision <=? value | None => false end.

Definition malformed_chunk (chunk : RevisionChunk) (a : ChunkAssembler) : bool :=
  (ck_count chunk =? 0) || (maximum_chunks a <? ck_count chunk) || (ck_count chunk <=? ck_index chunk)
  || (lenN (ck_body chunk) =? 0).

(** From [get_or_insert_with] on: [pending] is the set the chunk belongs to. *)
Definition add_part (chunk : RevisionChunk) (pending : PendingChunks) (a : ChunkAssembler)
    : ChunkAssembler * outcome DirectoryError (option (list byte)) :=
  if bool_decide (is_Some (pd_parts pending !! ck_index chunk))
  then (set_pending None a, Err MixedChunks) else
  match checked_add (pd_bytes pending) (lenN (ck_body chunk)) with
  | None => (set_pending (Some pending) a, Err MixedChunks)
  | Some bytes =>
      if maximum_bytes a <? bytes then (set_pending None a, Err MixedChunks) else
      let pending := mkPendingChunks (pd_revision pending) (pd_count pending) bytes
                       (<[ck_index chunk := ck_body chunk]> (pd_parts pending)) in
      if negb (N.of_nat (size (pd_parts pending)) =? pd_count pending)
      then (set_pending (Some pending) a, Ok None)
      else (set_pending None a, Ok (Some (concat (bt_entries (pd_parts pending)).*2)))
  end.

Definition push (chunk : RevisionChunk) (a : ChunkAssembler)
    : ChunkAssembler * outcome DirectoryError (option (list byte)) :=
  if negb (bool_decide (ck_mesh_id chunk = ca_mesh_id a)) then (a, Err WrongMesh)
  else if rolled_back (ck_revision chunk) a then (a, Err Rollback)
  else if malformed_chunk chunk a then (a, Err MixedChunks)
  else match ca_pending a with
       | Some pending =>
           if negb (pd_revision pending =? ck_revision chunk) || negb (pd_count pending =? ck_count chunk)
           then (set_pending None a, Err MixedChunks)
           else add_part chunk pending a
       | None => add_part chunk (mkPendingChunks (ck_revision chunk) (ck_count chunk) 0 ∅) a
       end.

(** The identical chunk is already in flight. *)
Definition in_flight (chunk : RevisionChunk) (a : ChunkAssembler) : bool :=
  match ca_pending a with
  | Some pending =>
      (pd_revision pending =? ck_revision chunk) && (pd_count pending =? ck_count chunk)
      && bool_decide (pd_parts pending !! ck_index chunk = Some (ck_body chunk))
  | None => false
  end.
Definition push_redundant (chunk : RevisionChunk) (a : ChunkAssembler)
    : ChunkAssembler * outcome DirectoryError (option (list byte)) :=
  if negb (bool_decide (ck_mesh_id chunk = ca_mesh_id a)) then (a, Err WrongMesh)
  else if rolled_back (ck_revision chunk) a then (a, Ok None)
  else if in_flight chunk a then (a, Ok None)
  else push chunk a.

Definition commit (revision : N) (a : ChunkAssembler) : ChunkAssembler * outcome DirectoryError unit :=
  if rolled_back revision a then (a, Err Rollback)
  else (mkAssembler (ca_mesh_id a) (Some revision) (ca_pending a) (maximum_chunks a) (maximum_bytes a), Ok tt).

(** ** Lemmas *)

Lemma if_decide_ext {A} P Q `{!Decision P, !Decision Q} (a b : A) :
  (P <-> Q) -> (if bool_decide P then a else b) = (if bool_decide Q then a else b).
Proof. intros HPQ. by rewrite (bool_decide_ext _ _ HPQ). Qed.
Lemma ensure_unique_from_spec {K} `{Countable K} (seen : gset K) l :
  ensure_unique_from seen l =
    if bool_decide (NoDup l /\ Forall (fun x => x ∉ seen) l) then Ok tt else Err NonCanonical.
Proof.
  revert seen. induction l as [|x l IH]; intros seen; cbn [ensure_unique_from].
  { rewrite bool_decide_eq_true_2; [done|]. split; constructor. }
  case_bool_decide as Hx.
  - rewrite bool_decide_eq_false_2; [done|]. by intros [_ [? _]%Forall_cons].
  - rewrite IH. apply if_decide_ext. rewrite NoDup_cons, Forall_cons, !Forall_forall. set_solver.
Qed.
Lemma ensure_unique_spec {K} `{Countable K} (l : list K) :
  ensure_unique l = if bool_decide (NoDup l) then Ok tt else Err NonCanonical.
Proof.
  unfold ensure_unique. rewrite ensure_unique_from_spec. apply if_decide_ext.
  rewrite Forall_forall. set_solver.
Qed.

Definition lt_of {K} `{Compare K} (x y : K) : Prop := leb_of y x = false.
Lemma ensure_sorted_unique_from_Ok {K} `{CompareLaws K} prev (l : list K) :
  ensure_sorted_unique_from prev l = Ok tt <->
  StronglySorted lt_of (option_list prev ++ l).
Proof.
  revert prev. induction l as [|x l IH]; intros [p|]; cbn.
  - split; [|done]. repeat constructor.
  - split; [|done]. constructor.
  - destruct (leb_of x p) eqn:Hle.
    + split; [done|]. intros Hs. apply StronglySorted_inv in Hs as [_ Hs]. apply Forall_cons in Hs as [Hs _].
      unfold lt_of in Hs. congruence.
    + rewrite IH. cbn. split; [|by intros [? _]%StronglySorted_inv]. intros Hs. constructor; [done|].
      constructor; [done|]. apply StronglySorted_inv in Hs as [_ Hs]. eapply Forall_impl; [exact Hs|].
      cbn. unfold lt_of. intros y Hy. apply not_true_is_false. intros Hyp.
      assert (leb_of y x = true); [|congruence]. eapply leb_of_trans; [exact Hyp|]. by apply leb_of_false.
  - by rewrite IH.
Qed.
Lemma ensure_sorted_unique_Ok {K} `{CompareLaws K} (l : list K) :
  ensure_sorted_unique l = Ok tt <-> StronglySorted lt_of l.
Proof. apply ensure_sorted_unique_from_Ok. Qed.
Lemma ensure_sorted_unique_cases {K} `{Compare K} (l : list K) :
  ensure_sorted_unique l = Ok tt \/ ensure_sorted_unique l = Err NonCanonical.
Proof.
  unfold ensure_sorted_unique. generalize (@None K). induction l as [|x l IH]; intros p; cbn; [by left|].
  destruct p; [case_match; [by right|]|]; apply IH.
Qed.

Lemma number_chunks_Ok mesh rev count i l :
  i + lenN l <= U32_MAX + 1 ->
  number_chunks mesh rev count i l =
    Ok (imap (fun j body => mkChunk mesh rev (i + N.of_nat j) count body) l).
Proof.
  revert i. induction l as [|b l IH]; intros i Hi; cbn [number_chunks imap]; [done|]. rewrite lenN_cons in Hi.
  rewrite (proj2 (N.ltb_ge _ _)) by lia. rewrite IH by lia. cbn. rewrite N.add_0_r. do 2 f_equal.
  apply imap_ext. intros j b' _. cbn. f_equal. lia.
Qed.

Lemma split_chunks_spec mesh rev bytes maxb cs :
  split_chunks mesh rev bytes maxb = Ok cs ->
  exists bodies, cs = imap (fun j body => mkChunk mesh rev (N.of_nat j) (lenN bodies) body) bodies /\
    0 < lenN bodies <= U32_MAX /\ concat bodies = bytes /\ Forall (fun b => 0 < lenN b <= maxb) bodies.
Proof.
  unfold split_chunks. destruct (_ || _) eqn:Hg; [done|]. apply orb_false_iff in Hg as [Hm%N.eqb_neq Hb%N.eqb_neq].
  destruct (N.ltb_spec U32_MAX (div_ceil (lenN bytes) maxb)) as [|Hc]; [done|].
  assert (Hlen : lenN (chunks maxb bytes) = div_ceil (lenN bytes) maxb) by (apply length_chunks; lia).
  rewrite number_chunks_Ok by (rewrite Hlen; lia). intros [= <-]. exists (chunks maxb bytes).
  split; [by rewrite Hlen|]. pose proof (div_ceil_spec (lenN bytes) maxb). split; [rewrite Hlen; nia|].
  split; [apply concat_chunks; lia|]. apply Forall_lookup. intros i b Hi.
  rewrite <-(Nat2N.id i), chunks_lookup in Hi by lia. destruct (N.ltb_spec (N.of_nat i * maxb) (lenN bytes)); [|done].
  injection Hi as <-. rewrite chunk_len. lia.
Qed.

(** A map over the indices below [n], listed in index order. *)
Lemma full_parts {V} (m : gmap N V) n :
  (forall i v, m !! i = Some v -> i < n) -> N.of_nat (size m) = n -> forall i, i < n -> is_Some (m !! i).
Proof.
  intros Hlt Hsz i Hi. destruct (m !! i) as [v|] eqn:Hm; [by eauto|exfalso].
  assert (Hsub : dom m ⊆ list_to_set (N.of_nat <$> seq 0 (N.to_nat n)) ∖ {[i]}).
  { intros j [w Hj]%elem_of_dom. apply elem_of_difference. split; [|intros ->%elem_of_singleton; congruence].
    apply elem_of_list_to_set, list_elem_of_fmap. exists (N.to_nat j). split; [lia|]. apply elem_of_seq.
    pose proof (Hlt _ _ Hj). lia. }
  apply subseteq_size in Hsub. rewrite size_dom, size_difference, size_singleton in Hsub.
  - rewrite size_list_to_set, length_fmap, length_seq in Hsub; [lia|]. apply NoDup_fmap_2; [|apply NoDup_seq].
    intros a b Hab. lia.
  - intros j ->%elem_of_singleton. apply elem_of_list_to_set, list_elem_of_fmap. exists (N.to_nat i).
    split; [lia|]. apply elem_of_seq. lia.
Qed.
Lemma indexed_sorted {V} (k : N) (l : list V) :
  StronglySorted (key_le fst) (imap (fun j v => (k + N.of_nat j, v)) l).
Proof.
  revert k. induction l as [|v l IH]; intros k; cbn; [constructor|].
  rewrite (imap_ext _ (fun j v => (k + 1 + N.of_nat j, v))) by (intros; cbn; f_equal; lia).
  constructor; [apply IH|]. apply Forall_forall. intros [i w] (j & w' & [= -> ->] & _)%elem_of_lookup_imap.
  apply leb_of_N. cbn. lia.
Qed.
Lemma imap_values {V} (l : list V) : (imap (fun j v => (N.of_nat j, v)) l).*2 = l.
Proof.
  rewrite fmap_imap. rewrite (imap_ext _ (fun _ v => v)) by done. by induction l; cbn; f_equal.
Qed.
Lemma bt_entries_indexed {V} (m : gmap N V) l :
  (forall i v, m !! i = Some v <-> l !! N.to_nat i = Some v) ->
  bt_entries m = imap (fun j v => (N.of_nat j, v)) l.
Proof.
  intros Hm. apply bt_entries_unique; [by apply (indexed_sorted 0)|]. symmetry.
  apply NoDup_Permutation.
  - apply NoDup_map_to_list.
  - apply (NoDup_fmap_1 fst). rewrite fmap_imap. apply NoDup_alt. intros a b x.
    rewrite !list_lookup_imap. destruct (l !! a), (l !! b); cbn; intros; simplify_eq; try done; lia.
  - intros [i v]. rewrite elem_of_map_to_list, Hm. split.
    + intros Hl. apply elem_of_lookup_imap. exists (N.to_nat i), v. split; [f_equal; lia|done].
    + intros (j & w & [= -> ->] & Hj)%elem_of_lookup_imap. by rewrite Nat2N.id.
Qed.

(** ** Assembly: what is held, what is delivered *)

Inductive Op := OPush (c : RevisionChunk) | OPushRedundant (c : RevisionChunk) | OCommit (revision : N).
Definition exec (o : Op) (a : ChunkAssembler) : ChunkAssembler * outcome DirectoryError (option (list byte)) :=
  match o with
  | OPush c => push c a
  | OPushRedundant c => push_redundant c a
  | OCommit revision => let r := commit revision a in (r.1, (fun _ => None) <$> r.2)
  end.
Definition run (ops : list Op) (a : ChunkAssembler) : ChunkAssembler := foldl (fun a o => (exec o a).1) a ops.
Definition pushed (o : Op) : option RevisionChunk :=
  match o with OPush c | OPushRedundant c => Some c | OCommit _ => None end.

Record pending_ok (h : list RevisionChunk) (a : ChunkAssembler) (p : PendingChunks) : Prop := {
  po_bytes : pd_bytes p = map_sum lenN (pd_parts p);
  po_max : pd_bytes p <= maximum_bytes a;
  po_count : 0 < pd_count p <= maximum_chunks a;
  po_open : N.of_nat (size (pd_parts p)) < pd_count p;
  po_part : forall i b, pd_parts p !! i = Some b ->
    i < pd_count p /\ 0 < lenN b /\ mkChunk (ca_mesh_id a) (pd_revision p) i (pd_count p) b ∈ h;
}.
Definition asm_wf (h : list RevisionChunk) (a : ChunkAssembler) : Prop :=
  forall p, ca_pending a = Some p -> pending_ok h a p.

(** [out] is the bodies of one chunk set, in index order, all of them in [h]. *)
Definition assembled (h : list RevisionChunk) (a : ChunkAssembler) (c : RevisionChunk) (out : list byte) : Prop :=
  exists bodies, lenN bodies = ck_count c /\ out = concat bodies /\ lenN out <= maximum_bytes a /\
    forall i b, bodies !! i = Some b ->
      mkChunk (ca_mesh_id a) (ck_revision c) (N.of_nat i) (ck_count c) b ∈ h.

Lemma lenN_concat {A} (l : list (list A)) : lenN (concat l) = foldr (fun b acc => lenN b + acc) 0 l.
Proof. induction l as [|b l IH]; cbn; [done|]. by rewrite lenN_app, IH. Qed.

(** The listing of a full set. *)
Lemma full_listing (m : gmap N (list byte)) n :
  (forall i v, m !! i = Some v -> i < n) -> N.of_nat (size m) = n ->
  exists bodies, (bt_entries m).*2 = bodies /\ lenN bodies = n /\
    forall i b, bodies !! i = Some b <-> m !! N.of_nat i = Some b.
Proof.
  intros Hlt Hsz. set (bodies := (fun i => default [] (m !! N.of_nat i)) <$> seq 0 (N.to_nat n)).
  assert (Hb : forall i b, bodies !! i = Some b <-> m !! N.of_nat i = Some b).
  { intros i b. unfold bodies. rewrite list_lookup_fmap_Some. split.
    - intros (j & -> & [-> Hj]%lookup_seq). cbn. destruct (full_parts m n Hlt Hsz (N.of_nat i)) as [w Hw]; [lia|].
      by rewrite Hw.
    - intros Hm. exists i. rewrite Hm. split; [done|]. apply lookup_seq. pose proof (Hlt _ _ Hm). lia. }
  assert (He : bt_entries m = imap (fun j v => (N.of_nat j, v)) bodies).
  { apply bt_entries_indexed. intros i v. by rewrite Hb, N2Nat.id. }
  exists bodies. split_and!; [|unfold bodies, lenN; rewrite length_fmap, length_seq; lia|done].
  by rewrite He, imap_values.
Qed.

Lemma pending_ok_weaken h h' a p : h ⊆ h' -> pending_ok h a p -> pending_ok h' a p.
Proof. intros Hs [H1 H2 H3 H4 H5]. split; try done. intros i b Hi. destruct (H5 _ _ Hi) as (? & ? & ?). auto. Qed.
Lemma pending_ok_set h a p : pending_ok h a p -> asm_wf h (set_pending (Some p) a).
Proof. by intros [H1 H2 H3 H4 H5] p' [= <-]. Qed.
Lemma asm_wf_cleared h a : asm_wf h (set_pending None a).
Proof. by intros p. Qed.

(** The set of [p] after its chunk [c] is stored. *)
Definition with_part (c : RevisionChunk) (p : PendingChunks) : PendingChunks :=
  mkPendingChunks (pd_revision p) (pd_count p) (pd_bytes p + lenN (ck_body c))
    (<[ck_index c := ck_body c]> (pd_parts p)).

(** The chunk is of the set of [p] in the assembler [a]. *)
Definition fits (a : ChunkAssembler) (c : RevisionChunk) (p : PendingChunks) : Prop :=
  pd_revision p = ck_revision c /\ pd_count p = ck_count c /\ ck_mesh_id c = ca_mesh_id a /\
  ck_index c < ck_count c /\ 0 < lenN (ck_body c).

Lemma with_part_ok h a c p :
  pending_ok h a p -> fits a c p -> pd_parts p !! ck_index c = None ->
  pd_bytes (with_part c p) = map_sum lenN (pd_parts (with_part c p)) /\
  size (pd_parts (with_part c p)) = S (size (pd_parts p)) /\
  forall i b, pd_parts (with_part c p) !! i = Some b ->
    i < pd_count p /\ 0 < lenN b /\ mkChunk (ca_mesh_id a) (pd_revision p) i (pd_count p) b ∈ h ++ [c].
Proof.
  intros [H1 H2 H3 H4 H5] (Hr & Hc & Hm & Hi & Hb) Hnew. cbn. split_and!.
  - rewrite map_sum_insert_None by done. lia.
  - by apply map_size_insert_None.
  - intros i b. destruct (decide (i = ck_index c)) as [->|Hne].
    + rewrite lookup_insert_eq. intros [= <-]. split_and!; [lia|done|]. apply elem_of_app. right.
      rewrite Hr, Hc, <-Hm. destruct c. left.
    + rewrite lookup_insert_ne by done. intros Hl%H5. rewrite elem_of_app. naive_solver.
Qed.

Lemma add_part_spec h a c p :
  pending_ok h a p -> fits a c p ->
  let r := add_part c p a in
  asm_wf (h ++ [c]) r.1 /\ r.2 <> Panic /\
  forall out, r.2 = Ok (Some out) -> assembled (h ++ [c]) a c out /\ ca_pending r.1 = None.
Proof.
  intros Hok Hf. cbn zeta. unfold add_part. case_bool_decide as Hin; [by split; [apply asm_wf_cleared|]|].
  rewrite <-eq_None_not_Some in Hin. pose proof (with_part_ok _ _ _ _ Hok Hf Hin) as (Hsum & Hsz & Hpart).
  destruct (checked_add _ _) as [bytes|] eqn:Hadd.
  2:{ split; [|done]. apply pending_ok_set. eapply pending_ok_weaken; [|exact Hok]. set_solver. }
  assert (bytes = pd_bytes p + lenN (ck_body c)) as ->.
  { unfold checked_add in Hadd. case_match; [|done]. by injection Hadd. }
  destruct (N.ltb_spec (maximum_bytes a) (pd_bytes p + lenN (ck_body c))) as [|Hmax]; [by split; [apply asm_wf_cleared|]|].
  change (mkPendingChunks _ _ _ _) with (with_part c p). cbn zeta. pose proof (po_open _ _ _ Hok) as Hopen.
  change (pd_count (with_part c p)) with (pd_count p).
  destruct (N.eqb_spec (N.of_nat (size (pd_parts (with_part c p)))) (pd_count p)) as [Hfull|Hopen']; cbn [negb fst snd].
  - split; [apply asm_wf_cleared|]. split; [done|]. intros out [= <-]. split; [|done].
    assert (Htotal : lenN (concat (bt_entries (pd_parts (with_part c p))).*2) <= maximum_bytes a).
    { rewrite lenN_concat, <-map_sum_entries, <-Hsum. exact Hmax. }
    revert Htotal.
    destruct (full_listing (pd_parts (with_part c p)) (pd_count p)) as (bodies & He & Hlen & Hb); [naive_solver|done|].
    rewrite He. cbn [with_part pd_parts] in He. rewrite He. intros Htotal. exists bodies. destruct Hf as (Hr & Hc & _). rewrite <-Hr, <-Hc. split_and!; [done|done|done|].
    intros i b Hi. by apply Hpart, Hb.
  - split; [|done]. apply pending_ok_set. split; [done|done|apply Hok| |exact Hpart]. change (pd_count (with_part c p)) with (pd_count p). lia.
Qed.

Lemma assembler_push_spec h c a :
  asm_wf h a ->
  let r := push c a in
  asm_wf (h ++ [c]) r.1 /\ r.2 <> Panic /\ accepted_revision r.1 = accepted_revision a /\
  ca_mesh_id r.1 = ca_mesh_id a /\ maximum_chunks r.1 = maximum_chunks a /\ maximum_bytes r.1 = maximum_bytes a /\
  forall out, r.2 = Ok (Some out) ->
    assembled (h ++ [c]) a c out /\ ca_pending r.1 = None /\ ck_mesh_id c = ca_mesh_id a /\
    rolled_back (ck_revision c) a = false /\ ck_count c <= maximum_chunks a.
Proof.
  intros Hw. assert (Hw' : asm_wf (h ++ [c]) a).
  { intros p Hp. eapply pending_ok_weaken; [|by apply Hw]. set_solver. }
  cbn zeta. unfold push. case_bool_decide as Hm; [|done]. cbn [negb].
  destruct (rolled_back _ a) eqn:Hrb; [done|]. destruct (malformed_chunk c a) eqn:Hmal; [done|].
  unfold malformed_chunk in Hmal. rewrite !orb_false_iff, !N.eqb_neq, N.ltb_ge, N.leb_gt in Hmal.
  destruct Hmal as [[[Hc0 Hcmax] Hidx] Hbody].
  assert (Hadd : forall p, pending_ok h a p -> fits a c p -> let r := add_part c p a in
    asm_wf (h ++ [c]) r.1 /\ r.2 <> Panic /\ accepted_revision r.1 = accepted_revision a /\
    ca_mesh_id r.1 = ca_mesh_id a /\ maximum_chunks r.1 = maximum_chunks a /\ maximum_bytes r.1 = maximum_bytes a /\
    forall out, r.2 = Ok (Some out) ->
      assembled (h ++ [c]) a c out /\ ca_pending r.1 = None /\ ck_mesh_id c = ca_mesh_id a /\
      false = false /\ ck_count c <= maximum_chunks a).
  { intros p Hp Hf. pose proof (add_part_spec h a c p Hp Hf) as (H1 & H2 & H3). cbn zeta in *.
    split; [done|]. split; [done|]. assert (He : exists q, (add_part c p a).1 = set_pending q a).
    { unfold add_part. repeat case_match; cbn; eauto. }
    destruct He as [q He]. split_and!; try (by rewrite He). intros out Hout. by destruct (H3 _ Hout). }
  destruct (ca_pending a) as [p|] eqn:Hp.
  - destruct (_ || _) eqn:Hne; [by split; [apply asm_wf_cleared|]|].
    rewrite orb_false_iff, !negb_false_iff, !N.eqb_eq in Hne. destruct Hne as [Hr Hc].
    apply Hadd; [by apply Hw|]. by split_and!; try lia.
  - apply Hadd; [|by split_and!; cbn [pd_revision pd_count]; try lia].
    split; cbn [pd_bytes pd_count pd_parts]; [done|lia|lia|rewrite map_size_empty; lia|].
    intros i b. by rewrite lookup_empty.
Qed.

(** [Option]'s order on accepted revisions: none is below every revision. *)
Definition revision_le (x y : option N) : Prop :=
  match x, y with None, _ => True | Some x, Some y => x <= y | Some _, None => False end.
Lemma revision_le_refl x : revision_le x x.
Proof. destruct x; cbn; [lia|done]. Qed.

Lemma push_redundant_cases c a :
  (exists r, push_redundant c a = (a, r) /\ r <> Panic /\ forall out, r <> Ok (Some out)) \/
  push_redundant c a = push c a.
Proof.
  unfold push_redundant. case_bool_decide; cbn [negb]; [|by left; eexists].
  destruct (rolled_back _ _); [by left; eexists|]. destruct (in_flight _ _); [by left; eexists|]. by right.
Qed.

(** One operation: the invariant, and what it can deliver. *)
Definition exec_ok (h : list RevisionChunk) (o : Op) (a : ChunkAssembler) : Prop :=
  let r := exec o a in
  asm_wf (h ++ option_list (pushed o)) r.1 /\ r.2 <> Panic /\
  revision_le (accepted_revision a) (accepted_revision r.1) /\
  ca_mesh_id r.1 = ca_mesh_id a /\ maximum_chunks r.1 = maximum_chunks a /\ maximum_bytes r.1 = maximum_bytes a /\
  forall out, r.2 = Ok (Some out) -> exists c, pushed o = Some c /\
    assembled (h ++ [c]) a c out /\ ca_pending r.1 = None /\ ck_mesh_id c = ca_mesh_id a /\
    rolled_back (ck_revision c) a = false /\ ck_count c <= maximum_chunks a.
Lemma exec_spec h o a : asm_wf h a -> exec_ok h o a.
Proof.
  intros Hw. assert (Hpush : forall c, let r := push c a in
    asm_wf (h ++ [c]) r.1 /\ r.2 <> Panic /\ revision_le (accepted_revision a) (accepted_revision r.1) /\
    ca_mesh_id r.1 = ca_mesh_id a /\ maximum_chunks r.1 = maximum_chunks a /\ maximum_bytes r.1 = maximum_bytes a /\
    forall out, r.2 = Ok (Some out) -> exists c', Some c = Some c' /\
      assembled (h ++ [c']) a c' out /\ ca_pending r.1 = None /\ ck_mesh_id c' = ca_mesh_id a /\
      rolled_back (ck_revision c') a = false /\ ck_count c' <= maximum_chunks a).
  { intros c. destruct (assembler_push_spec h c a Hw) as (H1 & H2 & H3 & H4 & H5 & H6 & H7). cbn zeta in *.
    split_and!; try done; [rewrite H3; apply revision_le_refl|]. intros out Hout. exists c. split; [done|]. by apply H7. }
  destruct o as [c|c|revision]; unfold exec_ok; cbn [exec pushed option_list].
  - apply Hpush.
  - destruct (push_redundant_cases c a) as [(r & -> & Hr & Hn)| ->]; [|apply Hpush].
    cbn [fst snd]. split_and!; try done; [|apply revision_le_refl|intros out Ho; by destruct (Hn out)].
    intros p Hp. eapply pending_ok_weaken; [|by apply Hw]. set_solver.
  - rewrite app_nil_r. unfold commit. destruct (rolled_back revision a) eqn:Hrb; cbn.
    + by split_and!; [|done|apply revision_le_refl| | | |].
    + split_and!; try done.
      * intros p Hp. destruct (Hw p Hp) as [H1 H2 H3 H4 H5]. by split.
      * unfold rolled_back in Hrb. destruct (accepted_revision a); [|done]. apply N.leb_gt in Hrb. cbn. lia.
Qed.
Lemma run_wf ops a : asm_wf [] a ->
  asm_wf (omap pushed ops) (run ops a) /\ revision_le (accepted_revision a) (accepted_revision (run ops a)) /\
  ca_mesh_id (run ops a) = ca_mesh_id a /\ maximum_chunks (run ops a) = maximum_chunks a /\
  maximum_bytes (run ops a) = maximum_bytes a.
Proof.
  intros Hw. induction ops as [|o ops (IH1 & IH2 & IH3 & IH4 & IH5)] using rev_ind.
  { split_and!; try done. apply revision_le_refl. }
  unfold run. rewrite foldl_app. cbn. fold (run ops a).
  destruct (exec_spec _ o _ IH1) as (H1 & _ & H3 & H4 & H5 & H6 & _). split_and!; try congruence.
  - rewrite omap_app. cbn. by destruct (pushed o).
  - revert IH2 H3. destruct (accepted_revision a), (accepted_revision (run ops a)),
      (accepted_revision (exec o (run ops a)).1); cbn; try done; lia.
Qed.

(** Whatever is pushed and committed, in whatever order, the assembler is bounded and never aborts: what it
    buffers is at most [maximum_bytes] bytes in fewer than [maximum_chunks] parts; the accepted revision never
    decreases; and bytes are delivered only as the in-order concatenation of all [count] chunks of one revision,
    every one of them pushed before, of this mesh and above the accepted revision. *)
Theorem chunk_assembly_exact mesh max_chunks max_bytes ops o :
  let a := run ops (new mesh max_chunks max_bytes) in
  let r := exec o a in
  r.2 <> Panic /\ revision_le (accepted_revision a) (accepted_revision r.1) /\
  (forall p, ca_pending a = Some p ->
     map_sum lenN (pd_parts p) <= max_bytes /\ N.of_nat (size (pd_parts p)) < max_chunks) /\
  forall out, r.2 = Ok (Some out) -> exists c bodies,
    pushed o = Some c /\ ck_mesh_id c = mesh /\ rolled_back (ck_revision c) a = false /\
    lenN bodies = ck_count c /\ ck_count c <= max_chunks /\ out = concat bodies /\ lenN out <= max_bytes /\
    forall i b, bodies !! i = Some b ->
      mkChunk mesh (ck_revision c) (N.of_nat i) (ck_count c) b ∈ omap pushed (ops ++ [o]).
Proof.
  cbn zeta. destruct (run_wf ops (new mesh max_chunks max_bytes)) as (Hw & _ & Hm & Hc & Hb); [by intros p|].
  cbn in Hm, Hc, Hb. destruct (exec_spec _ o _ Hw) as (_ & Hp & Hle & _ & _ & _ & Hout).
  split; [done|]. split; [done|]. split.
  - intros p [H1 H2 H3 H4 H5]%Hw. rewrite <-H1. rewrite Hb in H2. rewrite Hc in H3. split; lia.
  - intros out (c & Ho & (bodies & Hlen & He & Hmax & Hin) & _ & Hcm & Hrb & Hcc)%Hout. exists c, bodies.
    rewrite Hm in Hcm, Hin. rewrite Hb in Hmax. rewrite Hc in Hcc. split_and!; try done.
    intros i b Hi. rewrite omap_app. cbn. rewrite Ho. by apply Hin.
Qed.

(** ** Reassembling what [split_chunks] made *)

Definition body_map (l : list RevisionChunk) : gmap N (list byte) :=
  list_to_map ((fun c => (ck_index c, ck_body c)) <$> l).

Section reassembly.
Context (mesh : MeshId) (revision : N) (bodies : list (list byte)).
Let numbered : list RevisionChunk :=
  imap (fun j body => mkChunk mesh revision (N.of_nat j) (lenN bodies) body) bodies.

Lemma numbered_elem c :
  c ∈ numbered <-> ck_mesh_id c = mesh /\ ck_revision c = revision /\ ck_count c = lenN bodies /\
    bodies !! N.to_nat (ck_index c) = Some (ck_body c).
Proof.
  unfold numbered. rewrite elem_of_lookup_imap. split.
  - intros (j & b & -> & Hj). cbn. by rewrite Nat2N.id.
  - intros (H1 & H2 & H3 & H4). exists (N.to_nat (ck_index c)), (ck_body c). split; [|done].
    destruct c; cbn in *. by rewrite N2Nat.id, H1, H2, H3.
Qed.

Lemma body_map_lookup l i b :
  l ⊆ numbered -> body_map l !! i = Some b <-> mkChunk mesh revision i (lenN bodies) b ∈ l.
Proof.
  induction l as [|c l IH]; intros Hsub; cbn.
  { rewrite lookup_empty, elem_of_nil. naive_solver. }
  assert (Hc : c ∈ numbered) by (apply Hsub; left). apply numbered_elem in Hc as (H1 & H2 & H3 & H4).
  assert (Hl : l ⊆ numbered) by set_solver. rewrite elem_of_cons.
  destruct (decide (ck_index c = i)) as [<-|Hne].
  - rewrite lookup_insert_eq. split.
    + intros [= <-]. left. destruct c; cbn in *. congruence.
    + intros [He|Hin].
      * rewrite <-He. done.
      * apply Hl, numbered_elem in Hin as (_ & _ & _ & Hb). cbn in Hb. congruence.
  - rewrite lookup_insert_ne by done. rewrite (IH Hl). split; [by right|]. intros [He|]; [|done].
    destruct Hne. by rewrite <-He.
Qed.

Lemma body_map_all l : l ⊆ numbered -> numbered ⊆ l -> body_map l = body_map numbered.
Proof.
  intros H1 H2. apply map_eq. intros i. apply option_eq. intros b. rewrite !body_map_lookup by done. split; auto.
Qed.
Lemma body_map_numbered : bt_entries (body_map numbered) = imap (fun j v => (N.of_nat j, v)) bodies.
Proof.
  apply bt_entries_indexed. intros i v. rewrite body_map_lookup by done. rewrite numbered_elem. cbn. naive_solver.
Qed.
Lemma body_map_size l c : l ⊆ numbered -> c ∈ numbered -> c ∉ l -> N.of_nat (size (body_map l)) < lenN bodies.
Proof.
  intros Hl Hc Hn.
  assert (Hfull : size (body_map numbered) = length bodies).
  { rewrite <-length_map_to_list, <-bt_entries_perm, body_map_numbered. apply length_imap. }
  assert (size (body_map l) < size (body_map numbered))%nat; [|unfold lenN; lia].
  apply map_subset_size. apply map_subset_alt. split.
  - apply map_subseteq_spec. intros i b. rewrite !body_map_lookup by done. auto.
  - exists (ck_index c). pose proof Hc as (H1 & H2 & H3 & H4)%numbered_elem.
    assert (He : c = mkChunk mesh revision (ck_index c) (lenN bodies) (ck_body c)) by (destruct c; cbn in *; congruence).
    split.
    + destruct (body_map l !! ck_index c) as [b|] eqn:Hb; [|done]. apply body_map_lookup in Hb; [|done].
      pose proof (Hl _ Hb) as (_ & _ & _ & Hb')%numbered_elem. cbn in Hb'. rewrite H4 in Hb'. injection Hb' as <-.
      by rewrite <-He in Hb.
    + exists (ck_body c). apply body_map_lookup; [done|]. by rewrite <-He.
Qed.
Lemma body_map_sum l : l ⊆ numbered -> map_sum lenN (body_map l) <= lenN (concat bodies).
Proof.
  intros Hl. transitivity (map_sum lenN (body_map numbered)).
  - apply map_sum_mono, map_subseteq_spec. intros i b. rewrite !body_map_lookup by done. auto.
  - rewrite map_sum_entries, body_map_numbered, imap_values, lenN_concat. done.
Qed.

(** Successive redundant pushes and their results. *)
Fixpoint receive (l : list RevisionChunk) (a : ChunkAssembler)
    : ChunkAssembler * list (outcome DirectoryError (option (list byte))) :=
  match l with
  | [] => (a, [])
  | c :: l' => let r := push_redundant c a in let q := receive l' r.1 in (q.1, r.2 :: q.2)
  end.

(** The assembler [a0] with the chunks [received] held, latest first. *)
Definition held (received : list RevisionChunk) : PendingChunks :=
  mkPendingChunks revision (lenN bodies) (map_sum lenN (body_map received)) (body_map received).
Definition holding (a0 : ChunkAssembler) (received : list RevisionChunk) : ChunkAssembler :=
  match received with [] => a0 | _ => set_pending (Some (held received)) a0 end.

Context (a0 : ChunkAssembler).
Hypothesis Hmesh : ca_mesh_id a0 = mesh.
Hypothesis Hnew : rolled_back revision a0 = false.
Hypothesis Hidle : ca_pending a0 = None.
Hypothesis Hbodies : Forall (fun b => 0 < lenN b) bodies.
Hypothesis Hcount : 0 < lenN bodies <= maximum_chunks a0.
Hypothesis Hbytes : lenN (concat bodies) <= maximum_bytes a0.
Hypothesis Husize : maximum_bytes a0 <= USIZE_MAX.

Lemma holding_fields received :
  ca_mesh_id (holding a0 received) = mesh /\ rolled_back revision (holding a0 received) = false /\
  maximum_chunks (holding a0 received) = maximum_chunks a0 /\ maximum_bytes (holding a0 received) = maximum_bytes a0 /\
  forall p, set_pending p (holding a0 received) = set_pending p a0.
Proof. by destruct received. Qed.

Lemma numbered_wellformed c received : c ∈ numbered -> malformed_chunk c (holding a0 received) = false.
Proof.
  intros (_ & _ & Hc & Hb)%numbered_elem. unfold malformed_chunk.
  destruct (holding_fields received) as (_ & _ & -> & _). rewrite Hc.
  pose proof (lookup_lt_Some _ _ _ Hb). apply Forall_lookup_1 with (1 := Hbodies) in Hb.
  rewrite !orb_false_iff, !N.eqb_neq, N.ltb_ge, N.leb_gt. unfold lenN in *. lia.
Qed.

Lemma add_part_held c received a :
  received ⊆ numbered -> c ∈ numbered -> c ∉ received -> (forall p, set_pending p a = set_pending p a0) ->
  (numbered ⊆ c :: received ->
     add_part c (held received) a = (set_pending None a0, Ok (Some (concat bodies)))) /\
  (forall d, d ∈ numbered -> d ∉ c :: received ->
     add_part c (held received) a = (set_pending (Some (held (c :: received))) a0, Ok None)).
Proof.
  intros Hsub Hc Hn Ha. pose proof Hc as (H1 & H2 & H3 & H4)%numbered_elem.
  assert (Hsub' : c :: received ⊆ numbered) by set_solver.
  assert (Hfresh : body_map received !! ck_index c = None).
  { destruct (body_map received !! ck_index c) as [b|] eqn:Hb; [|done].
    apply body_map_lookup in Hb; [|done].
    pose proof (Hsub _ Hb) as (_ & _ & _ & He)%numbered_elem. cbn in He.
    destruct Hn. rewrite H4 in He. injection He as <-. destruct c; cbn in *. congruence. }
  assert (Hsum : map_sum lenN (body_map (c :: received)) = map_sum lenN (body_map received) + lenN (ck_body c)).
  { unfold body_map. cbn. rewrite map_sum_insert_None by done. lia. }
  pose proof (body_map_sum _ Hsub') as Hle.
  assert (Hmax : maximum_bytes a = maximum_bytes a0) by (change (maximum_bytes (set_pending None a) = maximum_bytes a0); by rewrite Ha).
  unfold add_part. cbn [held pd_parts pd_bytes pd_revision pd_count]. rewrite bool_decide_eq_false_2 by (rewrite Hfresh; apply is_Some_None).
  unfold checked_add. rewrite <-Hsum. rewrite (proj2 (N.leb_le _ _)) by (unfold USIZE_MAX in *; lia).
  rewrite Hmax, (proj2 (N.ltb_ge _ _)) by lia. change (<[ck_index c := ck_body c]> (body_map received)) with (body_map (c :: received)).
  rewrite !Ha. split.
  - intros Hall. rewrite body_map_all by done.
    rewrite <-length_map_to_list, <-bt_entries_perm, body_map_numbered, imap_values, length_imap.
    unfold lenN. by rewrite N.eqb_refl.
  - intros d Hd Hdn. pose proof (body_map_size _ d Hsub' Hd Hdn) as Hlt.
    by rewrite (proj2 (N.eqb_neq _ _)) by lia.
Qed.

Lemma push_redundant_held c received :
  received ⊆ numbered -> c ∈ numbered -> c ∉ received ->
  push_redundant c (holding a0 received) = add_part c (held received) (holding a0 received).
Proof.
  intros Hsub Hc Hn. pose proof Hc as (H1 & H2 & H3 & H4)%numbered_elem.
  destruct (holding_fields received) as (Hm & Hr & _).
  assert (Hfl : in_flight c (holding a0 received) = false).
  { unfold in_flight. destruct received as [|x l]; cbn [holding ca_pending set_pending]; [by rewrite Hidle|].
    apply andb_false_iff. right. apply bool_decide_eq_false. cbn [held pd_parts]. intros Hb.
    apply body_map_lookup in Hb; [|done]. destruct Hn. destruct c; cbn in *. congruence. }
  assert (Hp : push c (holding a0 received) = add_part c (held received) (holding a0 received)).
  { unfold push. rewrite H2, Hm, Hr, bool_decide_eq_true_2, numbered_wellformed by done. cbn [negb].
    destruct received as [|x l]; cbn [holding ca_pending set_pending].
    - by rewrite Hidle, H3.
    - cbn [held pd_revision pd_count]. by rewrite H3, !N.eqb_refl. }
  unfold push_redundant. by rewrite H2, Hm, Hr, bool_decide_eq_true_2, Hfl.
Qed.

(** A chunk that is not the last missing one. *)
Lemma redundant_step c received d :
  received ⊆ numbered -> c ∈ numbered -> d ∈ numbered -> d ∉ c :: received ->
  exists received', received' ⊆ c :: received /\ c :: received ⊆ received' /\
    push_redundant c (holding a0 received) = (holding a0 received', Ok None).
Proof.
  intros Hsub Hc Hd Hdn. pose proof Hc as (H1 & H2 & H3 & H4)%numbered_elem.
  destruct (holding_fields received) as (Hm & Hr & _).
  destruct (decide (body_map received !! ck_index c = Some (ck_body c))) as [Hin|Hn].
  - apply body_map_lookup in Hin as Hin'; [|done]. exists received.
    replace (mkChunk _ _ _ _ _) with c in Hin' by (destruct c; cbn in *; congruence).
    split; [set_solver|]. split; [set_solver|]. unfold push_redundant.
    rewrite H2, Hm, Hr, bool_decide_eq_true_2 by done. cbn [negb].
    assert (Hfl : in_flight c (holding a0 received) = true); [|by rewrite Hfl].
    destruct received as [|x l]; [by apply not_elem_of_nil in Hin'|]. unfold in_flight. cbn [holding ca_pending set_pending].
    cbn [held pd_revision pd_count pd_parts]. by rewrite H2, H3, !N.eqb_refl, bool_decide_eq_true_2.
  - assert (Hcn : c ∉ received).
    { intros Hin. apply Hn, body_map_lookup; [done|]. destruct c; cbn in *; congruence. }
    exists (c :: received). split; [done|]. split; [done|]. rewrite push_redundant_held by done.
    by apply add_part_held with d; [| | |apply holding_fields| |].
Qed.

Lemma receive_step received l c :
  received ⊆ numbered -> l ⊆ numbered -> c ∈ numbered -> c ∉ received ++ l -> numbered ⊆ c :: received ++ l ->
  receive (l ++ [c]) (holding a0 received) =
    (set_pending None a0, replicate (length l) (Ok None) ++ [Ok (Some (concat bodies))]).
Proof.
  revert received. induction l as [|x l IH]; intros received Hsub Hl Hc Hn Hall.
  - rewrite app_nil_r in *. cbn [app receive]. rewrite push_redundant_held by done.
    destruct (add_part_held c received (holding a0 received) Hsub Hc Hn) as [H _]; [apply holding_fields|].
    by rewrite H.
  - assert (Hx : x ∈ numbered) by set_solver.
    destruct (redundant_step x received c) as (received' & H1 & H2 & Hp); [done|done|done|set_solver|].
    cbn [app receive]. rewrite Hp. cbn [fst snd]. rewrite (IH received'); [done|set_solver|set_solver|done| |].
    + set_solver.
    + clear -Hall H2. set_solver.
Qed.
End reassembly.

(** C33: A signed object cut by [split_chunks] is reassembled exactly by an idle assembler of its mesh, with room
    for it, that has not accepted that revision or a later one, whatever the order and however often the
    redundant streams repeat its chunks: every push before the last missing chunk returns nothing, the last one
    returns the object's bytes and leaves the assembler idle; once the revision is committed every further copy of
    its chunks is silently discarded. *)
Theorem chunks_reassemble mesh revision bytes maximum_body cs a l c more
    (Hsplit : split_chunks mesh revision bytes maximum_body = Ok cs)
    (Hmesh : ca_mesh_id a = mesh) (Hnew : rolled_back revision a = false) (Hidle : ca_pending a = None)
    (Hcount : lenN cs <= maximum_chunks a) (Hbytes : lenN bytes <= maximum_bytes a)
    (Husize : maximum_bytes a <= USIZE_MAX)
    (Hl : l ⊆ cs) (Hc : c ∈ cs) (Hlast : c ∉ l) (Hall : cs ⊆ c :: l) (Hmore : more ⊆ cs) :
  receive (l ++ [c]) a = (a, replicate (length l) (Ok None) ++ [Ok (Some bytes)]) /\
  let committed := commit revision a in
  committed.2 = Ok tt /\ accepted_revision committed.1 = Some revision /\
  receive more committed.1 = (committed.1, replicate (length more) (Ok None)).
Proof.
  destruct (split_chunks_spec _ _ _ _ _ Hsplit) as (bodies & -> & Hb0 & <- & Hne).
  assert (Hlen : lenN bodies <= maximum_chunks a) by (unfold lenN in *; by rewrite length_imap in Hcount).
  assert (Ha : set_pending None a = a) by (destruct a; cbn in *; by subst).
  split.
  - rewrite <-Ha at 2. apply (receive_step mesh revision bodies a) with (received := []); try done; try lia; [|set_solver].
    eapply Forall_impl; [exact Hne|]. cbn. lia.
  - unfold commit. rewrite Hnew. cbn. split; [done|]. split; [done|]. clear Hall.
    induction more as [|x more IH]; cbn; [done|].
    assert (Hx : push_redundant x (mkAssembler (ca_mesh_id a) (Some revision) (ca_pending a) (maximum_chunks a)
      (maximum_bytes a)) = (mkAssembler (ca_mesh_id a) (Some revision) (ca_pending a) (maximum_chunks a)
      (maximum_bytes a), Ok None)).
    { assert (Hx : x ∈ imap (fun j body => mkChunk mesh revision (N.of_nat j) (lenN bodies) body) bodies) by set_solver.
      apply numbered_elem in Hx as (H1 & H2 & _). unfold push_redundant, rolled_back. cbn.
      by rewrite H1, H2, Hmesh, bool_decide_eq_true_2, N.leb_refl. }
    rewrite Hx. cbn. rewrite IH by set_solver. done.
Qed.

(** ** Witnesses *)

Definition example_bytes : list byte := [x01; x02; x03; x04; x05].
Definition example_chunk (i : N) (b : list byte) : RevisionChunk := mkChunk (mkDomainId 7) 3 i 3 b.
Lemma chunks_reassemble_witness :
  let cs := [example_chunk 0 [x01; x02]; example_chunk 1 [x03; x04]; example_chunk 2 [x05]] in
  let a := new (mkDomainId 7) 4 100 in
  split_chunks (mkDomainId 7) 3 example_bytes 2 = Ok cs /\
  receive ([example_chunk 2 [x05]; example_chunk 0 [x01; x02]; example_chunk 2 [x05]] ++ [example_chunk 1 [x03; x04]]) a
    = (a, [Ok None; Ok None; Ok None; Ok (Some example_bytes)]).
Proof.
  cbn zeta. split; [reflexivity|].
  apply (chunks_reassemble (mkDomainId 7) 3 example_bytes 2 [example_chunk 0 [x01; x02]; example_chunk 1 [x03; x04];
    example_chunk 2 [x05]] (new (mkDomainId 7) 4 100) [example_chunk 2 [x05]; example_chunk 0 [x01; x02];
    example_chunk 2 [x05]] (example_chunk 1 [x03; x04]) []); try reflexivity; try done; try set_solver.
Defined.

End Dir.
