(* ===== verification/Topology.v ===== *)
(** * The Relay topology (crate [peerward-directory], relay_topology.rs)

    The deterministic backbone graph every member of a mesh computes and signs:
    its regional construction, its canonicity check, and the bounded
    shortest-path search that routing reads its next hops from. *)

From S2P Require Import Prelude Ordered Net Directory.
From Stdlib Require Import NArith Lia.
From stdpp Require Import base tactics decidable countable numbers list sorting gmap relations.
From Stdlib.Init Require Import Byte.
Set Default Goal Selector "!".
Local Open Scope N_scope.

Module Topo.

Inductive RelayTopologyMode := FullMesh | Sparse.
#[export] Instance RelayTopologyMode_eq_dec : EqDecision RelayTopologyMode.
Proof. solve_decision. Defined.

(** The region is the UTF-8 bytes of the [String], whose order it has. *)
Record RelayTopologyNodeV1 := mkNode {
  relay_id : RelayId;
  region : list byte;
  routing_weight : N;
  capabilities : N;
}.
#[export] Instance RelayTopologyNodeV1_eq_dec : EqDecision RelayTopologyNodeV1.
Proof. solve_decision. Defined.

Record RelayTopologyEdgeV1 := mkEdge {
  left : RelayId;
  right : RelayId;
  rtt_millis : N;
  loss_permyriad : N;
}.
#[export] Instance RelayTopologyEdgeV1_eq_dec : EqDecision RelayTopologyEdgeV1.
Proof. solve_decision. Defined.
(** The derived [Ord]: the fields in the order they are declared. *)
Definition edge_key (e : RelayTopologyEdgeV1) : RelayId * RelayId * N * N :=
  (left e, right e, rtt_millis e, loss_permyriad e).
#[export] Instance edge_key_inj : Inj (=) (=) edge_key.
Proof. intros [] []. unfold edge_key. cbn. intros. by simplify_eq. Qed.
#[export] Instance RelayTopologyEdgeV1_compare : Compare RelayTopologyEdgeV1 := compare_via edge_key.
#[export] Instance RelayTopologyEdgeV1_compare_laws : CompareLaws RelayTopologyEdgeV1.
Proof. apply compare_via_laws, _. Qed.
#[export] Instance RelayTopologyEdgeV1_countable : Countable RelayTopologyEdgeV1.
Proof.
  apply (inj_countable' edge_key (fun k => mkEdge k.1.1.1 k.1.1.2 k.1.2 k.2)). by intros [].
Defined.

Definition default_backbone_rtt_millis : N := 120000.
Definition default_backbone_loss_permyriad : N := 10000.

Definition edge_new (first second : RelayId) : option RelayTopologyEdgeV1 :=
  if bool_decide (first = second) then None
  else
    let p := if ltb_of first second then (first, second) else (second, first) in
    Some (mkEdge p.1 p.2 default_backbone_rtt_millis default_backbone_loss_permyriad).
Definition other (self : RelayTopologyEdgeV1) (relay : RelayId) : option RelayId :=
  if bool_decide (relay = left self) then Some (right self)
  else if bool_decide (relay = right self) then Some (left self)
  else None.
Definition sat_mul (a b : N) : N := N.min (a * b) U64_MAX.
Definition routing_cost (self : RelayTopologyEdgeV1) : N :=
  sat_add (rtt_millis self) (sat_mul (loss_permyriad self) 10).

Record RelayTopologyV1 := mkTopology {
  mesh_id : MeshId;
  revision : N;
  mode : RelayTopologyMode;
  nodes : list RelayTopologyNodeV1;
  edges : list RelayTopologyEdgeV1;
}.

(** ** Construction *)

Notation edge_set := (gset RelayTopologyEdgeV1).

(** [if let Some(edge) = RelayTopologyEdgeV1::new(..) { edges.insert(edge); }] *)
Definition add_edge (es : edge_set) (first second : RelayId) : edge_set :=
  match edge_new first second with Some edge => {[edge]} ∪ es | None => es end.

Definition add_forward_ring (es : edge_set) (ns : list RelayTopologyNodeV1) (distance : N) : edge_set :=
  if lenN ns <? 2 then es
  else foldl (fun es index =>
         match ns !! index, ns !! N.to_nat ((N.of_nat index + distance) mod lenN ns) with
         | Some node, Some other => add_edge es (relay_id node) (relay_id other)
         | _, _ => es
         end) es (seq 0 (length ns)).

(** [regions.entry(&node.region).or_default().push(node)] for each node *)
Definition group_regions (ns : list RelayTopologyNodeV1) : gmap (list byte) (list RelayTopologyNodeV1) :=
  foldl (fun m node => <[region node := default [] (m !! region node) ++ [node]]> m) ∅ ns.

(** [sort_by_key(|node| (Reverse(node.routing_weight), node.relay_id)); truncate(2)] *)
Definition gateway_key (n : RelayTopologyNodeV1) : Reverse N * RelayId := (mkReverse (routing_weight n), relay_id n).
Definition select_two (ns : list RelayTopologyNodeV1) : list RelayTopologyNodeV1 :=
  take 2 (sort_by_key gateway_key ns).

(** Two nested loops that add an edge for every pair. *)
Definition add_product (es : edge_set) (xs ys : list RelayTopologyNodeV1) : edge_set :=
  foldl (fun es x => foldl (fun es y => add_edge es (relay_id x) (relay_id y)) es ys) es xs.

(** The body of the loop over the regions; the gateways are pushed in region order. *)
Definition add_region (acc : edge_set * list (list RelayTopologyNodeV1))
    (entry : list byte * list RelayTopologyNodeV1) : edge_set * list (list RelayTopologyNodeV1) :=
  let members := entry.2 in
  let es := add_forward_ring (add_forward_ring acc.1 members 1) members 2 in
  let selected := select_two members in
  (add_product es members selected, acc.2 ++ [selected]).

(** [gateways[i].1.get(lane).or_else(|| gateways[i].1.first())] *)
Definition lane_gateway (gateways : list (list RelayTopologyNodeV1)) (i : N) (lane : nat) : option RelayTopologyNodeV1 :=
  match gateways !! N.to_nat i with
  | Some selected => match selected !! lane with Some n => Some n | None => head selected end
  | None => None
  end.
Definition add_lane (gateways : list (list RelayTopologyNodeV1)) (index : N) (es : edge_set) (lane : nat) : edge_set :=
  let next := (index + 1) mod lenN gateways in
  match lane_gateway gateways index lane, lane_gateway gateways next lane with
  | Some l, Some r => add_edge es (relay_id l) (relay_id r)
  | _, _ => es
  end.
Definition add_lanes (gateways : list (list RelayTopologyNodeV1)) (es : edge_set) : edge_set :=
  foldl (fun es index => foldl (add_lane gateways (N.of_nat index)) es [0%nat; 1%nat]) es (seq 0 (length gateways)).
Definition add_global (gateways : list (list RelayTopologyNodeV1)) (es : edge_set) : edge_set :=
  let global_gateways := select_two (concat gateways) in
  foldl (fun es regional_gateways => add_product es regional_gateways global_gateways) es gateways.

Definition sparse_edges (ns : list RelayTopologyNodeV1) : edge_set :=
  let acc := foldl add_region (∅, []) (bt_entries (group_regions ns)) in
  if 1 <? lenN acc.2 then add_global acc.2 (add_lanes acc.2 acc.1) else acc.1.

Fixpoint full_mesh_edges (es : edge_set) (ns : list RelayTopologyNodeV1) : edge_set :=
  match ns with
  | [] => es
  | l :: ns' => full_mesh_edges (foldl (fun es r => add_edge es (relay_id l) (relay_id r)) es ns') ns'
  end.

(** ** Validation *)

Definition region_byte (b : byte) : bool :=
  ((97 <=? u8 b) && (u8 b <=? 122)) || ((48 <=? u8 b) && (u8 b <=? 57)) || (u8 b =? 45).
Definition node_ok (n : RelayTopologyNodeV1) : bool :=
  negb ((lenN (region n) =? 0) || (32 <? lenN (region n))
        || negb ((1 <=? routing_weight n) && (routing_weight n <=? 1000))
        || negb (forallb region_byte (region n))).
Definition edge_ok (node_ids : gset RelayId) (e : RelayTopologyEdgeV1) : bool :=
  negb (leb_of (right e) (left e)
        || negb (bool_decide (left e ∈ node_ids)) || negb (bool_decide (right e ∈ node_ids))
        || (default_backbone_rtt_millis <? rtt_millis e)
        || (default_backbone_loss_permyriad <? loss_permyriad e)).

Definition validate (self : RelayTopologyV1) : outcome Dir.DirectoryError unit :=
  if (4096 <? lenN (nodes self)) || (65536 <? lenN (edges self)) then Err Dir.NonCanonical else
  _ ← Dir.ensure_sorted_unique (relay_id <$> nodes self);
  let node_ids : gset RelayId := list_to_set (relay_id <$> nodes self) in
  if negb (forallb node_ok (nodes self)) then Err Dir.NonCanonical else
  _ ← Dir.ensure_sorted_unique (edges self);
  _ ← Dir.ensure_unique ((fun e => (left e, right e)) <$> edges self);
  if negb (forallb (edge_ok node_ids) (edges self)) then Err Dir.NonCanonical else
  Ok tt.

Definition build (mesh : MeshId) (rev : N) (ns : list RelayTopologyNodeV1) (sparse_threshold sparse_capability : N)
    : outcome Dir.DirectoryError RelayTopologyV1 :=
  let ns := sort_by_key relay_id ns in
  _ ← Dir.ensure_unique (relay_id <$> ns);
  let sparse := (sparse_threshold <=? lenN ns)
                && forallb (fun n => negb (N.land (capabilities n) sparse_capability =? 0)) ns in
  let es := if sparse then sparse_edges ns else full_mesh_edges ∅ ns in
  let topology := mkTopology mesh rev (if sparse then Sparse else FullMesh) ns (bt_elements es) in
  _ ← validate topology;
  Ok topology.

(** [health] is the [BTreeMap] keyed by the canonical pair. *)
Definition with_health (health : gmap (RelayId * RelayId) (N * N)) (e : RelayTopologyEdgeV1) : RelayTopologyEdgeV1 :=
  match health !! (left e, right e) with
  | Some sample => mkEdge (left e) (right e) sample.1 sample.2
  | None => e
  end.
Definition apply_link_health (health : gmap (RelayId * RelayId) (N * N)) (self : RelayTopologyV1)
    : RelayTopologyV1 * outcome Dir.DirectoryError unit :=
  if existsb (fun kv => (default_backbone_rtt_millis <? kv.2.1) || (default_backbone_loss_permyriad <? kv.2.2))
       (map_to_list health)
  then (self, Err Dir.NonCanonical)
  else
    let self := mkTopology (mesh_id self) (revision self) (mode self) (nodes self)
                  (with_health health <$> edges self) in
    (self, validate self).

(** ** Bounded shortest paths *)

Notation adjacency_map := (gmap RelayId (list (RelayId * N))).
Definition adjacency_push (adj : adjacency_map) (k : RelayId) (v : RelayId * N) : adjacency_map :=
  <[k := default [] (adj !! k) ++ [v]]> adj.
Definition adjacency (es : list RelayTopologyEdgeV1) : adjacency_map :=
  foldl (fun adj e =>
    let cost := routing_cost e in
    adjacency_push (adjacency_push adj (left e) (right e, cost)) (right e) (left e, cost)) ∅ es.

(** The entry [(cost, hops, node, first_hop)] of the heap, and [best]. The heap
    pops its least entry: it is kept as the sorted list of its entries. *)
Notation entry := (N * N * RelayId * RelayId)%type.
Record search := mkSearch { best : gmap (RelayId * N) N; pending : list entry }.
Definition heap_push (e : entry) (h : list entry) : list entry := insert_by id e h.

Definition seed (excluded_first_hop : option RelayId) (st : search) (edge : RelayId * N) : search :=
  if bool_decide (excluded_first_hop = Some edge.1) then st
  else mkSearch (<[(edge.1, 1) := edge.2]> (best st)) (heap_push (edge.2, 1, edge.1, edge.1) (pending st)).

Definition relax (source : RelayId) (cost hops : N) (first_hop : RelayId) (st : search) (edge : RelayId * N) : search :=
  if bool_decide (edge.1 = source) then st
  else
    let next_hops := hops + 1 in
    let next_cost := sat_add cost edge.2 in
    let key := (edge.1, next_hops) in
    if match best st !! key with Some known => known <=? next_cost | None => false end then st
    else mkSearch (<[key := next_cost]> (best st)) (heap_push (next_cost, next_hops, edge.1, first_hop) (pending st)).

(** One turn of [while let Some(..) = pending.pop()]. *)
Inductive turn := Continue (st : search) | Return (r : option (N * RelayId)).
Definition search_turn (adj : adjacency_map) (source destination : RelayId) (st : search) : turn :=
  match pending st with
  | [] => Return None
  | (cost, hops, node, first_hop) :: pending' =>
      let st := mkSearch (best st) pending' in
      if default U64_MAX (best st !! (node, hops)) <? cost then Continue st
      else if bool_decide (node = destination) then Return (Some (cost, first_hop))
      else if hops =? 4 then Continue st
      else Continue (foldl (relax source cost hops first_hop) st (default [] (adj !! node)))
  end.
Fixpoint search_loop (fuel : nat) (adj : adjacency_map) (source destination : RelayId) (st : search)
    : option (option (N * RelayId)) :=
  match fuel with
  | O => None
  | S fuel' =>
      match search_turn adj source destination st with
      | Continue st' => search_loop fuel' adj source destination st'
      | Return r => Some r
      end
  end.

(** Turns an entry at [hops] can cause in a graph of degree at most [d]. *)
Fixpoint turns (d : nat) (left_hops : nat) : nat :=
  match left_hops with O => 1%nat | S k => S (d * turns d k)%nat end.
Definition search_fuel (d : nat) : nat := S (d * turns d 3).

(** [None] is a run out of fuel, which [search_terminates] excludes. *)
Definition shortest_next_hop_fuel (fuel : nat) (topology : RelayTopologyV1) (source destination : RelayId)
    (excluded_first_hop : option RelayId) : option (option (N * RelayId)) :=
  if bool_decide (source = destination) then Some None
  else
    let adj := adjacency (edges topology) in
    match adj !! source with
    | None => Some None
    | Some neighbors =>
        search_loop fuel adj source destination (foldl (seed excluded_first_hop) (mkSearch ∅ []) neighbors)
    end.
Definition shortest_next_hop (topology : RelayTopologyV1) (source destination : RelayId)
    (excluded_first_hop : option RelayId) : option (N * RelayId) :=
  default None (shortest_next_hop_fuel (search_fuel (2 * length (edges topology))) topology source destination
                  excluded_first_hop).

Definition next_hops (self : RelayTopologyV1) (source destination : RelayId) : list RelayId :=
  match shortest_next_hop self source destination None with
  | None => []
  | Some (_, primary) =>
      match shortest_next_hop self source destination (Some primary) with
      | None => [primary]
      | Some (_, backup) => [primary; backup]
      end
  end.

(** ** The edges the construction adds *)

Lemma elem_of_fold {A B} `{Countable B} (f : gset B -> A -> gset B) (P : A -> B -> Prop) :
  (forall s x b, b ∈ f s x <-> b ∈ s \/ P x b) ->
  forall l s b, b ∈ foldl f s l <-> b ∈ s \/ exists x, x ∈ l /\ P x b.
Proof.
  intros Hf l. induction l as [|x l IH]; intros s b; cbn.
  - setoid_rewrite elem_of_nil. naive_solver.
  - rewrite IH, Hf. setoid_rewrite elem_of_cons. naive_solver.
Qed.
Lemma size_fold {A B} `{Countable B} (f : gset B -> A -> gset B) (w : A -> N) :
  (forall s x, N.of_nat (size (f s x)) <= N.of_nat (size s) + w x) ->
  forall l s, N.of_nat (size (foldl f s l)) <= N.of_nat (size s) + foldr (fun x acc => w x + acc) 0 l.
Proof.
  intros Hf l. induction l as [|x l IH]; intros s; cbn; [lia|]. specialize (IH (f s x)). specialize (Hf s x). lia.
Qed.
Lemma foldr_le_mul {A} (w : A -> N) k l : (forall x, x ∈ l -> w x <= k) -> foldr (fun x acc => w x + acc) 0 l <= k * lenN l.
Proof.
  induction l as [|x l IH]; intros Hw; cbn [foldr]; [lia|]. rewrite lenN_cons.
  pose proof (Hw x (list_elem_of_here _ _)). assert (foldr (fun x acc => w x + acc) 0 l <= k * lenN l); [|lia].
  apply IH. intros y Hy. apply Hw. by right.
Qed.

Lemma ltb_of_swap (a b : RelayId) : a <> b -> ltb_of b a = negb (ltb_of a b).
Proof.
  intros Hne. unfold ltb_of. rewrite (compare_antisym a b). destruct (compare a b) eqn:Hc; try done.
  by apply compare_eq in Hc.
Qed.
Lemma edge_new_comm a b : edge_new a b = edge_new b a.
Proof.
  unfold edge_new. destruct (decide (a = b)) as [->|Hne]; [done|].
  rewrite !bool_decide_eq_false_2 by congruence. rewrite (ltb_of_swap a b) by done. by destruct (ltb_of a b).
Qed.
Lemma edge_new_is_Some a b : a <> b -> is_Some (edge_new a b).
Proof. intros Hne. unfold edge_new. rewrite bool_decide_eq_false_2 by done. eauto. Qed.
(** The edge joins the two relays, is canonical, and is priced conservatively. *)
Lemma edge_new_Some a b e : edge_new a b = Some e ->
  a <> b /\ leb_of (right e) (left e) = false /\
  (left e = a /\ right e = b \/ left e = b /\ right e = a) /\
  rtt_millis e = default_backbone_rtt_millis /\ loss_permyriad e = default_backbone_loss_permyriad.
Proof.
  unfold edge_new. case_bool_decide as Hne; [done|]. intros [= <-]. cbn.
  destruct (ltb_of a b) eqn:Hlt; cbn.
  - split_and!; try done; [|by left]. rewrite ltb_of_leb in Hlt. by destruct (leb_of b a).
  - split_and!; try done; [|by right]. assert (Hba : ltb_of b a = true) by by rewrite ltb_of_swap, Hlt.
    rewrite ltb_of_leb in Hba. by destruct (leb_of a b).
Qed.

Lemma elem_of_add_edge es a b e : e ∈ add_edge es a b <-> e ∈ es \/ edge_new a b = Some e.
Proof. unfold add_edge. destruct (edge_new a b); set_solver. Qed.
Lemma size_add_edge es a b : N.of_nat (size (add_edge es a b)) <= N.of_nat (size es) + 1.
Proof.
  unfold add_edge. destruct (edge_new a b) as [e|]; [|lia].
  pose proof (size_union_alt {[e]} es) as Hu. pose proof (subseteq_size (es ∖ {[e]}) es ltac:(set_solver)) as Hs.
  rewrite size_singleton in Hu. lia.
Qed.

(** An edge between two of the nodes. *)
Definition between (ns : list RelayTopologyNodeV1) (e : RelayTopologyEdgeV1) : Prop :=
  exists a b, a ∈ relay_id <$> ns /\ b ∈ relay_id <$> ns /\ edge_new a b = Some e.

Definition ring_link (ns : list RelayTopologyNodeV1) (distance : N) (index : nat) (e : RelayTopologyEdgeV1) : Prop :=
  match ns !! index, ns !! N.to_nat ((N.of_nat index + distance) mod lenN ns) with
  | Some node, Some other => edge_new (relay_id node) (relay_id other) = Some e
  | _, _ => False
  end.
Lemma elem_of_ring es ns d e :
  e ∈ add_forward_ring es ns d <->
  e ∈ es \/ (2 <= lenN ns /\ exists i, i ∈ seq 0 (length ns) /\ ring_link ns d i e).
Proof.
  unfold add_forward_ring. destruct (N.ltb_spec (lenN ns) 2); [split; [by left|by intros [?|[? _]]; [|lia]]|].
  rewrite (elem_of_fold _ (ring_link ns d)); [naive_solver|].
  intros s x b. unfold ring_link. repeat case_match; try (split; [by left|by intros [?|[]]]). apply elem_of_add_edge.
Qed.
Lemma ring_between ns d i e : ring_link ns d i e -> between ns e.
Proof.
  unfold ring_link. destruct (ns !! i) as [x|] eqn:Hx; [|done]. destruct (ns !! N.to_nat _) as [y|] eqn:Hy; [|done].
  intros He. exists (relay_id x), (relay_id y).
  split_and!; [| |done]; apply list_elem_of_fmap_2; by eapply list_elem_of_lookup_2.
Qed.
Lemma size_ring es ns d : N.of_nat (size (add_forward_ring es ns d)) <= N.of_nat (size es) + lenN ns.
Proof.
  unfold add_forward_ring. destruct (_ <? 2); [lia|].
  etransitivity; [apply (size_fold _ (fun _ => 1))|].
  - intros s x. repeat case_match; try lia. apply size_add_edge.
  - pose proof (foldr_le_mul (fun _ : nat => 1) 1 (seq 0 (length ns))) as Hf. unfold lenN in *.
    rewrite length_seq in Hf. specialize (Hf (fun _ _ => N.le_refl _)). lia.
Qed.

Definition product_link (xs ys : list RelayTopologyNodeV1) (e : RelayTopologyEdgeV1) : Prop :=
  exists x, x ∈ xs /\ exists y, y ∈ ys /\ edge_new (relay_id x) (relay_id y) = Some e.
Lemma elem_of_product es xs ys e : e ∈ add_product es xs ys <-> e ∈ es \/ product_link xs ys e.
Proof.
  unfold add_product, product_link.
  apply (elem_of_fold _ (fun x e => exists y, y ∈ ys /\ edge_new (relay_id x) (relay_id y) = Some e)).
  intros s x b. apply (elem_of_fold _ (fun y e => edge_new (relay_id x) (relay_id y) = Some e)).
  intros s' y b'. apply elem_of_add_edge.
Qed.
Lemma size_product es xs ys : N.of_nat (size (add_product es xs ys)) <= N.of_nat (size es) + lenN ys * lenN xs.
Proof.
  unfold add_product. etransitivity; [apply (size_fold _ (fun _ => lenN ys))|].
  - intros s x. etransitivity; [apply (size_fold _ (fun _ => 1))|].
    + intros s' y. apply size_add_edge.
    + pose proof (foldr_le_mul (fun _ : RelayTopologyNodeV1 => 1) 1 ys (fun _ _ => N.le_refl _)) as Hf. cbv beta in *. lia.
  - pose proof (foldr_le_mul (fun _ : RelayTopologyNodeV1 => lenN ys) (lenN ys) xs (fun _ _ => N.le_refl _)) as Hf. cbv beta in *. lia.
Qed.

Lemma elem_of_select_two ns n : n ∈ select_two ns -> n ∈ ns.
Proof.
  unfold select_two. intros Hn. apply (elem_of_sort_by_key gateway_key).
  rewrite <-(take_drop 2 (sort_by_key gateway_key ns)). apply elem_of_app. by left.
Qed.
Lemma select_two_nonempty ns : ns <> [] -> exists n, n ∈ select_two ns.
Proof.
  unfold select_two. intros Hne. pose proof (length_sort_by_key gateway_key ns).
  destruct (sort_by_key gateway_key ns) as [|x l]; [by destruct ns|]. exists x. cbn. left.
Qed.
Lemma length_select_two ns : lenN (select_two ns) <= N.min 2 (lenN ns).
Proof. unfold select_two, lenN. rewrite length_take, length_sort_by_key. lia. Qed.

Lemma group_regions_lookup ns r :
  group_regions ns !! r = match filter (fun n => region n = r) ns with [] => None | l => Some l end.
Proof.
  unfold group_regions. induction ns as [|n ns IH] using rev_ind; [apply lookup_empty|].
  rewrite foldl_app. cbn. rewrite filter_app, filter_cons, filter_nil. destruct (decide (region n = r)) as [<-|Hne].
  - rewrite lookup_insert_eq, IH. cbn. by destruct (filter _ ns).
  - rewrite lookup_insert_ne, app_nil_r by done. apply IH.
Qed.
Lemma group_regions_sum ns : map_sum lenN (group_regions ns) = lenN ns.
Proof.
  induction ns as [|n ns IH] using rev_ind; [done|]. unfold group_regions in *. rewrite foldl_app. cbn.
  set (m := foldl _ ∅ ns) in *. rewrite lenN_app, <-IH. destruct (m !! region n) as [l|] eqn:Hl; cbn.
  - pose proof (map_sum_insert_Some lenN m (region n) (l ++ [n]) l Hl) as Hs. rewrite lenN_app in Hs.
    unfold lenN in *. cbn in *. lia.
  - rewrite map_sum_insert_None by done. unfold lenN. cbn. lia.
Qed.

(** The regions as the loop meets them. *)
Definition regions (ns : list RelayTopologyNodeV1) : list (list RelayTopologyNodeV1) := (bt_entries (group_regions ns)).*2.
Definition gateways (ns : list RelayTopologyNodeV1) : list (list RelayTopologyNodeV1) := select_two <$> regions ns.

Lemma elem_of_regions ns members :
  members ∈ regions ns <-> members <> [] /\ exists r, members = filter (fun n => region n = r) ns.
Proof.
  unfold regions. rewrite list_elem_of_fmap. split.
  - intros ([r l] & -> & Hl). cbn. apply elem_of_bt_entries in Hl. rewrite group_regions_lookup in Hl.
    destruct (filter _ ns) eqn:Hf; [done|]. injection Hl as <-. split; [done|]. by exists r.
  - intros (Hne & r & ->). exists (r, filter (fun n => region n = r) ns). split; [done|]. apply elem_of_bt_entries.
    rewrite group_regions_lookup. by destruct (filter _ ns).
Qed.
Lemma region_of ns n : n ∈ ns -> exists members, members ∈ regions ns /\ n ∈ members.
Proof.
  intros Hn. exists (filter (fun x => region x = region n) ns).
  assert (Hin : n ∈ filter (fun x => region x = region n) ns) by by apply list_elem_of_filter.
  split; [|done]. apply elem_of_regions. split; [|by eexists]. intros He. rewrite He in Hin. by apply not_elem_of_nil in Hin.
Qed.
Lemma region_members ns members n : members ∈ regions ns -> n ∈ members -> n ∈ ns.
Proof. intros (_ & r & ->)%elem_of_regions [_ Hn]%list_elem_of_filter. done. Qed.
Lemma regions_sum ns : foldr (fun m acc => lenN m + acc) 0 (regions ns) = lenN ns.
Proof. unfold regions. by rewrite <-(map_sum_entries lenN), group_regions_sum. Qed.
Lemma length_regions ns : lenN (regions ns) <= lenN ns.
Proof.
  rewrite <-regions_sum. assert (Hne : Forall (fun m => m <> []) (regions ns)).
  { apply Forall_forall. intros m Hm. by apply elem_of_regions in Hm as [? _]. }
  induction Hne as [|m l Hm _ IH]; cbn [foldr]; [done|]. rewrite lenN_cons. destruct m; [done|]. rewrite lenN_cons. lia.
Qed.

Definition region_edges (es : edge_set) (members : list RelayTopologyNodeV1) : edge_set :=
  add_product (add_forward_ring (add_forward_ring es members 1) members 2) members (select_two members).
Lemma add_region_fold es gs l :
  foldl add_region (es, gs) l = (foldl region_edges es l.*2, gs ++ (select_two <$> l.*2)).
Proof.
  revert es gs. induction l as [|e l IH]; intros es gs; cbn; [by rewrite app_nil_r|].
  change (add_region (es, gs) e) with (region_edges es e.2, gs ++ [select_two e.2]). rewrite IH.
  f_equal. by rewrite <-app_assoc.
Qed.
Lemma sparse_edges_eq ns :
  sparse_edges ns =
    let es := foldl region_edges ∅ (regions ns) in
    if 1 <? lenN (gateways ns) then add_global (gateways ns) (add_lanes (gateways ns) es) else es.
Proof. unfold sparse_edges. rewrite add_region_fold. done. Qed.

Definition region_link (members : list RelayTopologyNodeV1) (e : RelayTopologyEdgeV1) : Prop :=
  (2 <= lenN members /\ exists i d, i ∈ seq 0 (length members) /\ d ∈ [1; 2] /\ ring_link members d i e) \/
  product_link members (select_two members) e.
Lemma elem_of_region_edges es members e : e ∈ region_edges es members <-> e ∈ es \/ region_link members e.
Proof.
  unfold region_edges, region_link. rewrite elem_of_product, !elem_of_ring.
  setoid_rewrite elem_of_cons. setoid_rewrite list_elem_of_singleton. naive_solver.
Qed.
Lemma size_region_edges es members :
  N.of_nat (size (region_edges es members)) <= N.of_nat (size es) + 4 * lenN members.
Proof.
  unfold region_edges. pose proof (size_ring es members 1). pose proof (size_ring (add_forward_ring es members 1) members 2).
  pose proof (size_product (add_forward_ring (add_forward_ring es members 1) members 2) members (select_two members)).
  pose proof (length_select_two members). nia.
Qed.

Definition lane_link (gs : list (list RelayTopologyNodeV1)) (index : nat) (lane : nat) (e : RelayTopologyEdgeV1) : Prop :=
  match lane_gateway gs (N.of_nat index) lane, lane_gateway gs ((N.of_nat index + 1) mod lenN gs) lane with
  | Some l, Some r => edge_new (relay_id l) (relay_id r) = Some e
  | _, _ => False
  end.
Lemma elem_of_lanes gs es e :
  e ∈ add_lanes gs es <-> e ∈ es \/ exists i, i ∈ seq 0 (length gs) /\ exists lane, lane ∈ [0%nat; 1%nat] /\ lane_link gs i lane e.
Proof.
  unfold add_lanes. apply (elem_of_fold _ (fun i e => exists lane, lane ∈ [0%nat; 1%nat] /\ lane_link gs i lane e)).
  intros s i b. apply (elem_of_fold _ (fun lane e => lane_link gs i lane e)). intros s' lane b'.
  unfold add_lane, lane_link. repeat case_match; try (split; [by left|by intros [?|[]]]). apply elem_of_add_edge.
Qed.
Lemma size_lanes gs es : N.of_nat (size (add_lanes gs es)) <= N.of_nat (size es) + 2 * lenN gs.
Proof.
  unfold add_lanes. etransitivity; [apply (size_fold _ (fun _ => 2))|].
  - intros s i. etransitivity; [apply (size_fold _ (fun _ => 1))|cbn; lia].
    intros s' lane. unfold add_lane. repeat case_match; try lia. apply size_add_edge.
  - pose proof (foldr_le_mul (fun _ : nat => 2) 2 (seq 0 (length gs)) (fun _ _ => N.le_refl _)) as Hf.
    unfold lenN in *. rewrite length_seq in Hf. cbv beta in *. lia.
Qed.
Lemma lane_gateway_elem gs i lane n : lane_gateway gs i lane = Some n -> exists g, g ∈ gs /\ n ∈ g.
Proof.
  unfold lane_gateway. destruct (gs !! N.to_nat i) as [g|] eqn:Hg; [|done]. intros Hn. exists g.
  split; [by eapply list_elem_of_lookup_2|]. destruct (g !! lane) as [m|] eqn:Hm.
  - injection Hn as <-. by eapply list_elem_of_lookup_2.
  - destruct g; [done|]. injection Hn as <-. left.
Qed.

Lemma elem_of_global gs es e :
  e ∈ add_global gs es <-> e ∈ es \/ exists g, g ∈ gs /\ product_link g (select_two (concat gs)) e.
Proof.
  unfold add_global. apply (elem_of_fold _ (fun g e => product_link g (select_two (concat gs)) e)).
  intros s g b. apply elem_of_product.
Qed.
Lemma size_global gs es :
  (forall g, g ∈ gs -> lenN g <= 2) -> N.of_nat (size (add_global gs es)) <= N.of_nat (size es) + 4 * lenN gs.
Proof.
  intros Hg. unfold add_global. etransitivity; [apply (size_fold _ (fun g => 2 * lenN g))|].
  - intros s g. etransitivity; [apply size_product|]. pose proof (length_select_two (concat gs)). nia.
  - pose proof (foldr_le_mul (fun g : list RelayTopologyNodeV1 => 2 * lenN g) 4 gs) as Hf. cbv beta in *.
    assert (Hb : forall x, x ∈ gs -> 2 * lenN x <= 4) by (intros x Hx; specialize (Hg _ Hx); lia).
    specialize (Hf Hb). lia.
Qed.

(** *** Every edge joins two nodes, and there are linearly many *)

Lemma product_between ns xs ys e :
  (forall x, x ∈ xs -> x ∈ ns) -> (forall y, y ∈ ys -> y ∈ ns) -> product_link xs ys e -> between ns e.
Proof.
  intros Hx Hy (x & Hxs & y & Hys & He). exists (relay_id x), (relay_id y).
  split_and!; [| |done]; apply list_elem_of_fmap_2; auto.
Qed.
Lemma region_between ns members e : members ∈ regions ns -> region_link members e -> between ns e.
Proof.
  intros Hm. assert (Hsub : forall x, x ∈ members -> x ∈ ns) by (intros x; by apply region_members).
  intros [(_ & i & d & _ & _ & He)|He].
  - apply ring_between in He as (a & b & Ha & Hb & He). exists a, b.
    apply list_elem_of_fmap in Ha as (x & -> & Hx), Hb as (y & -> & Hy).
    split_and!; [| |done]; apply list_elem_of_fmap_2; auto.
  - eapply product_between; [exact Hsub| |exact He]. intros y Hy%elem_of_select_two. auto.
Qed.
Lemma gateways_members ns g n : g ∈ gateways ns -> n ∈ g -> n ∈ ns.
Proof.
  intros (m & -> & Hm)%list_elem_of_fmap Hn%elem_of_select_two. by eapply region_members.
Qed.
Lemma global_members ns n : n ∈ select_two (concat (gateways ns)) -> n ∈ ns.
Proof.
  intros Hn%elem_of_select_two%list_elem_of_In%in_concat. destruct Hn as (g & Hg%list_elem_of_In & Hn%list_elem_of_In).
  by eapply gateways_members.
Qed.

Lemma elem_of_region_fold ns e :
  e ∈ foldl region_edges ∅ (regions ns) <-> exists members, members ∈ regions ns /\ region_link members e.
Proof. rewrite (elem_of_fold _ region_link) by (intros; apply elem_of_region_edges). set_solver. Qed.

Lemma sparse_between ns e : e ∈ sparse_edges ns -> between ns e.
Proof.
  rewrite sparse_edges_eq. cbv zeta.
  assert (Hregion : e ∈ foldl region_edges ∅ (regions ns) -> between ns e).
  { intros (m & Hm & He)%elem_of_region_fold. by eapply region_between. }
  destruct (1 <? _); [|done]. rewrite elem_of_global, elem_of_lanes.
  intros [[He|(i & _ & lane & _ & He)]|(g & Hg & He)]; [auto| |].
  - unfold lane_link in He. destruct (lane_gateway (gateways ns) (N.of_nat i) lane) as [l|] eqn:Hl,
      (lane_gateway (gateways ns) ((N.of_nat i + 1) mod lenN (gateways ns)) lane) as [r|] eqn:Hr; try done.
    apply lane_gateway_elem in Hl as (gl & Hgl & Hl), Hr as (gr & Hgr & Hr). exists (relay_id l), (relay_id r).
    split_and!; [| |done]; apply list_elem_of_fmap_2; [exact (gateways_members _ _ _ Hgl Hl)|exact (gateways_members _ _ _ Hgr Hr)].
  - eapply product_between; [| |exact He]; [intros x; by apply gateways_members|apply global_members].
Qed.
Lemma size_sparse ns : N.of_nat (size (sparse_edges ns)) <= 10 * lenN ns.
Proof.
  rewrite sparse_edges_eq. cbv zeta.
  assert (Hr : N.of_nat (size (foldl region_edges ∅ (regions ns))) <= 4 * lenN ns).
  { pose proof (size_fold region_edges (fun m => 4 * lenN m) size_region_edges (regions ns) ∅) as Hs.
    rewrite size_empty in Hs. rewrite <-(regions_sum ns). etransitivity; [exact Hs|]. clear Hs.
    induction (regions ns) as [|m l IH]; cbn [foldr]; lia. }
  assert (Hg : lenN (gateways ns) <= lenN ns).
  { unfold gateways. etransitivity; [|apply length_regions]. unfold lenN. by rewrite length_fmap. }
  destruct (1 <? _); [|lia]. etransitivity; [apply size_global|].
  - intros g (m & -> & _)%list_elem_of_fmap. pose proof (length_select_two m). lia.
  - pose proof (size_lanes (gateways ns) (foldl region_edges ∅ (regions ns))). lia.
Qed.

Lemma elem_of_full_mesh es ns e :
  e ∈ full_mesh_edges es ns -> e ∈ es \/ between ns e.
Proof.
  revert es. induction ns as [|n ns IH]; intros es; cbn; [by left|]. intros [He|(a & b & Ha & Hb & He)]%IH.
  - apply (elem_of_fold _ (fun r e => edge_new (relay_id n) (relay_id r) = Some e)) in He;
      [|intros; apply elem_of_add_edge].
    destruct He as [He|(r & Hr & He)]; [by left|right]. exists (relay_id n), (relay_id r).
    split_and!; [left| |done]. apply list_elem_of_fmap_2. by right.
  - right. exists a, b. split_and!; [by right|by right|done].
Qed.
Lemma full_mesh_mono es ns : es ⊆ full_mesh_edges es ns.
Proof.
  revert es. induction ns as [|n ns IH]; intros es; cbn; [done|]. etransitivity; [|apply IH]. intros e He.
  apply (elem_of_fold _ (fun r e => edge_new (relay_id n) (relay_id r) = Some e)); [intros; apply elem_of_add_edge|by left].
Qed.
Lemma full_mesh_complete es ns x y e :
  x ∈ ns -> y ∈ ns -> edge_new (relay_id x) (relay_id y) = Some e -> e ∈ full_mesh_edges es ns.
Proof.
  revert es. induction ns as [|n ns IH]; intros es; cbn; [by intros ?%not_elem_of_nil|].
  assert (Hn : forall z, z ∈ ns -> edge_new (relay_id n) (relay_id z) = Some e ->
    e ∈ full_mesh_edges (foldl (fun es r => add_edge es (relay_id n) (relay_id r)) es ns) ns).
  { intros z Hz He. apply full_mesh_mono.
    apply (elem_of_fold _ (fun r e => edge_new (relay_id n) (relay_id r) = Some e)); [intros; apply elem_of_add_edge|].
    right. by exists z. }
  intros [->|Hx]%elem_of_cons [->|Hy]%elem_of_cons He; [|by apply (Hn y)| |by apply IH].
  - by apply edge_new_Some in He as [? _].
  - apply (Hn x Hx). by rewrite edge_new_comm.
Qed.
Lemma size_full_mesh es ns :
  2 * N.of_nat (size (full_mesh_edges es ns)) + lenN ns <= 2 * N.of_nat (size es) + lenN ns * lenN ns.
Proof.
  revert es. induction ns as [|n ns IH]; intros es; cbn [full_mesh_edges]; [rewrite lenN_nil; lia|]. rewrite lenN_cons.
  specialize (IH (foldl (fun es r => add_edge es (relay_id n) (relay_id r)) es ns)).
  pose proof (size_fold (fun es r => add_edge es (relay_id n) (relay_id r)) (fun _ => 1)
    (fun s x => size_add_edge s _ _) ns es) as Hs.
  pose proof (foldr_le_mul (fun _ : RelayTopologyNodeV1 => 1) 1 ns (fun _ _ => N.le_refl _)) as Hf. cbv beta in *. nia.
Qed.

(** *** The result of [build] *)

Definition sparse_selected (threshold capability : N) (ns : list RelayTopologyNodeV1) : bool :=
  (threshold <=? lenN ns) && forallb (fun n => negb (N.land (capabilities n) capability =? 0)) ns.
Definition built_edges (sparse : bool) (ns : list RelayTopologyNodeV1) : edge_set :=
  if sparse then sparse_edges ns else full_mesh_edges ∅ ns.
Definition built (mesh : MeshId) (rev : N) (sparse : bool) (ns : list RelayTopologyNodeV1) : RelayTopologyV1 :=
  mkTopology mesh rev (if sparse then Sparse else FullMesh) ns (bt_elements (built_edges sparse ns)).

Lemma built_between sparse ns e : e ∈ built_edges sparse ns -> between ns e.
Proof. destruct sparse; [apply sparse_between|]. by intros [?|]%elem_of_full_mesh. Qed.
Lemma built_size sparse ns :
  lenN ns <= 4096 -> sparse = true \/ lenN ns <= 362 -> N.of_nat (size (built_edges sparse ns)) <= 65536.
Proof.
  intros Hn [->|Hm]; [pose proof (size_sparse ns); cbn; lia|].
  destruct sparse; [pose proof (size_sparse ns); cbn; lia|].
  pose proof (size_full_mesh ∅ ns) as Hs. rewrite size_empty in Hs. cbn [built_edges]. nia.
Qed.
Lemma between_pair_inj ns e e' : between ns e -> between ns e' -> (left e, right e) = (left e', right e') -> e = e'.
Proof.
  intros (? & ? & _ & _ & (_ & _ & _ & H1 & H2)%edge_new_Some) (? & ? & _ & _ & (_ & _ & _ & H3 & H4)%edge_new_Some).
  destruct e, e'; cbn in *. intros [= -> ->]. congruence.
Qed.
Lemma built_edge_ok ns e : between ns e -> edge_ok (list_to_set (relay_id <$> ns)) e = true.
Proof.
  intros (a & b & Ha & Hb & (_ & Hlt & Hab & Hr & Hl)%edge_new_Some). unfold edge_ok. rewrite Hlt, Hr, Hl, !N.ltb_irrefl.
  rewrite !bool_decide_eq_true_2; [done|destruct Hab as [[_ ->]|[_ ->]]|destruct Hab as [[-> _]|[-> _]]];
    by apply elem_of_list_to_set.
Qed.

Lemma built_valid mesh rev sparse ns :
  StronglySorted (key_le relay_id) ns -> NoDup (relay_id <$> ns) -> forallb node_ok ns = true -> lenN ns <= 4096 ->
  sparse = true \/ lenN ns <= 362 -> validate (built mesh rev sparse ns) = Ok tt.
Proof.
  intros Hs Hnd Hok Hlen Hm. unfold validate. cbn [built nodes edges].
  pose proof (built_size sparse ns Hlen Hm) as Hsz.
  rewrite (proj2 (N.ltb_ge _ _)) by lia. rewrite (proj2 (N.ltb_ge _ _)) by (unfold lenN; rewrite length_bt_elements; lia).
  cbn [orb]. rewrite (proj2 (Dir.ensure_sorted_unique_Ok (relay_id <$> ns))) by by apply sorted_keys_strict.
  cbn. rewrite Hok. cbn.
  rewrite (proj2 (Dir.ensure_sorted_unique_Ok (bt_elements _))) by apply bt_elements_sorted. cbn.
  assert (Hbt : forall e, e ∈ bt_elements (built_edges sparse ns) -> between ns e).
  { intros e He%elem_of_bt_elements. by eapply built_between. }
  rewrite Dir.ensure_unique_spec, bool_decide_eq_true_2.
  - cbn. rewrite (proj2 (forallb_forall _ _)); [done|]. intros e He%list_elem_of_In. by apply built_edge_ok, Hbt.
  - apply NoDup_fmap_2_strong; [|apply NoDup_bt_elements]. intros e e' He He'. by apply (between_pair_inj ns); apply Hbt.
Qed.

Lemma build_spec mesh rev ns threshold capability :
  NoDup (relay_id <$> ns) -> forallb node_ok ns = true -> lenN ns <= 4096 ->
  sparse_selected threshold capability ns = true \/ lenN ns <= 362 ->
  build mesh rev ns threshold capability =
    Ok (built mesh rev (sparse_selected threshold capability ns) (sort_by_key relay_id ns)).
Proof.
  intros Hnd Hok Hlen Hm. set (ns' := sort_by_key relay_id ns).
  assert (Hp : ns' ≡ₚ ns) by apply sort_by_key_perm.
  assert (Hnd' : NoDup (relay_id <$> ns')) by by rewrite Hp.
  assert (Hfb : forall f : RelayTopologyNodeV1 -> bool, forallb f ns' = forallb f ns).
  { intros f. apply eq_iff_eq_true. rewrite !forallb_forall. split; intros H x Hx; apply H;
      apply list_elem_of_In; [rewrite Hp|rewrite <-Hp]; by apply list_elem_of_In. }
  assert (Hl : lenN ns' = lenN ns) by (unfold lenN; by rewrite Hp).
  assert (Hsel : sparse_selected threshold capability ns' = sparse_selected threshold capability ns).
  { unfold sparse_selected. by rewrite Hl, Hfb. }
  unfold build. fold ns'. rewrite Dir.ensure_unique_spec, bool_decide_eq_true_2 by done. cbn [mbind outcome_bind].
  fold (sparse_selected threshold capability ns'). rewrite Hsel.
  change (mkTopology mesh rev _ ns' _) with (built mesh rev (sparse_selected threshold capability ns) ns').
  rewrite built_valid; [done|apply sort_by_key_sorted|done|by rewrite Hfb|by rewrite Hl|by rewrite Hl].
Qed.

Lemma build_validates mesh rev ns threshold capability t :
  build mesh rev ns threshold capability = Ok t -> validate t = Ok tt.
Proof.
  unfold build. intros (? & _ & H)%bind_Ok. cbv zeta in H. apply bind_Ok in H as ([] & Hv & [= <-]). done.
Qed.

(** The topology is a function of the set of nodes: the order in which Control lists them never matters. *)
Theorem build_order_independent mesh rev ns ns' threshold capability (Hperm : ns ≡ₚ ns') :
  build mesh rev ns threshold capability = build mesh rev ns' threshold capability.
Proof.
  destruct (decide (NoDup (relay_id <$> ns))) as [Hnd|Hnd].
  - unfold build. by rewrite (sort_by_key_perm_eq relay_id ns ns').
  - assert (Hdup : forall k, k ≡ₚ ns -> ~ NoDup (relay_id <$> sort_by_key relay_id k)).
    { intros k Hk. by rewrite sort_by_key_perm, Hk. }
    unfold build. by rewrite !Dir.ensure_unique_spec, !bool_decide_eq_false_2 by by apply Hdup.
Qed.

(** [build] accepts canonical input: for distinct relays, at most 4,096 of them, with valid fields (and at most
    362 in the compatibility full mesh; the sparse graph always fits), the result is canonical, has the given
    nodes, and has at most ten edges per relay when sparse; duplicated relays are refused. *)
Theorem build_accepts mesh rev ns threshold capability
    (Hnodes : forallb node_ok ns = true) (Hlen : lenN ns <= 4096)
    (Hmesh : sparse_selected threshold capability ns = true \/ lenN ns <= 362) :
  if bool_decide (NoDup (relay_id <$> ns)) then
    exists t, build mesh rev ns threshold capability = Ok t /\ validate t = Ok tt /\ nodes t ≡ₚ ns /\
      (mode t = Sparse <-> sparse_selected threshold capability ns = true) /\
      (mode t = Sparse -> lenN (edges t) <= 10 * lenN ns)
  else build mesh rev ns threshold capability = Err Dir.NonCanonical.
Proof.
  case_bool_decide as Hids.
  - pose proof (build_spec mesh rev ns threshold capability Hids Hnodes Hlen Hmesh) as Hb. exists (built mesh rev
      (sparse_selected threshold capability ns) (sort_by_key relay_id ns)).
    split; [done|]. split; [by eapply build_validates|]. cbn. split; [apply sort_by_key_perm|].
    destruct (sparse_selected _ _ _); (split; [done|]); [intros _|done].
    unfold lenN at 1. rewrite length_bt_elements. etransitivity; [apply size_sparse|].
    unfold lenN. by rewrite length_sort_by_key.
  - assert (Hdup : ~ NoDup (relay_id <$> sort_by_key relay_id ns)) by by rewrite sort_by_key_perm.
    unfold build. by rewrite Dir.ensure_unique_spec, bool_decide_eq_false_2.
Qed.

(** ** Adjacency *)

Definition joins (e : RelayTopologyEdgeV1) (a b : RelayId) : Prop :=
  left e = a /\ right e = b \/ right e = a /\ left e = b.

Definition incident (a : RelayId) (e : RelayTopologyEdgeV1) : list (RelayId * N) :=
  (if bool_decide (left e = a) then [(right e, routing_cost e)] else []) ++
  (if bool_decide (right e = a) then [(left e, routing_cost e)] else []).
Definition neighbours (es : list RelayTopologyEdgeV1) (a : RelayId) : list (RelayId * N) :=
  default [] (adjacency es !! a).

Lemma adjacency_push_lookup adj k v a :
  default [] (adjacency_push adj k v !! a) = default [] (adj !! a) ++ (if bool_decide (k = a) then [v] else []).
Proof.
  unfold adjacency_push. case_bool_decide as Hk.
  - subst. by rewrite lookup_insert_eq.
  - by rewrite lookup_insert_ne, app_nil_r.
Qed.
Lemma neighbours_concat es a : neighbours es a = concat (incident a <$> es).
Proof.
  unfold neighbours, adjacency. induction es as [|e es IH] using rev_ind; [done|].
  rewrite foldl_app, fmap_app, concat_app, <-IH. cbn -[incident]. rewrite !adjacency_push_lookup, <-app_assoc, app_nil_r.
  done.
Qed.
Lemma elem_of_incident a b c e : (b, c) ∈ incident a e <-> joins e a b /\ c = routing_cost e.
Proof.
  unfold incident, joins. rewrite elem_of_app.
  repeat case_bool_decide; rewrite ?list_elem_of_singleton, ?elem_of_nil; naive_solver.
Qed.
Lemma elem_of_neighbours es a b c :
  (b, c) ∈ neighbours es a <-> exists e, e ∈ es /\ joins e a b /\ c = routing_cost e.
Proof.
  rewrite neighbours_concat, list_elem_of_In, in_concat. split.
  - intros (l & Hl%list_elem_of_In & Hb%list_elem_of_In). apply list_elem_of_fmap in Hl as (e & -> & He). exists e.
    by apply elem_of_incident in Hb.
  - intros (e & He & Hj). exists (incident a e).
    split; apply list_elem_of_In; [by apply list_elem_of_fmap_2|by apply elem_of_incident].
Qed.
Lemma length_neighbours es a : (length (neighbours es a) <= 2 * length es)%nat.
Proof.
  rewrite neighbours_concat. induction es as [|e es IH]; [done|]. cbn [fmap list_fmap concat length]. rewrite length_app.
  assert (length (incident a e) <= 2)%nat; [|lia]. unfold incident. repeat case_bool_decide; cbn; lia.
Qed.

(** ** Termination of the search *)

Definition potential (d : nat) (h : list entry) : nat := foldr (fun e acc => turns d (4 - N.to_nat e.1.1.2) + acc)%nat 0%nat h.
Definition hops_ok (h : list entry) : Prop := Forall (fun e : entry => 1 <= e.1.1.2 <= 4) h.

Lemma turns_pos d k : (1 <= turns d k)%nat.
Proof. destruct k; cbn; lia. Qed.
Lemma potential_push d e h : potential d (heap_push e h) = (turns d (4 - N.to_nat e.1.1.2) + potential d h)%nat.
Proof.
  unfold heap_push. induction h as [|x h IH]; cbn [insert_by]; [done|]. case_match; [done|].
  unfold potential in *. cbn [foldr]. rewrite IH. lia.
Qed.
Lemma elem_of_heap_push e h x : x ∈ heap_push e h <-> x = e \/ x ∈ h.
Proof. unfold heap_push. by rewrite insert_by_perm, elem_of_cons. Qed.

Lemma relax_potential d s cost hops first l st :
  1 <= hops < 4 -> hops_ok (pending st) ->
  let st' := foldl (relax s cost hops first) st l in
  hops_ok (pending st') /\
  (potential d (pending st') <= potential d (pending st) + length l * turns d (3 - N.to_nat hops))%nat.
Proof.
  intros Hh. cbv zeta. revert st. induction l as [|[w ec] l IH]; intros st Hok; cbn [foldl length]; [by split; [|lia]|].
  assert (Hstep : hops_ok (pending (relax s cost hops first st (w, ec))) /\
    (potential d (pending (relax s cost hops first st (w, ec))) <= potential d (pending st) + turns d (3 - N.to_nat hops))%nat).
  { unfold relax. cbn [fst snd]. case_bool_decide; [by split; [|lia]|]. case_match; [by split; [|lia]|]. cbn [pending]. split.
    - unfold hops_ok, heap_push. rewrite insert_by_perm. constructor; [cbn; lia|done].
    - rewrite potential_push. cbn [fst snd]. replace (4 - N.to_nat (hops + 1))%nat with (3 - N.to_nat hops)%nat by lia. lia. }
  destruct Hstep as [Hok' Hle]. destruct (IH _ Hok') as [Hok'' Hle']. split; [done|]. lia.
Qed.

Lemma search_loop_total es s d st fuel :
  hops_ok (pending st) -> (potential (2 * length es) (pending st) < fuel)%nat ->
  is_Some (search_loop fuel (adjacency es) s d st).
Proof.
  set (D := (2 * length es)%nat). revert st. induction fuel as [|fuel IH]; intros st Hok Hlt; [lia|].
  cbn [search_loop]. unfold search_turn. destruct (pending st) as [|[[[c h] v] f] pend] eqn:Hp; [by eauto|].
  apply Forall_cons in Hok as [Hh Hok]. cbn in Hh. unfold potential in Hlt. cbn [foldr fst snd] in Hlt.
  fold (potential D pend) in Hlt. pose proof (turns_pos D (4 - N.to_nat h)).
  destruct (_ <? c); [apply IH; cbn [pending]; [done|lia]|]. case_bool_decide; [by eauto|].
  destruct (N.eqb_spec h 4) as [->|Hne]; [apply IH; cbn [pending]; [done|lia]|].
  fold (neighbours es v).
  destruct (relax_potential D s c h f (neighbours es v) (mkSearch (best st) pend)) as [Hok' Hle]; [lia|done|].
  apply IH; [exact Hok'|]. pose proof (length_neighbours es v) as Hlen. cbn [pending] in Hle.
  replace (4 - N.to_nat h)%nat with (S (3 - N.to_nat h)) in Hlt by lia. cbn [turns] in Hlt. fold D in Hlen. nia.
Qed.

Lemma seed_potential d ex l st :
  hops_ok (pending st) ->
  let st' := foldl (seed ex) st l in
  hops_ok (pending st') /\ (potential d (pending st') <= potential d (pending st) + length l * turns d 3)%nat.
Proof.
  cbv zeta. revert st. induction l as [|[w ec] l IH]; intros st Hok; cbn [foldl length]; [by split; [|lia]|].
  assert (Hstep : hops_ok (pending (seed ex st (w, ec))) /\
    (potential d (pending (seed ex st (w, ec))) <= potential d (pending st) + turns d 3)%nat).
  { unfold seed. cbn [fst snd]. case_bool_decide; [by split; [|lia]|]. cbn [pending]. split.
    - unfold hops_ok, heap_push. rewrite insert_by_perm. constructor; [cbn; lia|done].
    - rewrite potential_push. cbn [fst snd]. change (4 - N.to_nat 1)%nat with 3%nat. lia. }
  destruct Hstep as [Hok' Hle]. destruct (IH _ Hok') as [Hok'' Hle']. split; [done|]. lia.
Qed.

Lemma search_total topology source destination excluded :
  is_Some (shortest_next_hop_fuel (search_fuel (2 * length (edges topology))) topology source destination excluded).
Proof.
  unfold shortest_next_hop_fuel. case_bool_decide; [by eauto|].
  destruct (adjacency (edges topology) !! source) as [l|] eqn:Hl; [|by eauto].
  set (D := (2 * length (edges topology))%nat).
  destruct (seed_potential D excluded l (mkSearch ∅ [])) as [Hok Hle]; [constructor|].
  apply search_loop_total; [exact Hok|]. fold D. pose proof (length_neighbours (edges topology) source) as Hn.
  unfold neighbours in Hn. rewrite Hl in Hn. cbn in Hn. cbn [pending] in Hle. unfold search_fuel.
  change (potential D []) with 0%nat in Hle. fold D in Hn. nia.
Qed.

(** The search ends on every graph, validated or not: the turns [search_fuel] allows are enough. *)
Theorem search_terminates topology source destination excluded :
  exists r, shortest_next_hop_fuel (search_fuel (2 * length (edges topology))) topology source destination excluded = Some r.
Proof. destruct (search_total topology source destination excluded) as [r Hr]. by exists r. Qed.

(** ** What the search finds *)

(** A walk of [n] edges from [source] to [v], of total cost [c] and first hop
    [f], that does not come back to [source] and does not start with
    [excluded]. *)
Inductive walk (es : list RelayTopologyEdgeV1) (source : RelayId) (excluded : option RelayId)
    : N -> RelayId -> N -> RelayId -> Prop :=
  | walk_first e v : e ∈ es -> joins e source v -> excluded <> Some v ->
      walk es source excluded 1 v (routing_cost e) v
  | walk_next n u c f e v : walk es source excluded n u c f -> e ∈ es -> joins e u v -> v <> source ->
      walk es source excluded (n + 1) v (c + routing_cost e) f.

(** Cheaper, or as cheap with no more hops. *)
Definition better (c n c' n' : N) : Prop := c < c' \/ (c = c' /\ n <= n').

Definition MAX_COST : N := 220000.
Record edges_ok (es : list RelayTopologyEdgeV1) : Prop := {
  eo_cost : forall e, e ∈ es -> routing_cost e <= MAX_COST;
  eo_loop : forall e, e ∈ es -> left e <> right e;
  eo_pair : NoDup ((fun e => (left e, right e)) <$> es);
  eo_order : forall e, e ∈ es -> leb_of (right e) (left e) = false;
}.

Lemma validate_inv t : validate t = Ok tt ->
  lenN (nodes t) <= 4096 /\ lenN (edges t) <= 65536 /\ StronglySorted Dir.lt_of (relay_id <$> nodes t) /\
  forallb node_ok (nodes t) = true /\ StronglySorted Dir.lt_of (edges t) /\
  NoDup ((fun e => (left e, right e)) <$> edges t) /\
  forallb (edge_ok (list_to_set (relay_id <$> nodes t))) (edges t) = true.
Proof.
  unfold validate. destruct (_ || _) eqn:Hlen; [done|]. rewrite orb_false_iff, !N.ltb_ge in Hlen.
  intros ([] & Hids%Dir.ensure_sorted_unique_Ok & H)%bind_Ok. cbv zeta in H.
  destruct (forallb node_ok (nodes t)) eqn:Hn; [|done]. cbn [negb] in H.
  apply bind_Ok in H as ([] & Hs%Dir.ensure_sorted_unique_Ok & H). apply bind_Ok in H as ([] & Hu & H).
  rewrite Dir.ensure_unique_spec in Hu. case_bool_decide as Hnd; [|done].
  destruct (forallb (edge_ok _) _) eqn:He; [|done]. by destruct Hlen.
Qed.
Lemma validate_edges t : validate t = Ok tt -> edges_ok (edges t).
Proof.
  intros (_ & _ & _ & _ & _ & Hnd & He)%validate_inv. rewrite forallb_forall in He.
  assert (Hok : forall e, e ∈ edges t -> leb_of (right e) (left e) = false /\ rtt_millis e <= 120000 /\ loss_permyriad e <= 10000).
  { intros e Hin%list_elem_of_In%He. unfold edge_ok in Hin. rewrite negb_true_iff, !orb_false_iff, !N.ltb_ge in Hin.
    unfold default_backbone_rtt_millis, default_backbone_loss_permyriad in Hin. naive_solver. }
  split; [| |done|by intros e [? _]%Hok].
  - intros e (_ & Hr & Hl)%Hok. unfold routing_cost, sat_mul, sat_add, MAX_COST. lia.
  - intros e [Hlt _]%Hok Heq. rewrite Heq, leb_of_refl in Hlt. done.
Qed.

Lemma NoDup_neighbours es a : edges_ok es -> NoDup (neighbours es a).*1.
Proof.
  intros [_ Hloop Hnd Hord]. rewrite neighbours_concat. induction es as [|e es IH]; [constructor|].
  cbn [fmap list_fmap concat]. apply NoDup_cons in Hnd as [Hn Hnd]. rewrite fmap_app. apply NoDup_app. split_and!.
  - pose proof (Hloop e ltac:(left)) as Hl. unfold incident. repeat case_bool_decide; cbn; try congruence; repeat constructor; set_solver.
  - intros b ([b' c] & -> & [Hj ->]%elem_of_incident)%list_elem_of_fmap Hb. cbn in Hb.
    apply list_elem_of_fmap in Hb as ([b c'] & -> & Hb). cbn in Hj.
    rewrite <-neighbours_concat in Hb. apply elem_of_neighbours in Hb as (e' & He' & Hj' & _).
    apply Hn, list_elem_of_fmap. exists e'. split; [|done].
    pose proof (Hord e ltac:(left)) as Ho. pose proof (Hord e' ltac:(by right)) as Ho'.
    destruct Hj as [[H1 H2]|[H1 H2]], Hj' as [[H3 H4]|[H3 H4]]; try congruence.
    + rewrite H1, H2 in Ho. rewrite H3, H4 in Ho'. apply leb_of_false in Ho. congruence.
    + rewrite H1, H2 in Ho. rewrite H3, H4 in Ho'. apply leb_of_false in Ho. congruence.
  - apply IH; [|done|]; intros e' He'; [apply Hloop|apply Hord]; by right.
Qed.

Section search_correct.
Context (es : list RelayTopologyEdgeV1) (s d : RelayId) (ex : option RelayId).
Hypothesis Hes : edges_ok es.
Let swalk := walk es s ex.

Lemma walk_facts n v c f : swalk n v c f -> 1 <= n /\ c <= n * MAX_COST /\ v <> s.
Proof.
  induction 1 as [e v He Hj _|n u c f e v _ (IH1 & IH2 & _) He Hj Hv].
  - pose proof (eo_cost _ Hes e He). split_and!; [lia|lia|]. pose proof (eo_loop _ Hes e He).
    destruct Hj as [[H1 H2]|[H1 H2]]; congruence.
  - pose proof (eo_cost _ Hes e He). split_and!; [lia|lia|done].
Qed.

(** The entry for [v] at [h] hops was taken off the heap and its edges relaxed. *)
Definition settled (best : gmap (RelayId * N) N) (v : RelayId) (h b : N) : Prop :=
  v <> d /\ (h < 4 -> forall e w, e ∈ es -> joins e v w -> w <> s ->
    exists b', best !! (w, h + 1) = Some b' /\ b' <= b + routing_cost e).
Record inv (st : search) : Prop := {
  iv_walk : forall c h v f, (c, h, v, f) ∈ pending st ->
    swalk h v c f /\ h <= 4 /\ exists b, best st !! (v, h) = Some b /\ b <= c;
  iv_best : forall v h b, best st !! (v, h) = Some b ->
    (exists f, (b, h, v, f) ∈ pending st) \/ settled (best st) v h b;
  iv_first : forall e v, e ∈ es -> joins e s v -> ex <> Some v ->
    exists b, best st !! (v, 1) = Some b /\ b <= routing_cost e;
}.

(** [best] only improves. *)
Definition improves (b b' : gmap (RelayId * N) N) : Prop :=
  forall k x, b !! k = Some x -> exists x', b' !! k = Some x' /\ x' <= x.
Lemma improves_refl b : improves b b.
Proof. intros k x Hk. exists x. split; [done|lia]. Qed.
Lemma improves_trans a b c : improves a b -> improves b c -> improves a c.
Proof. intros H1 H2 k x (y & Hy & Hle)%H1. apply H2 in Hy as (z & Hz & Hle'). exists z. split; [done|lia]. Qed.
Lemma settled_improves b b' v h x : improves b b' -> settled b v h x -> settled b' v h x.
Proof.
  intros Hi [Hv Hs]. split; [done|]. intros Hh e w He Hj Hw. destruct (Hs Hh e w He Hj Hw) as (y & Hy & Hle).
  apply Hi in Hy as (z & Hz & Hle'). exists z. split; [done|lia].
Qed.

(** The effect of relaxing the edges [l] from an entry of cost [c] at [h] hops. *)
Record relaxed (c h : N) (f : RelayId) (l : list (RelayId * N)) (st st' : search) : Prop := {
  rx_best : improves (best st) (best st');
  rx_keep : pending st ⊆ pending st';
  rx_edge : forall w ec, (w, ec) ∈ l -> w <> s -> exists b', best st' !! (w, h + 1) = Some b' /\ b' <= c + ec;
  rx_new : forall x, x ∈ pending st' -> x ∈ pending st \/
    exists w ec b, (w, ec) ∈ l /\ w <> s /\ x = (c + ec, h + 1, w, f) /\ best st' !! (w, h + 1) = Some b /\ b <= c + ec;
  rx_entry : forall k b, best st' !! k = Some b -> best st !! k = Some b \/ (b, k.2, k.1, f) ∈ pending st';
}.
Lemma relaxed_nil c h f st : relaxed c h f [] st st.
Proof.
  split; [apply improves_refl|done|by intros w ec ?%not_elem_of_nil|by left|by left].
Qed.
Lemma relaxed_cons c h f x l st st' st'' :
  relaxed c h f [x] st st' -> relaxed c h f l st' st'' -> relaxed c h f (x :: l) st st''.
Proof.
  intros [A1 A2 A3 A4 A5] [B1 B2 B3 B4 B5]. split.
  - by eapply improves_trans.
  - by transitivity (pending st').
  - intros w ec [Hx|Hl]%elem_of_cons Hw; [|by apply B3]. destruct (A3 w ec) as (b & Hb & Hle); [set_solver|done|].
    apply B1 in Hb as (b' & Hb' & Hle'). exists b'. split; [done|lia].
  - intros y [Hy|(w & ec & b & Hl & H)]%B4.
    + apply A4 in Hy as [Hy|(w & ec & b & Hx & Hw & -> & Hb & Hle)]; [by left|right].
      apply B1 in Hb as (b' & Hb' & Hle'). exists w, ec, b'. split_and!; try done; [set_solver|lia].
    + right. exists w, ec, b. split; [by right|done].
  - intros k b [Hk|Hk]%B5; [|by right]. apply A5 in Hk as [Hk|Hk]; [by left|right]. by apply B2.
Qed.
Lemma relax_one c h f w ec st :
  c + ec <= U64_MAX -> relaxed c h f [(w, ec)] st (relax s c h f st (w, ec)).
Proof.
  intros Hmax. unfold relax. cbn [fst snd]. case_bool_decide as Hw.
  { subst w. split; [apply improves_refl|done| |by left|by left].
    intros w' ec' Hin%list_elem_of_singleton. by injection Hin as -> ->. }
  assert (Hsum : sat_add c ec = c + ec) by (unfold sat_add; lia). rewrite Hsum.
  destruct (match best st !! (w, h + 1) with Some known => known <=? c + ec | None => false end) eqn:Hk.
  { destruct (best st !! (w, h + 1)) as [b|] eqn:Hb; [|done]. apply N.leb_le in Hk.
    split; [apply improves_refl|done| |by left|by left].
    intros w' ec' Hin%list_elem_of_singleton _. injection Hin as -> ->. by exists b. }
  split; cbn [best pending].
  - intros k x Hx. destruct (decide (k = (w, h + 1))) as [->|Hne].
    + rewrite lookup_insert_eq. exists (c + ec). split; [done|]. rewrite Hx in Hk. apply N.leb_gt in Hk. lia.
    + rewrite lookup_insert_ne by done. exists x. split; [done|lia].
  - intros x Hx. apply elem_of_heap_push. by right.
  - intros w' ec' Hin%list_elem_of_singleton _. injection Hin as -> ->. exists (c + ec). rewrite lookup_insert_eq. split; [done|lia].
  - intros x [->|Hx]%elem_of_heap_push; [right|by left]. exists w, ec, (c + ec). rewrite lookup_insert_eq.
    split_and!; try done. by apply list_elem_of_singleton.
  - intros k b. destruct (decide (k = (w, h + 1))) as [->|Hne].
    + rewrite lookup_insert_eq. intros [= <-]. right. apply elem_of_heap_push. by left.
    + rewrite lookup_insert_ne by done. by left.
Qed.
Lemma relax_all c h f l st :
  (forall w ec, (w, ec) ∈ l -> c + ec <= U64_MAX) -> relaxed c h f l st (foldl (relax s c h f) st l).
Proof.
  revert st. induction l as [|[w ec] l IH]; intros st Hmax; [apply relaxed_nil|]. cbn [foldl].
  eapply relaxed_cons; [apply relax_one|apply IH]; [apply (Hmax w); left|]. intros w' ec' Hin. apply (Hmax w'). by right.
Qed.

(** *** The turns of the loop keep the invariant *)

Lemma inv_pop_skip c h v f st pend :
  inv st -> pending st = (c, h, v, f) :: pend -> default U64_MAX (best st !! (v, h)) < c ->
  inv (mkSearch (best st) pend).
Proof.
  intros [H1 H2 H3] Hp Hlt. split; cbn [best pending]; [|intros w k b Hb|done].
  - intros c' h' v' f' Hin. apply H1. rewrite Hp. by right.
  - destruct (H2 w k b Hb) as [[f' Hf]|Hs]; [|by right]. rewrite Hp in Hf. apply elem_of_cons in Hf as [Hf|Hf]; [|left; eauto].
    exfalso. injection Hf as -> -> -> ->. rewrite Hb in Hlt. cbn in Hlt. lia.
Qed.
(** A popped entry that is not skipped carries the best known cost. *)
Lemma inv_pop_best c h v f st pend :
  inv st -> pending st = (c, h, v, f) :: pend -> c <= default U64_MAX (best st !! (v, h)) ->
  best st !! (v, h) = Some c /\ swalk h v c f /\ h <= 4.
Proof.
  intros [H1 _ _] Hp Hle. destruct (H1 c h v f) as (Hw & Hh & b & Hb & Hbc); [rewrite Hp; left|].
  rewrite Hb in Hle |- *. cbn in Hle. split_and!; [f_equal; lia|done|done].
Qed.
Lemma inv_pop_last c v f st pend :
  inv st -> pending st = (c, 4, v, f) :: pend -> v <> d -> inv (mkSearch (best st) pend).
Proof.
  intros [H1 H2 H3] Hp Hv. split; cbn [best pending]; [|intros w k b Hb|done].
  - intros c' h' v' f' Hin. apply H1. rewrite Hp. by right.
  - destruct (H2 w k b Hb) as [[f' Hf]|Hs]; [|by right]. rewrite Hp in Hf. apply elem_of_cons in Hf as [Hf|Hf]; [|left; eauto].
    right. injection Hf as -> -> -> ->. split; [done|]. lia.
Qed.
Lemma inv_expand c h v f st pend :
  inv st -> pending st = (c, h, v, f) :: pend -> best st !! (v, h) = Some c -> swalk h v c f -> v <> d -> h < 4 ->
  inv (foldl (relax s c h f) (mkSearch (best st) pend) (neighbours es v)).
Proof.
  intros [H1 H2 H3] Hp Hb Hw Hv Hh. pose proof (walk_facts _ _ _ _ Hw) as (Hh1 & Hc & _).
  destruct (relax_all c h f (neighbours es v) (mkSearch (best st) pend)) as [R1 R2 R3 R4 R5].
  { intros w ec (e & He & _ & ->)%elem_of_neighbours. pose proof (eo_cost _ Hes e He). unfold MAX_COST, U64_MAX in *. lia. }
  cbn [best pending] in *. split.
  - intros c' h' v' f' [Hin|(w & ec & b & Hin & Hne & [= -> -> -> ->] & Hb' & Hle)]%R4.
    + destruct (H1 c' h' v' f') as (Hw' & Hh' & b & Hb' & Hle); [rewrite Hp; by right|].
      apply R1 in Hb' as (b' & Hb' & Hle'). split; [done|]. split; [done|]. exists b'. split; [done|lia].
    + apply elem_of_neighbours in Hin as (e & He & Hj & ->). split; [by eapply walk_next|]. split; [lia|]. by exists b.
  - intros w k b [Hk|Hk]%R5; [|left; by exists f]. destruct (H2 w k b Hk) as [[f' Hf]|Hs].
    + rewrite Hp in Hf. apply elem_of_cons in Hf as [Hf|Hf]; [|left; exists f'; by apply R2].
      right. injection Hf as -> -> -> ->. split; [done|]. intros _ e x He Hj Hx. apply R3; [|done].
      apply elem_of_neighbours. by exists e.
    + right. by eapply settled_improves.
  - intros e w He Hj Hx. destruct (H3 e w He Hj Hx) as (b & Hb' & Hle). apply R1 in Hb' as (b' & Hb'' & Hle').
    exists b'. split; [done|lia].
Qed.

(** *** The heap is sorted: its head is the least entry *)

Definition sorted (st : search) : Prop := StronglySorted (key_le (@id entry)) (pending st).
Lemma relax_sorted c h f l st : sorted st -> sorted (foldl (relax s c h f) st l).
Proof.
  revert st. induction l as [|x l IH]; intros st Hs; [done|]. cbn [foldl]. apply IH. unfold relax.
  case_bool_decide; [done|]. case_match; [done|]. unfold sorted, heap_push. cbn [pending]. by apply insert_by_sorted.
Qed.
Lemma seed_sorted l st : sorted st -> sorted (foldl (seed ex) st l).
Proof.
  revert st. induction l as [|x l IH]; intros st Hs; [done|]. cbn [foldl]. apply IH. unfold seed.
  case_bool_decide; [done|]. unfold sorted, heap_push. cbn [pending]. by apply insert_by_sorted.
Qed.
Lemma entry_le c h v f c' h' v' f' :
  leb_of ((c, h, v, f) : entry) (c', h', v', f') = true -> better c h c' h'.
Proof.
  unfold better, leb_of, compare, prod_compare, compare, prod_compare, compare, prod_compare, compare, N_compare. cbn.
  destruct (N.compare_spec c c') as [->|Hc|Hc]; [|by left|done].
  destruct (N.compare_spec h h') as [->|Hh|Hh]; [intros _; right; lia|intros _; right; lia|done].
Qed.
Lemma head_least c h v f pend st x :
  sorted st -> pending st = (c, h, v, f) :: pend -> x ∈ pending st -> better c h x.1.1.1 x.1.1.2.
Proof.
  unfold sorted. intros Hs Hp Hx. rewrite Hp in Hs, Hx. apply StronglySorted_inv in Hs as [_ Hs].
  apply elem_of_cons in Hx as [->|Hx]; [right; cbn; lia|]. rewrite Forall_forall in Hs. specialize (Hs _ Hx).
  destruct x as [[[c' h'] v'] f']. by apply (entry_le c h v f c' h' v' f').
Qed.

(** *** Every walk is waiting behind an entry of the heap, or settled *)

Lemma frontier st n u c f :
  inv st -> swalk n u c f -> n <= 4 ->
  (exists b, best st !! (u, n) = Some b /\ b <= c /\ settled (best st) u n b) \/
  (exists x, x ∈ pending st /\ better x.1.1.1 x.1.1.2 c n).
Proof.
  intros [H1 H2 H3]. assert (Hentry : forall u n b c, best st !! (u, n) = Some b -> b <= c ->
    (exists b, best st !! (u, n) = Some b /\ b <= c /\ settled (best st) u n b) \/
    (exists x, x ∈ pending st /\ better x.1.1.1 x.1.1.2 c n)).
  { intros u' n' b c' Hb Hle. destruct (H2 _ _ _ Hb) as [[f' Hin]|Hs]; [right|left; by exists b].
    exists (b, n', u', f'). split; [done|]. unfold better. cbn. lia. }
  induction 1 as [e v He Hj Hx|n u c f e v Hw IH He Hj Hv]; intros Hn.
  - destruct (H3 e v He Hj Hx) as (b & Hb & Hle). by eapply Hentry.
  - destruct IH as [(b & Hb & Hle & [_ Hs])|(x & Hx & Hlt)]; [lia| |].
    + destruct (Hs ltac:(lia) e v He Hj Hv) as (b' & Hb' & Hle'). eapply Hentry; [exact Hb'|lia].
    + right. exists x. split; [done|]. unfold better in *. lia.
Qed.

(** *** The seeds, and the whole search *)

Lemma seed_spec l :
  NoDup l.*1 ->
  let st := foldl (seed ex) (mkSearch ∅ []) l in
  (forall c h v f, (c, h, v, f) ∈ pending st <-> (v, c) ∈ l /\ h = 1 /\ f = v /\ ex <> Some v) /\
  (forall v h b, best st !! (v, h) = Some b <-> h = 1 /\ (v, b) ∈ l /\ ex <> Some v).
Proof.
  cbv zeta. induction l as [|[w ec] l IH] using rev_ind; intros Hnd.
  { split; intros; cbn; rewrite ?lookup_empty, !elem_of_nil; naive_solver. }
  rewrite fmap_app in Hnd. apply NoDup_app in Hnd as (Hnd & Hn & _). destruct (IH Hnd) as [Hp Hb]. clear IH.
  assert (Hw : forall b, (w, b) ∉ l).
  { intros b Hin. apply (Hn w); [|left]. by apply (list_elem_of_fmap_2 fst) in Hin. }
  rewrite foldl_app. cbn [foldl]. set (st := foldl (seed ex) _ l) in *. unfold seed. cbn [fst snd].
  setoid_rewrite elem_of_app. setoid_rewrite list_elem_of_singleton.
  case_bool_decide as Hex.
  { split; intros; rewrite ?Hp, ?Hb; naive_solver. }
  cbn [best pending]. split.
  - intros c h v f. rewrite elem_of_heap_push, Hp. naive_solver.
  - intros v h b. destruct (decide ((v, h) = (w, 1))) as [[= -> ->]|Hne].
    + rewrite lookup_insert_eq. split; [intros [= <-]; naive_solver|]. intros (_ & [Hin|[= ->]] & _); [by apply Hw in Hin|done].
    + rewrite lookup_insert_ne, Hb by done. naive_solver.
Qed.
Lemma inv_seeds : inv (foldl (seed ex) (mkSearch ∅ []) (neighbours es s)).
Proof.
  destruct (seed_spec (neighbours es s) (NoDup_neighbours es s Hes)) as [Hp Hb]. split.
  - intros c h v f (Hin & -> & -> & Hx)%Hp. split; [|split; [lia|]].
    + apply elem_of_neighbours in Hin as (e & He & Hj & ->). by apply walk_first.
    + exists c. split; [by apply Hb|lia].
  - intros v h b (-> & Hin & Hx)%Hb. left. exists v. by apply Hp.
  - intros e v He Hj Hx. exists (routing_cost e). split; [|lia]. apply Hb. split_and!; try done.
    apply elem_of_neighbours. by exists e.
Qed.

(** What the search must return. *)
Definition shortest (r : option (N * RelayId)) : Prop :=
  match r with
  | Some (c, f) => exists n, n <= 4 /\ swalk n d c f /\
      forall n' c' f', swalk n' d c' f' -> n' <= 4 -> better c n c' n'
  | None => forall n c f, swalk n d c f -> 4 < n
  end.
Lemma search_loop_shortest fuel st r :
  inv st -> sorted st -> search_loop fuel (adjacency es) s d st = Some r -> shortest r.
Proof.
  revert st. induction fuel as [|fuel IH]; intros st Hinv Hs; cbn [search_loop]; [done|]. unfold search_turn.
  destruct (pending st) as [|[[[c h] v] f] pend] eqn:Hp.
  { intros [= <-] n c f Hw. apply N.lt_nge. intros Hn. destruct (frontier st n d c f Hinv Hw Hn) as [(b & _ & _ & [Hd _])|(x & Hx & _)].
    - done.
    - rewrite Hp in Hx. by apply not_elem_of_nil in Hx. }
  assert (Hs' : sorted (mkSearch (best st) pend)).
  { unfold sorted in *. rewrite Hp in Hs. by apply StronglySorted_inv in Hs as [? _]. }
  cbn [best]. destruct (N.ltb_spec (default U64_MAX (best st !! (v, h))) c) as [Hlt|Hle].
  { apply IH; [by eapply inv_pop_skip|done]. }
  destruct (inv_pop_best c h v f st pend Hinv Hp Hle) as (Hb & Hw & Hh). case_bool_decide as Hv.
  { intros [= <-]. subst v. exists h. split; [done|]. split; [done|]. intros n' c' f' Hw' Hn'.
    destruct (frontier st n' d c' f' Hinv Hw' Hn') as [(b & _ & _ & [Hd _])|(x & Hx & Hbetter)]; [done|].
    pose proof (head_least c h d f pend st x Hs Hp Hx). unfold better in *. lia. }
  destruct (N.eqb_spec h 4) as [->|Hh4].
  { apply IH; [by eapply inv_pop_last|done]. }
  apply IH.
  - apply (inv_expand c h v f st pend); try done. lia.
  - by apply relax_sorted.
Qed.
End search_correct.

Lemma shortest_next_hop_shortest t source destination excluded :
  validate t = Ok tt -> shortest (edges t) source destination excluded (shortest_next_hop t source destination excluded).
Proof.
  intros Hvalid. pose proof (validate_edges t Hvalid) as Hes. unfold shortest_next_hop.
  destruct (search_total t source destination excluded) as [r Hr]. rewrite Hr. cbn [from_option].
  unfold shortest_next_hop_fuel in Hr. case_bool_decide as Hsd.
  { injection Hr as <-. subst. intros n c f Hw. by apply (walk_facts (edges t) destination excluded Hes) in Hw as (_ & _ & ?). }
  pose proof (inv_seeds (edges t) source destination excluded Hes) as Hinv. unfold neighbours in Hinv.
  pose proof (seed_sorted excluded (neighbours (edges t) source) (mkSearch ∅ []) ltac:(constructor)) as Hs.
  unfold neighbours in Hs.
  destruct (adjacency (edges t) !! source) as [l|] eqn:Hadj; cbn [default from_option] in Hinv, Hs.
  - by eapply (search_loop_shortest (edges t) source destination excluded Hes).
  - injection Hr as <-.
    apply (search_loop_shortest (edges t) source destination excluded Hes 1 (mkSearch ∅ []) None); done.
Qed.

(** C25: Routing is optimal. On a canonical topology [shortest_next_hop] returns the first hop of a walk of at most
    four hops to the destination that avoids the excluded first hop and never returns to the source; no such walk
    is cheaper, and none of the same cost has fewer hops; and it returns nothing exactly when there is none. *)
Theorem shortest_next_hop_optimal t source destination excluded (Hvalid : validate t = Ok tt) :
  match shortest_next_hop t source destination excluded with
  | Some (cost, hop) => exists n, n <= 4 /\ walk (edges t) source excluded n destination cost hop /\
      forall n' cost' hop', walk (edges t) source excluded n' destination cost' hop' -> n' <= 4 ->
        better cost n cost' n'
  | None => forall n cost hop, walk (edges t) source excluded n destination cost hop -> 4 < n
  end.
Proof. exact (shortest_next_hop_shortest t source destination excluded Hvalid). Qed.

(** ** Every relay is within four hops of every other *)

Definition near (es : list RelayTopologyEdgeV1) (a b : RelayId) : Prop := a = b \/ exists e, e ∈ es /\ joins e a b.
Lemma near_sym es a b : near es a b -> near es b a.
Proof. unfold near, joins. naive_solver. Qed.
Lemma near_edge es a b : (forall e, edge_new a b = Some e -> e ∈ es) -> near es a b.
Proof.
  intros He. destruct (decide (a = b)) as [->|Hne]; [by left|right]. destruct (edge_new_is_Some a b Hne) as [e Hn].
  exists e. split; [by apply He|]. apply edge_new_Some in Hn as (_ & _ & Hab & _). unfold joins. naive_solver.
Qed.

(** Reached in at most [k] hops, without coming back. *)
Definition within (es : list RelayTopologyEdgeV1) (s : RelayId) (k : N) (u : RelayId) : Prop :=
  u = s \/ exists n c f, n <= k /\ walk es s None n u c f.
Lemma within_start es s : within es s 0 s.
Proof. by left. Qed.
Lemma within_near es s k u w : within es s k u -> near es u w -> within es s (k + 1) w.
Proof.
  intros Hu Hw. destruct (decide (w = s)) as [->|Hne]; [by left|right].
  destruct Hu as [->|(n & c & f & Hn & Hwalk)], Hw as [->|(e & He & Hj)]; [done| | |].
  - exists 1, (routing_cost e), w. split; [lia|]. by apply walk_first.
  - exists n, c, f. split; [lia|done].
  - exists (n + 1), (c + routing_cost e), f. split; [lia|]. by eapply walk_next.
Qed.
Lemma within_mono es s k k' u : k <= k' -> within es s k u -> within es s k' u.
Proof. intros Hk [->|(n & c & f & Hn & Hw)]; [by left|right]. exists n, c, f. split; [lia|done]. Qed.

Lemma sparse_region_near ns members x g :
  members ∈ regions ns -> x ∈ members -> g ∈ select_two members ->
  near (bt_elements (sparse_edges ns)) (relay_id x) (relay_id g).
Proof.
  intros Hm Hx Hg. apply near_edge. intros e He. apply elem_of_bt_elements. rewrite sparse_edges_eq. cbv zeta.
  assert (Hr : e ∈ foldl region_edges ∅ (regions ns)).
  { apply elem_of_region_fold. exists members. split; [done|]. right. exists x. split; [done|]. by exists g. }
  destruct (1 <? _); [|done]. apply elem_of_global. left. apply elem_of_lanes. by left.
Qed.
Lemma sparse_global_near ns gw g G :
  1 < lenN (gateways ns) -> gw ∈ gateways ns -> g ∈ gw -> G ∈ select_two (concat (gateways ns)) ->
  near (bt_elements (sparse_edges ns)) (relay_id g) (relay_id G).
Proof.
  intros Hlen Hgw Hg HG. apply near_edge. intros e He. apply elem_of_bt_elements. rewrite sparse_edges_eq. cbv zeta.
  rewrite (proj2 (N.ltb_lt _ _)) by done. apply elem_of_global. right. exists gw. split; [done|].
  exists g. split; [done|]. by exists G.
Qed.
Lemma sparse_within ns x y :
  x ∈ ns -> y ∈ ns -> within (bt_elements (sparse_edges ns)) (relay_id x) 4 (relay_id y).
Proof.
  intros (mx & Hmx & Hx)%region_of (my & Hmy & Hy)%region_of.
  assert (Hgate : forall m, m ∈ regions ns -> exists g, g ∈ select_two m /\ select_two m ∈ gateways ns).
  { intros m Hm. destruct (select_two_nonempty m) as [g Hg]; [by apply elem_of_regions in Hm as [? _]|].
    exists g. split; [done|]. by apply list_elem_of_fmap_2. }
  destruct (Hgate _ Hmx) as (g & Hg & Hgx), (Hgate _ Hmy) as (g' & Hg' & Hgy).
  pose proof (sparse_region_near ns mx x g Hmx Hx Hg) as N1.
  pose proof (near_sym _ _ _ (sparse_region_near ns my y g' Hmy Hy Hg')) as N4.
  pose proof (within_near _ _ 0 _ _ (within_start _ (relay_id x)) N1) as W1.
  destruct (N.le_gt_cases (lenN (gateways ns)) 1) as [Hone|Hmany].
  - assert (mx = my) as <-.
    { unfold gateways, lenN in Hone. rewrite length_fmap in Hone. destruct (regions ns) as [|m [|m' l]]; [| |cbn in Hone; lia].
      - by apply not_elem_of_nil in Hmx.
      - apply list_elem_of_singleton in Hmx, Hmy. congruence. }
    apply (within_mono _ _ (0 + 1 + 1)); [lia|]. eapply within_near; [exact W1|]. apply near_sym.
    by eapply sparse_region_near.
  - destruct (select_two_nonempty (concat (gateways ns))) as [G HG].
    { intros Hn. assert (Hin : g ∈ concat (gateways ns)); [|rewrite Hn in Hin; by apply not_elem_of_nil in Hin].
      apply list_elem_of_In, in_concat. exists (select_two mx). by split; apply list_elem_of_In. }
    pose proof (sparse_global_near ns _ g G Hmany Hgx Hg HG) as N2.
    pose proof (near_sym _ _ _ (sparse_global_near ns _ g' G Hmany Hgy Hg' HG)) as N3.
    pose proof (within_near _ _ _ _ _ (within_near _ _ _ _ _ (within_near _ _ _ _ _ W1 N2) N3) N4) as W. exact W.
Qed.
Lemma full_within ns x y :
  x ∈ ns -> y ∈ ns -> within (bt_elements (full_mesh_edges ∅ ns)) (relay_id x) 4 (relay_id y).
Proof.
  intros Hx Hy. apply (within_mono _ _ (0 + 1)); [lia|]. eapply within_near; [apply within_start|]. apply near_edge.
  intros e He. apply elem_of_bt_elements. by apply (full_mesh_complete ∅ ns x y).
Qed.

Lemma within_health es health s k u : within es s k u -> within (with_health health <$> es) s k u.
Proof.
  intros [->|(n & c & f & Hn & Hw)]; [by left|right]. assert (Hj : forall e a b, joins e a b -> joins (with_health health e) a b).
  { intros e a b. unfold with_health. by destruct (health !! _). }
  assert (Hex : exists c', walk (with_health health <$> es) s None n u c' f).
  { clear Hn. induction Hw as [e v He Hjn Hx|n u c f e v _ [c' IH] He Hjn Hv]; eexists.
    - apply walk_first; [by apply list_elem_of_fmap_2|by apply Hj|done].
    - eapply walk_next; [exact IH|by apply list_elem_of_fmap_2|by apply Hj|done]. }
  destruct Hex as [c' Hw']. by exists n, c', f.
Qed.

Definition edge_pair (e : RelayTopologyEdgeV1) : RelayId * RelayId := (left e, right e).
Lemma lt_of_compare {K} `{CompareLaws K} (x y : K) : Dir.lt_of x y <-> compare x y = Lt.
Proof. unfold Dir.lt_of, leb_of. rewrite (compare_antisym x y). by destruct (compare x y). Qed.
(** Edges with distinct pairs are ordered by their pairs. *)
Lemma edge_lt_pair e e' :
  edge_pair e <> edge_pair e' -> Dir.lt_of e e' <-> Dir.lt_of (edge_pair e) (edge_pair e').
Proof.
  intros Hne. rewrite !lt_of_compare. unfold edge_pair in *.
  assert (Hc : compare (left e, right e) (left e', right e') <> Eq) by (intros Hc; by apply compare_eq in Hc).
  unfold compare at 1, RelayTopologyEdgeV1_compare, compare_via, edge_key. unfold compare at 1, prod_compare at 1. cbn [fst snd].
  unfold compare at 1, prod_compare at 1. cbn [fst snd]. by destruct (compare (left e, right e) (left e', right e')).
Qed.
Lemma with_health_pair health e : edge_pair (with_health health e) = edge_pair e.
Proof. unfold with_health. by destruct (health !! _). Qed.
Lemma edges_sorted_health health es :
  NoDup (edge_pair <$> es) -> StronglySorted Dir.lt_of es -> StronglySorted Dir.lt_of (with_health health <$> es).
Proof.
  intros Hnd Hs. induction Hs as [|e es Hs IH He]; [constructor|]. cbn in Hnd. apply NoDup_cons in Hnd as [Hn Hnd].
  cbn. constructor; [by apply IH|]. apply Forall_fmap. rewrite Forall_forall in He |- *. intros e' He'. cbn.
  assert (Hne : edge_pair e <> edge_pair e') by (intros Heq; apply Hn; rewrite Heq; by apply list_elem_of_fmap_2).
  apply edge_lt_pair; rewrite !with_health_pair; [done|]. by apply edge_lt_pair, He.
Qed.

Lemma health_validates health t :
  validate t = Ok tt ->
  Forall (fun kv : RelayId * RelayId * (N * N) => kv.2.1 <= default_backbone_rtt_millis /\
                    kv.2.2 <= default_backbone_loss_permyriad) (map_to_list health) ->
  validate (mkTopology (mesh_id t) (revision t) (mode t) (nodes t) (with_health health <$> edges t)) = Ok tt.
Proof.
  intros Hvalid Hrange.
  destruct (validate_inv t Hvalid) as (H1 & H2 & H3 & H4 & H5 & H6 & H7).
  unfold validate. cbn [nodes edges]. rewrite (proj2 (N.ltb_ge _ _)) by done.
  rewrite (proj2 (N.ltb_ge _ _)) by (unfold lenN in *; by rewrite length_fmap). cbn [orb].
  rewrite (proj2 (Dir.ensure_sorted_unique_Ok (relay_id <$> nodes t))) by exact H3. cbn [mbind outcome_bind]. rewrite H4. cbn [negb].
  rewrite (proj2 (Dir.ensure_sorted_unique_Ok (with_health health <$> edges t))) by by apply edges_sorted_health. cbn [mbind outcome_bind].
  assert (Hpairs : (fun e => (left e, right e)) <$> (with_health health <$> edges t) = edge_pair <$> edges t).
  { rewrite <-list_fmap_compose. apply list_fmap_ext. intros _ e _. apply with_health_pair. }
  rewrite Dir.ensure_unique_spec, Hpairs, bool_decide_eq_true_2 by done. cbn [mbind outcome_bind].
  rewrite (proj2 (forallb_forall _ _)); [done|]. intros e He%list_elem_of_In.
  apply list_elem_of_fmap in He as (e' & -> & He'). rewrite forallb_forall in H7. apply list_elem_of_In, H7 in He'.
  unfold with_health. destruct (health !! (left e', right e')) as [[r l]|] eqn:Hh; [|done].
  rewrite Forall_forall in Hrange. apply elem_of_map_to_list, Hrange in Hh. cbn in Hh. destruct Hh as [Hr Hl].
  unfold edge_ok in *. cbn [left right rtt_millis loss_permyriad]. rewrite !negb_true_iff, !orb_false_iff in *.
  rewrite !N.ltb_ge. naive_solver.
Qed.
Lemma apply_link_health_valid health t :
  validate t = Ok tt ->
  let in_range := Forall (fun kv : RelayId * RelayId * (N * N) => kv.2.1 <= default_backbone_rtt_millis /\
                    kv.2.2 <= default_backbone_loss_permyriad) (map_to_list health) in
  (validate (mkTopology (mesh_id t) (revision t) (mode t) (nodes t) (with_health health <$> edges t)) = Ok tt /\ in_range /\
   apply_link_health health t =
     (mkTopology (mesh_id t) (revision t) (mode t) (nodes t) (with_health health <$> edges t), Ok tt)) \/
  (~ in_range /\ apply_link_health health t = (t, Err Dir.NonCanonical)).
Proof.
  intros Hvalid. cbv zeta. unfold apply_link_health.
  destruct (decide (Forall (fun kv : RelayId * RelayId * (N * N) => kv.2.1 <= default_backbone_rtt_millis /\
                    kv.2.2 <= default_backbone_loss_permyriad) (map_to_list health))) as [Hrange|Hrange].
  - left. pose proof (health_validates health t Hvalid Hrange) as Hv.
    rewrite (proj1 (not_true_iff_false _)).
    2:{ intros (kv & Hin%list_elem_of_In & Hkv)%existsb_exists. rewrite Forall_forall in Hrange.
        apply Hrange in Hin. rewrite orb_true_iff, !N.ltb_lt in Hkv. lia. }
    cbn [mesh_id nodes]. by rewrite Hv.
  - right. split; [done|]. rewrite (proj2 (existsb_exists _ _)); [done|]. apply not_Forall_Exists in Hrange; [|apply _].
    apply Exists_exists in Hrange as (kv & Hin & Hkv). exists kv. split; [by apply list_elem_of_In|].
    apply orb_true_iff. rewrite !N.ltb_lt. cbn in Hkv. lia.
Qed.

(** Control's link health is applied to a canonical topology in full or not at all: a sample outside its bounds
    refuses the whole update, leaving the topology as it was; otherwise every listed edge takes its sample, no
    other field changes, and the result is canonical again. *)
Theorem apply_link_health_exact health t (Hvalid : validate t = Ok tt) :
  let in_range := bool_decide (Forall (fun kv => kv.2.1 <= default_backbone_rtt_millis /\
                                                 kv.2.2 <= default_backbone_loss_permyriad) (map_to_list health)) in
  apply_link_health health t =
    if in_range
    then (mkTopology (mesh_id t) (revision t) (mode t) (nodes t) (with_health health <$> edges t), Ok tt)
    else (t, Err Dir.NonCanonical).
Proof.
  cbv zeta. destruct (apply_link_health_valid health t Hvalid) as [(_ & Hr & ->)|[Hr ->]].
  - by rewrite bool_decide_eq_true_2.
  - by rewrite bool_decide_eq_false_2.
Qed.

Lemma walk_first_edge es s ex n v c f :
  walk es s ex n v c f -> ex <> Some f /\ exists e, e ∈ es /\ joins e s f.
Proof. induction 1 as [e v He Hj Hx|n u c f e v _ IH He Hj Hv]; [|done]. split; [done|]. by exists e. Qed.
Lemma next_hop_found t s d ex c f :
  validate t = Ok tt -> shortest_next_hop t s d ex = Some (c, f) ->
  ex <> Some f /\ (exists e, e ∈ edges t /\ joins e s f) /\ exists n, n <= 4 /\ walk (edges t) s ex n d c f.
Proof.
  intros Hv Hr. pose proof (shortest_next_hop_shortest t s d ex Hv) as H. rewrite Hr in H.
  destruct H as (n & Hn & Hw & _). destruct (walk_first_edge _ _ _ _ _ _ _ Hw) as [Hx He].
  split; [done|]. split; [done|]. by exists n.
Qed.

Lemma build_inv mesh rev ns threshold capability t :
  build mesh rev ns threshold capability = Ok t ->
  validate t = Ok tt /\ exists sparse, edges t = bt_elements (built_edges sparse (sort_by_key relay_id ns)).
Proof.
  intros Hb. split; [by eapply build_validates|]. unfold build in Hb. apply bind_Ok in Hb as (? & _ & Hb). cbv zeta in Hb.
  apply bind_Ok in Hb as ([] & _ & [= <-]). cbn. by eexists.
Qed.
Lemma built_within mesh rev ns threshold capability t s d :
  build mesh rev ns threshold capability = Ok t -> s ∈ relay_id <$> ns -> d ∈ relay_id <$> ns ->
  within (edges t) s 4 d.
Proof.
  intros (_ & sparse & ->)%build_inv (x & -> & Hx)%list_elem_of_fmap (y & -> & Hy)%list_elem_of_fmap.
  apply (elem_of_sort_by_key relay_id) in Hx, Hy. destruct sparse; [by apply sparse_within|by apply full_within].
Qed.

(** A topology after an update of its link health, accepted or not. *)
Lemma health_keeps health t s d :
  validate t = Ok tt -> within (edges t) s 4 d ->
  let t' := (apply_link_health health t).1 in validate t' = Ok tt /\ within (edges t') s 4 d.
Proof.
  intros Hv Hw. pose proof (apply_link_health_valid health t Hv) as [(Hv' & _ & ->)|[_ ->]]; [|done].
  cbn. split; [done|]. by apply within_health.
Qed.

(** C5: Every relay can route to every other. In a topology [build] made, and after any update of its link health,
    each pair of distinct relays has a primary next hop, on a path of at most four hops whose first edge is the
    next hop's own; a backup, when there is one, is another neighbour. *)
Theorem built_topology_routes mesh rev ns threshold capability health t source destination
    (Hbuild : build mesh rev ns threshold capability = Ok t)
    (Hs : source ∈ relay_id <$> ns) (Hd : destination ∈ relay_id <$> ns) (Hne : source <> destination) :
  let t' := (apply_link_health health t).1 in
  exists primary rest, next_hops t' source destination = primary :: rest /\
    (exists n cost, n <= 4 /\ walk (edges t') source None n destination cost primary) /\
    (exists e, e ∈ edges t' /\ joins e source primary) /\
    (forall backup, backup ∈ rest -> backup <> primary /\ exists e, e ∈ edges t' /\ joins e source backup).
Proof.
  cbv zeta. pose proof (proj1 (build_inv _ _ _ _ _ _ Hbuild)) as Hv.
  destruct (health_keeps health t _ _ Hv (built_within _ _ _ _ _ _ _ _ Hbuild Hs Hd)) as [Hv' Hw].
  set (t' := (apply_link_health health t).1) in *.
  destruct Hw as [->|(n & c & f & Hn & Hw)]; [done|].
  unfold next_hops. destruct (shortest_next_hop t' source destination None) as [[c1 p]|] eqn:Hp.
  2:{ pose proof (shortest_next_hop_shortest t' source destination None Hv') as H. rewrite Hp in H. apply H in Hw. lia. }
  destruct (next_hop_found _ _ _ _ _ _ Hv' Hp) as (_ & He & n1 & Hn1 & Hw1).
  destruct (shortest_next_hop t' source destination (Some p)) as [[c2 b]|] eqn:Hb; eexists p, _; (split; [done|]).
  - destruct (next_hop_found _ _ _ _ _ _ Hv' Hb) as (Hx & He2 & _). split; [by exists n1, c1|]. split; [done|].
    intros q ->%list_elem_of_singleton. split; [congruence|done].
  - split; [by exists n1, c1|]. split; [done|]. by intros q ?%not_elem_of_nil.
Qed.

(** ** Hop by hop, while every edge costs the same *)

Definition uniform (t : RelayTopologyV1) : Prop := exists w, 0 < w /\ forall e, e ∈ edges t -> routing_cost e = w.

Lemma walk_uniform es s ex w n v c f : (forall e, e ∈ es -> routing_cost e = w) -> walk es s ex n v c f -> c = n * w /\ 1 <= n.
Proof.
  intros Hw. induction 1 as [e v He Hj Hx|n u c f e v _ [IH Hn] He Hj Hv]; [rewrite (Hw e He); lia|].
  rewrite (Hw e He), IH. lia.
Qed.
Lemma walk_rest es s ex n v c f : walk es s ex n v c f -> within es f (n - 1) v.
Proof.
  induction 1 as [e v He Hj Hx|n u c f e v Hw IH He Hj Hv]; [by left|].
  assert (Hn : 1 <= n) by (clear -Hw; induction Hw; lia).
  replace (n + 1 - 1) with (n - 1 + 1) by lia. eapply within_near; [exact IH|]. right. by exists e.
Qed.

(** The primary next hop is nearer to the destination than the Relay itself. *)
Lemma next_hop_closer t s d k : validate t = Ok tt -> uniform t -> s <> d -> k <= 4 -> within (edges t) s k d ->
  exists n f rest, 1 <= n <= k /\ next_hops t s d = f :: rest /\ (exists e, e ∈ edges t /\ joins e s f) /\
    within (edges t) f (n - 1) d /\ ~ within (edges t) s (n - 1) d.
Proof.
  intros Hv (w & Hw & Hu) Hne Hk [?|(n' & c' & f' & Hn' & Hwalk')]; [congruence|].
  pose proof (shortest_next_hop_shortest t s d None Hv) as Hs. unfold next_hops.
  destruct (shortest_next_hop t s d None) as [[c f]|] eqn:Hf.
  2:{ apply Hs in Hwalk'. lia. }
  destruct Hs as (n & Hn & Hwalk & Hbest). destruct (walk_uniform _ _ _ _ _ _ _ _ Hu Hwalk) as [Hc Hn1].
  assert (Hmin : forall m c2 f2, walk (edges t) s None m d c2 f2 -> m <= 4 -> n <= m).
  { intros m c2 f2 Hm Hm4. destruct (walk_uniform _ _ _ _ _ _ _ _ Hu Hm) as [Hc2 _].
    destruct (Hbest _ _ _ Hm Hm4) as [Hlt|[Heq Hle]]; [|done]. subst c c2. nia. }
  pose proof (Hmin _ _ _ Hwalk' ltac:(lia)) as Hle.
  exists n, f, (match shortest_next_hop t s d (Some f) with Some (_, b) => [b] | None => [] end).
  split; [lia|]. split; [by destruct (shortest_next_hop t s d (Some f)) as [[]|]|].
  split; [by destruct (walk_first_edge _ _ _ _ _ _ _ Hwalk)|]. split; [by eapply walk_rest|].
  intros [?|(m & c2 & f2 & Hm & Hw2)]; [congruence|]. pose proof (Hmin _ _ _ Hw2 ltac:(lia)). lia.
Qed.
Lemma built_uniform mesh rev ns threshold capability t :
  build mesh rev ns threshold capability = Ok t -> uniform t.
Proof.
  intros (_ & sparse & He)%build_inv. exists 220000. split; [done|]. intros e Hin. rewrite He in Hin.
  apply elem_of_bt_elements, built_between in Hin as (a & b & _ & _ & Hab).
  apply edge_new_Some in Hab as (_ & _ & _ & Hr & Hl). unfold routing_cost. by rewrite Hr, Hl.
Qed.
(** Edges join Relays of the topology. *)
Lemma valid_edge_nodes t e a b : validate t = Ok tt -> e ∈ edges t -> joins e a b ->
  a ∈ relay_id <$> nodes t /\ b ∈ relay_id <$> nodes t.
Proof.
  intros (_ & _ & _ & _ & _ & _ & He)%validate_inv Hin Hj. rewrite forallb_forall in He.
  apply list_elem_of_In, He in Hin. unfold edge_ok in Hin. rewrite negb_true_iff, !orb_false_iff, !negb_false_iff in Hin.
  destruct Hin as [[[[_ Hl%bool_decide_eq_true] Hr%bool_decide_eq_true] _] _]. rewrite elem_of_list_to_set in Hl, Hr.
  by destruct Hj as [[<- <-]|[<- <-]].
Qed.

(** ** Witnesses *)

(** Two regions of two relays each, and one spare relay. *)
Definition example_node (i w : N) (r : list byte) : RelayTopologyNodeV1 := mkNode (mkDomainId i) r w 1.
Definition example_nodes : list RelayTopologyNodeV1 :=
  [example_node 3 10 [x61]; example_node 1 20 [x61]; example_node 4 5 [x62]; example_node 2 7 [x62]].
Definition example_topology : RelayTopologyV1 :=
  default (mkTopology (mkDomainId 9) 0 FullMesh [] [])
    (match build (mkDomainId 9) 5 example_nodes 3 1 with Ok t => Some t | _ => None end).

Lemma build_order_independent_witness :
  example_nodes ≡ₚ rev example_nodes /\
  build (mkDomainId 9) 5 example_nodes 3 1 = build (mkDomainId 9) 5 (rev example_nodes) 3 1.
Proof.
  assert (H : example_nodes ≡ₚ rev example_nodes) by (apply Permutation_rev).
  split; [exact H|]. by apply build_order_independent.
Defined.

Lemma build_accepts_witness :
  exists t, build (mkDomainId 9) 5 example_nodes 3 1 = Ok t /\ validate t = Ok tt /\ mode t = Sparse.
Proof.
  pose proof (build_accepts (mkDomainId 9) 5 example_nodes 3 1 eq_refl ltac:(done) ltac:(by left)) as H.
  rewrite bool_decide_eq_true_2 in H.
  - destruct H as (t & Hb & Hv & _ & Hm & _). exists t. split; [done|]. split; [done|]. by apply Hm.
  - apply (bool_decide_unpack _). vm_compute. exact I.
Defined.

Lemma apply_link_health_exact_witness :
  validate example_topology = Ok tt /\
  (apply_link_health {[(mkDomainId 1, mkDomainId 3) := (5, 0)]} example_topology).2 = Ok tt.
Proof.
  assert (H : validate example_topology = Ok tt) by (vm_compute; reflexivity). split; [exact H|].
  rewrite (apply_link_health_exact _ example_topology H). reflexivity.
Defined.

Lemma shortest_next_hop_optimal_witness :
  validate example_topology = Ok tt /\
  exists c f n, shortest_next_hop example_topology (mkDomainId 3) (mkDomainId 4) None = Some (c, f) /\
    n <= 4 /\ walk (edges example_topology) (mkDomainId 3) None n (mkDomainId 4) c f.
Proof.
  assert (H : validate example_topology = Ok tt) by (vm_compute; reflexivity). split; [exact H|].
  pose proof (shortest_next_hop_optimal example_topology (mkDomainId 3) (mkDomainId 4) None H) as Ho.
  destruct (shortest_next_hop example_topology (mkDomainId 3) (mkDomainId 4) None) as [[c f]|] eqn:He.
  - destruct Ho as (n & Hn & Hw & _). exists c, f, n.
    split; [reflexivity|]. split; [exact Hn|exact Hw].
  - vm_compute in He. discriminate He.
Defined.

Lemma built_topology_routes_witness :
  build (mkDomainId 9) 5 example_nodes 3 1 = Ok example_topology /\
  exists primary rest, next_hops (apply_link_health ∅ example_topology).1 (mkDomainId 3) (mkDomainId 4) = primary :: rest.
Proof.
  assert (H : build (mkDomainId 9) 5 example_nodes 3 1 = Ok example_topology) by (vm_compute; reflexivity).
  split; [exact H|].
  destruct (built_topology_routes (mkDomainId 9) 5 example_nodes 3 1 ∅ example_topology (mkDomainId 3) (mkDomainId 4) H)
    as (p & rest & Hn & _).
  - apply list_elem_of_In. vm_compute. tauto.
  - apply list_elem_of_In. vm_compute. tauto.
  - discriminate.
  - exists p, rest. exact Hn.
Defined.

End Topo.
