(* ===== verification/Credentials.v ===== *)
(** * Root-anchored credentials (crate [peerward-credentials])

    authority.rs, subject.rs, bundle.rs and transcripts.rs: the fixed transcripts
    that are signed, the fixed-width encodings that are transported, and the
    trust set that decides which subjects a mesh accepts. Ed25519 and X25519 are
    not part of the repository; the classes [Ed25519Lib] and [X25519Lib] stand
    for [ed25519_dalek] and [x25519_dalek]. *)

From S2P Require Import Prelude Ordered Net Directory.
From Stdlib Require Import NArith Lia.
From stdpp Require Import base tactics decidable countable numbers list sorting gmap.
From Stdlib.Init Require Import Byte.
Set Default Goal Selector "!".
Local Open Scope N_scope.

(** [SigningKey::from_bytes(seed).verifying_key().to_bytes()], [SigningKey::sign],
    [VerifyingKey::from_bytes] succeeding, and [VerifyingKey::verify]. *)
Class Ed25519Lib := {
  ed_public : list byte -> list byte;
  ed_sign : list byte -> list byte -> list byte;
  ed_valid_key : list byte -> bool;
  ed_verify : list byte -> list byte -> list byte -> bool;
}.
(** What RFC 8032 promises of a key pair. *)
Class Ed25519Laws `{Ed25519Lib} : Prop := {
  ed_public_valid seed : ed_valid_key (ed_public seed) = true;
  ed_public_len seed : lenN (ed_public seed) = 32;
  ed_sign_len seed m : lenN (ed_sign seed m) = 64;
  ed_verify_sign seed m : ed_verify (ed_public seed) m (ed_sign seed m) = true;
}.
(** [StaticSecret::diffie_hellman(..).was_contributory()] for the fixed secret. *)
Class X25519Lib := { was_contributory : list byte -> bool }.

Module Cred.

Notation CredentialSerial := DomainId (only parsing).

Inductive CredentialError :=
  | InvalidSignature | InvalidKey | InvalidInterval | OutsideValidity | WrongMesh | Revoked
  | Malformed | Rollback | NonCanonical.
#[export] Instance CredentialError_eq_dec : EqDecision CredentialError.
Proof. solve_decision. Defined.

(** [Ok] of a unit result as a test, and [if .. { return Err(..) }]. *)
Notation result := (outcome CredentialError).
Definition require (b : bool) (e : CredentialError) : result unit := if b then Ok tt else Err e.

(** ** Records *)

Record UnsignedAuthority := mkUnsignedAuthority {
  ua_mesh_id : MeshId;
  ua_serial : CredentialSerial;
  ua_public_key : list byte;
  ua_not_before : N;
  ua_not_after : N;
}.
Record AuthorityCertificate := mkAuthority {
  ac_unsigned : UnsignedAuthority;
  ac_signature : list byte;
}.
#[export] Instance UnsignedAuthority_eq_dec : EqDecision UnsignedAuthority.
Proof. solve_decision. Defined.
#[export] Instance AuthorityCertificate_eq_dec : EqDecision AuthorityCertificate.
Proof. solve_decision. Defined.
Record DistributionCertificate := mkDistribution {
  dc_mesh_id : MeshId;
  authority_public_key : list byte;
  directory_public_key : list byte;
  service_public_key : list byte;
  audit_public_key : list byte;
  dc_signature : list byte;
}.

Inductive SubjectRole := PeerRole | RelayRole.
#[export] Instance SubjectRole_eq_dec : EqDecision SubjectRole.
Proof. solve_decision. Defined.
Definition transcript_tag (r : SubjectRole) : byte := match r with PeerRole => x01 | RelayRole => x02 end.
Inductive SubjectId := PeerSubject (id : PeerId) | RelaySubject (id : RelayId).
#[export] Instance SubjectId_eq_dec : EqDecision SubjectId.
Proof. solve_decision. Defined.
Definition subject_role (s : SubjectId) : SubjectRole :=
  match s with PeerSubject _ => PeerRole | RelaySubject _ => RelayRole end.
Definition subject_bytes (s : SubjectId) : list byte :=
  match s with PeerSubject id | RelaySubject id => id_bytes id end.

Record UnsignedSubject := mkUnsignedSubject {
  us_subject : SubjectId;
  us_mesh_id : MeshId;
  identity_public_key : list byte;
  public_noise_key : list byte;
  wireguard_public_key : list byte;
  us_serial : CredentialSerial;
  us_not_before : N;
  us_not_after : N;
}.
(** The fields of [SubjectCredential] other than its role and signature are those
    of [UnsignedSubject]; [unsigned] copies them. *)
Record SubjectCredential := mkSubject {
  sc_role : SubjectRole;
  sc_unsigned : UnsignedSubject;
  sc_signature : list byte;
}.

Record AuthorityBundle := mkBundle {
  ab_mesh_id : MeshId;
  ab_revision : N;
  ab_active : AuthorityCertificate;
  ab_overlap : list AuthorityCertificate;
  ab_revoked : list CredentialSerial;
}.
Record SignedAuthorityBundle := mkSignedBundle { sb_bundle : AuthorityBundle; sb_signature : list byte }.

(** ** Transcripts *)

(** [b"peerward/root-authority/v1\0"] and its siblings. *)
Definition PREFIX : list byte := [x70; x65; x65; x72; x77; x61; x72; x64; x2f].
Definition AUTHORITY_DOMAIN : list byte := PREFIX ++
  [x72; x6f; x6f; x74; x2d; x61; x75; x74; x68; x6f; x72; x69; x74; x79; x2f; x76; x31; x00].
Definition SUBJECT_DOMAIN : list byte := PREFIX ++
  [x73; x75; x62; x6a; x65; x63; x74; x2d; x63; x72; x65; x64; x65; x6e; x74; x69; x61; x6c; x2f; x76; x33; x00].
Definition DISTRIBUTION_DOMAIN : list byte := PREFIX ++
  [x64; x69; x73; x74; x72; x69; x62; x75; x74; x69; x6f; x6e; x2d; x74; x72; x75; x73; x74; x2f; x76; x31; x00].
Definition AUTHORITY_BUNDLE_DOMAIN : list byte := PREFIX ++
  [x61; x75; x74; x68; x6f; x72; x69; x74; x79; x2d; x62; x75; x6e; x64; x6c; x65; x2f; x76; x31; x00].

Definition authority_fields (v : UnsignedAuthority) : list byte :=
  id_bytes (ua_mesh_id v) ++ id_bytes (ua_serial v) ++ ua_public_key v ++
  to_be 8 (ua_not_before v) ++ to_be 8 (ua_not_after v).
Definition authority_transcript (v : UnsignedAuthority) : list byte := AUTHORITY_DOMAIN ++ authority_fields v.

Definition subject_fields (v : UnsignedSubject) : list byte :=
  id_bytes (us_mesh_id v) ++ subject_bytes (us_subject v) ++ identity_public_key v ++ public_noise_key v ++
  wireguard_public_key v ++ id_bytes (us_serial v) ++ to_be 8 (us_not_before v) ++ to_be 8 (us_not_after v).
Definition subject_transcript (v : UnsignedSubject) : list byte :=
  SUBJECT_DOMAIN ++ [transcript_tag (subject_role (us_subject v))] ++ subject_fields v.

Definition distribution_fields (v : DistributionCertificate) : list byte :=
  id_bytes (dc_mesh_id v) ++ authority_public_key v ++ directory_public_key v ++ service_public_key v ++
  audit_public_key v.
Definition distribution_transcript (v : DistributionCertificate) : list byte :=
  DISTRIBUTION_DOMAIN ++ distribution_fields v.

Definition authority_encode (c : AuthorityCertificate) : list byte :=
  authority_fields (ac_unsigned c) ++ ac_signature c.

(** [put_count]: the collections are below [u32], which [validate_shape] ensures. *)
Definition put_count (n : N) : list byte := to_be 4 n.
Definition bundle_fields (b : AuthorityBundle) : list byte :=
  id_bytes (ab_mesh_id b) ++ to_be 8 (ab_revision b) ++ authority_encode (ab_active b) ++
  put_count (lenN (ab_overlap b)) ++ concat (authority_encode <$> ab_overlap b) ++
  put_count (lenN (ab_revoked b)) ++ concat (id_bytes <$> ab_revoked b).
Definition authority_bundle_transcript (b : AuthorityBundle) : list byte :=
  AUTHORITY_BUNDLE_DOMAIN ++ bundle_fields b.

Definition validate_interval (start fin : N) : result unit := require (start <? fin) InvalidInterval.
Definition validate_time (start fin now : N) : result unit :=
  require ((start <=? now) && (now <? fin)) OutsideValidity.

(** ** Fixed-width reads: [bytes[a..b].try_into()], [Uuid::from_slice], [u64::from_be_bytes] *)

Definition array_at (bytes : list byte) (a b : N) : result (list byte) :=
  s ← slice bytes a b;
  if lenN s =? b - a then Ok s else Err Malformed.
Definition id_at `{UuidLib} (bytes : list byte) (a b : N) : result DomainId :=
  s ← slice bytes a b;
  if lenN s =? 16 then ok_or (from_uuid (from_be s)) Malformed else Err Malformed.
Definition u64_at (bytes : list byte) (a b : N) : result N :=
  s ← array_at bytes a b;
  Ok (from_be s).

#[local] Arguments to_be : simpl never.
#[local] Arguments id_bytes : simpl never.
#[local] Arguments from_be : simpl never.

Section credentials.
Context `{UuidLib} `{Ed25519Lib} `{X25519Lib}.

(** ** authority.rs *)

Definition certify (root_seed : list byte) (u : UnsignedAuthority) : result AuthorityCertificate :=
  _ ← validate_interval (ua_not_before u) (ua_not_after u);
  Ok (mkAuthority u (ed_sign root_seed (authority_transcript u))).

Definition verify_authority (root : list byte) (c : AuthorityCertificate) (mesh : MeshId) (now : N) : result unit :=
  if negb (bool_decide (ua_mesh_id (ac_unsigned c) = mesh)) then Err WrongMesh else
  _ ← validate_interval (ua_not_before (ac_unsigned c)) (ua_not_after (ac_unsigned c));
  _ ← validate_time (ua_not_before (ac_unsigned c)) (ua_not_after (ac_unsigned c)) now;
  require (ed_verify root (authority_transcript (ac_unsigned c)) (ac_signature c)) InvalidSignature.

Definition authority_decode (bytes : list byte) : result AuthorityCertificate :=
  if negb (lenN bytes =? 144) then Err Malformed else
  mesh ← id_at bytes 0 16;
  serial ← id_at bytes 16 32;
  key ← array_at bytes 32 64;
  not_before ← u64_at bytes 64 72;
  not_after ← u64_at bytes 72 80;
  signature ← array_at bytes 80 144;
  _ ← validate_interval not_before not_after;
  Ok (mkAuthority (mkUnsignedAuthority mesh serial key not_before not_after) signature).

Definition distribution_encode (c : DistributionCertificate) : list byte := distribution_fields c ++ dc_signature c.
Definition distribution_decode (bytes : list byte) : result DistributionCertificate :=
  if negb (lenN bytes =? 208) then Err Malformed else
  mesh ← id_at bytes 0 16;
  authority ← array_at bytes 16 48;
  directory ← array_at bytes 48 80;
  service ← array_at bytes 80 112;
  audit ← array_at bytes 112 144;
  signature ← array_at bytes 144 208;
  Ok (mkDistribution mesh authority directory service audit signature).
Definition certify_distribution (seed : list byte) (mesh : MeshId) (directory service audit : list byte)
    : DistributionCertificate :=
  let c := mkDistribution mesh (ed_public seed) directory service audit (replicate 64 x00) in
  mkDistribution mesh (ed_public seed) directory service audit (ed_sign seed (distribution_transcript c)).

(** ** subject.rs *)

Definition all_zero (bs : list byte) : bool := forallb (fun b => u8 b =? 0) bs.
Definition validate_subject_keys (subject : SubjectId) (identity session wireguard : list byte) : result unit :=
  let identity_valid :=
    match subject with
    | PeerSubject _ => negb (all_zero identity) && was_contributory wireguard
                       && negb (bool_decide (wireguard = session)) && negb (bool_decide (wireguard = identity))
    | RelaySubject _ => all_zero identity && all_zero wireguard
    end in
  require (identity_valid && negb (all_zero session)) InvalidKey.

Definition issue (seed : list byte) (u : UnsignedSubject) : result SubjectCredential :=
  _ ← validate_interval (us_not_before u) (us_not_after u);
  _ ← validate_subject_keys (us_subject u) (identity_public_key u) (public_noise_key u) (wireguard_public_key u);
  Ok (mkSubject (subject_role (us_subject u)) u (ed_sign seed (subject_transcript u))).

Definition subject_encode (c : SubjectCredential) : list byte :=
  [transcript_tag (sc_role c)] ++ subject_fields (sc_unsigned c) ++ sc_signature c.

Definition subject_decode (bytes : list byte) : result SubjectCredential :=
  if negb (lenN bytes =? 225) then Err Malformed else
  tag ← index bytes 0;
  role ← (if u8 tag =? 1 then Ok PeerRole else if u8 tag =? 2 then Ok RelayRole else Err Malformed);
  mesh ← id_at bytes 1 17;
  id ← id_at bytes 17 33;
  let subject := match role with PeerRole => PeerSubject id | RelayRole => RelaySubject id end in
  identity ← array_at bytes 33 65;
  noise ← array_at bytes 65 97;
  wireguard ← array_at bytes 97 129;
  serial ← id_at bytes 129 145;
  not_before ← u64_at bytes 145 153;
  not_after ← u64_at bytes 153 161;
  signature ← array_at bytes 161 225;
  _ ← map_err (fun _ => Malformed) (validate_subject_keys subject identity noise wireguard);
  _ ← validate_interval not_before not_after;
  Ok (mkSubject role (mkUnsignedSubject subject mesh identity noise wireguard serial not_before not_after) signature).

Definition verify_with_authority (c : SubjectCredential) (authority_key : list byte) (now : N) : result unit :=
  let u := sc_unsigned c in
  if negb (bool_decide (sc_role c = subject_role (us_subject u))) then Err InvalidSignature else
  _ ← validate_subject_keys (us_subject u) (identity_public_key u) (public_noise_key u) (wireguard_public_key u);
  _ ← validate_interval (us_not_before u) (us_not_after u);
  _ ← validate_time (us_not_before u) (us_not_after u) now;
  _ ← require (ed_valid_key authority_key) InvalidSignature;
  require (ed_verify authority_key (subject_transcript u) (sc_signature c)) InvalidSignature.

Record TrustSet := mkTrust {
  ts_root : list byte;
  ts_mesh_id : MeshId;
  authorities : list AuthorityCertificate;
  revoked_authority_serials : gset CredentialSerial;
  revoked_subject_serials : gset CredentialSerial;
  authority_revision : option N;
  authority_revision_resumed : bool;
}.
Definition trust_new (root : list byte) (mesh : MeshId) : TrustSet := mkTrust root mesh [] ∅ ∅ None false.

Definition resume_authority_revision (revision : N) (t : TrustSet) : TrustSet * result unit :=
  if (revision =? 0) || bool_decide (is_Some (authority_revision t)) || (lenN (authorities t) =? 0)
  then (t, Err NonCanonical)
  else (mkTrust (ts_root t) (ts_mesh_id t) (authorities t) (revoked_authority_serials t)
          (revoked_subject_serials t) (Some revision) true, Ok tt).

Definition add_authority (c : AuthorityCertificate) (now : N) (t : TrustSet) : TrustSet * result unit :=
  match verify_authority (ts_root t) c (ts_mesh_id t) now with
  | Ok _ => (mkTrust (ts_root t) (ts_mesh_id t) (authorities t ++ [c]) (revoked_authority_serials t)
               (revoked_subject_serials t) (authority_revision t) (authority_revision_resumed t), Ok tt)
  | Err e => (t, Err e)
  | Panic => (t, Panic)
  end.

Definition verify_distribution (c : DistributionCertificate) (now : N) (t : TrustSet) : result unit :=
  if negb (bool_decide (dc_mesh_id c = ts_mesh_id t)) then Err WrongMesh else
  authority ← ok_or (find (fun a => bool_decide (ua_public_key (ac_unsigned a) = authority_public_key c)) (authorities t))
                InvalidSignature;
  if bool_decide (ua_serial (ac_unsigned authority) ∈ revoked_authority_serials t) then Err Revoked else
  _ ← validate_time (ua_not_before (ac_unsigned authority)) (ua_not_after (ac_unsigned authority)) now;
  _ ← require (ed_valid_key (authority_public_key c)) InvalidSignature;
  require (ed_verify (authority_public_key c) (distribution_transcript c) (dc_signature c)) InvalidSignature.

Definition revoke_subject (serial : CredentialSerial) (t : TrustSet) : TrustSet :=
  mkTrust (ts_root t) (ts_mesh_id t) (authorities t) (revoked_authority_serials t)
    ({[serial]} ∪ revoked_subject_serials t) (authority_revision t) (authority_revision_resumed t).
Definition revoke_authority (serial : CredentialSerial) (t : TrustSet) : TrustSet :=
  mkTrust (ts_root t) (ts_mesh_id t) (authorities t) ({[serial]} ∪ revoked_authority_serials t)
    (revoked_subject_serials t) (authority_revision t) (authority_revision_resumed t).

(** One turn of the loop over the authorities. *)
Definition consider_authority (c : SubjectCredential) (now : N) (t : TrustSet) (valid_until : option N)
    (authority : AuthorityCertificate) : option N :=
  if bool_decide (ua_serial (ac_unsigned authority) ∈ revoked_authority_serials t) then valid_until
  else if negb (is_ok (verify_authority (ts_root t) authority (ts_mesh_id t) now)) then valid_until
  else if is_ok (verify_with_authority c (ua_public_key (ac_unsigned authority)) now) then
    let until := N.min (us_not_after (sc_unsigned c)) (ua_not_after (ac_unsigned authority)) in
    Some (match valid_until with Some previous => N.max previous until | None => until end)
  else valid_until.
Definition subject_valid_until (c : SubjectCredential) (now : N) (t : TrustSet) : result N :=
  if negb (bool_decide (us_mesh_id (sc_unsigned c) = ts_mesh_id t)) then Err WrongMesh
  else if negb (bool_decide (sc_role c = subject_role (us_subject (sc_unsigned c)))) then Err InvalidSignature
  else if bool_decide (us_serial (sc_unsigned c) ∈ revoked_subject_serials t) then Err Revoked
  else ok_or (foldl (consider_authority c now t) None (authorities t)) InvalidSignature.
Definition verify_subject (c : SubjectCredential) (now : N) (t : TrustSet) : result unit :=
  (fun _ => tt) <$> subject_valid_until c now t.

(** ** bundle.rs *)

Definition MAX_OVERLAP_AUTHORITIES : N := 8.
Definition MAX_REVOKED_AUTHORITIES : N := 65536.
Definition AUTHORITY_CERTIFICATE_LENGTH : N := 144.

Fixpoint increasing_from (previous : option CredentialSerial) (l : list CredentialSerial) : bool :=
  match l with
  | [] => true
  | v :: l' =>
      if match previous with Some old => leb_of v old | None => false end then false
      else increasing_from (Some v) l'
  end.
Definition strictly_increasing (l : list CredentialSerial) : bool := increasing_from None l.
Definition ac_serial (c : AuthorityCertificate) : CredentialSerial := ua_serial (ac_unsigned c).

Definition shape_violated (b : AuthorityBundle) : bool :=
  negb (bool_decide (ua_mesh_id (ac_unsigned (ab_active b)) = ab_mesh_id b))
  || (MAX_OVERLAP_AUTHORITIES <? lenN (ab_overlap b)) || (MAX_REVOKED_AUTHORITIES <? lenN (ab_revoked b))
  || existsb (fun c => negb (bool_decide (ua_mesh_id (ac_unsigned c) = ab_mesh_id b))) (ab_overlap b)
  || negb (strictly_increasing (ac_serial <$> ab_overlap b)) || negb (strictly_increasing (ab_revoked b))
  || existsb (fun c => bool_decide (ac_serial c = ac_serial (ab_active b))) (ab_overlap b)
  || bool_decide (ac_serial (ab_active b) ∈ ab_revoked b)
  || existsb (fun c => bool_decide (ac_serial c ∈ ab_revoked b)) (ab_overlap b).
Definition validate_shape (b : AuthorityBundle) : result unit := require (negb (shape_violated b)) NonCanonical.

Definition sign_authority_bundle (seed : list byte) (mesh : MeshId) (revision : N) (active : AuthorityCertificate)
    (overlap : list AuthorityCertificate) (revoked : list CredentialSerial) : result SignedAuthorityBundle :=
  if negb (bool_decide (ua_mesh_id (ac_unsigned active) = mesh))
     || negb (bool_decide (ua_public_key (ac_unsigned active) = ed_public seed)) then Err WrongMesh else
  let bundle := mkBundle mesh revision active (sort_by_key ac_serial overlap) (sort_by_key id revoked) in
  _ ← validate_shape bundle;
  Ok (mkSignedBundle bundle (ed_sign seed (authority_bundle_transcript bundle))).

(** The counts are within [u32] by [validate_shape]. *)
Definition bundle_encode (s : SignedAuthorityBundle) : result (list byte) :=
  _ ← validate_shape (sb_bundle s);
  if (U32_MAX <? lenN (ab_overlap (sb_bundle s))) || (U32_MAX <? lenN (ab_revoked (sb_bundle s)))
  then Err NonCanonical
  else Ok (bundle_fields (sb_bundle s) ++ sb_signature s).

(** [take_count]: the count and the cursor after it. *)
Definition take_count (bytes : list byte) (cursor maximum : N) : result (N * N) :=
  fin ← ok_or (checked_add cursor 4) Malformed;
  raw ← ok_or (get_slice bytes cursor fin) Malformed;
  let count := from_be raw in
  if maximum <? count then Err NonCanonical else Ok (count, fin).

(** [chunks_exact(n).map(decode).collect()] *)
Fixpoint decode_all {A} (decode : list byte -> result A) (l : list (list byte)) : result (list A) :=
  match l with
  | [] => Ok []
  | b :: l' => a ← decode b; rest ← decode_all decode l'; Ok (a :: rest)
  end.
Definition chunks_exact (n : N) (bs : list byte) : list (list byte) := filter (fun c => lenN c = n) (chunks n bs).
Definition checked_mul (a b : N) : option N := if a * b <=? USIZE_MAX then Some (a * b) else None.

Definition bundle_decode (bytes : list byte) : result SignedAuthorityBundle :=
  if lenN bytes <? 240 then Err Malformed else
  mesh ← id_at bytes 0 16;
  revision ← u64_at bytes 16 24;
  let active_end := 24 + AUTHORITY_CERTIFICATE_LENGTH in
  active_bytes ← slice bytes 24 active_end;
  active ← authority_decode active_bytes;
  '(overlap_count, cursor) ← take_count bytes active_end MAX_OVERLAP_AUTHORITIES;
  overlap_bytes ← ok_or (checked_mul overlap_count AUTHORITY_CERTIFICATE_LENGTH) Malformed;
  overlap_end ← ok_or (checked_add cursor overlap_bytes) Malformed;
  if lenN bytes <? overlap_end then Err Malformed else
  region ← slice bytes cursor overlap_end;
  overlap ← decode_all authority_decode (chunks_exact AUTHORITY_CERTIFICATE_LENGTH region);
  '(revoked_count, cursor) ← take_count bytes overlap_end MAX_REVOKED_AUTHORITIES;
  revoked_bytes ← ok_or (checked_mul revoked_count 16) Malformed;
  revoked_end ← ok_or (checked_add cursor revoked_bytes) Malformed;
  signature_end ← ok_or (checked_add revoked_end 64) Malformed;
  if negb (signature_end =? lenN bytes) then Err Malformed else
  region ← slice bytes cursor revoked_end;
  revoked ← decode_all (fun v => id_at v 0 (lenN v)) (chunks_exact 16 region);
  signature ← array_at bytes revoked_end signature_end;
  let signed := mkSignedBundle (mkBundle mesh revision active overlap revoked) signature in
  _ ← validate_shape (sb_bundle signed);
  Ok signed.

Fixpoint verify_all (root : list byte) (mesh : MeshId) (now : N) (l : list AuthorityCertificate) : result unit :=
  match l with [] => Ok tt | c :: l' => _ ← verify_authority root c mesh now; verify_all root mesh now l' end.
Definition verify_authority_bundle (root : list byte) (signed : SignedAuthorityBundle) (mesh : MeshId)
    (accepted_revision : option N) (now : N) : result TrustSet :=
  let bundle := sb_bundle signed in
  _ ← validate_shape bundle;
  if negb (bool_decide (ab_mesh_id bundle = mesh)) then Err WrongMesh
  else if match accepted_revision with Some accepted => ab_revision bundle <=? accepted | None => false end
  then Err Rollback else
  _ ← verify_authority root (ab_active bundle) mesh now;
  _ ← verify_all root mesh now (ab_overlap bundle);
  let key := ua_public_key (ac_unsigned (ab_active bundle)) in
  _ ← require (ed_valid_key key) InvalidSignature;
  _ ← require (ed_verify key (authority_bundle_transcript bundle) (sb_signature signed)) InvalidSignature;
  Ok (mkTrust root mesh (ab_active bundle :: ab_overlap bundle) (list_to_set (ab_revoked bundle)) ∅
        (Some (ab_revision bundle)) false).

(** The part both installs share: the replacement keeps every revocation. *)
Definition replace_trust (replacement : TrustSet) (t : TrustSet) : TrustSet * result unit :=
  if existsb (fun c => bool_decide (ac_serial c ∈ revoked_authority_serials t)) (authorities replacement)
  then (t, Err Revoked)
  else (mkTrust (ts_root replacement) (ts_mesh_id replacement) (authorities replacement)
          (revoked_authority_serials replacement ∪ revoked_authority_serials t) (revoked_subject_serials t)
          (authority_revision replacement) (authority_revision_resumed replacement), Ok tt).
Definition install_authority_bundle (signed : SignedAuthorityBundle) (now : N) (t : TrustSet) : TrustSet * result unit :=
  match verify_authority_bundle (ts_root t) signed (ts_mesh_id t) (authority_revision t) now with
  | Ok replacement => replace_trust replacement t
  | Err e => (t, Err e)
  | Panic => (t, Panic)
  end.
Definition install_authority_bundle_after_resume (signed : SignedAuthorityBundle) (now : N) (t : TrustSet)
    : TrustSet * result unit :=
  if negb (authority_revision_resumed t)
     || negb (bool_decide (authority_revision t = Some (ab_revision (sb_bundle signed))))
  then install_authority_bundle signed now t
  else
    match verify_authority_bundle (ts_root t) signed (ts_mesh_id t) None now with
    | Ok replacement =>
        if negb (bool_decide (authorities replacement = authorities t)) then (t, Err Rollback)
        else replace_trust replacement t
    | Err e => (t, Err e)
    | Panic => (t, Panic)
    end.

(** ** dynamic.rs

    The trust set behind a [RwLock] that sessions share: every method is one access
    under the lock, so concurrent use is a sequence of these steps. A panic while
    writing poisons the lock, and every later access fails. *)

Record DynamicTrust := mkDynamic { dyn_poisoned : bool; dyn_trust : TrustSet }.
Definition dyn_new (t : TrustSet) : DynamicTrust := mkDynamic false t.
Definition dyn_read {A} (f : TrustSet -> result A) (d : DynamicTrust) : result A :=
  if dyn_poisoned d then Err InvalidSignature else f (dyn_trust d).
Definition dyn_write (f : TrustSet -> TrustSet * result unit) (d : DynamicTrust) : DynamicTrust * result unit :=
  if dyn_poisoned d then (d, Err InvalidSignature) else
  let '(t, r) := f (dyn_trust d) in
  (mkDynamic (match r with Panic => true | _ => false end) t, r).
Definition dyn_verify_subject (c : SubjectCredential) (now : N) : DynamicTrust -> result unit :=
  dyn_read (verify_subject c now).
Definition dyn_verify_distribution (c : DistributionCertificate) (now : N) : DynamicTrust -> result unit :=
  dyn_read (verify_distribution c now).
Definition dyn_install_authority_bundle (signed : SignedAuthorityBundle) (now : N) : DynamicTrust -> DynamicTrust * result unit :=
  dyn_write (install_authority_bundle signed now).
Definition dyn_revoke_subject (serial : CredentialSerial) : DynamicTrust -> DynamicTrust * result unit :=
  dyn_write (fun t => (revoke_subject serial t, Ok tt)).
Definition dyn_authority_revision : DynamicTrust -> result (option N) := dyn_read (fun t => Ok (authority_revision t)).
Definition snapshot : DynamicTrust -> result TrustSet := dyn_read (fun t => Ok t).

(** ** Well-formed values: the array lengths and integer widths the types guarantee *)

Definition key_ok (k : list byte) : Prop := lenN k = 32.
Definition sig_ok (k : list byte) : Prop := lenN k = 64.
Definition ua_ok (u : UnsignedAuthority) : Prop :=
  id_wf (ua_mesh_id u) /\ id_wf (ua_serial u) /\ key_ok (ua_public_key u) /\
  ua_not_before u <= U64_MAX /\ ua_not_after u <= U64_MAX.
Definition ac_ok (c : AuthorityCertificate) : Prop := ua_ok (ac_unsigned c) /\ sig_ok (ac_signature c).
Definition subject_id (s : SubjectId) : DomainId := match s with PeerSubject i | RelaySubject i => i end.
Definition us_ok (u : UnsignedSubject) : Prop :=
  id_wf (us_mesh_id u) /\ id_wf (subject_id (us_subject u)) /\ id_wf (us_serial u) /\
  key_ok (identity_public_key u) /\ key_ok (public_noise_key u) /\ key_ok (wireguard_public_key u) /\
  us_not_before u <= U64_MAX /\ us_not_after u <= U64_MAX.
Definition dc_ok (c : DistributionCertificate) : Prop :=
  id_wf (dc_mesh_id c) /\ key_ok (authority_public_key c) /\ key_ok (directory_public_key c) /\
  key_ok (service_public_key c) /\ key_ok (audit_public_key c) /\ sig_ok (dc_signature c).

(** *** Fixed-width reads *)

Lemma lenN_id i : lenN (id_bytes i) = 16.
Proof. unfold id_bytes. by rewrite lenN_to_be. Qed.
Lemma lenN_be8 v : lenN (to_be 8 v) = 8.
Proof. by rewrite lenN_to_be. Qed.
Lemma array_at_skip x r a b : lenN x <= a -> a <= b -> array_at (x ++ r) a b = array_at r (a - lenN x) (b - lenN x).
Proof. intros Ha Hb. unfold array_at. rewrite slice_skip by done. by replace (b - lenN x - (a - lenN x)) with (b - a) by lia. Qed.
Lemma id_at_skip x r a b : lenN x <= a -> a <= b -> id_at (x ++ r) a b = id_at r (a - lenN x) (b - lenN x).
Proof. intros Ha Hb. unfold id_at. by rewrite slice_skip. Qed.
Lemma u64_at_skip x r a b : lenN x <= a -> a <= b -> u64_at (x ++ r) a b = u64_at r (a - lenN x) (b - lenN x).
Proof. intros Ha Hb. unfold u64_at. by rewrite array_at_skip. Qed.
Lemma array_at_cons x r a b : 1 <= a -> a <= b -> array_at (x :: r) a b = array_at r (a - 1) (b - 1).
Proof. apply (array_at_skip [x]). Qed.
Lemma id_at_cons x r a b : 1 <= a -> a <= b -> id_at (x :: r) a b = id_at r (a - 1) (b - 1).
Proof. apply (id_at_skip [x]). Qed.
Lemma u64_at_cons x r a b : 1 <= a -> a <= b -> u64_at (x :: r) a b = u64_at r (a - 1) (b - 1).
Proof. apply (u64_at_skip [x]). Qed.
Lemma array_at_here y z b : b = lenN y -> array_at (y ++ z) 0 b = Ok y.
Proof. intros Hb. unfold array_at. rewrite slice_here by done. cbn. by rewrite N.sub_0_r, Hb, N.eqb_refl. Qed.
Lemma id_at_here i z : id_wf i -> id_at (id_bytes i ++ z) 0 16 = Ok i.
Proof.
  intros Hi. unfold id_at. rewrite slice_here by by rewrite lenN_id. cbn [mbind outcome_bind].
  rewrite lenN_id, N.eqb_refl, from_be_id_bytes by done. destruct Hi as [_ ->]. done.
Qed.
Lemma u64_at_here v z : v <= U64_MAX -> u64_at (to_be 8 v ++ z) 0 8 = Ok v.
Proof.
  intros Hv. unfold u64_at. rewrite array_at_here by by rewrite lenN_be8. cbn [mbind outcome_bind].
  rewrite from_be_to_be; [done|]. change (256 ^ N.of_nat 8) with (U64_MAX + 1). lia.
Qed.

Lemma array_at_Ok bytes a b s : array_at bytes a b = Ok s -> slice (E:=CredentialError) bytes a b = Ok s /\ lenN s = b - a.
Proof.
  unfold array_at. intros (x & Hx & He)%bind_Ok. destruct (N.eqb_spec (lenN x) (b - a)); [|done].
  by injection He as <-.
Qed.
Lemma id_at_Ok bytes a b i : id_at bytes a b = Ok i -> id_wf i /\ slice (E:=CredentialError) bytes a b = Ok (id_bytes i).
Proof.
  unfold id_at. intros (sl & Hs & Hu)%bind_Ok. destruct (N.eqb_spec (lenN sl) 16) as [Hl|]; [|done].
  destruct (from_uuid (from_be sl)) as [i'|] eqn:Hf; [|done]. injection Hu as ->.
  pose proof (from_uuid_Some _ _ Hf) as Hid. split.
  - split; [|by rewrite Hid]. rewrite Hid. pose proof (from_be_lt sl) as Hlt. by rewrite Hl in Hlt.
  - rewrite Hs. unfold id_bytes. rewrite Hid. f_equal. symmetry. apply to_be_from_be'. unfold lenN in Hl. lia.
Qed.
Lemma u64_at_Ok bytes a b v : u64_at bytes a b = Ok v -> b - a = 8 ->
  v <= U64_MAX /\ slice (E:=CredentialError) bytes a b = Ok (to_be 8 v).
Proof.
  unfold u64_at. intros (s & [Hs Hl]%array_at_Ok & [= <-])%bind_Ok Hab. rewrite Hab in Hl. split.
  - pose proof (from_be_lt s) as Hlt. rewrite Hl in Hlt. change (256 ^ 8) with (U64_MAX + 1) in Hlt. lia.
  - rewrite Hs. f_equal. symmetry. apply to_be_from_be'. unfold lenN in Hl. lia.
Qed.
Lemma no_panic_array_at bytes a b : a <= b -> b <= lenN bytes -> no_panic (array_at bytes a b).
Proof. intros. unfold array_at. panic_free. Qed.
Lemma no_panic_id_at bytes a b : a <= b -> b <= lenN bytes -> no_panic (id_at bytes a b).
Proof. intros. unfold id_at. panic_free. Qed.
Lemma no_panic_u64_at bytes a b : a <= b -> b <= lenN bytes -> no_panic (u64_at bytes a b).
Proof. intros. unfold u64_at. apply no_panic_bind; [by apply no_panic_array_at|]. intros. apply no_panic_Ok. Qed.
Lemma no_panic_require b e : no_panic (require b e).
Proof. by destruct b. Qed.

End credentials.

(** Reads the next field of a concatenation of fixed-width fields at its offset. *)
Ltac field_len := repeat first [rewrite lenN_app|rewrite lenN_cons|rewrite lenN_id|rewrite lenN_be8]; rewrite ?lenN_nil; unfold key_ok, sig_ok in *; lia.
Ltac at_start a b n := replace a with 0 by field_len; replace b with n by field_len.
Ltac read_at :=
  try first [rewrite id_at_cons by field_len | rewrite u64_at_cons by field_len | rewrite array_at_cons by field_len];
  repeat first [rewrite id_at_skip by field_len | rewrite u64_at_skip by field_len | rewrite array_at_skip by field_len];
  match goal with
  | |- @id_at _ _ ?a ?b = _ => at_start a b 16; apply id_at_here; assumption
  | |- u64_at _ ?a ?b = _ => at_start a b 8; apply u64_at_here; assumption
  | |- array_at (?v ++ _) ?a ?b = _ => at_start a b (lenN v); apply array_at_here; reflexivity
  | |- array_at ?v ?a ?b = _ => at_start a b (lenN v); rewrite <-(app_nil_r v) at 1; apply array_at_here; reflexivity
  end.
Ltac read_next :=
  let H := fresh in
  match goal with
  | |- @id_at _ ?bs ?a ?b ≫= _ = _ => eassert (H : id_at bs a b = Ok _) by read_at
  | |- u64_at ?bs ?a ?b ≫= _ = _ => eassert (H : u64_at bs a b = Ok _) by read_at
  | |- array_at ?bs ?a ?b ≫= _ = _ => eassert (H : array_at bs a b = Ok _) by read_at
  end; rewrite H; clear H; cbn [mbind outcome_bind].

(** Splits the first field of an equation between two concatenations. *)
Ltac next_field H F :=
  apply app_field in H as [F H]; [|unfold key_ok, sig_ok in *; rewrite ?lenN_id, ?lenN_be8; congruence].

Section correctness.
Context `{UuidLib} `{Ed25519Lib} `{X25519Lib}.

Lemma authority_encode_len c : ac_ok c -> lenN (authority_encode c) = 144.
Proof.
  intros [(_ & _ & Hk & _) Hg]. unfold authority_encode, authority_fields, key_ok, sig_ok in *.
  by rewrite !lenN_app, !lenN_id, !lenN_be8, Hk, Hg.
Qed.
Lemma authority_decode_encode c :
  ac_ok c -> ua_not_before (ac_unsigned c) < ua_not_after (ac_unsigned c) ->
  authority_decode (authority_encode c) = Ok c.
Proof.
  intros Hok Hlt. unfold authority_decode. rewrite (authority_encode_len c Hok). cbn [N.eqb Pos.eqb negb].
  destruct Hok as [(Hm & Hs & Hk & Hb & Ha) Hg]. destruct c as [[mesh serial key nb na] sg]. cbn in *.
  unfold authority_encode, authority_fields. cbn. rewrite <-!app_assoc.
  do 6 read_next. unfold validate_interval. by rewrite (proj2 (N.ltb_lt _ _)).
Qed.
Lemma authority_decode_Ok bytes c :
  authority_decode bytes = Ok c ->
  authority_encode c = bytes /\ ac_ok c /\ ua_not_before (ac_unsigned c) < ua_not_after (ac_unsigned c).
Proof.
  unfold authority_decode. destruct (N.eqb_spec (lenN bytes) 144) as [Hl|]; [|done]. cbn [negb].
  intros (mesh & [Hm Sm]%id_at_Ok & Hr)%bind_Ok. apply bind_Ok in Hr as (serial & [Hs Ss]%id_at_Ok & Hr).
  apply bind_Ok in Hr as (key & [Sk Hk]%array_at_Ok & Hr).
  apply bind_Ok in Hr as (nb & [Hb Sb]%u64_at_Ok & Hr); [|done]. apply bind_Ok in Hr as (na & [Ha Sa]%u64_at_Ok & Hr); [|done].
  apply bind_Ok in Hr as (sg & [Sg Hg]%array_at_Ok & Hr). apply bind_Ok in Hr as ([] & Hi & [= <-]).
  unfold validate_interval in Hi. destruct (N.ltb_spec nb na) as [Hlt|]; [|done]. split; [|done].
  pose proof (slice_join _ _ _ _ _ _ Sm (slice_join _ _ _ _ _ _ Ss (slice_join _ _ _ _ _ _ Sk
    (slice_join _ _ _ _ _ _ Sb (slice_join _ _ _ _ _ _ Sa Sg))))) as Hall.
  apply slice_all in Hall; [|done]. rewrite <-Hall. unfold authority_encode, authority_fields. cbn. by rewrite <-!app_assoc.
Qed.
Lemma no_panic_authority_decode bytes : no_panic (authority_decode bytes).
Proof.
  unfold authority_decode. destruct (N.eqb_spec (lenN bytes) 144) as [Hl|]; [|done]. cbn [negb].
  repeat (apply no_panic_bind; [first [apply no_panic_id_at; lia|apply no_panic_array_at; lia|apply no_panic_u64_at; lia|
    apply no_panic_require]|intros ? _]). apply no_panic_Ok.
Qed.

Lemma distribution_decode_encode c : dc_ok c -> distribution_decode (distribution_encode c) = Ok c.
Proof.
  intros (Hm & Ha & Hd & Hs & Hu & Hg). destruct c as [mesh a d s u sg]. cbn in *.
  unfold distribution_decode, distribution_encode, distribution_fields. cbn. rewrite <-!app_assoc.
  replace (lenN _) with 208 by field_len. cbn [N.eqb Pos.eqb negb]. by do 6 read_next.
Qed.
Lemma distribution_decode_Ok bytes c : distribution_decode bytes = Ok c -> distribution_encode c = bytes /\ dc_ok c.
Proof.
  unfold distribution_decode. destruct (N.eqb_spec (lenN bytes) 208) as [Hl|]; [|done]. cbn [negb].
  intros (mesh & [Hm Sm]%id_at_Ok & Hr)%bind_Ok.
  apply bind_Ok in Hr as (a & [Sa Ha]%array_at_Ok & Hr). apply bind_Ok in Hr as (d & [Sd Hd]%array_at_Ok & Hr).
  apply bind_Ok in Hr as (s & [Ss Hs]%array_at_Ok & Hr). apply bind_Ok in Hr as (u & [Su Hu]%array_at_Ok & Hr).
  apply bind_Ok in Hr as (sg & [Sg Hg]%array_at_Ok & [= <-]). split; [|done].
  pose proof (slice_join _ _ _ _ _ _ Sm (slice_join _ _ _ _ _ _ Sa (slice_join _ _ _ _ _ _ Sd
    (slice_join _ _ _ _ _ _ Ss (slice_join _ _ _ _ _ _ Su Sg))))) as Hall.
  apply slice_all in Hall; [|done]. rewrite <-Hall. unfold distribution_encode, distribution_fields. cbn. by rewrite <-!app_assoc.
Qed.

(** A subject whose keys and validity [issue] and [subject_decode] accept. *)
Definition subject_valid (u : UnsignedSubject) : Prop :=
  validate_subject_keys (us_subject u) (identity_public_key u) (public_noise_key u) (wireguard_public_key u) = Ok tt /\
  us_not_before u < us_not_after u.

Lemma subject_decode_encode c :
  us_ok (sc_unsigned c) -> sig_ok (sc_signature c) -> subject_valid (sc_unsigned c) ->
  sc_role c = subject_role (us_subject (sc_unsigned c)) -> subject_decode (subject_encode c) = Ok c.
Proof.
  intros (Hm & Hi & Hs & Hik & Hnk & Hwk & Hb & Ha) Hg [Hkeys Hlt] Hrole.
  destruct c as [role [subject mesh ik nk wk serial nb na] sg]. cbn in *. subst role.
  unfold subject_decode, subject_encode, subject_fields. cbn -[app]. rewrite <-!app_assoc.
  assert (Hsb : subject_bytes subject = id_bytes (subject_id subject)) by by destruct subject. rewrite Hsb.
  replace (lenN _) with 225 by field_len. cbn [N.eqb Pos.eqb negb].
  assert (Hrole : forall (A : Type) (k : SubjectRole -> result A),
    (tag ← index ([transcript_tag (subject_role subject)] ++ id_bytes mesh ++ id_bytes (subject_id subject) ++ ik ++ nk ++
       wk ++ id_bytes serial ++ to_be 8 nb ++ to_be 8 na ++ sg) 0;
     role ← (if u8 tag =? 1 then Ok PeerRole else if u8 tag =? 2 then Ok RelayRole else Err Malformed); k role)
    = k (subject_role subject)) by by destruct subject.
  rewrite Hrole. clear Hrole Hsb. cbv beta zeta. do 9 read_next.
  assert (Hsub : match subject_role subject with PeerRole => PeerSubject (subject_id subject)
    | RelayRole => RelaySubject (subject_id subject) end = subject) by by destruct subject.
  rewrite Hsub, Hkeys. cbn [map_err mbind outcome_bind]. unfold validate_interval. by rewrite (proj2 (N.ltb_lt _ _)).
Qed.
Lemma subject_decode_Ok bytes c :
  subject_decode bytes = Ok c ->
  subject_encode c = bytes /\ us_ok (sc_unsigned c) /\ sig_ok (sc_signature c) /\ subject_valid (sc_unsigned c) /\
  sc_role c = subject_role (us_subject (sc_unsigned c)).
Proof.
  unfold subject_decode. destruct (N.eqb_spec (lenN bytes) 225) as [Hl|]; [|done]. cbn [negb].
  intros (tag & Ht & Hr)%bind_Ok. apply bind_Ok in Hr as (role & Hrole & Hr).
  apply bind_Ok in Hr as (mesh & [Hm Sm]%id_at_Ok & Hr). apply bind_Ok in Hr as (i & [Hi Si]%id_at_Ok & Hr).
  cbv zeta in Hr. apply bind_Ok in Hr as (ik & [Sik Hik]%array_at_Ok & Hr).
  apply bind_Ok in Hr as (nk & [Snk Hnk]%array_at_Ok & Hr). apply bind_Ok in Hr as (wk & [Swk Hwk]%array_at_Ok & Hr).
  apply bind_Ok in Hr as (serial & [Hs Ss]%id_at_Ok & Hr). apply bind_Ok in Hr as (nb & [Hb Sb]%u64_at_Ok & Hr); [|done].
  apply bind_Ok in Hr as (na & [Ha Sa]%u64_at_Ok & Hr); [|done]. apply bind_Ok in Hr as (sg & [Sg Hg]%array_at_Ok & Hr).
  apply bind_Ok in Hr as ([] & Hk & Hr). apply bind_Ok in Hr as ([] & Hv & [= <-]).
  unfold validate_interval in Hv. destruct (N.ltb_spec nb na) as [Hlt|]; [|done].
  assert (St : slice (E:=CredentialError) bytes 0 1 = Ok [transcript_tag role]).
  { apply index_Ok in Ht. destruct bytes as [|x l]; [done|]. injection Ht as ->. rewrite lenN_cons in Hl.
    apply slice_0_Ok. rewrite lenN_cons. split; [lia|]. change (take (N.to_nat 1) (tag :: l)) with [tag]. f_equal. unfold transcript_tag.
    destruct (N.eqb_spec (u8 tag) 1) as [Htag|]; [injection Hrole as <-; apply u8_inj; by rewrite Htag|].
    destruct (N.eqb_spec (u8 tag) 2) as [Htag|]; [injection Hrole as <-; apply u8_inj; by rewrite Htag|done]. }
  set (subject := match role with PeerRole => PeerSubject i | RelayRole => RelaySubject i end) in *.
  assert (Hsub : subject_bytes subject = id_bytes i /\ subject_id subject = i /\ subject_role subject = role)
    by by destruct role.
  destruct Hsub as (Hsb & Hsi & Hsr). cbn [sc_role sc_unsigned us_subject]. split_and!; try done.
  - pose proof (slice_join _ _ _ _ _ _ St (slice_join _ _ _ _ _ _ Sm (slice_join _ _ _ _ _ _ Si
      (slice_join _ _ _ _ _ _ Sik (slice_join _ _ _ _ _ _ Snk (slice_join _ _ _ _ _ _ Swk
      (slice_join _ _ _ _ _ _ Ss (slice_join _ _ _ _ _ _ Sb (slice_join _ _ _ _ _ _ Sa Sg))))))))) as Hall.
    apply slice_all in Hall; [|done]. rewrite <-Hall. unfold subject_encode, subject_fields.
    cbn [sc_role sc_unsigned sc_signature us_mesh_id us_subject identity_public_key public_noise_key wireguard_public_key
      us_serial us_not_before us_not_after]. by rewrite Hsb, <-!app_assoc.
  - split_and!; try done. cbn. by rewrite Hsi.
  - split; [|done]. cbn. by destruct (validate_subject_keys _ _ _ _) as [[]| |].
Qed.

(** *** The authority bundle codec *)

Definition bundle_ok (s : SignedAuthorityBundle) : Prop :=
  let b := sb_bundle s in
  id_wf (ab_mesh_id b) /\ ab_revision b <= U64_MAX /\ sig_ok (sb_signature s) /\
  Forall (fun c => ac_ok c /\ ua_not_before (ac_unsigned c) < ua_not_after (ac_unsigned c)) (ab_active b :: ab_overlap b) /\
  Forall id_wf (ab_revoked b).

Lemma decode_all_map {A} (decode : list byte -> result A) (encode : A -> list byte) l :
  Forall (fun a => decode (encode a) = Ok a) l -> decode_all decode (encode <$> l) = Ok l.
Proof. induction 1 as [|a l Ha _ IH]; cbn; [done|]. by rewrite Ha; cbn; rewrite IH. Qed.
Lemma decode_all_Ok {A} (decode : list byte -> result A) (encode : A -> list byte) (P : A -> Prop) ls l :
  (forall b a, b ∈ ls -> decode b = Ok a -> encode a = b /\ P a) -> decode_all decode ls = Ok l ->
  encode <$> l = ls /\ Forall P l.
Proof.
  revert l. induction ls as [|b ls IH]; intros l Hd; cbn [decode_all]; [by intros [= <-]|].
  intros (a & Ha & Hr)%bind_Ok. apply bind_Ok in Hr as (rest & Hrest & [= <-]).
  destruct (Hd b a ltac:(left) Ha) as [He HP]. destruct (IH rest) as [IH1 IH2]; [|done|].
  - intros b' a' Hb'. apply Hd. by right.
  - split; [cbn; by rewrite He, IH1|by constructor].
Qed.
Lemma chunks_exact_concat n ls : 0 < n -> Forall (fun c => lenN c = n) ls -> chunks_exact n (concat ls) = ls.
Proof.
  intros Hn Hls. unfold chunks_exact. rewrite chunks_concat by done.
  induction Hls as [|c ls Hc _ IH]; [done|]. by rewrite filter_cons_True, IH.
Qed.
Lemma chunks_exact_full n k l : 0 < n -> lenN l = k * n -> concat (chunks_exact n l) = l.
Proof.
  intros Hn Hl. unfold chunks_exact. pose proof (chunks_full n k l Hn Hl) as Hf.
  rewrite <-(concat_chunks n l) at 2 by done. f_equal. induction Hf as [|c ls Hc _ IH]; [done|]. by rewrite filter_cons_True, IH.
Qed.

Lemma take_count_here x v r maximum :
  v <= maximum -> v <= U32_MAX -> lenN x + 4 <= U64_MAX -> take_count (x ++ put_count v ++ r) (lenN x) maximum = Ok (v, lenN x + 4).
Proof.
  intros Hv Hu Hx. unfold take_count, checked_add. rewrite (proj2 (N.leb_le _ _)) by done. cbn [ok_or mbind outcome_bind].
  assert (Hs : get_slice (x ++ put_count v ++ r) (lenN x) (lenN x + 4) = Some (put_count v)).
  { pose proof (slice_app (E:=CredentialError) x (put_count v) r (lenN x) (lenN x + 4) eq_refl) as Hs.
    unfold put_count in Hs at 1. rewrite lenN_to_be in Hs. specialize (Hs eq_refl). unfold slice in Hs. unfold get_slice.
    destruct (_ && _); [|done]. f_equal.
    exact (f_equal (fun o => match o with Ok a => a | _ => [] end) Hs). }
  rewrite Hs. cbn [ok_or mbind outcome_bind]. unfold put_count. rewrite from_be_to_be.
  - by rewrite (proj2 (N.ltb_ge _ _)).
  - change (256 ^ N.of_nat 4) with (U32_MAX + 1). lia.
Qed.
Lemma take_count_Ok bytes cursor maximum v fin :
  take_count bytes cursor maximum = Ok (v, fin) ->
  v <= maximum /\ fin = cursor + 4 /\ v <= U32_MAX /\ slice (E:=CredentialError) bytes cursor fin = Ok (put_count v).
Proof.
  unfold take_count, checked_add. destruct (cursor + 4 <=? U64_MAX); [|done]. cbn [ok_or mbind outcome_bind].
  unfold get_slice. destruct (_ && _) eqn:Hin; [|done]. cbn [ok_or mbind outcome_bind].
  set (raw := take _ _). destruct (N.ltb_spec maximum (from_be raw)) as [|Hle]; [done|]. intros [= <- <-].
  assert (Hs : slice (E:=CredentialError) bytes cursor (cursor + 4) = Ok raw) by (unfold slice; by rewrite Hin).
  pose proof (slice_len _ _ _ _ Hs) as Hl. replace (cursor + 4 - cursor) with 4 in Hl by lia.
  split_and!; [done|done| |].
  - pose proof (from_be_lt raw) as Hlt. rewrite Hl in Hlt. change (256 ^ 4) with (U32_MAX + 1) in Hlt. lia.
  - rewrite Hs. f_equal. symmetry. apply to_be_from_be'. unfold lenN in Hl. lia.
Qed.

Lemma lenN_concat_map {A} (f : A -> list byte) n l : Forall (fun a => lenN (f a) = n) l -> lenN (concat (f <$> l)) = lenN l * n.
Proof. induction 1 as [|a l Ha _ IH]; cbn; [done|]. rewrite lenN_app, lenN_cons, IH, Ha. lia. Qed.
Lemma shape_bounds b : validate_shape b = Ok tt -> lenN (ab_overlap b) <= 8 /\ lenN (ab_revoked b) <= 65536.
Proof.
  unfold validate_shape, require, shape_violated. destruct (negb _) eqn:Hv; [|done]. intros _.
  rewrite negb_true_iff, !orb_false_iff, !N.ltb_ge in Hv. unfold MAX_OVERLAP_AUTHORITIES, MAX_REVOKED_AUTHORITIES in Hv.
  naive_solver.
Qed.
Lemma slice_at {E} (x y z : list byte) a b bs :
  bs = x ++ y ++ z -> a = lenN x -> b = lenN x + lenN y -> slice (E:=E) bs a b = Ok y.
Proof. intros ->. apply slice_app. Qed.


(** The encoding of a bundle as its five regions. *)
Lemma lenN_put_count n : lenN (put_count n) = 4.
Proof. unfold put_count. by rewrite lenN_to_be. Qed.
Definition bundle_head (b : AuthorityBundle) : list byte :=
  id_bytes (ab_mesh_id b) ++ to_be 8 (ab_revision b) ++ authority_encode (ab_active b).
Definition bundle_overlap (b : AuthorityBundle) : list byte := concat (authority_encode <$> ab_overlap b).
Definition bundle_revoked (b : AuthorityBundle) : list byte := concat (id_bytes <$> ab_revoked b).
Lemma bundle_fields_regions b sg :
  bundle_fields b ++ sg = bundle_head b ++ put_count (lenN (ab_overlap b)) ++ bundle_overlap b ++
    put_count (lenN (ab_revoked b)) ++ bundle_revoked b ++ sg.
Proof. unfold bundle_fields, bundle_head, bundle_overlap, bundle_revoked. by rewrite <-!app_assoc. Qed.
Lemma bundle_region_lens s : bundle_ok s ->
  let b := sb_bundle s in
  lenN (bundle_head b) = 168 /\ lenN (bundle_overlap b) = lenN (ab_overlap b) * 144 /\
  lenN (bundle_revoked b) = lenN (ab_revoked b) * 16.
Proof.
  intros (_ & _ & _ & Hcerts & _) b. apply Forall_cons in Hcerts as [[Hac _] Hcerts]. split_and!.
  - unfold bundle_head. rewrite !lenN_app, lenN_id, lenN_be8. unfold b. by rewrite (authority_encode_len _ Hac).
  - apply lenN_concat_map. eapply Forall_impl; [exact Hcerts|]. intros c [Hc _]. by apply authority_encode_len.
  - apply lenN_concat_map. apply Forall_forall. intros. apply lenN_id.
Qed.

Lemma bundle_head_reads b r :
  id_wf (ab_mesh_id b) -> ab_revision b <= U64_MAX -> ac_ok (ab_active b) ->
  id_at (bundle_head b ++ r) 0 16 = Ok (ab_mesh_id b) /\ u64_at (bundle_head b ++ r) 16 24 = Ok (ab_revision b) /\
  slice (E:=CredentialError) (bundle_head b ++ r) 24 168 = Ok (authority_encode (ab_active b)).
Proof.
  intros Hm Hr Hac. pose proof (authority_encode_len _ Hac) as Hl. unfold bundle_head. rewrite <-!app_assoc. split_and!.
  - read_at.
  - read_at.
  - rewrite app_assoc. apply slice_app; rewrite lenN_app, lenN_id, lenN_be8; [done|]. by rewrite Hl.
Qed.

(** What [bundle_decode] reads after the active certificate. *)
Definition bundle_tail_reads (bytes : list byte) (overlap : list AuthorityCertificate) (revoked : list CredentialSerial)
    (O R sg : list byte) : Prop :=
  let o := lenN overlap in let r := lenN revoked in
  take_count bytes 168 MAX_OVERLAP_AUTHORITIES = Ok (o, 172) /\
  checked_mul o AUTHORITY_CERTIFICATE_LENGTH = Some (o * 144) /\
  slice (E:=CredentialError) bytes 172 (172 + o * 144) = Ok O /\
  take_count bytes (172 + o * 144) MAX_REVOKED_AUTHORITIES = Ok (r, 176 + o * 144) /\
  checked_mul r 16 = Some (r * 16) /\
  slice (E:=CredentialError) bytes (176 + o * 144) (176 + o * 144 + r * 16) = Ok R /\
  array_at bytes (176 + o * 144 + r * 16) (176 + o * 144 + r * 16 + 64) = Ok sg.
Lemma bundle_tail h overlap revoked O R sg :
  lenN h = 168 -> lenN O = lenN overlap * 144 -> lenN R = lenN revoked * 16 -> sig_ok sg ->
  lenN overlap <= 8 -> lenN revoked <= 65536 ->
  bundle_tail_reads (h ++ put_count (lenN overlap) ++ O ++ put_count (lenN revoked) ++ R ++ sg) overlap revoked O R sg.
Proof.
  intros Hh HO HR Hs Ho Hr. unfold bundle_tail_reads. pose proof (lenN_put_count (lenN overlap)) as Hno.
  pose proof (lenN_put_count (lenN revoked)) as Hnr. set (no := put_count (lenN overlap)) in *.
  set (nr := put_count (lenN revoked)) in *. unfold MAX_OVERLAP_AUTHORITIES, MAX_REVOKED_AUTHORITIES, sig_ok in *.
  assert (Hpre : lenN (h ++ no ++ O) = 172 + lenN overlap * 144) by (rewrite !lenN_app; lia).
  split_and!.
  - rewrite <-Hh. replace 172 with (lenN h + 4) by lia. apply take_count_here; unfold U32_MAX, U64_MAX; lia.
  - unfold checked_mul, AUTHORITY_CERTIFICATE_LENGTH, USIZE_MAX. by rewrite (proj2 (N.leb_le _ _)) by (unfold U64_MAX; lia).
  - rewrite app_assoc. apply slice_app; rewrite ?lenN_app; lia.
  - rewrite <-Hpre. replace (176 + _) with (lenN (h ++ no ++ O) + 4) by lia.
    replace (h ++ no ++ O ++ nr ++ R ++ sg) with ((h ++ no ++ O) ++ nr ++ R ++ sg) by by rewrite <-!app_assoc.
    apply take_count_here; unfold U32_MAX, U64_MAX; lia.
  - unfold checked_mul, USIZE_MAX. by rewrite (proj2 (N.leb_le _ _)) by (unfold U64_MAX; lia).
  - replace (h ++ no ++ O ++ nr ++ R ++ sg) with ((h ++ no ++ O ++ nr) ++ R ++ sg) by by rewrite <-!app_assoc.
    apply slice_app; rewrite !lenN_app; lia.
  - replace (h ++ no ++ O ++ nr ++ R ++ sg) with ((h ++ no ++ O ++ nr ++ R) ++ sg ++ []) by by rewrite app_nil_r, <-!app_assoc.
    rewrite array_at_skip by (rewrite ?lenN_app; lia). rewrite !lenN_app.
    replace (176 + _ + _ - _) with 0 by lia. apply array_at_here. lia.
Qed.
Lemma checked_add_fits a b : a + b <= U64_MAX -> checked_add a b = Some (a + b).
Proof. intros Hab. unfold checked_add. by rewrite (proj2 (N.leb_le _ _)). Qed.

Lemma decode_overlap s : bundle_ok s ->
  decode_all authority_decode (chunks_exact AUTHORITY_CERTIFICATE_LENGTH (bundle_overlap (sb_bundle s))) =
  Ok (ab_overlap (sb_bundle s)).
Proof.
  intros (_ & _ & _ & Hcerts & _). apply Forall_cons in Hcerts as [_ Hcerts]. unfold bundle_overlap. rewrite chunks_exact_concat; [|done|].
  - apply decode_all_map. eapply Forall_impl; [exact Hcerts|]. intros c [Hc Hlt]. by apply authority_decode_encode.
  - apply Forall_fmap. eapply Forall_impl; [exact Hcerts|]. intros c [Hc _]. by apply authority_encode_len.
Qed.
Lemma decode_revoked s : bundle_ok s ->
  decode_all (fun v => id_at v 0 (lenN v)) (chunks_exact 16 (bundle_revoked (sb_bundle s))) =
  Ok (ab_revoked (sb_bundle s)).
Proof.
  intros (_ & _ & _ & _ & Hids). unfold bundle_revoked. rewrite chunks_exact_concat; [|done|].
  - apply decode_all_map. eapply Forall_impl; [exact Hids|]. intros i Hi. rewrite lenN_id.
    rewrite <-(app_nil_r (id_bytes i)). by apply id_at_here.
  - apply Forall_fmap, Forall_forall. intros. apply lenN_id.
Qed.

Lemma bundle_decode_encode s bytes : bundle_ok s -> bundle_encode s = Ok bytes -> bundle_decode bytes = Ok s.
Proof.
  intros Hok He. pose proof (bundle_region_lens s Hok) as (Hh & HO & HR).
  pose proof (decode_overlap s Hok) as HdO. pose proof (decode_revoked s Hok) as HdR.
  destruct Hok as (Hm & Hrev & Hsig & [[Hac Hlt] _]%Forall_cons & _).
  unfold bundle_encode in He. apply bind_Ok in He as ([] & Hshape & He).
  destruct (shape_bounds _ Hshape) as [Hno Hnr]. destruct (_ || _); [done|]. apply Ok_inj in He as <-.
  rewrite bundle_fields_regions. destruct s as [b sg]. cbn [sb_bundle sb_signature] in *.
  set (O := bundle_overlap b) in *. set (R := bundle_revoked b) in *.
  set (no := put_count (lenN (ab_overlap b))). set (nr := put_count (lenN (ab_revoked b))).
  assert (Hlno : lenN no = 4) by apply lenN_put_count. assert (Hlnr : lenN nr = 4) by apply lenN_put_count.
  set (bytes := bundle_head b ++ no ++ O ++ nr ++ R ++ sg).
  assert (Hlen : lenN bytes = 240 + lenN (ab_overlap b) * 144 + lenN (ab_revoked b) * 16).
  { unfold bytes. rewrite !lenN_app, Hh, HO, HR, Hlno, Hlnr, Hsig. lia. }
  assert (Hhead : id_at bytes 0 16 = Ok (ab_mesh_id b) /\ u64_at bytes 16 24 = Ok (ab_revision b) /\
    slice (E:=CredentialError) bytes 24 168 = Ok (authority_encode (ab_active b))) by by apply bundle_head_reads.
  destruct Hhead as (Hr1 & Hr2 & Hr3).
  unfold bundle_decode. rewrite Hlen, (proj2 (N.ltb_ge _ _)), Hr1 by lia. cbn [mbind outcome_bind].
  rewrite Hr2. cbn [mbind outcome_bind]. change (24 + AUTHORITY_CERTIFICATE_LENGTH) with 168. rewrite Hr3. cbn [mbind outcome_bind].
  rewrite authority_decode_encode by done. cbn [mbind outcome_bind].
  assert (Hregions : bundle_tail_reads bytes (ab_overlap b) (ab_revoked b) O R sg).
  { unfold bytes. apply bundle_tail; [done..|lia|lia]. }
  destruct Hregions as (Ht1 & Hm1 & Hs1 & Ht2 & Hm2 & Hs2 & Hs3).
  rewrite Ht1. cbn [mbind outcome_bind]. rewrite Hm1. cbn [ok_or mbind outcome_bind].
  rewrite checked_add_fits by (unfold U64_MAX; lia). cbn [ok_or mbind outcome_bind].
  rewrite (proj2 (N.ltb_ge _ _)), Hs1 by lia. cbn [mbind outcome_bind]. rewrite HdO. cbn [mbind outcome_bind].
  rewrite Ht2. cbn [mbind outcome_bind]. rewrite Hm2. cbn [ok_or mbind outcome_bind].
  rewrite !checked_add_fits by (unfold U64_MAX; lia). cbn [ok_or mbind outcome_bind].
  rewrite checked_add_fits by (unfold U64_MAX; lia). cbn [ok_or mbind outcome_bind].
  rewrite (proj2 (N.eqb_eq _ _)) by lia. cbn [negb]. rewrite Hs2. cbn [mbind outcome_bind].
  rewrite HdR. cbn [mbind outcome_bind]. rewrite Hs3. cbn [mbind outcome_bind sb_bundle].
  destruct b. cbn [ab_mesh_id ab_revision ab_active ab_overlap ab_revoked] in *. by rewrite Hshape.
Qed.

Lemma ok_checked_add a b c e : ok_or (E:=CredentialError) (checked_add a b) e = Ok c -> c = a + b.
Proof. unfold checked_add. destruct (_ <=? _); [|done]. by intros [= <-]. Qed.
Lemma ok_checked_mul a b c e : ok_or (E:=CredentialError) (checked_mul a b) e = Ok c -> c = a * b.
Proof. unfold checked_mul. destruct (_ <=? _); [|done]. by intros [= <-]. Qed.
Lemma authority_chunks_Ok region k l :
  lenN region = k * 144 -> decode_all authority_decode (chunks_exact AUTHORITY_CERTIFICATE_LENGTH region) = Ok l ->
  concat (authority_encode <$> l) = region /\ lenN l = k /\
  Forall (fun c => ac_ok c /\ ua_not_before (ac_unsigned c) < ua_not_after (ac_unsigned c)) l.
Proof.
  intros Hl Hd. apply (decode_all_Ok _ authority_encode (fun c => ac_ok c /\ ua_not_before (ac_unsigned c) < ua_not_after (ac_unsigned c)))
    in Hd as [He HF]; [|intros b a _; apply authority_decode_Ok].
  assert (Hc : concat (authority_encode <$> l) = region) by (rewrite He; by eapply chunks_exact_full).
  split_and!; [done| |done].
  rewrite <-Hc, (lenN_concat_map authority_encode 144) in Hl; [nia|].
  eapply Forall_impl; [exact HF|]. intros c [Hac _]. by apply authority_encode_len.
Qed.
Lemma id_chunks_Ok region k l :
  lenN region = k * 16 -> decode_all (fun v => id_at v 0 (lenN v)) (chunks_exact 16 region) = Ok l ->
  concat (id_bytes <$> l) = region /\ lenN l = k /\ Forall id_wf l.
Proof.
  intros Hl Hd. apply (decode_all_Ok _ id_bytes id_wf) in Hd as [He HF].
  2: { intros b a _ Ha%id_at_Ok. destruct Ha as [Hwf Hs]. split; [|exact Hwf]. by apply slice_all in Hs. }
  assert (Hc : concat (id_bytes <$> l) = region) by (rewrite He; by eapply chunks_exact_full).
  split_and!; [done| |done].
  rewrite <-Hc, (lenN_concat_map id_bytes 16) in Hl; [nia|]. apply Forall_forall. intros. apply lenN_id.
Qed.

Lemma bundle_decode_Ok bytes s :
  bundle_decode bytes = Ok s -> bundle_encode s = Ok bytes /\ bundle_ok s.
Proof.
  unfold bundle_decode. destruct (lenN bytes <? 240); [done|].
  intros (mesh & [Hm Sm]%id_at_Ok & Hr)%bind_Ok.
  apply bind_Ok in Hr as (rev & [Hv Sv]%u64_at_Ok & Hr); [|done]. cbv zeta in Hr.
  change (24 + AUTHORITY_CERTIFICATE_LENGTH) with 168 in Hr.
  apply bind_Ok in Hr as (ab & Sa & Hr). apply bind_Ok in Hr as (active & (<- & Hac & Hlt)%authority_decode_Ok & Hr).
  apply bind_Ok in Hr as ([o c1] & (Ho & -> & Hou & So)%take_count_Ok & Hr).
  apply bind_Ok in Hr as (ob & ->%ok_checked_mul & Hr). apply bind_Ok in Hr as (oe & ->%ok_checked_add & Hr).
  destruct (_ <? _); [done|]. apply bind_Ok in Hr as (region & Sr & Hr).
  apply bind_Ok in Hr as (overlap & Hoverlap & Hr).
  apply bind_Ok in Hr as ([r c2] & (Hrm & -> & Hru & Srv)%take_count_Ok & Hr).
  apply bind_Ok in Hr as (rb & ->%ok_checked_mul & Hr). apply bind_Ok in Hr as (re & ->%ok_checked_add & Hr).
  apply bind_Ok in Hr as (se & ->%ok_checked_add & Hr).
  destruct (N.eqb_spec (168 + 4 + o * AUTHORITY_CERTIFICATE_LENGTH + 4 + r * 16 + 64) (lenN bytes)) as [Hl|]; [|done].
  cbn [negb] in Hr. apply bind_Ok in Hr as (region' & Sr' & Hr). apply bind_Ok in Hr as (revoked & Hrevoked & Hr).
  apply bind_Ok in Hr as (sg & [Ssg Hsg]%array_at_Ok & Hr). apply bind_Ok in Hr as ([] & Hshape & <-%Ok_inj).
  unfold AUTHORITY_CERTIFICATE_LENGTH in *. pose proof (slice_len _ _ _ _ Sr) as Lr. pose proof (slice_len _ _ _ _ Sr') as Lr'.
  apply (authority_chunks_Ok region o) in Hoverlap as (<- & <- & HFo); [|lia].
  apply (id_chunks_Ok region' r) in Hrevoked as (<- & <- & HFr); [|lia].
  pose proof (slice_join _ _ _ _ _ _ Sm (slice_join _ _ _ _ _ _ Sv (slice_join _ _ _ _ _ _ Sa
    (slice_join _ _ _ _ _ _ So (slice_join _ _ _ _ _ _ Sr (slice_join _ _ _ _ _ _ Srv
    (slice_join _ _ _ _ _ _ Sr' Ssg))))))) as Hall.
  apply slice_all in Hall; [|done]. split; [|unfold bundle_ok; cbn [sb_bundle sb_signature ab_mesh_id ab_revision ab_active ab_overlap ab_revoked]; split_and!; try done].
  - unfold bundle_encode. cbn [sb_bundle sb_signature] in *. rewrite Hshape. cbn [mbind outcome_bind ab_overlap ab_revoked].
    rewrite !(proj2 (N.ltb_ge _ _)) by done. cbn [orb]. f_equal. rewrite <-Hall. unfold bundle_fields.
    cbn [ab_mesh_id ab_revision ab_active ab_overlap ab_revoked]. by rewrite <-!app_assoc.
  - unfold sig_ok. rewrite Hsg. lia.
  - by constructor.
Qed.

Lemma no_panic_take_count bytes cursor maximum : no_panic (take_count bytes cursor maximum).
Proof. unfold take_count. panic_free. Qed.
Lemma no_panic_decode_all {A} (decode : list byte -> result A) l :
  (forall b, b ∈ l -> no_panic (decode b)) -> no_panic (decode_all decode l).
Proof.
  induction l as [|b l IH]; intros Hd; cbn [decode_all]; [apply no_panic_Ok|].
  apply no_panic_bind; [apply Hd; by left|intros a _]. apply no_panic_bind; [apply IH; intros; apply Hd; by right|].
  intros. apply no_panic_Ok.
Qed.
Lemma no_panic_bundle_decode bytes : no_panic (bundle_decode bytes).
Proof.
  unfold bundle_decode. destruct (N.ltb_spec (lenN bytes) 240) as [|Hl]; [done|]. unfold AUTHORITY_CERTIFICATE_LENGTH.
  apply no_panic_bind; [apply no_panic_id_at; lia|intros mesh _]. apply no_panic_bind; [apply no_panic_u64_at; lia|intros rev _].
  cbv zeta. change (24 + 144) with 168. apply no_panic_bind; [apply no_panic_slice; lia|intros ab _].
  apply no_panic_bind; [apply no_panic_authority_decode|intros active _].
  apply no_panic_bind; [apply no_panic_take_count|intros [o c1] _]. apply no_panic_bind; [by destruct (checked_mul _ _)|intros ob _].
  apply no_panic_bind; [by destruct (checked_add _ _)|intros oe Hoe%ok_checked_add]. destruct (N.ltb_spec (lenN bytes) oe); [done|].
  apply no_panic_bind; [apply no_panic_slice; lia|intros region _].
  apply no_panic_bind; [apply no_panic_decode_all; intros; apply no_panic_authority_decode|intros overlap _].
  apply no_panic_bind; [apply no_panic_take_count|intros [r c2] Hc2%take_count_Ok]. apply no_panic_bind; [by destruct (checked_mul _ _)|intros rb _].
  apply no_panic_bind; [by destruct (checked_add _ _)|intros re Hre%ok_checked_add].
  apply no_panic_bind; [by destruct (checked_add _ _)|intros se Hse%ok_checked_add].
  destruct (N.eqb_spec se (lenN bytes)); [|done]. cbn [negb].
  apply no_panic_bind; [apply no_panic_slice; lia|intros region' _].
  apply no_panic_bind; [apply no_panic_decode_all; intros; apply no_panic_id_at; lia|intros revoked _].
  apply no_panic_bind; [apply no_panic_array_at; lia|intros sg _].
  apply no_panic_bind; [apply no_panic_require|intros]. apply no_panic_Ok.
Qed.
Lemma no_panic_subject_decode bytes : no_panic (subject_decode bytes).
Proof.
  unfold subject_decode. destruct (N.eqb_spec (lenN bytes) 225) as [Hl|]; [|done]. cbn [negb].
  apply no_panic_bind; [apply no_panic_index; lia|intros tag _].
  apply no_panic_bind; [by destruct (u8 tag =? 1), (u8 tag =? 2)|intros role _]. cbv zeta.
  do 9 (apply no_panic_bind; [first [apply no_panic_id_at; lia|apply no_panic_array_at; lia|apply no_panic_u64_at; lia]|intros ? _]).
  apply no_panic_bind; [by unfold validate_subject_keys, require; destruct (_ && _)|intros ? _].
  apply no_panic_bind; [apply no_panic_require|intros]. apply no_panic_Ok.
Qed.

Lemma bundle_encode_shape s :
  validate_shape (sb_bundle s) = Ok tt -> bundle_encode s = Ok (bundle_fields (sb_bundle s) ++ sb_signature s).
Proof.
  intros Hs. unfold bundle_encode. rewrite Hs. cbn [mbind outcome_bind]. destruct (shape_bounds _ Hs).
  by rewrite !(proj2 (N.ltb_ge _ _)) by (unfold U32_MAX; lia).
Qed.

(** *** What a signature is over *)

(** The four statements the crate signs; [claim_transcript] is the bytes signed. *)
Inductive Claim :=
  | AuthorityClaim (u : UnsignedAuthority)
  | SubjectClaim (u : UnsignedSubject)
  | DistributionClaim (mesh : MeshId) (authority directory service audit : list byte)
  | BundleClaim (b : AuthorityBundle).
Definition distribution_claim (c : DistributionCertificate) : Claim :=
  DistributionClaim (dc_mesh_id c) (authority_public_key c) (directory_public_key c) (service_public_key c) (audit_public_key c).
Definition claim_transcript (c : Claim) : list byte :=
  match c with
  | AuthorityClaim u => authority_transcript u
  | SubjectClaim u => subject_transcript u
  | DistributionClaim m a d s u => distribution_transcript (mkDistribution m a d s u [])
  | BundleClaim b => authority_bundle_transcript b
  end.
(** The claim's values are of their types' widths, and a bundle has the shape that is signed. *)
Definition claim_ok (c : Claim) : Prop :=
  match c with
  | AuthorityClaim u => ua_ok u
  | SubjectClaim u => us_ok u
  | DistributionClaim m a d s u => id_wf m /\ key_ok a /\ key_ok d /\ key_ok s /\ key_ok u
  | BundleClaim b => validate_shape b = Ok tt /\ bundle_ok (mkSignedBundle b (replicate 64 x00))
  end.

Lemma be8_inj v w : v <= U64_MAX -> w <= U64_MAX -> to_be 8 v = to_be 8 w -> v = w.
Proof. intros Hv Hw. apply to_be_inj; change (256 ^ N.of_nat 8) with (U64_MAX + 1); lia. Qed.
Lemma authority_fields_inj u v r r' :
  ua_ok u -> ua_ok v -> authority_fields u ++ r = authority_fields v ++ r' -> u = v /\ r = r'.
Proof.
  intros (Hm & Hs & Hk & Hb & Ha) (Hm' & Hs' & Hk' & Hb' & Ha') He. destruct u, v. unfold authority_fields in He. cbn in *.
  rewrite <-!app_assoc in He. next_field He F1. next_field He F2. next_field He F3. next_field He F4. next_field He F5.
  apply id_bytes_inj in F1, F2; [|done..]. apply be8_inj in F4, F5; [|done..]. split; [by f_equal|done].
Qed.
Lemma subject_transcript_inj u v : us_ok u -> us_ok v -> subject_transcript u = subject_transcript v -> u = v.
Proof.
  intros (Hm & Hi & Hs & Hik & Hnk & Hwk & Hb & Ha) (Hm' & Hi' & Hs' & Hik' & Hnk' & Hwk' & Hb' & Ha') He.
  unfold subject_transcript, subject_fields in He.
  assert (Hsb : forall s, subject_bytes s = id_bytes (subject_id s)) by by intros []. rewrite !Hsb in He.
  destruct u as [su ? ? ? ? ? ? ?], v as [sv ? ? ? ? ? ? ?]. cbn -[app SUBJECT_DOMAIN] in *.
  apply app_field in He as [_ He]; [|done]. apply app_field in He as [Ft He]; [|done].
  next_field He F1. next_field He F2. next_field He F3. next_field He F4. next_field He F5. next_field He F6. next_field He F7.
  apply id_bytes_inj in F1, F2, F6; [|done..]. apply be8_inj in F7, He; [|done..].
  assert (su = sv) by (destruct su, sv; try done; cbn in F2; by subst). by subst.
Qed.
Lemma bundle_fields_inj b c :
  claim_ok (BundleClaim b) -> claim_ok (BundleClaim c) -> bundle_fields b = bundle_fields c -> b = c.
Proof.
  intros [Hb Hbo] [Hc Hco] He.
  pose proof (bundle_decode_encode _ _ Hbo (bundle_encode_shape (mkSignedBundle b _) Hb)) as Hdb.
  pose proof (bundle_decode_encode _ _ Hco (bundle_encode_shape (mkSignedBundle c _) Hc)) as Hdc.
  cbn [sb_bundle sb_signature] in Hdb, Hdc. rewrite He, Hdc in Hdb. by injection Hdb.
Qed.

(** The four domains differ right after their common prefix. *)
Lemma domains_differ : forall x y,
  (AUTHORITY_DOMAIN ++ x <> SUBJECT_DOMAIN ++ y) /\ (AUTHORITY_DOMAIN ++ x <> DISTRIBUTION_DOMAIN ++ y) /\
  (AUTHORITY_DOMAIN ++ x <> AUTHORITY_BUNDLE_DOMAIN ++ y) /\ (SUBJECT_DOMAIN ++ x <> DISTRIBUTION_DOMAIN ++ y) /\
  (SUBJECT_DOMAIN ++ x <> AUTHORITY_BUNDLE_DOMAIN ++ y) /\ (DISTRIBUTION_DOMAIN ++ x <> AUTHORITY_BUNDLE_DOMAIN ++ y).
Proof. intros x y. split_and!; discriminate. Qed.

Lemma claim_transcript_inj c d : claim_ok c -> claim_ok d -> claim_transcript c = claim_transcript d -> c = d.
Proof.
  intros Hc Hd He.
  destruct c as [u|u|m a di s au|b], d as [v|v|m' a' di' s' au'|b']; cbn [claim_transcript] in He;
    unfold authority_transcript, subject_transcript, distribution_transcript, authority_bundle_transcript in He;
    try (exfalso; revert He; first [apply domains_differ|intros He; symmetry in He; revert He; apply domains_differ]).
  - apply app_field in He as [_ He]; [|done]. f_equal.
    destruct (authority_fields_inj u v [] []) as [Huv _]; [done..|by rewrite !app_nil_r|done].
  - f_equal. by apply subject_transcript_inj.
  - apply app_field in He as [_ He]; [|done]. unfold distribution_fields in He. cbn in He, Hc, Hd.
    destruct Hc as (Hm & Ha & Hdi & Hs & Hu), Hd as (Hm' & Ha' & Hdi' & Hs' & Hu').
    next_field He F1. next_field He F2. next_field He F3. next_field He F4. apply id_bytes_inj in F1; [|done..]. by subst.
  - apply app_field in He as [_ He]; [|done]. f_equal. by apply bundle_fields_inj.
Qed.

(** *** The trust set's decisions *)

Lemma require_Ok b e x : require b e = Ok x <-> b = true.
Proof. destruct x, b; done. Qed.
Lemma verify_authority_Ok root c mesh now :
  verify_authority root c mesh now = Ok tt <->
  ua_mesh_id (ac_unsigned c) = mesh /\
  ua_not_before (ac_unsigned c) <= now < ua_not_after (ac_unsigned c) /\
  ed_verify root (authority_transcript (ac_unsigned c)) (ac_signature c) = true.
Proof.
  unfold verify_authority, validate_interval, validate_time. case_bool_decide as Hm; cbn [negb]; [|naive_solver].
  rewrite !bind_Ok. split.
  - intros ([] & Hi & Hr). apply bind_Ok in Hr as ([] & Ht & Hs). rewrite !require_Ok, ?andb_true_iff in *.
    rewrite N.leb_le, !N.ltb_lt in *. naive_solver.
  - intros (_ & [Hb Ha] & Hs). exists tt. rewrite require_Ok, N.ltb_lt. split; [lia|].
    rewrite bind_Ok. exists tt. rewrite require_Ok, andb_true_iff, N.leb_le, N.ltb_lt, require_Ok. done.
Qed.
Definition subject_keys_ok (u : UnsignedSubject) : Prop :=
  validate_subject_keys (us_subject u) (identity_public_key u) (public_noise_key u) (wireguard_public_key u) = Ok tt.
Lemma verify_with_authority_Ok c key now :
  verify_with_authority c key now = Ok tt <->
  let u := sc_unsigned c in
  sc_role c = subject_role (us_subject u) /\ subject_keys_ok u /\ us_not_before u <= now < us_not_after u /\
  ed_valid_key key = true /\ ed_verify key (subject_transcript u) (sc_signature c) = true.
Proof.
  unfold verify_with_authority, validate_interval, validate_time, subject_keys_ok.
  case_bool_decide as Hm; cbn [negb]; [|naive_solver]. rewrite !bind_Ok. split.
  - intros ([] & Hi & Hr). apply bind_Ok in Hr as ([] & Ht & Hr). apply bind_Ok in Hr as ([] & Hn & Hr).
    apply bind_Ok in Hr as ([] & Hv & Hs). rewrite !require_Ok, ?andb_true_iff in *.
    rewrite N.leb_le, !N.ltb_lt in *. naive_solver.
  - intros (_ & Hk & [Hb Ha] & Hv & Hs). exists tt. split; [done|]. rewrite bind_Ok. exists tt.
    rewrite require_Ok, N.ltb_lt. split; [lia|]. rewrite bind_Ok. exists tt.
    rewrite require_Ok, andb_true_iff, N.leb_le, N.ltb_lt. split; [done|]. rewrite bind_Ok. exists tt. by rewrite !require_Ok.
Qed.
Lemma is_ok_unit (r : result unit) : is_ok r = true <-> r = Ok tt.
Proof. by destruct r as [[]| |]. Qed.

(** The authority is one the trust set stands by at [now], and it vouches for the subject. *)
Definition stands (t : TrustSet) (now : N) (a : AuthorityCertificate) : Prop :=
  ac_serial a ∉ revoked_authority_serials t /\ verify_authority (ts_root t) a (ts_mesh_id t) now = Ok tt.
Definition vouches (c : SubjectCredential) (now : N) (t : TrustSet) (a : AuthorityCertificate) : Prop :=
  stands t now a /\ verify_with_authority c (ua_public_key (ac_unsigned a)) now = Ok tt.
Definition vouched_until (c : SubjectCredential) (a : AuthorityCertificate) : N :=
  N.min (us_not_after (sc_unsigned c)) (ua_not_after (ac_unsigned a)).
#[export] Instance stands_dec t now a : Decision (stands t now a).
Proof. unfold stands. apply _. Defined.
#[export] Instance vouches_dec c now t a : Decision (vouches c now t a).
Proof. unfold vouches. apply _. Defined.

Lemma consider_authority_eq c now t o a :
  consider_authority c now t o a =
  if bool_decide (vouches c now t a)
  then Some (match o with Some p => N.max p (vouched_until c a) | None => vouched_until c a end) else o.
Proof.
  unfold consider_authority, vouches, stands, vouched_until, ac_serial.
  repeat case_bool_decide; try tauto.
  - destruct H3 as [[_ Ha] Hv]. by rewrite Ha, Hv.
  - destruct (is_ok (verify_authority _ _ _ _)) eqn:Ha; cbn [negb]; [|done].
    destruct (is_ok (verify_with_authority _ _ _)) eqn:Hv; [|done]. apply is_ok_unit in Ha, Hv. tauto.
Qed.

Definition latest (c : SubjectCredential) (now : N) (t : TrustSet) (l : list AuthorityCertificate) (o : option N) : Prop :=
  match o with
  | None => forall a, a ∈ l -> ~ vouches c now t a
  | Some u => (exists a, a ∈ l /\ vouches c now t a /\ u = vouched_until c a) /\
              forall a, a ∈ l -> vouches c now t a -> vouched_until c a <= u
  end.
Lemma consider_all c now t l : latest c now t l (foldl (consider_authority c now t) None l).
Proof.
  induction l as [|a l IH] using rev_ind; [by intros a ?%not_elem_of_nil|].
  rewrite foldl_snoc, consider_authority_eq. case_bool_decide as Hv; destruct (foldl _ None l) as [p|]; cbn in *;
    setoid_rewrite elem_of_app; setoid_rewrite list_elem_of_singleton.
  - destruct IH as [(b & Hb & Hvb & ->) Hmax]. split.
    + destruct (N.max_spec (vouched_until c b) (vouched_until c a)) as [[_ ->]|[_ ->]]; naive_solver.
    + intros x [Hx| ->] Hvx; [|lia]. specialize (Hmax x Hx Hvx). lia.
  - split; [naive_solver|]. intros x [Hx| ->] Hvx; [by destruct (IH x Hx)|done].
  - destruct IH as [(b & Hb & Hvb & ->) Hmax]. split; [naive_solver|]. intros x [Hx| ->] Hvx; [by apply Hmax|done].
  - intros x [Hx| ->]; [by apply IH|done].
Qed.
(** What must hold of the credential itself. *)
Definition admissible (c : SubjectCredential) (t : TrustSet) : Prop :=
  us_mesh_id (sc_unsigned c) = ts_mesh_id t /\ sc_role c = subject_role (us_subject (sc_unsigned c)) /\
  us_serial (sc_unsigned c) ∉ revoked_subject_serials t.
Lemma subject_valid_until_Ok c now t u :
  subject_valid_until c now t = Ok u <-> admissible c t /\ latest c now t (authorities t) (Some u).
Proof.
  unfold subject_valid_until, admissible. pose proof (consider_all c now t (authorities t)) as Hl.
  repeat (case_bool_decide; cbn [negb]; [|naive_solver]).
  case_bool_decide; [naive_solver|]. split.
  - destruct (foldl _ _ _); [|done]. by intros [= ->].
  - intros [_ Hu]. destruct (foldl _ _ _) as [v|]; cbn in *.
    + f_equal. destruct Hl as [(a & Ha & Hva & ->) Hm], Hu as [(b & Hb & Hvb & ->) Hm'].
      apply N.le_antisymm; [by apply Hm'|by apply Hm].
    + destruct Hu as [(b & Hb & Hvb & _) _]. by destruct (Hl b Hb).
Qed.
Lemma verify_subject_Ok c now t :
  verify_subject c now t = Ok tt <-> admissible c t /\ exists a, a ∈ authorities t /\ vouches c now t a.
Proof.
  unfold verify_subject. rewrite fmap_Ok. setoid_rewrite subject_valid_until_Ok. split.
  - intros (u & [Ha ((a & Hin & Hv & _) & _)] & _). eauto.
  - intros [Hadm (a & Hin & Hv)]. pose proof (consider_all c now t (authorities t)) as Hl.
    destruct (foldl _ _ _) as [u|]; [by exists u|]. by destruct (Hl a Hin).
Qed.

(** *** Installing and revoking *)

Inductive TrustOp :=
  | AddAuthority (c : AuthorityCertificate) (now : N)
  | RevokeSubject (serial : CredentialSerial)
  | RevokeAuthority (serial : CredentialSerial)
  | ResumeRevision (revision : N)
  | InstallBundle (signed : SignedAuthorityBundle) (now : N)
  | InstallAfterResume (signed : SignedAuthorityBundle) (now : N).
Definition trust_step (op : TrustOp) (t : TrustSet) : TrustSet * result unit :=
  match op with
  | AddAuthority c now => add_authority c now t
  | RevokeSubject serial => (revoke_subject serial t, Ok tt)
  | RevokeAuthority serial => (revoke_authority serial t, Ok tt)
  | ResumeRevision revision => resume_authority_revision revision t
  | InstallBundle signed now => install_authority_bundle signed now t
  | InstallAfterResume signed now => install_authority_bundle_after_resume signed now t
  end.
Fixpoint trust_run (ops : list TrustOp) (t : TrustSet) : TrustSet :=
  match ops with [] => t | op :: ops' => trust_run ops' (trust_step op t).1 end.

(** [t'] stands no looser than [t]. *)
Definition tightens (t t' : TrustSet) : Prop :=
  ts_root t' = ts_root t /\ ts_mesh_id t' = ts_mesh_id t /\
  revoked_authority_serials t ⊆ revoked_authority_serials t' /\
  revoked_subject_serials t ⊆ revoked_subject_serials t' /\
  (forall r, authority_revision t = Some r -> exists r', authority_revision t' = Some r' /\ r <= r').
Lemma tightens_refl t : tightens t t.
Proof. split_and!; naive_solver. Qed.
Lemma tightens_trans t1 t2 t3 : tightens t1 t2 -> tightens t2 t3 -> tightens t1 t3.
Proof.
  intros (?&?&?&?&Hr) (?&?&?&?&Hr'). split_and!; [congruence|congruence|set_solver|set_solver|].
  intros r (r' & Hr1 & Hle)%Hr. apply Hr' in Hr1 as (r'' & ? & ?). exists r''. split; [done|lia].
Qed.
#[export] Instance tightens_preorder : PreOrder tightens.
Proof. split; [exact tightens_refl|exact tightens_trans]. Qed.

Lemma verify_all_Ok root mesh now l :
  verify_all root mesh now l = Ok tt <-> forall c, c ∈ l -> verify_authority root c mesh now = Ok tt.
Proof.
  induction l as [|c l IH]; cbn [verify_all]; [split; [by intros _ ? ?%not_elem_of_nil|done]|].
  rewrite bind_Ok. setoid_rewrite elem_of_cons. split.
  - intros ([] & Hc & Hl). rewrite IH in Hl. naive_solver.
  - intros Hall. exists tt. rewrite IH. naive_solver.
Qed.
Lemma verify_authority_bundle_Ok root signed mesh accepted now t :
  verify_authority_bundle root signed mesh accepted now = Ok t <->
  let b := sb_bundle signed in let key := ua_public_key (ac_unsigned (ab_active b)) in
  validate_shape b = Ok tt /\ ab_mesh_id b = mesh /\ (forall r, accepted = Some r -> r < ab_revision b) /\
  (forall c, c ∈ ab_active b :: ab_overlap b -> verify_authority root c mesh now = Ok tt) /\
  ed_valid_key key = true /\ ed_verify key (authority_bundle_transcript b) (sb_signature signed) = true /\
  t = mkTrust root mesh (ab_active b :: ab_overlap b) (list_to_set (ab_revoked b)) ∅ (Some (ab_revision b)) false.
Proof.
  unfold verify_authority_bundle. cbv zeta. rewrite bind_Ok. split.
  - intros ([] & Hs & Hr). case_bool_decide; cbn [negb] in Hr; [|done].
    destruct (match accepted with Some _ => _ | None => _ end) eqn:Hroll; [done|].
    apply bind_Ok in Hr as ([] & Ha & Hr). apply bind_Ok in Hr as ([] & Ho & Hr).
    apply bind_Ok in Hr as ([] & Hk%require_Ok & Hr). apply bind_Ok in Hr as ([] & Hg%require_Ok & <-%Ok_inj).
    rewrite verify_all_Ok in Ho. split_and!; try done.
    + intros r ->. by apply N.leb_gt.
    + intros c [-> | Hc]%elem_of_cons; auto.
  - intros (Hs & Hm & Hroll & Hall & Hk & Hg & ->). exists tt. split; [done|]. rewrite bool_decide_true by done. cbn [negb].
    assert (Hr : match accepted with Some r => ab_revision (sb_bundle signed) <=? r | None => false end = false).
    { destruct accepted as [r|]; [|done]. apply N.leb_gt. by apply Hroll. }
    rewrite Hr, Hall by by left. cbn [mbind outcome_bind].
    rewrite (proj2 (verify_all_Ok _ _ _ _)) by (intros; apply Hall; by right). cbn [mbind outcome_bind].
    by rewrite Hk, Hg.
Qed.

Definition installed (b : AuthorityBundle) (t : TrustSet) : TrustSet :=
  mkTrust (ts_root t) (ts_mesh_id t) (ab_active b :: ab_overlap b)
    (list_to_set (ab_revoked b) ∪ revoked_authority_serials t) (revoked_subject_serials t) (Some (ab_revision b)) false.
(** When [install_authority_bundle] takes the bundle, the accepted revision apart. *)
Definition installable (signed : SignedAuthorityBundle) (now : N) (t : TrustSet) : Prop :=
  let b := sb_bundle signed in let key := ua_public_key (ac_unsigned (ab_active b)) in
  validate_shape b = Ok tt /\ ab_mesh_id b = ts_mesh_id t /\
  (forall c, c ∈ ab_active b :: ab_overlap b -> stands t now c) /\
  ed_valid_key key = true /\ ed_verify key (authority_bundle_transcript b) (sb_signature signed) = true.
Lemma replace_trust_spec b t r :
  replace_trust (mkTrust (ts_root t) (ts_mesh_id t) (ab_active b :: ab_overlap b) (list_to_set (ab_revoked b)) ∅
    (Some (ab_revision b)) false) t = r <->
  ((forall c, c ∈ ab_active b :: ab_overlap b -> ac_serial c ∉ revoked_authority_serials t) /\ r = (installed b t, Ok tt))
  \/ ((exists c, c ∈ ab_active b :: ab_overlap b /\ ac_serial c ∈ revoked_authority_serials t) /\ r = (t, Err Revoked)).
Proof.
  unfold replace_trust. cbn [authorities revoked_authority_serials ts_root ts_mesh_id authority_revision authority_revision_resumed].
  destruct (existsb _ _) eqn:He.
  - apply existsb_exists in He as (c & Hc & Hr%bool_decide_eq_true). apply list_elem_of_In in Hc.
    split; [intros <-; right; eauto|]. intros [[Hno _]|[_ ->]]; [by destruct (Hno c Hc)|done].
  - assert (Hno : forall c, c ∈ ab_active b :: ab_overlap b -> ac_serial c ∉ revoked_authority_serials t).
    { intros c Hc Hr. apply not_true_iff_false in He. apply He. apply existsb_exists. exists c.
      split; [by apply list_elem_of_In|by apply bool_decide_eq_true]. }
    split; [intros <-; by left|]. intros [[_ ->]|[(c & Hc & Hr) _]]; [done|by destruct (Hno c Hc)].
Qed.
Lemma install_authority_bundle_Ok signed now t t' :
  install_authority_bundle signed now t = (t', Ok tt) <->
  installable signed now t /\ (forall r, authority_revision t = Some r -> r < ab_revision (sb_bundle signed)) /\
  t' = installed (sb_bundle signed) t.
Proof.
  unfold install_authority_bundle, installable, stands.
  destruct (verify_authority_bundle _ _ _ _ _) as [rt|e|] eqn:Hv.
  2,3: split; [done|]; intros ((Hs & Hm & Hst & Hk & Hg) & Hroll & ->); exfalso;
    assert (Hok : exists x, verify_authority_bundle (ts_root t) signed (ts_mesh_id t) (authority_revision t) now = Ok x)
    by (eexists; apply verify_authority_bundle_Ok; split_and!; try done; intros c Hc; by apply Hst);
    destruct Hok as [x Hx]; by rewrite Hx in Hv.
  - apply verify_authority_bundle_Ok in Hv as (Hs & Hm & Hroll & Hall & Hk & Hg & ->). rewrite replace_trust_spec.
    split; [intros [[Hno [= ->]]|[_ ?]]; [|done]; split_and!; auto|]. intros ((_ & _ & Hst & _) & _ & ->). left.
    split; [|done]. intros c Hc. by apply Hst.
Qed.

Lemma installed_tightens b t :
  (forall r, authority_revision t = Some r -> r <= ab_revision b) -> tightens t (installed b t).
Proof. intros Hr. split_and!; cbn; [done|done|set_solver|done|]. intros r Hr'%Hr. eauto. Qed.
(** Every authority of the set is certified by its root for its mesh. *)
Definition rooted (t : TrustSet) : Prop :=
  forall a, a ∈ authorities t -> ua_mesh_id (ac_unsigned a) = ts_mesh_id t /\
    ed_verify (ts_root t) (authority_transcript (ac_unsigned a)) (ac_signature a) = true.
(** A failed replacement leaves the set alone; a successful one has verified what it installs. *)
Lemma install_with signed accepted now t (P : TrustSet -> bool) (e : CredentialError) :
  (forall r, accepted = Some r -> authority_revision t = Some r) ->
  (forall r, authority_revision t = Some r -> accepted = Some r \/ r <= ab_revision (sb_bundle signed)) ->
  let res := match verify_authority_bundle (ts_root t) signed (ts_mesh_id t) accepted now with
             | Ok rt => if P rt then (t, Err e) else replace_trust rt t
             | Err e => (t, Err e)
             | Panic => (t, Panic)
             end in
  tightens t res.1 /\ (rooted t -> rooted res.1) /\ (res.2 <> Ok tt -> res.1 = t).
Proof.
  intros Ha1 Ha2 res. unfold res. destruct (verify_authority_bundle _ _ _ _ _) as [rt|e'|] eqn:Hv; [|done..].
  destruct (P rt); [done|].
  apply verify_authority_bundle_Ok in Hv as (_ & _ & Hroll & Hall & _ & _ & ->).
  destruct (replace_trust _ t) as [t1 r1] eqn:Hrt. apply replace_trust_spec in Hrt as [[_ [= -> ->]]|[_ [= -> ->]]]; [|done].
  split_and!; [| |done].
  - apply installed_tightens. intros r Hr. destruct (Ha2 r Hr) as [Hacc|]; [|done]. apply Hroll in Hacc. lia.
  - intros _ a Ha. by apply Hall, verify_authority_Ok in Ha as (? & _ & ?).
Qed.
Lemma install_effect signed now t :
  tightens t (install_authority_bundle signed now t).1 /\
  (rooted t -> rooted (install_authority_bundle signed now t).1) /\
  ((install_authority_bundle signed now t).2 <> Ok tt -> (install_authority_bundle signed now t).1 = t).
Proof.
  pose proof (install_with signed (authority_revision t) now t (fun _ => false) Malformed) as Hw. cbn zeta in Hw.
  unfold install_authority_bundle. apply Hw; [done|by left].
Qed.
Lemma trust_step_spec op t :
  tightens t (trust_step op t).1 /\ (rooted t -> rooted (trust_step op t).1) /\
  ((trust_step op t).2 <> Ok tt -> (trust_step op t).1 = t).
Proof.
  destruct op as [c now|s|s|rev|signed now|signed now]; cbn [trust_step].
  - unfold add_authority. destruct (verify_authority _ _ _ _) as [[]| |] eqn:Hv; [|done..].
    apply verify_authority_Ok in Hv as (Hm & _ & Hs). split; [split_and!; cbn; try done; eauto with lia|]. split; [|done].
    intros Hr a [Ha| ->%list_elem_of_singleton]%elem_of_app; [by apply Hr|done].
  - split; [|done]. split_and!; cbn; [done|done|set_solver|set_solver|eauto with lia].
  - split; [|done]. split_and!; cbn; [done|done|set_solver|set_solver|eauto with lia].
  - unfold resume_authority_revision. case_bool_decide as Hs; rewrite ?orb_true_r; cbn [orb]; [done|].
    destruct (rev =? 0), (lenN (authorities t) =? 0); cbn; try done. split; [|done]. split_and!; cbn; try done.
    intros r Hr. destruct Hs. by rewrite Hr.
  - apply install_effect.
  - unfold install_authority_bundle_after_resume. destruct (_ || _) eqn:Hc; [apply install_effect|].
    apply orb_false_iff in Hc as [_ Hrev%negb_false_iff%bool_decide_eq_true].
    pose proof (install_with signed None now t (fun rt => negb (bool_decide (authorities rt = authorities t))) Rollback) as Hw.
    cbn zeta in Hw. apply Hw; [done|]. intros r Hr. right. rewrite Hrev in Hr. injection Hr as <-. lia.
Qed.
Lemma trust_run_tightens ops t : tightens t (trust_run ops t).
Proof.
  revert t. induction ops as [|op ops IH]; intros t; [apply tightens_refl|]. cbn [trust_run].
  etrans; [apply trust_step_spec|apply IH].
Qed.

Lemma trust_run_rooted ops t : rooted t -> rooted (trust_run ops t).
Proof.
  revert t. induction ops as [|op ops IH]; intros t Ht; cbn [trust_run]; [done|].
  destruct (trust_step_spec op t) as (_ & Hr & _). by apply IH, Hr.
Qed.
Lemma trust_new_rooted root mesh : rooted (trust_new root mesh).
Proof. by intros a ?%not_elem_of_nil. Qed.
Lemma verify_distribution_Ok c now t :
  verify_distribution c now t = Ok tt ->
  dc_mesh_id c = ts_mesh_id t /\ exists a, let u := ac_unsigned a in
    a ∈ authorities t /\ ua_public_key u = authority_public_key c /\ ua_serial u ∉ revoked_authority_serials t /\
    ua_not_before u <= now < ua_not_after u /\
    ed_verify (authority_public_key c) (distribution_transcript c) (dc_signature c) = true.
Proof.
  unfold verify_distribution. case_bool_decide; cbn [negb]; [|done]. intros (a & Ha & Hr)%bind_Ok. split; [done|]. exists a.
  destruct (find _ _) as [a'|] eqn:Hf; [|done]. apply Ok_inj in Ha as ->. apply find_some in Hf as [Hin%list_elem_of_In Hk%bool_decide_eq_true].
  case_bool_decide; [done|]. apply bind_Ok in Hr as ([] & Ht & Hr). apply bind_Ok in Hr as ([] & _ & Hs%require_Ok).
  unfold validate_time in Ht. rewrite require_Ok, andb_true_iff, N.leb_le, N.ltb_lt in Ht. done.
Qed.

(** ** Properties *)

(** The subject decoder accepts exactly the encodings of valid credentials.
    [subject_decode] returns [c] if and only if the bytes are [c]'s encoding, its
    fields have their types' widths, its keys and interval are ones [issue]
    accepts, and its role is its subject's; on every other input it returns an
    error, and it never panics. *)
Theorem subject_codec_exact bytes c :
  (subject_decode bytes = Ok c <->
   subject_encode c = bytes /\ us_ok (sc_unsigned c) /\ sig_ok (sc_signature c) /\ subject_valid (sc_unsigned c) /\
   sc_role c = subject_role (us_subject (sc_unsigned c))) /\
  no_panic (subject_decode bytes).
Proof.
  split; [|apply no_panic_subject_decode]. split; [apply subject_decode_Ok|].
  intros (<- & Hu & Hs & Hv & Hr). by apply subject_decode_encode.
Qed.

(** The authority-bundle decoder accepts exactly what [encode] produces. For
    every byte string, [bundle_decode] returns [s] if and only if [s] is a bundle
    of valid widths and [bundle_encode s] is that string: no two strings decode to
    one bundle, nothing decodes that would not be encoded, and it never panics,
    whatever counts the input claims. *)
Theorem bundle_codec_exact bytes s :
  (bundle_decode bytes = Ok s <-> bundle_ok s /\ bundle_encode s = Ok bytes) /\ no_panic (bundle_decode bytes).
Proof.
  split; [|apply no_panic_bundle_decode]. split; [by intros [??]%bundle_decode_Ok|].
  intros [Hok He]. by eapply bundle_decode_encode.
Qed.

(** The chain of trust. Suppose signatures are unforgeable for honest keys:
    what verifies under one is the transcript of a claim its holder signed. Then
    a subject the trust set accepts at [now] is vouched for by an authority
    certificate the root's holder signed, for this mesh, whose interval contains
    [now] and which is not revoked, and if that authority is honest its holder
    signed this very subject - not a distribution, a bundle or another subject
    whose signature was replayed - and the subject is of this mesh, in its
    interval and not revoked. *)
Theorem trust_chain (honest : list byte -> Prop) (signs : list byte -> Claim -> Prop) c now t
    (Hunforgeable : forall key m sg, honest key -> ed_verify key m sg = true ->
       exists claim, claim_ok claim /\ signs key claim /\ claim_transcript claim = m)
    (Hroot : honest (ts_root t))
    (Hauthorities : Forall (fun a => ua_ok (ac_unsigned a)) (authorities t))
    (Hsubject : us_ok (sc_unsigned c))
    (Haccepted : verify_subject c now t = Ok tt) :
  let s := sc_unsigned c in
  us_mesh_id s = ts_mesh_id t /\ us_serial s ∉ revoked_subject_serials t /\ us_not_before s <= now < us_not_after s /\
  exists a, let u := ac_unsigned a in
    a ∈ authorities t /\ ua_serial u ∉ revoked_authority_serials t /\ ua_mesh_id u = ts_mesh_id t /\
    ua_not_before u <= now < ua_not_after u /\
    signs (ts_root t) (AuthorityClaim u) /\ (honest (ua_public_key u) -> signs (ua_public_key u) (SubjectClaim s)).
Proof.
  apply verify_subject_Ok in Haccepted as [(Hm & Hr & Hrev) (a & Hin & [[Hns Hva] Hvs])].
  apply verify_authority_Ok in Hva as (Hma & Hta & Hsa). apply verify_with_authority_Ok in Hvs as (_ & _ & Hts & _ & Hss).
  rewrite Forall_forall in Hauthorities. destruct Hta, Hts.
  cbv zeta. split_and!; [done..|]. exists a. split_and!; [done..| |].
  - destruct (Hunforgeable _ _ _ Hroot Hsa) as (cl & Hok & Hsg & Ht).
    apply (claim_transcript_inj cl (AuthorityClaim (ac_unsigned a))) in Ht as ->; [done|done|]. by apply Hauthorities.
  - intros Hh. destruct (Hunforgeable _ _ _ Hh Hss) as (cl & Hok & Hsg & Ht).
    by apply (claim_transcript_inj cl (SubjectClaim (sc_unsigned c))) in Ht as ->.
Qed.

(** C3: revocation and rollback protection are permanent. Whatever sequence of
    operations follows - authorities added, bundles installed or resumed, serials
    revoked, failed calls included - the root and the mesh stay, revoked serials
    stay revoked and the accepted bundle revision never decreases; so a subject
    revoked before is refused at any later time, and a subject accepted later is
    vouched for by an authority not revoked before. A call that fails changes
    nothing. *)
Theorem revocation_is_permanent ops t :
  tightens t (trust_run ops t) /\
  (forall c now, verify_subject c now (trust_run ops t) = Ok tt ->
     us_serial (sc_unsigned c) ∉ revoked_subject_serials t /\
     exists a, a ∈ authorities (trust_run ops t) /\ ac_serial a ∉ revoked_authority_serials t /\
       vouches c now (trust_run ops t) a) /\
  (forall op, (trust_step op t).2 <> Ok tt -> (trust_step op t).1 = t).
Proof.
  pose proof (trust_run_tightens ops t) as Ht. split_and!; [done| |intros op; apply trust_step_spec].
  destruct Ht as (_ & _ & Hra & Hrs & _). intros c now [(_ & _ & Hn) (a & Hin & Hv)]%verify_subject_Ok.
  split; [set_solver|]. exists a. split_and!; [done| |done]. destruct Hv as [[Hna _] _]. set_solver.
Qed.

(** [subject_valid_until] returns the best bound there is. It succeeds
    exactly when the credential is of this mesh, unrevoked, and some standing
    authority vouches for it; the instant is then the latest, over the vouching
    authorities, of the earlier end of the two intervals, it lies after [now], and
    up to it that authority goes on vouching. *)
Theorem subject_valid_until_exact c now t until :
  (subject_valid_until c now t = Ok until <->
   admissible c t /\ (exists a, a ∈ authorities t /\ vouches c now t a /\ until = vouched_until c a) /\
   forall a, a ∈ authorities t -> vouches c now t a -> vouched_until c a <= until) /\
  (subject_valid_until c now t = Ok until -> forall later, now <= later < until -> verify_subject c later t = Ok tt).
Proof.
  split; [apply subject_valid_until_Ok|]. intros [Hadm [(a & Hin & [[Hns Hva] Hvs] & ->) _]]%subject_valid_until_Ok later Hl.
  apply verify_subject_Ok. split; [done|]. exists a. split; [done|]. unfold vouched_until in Hl.
  apply verify_authority_Ok in Hva as (Hm & Ht & Hs). apply verify_with_authority_Ok in Hvs as (Hr & Hk & Ht' & Hv & Hg).
  repeat split; [done| |].
  - apply verify_authority_Ok. split_and!; [done|lia|lia|done].
  - apply verify_with_authority_Ok. split_and!; [done|done|lia|lia|done|done].
Qed.

Section signing.
Context `{!Ed25519Laws}.

Lemma certify_verify root_seed u a mesh now :
  certify root_seed u = Ok a -> ua_mesh_id u = mesh -> ua_not_before u <= now < ua_not_after u ->
  verify_authority (ed_public root_seed) a mesh now = Ok tt.
Proof.
  unfold certify. intros (? & _ & <-%Ok_inj)%bind_Ok Hm Ht. apply verify_authority_Ok.
  split_and!; [done|apply Ht|apply Ht|]. apply ed_verify_sign.
Qed.
Lemma issue_verify seed u c now :
  issue seed u = Ok c -> us_not_before u <= now < us_not_after u ->
  sc_unsigned c = u /\ sc_role c = subject_role (us_subject u) /\ verify_with_authority c (ed_public seed) now = Ok tt.
Proof.
  unfold issue. intros ([] & _ & Hr)%bind_Ok Ht. apply bind_Ok in Hr as ([] & Hk & <-%Ok_inj). split_and!; [done|done|].
  apply verify_with_authority_Ok. cbn. split_and!; [done|done|apply Ht|apply Ht|apply ed_public_valid|apply ed_verify_sign].
Qed.
Lemma sign_authority_bundle_Ok seed mesh rev active overlap revoked s :
  sign_authority_bundle seed mesh rev active overlap revoked = Ok s ->
  let b := sb_bundle s in
  ua_public_key (ac_unsigned active) = ed_public seed /\ validate_shape b = Ok tt /\ ab_mesh_id b = mesh /\
  ab_revision b = rev /\ ab_active b = active /\ ab_overlap b ≡ₚ overlap /\ ab_revoked b ≡ₚ revoked /\
  sb_signature s = ed_sign seed (authority_bundle_transcript b).
Proof.
  unfold sign_authority_bundle. case_bool_decide; cbn [negb orb]; [|done]. case_bool_decide; cbn [negb]; [|done].
  cbv zeta. intros ([] & Hs & <-%Ok_inj)%bind_Ok. cbn. split_and!; try done; apply sort_by_key_perm.
Qed.
Lemma validate_shape_mesh b c : validate_shape b = Ok tt -> c ∈ ab_active b :: ab_overlap b -> ua_mesh_id (ac_unsigned c) = ab_mesh_id b.
Proof.
  unfold validate_shape. rewrite require_Ok, negb_true_iff. unfold shape_violated. rewrite !orb_false_iff.
  intros ((((((((Ha%negb_false_iff%bool_decide_eq_true & _) & _) & Ho) & _) & _) & _) & _) & _) [-> | Hc]%elem_of_cons; [done|].
  destruct (decide (ua_mesh_id (ac_unsigned c) = ab_mesh_id b)) as [|Hne]; [done|]. exfalso.
  apply not_true_iff_false in Ho. apply Ho, existsb_exists. exists c. rewrite list_elem_of_In in Hc. split; [done|].
  by rewrite bool_decide_false.
Qed.
Lemma validate_shape_unrevoked b c : validate_shape b = Ok tt -> c ∈ ab_active b :: ab_overlap b -> ac_serial c ∉ ab_revoked b.
Proof.
  unfold validate_shape. rewrite require_Ok, negb_true_iff. unfold shape_violated. rewrite !orb_false_iff.
  intros [[_ Ha%bool_decide_eq_false] Ho] [-> | Hc]%elem_of_cons; [done|]. intros Hr.
  apply not_true_iff_false in Ho. apply Ho, existsb_exists. exists c. rewrite list_elem_of_In in Hc. split; [done|].
  by apply bool_decide_eq_true.
Qed.
Lemma installable_signed root_seed seed mesh rev active overlap revoked s now t :
  Forall (fun a => certify root_seed (ac_unsigned a) = Ok a /\ ua_not_before (ac_unsigned a) <= now < ua_not_after (ac_unsigned a) /\
                   ac_serial a ∉ revoked_authority_serials t) (active :: overlap) ->
  sign_authority_bundle seed mesh rev active overlap revoked = Ok s ->
  ts_root t = ed_public root_seed -> ts_mesh_id t = mesh -> installable s now t.
Proof.
  intros Hcerts (Hkey & Hs & Hm & _ & Ha & Ho & _ & Hsg)%sign_authority_bundle_Ok Hroot Hmesh.
  split_and!; [done|congruence| | |].
  - intros c Hc. pose proof (validate_shape_mesh _ _ Hs Hc) as Hcm. rewrite Ha, Ho in Hc.
    rewrite Forall_forall in Hcerts. destruct (Hcerts c Hc) as (Hcert & Ht & Hn). split; [done|]. rewrite Hroot.
    eapply certify_verify; [done|congruence|done].
  - rewrite Ha, Hkey. apply ed_public_valid.
  - rewrite Ha, Hkey, Hsg. apply ed_verify_sign.
Qed.

(** C40: authority rotation takes effect. A bundle signed by the active authority,
    over certificates the root certified that are in their intervals and not
    revoked at a peer, is encoded, decodes to itself at the peer, and - its
    revision being newer - is installed there: a subject the active authority
    issued is then accepted, and every subject accepted from then on is vouched for
    by an authority of the bundle that the bundle does not revoke. *)
Theorem rotation_takes_effect root_seed seed mesh rev active overlap revoked s t u c now
    (Hcerts : Forall (fun a => certify root_seed (ac_unsigned a) = Ok a /\
        ua_not_before (ac_unsigned a) <= now < ua_not_after (ac_unsigned a) /\ ac_serial a ∉ revoked_authority_serials t)
      (active :: overlap))
    (Hsigned : sign_authority_bundle seed mesh rev active overlap revoked = Ok s)
    (Hwidths : bundle_ok s)
    (Htrust : ts_root t = ed_public root_seed /\ ts_mesh_id t = mesh)
    (Hnewer : forall r, authority_revision t = Some r -> r < rev)
    (Hissue : issue seed u = Ok c)
    (Hsubject : us_mesh_id u = mesh /\ us_serial u ∉ revoked_subject_serials t /\ us_not_before u <= now < us_not_after u) :
  exists bytes t',
    bundle_encode s = Ok bytes /\ bundle_decode bytes = Ok s /\ install_authority_bundle s now t = (t', Ok tt) /\
    verify_subject c now t' = Ok tt /\
    (forall c' later, verify_subject c' later t' = Ok tt ->
       exists a, a ∈ active :: overlap /\ ac_serial a ∉ revoked /\ ac_serial a ∉ revoked_authority_serials t /\
         vouches c' later t' a).
Proof.
  destruct Htrust as [Hroot Hmesh]. pose proof (installable_signed _ _ _ _ _ _ _ _ _ _ Hcerts Hsigned Hroot Hmesh) as Hinst.
  apply sign_authority_bundle_Ok in Hsigned as (Hkey & Hs & Hm & Hrev & Ha & Ho & Hrv & _).
  assert (He : bundle_encode s = Ok (bundle_fields (sb_bundle s) ++ sb_signature s)) by by apply bundle_encode_shape.
  exists (bundle_fields (sb_bundle s) ++ sb_signature s), (installed (sb_bundle s) t).
  destruct Hsubject as (Hum & Hus & Hut). destruct (issue_verify _ _ _ now Hissue Hut) as (Hcu & Hcr & Hcv).
  split_and!; [done|by eapply bundle_decode_encode| | |].
  - apply install_authority_bundle_Ok. rewrite Hrev. by split_and!.
  - apply verify_subject_Ok. split; [split_and!; cbn; [congruence|by rewrite Hcu|by rewrite Hcu]|].
    exists active. split; [cbn; rewrite Ha; by left|]. rewrite Forall_cons in Hcerts.
    destruct Hcerts as [(Hca & Hta & Hna) _]. split; [split|by rewrite Hkey].
    + cbn. rewrite not_elem_of_union, elem_of_list_to_set. split; [|done].
      rewrite <-Ha. apply validate_shape_unrevoked; [done|by left].
    + cbn. rewrite Hroot. eapply certify_verify; [done| |done]. rewrite <-Ha, <-Hmesh in *.
      rewrite (validate_shape_mesh _ _ Hs); [congruence|by left].
  - intros c' later [_ (a & Hin & Hv)]%verify_subject_Ok. exists a. cbn in Hin. rewrite Ha, Ho in Hin.
    destruct Hv as [[Hn Hva] Hvs]. cbn in Hn. rewrite not_elem_of_union, elem_of_list_to_set, Hrv in Hn.
    destruct Hn as [Hn1 Hn2]. split_and!; try done. split; [|done]. split; [|done]. cbn.
    rewrite not_elem_of_union, elem_of_list_to_set, Hrv. done.
Qed.
End signing.

End correctness.
(** ** Examples *)

#[local] Existing Instance uuid_rfc.
Definition example_id (n : N) : DomainId := mkDomainId (0x970a3f18_1c6f_4da6_a223_f962_3958_a900 + n).
Definition example_key (b : byte) : list byte := replicate 32 b.
Definition every_key : X25519Lib := {| was_contributory k := negb (all_zero k) |}.
#[local] Existing Instance every_key.

(** A keyed checksum in the place of Ed25519: it obeys the laws [Ed25519Laws] asks for. *)
Definition toy_public (seed : list byte) : list byte := take 32 (seed ++ replicate 32 x00).
Definition toy_mac (key m : list byte) : list byte := take 64 (key ++ m ++ replicate 64 x00).
Definition toy_ed : Ed25519Lib := {|
  ed_public := toy_public;
  ed_sign seed m := toy_mac (toy_public seed) m;
  ed_valid_key k := lenN k =? 32;
  ed_verify key m sg := bool_decide (sg = toy_mac key m);
|}.
Lemma toy_laws : @Ed25519Laws toy_ed.
Proof.
  assert (Hp : forall seed, lenN (toy_public seed) = 32).
  { intros seed. unfold toy_public, lenN. rewrite length_take, length_app, length_replicate. lia. }
  split; cbn; intros.
  - by rewrite Hp.
  - apply Hp.
  - unfold toy_mac, lenN. rewrite length_take, !length_app, length_replicate. lia.
  - by apply bool_decide_eq_true.
Qed.

Definition example_authority : UnsignedAuthority :=
  mkUnsignedAuthority (example_id 1) (example_id 2) (example_key x11) 100 200.
Definition example_subject : UnsignedSubject :=
  mkUnsignedSubject (PeerSubject (example_id 3)) (example_id 1) (example_key x21) (example_key x22) (example_key x23)
    (example_id 4) 120 180.
Definition example_active : AuthorityCertificate :=
  mkAuthority example_authority (toy_mac (example_key x10) (authority_transcript example_authority)).
Definition example_bundle : AuthorityBundle := mkBundle (example_id 1) 5 example_active [] [example_id 9].
Definition example_signed : SignedAuthorityBundle :=
  mkSignedBundle example_bundle (toy_mac (example_key x11) (authority_bundle_transcript example_bundle)).
Definition example_credential : SubjectCredential :=
  mkSubject PeerRole example_subject (toy_mac (example_key x11) (subject_transcript example_subject)).
Definition example_trust : TrustSet := trust_new (example_key x10) (example_id 1).

Lemma example_active_ok : ac_ok example_active.
Proof. repeat split; done. Qed.
Lemma rotation_takes_effect_witness :
  exists bytes t',
    bundle_encode example_signed = Ok bytes /\ bundle_decode bytes = Ok example_signed /\
    install_authority_bundle (H0 := toy_ed) example_signed 150 example_trust = (t', Ok tt) /\
    verify_subject (H0 := toy_ed) example_credential 150 t' = Ok tt /\
    (forall c' later, verify_subject (H0 := toy_ed) c' later t' = Ok tt ->
       exists a, a ∈ [example_active] /\ ac_serial a ∉ [example_id 9] /\
         ac_serial a ∉ revoked_authority_serials example_trust /\ vouches (H0 := toy_ed) c' later t' a).
Proof.
  apply (rotation_takes_effect (H0 := toy_ed) (H2 := toy_laws) (example_key x10) (example_key x11) (example_id 1) 5
    example_active [] [example_id 9] example_signed example_trust example_subject example_credential 150).
  - constructor; [|constructor]. split; [vm_compute; reflexivity|]. split; [split; vm_compute; [discriminate|reflexivity]|].
    apply not_elem_of_empty.
  - vm_compute. reflexivity.
  - split; [split; [reflexivity|vm_compute; reflexivity]|]. split; [vm_compute; discriminate|]. split; [vm_compute; reflexivity|].
    split; [constructor; [split; [exact example_active_ok|vm_compute; reflexivity]|constructor]|].
    constructor; [split; [reflexivity|vm_compute; reflexivity]|constructor].
  - split; reflexivity.
  - intros r Hr. discriminate Hr.
  - vm_compute. reflexivity.
  - split; [reflexivity|]. split; [apply not_elem_of_empty|]. split; vm_compute; [discriminate|reflexivity].
Defined.

(** A verifier that accepts the two transcripts the example's holders signed, and nothing else. *)
Definition example_ledger (key : list byte) (claim : Claim) : Prop :=
  (key = example_key x10 /\ claim = AuthorityClaim example_authority) \/
  (key = example_key x11 /\ claim = SubjectClaim example_subject).
Definition ledger_ed : Ed25519Lib := {|
  ed_public := toy_public;
  ed_sign seed m := toy_mac (toy_public seed) m;
  ed_valid_key k := lenN k =? 32;
  ed_verify key m _ :=
    bool_decide (key = example_key x10 /\ m = authority_transcript example_authority \/
                 key = example_key x11 /\ m = subject_transcript example_subject);
|}.
Definition example_member : TrustSet := (add_authority (H0 := ledger_ed) example_active 150 example_trust).1.

Lemma example_member_authorities : authorities example_member = [example_active].
Proof. vm_compute. reflexivity. Qed.

Lemma trust_chain_witness :
  verify_subject (H0 := ledger_ed) example_credential 150 example_member = Ok tt /\
  exists a, a ∈ authorities example_member /\ example_ledger (example_key x10) (AuthorityClaim (ac_unsigned a)) /\
    example_ledger (ua_public_key (ac_unsigned a)) (SubjectClaim example_subject).
Proof.
  assert (Haccepted : verify_subject (H0 := ledger_ed) example_credential 150 example_member = Ok tt) by (vm_compute; reflexivity).
  split; [exact Haccepted|].
  destruct (trust_chain (H0 := ledger_ed) (fun _ => True) example_ledger example_credential 150 example_member)
    as (_ & _ & _ & a & Hin & _ & _ & _ & Hr & Ha).
  - intros key m sg _ Hv. apply bool_decide_eq_true in Hv as [[-> ->]|[-> ->]].
    + exists (AuthorityClaim example_authority). split; [exact (proj1 example_active_ok)|]. split; [left; split; reflexivity|reflexivity].
    + exists (SubjectClaim example_subject). split; [repeat split; done|]. split; [right; split; reflexivity|reflexivity].
  - exact I.
  - rewrite example_member_authorities. constructor; [exact (proj1 example_active_ok)|constructor].
  - repeat split; done.
  - exact Haccepted.
  - exists a. split; [exact Hin|]. split; [exact Hr|exact (Ha I)].
Defined.

(** An authority whose key was certified again: the old certificate is revoked. *)
Definition example_renewed : AuthorityCertificate :=
  let u := mkUnsignedAuthority (example_id 1) (example_id 5) (example_key x11) 100 300 in
  mkAuthority u (toy_mac (example_key x10) (authority_transcript u)).
Definition example_renewed_trust : TrustSet :=
  trust_run (H0 := toy_ed)
    [AddAuthority example_active 150; AddAuthority example_renewed 150; RevokeAuthority (example_id 2)] example_trust.
Definition example_distribution : DistributionCertificate :=
  certify_distribution (H0 := toy_ed) (example_key x11) (example_id 1) (example_key x30) (example_key x31) (example_key x32).

(** [verify_distribution] looks only at the first certificate with the signing key,
    so it refuses a certificate that a standing authority of the set has signed;
    [verify_subject] considers them all. *)
Theorem distribution_first_certificate_only :
  let t := example_renewed_trust in
  example_renewed ∈ authorities t /\ stands (H0 := toy_ed) t 150 example_renewed /\
  ua_public_key (ac_unsigned example_renewed) = authority_public_key example_distribution /\
  ed_verify (Ed25519Lib := toy_ed) (authority_public_key example_distribution)
    (distribution_transcript example_distribution) (dc_signature example_distribution) = true /\
  verify_distribution (H0 := toy_ed) example_distribution 150 t = Err Revoked /\
  verify_subject (H0 := toy_ed) example_credential 150 t = Ok tt.
Proof.
  cbv zeta. split; [vm_compute; right; left|]. split; [apply (bool_decide_unpack _); vm_compute; exact I|].
  split; [reflexivity|]. split; [vm_compute; reflexivity|]. split; vm_compute; reflexivity.
Qed.

End Cred.
