(* ===== verification/IdentityProofs.v ===== *)
(** * Identity proofs and mesh termination (crate [peerward-credentials])

    identity_claim.rs, rotation_proof.rs and terminal.rs: the proofs a Peer's own
    identity signs when it joins or rotates its keys, and the irreversible
    termination of a mesh that an authority signs. *)

From S2P Require Import Prelude Ordered Net Directory Credentials.
From Stdlib Require Import NArith Lia.
From stdpp Require Import base tactics decidable countable numbers list sorting gmap.
From Stdlib.Init Require Import Byte.
Set Default Goal Selector "!".
Local Open Scope N_scope.

(** [VerifyingKey::verify_strict], which also refuses weak keys; a key pair's own
    signatures pass it. *)
Class StrictLib := { ed_verify_strict : list byte -> list byte -> list byte -> bool }.
Class StrictLaws `{Ed25519Lib} `{StrictLib} : Prop := {
  strict_verify_sign seed m : ed_verify_strict (ed_public seed) m (ed_sign seed m) = true;
}.

Module Idp.
Import Cred.

#[local] Arguments to_be : simpl never.
#[local] Arguments id_bytes : simpl never.
#[local] Arguments from_be : simpl never.

(** ** Records *)

(** Strings are their UTF-8 bytes. *)
Record JoinClaimProof := mkJoin {
  jc_schema_version : N;
  jc_claim_id : DomainId;
  jc_ticket_digest : list byte;
  jc_identity_public_key : list byte;
  jc_session_public_key : list byte;
  jc_wireguard_public_key : list byte;
  jc_client_version : list byte;
  jc_supported_wire_major : N;
  jc_nonce : list byte;
  jc_device_name : list byte;
  jc_device_model : list byte;
  jc_platform : list byte;
  jc_platform_version : list byte;
}.
Record RotationRequestProof := mkRotationRequest {
  rr_mesh_id : MeshId;
  rr_peer_id : PeerId;
  rr_rotation_id : DomainId;
  rr_current_serial : DomainId;
  rr_identity_public_key : list byte;
  rr_session_public_key : list byte;
  rr_wireguard_public_key : list byte;
}.
Record RotationActivationProof := mkRotationActivation {
  ra_mesh_id : MeshId;
  ra_peer_id : PeerId;
  ra_rotation_id : DomainId;
  ra_issued_serial : DomainId;
  ra_challenge : list byte;
}.
Record MeshTermination := mkTermination {
  mt_revision : N;
  mt_terminated_at : N;
  mt_authority : AuthorityCertificate;
  mt_signature : list byte;
}.

(** ** Domains *)

(** [b"peerward/join-claim/v2\0"] and its siblings. *)
Definition JOIN_CLAIM_DOMAIN : list byte := PREFIX ++
  [x6a; x6f; x69; x6e; x2d; x63; x6c; x61; x69; x6d; x2f; x76; x32; x00].
Definition ROTATION_PREFIX : list byte := PREFIX ++
  [x63; x72; x65; x64; x65; x6e; x74; x69; x61; x6c; x2d; x72; x6f; x74; x61; x74; x69; x6f; x6e; x2f].
Definition ROTATION_REQUEST_DOMAIN : list byte := ROTATION_PREFIX ++
  [x72; x65; x71; x75; x65; x73; x74; x2f; x76; x32; x00].
Definition ROTATION_ACTIVATION_DOMAIN : list byte := ROTATION_PREFIX ++
  [x61; x63; x74; x69; x76; x61; x74; x65; x2f; x76; x31; x00].
Definition TERMINATION_DOMAIN : list byte := PREFIX ++
  [x6d; x65; x73; x68; x2d; x74; x65; x72; x6d; x69; x6e; x61; x74; x69; x6f; x6e; x2f; x76; x31; x00].
(** [b"PWM1"] *)
Definition TERMINATION_MAGIC : list byte := [x50; x57; x4d; x31].

Section proofs.
Context `{UuidLib} `{Ed25519Lib} `{X25519Lib} `{StrictLib}.

(** The checks a join claim and a rotation request share. *)
Definition proof_keys_invalid (identity session wireguard : list byte) : bool :=
  all_zero identity || all_zero session || negb (was_contributory wireguard)
  || bool_decide (wireguard = session) || bool_decide (wireguard = identity).

(** ** identity_claim.rs *)

(** [claim_id.get_version_num() != 4] reads the nibble [uuid_version_random] reads. *)
Definition join_invalid (p : JoinClaimProof) : bool :=
  negb (jc_schema_version p =? 2) || negb (uuid_version_random (id_uuid (jc_claim_id p)))
  || proof_keys_invalid (jc_identity_public_key p) (jc_session_public_key p) (jc_wireguard_public_key p)
  || (lenN (jc_client_version p) =? 0) || (64 <? lenN (jc_client_version p))
  || (jc_supported_wire_major p =? 0)
  || negb ((16 <=? lenN (jc_nonce p)) && (lenN (jc_nonce p) <=? 64))
  || (lenN (jc_device_name p) =? 0) || (128 <? lenN (jc_device_name p))
  || (128 <? lenN (jc_device_model p))
  || (lenN (jc_platform p) =? 0) || (32 <? lenN (jc_platform p))
  || (64 <? lenN (jc_platform_version p)).
Definition join_validate (p : JoinClaimProof) : result unit := require (negb (join_invalid p)) Malformed.

Definition join_claim_bytes (output value : list byte) : result (list byte) :=
  if U32_MAX <? lenN value then Err Malformed else Ok (output ++ to_be 4 (lenN value) ++ value).

Definition join_claim_transcript (p : JoinClaimProof) : result (list byte) :=
  _ ← join_validate p;
  let bytes := JOIN_CLAIM_DOMAIN ++ to_be 4 (jc_schema_version p) ++ id_bytes (jc_claim_id p) ++ jc_ticket_digest p ++
    jc_identity_public_key p ++ jc_session_public_key p ++ jc_wireguard_public_key p ++
    to_be 4 (jc_supported_wire_major p) in
  bytes ← join_claim_bytes bytes (jc_client_version p);
  bytes ← join_claim_bytes bytes (jc_nonce p);
  bytes ← join_claim_bytes bytes (jc_device_name p);
  bytes ← join_claim_bytes bytes (jc_device_model p);
  bytes ← join_claim_bytes bytes (jc_platform p);
  join_claim_bytes bytes (jc_platform_version p).

Definition sign_join_claim (seed : list byte) (p : JoinClaimProof) : result (list byte) :=
  t ← join_claim_transcript p;
  Ok (ed_sign seed t).
Definition verify_join_claim (p : JoinClaimProof) (signature : list byte) : result unit :=
  _ ← require (ed_valid_key (jc_identity_public_key p)) InvalidKey;
  t ← join_claim_transcript p;
  require (ed_verify (jc_identity_public_key p) t signature) InvalidSignature.

(** ** rotation_proof.rs *)

Definition rotation_request_transcript (p : RotationRequestProof) : result (list byte) :=
  if proof_keys_invalid (rr_identity_public_key p) (rr_session_public_key p) (rr_wireguard_public_key p)
  then Err InvalidKey
  else Ok (ROTATION_REQUEST_DOMAIN ++ id_bytes (rr_mesh_id p) ++ id_bytes (rr_peer_id p) ++ id_bytes (rr_rotation_id p) ++
    id_bytes (rr_current_serial p) ++ rr_identity_public_key p ++ rr_session_public_key p ++ rr_wireguard_public_key p).
Definition sign_rotation_request (seed : list byte) (p : RotationRequestProof) : result (list byte) :=
  t ← rotation_request_transcript p;
  Ok (ed_sign seed t).
Definition verify_rotation_request (key : list byte) (p : RotationRequestProof) (signature : list byte) : result unit :=
  _ ← require (ed_valid_key key) InvalidKey;
  t ← rotation_request_transcript p;
  require (ed_verify key t signature) InvalidSignature.

Definition rotation_activation_transcript (p : RotationActivationProof) : list byte :=
  ROTATION_ACTIVATION_DOMAIN ++ id_bytes (ra_mesh_id p) ++ id_bytes (ra_peer_id p) ++ id_bytes (ra_rotation_id p) ++
  id_bytes (ra_issued_serial p) ++ ra_challenge p.
Definition sign_rotation_activation (seed : list byte) (p : RotationActivationProof) : list byte :=
  ed_sign seed (rotation_activation_transcript p).
Definition verify_rotation_activation (key : list byte) (p : RotationActivationProof) (signature : list byte) : result unit :=
  _ ← require (ed_valid_key key) InvalidKey;
  require (ed_verify key (rotation_activation_transcript p) signature) InvalidSignature.

(** ** terminal.rs *)

Definition termination_fields (t : MeshTermination) : list byte :=
  to_be 8 (mt_revision t) ++ to_be 8 (mt_terminated_at t) ++ authority_encode (mt_authority t).
Definition termination_transcript (t : MeshTermination) : list byte := TERMINATION_DOMAIN ++ termination_fields t.

Definition terminate_mesh (seed : list byte) (authority : AuthorityCertificate) (revision now : N) : result MeshTermination :=
  if (revision =? 0) || negb (bool_decide (ua_public_key (ac_unsigned authority) = ed_public seed)) then Err InvalidKey else
  _ ← validate_time (ua_not_before (ac_unsigned authority)) (ua_not_after (ac_unsigned authority)) now;
  let terminal := mkTermination revision now authority (replicate 64 x00) in
  Ok (mkTermination revision now authority (ed_sign seed (termination_transcript terminal))).

Definition termination_verify (t : MeshTermination) (root : list byte) (mesh : MeshId) (previous_revision now : N) : result unit :=
  if (mt_revision t =? 0) || (mt_revision t <=? previous_revision) then Err Rollback
  else if sat_add now 60 <? mt_terminated_at t then Err OutsideValidity else
  _ ← verify_authority root (mt_authority t) mesh (mt_terminated_at t);
  let key := ua_public_key (ac_unsigned (mt_authority t)) in
  _ ← require (ed_valid_key key) InvalidKey;
  require (ed_verify_strict key (termination_transcript t) (mt_signature t)) InvalidSignature.
Definition verify_termination (terminal : MeshTermination) (previous_revision now : N) (t : TrustSet) : result unit :=
  if bool_decide (ac_serial (mt_authority terminal) ∈ revoked_authority_serials t) then Err Revoked
  else termination_verify terminal (ts_root t) (ts_mesh_id t) previous_revision now.

Definition termination_encode (t : MeshTermination) : list byte :=
  TERMINATION_MAGIC ++ termination_fields t ++ mt_signature t.
Definition termination_decode (bytes : list byte) : result MeshTermination :=
  if negb (lenN bytes =? 228) then Err Malformed else
  magic ← slice bytes 0 4;
  if negb (bool_decide (magic = TERMINATION_MAGIC)) then Err Malformed else
  revision ← u64_at bytes 4 12;
  terminated_at ← u64_at bytes 12 20;
  authority_bytes ← slice bytes 20 164;
  authority ← authority_decode authority_bytes;
  signature ← array_at bytes 164 (lenN bytes);
  Ok (mkTermination revision terminated_at authority signature).


(** ** Well-formed values: the array lengths and integer widths the types guarantee *)

Definition join_wf (p : JoinClaimProof) : Prop :=
  jc_schema_version p <= U32_MAX /\ id_wf (jc_claim_id p) /\ key_ok (jc_ticket_digest p) /\
  key_ok (jc_identity_public_key p) /\ key_ok (jc_session_public_key p) /\ key_ok (jc_wireguard_public_key p) /\
  jc_supported_wire_major p <= U32_MAX.
Definition rotation_request_wf (p : RotationRequestProof) : Prop :=
  id_wf (rr_mesh_id p) /\ id_wf (rr_peer_id p) /\ id_wf (rr_rotation_id p) /\ id_wf (rr_current_serial p) /\
  key_ok (rr_identity_public_key p) /\ key_ok (rr_session_public_key p) /\ key_ok (rr_wireguard_public_key p).
Definition rotation_activation_wf (p : RotationActivationProof) : Prop :=
  id_wf (ra_mesh_id p) /\ id_wf (ra_peer_id p) /\ id_wf (ra_rotation_id p) /\ id_wf (ra_issued_serial p) /\
  key_ok (ra_challenge p).
Definition termination_wf (t : MeshTermination) : Prop :=
  mt_revision t <= U64_MAX /\ mt_terminated_at t <= U64_MAX /\ ac_ok (mt_authority t) /\
  ua_not_before (ac_unsigned (mt_authority t)) < ua_not_after (ac_unsigned (mt_authority t)) /\ sig_ok (mt_signature t).

(** *** Transcripts *)

Definition prefixed (l : list byte) : list byte := to_be 4 (lenN l) ++ l.
Definition join_fixed (p : JoinClaimProof) : list byte :=
  to_be 4 (jc_schema_version p) ++ id_bytes (jc_claim_id p) ++ jc_ticket_digest p ++
  jc_identity_public_key p ++ jc_session_public_key p ++ jc_wireguard_public_key p ++ to_be 4 (jc_supported_wire_major p).
Lemma join_invalid_bounds p : join_invalid p = false ->
  lenN (jc_client_version p) <= 64 /\ lenN (jc_nonce p) <= 64 /\ lenN (jc_device_name p) <= 128 /\
  lenN (jc_device_model p) <= 128 /\ lenN (jc_platform p) <= 32 /\ lenN (jc_platform_version p) <= 64.
Proof.
  unfold join_invalid. rewrite !orb_false_iff, !negb_false_iff, andb_true_iff, !N.leb_le, !N.ltb_ge. naive_solver.
Qed.
Lemma join_claim_bytes_fits output value n :
  lenN value <= n -> n <= U32_MAX -> join_claim_bytes output value = Ok (output ++ prefixed value).
Proof. intros Hv Hn. unfold join_claim_bytes, prefixed. by rewrite (proj2 (N.ltb_ge _ _)) by lia. Qed.
(** A valid claim always has a transcript; the length limits make every prefix fit. *)
Lemma join_claim_transcript_eq p :
  join_claim_transcript p =
  if join_invalid p then Err Malformed
  else Ok (JOIN_CLAIM_DOMAIN ++ join_fixed p ++ prefixed (jc_client_version p) ++ prefixed (jc_nonce p) ++
    prefixed (jc_device_name p) ++ prefixed (jc_device_model p) ++ prefixed (jc_platform p) ++ prefixed (jc_platform_version p)).
Proof.
  unfold join_claim_transcript, join_validate. destruct (join_invalid p) eqn:Hi; [done|]. cbn [negb require mbind outcome_bind].
  apply join_invalid_bounds in Hi as (H1' & H2' & H3' & H4' & H5' & H6').
  rewrite (join_claim_bytes_fits _ _ _ H1'); [|done]. cbn [mbind outcome_bind].
  rewrite (join_claim_bytes_fits _ _ _ H2'); [|done]. cbn [mbind outcome_bind].
  rewrite (join_claim_bytes_fits _ _ _ H3'); [|done]. cbn [mbind outcome_bind].
  rewrite (join_claim_bytes_fits _ _ _ H4'); [|done]. cbn [mbind outcome_bind].
  rewrite (join_claim_bytes_fits _ _ _ H5'); [|done]. cbn [mbind outcome_bind].
  rewrite (join_claim_bytes_fits _ _ _ H6'); [|done]. unfold join_fixed. by rewrite <-!app_assoc.
Qed.

(** Splits the first length-prefixed field of an equation between two concatenations. *)
Ltac next_prefixed H F :=
  apply delimits_prefixed in H as [F H]; [|unfold U32_MAX; lia|unfold U32_MAX; lia].
Lemma join_claim_transcript_inj p q t :
  join_wf p -> join_wf q -> join_claim_transcript p = Ok t -> join_claim_transcript q = Ok t -> p = q.
Proof.
  intros (Hv & Hc & Ht & Hi & Hs & Hw & Hm) (Hv' & Hc' & Ht' & Hi' & Hs' & Hw' & Hm').
  rewrite !join_claim_transcript_eq. destruct (join_invalid p) eqn:Hip; [done|]. destruct (join_invalid q) eqn:Hiq; [done|].
  apply join_invalid_bounds in Hip as (?&?&?&?&?&?), Hiq as (?&?&?&?&?&?).
  intros <-%Ok_inj He%Ok_inj. symmetry in He. apply app_field in He as [_ He]; [|done].
  unfold join_fixed in He. rewrite <-!app_assoc in He. destruct p, q. cbn in *.
  apply (delimits_be 4) in He as [E1 He]; [|by apply be4_width..]. next_field He E2. next_field He E3. next_field He E4.
  next_field He E5. next_field He E6. apply (delimits_be 4) in He as [E7 He]; [|by apply be4_width..].
  next_prefixed He E8. next_prefixed He E9. next_prefixed He E10. next_prefixed He E11. next_prefixed He E12.
  apply (delimits_inj _ _ _ _ delimits_prefixed) in He; [|unfold U32_MAX; lia|unfold U32_MAX; lia].
  apply id_bytes_inj in E2; [|done..]. by subst.
Qed.
Lemma rotation_request_transcript_inj p q t :
  rotation_request_wf p -> rotation_request_wf q ->
  rotation_request_transcript p = Ok t -> rotation_request_transcript q = Ok t -> p = q.
Proof.
  intros (Hm & Hp & Hr & Hs & Hi & Hk & Hw) (Hm' & Hp' & Hr' & Hs' & Hi' & Hk' & Hw').
  unfold rotation_request_transcript. do 2 (destruct (proof_keys_invalid _ _ _); [done|]).
  intros <-%Ok_inj He%Ok_inj. symmetry in He. apply app_field in He as [_ He]; [|done]. destruct p, q. cbn in *.
  next_field He E1. next_field He E2. next_field He E3. next_field He E4. next_field He E5. next_field He E6.
  apply id_bytes_inj in E1, E2, E3, E4; [|done..]. by subst.
Qed.
Lemma rotation_activation_transcript_inj p q :
  rotation_activation_wf p -> rotation_activation_wf q ->
  rotation_activation_transcript p = rotation_activation_transcript q -> p = q.
Proof.
  intros (Hm & Hp & Hr & Hs & Hc) (Hm' & Hp' & Hr' & Hs' & Hc') He.
  apply app_field in He as [_ He]; [|done]. destruct p, q. cbn in *.
  next_field He E1. next_field He E2. next_field He E3. next_field He E4.
  apply id_bytes_inj in E1, E2, E3, E4; [|done..]. by subst.
Qed.
Lemma termination_transcript_inj t u :
  termination_wf t -> termination_wf u -> termination_transcript t = termination_transcript u ->
  mt_revision t = mt_revision u /\ mt_terminated_at t = mt_terminated_at u /\ mt_authority t = mt_authority u.
Proof.
  intros (Hr & Ht & [Hua Hsg] & _) (Hr' & Ht' & [Hua' Hsg'] & _) He. apply app_field in He as [_ He]; [|done].
  unfold termination_fields, authority_encode in He.
  apply (delimits_be 8) in He as [E1 He]; [|by apply be8_width..]. apply (delimits_be 8) in He as [E2 He]; [|by apply be8_width..].
  destruct t as [? ? [] ?], u as [? ? [] ?]. cbn in *. apply authority_fields_inj in He as [-> ->]; [|done..]. done.
Qed.

(** *** The termination codec *)

Lemma termination_decode_encode t : termination_wf t -> termination_decode (termination_encode t) = Ok t.
Proof.
  intros (Hr & Ht & Hac & Hlt & Hg). pose proof (authority_encode_len _ Hac) as Hla.
  unfold termination_decode, termination_encode, termination_fields. rewrite <-!app_assoc.
  assert (Hmagic : lenN TERMINATION_MAGIC = 4) by done.
  rewrite !lenN_app, Hmagic, !lenN_be8, Hla, Hg. change (4 + (8 + (8 + (144 + 64)))) with 228. rewrite N.eqb_refl. cbn [negb].
  rewrite slice_here by done. cbn [mbind outcome_bind]. rewrite bool_decide_true by done. cbn [negb].
  revert Hmagic. generalize TERMINATION_MAGIC as magic. intros magic Hmagic.
  destruct t as [rev at_ c sg]. cbn [mt_revision mt_terminated_at mt_authority mt_signature] in *.
  do 2 read_next. rewrite !app_assoc.
  rewrite <-(app_assoc _ (authority_encode c) sg).
  rewrite (slice_app ((magic ++ to_be 8 rev) ++ to_be 8 at_) (authority_encode c) sg) by field_len.
  cbn [mbind outcome_bind]. rewrite authority_decode_encode by done. cbn [mbind outcome_bind].
  assert (Hs : array_at (((magic ++ to_be 8 rev) ++ to_be 8 at_) ++ authority_encode c ++ sg) 164 228 = Ok sg) by read_at.
  by rewrite Hs.
Qed.
Lemma termination_decode_Ok bytes t :
  termination_decode bytes = Ok t -> termination_encode t = bytes /\ termination_wf t.
Proof.
  unfold termination_decode. destruct (N.eqb_spec (lenN bytes) 228) as [Hl|]; [|done]. cbn [negb].
  intros (magic & Sm & Hr)%bind_Ok. case_bool_decide as Hm; cbn [negb] in Hr; [|done].
  apply bind_Ok in Hr as (rev & [Hv Sv]%u64_at_Ok & Hr); [|done]. apply bind_Ok in Hr as (at_ & [Ha Sa]%u64_at_Ok & Hr); [|done].
  apply bind_Ok in Hr as (ab & Sab & Hr). apply bind_Ok in Hr as (c & (<- & Hac & Hlt)%authority_decode_Ok & Hr).
  apply bind_Ok in Hr as (sg & [Sg Hsg]%array_at_Ok & <-%Ok_inj).
  pose proof (slice_join _ _ _ _ _ _ Sm (slice_join _ _ _ _ _ _ Sv (slice_join _ _ _ _ _ _ Sa
    (slice_join _ _ _ _ _ _ Sab Sg)))) as Hall.
  apply slice_all in Hall; [|done]. split.
  - rewrite <-Hall, Hm. unfold termination_encode, termination_fields. by rewrite <-!app_assoc.
  - split_and!; try done; try apply Hac. unfold sig_ok. cbn. rewrite Hsg, Hl. done.
Qed.
Lemma no_panic_termination_decode bytes : no_panic (termination_decode bytes).
Proof.
  unfold termination_decode. destruct (N.eqb_spec (lenN bytes) 228) as [Hl|]; [|done]. cbn [negb].
  apply no_panic_bind; [apply no_panic_slice; lia|intros magic _]. destruct (negb _); [done|].
  do 2 (apply no_panic_bind; [apply no_panic_u64_at; lia|intros ? _]).
  apply no_panic_bind; [apply no_panic_slice; lia|intros ab _].
  apply no_panic_bind; [apply no_panic_authority_decode|intros c _].
  apply no_panic_bind; [apply no_panic_array_at; lia|intros]. apply no_panic_Ok.
Qed.

Lemma termination_verify_Ok t root mesh previous now :
  termination_verify t root mesh previous now = Ok tt <->
  let key := ua_public_key (ac_unsigned (mt_authority t)) in
  previous < mt_revision t /\ mt_terminated_at t <= sat_add now 60 /\
  verify_authority root (mt_authority t) mesh (mt_terminated_at t) = Ok tt /\
  ed_valid_key key = true /\ ed_verify_strict key (termination_transcript t) (mt_signature t) = true.
Proof.
  unfold termination_verify. destruct (N.eqb_spec (mt_revision t) 0), (N.leb_spec (mt_revision t) previous); cbn [orb];
    try (split; [done|intros (? & _); lia]).
  destruct (N.ltb_spec (sat_add now 60) (mt_terminated_at t)); [split; [done|intros (_ & ? & _); lia]|].
  cbv zeta. rewrite bind_Ok. split.
  - intros ([] & Ha & Hr). apply bind_Ok in Hr as ([] & Hk & Hs). by rewrite !require_Ok in *.
  - intros (_ & _ & Ha & Hk & Hs). exists tt. split; [done|]. rewrite bind_Ok. exists tt. by rewrite !require_Ok.
Qed.

(** ** Properties *)

(** The termination encoding is exact. [termination_decode] returns [t] if and
    only if the bytes are [t]'s encoding and [t]'s fields have their types' widths
    and a valid certificate interval; every other string is refused without a
    panic. *)
Theorem termination_codec_exact bytes t :
  (termination_decode bytes = Ok t <-> termination_wf t /\ termination_encode t = bytes) /\
  no_panic (termination_decode bytes).
Proof.
  split; [|apply no_panic_termination_decode]. split; [by intros [? ?]%termination_decode_Ok|].
  intros [Hwf <-]. by apply termination_decode_encode.
Qed.

Section signing.
Context `{!Ed25519Laws} `{!StrictLaws}.

(** A mesh stays terminated. What [terminate_mesh] signs with a certified
    authority's key during that authority's validity is stored and read back
    unchanged, and is accepted ever after - also once the authority's certificate
    has expired - by every trust set of that root and mesh that has accepted only
    earlier terminations and has not revoked the authority. *)
Theorem termination_lasts root_seed seed authority revision at_ t bytes
    (Hcert : certify root_seed (ac_unsigned authority) = Ok authority)
    (Hsigned : terminate_mesh seed authority revision at_ = Ok t)
    (Hwf : termination_wf t) (Hbytes : termination_encode t = bytes) :
  exists t', termination_decode bytes = Ok t' /\
    forall trust previous now,
      ts_root trust = ed_public root_seed -> ts_mesh_id trust = ua_mesh_id (ac_unsigned authority) ->
      ac_serial authority ∉ revoked_authority_serials trust -> previous < revision -> at_ <= sat_add now 60 ->
      verify_termination t' previous now trust = Ok tt.
Proof.
  exists t. subst bytes. split; [by apply termination_decode_encode|]. intros trust previous now Hroot Hmesh Hn Hp Hnow.
  unfold terminate_mesh in Hsigned. destruct (_ || _) eqn:Hc; [done|].
  apply orb_false_iff in Hc as [_ Hkey%negb_false_iff%bool_decide_eq_true].
  apply bind_Ok in Hsigned as ([] & Ht & <-%Ok_inj). unfold validate_time in Ht.
  rewrite require_Ok, andb_true_iff, N.leb_le, N.ltb_lt in Ht.
  unfold verify_termination. cbn [mt_authority]. rewrite bool_decide_false by done.
  apply termination_verify_Ok. cbn [mt_authority mt_revision mt_terminated_at mt_signature]. split_and!; [done|done| | |].
  - rewrite Hroot, Hmesh. by eapply certify_verify.
  - rewrite Hkey. apply ed_public_valid.
  - rewrite Hkey. apply strict_verify_sign.
Qed.
End signing.

End proofs.
(** ** Examples *)

#[local] Existing Instance uuid_rfc.
#[local] Existing Instance every_key.
Definition toy_strict : StrictLib := {| ed_verify_strict key m sg := bool_decide (sg = toy_mac key m) |}.
Lemma toy_strict_laws : @StrictLaws toy_ed toy_strict.
Proof. split. intros. by apply bool_decide_eq_true. Qed.

Definition example_termination : MeshTermination :=
  mkTermination 7 150 example_active
    (toy_mac (example_key x11) (termination_transcript (mkTermination 7 150 example_active (replicate 64 x00)))).
(** The authority is valid until 200; the proof still holds at 10000. *)
Lemma termination_lasts_witness :
  exists t', termination_decode (termination_encode example_termination) = Ok t' /\
    verify_termination (H0 := toy_ed) (H2 := toy_strict) t' 6 10000 example_trust = Ok tt.
Proof.
  destruct (termination_lasts (H0 := toy_ed) (H2 := toy_strict) (H3 := toy_laws) (H4 := toy_strict_laws)
    (example_key x10) (example_key x11) example_active 7 150 example_termination (termination_encode example_termination))
    as (t' & Hd & Hv).
  - vm_compute. reflexivity.
  - vm_compute. reflexivity.
  - split; [vm_compute; discriminate|]. split; [vm_compute; discriminate|]. split; [exact example_active_ok|].
    split; [vm_compute; reflexivity|vm_compute; reflexivity].
  - reflexivity.
  - exists t'. split; [exact Hd|]. apply Hv.
    + reflexivity.
    + reflexivity.
    + apply not_elem_of_empty.
    + vm_compute. reflexivity.
    + vm_compute. discriminate.
Defined.

End Idp.
