(* ===== verification/DirectorySigning.v ===== *)
(** * Signed directory objects (crate [peerward-directory], signing.rs and transcripts.rs)

    The Peer and Relay directories, the Relay topology, policy bundles and
    revocation sets a mesh distributes: the transcripts that are signed, what the
    control plane signs, and what a verifier accepts. *)

From S2P Require Import Prelude Ordered Net Directory Topology Credentials.
From Stdlib Require Import NArith Lia.
From stdpp Require Import base tactics decidable countable numbers list sorting gmap.
From Stdlib.Init Require Import Byte.
Set Default Goal Selector "!".
Local Open Scope N_scope.

Module Sg.
Import Cred.

Notation result := (outcome Dir.DirectoryError).
Definition require (b : bool) (e : Dir.DirectoryError) : result unit := if b then Ok tt else Err e.

#[local] Arguments to_be : simpl never.
#[local] Arguments id_bytes : simpl never.
#[local] Arguments from_be : simpl never.

(** ** Relay endpoints (crate [peerward-types], endpoint.rs) *)

Inductive EndpointHost := HostIp (address : IpAddr) | HostDns (name : list byte).
#[export] Instance EndpointHost_eq_dec : EqDecision EndpointHost.
Proof. solve_decision. Defined.
Record NetworkEndpoint := mkEndpoint {
  canonical : list byte;
  ep_host : EndpointHost;
  ep_port : N;
}.
#[export] Instance NetworkEndpoint_eq_dec : EqDecision NetworkEndpoint.
Proof. solve_decision. Defined.
Definition as_str (e : NetworkEndpoint) : list byte := canonical e.
Definition MAX_RELAY_ENDPOINTS : N := 16.

(** [canonical.insert(endpoint.as_str())] over the whole list *)
Fixpoint all_inserted (seen : gset (list byte)) (l : list (list byte)) : bool :=
  match l with
  | [] => true
  | x :: l' => if bool_decide (x ∈ seen) then false else all_inserted ({[x]} ∪ seen) l'
  end.
Definition validate_endpoint_list (endpoints : list NetworkEndpoint) : bool :=
  if (lenN endpoints =? 0) || (MAX_RELAY_ENDPOINTS <? lenN endpoints) then false
  else all_inserted ∅ (as_str <$> endpoints).

(** ** Records *)

Record PeerCredentialBinding := mkBinding {
  pb_serial : CredentialSerial;
  pb_identity : list byte;
  pb_noise : list byte;
  pb_wireguard : list byte;
  pb_not_before : N;
  pb_not_after : N;
  overlap_until : option N;
  pb_signature : list byte;
}.
Record PeerEntry := mkEntry {
  pe_mesh_id : MeshId;
  pe_peer_id : PeerId;
  pe_address : IpAddr;
  pe_secondary : option IpAddr;
  pe_identity : list byte;
  pe_noise : list byte;
  pe_serial : CredentialSerial;
  accepted_credentials : list PeerCredentialBinding;
  pe_enabled : bool;
  pe_labels : gmap (list byte) (list byte);
  pe_not_after : N;
}.
Record SignedPeerEntry := mkSignedEntry { sp_entry : PeerEntry; sp_signature : list byte }.
Record PeerDirectory := mkPeers { pd_mesh_id : MeshId; pd_revision : N; pd_entries : list SignedPeerEntry }.
Record SignedPeerDirectory := mkSignedPeers { spd_directory : PeerDirectory; spd_signature : list byte }.
Record RelayEntry := mkRelay {
  re_relay_id : RelayId;
  peer_endpoints : list NetworkEndpoint;
  backbone_endpoints : list NetworkEndpoint;
  re_noise : list byte;
  re_serial : CredentialSerial;
}.
Record RelayDirectory := mkRelays { rd_mesh_id : MeshId; rd_revision : N; rd_entries : list RelayEntry }.
Record SignedRelayDirectory := mkSignedRelays { srd_directory : RelayDirectory; srd_signature : list byte }.
Record SignedRelayTopologyV1 := mkSignedTopology { st_topology : Topo.RelayTopologyV1; st_signature : list byte }.
Record PolicyBundle := mkPolicyBundle { pl_mesh_id : MeshId; pl_revision : N; pl_policy : list byte }.
Record SignedPolicyBundle := mkSignedPolicy { spl_bundle : PolicyBundle; spl_signature : list byte }.
Record RevocationBundle := mkRevocations { rv_mesh_id : MeshId; rv_revision : N; rv_serials : list CredentialSerial }.
Record SignedRevocationBundle := mkSignedRevocations { srv_bundle : RevocationBundle; srv_signature : list byte }.

(** [PeerCredentialBinding::subject] and [valid_at], [PeerEntry::addresses] and [credential] *)
Definition binding_subject (b : PeerCredentialBinding) (mesh : MeshId) (peer : PeerId) : SubjectCredential :=
  mkSubject PeerRole
    (mkUnsignedSubject (PeerSubject peer) mesh (pb_identity b) (pb_noise b) (pb_wireguard b) (pb_serial b)
      (pb_not_before b) (pb_not_after b))
    (pb_signature b).
Definition from_subject (c : SubjectCredential) (until : option N) : PeerCredentialBinding :=
  let u := sc_unsigned c in
  mkBinding (us_serial u) (identity_public_key u) (public_noise_key u) (wireguard_public_key u) (us_not_before u)
    (us_not_after u) until (sc_signature c).
Definition binding_valid_at (b : PeerCredentialBinding) (now : N) : bool :=
  (pb_not_before b <=? now) && (now <? pb_not_after b)
  && match overlap_until b with None => true | Some until => now <? until end.
Definition addresses (e : PeerEntry) : list IpAddr := pe_address e :: option_list (pe_secondary e).
Definition credential (e : PeerEntry) (serial : CredentialSerial) : option PeerCredentialBinding :=
  find (fun b => bool_decide (pb_serial b = serial)) (accepted_credentials e).

(** ** Transcripts (transcripts.rs) *)

(** [b"peerward/peer-directory-entry/v4\0"] and its siblings. *)
Definition PEER_DIRECTORY_PREFIX : list byte := PREFIX ++
  [x70; x65; x65; x72; x2d; x64; x69; x72; x65; x63; x74; x6f; x72; x79; x2d].
Definition PEER_ENTRY_DOMAIN : list byte := PEER_DIRECTORY_PREFIX ++ [x65; x6e; x74; x72; x79; x2f; x76; x34; x00].
Definition PEER_REVISION_DOMAIN : list byte := PEER_DIRECTORY_PREFIX ++
  [x72; x65; x76; x69; x73; x69; x6f; x6e; x2f; x76; x31; x00].
Definition RELAY_PREFIX : list byte := PREFIX ++ [x72; x65; x6c; x61; x79; x2d].
Definition RELAY_DOMAIN : list byte := RELAY_PREFIX ++
  [x64; x69; x72; x65; x63; x74; x6f; x72; x79; x2f; x76; x32; x00].
Definition RELAY_TOPOLOGY_DOMAIN : list byte := RELAY_PREFIX ++
  [x74; x6f; x70; x6f; x6c; x6f; x67; x79; x2f; x76; x31; x00].
Definition POLICY_DOMAIN : list byte := PREFIX ++
  [x70; x6f; x6c; x69; x63; x79; x2d; x62; x75; x6e; x64; x6c; x65; x2f; x76; x31; x00].
Definition REVOCATION_DOMAIN : list byte := PREFIX ++
  [x72; x65; x76; x6f; x63; x61; x74; x69; x6f; x6e; x2d; x62; x75; x6e; x64; x6c; x65; x2f; x76; x31; x00].

(** [put_u32] panics on a length over [u32]; the transcripts below give the bytes,
    and [sealed] the panic when one of the lengths they count does not fit. *)
Definition put_u32 (n : N) : list byte := to_be 4 n.
Definition put_bytes (v : list byte) : list byte := put_u32 (lenN v) ++ v.
Definition sealed (lengths : list N) (t : list byte) : result (list byte) :=
  if forallb (fun n => n <=? U32_MAX) lengths then Ok t else Panic.

Definition put_address (a : IpAddr) : list byte :=
  match a with V4 n => x04 :: v4_octets n | V6 n => x06 :: v6_octets n end.
Definition put_overlap (o : option N) : list byte :=
  match o with None => [x00] | Some until => x01 :: to_be 8 until end.
Definition put_binding (mesh : MeshId) (peer : PeerId) (b : PeerCredentialBinding) : list byte :=
  subject_encode (binding_subject b mesh peer) ++ put_overlap (overlap_until b).
Definition put_label (e : list byte * list byte) : list byte := put_bytes e.1 ++ put_bytes e.2.

Definition peer_entry_transcript (e : PeerEntry) : result (list byte) :=
  sealed (lenN (accepted_credentials e) :: lenN (bt_entries (pe_labels e)) ::
      concat ((fun l => [lenN l.1; lenN l.2]) <$> bt_entries (pe_labels e)))
    (PEER_ENTRY_DOMAIN ++ id_bytes (pe_mesh_id e) ++ id_bytes (pe_peer_id e) ++ put_address (pe_address e) ++
     match pe_secondary e with None => [x00] | Some a => put_address a end ++
     pe_identity e ++ pe_noise e ++ id_bytes (pe_serial e) ++
     put_u32 (lenN (accepted_credentials e)) ++ concat (put_binding (pe_mesh_id e) (pe_peer_id e) <$> accepted_credentials e) ++
     [if pe_enabled e then x01 else x00] ++
     put_u32 (lenN (bt_entries (pe_labels e))) ++ concat (put_label <$> bt_entries (pe_labels e)) ++
     to_be 8 (pe_not_after e)).

Definition put_signed_entry (s : SignedPeerEntry) : list byte := id_bytes (pe_peer_id (sp_entry s)) ++ sp_signature s.
Definition peer_revision_transcript (d : PeerDirectory) : result (list byte) :=
  sealed [lenN (pd_entries d)]
    (PEER_REVISION_DOMAIN ++ id_bytes (pd_mesh_id d) ++ to_be 8 (pd_revision d) ++
     put_u32 (lenN (pd_entries d)) ++ concat (put_signed_entry <$> pd_entries d)).

Definition put_endpoints (l : list NetworkEndpoint) : list byte :=
  put_u32 (lenN l) ++ concat ((fun e => put_bytes (as_str e)) <$> l).
Definition put_relay (e : RelayEntry) : list byte :=
  id_bytes (re_relay_id e) ++ put_endpoints (peer_endpoints e) ++ put_endpoints (backbone_endpoints e) ++
  re_noise e ++ id_bytes (re_serial e).
Definition relay_lengths (e : RelayEntry) : list N :=
  lenN (peer_endpoints e) :: lenN (backbone_endpoints e) ::
  ((fun p => lenN (as_str p)) <$> peer_endpoints e ++ backbone_endpoints e).
Definition relay_transcript (d : RelayDirectory) : result (list byte) :=
  sealed (lenN (rd_entries d) :: concat (relay_lengths <$> rd_entries d))
    (RELAY_DOMAIN ++ id_bytes (rd_mesh_id d) ++ to_be 8 (rd_revision d) ++
     put_u32 (lenN (rd_entries d)) ++ concat (put_relay <$> rd_entries d)).

Definition put_node (n : Topo.RelayTopologyNodeV1) : list byte :=
  id_bytes (Topo.relay_id n) ++ put_bytes (Topo.region n) ++ to_be 2 (Topo.routing_weight n) ++ to_be 8 (Topo.capabilities n).
Definition put_edge (e : Topo.RelayTopologyEdgeV1) : list byte :=
  id_bytes (Topo.left e) ++ id_bytes (Topo.right e) ++ to_be 4 (Topo.rtt_millis e) ++ to_be 2 (Topo.loss_permyriad e).
Definition put_mode (m : Topo.RelayTopologyMode) : byte := match m with Topo.FullMesh => x00 | Topo.Sparse => x01 end.
Definition relay_topology_transcript (t : Topo.RelayTopologyV1) : result (list byte) :=
  sealed (lenN (Topo.nodes t) :: lenN (Topo.edges t) :: ((fun n => lenN (Topo.region n)) <$> Topo.nodes t))
    (RELAY_TOPOLOGY_DOMAIN ++ id_bytes (Topo.mesh_id t) ++ to_be 8 (Topo.revision t) ++ [put_mode (Topo.mode t)] ++
     put_u32 (lenN (Topo.nodes t)) ++ concat (put_node <$> Topo.nodes t) ++
     put_u32 (lenN (Topo.edges t)) ++ concat (put_edge <$> Topo.edges t)).

Definition policy_transcript (b : PolicyBundle) : result (list byte) :=
  sealed [lenN (pl_policy b)]
    (POLICY_DOMAIN ++ id_bytes (pl_mesh_id b) ++ to_be 8 (pl_revision b) ++ put_bytes (pl_policy b)).
Definition revocation_transcript (b : RevocationBundle) : result (list byte) :=
  sealed [lenN (rv_serials b)]
    (REVOCATION_DOMAIN ++ id_bytes (rv_mesh_id b) ++ to_be 8 (rv_revision b) ++
     put_u32 (lenN (rv_serials b)) ++ concat (id_bytes <$> rv_serials b)).

Definition validate_relay_endpoints (e : RelayEntry) : result unit :=
  _ ← require (validate_endpoint_list (peer_endpoints e)) Dir.InvalidEndpoint;
  require (validate_endpoint_list (backbone_endpoints e)) Dir.InvalidEndpoint.
Fixpoint validate_relays (l : list RelayEntry) : result unit :=
  match l with [] => Ok tt | e :: l' => _ ← validate_relay_endpoints e; validate_relays l' end.

Section signing.
Context `{UuidLib} `{Ed25519Lib} `{X25519Lib}.

(** ** Signing (signing.rs, [DirectorySigningKey]) *)

Definition sign_peer (seed : list byte) (e : PeerEntry) : result SignedPeerEntry :=
  let e := mkEntry (pe_mesh_id e) (pe_peer_id e) (pe_address e) (pe_secondary e) (pe_identity e) (pe_noise e) (pe_serial e)
    (sort_by_key pb_serial (accepted_credentials e)) (pe_enabled e) (pe_labels e) (pe_not_after e) in
  t ← peer_entry_transcript e;
  Ok (mkSignedEntry e (ed_sign seed t)).
Definition entry_peer (s : SignedPeerEntry) : PeerId := pe_peer_id (sp_entry s).
Definition sign_peers (seed : list byte) (mesh : MeshId) (revision : N) (entries : list SignedPeerEntry)
    : result SignedPeerDirectory :=
  let entries := sort_by_key entry_peer entries in
  _ ← Dir.ensure_unique (entry_peer <$> entries);
  let unsigned := mkPeers mesh revision entries in
  t ← peer_revision_transcript unsigned;
  Ok (mkSignedPeers unsigned (ed_sign seed t)).
Definition sign_relays (seed : list byte) (mesh : MeshId) (revision : N) (entries : list RelayEntry)
    : result SignedRelayDirectory :=
  let entries := sort_by_key re_relay_id entries in
  _ ← Dir.ensure_unique (re_relay_id <$> entries);
  _ ← validate_relays entries;
  let directory := mkRelays mesh revision entries in
  t ← relay_transcript directory;
  Ok (mkSignedRelays directory (ed_sign seed t)).
Definition sign_relay_topology (seed : list byte) (topology : Topo.RelayTopologyV1) : result SignedRelayTopologyV1 :=
  _ ← Topo.validate topology;
  t ← relay_topology_transcript topology;
  Ok (mkSignedTopology topology (ed_sign seed t)).
Definition sign_policy (seed : list byte) (mesh : MeshId) (revision : N) (policy : list byte) : result SignedPolicyBundle :=
  let bundle := mkPolicyBundle mesh revision policy in
  t ← policy_transcript bundle;
  Ok (mkSignedPolicy bundle (ed_sign seed t)).
Definition sign_revocations (seed : list byte) (mesh : MeshId) (revision : N) (serials : list CredentialSerial)
    : result SignedRevocationBundle :=
  let serials := sort_by_key id serials in
  _ ← Dir.ensure_unique serials;
  let bundle := mkRevocations mesh revision serials in
  t ← revocation_transcript bundle;
  Ok (mkSignedRevocations bundle (ed_sign seed t)).

(** ** Verification (signing.rs, [DirectoryPublicKey]) *)

Definition verify (key transcript signature : list byte) : result unit :=
  require (ed_verify key transcript signature) Dir.InvalidSignature.

(** One turn of the loop over the accepted credentials. *)
Definition binding_check (e : PeerEntry) (b : PeerCredentialBinding) : result unit :=
  _ ← map_err (fun _ => Dir.NonCanonical) (subject_decode (subject_encode (binding_subject b (pe_mesh_id e) (pe_peer_id e))));
  require
    (negb (negb (bool_decide (pb_serial b = pe_serial e)) &&
       match overlap_until b with
       | None => true
       | Some until => (until <=? pb_not_before b) || (pb_not_after b <? until)
       end))
    Dir.NonCanonical.
Fixpoint bindings_check (e : PeerEntry) (l : list PeerCredentialBinding) : result unit :=
  match l with [] => Ok tt | b :: l' => _ ← binding_check e b; bindings_check e l' end.

Definition verify_peer (key : list byte) (signed : SignedPeerEntry) (mesh : MeshId) : result unit :=
  let e := sp_entry signed in
  if negb (bool_decide (pe_mesh_id e = mesh)) then Err Dir.WrongMesh
  else if all_zero (pe_identity e) || all_zero (pe_noise e) then Err Dir.NonCanonical
  else if match pe_secondary e with Some a => eqb (negb (is_ipv6 a)) (negb (is_ipv6 (pe_address e))) | None => false end
  then Err Dir.NonCanonical
  else if negb ((1 <=? lenN (accepted_credentials e)) && (lenN (accepted_credentials e) <=? 2)) then Err Dir.NonCanonical else
  _ ← Dir.ensure_sorted_unique (pb_serial <$> accepted_credentials e);
  _ ← Dir.ensure_unique (pb_wireguard <$> accepted_credentials e);
  active ← ok_or (credential e (pe_serial e)) Dir.NonCanonical;
  if negb (bool_decide (pb_identity active = pe_identity e)) || negb (bool_decide (pb_noise active = pe_noise e))
     || negb (pb_not_after active =? pe_not_after e) || bool_decide (is_Some (overlap_until active))
  then Err Dir.NonCanonical else
  _ ← bindings_check e (accepted_credentials e);
  t ← peer_entry_transcript e;
  verify key t (sp_signature signed).
Fixpoint verify_each_peer (key : list byte) (mesh : MeshId) (l : list SignedPeerEntry) : result unit :=
  match l with [] => Ok tt | s :: l' => _ ← verify_peer key s mesh; verify_each_peer key mesh l' end.

Definition verify_peers (key : list byte) (signed : SignedPeerDirectory) (mesh : MeshId) (accepted : option N) : result unit :=
  let d := spd_directory signed in
  _ ← Dir.ensure_scope_and_revision (pd_mesh_id d) mesh (pd_revision d) accepted;
  _ ← Dir.ensure_sorted_unique (entry_peer <$> pd_entries d);
  _ ← Dir.ensure_unique (concat ((fun s => pb_wireguard <$> accepted_credentials (sp_entry s)) <$> pd_entries d));
  _ ← Dir.ensure_unique (concat ((fun s => addresses (sp_entry s)) <$> pd_entries d));
  _ ← verify_each_peer key mesh (pd_entries d);
  t ← peer_revision_transcript d;
  verify key t (spd_signature signed).
Definition verify_relays (key : list byte) (signed : SignedRelayDirectory) (mesh : MeshId) (accepted : option N) : result unit :=
  let d := srd_directory signed in
  _ ← Dir.ensure_scope_and_revision (rd_mesh_id d) mesh (rd_revision d) accepted;
  _ ← Dir.ensure_sorted_unique (re_relay_id <$> rd_entries d);
  _ ← validate_relays (rd_entries d);
  t ← relay_transcript d;
  verify key t (srd_signature signed).
Definition verify_relay_topology (key : list byte) (signed : SignedRelayTopologyV1) (mesh : MeshId) (accepted : option N)
    : result unit :=
  let d := st_topology signed in
  _ ← Dir.ensure_scope_and_revision (Topo.mesh_id d) mesh (Topo.revision d) accepted;
  _ ← Topo.validate d;
  t ← relay_topology_transcript d;
  verify key t (st_signature signed).
Definition verify_policy (key : list byte) (signed : SignedPolicyBundle) (mesh : MeshId) (accepted : option N) : result unit :=
  let b := spl_bundle signed in
  _ ← Dir.ensure_scope_and_revision (pl_mesh_id b) mesh (pl_revision b) accepted;
  t ← policy_transcript b;
  verify key t (spl_signature signed).
Definition verify_revocations (key : list byte) (signed : SignedRevocationBundle) (mesh : MeshId) (accepted : option N)
    : result unit :=
  let b := srv_bundle signed in
  _ ← Dir.ensure_scope_and_revision (rv_mesh_id b) mesh (rv_revision b) accepted;
  _ ← Dir.ensure_sorted_unique (rv_serials b);
  t ← revocation_transcript b;
  verify key t (srv_signature signed).


(** ** Well-formed values: the array lengths and integer widths the types guarantee *)

Definition overlap_wf (o : option N) : Prop := match o with Some v => v <= U64_MAX | None => True end.
Definition binding_wf (b : PeerCredentialBinding) : Prop :=
  id_wf (pb_serial b) /\ key_ok (pb_identity b) /\ key_ok (pb_noise b) /\ key_ok (pb_wireguard b) /\
  pb_not_before b <= U64_MAX /\ pb_not_after b <= U64_MAX /\ overlap_wf (overlap_until b) /\ sig_ok (pb_signature b).
Definition optional_address_wf (o : option IpAddr) : Prop := match o with Some a => IpAddr_wf a | None => True end.
Definition entry_wf (e : PeerEntry) : Prop :=
  id_wf (pe_mesh_id e) /\ id_wf (pe_peer_id e) /\ IpAddr_wf (pe_address e) /\ optional_address_wf (pe_secondary e) /\
  key_ok (pe_identity e) /\ key_ok (pe_noise e) /\ id_wf (pe_serial e) /\ Forall binding_wf (accepted_credentials e) /\
  pe_not_after e <= U64_MAX.
Definition signed_entry_wf (s : SignedPeerEntry) : Prop := entry_wf (sp_entry s) /\ sig_ok (sp_signature s).
Definition peers_wf (d : PeerDirectory) : Prop :=
  id_wf (pd_mesh_id d) /\ pd_revision d <= U64_MAX /\ Forall signed_entry_wf (pd_entries d).
Definition relay_wf (e : RelayEntry) : Prop := id_wf (re_relay_id e) /\ key_ok (re_noise e) /\ id_wf (re_serial e).
Definition relays_wf (d : RelayDirectory) : Prop :=
  id_wf (rd_mesh_id d) /\ rd_revision d <= U64_MAX /\ Forall relay_wf (rd_entries d).
Definition node_wf (n : Topo.RelayTopologyNodeV1) : Prop :=
  id_wf (Topo.relay_id n) /\ Topo.routing_weight n < 256 ^ 2 /\ Topo.capabilities n <= U64_MAX.
Definition edge_wf (e : Topo.RelayTopologyEdgeV1) : Prop :=
  id_wf (Topo.left e) /\ id_wf (Topo.right e) /\ Topo.rtt_millis e <= U32_MAX /\ Topo.loss_permyriad e < 256 ^ 2.
Definition topology_wf (t : Topo.RelayTopologyV1) : Prop :=
  id_wf (Topo.mesh_id t) /\ Topo.revision t <= U64_MAX /\ Forall node_wf (Topo.nodes t) /\ Forall edge_wf (Topo.edges t).
Definition policy_wf (b : PolicyBundle) : Prop := id_wf (pl_mesh_id b) /\ pl_revision b <= U64_MAX.
Definition revocations_wf (b : RevocationBundle) : Prop :=
  id_wf (rv_mesh_id b) /\ rv_revision b <= U64_MAX /\ Forall id_wf (rv_serials b).

(** *** Self-delimiting parts *)

Lemma sealed_Ok ls t r : sealed ls t = Ok r <-> Forall (fun n => n <= U32_MAX) ls /\ r = t.
Proof.
  unfold sealed. destruct (forallb _ ls) eqn:Hf.
  - rewrite forallb_forall in Hf. split; [intros <-%Ok_inj|by intros [_ ->]]. split; [|done].
    apply Forall_forall. intros n Hn%list_elem_of_In. by apply N.leb_le, Hf.
  - split; [done|]. intros [HF _]. apply not_true_iff_false in Hf. destruct Hf. apply forallb_forall.
    intros n Hn%list_elem_of_In. rewrite Forall_forall in HF. by apply N.leb_le, HF.
Qed.
Lemma cons_field {A} (x y : A) a b : x :: a = y :: b -> x = y /\ a = b.
Proof. by injection 1. Qed.
Lemma delimits_id : delimits id_wf id_bytes.
Proof. intros i j a b Hi Hj He. next_field He E. split; [by apply id_bytes_inj|done]. Qed.
Lemma delimits_u64 : delimits (fun v => v <= U64_MAX) (to_be 8).
Proof. intros x y a b Hx Hy. by apply (delimits_be 8); apply be8_width. Qed.
Lemma delimits_u32 : delimits (fun v => v <= U32_MAX) (to_be 4).
Proof. intros x y a b Hx Hy. by apply (delimits_be 4); apply be4_width. Qed.
Lemma delimits_text : delimits (fun v => lenN v <= U32_MAX) put_bytes.
Proof. exact delimits_prefixed. Qed.
(** Reads the first part off an equation between two concatenations. *)
Ltac peel H F :=
  first
    [ apply delimits_id in H as [F H]; [|done..]
    | apply delimits_text in H as [F H]; [|done..]
    | apply delimits_u64 in H as [F H]; [|done..]
    | apply delimits_u32 in H as [F H]; [|done..] ].

Lemma delimits_address : delimits IpAddr_wf put_address.
Proof.
  intros [n|n] [m|m] a b Hn Hm He; try discriminate He; apply cons_field in He as [_ He].
  - apply (delimits_be 4) in He as [-> ->]; [done|exact Hn|exact Hm].
  - apply (delimits_be 16) in He as [-> ->]; [done|exact Hn|exact Hm].
Qed.
Lemma delimits_secondary :
  delimits optional_address_wf (fun o => match o with None => [x00] | Some a => put_address a end).
Proof.
  intros [x|] [y|] a b Hx Hy He.
  - by apply delimits_address in He as [-> ->].
  - destruct x; discriminate He.
  - destruct y; discriminate He.
  - by injection He as ->.
Qed.
Lemma delimits_overlap : delimits overlap_wf put_overlap.
Proof.
  intros [x|] [y|] a b Hx Hy He; try discriminate He.
  - apply cons_field in He as [_ He]. by apply delimits_u64 in He as [-> ->].
  - by injection He as ->.
Qed.
Lemma delimits_binding mesh peer : id_wf mesh -> id_wf peer -> delimits binding_wf (put_binding mesh peer).
Proof.
  intros Hm Hp x y a b (Hs & Hi & Hn & Hw & Hb & Ha & Ho & Hg) (Hs' & Hi' & Hn' & Hw' & Hb' & Ha' & Ho' & Hg') He.
  destruct x as [s i n w nb na o g], y as [s' i' n' w' nb' na' o' g'].
  unfold put_binding, subject_encode, subject_fields in He. cbn -[app put_overlap] in *. rewrite <-!app_assoc in He.
  apply app_inv_head in He. peel He E1. peel He E2. next_field He E3. next_field He E4. next_field He E5.
  peel He E6. peel He E7. peel He E8. next_field He E9. apply delimits_overlap in He as [-> ->]; [|done..]. by subst.
Qed.
Lemma delimits_label : delimits (fun e => lenN e.1 <= U32_MAX /\ lenN e.2 <= U32_MAX) put_label.
Proof.
  intros [k v] [k' v'] a b [Hk Hv] [Hk' Hv'] He. unfold put_label in He. cbn [fst snd] in *. rewrite <-!app_assoc in He.
  peel He E1. peel He E2. by subst.
Qed.
Lemma labels_fit m :
  Forall (fun n => n <= U32_MAX) (concat ((fun l => [lenN l.1; lenN l.2]) <$> bt_entries m)) ->
  Forall (fun e : list byte * list byte => lenN e.1 <= U32_MAX /\ lenN e.2 <= U32_MAX) (bt_entries m).
Proof.
  induction (bt_entries m) as [|e l IH]; cbn; [done|]. rewrite !Forall_cons. intros (Hk & Hv & Hl). split; [done|by apply IH].
Qed.
Lemma bt_entries_inj (m m' : gmap (list byte) (list byte)) : bt_entries m = bt_entries m' -> m = m'.
Proof. intros He. apply map_to_list_inj. by rewrite <-!bt_entries_perm, He. Qed.

Lemma list_field {A} P (f : A -> list byte) x y a b :
  delimits P f -> lenN x <= U32_MAX -> lenN y <= U32_MAX -> Forall P x -> Forall P y ->
  put_u32 (lenN x) ++ concat (f <$> x) ++ a = put_u32 (lenN y) ++ concat (f <$> y) ++ b -> x = y /\ a = b.
Proof. intros Hf Hx Hy HFx HFy He. rewrite !app_assoc in He. by apply (delimits_list P f Hf x y a b). Qed.

Lemma list_end {A} P (f : A -> list byte) x y :
  delimits P f -> lenN x <= U32_MAX -> lenN y <= U32_MAX -> Forall P x -> Forall P y ->
  put_u32 (lenN x) ++ concat (f <$> x) = put_u32 (lenN y) ++ concat (f <$> y) -> x = y.
Proof. intros Hf Hx Hy HFx HFy He. apply (list_field P f x y [] []); try done. by rewrite !app_nil_r. Qed.

(** *** The transcripts bind the objects they are over *)

Lemma peer_entry_transcript_inj e f t :
  entry_wf e -> entry_wf f -> peer_entry_transcript e = Ok t -> peer_entry_transcript f = Ok t -> e = f.
Proof.
  intros (Hm & Hp & Ha & H2' & Hi & Hn & Hs & Hc & Hna) (Hm' & Hp' & Ha' & H2'' & Hi' & Hn' & Hs' & Hc' & Hna') He Hf.
  apply sealed_Ok in He as [Hl ->], Hf as [Hl' He].
  apply Forall_cons in Hl as [Hl1 [Hl2 Hl3%labels_fit]%Forall_cons], Hl' as [Hl1' [Hl2' Hl3'%labels_fit]%Forall_cons].
  apply app_field in He as [_ He]; [|done]. peel He E1. peel He E2. apply delimits_address in He as [E3 He]; [|done..].
  apply delimits_secondary in He as [E4 He]; [|done..]. next_field He E5. next_field He E6. peel He E7.
  rewrite <-E1, <-E2 in He. apply (list_field binding_wf) in He as [E8 He]; [|by apply delimits_binding|done..].
  apply cons_field in He as [E9 He].
  apply (list_field _ put_label _ _ _ _ delimits_label) in He as [E10%bt_entries_inj He]; [|done..].
  apply (delimits_inj _ _ _ _ delimits_u64) in He; [|done..].
  destruct e, f. cbn in *. destruct pe_enabled0, pe_enabled1; try discriminate E9; by subst.
Qed.

Definition entry_view (s : SignedPeerEntry) : PeerId * list byte := (pe_peer_id (sp_entry s), sp_signature s).
Definition put_view (v : PeerId * list byte) : list byte := id_bytes v.1 ++ v.2.
Lemma put_views (l : list SignedPeerEntry) : put_signed_entry <$> l = put_view <$> (entry_view <$> l).
Proof. by rewrite <-list_fmap_compose. Qed.
Lemma lenN_fmap {A B} (f : A -> B) (l : list A) : lenN (f <$> l) = lenN l.
Proof. unfold lenN. by rewrite length_fmap. Qed.
Lemma peer_revision_transcript_inj d e t :
  peers_wf d -> peers_wf e -> peer_revision_transcript d = Ok t -> peer_revision_transcript e = Ok t ->
  pd_mesh_id d = pd_mesh_id e /\ pd_revision d = pd_revision e /\ entry_view <$> pd_entries d = entry_view <$> pd_entries e.
Proof.
  intros (Hm & Hr & Hs) (Hm' & Hr' & Hs') Hd He. apply sealed_Ok in Hd as [Hl ->], He as [Hl' He].
  apply Forall_cons in Hl as [Hl _], Hl' as [Hl' _]. apply app_field in He as [_ He]; [|done]. peel He E1. peel He E2.
  split_and!; [done|done|]. apply (list_end (fun v => id_wf v.1 /\ lenN v.2 = 64) put_view).
  - intros [i g] [j h] a b [Hi Hg] [Hj Hh] Hv. unfold put_view in Hv. cbn [fst snd] in *. rewrite <-!app_assoc in Hv.
    peel Hv F1. apply app_field in Hv as [-> ->]; [by subst|congruence].
  - by rewrite lenN_fmap.
  - by rewrite lenN_fmap.
  - apply Forall_fmap. eapply Forall_impl; [exact Hs|]. intros s [(_ & Hp & _) Hg]. done.
  - apply Forall_fmap. eapply Forall_impl; [exact Hs'|]. intros s [(_ & Hp & _) Hg]. done.
  - by rewrite !lenN_fmap, <-!put_views.
Qed.

(** Endpoints are signed by their canonical strings. *)
Definition relay_view (e : RelayEntry) : RelayId * list (list byte) * list (list byte) * list byte * CredentialSerial :=
  (re_relay_id e, as_str <$> peer_endpoints e, as_str <$> backbone_endpoints e, re_noise e, re_serial e).
Definition put_relay_view (v : RelayId * list (list byte) * list (list byte) * list byte * CredentialSerial) : list byte :=
  let '(i, ps, bs, n, s) := v in
  id_bytes i ++ (put_u32 (lenN ps) ++ concat (put_bytes <$> ps)) ++ (put_u32 (lenN bs) ++ concat (put_bytes <$> bs)) ++
  n ++ id_bytes s.
Definition relay_view_fits (v : RelayId * list (list byte) * list (list byte) * list byte * CredentialSerial) : Prop :=
  let '(i, ps, bs, n, s) := v in
  id_wf i /\ (lenN ps <= U32_MAX /\ Forall (fun x => lenN x <= U32_MAX) ps) /\
  (lenN bs <= U32_MAX /\ Forall (fun x => lenN x <= U32_MAX) bs) /\ key_ok n /\ id_wf s.
Lemma delimits_relay_view : delimits relay_view_fits put_relay_view.
Proof.
  intros [[[[i ps] bs] n] s] [[[[i' ps'] bs'] n'] s'] a b (Hi & [Hp HFp] & [Hb HFb] & Hn & Hs) (Hi' & [Hp' HFp'] & [Hb' HFb'] & Hn' & Hs') He.
  unfold put_relay_view in He. rewrite <-!app_assoc in He. peel He E1.
  apply (list_field _ put_bytes _ _ _ _ delimits_text) in He as [E2 He]; [|done..].
  apply (list_field _ put_bytes _ _ _ _ delimits_text) in He as [E3 He]; [|done..].
  next_field He E4. peel He E5. by subst.
Qed.
Lemma put_relay_views (l : list RelayEntry) : put_relay <$> l = put_relay_view <$> (relay_view <$> l).
Proof.
  rewrite <-list_fmap_compose. apply list_fmap_ext. intros i e _. unfold put_relay, put_endpoints. cbn.
  by rewrite !lenN_fmap, <-!list_fmap_compose.
Qed.
Lemma relay_views_fit l :
  Forall relay_wf l -> Forall (fun n => n <= U32_MAX) (concat (relay_lengths <$> l)) ->
  Forall relay_view_fits (relay_view <$> l).
Proof.
  intros Hl. induction Hl as [|e l (Hi & Hn & Hs) _ IH]; cbn; [constructor|]. rewrite !Forall_cons, Forall_app, Forall_fmap, Forall_app.
  intros (Hp & Hb & [Hps Hbs] & Hr). split; [|by apply IH]. cbn. rewrite !lenN_fmap, !Forall_fmap. done.
Qed.
Lemma relay_transcript_inj d e t :
  relays_wf d -> relays_wf e -> relay_transcript d = Ok t -> relay_transcript e = Ok t ->
  rd_mesh_id d = rd_mesh_id e /\ rd_revision d = rd_revision e /\ relay_view <$> rd_entries d = relay_view <$> rd_entries e.
Proof.
  intros (Hm & Hr & Hs) (Hm' & Hr' & Hs') Hd He. apply sealed_Ok in Hd as [Hl ->], He as [Hl' He].
  apply Forall_cons in Hl as [Hl HL%relay_views_fit], Hl' as [Hl' HL'%relay_views_fit]; [|done..].
  apply app_field in He as [_ He]; [|done]. peel He E1. peel He E2. rewrite !put_relay_views in He.
  split_and!; [done|done|]. apply (list_end _ _ _ _ delimits_relay_view); try done; by rewrite ?lenN_fmap.
Qed.

Lemma delimits_node : delimits (fun n => node_wf n /\ lenN (Topo.region n) <= U32_MAX) put_node.
Proof.
  intros [i r w c] [i' r' w' c'] a b [(Hi & Hw & Hc) Hr] [(Hi' & Hw' & Hc') Hr'] He. unfold put_node in He. cbn in *.
  rewrite <-!app_assoc in He. peel He E1. peel He E2. apply (delimits_be 2) in He as [E3 He]; [|done..]. peel He E4. by subst.
Qed.
Lemma delimits_edge : delimits edge_wf put_edge.
Proof.
  intros [l r t o] [l' r' t' o'] a b (Hl & Hr & Ht & Ho) (Hl' & Hr' & Ht' & Ho') He. unfold put_edge in He. cbn in *.
  rewrite <-!app_assoc in He. peel He E1. peel He E2. peel He E3. apply (delimits_be 2) in He as [E4 He]; [|done..]. by subst.
Qed.
Lemma relay_topology_transcript_inj d e t :
  topology_wf d -> topology_wf e -> relay_topology_transcript d = Ok t -> relay_topology_transcript e = Ok t -> d = e.
Proof.
  intros (Hm & Hr & Hn & Hg) (Hm' & Hr' & Hn' & Hg') Hd He. apply sealed_Ok in Hd as [Hl ->], He as [Hl' He].
  apply Forall_cons in Hl as [Hl1 [Hl2 Hl3]%Forall_cons], Hl' as [Hl1' [Hl2' Hl3']%Forall_cons].
  rewrite Forall_fmap in Hl3, Hl3'. apply app_field in He as [_ He]; [|done]. peel He E1. peel He E2.
  apply cons_field in He as [E3 He].
  apply (list_field _ put_node _ _ _ _ delimits_node) in He as [E4 He]; [|done|done|by apply Forall_and|by apply Forall_and].
  apply (list_end _ _ _ _ delimits_edge) in He; [|done..].
  destruct d as [? ? [] ? ?], e as [? ? [] ? ?]; try discriminate E3; cbn in *; by subst.
Qed.
Lemma policy_transcript_inj d e t :
  policy_wf d -> policy_wf e -> policy_transcript d = Ok t -> policy_transcript e = Ok t -> d = e.
Proof.
  intros [Hm Hr] [Hm' Hr'] Hd He. apply sealed_Ok in Hd as [Hl ->], He as [Hl' He].
  apply Forall_cons in Hl as [Hl _], Hl' as [Hl' _]. apply app_field in He as [_ He]; [|done]. peel He E1. peel He E2.
  apply (delimits_inj _ _ _ _ delimits_text) in He; [|done..]. destruct d, e. cbn in *. by subst.
Qed.
Lemma revocation_transcript_inj d e t :
  revocations_wf d -> revocations_wf e -> revocation_transcript d = Ok t -> revocation_transcript e = Ok t -> d = e.
Proof.
  intros (Hm & Hr & Hs) (Hm' & Hr' & Hs') Hd He. apply sealed_Ok in Hd as [Hl ->], He as [Hl' He].
  apply Forall_cons in Hl as [Hl _], Hl' as [Hl' _]. apply app_field in He as [_ He]; [|done]. peel He E1. peel He E2.
  apply (list_end _ _ _ _ delimits_id) in He; [|done..]. destruct d, e. cbn in *. by subst.
Qed.

(** *** What verification checks *)

Lemma directory_require_Ok b e x : require b e = Ok x <-> b = true.
Proof. destruct x, b; done. Qed.
Lemma all_inserted_spec seen l :
  all_inserted seen l = true <-> NoDup l /\ forall x, x ∈ l -> x ∉ seen.
Proof.
  revert seen. induction l as [|x l IH]; intros seen; cbn [all_inserted]; [split; [split; [constructor|by intros ? ?%not_elem_of_nil]|done]|].
  rewrite NoDup_cons. setoid_rewrite elem_of_cons. case_bool_decide as Hx; [naive_solver|]. rewrite IH. set_solver.
Qed.
Lemma validate_endpoint_list_spec l :
  validate_endpoint_list l = true <-> 0 < lenN l <= MAX_RELAY_ENDPOINTS /\ NoDup (as_str <$> l).
Proof.
  unfold validate_endpoint_list. destruct (N.eqb_spec (lenN l) 0), (N.ltb_spec MAX_RELAY_ENDPOINTS (lenN l)); cbn [orb];
    try (split; [done|lia]). rewrite all_inserted_spec. split; [intros [? _]; split; [lia|done]|intros [_ ?]; split; [done|set_solver]].
Qed.
Lemma scope_Ok actual expected revision accepted :
  Dir.ensure_scope_and_revision actual expected revision accepted = Ok tt <->
  actual = expected /\ forall r, accepted = Some r -> r < revision.
Proof.
  unfold Dir.ensure_scope_and_revision. case_bool_decide; cbn [negb]; [|naive_solver].
  destruct accepted as [r|]; [|naive_solver]. destruct (N.leb_spec revision r); split; try done.
  - intros [_ Hr]. specialize (Hr r eq_refl). lia.
  - intros _. split; [done|]. by intros ? [= <-].
Qed.
Lemma verify_Ok key t sg : verify key t sg = Ok tt <-> ed_verify key t sg = true.
Proof. apply directory_require_Ok. Qed.

(** An overlap deadline inside the validity of the credential it extends. *)
Definition overlap_valid (b : PeerCredentialBinding) : Prop :=
  exists until, overlap_until b = Some until /\ pb_not_before b < until <= pb_not_after b.
Definition binding_accepted (e : PeerEntry) (b : PeerCredentialBinding) : Prop :=
  is_ok (subject_decode (subject_encode (binding_subject b (pe_mesh_id e) (pe_peer_id e)))) = true /\
  (pb_serial b <> pe_serial e -> overlap_valid b).
Lemma binding_check_Ok e b : binding_check e b = Ok tt <-> binding_accepted e b.
Proof.
  unfold binding_check, binding_accepted, overlap_valid. destruct (subject_decode _) as [c|x|]; cbn [map_err mbind outcome_bind is_ok];
    [|naive_solver..]. rewrite directory_require_Ok, negb_true_iff. case_bool_decide; cbn [negb andb]; [naive_solver|].
  destruct (overlap_until b) as [u|]; [|split; [done|]; intros [_ Ho]; by destruct (Ho ltac:(done)) as (? & ? & _)].
  rewrite orb_false_iff, N.leb_gt, N.ltb_ge. split; [naive_solver|].
  intros [_ Ho]. destruct (Ho ltac:(done)) as (u' & [= ->] & ?). done.
Qed.
Lemma bindings_check_Ok e l : bindings_check e l = Ok tt <-> Forall (binding_accepted e) l.
Proof.
  induction l as [|b l IH]; cbn [bindings_check]; [split; [constructor|done]|]. rewrite bind_Ok, Forall_cons. split.
  - intros ([] & Hb%binding_check_Ok & Hl%IH). done.
  - intros [Hb%binding_check_Ok Hl%IH]. by exists tt.
Qed.

(** The generation an entry's own fields describe. *)
Definition active_binding (e : PeerEntry) (b : PeerCredentialBinding) : Prop :=
  b ∈ accepted_credentials e /\ pb_serial b = pe_serial e /\ pb_identity b = pe_identity e /\ pb_noise b = pe_noise e /\
  pb_not_after b = pe_not_after e /\ overlap_until b = None.
Definition families_differ (e : PeerEntry) : Prop :=
  match pe_secondary e with Some a => is_ipv6 a <> is_ipv6 (pe_address e) | None => True end.
Definition entry_accepted (e : PeerEntry) (mesh : MeshId) : Prop :=
  pe_mesh_id e = mesh /\ all_zero (pe_identity e) = false /\ all_zero (pe_noise e) = false /\ families_differ e /\
  1 <= lenN (accepted_credentials e) <= 2 /\ StronglySorted Dir.lt_of (pb_serial <$> accepted_credentials e) /\
  NoDup (pb_wireguard <$> accepted_credentials e) /\ (exists b, active_binding e b) /\
  Forall (binding_accepted e) (accepted_credentials e).
Definition authenticates (key : list byte) (transcript : result (list byte)) (sg : list byte) : Prop :=
  exists t, transcript = Ok t /\ ed_verify key t sg = true.

Lemma sorted_find {A K} `{EqDecision K} `{CompareLaws K} (f : A -> K) l k b :
  StronglySorted Dir.lt_of (f <$> l) -> b ∈ l -> f b = k -> find (fun x => bool_decide (f x = k)) l = Some b.
Proof.
  induction l as [|x l IH]; cbn; [by intros _ ?%not_elem_of_nil|]. intros [Hl Hx]%StronglySorted_inv Hin Hk.
  apply elem_of_cons in Hin as [-> | Hin]; [by rewrite bool_decide_true|].
  rewrite bool_decide_false; [by apply IH|]. intros Hxk. rewrite Forall_fmap, Forall_forall in Hx.
  specialize (Hx b Hin). cbn in Hx. unfold Dir.lt_of in Hx. rewrite Hk, <-Hxk, leb_of_refl in Hx. done.
Qed.
Lemma find_Some_elem {A} (f : A -> bool) l x : find f l = Some x -> x ∈ l /\ f x = true.
Proof. intros [Hin Hf]%find_some. by apply list_elem_of_In in Hin. Qed.
Lemma eqb_true a b : eqb a b = true <-> a = b.
Proof. by destruct a, b. Qed.
Lemma ensure_unique_Ok {K} `{Countable K} (l : list K) : Dir.ensure_unique l = Ok tt <-> NoDup l.
Proof. rewrite Dir.ensure_unique_spec. by case_bool_decide. Qed.

Lemma active_check_Ok e rest :
  StronglySorted Dir.lt_of (pb_serial <$> accepted_credentials e) ->
  (active ← ok_or (credential e (pe_serial e)) Dir.NonCanonical;
   if negb (bool_decide (pb_identity active = pe_identity e)) || negb (bool_decide (pb_noise active = pe_noise e))
      || negb (pb_not_after active =? pe_not_after e) || bool_decide (is_Some (overlap_until active))
   then Err Dir.NonCanonical else rest) = Ok tt <->
  (exists b, active_binding e b) /\ rest = Ok tt.
Proof.
  intros Hs. unfold active_binding, credential. split.
  - intros (b & Hf & Hr)%bind_Ok. destruct (find _ _) as [b'|] eqn:He; [|done]. apply Ok_inj in Hf as ->.
    apply find_Some_elem in He as [Hin Hk%bool_decide_eq_true].
    destruct (_ || _) eqn:Hc; [done|]. rewrite !orb_false_iff, !negb_false_iff, !bool_decide_eq_true, N.eqb_eq, bool_decide_eq_false in Hc.
    destruct Hc as [[[Hi Hn] Ha] Ho]. split; [|done]. exists b. split_and!; try done.
    destruct (overlap_until b); [destruct Ho; eauto|done].
  - intros [(b & Hin & Hk & Hi & Hn & Ha & Ho) Hr].
    rewrite (sorted_find pb_serial _ (pe_serial e) b Hs Hin Hk). cbn [ok_or mbind outcome_bind].
    rewrite Hi, Hn, Ha, Ho, !bool_decide_true, N.eqb_refl by done. cbn [negb orb].
    rewrite bool_decide_false; [done|]. by intros [? ?].
Qed.
Lemma verify_peer_Ok key s mesh :
  verify_peer key s mesh = Ok tt <->
  entry_accepted (sp_entry s) mesh /\ authenticates key (peer_entry_transcript (sp_entry s)) (sp_signature s).
Proof.
  unfold verify_peer, entry_accepted, families_differ, authenticates. set (e := sp_entry s).
  case_bool_decide; cbn [negb]; [|naive_solver]. destruct (all_zero (pe_identity e)); cbn [orb]; [naive_solver|].
  destruct (all_zero (pe_noise e)); [naive_solver|].
  destruct (match pe_secondary e with Some a => _ | None => _ end) eqn:Hf.
  { split; [done|]. destruct (pe_secondary e) as [a|]; [|done]. apply eqb_true in Hf.
    intros [(_ & _ & _ & Hd & _) _]. destruct Hd. by destruct (is_ipv6 a), (is_ipv6 (pe_address e)). }
  assert (Hfam : match pe_secondary e with Some a => is_ipv6 a <> is_ipv6 (pe_address e) | None => True end).
  { destruct (pe_secondary e) as [a|]; [|done]. by destruct (is_ipv6 a), (is_ipv6 (pe_address e)). }
  destruct (N.leb_spec 1 (lenN (accepted_credentials e))), (N.leb_spec (lenN (accepted_credentials e)) 2); cbn [andb negb];
    try (split; [done|intros [(_ & _ & _ & _ & ? & _) _]; lia]).
  rewrite bind_Ok. split.
  - intros ([] & Hs%Dir.ensure_sorted_unique_Ok & Hr). apply bind_Ok in Hr as ([] & Hu%ensure_unique_Ok & Hr).
    apply active_check_Ok in Hr as [Hact Hr]; [|done]. apply bind_Ok in Hr as ([] & Hb%bindings_check_Ok & Hr).
    apply bind_Ok in Hr as (t & Ht & Hv%verify_Ok). split_and!; try done. by exists t.
  - intros [(_ & _ & _ & _ & _ & Hs & Hu & Hact & Hb) (t & Ht & Hv)]. exists tt.
    split; [by apply Dir.ensure_sorted_unique_Ok|]. apply bind_Ok. exists tt. split; [by apply ensure_unique_Ok|].
    apply active_check_Ok; [done|]. split; [done|]. apply bind_Ok. exists tt. split; [by apply bindings_check_Ok|].
    apply bind_Ok. exists t. split; [done|by apply verify_Ok].
Qed.
Lemma verify_each_peer_Ok key mesh l :
  verify_each_peer key mesh l = Ok tt <-> Forall (fun s => verify_peer key s mesh = Ok tt) l.
Proof.
  induction l as [|s l IH]; cbn [verify_each_peer]; [split; [constructor|done]|]. rewrite bind_Ok, Forall_cons, <-IH.
  split; [by intros ([] & ? & ?)|intros [? ?]; by exists tt].
Qed.

Definition wireguard_keys (d : PeerDirectory) : list (list byte) :=
  concat ((fun s => pb_wireguard <$> accepted_credentials (sp_entry s)) <$> pd_entries d).
Definition all_addresses (d : PeerDirectory) : list IpAddr := concat ((fun s => addresses (sp_entry s)) <$> pd_entries d).
Definition newer (accepted : option N) (revision : N) : Prop := forall r, accepted = Some r -> r < revision.
Lemma verify_peers_Ok key signed mesh accepted :
  verify_peers key signed mesh accepted = Ok tt <->
  let d := spd_directory signed in
  pd_mesh_id d = mesh /\ newer accepted (pd_revision d) /\ StronglySorted Dir.lt_of (entry_peer <$> pd_entries d) /\
  NoDup (wireguard_keys d) /\ NoDup (all_addresses d) /\
  Forall (fun s => verify_peer key s mesh = Ok tt) (pd_entries d) /\
  authenticates key (peer_revision_transcript d) (spd_signature signed).
Proof.
  unfold verify_peers, wireguard_keys, all_addresses, authenticates, newer. cbv zeta. rewrite bind_Ok. split.
  - intros ([] & [Hm Hr]%scope_Ok & H1'). apply bind_Ok in H1' as ([] & Hs%Dir.ensure_sorted_unique_Ok & H1').
    apply bind_Ok in H1' as ([] & Hw%ensure_unique_Ok & H1'). apply bind_Ok in H1' as ([] & Ha%ensure_unique_Ok & H1').
    apply bind_Ok in H1' as ([] & He%verify_each_peer_Ok & H1'). apply bind_Ok in H1' as (t & Ht & Hv%verify_Ok).
    split_and!; try done. by exists t.
  - intros (Hm & Hr & Hs & Hw & Ha & He & t & Ht & Hv). exists tt. split; [by apply scope_Ok|].
    apply bind_Ok. exists tt. split; [by apply Dir.ensure_sorted_unique_Ok|].
    apply bind_Ok. exists tt. split; [by apply ensure_unique_Ok|]. apply bind_Ok. exists tt. split; [by apply ensure_unique_Ok|].
    apply bind_Ok. exists tt. split; [by apply verify_each_peer_Ok|]. apply bind_Ok. exists t. split; [done|by apply verify_Ok].
Qed.

Lemma verify_relays_Ok key signed mesh accepted :
  verify_relays key signed mesh accepted = Ok tt <->
  let d := srd_directory signed in
  rd_mesh_id d = mesh /\ newer accepted (rd_revision d) /\ StronglySorted Dir.lt_of (re_relay_id <$> rd_entries d) /\
  validate_relays (rd_entries d) = Ok tt /\ authenticates key (relay_transcript d) (srd_signature signed).
Proof.
  unfold verify_relays, authenticates, newer. cbv zeta. rewrite bind_Ok. split.
  - intros ([] & [Hm Hr]%scope_Ok & H1'). apply bind_Ok in H1' as ([] & Hs%Dir.ensure_sorted_unique_Ok & H1').
    apply bind_Ok in H1' as ([] & Hv & H1'). apply bind_Ok in H1' as (t & Ht & Hg%verify_Ok). split_and!; try done. by exists t.
  - intros (Hm & Hr & Hs & Hv & t & Ht & Hg). exists tt. split; [by apply scope_Ok|].
    apply bind_Ok. exists tt. split; [by apply Dir.ensure_sorted_unique_Ok|]. apply bind_Ok. exists tt. split; [done|].
    apply bind_Ok. exists t. split; [done|by apply verify_Ok].
Qed.
Lemma verify_relay_topology_Ok key signed mesh accepted :
  verify_relay_topology key signed mesh accepted = Ok tt <->
  let d := st_topology signed in
  Topo.mesh_id d = mesh /\ newer accepted (Topo.revision d) /\ Topo.validate d = Ok tt /\
  authenticates key (relay_topology_transcript d) (st_signature signed).
Proof.
  unfold verify_relay_topology, authenticates, newer. cbv zeta. rewrite bind_Ok. split.
  - intros ([] & [Hm Hr]%scope_Ok & H1'). apply bind_Ok in H1' as ([] & Hv & H1').
    apply bind_Ok in H1' as (t & Ht & Hg%verify_Ok). split_and!; try done. by exists t.
  - intros (Hm & Hr & Hv & t & Ht & Hg). exists tt. split; [by apply scope_Ok|].
    apply bind_Ok. exists tt. split; [done|]. apply bind_Ok. exists t. split; [done|by apply verify_Ok].
Qed.
Lemma verify_policy_Ok key signed mesh accepted :
  verify_policy key signed mesh accepted = Ok tt <->
  let d := spl_bundle signed in
  pl_mesh_id d = mesh /\ newer accepted (pl_revision d) /\ authenticates key (policy_transcript d) (spl_signature signed).
Proof.
  unfold verify_policy, authenticates, newer. cbv zeta. rewrite bind_Ok. split.
  - intros ([] & [Hm Hr]%scope_Ok & H1'). apply bind_Ok in H1' as (t & Ht & Hg%verify_Ok). split_and!; try done. by exists t.
  - intros (Hm & Hr & t & Ht & Hg). exists tt. split; [by apply scope_Ok|].
    apply bind_Ok. exists t. split; [done|by apply verify_Ok].
Qed.
Lemma verify_revocations_Ok key signed mesh accepted :
  verify_revocations key signed mesh accepted = Ok tt <->
  let d := srv_bundle signed in
  rv_mesh_id d = mesh /\ newer accepted (rv_revision d) /\ StronglySorted Dir.lt_of (rv_serials d) /\
  authenticates key (revocation_transcript d) (srv_signature signed).
Proof.
  unfold verify_revocations, authenticates, newer. cbv zeta. rewrite bind_Ok. split.
  - intros ([] & [Hm Hr]%scope_Ok & H1'). apply bind_Ok in H1' as ([] & Hv%Dir.ensure_sorted_unique_Ok & H1').
    apply bind_Ok in H1' as (t & Ht & Hg%verify_Ok). split_and!; try done. by exists t.
  - intros (Hm & Hr & Hv & t & Ht & Hg). exists tt. split; [by apply scope_Ok|].
    apply bind_Ok. exists tt. split; [by apply Dir.ensure_sorted_unique_Ok|]. apply bind_Ok. exists t. split; [done|by apply verify_Ok].
Qed.

Lemma sorted_unique {A K} `{Countable K} `{!Compare K} `{!CompareLaws K} (key : A -> K) l :
  Dir.ensure_unique (key <$> sort_by_key key l) = Ok tt -> StronglySorted Dir.lt_of (key <$> sort_by_key key l).
Proof. intros Hu%ensure_unique_Ok. apply sorted_keys_strict; [apply sort_by_key_sorted|done]. Qed.
Lemma NoDup_fmap_elem {A B} (f : A -> B) l x y : NoDup (f <$> l) -> x ∈ l -> y ∈ l -> f x = f y -> x = y.
Proof.
  intros Hnd [i Hi]%list_elem_of_lookup [j Hj]%list_elem_of_lookup Hf.
  assert (i = j) as ->; [|congruence]. eapply (NoDup_lookup (f <$> l)); [done|by rewrite list_lookup_fmap, Hi|].
  rewrite list_lookup_fmap, Hj. cbn. by rewrite Hf.
Qed.
Lemma concat_disjoint {A B} (f : A -> list B) l x y a :
  NoDup (concat (f <$> l)) -> x ∈ l -> y ∈ l -> a ∈ f x -> a ∈ f y -> x = y.
Proof.
  induction l as [|z l IH]; cbn; [by intros _ ?%not_elem_of_nil|]. intros (_ & Hd & Hl)%NoDup_app Hx Hy Hax Hay.
  assert (Hin : forall w, w ∈ l -> a ∈ f w -> a ∈ concat (f <$> l)).
  { intros w Hw Haw. apply list_elem_of_In, in_concat. exists (f w). rewrite <-!list_elem_of_In. split; [by apply list_elem_of_fmap_2|done]. }
  apply elem_of_cons in Hx as [-> | Hx], Hy as [-> | Hy]; [done| | |by apply IH].
  - destruct (Hd a Hax). by eapply Hin.
  - destruct (Hd a Hay). by eapply Hin.
Qed.

(** ** Properties *)

(** C27: a verified Peer directory is unambiguous. When [verify_peers] accepts, the
    directory is of the expected mesh and newer than the accepted one, its entries
    are in strictly increasing Peer order, an address belongs to at most one Peer,
    and a WireGuard key to at most one credential of one Peer; every entry
    describes exactly one of its own credentials, which carries no overlap
    deadline, and any other one ends at a deadline inside its validity. *)
Theorem verified_directory_unambiguous key signed mesh accepted
    (Hverified : verify_peers key signed mesh accepted = Ok tt) :
  let d := spd_directory signed in
  (pd_mesh_id d = mesh /\ newer accepted (pd_revision d) /\ StronglySorted Dir.lt_of (entry_peer <$> pd_entries d)) /\
  (forall s s' a, s ∈ pd_entries d -> s' ∈ pd_entries d -> a ∈ addresses (sp_entry s) -> a ∈ addresses (sp_entry s') -> s = s') /\
  (forall s s' b b', s ∈ pd_entries d -> s' ∈ pd_entries d -> b ∈ accepted_credentials (sp_entry s) ->
     b' ∈ accepted_credentials (sp_entry s') -> pb_wireguard b = pb_wireguard b' -> s = s' /\ b = b') /\
  (forall s, s ∈ pd_entries d ->
     pe_mesh_id (sp_entry s) = mesh /\
     exists b, credential (sp_entry s) (pe_serial (sp_entry s)) = Some b /\ active_binding (sp_entry s) b /\
       forall b', b' ∈ accepted_credentials (sp_entry s) -> b' = b \/ overlap_valid b').
Proof.
  apply verify_peers_Ok in Hverified as (Hm & Hr & Hs & Hw & Ha & He & _). rewrite Forall_forall in He.
  split; [done|]. split; [intros s s' a Hin Hin'; by apply (concat_disjoint (fun s => addresses (sp_entry s)) (pd_entries (spd_directory signed)))|].
  split.
  - intros s s' b b' Hin Hin' Hb Hb' Hk.
    assert (s = s') as <-.
    { apply (concat_disjoint (fun s => pb_wireguard <$> accepted_credentials (sp_entry s)) (pd_entries (spd_directory signed)) s s' (pb_wireguard b));
        [done..|by apply list_elem_of_fmap_2|rewrite Hk; by apply list_elem_of_fmap_2]. }
    split; [done|]. apply He, verify_peer_Ok in Hin as [(_ & _ & _ & _ & _ & _ & Hnd & _) _]. by eapply NoDup_fmap_elem.
  - intros s Hin. apply He, verify_peer_Ok in Hin as [(Hme & _ & _ & _ & _ & Hss & _ & (b & Hact) & Hbs) _].
    split; [done|]. exists b. pose proof Hact as (Hb & Hk & _).
    split; [by apply (sorted_find pb_serial)|]. split; [done|]. intros b' Hb'. rewrite Forall_forall in Hbs.
    destruct (decide (pb_serial b' = pe_serial (sp_entry s))) as [Heq|Hne]; [left|right; by apply (Hbs b' Hb')].
    pose proof (sorted_find pb_serial _ _ b Hss Hb Hk) as H1'. pose proof (sorted_find pb_serial _ _ b' Hss Hb' Heq) as H2'. congruence.
Qed.

Section laws.
Context `{!Ed25519Laws}.

Lemma signed_authenticates seed tr t : tr = Ok t -> authenticates (ed_public seed) tr (ed_sign seed t).
Proof. intros Ht. exists t. split; [done|apply ed_verify_sign]. Qed.
Lemma sign_peer_Ok seed e s :
  sign_peer seed e = Ok s -> authenticates (ed_public seed) (peer_entry_transcript (sp_entry s)) (sp_signature s).
Proof. unfold sign_peer. intros (t & Ht & <-%Ok_inj)%bind_Ok. by apply signed_authenticates. Qed.
Lemma sign_peers_Ok seed mesh revision entries d :
  sign_peers seed mesh revision entries = Ok d ->
  let p := spd_directory d in
  pd_mesh_id p = mesh /\ pd_revision p = revision /\ pd_entries p ≡ₚ entries /\
  StronglySorted Dir.lt_of (entry_peer <$> pd_entries p) /\
  authenticates (ed_public seed) (peer_revision_transcript p) (spd_signature d).
Proof.
  unfold sign_peers. intros ([] & Hu & Hr)%bind_Ok. apply bind_Ok in Hr as (t & Ht & <-%Ok_inj). cbn.
  split_and!; [done|done|apply sort_by_key_perm|by apply sorted_unique|by apply signed_authenticates].
Qed.

(** Whatever the control plane signs, verifiers accept. Signed Relay
    directories, topologies, policies and revocation sets verify under the public
    half of the key, for their mesh, at every verifier whose accepted revision is
    older - with no further condition; and so does a Peer directory of signed
    entries that are each acceptable and share no address and no WireGuard key. *)
Theorem signed_objects_verify seed mesh revision accepted (Hnewer : newer accepted revision) :
  (forall entries d, sign_relays seed mesh revision entries = Ok d -> verify_relays (ed_public seed) d mesh accepted = Ok tt) /\
  (forall t d, sign_relay_topology seed t = Ok d -> Topo.mesh_id t = mesh -> Topo.revision t = revision ->
     verify_relay_topology (ed_public seed) d mesh accepted = Ok tt) /\
  (forall policy d, sign_policy seed mesh revision policy = Ok d -> verify_policy (ed_public seed) d mesh accepted = Ok tt) /\
  (forall serials d, sign_revocations seed mesh revision serials = Ok d ->
     verify_revocations (ed_public seed) d mesh accepted = Ok tt) /\
  (forall es signed d,
     Forall2 (fun e s => sign_peer seed e = Ok s /\ entry_accepted (sp_entry s) mesh) es signed ->
     NoDup (concat ((fun s => pb_wireguard <$> accepted_credentials (sp_entry s)) <$> signed)) ->
     NoDup (concat ((fun s => addresses (sp_entry s)) <$> signed)) ->
     sign_peers seed mesh revision signed = Ok d -> verify_peers (ed_public seed) d mesh accepted = Ok tt).
Proof.
  split_and!.
  - intros entries d (? & Hu & Hr)%bind_Ok. destruct x. apply bind_Ok in Hr as ([] & Hv & Hr). apply bind_Ok in Hr as (t & Ht & <-%Ok_inj).
    apply verify_relays_Ok. cbn. split_and!; try done; [by apply sorted_unique|by apply signed_authenticates].
  - intros t d (? & Hv & Hr)%bind_Ok <- <-. destruct x. apply bind_Ok in Hr as (tr & Ht & <-%Ok_inj).
    apply verify_relay_topology_Ok. cbn. split_and!; try done. by apply signed_authenticates.
  - intros policy d (t & Ht & <-%Ok_inj)%bind_Ok. apply verify_policy_Ok. cbn. split_and!; try done. by apply signed_authenticates.
  - intros serials d (? & Hu & Hr)%bind_Ok. destruct x. apply bind_Ok in Hr as (t & Ht & <-%Ok_inj).
    apply verify_revocations_Ok. cbn. split_and!; try done; [|by apply signed_authenticates].
    pose proof (sorted_unique id serials) as Hs. rewrite list_fmap_id in Hs. by apply Hs.
  - intros es signed d Hes Hw Ha (Hm & Hr & Hp & Hs & Hau)%sign_peers_Ok. apply verify_peers_Ok. cbv zeta.
    rewrite Hm, Hr. split_and!; try done.
    + unfold wireguard_keys. by rewrite Hp.
    + unfold all_addresses. by rewrite Hp.
    + rewrite Hp. eapply Forall2_Forall_r; [exact Hes|]. apply Forall_true. intros e s [Hsg Hacc].
      apply verify_peer_Ok. split; [done|]. by eapply sign_peer_Ok.
Qed.
End laws.

End signing.
(** ** Examples *)

#[local] Existing Instance uuid_rfc.
#[local] Existing Instance every_key.

Definition example_entry : PeerEntry :=
  mkEntry (example_id 1) (example_id 3) (V4 0x0a000001) None (example_key x21) (example_key x22) (example_id 4)
    [from_subject example_credential None] true {[ [x61] := [x62] ]} 180.
Definition example_signed_entry : SignedPeerEntry :=
  match sign_peer (H0 := toy_ed) (example_key x30) example_entry with Ok s => s | _ => mkSignedEntry example_entry [] end.
Definition example_directory : SignedPeerDirectory :=
  match sign_peers (H0 := toy_ed) (example_key x30) (example_id 1) 5 [example_signed_entry] with
  | Ok d => d
  | _ => mkSignedPeers (mkPeers (example_id 1) 5 []) []
  end.

Lemma example_entry_signed :
  sign_peer (H0 := toy_ed) (example_key x30) example_entry = Ok example_signed_entry.
Proof. vm_compute. reflexivity. Qed.
Lemma example_directory_signed :
  sign_peers (H0 := toy_ed) (example_key x30) (example_id 1) 5 [example_signed_entry] = Ok example_directory.
Proof. vm_compute. reflexivity. Qed.
Lemma example_directory_verifies :
  verify_peers (H0 := toy_ed) (example_key x30) example_directory (example_id 1) (Some 4) = Ok tt.
Proof. vm_compute. reflexivity. Qed.

Lemma example_entry_verifies :
  verify_peer (H0 := toy_ed) (example_key x30) example_signed_entry (example_id 1) = Ok tt.
Proof. vm_compute. reflexivity. Qed.

Lemma verified_directory_unambiguous_witness :
  verify_peers (H0 := toy_ed) (example_key x30) example_directory (example_id 1) (Some 4) = Ok tt /\
  exists b, credential example_entry (example_id 4) = Some b.
Proof.
  split; [exact example_directory_verifies|].
  destruct (verified_directory_unambiguous (H0 := toy_ed) (example_key x30) example_directory (example_id 1) (Some 4)
    example_directory_verifies) as (_ & _ & _ & Hone).
  destruct (Hone example_signed_entry) as (_ & b & Hb & _); [vm_compute; left|].
  exists b. exact Hb.
Defined.

Lemma signed_objects_verify_witness :
  verify_peers (H0 := toy_ed) (toy_public (example_key x30)) example_directory (example_id 1) (Some 4) = Ok tt.
Proof.
  assert (Hnewer : newer (Some 4) 5) by (intros r Hr; injection Hr as <-; reflexivity).
  destruct (signed_objects_verify (H0 := toy_ed) (H2 := toy_laws) (example_key x30) (example_id 1) 5 (Some 4) Hnewer)
    as (_ & _ & _ & _ & Hpeers).
  apply (Hpeers [example_entry] [example_signed_entry] example_directory).
  - constructor; [|constructor]. split; [exact example_entry_signed|].
    exact (proj1 (proj1 (verify_peer_Ok (H0 := toy_ed) (example_key x30) example_signed_entry (example_id 1))
      example_entry_verifies)).
  - vm_compute. constructor; [intros Hin; apply not_elem_of_nil in Hin; exact Hin|constructor].
  - vm_compute. constructor; [intros Hin; apply not_elem_of_nil in Hin; exact Hin|constructor].
  - exact example_directory_signed.
Defined.

End Sg.
