(* ===== verification/Envelope.v ===== *)
(** * Control envelopes (crates [peerward-wire], [peerward-types])

    control.rs: the typed control messages, and the trace context that travels with
    them; correlation.rs: the request and W3C trace identifiers it carries, and the
    [traceparent] header they are printed to and parsed from.

    [prost] generates the encoder of an envelope from its fields: [Wire.ProstLib]
    keeps the encoded type opaque, and [EnvelopeView] says it is the struct with
    those fields. *)

From S2P Require Import Prelude Ordered Net Wire.
From Stdlib Require Import ZArith NArith Lia.
From stdpp Require Import base tactics decidable countable numbers list.
From Stdlib.Init Require Import Byte.
Set Default Goal Selector "!".
Local Open Scope N_scope.

Module Env.

(** ** correlation.rs

    A [Uuid] is the number of its 16 bytes. *)

Record CorrelationContext := mkContext {
  request_id : N;
  trace_id : list byte;
  span_id : list byte;
  flags : N;
}.
#[export] Instance CorrelationContext_eq_dec : EqDecision CorrelationContext.
Proof. solve_decision. Defined.
Inductive CorrelationError := InvalidIdentifier | MalformedTraceparent.
#[export] Instance CorrelationError_eq_dec : EqDecision CorrelationError.
Proof. solve_decision. Defined.
Notation cresult := (outcome CorrelationError).

(** [iter().all(|byte| *byte == 0)] *)
Definition all_zero_bytes (bs : list byte) : bool := forallb (fun b => u8 b =? 0) bs.

(** [write!(output, "{byte:02x}")] for each byte *)
Definition hex_char (d : N) : byte := byte_of (if d <? 10 then 48 + d else 87 + d).
Definition hex_byte (b : byte) : list byte := [hex_char (u8 b / 16); hex_char (u8 b mod 16)].
Definition append_hex (output : list byte) (bytes : list byte) : list byte := output ++ concat (hex_byte <$> bytes).

(** [u8::from_str_radix(.., 16)]: digits of both cases, after an optional sign. *)
Definition hex_digit (b : byte) : option N :=
  let c := u8 b in
  if (48 <=? c) && (c <=? 57) then Some (c - 48)
  else if (97 <=? c) && (c <=? 102) then Some (c - 87)
  else if (65 <=? c) && (c <=? 70) then Some (c - 55)
  else None.
Definition push_digit (acc : N) (b : byte) : option N :=
  match hex_digit b with
  | Some d => if acc * 16 + d <=? U8_MAX then Some (acc * 16 + d) else None
  | None => None
  end.
Fixpoint push_digits (acc : N) (s : list byte) : option N :=
  match s with [] => Some acc | b :: s' => match push_digit acc b with Some acc' => push_digits acc' s' | None => None end end.
Definition from_str_radix_16 (s : list byte) : option N :=
  match s with
  | [] => None
  | x2b :: [] => None
  | x2b :: digits => push_digits 0 digits
  | digits => push_digits 0 digits
  end.
(** [is_ascii_digit() || (b'a'..=b'f').contains(byte)] *)
Definition lower_hex (b : byte) : bool := ((48 <=? u8 b) && (u8 b <=? 57)) || ((97 <=? u8 b) && (u8 b <=? 102)).
Definition decode_pair (value : list byte) (index : nat) : cresult byte :=
  digits ← slice value (N.of_nat index * 2) (N.of_nat index * 2 + 2);
  byte_of <$> ok_or (from_str_radix_16 digits) MalformedTraceparent.
Definition decode_hex (n : nat) (value : list byte) : cresult (list byte) :=
  if negb (lenN value =? N.of_nat n * 2) || negb (forallb lower_hex value) then Err MalformedTraceparent else
  mapM (decode_pair value) (seq 0 n).

Section correlation.
Context `{UuidLib}.

(** [root] and [child] are given the random identifiers they draw. *)
Definition root (request trace span_source : N) (sampled : bool) : CorrelationContext :=
  mkContext request (to_be 16 trace) (take 8 (to_be 16 span_source)) (if sampled then 1 else 0).
Definition child (source : N) (self : CorrelationContext) : CorrelationContext :=
  mkContext (request_id self) (trace_id self) (take 8 (to_be 16 source)) (flags self).

Definition from_parts (request : N) (trace span : list byte) (flag : N) : cresult CorrelationContext :=
  if negb (uuid_version_random request) || negb (uuid_variant_rfc4122 request) || all_zero_bytes trace || all_zero_bytes span
  then Err InvalidIdentifier else Ok (mkContext request trace span flag).

(** A str is its bytes; the slices are of an ASCII string, whose bytes are its characters. *)
Definition is_ascii (s : list byte) : bool := forallb (fun b => u8 b <? 128) s.
Definition char_at (s : list byte) (a b : N) (expected : list byte) : cresult bool :=
  t ← slice s a b; Ok (bool_decide (t = expected)).
Definition from_traceparent (request : N) (s : list byte) : cresult CorrelationContext :=
  if negb (uuid_version_random request) || negb (lenN s =? 55) || negb (is_ascii s) then Err MalformedTraceparent else
  d1 ← char_at s 2 3 [x2d];
  if negb d1 then Err MalformedTraceparent else
  d2 ← char_at s 35 36 [x2d];
  if negb d2 then Err MalformedTraceparent else
  d3 ← char_at s 52 53 [x2d];
  if negb d3 then Err MalformedTraceparent else
  ff ← char_at s 0 2 [x66; x66];
  if ff : bool then Err MalformedTraceparent else
  version_text ← slice s 0 2;
  version ← decode_hex 1 version_text;
  version ← index version 0;
  if negb (u8 version =? 0) then Err MalformedTraceparent else
  trace_text ← slice s 3 35;
  trace ← decode_hex 16 trace_text;
  span_text ← slice s 36 52;
  span ← decode_hex 8 span_text;
  flag_text ← slice s 53 55;
  flag ← decode_hex 1 flag_text;
  flag ← index flag 0;
  from_parts request trace span (u8 flag).

(** [String::from("00-")], then the fields in hexadecimal. *)
Definition traceparent (self : CorrelationContext) : list byte :=
  let value := append_hex [x30; x30; x2d] (trace_id self) in
  let value := append_hex (value ++ [x2d]) (span_id self) in
  append_hex (value ++ [x2d]) [byte_of (flags self)].
End correlation.

(** ** control.rs *)

(** The messages [mesh_blob_message!] declares. *)
Record MeshBlob := mkBlob { mb_mesh_id : list byte; mb_body : list byte }.
#[export] Instance MeshBlob_eq_dec : EqDecision MeshBlob.
Proof. solve_decision. Defined.
(** Those of [signed_state_chunk_message!], and the three chunk structs with the same fields. *)
Record StateChunk := mkStateChunk {
  sc_mesh_id : list byte;
  sc_revision : N;
  sc_index : N;
  sc_count : N;
  sc_body : list byte;
}.
#[export] Instance StateChunk_eq_dec : EqDecision StateChunk.
Proof. solve_decision. Defined.
Record CredentialRotationRequest := mkRotation {
  ro_mesh_id : list byte;
  ro_request_id : list byte;
  ro_identity_public_key : list byte;
  ro_session_public_key : list byte;
  ro_current_serial : list byte;
  ro_signature : list byte;
  ro_wireguard_public_key : list byte;
}.
#[export] Instance CredentialRotationRequest_eq_dec : EqDecision CredentialRotationRequest.
Proof. solve_decision. Defined.
Record CredentialReplacement := mkReplacement {
  re_mesh_id : list byte;
  re_request_id : list byte;
  re_credential : list byte;
  re_activation_challenge : list byte;
}.
#[export] Instance CredentialReplacement_eq_dec : EqDecision CredentialReplacement.
Proof. solve_decision. Defined.
Record CredentialActivation := mkActivation {
  ac_mesh_id : list byte;
  ac_request_id : list byte;
  ac_issued_serial : list byte;
  ac_signature : list byte;
}.
#[export] Instance CredentialActivation_eq_dec : EqDecision CredentialActivation.
Proof. solve_decision. Defined.
Record ServicePublish := mkPublish {
  sp_mesh_id : list byte;
  sp_service_id : list byte;
  sp_protocols : list N;
  sp_listen_port : N;
  sp_alias : list byte;
}.
#[export] Instance ServicePublish_eq_dec : EqDecision ServicePublish.
Proof. solve_decision. Defined.
Record ServiceRemove := mkRemove { sr_mesh_id : list byte; sr_service_id : list byte }.
#[export] Instance ServiceRemove_eq_dec : EqDecision ServiceRemove.
Proof. solve_decision. Defined.
Record ServiceMutationResult := mkMutation {
  sm_mesh_id : list byte;
  sm_service_id : list byte;
  sm_committed : bool;
  sm_error : list byte;
}.
#[export] Instance ServiceMutationResult_eq_dec : EqDecision ServiceMutationResult.
Proof. solve_decision. Defined.
Record PeerManagementResult := mkManaged {
  pm_request_id : list byte;
  pm_committed : bool;
  pm_error : list byte;
}.
#[export] Instance PeerManagementResult_eq_dec : EqDecision PeerManagementResult.
Proof. solve_decision. Defined.
#[export] Instance RelayEnvelopeV2_eq_dec : EqDecision Wire.RelayEnvelopeV2.
Proof. solve_decision. Defined.

(** [control_envelope::Message]. A [Keepalive] is its timestamp; [PeerManagement]
    and [CredentialRenewal] are their bodies. *)
Inductive Message :=
  | CredentialRenewal (body : list byte)
  | PeerManagement (body : list byte)
  | ManagementResult (result : PeerManagementResult)
  | Configuration (chunk : StateChunk)
  | Hello (greeting : MeshBlob)
  | Welcome (greeting : MeshBlob)
  | Keepalive (monotonic_timestamp : N)
  | Close (close : MeshBlob)
  | PeerDirectory (chunk : StateChunk)
  | Policy (chunk : StateChunk)
  | RelayDirectory (chunk : StateChunk)
  | PresenceUpdate (update : MeshBlob)
  | Forwarded (packet : MeshBlob)
  | Services (chunk : StateChunk)
  | RotationRequest (request : CredentialRotationRequest)
  | Replacement (replacement : CredentialReplacement)
  | Activation (activation : CredentialActivation)
  | Revocation (chunk : StateChunk)
  | PublishService (publish : ServicePublish)
  | RemoveService (remove : ServiceRemove)
  | ServiceResult (result : ServiceMutationResult)
  | AuthorityDirectory (chunk : StateChunk)
  | Opaque (envelope : Wire.RelayEnvelopeV2)
  | RelayTopology (chunk : StateChunk).
#[export] Instance Message_eq_dec : EqDecision Message.
Proof. solve_decision. Defined.

Record TraceContextV1 := mkTrace {
  tr_request_id : list byte;
  tr_trace_id : list byte;
  tr_span_id : list byte;
  tr_flags : N;
}.
#[export] Instance TraceContextV1_eq_dec : EqDecision TraceContextV1.
Proof. solve_decision. Defined.
Record Envelope := mkEnvelope { message : option Message; trace_context : option TraceContextV1 }.
#[export] Instance Envelope_eq_dec : EqDecision Envelope.
Proof. solve_decision. Defined.

(** The struct behind the encoded type. *)
Class EnvelopeView `{Wire.ProstLib} := {
  fields_of : Wire.ControlEnvelope -> Envelope;
  envelope_of : Envelope -> Wire.ControlEnvelope;
}.
Class EnvelopeLaws `{EnvelopeView} : Prop := {
  fields_envelope v : fields_of (envelope_of v) = v;
  envelope_fields e : envelope_of (fields_of e) = e;
}.

Section trace.
Context `{UuidLib}.

Definition from_context (c : CorrelationContext) : TraceContextV1 :=
  mkTrace (to_be 16 (request_id c)) (trace_id c) (span_id c) (flags c).
Definition try_into_context (self : TraceContextV1) : cresult CorrelationContext :=
  request ← (if lenN (tr_request_id self) =? 16 then Ok (from_be (tr_request_id self)) else Err InvalidIdentifier);
  trace ← (if lenN (tr_trace_id self) =? 16 then Ok (tr_trace_id self) else Err InvalidIdentifier);
  span ← (if lenN (tr_span_id self) =? 8 then Ok (tr_span_id self) else Err InvalidIdentifier);
  flag ← (if tr_flags self <=? U8_MAX then Ok (tr_flags self) else Err InvalidIdentifier);
  from_parts request trace span flag.

Context `{EnvelopeView}.
(** [as_ref().map(..).transpose()] *)
Definition correlation_context (self : Wire.ControlEnvelope) : cresult (option CorrelationContext) :=
  match trace_context (fields_of self) with
  | Some t => Some <$> try_into_context t
  | None => Ok None
  end.
(** [source] is the identifier the new span is drawn from. *)
Definition advance_trace (source : N) (self : Wire.ControlEnvelope) : Wire.ControlEnvelope * cresult unit :=
  match correlation_context self with
  | Ok (Some c) => (envelope_of (mkEnvelope (message (fields_of self)) (Some (from_context (child source c)))), Ok tt)
  | Ok None => (self, Ok tt)
  | Err e => (self, Err e)
  | Panic => (self, Panic)
  end.
End trace.

(** ** The header is an inverse *)

Lemma hex_char_digit d : d < 16 -> lower_hex (hex_char d) = true /\ hex_digit (hex_char d) = Some d.
Proof.
  intros Hd. assert (Hall : forallb (fun d => lower_hex (hex_char d) && bool_decide (hex_digit (hex_char d) = Some d))
    (N.of_nat <$> seq 0 16) = true) by (vm_compute; reflexivity).
  rewrite forallb_forall in Hall. specialize (Hall d). rewrite andb_true_iff, bool_decide_eq_true in Hall. apply Hall.
  apply list_elem_of_In, list_elem_of_fmap. exists (N.to_nat d). split; [lia|]. apply elem_of_seq. lia.
Qed.
Lemma lower_hex_digit a : lower_hex a = true -> exists d, hex_digit a = Some d /\ d < 16 /\ hex_char d = a.
Proof. destruct a; vm_compute; intros Ha; try discriminate Ha; eexists; split; try reflexivity; done. Qed.
Lemma radix_pair a b : lower_hex a = true -> from_str_radix_16 [a; b] = push_digits 0 [a; b].
Proof. destruct a; done. Qed.

Lemma radix_lower a b : lower_hex a = true -> lower_hex b = true ->
  exists v, from_str_radix_16 [a; b] = Some v /\ v < 256 /\ hex_byte (byte_of v) = [a; b].
Proof.
  intros Ha Hb. rewrite radix_pair by done.
  destruct (lower_hex_digit a Ha) as (x & Hx & Hx16 & <-), (lower_hex_digit b Hb) as (y & Hy & Hy16 & <-).
  exists (x * 16 + y). cbn [push_digits]. unfold push_digit. rewrite Hx. rewrite (proj2 (N.leb_le _ U8_MAX)) by (unfold U8_MAX; lia).
  rewrite Hy. rewrite (proj2 (N.leb_le _ U8_MAX)) by (unfold U8_MAX; lia). split; [f_equal; lia|]. split; [lia|].
  unfold hex_byte. rewrite u8_byte_of, N.mod_small by lia.
  replace ((x * 16 + y) / 16) with x by (symmetry; rewrite N.div_add_l, N.div_small by lia; lia).
  replace ((x * 16 + y) mod 16) with y by (rewrite N.add_comm, N.Div0.mod_add, N.mod_small; lia). done.
Qed.
Lemma lenN_hex bs : lenN (concat (hex_byte <$> bs)) = lenN bs * 2.
Proof.
  induction bs as [|b bs IH]; [done|]. change (concat (hex_byte <$> b :: bs)) with (hex_byte b ++ concat (hex_byte <$> bs)).
  rewrite lenN_app, IH, lenN_cons. change (lenN (hex_byte b)) with 2. lia.
Qed.
Lemma hex_is_lower bs : forallb lower_hex (concat (hex_byte <$> bs)) = true.
Proof.
  induction bs as [|b bs IH]; [done|]. change (concat (hex_byte <$> b :: bs)) with (hex_byte b ++ concat (hex_byte <$> bs)).
  rewrite forallb_app, IH, andb_true_r. unfold hex_byte. cbn [forallb]. pose proof (u8_lt b).
  rewrite (proj1 (hex_char_digit (u8 b / 16) ltac:(apply N.Div0.div_lt_upper_bound; lia))).
  by rewrite (proj1 (hex_char_digit (u8 b mod 16) ltac:(apply N.mod_lt; lia))).
Qed.
Lemma hex_byte_inj a b : hex_byte a = hex_byte b -> a = b.
Proof.
  unfold hex_byte. intros He. pose proof (u8_lt a) as Ha. pose proof (u8_lt b) as Hb.
  assert (Hd : forall x y, x < 16 -> y < 16 -> hex_char x = hex_char y -> x = y).
  { intros x y Hx Hy Hxy. pose proof (proj2 (hex_char_digit x Hx)) as H1. pose proof (proj2 (hex_char_digit y Hy)) as H2. congruence. }
  injection He as H1 H2. apply Hd in H1; [|apply N.Div0.div_lt_upper_bound; lia..]. apply Hd in H2; [|apply N.mod_lt; lia..].
  apply u8_inj. rewrite (N.div_mod (u8 a) 16), (N.div_mod (u8 b) 16) by done. by rewrite H1, H2.
Qed.

Lemma decode_pair_skip a b v i : decode_pair (a :: b :: v) (S i) = decode_pair v i.
Proof.
  unfold decode_pair. change (a :: b :: v) with ([a; b] ++ v). rewrite slice_skip by (change (lenN [a; b]) with 2; lia).
  change (lenN [a; b]) with 2.
  replace (N.of_nat (S i) * 2 - 2) with (N.of_nat i * 2) by lia.
  replace (N.of_nat (S i) * 2 + 2 - 2) with (N.of_nat i * 2 + 2) by lia. done.
Qed.
Lemma decode_pairs_skip a b v l : mapM (decode_pair (a :: b :: v)) (S <$> l) = mapM (decode_pair v) l.
Proof.
  induction l as [|i l IH]; [done|]. cbn -[decode_pair]. rewrite decode_pair_skip. cbn -[decode_pair] in IH. by rewrite IH.
Qed.
Lemma decode_pairs n : forall v, lenN v = N.of_nat n * 2 -> forallb lower_hex v = true ->
  exists bs, mapM (decode_pair v) (seq 0 n) = Ok bs /\ length bs = n /\ v = concat (hex_byte <$> bs).
Proof.
  induction n as [|n IH]; intros v Hv Hh.
  { exists []. destruct v; [done|]. rewrite lenN_cons in Hv. lia. }
  destruct v as [|a [|b v]]; [vm_compute in Hv; lia|rewrite lenN_cons, lenN_nil in Hv; lia|].
  rewrite !lenN_cons in Hv. cbn [forallb] in Hh. apply andb_true_iff in Hh as [Ha [Hb Hh]%andb_true_iff].
  destruct (IH v ltac:(lia) Hh) as (bs & Hm & Hl & Hvb). destruct (radix_lower a b Ha Hb) as (x & Hx & Hx256 & Hhex).
  exists (byte_of x :: bs). cbn [seq]. rewrite <-fmap_S_seq.
  assert (Hhead : decode_pair (a :: b :: v) 0 = Ok (byte_of x)).
  { unfold decode_pair. change (N.of_nat 0 * 2) with 0. change (a :: b :: v) with ([a; b] ++ v).
    rewrite slice_here by done. cbn [mbind outcome_bind]. by rewrite Hx. }
  split; [|split; [by cbn; rewrite Hl|]].
  - cbn -[decode_pair]. rewrite Hhead. cbn -[decode_pair].
    pose proof (decode_pairs_skip a b v (seq 0 n)) as Hs. cbn -[decode_pair] in Hs, Hm. by rewrite Hs, Hm.
  - change (concat (hex_byte <$> byte_of x :: bs)) with (hex_byte (byte_of x) ++ concat (hex_byte <$> bs)). by rewrite Hhex, <-Hvb.
Qed.
Lemma hex_inj bs bs' : concat (hex_byte <$> bs) = concat (hex_byte <$> bs') -> bs = bs'.
Proof.
  revert bs'. induction bs as [|b bs IH]; intros [|b' bs']; [done..|].
  change (hex_byte b ++ concat (hex_byte <$> bs) = hex_byte b' ++ concat (hex_byte <$> bs') -> b :: bs = b' :: bs').
  intros He. apply app_field in He as [Hb Hr]; [|done]. f_equal; [by apply hex_byte_inj|by apply IH].
Qed.
Lemma decode_hex_Ok n v bs : decode_hex n v = Ok bs <-> length bs = n /\ v = concat (hex_byte <$> bs).
Proof.
  unfold decode_hex. split.
  - destruct (N.eqb_spec (lenN v) (N.of_nat n * 2)) as [Hv|]; [|done]. destruct (forallb lower_hex v) eqn:Hh; [|done].
    cbn [negb orb]. destruct (decode_pairs n v Hv Hh) as (bs' & -> & Hl & Hb). by intros [= ->].
  - intros [Hl ->]. assert (Hv : lenN (concat (hex_byte <$> bs)) = N.of_nat n * 2) by (rewrite lenN_hex; unfold lenN; lia).
    rewrite Hv, N.eqb_refl, hex_is_lower. cbn [negb orb].
    destruct (decode_pairs n _ Hv (hex_is_lower bs)) as (bs' & -> & _ & Hb). by apply hex_inj in Hb as ->.
Qed.
Lemma no_panic_decode_hex n v : no_panic (decode_hex n v).
Proof.
  unfold decode_hex. destruct (N.eqb_spec (lenN v) (N.of_nat n * 2)) as [Hv|]; [|done]. destruct (forallb lower_hex v) eqn:Hh; [|done].
  cbn [negb orb]. by destruct (decode_pairs n v Hv Hh) as (bs & -> & _).
Qed.

Section header.
Context `{UuidLib}.

Record context_ok (c : CorrelationContext) : Prop := {
  co_width : request_id c < 2 ^ 128;
  co_random : uuid_version_random (request_id c) = true;
  co_variant : uuid_variant_rfc4122 (request_id c) = true;
  co_trace : length (trace_id c) = 16%nat;
  co_trace_set : all_zero_bytes (trace_id c) = false;
  co_span : length (span_id c) = 8%nat;
  co_span_set : all_zero_bytes (span_id c) = false;
  co_flags : flags c <= U8_MAX;
}.

Lemma from_parts_Ok request trace span flag c : from_parts request trace span flag = Ok c <->
  c = mkContext request trace span flag /\ uuid_version_random request = true /\ uuid_variant_rfc4122 request = true /\
  all_zero_bytes trace = false /\ all_zero_bytes span = false.
Proof.
  unfold from_parts. destruct (uuid_version_random request), (uuid_variant_rfc4122 request), (all_zero_bytes trace),
    (all_zero_bytes span); cbn; split; try done; try (by intros (_ & ? & ? & ? & ?)); [by intros [= <-]|by intros (-> & _)].
Qed.

Definition hex (bs : list byte) : list byte := concat (hex_byte <$> bs).
Lemma traceparent_text c : traceparent c =
  [x30; x30] ++ [x2d] ++ hex (trace_id c) ++ [x2d] ++ hex (span_id c) ++ [x2d] ++ hex [byte_of (flags c)].
Proof. unfold traceparent, append_hex, hex. cbv zeta. by rewrite <-!app_assoc. Qed.

Lemma hex_ascii bs : is_ascii (hex bs) = true.
Proof.
  pose proof (hex_is_lower bs) as Hl. fold (hex bs) in Hl. unfold is_ascii. rewrite forallb_forall in *.
  intros b Hb%Hl. destruct b; done.
Qed.
Lemma char_at_Ok s a b t v : slice (E:=CorrelationError) s a b = Ok t -> char_at s a b v = Ok (bool_decide (t = v)).
Proof. unfold char_at. by intros ->. Qed.

(** Reads the pieces of a header one after the other. *)
Lemma header_pieces (p0 p1 p2 p3 : list byte) d1 d2 d3 s :
  lenN p0 = 2 -> lenN p1 = 32 -> lenN p2 = 16 -> lenN p3 = 2 -> s = p0 ++ [d1] ++ p1 ++ [d2] ++ p2 ++ [d3] ++ p3 ->
  lenN s = 55 /\ slice (E:=CorrelationError) s 0 2 = Ok p0 /\ slice (E:=CorrelationError) s 2 3 = Ok [d1] /\
  slice (E:=CorrelationError) s 3 35 = Ok p1 /\ slice (E:=CorrelationError) s 35 36 = Ok [d2] /\
  slice (E:=CorrelationError) s 36 52 = Ok p2 /\ slice (E:=CorrelationError) s 52 53 = Ok [d3] /\
  slice (E:=CorrelationError) s 53 55 = Ok p3.
Proof.
  intros L0 L1 L2 L3 ->. assert (L : forall d : byte, lenN [d] = 1) by done.
  repeat match goal with |- _ /\ _ => split end.
  - rewrite !lenN_app, !L, L0, L1, L2, L3. done.
  - by apply slice_here.
  - apply slice_app; rewrite ?lenN_app, ?L, ?L0, ?L1, ?L2, ?L3; lia.
  - rewrite app_assoc. apply slice_app; rewrite ?lenN_app, ?L, ?L0, ?L1, ?L2, ?L3; lia.
  - do 2 rewrite app_assoc. apply slice_app; rewrite ?lenN_app, ?L, ?L0, ?L1, ?L2, ?L3; lia.
  - do 3 rewrite app_assoc. apply slice_app; rewrite ?lenN_app, ?L, ?L0, ?L1, ?L2, ?L3; lia.
  - do 4 rewrite app_assoc. apply slice_app; rewrite ?lenN_app, ?L, ?L0, ?L1, ?L2, ?L3; lia.
  - do 5 rewrite app_assoc. rewrite <-(app_nil_r p3) at 1. apply slice_app; rewrite ?lenN_app, ?L, ?L0, ?L1, ?L2, ?L3; lia.
Qed.
Lemma split_traceparent (s : list byte) : lenN s = 55 -> exists p0 p1 p2 p3 d1 d2 d3,
  lenN p0 = 2 /\ lenN p1 = 32 /\ lenN p2 = 16 /\ lenN p3 = 2 /\ s = p0 ++ [d1] ++ p1 ++ [d2] ++ p2 ++ [d3] ++ p3.
Proof.
  intros Hs. set (k (n : N) := N.to_nat n).
  assert (Hsplit : forall (l : list byte) n, n <= lenN l -> exists a b, l = a ++ b /\ lenN a = n /\ lenN b = lenN l - n).
  { intros l n Hn. exists (take (N.to_nat n) l), (drop (N.to_nat n) l). rewrite take_drop. split; [done|].
    rewrite lenN_take, lenN_drop. split; lia. }
  assert (Hone : forall l : list byte, 1 <= lenN l -> exists d b, l = [d] ++ b /\ lenN b = lenN l - 1).
  { intros [|d b] Hl; [rewrite lenN_nil in Hl; lia|]. exists d, b. split; [done|]. rewrite lenN_cons. lia. }
  destruct (Hsplit s 2 ltac:(lia)) as (p0 & s1 & -> & L0 & M1). destruct (Hone s1 ltac:(lia)) as (d1 & s2 & -> & M2).
  destruct (Hsplit s2 32 ltac:(lia)) as (p1 & s3 & -> & L1 & M3). destruct (Hone s3 ltac:(lia)) as (d2 & s4 & -> & M4).
  destruct (Hsplit s4 16 ltac:(lia)) as (p2 & s5 & -> & L2 & M5). destruct (Hone s5 ltac:(lia)) as (d3 & p3 & -> & M6).
  exists p0, p1, p2, p3, d1, d2, d3. split_and!; try done. lia.
Qed.

Lemma from_traceparent_eq request p0 p1 p2 p3 d1 d2 d3 s :
  lenN p0 = 2 -> lenN p1 = 32 -> lenN p2 = 16 -> lenN p3 = 2 -> s = p0 ++ [d1] ++ p1 ++ [d2] ++ p2 ++ [d3] ++ p3 ->
  from_traceparent request s =
    if negb (uuid_version_random request) || negb (is_ascii s) || negb (bool_decide ([d1] = [x2d]))
       || negb (bool_decide ([d2] = [x2d])) || negb (bool_decide ([d3] = [x2d])) || bool_decide (p0 = [x66; x66])
    then Err MalformedTraceparent else
    version ← decode_hex 1 p0;
    version ← index version 0;
    if negb (u8 version =? 0) then Err MalformedTraceparent else
    trace ← decode_hex 16 p1;
    span ← decode_hex 8 p2;
    flag ← decode_hex 1 p3;
    flag ← index flag 0;
    from_parts request trace span (u8 flag).
Proof.
  intros L0 L1 L2 L3 Hs. destruct (header_pieces _ _ _ _ _ _ _ s L0 L1 L2 L3 Hs) as (L & S0 & S1 & S2 & S3 & S4 & S5 & S6).
  unfold from_traceparent. rewrite L, N.eqb_refl, (char_at_Ok _ _ _ _ _ S1), (char_at_Ok _ _ _ _ _ S3), (char_at_Ok _ _ _ _ _ S5),
    (char_at_Ok _ _ _ _ _ S0), S0, S2, S4, S6.
  destruct (uuid_version_random request), (is_ascii s); cbn [negb orb]; try done.
  cbn [mbind outcome_bind]. by destruct (bool_decide ([d1] = [x2d])), (bool_decide ([d2] = [x2d])), (bool_decide ([d3] = [x2d])),
    (bool_decide (p0 = [x66; x66])).
Qed.
Lemma index_single b (bs : list byte) : length bs = 1%nat -> index (E:=CorrelationError) bs 0 = Ok b -> bs = [b].
Proof. destruct bs as [|x [|]]; cbn; try done. by intros _ [= <-]. Qed.

Lemma from_traceparent_Ok request s c : from_traceparent request s = Ok c ->
  s = traceparent c /\ request_id c = request /\ (request < 2 ^ 128 -> context_ok c).
Proof.
  intros Hf. assert (Hlen : lenN s = 55).
  { unfold from_traceparent in Hf. destruct (uuid_version_random request), (N.eqb_spec (lenN s) 55); done. }
  destruct (split_traceparent s Hlen) as (p0 & p1 & p2 & p3 & d1 & d2 & d3 & L0 & L1 & L2 & L3 & Hs).
  rewrite (from_traceparent_eq request p0 p1 p2 p3 d1 d2 d3 s L0 L1 L2 L3 Hs) in Hf.
  destruct (uuid_version_random request) eqn:Hv; [|done]. destruct (is_ascii s); [|done].
  destruct (bool_decide_reflect ([d1] = [x2d])) as [[= ->]|]; [|done].
  destruct (bool_decide_reflect ([d2] = [x2d])) as [[= ->]|]; [|done].
  destruct (bool_decide_reflect ([d3] = [x2d])) as [[= ->]|]; [|done]. destruct (bool_decide _); [done|]. cbn [negb orb] in Hf.
  apply bind_Ok in Hf as (v & [Hlv ->]%decode_hex_Ok & Hf). apply bind_Ok in Hf as (vb & Hvb%index_single & Hf); [|done].
  subst v. destruct (N.eqb_spec (u8 vb) 0) as [Hv0|]; [|done]. cbn [negb] in Hf.
  apply bind_Ok in Hf as (tr & [Hlt ->]%decode_hex_Ok & Hf). apply bind_Ok in Hf as (sp & [Hls ->]%decode_hex_Ok & Hf).
  apply bind_Ok in Hf as (fl & [Hlf ->]%decode_hex_Ok & Hf). apply bind_Ok in Hf as (fb & Hfb%index_single & Hf); [|done].
  subst fl. apply from_parts_Ok in Hf as (-> & _ & Hr & Ht & Hsp). cbn [request_id]. split; [|split; [done|]].
  - rewrite traceparent_text. cbn [trace_id span_id flags]. rewrite byte_of_u8. rewrite Hs. unfold hex.
    change (concat (hex_byte <$> [vb])) with (hex_byte vb). unfold hex_byte at 1. by rewrite Hv0.
  - intros Hw. split; cbn [request_id trace_id span_id flags]; try done. pose proof (u8_lt fb). unfold U8_MAX. lia.
Qed.
Lemma from_traceparent_print c : context_ok c -> from_traceparent (request_id c) (traceparent c) = Ok c.
Proof.
  intros [Hw Hv Hr Ht Htz Hs Hsz Hf]. rewrite traceparent_text.
  erewrite (from_traceparent_eq _ [x30; x30] (hex (trace_id c)) (hex (span_id c)) (hex [byte_of (flags c)]) x2d x2d x2d); cycle 5.
  - reflexivity.
  - rewrite Hv. assert (Ha : is_ascii ([x30; x30] ++ [x2d] ++ hex (trace_id c) ++ [x2d] ++ hex (span_id c) ++ [x2d] ++ hex [byte_of (flags c)]) = true).
    { pose proof (hex_ascii (trace_id c)) as A1. pose proof (hex_ascii (span_id c)) as A2. pose proof (hex_ascii [byte_of (flags c)]) as A3.
      unfold is_ascii in *. rewrite !forallb_app. by rewrite A1, A2, A3. }
    rewrite Ha, !bool_decide_eq_true_2, bool_decide_eq_false_2 by done. cbn [negb orb].
    rewrite (proj2 (decode_hex_Ok 1 [x30; x30] [x00])) by done. cbn [mbind outcome_bind].
    change (index [x00] 0) with (@Ok CorrelationError _ x00). cbn [mbind outcome_bind]. change (u8 x00 =? 0) with true. cbn [negb].
    rewrite (proj2 (decode_hex_Ok 16 (hex (trace_id c)) (trace_id c))) by done. cbn [mbind outcome_bind].
    rewrite (proj2 (decode_hex_Ok 8 (hex (span_id c)) (span_id c))) by done. cbn [mbind outcome_bind].
    rewrite (proj2 (decode_hex_Ok 1 (hex [byte_of (flags c)]) [byte_of (flags c)])) by done. cbn [mbind outcome_bind].
    change (index [byte_of (flags c)] 0) with (@Ok CorrelationError _ (byte_of (flags c))). cbn [mbind outcome_bind].
    rewrite u8_byte_of, N.mod_small by (unfold U8_MAX in Hf; lia). apply from_parts_Ok. by destruct c.
  - done.
  - unfold hex. rewrite lenN_hex. unfold lenN. by rewrite Ht.
  - unfold hex. rewrite lenN_hex. unfold lenN. by rewrite Hs.
  - done.
Qed.

Lemma no_panic_traceparent request s : no_panic (from_traceparent request s).
Proof.
  destruct (N.eqb_spec (lenN s) 55) as [Hlen|Hlen].
  2:{ unfold from_traceparent. rewrite (proj2 (N.eqb_neq _ _) Hlen). by rewrite orb_true_r. }
  destruct (split_traceparent s Hlen) as (p0 & p1 & p2 & p3 & d1 & d2 & d3 & L0 & L1 & L2 & L3 & Hs).
  rewrite (from_traceparent_eq request p0 p1 p2 p3 d1 d2 d3 s L0 L1 L2 L3 Hs). destruct (_ || _); [done|].
  assert (Hidx : forall v bs, decode_hex 1 v = Ok bs -> no_panic (index (E:=CorrelationError) bs 0)).
  { intros v bs [Hl _]%decode_hex_Ok. apply no_panic_index. unfold lenN. lia. }
  apply no_panic_bind; [apply no_panic_decode_hex|intros v Hv].
  apply no_panic_bind; [by eapply Hidx|intros vb _]. destruct (u8 vb =? 0); [|done]. cbn [negb].
  apply no_panic_bind; [apply no_panic_decode_hex|intros tr _]. apply no_panic_bind; [apply no_panic_decode_hex|intros sp _].
  apply no_panic_bind; [apply no_panic_decode_hex|intros fl Hfl]. apply no_panic_bind; [by eapply Hidx|intros fb _].
  unfold from_parts. by destruct (_ || _).
Qed.

Lemma try_into_Ok t c : try_into_context t = Ok c <-> t = from_context c /\ context_ok c.
Proof.
  unfold try_into_context, from_context. split.
  - destruct (N.eqb_spec (lenN (tr_request_id t)) 16) as [Hr|]; [|done].
    destruct (N.eqb_spec (lenN (tr_trace_id t)) 16) as [Ht|]; [|done].
    destruct (N.eqb_spec (lenN (tr_span_id t)) 8) as [Hs|]; [|done].
    destruct (N.leb_spec (tr_flags t) U8_MAX) as [Hf|]; [|done]. cbn [mbind outcome_bind].
    intros (-> & Hv & Hrf & Htz & Hsz)%from_parts_Ok. cbn [request_id trace_id span_id flags]. split.
    + rewrite to_be_from_be' by (unfold lenN in Hr; lia). by destruct t.
    + split; cbn [request_id trace_id span_id flags]; try done; try (unfold lenN in *; lia).
      pose proof (from_be_lt (tr_request_id t)) as Hlt. by rewrite Hr in Hlt.
  - intros [-> [Hw Hv Hr Ht Htz Hs Hsz Hf]]. cbn [tr_request_id tr_trace_id tr_span_id tr_flags].
    rewrite lenN_to_be. change (N.of_nat 16 =? 16) with true. rewrite from_be_to_be by done.
    unfold lenN. rewrite Ht, Hs, (proj2 (N.leb_le _ _) Hf). cbn [mbind outcome_bind].
    change (N.of_nat 16 =? 16) with true. change (N.of_nat 8 =? 8) with true. cbn [mbind outcome_bind].
    apply from_parts_Ok. by destruct c.
Qed.

(** Trace contexts are transported exactly. [from_traceparent] accepts a header
    exactly when it is the one [traceparent] prints for a valid context of that
    request, and never panics; the protobuf form is decoded to a context exactly when
    it is the one [from_context] makes of a valid context. *)
Theorem trace_context_exact request s t c (Hrequest : request < 2 ^ 128) :
  (from_traceparent request s = Ok c <-> s = traceparent c /\ request_id c = request /\ context_ok c) /\
  no_panic (from_traceparent request s) /\
  (try_into_context t = Ok c <-> t = from_context c /\ context_ok c).
Proof.
  split; [split|split; [apply no_panic_traceparent|apply try_into_Ok]].
  - intros (Hs & Hr & Hok)%from_traceparent_Ok. auto.
  - intros (-> & <- & Hok). by apply from_traceparent_print.
Qed.
End header.

(** ** Witness *)

#[local] Existing Instance uuid_rfc.
Definition example_context : CorrelationContext :=
  mkContext 0x970a3f18_1c6f_4da6_a223_f962_3958_a928 (replicate 15 x00 ++ [x01]) (replicate 7 x00 ++ [xab]) 1.

Lemma trace_context_exact_witness :
  from_traceparent 0x970a3f18_1c6f_4da6_a223_f962_3958_a928 (traceparent example_context) = Ok example_context.
Proof.
  destruct (trace_context_exact 0x970a3f18_1c6f_4da6_a223_f962_3958_a928 (traceparent example_context)
    (from_context example_context) example_context) as [[_ Hparse] _]; [reflexivity|].
  apply Hparse. split; [reflexivity|]. split; [reflexivity|]. split; vm_compute; first [reflexivity|discriminate].
Defined.
End Env.
