(* ===== verification/RelayPresence.v ===== *)
(** * The Relay's presence cache (crate [peerward-relay], presence_cache.rs)

    Which Relay serves which Peer, learned from database snapshots and from the
    authenticated announcements of other Relays, fenced by generations. The
    records of the store it shares with (peerward-store model.rs) and the errors of
    the crate (protocol.rs) are here too. *)

From S2P Require Import Prelude Ordered Net Fields Directory Credentials Wire.
From Stdlib Require Import ZArith NArith Lia.
From stdpp Require Import base tactics decidable countable numbers list sorting gmap.
From Stdlib.Init Require Import Byte.
Set Default Goal Selector "!".
Local Open Scope N_scope.

(** [time::OffsetDateTime]: an instant, compared as one; [unix_timestamp] is its
    whole seconds and [from_unix_timestamp] fails outside the supported years. *)
Class TimeLib := {
  OffsetDateTime : Type;
  odt_eq_dec :: EqDecision OffsetDateTime;
  odt_lt : OffsetDateTime -> OffsetDateTime -> bool;
  unix_timestamp : OffsetDateTime -> Z;
  from_unix_timestamp : Z -> option OffsetDateTime;
}.
Class TimeLaws `{TimeLib} : Prop := {
  timestamp_i64 t : i64_ok (unix_timestamp t);
  timestamp_from s t : from_unix_timestamp s = Some t -> unix_timestamp t = s;
  timestamp_supported t : is_Some (from_unix_timestamp (unix_timestamp t));
  timestamp_mono s t : odt_lt s t = true -> (unix_timestamp s <= unix_timestamp t)%Z;
}.

(** ** protocol.rs: [RelayError]; [Io] and [Store] carry errors of code outside the model. *)
Inductive RelayError :=
  | InvalidConfig | WireErr (e : Wire.WireError) | CredentialErr (e : Cred.CredentialError)
  | DirectoryErr (e : Dir.DirectoryError) | NoRoute | StaleFence | QueueFull | MalformedForwarded
  | HandshakeLimited.
#[local] Existing Instances Wire.WireError_eq_dec Cred.CredentialError_eq_dec Dir.DirectoryError_eq_dec.
#[export] Instance RelayError_eq_dec : EqDecision RelayError.
Proof. solve_decision. Defined.

Module Pc.

Notation AttachmentId := DomainId (only parsing).
Notation rresult := (outcome RelayError).

(** ** peerward-store, model.rs *)

Inductive PresenceRole := Primary | Standby.
#[export] Instance PresenceRole_eq_dec : EqDecision PresenceRole.
Proof. solve_decision. Defined.
Definition role_rank (r : PresenceRole) : N := match r with Primary => 0 | Standby => 1 end.
#[export] Instance role_rank_inj : Inj (=) (=) role_rank.
Proof. by intros [] []. Qed.
#[export] Instance PresenceRole_countable : Countable PresenceRole.
Proof. apply (inj_countable' role_rank (fun n => if n =? 0 then Primary else Standby)). by intros []. Defined.
#[export] Instance PresenceRole_compare : Compare PresenceRole := compare_via role_rank.
#[export] Instance PresenceRole_compare_laws : CompareLaws PresenceRole.
Proof. apply compare_via_laws. apply _. Qed.

Section presence.
Context `{TimeLib}.

Record PresenceLease := mkLease {
  pl_mesh_id : MeshId;
  pl_peer_id : PeerId;
  pl_relay_id : RelayId;
  pl_attachment_id : AttachmentId;
  pl_role : PresenceRole;
  pl_lease_deadline : OffsetDateTime;
}.
Record PresenceOwner := mkOwner { po_relay_id : RelayId; po_generation : Z }.
Record PresenceSnapshot := mkSnapshot {
  ps_peer_id : PeerId;
  ps_relay_id : RelayId;
  ps_attachment_id : AttachmentId;
  ps_role : PresenceRole;
  ps_generation : Z;
  ps_lease_deadline : OffsetDateTime;
}.

(** ** presence_cache.rs *)

Definition PRESENCE_WIRE_VERSION : N := 1.
Definition PRESENCE_WIRE_LENGTH : N := 67.

Definition PresenceKey : Type := PeerId * PresenceRole * option RelayId.

Record PresenceCacheEntry := mkEntry {
  peer_id : PeerId;
  relay_id : RelayId;
  attachment_id : AttachmentId;
  role : PresenceRole;
  generation : Z;
  lease_deadline : OffsetDateTime;
}.
#[export] Instance PresenceCacheEntry_eq_dec : EqDecision PresenceCacheEntry.
Proof. solve_decision. Defined.
Record PresenceAnnouncement := mkAnnouncement { entry : PresenceCacheEntry; released : bool }.
#[export] Instance PresenceAnnouncement_eq_dec : EqDecision PresenceAnnouncement.
Proof. solve_decision. Defined.

Record PresenceCache := mkCache {
  entries : gmap PresenceKey PresenceCacheEntry;
  generations : gmap PresenceKey Z;
  updates : gmap PresenceKey N;
  revision : N;
}.
Definition default_cache : PresenceCache := mkCache ∅ ∅ ∅ 0.

(** [(role == PresenceRole::Standby).then_some(relay)] *)
Definition standby_relay (r : PresenceRole) (relay : RelayId) : option RelayId :=
  match r with Standby => Some relay | Primary => None end.
Definition presence_key (e : PresenceCacheEntry) : PresenceKey :=
  (peer_id e, role e, standby_relay (role e) (relay_id e)).

(** The fields [observe] compares when a generation is announced again. *)
Definition conflicts (update : PresenceAnnouncement) (current : PresenceCacheEntry) : bool :=
  let e := entry update in
  bool_decide (generation e = generation current) &&
  (negb (bool_decide (relay_id e = relay_id current))
   || negb (bool_decide (attachment_id e = attachment_id current))
   || negb (bool_decide (role e = role current))
   || (negb (released update) &&
       (unix_timestamp (lease_deadline e) <? unix_timestamp (lease_deadline current))%Z)).

Definition observe (authenticated_relay : RelayId) (update : PresenceAnnouncement) (self : PresenceCache)
    : PresenceCache * rresult bool :=
  let e := entry update in
  if negb (bool_decide (relay_id e = authenticated_relay)) || (generation e <=? 0)%Z
  then (self, Err StaleFence) else
  let key := presence_key e in
  let current_generation := generations self !! key in
  if match current_generation with Some current => (generation e <? current)%Z | None => false end
  then (self, Ok false) else
  let advanced := match current_generation with Some current => (current <? generation e)%Z | None => true end in
  let store :=
    match checked_add (revision self) 1 with
    | None => (self, Err StaleFence)
    | Some revision' =>
        (mkCache (if released update then delete key (entries self) else <[key := e]> (entries self))
           (<[key := generation e]> (generations self)) (<[key := revision']> (updates self)) revision',
         Ok (advanced || released update))
    end in
  match entries self !! key with
  | Some current => if conflicts update current then (self, Err StaleFence) else store
  | None => if bool_decide (current_generation = Some (generation e)) then (self, Ok false) else store
  end.

Definition observe_local (e : PresenceCacheEntry) : PresenceCache -> PresenceCache * rresult bool :=
  observe (relay_id e) (mkAnnouncement e false).
Definition release_local (e : PresenceCacheEntry) : PresenceCache -> PresenceCache * rresult bool :=
  observe (relay_id e) (mkAnnouncement e true).

Definition row_entry (row : PresenceSnapshot) : PresenceCacheEntry :=
  mkEntry (ps_peer_id row) (ps_relay_id row) (ps_attachment_id row) (ps_role row) (ps_generation row)
    (ps_lease_deadline row).
Definition row_key (row : PresenceSnapshot) : PresenceKey :=
  (ps_peer_id row, ps_role row, standby_relay (ps_role row) (ps_relay_id row)).

(** [self.updates.get(key).is_some_and(|revision| *revision > started)] *)
Definition updated_since (started : N) (self : PresenceCache) (key : PresenceKey) : bool :=
  match updates self !! key with Some u => started <? u | None => false end.
(** The rows [install_snapshot] passes over. *)
Definition skip_row (started : N) (e : PresenceCacheEntry) (self : PresenceCache) : bool :=
  let key := presence_key e in
  (updated_since started self key &&
   match generations self !! key with Some g => (generation e <=? g)%Z | None => false end)
  || match entries self !! key with
     | Some current => bool_decide (generation current = generation e) && odt_lt (lease_deadline e) (lease_deadline current)
     | None => false
     end.
Fixpoint install_rows (started : N) (rows : list PresenceSnapshot) (self : PresenceCache)
    : PresenceCache * rresult unit :=
  match rows with
  | [] => (self, Ok tt)
  | row :: rows' =>
      let e := row_entry row in
      if skip_row started e self then install_rows started rows' self else
      match observe_local e self with
      | (self', Ok _) => install_rows started rows' self'
      | (self', Err err) => (self', Err err)
      | (self', Panic) => (self', Panic)
      end
  end.
(** [self.entries.retain(..)] *)
Definition retain_known (keys : gset PresenceKey) (started : N) (self : PresenceCache) : PresenceCache :=
  mkCache (filter (fun e : PresenceKey * PresenceCacheEntry =>
             bool_decide (e.1 ∈ keys) || updated_since started self e.1 = true) (entries self))
    (generations self) (updates self) (revision self).
Definition install_snapshot (rows : list PresenceSnapshot) (started : N) (self : PresenceCache)
    : PresenceCache * rresult unit :=
  install_rows started rows (retain_known (list_to_set (row_key <$> rows)) started self).

(** [permit_expired || entry.lease_deadline > now] *)
Definition lease_live (now : OffsetDateTime) (permit_expired : bool) (e : PresenceCacheEntry) : bool :=
  permit_expired || odt_lt now (lease_deadline e).
Definition primary_owner (peer : PeerId) (now : OffsetDateTime) (permit_expired : bool) (self : PresenceCache)
    : rresult PresenceOwner :=
  match entries self !! (peer, Primary, None) with
  | Some e => if lease_live now permit_expired e then Ok (mkOwner (relay_id e) (generation e)) else Err NoRoute
  | None => Err NoRoute
  end.
Definition lease_key (lease : PresenceLease) : PresenceKey :=
  (pl_peer_id lease, pl_role lease, standby_relay (pl_role lease) (pl_relay_id lease)).
Definition matches_attachment (lease : PresenceLease) (gen : Z) (self : PresenceCache) : bool :=
  match entries self !! lease_key lease with
  | Some e => bool_decide (generation e = gen) && bool_decide (relay_id e = pl_relay_id lease)
              && bool_decide (attachment_id e = pl_attachment_id lease)
  | None => false
  end.
Definition authenticates_source (peer : PeerId) (relay : RelayId) (gen : Z) (now : OffsetDateTime)
    (permit_expired : bool) (self : PresenceCache) : bool :=
  existsb (fun e => bool_decide (relay_id e = relay) && bool_decide (generation e = gen)
                    && lease_live now permit_expired e)
    (omap (fun k => entries self !! k) [(peer, Primary, None); (peer, Standby, Some relay)]).
Definition announcements_owned_by (relay : RelayId) (self : PresenceCache) : list PresenceAnnouncement :=
  (fun e => mkAnnouncement e false) <$> filter (fun e => relay_id e = relay) (bt_entries (entries self)).*2.

(** *** The wire form *)

Definition role_byte (r : PresenceRole) : byte := match r with Primary => x01 | Standby => x02 end.
Definition role_of (n : N) : option PresenceRole :=
  if n =? 1 then Some Primary else if n =? 2 then Some Standby else None.
Definition role_field : field PresenceRole := tag_field role_byte role_of.
Definition encode_presence (update : PresenceAnnouncement) : list byte :=
  let e := entry update in
  [byte_of PRESENCE_WIRE_VERSION; if released update then x01 else x00]
  ++ id_bytes (peer_id e) ++ id_bytes (relay_id e) ++ id_bytes (attachment_id e)
  ++ [role_byte (role e)] ++ i64_to_be (generation e) ++ i64_to_be (unix_timestamp (lease_deadline e)).
Definition KindMismatch : RelayError := WireErr Wire.KindMismatch.
Definition decode_presence `{UuidLib} (body : list byte) : rresult PresenceAnnouncement :=
  if negb (lenN body =? PRESENCE_WIRE_LENGTH) then Err KindMismatch else
  version ← index body 0;
  if negb (u8 version =? PRESENCE_WIRE_VERSION) then Err KindMismatch else
  flag ← index body 1;
  if 1 <? u8 flag then Err KindMismatch else
  peer ← read id_field KindMismatch body 2 18;
  relay ← read id_field KindMismatch body 18 34;
  attachment ← read id_field KindMismatch body 34 50;
  role ← read role_field KindMismatch body 50 51;
  gen ← read i64_field KindMismatch body 51 59;
  deadline ← read i64_field KindMismatch body 59 67;
  lease ← ok_or (from_unix_timestamp deadline) KindMismatch;
  Ok (mkAnnouncement (mkEntry peer relay attachment role gen lease) (u8 flag =? 1)).

End presence.

#[export] Instance role_field_laws : FieldLaws role_field.
Proof.
  apply tag_field_laws; [by intros []|]. intros n a. unfold role_of.
  destruct (N.eqb_spec n 1) as [->|]; [by intros [= <-]|]. destruct (N.eqb_spec n 2) as [->|]; [by intros [= <-]|done].
Qed.


(** ** What one announcement does *)

Section fencing.
Context `{TimeLib}.
Implicit Types (c : PresenceCache) (a : PresenceAnnouncement) (k : PresenceKey).

Notation gen a := (generation (entry a)).
Notation key a := (presence_key (entry a)).

Record cache_wf c : Prop := {
  cw_key k e : entries c !! k = Some e -> presence_key e = k;
  cw_gen k e : entries c !! k = Some e -> generations c !! k = Some (generation e);
  cw_pos k g : generations c !! k = Some g -> (0 < g)%Z;
  cw_updates k u : updates c !! k = Some u -> u <= revision c;
  cw_revision : revision c <= U64_MAX;
}.

(** The cache after an accepted announcement. *)
Definition recorded a c : PresenceCache :=
  mkCache (if released a then delete (key a) (entries c) else <[key a := entry a]> (entries c))
    (<[key a := gen a]> (generations c)) (<[key a := revision c + 1]> (updates c)) (revision c + 1).
Record admitted a c : Prop := {
  ad_pos : (0 < gen a)%Z;
  ad_newer g : generations c !! key a = Some g -> (g <= gen a)%Z;
  ad_agrees e : entries c !! key a = Some e -> conflicts a e = false;
  ad_live : entries c !! key a = None -> generations c !! key a <> Some (gen a);
  ad_room : revision c + 1 <= U64_MAX;
}.
(** A newer generation is known, or this one is over. *)
Definition superseded a c : Prop :=
  exists g, generations c !! key a = Some g /\ ((gen a < g)%Z \/ gen a = g /\ entries c !! key a = None).

Lemma observe_cases relay a c :
  (exists b, observe relay a c = (recorded a c, Ok b) /\ admitted a c /\ relay_id (entry a) = relay) \/
  (observe relay a c = (c, Ok false) /\ superseded a c) \/ observe relay a c = (c, Err StaleFence).
Proof.
  unfold observe. cbv zeta.
  destruct (bool_decide_reflect (relay_id (entry a) = relay)) as [Hr|]; cbn [negb orb]; [|by right; right].
  destruct (Z.leb_spec (gen a) 0) as [|Hpos]; [by right; right|].
  destruct (generations c !! key a) as [g|] eqn:Hg; [destruct (Z.ltb_spec (gen a) g) as [Hlt|Hge]|].
  { right; left. split; [done|]. exists g. split; [done|by left]. }
  - destruct (entries c !! key a) as [e|] eqn:He.
    + destruct (conflicts a e) eqn:Hc; [by right; right|].
      unfold checked_add. destruct (N.leb_spec (revision c + 1) U64_MAX); [|by right; right].
      left. eexists. split; [reflexivity|]. split; [|done].
      split; (done || congruence).
    + case_bool_decide as Hgg.
      { right; left. split; [done|]. exists g. split; [done|]. right. split; [congruence|done]. }
      unfold checked_add. destruct (N.leb_spec (revision c + 1) U64_MAX); [|by right; right].
      left. eexists. split; [reflexivity|]. split; [|done].
      split; (done || congruence).
  - destruct (entries c !! key a) as [e|] eqn:He;
      [destruct (conflicts a e) eqn:Hc; [by right; right|]|rewrite bool_decide_eq_false_2 by done];
      unfold checked_add; (destruct (N.leb_spec (revision c + 1) U64_MAX); [|by right; right]);
      left; eexists; (split; [reflexivity|]); (split; [|done]); split; (done || congruence).
Qed.

Lemma recorded_wf a c : cache_wf c -> admitted a c -> cache_wf (recorded a c).
Proof.
  intros [K G P U R] [Hp Hn Ha Hl Hr]. split; cbn.
  - intros k e. destruct (released a).
    + intros [_ ?]%lookup_delete_Some. by apply K.
    + intros [[<- <-]|[_ ?]]%lookup_insert_Some; [done|by apply K].
  - intros k e. destruct (released a).
    + intros [Hne He]%lookup_delete_Some. rewrite lookup_insert_ne by done. by apply G.
    + intros [[<- <-]|[Hne He]]%lookup_insert_Some; [by rewrite lookup_insert_eq|].
      rewrite lookup_insert_ne by done. by apply G.
  - intros k g [[<- <-]|[_ ?]]%lookup_insert_Some; [done|by eapply P].
  - intros k u [[<- <-]|[_ Hu]]%lookup_insert_Some; [lia|]. apply U in Hu. lia.
  - done.
Qed.

(** What never goes back at a key: the generation, the end of a session, and
    within a session its identity and the deadline it was renewed to. *)
Definition same_session (e e' : PresenceCacheEntry) : Prop :=
  relay_id e = relay_id e' /\ attachment_id e = attachment_id e' /\
  (unix_timestamp (lease_deadline e) <= unix_timestamp (lease_deadline e'))%Z.
Definition advances c c' : Prop := forall k g, generations c !! k = Some g ->
  exists g', generations c' !! k = Some g' /\ (g <= g')%Z /\
    (g = g' -> entries c !! k = None -> entries c' !! k = None) /\
    (g = g' -> forall e e', entries c !! k = Some e -> entries c' !! k = Some e' -> same_session e e').

Lemma same_session_refl e : same_session e e.
Proof. split_and!; [done|done|lia]. Qed.
Lemma same_session_trans x y z : same_session x y -> same_session y z -> same_session x z.
Proof. intros (? & ? & ?) (? & ? & ?). split_and!; [congruence|congruence|lia]. Qed.
Lemma advances_refl c : advances c c.
Proof.
  intros k g Hg. exists g. split_and!; [done|lia|done|]. intros _ e e' He He'.
  rewrite He in He'. injection He' as <-. apply same_session_refl.
Qed.
Lemma advances_trans c d e : advances c d -> advances d e -> advances c e.
Proof.
  intros H1 H2 k g Hg. destruct (H1 _ _ Hg) as (g1 & Hg1 & Hle1 & Hn1 & Hs1).
  destruct (H2 _ _ Hg1) as (g2 & Hg2 & Hle2 & Hn2 & Hs2).
  exists g2. split; [done|]. split; [lia|]. split.
  - intros -> Hc. assert (g1 = g2) as -> by lia. by apply Hn2, Hn1.
  - intros -> x z Hx Hz. assert (g1 = g2) as -> by lia.
    destruct (entries d !! k) as [y|] eqn:Hy.
    + eapply same_session_trans; [by apply Hs1|by apply Hs2].
    + rewrite Hn2 in Hz by done. done.
Qed.

Lemma conflicts_false a e : conflicts a e = false -> gen a = generation e ->
  relay_id (entry a) = relay_id e /\ attachment_id (entry a) = attachment_id e /\ role (entry a) = role e /\
  (released a = false -> (unix_timestamp (lease_deadline e) <= unix_timestamp (lease_deadline (entry a)))%Z).
Proof.
  unfold conflicts. intros Hc Hg. rewrite bool_decide_eq_true_2 in Hc by done. cbn [andb] in Hc.
  apply orb_false_iff in Hc as [[[Hr Ha]%orb_false_iff Hro]%orb_false_iff Hd].
  apply negb_false_iff, bool_decide_eq_true in Hr, Ha, Hro.
  split_and!; try done. intros Hrel. rewrite Hrel in Hd. cbn in Hd. by apply Z.ltb_ge in Hd.
Qed.

Lemma recorded_advances a c : cache_wf c -> admitted a c -> advances c (recorded a c).
Proof.
  intros Hw [Hp Hn Ha Hl Hr] k g Hg. destruct (decide (k = key a)) as [->|Hne].
  - exists (gen a). cbn [generations entries recorded]. rewrite lookup_insert_eq. split; [done|]. split; [by apply Hn|].
    split; [intros -> Hnone; by destruct (Hl Hnone)|].
    intros -> e e' He. pose proof (Ha _ He) as Hc. pose proof (cw_gen _ Hw _ _ He) as Hge. rewrite Hg in Hge.
    injection Hge as Hge. apply conflicts_false in Hc as (Hre & Hat & _ & Hd); [|done].
    destruct (released a) eqn:Hrel; [by rewrite lookup_delete_eq|]. rewrite lookup_insert_eq. intros [= <-].
    split_and!; [done|done|by apply Hd].
  - assert (He : forall x, entries (recorded a c) !! k = x <-> entries c !! k = x).
    { intros x. cbn. destruct (released a); [by rewrite lookup_delete_ne|by rewrite lookup_insert_ne]. }
    assert (Hgk : generations (recorded a c) !! k = Some g) by (cbn; by rewrite lookup_insert_ne).
    exists g. split; [done|]. split; [lia|]. split; [intros _; by rewrite He|].
    intros _ e e' Hx Hx'%He. rewrite Hx in Hx'. injection Hx' as <-. apply same_session_refl.
Qed.

Lemma observe_evolves relay a c : cache_wf c ->
  cache_wf (observe relay a c).1 /\ advances c (observe relay a c).1 /\ (observe relay a c).2 <> Panic.
Proof.
  intros Hw. destruct (observe_cases relay a c) as [(b & -> & Had & _)|[[-> _]| ->]]; cbn.
  - split_and!; [by apply recorded_wf|by apply recorded_advances|done].
  - split_and!; [done|apply advances_refl|done].
  - split_and!; [done|apply advances_refl|done].
Qed.

(** ** Snapshots *)

Lemma retain_wf keys started c : cache_wf c -> cache_wf (retain_known keys started c) /\ advances c (retain_known keys started c).
Proof.
  intros Hw. pose proof Hw as [K G P U R].
  assert (Hsub : forall k e, entries (retain_known keys started c) !! k = Some e -> entries c !! k = Some e)
    by (intros k e; cbn; by intros [? _]%map_lookup_filter_Some).
  split; [split; cbn; eauto|].
  intros k g Hg. exists g. split; [done|]. split; [lia|]. split.
  - intros _ Hn. destruct (entries (retain_known keys started c) !! k) as [e|] eqn:He; [|done]. apply Hsub in He. congruence.
  - intros _ e e' He He'%Hsub. rewrite He in He'. injection He' as <-. apply same_session_refl.
Qed.

Lemma install_rows_evolves started rows c : cache_wf c ->
  cache_wf (install_rows started rows c).1 /\ advances c (install_rows started rows c).1 /\
  (install_rows started rows c).2 <> Panic.
Proof.
  revert c. induction rows as [|row rows IH]; intros c Hw; cbn.
  { split_and!; [done|apply advances_refl|done]. }
  destruct (skip_row started (row_entry row) c); [by apply IH|].
  unfold observe_local. pose proof (observe_evolves (relay_id (row_entry row)) (mkAnnouncement (row_entry row) false) c Hw)
    as (Hw' & Had & Hp).
  destruct (observe _ _ c) as [c' [b|err|]] eqn:Ho; cbn in *; [|by split_and!|done].
  destruct (IH c' Hw') as (H1 & H2 & H3). split_and!; [done|by eapply advances_trans|done].
Qed.
Lemma install_snapshot_evolves rows started c : cache_wf c ->
  cache_wf (install_snapshot rows started c).1 /\ advances c (install_snapshot rows started c).1 /\
  (install_snapshot rows started c).2 <> Panic.
Proof.
  intros Hw. unfold install_snapshot. destruct (retain_wf (list_to_set (row_key <$> rows)) started c Hw) as [Hw' Ha].
  destruct (install_rows_evolves started rows _ Hw') as (H1 & H2 & H3).
  split_and!; [done|by eapply advances_trans|done].
Qed.

(** ** Sequences of operations; a failed call may have done part of its work. *)

Inductive op :=
  | Observe (authenticated_relay : RelayId) (a : PresenceAnnouncement)
  | ObserveLocal (e : PresenceCacheEntry)
  | ReleaseLocal (e : PresenceCacheEntry)
  | InstallSnapshot (rows : list PresenceSnapshot) (started : N).
Definition apply_op c (o : op) : PresenceCache :=
  match o with
  | Observe relay a => (observe relay a c).1
  | ObserveLocal e => (observe_local e c).1
  | ReleaseLocal e => (release_local e c).1
  | InstallSnapshot rows started => (install_snapshot rows started c).1
  end.
Definition run (ops : list op) c : PresenceCache := foldl apply_op c ops.

Lemma apply_op_evolves c o : cache_wf c -> cache_wf (apply_op c o) /\ advances c (apply_op c o).
Proof.
  intros Hw. destruct o as [relay a|e|e|rows started]; cbn.
  - destruct (observe_evolves relay a c Hw) as (? & ? & _). done.
  - destruct (observe_evolves (relay_id e) (mkAnnouncement e false) c Hw) as (? & ? & _). done.
  - destruct (observe_evolves (relay_id e) (mkAnnouncement e true) c Hw) as (? & ? & _). done.
  - destruct (install_snapshot_evolves rows started c Hw) as (? & ? & _). done.
Qed.
Lemma run_advances ops c : cache_wf c -> cache_wf (run ops c) /\ advances c (run ops c).
Proof.
  revert c. induction ops as [|o ops IH]; intros c Hw; [split; [done|apply advances_refl]|].
  destruct (apply_op_evolves c o Hw) as [Hw' Ha]. destruct (IH _ Hw') as [Hr Hra].
  split; [done|]. by eapply advances_trans.
Qed.
Lemma default_cache_wf : cache_wf default_cache.
Proof. split; cbn; intros; try (by rewrite lookup_empty in *); unfold U64_MAX; lia. Qed.

(** An announcement [observe] did not refuse settles its generation. *)
Lemma observe_Ok relay a c c' b : observe relay a c = (c', Ok b) -> released a = true ->
  exists g, generations c' !! key a = Some g /\ (gen a <= g)%Z /\ (g = gen a -> entries c' !! key a = None).
Proof.
  intros Ho Hrel. destruct (observe_cases relay a c) as [(b' & He & Had & _)|[[He (g & Hg & Hcase)]|He]];
    rewrite He in Ho; [injection Ho as <- _|injection Ho as <- _|done].
  - exists (gen a). cbn. rewrite Hrel, lookup_insert_eq, lookup_delete_eq. split_and!; [done|lia|done].
  - exists g. split_and!; [done|destruct Hcase as [|[-> _]]; lia|]. intros ->. by destruct Hcase as [|[_ ?]]; [lia|].
Qed.
End fencing.


(** ** Convergence: the cache is the newest announcement of every key *)

Section convergence.
Context `{TimeLib}.
Implicit Types (c : PresenceCache) (a b x : PresenceAnnouncement) (k : PresenceKey) (l : list PresenceAnnouncement).

Notation gen a := (generation (entry a)).
Notation key a := (presence_key (entry a)).
Notation deadline a := (unix_timestamp (lease_deadline (entry a))).

(** Each Relay's announcements, whoever passes them on. *)
Definition observe_all l c : PresenceCache := foldl (fun c a => (observe (relay_id (entry a)) a c).1) c l.

(** Generations first; a release ends its generation; then the later deadline. *)
Definition older a b : Prop :=
  (gen a < gen b)%Z \/ gen a = gen b /\ (released b = true \/ released a = false /\ (deadline a <= deadline b)%Z).
Definition newest l a : Prop := a ∈ l /\ forall b, b ∈ l -> key b = key a -> older b a.

(** A generation is one session, with deadlines in whole seconds as the wire has them. *)
Definition one_session l : Prop := forall a b, a ∈ l -> b ∈ l -> key a = key b -> gen a = gen b ->
  attachment_id (entry a) = attachment_id (entry b) /\ relay_id (entry a) = relay_id (entry b) /\
  (deadline a = deadline b -> lease_deadline (entry a) = lease_deadline (entry b)).
Definition positive l : Prop := Forall (fun a => (0 < gen a)%Z) l.

(** The cell of key [k] after [l]: nothing, or what its newest announcement says. *)
Inductive cell_of l c k : Prop :=
  | CellNone : (forall a, a ∈ l -> key a <> k) -> generations c !! k = None -> entries c !! k = None -> cell_of l c k
  | CellOf a : newest l a -> key a = k -> generations c !! k = Some (gen a) ->
      entries c !! k = (if released a then None else Some (entry a)) -> cell_of l c k.

Lemma older_refl a : older a a.
Proof. right. split; [done|]. destruct (released a); [by left|right; split; [done|lia]]. Qed.
Lemma older_trans a b x : older a b -> older b x -> older a x.
Proof.
  intros [|[H1 H2]] [|[H3 H4]]; [left; lia|left; lia|left; lia|]. right. split; [congruence|].
  destruct H4 as [|[H4 ?]]; [by left|]. destruct H2 as [|[? ?]]; [congruence|]. right. split; [done|lia].
Qed.
Lemma newest_snoc l a x : newest l a -> (key x = key a -> older x a) -> newest (l ++ [x]) a.
Proof.
  intros [Hin Hmax] Hx. split; [apply elem_of_app; by left|].
  intros b [Hb| ->%list_elem_of_singleton]%elem_of_app Hk; [by apply Hmax|by apply Hx].
Qed.
Lemma newest_here l x : (forall b, b ∈ l -> key b = key x -> older b x) -> newest (l ++ [x]) x.
Proof.
  intros Hmax. split; [apply elem_of_app; right; by left|].
  intros b [Hb| ->%list_elem_of_singleton]%elem_of_app Hk; [by apply Hmax|apply older_refl].
Qed.

Lemma cell_of_same l c x : (forall a, newest l a -> key a = key x -> older x a) ->
  (exists a, a ∈ l /\ key a = key x) -> cell_of l c (key x) -> cell_of (l ++ [x]) c (key x).
Proof.
  intros Hx (a0 & Ha0 & Hk0) [Hno _ _|a Hn Hk Hg He]; [by destruct (Hno _ Ha0)|].
  eapply CellOf; [apply newest_snoc; [exact Hn|]|done|done|done]. intros _. by apply Hx.
Qed.
Lemma cell_of_other l c x k : k <> key x -> cell_of l c k -> cell_of (l ++ [x]) c k.
Proof.
  intros Hne [Hno Hg He|a Hn Hk Hg He].
  - apply CellNone; [|done|done]. intros a [Ha| ->%list_elem_of_singleton]%elem_of_app; [by apply Hno|congruence].
  - eapply CellOf; [apply newest_snoc; [exact Hn|congruence]|done|done|done].
Qed.
Lemma cell_of_recorded l c x k : (forall b, b ∈ l -> key b = key x -> older b x) ->
  cell_of l c k -> cell_of (l ++ [x]) (recorded x c) k.
Proof.
  intros Hmax Hc. destruct (decide (k = key x)) as [->|Hne].
  - eapply CellOf; [by apply newest_here|done|cbn; by rewrite lookup_insert_eq|]. cbn.
    destruct (released x); [by rewrite lookup_delete_eq|by rewrite lookup_insert_eq].
  - assert (Hg : generations (recorded x c) !! k = generations c !! k) by (cbn; by rewrite lookup_insert_ne).
    assert (He : entries (recorded x c) !! k = entries c !! k)
      by (cbn; destruct (released x); [by rewrite lookup_delete_ne|by rewrite lookup_insert_ne]).
    apply (cell_of_other l c x k) in Hc; [|done].
    destruct Hc as [Hno Hg' He'|a Hn Hk Hg' He']; [apply CellNone; [done|by rewrite Hg|by rewrite He]|].
    by eapply CellOf; [exact Hn|done|by rewrite Hg|by rewrite He].
Qed.

Lemma newest_lookup l c x : cell_of l c (key x) -> (exists a, a ∈ l /\ key a = key x) ->
  exists a, newest l a /\ key a = key x /\ generations c !! key x = Some (gen a) /\
    entries c !! key x = (if released a then None else Some (entry a)).
Proof. intros [Hno _ _|a Hn Hk Hg He] (a0 & Ha0 & Hk0); [by destruct (Hno _ Ha0)|by exists a]. Qed.

(** One more announcement keeps every cell the newest one. *)
Lemma observe_cell l c x : one_session (l ++ [x]) -> (0 < gen x)%Z -> revision c + 1 <= U64_MAX ->
  (forall k, cell_of l c k) -> forall k, cell_of (l ++ [x]) (observe (relay_id (entry x)) x c).1 k.
Proof.
  intros Hone Hpos Hroom Hc k. pose proof (Hc (key x)) as Hx. unfold observe. cbv zeta.
  rewrite bool_decide_eq_true_2 by done. rewrite (proj2 (Z.leb_gt _ _)) by done. cbn [negb orb].
  unfold checked_add. rewrite (proj2 (N.leb_le _ _)) by done.
  destruct Hx as [Hno Hg He|a [Hin Hmax] Hk Hg He]; rewrite Hg, He.
  { rewrite bool_decide_eq_false_2 by done. cbn [fst].
    apply (cell_of_recorded l c x k); [|done]. intros b Hb Hkb. by destruct (Hno _ Hb). }
  assert (Hstay : older x a -> cell_of (l ++ [x]) c k).
  { intros Hxa. destruct (decide (k = key x)) as [->|]; [|by apply cell_of_other].
    apply cell_of_same; [|by exists a|done]. intros a' [Hin' Hmax'] Hk'. eapply older_trans; [exact Hxa|].
    apply Hmax'; [done|congruence]. }
  assert (Hwin : older a x -> cell_of (l ++ [x]) (recorded x c) k).
  { intros Hax. apply cell_of_recorded; [|done]. intros b Hb Hkb. eapply older_trans; [apply Hmax; [done|congruence]|done]. }
  destruct (Z.ltb_spec (gen x) (gen a)) as [Hlt|Hge]; [by apply Hstay; left|].
  destruct (released a) eqn:Hra.
  { case_bool_decide as Hgg; [|by apply Hwin; left; assert (gen a <> gen x) by (intros Hxx; apply Hgg; by rewrite Hxx); lia].
    apply Hstay. right. split; [congruence|]. by left. }
  destruct (conflicts x (entry a)) eqn:Hcf; cbn [fst].
  - unfold conflicts in Hcf. apply andb_true_iff in Hcf as [Hgg%bool_decide_eq_true Hcf].
    destruct (Hone x a) as (Hat & Hre & _); [apply elem_of_app; right; by left|apply elem_of_app; by left|done|done|].
    assert (Hro : role (entry x) = role (entry a)) by (unfold presence_key in Hk; congruence).
    rewrite Hat, Hre, Hro, !bool_decide_eq_true_2 in Hcf by done. cbn [negb orb] in Hcf.
    apply andb_true_iff in Hcf as [Hrx%negb_true_iff Hd%Z.ltb_lt].
    apply Hstay. right. split; [done|]. right. split; [done|lia].
  - apply Hwin. destruct (decide (gen x = gen a)) as [Hgg|]; [|left; lia]. right. split; [done|].
    destruct (released x) eqn:Hrx; [by left|right; split; [done|]].
    apply conflicts_false in Hcf as (_ & _ & _ & Hd); [by apply Hd|done].
Qed.

Lemma observe_revision relay a c : revision (observe relay a c).1 <= revision c + 1.
Proof. destruct (observe_cases relay a c) as [(b & -> & _)|[[-> _]| ->]]; cbn; lia. Qed.
Lemma observe_all_revision l c : revision (observe_all l c) <= revision c + lenN l.
Proof.
  revert c. induction l as [|a l IH]; intros c; [cbn; lia|]. rewrite lenN_cons. cbn [observe_all foldl].
  etransitivity; [apply IH|]. pose proof (observe_revision (relay_id (entry a)) a c). lia.
Qed.

Lemma observe_all_cells l : one_session l -> positive l -> lenN l <= U64_MAX ->
  forall k, cell_of l (observe_all l default_cache) k.
Proof.
  unfold observe_all. induction l as [|x l IH] using rev_ind; intros Hone Hpos Hroom.
  { intros k. apply CellNone; [by intros a Ha%not_elem_of_nil|apply lookup_empty..]. }
  apply Forall_app in Hpos as [Hpos [Hx _]%Forall_cons]. rewrite lenN_app in Hroom. change (lenN [x]) with 1 in Hroom.
  rewrite foldl_app. cbn [foldl]. apply observe_cell; [done|done| |].
  - pose proof (observe_all_revision l default_cache) as Hr. unfold observe_all in Hr. cbn [revision default_cache] in Hr. lia.
  - apply IH; [|done|lia]. intros a b Ha Hb. apply Hone; apply elem_of_app; by left.
Qed.

(** Two newest announcements of one key say the same. *)
Lemma newest_agree l l' a b : one_session l -> (forall x, x ∈ l <-> x ∈ l') -> newest l a -> newest l' b -> key a = key b ->
  gen a = gen b /\ released a = released b /\ (released a = false -> entry a = entry b).
Proof.
  intros Hone Hsame [Ha Hma] [Hb Hmb] Hk.
  pose proof (Hma b (proj2 (Hsame b) Hb) (eq_sym Hk)) as Hba. pose proof (Hmb a (proj1 (Hsame a) Ha) Hk) as Hab.
  assert (Hg : gen a = gen b) by (destruct Hba as [|[? _]], Hab as [|[? _]]; lia).
  destruct Hba as [|[_ Hba]]; [lia|]. destruct Hab as [|[_ Hab]]; [lia|].
  assert (Hr : released a = released b) by (clear -Hba Hab; destruct (released a), (released b); naive_solver).
  split_and!; [done|done|]. intros Hra.
  destruct (Hone a b Ha (proj2 (Hsame b) Hb) Hk Hg) as (Hat & Hre & Hd).
  assert (Hdd : lease_deadline (entry a) = lease_deadline (entry b)) by (apply Hd; clear -Hba Hab Hra Hr; destruct Hba as [|[_ ?]], Hab as [|[_ ?]]; (congruence || lia)).
  destruct (entry a), (entry b). unfold presence_key in Hk. cbn in *. congruence.
Qed.
End convergence.


(** ** What a snapshot leaves *)

Section snapshots.
Context `{TimeLib}.
Implicit Types (c d : PresenceCache) (k : PresenceKey) (e : PresenceCacheEntry) (row : PresenceSnapshot).

(** During the loop a key is as the query found it, or holds a row already installed. *)
Definition untouched started c d k : Prop :=
  entries d !! k = entries c !! k /\ generations d !! k = generations c !! k /\
  updated_since started d k = updated_since started c k.
Definition installed (rows : list PresenceSnapshot) d k : Prop :=
  forall e, entries d !! k = Some e -> exists row, row ∈ rows /\ row_entry row = e.
Definition kept started (rows : list PresenceSnapshot) c k e : Prop :=
  entries c !! k = Some e /\
  (updated_since started c k = true \/
   exists row, row ∈ rows /\ row_key row = k /\
     ((ps_generation row < generation e)%Z \/
      ps_generation row = generation e /\ odt_lt (ps_lease_deadline row) (lease_deadline e) = true)).

(** No row removes an entry. *)
Lemma observe_local_keeps k e d : is_Some (entries d !! k) -> is_Some (entries (observe_local e d).1 !! k).
Proof.
  intros Hs. unfold observe_local. destruct (observe_cases (relay_id e) (mkAnnouncement e false) d) as [(b & -> & _)|[[-> _]| ->]]; [|done..].
  cbn. destruct (decide (k = presence_key e)) as [->|]; [by rewrite lookup_insert_eq|by rewrite lookup_insert_ne].
Qed.
Lemma install_rows_keeps started rows k d : is_Some (entries d !! k) -> is_Some (entries (install_rows started rows d).1 !! k).
Proof.
  revert d. induction rows as [|row rows IH]; intros d Hs; cbn [install_rows]; [done|].
  destruct (skip_row started (row_entry row) d); [by apply IH|]. pose proof (observe_local_keeps k (row_entry row) d Hs) as Hk.
  destruct (observe_local (row_entry row) d) as [d1 [b|err|]]; [by apply IH|done|done].
Qed.

Lemma row_key_entry row : presence_key (row_entry row) = row_key row.
Proof. done. Qed.

(** One row: its key holds the row, or what it held for a reason. *)
Lemma row_step started row d d' b : cache_wf d ->
  (if skip_row started (row_entry row) d then d' = d /\ b = false else observe_local (row_entry row) d = (d', Ok b)) ->
  (forall k, k <> row_key row -> untouched started d d' k) /\
  (forall e, entries d' !! row_key row = Some e -> row_entry row = e \/ d' = d /\ kept started [row] d (row_key row) e) /\
  exists g, generations d' !! row_key row = Some g /\ (ps_generation row <= g)%Z.
Proof.
  intros Hw Hstep. pose proof Hw as [K G P U R]. unfold observe_local in Hstep.
  destruct (skip_row started (row_entry row) d) eqn:Hskip.
  - destruct Hstep as [-> _]. split; [done|]. unfold skip_row in Hskip. cbv zeta in Hskip. rewrite row_key_entry in Hskip.
    apply orb_true_iff in Hskip as [[Hu Hg]%andb_true_iff|Hs].
    + destruct (generations d !! row_key row) as [g|] eqn:Hgk; [|done]. apply Z.leb_le in Hg.
      split; [|by exists g]. intros e He. right. split; [done|]. split; [done|by left].
    + destruct (entries d !! row_key row) as [cur|] eqn:Hek; [|done].
      apply andb_true_iff in Hs as [Hgen%bool_decide_eq_true Hd]. split; [|exists (generation cur); split; [by apply G|cbn in Hgen; lia]].
      intros e [= <-]. right. split; [done|]. split; [done|]. right. exists row.
      split_and!; [by left|done|]. right. split; [done|exact Hd].
  - destruct (observe_cases (relay_id (row_entry row)) (mkAnnouncement (row_entry row) false) d)
      as [(b' & Ho & Had & _)|[[Ho (g & Hg & Hcase)]|Ho]]; rewrite Ho in Hstep; [| |done];
      injection Hstep as <- _; cbn [entry] in *; rewrite ?row_key_entry in *.
    + split; [|split].
      * intros k Hne. unfold untouched, updated_since. cbn. rewrite row_key_entry, !lookup_insert_ne by done. done.
      * intros e. cbn. rewrite row_key_entry, lookup_insert_eq. intros [= <-]. by left.
      * exists (ps_generation row). cbn. rewrite row_key_entry, lookup_insert_eq. split; [done|lia].
    + split; [done|]. split; [|exists g; split; [done|destruct Hcase as [|[<- _]]; cbn in *; lia]].
      intros e He. right. split; [done|]. split; [done|]. destruct Hcase as [Hlt|[_ Hn]]; [|congruence].
      right. exists row. split_and!; [by left|done|]. left. rewrite (G _ _ He) in Hg. injection Hg as <-. done.
Qed.

Definition from_row (all : list PresenceSnapshot) e : Prop := exists row, row ∈ all /\ row_entry row = e.
Definition explained started (all dn : list PresenceSnapshot) c d : Prop := forall k e, entries d !! k = Some e ->
  from_row all e \/
  entries c !! k = Some e /\ updated_since started d k = updated_since started c k /\
  ((forall row, row ∈ dn -> row_key row <> k) \/ kept started all c k e).

Lemma row_explained started all dn row c d d' b : cache_wf d -> row ∈ all -> explained started all dn c d ->
  (if skip_row started (row_entry row) d then d' = d /\ b = false else observe_local (row_entry row) d = (d', Ok b)) ->
  explained started all (dn ++ [row]) c d'.
Proof.
  intros Hw Hrow Hex Hstep k e He. destruct (row_step started row d d' b Hw Hstep) as (Hother & Hhere & _).
  destruct (decide (k = row_key row)) as [->|Hne].
  - destruct (Hhere e He) as [<-|[-> [_ Hreason]]]; [left; by exists row|].
    destruct (Hex _ e He) as [|(Hc & Hu & _)]; [by left|]. right. split; [done|]. split; [done|]. right.
    split; [done|]. destruct Hreason as [Hup|(row' & ->%list_elem_of_singleton & Hk & Hr)]; [left; congruence|right; by exists row].
  - destruct (Hother k Hne) as (H1 & _ & H3). rewrite H1 in He. destruct (Hex _ e He) as [|(Hc & Hu & Hcase)]; [by left|].
    right. split; [done|]. split; [congruence|]. destruct Hcase as [Hno|]; [left|by right].
    intros row' [Hin| ->%list_elem_of_singleton]%elem_of_app; [by apply Hno|congruence].
Qed.

Lemma install_rows_spec started all rows dn c d d' : cache_wf d -> explained started all dn c d ->
  (forall row, row ∈ rows -> row ∈ all) -> install_rows started rows d = (d', Ok tt) ->
  explained started all (dn ++ rows) c d' /\
  (forall row, row ∈ rows -> exists g, generations d' !! row_key row = Some g /\ (ps_generation row <= g)%Z).
Proof.
  revert dn d. induction rows as [|row rows IH]; intros dn d Hw Hex Hall; cbn [install_rows].
  { intros [= <-]. rewrite app_nil_r. split; [done|]. by intros row Hn%not_elem_of_nil. }
  intros Hrun.
  assert (exists d1 b, install_rows started rows d1 = (d', Ok tt) /\ cache_wf d1 /\
    if skip_row started (row_entry row) d then d1 = d /\ b = false else observe_local (row_entry row) d = (d1, Ok b))
    as (d1 & b & Hrun1 & Hw1 & Hstep).
  { destruct (skip_row started (row_entry row) d) eqn:Hskip; [by exists d, false|].
    destruct (observe_local (row_entry row) d) as [d1 [b|err|]] eqn:Ho; [|done|done].
    destruct (observe_evolves (relay_id (row_entry row)) (mkAnnouncement (row_entry row) false) d Hw) as (H1 & _ & _).
    unfold observe_local in Ho. rewrite Ho in H1. by exists d1, b. }
  destruct (row_step started row d d1 b Hw Hstep) as (_ & _ & g & Hg & Hle).
  pose proof (row_explained started all dn row c d d1 b Hw (Hall row ltac:(left)) Hex Hstep) as Hex1.
  destruct (IH _ d1 Hw1 Hex1 (fun r Hr => Hall r (list_elem_of_further _ _ _ Hr)) Hrun1) as [IH1 IH2].
  rewrite <-app_assoc in IH1. split; [done|]. intros row' [->|Hin]%elem_of_cons; [|by apply IH2].
  destruct (install_rows_evolves started rows d1 Hw1) as (_ & Had & _). rewrite Hrun1 in Had. cbn in Had.
  destruct (Had _ _ Hg) as (g' & Hg' & Hle' & _). exists g'. split; [done|lia].
Qed.
End snapshots.

(** ** The wire form *)

Section codec.
Context `{TimeLib} `{UuidLib} `{!TimeLaws}.

Definition entry_ok (e : PresenceCacheEntry) : Prop :=
  id_wf (peer_id e) /\ id_wf (relay_id e) /\ id_wf (attachment_id e) /\ i64_ok (generation e).
(** What a deadline in whole seconds is: nothing of it is lost. *)
Definition whole_seconds (e : PresenceCacheEntry) : Prop :=
  from_unix_timestamp (unix_timestamp (lease_deadline e)) = Some (lease_deadline e).
Definition with_deadline (d : OffsetDateTime) (a : PresenceAnnouncement) : PresenceAnnouncement :=
  let e := entry a in
  mkAnnouncement (mkEntry (peer_id e) (relay_id e) (attachment_id e) (role e) (generation e) d) (released a).

Definition presence_fields (flag : byte) (e : PresenceCacheEntry) : list byte :=
  [byte_of PRESENCE_WIRE_VERSION; flag]
  ++ f_enc id_field (peer_id e) ++ f_enc id_field (relay_id e) ++ f_enc id_field (attachment_id e)
  ++ f_enc role_field (role e) ++ f_enc i64_field (generation e)
  ++ f_enc i64_field (unix_timestamp (lease_deadline e)).
Lemma encode_presence_fields a : encode_presence a = presence_fields (if released a then x01 else x00) (entry a).
Proof. done. Qed.
Lemma lenN_presence flag e : lenN (presence_fields flag e) = PRESENCE_WIRE_LENGTH.
Proof. unfold presence_fields. fields_len. Qed.

Lemma decode_presence_encode a d : entry_ok (entry a) -> from_unix_timestamp (unix_timestamp (lease_deadline (entry a))) = Some d ->
  decode_presence (encode_presence a) = Ok (with_deadline d a).
Proof.
  intros (Hp & Hr & Ha & Hg) Hd. pose proof (timestamp_i64 (lease_deadline (entry a))) as Ht.
  unfold decode_presence. rewrite encode_presence_fields, lenN_presence. cbn [N.eqb Pos.eqb PRESENCE_WIRE_LENGTH negb].
  set (flag := if released a then x01 else x00). assert (Hflag : (1 <? u8 flag) = false /\ (u8 flag =? 1) = released a)
    by (unfold flag; by destruct (released a)). destruct Hflag as [Hf1 Hf2].
  change (index (presence_fields flag (entry a)) 0) with (@Ok RelayError _ (byte_of PRESENCE_WIRE_VERSION)).
  change (index (presence_fields flag (entry a)) 1) with (@Ok RelayError _ flag).
  cbn [mbind outcome_bind]. change (negb (u8 (byte_of PRESENCE_WIRE_VERSION) =? PRESENCE_WIRE_VERSION)) with false. cbn iota.
  rewrite Hf1. unfold presence_fields.
  assert (I : forall r, f_ok role_field r) by done. pose proof (I (role (entry a))). clear I.
  do 6 read_field. rewrite Hd. cbn [ok_or mbind outcome_bind]. by rewrite Hf2.
Qed.

Lemma decode_presence_Ok bytes a : decode_presence bytes = Ok a ->
  encode_presence a = bytes /\ entry_ok (entry a) /\ whole_seconds (entry a).
Proof.
  unfold decode_presence. destruct (N.eqb_spec (lenN bytes) PRESENCE_WIRE_LENGTH) as [Hl|]; [|done]. cbn [negb].
  intros (v & Hv & Hd)%bind_Ok. destruct (N.eqb_spec (u8 v) PRESENCE_WIRE_VERSION) as [Hver|]; [|done]. cbn [negb] in Hd.
  apply bind_Ok in Hd as (flag & Hf & Hd). destruct (N.ltb_spec 1 (u8 flag)) as [|Hle]; [done|].
  apply bind_Ok in Hd as (peer & [Hp Sp]%read_Ok & Hd); [|apply _|done]. apply bind_Ok in Hd as (relay & [Hr Sr]%read_Ok & Hd); [|apply _|done].
  apply bind_Ok in Hd as (att & [Ha Sa]%read_Ok & Hd); [|apply _|done]. apply bind_Ok in Hd as (ro & [_ So]%read_Ok & Hd); [|apply _|done].
  apply bind_Ok in Hd as (g & [Hg Sg]%read_Ok & Hd); [|apply _|done]. apply bind_Ok in Hd as (dl & [Hdl Sd]%read_Ok & Hd); [|apply _|done].
  apply bind_Ok in Hd as (lease & Hlease & [= <-]). destruct (from_unix_timestamp dl) as [lease'|] eqn:Hft; [|done].
  injection Hlease as ->. pose proof (timestamp_from _ _ Hft) as Hts.
  assert (Hhead : slice (E:=RelayError) bytes 0 2 = Ok [byte_of PRESENCE_WIRE_VERSION; flag]).
  { apply index_Ok in Hv, Hf. destruct bytes as [|b0 [|b1 bytes]]; [done|done|]. injection Hv as ->. injection Hf as ->.
    apply (u8_inj v (byte_of PRESENCE_WIRE_VERSION)) in Hver. subst v. apply (slice_here [_; _]). done. }
  pose proof (slice_join _ _ _ _ _ _ Hhead (slice_join _ _ _ _ _ _ Sp (slice_join _ _ _ _ _ _ Sr (slice_join _ _ _ _ _ _ Sa
    (slice_join _ _ _ _ _ _ So (slice_join _ _ _ _ _ _ Sg Sd)))))) as Hall.
  apply slice_all in Hall; [|done]. split; [|split; [split_and!; done|unfold whole_seconds; cbn; by rewrite Hts]].
  rewrite encode_presence_fields, <-Hall. unfold presence_fields. cbn [entry peer_id relay_id attachment_id role generation lease_deadline released].
  rewrite Hts. repeat f_equal. destruct (N.eqb_spec (u8 flag) 1) as [Hfl|Hfl]; apply u8_inj; [by rewrite Hfl|].
  change (u8 x00) with 0. lia.
Qed.

Lemma no_panic_decode_presence bytes : no_panic (decode_presence bytes).
Proof.
  unfold decode_presence. destruct (N.eqb_spec (lenN bytes) PRESENCE_WIRE_LENGTH) as [Hl|]; [|apply no_panic_Err].
  unfold PRESENCE_WIRE_LENGTH in Hl. cbn [negb].
  repeat (apply no_panic_bind; [first [apply no_panic_index; lia|apply no_panic_read; lia|apply no_panic_ok_or]|intros ? _];
    try (case_match; [apply no_panic_Err|])). apply no_panic_Ok.
Qed.
End codec.

(** ** Theorems *)

Section theorems.
Context `{TimeLib}.

(** C35: a session that ended stays ended. Once [observe] has not refused the release
    of a session, then after whatever follows - announcements of any Relay in any order, database snapshots however
    old, renewals, failed calls - its key holds only later generations, so its
    attachment is never matched again. Meanwhile the cache stays consistent and
    at every key the generation never decreases, and within one generation the
    session keeps its Relay and attachment and its deadline only moves forward. *)
Theorem presence_fenced c relay a c1 b later (Hwf : cache_wf c)
    (Hrelease : released a = true) (Hobserved : observe relay a c = (c1, Ok b)) :
  let c2 := run later c1 in
  cache_wf c2 /\ advances c c2 /\
  (forall e, entries c2 !! presence_key (entry a) = Some e -> (generation (entry a) < generation e)%Z) /\
  (forall lease g, lease_key lease = presence_key (entry a) -> matches_attachment lease g c2 = true ->
     (generation (entry a) < g)%Z).
Proof.
  cbv zeta. destruct (observe_evolves relay a c Hwf) as (Hw1 & Ha1 & _). rewrite Hobserved in Hw1, Ha1. cbn in Hw1, Ha1.
  destruct (run_advances later c1 Hw1) as [Hw2 Ha2].
  assert (Hend : forall e, entries (run later c1) !! presence_key (entry a) = Some e -> (generation (entry a) < generation e)%Z).
  { intros e He. destruct (observe_Ok _ _ _ _ _ Hobserved Hrelease) as (g & Hg & Hle & Hnone).
    destruct (Ha2 _ _ Hg) as (g' & Hg' & Hle' & Hn & _). rewrite (cw_gen _ Hw2 _ _ He) in Hg'. injection Hg' as <-.
    destruct (decide (g = generation (entry a))) as [->|]; [|lia].
    destruct (decide (generation (entry a) = generation e)) as [Heq|]; [|lia].
    specialize (Hn Heq (Hnone eq_refl)). congruence. }
  split_and!; [done|by eapply advances_trans|done|]. intros lease g Hk. unfold matches_attachment. rewrite Hk.
  destruct (entries (run later c1) !! presence_key (entry a)) as [e|] eqn:He; [|done].
  intros [[<-%bool_decide_eq_true _]%andb_true_iff _]%andb_true_iff. by apply Hend.
Qed.

(** Presence converges. Suppose every generation of a key names one session,
    with deadlines in whole seconds. Then any two Relays that observed the same
    announcements - renewals and releases included, in whatever order, however
    often repeated, through whatever neighbours - hold the same entries and
    generations: at each key the newest announcement, unless it is a release. *)
Theorem presence_converges l l' (Hone : one_session l) (Hpos : positive l)
    (Hsame : forall a, a ∈ l <-> a ∈ l') (Hroom : lenN l <= U64_MAX) (Hroom' : lenN l' <= U64_MAX) :
  let c := observe_all l default_cache in
  let c' := observe_all l' default_cache in
  entries c = entries c' /\ generations c = generations c' /\
  forall k e, entries c !! k = Some e <->
    exists a, newest l a /\ presence_key (entry a) = k /\ released a = false /\ entry a = e.
Proof.
  cbv zeta. pose proof (observe_all_cells l Hone Hpos Hroom) as Hc.
  assert (Hone' : one_session l') by (intros a b Ha%Hsame Hb%Hsame; by apply Hone).
  assert (Hpos' : positive l') by (apply Forall_forall; intros a Ha%Hsame; by apply (proj1 (Forall_forall _ _) Hpos)).
  pose proof (observe_all_cells l' Hone' Hpos' Hroom') as Hc'.
  assert (Hcell : forall k, entries (observe_all l default_cache) !! k = entries (observe_all l' default_cache) !! k /\
    generations (observe_all l default_cache) !! k = generations (observe_all l' default_cache) !! k).
  { intros k. destruct (Hc k) as [Hno Hg He|a Hn Hk Hg He], (Hc' k) as [Hno' Hg' He'|a' Hn' Hk' Hg' He']; rewrite Hg, He, Hg', He'.
    - done.
    - by destruct (Hno a' (proj2 (Hsame _) (proj1 Hn'))).
    - by destruct (Hno' a (proj1 (Hsame _) (proj1 Hn))).
    - destruct (newest_agree l l' a a' Hone Hsame Hn Hn' ltac:(congruence)) as (Hgg & Hrr & Hee).
      rewrite Hgg, <-Hrr. destruct (released a); [done|]. by rewrite Hee. }
  split; [apply map_eq; intros k; apply Hcell|]. split; [apply map_eq; intros k; apply Hcell|].
  intros k e. split.
  - intros He. destruct (Hc k) as [_ _ Hn|a Hn Hk _ Ha]; [congruence|]. rewrite Ha in He. exists a.
    destruct (released a); [done|]. by injection He.
  - intros (a & Hn & Hk & Hrel & <-). destruct (Hc k) as [Hno _ _|a' Hn' Hk' _ ->]; [by destruct (Hno a (proj1 Hn))|].
    destruct (newest_agree l l a a' Hone (fun _ => iff_refl _) Hn Hn' ltac:(congruence)) as (_ & Hrr & Hee).
    by rewrite <-Hrr, Hrel, Hee.
Qed.

(** A snapshot never undoes what was learned while its query ran. When
    [install_snapshot] succeeds, every entry is a row of the snapshot, or was
    there and was updated since the query started, or is a later generation or a
    later lease than the row of its key; an entry updated since is still there or
    was replaced by a later one; and no row's generation is lost. *)
Theorem snapshot_merges c rows started c' (Hwf : cache_wf c) (Hinstalled : install_snapshot rows started c = (c', Ok tt)) :
  cache_wf c' /\
  (forall k e, entries c' !! k = Some e -> from_row rows e \/ kept started rows c k e) /\
  (forall k e, entries c !! k = Some e -> updated_since started c k = true ->
     exists e', entries c' !! k = Some e' /\ ((generation e < generation e')%Z \/ generation e = generation e' /\ same_session e e')) /\
  (forall row, row ∈ rows -> exists g, generations c' !! row_key row = Some g /\ (ps_generation row <= g)%Z).
Proof.
  destruct (install_snapshot_evolves rows started c Hwf) as (Hw' & Had & _). rewrite Hinstalled in Hw', Had. cbn in Hw', Had.
  unfold install_snapshot in Hinstalled. destruct (retain_wf (list_to_set (row_key <$> rows)) started c Hwf) as [Hw0 _].
  set (c0 := retain_known _ _ _) in *.
  assert (Hstart : explained started rows [] c0 c0).
  { intros k e He. right. split; [done|]. split; [done|]. left. by intros row Hn%not_elem_of_nil. }
  destruct (install_rows_spec started rows rows [] c0 c0 c' Hw0 Hstart (fun _ Hr => Hr) Hinstalled) as [Hex Hrows].
  split; [done|]. split; [|split; [|done]].
  - intros k e He. destruct (Hex k e He) as [|(Hc & _ & Hcase)]; [by left|]. right.
    assert (Hup : forall k', updated_since started c0 k' = updated_since started c k') by done.
    apply map_lookup_filter_Some in Hc as [Hc Hkeep]. cbn in Hkeep. split; [done|].
    destruct Hcase as [Hno|[_ [Hu|Hrow]]]; [|left; by rewrite <-Hup|by right].
    left. apply orb_true_iff in Hkeep as [Hin%bool_decide_eq_true|]; [|done].
    apply elem_of_list_to_set, list_elem_of_fmap in Hin as (row & -> & Hr). by destruct (Hno row Hr).
  - intros k e He Hup. assert (Hsome : is_Some (entries c' !! k)).
    { replace c' with (install_rows started rows c0).1 by by rewrite Hinstalled. apply install_rows_keeps.
      exists e. apply map_lookup_filter_Some. split; [done|]. cbn. rewrite Hup. apply orb_true_r. }
    destruct Hsome as [e' He']. exists e'. split; [done|].
    destruct (Had k _ (cw_gen _ Hwf _ _ He)) as (g & Hg & Hle & _ & Hsame). rewrite (cw_gen _ Hw' _ _ He') in Hg. injection Hg as <-.
    destruct (decide (generation e = generation e')) as [Heq|]; [right; split; [done|by apply Hsame]|left; lia].
Qed.

(** The presence codec is exact. [decode_presence] accepts exactly the encodings
    of announcements whose identifiers are valid and whose deadline is in whole
    seconds, never panics, and decoding what [encode_presence] wrote loses at most
    the fraction of a second of the deadline. *)
Theorem presence_codec_exact `{UuidLib} `{!TimeLaws} bytes a :
  (decode_presence bytes = Ok a <-> encode_presence a = bytes /\ entry_ok (entry a) /\ whole_seconds (entry a)) /\
  no_panic (decode_presence bytes) /\
  (entry_ok (entry a) -> exists d, decode_presence (encode_presence a) = Ok (with_deadline d a) /\
     unix_timestamp d = unix_timestamp (lease_deadline (entry a))).
Proof.
  split; [split; [apply decode_presence_Ok|]|split; [apply no_panic_decode_presence|]].
  - intros (<- & He & Hs). rewrite (decode_presence_encode _ _ He Hs). by destruct a as [[] ?].
  - intros He. destruct (timestamp_supported (lease_deadline (entry a))) as [d Hd]. exists d.
    split; [by apply decode_presence_encode|by apply timestamp_from in Hd].
Qed.
End theorems.


(** ** Witnesses

    Instants as nanoseconds since the epoch, between the years -9999 and 9999. *)

Definition time_nanos : TimeLib := {|
  OffsetDateTime := Z;
  odt_lt s t := (s <? t)%Z;
  unix_timestamp t := Z.max (-377705116800) (Z.min (t / 1000000000) 253402300799);
  from_unix_timestamp s :=
    if ((-377705116800 <=? s) && (s <=? 253402300799))%Z then Some (s * 1000000000)%Z else None;
|}.
#[local] Existing Instance time_nanos.
#[local] Existing Instance uuid_rfc.
#[local] Instance time_nanos_laws : TimeLaws.
Proof.
  split; cbn.
  - intros t. unfold i64_ok. lia.
  - intros s t. destruct (_ && _)%Z eqn:Hb; [|done]. apply andb_true_iff in Hb as [?%Z.leb_le ?%Z.leb_le]. intros [= <-].
    rewrite Z.div_mul by lia. lia.
  - intros t. set (u := Z.max _ _). assert ((-377705116800 <= u <= 253402300799)%Z) as [H1 H2] by lia.
    apply Z.leb_le in H1, H2. by rewrite H1, H2.
  - intros s t ?%Z.ltb_lt. assert (s / 1000000000 <= t / 1000000000)%Z by (apply Z.div_le_mono; lia). lia.
Qed.

Definition example_id (n : N) : DomainId := mkDomainId (0x970a3f18_1c6f_4da6_a223_f962_3958_a900 + n).
Definition example_entry (g deadline : Z) : PresenceCacheEntry :=
  mkEntry (example_id 1) (example_id 2) (example_id 3) Primary g (deadline * 1000000000)%Z.
Definition example_row (g deadline : Z) : PresenceSnapshot :=
  mkSnapshot (example_id 1) (example_id 2) (example_id 3) Primary g (deadline * 1000000000)%Z.
Definition example_lease : PresenceLease :=
  mkLease (example_id 9) (example_id 1) (example_id 2) (example_id 3) Primary 0%Z.
Definition example_cache : PresenceCache := run [ObserveLocal (example_entry 5 100)] default_cache.
Definition example_release : PresenceAnnouncement := mkAnnouncement (example_entry 5 100) true.
Definition example_later : list op :=
  [Observe (example_id 2) (mkAnnouncement (example_entry 5 130) false); InstallSnapshot [example_row 5 130] 0;
   Observe (example_id 2) (mkAnnouncement (example_entry 6 160) false)].
Lemma presence_fenced_witness :
  let c2 := run example_later (observe (example_id 2) example_release example_cache).1 in
  matches_attachment example_lease 6 c2 = true /\ (5 < 6)%Z.
Proof.
  cbv zeta. assert (Hm : matches_attachment example_lease 6
    (run example_later (observe (example_id 2) example_release example_cache).1) = true) by (vm_compute; reflexivity).
  split; [exact Hm|].
  destruct (presence_fenced example_cache (example_id 2) example_release
    (observe (example_id 2) example_release example_cache).1 true example_later) as (_ & _ & _ & H4).
  - exact (proj1 (run_advances [ObserveLocal (example_entry 5 100)] default_cache default_cache_wf)).
  - reflexivity.
  - apply pair_snd. vm_compute. reflexivity.
  - apply (H4 example_lease 6%Z eq_refl Hm).
Defined.

Definition example_announcements : list PresenceAnnouncement :=
  [mkAnnouncement (example_entry 5 100) false; mkAnnouncement (example_entry 5 130) false;
   mkAnnouncement (example_entry 4 90) true; mkAnnouncement (example_entry 6 160) false].
Definition example_reordered : list PresenceAnnouncement :=
  [mkAnnouncement (example_entry 6 160) false; mkAnnouncement (example_entry 5 130) false;
   mkAnnouncement (example_entry 5 100) false; mkAnnouncement (example_entry 5 130) false;
   mkAnnouncement (example_entry 4 90) true].
Lemma presence_converges_witness :
  entries (observe_all example_announcements default_cache) = entries (observe_all example_reordered default_cache) /\
  primary_owner (example_id 1) 0%Z false (observe_all example_reordered default_cache) = Ok (mkOwner (example_id 2) 6).
Proof.
  split; [|vm_compute; reflexivity].
  apply (presence_converges example_announcements example_reordered).
  - intros a b Ha Hb _. unfold example_announcements in Ha, Hb.
    repeat (apply elem_of_cons in Ha as [->|Ha]; [|]); try (by apply not_elem_of_nil in Ha);
    repeat (apply elem_of_cons in Hb as [->|Hb]; [|]); try (by apply not_elem_of_nil in Hb); cbn; intros Hg; try done;
    split; try done; split; try done; vm_compute; done.
  - repeat constructor.
  - intros a. unfold example_announcements, example_reordered. rewrite !elem_of_cons. tauto.
  - vm_compute. discriminate.
  - vm_compute. discriminate.
Defined.

Lemma snapshot_merges_witness :
  from_row [example_row 6 160] (example_entry 6 160) \/
  kept 0 [example_row 6 160] example_cache (example_id 1, Primary, None) (example_entry 6 160).
Proof.
  destruct (snapshot_merges example_cache [example_row 6 160] 0 (install_snapshot [example_row 6 160] 0 example_cache).1)
    as (_ & H2 & _).
  - exact (proj1 (run_advances [ObserveLocal (example_entry 5 100)] default_cache default_cache_wf)).
  - apply pair_snd. vm_compute. reflexivity.
  - apply H2. apply (bool_decide_unpack _). vm_compute. exact I.
Defined.

Lemma presence_codec_exact_witness :
  exists d, decode_presence (encode_presence example_release) = Ok (with_deadline d example_release) /\
    unix_timestamp d = 100%Z.
Proof.
  apply (presence_codec_exact [] example_release). repeat split; vm_compute; (reflexivity || discriminate).
Defined.

End Pc.
