(* ===== verification/RelayRouter.v ===== *)
(** * The Relay's router and credential gate (crate [peerward-relay])

    routing.rs: the queues of opaque control messages for locally attached Peers,
    and the fences, directory and revocations that decide which sessions may use
    them. protocol.rs: the gate that authenticates a Peer's credential. The lock
    around each is one step per access; no access panics while it holds one. *)

From S2P Require Import Prelude Ordered Net Directory Credentials DirectorySigning Wire RelayPresence.
From Stdlib Require Import ZArith NArith Lia.
From stdpp Require Import base tactics decidable countable numbers list sorting gmap.
From Stdlib.Init Require Import Byte.
Set Default Goal Selector "!".
Local Open Scope N_scope.

Module Rr.

Notation CredentialSerial := DomainId (only parsing).
Notation AttachmentId := DomainId (only parsing).
#[local] Existing Instance Pc.PresenceRole_eq_dec.
Notation rresult := (outcome RelayError).

(** ** link_handshake.rs *)

Record Attachment := mkAttachment {
  at_peer_id : PeerId;
  at_attachment_id : AttachmentId;
  at_role : Pc.PresenceRole;
  at_generation : Z;
  at_serial : CredentialSerial;
}.

Section router.
Context `{Wire.ProstLib} `{TimeLib} `{UuidLib} `{Ed25519Lib} `{X25519Lib}.

Record RoutedControl := mkRouted {
  rc_source : PeerId;
  rc_destination : PeerId;
  rc_generation : Z;
  rc_envelope : Wire.ControlEnvelope;
}.

(** ** routing.rs *)

Record OpaqueRouter := mkRouter {
  mesh_id : MeshId;
  relay_id : RelayId;
  verifier : list byte;
  directory_revision : option N;
  relay_revision : option N;
  policy_revision : option N;
  attachments : gmap PeerId Attachment;
  directory_credentials : gmap PeerId (gset CredentialSerial);
  revoked : gset CredentialSerial;
  control_queues : gmap PeerId (list Wire.ControlEnvelope);
  known_fences : gmap PeerId Z;
  queue_capacity : N;
}.

Definition new (mesh : MeshId) (relay : RelayId) (key : list byte) (capacity : N) : rresult OpaqueRouter :=
  if capacity =? 0 then Err InvalidConfig
  else Ok (mkRouter mesh relay key None None None ∅ ∅ ∅ ∅ ∅ capacity).

Definition with_revisions (d r p : option N) (self : OpaqueRouter) : OpaqueRouter :=
  mkRouter (mesh_id self) (relay_id self) (verifier self) d r p (attachments self) (directory_credentials self)
    (revoked self) (control_queues self) (known_fences self) (queue_capacity self).
Definition with_directory (c : gmap PeerId (gset CredentialSerial)) (self : OpaqueRouter) : OpaqueRouter :=
  mkRouter (mesh_id self) (relay_id self) (verifier self) (directory_revision self) (relay_revision self)
    (policy_revision self) (attachments self) c (revoked self) (control_queues self) (known_fences self) (queue_capacity self).
Definition with_attachments (a : gmap PeerId Attachment) (self : OpaqueRouter) : OpaqueRouter :=
  mkRouter (mesh_id self) (relay_id self) (verifier self) (directory_revision self) (relay_revision self)
    (policy_revision self) a (directory_credentials self) (revoked self) (control_queues self) (known_fences self)
    (queue_capacity self).
Definition with_queues (q : gmap PeerId (list Wire.ControlEnvelope)) (self : OpaqueRouter) : OpaqueRouter :=
  mkRouter (mesh_id self) (relay_id self) (verifier self) (directory_revision self) (relay_revision self)
    (policy_revision self) (attachments self) (directory_credentials self) (revoked self) q (known_fences self)
    (queue_capacity self).
Definition with_fences (f : gmap PeerId Z) (self : OpaqueRouter) : OpaqueRouter :=
  mkRouter (mesh_id self) (relay_id self) (verifier self) (directory_revision self) (relay_revision self)
    (policy_revision self) (attachments self) (directory_credentials self) (revoked self) (control_queues self) f
    (queue_capacity self).
Definition with_revoked (s : gset CredentialSerial) (self : OpaqueRouter) : OpaqueRouter :=
  mkRouter (mesh_id self) (relay_id self) (verifier self) (directory_revision self) (relay_revision self)
    (policy_revision self) (attachments self) (directory_credentials self) s (control_queues self) (known_fences self)
    (queue_capacity self).

Definition queued_usage (self : OpaqueRouter) : N * N :=
  foldl (fun '(count, bytes) e => (sat_add count 1, sat_add bytes (Wire.encoded_len e))) (0, 0)
    (concat (bt_entries (control_queues self)).*2).

(** Installs an already fenced primary attachment. *)
Definition install_attachment (a : Attachment) (self : OpaqueRouter) : OpaqueRouter :=
  if bool_decide (at_role a = Pc.Primary)
     && match known_fences self !! at_peer_id a with Some current => (current <=? at_generation a)%Z | None => true end
  then with_attachments (<[at_peer_id a := a]> (attachments self))
         (with_fences (<[at_peer_id a := at_generation a]> (known_fences self)) self)
  else self.
Definition install_acquired (lease : Pc.PresenceLease) (serial : CredentialSerial) (gen : Z) (self : OpaqueRouter)
    : OpaqueRouter * rresult Attachment :=
  if negb (bool_decide (Pc.pl_mesh_id lease = mesh_id self)) || negb (bool_decide (Pc.pl_relay_id lease = relay_id self))
  then (self, Err NoRoute) else
  let a := mkAttachment (Pc.pl_peer_id lease) (Pc.pl_attachment_id lease) (Pc.pl_role lease) gen serial in
  (if bool_decide (Pc.pl_role lease = Pc.Primary) then install_attachment a self else self, Ok a).
(** [stored] is what the database answered. *)
Definition acquire (stored : rresult Z) (lease : Pc.PresenceLease) (serial : CredentialSerial) (self : OpaqueRouter)
    : OpaqueRouter * rresult Attachment :=
  if negb (bool_decide (Pc.pl_mesh_id lease = mesh_id self)) || negb (bool_decide (Pc.pl_relay_id lease = relay_id self))
  then (self, Err NoRoute) else
  match stored with
  | Ok gen => install_acquired lease serial gen self
  | Err e => (self, Err e)
  | Panic => (self, Panic)
  end.

(** The enabled entries and the serials each accepts; a later entry of a Peer replaces an earlier one. *)
Definition accepted_serials (e : Sg.PeerEntry) : gset CredentialSerial :=
  {[Sg.pe_serial e]} ∪ list_to_set (Sg.pb_serial <$> Sg.accepted_credentials e).
Definition credentials_of (d : Sg.PeerDirectory) : gmap PeerId (gset CredentialSerial) :=
  foldl (fun m e => <[Sg.pe_peer_id e := accepted_serials e]> m) ∅
    (filter (fun e => Sg.pe_enabled e = true) (Sg.sp_entry <$> Sg.pd_entries d)).
Definition install_directory (update : Sg.SignedPeerDirectory) (self : OpaqueRouter) : OpaqueRouter * rresult unit :=
  match map_err DirectoryErr (Sg.verify_peers (verifier self) update (mesh_id self) (directory_revision self)) with
  | Ok _ =>
      let credentials := credentials_of (Sg.spd_directory update) in
      (with_queues (filter (fun q : PeerId * list Wire.ControlEnvelope => is_Some (credentials !! q.1)) (control_queues self))
         (with_revisions (Some (Sg.pd_revision (Sg.spd_directory update))) (relay_revision self) (policy_revision self)
            (with_directory credentials self)), Ok tt)
  | Err e => (self, Err e)
  | Panic => (self, Panic)
  end.
Definition install_relays (update : Sg.SignedRelayDirectory) (self : OpaqueRouter) : OpaqueRouter * rresult unit :=
  match map_err DirectoryErr (Sg.verify_relays (verifier self) update (mesh_id self) (relay_revision self)) with
  | Ok _ => (with_revisions (directory_revision self) (Some (Sg.rd_revision (Sg.srd_directory update))) (policy_revision self) self, Ok tt)
  | Err e => (self, Err e)
  | Panic => (self, Panic)
  end.
Definition install_policy (update : Sg.SignedPolicyBundle) (self : OpaqueRouter) : OpaqueRouter * rresult unit :=
  match map_err DirectoryErr (Sg.verify_policy (verifier self) update (mesh_id self) (policy_revision self)) with
  | Ok _ => (with_revisions (directory_revision self) (relay_revision self) (Some (Sg.pl_revision (Sg.spl_bundle update))) self, Ok tt)
  | Err e => (self, Err e)
  | Panic => (self, Panic)
  end.

Definition detach (peer : PeerId) (gen : Z) (self : OpaqueRouter) : OpaqueRouter :=
  if match attachments self !! peer with Some a => (at_generation a =? gen)%Z | None => false end
  then with_queues (delete peer (control_queues self)) (with_attachments (delete peer (attachments self)) self)
  else self.
Definition observe_fence (peer : PeerId) (gen : Z) (self : OpaqueRouter) : OpaqueRouter * rresult unit :=
  if match known_fences self !! peer with Some current => (gen <? current)%Z | None => false end
  then (self, Err StaleFence)
  else (with_fences (<[peer := gen]> (known_fences self)) self, Ok tt).

(** [self.directory_credentials.get(peer).is_some_and(|c| c.contains(serial))] *)
Definition lists (self : OpaqueRouter) (peer : PeerId) (serial : CredentialSerial) : bool :=
  match directory_credentials self !! peer with Some c => bool_decide (serial ∈ c) | None => false end.
Definition revoke (serial : CredentialSerial) (self : OpaqueRouter) : OpaqueRouter :=
  let self := with_revoked ({[serial]} ∪ revoked self) self in
  let self := with_attachments (filter (fun a : PeerId * Attachment => at_serial a.2 <> serial) (attachments self)) self in
  with_queues (filter (fun q : PeerId * list Wire.ControlEnvelope => lists self q.1 serial = false) (control_queues self)) self.

(** The checks [validate_control_source] and [validate_local_destination] share. *)
Definition session_ok (self : OpaqueRouter) (peer : PeerId) (a : Attachment) (gen : Z) : bool :=
  bool_decide (known_fences self !! peer = Some gen) && negb (bool_decide (at_serial a ∈ revoked self))
  && lists self peer (at_serial a).
Definition validate_control_source (source : PeerId) (gen : Z) (self : OpaqueRouter) : rresult unit :=
  match attachments self !! source with
  | Some a => if (at_generation a =? gen)%Z && session_ok self source a gen then Ok tt else Err StaleFence
  | None => Err StaleFence
  end.
Definition validate_local_destination (peer : PeerId) (self : OpaqueRouter) : rresult unit :=
  match attachments self !! peer with
  | Some a => if bool_decide (at_role a = Pc.Primary) && session_ok self peer a (at_generation a) then Ok tt else Err NoRoute
  | None => Err NoRoute
  end.

Definition enqueue (destination : PeerId) (envelope : Wire.ControlEnvelope) (self : OpaqueRouter)
    : OpaqueRouter * rresult unit :=
  let queue := default [] (control_queues self !! destination) in
  if queue_capacity self <=? lenN queue
  then (with_queues (<[destination := queue]> (control_queues self)) self, Err QueueFull)
  else (with_queues (<[destination := queue ++ [envelope]]> (control_queues self)) self, Ok tt).
Definition to_local (routed : RoutedControl) (self : OpaqueRouter) : OpaqueRouter * rresult unit :=
  match validate_local_destination (rc_destination routed) self with
  | Ok _ => enqueue (rc_destination routed) (rc_envelope routed) self
  | Err e => (self, Err e)
  | Panic => (self, Panic)
  end.
Definition route_control (routed : RoutedControl) (self : OpaqueRouter) : OpaqueRouter * rresult unit :=
  match validate_control_source (rc_source routed) (rc_generation routed) self with
  | Ok _ => to_local routed self
  | Err e => (self, Err e)
  | Panic => (self, Panic)
  end.
Definition route_authenticated_control (routed : RoutedControl) (self : OpaqueRouter) : OpaqueRouter * rresult unit :=
  if bool_decide (is_Some (directory_credentials self !! rc_source routed)) then to_local routed self
  else (self, Err StaleFence).
Definition accept_cross_relay_control (routed : RoutedControl) (self : OpaqueRouter) : OpaqueRouter * rresult unit :=
  if bool_decide (is_Some (directory_credentials self !! rc_source routed)) then to_local routed self
  else (self, Err NoRoute).
Definition receive_control (peer : PeerId) (gen : Z) (self : OpaqueRouter)
    : OpaqueRouter * rresult (option Wire.ControlEnvelope) :=
  match validate_control_source peer gen self with
  | Ok _ =>
      match control_queues self !! peer with
      | Some (e :: rest) => (with_queues (<[peer := rest]> (control_queues self)) self, Ok (Some e))
      | _ => (self, Ok None)
      end
  | Err e => (self, Err e)
  | Panic => (self, Panic)
  end.
End router.


(** ** Invariants *)

Section invariants.
Context `{Wire.ProstLib} `{TimeLib} `{UuidLib} `{Ed25519Lib} `{X25519Lib}.
Implicit Types (r : OpaqueRouter) (p : PeerId) (e : Wire.ControlEnvelope).

(** One call of each operation that changes the router, with what a caller sees of it. *)
Inductive router_op :=
  | Acquire (stored : rresult Z) (lease : Pc.PresenceLease) (serial : CredentialSerial)
  | InstallDirectory (update : Sg.SignedPeerDirectory)
  | InstallRelays (update : Sg.SignedRelayDirectory)
  | InstallPolicy (update : Sg.SignedPolicyBundle)
  | Detach (peer : PeerId) (gen : Z)
  | ObserveFence (peer : PeerId) (gen : Z)
  | RevokeSerial (serial : CredentialSerial)
  | RouteControl (routed : RoutedControl)
  | RouteAuthenticated (routed : RoutedControl)
  | AcceptCrossRelay (routed : RoutedControl)
  | Receive (peer : PeerId) (gen : Z).
Inductive answer := Done (ok : bool) | Received (e : option Wire.ControlEnvelope).
Definition done_of {A} (x : OpaqueRouter * rresult A) : OpaqueRouter * answer := (x.1, Done (is_ok x.2)).
Definition router_step r (o : router_op) : OpaqueRouter * answer :=
  match o with
  | Acquire stored lease serial => done_of (acquire stored lease serial r)
  | InstallDirectory u => done_of (install_directory u r)
  | InstallRelays u => done_of (install_relays u r)
  | InstallPolicy u => done_of (install_policy u r)
  | Detach p g => (detach p g r, Done true)
  | ObserveFence p g => done_of (observe_fence p g r)
  | RevokeSerial s => (revoke s r, Done true)
  | RouteControl m => done_of (route_control m r)
  | RouteAuthenticated m => done_of (route_authenticated_control m r)
  | AcceptCrossRelay m => done_of (accept_cross_relay_control m r)
  | Receive p g => let x := receive_control p g r in (x.1, Received (match x.2 with Ok e => e | _ => None end))
  end.
Definition router_run (ops : list router_op) r : OpaqueRouter := foldl (fun r o => (router_step r o).1) r ops.

Definition queue r p : list Wire.ControlEnvelope := default [] (control_queues r !! p).

Record router_wf r : Prop := {
  rw_peer p a : attachments r !! p = Some a -> at_peer_id a = p;
  rw_primary p a : attachments r !! p = Some a -> at_role a = Pc.Primary;
  rw_fence p a : attachments r !! p = Some a -> exists f, known_fences r !! p = Some f /\ (at_generation a <= f)%Z;
  rw_queue p q : control_queues r !! p = Some q -> lenN q <= queue_capacity r;
  rw_known p q : control_queues r !! p = Some q -> is_Some (directory_credentials r !! p);
  rw_capacity : 0 < queue_capacity r;
}.

(** What a router never loses: who it is, its fences, its revocations. *)
Definition endures r r' : Prop :=
  mesh_id r' = mesh_id r /\ relay_id r' = relay_id r /\ verifier r' = verifier r /\ queue_capacity r' = queue_capacity r /\
  revoked r ⊆ revoked r' /\
  forall p f, known_fences r !! p = Some f -> exists f', known_fences r' !! p = Some f' /\ (f <= f')%Z.

Lemma endures_refl r : endures r r.
Proof. split_and!; try done. intros p f Hf. exists f. split; [done|lia]. Qed.
Lemma endures_trans x y z : endures x y -> endures y z -> endures x z.
Proof.
  intros (? & ? & ? & ? & ? & H1') (? & ? & ? & ? & ? & H2'). split_and!; [congruence..|set_solver|].
  intros p f (f1 & Hf1 & Hle1)%H1'. destruct (H2' _ _ Hf1) as (f2 & Hf2 & Hle2). exists f2. split; [done|lia].
Qed.

(** Only queues, only the revisions, only the fence of one Peer. *)
Lemma queues_wf r q : router_wf r ->
  (forall p l, q !! p = Some l -> lenN l <= queue_capacity r /\ is_Some (directory_credentials r !! p)) ->
  router_wf (with_queues q r).
Proof. intros [H1' H2' H3' H5' H6' H7'] Hq. split; cbn; try done; intros p l Hl; by apply (Hq p l). Qed.
Lemma revisions_wf r d l q : router_wf r -> router_wf (with_revisions d l q r).
Proof. by intros []. Qed.

Lemma enqueue_ok dest e r : router_wf r -> is_Some (directory_credentials r !! dest) ->
  router_wf (enqueue dest e r).1 /\ endures r (enqueue dest e r).1.
Proof.
  intros Hw Hd. pose proof Hw as [H1' H2' H3' H5' H6' H7']. unfold enqueue. cbv zeta.
  assert (Hq : lenN (default [] (control_queues r !! dest)) <= queue_capacity r).
  { destruct (control_queues r !! dest) as [q|] eqn:Hq; [by apply (H5' dest)|unfold lenN; cbn; lia]. }
  destruct (N.leb_spec (queue_capacity r) (lenN (default [] (control_queues r !! dest)))) as [Hfull|Hroom]; cbn [fst];
    (split; [|exact (endures_refl r)]); apply queues_wf; try done; intros p l [[<- <-]|[_ Hl]]%lookup_insert_Some;
    try (by split; [done|]); try (split; [by apply (H5' p)|by apply (H6' p l)]).
  split; [|done]. rewrite lenN_app. change (lenN [e]) with 1. lia.
Qed.

Lemma lists_known r p s : lists r p s = true -> is_Some (directory_credentials r !! p).
Proof. unfold lists. by destruct (directory_credentials r !! p). Qed.
Lemma session_ok_inv r p a g : session_ok r p a g = true ->
  known_fences r !! p = Some g /\ at_serial a ∉ revoked r /\ lists r p (at_serial a) = true.
Proof.
  unfold session_ok. intros [[Hf%bool_decide_eq_true Hr%negb_true_iff]%andb_true_iff Hl]%andb_true_iff.
  by apply bool_decide_eq_false in Hr.
Qed.
Lemma validate_source_Ok p g r : validate_control_source p g r = Ok tt <->
  exists a, attachments r !! p = Some a /\ at_generation a = g /\ session_ok r p a g = true.
Proof.
  unfold validate_control_source. split.
  - destruct (attachments r !! p) as [a|]; [|done]. destruct (Z.eqb_spec (at_generation a) g); [|done].
    destruct (session_ok r p a g) eqn:Hs; [|done]. intros _. by exists a.
  - intros (a & -> & Hg & ->). by rewrite Hg, Z.eqb_refl.
Qed.
Lemma validate_destination_Ok p r : validate_local_destination p r = Ok tt <->
  exists a, attachments r !! p = Some a /\ at_role a = Pc.Primary /\ session_ok r p a (at_generation a) = true.
Proof.
  unfold validate_local_destination. split.
  - destruct (attachments r !! p) as [a|]; [|done]. case_bool_decide; [|done].
    destruct (session_ok r p a (at_generation a)) eqn:Hs; [|done]. intros _. by exists a.
  - intros (a & -> & Hg & ->). by rewrite bool_decide_eq_true_2.
Qed.

Lemma to_local_ok m r : router_wf r -> router_wf (to_local m r).1 /\ endures r (to_local m r).1.
Proof.
  intros Hw. unfold to_local. destruct (validate_local_destination (rc_destination m) r) as [[]|err|] eqn:Hv;
    [|by split; [|apply endures_refl]..].
  apply validate_destination_Ok in Hv as (a & _ & _ & (_ & _ & Hl)%session_ok_inv).
  apply enqueue_ok; [done|]. by eapply lists_known.
Qed.
Lemma receive_ok p g r : router_wf r -> router_wf (receive_control p g r).1 /\ endures r (receive_control p g r).1.
Proof.
  intros Hw. unfold receive_control. destruct (validate_control_source p g r) as [[]|err|]; try (by split; [|apply endures_refl]).
  destruct (control_queues r !! p) as [[|e q]|] eqn:Hq; try (by split; [|apply endures_refl]).
  split; [|exact (endures_refl r)]. apply queues_wf; [done|]. pose proof Hw as [_ _ _ H5' H6' _].
  intros p' l [[<- <-]|[_ Hl]]%lookup_insert_Some; [|split; [by apply (H5' p')|by apply (H6' p' l)]].
  split; [|by apply (H6' p (e :: q))]. pose proof (H5' _ _ Hq) as Hlen. rewrite lenN_cons in Hlen. lia.
Qed.

Lemma install_attachment_ok a r : router_wf r ->
  router_wf (install_attachment a r) /\ endures r (install_attachment a r).
Proof.
  intros Hw. unfold install_attachment. case_bool_decide as Hp; cbn [andb]; [|by split; [|apply endures_refl]].
  destruct (match known_fences r !! at_peer_id a with Some _ => _ | None => _ end) eqn:Hf; [|by split; [|apply endures_refl]].
  assert (Hle : forall f, known_fences r !! at_peer_id a = Some f -> (f <= at_generation a)%Z).
  { intros f Hk. rewrite Hk in Hf. by apply Z.leb_le in Hf. }
  pose proof Hw as [H1' H2' H3' H5' H6' H7']. split.
  - split; cbn; try done.
    + intros p x [[<- <-]|[_ Hx]]%lookup_insert_Some; [done|by apply H1'].
    + intros p x [[<- <-]|[_ Hx]]%lookup_insert_Some; [done|by eapply H2'].
    + intros p x [[<- <-]|[Hne Hx]]%lookup_insert_Some.
      * exists (at_generation a). rewrite lookup_insert_eq. split; [done|lia].
      * rewrite lookup_insert_ne by done. by apply H3'.
  - split_and!; try done. intros p f Hk. cbn. destruct (decide (p = at_peer_id a)) as [->|Hne].
    + rewrite lookup_insert_eq. exists (at_generation a). split; [done|by apply Hle].
    + rewrite lookup_insert_ne by done. exists f. split; [done|lia].
Qed.

Lemma install_directory_cases u r :
  (Sg.verify_peers (verifier r) u (mesh_id r) (directory_revision r) = Ok tt /\
   (install_directory u r).2 = Ok tt /\
   directory_revision (install_directory u r).1 = Some (Sg.pd_revision (Sg.spd_directory u)) /\
   directory_credentials (install_directory u r).1 = credentials_of (Sg.spd_directory u)) \/
  (install_directory u r).1 = r /\ is_ok (install_directory u r).2 = false.
Proof.
  unfold install_directory. destruct (Sg.verify_peers _ _ _ _) as [[]|e|]; cbn [map_err]; [left|right..]; done.
Qed.
Lemma install_directory_ok u r : router_wf r -> router_wf (install_directory u r).1 /\ endures r (install_directory u r).1.
Proof.
  intros Hw. pose proof Hw as [H1' H2' H3' H5' H6' H7']. unfold install_directory.
  destruct (map_err _ _) as [[]|e|]; try (by split; [|apply endures_refl]).
  split; [|exact (endures_refl r)]. split; cbn; try done.
  - intros p q [Hq _]%map_lookup_filter_Some. by apply (H5' p).
  - by intros p q [_ Hk]%map_lookup_filter_Some.
Qed.
Lemma detach_ok p g r : router_wf r -> router_wf (detach p g r) /\ endures r (detach p g r).
Proof.
  intros Hw. pose proof Hw as [H1' H2' H3' H5' H6' H7']. unfold detach.
  destruct (match attachments r !! p with Some _ => _ | None => _ end); [|by split; [|apply endures_refl]].
  split; [|exact (endures_refl r)]. split; cbn; try done; intros p' x [_ Hx]%lookup_delete_Some;
    [by apply H1'|by eapply H2'|by apply H3'|by apply (H5' p')|by apply (H6' p' x)].
Qed.
Lemma revoke_ok s r : router_wf r -> router_wf (revoke s r) /\ endures r (revoke s r).
Proof.
  intros Hw. pose proof Hw as [H1' H2' H3' H5' H6' H7']. unfold revoke. cbv zeta. split.
  - split; cbn; try done; intros p' x [Hx _]%map_lookup_filter_Some;
      [by apply H1'|by eapply H2'|by apply H3'|by apply (H5' p')|by apply (H6' p' x)].
  - split_and!; try done; [cbn; set_solver|]. intros p f Hf. exists f. split; [done|lia].
Qed.
Lemma observe_fence_ok p g r : router_wf r -> router_wf (observe_fence p g r).1 /\ endures r (observe_fence p g r).1.
Proof.
  intros Hw. pose proof Hw as [H1' H2' H3' H5' H6' H7']. unfold observe_fence.
  destruct (match known_fences r !! p with Some _ => _ | None => _ end) eqn:Hf; [by split; [|apply endures_refl]|].
  assert (Hle : forall f, known_fences r !! p = Some f -> (f <= g)%Z)
    by (intros f Hk; rewrite Hk in Hf; by apply Z.ltb_ge in Hf).
  assert (Hup : forall p' f, known_fences r !! p' = Some f ->
    exists f', known_fences (with_fences (<[p := g]> (known_fences r)) r) !! p' = Some f' /\ (f <= f')%Z).
  { intros p' f Hk. cbn. destruct (decide (p' = p)) as [->|Hne].
    - rewrite lookup_insert_eq. exists g. split; [done|by apply Hle].
    - rewrite lookup_insert_ne by done. exists f. split; [done|lia]. }
  split; [split; cbn; try done|by split_and!].
  intros p' a (f & Hk & Hlt)%H3'. destruct (Hup _ _ Hk) as (f' & Hf' & Hle'). exists f'. split; [done|lia].
Qed.
Lemma acquire_ok stored lease s r : router_wf r -> router_wf (acquire stored lease s r).1 /\ endures r (acquire stored lease s r).1.
Proof.
  intros Hw. unfold acquire, install_acquired. cbv zeta.
  destruct (negb _ || negb _); [by split; [|apply endures_refl]|].
  destruct stored as [g|e|]; [|by split; [|apply endures_refl]..].
  cbn [fst]. destruct (bool_decide _); [by apply install_attachment_ok|by split; [|apply endures_refl]].
Qed.

Lemma router_step_ok r o : router_wf r -> router_wf (router_step r o).1 /\ endures r (router_step r o).1.
Proof.
  intros Hw. destruct o as [stored lease s|u|u|u|p g|p g|s|m|m|m|p g]; cbn [router_step done_of fst].
  - by apply acquire_ok.
  - by apply install_directory_ok.
  - unfold install_relays. destruct (map_err _ _) as [[]|e|]; (split; [by try apply revisions_wf|exact (endures_refl r)]).
  - unfold install_policy. destruct (map_err _ _) as [[]|e|]; (split; [by try apply revisions_wf|exact (endures_refl r)]).
  - by apply detach_ok.
  - by apply observe_fence_ok.
  - by apply revoke_ok.
  - unfold route_control. destruct (validate_control_source _ _ r) as [[]|e|]; [by apply to_local_ok|by split; [|apply endures_refl]..].
  - unfold route_authenticated_control. case_bool_decide; [by apply to_local_ok|by split; [|apply endures_refl]].
  - unfold accept_cross_relay_control. case_bool_decide; [by apply to_local_ok|by split; [|apply endures_refl]].
  - by apply receive_ok.
Qed.
Lemma router_run_ok ops r : router_wf r -> router_wf (router_run ops r) /\ endures r (router_run ops r).
Proof.
  revert r. induction ops as [|o ops IH]; intros r Hw; [split; [done|apply endures_refl]|].
  destruct (router_step_ok r o Hw) as [Hw' He]. destruct (IH _ Hw') as [Hr Her].
  split; [done|]. by eapply endures_trans.
Qed.
Lemma new_router_wf mesh relay key capacity r : new mesh relay key capacity = Ok r -> router_wf r.
Proof.
  unfold new. destruct (N.eqb_spec capacity 0); [done|]. intros [= <-].
  split; cbn; try lia; intros p x Hx; rewrite lookup_empty in Hx; done.
Qed.

(** *** What the admitted credentials rest on *)

(** The credentials in force are those of a directory that verified under the
    Relay's key for its mesh, or none were installed. *)
Definition directory_backed r : Prop :=
  match directory_revision r with
  | None => directory_credentials r = ∅
  | Some revision => exists u accepted,
      Sg.verify_peers (verifier r) u (mesh_id r) accepted = Ok tt /\
      Sg.pd_revision (Sg.spd_directory u) = revision /\ directory_credentials r = credentials_of (Sg.spd_directory u)
  end.

Lemma directory_backed_same r r' : endures r r' -> directory_revision r' = directory_revision r ->
  directory_credentials r' = directory_credentials r -> directory_backed r -> directory_backed r'.
Proof. unfold directory_backed. intros (-> & _ & -> & _) -> ->. done. Qed.
Lemma to_local_directory m r : directory_revision (to_local m r).1 = directory_revision r /\
  directory_credentials (to_local m r).1 = directory_credentials r.
Proof.
  unfold to_local, enqueue. cbv zeta. destruct (validate_local_destination _ r) as [[]|e|]; [|done..]. by case_match.
Qed.
Lemma router_step_directory r o : router_wf r -> directory_backed r -> directory_backed (router_step r o).1.
Proof.
  intros Hw Hb. destruct (router_step_ok r o Hw) as [_ He].
  destruct o as [stored lease s|u|u|u|p g|p g|s|m|m|m|p g]; cbn [router_step done_of fst] in *.
  2:{ destruct (install_directory_cases u r) as [(Hv & _ & Hr & Hc)|[-> _]]; [|done].
      unfold directory_backed. rewrite Hr, Hc. exists u, (directory_revision r). destruct He as (-> & _ & -> & _). done. }
  all: eapply directory_backed_same; [exact He| | |exact Hb].
  all: unfold acquire, install_acquired, install_attachment, install_relays, install_policy, detach, observe_fence, revoke,
    route_control, route_authenticated_control, accept_cross_relay_control, receive_control; cbv zeta;
    repeat case_match; try done; apply to_local_directory.
Qed.
Lemma router_run_directory ops r : router_wf r -> directory_backed r -> directory_backed (router_run ops r).
Proof.
  revert r. induction ops as [|o ops IH]; intros r Hw Hb; [done|]. apply IH; [by apply router_step_ok|by apply router_step_directory].
Qed.

Lemma credentials_of_fold l (m : gmap PeerId (gset CredentialSerial)) p c :
  foldl (fun m x => <[Sg.pe_peer_id x := accepted_serials x]> m) m l !! p = Some c ->
  m !! p = Some c \/ exists x, x ∈ l /\ Sg.pe_peer_id x = p /\ accepted_serials x = c.
Proof.
  revert m. induction l as [|x l IH]; intros m; cbn [foldl]; [by left|].
  intros [Hm|(y & Hin & Hp)]%IH; [|right; exists y; split; [by right|done]].
  apply lookup_insert_Some in Hm as [[Hp Hc]|[_ Hm]]; [right; exists x; split; [by left|done]|by left].
Qed.
Lemma credentials_of_Some d p c : credentials_of d !! p = Some c ->
  exists s, s ∈ Sg.pd_entries d /\ Sg.pe_enabled (Sg.sp_entry s) = true /\ Sg.pe_peer_id (Sg.sp_entry s) = p /\
    accepted_serials (Sg.sp_entry s) = c.
Proof.
  intros [Hm|(e & [Hen (s & -> & Hin)%list_elem_of_fmap]%list_elem_of_filter & Hp & Hc)]%credentials_of_fold;
    [by rewrite lookup_empty in Hm|by exists s].
Qed.

(** *** The traffic of one Peer *)

Definition accepted_for p (o : router_op) (a : answer) : list Wire.ControlEnvelope :=
  match o, a with
  | (RouteControl m | RouteAuthenticated m | AcceptCrossRelay m), Done true =>
      if bool_decide (rc_destination m = p) then [rc_envelope m] else []
  | _, _ => []
  end.
Definition received_for p (o : router_op) (a : answer) : list Wire.ControlEnvelope :=
  match o, a with
  | Receive p' _, Received (Some e) => if bool_decide (p' = p) then [e] else []
  | _, _ => []
  end.
(** What was accepted for the Peer and what it received, in order. *)
Fixpoint traffic p (ops : list router_op) r : list Wire.ControlEnvelope * list Wire.ControlEnvelope :=
  match ops with
  | [] => ([], [])
  | o :: ops' =>
      let '(r', a) := router_step r o in
      let '(acc, rec) := traffic p ops' r' in
      (accepted_for p o a ++ acc, received_for p o a ++ rec)
  end.
(** The operations that end a session or a Peer's admission drop its queue. *)
Definition keeps_queue p (o : router_op) : Prop :=
  match o with Detach p' _ => p' <> p | RevokeSerial _ | InstallDirectory _ => False | _ => True end.

Lemma to_local_queue p m r : let x := to_local m r in
  queue x.1 p = queue r p ++ (if is_ok x.2 then if bool_decide (rc_destination m = p) then [rc_envelope m] else [] else []).
Proof.
  cbv zeta. unfold to_local, enqueue. cbv zeta. destruct (validate_local_destination _ r) as [[]|err|]; [|by rewrite app_nil_r..].
  unfold queue. destruct (decide (rc_destination m = p)) as [<-|Hne]; case_match; cbn;
    rewrite ?lookup_insert_eq, ?lookup_insert_ne by done; cbn; rewrite ?app_nil_r; try done;
    [by rewrite bool_decide_eq_true_2|by rewrite bool_decide_eq_false_2, app_nil_r by done].
Qed.

Lemma filter_queue (P : PeerId * list Wire.ControlEnvelope -> Prop) `{!forall x, Decision (P x)} (m : gmap PeerId (list Wire.ControlEnvelope)) p :
  default [] (filter P m !! p) = default [] (m !! p) \/ default [] (filter P m !! p) = [].
Proof.
  destruct (filter P m !! p) as [q|] eqn:Hq; [|by right]. apply map_lookup_filter_Some in Hq as [-> _]. by left.
Qed.

Lemma router_step_queue p r o : let x := router_step r o in
  received_for p o x.2 ++ queue x.1 p = queue r p ++ accepted_for p o x.2 \/
  (queue x.1 p = [] /\ received_for p o x.2 = [] /\ accepted_for p o x.2 = [] /\ ~ keeps_queue p o).
Proof.
  cbv zeta. assert (Hsame : forall r', control_queues r' = control_queues r -> [] ++ queue r' p = queue r p ++ []).
  { intros r' He. rewrite app_nil_r. unfold queue. by rewrite He. }
  assert (Hlocal : forall m, [] ++ queue (to_local m r).1 p = queue r p ++ accepted_for p (AcceptCrossRelay m) (Done (is_ok (to_local m r).2))).
  { intros m. cbn [app]. rewrite to_local_queue. by destruct (is_ok (to_local m r).2). }
  destruct o as [stored lease s|u|u|u|p' g|p' g|s|m|m|m|p' g]; cbn [router_step done_of fst snd accepted_for received_for].
  - left. apply Hsame. unfold acquire, install_acquired, install_attachment. cbv zeta. by repeat case_match.
  - unfold install_directory. destruct (map_err _ _) as [[]|e|]; [|by left; apply Hsame..].
    destruct (filter_queue (fun q => is_Some (credentials_of (Sg.spd_directory u) !! q.1)) (control_queues r) p) as [He|He].
    + left. rewrite app_nil_r. exact He.
    + right. split; [exact He|]. split_and!; done || (cbn; tauto).
  - left. apply Hsame. unfold install_relays. by repeat case_match.
  - left. apply Hsame. unfold install_policy. by repeat case_match.
  - unfold detach. destruct (match attachments r !! p' with Some _ => _ | None => _ end); [|by left; apply Hsame].
    unfold queue. cbn. destruct (decide (p = p')) as [->|Hne].
    + right. rewrite lookup_delete_eq. split_and!; try done. intros Hk. by apply Hk.
    + left. by rewrite lookup_delete_ne, app_nil_r.
  - left. apply Hsame. unfold observe_fence. by repeat case_match.
  - unfold revoke, queue. cbn -[filter].
    match goal with |- context [filter ?P (control_queues r)] => destruct (filter_queue P (control_queues r) p) as [He|He] end;
      [left; by rewrite app_nil_r|right; split_and!; try done; by intros []].
  - left. unfold route_control. destruct (validate_control_source _ _ r) as [[]|e|]; [apply (Hlocal m)|by apply Hsame..].
  - left. unfold route_authenticated_control. case_bool_decide; [apply (Hlocal m)|by apply Hsame].
  - left. unfold accept_cross_relay_control. case_bool_decide; [apply (Hlocal m)|by apply Hsame].
  - left. unfold receive_control. destruct (validate_control_source p' g r) as [[]|e|]; [|by apply Hsame..].
    destruct (control_queues r !! p') as [[|e q]|] eqn:Hq; [by apply Hsame| |by apply Hsame].
    unfold queue. cbn. rewrite app_nil_r. case_bool_decide as Hp.
    + subst p'. by rewrite lookup_insert_eq, Hq.
    + by rewrite lookup_insert_ne.
Qed.

Lemma traffic_spec p ops r : let '(acc, rec) := traffic p ops r in
  rec ++ queue (router_run ops r) p `sublist_of` queue r p ++ acc /\
  (Forall (keeps_queue p) ops -> rec ++ queue (router_run ops r) p = queue r p ++ acc).
Proof.
  revert r. induction ops as [|o ops IH]; intros r; [cbn; by rewrite app_nil_r|].
  cbn [traffic]. pose proof (router_step_queue p r o) as Hs. cbv zeta in Hs.
  assert (Hrun : router_run (o :: ops) r = router_run ops (router_step r o).1) by done.
  destruct (router_step r o) as [r1 a]. cbn [fst snd] in *. specialize (IH r1).
  destruct (traffic p ops r1) as [acc rec]. rewrite Hrun. destruct IH as [IH1 IH2].
  destruct Hs as [Hs|(Hq & Hr & Ha & Hk)].
  - rewrite <-!app_assoc, app_assoc with (l := queue r p), <-Hs, <-app_assoc. split.
    + by apply sublist_app.
    + intros [_ Hall]%Forall_cons. by rewrite IH2.
  - rewrite Hr, Ha. rewrite Hq in IH1. cbn [app] in *. split; [by apply sublist_inserts_l|].
    intros [Hko _]%Forall_cons. by destruct Hk.
Qed.
End invariants.

(** ** Theorems *)

Section theorems.
Context `{Wire.ProstLib} `{TimeLib} `{UuidLib} `{Ed25519Lib} `{X25519Lib}.

(** A Relay delivers what it accepted, in order, once. Over any sequence of
    router operations, what a Peer received followed by what is still queued for
    it is, in order and without repetition or alteration, part of what was queued
    and accepted for it; it is all of it unless a detach, a revocation or a new
    directory dropped its queue in between; and no queue ever exceeds the
    configured capacity, nor exists for a Peer the directory does not list. *)
Theorem router_delivers peer ops r (Hwf : router_wf r) :
  let r' := router_run ops r in
  let '(accepted, received) := traffic peer ops r in
  router_wf r' /\ lenN (queue r' peer) <= queue_capacity r /\
  received ++ queue r' peer `sublist_of` queue r peer ++ accepted /\
  (Forall (keeps_queue peer) ops -> received ++ queue r' peer = queue r peer ++ accepted).
Proof.
  cbv zeta. pose proof (traffic_spec peer ops r) as Ht. destruct (traffic peer ops r) as [acc rec].
  destruct (router_run_ok ops r Hwf) as [Hw (_ & _ & _ & Hcap & _)]. split; [done|]. split; [|done].
  rewrite <-Hcap. unfold queue. destruct (control_queues (router_run ops r) !! peer) as [q|] eqn:Hq;
    [by apply (rw_queue _ Hw peer)|unfold lenN; cbn; lia].
Qed.

(** A session the Relay may serve: attached under the current fence, not revoked,
    and listed in an enabled entry of a directory signed for this mesh. *)
Definition admitted_session (r : OpaqueRouter) (peer : PeerId) (gen : Z) : Prop :=
  exists a, attachments r !! peer = Some a /\ at_peer_id a = peer /\ at_role a = Pc.Primary /\ at_generation a = gen /\
    known_fences r !! peer = Some gen /\ at_serial a ∉ revoked r /\
    exists u accepted s, Sg.verify_peers (verifier r) u (mesh_id r) accepted = Ok tt /\
      directory_revision r = Some (Sg.pd_revision (Sg.spd_directory u)) /\
      s ∈ Sg.pd_entries (Sg.spd_directory u) /\ Sg.verify_peer (verifier r) s (mesh_id r) = Ok tt /\
      Sg.pe_peer_id (Sg.sp_entry s) = peer /\ Sg.pe_enabled (Sg.sp_entry s) = true /\
      at_serial a ∈ accepted_serials (Sg.sp_entry s).

Lemma session_admitted r peer a gen : router_wf r -> directory_backed r -> attachments r !! peer = Some a ->
  at_generation a = gen -> session_ok r peer a gen = true -> admitted_session r peer gen.
Proof.
  intros Hw Hb Ha Hg (Hf & Hr & Hl)%session_ok_inv. exists a.
  split_and!; [done|by apply (rw_peer _ Hw)|by apply (rw_primary _ Hw peer)|done|done|done|].
  unfold lists in Hl. destruct (directory_credentials r !! peer) as [c|] eqn:Hc; [|done]. apply bool_decide_eq_true in Hl.
  unfold directory_backed in Hb. destruct (directory_revision r) as [rev|]; [|by rewrite Hb, lookup_empty in Hc].
  destruct Hb as (u & accepted & Hv & <- & Hd). rewrite Hd in Hc. apply credentials_of_Some in Hc as (s & Hin & Hen & Hp & <-).
  exists u, accepted, s. split_and!; try done. apply Sg.verify_peers_Ok in Hv as (_ & _ & _ & _ & _ & Hall & _).
  by apply (proj1 (Forall_forall _ _) Hall).
Qed.
Lemma to_local_admitted r m : router_wf r -> directory_backed r -> is_ok (to_local m r).2 = true ->
  exists gen, admitted_session r (rc_destination m) gen.
Proof.
  intros Hw Hb. unfold to_local. destruct (validate_local_destination (rc_destination m) r) as [[]|e|] eqn:Hv; [|done..].
  intros _. apply validate_destination_Ok in Hv as (a & Ha & _ & Hs). exists (at_generation a). by eapply session_admitted.
Qed.

(** C16: only admitted sessions are served. In every state a Relay can reach, a
    Peer takes a message off its queue only as a session that is attached as
    primary under exactly the current fence, whose credential is not revoked and
    is listed in an enabled entry of a Peer directory that verified under the
    directory key for this mesh; and whatever the path - a local session, a
    standby link, another Relay - a message is queued only for such a session. *)
Theorem served_sessions_admitted mesh relay key capacity r0 ops (Hnew : new mesh relay key capacity = Ok r0) :
  let r := router_run ops r0 in
  (forall peer gen x, (receive_control peer gen r).2 = Ok x -> admitted_session r peer gen) /\
  (forall m, (route_control m r).2 = Ok tt ->
     admitted_session r (rc_source m) (rc_generation m) /\ exists gen, admitted_session r (rc_destination m) gen) /\
  (forall m, (route_authenticated_control m r).2 = Ok tt \/ (accept_cross_relay_control m r).2 = Ok tt ->
     exists gen, admitted_session r (rc_destination m) gen).
Proof.
  cbv zeta. pose proof (new_router_wf _ _ _ _ _ Hnew) as Hw0.
  assert (Hb0 : directory_backed r0) by (unfold new in Hnew; destruct (capacity =? 0); [done|]; injection Hnew as <-; done).
  destruct (router_run_ok ops r0 Hw0) as [Hw _]. pose proof (router_run_directory ops r0 Hw0 Hb0) as Hb.
  set (r := router_run ops r0) in *.
  assert (Hsrc : forall p g, validate_control_source p g r = Ok tt -> admitted_session r p g).
  { intros p g (a & Ha & Hg & Hs)%validate_source_Ok. by eapply session_admitted. }
  split; [|split].
  - intros p g x Hx. apply Hsrc. unfold receive_control in Hx. by destruct (validate_control_source p g r) as [[]|e|].
  - intros m Hx. unfold route_control in Hx.
    destruct (validate_control_source (rc_source m) (rc_generation m) r) as [[]|e|] eqn:Hv; [|done..].
    split; [by apply Hsrc|]. apply to_local_admitted; [done|done|by rewrite Hx].
  - intros m Hx. apply to_local_admitted; [done|done|].
    unfold route_authenticated_control, accept_cross_relay_control in Hx.
    destruct (bool_decide _), Hx as [Hx|Hx]; (done || by rewrite Hx).
Qed.

(** A fenced or revoked session is refused for good. Once a Relay knows a
    fence for a Peer, or a revoked credential, then after any operations that
    follow a session of an earlier generation, or with that credential, neither
    takes a message off the queue nor sends one, and nothing is queued for it. *)
Theorem stale_sessions_refused r ops peer (Hwf : router_wf r) :
  let r' := router_run ops r in
  (forall fence gen, known_fences r !! peer = Some fence -> (gen < fence)%Z ->
     receive_control peer gen r' = (r', Err StaleFence) /\
     (forall m, rc_source m = peer -> rc_generation m = gen -> route_control m r' = (r', Err StaleFence))) /\
  (forall a gen, attachments r' !! peer = Some a -> at_serial a ∈ revoked r ->
     receive_control peer gen r' = (r', Err StaleFence) /\
     (forall m, rc_source m = peer -> is_ok (route_control m r').2 = false) /\
     (forall m, rc_destination m = peer -> is_ok (route_control m r').2 = false /\
        is_ok (route_authenticated_control m r').2 = false /\ is_ok (accept_cross_relay_control m r').2 = false)).
Proof.
  cbv zeta. destruct (router_run_ok ops r Hwf) as [Hw (_ & _ & _ & _ & Hrev & Hfen)]. set (r' := router_run ops r) in *.
  assert (Hno : forall p g, validate_control_source p g r' <> Ok tt -> validate_control_source p g r' = Err StaleFence).
  { intros p g. unfold validate_control_source. destruct (attachments r' !! p) as [a|]; [|done]. by destruct (_ && _). }
  split.
  - intros f g Hf Hlt. destruct (Hfen _ _ Hf) as (f' & Hf' & Hle).
    assert (Hv : validate_control_source peer g r' = Err StaleFence).
    { apply Hno. intros (a & _ & _ & (Hk & _ & _)%session_ok_inv)%validate_source_Ok. rewrite Hf' in Hk. injection Hk as ->. lia. }
    unfold receive_control, route_control. rewrite Hv. split; [done|]. intros m -> ->. by rewrite Hv.
  - intros a g Ha Hs. assert (Hin : at_serial a ∈ revoked r') by set_solver.
    assert (Hv : forall gen, validate_control_source peer gen r' = Err StaleFence).
    { intros gen. apply Hno. intros (a' & Ha' & _ & (_ & Hnr & _)%session_ok_inv)%validate_source_Ok.
      rewrite Ha in Ha'. injection Ha' as <-. done. }
    assert (Hd : validate_local_destination peer r' = Err NoRoute).
    { unfold validate_local_destination. rewrite Ha. unfold session_ok. rewrite (bool_decide_eq_true_2 _ Hin).
      by rewrite andb_false_r, andb_false_l, andb_false_r. }
    split; [unfold receive_control; by rewrite Hv|]. split; [intros m <-; unfold route_control; by rewrite Hv|].
    intros m <-. unfold route_control, route_authenticated_control, accept_cross_relay_control, to_local. rewrite Hd.
    split_and!; [by destruct (validate_control_source _ _ r')|by case_bool_decide|by case_bool_decide].
Qed.
End theorems.


(** ** protocol.rs: the credential gate *)

Section gate.
Context `{UuidLib} `{Ed25519Lib} `{X25519Lib}.

Record CredentialGate := mkGate {
  trust : Cred.TrustSet;
  gate_revoked : gset CredentialSerial;
  peer_admissions : option (gset (PeerId * CredentialSerial));
  relay_admissions : option (gset (RelayId * CredentialSerial));
}.
Definition gate_new (t : Cred.TrustSet) : CredentialGate := mkGate t ∅ None None.
Definition install_admissions (peers : list (PeerId * CredentialSerial)) (relays : list (RelayId * CredentialSerial))
    (self : CredentialGate) : CredentialGate :=
  mkGate (trust self) (gate_revoked self) (Some (list_to_set peers)) (Some (list_to_set relays)).
Definition relay_admitted (relay : RelayId) (serial : CredentialSerial) (self : CredentialGate) : bool :=
  match relay_admissions self with Some values => bool_decide ((relay, serial) ∈ values) | None => true end.
Definition gate_revoke (serial : CredentialSerial) (self : CredentialGate) : CredentialGate :=
  mkGate (trust self) ({[serial]} ∪ gate_revoked self) (peer_admissions self) (relay_admissions self).
Definition is_revoked (serial : CredentialSerial) (self : CredentialGate) : bool :=
  bool_decide (serial ∈ gate_revoked self).
Definition install_authorities (bundle : Cred.SignedAuthorityBundle) (now : N) (self : CredentialGate)
    : CredentialGate * rresult unit :=
  let '(t, res) := Cred.install_authority_bundle bundle now (trust self) in
  (mkGate t (gate_revoked self) (peer_admissions self) (relay_admissions self), map_err CredentialErr res).

#[local] Existing Instances Cred.SubjectRole_eq_dec.
Definition InvalidSignature : RelayError := CredentialErr Cred.InvalidSignature.
Definition gate_peer (credential : Cred.SubjectCredential) (remote_static : list byte) (now : N) (self : CredentialGate)
    : rresult PeerId :=
  let u := Cred.sc_unsigned credential in
  if negb (bool_decide (Cred.sc_role credential = Cred.PeerRole))
     || negb (bool_decide (Cred.public_noise_key u = remote_static))
  then Err InvalidSignature else
  if is_revoked (Cred.us_serial u) self then Err (CredentialErr Cred.Revoked) else
  _ ← map_err CredentialErr (Cred.verify_subject credential now (trust self));
  match Cred.us_subject u with
  | Cred.PeerSubject peer =>
      if match peer_admissions self with Some values => bool_decide ((peer, Cred.us_serial u) ∈ values) | None => true end
      then Ok peer else Err (CredentialErr Cred.Revoked)
  | Cred.RelaySubject _ => Err InvalidSignature
  end.

Inductive gate_op :=
  | InstallAdmissions (peers relays : list (DomainId * CredentialSerial))
  | GateRevoke (serial : CredentialSerial)
  | InstallAuthorities (bundle : Cred.SignedAuthorityBundle) (now : N).
Definition gate_step (g : CredentialGate) (o : gate_op) : CredentialGate :=
  match o with
  | InstallAdmissions peers relays => install_admissions peers relays g
  | GateRevoke s => gate_revoke s g
  | InstallAuthorities b now => (install_authorities b now g).1
  end.
Definition gate_run (ops : list gate_op) (g : CredentialGate) : CredentialGate := foldl gate_step g ops.

Lemma gate_step_revoked g o : gate_revoked g ⊆ gate_revoked (gate_step g o).
Proof.
  destruct o as [peers relays|s|b now]; cbn; [done|set_solver|]. unfold install_authorities.
  by destruct (Cred.install_authority_bundle b now (trust g)) as [t res].
Qed.
Lemma gate_run_revoked ops g : gate_revoked g ⊆ gate_revoked (gate_run ops g).
Proof.
  revert g. induction ops as [|o ops IH]; intros g; [done|]. etransitivity; [apply (gate_step_revoked g o)|apply IH].
Qed.

(** The credential gate. A Noise session is accepted as Peer [peer] exactly
    when the credential is a Peer credential for the very static key the handshake
    authenticated, its subject is that Peer, it is of this mesh and not revoked by
    the trust set or the gate, some standing authority of the trust set vouches for
    it now, and the latest database snapshot, once there is one, admits the pair;
    and a serial revoked at the gate is refused after whatever else is installed. *)
Theorem credential_gate_exact g credential key now peer :
  let u := Cred.sc_unsigned credential in
  (gate_peer credential key now g = Ok peer <->
   Cred.sc_role credential = Cred.PeerRole /\ Cred.public_noise_key u = key /\ Cred.us_subject u = Cred.PeerSubject peer /\
   Cred.us_serial u ∉ gate_revoked g /\
   (Cred.admissible credential (trust g) /\ exists a, a ∈ Cred.authorities (trust g) /\ Cred.vouches credential now (trust g) a) /\
   (forall values, peer_admissions g = Some values -> (peer, Cred.us_serial u) ∈ values)) /\
  (Cred.us_serial u ∈ gate_revoked g -> forall ops later, is_ok (gate_peer credential key later (gate_run ops g)) = false).
Proof.
  cbv zeta. set (u := Cred.sc_unsigned credential).
  assert (Hiff : forall g now peer, gate_peer credential key now g = Ok peer <->
   Cred.sc_role credential = Cred.PeerRole /\ Cred.public_noise_key u = key /\ Cred.us_subject u = Cred.PeerSubject peer /\
   Cred.us_serial u ∉ gate_revoked g /\ Cred.verify_subject credential now (trust g) = Ok tt /\
   (forall values, peer_admissions g = Some values -> (peer, Cred.us_serial u) ∈ values)).
  { clear g now peer. intros g now peer. unfold gate_peer, is_revoked. fold u.
    case_bool_decide as Hr; cbn [negb orb]; [|split; [done|by intros [? _]]].
    case_bool_decide as Hk; cbn [negb]; [|split; [done|by intros (_ & ? & _)]].
    case_bool_decide as Hrev; [split; [done|by intros (_ & _ & _ & ? & _)]|].
    destruct (Cred.verify_subject credential now (trust g)) as [[]|e|]; cbn [map_err mbind outcome_bind];
      [|split; [done|by intros (_ & _ & _ & _ & ? & _)]..].
    destruct (Cred.us_subject u) as [p|p]; [|split; [done|by intros (_ & _ & ? & _)]].
    destruct (peer_admissions g) as [values|]; [case_bool_decide as Hin|].
    - split; [intros [= <-]; split_and!; try done; by intros ? [= <-]|by intros (_ & _ & [= <-] & _)].
    - split; [done|]. intros (_ & _ & [= ->] & _ & _ & Hv). by destruct (Hin (Hv _ eq_refl)).
    - split; [by intros [= <-]|by intros (_ & _ & [= <-] & _)]. }
  split.
  - rewrite Hiff, Cred.verify_subject_Ok. done.
  - intros Hin ops later. destruct (gate_peer credential key later (gate_run ops g)) as [p|e|] eqn:Hp; [|done..].
    apply Hiff in Hp as (_ & _ & _ & Hn & _). destruct Hn. by apply (gate_run_revoked ops g).
Qed.
End gate.


(** ** Witnesses *)

#[local] Existing Instances Wire.prost_tagged Pc.time_nanos uuid_rfc Cred.toy_ed Cred.every_key.

Definition example_router : OpaqueRouter :=
  mkRouter (Cred.example_id 1) (Cred.example_id 9) (Cred.example_key x30) None None None ∅ ∅ ∅ ∅ ∅ 2.
Definition example_lease : Pc.PresenceLease :=
  Pc.mkLease (Cred.example_id 1) (Cred.example_id 3) (Cred.example_id 9) (Cred.example_id 8) Pc.Primary 0%Z.
Definition example_routed (e : byte) : RoutedControl := mkRouted (Cred.example_id 3) (Cred.example_id 3) 7 [e].
Definition example_attached : list router_op :=
  [InstallDirectory Sg.example_directory; Acquire (Ok 7%Z) example_lease (Cred.example_id 4)].
Definition example_sent : list router_op :=
  example_attached ++ [AcceptCrossRelay (example_routed x01); RouteControl (example_routed x02)].

Lemma example_router_new : new (Cred.example_id 1) (Cred.example_id 9) (Cred.example_key x30) 2 = Ok example_router.
Proof. reflexivity. Qed.

Lemma router_delivers_witness :
  traffic (Cred.example_id 3) (example_sent ++ [Receive (Cred.example_id 3) 7]) example_router = ([[x01]; [x02]], [[x01]]) /\
  [[x01]] ++ queue (router_run (example_sent ++ [Receive (Cred.example_id 3) 7]) example_router) (Cred.example_id 3)
    `sublist_of` [[x01]; [x02]].
Proof.
  assert (Ht : traffic (Cred.example_id 3) (example_sent ++ [Receive (Cred.example_id 3) 7]) example_router
    = ([[x01]; [x02]], [[x01]])) by (vm_compute; reflexivity).
  split; [exact Ht|].
  pose proof (router_delivers (Cred.example_id 3) (example_sent ++ [Receive (Cred.example_id 3) 7]) example_router
    (new_router_wf _ _ _ _ _ example_router_new)) as H.
  cbv zeta in H. rewrite Ht in H. exact (proj1 (proj2 (proj2 H))).
Defined.

Lemma served_sessions_admitted_witness :
  (receive_control (Cred.example_id 3) 7 (router_run example_sent example_router)).2 = Ok (Some [x01]) /\
  admitted_session (router_run example_sent example_router) (Cred.example_id 3) 7.
Proof.
  assert (Hr : (receive_control (Cred.example_id 3) 7 (router_run example_sent example_router)).2 = Ok (Some [x01]))
    by (vm_compute; reflexivity).
  split; [exact Hr|].
  destruct (served_sessions_admitted (Cred.example_id 1) (Cred.example_id 9) (Cred.example_key x30) 2 example_router
    example_sent example_router_new) as [H _].
  exact (H _ _ _ Hr).
Defined.

Lemma stale_sessions_refused_witness :
  let r := router_run example_sent example_router in
  let r' := router_run [ObserveFence (Cred.example_id 3) 9; RevokeSerial (Cred.example_id 5)] r in
  known_fences r !! Cred.example_id 3 = Some 7%Z /\ receive_control (Cred.example_id 3) 6 r' = (r', Err StaleFence).
Proof.
  cbv zeta. assert (Hf : known_fences (router_run example_sent example_router) !! Cred.example_id 3 = Some 7%Z)
    by (vm_compute; reflexivity).
  split; [exact Hf|].
  destruct (stale_sessions_refused (router_run example_sent example_router)
    [ObserveFence (Cred.example_id 3) 9; RevokeSerial (Cred.example_id 5)] (Cred.example_id 3)) as [H _].
  - exact (proj1 (router_run_ok example_sent example_router (new_router_wf _ _ _ _ _ example_router_new))).
  - exact (proj1 (H 7%Z 6%Z Hf eq_refl)).
Defined.

End Rr.
