(* ===== verification/RelayBackbone.v ===== *)
(** * The Relay backbone (crate [peerward-relay])

    What Relays send each other: the payloads of backbone_codec.rs and
    link_handshake.rs, and the handlers of runtime_backbone.rs,
    runtime_backbone_link.rs and runtime_routing.rs that route Peer control
    messages and presence over the sparse topology. *)

From S2P Require Import Prelude Ordered Net Fields Directory Topology Credentials DirectorySigning Wire RelayPresence RelayRouter.
From Stdlib Require Import ZArith NArith Lia.
From stdpp Require Import base tactics decidable countable numbers list sorting gmap.
From Stdlib.Init Require Import Byte.
Set Default Goal Selector "!".
Local Open Scope N_scope.

(** The nil UUID is not a random one. *)
Class UuidLaws `{UuidLib} : Prop := { uuid_nil : uuid_version_random 0 = false }.

Module Bb.

Notation rresult := (outcome RelayError).

(** ** Payloads *)

Record BackboneRoute := mkRoute {
  origin : RelayId;
  destination : option RelayId;
  topology_revision : N;
  hop_limit : N;
  visited : list RelayId;
}.
#[export] Instance BackboneRoute_eq_dec : EqDecision BackboneRoute.
Proof. solve_decision. Defined.

Section payloads.
Context `{Wire.ProstLib} `{TimeLib}.

Inductive BackbonePayload :=
  | Control (control : Rr.RoutedControl)
  | Presence (update : Pc.PresenceAnnouncement)
  | RoutedControl (control : Rr.RoutedControl) (route : BackboneRoute)
  | RoutedPresence (update : Pc.PresenceAnnouncement) (route : BackboneRoute).

Definition MAX_BACKBONE_BODY : N := 60 * 1024.

(** Whether every element is new to the set it is inserted into. *)
Fixpoint all_inserted (seen : gset RelayId) (l : list RelayId) : bool :=
  match l with
  | [] => true
  | x :: l' => if bool_decide (x ∈ seen) then false else all_inserted ({[x]} ∪ seen) l'
  end.

Definition encode_control_body (control : Rr.RoutedControl) : rresult (list byte) :=
  let envelope := Wire.encode_to_vec (Rr.rc_envelope control) in
  if MAX_BACKBONE_BODY <? lenN envelope then Err QueueFull else
  if U32_MAX <? lenN envelope then Err QueueFull else
  Ok (id_bytes (Rr.rc_source control) ++ id_bytes (Rr.rc_destination control)
      ++ i64_to_be (Rr.rc_generation control) ++ to_be 4 (lenN envelope) ++ envelope).

Definition encode_routed_payload (kind : N) (route : BackboneRoute) (payload : list byte) : rresult (list byte) :=
  if negb ((1 <=? hop_limit route) && (hop_limit route <=? 4)) || (lenN (visited route) =? 0)
     || (4 <? lenN (visited route)) || (MAX_BACKBONE_BODY <? lenN payload)
     || negb (Bool.eqb (kind =? 1) (bool_decide (is_Some (destination route))))
  then Err MalformedForwarded else
  if negb (all_inserted ∅ (visited route)) then Err MalformedForwarded else
  if U8_MAX <? lenN (visited route) then Err MalformedForwarded else
  if U32_MAX <? lenN payload then Err QueueFull else
  Ok ([x03; byte_of kind] ++ id_bytes (origin route)
      ++ match destination route with Some relay => id_bytes relay | None => replicate 16 x00 end
      ++ to_be 8 (topology_revision route) ++ [byte_of (hop_limit route)] ++ [byte_of (lenN (visited route))]
      ++ concat (id_bytes <$> visited route) ++ to_be 4 (lenN payload) ++ payload).

Definition encode_legacy_forwarded_control (control : Rr.RoutedControl) : rresult (list byte) :=
  payload ← encode_control_body control; Ok (x02 :: payload).

Definition encode_backbone_payload (payload : BackbonePayload) : rresult (list byte) :=
  match payload with
  | Control control => encode_legacy_forwarded_control control
  | Presence _ => Err Pc.KindMismatch
  | RoutedControl control route => body ← encode_control_body control; encode_routed_payload 1 route body
  | RoutedPresence update route => encode_routed_payload 2 route (Pc.encode_presence update)
  end.

Section decode.
Context `{UuidLib}.

Definition MalformedControl : RelayError := WireErr Wire.MalformedControl.
Definition decode_control_body (body : list byte) : rresult Rr.RoutedControl :=
  if lenN body <? 44 then Err MalformedForwarded else
  source ← read id_field MalformedForwarded body 0 16;
  dest ← read id_field MalformedForwarded body 16 32;
  generation ← read i64_field MalformedForwarded body 32 40;
  length ← read (be_field 4) MalformedForwarded body 40 44;
  if (MAX_BACKBONE_BODY <? length) || negb (lenN body =? 44 + length) then Err MalformedForwarded else
  rest ← slice_from body 44;
  envelope ← ok_or (Wire.envelope_decode rest) MalformedControl;
  Ok (Rr.mkRouted source dest generation envelope).

(** [RelayId::from_uuid(Uuid::from_slice(bytes)?)] *)
Definition relay_id (bytes : list byte) : rresult RelayId := ok_or (f_dec id_field bytes) MalformedForwarded.
Definition decode_destination (body : list byte) : rresult (option RelayId) :=
  bytes ← slice body 17 33;
  if bool_decide (bytes = replicate 16 x00) then Ok None
  else Some <$> ok_or (from_uuid (from_be bytes)) MalformedForwarded.
Definition route_length (visited_count : N) : N := 43 + visited_count * 16 + 4.
Definition decode_route (body : list byte) : rresult (BackboneRoute * list byte) :=
  origin ← read id_field MalformedForwarded body 1 17;
  destination ← decode_destination body;
  topology_revision ← read (be_field 8) MalformedForwarded body 33 41;
  hop_limit ← u8 <$> index body 41;
  visited_count ← u8 <$> index body 42;
  if negb ((1 <=? hop_limit) && (hop_limit <=? 4)) || negb ((1 <=? visited_count) && (visited_count <=? 4))
  then Err MalformedForwarded else
  if lenN body <? route_length visited_count then Err MalformedForwarded else
  region ← slice body 43 (43 + visited_count * 16);
  visited ← mapM relay_id (Cred.chunks_exact 16 region);
  if negb (all_inserted ∅ visited) then Err MalformedForwarded else
  let length_offset := 43 + visited_count * 16 in
  payload_length ← read (be_field 4) MalformedForwarded body length_offset (length_offset + 4);
  if (MAX_BACKBONE_BODY <? payload_length) || negb (lenN body =? route_length visited_count + payload_length)
  then Err MalformedForwarded else
  payload ← slice_from body (route_length visited_count);
  Ok (mkRoute origin destination topology_revision hop_limit visited, payload).
Definition decode_routed_payload (body : list byte) : rresult BackbonePayload :=
  if lenN body <? 47 then Err MalformedForwarded else
  kind ← u8 <$> index body 0;
  '(route, payload) ← decode_route body;
  match kind =? 1, kind =? 2, destination route with
  | true, _, Some _ => (fun control => RoutedControl control route) <$> decode_control_body payload
  | _, true, None => (fun presence => RoutedPresence presence route) <$> Pc.decode_presence payload
  | _, _, _ => Err MalformedForwarded
  end.
Definition decode_backbone_payload (body : list byte) : rresult BackbonePayload :=
  match body with
  | tag :: rest =>
      if u8 tag =? 2 then Control <$> decode_control_body rest
      else if u8 tag =? 3 then decode_routed_payload rest
      else Err MalformedForwarded
  | [] => Err MalformedForwarded
  end.
End decode.
End payloads.

(** ** The codec is an inverse *)

(** What every route that travels satisfies. *)
Record route_bounded (r : BackboneRoute) : Prop := {
  rb_hops : 1 <= hop_limit r <= 4;
  rb_visited : 1 <= lenN (visited r) <= 4;
  rb_unique : NoDup (visited r);
}.

Lemma routed_inserted_spec seen l : all_inserted seen l = true <-> NoDup l /\ forall x, x ∈ l -> x ∉ seen.
Proof.
  revert seen. induction l as [|x l IH]; intros seen; cbn [all_inserted].
  { split; [intros _; split; [constructor|by intros ? ?%not_elem_of_nil]|done]. }
  rewrite NoDup_cons. case_bool_decide as Hx.
  - split; [done|]. intros [_ Hs]. by destruct (Hs x ltac:(left)).
  - rewrite IH. split.
    + intros [Hn Hs]. split_and!; [intros Hin; specialize (Hs x Hin); set_solver|done|].
      intros y [->|Hy]%elem_of_cons; [done|]. specialize (Hs y Hy). set_solver.
    + intros [[Hnx Hn] Hs]. split; [done|]. intros y Hy. specialize (Hs y ltac:(by right)).
      intros [->%elem_of_singleton|?]%elem_of_union; done.
Qed.

Definition destination_bytes (d : option RelayId) : list byte :=
  match d with Some relay => id_bytes relay | None => replicate 16 x00 end.
Definition route_bytes (kind : N) (r : BackboneRoute) (payload : list byte) : list byte :=
  [byte_of kind] ++ id_bytes (origin r) ++ destination_bytes (destination r)
  ++ to_be 8 (topology_revision r) ++ [byte_of (hop_limit r)] ++ [byte_of (lenN (visited r))]
  ++ concat (id_bytes <$> visited r) ++ to_be 4 (lenN payload) ++ payload.

(** What [encode_routed_payload] requires, and writes. *)
Lemma encode_routed_spec kind r payload bytes : encode_routed_payload kind r payload = Ok bytes <->
  route_bounded r /\ lenN payload <= MAX_BACKBONE_BODY /\ (kind =? 1) = bool_decide (is_Some (destination r)) /\
  bytes = x03 :: route_bytes kind r payload.
Proof.
  unfold encode_routed_payload.
  destruct (N.leb_spec 1 (hop_limit r)) as [H1'|H1'], (N.leb_spec (hop_limit r) 4) as [H2'|H2']; cbn [andb negb orb];
    try (split; [done|by intros [[? _ _] _]; lia]).
  destruct (N.eqb_spec (lenN (visited r)) 0) as [H3'|H3']; cbn [orb]; [split; [done|by intros [[_ ? _] _]; lia]|].
  destruct (N.ltb_spec 4 (lenN (visited r))) as [H4'|H4']; cbn [orb]; [split; [done|by intros [[_ ? _] _]; lia]|].
  destruct (N.ltb_spec MAX_BACKBONE_BODY (lenN payload)) as [H5'|H5']; cbn [orb]; [split; [done|intros (_ & ? & _); lia]|].
  destruct (Bool.eqb _ _) eqn:Hk; cbn [negb]; [apply eqb_prop in Hk|apply eqb_false_iff in Hk; split; [done|by intros (_ & _ & ? & _)]].
  destruct (all_inserted ∅ (visited r)) eqn:Hi; cbn [negb].
  2:{ split; [done|]. intros [[_ _ Hn] _]. rewrite <-not_true_iff_false in Hi. destruct Hi. apply routed_inserted_spec.
      split; [done|]. set_solver. }
  destruct (N.ltb_spec U8_MAX (lenN (visited r))) as [H6'|H6']; [unfold U8_MAX in H6'; lia|].
  destruct (N.ltb_spec U32_MAX (lenN payload)) as [H7'|H7']; [unfold U32_MAX, MAX_BACKBONE_BODY in *; lia|].
  apply routed_inserted_spec in Hi as [Hn _]. split.
  - intros Hb%Ok_inj. split_and!; [split; [lia|lia|done]|done|done|by rewrite <-Hb].
  - intros (_ & _ & _ & ->). done.
Qed.


Section codec.
Context `{Wire.ProstLib} `{TimeLib} `{UuidLib} `{!Wire.ProstLaws} `{!TimeLaws} `{!UuidLaws}.

Definition control_ok (c : Rr.RoutedControl) : Prop :=
  id_wf (Rr.rc_source c) /\ id_wf (Rr.rc_destination c) /\ i64_ok (Rr.rc_generation c).
Definition route_ok (r : BackboneRoute) : Prop :=
  id_wf (origin r) /\ match destination r with Some d => id_wf d | None => True end /\ topology_revision r <= U64_MAX /\
  Forall id_wf (visited r).
Definition payload_ok (p : BackbonePayload) : Prop :=
  match p with
  | Control c => control_ok c
  | Presence _ => True
  | RoutedControl c r => control_ok c /\ route_ok r
  | RoutedPresence u r => Pc.entry_ok (Pc.entry u) /\ Pc.whole_seconds (Pc.entry u) /\ route_ok r
  end.
Lemma id_not_nil i : id_wf i -> id_bytes i <> replicate 16 x00.
Proof.
  intros Hi Hn. pose proof (from_be_id_bytes i Hi) as Hb. rewrite Hn in Hb. change (from_be (replicate 16 x00)) with 0 in Hb.
  destruct Hi as [_ Hi]. unfold from_uuid in Hi. rewrite <-Hb, uuid_nil in Hi. done.
Qed.

Lemma decode_control_body_encode c body : control_ok c -> encode_control_body c = Ok body -> decode_control_body body = Ok c.
Proof.
  intros (Hs & Hd & Hg). unfold encode_control_body. cbv zeta. set (env := Wire.encode_to_vec (Rr.rc_envelope c)).
  destruct (N.ltb_spec MAX_BACKBONE_BODY (lenN env)) as [|Hle]; [done|]. destruct (N.ltb_spec U32_MAX (lenN env)); [done|].
  intros Hbody%Ok_inj. subst body.
  set (body := f_enc id_field (Rr.rc_source c) ++ f_enc id_field (Rr.rc_destination c) ++
    f_enc i64_field (Rr.rc_generation c) ++ f_enc (be_field 4) (lenN env) ++ env).
  change (decode_control_body body = Ok c). unfold decode_control_body.
  assert (Hn : f_ok (be_field 4) (lenN env)) by (cbn; unfold U32_MAX in *; lia).
  assert (Hlen : lenN body = 44 + lenN env).
  { unfold body. repeat (rewrite lenN_app || rewrite f_enc_len by typeclasses eauto). cbn [f_len id_field i64_field be_field]. lia. }
  rewrite Hlen.
  destruct (N.ltb_spec (44 + lenN env) 44); [lia|]. unfold body. do 4 read_field. fold body.
  destruct (N.ltb_spec MAX_BACKBONE_BODY (lenN env)); [lia|]. rewrite N.eqb_refl. cbn [orb negb].
  assert (Hrest : slice_from (E:=RelayError) body 44 = Ok env).
  { unfold slice_from. rewrite Hlen. unfold body. rewrite !app_assoc. rewrite <-(app_nil_r env) at 2. apply slice_app; [fields_len|].
    repeat (rewrite lenN_app || rewrite f_enc_len by typeclasses eauto). cbn [f_len id_field i64_field be_field]. lia. }
  rewrite Hrest. cbn [mbind outcome_bind]. unfold env. rewrite Wire.decode_encode. by destruct c.
Qed.

Lemma relay_id_encode i : id_wf i -> relay_id (id_bytes i) = Ok i.
Proof. intros Hi. unfold relay_id. change (id_bytes i) with (f_enc id_field i). by rewrite f_dec_enc. Qed.
Lemma mapM_relay_id l : Forall id_wf l -> mapM relay_id (id_bytes <$> l) = Ok l.
Proof.
  induction 1 as [|i l Hi _ IH]; [done|]. cbn -[relay_id id_bytes]. rewrite relay_id_encode by done. cbn -[relay_id id_bytes].
  cbn -[relay_id id_bytes] in IH. by rewrite IH.
Qed.
Lemma lenN_id_bytes i : lenN (id_bytes i) = 16.
Proof. unfold id_bytes. apply lenN_to_be. Qed.
Lemma lenN_ids l : lenN (concat (id_bytes <$> l)) = lenN l * 16.
Proof.
  induction l as [|i l IH]; [done|].
  change (concat (id_bytes <$> (i :: l))) with (id_bytes i ++ concat (id_bytes <$> l)). rewrite lenN_app, lenN_id_bytes, IH, lenN_cons. lia.
Qed.
Lemma chunks_ids l : Cred.chunks_exact 16 (concat (id_bytes <$> l)) = id_bytes <$> l.
Proof.
  apply Cred.chunks_exact_concat; [done|]. apply Forall_fmap, Forall_true. intros i. apply lenN_id_bytes.
Qed.

Lemma decode_destination_encode x d z : lenN x = 17 -> match d with Some i => id_wf i | None => True end ->
  decode_destination (x ++ destination_bytes d ++ z) = Ok d.
Proof.
  intros Hx Hd. unfold decode_destination. rewrite slice_app; [|done|rewrite Hx; by destruct d; cbn; rewrite ?lenN_id_bytes].
  cbn [mbind outcome_bind]. destruct d as [i|]; cbn [destination_bytes]; [|by rewrite bool_decide_eq_true_2].
  rewrite bool_decide_eq_false_2 by by apply id_not_nil. rewrite (from_be_id_bytes i Hd). destruct Hd as [_ ->]. done.
Qed.

Lemma byte_of_small n : n <= U8_MAX -> u8 (byte_of n) = n.
Proof. intros Hn. rewrite u8_byte_of. apply N.mod_small. unfold U8_MAX in Hn. lia. Qed.
Lemma lenN_route_bytes kind r payload :
  lenN (route_bytes kind r payload) = route_length (lenN (visited r)) + lenN payload.
Proof.
  unfold route_bytes, route_length, destination_bytes. rewrite !lenN_app, lenN_ids, lenN_id_bytes, !lenN_to_be.
  destruct (destination r); rewrite ?lenN_id_bytes; change (lenN [_]) with 1; [lia|].
  change (lenN (replicate 16 x00)) with 16. lia.
Qed.

Lemma decode_route_encode kind r payload :
  route_ok r -> route_bounded r -> lenN payload <= MAX_BACKBONE_BODY -> decode_route (route_bytes kind r payload) = Ok (r, payload).
Proof.
  intros (Ho & Hd & Hrev & Hids) [Hhops Hvis Hnd] Hpl. pose proof (lenN_route_bytes kind r payload) as Hlen.
  set (body := route_bytes kind r payload) in *. unfold decode_route.
  set (d := destination_bytes (destination r)) in *. set (region := concat (id_bytes <$> visited r)).
  assert (Hdl : lenN d = 16) by (unfold d; destruct (destination r); [apply lenN_id_bytes|done]).
  assert (Hrl : lenN region = lenN (visited r) * 16) by apply lenN_ids.
  assert (Hf1 : f_ok id_field (origin r)) by done. assert (Hf2 : f_ok (be_field 8) (topology_revision r)) by (by apply be8_width).
  assert (Hf3 : f_ok (be_field 4) (lenN payload)) by (apply be4_width; unfold MAX_BACKBONE_BODY, U32_MAX in *; lia).
  set (P0 := [byte_of kind]). set (P1 := P0 ++ id_bytes (origin r)). set (P2 := P1 ++ d).
  set (P3 := P2 ++ to_be 8 (topology_revision r)). set (P4 := P3 ++ [byte_of (hop_limit r)]).
  set (P5 := P4 ++ [byte_of (lenN (visited r))]). set (P6 := P5 ++ region). set (P7 := P6 ++ to_be 4 (lenN payload)).
  assert (L0 : lenN P0 = 1) by done. assert (L1 : lenN P1 = 17) by (unfold P1; by rewrite lenN_app, lenN_id_bytes, L0).
  assert (L2 : lenN P2 = 33) by (unfold P2; by rewrite lenN_app, L1, Hdl).
  assert (L3 : lenN P3 = 41) by (unfold P3; by rewrite lenN_app, L2, lenN_to_be).
  assert (L4 : lenN P4 = 42) by (unfold P4; by rewrite lenN_app, L3).
  assert (L5 : lenN P5 = 43) by (unfold P5; by rewrite lenN_app, L4).
  assert (L6 : lenN P6 = 43 + lenN (visited r) * 16) by (unfold P6; by rewrite lenN_app, L5, Hrl).
  assert (L7 : lenN P7 = route_length (lenN (visited r))) by (unfold P7; rewrite lenN_app, L6, lenN_to_be; done).
  assert (E7 : body = P7 ++ payload) by (unfold P7, P6, P5, P4, P3, P2, P1, P0; by rewrite <-!app_assoc).
  assert (E6 : body = P6 ++ f_enc (be_field 4) (lenN payload) ++ payload) by (rewrite E7; unfold P7; by rewrite <-!app_assoc).
  assert (E5 : body = P5 ++ region ++ (to_be 4 (lenN payload) ++ payload)) by (rewrite E6; unfold P6; by rewrite <-!app_assoc).
  assert (E4 : body = P4 ++ byte_of (lenN (visited r)) :: (region ++ to_be 4 (lenN payload) ++ payload))
    by (rewrite E5; unfold P5; by rewrite <-!app_assoc).
  assert (E3 : body = P3 ++ byte_of (hop_limit r) :: (byte_of (lenN (visited r)) :: region ++ to_be 4 (lenN payload) ++ payload))
    by (rewrite E4; unfold P4; by rewrite <-!app_assoc).
  assert (E2 : exists z, body = P2 ++ f_enc (be_field 8) (topology_revision r) ++ z)
    by (rewrite E3; unfold P3; rewrite <-!app_assoc; by eexists).
  assert (E1 : exists z, body = P1 ++ d ++ z) by (destruct E2 as [z2 ->]; unfold P2; rewrite <-!app_assoc; by eexists).
  assert (E0 : exists z, body = P0 ++ f_enc id_field (origin r) ++ z) by (destruct E1 as [z1 ->]; unfold P1; rewrite <-!app_assoc; by eexists).
  destruct E0 as [z0 E0]. rewrite E0 at 1. rewrite read_at by first [typeclasses eauto|by rewrite ?L0]. cbn [mbind outcome_bind].
  destruct E1 as [z1 E1]. rewrite E1 at 1. unfold d at 1. rewrite decode_destination_encode by done. cbn [mbind outcome_bind].
  destruct E2 as [z2 E2]. rewrite E2 at 1. rewrite read_at by first [typeclasses eauto|by rewrite ?L2]. cbn [mbind outcome_bind].
  rewrite E3 at 1. rewrite index_at by by rewrite L3. cbn [fmap outcome_fmap mbind outcome_bind].
  rewrite E4 at 1. rewrite index_at by by rewrite L4. cbn [fmap outcome_fmap mbind outcome_bind].
  rewrite !byte_of_small by (unfold U8_MAX; lia).
  rewrite (proj2 (N.leb_le 1 (hop_limit r))), (proj2 (N.leb_le (hop_limit r) 4)),
    (proj2 (N.leb_le 1 (lenN (visited r)))), (proj2 (N.leb_le (lenN (visited r)) 4)) by lia. cbn [andb negb orb].
  rewrite Hlen. destruct (N.ltb_spec (route_length (lenN (visited r)) + lenN payload) (route_length (lenN (visited r)))); [lia|].
  rewrite E5 at 1. rewrite slice_app by (rewrite ?L5, ?Hrl; done). cbn [mbind outcome_bind].
  unfold region at 1. rewrite chunks_ids, mapM_relay_id by done. cbn [mbind outcome_bind].
  assert (Hall : all_inserted ∅ (visited r) = true) by (apply routed_inserted_spec; split; [done|set_solver]).
  rewrite Hall. cbn [negb]. cbv zeta.
  rewrite E6 at 1. rewrite read_at by first [typeclasses eauto|by rewrite ?L6]. cbn [mbind outcome_bind].
  destruct (N.ltb_spec MAX_BACKBONE_BODY (lenN payload)); [lia|]. rewrite N.eqb_refl. cbn [orb negb].
  assert (Hrest : slice_from (E:=RelayError) body (route_length (lenN (visited r))) = Ok payload).
  { apply slice_from_Ok. rewrite E7, <-L7, lenN_app. split; [lia|]. unfold lenN. by rewrite Nat2N.id, drop_app_length. }
  rewrite Hrest. cbn [mbind outcome_bind]. by destruct r.
Qed.

Lemma decode_routed_encode kind r payload : route_ok r -> route_bounded r -> lenN payload <= MAX_BACKBONE_BODY -> kind <= U8_MAX ->
  decode_routed_payload (route_bytes kind r payload) =
    match kind =? 1, kind =? 2, destination r with
    | true, _, Some _ => (fun control => RoutedControl control r) <$> decode_control_body payload
    | _, true, None => (fun presence => RoutedPresence presence r) <$> Pc.decode_presence payload
    | _, _, _ => Err MalformedForwarded
    end.
Proof.
  intros Hok Hb Hpl Hkind. unfold decode_routed_payload. rewrite lenN_route_bytes. unfold route_length at 1.
  destruct (N.ltb_spec (43 + lenN (visited r) * 16 + 4 + lenN payload) 47); [lia|].
  change (index (route_bytes kind r payload) 0) with (@Ok RelayError _ (byte_of kind)).
  cbn [fmap outcome_fmap mbind outcome_bind]. rewrite decode_route_encode by done. cbn [mbind outcome_bind].
  by rewrite byte_of_small.
Qed.

Lemma id_field_dec s i : lenN s = 16 -> f_dec id_field s = Some i -> id_bytes i = s /\ id_wf i.
Proof. apply (f_enc_dec (f:=id_field)). Qed.
Lemma mapM_relay_id_Ok ls l : Forall (fun c => lenN c = 16) ls -> mapM relay_id ls = Ok l -> id_bytes <$> l = ls /\ Forall id_wf l.
Proof.
  intros Hls. revert l. induction Hls as [|c ls Hc _ IH]; intros l; [by intros [= <-]|].
  cbn -[relay_id id_bytes]. intros (i & Hi & Hr)%bind_Ok. apply bind_Ok in Hr as (l' & Hl' & [= <-]).
  unfold relay_id in Hi. destruct (f_dec id_field c) as [j|] eqn:Hd; [|done]. injection Hi as ->.
  destruct (id_field_dec c i Hc Hd) as [<- Hok]. destruct (IH l' Hl') as [<- Hall]. split; [done|by constructor].
Qed.
Lemma decode_destination_Ok body d : decode_destination body = Ok d ->
  slice (E:=RelayError) body 17 33 = Ok (destination_bytes d) /\ match d with Some i => id_wf i | None => True end.
Proof.
  unfold decode_destination. intros (s & Hs & Hd)%bind_Ok. pose proof (slice_len _ _ _ _ Hs) as Hl.
  case_bool_decide as Hz; [injection Hd as <-; by rewrite Hs, Hz|].
  apply fmap_Ok in Hd as (i & Hi & <-). destruct (from_uuid (from_be s)) as [j|] eqn:Hf; [|done]. injection Hi as ->.
  destruct (id_field_dec s i Hl) as [<- Hok]; [cbn [id_field f_dec]; by rewrite Hl|]. done.
Qed.
Lemma index_slice {E} bytes a b : @index E bytes a = Ok b -> @slice E bytes a (a + 1) = Ok [b].
Proof.
  intros Hb. pose proof (proj1 (index_Ok _ _ _) Hb) as Hl. pose proof (lookup_lt_Some _ _ _ Hl) as Hlt.
  apply slice_Ok. split; [lia|]. split; [unfold lenN; lia|]. replace (a + 1 - a) with 1 by lia.
  by rewrite (drop_S _ _ _ Hl).
Qed.
Lemma u8_of_index {E} bytes a n : u8 <$> @index E bytes a = Ok n -> n <= U8_MAX /\ @slice E bytes a (a + 1) = Ok [byte_of n].
Proof.
  intros (b & Hb & <-)%fmap_Ok. pose proof (u8_lt b). split; [unfold U8_MAX; lia|].
  rewrite byte_of_u8. by apply index_slice.
Qed.

Lemma decode_route_Ok kb rest r payload : decode_route (kb :: rest) = Ok (r, payload) ->
  route_ok r /\ route_bounded r /\ lenN payload <= MAX_BACKBONE_BODY /\ kb :: rest = route_bytes (u8 kb) r payload.
Proof.
  set (body := kb :: rest). unfold decode_route.
  intros (o & [Ho So]%read_Ok & Hd)%bind_Ok; [|typeclasses eauto|done].
  apply bind_Ok in Hd as (d & [Sd Hdw]%decode_destination_Ok & Hd).
  apply bind_Ok in Hd as (rev & [Hrev Srev]%read_Ok & Hd); [|typeclasses eauto|done].
  apply bind_Ok in Hd as (hop & [Hhop Shop]%u8_of_index & Hd). apply bind_Ok in Hd as (cnt & [Hcnt Scnt]%u8_of_index & Hd).
  destruct (N.leb_spec 1 hop), (N.leb_spec hop 4), (N.leb_spec 1 cnt), (N.leb_spec cnt 4); try done. cbn [andb negb orb] in Hd.
  destruct (N.ltb_spec (lenN body) (route_length cnt)) as [|Hlen]; [done|].
  apply bind_Ok in Hd as (region & Sreg & Hd). apply bind_Ok in Hd as (vis & Hvis & Hd).
  destruct (all_inserted ∅ vis) eqn:Hall; [|done]. cbn [negb] in Hd. cbv zeta in Hd.
  apply bind_Ok in Hd as (plen & [Hpl Spl]%read_Ok & Hd); [|typeclasses eauto|cbn [f_len be_field]; lia].
  destruct (N.ltb_spec MAX_BACKBONE_BODY plen) as [|Hmax]; [done|].
  destruct (N.eqb_spec (lenN body) (route_length cnt + plen)) as [Hbody|]; [|done]. cbn [orb negb] in Hd.
  apply bind_Ok in Hd as (pl & [Hple Hpd]%slice_from_Ok & Hd%Ok_inj). apply pair_equal_spec in Hd as [<- <-].
  pose proof (slice_len _ _ _ _ Sreg) as Hrl. replace (43 + cnt * 16 - 43) with (cnt * 16) in Hrl by lia.
  assert (Hfull : Forall (fun c => lenN c = 16) (Cred.chunks_exact 16 region))
    by (apply Forall_forall; intros c [? _]%list_elem_of_filter; done).
  destruct (mapM_relay_id_Ok _ _ Hfull Hvis) as [Hids Hwf].
  pose proof (Cred.chunks_exact_full 16 cnt region ltac:(done) Hrl) as Hreg. rewrite <-Hids in Hreg.
  assert (Hvl : lenN vis = cnt) by (pose proof (lenN_ids vis) as Hx; rewrite Hreg, Hrl in Hx; lia).
  apply routed_inserted_spec in Hall as [Hnd _].
  assert (Hplen : lenN pl = plen).
  { rewrite Hpd, lenN_drop, Hbody. lia. }
  split; [|split; [|split]].
  - split_and!; try done. cbn [topology_revision]. change (f_ok (be_field 8) rev) with (rev < 256 ^ 8) in Hrev.
    change (256 ^ 8) with (U64_MAX + 1) in Hrev. lia.
  - split; cbn [hop_limit visited]; [lia|lia|done].
  - lia.
  - assert (Sk : slice (E:=RelayError) body 0 1 = Ok [kb]) by (by apply (slice_here [kb])).
    assert (Spay : slice (E:=RelayError) body (route_length cnt) (lenN body) = Ok pl) by by apply slice_from_Ok.
    rewrite <-Hreg in Sreg. unfold route_length in Spay.
    change (41 + 1) with 42 in Shop. change (42 + 1) with 43 in Scnt. replace (43 + cnt * 16 + 4) with (43 + cnt * 16 + 4) in Spay by lia.
    pose proof (slice_join _ _ _ _ _ _ Sk (slice_join _ _ _ _ _ _ So (slice_join _ _ _ _ _ _ Sd (slice_join _ _ _ _ _ _ Srev
      (slice_join _ _ _ _ _ _ Shop (slice_join _ _ _ _ _ _ Scnt (slice_join _ _ _ _ _ _ Sreg (slice_join _ _ _ _ _ _ Spl Spay)))))))) as Hj.
    apply slice_all in Hj; [|done]. rewrite <-Hj. unfold route_bytes. cbn [origin destination topology_revision hop_limit visited].
    rewrite byte_of_u8, Hvl, Hplen. done.
Qed.

Lemma decode_control_body_Ok body c : decode_control_body body = Ok c -> control_ok c.
Proof.
  unfold decode_control_body. destruct (lenN body <? 44); [done|].
  intros (src & [Hs _]%read_Ok & Hd)%bind_Ok; [|typeclasses eauto|done].
  apply bind_Ok in Hd as (dst & [Hds _]%read_Ok & Hd); [|typeclasses eauto|done].
  apply bind_Ok in Hd as (g & [Hg _]%read_Ok & Hd); [|typeclasses eauto|done].
  apply bind_Ok in Hd as (l & _ & Hd). destruct (_ || _); [done|]. apply bind_Ok in Hd as (rest & _ & Hd).
  by apply bind_Ok in Hd as (e & _ & [= <-]).
Qed.
Lemma no_panic_decode_control_body body : no_panic (decode_control_body body).
Proof.
  unfold decode_control_body. destruct (N.ltb_spec (lenN body) 44) as [|Hl]; [done|].
  do 4 (apply no_panic_bind; [apply no_panic_read; lia|intros ? _]). destruct (_ || _) eqn:Hb; [done|].
  apply no_panic_bind; [apply no_panic_slice_from; lia|intros ? _]. apply no_panic_bind; [apply no_panic_ok_or|done].
Qed.
Lemma no_panic_mapM {E A B} (f : A -> outcome E B) l : (forall x, no_panic (f x)) -> no_panic (mapM f l).
Proof.
  intros Hf. induction l as [|x l IH]; [done|]. cbn. apply no_panic_bind; [apply Hf|intros y _].
  by apply no_panic_bind.
Qed.
Lemma no_panic_decode_route body : 47 <= lenN body -> no_panic (decode_route body).
Proof.
  intros Hl. unfold decode_route, decode_destination.
  apply no_panic_bind; [apply no_panic_read; lia|intros o _].
  apply no_panic_bind; [apply no_panic_bind; [apply no_panic_slice; lia|intros ? _]; case_bool_decide; [done|by destruct (from_uuid _)]|intros d _].
  apply no_panic_bind; [apply no_panic_read; lia|intros rev _].
  apply no_panic_bind; [apply no_panic_fmap, no_panic_index; lia|intros hop _].
  apply no_panic_bind; [apply no_panic_fmap, no_panic_index; lia|intros cnt _].
  destruct (_ || _); [done|]. destruct (N.ltb_spec (lenN body) (route_length cnt)) as [|Hlen]; [done|].
  unfold route_length in Hlen.
  apply no_panic_bind; [apply no_panic_slice; lia|intros region _].
  apply no_panic_bind; [apply no_panic_mapM; intros; apply no_panic_ok_or|intros vis _].
  destruct (all_inserted ∅ vis); cbn [negb]; [|done].
  apply no_panic_bind; [apply no_panic_read; lia|intros plen _].
  destruct (_ || _); [done|]. apply no_panic_bind; [apply no_panic_slice_from; unfold route_length; lia|done].
Qed.
Lemma no_panic_decode_backbone bytes : no_panic (decode_backbone_payload bytes).
Proof.
  unfold decode_backbone_payload. destruct bytes as [|tag rest]; [done|].
  destruct (u8 tag =? 2); [apply no_panic_fmap, no_panic_decode_control_body|]. destruct (u8 tag =? 3); [|done].
  unfold decode_routed_payload. destruct (N.ltb_spec (lenN rest) 47); [done|].
  apply no_panic_bind; [apply no_panic_fmap, no_panic_index; lia|intros kind _].
  apply no_panic_bind; [by apply no_panic_decode_route|intros [r pl] _].
  destruct (kind =? 1), (kind =? 2), (destination r); try done;
    apply no_panic_fmap; first [apply no_panic_decode_control_body|apply Pc.no_panic_decode_presence].
Qed.

(** A presence body is 67 bytes, well below the bound. *)
Lemma presence_fits u : lenN (Pc.encode_presence u) <= MAX_BACKBONE_BODY.
Proof. rewrite Pc.encode_presence_fields, Pc.lenN_presence. unfold Pc.PRESENCE_WIRE_LENGTH, MAX_BACKBONE_BODY. lia. Qed.
Lemma control_body_fits c body : encode_control_body c = Ok body -> lenN body <= MAX_BACKBONE_BODY + 44.
Proof.
  unfold encode_control_body. cbv zeta. destruct (N.ltb_spec MAX_BACKBONE_BODY (lenN (Wire.encode_to_vec (Rr.rc_envelope c)))); [done|].
  case_match; [done|]. intros <-%Ok_inj. rewrite !lenN_app, !lenN_id_bytes, lenN_i64, lenN_to_be. lia.
Qed.

Lemma decode_backbone_encode p bytes : payload_ok p -> encode_backbone_payload p = Ok bytes ->
  decode_backbone_payload bytes = Ok p.
Proof.
  destruct p as [c|u|c r|u r]; cbn [payload_ok encode_backbone_payload].
  - intros Hc. unfold encode_legacy_forwarded_control. intros (body & Hb & <-%Ok_inj)%bind_Ok.
    cbn [decode_backbone_payload]. change (u8 x02 =? 2) with true. cbn iota.
    by rewrite (decode_control_body_encode c body Hc Hb).
  - done.
  - intros [Hc Hr] (body & Hb & (Hbd & Hlen & Hk & ->)%encode_routed_spec)%bind_Ok.
    cbn [decode_backbone_payload]. change (u8 x03 =? 2) with false. change (u8 x03 =? 3) with true. cbn iota.
    rewrite decode_routed_encode by (done || (unfold U8_MAX; lia)). cbn [N.eqb Pos.eqb] in *.
    destruct (destination r) as [d|]; [|by rewrite bool_decide_eq_false_2 in Hk by (by intros [? ?])].
    by rewrite (decode_control_body_encode c body Hc Hb).
  - intros (He & Hw & Hr) (Hbd & Hlen & Hk & ->)%encode_routed_spec.
    cbn [decode_backbone_payload]. change (u8 x03 =? 2) with false. change (u8 x03 =? 3) with true. cbn iota.
    rewrite decode_routed_encode by (done || (unfold U8_MAX; lia)). cbn [N.eqb Pos.eqb] in *.
    destruct (destination r) as [d|]; [by rewrite bool_decide_eq_true_2 in Hk by eauto|].
    rewrite (Pc.decode_presence_encode u _ He Hw). by destruct u as [[] ?].
Qed.

Lemma decode_backbone_Ok bytes p : decode_backbone_payload bytes = Ok p ->
  payload_ok p /\
  match p with
  | Control _ => True
  | Presence _ => False
  | RoutedControl _ r => route_bounded r /\ is_Some (destination r)
  | RoutedPresence u r => route_bounded r /\ destination r = None /\ encode_backbone_payload p = Ok bytes
  end.
Proof.
  unfold decode_backbone_payload. destruct bytes as [|tag rest]; [done|].
  destruct (N.eqb_spec (u8 tag) 2) as [Ht|]; [by intros (c & Hc%decode_control_body_Ok & <-)%fmap_Ok|].
  destruct (N.eqb_spec (u8 tag) 3) as [Ht|]; [|done]. unfold decode_routed_payload.
  destruct (N.ltb_spec (lenN rest) 47) as [|Hl]; [done|]. intros (kind & Hkind & Hd)%bind_Ok.
  apply bind_Ok in Hd as ([r pl] & Hroute & Hd). destruct rest as [|kb rest]; [by vm_compute in Hl|].
  change (index (kb :: rest) 0) with (@Ok RelayError _ kb) in Hkind. cbn in Hkind. apply Ok_inj in Hkind as <-.
  apply decode_route_Ok in Hroute as (Hrok & Hb & Hpl & Hbytes).
  destruct (N.eqb_spec (u8 kb) 1) as [Hk1|Hk1], (N.eqb_spec (u8 kb) 2) as [Hk2|Hk2], (destination r) as [d|] eqn:Hdest;
    try done; try congruence; apply fmap_Ok in Hd as (x & Hx & <-); cbn [payload_ok].
  - apply decode_control_body_Ok in Hx. split; [done|]. split; [done|by exists d].
  - apply Pc.decode_presence_Ok in Hx as (<- & He & Hw). split; [done|]. split; [done|]. split; [done|].
    cbn [encode_backbone_payload]. apply encode_routed_spec. split; [done|]. split; [done|]. rewrite Hdest. split; [done|].
    rewrite (u8_inj tag x03 Ht). f_equal. by rewrite Hbytes, Hk2.
Qed.
(** The backbone payload codec is an inverse and bounded. What a Relay encodes,
    its neighbour decodes to the same payload; whatever decodes has valid
    identifiers, a route of one to four hops and one to four distinct Relays, and is
    never a bare [Presence] payload, which has no encoding; a decoded routed
    presence encodes to the bytes it came from; and no input panics. *)
Theorem backbone_codec_exact p bytes :
  (payload_ok p -> encode_backbone_payload p = Ok bytes -> decode_backbone_payload bytes = Ok p) /\
  (decode_backbone_payload bytes = Ok p -> payload_ok p /\
     match p with
     | Control _ => True
     | Presence _ => False
     | RoutedControl _ r => route_bounded r /\ is_Some (destination r)
     | RoutedPresence u r => route_bounded r /\ destination r = None /\ encode_backbone_payload p = Ok bytes
     end) /\
  no_panic (decode_backbone_payload bytes).
Proof.
  split; [apply decode_backbone_encode|]. split; [apply decode_backbone_Ok|apply no_panic_decode_backbone].
Qed.
End codec.

(** ** Witness *)

#[local] Existing Instances Wire.prost_tagged Pc.time_nanos uuid_rfc.
#[local] Existing Instances Wire.prost_tagged_laws Pc.time_nanos_laws.
#[local] Instance uuid_rfc_laws : UuidLaws.
Proof. by split. Qed.

Definition example_route (hops : N) (via : list N) : BackboneRoute :=
  mkRoute (Cred.example_id 1) (Some (Cred.example_id 2)) 7 hops (Cred.example_id <$> via).
Definition example_control : Rr.RoutedControl := Rr.mkRouted (Cred.example_id 20) (Cred.example_id 21) 3 [x08; x01].
Definition encoded_example : list byte :=
  match encode_backbone_payload (RoutedControl example_control (example_route 3 [1; 4])) with Ok b => b | _ => [] end.

Lemma backbone_id_wf n : n < 64 -> id_wf (Cred.example_id n).
Proof.
  intros Hn. assert (Hall : forallb (fun i => (id_uuid (Cred.example_id i) <? 2 ^ 128) &&
    bool_decide (from_uuid (id_uuid (Cred.example_id i)) = Some (Cred.example_id i)))
    (N.of_nat <$> seq 0 64) = true) by (vm_compute; reflexivity).
  rewrite forallb_forall in Hall. specialize (Hall n). rewrite andb_true_iff in Hall.
  destruct Hall as [Hlt Hu]; [|apply N.ltb_lt in Hlt; apply bool_decide_eq_true in Hu; by split].
  apply list_elem_of_In, list_elem_of_fmap. exists (N.to_nat n). split; [lia|].
  apply elem_of_seq. lia.
Qed.

Lemma backbone_codec_exact_witness :
  decode_backbone_payload encoded_example = Ok (RoutedControl example_control (example_route 3 [1; 4])).
Proof.
  apply (backbone_codec_exact (RoutedControl example_control (example_route 3 [1; 4])) encoded_example); [|vm_compute; reflexivity].
  split; [split; [|split]|split; [|split; [|split]]].
  - apply (backbone_id_wf 20). lia.
  - apply (backbone_id_wf 21). lia.
  - cbn. unfold i64_ok. lia.
  - apply (backbone_id_wf 1). lia.
  - apply (backbone_id_wf 2). lia.
  - cbn. unfold U64_MAX. lia.
  - repeat constructor; apply backbone_id_wf; lia.
Defined.

End Bb.
