(* ===== verification/RelayMesh.v ===== *)
(** * Relays as a mesh (crate [peerward-relay])

    The state a Relay's tasks share (runtime_shared.rs) and what they do with what
    arrives: a record of a backbone link (runtime_backbone.rs,
    runtime_backbone_link.rs), a control message of a local Peer
    (runtime_routing.rs), the opening of a link (runtime_backbone_sessions.rs), the
    keepalive state (runtime_backbone_support.rs) and the database outage policy
    (runtime_freshness.rs).

    A handler is one step: it reads the clock once and holds the locks it takes.
    Sockets, tasks and spans are not modelled; a write to a socket succeeds. *)

From S2P Require Import Prelude Ordered Net Fields Directory Topology Credentials DirectorySigning Wire Envelope RelayPresence RelayRouter RelayBackbone.
From Stdlib Require Import ZArith NArith Lia.
From stdpp Require Import base tactics decidable countable numbers list sorting gmap.
From Stdlib.Init Require Import Byte.
Set Default Goal Selector "!".
Local Open Scope N_scope.

(** A bounded [tokio::sync::mpsc] channel. *)
Inductive Sent := SentOk | SentFull | SentClosed.
Class MpscLib (A : Type) := {
  Sender : Type;
  mpsc_channel : N -> Sender;
  try_send : Sender -> A -> Sender * Sent;
  (** What its receiver has still to take, whether it was dropped, its bound. *)
  queued : Sender -> list A;
  is_closed : Sender -> bool;
  capacity_of : Sender -> N;
}.
Class MpscLaws A `{MpscLib A} : Prop := {
  send_closed s a : is_closed s = true -> try_send s a = (s, SentClosed);
  send_full s a : is_closed s = false -> capacity_of s <= lenN (queued s) -> try_send s a = (s, SentFull);
  send_room s a : is_closed s = false -> lenN (queued s) < capacity_of s ->
    exists s', try_send s a = (s', SentOk) /\ queued s' = queued s ++ [a] /\ is_closed s' = false /\ capacity_of s' = capacity_of s;
}.
Arguments Sender A {_}.

Module Rm.
Import Bb.

Notation rresult := (outcome RelayError).
Notation CredentialSerial := DomainId (only parsing).
#[local] Existing Instances Topo.RelayTopologyMode_eq_dec Pc.PresenceRole_eq_dec.

(** ** runtime_freshness.rs *)

Record RelayDatabasePolicy := mkPolicy { new_session_seconds : N; existing_session_seconds : N }.
Definition production : RelayDatabasePolicy := mkPolicy 60 (15 * 60).
Definition for_test (new_seconds existing_seconds : N) : option RelayDatabasePolicy :=
  if (0 <? new_seconds) && (new_seconds <? existing_seconds) then Some (mkPolicy new_seconds existing_seconds) else None.
Inductive DatabaseFreshness := Fresh | Cached | Expired.
#[export] Instance DatabaseFreshness_eq_dec : EqDecision DatabaseFreshness.
Proof. solve_decision. Defined.
(** [saturating_sub] is the subtraction of [N]. *)
Definition database_freshness_at (policy : RelayDatabasePolicy) (last_success now : N) : DatabaseFreshness :=
  let stale := now - last_success in
  if stale <=? new_session_seconds policy then Fresh
  else if stale <=? existing_session_seconds policy then Cached
  else Expired.

(** ** Keepalives (runtime_backbone_support.rs) *)

Record ConnectionHealth := mkHealth {
  outstanding : option N;
  missed : N;
  unhealthy_after : N;
  rtt_millis : option N;
  samples : list bool;
}.
Definition health_new (unhealthy : N) : rresult ConnectionHealth :=
  if unhealthy =? 0 then Err InvalidConfig else Ok (mkHealth None 0 unhealthy None []).
Definition record_sample (received : bool) (self : ConnectionHealth) : ConnectionHealth :=
  let window := if lenN (samples self) =? 32 then tail (samples self) else samples self in
  mkHealth (outstanding self) (missed self) (unhealthy_after self) (rtt_millis self) (window ++ [received]).
Definition probe (monotonic_millis : N) (self : ConnectionHealth) : ConnectionHealth * bool :=
  let self' := mkHealth (Some monotonic_millis) (missed self) (unhealthy_after self) (rtt_millis self) (samples self) in
  let self' := match outstanding self with
               | Some _ => record_sample false
                   (mkHealth (outstanding self') (N.min (missed self' + 1) U8_MAX) (unhealthy_after self') (rtt_millis self') (samples self'))
               | None => self'
               end in
  (self', unhealthy_after self' <=? missed self').
Definition reply (echoed now : N) (self : ConnectionHealth) : ConnectionHealth * bool :=
  if negb (bool_decide (outstanding self = Some echoed)) then (self, false) else
  let sample := now - echoed in
  let rtt := match rtt_millis self with Some current => sat_add (Topo.sat_mul current 7) sample / 8 | None => sample end in
  (record_sample true (mkHealth None 0 (unhealthy_after self) (Some rtt) (samples self)), true).
Record RelayNeighborHealth := mkNeighborHealth {
  nh_relay_id : RelayId;
  nh_rtt_millis : N;
  nh_loss_permyriad : N;
  nh_samples : N;
}.
(** [checked_div(..).unwrap_or(0)]; the division of [N] by zero is zero. *)
Definition snapshot (relay : RelayId) (self : ConnectionHealth) : option RelayNeighborHealth :=
  match rtt_millis self with
  | None => None
  | Some rtt =>
      let lost := lenN (filter (fun received => received = false) (samples self)) in
      let loss := Topo.sat_mul lost 10000 / lenN (samples self) in
      Some (mkNeighborHealth relay (if rtt <=? U32_MAX then rtt else U32_MAX) (if loss <=? U16_MAX then loss else 10000)
              (if lenN (samples self) <=? U8_MAX then lenN (samples self) else 32))
  end.

(** ** Links *)

(** [as_bytes() < as_bytes()] is the order of the identifiers. *)
Definition should_initiate (local remote : RelayId) : bool := ltb_of local remote.
(** The timestamps of a link's probes have the parity of its end. *)
Definition probe_timestamp (local remote : RelayId) (monotonic_millis : N) : N :=
  N.lor (N.land monotonic_millis (U64_MAX - 1)) (if ltb_of remote local then 1 else 0).
(** [200 * (1 << attempt.min(6))], at most eight seconds, and the jitter of the identifier. *)
Definition reconnect_delay (attempt : N) (relay : RelayId) : N :=
  N.min (Topo.sat_mul 200 (N.shiftl 1 (N.min attempt 6))) 8000
  + foldl (fun sum b => sum + u8 b) 0 (id_bytes relay) mod 401.

Definition topology_neighbors (topology : Topo.RelayTopologyV1) (local : RelayId) : option (gset RelayId) :=
  if existsb (fun node => bool_decide (Topo.relay_id node = local)) (Topo.nodes topology)
  then Some (list_to_set (omap (fun edge => Topo.other edge local) (Topo.edges topology)))
  else None.

(** ** runtime_shared.rs *)

Section shared.
Context `{Wire.ProstLib} `{TimeLib} `{UuidLib}.
Record RelayAuditIngress := mkIngress { source_peer : PeerId; ingress_envelope : list byte }.
Context `{!MpscLib BackbonePayload} `{!MpscLib RelayAuditIngress}.

Record Counters := mkCounters {
  no_route : N;
  queue_full : N;
  backbone_ttl_drops : N;
  backbone_loop_drops : N;
  backbone_forwarded_hops : N;
  link_rekeys : N;
  audit_queued : N;
  audit_dropped : N;
}.
(** The part of [RelayShared] its handlers read and write. *)
Record RelayShared := mkShared {
  mesh_id : MeshId;
  relay_id : RelayId;
  queue_capacity : N;
  lease_seconds : N;
  gate : Rr.CredentialGate;
  router : Rr.OpaqueRouter;
  presence : Pc.PresenceCache;
  relays : list Sg.RelayEntry;
  topology : option Sg.SignedRelayTopologyV1;
  previous_topology : option (N * Sg.SignedRelayTopologyV1);
  backbones : gmap RelayId (Sender BackbonePayload);
  backbone_health : gmap RelayId RelayNeighborHealth;
  last_database_success : N;
  database_policy : RelayDatabasePolicy;
  audit_sender : Sender RelayAuditIngress;
  counters : Counters;
}.
(** [OffsetDateTime::now_utc], [unix_time], [tokio::time::Instant::now] and [monotonic_millis]. *)
Record Clock := mkClock { now_utc : OffsetDateTime; unix_time : N; instant : N; monotonic_millis : N }.

Definition set_router (x : Rr.OpaqueRouter) (s : RelayShared) : RelayShared :=
  mkShared (mesh_id s) (relay_id s) (queue_capacity s) (lease_seconds s) (gate s) x (presence s) (relays s) (topology s)
    (previous_topology s) (backbones s) (backbone_health s) (last_database_success s) (database_policy s) (audit_sender s) (counters s).
Definition set_presence (x : Pc.PresenceCache) (s : RelayShared) : RelayShared :=
  mkShared (mesh_id s) (relay_id s) (queue_capacity s) (lease_seconds s) (gate s) (router s) x (relays s) (topology s)
    (previous_topology s) (backbones s) (backbone_health s) (last_database_success s) (database_policy s) (audit_sender s) (counters s).
Definition set_links (x : gmap RelayId (Sender BackbonePayload)) (y : gmap RelayId RelayNeighborHealth) (s : RelayShared) : RelayShared :=
  mkShared (mesh_id s) (relay_id s) (queue_capacity s) (lease_seconds s) (gate s) (router s) (presence s) (relays s) (topology s)
    (previous_topology s) x y (last_database_success s) (database_policy s) (audit_sender s) (counters s).
Definition set_audit (x : Sender RelayAuditIngress) (s : RelayShared) : RelayShared :=
  mkShared (mesh_id s) (relay_id s) (queue_capacity s) (lease_seconds s) (gate s) (router s) (presence s) (relays s) (topology s)
    (previous_topology s) (backbones s) (backbone_health s) (last_database_success s) (database_policy s) x (counters s).
Definition set_counters (x : Counters) (s : RelayShared) : RelayShared :=
  mkShared (mesh_id s) (relay_id s) (queue_capacity s) (lease_seconds s) (gate s) (router s) (presence s) (relays s) (topology s)
    (previous_topology s) (backbones s) (backbone_health s) (last_database_success s) (database_policy s) (audit_sender s) x.

(** [AtomicU64::fetch_add(1)] wraps. *)
Definition fetch_add (n : N) : N := (n + 1) mod 2 ^ 64.
Definition count_no_route (c : Counters) : Counters :=
  mkCounters (fetch_add (no_route c)) (queue_full c) (backbone_ttl_drops c) (backbone_loop_drops c) (backbone_forwarded_hops c)
    (link_rekeys c) (audit_queued c) (audit_dropped c).
Definition count_queue_full (c : Counters) : Counters :=
  mkCounters (no_route c) (fetch_add (queue_full c)) (backbone_ttl_drops c) (backbone_loop_drops c) (backbone_forwarded_hops c)
    (link_rekeys c) (audit_queued c) (audit_dropped c).
Definition count_ttl (c : Counters) : Counters :=
  mkCounters (no_route c) (queue_full c) (fetch_add (backbone_ttl_drops c)) (backbone_loop_drops c) (backbone_forwarded_hops c)
    (link_rekeys c) (audit_queued c) (audit_dropped c).
Definition count_loop (c : Counters) : Counters :=
  mkCounters (no_route c) (queue_full c) (backbone_ttl_drops c) (fetch_add (backbone_loop_drops c)) (backbone_forwarded_hops c)
    (link_rekeys c) (audit_queued c) (audit_dropped c).
Definition count_forwarded (c : Counters) : Counters :=
  mkCounters (no_route c) (queue_full c) (backbone_ttl_drops c) (backbone_loop_drops c) (fetch_add (backbone_forwarded_hops c))
    (link_rekeys c) (audit_queued c) (audit_dropped c).
Definition count_rekey (c : Counters) : Counters :=
  mkCounters (no_route c) (queue_full c) (backbone_ttl_drops c) (backbone_loop_drops c) (backbone_forwarded_hops c)
    (fetch_add (link_rekeys c)) (audit_queued c) (audit_dropped c).
Definition count_audit (queued : bool) (c : Counters) : Counters :=
  mkCounters (no_route c) (queue_full c) (backbone_ttl_drops c) (backbone_loop_drops c) (backbone_forwarded_hops c) (link_rekeys c)
    (if queued then fetch_add (audit_queued c) else audit_queued c) (if queued then audit_dropped c else fetch_add (audit_dropped c)).

(** A fallible access to the shared state, and their sequence. *)
Definition handler (A : Type) : Type := RelayShared -> RelayShared * rresult A.
Definition hret {A} (a : A) : handler A := fun s => (s, Ok a).
Definition hfail {A} (e : RelayError) : handler A := fun s => (s, Err e).
Definition hbind {A B} (m : handler A) (k : A -> handler B) : handler B := fun s =>
  match m s with (s', Ok a) => k a s' | (s', Err e) => (s', Err e) | (s', Panic) => (s', Panic) end.
Definition hlift {A} (r : rresult A) : handler A := fun s => (s, r).
Definition hget {A} (f : RelayShared -> A) : handler A := fun s => (s, Ok (f s)).
Definition hcount (f : Counters -> Counters) : handler unit := fun s => (set_counters (f (counters s)) s, Ok tt).
Definition on_router {A} (f : Rr.OpaqueRouter -> Rr.OpaqueRouter * rresult A) : handler A := fun s =>
  let x := f (router s) in (set_router x.1 s, x.2).
Definition on_presence {A} (f : Pc.PresenceCache -> Pc.PresenceCache * rresult A) : handler A := fun s =>
  let x := f (presence s) in (set_presence x.1 s, x.2).
End shared.

Declare Scope relay_scope.
Delimit Scope relay_scope with relay.
Notation "'let*' x ':=' m 'in' k" := (hbind m (fun x => k)) (at level 20, x name, m at level 100, k at level 200) : relay_scope.
Notation "m ';*' k" := (hbind m (fun _ : unit => k)) (at level 100, right associativity) : relay_scope.
#[local] Open Scope relay_scope.

Section handlers.
Context `{Wire.ProstLib} `{!Env.EnvelopeView} `{TimeLib} `{UuidLib} `{!MpscLib BackbonePayload} `{!MpscLib RelayAuditIngress}.
Implicit Types (s : RelayShared) (clock : Clock).

Definition database_freshness clock s : DatabaseFreshness :=
  database_freshness_at (database_policy s) (last_database_success s) (unix_time clock).
Definition database_stale_for clock s : N := unix_time clock - last_database_success s.
Definition database_accepts_new_sessions clock s : bool := bool_decide (database_freshness clock s = Fresh).
Definition database_allows_existing_sessions clock s : bool := negb (bool_decide (database_freshness clock s = Expired)).

(** ** runtime_backbone.rs *)

Definition desired_backbone_neighbors clock s : gset RelayId :=
  match topology s ≫= fun signed => topology_neighbors (Sg.st_topology signed) (relay_id s) with
  | Some desired =>
      match previous_topology s with
      | Some (deadline, previous) =>
          if instant clock <? deadline then
            match topology_neighbors (Sg.st_topology previous) (relay_id s) with Some p => desired ∪ p | None => desired end
          else desired
      | None => desired
      end
  | None => list_to_set (filter (fun r => r <> relay_id s) (Sg.re_relay_id <$> relays s))
  end.
Definition is_backbone_neighbor clock s (remote : RelayId) : bool := bool_decide (remote ∈ desired_backbone_neighbors clock s).

(** Also the Relays whose outgoing task is spawned, in order. *)
Definition reconcile_remote (desired : gset RelayId) (acc : RelayShared * list RelayId) (remote : Sg.RelayEntry)
    : RelayShared * list RelayId :=
  let s := acc.1 in let r := Sg.re_relay_id remote in
  if negb (bool_decide (r ∈ desired)) || negb (should_initiate (relay_id s) r) then acc else
  match backbones s !! r with
  | Some _ => acc
  | None => (set_links (<[r := mpsc_channel (queue_capacity s)]> (backbones s)) (backbone_health s) s, acc.2 ++ [r])
  end.
Definition reconcile_backbones clock s : RelayShared * list RelayId :=
  let desired := desired_backbone_neighbors clock s in
  let s := set_links (filter (fun kv : RelayId * _ => kv.1 ∈ desired) (backbones s))
             (filter (fun kv : RelayId * _ => kv.1 ∈ desired) (backbone_health s)) s in
  foldl (reconcile_remote desired) (s, []) (relays s).

Definition sparse_topology s : option Topo.RelayTopologyV1 :=
  match Sg.st_topology <$> topology s with
  | Some t => if bool_decide (Topo.mode t = Topo.Sparse)
                 && existsb (fun node => bool_decide (Topo.relay_id node = relay_id s)) (Topo.nodes t) then Some t else None
  | None => None
  end.
Definition topology_for_revision clock s (revision : N) : option Topo.RelayTopologyV1 :=
  let previous := match previous_topology s with
                  | Some (deadline, signed) =>
                      if (instant clock <? deadline) && (Topo.revision (Sg.st_topology signed) =? revision)
                      then Some (Sg.st_topology signed) else None
                  | None => None
                  end in
  match topology s with
  | Some signed => if Topo.revision (Sg.st_topology signed) =? revision then Some (Sg.st_topology signed) else previous
  | None => previous
  end.

(** [edges.iter().any(|edge| edge.other(local) == Some(remote))] *)
Definition adjacent (t : Topo.RelayTopologyV1) (local remote : RelayId) : bool :=
  existsb (fun edge => bool_decide (Topo.other edge local = Some remote)) (Topo.edges t).
Definition validate_sparse_route clock (remote : RelayId) (route : BackboneRoute) : handler Topo.RelayTopologyV1 := fun s =>
  if hop_limit route =? 0 then (hcount count_ttl ;* hfail NoRoute) s else
  if bool_decide (relay_id s ∈ visited route) then (hcount count_loop ;* hfail NoRoute) s else
  if (lenN (visited route) =? 0) || (4 <? lenN (visited route)) || negb (bool_decide (last (visited route) = Some remote))
  then (s, Err NoRoute) else
  match topology_for_revision clock s (topology_revision route) with
  | None => (s, Err NoRoute)
  | Some t => if negb (bool_decide (Topo.mode t = Topo.Sparse)) || negb (adjacent t (relay_id s) remote)
              then (s, Err NoRoute) else (s, Ok t)
  end.

(** [senders.get(&next)], and [try_send] on it. *)
Definition send_to (next : RelayId) (payload : BackbonePayload) (s : RelayShared) : RelayShared * option Sent :=
  match backbones s !! next with
  | None => (s, None)
  | Some sender => let x := try_send sender payload in
                   (set_links (<[next := x.1]> (backbones s)) (backbone_health s) s, Some x.2)
  end.

Definition next_hop_route (route : BackboneRoute) (local : RelayId) : BackboneRoute :=
  mkRoute (origin route) (destination route) (topology_revision route) (hop_limit route - 1) (visited route ++ [local]).
Fixpoint forward_to (update : Pc.PresenceAnnouncement) (route : BackboneRoute) (hops : list RelayId) : handler unit := fun s =>
  match hops with
  | [] => (s, Ok tt)
  | next :: rest =>
      match send_to next (RoutedPresence update route) s with
      | (s', Some SentOk) => (hcount count_forwarded ;* forward_to update route rest) s'
      | (s', Some SentFull) => (s', Err QueueFull)
      | (s', _) => forward_to update route rest s'
      end
  end.
Definition forward_sparse_presence (t : Topo.RelayTopologyV1) (update : Pc.PresenceAnnouncement) (route : BackboneRoute)
    : handler unit := fun s =>
  if (hop_limit route <=? 1) || (4 <=? lenN (visited route)) then hcount count_ttl s else
  let route := next_hop_route route (relay_id s) in
  forward_to update route
    (filter (fun relay => relay ∉ visited route) (omap (fun edge => Topo.other edge (relay_id s)) (Topo.edges t))) s.

Definition permit_expired clock s : bool :=
  (lease_seconds s <? database_stale_for clock s) && database_allows_existing_sessions clock s.
Definition cached_presence_owner clock (peer : PeerId) : handler Pc.PresenceOwner := fun s =>
  (s, Pc.primary_owner peer (now_utc clock) (permit_expired clock s) (presence s)).
Definition cached_presence_source clock (peer : PeerId) (relay : RelayId) (gen : Z) s : bool :=
  Pc.authenticates_source peer relay gen (now_utc clock) (permit_expired clock s) (presence s).

(** The route a Relay gives what it originates. *)
Definition origin_route (t : Topo.RelayTopologyV1) (local : RelayId) (dest : option RelayId) : BackboneRoute :=
  mkRoute local dest (Topo.revision t) 4 [local].
Definition presence_payload s (update : Pc.PresenceAnnouncement) : BackbonePayload :=
  match sparse_topology s with
  | Some t => RoutedPresence update (origin_route t (relay_id s) None)
  | None => Presence update
  end.
Definition broadcast_presence (update : Pc.PresenceAnnouncement) (s : RelayShared) : RelayShared :=
  let payload := presence_payload s update in
  set_links ((fun sender => (try_send sender payload).1) <$> backbones s) (backbone_health s) s.

(** ** Records of a backbone link (runtime_backbone_link.rs, runtime_backbone_support.rs) *)

Definition backbone_payload_envelope (mesh : MeshId) (payload : BackbonePayload) : rresult Wire.ControlEnvelope :=
  body ← encode_backbone_payload payload;
  Ok (Env.envelope_of (Env.mkEnvelope (Some (Env.Forwarded (Env.mkBlob (id_bytes mesh) body))) None)).
Definition backbone_control_envelope (mesh : MeshId) (payload : BackbonePayload) : rresult Wire.ControlEnvelope :=
  match payload with
  | Presence update =>
      Ok (Env.envelope_of (Env.mkEnvelope (Some (Env.PresenceUpdate (Env.mkBlob (id_bytes mesh) (Pc.encode_presence update)))) None))
  | Control _ | RoutedControl _ _ | RoutedPresence _ _ => backbone_payload_envelope mesh payload
  end.
(** [b"link_ready"] and [b"link_rekey"] *)
Definition link_ready : list byte := [x6c; x69; x6e; x6b; x5f; x72; x65; x61; x64; x79].
Definition link_rekey : list byte := [x6c; x69; x6e; x6b; x5f; x72; x65; x6b; x65; x79].
Definition link_ready_record (mesh : MeshId) : Wire.WireRecord :=
  Wire.Control (Env.envelope_of (Env.mkEnvelope (Some (Env.Welcome (Env.mkBlob (id_bytes mesh) link_ready))) None)).
Definition record_link_close (close : Env.MeshBlob) : handler unit := fun s =>
  if bool_decide (Env.mb_mesh_id close = id_bytes (mesh_id s)) && bool_decide (Env.mb_body close = link_rekey)
  then hcount count_rekey s else (s, Ok tt).
Definition current_relay_entry s (remote : RelayId) : rresult Sg.RelayEntry :=
  ok_or (list_find (fun entry => Sg.re_relay_id entry = remote) (relays s) ≫= fun p => Some p.2) NoRoute.

Definition accept_backbone_delivery (result : handler unit) : handler bool := fun s =>
  match result s with
  | (s', Ok _) => (s', Ok true)
  | (s', Err NoRoute) => (hcount count_no_route ;* hret false) s'
  | (s', Err QueueFull) => (hcount count_queue_full ;* hret false) s'
  | (s', Err e) => (s', Err e)
  | (s', Panic) => (s', Panic)
  end.

(** ** runtime_routing.rs *)

Definition map_backbone_send_error (x : Sent) : rresult unit :=
  match x with SentOk => Ok tt | SentFull => Err QueueFull | SentClosed => Err NoRoute end.
Fixpoint try_hops (control : Rr.RoutedControl) (route : BackboneRoute) (hops : list RelayId) : handler unit := fun s =>
  match hops with
  | [] => (s, Err NoRoute)
  | next :: rest =>
      if bool_decide (next ∈ visited route) then try_hops control route rest s else
      match send_to next (RoutedControl control route) s with
      | (s', Some SentOk) => (s', Ok tt)
      | (s', Some SentFull) => (s', Err QueueFull)
      | (s', _) => try_hops control route rest s'
      end
  end.
Definition send_sparse_control (t : Topo.RelayTopologyV1) (control : Rr.RoutedControl) (route : BackboneRoute) : handler unit :=
  let* dest := hlift (ok_or (destination route) NoRoute) in
  fun s => try_hops control route (Topo.next_hops t (relay_id s) dest) s.

(** [PeerId::from_uuid(Uuid::from_slice(..)?)] *)
Definition peer_of (bytes : list byte) : rresult PeerId := ok_or (f_dec id_field bytes) Pc.KindMismatch.
Definition opaque_of (envelope : Wire.ControlEnvelope) : option Wire.RelayEnvelopeV2 :=
  match Env.message (Env.fields_of envelope) with Some (Env.Opaque m) => Some m | _ => None end.
(** The destination, and the envelope bound to its authenticated source. *)
Definition normalize_direct_control (mesh : MeshId) (source : PeerId) (envelope : Wire.ControlEnvelope)
    : rresult (PeerId * Wire.ControlEnvelope) :=
  match opaque_of envelope with
  | Some m =>
      _ ← map_err WireErr (Wire.validate_from_peer m);
      if negb (bool_decide (Wire.env_mesh_id m = id_bytes mesh)) then Err Pc.KindMismatch else
      dest ← peer_of (Wire.destination_peer m);
      if bool_decide (dest = source) then Err NoRoute else
      Ok (dest, Env.envelope_of (Env.mkEnvelope (Some (Env.Opaque (Wire.bind_authenticated_source m (id_bytes source))))
                                   (Env.trace_context (Env.fields_of envelope))))
  | None => Err Pc.KindMismatch
  end.
Definition CONTROL_AUDIT_DESTINATION : list byte := replicate 16 x00.
Definition normalize_control_audit (mesh : MeshId) (source : PeerId) (envelope : Wire.ControlEnvelope)
    : rresult (option RelayAuditIngress) :=
  match opaque_of envelope with
  | Some m =>
      if negb (Wire.kind m =? 2)%Z then Ok None else
      _ ← map_err WireErr (Wire.validate_from_peer m);
      if negb (bool_decide (Wire.env_mesh_id m = id_bytes mesh)) || negb (bool_decide (Wire.destination_peer m = CONTROL_AUDIT_DESTINATION))
      then Err Pc.KindMismatch else
      Ok (Some (mkIngress source (Wire.opaque m)))
  | None => Ok None
  end.
Definition queue_control_audit (source : PeerId) (envelope : Wire.ControlEnvelope) : handler bool := fun s =>
  match normalize_control_audit (mesh_id s) source envelope with
  | Ok None => (s, Ok false)
  | Ok (Some ingress) =>
      let x := try_send (audit_sender s) ingress in
      let s := set_audit x.1 s in
      match x.2 with
      | SentOk => (hcount (count_audit true) ;* hret true) s
      | SentFull => (hcount (count_audit false) ;* hfail QueueFull) s
      | SentClosed => (hcount (count_audit false) ;* hfail NoRoute) s
      end
  | Err e => (s, Err e)
  | Panic => (s, Panic)
  end.

(** [span] is the identifier [advance_trace] draws. *)
Definition advanced_envelope (span : N) (envelope : Wire.ControlEnvelope) : rresult Wire.ControlEnvelope :=
  correlation ← map_err (fun _ => Pc.KindMismatch) (Env.correlation_context envelope);
  match correlation with
  | Some _ => let x := Env.advance_trace span envelope in _ ← map_err (fun _ => Pc.KindMismatch) x.2; Ok x.1
  | None => Ok envelope
  end.
(** To the Relay that owns the destination. *)
Definition route_to_owner (clock : Clock) (routed : Rr.RoutedControl) : handler unit :=
  let* owner := cached_presence_owner clock (Rr.rc_destination routed) in
  fun s =>
    if bool_decide (Pc.po_relay_id owner = relay_id s) then (s, Err NoRoute) else
    match sparse_topology s with
    | Some t => send_sparse_control t routed (origin_route t (relay_id s) (Some (Pc.po_relay_id owner))) s
    | None =>
        match send_to (Pc.po_relay_id owner) (Control routed) s with
        | (s', None) => (s', Err NoRoute)
        | (s', Some x) => (s', map_backbone_send_error x)
        end
    end.
Definition route_peer_control (clock : Clock) (span : N) (source : PeerId) (gen : Z) (envelope : Wire.ControlEnvelope) : handler unit :=
  let* audit := queue_control_audit source envelope in
  if audit : bool then hret tt else
  let* envelope := hlift (advanced_envelope span envelope) in
  let* mesh := hget mesh_id in
  let* normalized := hlift (normalize_direct_control mesh source envelope) in
  let routed := Rr.mkRouted source normalized.1 gen normalized.2 in
  fun s =>
    match on_router (Rr.route_authenticated_control routed) s with
    | (s', Err NoRoute) => route_to_owner clock routed s'
    | (s', r) => (s', r)
    end.

(** ** One record of a link *)

Definition to_peer (control : Rr.RoutedControl) : handler unit := on_router (Rr.accept_cross_relay_control control).
Definition handle_control (clock : Clock) (remote : RelayId) (control : Rr.RoutedControl) : handler unit := fun s =>
  if negb (cached_presence_source clock (Rr.rc_source control) remote (Rr.rc_generation control) s) then (s, Err StaleFence) else
  (let* _ := accept_backbone_delivery (to_peer control) in hret tt) s.
Definition forward_control (t : Topo.RelayTopologyV1) (control : Rr.RoutedControl) (route : BackboneRoute) : handler unit := fun s =>
  if (hop_limit route <=? 1) || (4 <=? lenN (visited route)) then (hcount count_ttl ;* hfail NoRoute) s else
  (let* sent := accept_backbone_delivery (send_sparse_control t control (next_hop_route route (relay_id s))) in
   if sent : bool then hcount count_forwarded else hret tt) s.
Definition handle_routed_control (clock : Clock) (remote : RelayId) (control : Rr.RoutedControl) (route : BackboneRoute) : handler unit :=
  let* t := validate_sparse_route clock remote route in
  fun s =>
    if negb (cached_presence_source clock (Rr.rc_source control) (origin route) (Rr.rc_generation control) s) then (s, Err StaleFence) else
    match destination route with
    | None => (s, Err NoRoute)
    | Some dest =>
        if bool_decide (dest = relay_id s) then (let* _ := accept_backbone_delivery (to_peer control) in hret tt) s
        else forward_control t control route s
    end.
(** [presence.observe], and the fence of a primary that advanced. *)
Definition observe_update (authenticated : RelayId) (update : Pc.PresenceAnnouncement) : handler bool :=
  let* advanced := on_presence (Pc.observe authenticated update) in
  let e := Pc.entry update in
  if negb (Pc.released update) && advanced && bool_decide (Pc.role e = Pc.Primary) then
    on_router (Rr.observe_fence (Pc.peer_id e) (Pc.generation e)) ;* hret advanced
  else hret advanced.
Definition handle_routed_presence (clock : Clock) (remote : RelayId) (update : Pc.PresenceAnnouncement) (route : BackboneRoute)
    : handler unit :=
  let* t := validate_sparse_route clock remote route in
  if bool_decide (is_Some (destination route)) || negb (bool_decide (Pc.relay_id (Pc.entry update) = origin route)) then hfail NoRoute else
  let* advanced := observe_update (origin route) update in
  if advanced : bool then forward_sparse_presence t update route else hret tt.
Definition handle_payload (clock : Clock) (remote : RelayId) (payload : BackbonePayload) : handler unit :=
  match payload with
  | Control control => handle_control clock remote control
  | RoutedControl control route => handle_routed_control clock remote control route
  | RoutedPresence update route => handle_routed_presence clock remote update route
  | Presence _ => hfail Pc.KindMismatch
  end.
Definition mesh_blob (blob : Env.MeshBlob) : handler (list byte) := fun s =>
  if negb (bool_decide (Env.mb_mesh_id blob = id_bytes (mesh_id s))) then (s, Err NoRoute) else (s, Ok (Env.mb_body blob)).

(** What a connection keeps besides the shared state: its keepalive state, and
    the records written to the socket. *)
Record Link := mkLink { health : ConnectionHealth; written : list Wire.WireRecord }.
Definition handle_keepalive (clock : Clock) (remote : RelayId) (timestamp : N) (link : Link) (s : RelayShared)
    : Link * RelayShared :=
  let x := reply timestamp (monotonic_millis clock) (health link) in
  if x.2 then
    (mkLink x.1 (written link),
     match snapshot remote x.1 with
     | Some h => set_links (backbones s) (<[remote := h]> (backbone_health s)) s
     | None => s
     end)
  else (mkLink x.1 (written link ++ [Wire.Control (Env.envelope_of (Env.mkEnvelope (Some (Env.Keepalive timestamp)) None))]), s).
Definition handle_backbone_record (clock : Clock) (remote : RelayId) (record : Wire.WireRecord) (link : Link) (s : RelayShared)
    : Link * (RelayShared * rresult unit) :=
  match record with
  | Wire.Control envelope =>
      match Env.message (Env.fields_of envelope) with
      | Some (Env.Forwarded forwarded) =>
          (link, (let* body := mesh_blob forwarded in
                  let* payload := hlift (decode_backbone_payload body) in
                  handle_payload clock remote payload) s)
      | Some (Env.PresenceUpdate update) =>
          (link, (let* body := mesh_blob update in
                  let* update := hlift (Pc.decode_presence body) in
                  let* _ := observe_update remote update in hret tt) s)
      | Some (Env.Keepalive timestamp) =>
          let x := handle_keepalive clock remote timestamp link s in (x.1, (x.2, Ok tt))
      | Some (Env.Close close) => (link, (record_link_close close ;* hfail NoRoute) s)
      | _ => (link, (s, Err Pc.KindMismatch))
      end
  | _ => (link, (s, Err Pc.KindMismatch))
  end.

(** ** Opening a link (runtime_backbone_sessions.rs, runtime_backbone_link.rs) *)

(** What [drive_backbone] writes first; [accepting] is [rollover_remote.is_none()]. *)
Definition opening_records (accepting : bool) (s : RelayShared) : rresult (list Wire.WireRecord) :=
  let snapshot := Pc.announcements_owned_by (relay_id s) (presence s) in
  if Topo.sat_mul (queue_capacity s) 16 <? lenN snapshot then Err QueueFull else
  records ← mapM (fun update => Wire.Control <$> backbone_control_envelope (mesh_id s) (presence_payload s update)) snapshot;
  Ok (records ++ if accepting then [link_ready_record (mesh_id s)] else []).

(** [for _ in 0..64 { outbound.try_recv() .. }]: the records written, and what is
    left in the channel. *)
Fixpoint drain_payloads (n : nat) (mesh : MeshId) (items : list BackbonePayload) : rresult (list Wire.WireRecord * list BackbonePayload) :=
  match n, items with
  | S n', payload :: rest =>
      control ← backbone_control_envelope mesh payload;
      '(records, remaining) ← drain_payloads n' mesh rest;
      Ok (Wire.Control control :: records, remaining)
  | _, _ => Ok ([], items)
  end.

(** The loop of [connect_backbone]: the records before [link_ready], and those
    still to be read. Records that end without it are a timeout. *)
Fixpoint read_bootstrap (mesh : MeshId) (limit : N) (bootstrap records : list Wire.WireRecord)
    : rresult (list Wire.WireRecord * list Wire.WireRecord) :=
  match records with
  | [] => Err HandshakeLimited
  | record :: rest =>
      match record with
      | Wire.Control envelope =>
          match Env.message (Env.fields_of envelope) with
          | Some (Env.Welcome greeting) =>
              if bool_decide (Env.mb_mesh_id greeting = id_bytes mesh) && bool_decide (Env.mb_body greeting = link_ready)
              then Ok (bootstrap, rest) else Err Pc.KindMismatch
          | Some (Env.PresenceUpdate _) =>
              if limit <=? lenN bootstrap then Err QueueFull else read_bootstrap mesh limit (bootstrap ++ [record]) rest
          | _ => Err Pc.KindMismatch
          end
      | _ => Err Pc.KindMismatch
      end
  end.
Definition connect_bootstrap (records : list Wire.WireRecord) (s : RelayShared) : rresult (list Wire.WireRecord * list Wire.WireRecord) :=
  read_bootstrap (mesh_id s) (Topo.sat_mul (queue_capacity s) 16) [] records.
(** [for record in bootstrap { handle_backbone_record(..)? }] *)
Fixpoint handle_records (clock : Clock) (remote : RelayId) (records : list Wire.WireRecord) (link : Link) (s : RelayShared)
    : Link * (RelayShared * rresult unit) :=
  match records with
  | [] => (link, (s, Ok tt))
  | record :: rest =>
      match handle_backbone_record clock remote record link s with
      | (link', (s', Ok _)) => handle_records clock remote rest link' s'
      | x => x
      end
  end.
End handlers.

(** ** Keepalives *)

Inductive health_op := Probe (timestamp : N) | Reply (echoed now : N).
Definition health_step (h : ConnectionHealth) (o : health_op) : ConnectionHealth :=
  match o with Probe t => (probe t h).1 | Reply e now => (reply e now h).1 end.
Definition window_ok (h : ConnectionHealth) : Prop := lenN (samples h) <= 32 /\ missed h <= U8_MAX.

Lemma record_sample_window b h : window_ok h -> window_ok (record_sample b h).
Proof.
  intros [Hw Hm]. split; [|done]. unfold record_sample. cbn [samples]. rewrite lenN_app. change (lenN [b]) with 1.
  destruct (N.eqb_spec (lenN (samples h)) 32) as [He|]; [|lia]. destruct (samples h) as [|x l]; [vm_compute in He; lia|].
  cbn [tail]. rewrite lenN_cons in He. lia.
Qed.
Lemma health_step_window h o : window_ok h -> window_ok (health_step h o).
Proof.
  intros [Hw Hm]. destruct o as [t|e now]; cbn [health_step].
  - unfold probe. destruct (outstanding h); [|done]. apply record_sample_window. split; [done|]. cbn [missed]. lia.
  - unfold reply. case_bool_decide; [|done]. apply record_sample_window. done.
Qed.

(** The snapshots of a link: the loss of its last 32 probes, never above one, as
    [Topo.apply_link_health] requires. *)
Theorem health_snapshot_bounded unhealthy h0 ops relay x (Hnew : health_new unhealthy = Ok h0) :
  let h := foldl health_step h0 ops in
  window_ok h /\
  (snapshot relay h = Some x -> nh_relay_id x = relay /\ nh_rtt_millis x <= U32_MAX /\ nh_samples x = lenN (samples h) /\
     nh_loss_permyriad x = lenN (filter (fun b => b = false) (samples h)) * 10000 / lenN (samples h) /\
     nh_loss_permyriad x <= Topo.default_backbone_loss_permyriad).
Proof.
  cbv zeta. assert (Hw : window_ok (foldl health_step h0 ops)).
  { assert (Hw0 : window_ok h0) by (unfold health_new in Hnew; destruct (unhealthy =? 0); [done|]; injection Hnew as <-; by vm_compute).
    clear Hnew. revert h0 Hw0. induction ops as [|o ops IH]; intros h0 Hw0; [done|]. apply IH. by apply health_step_window. }
  split; [exact Hw|]. destruct Hw as [Hw _]. set (h := foldl health_step h0 ops) in *. unfold snapshot.
  destruct (rtt_millis h) as [rtt|]; [|done]. intros [= <-]. cbn [nh_relay_id nh_rtt_millis nh_samples nh_loss_permyriad].
  set (l := samples h) in *. assert (Hf : lenN (filter (fun b => b = false) l) <= lenN l).
  { unfold lenN. pose proof (length_filter (fun b => b = false) l). lia. }
  assert (Hq : lenN (filter (fun b => b = false) l) * 10000 / lenN l <= 10000).
  { destruct (N.eq_dec (lenN l) 0) as [Hz|Hz]; [rewrite Hz; by destruct (lenN (filter _ l) * 10000)|]. apply N.Div0.div_le_upper_bound. nia. }
  unfold Topo.sat_mul. rewrite (N.min_l (lenN _ * 10000)) by (unfold U64_MAX; lia).
  rewrite (proj2 (N.leb_le (lenN l) U8_MAX)) by (unfold U8_MAX; lia). rewrite (proj2 (N.leb_le (_ / _) U16_MAX)) by (unfold U16_MAX; lia).
  split_and!; try done. destruct (N.leb_spec rtt U32_MAX); lia.
Qed.

Lemma probe_parity local remote m : N.odd (probe_timestamp local remote m) = ltb_of remote local.
Proof.
  rewrite <-N.bit0_odd. unfold probe_timestamp. rewrite N.lor_spec, N.land_spec. change (N.testbit (U64_MAX - 1) 0) with false.
  rewrite andb_false_r. by destruct (ltb_of remote local).
Qed.
(** The two ends of a link never take each other's probes for answers to their own. *)
Theorem probes_distinguished local remote m m' now h (Hne : local <> remote) (Hprobe : outstanding h = Some (probe_timestamp local remote m)) :
  reply (probe_timestamp remote local m') now h = (h, false).
Proof.
  unfold reply. rewrite bool_decide_eq_false_2; [done|]. rewrite Hprobe. intros [= Heq].
  pose proof (probe_parity local remote m) as P. pose proof (probe_parity remote local m') as P'. rewrite Heq in P.
  rewrite (Topo.ltb_of_swap local remote Hne) in P. rewrite P' in P. by destruct (ltb_of local remote).
Qed.

(** ** Opening a link *)

Section opening.
Context `{Wire.ProstLib} `{!Env.EnvelopeView} `{!Env.EnvelopeLaws} `{TimeLib} `{UuidLib} `{!MpscLib BackbonePayload}
  `{!MpscLib RelayAuditIngress}.
Implicit Types (s : RelayShared).

Definition blob_record (m : Env.MeshBlob -> Env.Message) (mesh : MeshId) (body : list byte) : Wire.WireRecord :=
  Wire.Control (Env.envelope_of (Env.mkEnvelope (Some (m (Env.mkBlob (id_bytes mesh) body))) None)).
Definition routed_bytes (t : Topo.RelayTopologyV1) (local : RelayId) (update : Pc.PresenceAnnouncement) : list byte :=
  x03 :: route_bytes 2 (origin_route t local None) (Pc.encode_presence update).
(** The record that announces a session a Relay owns. *)
Definition announcement_record s (update : Pc.PresenceAnnouncement) : Wire.WireRecord :=
  match sparse_topology s with
  | None => blob_record Env.PresenceUpdate (mesh_id s) (Pc.encode_presence update)
  | Some t => blob_record Env.Forwarded (mesh_id s) (routed_bytes t (relay_id s) update)
  end.

Lemma origin_bounded t local dest : route_bounded (origin_route t local dest).
Proof. split; cbn [origin_route hop_limit visited]; [lia|by vm_compute|apply NoDup_singleton]. Qed.
Lemma presence_envelope s update :
  Wire.Control <$> backbone_control_envelope (mesh_id s) (presence_payload s update) = Ok (announcement_record s update).
Proof.
  unfold presence_payload, announcement_record. destruct (sparse_topology s) as [t|]; [|done].
  cbn [backbone_control_envelope]. unfold backbone_payload_envelope.
  assert (He : encode_backbone_payload (RoutedPresence update (origin_route t (relay_id s) None)) =
    Ok (routed_bytes t (relay_id s) update)); [|by rewrite He].
  cbn [encode_backbone_payload]. apply (proj2 (encode_routed_spec _ _ _ _)). split; [apply origin_bounded|]. split; [apply presence_fits|done].
Qed.
Lemma mapM_Ok {E A B} (f : A -> outcome E B) (g : A -> B) l : (forall x, f x = Ok (g x)) -> mapM f l = Ok (g <$> l).
Proof. intros Hf. induction l as [|x l IH]; [done|]. cbn. rewrite Hf. cbn. cbn in IH. by rewrite IH. Qed.
Lemma opening_records_eq accepting s :
  opening_records accepting s =
    let owned := Pc.announcements_owned_by (relay_id s) (presence s) in
    if Topo.sat_mul (queue_capacity s) 16 <? lenN owned then Err QueueFull
    else Ok ((announcement_record s <$> owned) ++ if accepting then [link_ready_record (mesh_id s)] else []).
Proof.
  unfold opening_records. cbv zeta. destruct (_ <? _); [done|].
  rewrite (mapM_Ok _ (announcement_record s)); [done|]. intros update. apply presence_envelope.
Qed.

Lemma read_presence mesh limit acc bodies rest : lenN acc + lenN bodies <= limit ->
  read_bootstrap mesh limit acc ((blob_record Env.PresenceUpdate mesh <$> bodies) ++ link_ready_record mesh :: rest) =
    Ok (acc ++ (blob_record Env.PresenceUpdate mesh <$> bodies), rest).
Proof.
  revert acc. induction bodies as [|b bodies IH]; intros acc Hl.
  - cbn [fmap list_fmap app read_bootstrap]. unfold link_ready_record. rewrite Env.fields_envelope. cbn [Env.message Env.mb_mesh_id Env.mb_body].
    rewrite !bool_decide_eq_true_2 by done. cbn [andb]. by rewrite app_nil_r.
  - rewrite fmap_cons. cbn [app read_bootstrap]. unfold blob_record at 1. rewrite Env.fields_envelope. cbn [Env.message].
    rewrite lenN_cons in Hl. destruct (N.leb_spec limit (lenN acc)); [lia|]. rewrite IH.
    + by rewrite <-app_assoc.
    + rewrite lenN_app. change (lenN [_]) with 1. lia.
Qed.

(** C28: when a link opens. The accepting Relay first announces the sessions it owns
    and then writes [link_ready]; the connecting Relay reads until it. While the
    accepting Relay has no sparse topology the announcements are read, within the
    bound, and the link opens. Under a sparse topology they are [Forwarded]
    records, which the connecting Relay does not take before [link_ready]: the
    link opens only if the accepting Relay owns no session, and otherwise every
    attempt fails with [KindMismatch]. *)
Theorem link_opening acceptor connector records
    (Hmesh : mesh_id connector = mesh_id acceptor)
    (Hrecords : opening_records true acceptor = Ok records)
    (Hroom : lenN (Pc.announcements_owned_by (relay_id acceptor) (presence acceptor)) <= Topo.sat_mul (queue_capacity connector) 16) :
  let owned := Pc.announcements_owned_by (relay_id acceptor) (presence acceptor) in
  connect_bootstrap records connector =
    match sparse_topology acceptor, owned with
    | None, _ => Ok (blob_record Env.PresenceUpdate (mesh_id acceptor) <$> (Pc.encode_presence <$> owned), [])
    | Some _, [] => Ok ([], [])
    | Some _, _ :: _ => Err Pc.KindMismatch
    end.
Proof.
  cbv zeta. rewrite opening_records_eq in Hrecords. cbv zeta in Hrecords. destruct (_ <? _); [done|].
  apply Ok_inj in Hrecords as <-. unfold connect_bootstrap. rewrite Hmesh.
  set (owned := Pc.announcements_owned_by _ _) in *. unfold announcement_record.
  destruct (sparse_topology acceptor) as [t|].
  - destruct owned as [|update owned]; [by apply (read_presence _ _ [] [] [])|].
    rewrite fmap_cons. cbn [app read_bootstrap]. unfold blob_record at 1. by rewrite Env.fields_envelope.
  - change (fun update => blob_record Env.PresenceUpdate (mesh_id acceptor) (Pc.encode_presence update))
      with (blob_record Env.PresenceUpdate (mesh_id acceptor) ∘ Pc.encode_presence).
    rewrite list_fmap_compose. apply (read_presence _ _ []). change (lenN []) with 0. unfold lenN in *. rewrite length_fmap. lia.
Qed.
End opening.

(** ** Control messages hop by hop *)

Section mesh.
Context `{Wire.ProstLib} `{!Env.EnvelopeView} `{TimeLib} `{UuidLib} `{!MpscLib BackbonePayload} `{!MpscLib RelayAuditIngress}.
Implicit Types (s : RelayShared) (net : RelayId -> RelayShared) (clocks : RelayId -> Clock).

(** What the record [from] writes for a payload of its channel does at [here];
    [net r] is the state of Relay [r] when the message reaches it. *)
Definition hop net clocks (link : Link) (from here : RelayId) (payload : BackbonePayload) : rresult (RelayShared * rresult unit) :=
  envelope ← backbone_control_envelope (mesh_id (net from)) payload;
  Ok (handle_backbone_record (clocks here) from (Wire.Control envelope) link (net here)).2.

Definition passed_on s s' (next : RelayId) (payload : BackbonePayload) : Prop :=
  exists q q', backbones s !! next = Some q /\ backbones s' !! next = Some q' /\ queued q' = queued q ++ [payload].
Definition enqueued s s' (peer : PeerId) (envelope : Wire.ControlEnvelope) : Prop :=
  Rr.queue (router s') peer = Rr.queue (router s) peer ++ [envelope].

(** The Relays a message visits from [here] on, and what the last one does with it. *)
Inductive journey net clocks link (control : Rr.RoutedControl)
    : RelayId -> RelayId -> BackboneRoute -> list RelayId -> RelayShared * rresult unit -> Prop :=
  | journey_end from here route s' r :
      hop net clocks link from here (RoutedControl control route) = Ok (s', r) -> backbones s' = backbones (net here) ->
      journey net clocks link control from here route [here] (s', r)
  | journey_hop from here next route route' path res s' :
      hop net clocks link from here (RoutedControl control route) = Ok (s', Ok tt) ->
      passed_on (net here) s' next (RoutedControl control route') ->
      journey net clocks link control here next route' path res ->
      journey net clocks link control from here route (here :: path) res.

(** A mesh that can carry [control] from [source] to [dest]. *)
Record carries net clocks (mesh : MeshId) (t : Topo.RelayTopologyV1) (control : Rr.RoutedControl) (source dest : RelayId) : Prop := {
  ca_valid : Topo.validate t = Ok tt;
  ca_mode : Topo.mode t = Topo.Sparse;
  ca_revision : Topo.revision t <= U64_MAX;
  ca_ids r : r ∈ Topo.relay_id <$> Topo.nodes t -> id_wf r;
  ca_source : source ∈ Topo.relay_id <$> Topo.nodes t;
  ca_control : control_ok control;
  ca_size : exists body, encode_control_body control = Ok body /\ lenN body <= MAX_BACKBONE_BODY;
  ca_mesh r : r ∈ Topo.relay_id <$> Topo.nodes t -> mesh_id (net r) = mesh /\ relay_id (net r) = r;
  ca_topology r : r ∈ Topo.relay_id <$> Topo.nodes t -> Sg.st_topology <$> topology (net r) = Some t;
  ca_known r : r ∈ Topo.relay_id <$> Topo.nodes t ->
    cached_presence_source (clocks r) (Rr.rc_source control) source (Rr.rc_generation control) (net r) = true;
  ca_links r x e : e ∈ Topo.edges t -> Topo.joins e r x ->
    exists q, backbones (net r) !! x = Some q /\ is_closed q = false /\ lenN (queued q) < capacity_of q;
  ca_owner : (Pc.primary_owner (Rr.rc_destination control) (now_utc (clocks source)) (permit_expired (clocks source) (net source))
                (presence (net source))) ≫= (fun owner => Ok (Pc.po_relay_id owner)) = Ok dest;
  ca_accepts : is_Some (Rr.directory_credentials (router (net dest)) !! Rr.rc_source control) /\
    Rr.validate_local_destination (Rr.rc_destination control) (router (net dest)) = Ok tt /\
    lenN (Rr.queue (router (net dest)) (Rr.rc_destination control)) < Rr.queue_capacity (router (net dest));
}.
End mesh.

(** ** What a Relay passes on, whatever its state *)

Section forwarding.
Context `{Wire.ProstLib} `{!Env.EnvelopeView} `{TimeLib} `{UuidLib} `{!MpscLib BackbonePayload} `{!MpscLaws BackbonePayload}
  `{!MpscLib RelayAuditIngress}.
Implicit Types (s : RelayShared).

(** One channel gained one payload. *)
Definition gained s s' (next : RelayId) (payload : BackbonePayload) : Prop :=
  exists q q', backbones s !! next = Some q /\ backbones s' = <[next := q']> (backbones s) /\ queued q' = queued q ++ [payload].
Lemma gained_passed s s' next payload : gained s s' next payload -> passed_on s s' next payload.
Proof. intros (q & q' & Hq & Hb & Hqq). exists q, q'. by rewrite Hb, lookup_insert_eq. Qed.
Lemma snoc_neq {A} (l : list A) x : l <> l ++ [x].
Proof. intros Hl. apply (f_equal length) in Hl. rewrite length_app in Hl. cbn in Hl. lia. Qed.
Lemma gained_unique s s' n n' p p' : gained s s' n p -> passed_on s s' n' p' -> n' = n /\ p' = p.
Proof.
  intros (q & q' & Hq & Hb & Hqq) (x & x' & Hx & Hx' & Hxx). rewrite Hb in Hx'. destruct (decide (n' = n)) as [->|Hne].
  - rewrite lookup_insert_eq in Hx'. injection Hx' as <-. split; [done|].
    rewrite Hq in Hx. injection Hx as <-. rewrite Hqq in Hxx. by simplify_list_eq.
  - rewrite lookup_insert_ne in Hx' by done. rewrite Hx in Hx'. injection Hx' as <-. by apply snoc_neq in Hxx.
Qed.
Lemma same_not_passed s s' n p : backbones s' = backbones s -> ~ passed_on s s' n p.
Proof. intros Hb (q & q' & Hq & Hq' & Hqq). rewrite Hb, Hq in Hq'. injection Hq' as <-. by apply snoc_neq in Hqq. Qed.

Lemma send_to_effect next payload s s' r : send_to next payload s = (s', r) ->
  (r = Some SentOk /\ gained s s' next payload /\ router s' = router s) \/ (r <> Some SentOk /\ backbones s' = backbones s /\ router s' = router s).
Proof.
  unfold send_to. destruct (backbones s !! next) as [q|] eqn:Hq; [|intros [= <- <-]; by right].
  destruct (is_closed q) eqn:Ho; [|destruct (N.le_gt_cases (capacity_of q) (lenN (queued q))) as [Hf|Hr]].
  - rewrite send_closed by done. intros [= <- <-]. right. by rewrite insert_id.
  - rewrite send_full by done. intros [= <- <-]. right. by rewrite insert_id.
  - destruct (send_room q payload Ho Hr) as (q' & Hs & Hqq & _). rewrite Hs. intros [= <- <-]. left. split; [done|]. split; [|done].
    by exists q, q'.
Qed.
Lemma try_hops_effect control route hops : forall s s' r, try_hops control route hops s = (s', r) ->
  router s' = router s /\
  ((backbones s' = backbones s /\ is_ok r = false) \/
   (r = Ok tt /\ exists next, next ∈ hops /\ next ∉ visited route /\ gained s s' next (RoutedControl control route))).
Proof.
  induction hops as [|next hops IH]; intros s s' r; cbn [try_hops]; [intros [= <- <-]; split; [done|by left]|].
  assert (Hskip : forall s1, backbones s1 = backbones s -> router s1 = router s -> try_hops control route hops s1 = (s', r) ->
    router s' = router s /\ ((backbones s' = backbones s /\ is_ok r = false) \/
    (r = Ok tt /\ exists n, n ∈ next :: hops /\ n ∉ visited route /\ gained s s' n (RoutedControl control route)))).
  { intros s1 Hb Hr Ht. destruct (IH _ _ _ Ht) as [Hrt [[Hb' Ho]|(Ho & n & Hn & Hv & q & q' & Hq & Hi & Hqq)]].
    - split; [congruence|]. left. split; [congruence|done].
    - split; [congruence|]. right. split; [done|]. exists n. split; [by right|]. split; [done|]. exists q, q'. by rewrite <-Hb. }
  case_bool_decide as Hv; [by apply Hskip|].
  destruct (send_to next (RoutedControl control route) s) as [s1 x] eqn:Hx.
  destruct (send_to_effect _ _ _ _ _ Hx) as [(-> & Hg & Hr)|(Hx1 & Hb & Hr)].
  - intros [= <- <-]. split; [done|]. right. split; [done|]. exists next. split; [by left|]. done.
  - destruct x as [[]|]; [done|intros [= <- <-]; split; [done|by left]|by apply Hskip..].
Qed.

Lemma send_sparse_effect t control route s s' r : send_sparse_control t control route s = (s', r) ->
  router s' = router s /\
  ((backbones s' = backbones s /\ is_ok r = false) \/
   (r = Ok tt /\ exists next, next ∉ visited route /\ gained s s' next (RoutedControl control route))).
Proof.
  unfold send_sparse_control, hbind, hlift. destruct (destination route); cbn [ok_or]; [|intros [= <- <-]; split; [done|by left]].
  intros (Hr & [Hb|(Ho & n & _ & Hn & Hg)])%try_hops_effect; split; [done|by left|done|right]. split; [done|by exists n].
Qed.
Lemma validate_effect clock remote route s s' r : validate_sparse_route clock remote route s = (s', r) ->
  backbones s' = backbones s /\ router s' = router s /\ relay_id s' = relay_id s /\ (is_ok r = true -> s' = s /\ relay_id s ∉ visited route).
Proof.
  unfold validate_sparse_route. destruct (hop_limit route =? 0); [by intros [= <- <-]|].
  case_bool_decide as Hv; [by intros [= <- <-]|]. destruct (_ || _); [by intros [= <- <-]|].
  destruct (topology_for_revision _ _ _) as [t|]; [|by intros [= <- <-]]. destruct (_ || _); by intros [= <- <-].
Qed.
Lemma delivery_effect (m : handler unit) s : exists s1 r1, m s = (s1, r1) /\
  backbones (accept_backbone_delivery m s).1 = backbones s1 /\ router (accept_backbone_delivery m s).1 = router s1 /\
  ((accept_backbone_delivery m s).2 = Ok true -> r1 = Ok tt).
Proof.
  unfold accept_backbone_delivery. destruct (m s) as [s1 r1]. exists s1, r1. split; [done|]. destruct r1 as [[]|[]|]; cbn; done.
Qed.

(** A routed control message either changes no channel, or is put in exactly one,
    for a Relay it has not visited, with one hop less and this Relay added. *)
Lemma routed_control_effect clock remote control route s s' r :
  handle_routed_control clock remote control route s = (s', r) ->
  backbones s' = backbones s \/
  (2 <= hop_limit route /\ lenN (visited route) <= 3 /\ relay_id s ∉ visited route /\ router s' = router s /\
   cached_presence_source clock (Rr.rc_source control) (origin route) (Rr.rc_generation control) s = true /\
   exists next, next ∉ visited (next_hop_route route (relay_id s)) /\
     gained s s' next (RoutedControl control (next_hop_route route (relay_id s)))).
Proof.
  unfold handle_routed_control, hbind at 1. destruct (validate_sparse_route clock remote route s) as [s1 v] eqn:Hv.
  destruct (validate_effect _ _ _ _ _ _ Hv) as (Hb & Hr & Hi & Hok).
  destruct v as [t|e|]; [|by intros [= <- <-]; left..]. destruct (Hok eq_refl) as [-> Hnew]. clear Hok.
  destruct (cached_presence_source _ _ _ _ _); [|intros [= <- <-]; by left]. cbn [negb].
  destruct (destination route) as [dest|]; [|intros [= <- <-]; by left]. case_bool_decide.
  - unfold hbind. destruct (delivery_effect (to_peer control) s) as (s1 & r1 & Hm & Hb1 & _ & _).
    destruct (accept_backbone_delivery (to_peer control) s) as [s2 [x|e|]]; cbn [fst] in Hb1; intros [= <- <-]; left;
      rewrite Hb1; unfold to_peer, on_router in Hm; by injection Hm as <- _.
  - unfold forward_control. destruct (N.leb_spec (hop_limit route) 1) as [|Hh]; [intros [= <- <-]; by left|].
    destruct (N.leb_spec 4 (lenN (visited route))) as [|Hl]; [intros [= <- <-]; by left|]. cbn [orb]. unfold hbind.
    set (m := send_sparse_control t control (next_hop_route route (relay_id s))).
    destruct (delivery_effect m s) as (s1 & r1 & Hm & Hb1 & Hr1 & _).
    destruct (send_sparse_effect _ _ _ _ _ _ Hm) as (Hrt & [[Hs _]|(_ & next & Hnext & q & q' & Hq & Hi' & Hqq)]).
    + destruct (accept_backbone_delivery m s) as [s2 [[]|e|]]; cbn [fst] in Hb1; intros [= <- <-]; left; cbn; congruence.
    + assert (Hend : forall s2, backbones s2 = backbones s1 -> router s2 = router s1 ->
        2 <= hop_limit route /\ lenN (visited route) <= 3 /\ relay_id s ∉ visited route /\ router s2 = router s /\ true = true /\
        exists next, next ∉ visited (next_hop_route route (relay_id s)) /\
          gained s s2 next (RoutedControl control (next_hop_route route (relay_id s)))).
      { intros s2 Hb2 Hr2. split; [lia|]. split; [lia|]. split; [done|]. split; [congruence|]. split; [done|]. exists next. split; [done|].
        exists q, q'. by rewrite Hb2. }
      destruct (accept_backbone_delivery m s) as [s2 [[]|e|]]; cbn [fst] in Hb1, Hr1; intros [= <- <-]; right; by apply Hend.
Qed.
End forwarding.

Section delivery.
Context `{Wire.ProstLib} `{!Env.EnvelopeView} `{!Env.EnvelopeLaws} `{!Wire.ProstLaws} `{TimeLib} `{!TimeLaws} `{UuidLib} `{!UuidLaws}
  `{!MpscLib BackbonePayload} `{!MpscLaws BackbonePayload} `{!MpscLib RelayAuditIngress}.
Context (net : RelayId -> RelayShared) (clocks : RelayId -> Clock) (link : Link) (mesh : MeshId) (t : Topo.RelayTopologyV1)
  (control : Rr.RoutedControl) (source dest : RelayId) (C : carries net clocks mesh t control source dest).

Notation node r := (r ∈ Topo.relay_id <$> Topo.nodes t).
(** The routes the message travels with. *)
Definition route_of (via : list RelayId) : BackboneRoute := mkRoute source (Some dest) (Topo.revision t) (5 - lenN via) via.

Lemma hop_handles from here via : node from -> node here -> node dest ->
  1 <= lenN via <= 4 -> NoDup via -> Forall (fun r => node r) via ->
  hop net clocks link from here (RoutedControl control (route_of via)) =
    Ok (handle_routed_control (clocks here) from control (route_of via) (net here)).
Proof.
  intros Hf Hh Hd Hlen Hnd Hvia. destruct C as [Hv Hm Hrev Hids Hsrc Hc (body & Hbody & Hbl) Hmesh _ _ _ _ _].
  destruct (Hmesh from Hf) as [Mf _], (Hmesh here Hh) as [Mh _].
  assert (Hroute : route_ok (route_of via)).
  { split; [by apply Hids|]. split; [by apply Hids|]. split; [done|]. eapply Forall_impl; [exact Hvia|]. intros r. apply Hids. }
  assert (He : encode_backbone_payload (RoutedControl control (route_of via)) = Ok (x03 :: route_bytes 1 (route_of via) body)).
  { cbn [encode_backbone_payload]. rewrite Hbody. cbn [mbind outcome_bind]. apply encode_routed_spec. split; [|done].
    split; cbn [route_of hop_limit visited]; [lia|done|done]. }
  unfold hop. cbn [backbone_control_envelope]. unfold backbone_payload_envelope. rewrite He. cbn [mbind outcome_bind].
  unfold handle_backbone_record. rewrite Env.fields_envelope. cbn [Env.message snd].
  unfold hbind, mesh_blob. cbn [Env.mb_mesh_id Env.mb_body]. rewrite Mf, Mh, bool_decide_eq_true_2 by done. cbn [negb].
  unfold hlift. by rewrite (decode_backbone_encode (RoutedControl control (route_of via)) _ (conj Hc Hroute) He).
Qed.

Lemma validated from here via : node here -> last via = Some from -> here ∉ via -> 1 <= lenN via <= 4 ->
  (exists e, e ∈ Topo.edges t /\ Topo.joins e from here) ->
  validate_sparse_route (clocks here) from (route_of via) (net here) = (net here, Ok t).
Proof.
  intros Hh Hlast Hnot Hlen (e & He & Hj). destruct C as [Hv Hm _ _ _ _ _ Hmesh Ht _ _ _ _].
  destruct (Hmesh here Hh) as [_ Mr]. unfold validate_sparse_route. cbn [route_of hop_limit visited topology_revision].
  rewrite (proj2 (N.eqb_neq _ _)) by lia. rewrite Mr, bool_decide_eq_false_2 by done.
  rewrite (proj2 (N.eqb_neq (lenN via) 0)) by lia. rewrite (proj2 (N.ltb_ge 4 (lenN via))) by lia. cbn [orb].
  rewrite bool_decide_eq_true_2 by done. cbn [negb]. unfold topology_for_revision.
  specialize (Ht here Hh). destruct (topology (net here)) as [signed|]; [|done]. injection Ht as ->. rewrite N.eqb_refl.
  rewrite bool_decide_eq_true_2 by done. cbn [negb orb]. assert (Ha : adjacent t here from = true); [|by rewrite Ha].
  unfold adjacent. apply existsb_exists. exists e. split; [by apply list_elem_of_In|]. apply bool_decide_eq_true.
  unfold Topo.other. destruct Hj as [[<- <-]|[<- <-]]; repeat case_bool_decide; congruence.
Qed.

Lemma try_first s f rest route q : backbones s !! f = Some q -> is_closed q = false -> lenN (queued q) < capacity_of q ->
  f ∉ visited route -> exists s', try_hops control route (f :: rest) s = (s', Ok tt) /\
    passed_on s s' f (RoutedControl control route).
Proof.
  intros Hq Ho Hroom Hnot. cbn [try_hops]. rewrite bool_decide_eq_false_2 by done. unfold send_to. rewrite Hq.
  destruct (send_room q (RoutedControl control route) Ho Hroom) as (q' & Hs & Hqq & _). rewrite Hs. cbn [fst snd].
  eexists. split; [reflexivity|]. exists q, q'. split; [done|]. split; [|done]. cbn. apply lookup_insert_eq.
Qed.

(** The message is put in the channel to the primary next hop. *)
Lemma sends_first here f rest via s : Topo.next_hops t here dest = f :: rest ->
  (exists e, e ∈ Topo.edges t /\ Topo.joins e here f) -> f ∉ via ->
  backbones s = backbones (net here) -> relay_id s = here ->
  exists s', forall hops, let route := mkRoute source (Some dest) (Topo.revision t) hops via in
    send_sparse_control t control route s = (s' hops, Ok tt) /\ passed_on s (s' hops) f (RoutedControl control route).
Proof.
  intros Hnext (e & He & Hj) Hf Hs Hr.
  destruct (ca_links _ _ _ _ _ _ _ C here f e He Hj) as (q & Hq & Ho & Hroom). rewrite <-Hs in Hq.
  exists (fun hops => (send_sparse_control t control (mkRoute source (Some dest) (Topo.revision t) hops via) s).1).
  intros hops. cbv zeta. unfold send_sparse_control, hbind, hlift. cbn [destination ok_or]. rewrite Hr, Hnext.
  destruct (try_first s f rest (mkRoute source (Some dest) (Topo.revision t) hops via) q Hq Ho Hroom Hf) as (s' & Hs' & Hp). by rewrite Hs'.
Qed.

(** The destination queues the message for the Peer's session. *)
Lemma arrives from via : node dest -> last via = Some from -> dest ∉ via -> 1 <= lenN via <= 4 ->
  (exists e, e ∈ Topo.edges t /\ Topo.joins e from dest) ->
  exists s', handle_routed_control (clocks dest) from control (route_of via) (net dest) = (s', Ok tt) /\
    backbones s' = backbones (net dest) /\ enqueued (net dest) s' (Rr.rc_destination control) (Rr.rc_envelope control).
Proof.
  intros Hd Hlast Hnot Hlen He. unfold handle_routed_control, hbind. rewrite (validated from dest via) by done.
  destruct C as [_ _ _ _ _ _ _ Hmesh _ Hk _ _ (Hlisted & Hv & Hroom)]. cbn [route_of origin destination].
  rewrite (Hk dest Hd). cbn [negb]. rewrite (proj2 (Hmesh dest Hd)), bool_decide_eq_true_2 by done.
  unfold accept_backbone_delivery, to_peer, on_router, Rr.accept_cross_relay_control. rewrite bool_decide_eq_true_2 by done.
  unfold Rr.to_local. rewrite Hv. unfold Rr.enqueue. cbv zeta. fold (Rr.queue (router (net dest)) (Rr.rc_destination control)).
  rewrite (proj2 (N.leb_gt _ _) Hroom). cbn [fst snd]. eexists. split; [reflexivity|]. split; [done|].
  unfold enqueued, Rr.queue at 1. cbn. by rewrite lookup_insert_eq.
Qed.

(** A Relay on the way passes the message on. *)
Lemma passes from here via f rest : node here -> here <> dest -> last via = Some from -> here ∉ via ->
  1 <= lenN via <= 3 -> (exists e, e ∈ Topo.edges t /\ Topo.joins e from here) ->
  Topo.next_hops t here dest = f :: rest -> (exists e, e ∈ Topo.edges t /\ Topo.joins e here f) -> f ∉ via ++ [here] ->
  exists s', handle_routed_control (clocks here) from control (route_of via) (net here) = (s', Ok tt) /\
    passed_on (net here) s' f (RoutedControl control (route_of (via ++ [here]))).
Proof.
  intros Hh Hne Hlast Hnot Hlen He Hnext Hedge Hf. pose proof C as [_ _ _ _ _ _ _ Hmesh _ Hknown _ _ _].
  destruct (sends_first here f rest (via ++ [here]) (net here) Hnext Hedge Hf eq_refl (proj2 (Hmesh here Hh))) as (send & Hsend).
  destruct (Hsend (4 - lenN via)) as [Hs (q & q' & Hq & Hq' & Hqq)]. set (s1 := send (4 - lenN via)) in *.
  assert (Hroute : route_of (via ++ [here]) = mkRoute source (Some dest) (Topo.revision t) (4 - lenN via) (via ++ [here])).
  { unfold route_of. rewrite lenN_app. change (lenN [here]) with 1. f_equal. lia. }
  exists (set_counters (count_forwarded (counters s1)) s1). split; [|exists q, q'; by rewrite Hroute].
  unfold handle_routed_control, hbind. rewrite (validated from here via) by (done || lia). cbn [route_of origin destination].
  rewrite (Hknown here Hh). cbn [negb]. rewrite (proj2 (Hmesh here Hh)), bool_decide_eq_false_2 by done.
  unfold forward_control, next_hop_route. cbn [route_of origin destination topology_revision hop_limit visited].
  rewrite (proj2 (N.leb_gt (5 - lenN via) 1)), (proj2 (N.leb_gt 4 (lenN via))) by lia. cbn [orb].
  rewrite (proj2 (Hmesh here Hh)). replace (5 - lenN via - 1) with (4 - lenN via) by lia.
  unfold hbind, accept_backbone_delivery. by rewrite Hs.
Qed.

(** The next hop of [next_hop_closer] is new to the route. *)
Lemma closer here via k : Topo.uniform t -> here <> dest -> k <= 4 -> Topo.within (Topo.edges t) here k dest ->
  (forall w, w ∈ via -> ~ Topo.within (Topo.edges t) w k dest) ->
  exists n f rest, 1 <= n <= k /\ Topo.next_hops t here dest = f :: rest /\ (exists e, e ∈ Topo.edges t /\ Topo.joins e here f) /\
    Topo.within (Topo.edges t) f (n - 1) dest /\ (forall w, w ∈ via ++ [here] -> ~ Topo.within (Topo.edges t) w (n - 1) dest) /\
    f ∉ via ++ [here].
Proof.
  intros Hu Hne Hk Hw Hfar.
  destruct (Topo.next_hop_closer t here dest k (ca_valid _ _ _ _ _ _ _ C) Hu Hne Hk Hw) as (n & f & rest & Hn & Hnext & He & Hwf & Hnot).
  assert (Hall : forall w, w ∈ via ++ [here] -> ~ Topo.within (Topo.edges t) w (n - 1) dest).
  { intros w [Hin| ->%list_elem_of_singleton]%elem_of_app Hx; [|done]. apply (Hfar w Hin). eapply Topo.within_mono; [|exact Hx]. lia. }
  exists n, f, rest. split_and!; try done; try lia. intros Hin. by apply (Hall f Hin).
Qed.
Lemma edge_node here f : (exists e, e ∈ Topo.edges t /\ Topo.joins e here f) -> node f.
Proof. intros (e & Hin & Hj). by apply (Topo.valid_edge_nodes t e here f (ca_valid _ _ _ _ _ _ _ C)). Qed.

Lemma carried k : forall from here via, Topo.uniform t -> node dest -> node from -> node here -> Forall (fun r => node r) via -> NoDup via ->
  last via = Some from -> here ∉ via -> 1 <= lenN via -> lenN via + k <= 4 -> (exists e, e ∈ Topo.edges t /\ Topo.joins e from here) ->
  (forall w, w ∈ via -> ~ Topo.within (Topo.edges t) w k dest) -> Topo.within (Topo.edges t) here k dest ->
  exists path s', journey net clocks link control from here (route_of via) path (s', Ok tt) /\
    last path = Some dest /\ lenN path <= k + 1 /\ NoDup (via ++ path) /\
    enqueued (net dest) s' (Rr.rc_destination control) (Rr.rc_envelope control).
Proof.
  induction (N.lt_wf_0 k) as [k _ IH]. intros from here via Hu Hd Hf Hh Hvia Hnd Hlast Hnot Hlen Hk He Hfar Hw.
  assert (Hhop := hop_handles from here via Hf Hh Hd ltac:(lia) Hnd Hvia). pose proof (NoDup_snoc via here Hnd Hnot) as Hnd'.
  destruct (decide (here = dest)) as [->|Hne].
  - destruct (arrives from via Hd Hlast Hnot ltac:(lia) He) as (s' & Hs & Hb & Hq). rewrite Hs in Hhop.
    exists [dest], s'. split; [by eapply journey_end|]. split; [done|]. split; [change (lenN [dest]) with 1; lia|]. by split.
  - destruct (closer here via k Hu Hne ltac:(lia) Hw Hfar) as (n & f & rest & Hn & Hnext & Hedge & Hwf & Hall & Hfn).
    destruct (passes from here via f rest Hh Hne Hlast Hnot ltac:(lia) He Hnext Hedge Hfn) as (s' & Hs & Hp). rewrite Hs in Hhop.
    assert (Hl' : lenN (via ++ [here]) = lenN via + 1) by by rewrite lenN_app.
    destruct (IH (n - 1) ltac:(lia) here f (via ++ [here]) Hu Hd Hh (edge_node _ _ Hedge)) as (path & s2 & Hj & Hpl & Hpn & Hpd & Hq); try done.
    + apply Forall_app. by split; [|apply Forall_singleton].
    + by rewrite last_snoc.
    + lia.
    + lia.
    + exists (here :: path), s2. split; [by eapply journey_hop|]. split; [|split; [rewrite lenN_cons; lia|split; [|done]]].
      * destruct path as [|p path]; [done|]. by rewrite last_cons_cons.
      * by rewrite <-app_assoc in Hpd.
Qed.

(** The source puts the message in the channel to its primary next hop. *)
Lemma departs f rest : source <> dest -> Topo.next_hops t source dest = f :: rest ->
  (exists e, e ∈ Topo.edges t /\ Topo.joins e source f) -> f <> source ->
  exists s1, route_to_owner (clocks source) control (net source) = (s1, Ok tt) /\
    passed_on (net source) s1 f (RoutedControl control (route_of [source])).
Proof.
  intros Hne Hnext He Hfs. pose proof C as [_ Hm _ _ Hsrc _ _ Hmesh Htop _ _ Hown _]. destruct (Hmesh source Hsrc) as [Ms Rs].
  destruct (sends_first source f rest [source] (net source) Hnext He ltac:(set_solver) eq_refl Rs) as (send & Hsend).
  destruct (Hsend 4) as [Hs Hp]. exists (send 4). split; [|done].
  unfold route_to_owner, hbind, cached_presence_owner. destruct (Pc.primary_owner _ _ _ _) as [owner| |]; [|done..].
  injection Hown as Ho. rewrite Ho, Rs, bool_decide_eq_false_2 by congruence.
  assert (Hsparse : sparse_topology (net source) = Some t).
  { unfold sparse_topology. rewrite (Htop source Hsrc), bool_decide_eq_true_2 by done. cbn [andb].
    assert (Hex : existsb (fun node => bool_decide (Topo.relay_id node = relay_id (net source))) (Topo.nodes t) = true); [|by rewrite Hex].
    apply existsb_exists. apply list_elem_of_fmap in Hsrc as (x & Hx & Hin). exists x. split; [by apply list_elem_of_In|].
    apply bool_decide_eq_true. by rewrite Rs. }
  by rewrite Hsparse.
Qed.

(** A Relay other than the destination refuses a message that has visited four. *)
Lemma refuses from here via : node here -> here <> dest -> last via = Some from -> here ∉ via -> lenN via = 4 ->
  (exists e, e ∈ Topo.edges t /\ Topo.joins e from here) ->
  handle_routed_control (clocks here) from control (route_of via) (net here) =
    (set_counters (count_ttl (counters (net here))) (net here), Err NoRoute).
Proof.
  intros Hh Hne Hlast Hnot Hlen He. pose proof C as [_ _ _ _ _ _ _ Hmesh _ Hknown _ _ _].
  unfold handle_routed_control, hbind. rewrite (validated from here via) by (done || lia). cbn [route_of origin destination].
  rewrite (Hknown here Hh). cbn [negb]. rewrite (proj2 (Hmesh here Hh)), bool_decide_eq_false_2 by done.
  unfold forward_control. cbn [route_of hop_limit visited]. by rewrite Hlen.
Qed.

(** The Relays [path] a message follows by primary next hops until one refuses it. *)
Fixpoint refused_along (via : list RelayId) (from here : RelayId) (path : list RelayId) : bool :=
  bool_decide (here ∈ Topo.relay_id <$> Topo.nodes t) && adjacent t from here && negb (bool_decide (here = dest))
  && negb (bool_decide (here ∈ via)) &&
  match path with
  | [] => lenN via =? 4
  | f :: path' => (lenN via <=? 3) && bool_decide (head (Topo.next_hops t here dest) = Some f) && refused_along (via ++ [here]) here f path'
  end.
Lemma adjacent_joins a b : adjacent t a b = true -> exists e, e ∈ Topo.edges t /\ Topo.joins e a b.
Proof.
  unfold adjacent. intros (e & He%list_elem_of_In & Ho%bool_decide_eq_true)%existsb_exists. exists e. split; [done|].
  unfold Topo.other, Topo.joins in *. repeat case_bool_decide; naive_solver.
Qed.
Lemma refused_inv via from here path : refused_along via from here path = true ->
  node here /\ (exists e, e ∈ Topo.edges t /\ Topo.joins e from here) /\ here <> dest /\ here ∉ via /\
  match path with
  | [] => lenN via = 4
  | f :: path' => lenN via <= 3 /\ (exists rest, Topo.next_hops t here dest = f :: rest) /\ refused_along (via ++ [here]) here f path' = true
  end.
Proof.
  intros Hr. destruct path as [|f path]; cbn [refused_along] in Hr; repeat rewrite andb_true_iff in Hr;
    rewrite ?negb_true_iff, ?bool_decide_eq_true, ?bool_decide_eq_false in Hr.
  - destruct Hr as [[[[Hn He%adjacent_joins] Hd] Hv] Hl%N.eqb_eq]. done.
  - destruct Hr as [[[[Hn He%adjacent_joins] Hd] Hv] [[Hl%N.leb_le Hh] Hr]]. do 4 (split; [done|]). split; [done|]. split; [|done].
    destruct (Topo.next_hops t here dest) as [|x rest]; [done|]. injection Hh as ->. by exists rest.
Qed.
Lemma refused_journey path : forall via from here, refused_along via from here path = true ->
  node dest -> node from -> Forall (fun r => node r) via -> NoDup via -> last via = Some from -> 1 <= lenN via ->
  let final := default here (last path) in
  journey net clocks link control from here (route_of via) (here :: path)
    (set_counters (count_ttl (counters (net final))) (net final), Err NoRoute).
Proof.
  induction path as [|f path IH]; intros via from here (Hh & He & Hne & Hnot & Hr)%refused_inv Hd Hf Hvia Hnd Hlast Hlen; cbv zeta.
  - pose proof (hop_handles from here via Hf Hh Hd ltac:(lia) Hnd Hvia) as Hhop.
    rewrite (refuses from here via Hh Hne Hlast Hnot Hr He) in Hhop. by apply journey_end.
  - destruct Hr as (Hl & (rest & Hnext) & Hr). pose proof (hop_handles from here via Hf Hh Hd ltac:(lia) Hnd Hvia) as Hhop.
    pose proof (refused_inv _ _ _ _ Hr) as (_ & Hedge & _ & Hnew & _).
    destruct (passes from here via f rest Hh Hne Hlast Hnot ltac:(lia) He Hnext Hedge Hnew) as (s' & Hs & Hp). rewrite Hs in Hhop.
    eapply journey_hop; [exact Hhop|exact Hp|]. assert (Hl' : lenN (via ++ [here]) = lenN via + 1) by by rewrite lenN_app.
    assert (Hfin : default here (last (f :: path)) = default f (last path)) by (rewrite last_cons; by destruct (last path)).
    rewrite Hfin. apply IH; try done; [|by apply NoDup_snoc|by rewrite last_snoc|lia]. apply Forall_app. by split; [|apply Forall_singleton].
Qed.
End delivery.

Section theorems.
Context `{Wire.ProstLib} `{!Env.EnvelopeView} `{!Env.EnvelopeLaws} `{!Wire.ProstLaws} `{TimeLib} `{!TimeLaws} `{UuidLib} `{!UuidLaws}
  `{!MpscLib BackbonePayload} `{!MpscLaws BackbonePayload} `{!MpscLib RelayAuditIngress}.

(** C6: a control message reaches the Relay of its destination. Let every Relay of
    a valid sparse topology hold it, serve the mesh, know the source's session, and
    have an open channel with room to each neighbour; let every edge cost the same, as
    when the topology is built; let the message be well formed and its record at most 60
    KiB encoded; and let the owner's directory list the source, and its router serve a
    session of the destination with room in its queue. Then a message for a Peer whose owner is within four hops is
    put in the channel to a neighbour, and travels from Relay to Relay, never twice
    through the same one, each accepting the record the last one wrote, to the
    owner's queue for that Peer, in at most four hops. *)
Theorem control_delivered net clocks link mesh t control source dest
    (Hcarries : carries net clocks mesh t control source dest) (Huniform : Topo.uniform t)
    (Hne : source <> dest) (Hdest : dest ∈ Topo.relay_id <$> Topo.nodes t) (Hwithin : Topo.within (Topo.edges t) source 4 dest) :
  exists next route s1 path s',
    route_to_owner (clocks source) control (net source) = (s1, Ok tt) /\
    passed_on (net source) s1 next (RoutedControl control route) /\
    journey net clocks link control source next route path (s', Ok tt) /\
    last path = Some dest /\ lenN path <= 4 /\ NoDup (source :: path) /\
    enqueued (net dest) s' (Rr.rc_destination control) (Rr.rc_envelope control).
Proof.
  pose proof (ca_source _ _ _ _ _ _ _ Hcarries) as Hsrc.
  destruct (closer net clocks mesh t control source dest Hcarries source [] 4 Huniform Hne ltac:(lia) Hwithin ltac:(by intros ? ?%not_elem_of_nil))
    as (n & f & rest & Hn & Hnext & Hedge & Hwf & Hall & Hf).
  destruct (departs net clocks mesh t control source dest Hcarries f rest Hne Hnext Hedge ltac:(set_solver)) as (s1 & Hs1 & Hp).
  destruct (carried net clocks link mesh t control source dest Hcarries (n - 1) source f [source]) as (path & s' & Hjo & Hpl & Hpn & Hpd & Hq);
    try done.
  - by eapply edge_node.
  - by apply Forall_singleton.
  - apply NoDup_singleton.
  - change (lenN [source]) with 1. lia.
  - exists f, (route_of t source dest [source]), s1, path, s'. split_and!; try done. lia.
Qed.
(** A hop is [handle_routed_control], or the record is another mesh's. *)
Lemma hop_inv net clocks link from here control route s' r : control_ok control -> route_ok route ->
  hop net clocks link from here (RoutedControl control route) = Ok (s', r) ->
  route_bounded route /\
  (handle_routed_control (clocks here) from control route (net here) = (s', r) \/ backbones s' = backbones (net here)).
Proof.
  intros Hc Hr. unfold hop. cbn [backbone_control_envelope]. unfold backbone_payload_envelope.
  destruct (encode_backbone_payload (RoutedControl control route)) as [body|e|] eqn:He; [|done..]. cbn [mbind outcome_bind].
  pose proof He as He'. cbn [encode_backbone_payload] in He'. apply bind_Ok in He' as (cb & _ & (Hb & _)%encode_routed_spec).
  unfold handle_backbone_record. rewrite Env.fields_envelope. cbn [Env.message snd]. unfold hbind, mesh_blob.
  cbn [Env.mb_mesh_id Env.mb_body]. case_bool_decide; cbn [negb].
  - unfold hlift. rewrite (decode_backbone_encode (RoutedControl control route) _ (conj Hc Hr) He). cbn [handle_payload].
    intros Hx%Ok_inj. split; [done|by left].
  - intros [= <- _]. split; [done|by right].
Qed.
Lemma next_route_ok route r : route_ok route -> id_wf r -> route_ok (next_hop_route route r).
Proof.
  intros (Ho & Hd & Hv & Hids) Hr. split; [done|]. split; [done|]. split; [done|]. apply Forall_app. by split; [|apply Forall_singleton].
Qed.

(** C17: forwarding ends. Whatever the topologies, the clocks and the states of the
    Relays, a control message makes at most as many hops as its route allows - four,
    for every route that can be encoded - and no two Relays that pass it on are the
    same, or one it had visited before. *)
Theorem forwarding_bounded net clocks link control from here route path res
    (Hids : forall r, r ∈ path -> relay_id (net r) = r /\ id_wf r) (Hcontrol : control_ok control) (Hroute : route_ok route)
    (Hjourney : journey net clocks link control from here route path res) :
  lenN path <= hop_limit route /\ hop_limit route <= 4 /\ NoDup (visited route ++ removelast path).
Proof.
  induction Hjourney as [from here route s' r Hhop _|from here next route route' path res s' Hhop Hp Hj IH].
  - destruct (hop_inv _ _ _ _ _ _ _ _ _ Hcontrol Hroute Hhop) as [[Hh Hv Hn] _]. cbn [removelast].
    rewrite app_nil_r. change (lenN [here]) with 1. split_and!; (lia || done).
  - destruct (Hids here ltac:(by left)) as [Hid Hw].
    destruct (hop_inv _ _ _ _ _ _ _ _ _ Hcontrol Hroute Hhop) as [[Hh Hv Hn] [Hx|Hx]]; [|by apply (same_not_passed _ _ _ _ Hx) in Hp].
    destruct (routed_control_effect _ _ _ _ _ _ _ Hx) as [Hb|(Hh2 & Hl & Hnew & _ & _ & n & Hnn & Hg)];
      [by apply (same_not_passed _ _ _ _ Hb) in Hp|].
    destruct (gained_unique _ _ _ _ _ _ Hg Hp) as [_ Heq]. injection Heq as ->. rewrite Hid in IH, Hnew.
    destruct IH as (IHl & _ & IHn); [intros r Hr; apply Hids; by right|by apply next_route_ok|].
    cbn [next_hop_route hop_limit visited] in IHl, IHn. rewrite lenN_cons. split; [lia|]. split; [lia|].
    destruct path as [|p path]; [by inversion Hj|]. cbn [removelast]. by rewrite <-app_assoc in IHn.
Qed.

(** *** Messages of a Peer *)

(** What is sent to the Relay of the owner. *)
Lemma route_to_owner_effect clock routed s s' r : route_to_owner clock routed s = (s', r) ->
  router s' = router s /\
  ((backbones s' = backbones s /\ is_ok r = false) \/
   (r = Ok tt /\ exists next payload, gained s s' next payload /\
      (payload = Control routed \/ exists route, payload = RoutedControl routed route))).
Proof.
  unfold route_to_owner, hbind, cached_presence_owner. destruct (Pc.primary_owner _ _ _ _) as [owner|e|];
    [|intros [= <- <-]; split; [done|by left]..].
  case_bool_decide; [intros [= <- <-]; split; [done|by left]|]. destruct (sparse_topology s) as [t|].
  - intros (Hr & [Hb|(Ho & n & _ & Hg)])%send_sparse_effect; split; [done|by left|done|right]. split; [done|].
    exists n. eexists. split; [exact Hg|]. right. by eexists.
  - destruct (send_to (Pc.po_relay_id owner) (Control routed) s) as [s1 x] eqn:Hx.
    destruct (send_to_effect _ _ _ _ _ Hx) as [(-> & Hg & Hr)|(Hx1 & Hb & Hr)].
    + intros [= <- <-]. split; [done|]. right. split; [done|]. exists (Pc.po_relay_id owner), (Control routed). split; [done|by left].
    + destruct x as [[]|]; [done|..]; intros [= <- <-]; (split; [done|]); by left.
Qed.

Lemma big_payload_fails mesh routed payload : MAX_BACKBONE_BODY < lenN (Wire.encode_to_vec (Rr.rc_envelope routed)) ->
  (payload = Control routed \/ exists route, payload = RoutedControl routed route) ->
  backbone_control_envelope mesh payload = Err QueueFull.
Proof.
  intros Hbig Hp. assert (He : encode_control_body routed = Err QueueFull).
  { unfold encode_control_body. cbv zeta. by rewrite (proj2 (N.ltb_lt _ _) Hbig). }
  destruct Hp as [->|[route ->]]; cbn [backbone_control_envelope]; unfold backbone_payload_envelope; cbn [encode_backbone_payload];
    unfold encode_legacy_forwarded_control; by rewrite He.
Qed.
Lemma drain_fails n mesh before payload after e : (length before < n)%nat -> backbone_control_envelope mesh payload = Err e ->
  is_ok (drain_payloads n mesh (before ++ payload :: after)) = false.
Proof.
  intros Hn Hp. revert n Hn. induction before as [|b before IH]; intros [|n] Hn; cbn in Hn; try lia; cbn [app drain_payloads].
  - by rewrite Hp.
  - destruct (backbone_control_envelope mesh b) as [c|e'|]; [|done..]. cbn [mbind outcome_bind].
    specialize (IH n ltac:(lia)). by destruct (drain_payloads n mesh (before ++ payload :: after)) as [[]| |].
Qed.

(** One oversized message ends a backbone link. [route_peer_control] does not
    bound what it sends to another Relay: a message whose envelope encodes to more
    than 60 KiB, which a Peer's link can carry, is accepted into the channel of a
    link like any other; and the link that drains a channel containing it fails,
    whatever the other messages are. *)
Theorem oversized_ends_link clock routed s s'
    (Hbig : MAX_BACKBONE_BODY < lenN (Wire.encode_to_vec (Rr.rc_envelope routed)))
    (Hsent : route_to_owner clock routed s = (s', Ok tt)) :
  exists next payload, gained s s' next payload /\
    forall n mesh before after, (length before < n)%nat ->
      is_ok (drain_payloads n mesh (before ++ payload :: after)) = false.
Proof.
  destruct (route_to_owner_effect _ _ _ _ _ Hsent) as [_ [[_ ?]|(_ & next & payload & Hg & Hp)]]; [done|].
  exists next, payload. split; [done|]. intros n mesh before after Hn. eapply drain_fails; [done|by eapply big_payload_fails].
Qed.

(** A message bound to the Peer whose link it came on. *)
Record bound_to (mesh : MeshId) (source : PeerId) (gen : Z) (envelope : Wire.ControlEnvelope) (control : Rr.RoutedControl) : Prop := {
  bt_source : Rr.rc_source control = source /\ Rr.rc_generation control = gen /\ Rr.rc_destination control <> source;
  bt_envelope : exists sent m, opaque_of envelope = Some sent /\ opaque_of (Rr.rc_envelope control) = Some m /\
    Wire.source_peer sent = [] /\ Wire.source_peer m = id_bytes source /\ Wire.env_mesh_id m = id_bytes mesh /\
    Wire.destination_peer m = id_bytes (Rr.rc_destination control) /\ Wire.opaque m = Wire.opaque sent /\
    Wire.kind m = Wire.kind sent /\ Wire.validate_for_relay m = Ok tt;
}.
Lemma advanced_opaque span envelope e : advanced_envelope span envelope = Ok e -> opaque_of e = opaque_of envelope.
Proof.
  unfold advanced_envelope, Env.advance_trace. destruct (Env.correlation_context envelope) as [[c|]|err|]; [|by intros [= <-]|done..].
  cbn [map_err mbind outcome_bind fst snd]. intros [= <-]. unfold opaque_of. by rewrite Env.fields_envelope.
Qed.
Lemma normalize_bound mesh source envelope dest e : normalize_direct_control mesh source envelope = Ok (dest, e) ->
  forall gen, bound_to mesh source gen envelope (Rr.mkRouted source dest gen e).
Proof.
  unfold normalize_direct_control. destruct (opaque_of envelope) as [sent|] eqn:Ho; [|done].
  unfold Wire.validate_from_peer. destruct (N.eqb_spec (lenN (Wire.source_peer sent)) 0) as [Hs|]; [|done]. cbn [negb].
  destruct (Wire.validate_common sent) as [[]|err|] eqn:Hv; [|done..]. cbn [map_err mbind outcome_bind].
  destruct (bool_decide_reflect (Wire.env_mesh_id sent = id_bytes mesh)) as [Hm|]; [|done]. cbn [negb].
  unfold peer_of. destruct (f_dec id_field (Wire.destination_peer sent)) as [d|] eqn:Hd; [|done]. cbn [ok_or mbind outcome_bind].
  case_bool_decide as Hne; [done|]. intros [= -> <-] gen.
  assert (Hl : lenN (Wire.destination_peer sent) = f_len id_field).
  { unfold Wire.validate_common in Hv. destruct (negb (Wire.major sent =? Wire.PROTOCOL_MAJOR)); [done|].
    destruct (N.eqb_spec (lenN (Wire.destination_peer sent)) 16) as [Hl|]; [done|]. by rewrite orb_true_r in Hv. }
  destruct (f_enc_dec (f:=id_field) _ _ Hl Hd) as [Hdb _].
  split; [done|]. exists sent, (Wire.bind_authenticated_source sent (id_bytes source)). split; [done|]. split.
  { unfold opaque_of. cbn [Rr.rc_envelope]. by rewrite Env.fields_envelope. }
  split; [by destruct (Wire.source_peer sent); [|rewrite lenN_cons in Hs; lia]|]. split; [done|]. split; [done|]. split; [done|].
  split; [done|]. split; [done|]. unfold Wire.validate_for_relay. cbn [Wire.bind_authenticated_source Wire.source_peer].
  unfold id_bytes at 1. by rewrite lenN_to_be.
Qed.

Lemma local_queue_appends control r peer e : Rr.queue (Rr.to_local control r).1 peer = Rr.queue r peer ++ [e] ->
  peer = Rr.rc_destination control /\ e = Rr.rc_envelope control.
Proof.
  unfold Rr.to_local. destruct (Rr.validate_local_destination _ _) as [[]|err|]; try (by intros Hq%snoc_neq).
  unfold Rr.enqueue. cbv zeta. set (d := Rr.rc_destination control). destruct (_ <=? _); unfold Rr.queue; cbn.
  - destruct (decide (peer = d)) as [->|Hne]; [rewrite lookup_insert_eq|rewrite lookup_insert_ne by done]; intros Hq; by apply snoc_neq in Hq.
  - destruct (decide (peer = d)) as [->|Hne]; [rewrite lookup_insert_eq|rewrite lookup_insert_ne by done; intros Hq; by apply snoc_neq in Hq].
    cbn. intros Hq%app_inv_head. injection Hq as Hq. done.
Qed.

(** Everything that was put in a channel or queued for a local Peer is bound. *)
Definition only_bound (mesh : MeshId) (source : PeerId) (gen : Z) (envelope : Wire.ControlEnvelope) s s' : Prop :=
  (forall next payload, passed_on s s' next payload -> exists control,
     (payload = Control control \/ exists route, payload = RoutedControl control route) /\ bound_to mesh source gen envelope control) /\
  (forall peer e, enqueued s s' peer e -> exists control,
     Rr.rc_destination control = peer /\ Rr.rc_envelope control = e /\ bound_to mesh source gen envelope control).
Lemma nothing_bound mesh source gen envelope s s' : backbones s' = backbones s -> router s' = router s ->
  only_bound mesh source gen envelope s s'.
Proof.
  intros Hb Hr. split; [intros n p Hp; by apply (same_not_passed s s' n p Hb) in Hp|].
  intros peer e Hq. unfold enqueued in Hq. rewrite Hr in Hq. by apply snoc_neq in Hq.
Qed.
Lemma local_queue routed r peer x :
  Rr.queue (Rr.route_authenticated_control routed r).1 peer = Rr.queue r peer ++ [x] ->
  Rr.rc_destination routed = peer /\ Rr.rc_envelope routed = x.
Proof. unfold Rr.route_authenticated_control. case_bool_decide; [by intros [-> ->]%local_queue_appends|by intros Hq%snoc_neq]. Qed.

(** A normalized message, delivered here or sent to the Relay of the owner. *)
Lemma routed_bound clock mesh source gen envelope routed s s' r : bound_to mesh source gen envelope routed ->
  match on_router (Rr.route_authenticated_control routed) s with
  | (s1, Err NoRoute) => route_to_owner clock routed s1
  | (s1, r) => (s1, r)
  end = (s', r) -> only_bound mesh source gen envelope s s'.
Proof.
  intros Hbound. unfold on_router. set (s1 := set_router (Rr.route_authenticated_control routed (router s)).1 s).
  assert (Hqueue : forall s2, router s2 = router s1 -> forall peer x, enqueued s s2 peer x -> exists control,
    Rr.rc_destination control = peer /\ Rr.rc_envelope control = x /\ bound_to mesh source gen envelope control).
  { intros s2 Hr peer x Hq. unfold enqueued in Hq. rewrite Hr in Hq. destruct (local_queue routed (router s) peer x Hq). by exists routed. }
  assert (Hstop : only_bound mesh source gen envelope s s1).
  { split; [intros n p Hp; by apply (same_not_passed s s1 n p eq_refl) in Hp|by apply Hqueue]. }
  destruct (Rr.route_authenticated_control routed (router s)).2 as [[]|[]|]; try (by intros [= <- _]).
  intros Hstep. destruct (route_to_owner_effect _ _ _ _ _ Hstep) as [Hr Hcase]. split; [|by apply Hqueue].
  intros n p Hp. destruct Hcase as [[Hb _]|(_ & next & payload & Hg & Hpay)]; [by apply (same_not_passed s s' n p Hb) in Hp|].
  destruct (gained_unique s s' next n payload p Hg Hp) as [_ ->]. by exists routed.
Qed.

(** C7: what a Peer sends is bound to it. Whatever envelope a Peer's link delivers,
    everything [route_peer_control] queues for a local Peer or puts in a channel to
    another Relay is an opaque message of this mesh, for another Peer, whose source
    is the authenticated Peer - which the sender cannot choose - and whose opaque
    bytes are those it sent. *)
Theorem peer_source_bound clock span source gen envelope s s' r
    (Hstep : route_peer_control clock span source gen envelope s = (s', r)) :
  only_bound (mesh_id s) source gen envelope s s'.
Proof.
  unfold route_peer_control, hbind at 1 in Hstep. unfold queue_control_audit in Hstep.
  destruct (normalize_control_audit (mesh_id s) source envelope) as [[ingress|]|err|].
  - destruct (try_send (audit_sender s) ingress) as [q []]; cbn in Hstep; injection Hstep as <- _; by apply nothing_bound.
  - unfold hbind, hlift, hget in Hstep.
    destruct (advanced_envelope span envelope) as [adv|err|] eqn:Ha; [|by injection Hstep as <- _; apply nothing_bound..].
    destruct (normalize_direct_control (mesh_id s) source adv) as [[dest e]|err|] eqn:Hn; [|by injection Hstep as <- _; apply nothing_bound..].
    eapply routed_bound; [|exact Hstep].
    pose proof (normalize_bound _ _ _ _ _ Hn gen) as [Hs He]. rewrite (advanced_opaque _ _ _ Ha) in He. by split.
  - injection Hstep as <- _. by apply nothing_bound.
  - injection Hstep as <- _. by apply nothing_bound.
Qed.

(** Two regions of four Relays, and health samples that make their bounded
    cheapest paths disagree. *)
Definition relay_n (n : N) : RelayId := Cred.example_id n.
Definition detour_nodes : list Topo.RelayTopologyNodeV1 :=
  (fun '(n, region, weight) => Topo.mkNode (relay_n n) [region] weight 1) <$>
  [(1, x61, 2); (2, x62, 1); (3, x61, 3); (4, x62, 1); (5, x61, 3); (6, x61, 3); (7, x62, 3); (8, x62, 3)].
Definition detour_health : gmap (RelayId * RelayId) (N * N) :=
  list_to_map ((fun '(a, b, rtt) => ((relay_n a, relay_n b), (rtt, 0))) <$>
  [(1, 3, 2); (1, 5, 50); (1, 6, 200); (2, 4, 1); (2, 7, 50); (2, 8, 1); (3, 5, 200); (3, 6, 100); (3, 7, 100); (3, 8, 50);
   (4, 7, 100); (4, 8, 50); (5, 6, 1); (5, 7, 2); (5, 8, 200); (7, 8, 2)]).
Definition detour_built : Topo.RelayTopologyV1 := Eval vm_compute in
  match Topo.build (relay_n 9) 7 detour_nodes 4 1 with Ok t => t | _ => Topo.mkTopology (relay_n 9) 0 Topo.FullMesh [] [] end.
Definition detour_topology : Topo.RelayTopologyV1 := Eval vm_compute in (Topo.apply_link_health detour_health detour_built).1.

Lemma head_cons {A} (l : list A) x : head l = Some x -> exists rest, l = x :: rest.
Proof. destruct l as [|y l]; [done|]. intros [= ->]. by exists l. Qed.
Lemma detour_build : Topo.build (relay_n 9) 7 detour_nodes 4 1 = Ok detour_built.
Proof. by vm_compute. Qed.
Lemma detour_applied : Topo.apply_link_health detour_health detour_built = (detour_topology, Ok tt).
Proof. vm_compute. reflexivity. Qed.
Lemma detour_node n : forallb (fun x => bool_decide (x ∈ Topo.relay_id <$> detour_nodes)) [relay_n n] = true ->
  relay_n n ∈ Topo.relay_id <$> detour_nodes.
Proof. cbn [forallb]. rewrite andb_true_r. by intros ?%bool_decide_eq_true. Qed.
Lemma detour_ids : Topo.relay_id <$> Topo.nodes detour_topology = Topo.relay_id <$> sort_by_key Topo.relay_id detour_nodes.
Proof. by vm_compute. Qed.
Lemma detour_refused : head (Topo.next_hops detour_topology (relay_n 4) (relay_n 6)) = Some (relay_n 2) /\
  refused_along detour_topology (relay_n 6) [relay_n 4] (relay_n 4) (relay_n 2) (relay_n <$> [8; 7; 5]) = true.
Proof. by vm_compute. Qed.
Lemma detour_member n : forallb (fun x => bool_decide (x ∈ Topo.relay_id <$> detour_nodes)) [relay_n n] = true ->
  relay_n n ∈ Topo.relay_id <$> Topo.nodes detour_topology.
Proof.
  intros (x & -> & Hx)%detour_node%list_elem_of_fmap. rewrite detour_ids. apply list_elem_of_fmap. exists x.
  split; [done|]. by apply elem_of_sort_by_key.
Qed.
#[local] Opaque detour_topology detour_built.

(** C29: with weighted edges the hop bound of a route is not the bound of a journey.
    Every Relay searches its own cheapest path of at most four hops, whatever the
    hops already made. In a topology [build] makes, under health samples
    [apply_link_health] accepts, Relays 4 and 6 are within four hops; but a message
    from 4 to 6 is passed on, by each Relay to its primary next hop, along 2, 8, 7
    and 5, and Relay 5, one hop short, refuses it: [handle_backbone_record] fails
    with [NoRoute], which ends the link it arrived on. *)
Theorem weighted_route_refused net clocks link mesh control
    (Hcarries : carries net clocks mesh detour_topology control (relay_n 4) (relay_n 6)) :
  (Topo.build (relay_n 9) 7 detour_nodes 4 1 = Ok detour_built /\
   Topo.apply_link_health detour_health detour_built = (detour_topology, Ok tt)) /\
  Topo.within (Topo.edges detour_topology) (relay_n 4) 4 (relay_n 6) /\
  exists route s1,
    route_to_owner (clocks (relay_n 4)) control (net (relay_n 4)) = (s1, Ok tt) /\
    passed_on (net (relay_n 4)) s1 (relay_n 2) (RoutedControl control route) /\
    journey net clocks link control (relay_n 4) (relay_n 2) route (relay_n <$> [2; 8; 7; 5])
      (set_counters (count_ttl (counters (net (relay_n 5)))) (net (relay_n 5)), Err NoRoute).
Proof.
  pose proof (detour_member 4 ltac:(by vm_compute)) as N4. pose proof (detour_member 6 ltac:(by vm_compute)) as N6.
  destruct detour_refused as [Hfirst Hrefused]. split; [exact (conj detour_build detour_applied)|]. split.
  { pose proof (Topo.built_within (relay_n 9) 7 detour_nodes 4 1 detour_built (relay_n 4) (relay_n 6) detour_build (detour_node 4 ltac:(by vm_compute))
      (detour_node 6 ltac:(by vm_compute))) as Hw.
    pose proof (proj2 (Topo.health_keeps detour_health detour_built _ _ (proj1 (Topo.build_inv (relay_n 9) 7 detour_nodes 4 1 detour_built detour_build)) Hw)) as Hh.
    rewrite detour_applied in Hh. exact Hh. }
  destruct (head_cons _ _ Hfirst) as [rest Hnext].
  destruct (refused_inv _ _ _ _ _ _ Hrefused) as (_ & Hedge & _ & Hnew & _).
  destruct (departs _ _ _ _ _ _ _ Hcarries (relay_n 2) rest ltac:(done) Hnext Hedge ltac:(done)) as (s1 & Hs1 & Hp1).
  exists (route_of detour_topology (relay_n 4) (relay_n 6) [relay_n 4]), s1. split; [exact Hs1|]. split; [exact Hp1|].
  exact (refused_journey _ _ link _ _ _ _ _ Hcarries (relay_n <$> [8; 7; 5]) [relay_n 4] (relay_n 4) (relay_n 2) Hrefused N6 N4
    ltac:(by apply Forall_singleton) (NoDup_singleton _) eq_refl ltac:(by vm_compute)).
Qed.
End theorems.

(** ** Witnesses

    Envelopes as their fields, written bit by bit; channels as lists. *)

Definition message_code (m : Env.Message) : N * (list (list byte) * list Z) :=
  let chunk c := ([Env.sc_mesh_id c; Env.sc_body c], Z.of_N <$> [Env.sc_revision c; Env.sc_index c; Env.sc_count c]) in
  let blob b := ([Env.mb_mesh_id b; Env.mb_body b], []) in
  match m with
  | Env.CredentialRenewal b => (0, ([b], []))
  | Env.PeerManagement b => (1, ([b], []))
  | Env.ManagementResult r => (2, ([Env.pm_request_id r; Env.pm_error r], [Z.b2z (Env.pm_committed r)]))
  | Env.Configuration c => (3, chunk c)
  | Env.Hello b => (4, blob b)
  | Env.Welcome b => (5, blob b)
  | Env.Keepalive t => (6, ([], [Z.of_N t]))
  | Env.Close b => (7, blob b)
  | Env.PeerDirectory c => (8, chunk c)
  | Env.Policy c => (9, chunk c)
  | Env.RelayDirectory c => (10, chunk c)
  | Env.PresenceUpdate b => (11, blob b)
  | Env.Forwarded b => (12, blob b)
  | Env.Services c => (13, chunk c)
  | Env.RotationRequest r => (14, ([Env.ro_mesh_id r; Env.ro_request_id r; Env.ro_identity_public_key r; Env.ro_session_public_key r;
      Env.ro_current_serial r; Env.ro_signature r; Env.ro_wireguard_public_key r], []))
  | Env.Replacement r => (15, ([Env.re_mesh_id r; Env.re_request_id r; Env.re_credential r; Env.re_activation_challenge r], []))
  | Env.Activation a => (16, ([Env.ac_mesh_id a; Env.ac_request_id a; Env.ac_issued_serial a; Env.ac_signature a], []))
  | Env.Revocation c => (17, chunk c)
  | Env.PublishService p => (18, ([Env.sp_mesh_id p; Env.sp_service_id p; Env.sp_alias p],
      Z.of_N <$> (Env.sp_listen_port p :: Env.sp_protocols p)))
  | Env.RemoveService r => (19, ([Env.sr_mesh_id r; Env.sr_service_id r], []))
  | Env.ServiceResult r => (20, ([Env.sm_mesh_id r; Env.sm_service_id r; Env.sm_error r], [Z.b2z (Env.sm_committed r)]))
  | Env.AuthorityDirectory c => (21, chunk c)
  | Env.Opaque m => (22, ([Wire.env_mesh_id m; Wire.destination_peer m; Wire.source_peer m; Wire.opaque m],
      [Z.of_N (Wire.major m); Wire.kind m]))
  | Env.RelayTopology c => (23, chunk c)
  end.
Definition message_of_code (code : N * (list (list byte) * list Z)) : option Env.Message :=
  let '(tag, (bytes, numbers)) := code in
  let chunk := match bytes, Z.to_N <$> numbers with
               | [mesh; body], [r; i; c] => Some (Env.mkStateChunk mesh r i c body) | _, _ => None end in
  let blob := match bytes with [mesh; body] => Some (Env.mkBlob mesh body) | _ => None end in
  match tag, bytes, numbers with
  | 0, [b], _ => Some (Env.CredentialRenewal b)
  | 1, [b], _ => Some (Env.PeerManagement b)
  | 2, [r; e], [c] => Some (Env.ManagementResult (Env.mkManaged r (c =? 1)%Z e))
  | 3, _, _ => Env.Configuration <$> chunk
  | 4, _, _ => Env.Hello <$> blob
  | 5, _, _ => Env.Welcome <$> blob
  | 6, _, [t] => Some (Env.Keepalive (Z.to_N t))
  | 7, _, _ => Env.Close <$> blob
  | 8, _, _ => Env.PeerDirectory <$> chunk
  | 9, _, _ => Env.Policy <$> chunk
  | 10, _, _ => Env.RelayDirectory <$> chunk
  | 11, _, _ => Env.PresenceUpdate <$> blob
  | 12, _, _ => Env.Forwarded <$> blob
  | 13, _, _ => Env.Services <$> chunk
  | 14, [a; b; c; d; e; f; g], _ => Some (Env.RotationRequest (Env.mkRotation a b c d e f g))
  | 15, [a; b; c; d], _ => Some (Env.Replacement (Env.mkReplacement a b c d))
  | 16, [a; b; c; d], _ => Some (Env.Activation (Env.mkActivation a b c d))
  | 17, _, _ => Env.Revocation <$> chunk
  | 18, [a; b; c], p :: l => Some (Env.PublishService (Env.mkPublish a b (Z.to_N <$> l) (Z.to_N p) c))
  | 19, [a; b], _ => Some (Env.RemoveService (Env.mkRemove a b))
  | 20, [a; b; c], [x] => Some (Env.ServiceResult (Env.mkMutation a b (x =? 1)%Z c))
  | 21, _, _ => Env.AuthorityDirectory <$> chunk
  | 22, [a; b; c; d], [x; k] => Some (Env.Opaque (Wire.mkRelayEnvelopeV2 (Z.to_N x) a b c k d))
  | 23, _, _ => Env.RelayTopology <$> chunk
  | _, _, _ => None
  end.
Lemma message_code_inv m : message_of_code (message_code m) = Some m.
Proof.
  assert (Hn : forall l, Z.to_N <$> (Z.of_N <$> l) = l)
    by (intros l; rewrite <-list_fmap_compose; induction l as [|x l IH]; [done|]; cbn; rewrite N2Z.id; by f_equal).
  destruct m as [b|b|[? [] ?]|[]|[]|[]|t|[]|[]|[]|[]|[]|[]|[]|[]|[]|[]|[]|[? ? ps ? ?]|[]|[? ? [] ?]|[]|[]|[]]; cbn; rewrite ?N2Z.id; try done.
  by rewrite Hn.
Qed.
Definition envelope_code (e : Env.Envelope) : option (N * (list (list byte) * list Z)) * option (list (list byte) * N) :=
  (message_code <$> Env.message e,
   (fun t => ([Env.tr_request_id t; Env.tr_trace_id t; Env.tr_span_id t], Env.tr_flags t)) <$> Env.trace_context e).
Definition envelope_of_code (c : option (N * (list (list byte) * list Z)) * option (list (list byte) * N)) : option Env.Envelope :=
  Some (Env.mkEnvelope (c.1 ≫= message_of_code)
    (c.2 ≫= fun t => match t with ([a; b; d], f) => Some (Env.mkTrace a b d f) | _ => None end)).
#[local] Existing Instance Env.Envelope_eq_dec.
#[export] Instance envelope_countable : Countable Env.Envelope.
Proof.
  apply (inj_countable envelope_code envelope_of_code). intros [m t]. unfold envelope_of_code, envelope_code. cbn.
  destruct m as [m|]; cbn; [rewrite message_code_inv|]; by destruct t as [[]|].
Defined.
Fixpoint bits_of (p : positive) : list byte :=
  match p with xH => [x01] | xO q => x00 :: bits_of q | xI q => x02 :: bits_of q end.
Fixpoint of_bits (l : list byte) : option positive :=
  match l with
  | [x01] => Some 1%positive
  | x00 :: l' => xO <$> of_bits l'
  | x02 :: l' => xI <$> of_bits l'
  | _ => None
  end.
Lemma of_bits_of p : of_bits (bits_of p) = Some p.
Proof. induction p as [p IH|p IH|]; cbn; [by rewrite IH..|done]. Qed.
Definition prost_fields : Wire.ProstLib := {|
  Wire.ControlEnvelope := Env.Envelope;
  Wire.message_is_some e := bool_decide (is_Some (Env.message e));
  Wire.encoded_len e := lenN (bits_of (encode e));
  Wire.encode_to_vec e := bits_of (encode e);
  Wire.envelope_decode l := of_bits l ≫= decode;
|}.
#[local] Existing Instance prost_fields.
#[local] Instance prost_fields_laws : Wire.ProstLaws.
Proof.
  split; cbn; [|done|].
  - intros e. rewrite of_bits_of. cbn. apply decode_encode.
  - intros e _. by destruct (encode e).
Qed.
#[local] Instance view_fields : Env.EnvelopeView := {| Env.fields_of e := e; Env.envelope_of e := e |}.
#[local] Instance view_fields_laws : Env.EnvelopeLaws.
Proof. by split. Qed.
#[local] Instance mpsc_list A : MpscLib A := {|
  Sender := list A * N * bool;
  mpsc_channel n := ([], n, false);
  try_send s a := if s.2 then (s, SentClosed) else if s.1.2 <=? lenN s.1.1 then (s, SentFull) else ((s.1.1 ++ [a], s.1.2, false), SentOk);
  queued s := s.1.1;
  is_closed s := s.2;
  capacity_of s := s.1.2;
|}.
#[local] Instance mpsc_list_laws A : MpscLaws A.
Proof.
  split; intros [[l n] []] a; cbn; try done; intros _ Hn.
  - by rewrite (proj2 (N.leb_le _ _) Hn).
  - rewrite (proj2 (N.leb_gt _ _) Hn). by eexists.
Qed.
#[local] Existing Instances Pc.time_nanos Pc.time_nanos_laws uuid_rfc.
#[local] Instance example_uuid_laws : UuidLaws.
Proof. by split. Qed.

(** A mesh of Relays that hold [t], where Relay [source] serves Peer 20 and Relay
    [dest] Peer 21, which has a session. *)
Definition example_peer_entry (peer : N) (relay : RelayId) (gen : Z) : Pc.PresenceCacheEntry :=
  Pc.mkEntry (relay_n peer) relay (relay_n (peer + 10)) Pc.Primary gen 1000000000000%Z.
Definition example_presence (source dest : RelayId) : Pc.PresenceCache :=
  Pc.mkCache (<[(relay_n 20, Pc.Primary, None) := example_peer_entry 20 source 3]>
    {[(relay_n 21, Pc.Primary, None) := example_peer_entry 21 dest 5]}) ∅ ∅ 2.
Definition example_router : Rr.OpaqueRouter :=
  Rr.mkRouter (relay_n 9) (relay_n 9) [] None None None
    {[relay_n 21 := Rr.mkAttachment (relay_n 21) (relay_n 31) Pc.Primary 5 (relay_n 41)]}
    (<[relay_n 20 := {[relay_n 40]}]> {[relay_n 21 := {[relay_n 41]}]}) ∅ ∅ {[relay_n 21 := 5%Z]} 4.
Definition example_trust : Cred.TrustSet := Cred.trust_new [] (relay_n 9).
Definition example_node (t : option Topo.RelayTopologyV1) (source dest r : RelayId) : RelayShared :=
  mkShared (relay_n 9) r 4 30 (Rr.gate_new example_trust) example_router (example_presence source dest) []
    ((fun t => Sg.mkSignedTopology t []) <$> t) None
    (gset_to_gmap (mpsc_channel 4) (list_to_set (relay_n <$> [1; 2; 3; 4; 5; 6; 7; 8]))) ∅ 100 production
    (mpsc_channel 4) (mkCounters 0 0 0 0 0 0 0 0).
Definition example_clock : Clock := mkClock 100000000000%Z 100 0 0.
Definition example_opaque (sender : list byte) : Wire.ControlEnvelope :=
  Env.mkEnvelope (Some (Env.Opaque (Wire.mkRelayEnvelopeV2 5 (id_bytes (relay_n 9)) (id_bytes (relay_n 21)) sender 1 [x01; x02]))) None.
Definition example_message : Rr.RoutedControl :=
  Rr.mkRouted (relay_n 20) (relay_n 21) 3 (example_opaque (id_bytes (relay_n 20))).
Definition idle_link : Link := mkLink (mkHealth None 0 3 None []) [].

Lemma detour_id_wf r : r ∈ Topo.relay_id <$> detour_nodes -> id_wf r.
Proof.
  assert (Hall : Forall (fun n => n < 64) [1; 2; 3; 4; 5; 6; 7; 8]) by (repeat constructor).
  intros Hr. assert (Hids : Topo.relay_id <$> detour_nodes = relay_n <$> [1; 2; 3; 4; 5; 6; 7; 8]) by reflexivity.
  rewrite Hids in Hr. apply list_elem_of_fmap in Hr as (n & -> & Hn). apply backbone_id_wf. by apply (proj1 (Forall_forall _ _) Hall).
Qed.
Lemma example_carries t source dest : Topo.validate t = Ok tt -> Topo.mode t = Topo.Sparse -> Topo.revision t <= U64_MAX ->
  (forall r, r ∈ Topo.relay_id <$> Topo.nodes t -> r ∈ relay_n <$> [1; 2; 3; 4; 5; 6; 7; 8] /\ id_wf r) ->
  source ∈ Topo.relay_id <$> Topo.nodes t ->
  carries (example_node (Some t) source dest) (fun _ => example_clock) (relay_n 9) t example_message source dest.
Proof.
  intros Hv Hm Hrev Hids Hs. split; try done.
  - intros r Hr. by apply Hids.
  - eexists. split; [vm_compute; reflexivity|]. vm_compute. discriminate.
  - intros r _. unfold cached_presence_source, Pc.authenticates_source. cbn [omap list_omap].
    assert (He : Pc.entries (presence (example_node (Some t) source dest r)) !! (Rr.rc_source example_message, Pc.Primary, None) =
      Some (example_peer_entry 20 source 3)) by apply lookup_insert_eq.
    rewrite He. cbn [existsb Pc.relay_id Pc.generation example_peer_entry]. by rewrite !bool_decide_eq_true_2.
  - intros r x e He Hj. destruct (Topo.valid_edge_nodes t e r x Hv He Hj) as [_ Hx]. exists (mpsc_channel 4).
    split; [|by vm_compute]. apply lookup_gset_to_gmap_Some. split; [|done]. apply elem_of_list_to_set. by apply Hids.
Qed.

Lemma control_delivered_witness : exists next route s1 path s',
  route_to_owner example_clock example_message (example_node (Some detour_built) (relay_n 4) (relay_n 6) (relay_n 4)) = (s1, Ok tt) /\
  passed_on (example_node (Some detour_built) (relay_n 4) (relay_n 6) (relay_n 4)) s1 next (RoutedControl example_message route) /\
  journey (example_node (Some detour_built) (relay_n 4) (relay_n 6)) (fun _ => example_clock) idle_link example_message (relay_n 4)
    next route path (s', Ok tt) /\ last path = Some (relay_n 6) /\ lenN path <= 4.
Proof.
  pose proof (proj1 (Topo.build_inv (relay_n 9) 7 detour_nodes 4 1 detour_built detour_build)) as Hv.
  assert (Hids : Topo.relay_id <$> Topo.nodes detour_built = Topo.relay_id <$> sort_by_key Topo.relay_id detour_nodes) by by vm_compute.
  assert (Hnode : forall r, r ∈ Topo.relay_id <$> Topo.nodes detour_built <-> r ∈ Topo.relay_id <$> detour_nodes).
  { intros r. rewrite Hids, !list_elem_of_fmap. by setoid_rewrite (elem_of_sort_by_key Topo.relay_id). }
  destruct (control_delivered (example_node (Some detour_built) (relay_n 4) (relay_n 6)) (fun _ => example_clock) idle_link (relay_n 9)
    detour_built example_message (relay_n 4) (relay_n 6)) as (n & route & s1 & path & s' & H1' & H2' & H3' & H4' & H5' & _).
  - apply example_carries; [done|by vm_compute|by vm_compute| |].
    + intros r Hr%Hnode. split; [exact Hr|by apply detour_id_wf].
    + apply Hnode, detour_node. by vm_compute.
  - exact (Topo.built_uniform _ _ _ _ _ _ detour_build).
  - done.
  - apply Hnode, detour_node. by vm_compute.
  - apply (Topo.built_within (relay_n 9) 7 detour_nodes 4 1 detour_built); [exact detour_build|apply detour_node; by vm_compute..].
  - exists n, route, s1, path, s'. exact (conj H1' (conj H2' (conj H3' (conj H4' H5')))).
Defined.

Lemma detour_ids_of t : Topo.relay_id <$> Topo.nodes t = Topo.relay_id <$> Topo.nodes detour_topology ->
  forall r, r ∈ Topo.relay_id <$> Topo.nodes t -> r ∈ relay_n <$> [1; 2; 3; 4; 5; 6; 7; 8] /\ id_wf r.
Proof.
  intros Ht r. rewrite Ht, detour_ids. intros (x & -> & Hx)%list_elem_of_fmap. apply elem_of_sort_by_key in Hx.
  assert (Hr : Topo.relay_id x ∈ Topo.relay_id <$> detour_nodes) by by apply list_elem_of_fmap_2.
  split; [exact Hr|by apply detour_id_wf].
Qed.
Lemma detour_carries : carries (example_node (Some detour_topology) (relay_n 4) (relay_n 6)) (fun _ => example_clock) (relay_n 9)
  detour_topology example_message (relay_n 4) (relay_n 6).
Proof.
  apply example_carries; [|by vm_compute|by vm_compute|by apply detour_ids_of|apply detour_member; by vm_compute].
  pose proof (Topo.health_keeps detour_health detour_built (relay_n 4) (relay_n 4)
    (proj1 (Topo.build_inv (relay_n 9) 7 detour_nodes 4 1 detour_built detour_build)) ltac:(by left)) as [Hv _].
  by rewrite detour_applied in Hv.
Qed.
Lemma weighted_route_refused_witness :
  exists route s1, route_to_owner example_clock example_message (example_node (Some detour_topology) (relay_n 4) (relay_n 6) (relay_n 4)) = (s1, Ok tt) /\
    passed_on (example_node (Some detour_topology) (relay_n 4) (relay_n 6) (relay_n 4)) s1 (relay_n 2) (RoutedControl example_message route).
Proof.
  destruct (weighted_route_refused (example_node (Some detour_topology) (relay_n 4) (relay_n 6)) (fun _ => example_clock) idle_link (relay_n 9)
    example_message detour_carries) as (_ & _ & route & s1 & H1' & H2' & _).
  exists route, s1. exact (conj H1' H2').
Defined.

Lemma example_control_ok : control_ok example_message.
Proof. split; [apply (backbone_id_wf 20); lia|]. split; [apply (backbone_id_wf 21); lia|]. by vm_compute. Qed.
Lemma forwarding_bounded_witness :
  lenN (relay_n <$> [2; 8; 7; 5]) <= 4 /\ NoDup ([relay_n 4] ++ removelast (relay_n <$> [2; 8; 7; 5])).
Proof.
  destruct (forwarding_bounded (example_node (Some detour_topology) (relay_n 4) (relay_n 6)) (fun _ => example_clock) idle_link
    example_message (relay_n 4) (relay_n 2) (route_of detour_topology (relay_n 4) (relay_n 6) [relay_n 4]) (relay_n <$> [2; 8; 7; 5])
    (set_counters (count_ttl (mkCounters 0 0 0 0 0 0 0 0)) (example_node (Some detour_topology) (relay_n 4) (relay_n 6) (relay_n 5)), Err NoRoute))
    as (H1' & H2' & H3').
  - intros r (n & -> & Hn)%list_elem_of_fmap. split; [reflexivity|]. apply backbone_id_wf.
    assert (Hall : Forall (fun n => n < 64) [2; 8; 7; 5]) by (repeat constructor). by apply (proj1 (Forall_forall _ _) Hall).
  - exact example_control_ok.
  - split; [apply (backbone_id_wf 4); lia|]. split; [apply (backbone_id_wf 6); lia|]. split; [by vm_compute|].
    apply Forall_singleton. apply (backbone_id_wf 4). lia.
  - exact (refused_journey _ _ idle_link _ _ _ _ _ detour_carries (relay_n <$> [8; 7; 5]) [relay_n 4] (relay_n 4) (relay_n 2)
      (proj2 detour_refused) (detour_member 6 ltac:(by vm_compute)) (detour_member 4 ltac:(by vm_compute))
      ltac:(apply Forall_singleton, detour_member; by vm_compute) (NoDup_singleton _) eq_refl ltac:(by vm_compute)).
  - exact (conj (N.le_trans _ _ _ H1' H2') H3').
Defined.

Lemma link_opening_witness : exists records,
  opening_records true (example_node (Some detour_built) (relay_n 4) (relay_n 6) (relay_n 4)) = Ok records /\
  connect_bootstrap records (example_node (Some detour_built) (relay_n 4) (relay_n 6) (relay_n 2)) = Err Pc.KindMismatch.
Proof.
  set (a := example_node (Some detour_built) (relay_n 4) (relay_n 6) (relay_n 4)).
  assert (Hlen : lenN (Pc.announcements_owned_by (relay_id a) (presence a)) = 1) by by vm_compute.
  assert (Hsparse : match sparse_topology a with Some _ => true | None => false end = true) by by vm_compute.
  pose proof (opening_records_eq true a) as Hr. cbv zeta in Hr. rewrite Hlen in Hr.
  change (Topo.sat_mul (queue_capacity a) 16 <? 1) with false in Hr. eexists. split; [exact Hr|].
  rewrite (link_opening a (example_node (Some detour_built) (relay_n 4) (relay_n 6) (relay_n 2)) _ eq_refl Hr) by by rewrite Hlen.
  destruct (sparse_topology a); [|discriminate Hsparse].
  destruct (Pc.announcements_owned_by (relay_id a) (presence a)); [discriminate Hlen|reflexivity].
Defined.

Lemma peer_source_bound_witness :
  only_bound (relay_n 9) (relay_n 20) 3 (example_opaque []) (example_node None (relay_n 4) (relay_n 4) (relay_n 4))
    (route_peer_control example_clock 0 (relay_n 20) 3 (example_opaque []) (example_node None (relay_n 4) (relay_n 4) (relay_n 4))).1 /\
  is_ok (route_peer_control example_clock 0 (relay_n 20) 3 (example_opaque []) (example_node None (relay_n 4) (relay_n 4) (relay_n 4))).2 = true.
Proof.
  split; [|by vm_compute].
  exact (peer_source_bound example_clock 0 (relay_n 20) 3 (example_opaque []) (example_node None (relay_n 4) (relay_n 4) (relay_n 4)) _ _
    (surjective_pairing _)).
Defined.

#[local] Existing Instance Wire.prost_tagged.
#[local] Instance view_tagged : Env.EnvelopeView :=
  {| Env.fields_of _ := Env.mkEnvelope None None; Env.envelope_of _ := [] |}.
Definition big_message : Rr.RoutedControl := Rr.mkRouted (relay_n 20) (relay_n 21) 3 (replicate (N.to_nat 61440) x00 : Wire.ControlEnvelope).
Definition flat_node : RelayShared :=
  mkShared (relay_n 9) (relay_n 4) 4 30 (Rr.gate_new example_trust) (Rr.mkRouter (relay_n 9) (relay_n 4) [] None None None ∅ ∅ ∅ ∅ ∅ 4)
    (example_presence (relay_n 4) (relay_n 6)) [] None None (gset_to_gmap (mpsc_channel 4) (list_to_set [relay_n 6])) ∅ 100 production
    (mpsc_channel 4) (mkCounters 0 0 0 0 0 0 0 0).
Lemma oversized_ends_link_witness :
  is_ok (Wire.encode_plaintext (Wire.Control (Rr.rc_envelope big_message))) = true /\
  exists next payload, gained flat_node (route_to_owner example_clock big_message flat_node).1 next payload /\
    is_ok (drain_payloads 64 (relay_n 9) [payload]) = false.
Proof.
  assert (Hlen : lenN (replicate (N.to_nat 61440) x00) = 61440) by (unfold lenN; rewrite length_replicate; lia).
  split.
  - unfold Wire.encode_plaintext. cbn [big_message Rr.rc_envelope Wire.encoded_len Wire.prost_tagged]. by rewrite Hlen.
  - destruct (oversized_ends_link example_clock big_message flat_node (route_to_owner example_clock big_message flat_node).1)
      as (next & payload & Hg & Hd).
    + cbn [big_message Rr.rc_envelope Wire.encode_to_vec Wire.prost_tagged]. rewrite lenN_cons, Hlen. by vm_compute.
    + apply pair_snd. reflexivity.
    + exists next, payload. split; [exact Hg|]. exact (Hd 64%nat (relay_n 9) [] [] ltac:(cbn; lia)).
Defined.
End Rm.
