(* ===== verification/Coordination.v ===== *)
(** * Path coordination between Peers (crate [peerward-peer-core], coordination.rs)

    The messages Peers exchange to find direct paths: their codec, and their
    transport as UDP inside the encrypted IP channel, which the receiver parses
    with the strict parser of Packet.v. *)

From S2P Require Import Prelude Ordered Net Packet.
From Stdlib Require Import NArith Lia.
From stdpp Require Import base tactics decidable countable numbers list gmap.
From Stdlib.Init Require Import Byte.
Set Default Goal Selector "!".
Local Open Scope N_scope.

Module Co.

(** ** Data *)

(** The errors of peer-core (lib.rs); the causes wrapped in some are not kept. *)
Inductive PeerError :=
| LegacyProfile | Toml | InvalidConfig | Directory | Checkpoint | NoRelay | MeshTerminated | PacketRuntime
| InvalidPacket | PolicyDenied | QueueFull | NoRoute | Closed | Revoked | Wire | Credential | Policy | Io.
#[export] Instance PeerError_eq_dec : EqDecision PeerError.
Proof. solve_decision. Defined.
Notation presult := (outcome PeerError).

Definition PORT : N := 51821.
Definition MAX_CANDIDATES : N := 32.
Definition HEADER : N := 28.
Definition MAX_PROBE_PADDING : N := 9000.

Inductive Message :=
| Candidates (candidates : list SocketAddr)
| CandidatesAck
| Probe
| ProbeAck
| MtuProbe (padding : N)
| GatewayProbe (id : N)
| GatewayAck (id : N) (ready : bool).
#[export] Instance Message_eq_dec : EqDecision Message.
Proof. solve_decision. Defined.

Record Coordination := mkCoordination {
  generation : N;
  transaction : list byte;
  message : Message;
}.
#[export] Instance Coordination_eq_dec : EqDecision Coordination.
Proof. solve_decision. Defined.

(** ** Endpoints *)

Definition valid_endpoint (endpoint : SocketAddr) : bool :=
  negb (socket_port endpoint =? 0)
  && negb (is_unspecified (socket_ip endpoint))
  && negb (is_loopback (socket_ip endpoint))
  && negb (is_multicast (socket_ip endpoint))
  && match endpoint with
     | SockV4 ip _ => negb (is_broadcast ip)
     | SockV6 ip _ _ scope_id => negb (is_unicast_link_local ip) && (scope_id =? 0)
     end.

(** [candidates.iter().any(..)]: one is invalid, or already in [unique]. *)
Fixpoint any_refused (unique : gset SocketAddr) (candidates : list SocketAddr) : bool :=
  match candidates with
  | [] => false
  | c :: rest =>
      negb (valid_endpoint c) || bool_decide (c ∈ unique) || any_refused ({[c]} ∪ unique) rest
  end.
Definition validate_candidates (candidates : list SocketAddr) : presult unit :=
  if (MAX_CANDIDATES <? lenN candidates) || any_refused ∅ candidates then Err InvalidPacket else Ok tt.

(** The [filter] with [unique.insert], then [take(MAX_CANDIDATES)]. *)
Fixpoint retain_valid (unique : gset SocketAddr) (endpoints : list SocketAddr) : list SocketAddr :=
  match endpoints with
  | [] => []
  | e :: rest =>
      if valid_endpoint e && negb (bool_decide (e ∈ unique)) then e :: retain_valid ({[e]} ∪ unique) rest
      else retain_valid unique rest
  end.
Definition filter_wireguard_candidates (endpoints : list SocketAddr) : list SocketAddr :=
  take (N.to_nat MAX_CANDIDATES) (retain_valid ∅ endpoints).

(** ** The codec *)

Section codec.
Context `{UuidLib}.

Definition kind (m : Message) : N :=
  match m with
  | Candidates _ => 1 | CandidatesAck => 2 | Probe => 3 | ProbeAck => 4
  | MtuProbe _ => 5 | GatewayProbe _ => 6 | GatewayAck _ _ => 7
  end.
Definition encode_endpoint (endpoint : SocketAddr) : list byte :=
  match socket_ip endpoint with
  | V4 ip => byte_of 4 :: v4_octets ip
  | V6 ip => byte_of 6 :: v6_octets ip
  end ++ to_be 2 (socket_port endpoint).
(** [get_version_num() != 4 || generation == 0]; number 4 is [Version::Random]. *)
Definition gateway_refused (id generation : N) : bool := negb (uuid_version_random id) || (generation =? 0).

Definition encode (self : Coordination) : presult (list byte) :=
  let bytes := byte_of 1 :: byte_of (kind (message self)) :: x00 :: x00 :: to_be 8 (generation self) ++ transaction self in
  match message self with
  | GatewayProbe id =>
      if gateway_refused id (generation self) then Err InvalidPacket else Ok (bytes ++ to_be 16 id)
  | GatewayAck id ready =>
      if gateway_refused id (generation self) then Err InvalidPacket else
      Ok (bytes ++ to_be 16 id ++ [byte_of (if ready then 1 else 0)])
  | Candidates candidates =>
      _ ← validate_candidates candidates;
      if U8_MAX <? lenN candidates then Err InvalidPacket else
      Ok (bytes ++ byte_of (lenN candidates) :: concat (encode_endpoint <$> candidates))
  | MtuProbe padding =>
      if (padding =? 0) || (MAX_PROBE_PADDING <? padding) then Err InvalidPacket else
      Ok (bytes ++ replicate (N.to_nat (HEADER + padding - lenN bytes)) x00)
  | _ => Ok bytes
  end.

(** [take::<N>(&mut body)]: what is read and what is left. *)
Definition take_n (n : N) (body : list byte) : presult (list byte * list byte) :=
  match get_slice body 0 n with
  | Some value => Ok (value, drop (N.to_nat n) body)
  | None => Err InvalidPacket
  end.
Definition take_address (body : list byte) : presult (IpAddr * list byte) :=
  '(family, body) ← take_n 1 body;
  if from_be family =? 4 then '(octets, body) ← take_n 4 body; Ok (V4 (from_be octets), body)
  else if from_be family =? 6 then '(octets, body) ← take_n 16 body; Ok (V6 (from_be octets), body)
  else Err InvalidPacket.
Definition take_endpoint (body : list byte) : presult (SocketAddr * list byte) :=
  '(ip, body) ← take_address body;
  '(port, body) ← take_n 2 body;
  Ok (socket_new ip (from_be port), body).
Fixpoint take_endpoints (count : nat) (body : list byte) : presult (list SocketAddr * list byte) :=
  match count with
  | O => Ok ([], body)
  | S count' =>
      '(endpoint, body) ← take_endpoint body;
      '(endpoints, body) ← take_endpoints count' body;
      Ok (endpoint :: endpoints, body)
  end.

Definition decode_candidates (body : list byte) : presult (Message * list byte) :=
  match body with
  | [] => Err InvalidPacket
  | count :: body =>
      if MAX_CANDIDATES <? u8 count then Err InvalidPacket else
      '(candidates, body) ← take_endpoints (N.to_nat (u8 count)) body;
      _ ← validate_candidates candidates;
      Ok (Candidates candidates, body)
  end.
Definition decode_gateway (probe : bool) (generation : N) (body : list byte) : presult (Message * list byte) :=
  '(id, body) ← take_n 16 body;
  let id := from_be id in
  if gateway_refused id generation then Err InvalidPacket else
  if probe then Ok (GatewayProbe id, body) else
  '(ready, body) ← take_n 1 body;
  if from_be ready =? 0 then Ok (GatewayAck id false, body)
  else if from_be ready =? 1 then Ok (GatewayAck id true, body)
  else Err InvalidPacket.
Definition decode_padding (body : list byte) : presult (Message * list byte) :=
  if negb (lenN body =? 0) && forallb (fun b => u8 b =? 0) body then
    if U16_MAX <? lenN body then Err InvalidPacket else Ok (MtuProbe (lenN body), [])
  else Err InvalidPacket.

Definition decode_message (kind generation : N) (body : list byte) : presult (Message * list byte) :=
  if kind =? 1 then decode_candidates body
  else if kind =? 2 then Ok (CandidatesAck, body)
  else if kind =? 3 then Ok (Probe, body)
  else if kind =? 4 then Ok (ProbeAck, body)
  else if (kind =? 6) || (kind =? 7) then decode_gateway (kind =? 6) generation body
  else if kind =? 5 then decode_padding body
  else Err InvalidPacket.

Definition decode (bytes : list byte) : presult Coordination :=
  if (lenN bytes <? HEADER) || (HEADER + MAX_PROBE_PADDING <? lenN bytes) then Err InvalidPacket else
  version ← index bytes 0;
  reserved ← slice bytes 2 4;
  if negb (u8 version =? 1) || negb (bool_decide (reserved = [x00; x00])) then Err InvalidPacket else
  generation ← slice bytes 4 12;
  transaction ← slice bytes 12 28;
  body ← slice_from bytes HEADER;
  kind ← index bytes 1;
  '(message, body) ← decode_message (u8 kind) (from_be generation) body;
  if negb (lenN body =? 0) then Err InvalidPacket else
  Ok (mkCoordination (from_be generation) transaction message).
End codec.

(** ** The encrypted IP channel *)

(** The sum of [bytes.chunks(2)], its folding and its complement. *)
Definition checksum {E} (bytes : list byte) : outcome E N :=
  sum ← Pkt.checksum_words 0 bytes;
  sum ← expect (Pkt.fold_carries Pkt.FOLD_FUEL sum);
  if sum <=? U16_MAX then Ok (U16_MAX - sum) else Panic.

Definition ipv4_header (udp_len source destination sum : N) : list byte :=
  byte_of 0x45 :: x00 :: to_be 2 (udp_len + 20) ++ [x00; x00; x00; x00; byte_of 64; byte_of 17]
  ++ to_be 2 sum ++ v4_octets source ++ v4_octets destination.
Definition ipv6_header (udp_len source destination : N) : list byte :=
  byte_of 0x60 :: x00 :: x00 :: x00 :: to_be 2 udp_len ++ [byte_of 17; byte_of 64]
  ++ v6_octets source ++ v6_octets destination.
Definition udp_datagram (udp_len sum : N) (body : list byte) : list byte :=
  to_be 2 PORT ++ to_be 2 PORT ++ to_be 2 udp_len ++ to_be 2 sum ++ body.

(** The network header, and the pseudo-header of the UDP checksum. *)
Definition encode_headers (source destination : IpAddr) (udp_len : N) : presult (list byte * list byte) :=
  match source, destination with
  | V4 s, V4 d =>
      if U16_MAX <? udp_len + 20 then Panic else
      sum ← checksum (ipv4_header udp_len s d 0);
      Ok (ipv4_header udp_len s d sum, v4_octets s ++ v4_octets d ++ [x00; byte_of 17] ++ to_be 2 udp_len)
  | V6 s, V6 d =>
      Ok (ipv6_header udp_len s d, v6_octets s ++ v6_octets d ++ to_be 4 udp_len ++ [x00; x00; x00; byte_of 17])
  | _, _ => Err NoRoute
  end.

Section channel.
Context `{UuidLib}.

Definition encode_ip (source destination : IpAddr) (coordination : Coordination) : presult (list byte) :=
  body ← encode coordination;
  let udp_len := lenN body + 8 in
  if U16_MAX <? udp_len then Err InvalidPacket else
  '(packet, pseudo) ← encode_headers source destination udp_len;
  sum ← checksum (pseudo ++ udp_datagram udp_len 0 body);
  Ok (packet ++ udp_datagram udp_len (if sum =? 0 then U16_MAX else sum) body).

(** The length of the network header: no options, no extension headers. *)
Definition header_len (packet : list byte) : presult N :=
  match packet with
  | b0 :: _ =>
      if u8 b0 =? 0x45 then Ok 20
      else if (u8 b0 =? 0x60) && bool_decide (packet !! 6%nat = Some (byte_of 17)) then Ok 40
      else Err InvalidPacket
  | [] => Err InvalidPacket
  end.
Definition decode_ip (packet : list byte) : presult Coordination :=
  parsed ← map_err (fun _ => InvalidPacket) (Pkt.parse_packet packet);
  header ← header_len packet;
  if negb (Pkt.protocol parsed =? 17)
     || negb (bool_decide (Pkt.source_port parsed = Some PORT))
     || negb (bool_decide (Pkt.destination_port parsed = Some PORT))
     || bool_decide (is_Some (Pkt.fragment parsed))
  then Err InvalidPacket else
  match get_slice packet (header + 8) (lenN packet) with
  | Some body => decode body
  | None => Err InvalidPacket
  end.
End channel.

(** ** Candidates *)

Lemma any_refused_false u l :
  any_refused u l = false <-> Forall (fun e => valid_endpoint e = true) l /\ NoDup l /\ forall e, e ∈ l -> e ∉ u.
Proof.
  revert u. induction l as [|c l IH]; intros u; cbn [any_refused].
  { split; [intros _; split; [constructor|]; split; [constructor|]; by intros e ?%not_elem_of_nil|done]. }
  rewrite !orb_false_iff, negb_false_iff, bool_decide_eq_false, IH, Forall_cons, NoDup_cons. split.
  - intros ((Hv & Hu) & Hf & Hn & Hd). split; [done|]. split; [split; [|done]|].
    + intros Hin. apply (Hd c Hin). set_solver.
    + intros e [->|He]%elem_of_cons; [done|]. intros Heu. apply (Hd e He). set_solver.
  - intros ((Hv & Hf) & (Hc & Hn) & Hd). split; [split; [done|apply Hd; by left]|]. split; [done|]. split; [done|].
    intros e He [->%elem_of_singleton|Heu]%elem_of_union; [done|]. apply (Hd e); [by right|done].
Qed.

Record candidates_ok (l : list SocketAddr) : Prop := {
  co_len : lenN l <= MAX_CANDIDATES;
  co_valid : Forall (fun e => valid_endpoint e = true) l;
  co_unique : NoDup l;
}.
Lemma validate_candidates_Ok l : validate_candidates l = Ok tt <-> candidates_ok l.
Proof.
  unfold validate_candidates. destruct (N.ltb_spec MAX_CANDIDATES (lenN l)) as [Hl|Hl]; cbn [orb].
  { split; [done|]. intros [Hc _ _]. lia. }
  destruct (any_refused ∅ l) eqn:Ha.
  - split; [done|]. intros [_ Hv Hn]. enough (any_refused ∅ l = false) by congruence.
    apply any_refused_false. split; [done|]. split; [done|set_solver].
  - apply any_refused_false in Ha as (Hv & Hn & _). by split.
Qed.
Lemma no_panic_validate_candidates l : no_panic (validate_candidates l).
Proof. unfold validate_candidates. by case_match. Qed.

Lemma retain_valid_spec u l :
  Forall (fun e => valid_endpoint e = true) (retain_valid u l) /\ NoDup (retain_valid u l) /\
  forall e, e ∈ retain_valid u l <-> e ∈ l /\ valid_endpoint e = true /\ e ∉ u.
Proof.
  revert u. induction l as [|c l IH]; intros u; cbn [retain_valid].
  { split; [constructor|]. split; [constructor|]. intros e. rewrite elem_of_nil. naive_solver. }
  destruct (valid_endpoint c) eqn:Hv; cbn [andb].
  - case_bool_decide as Hu; cbn [negb].
    + destruct (IH u) as (Hf & Hn & He). split; [done|]. split; [done|]. intros e. rewrite He, elem_of_cons. naive_solver.
    + destruct (IH ({[c]} ∪ u)) as (Hf & Hn & He). split; [by constructor|]. split.
      * constructor; [|done]. rewrite He. set_solver.
      * intros e. rewrite !elem_of_cons, He. destruct (decide (e = c)) as [->|Hne]; [naive_solver|]. set_solver.
  - destruct (IH u) as (Hf & Hn & He). split; [done|]. split; [done|]. intros e. rewrite He, elem_of_cons.
    split; [naive_solver|]. intros ([->|?] & ? & ?); [congruence|done].
Qed.

(** ** The codec is exact *)

(** An endpoint whose fields have their widths and that has no IPv6 flow label,
    which the encoding does not carry. *)
Definition endpoint_ok (e : SocketAddr) : Prop :=
  IpAddr_wf (socket_ip e) /\ socket_port e < 2 ^ 16 /\ e = socket_new (socket_ip e) (socket_port e).
Definition message_wf (m : Message) : Prop :=
  match m with
  | Candidates l => Forall endpoint_ok l
  | GatewayProbe id | GatewayAck id _ => id < 2 ^ 128
  | _ => True
  end.
Record coordination_ok (c : Coordination) : Prop := {
  ok_generation : generation c <= U64_MAX;
  ok_transaction : lenN (transaction c) = 16;
  ok_message : message_wf (message c);
}.

Lemma get_slice_0 bs n v : get_slice bs 0 n = Some v <-> n <= lenN bs /\ v = take (N.to_nat n) bs.
Proof.
  unfold get_slice. rewrite N.sub_0_r. change (N.to_nat 0) with 0%nat. rewrite drop_0.
  rewrite (proj2 (N.leb_le 0 n)) by lia. destruct (N.leb_spec n (lenN bs)); cbn; naive_solver lia.
Qed.
Lemma take_n_Ok n body v r : take_n n body = Ok (v, r) <-> body = v ++ r /\ lenN v = n.
Proof.
  unfold take_n. destruct (get_slice body 0 n) as [w|] eqn:Hg.
  - apply get_slice_0 in Hg as [Hn ->]. split.
    + intros [= <- <-]. split; [by rewrite take_drop|]. rewrite lenN_take. lia.
    + intros [-> Hl]. unfold lenN in *. replace (N.to_nat n) with (length v) by lia. by rewrite take_app_length, drop_app_length.
  - split; [done|]. intros [-> Hl]. exfalso. assert (Hx : get_slice (v ++ r) 0 n = Some (take (N.to_nat n) (v ++ r))).
    { apply get_slice_0. rewrite lenN_app. split; [lia|done]. }
    congruence.
Qed.
Lemma take_n_app n v r : lenN v = n -> take_n n (v ++ r) = Ok (v, r).
Proof. intros Hl. by apply take_n_Ok. Qed.
Lemma lenN_one (l : list byte) : lenN l = 1 -> exists b, l = [b].
Proof. destruct l as [|b [|]]; unfold lenN; cbn; intros; try lia. by exists b. Qed.

Definition encode_address (a : IpAddr) : list byte :=
  match a with V4 ip => byte_of 4 :: v4_octets ip | V6 ip => byte_of 6 :: v6_octets ip end.
Lemma take_address_Ok body a r : take_address body = Ok (a, r) <-> IpAddr_wf a /\ body = encode_address a ++ r.
Proof.
  unfold take_address. split.
  - intros ([f b1] & (-> & (b & ->)%lenN_one)%take_n_Ok & Hr)%bind_Ok. cbn [from_be foldl] in Hr.
    change (from_be [b]) with (0 * 256 + u8 b) in Hr. rewrite N.mul_0_l, N.add_0_l in Hr. cbn [app].
    destruct (N.eqb_spec (u8 b) 4) as [Hb|_]; [|destruct (N.eqb_spec (u8 b) 6) as [Hb|_]; [|done]].
    + apply bind_Ok in Hr as ([o b2] & (-> & Hl)%take_n_Ok & Hr). injection Hr as <- <-.
      pose proof (from_be_lt o) as Hlt. rewrite Hl in Hlt. split; [exact Hlt|]. cbn [encode_address]. unfold v4_octets.
      rewrite to_be_from_be' by (unfold lenN in Hl; lia). rewrite <-Hb, byte_of_u8. done.
    + apply bind_Ok in Hr as ([o b2] & (-> & Hl)%take_n_Ok & Hr). injection Hr as <- <-.
      pose proof (from_be_lt o) as Hlt. rewrite Hl in Hlt. split; [exact Hlt|]. cbn [encode_address]. unfold v6_octets.
      rewrite to_be_from_be' by (unfold lenN in Hl; lia). rewrite <-Hb, byte_of_u8. done.
  - intros [Hwf ->]. destruct a as [n|n]; cbn [encode_address app].
    + change (byte_of 4 :: v4_octets n ++ r) with ([byte_of 4] ++ v4_octets n ++ r). rewrite take_n_app by done. cbn [mbind outcome_bind].
      change (from_be [byte_of 4] =? 4) with true. cbn [fst snd]. rewrite take_n_app by (apply lenN_to_be). cbn [mbind outcome_bind fst snd].
      unfold v4_octets. by rewrite from_be_to_be.
    + change (byte_of 6 :: v6_octets n ++ r) with ([byte_of 6] ++ v6_octets n ++ r). rewrite take_n_app by done. cbn [mbind outcome_bind].
      change (from_be [byte_of 6] =? 4) with false. change (from_be [byte_of 6] =? 6) with true. cbn [fst snd].
      rewrite take_n_app by (apply lenN_to_be). cbn [mbind outcome_bind fst snd].
      unfold v6_octets. by rewrite from_be_to_be.
Qed.
Lemma socket_ip_new a p : socket_ip (socket_new a p) = a.
Proof. by destruct a. Qed.
Lemma socket_port_new a p : socket_port (socket_new a p) = p.
Proof. by destruct a. Qed.
Lemma encode_endpoint_address e : encode_endpoint e = encode_address (socket_ip e) ++ to_be 2 (socket_port e).
Proof. unfold encode_endpoint. by destruct (socket_ip e). Qed.
Lemma take_endpoint_Ok body e r : take_endpoint body = Ok (e, r) <-> endpoint_ok e /\ body = encode_endpoint e ++ r.
Proof.
  unfold take_endpoint. rewrite encode_endpoint_address, <-app_assoc. split.
  - intros ([a b1] & (Hwf & ->)%take_address_Ok & ([p b2] & (-> & Hl)%take_n_Ok & [= <- <-])%bind_Ok)%bind_Ok.
    pose proof (from_be_lt p) as Hlt. rewrite Hl in Hlt. unfold endpoint_ok. rewrite socket_ip_new, socket_port_new.
    split; [done|]. rewrite to_be_from_be' by (unfold lenN in Hl; lia). done.
  - intros ((Hwf & Hp & He) & ->). rewrite (proj2 (take_address_Ok _ _ _) (conj Hwf eq_refl)). cbn [mbind outcome_bind].
    rewrite take_n_app by (apply lenN_to_be). cbn [mbind outcome_bind]. rewrite from_be_to_be by done. by rewrite <-He.
Qed.
Lemma take_endpoints_Ok n body l r :
  take_endpoints n body = Ok (l, r) <-> length l = n /\ Forall endpoint_ok l /\ body = concat (encode_endpoint <$> l) ++ r.
Proof.
  revert body l r. induction n as [|n IH]; intros body l r; cbn [take_endpoints].
  { split; [intros [= <- <-]; by split_and!|]. intros (Hl & _ & ->). by destruct l. }
  split.
  - intros ([e b1] & (He & ->)%take_endpoint_Ok & ([k b2] & (Hk & Hf & ->)%IH & [= <- <-])%bind_Ok)%bind_Ok.
    split; [cbn; by rewrite Hk|]. split; [by constructor|]. cbn. by rewrite <-app_assoc.
  - intros (Hl & Hf & ->). destruct l as [|e l]; [done|]. apply Forall_cons in Hf as [He Hf].
    rewrite fmap_cons. cbn [concat]. rewrite <-app_assoc, (proj2 (take_endpoint_Ok _ _ _) (conj He eq_refl)). cbn [mbind outcome_bind].
    rewrite (proj2 (IH _ l r)); [done|]. split; [by injection Hl|done].
Qed.

Section exact.
Context `{UuidLib}.

(** What may be sent, and the bytes after the header. *)
Definition sendable (generation : N) (m : Message) : Prop :=
  match m with
  | Candidates l => candidates_ok l
  | MtuProbe padding => 0 < padding /\ padding <= MAX_PROBE_PADDING
  | GatewayProbe id | GatewayAck id _ => uuid_version_random id = true /\ generation <> 0
  | _ => True
  end.
Definition message_body (m : Message) : list byte :=
  match m with
  | Candidates l => byte_of (lenN l) :: concat (encode_endpoint <$> l)
  | MtuProbe padding => replicate (N.to_nat padding) x00
  | GatewayProbe id => to_be 16 id
  | GatewayAck id ready => to_be 16 id ++ [byte_of (if ready then 1 else 0)]
  | _ => []
  end.
Definition header (c : Coordination) : list byte :=
  [byte_of 1; byte_of (kind (message c)); x00; x00] ++ to_be 8 (generation c) ++ transaction c.

Lemma lenN_header c : lenN (transaction c) = 16 -> lenN (header c) = HEADER.
Proof. intros Ht. unfold header. rewrite !lenN_app, lenN_to_be, Ht. done. Qed.
Lemma gateway_refused_false id g : gateway_refused id g = false <-> uuid_version_random id = true /\ g <> 0.
Proof. unfold gateway_refused. rewrite orb_false_iff, negb_false_iff, N.eqb_neq. done. Qed.
Lemma lenN_replicate {A} n (x : A) : lenN (replicate n x) = N.of_nat n.
Proof. unfold lenN. by rewrite length_replicate. Qed.

Lemma encode_Ok c bytes : lenN (transaction c) = 16 ->
  encode c = Ok bytes <-> sendable (generation c) (message c) /\ bytes = header c ++ message_body (message c).
Proof.
  intros Ht. unfold encode.
  change (byte_of 1 :: byte_of (kind (message c)) :: x00 :: x00 :: to_be 8 (generation c) ++ transaction c) with (header c).
  pose proof (lenN_header c Ht) as Hh. destruct (message c) as [l| | | |p|id|id ready]; cbn [sendable message_body].
  - destruct (validate_candidates l) as [[]|e|] eqn:Hv; cbn [mbind outcome_bind].
    + apply validate_candidates_Ok in Hv. pose proof (co_len _ Hv) as Hl. unfold MAX_CANDIDATES, U8_MAX in *.
      destruct (N.ltb_spec 255 (lenN l)); [lia|]. naive_solver.
    + split; [done|]. intros [Hc%validate_candidates_Ok _]. congruence.
    + split; [done|]. intros [Hc%validate_candidates_Ok _]. congruence.
  - rewrite app_nil_r. naive_solver.
  - rewrite app_nil_r. naive_solver.
  - rewrite app_nil_r. naive_solver.
  - rewrite Hh. replace (HEADER + p - HEADER) with p by lia.
    destruct (N.eqb_spec p 0) as [->|]; [split; [done|lia]|]. cbn [orb].
    destruct (N.ltb_spec MAX_PROBE_PADDING p); [split; [done|lia]|]. split; [intros [= <-]; split; [lia|done]|by intros [_ ->]].
  - destruct (gateway_refused id (generation c)) eqn:Hg; [|apply gateway_refused_false in Hg; naive_solver].
    split; [done|]. intros [Hx%gateway_refused_false _]. congruence.
  - destruct (gateway_refused id (generation c)) eqn:Hg; [|apply gateway_refused_false in Hg; naive_solver].
    split; [done|]. intros [Hx%gateway_refused_false _]. congruence.
Qed.
Lemma no_panic_encode c : no_panic (encode c).
Proof. unfold encode. case_match; panic_free. apply no_panic_validate_candidates. Qed.

Lemma decode_candidates_Ok g body m r : decode_candidates body = Ok (m, r) <->
  exists l, m = Candidates l /\ message_wf m /\ sendable g m /\ body = message_body m ++ r.
Proof.
  unfold decode_candidates. destruct body as [|b body].
  { split; [done|]. intros (l & -> & _ & _ & Hb). by cbn in Hb. }
  split.
  - destruct (N.ltb_spec MAX_CANDIDATES (u8 b)) as [|Hb]; [done|].
    intros ([l b1] & (Hl & Hf & ->)%take_endpoints_Ok & ([] & Hc%validate_candidates_Ok & [= <- <-])%bind_Ok)%bind_Ok.
    exists l. split; [done|]. split; [done|]. split; [done|]. cbn [message_body app].
    assert (lenN l = u8 b) as -> by (unfold lenN; lia). by rewrite byte_of_u8.
  - intros (l & -> & Hf & Hc & Hb). cbn [message_body app] in Hb. injection Hb as -> ->. cbn [message_wf sendable] in Hf, Hc.
    pose proof (co_len _ Hc) as Hl. rewrite u8_byte_of, N.mod_small by (unfold MAX_CANDIDATES in Hl; lia).
    destruct (N.ltb_spec MAX_CANDIDATES (lenN l)); [lia|].
    rewrite (proj2 (take_endpoints_Ok _ _ l r)) by (split; [unfold lenN; lia|done]). cbn [mbind outcome_bind].
    by rewrite (proj2 (validate_candidates_Ok l) Hc).
Qed.
Lemma decode_gateway_Ok probe g body m r : decode_gateway probe g body = Ok (m, r) <->
  (exists id, (if probe then m = GatewayProbe id else exists ready, m = GatewayAck id ready)) /\
  message_wf m /\ sendable g m /\ body = message_body m ++ r.
Proof.
  unfold decode_gateway. split.
  - intros ([ib b1] & (-> & Hl)%take_n_Ok & Hr)%bind_Ok. pose proof (from_be_lt ib) as Hlt. rewrite Hl in Hlt.
    destruct (gateway_refused (from_be ib) g) eqn:Hg; [done|]. apply gateway_refused_false in Hg.
    assert (Hid : to_be 16 (from_be ib) = ib) by (apply to_be_from_be'; unfold lenN in Hl; lia).
    destruct probe.
    + injection Hr as <- <-. split; [by exists (from_be ib)|]. split; [done|]. split; [done|]. cbn [message_body]. by rewrite Hid.
    + apply bind_Ok in Hr as ([rb b2] & (-> & (b & ->)%lenN_one)%take_n_Ok & Hr).
      change (from_be [b]) with (0 * 256 + u8 b) in Hr. rewrite N.mul_0_l, N.add_0_l in Hr.
      destruct (N.eqb_spec (u8 b) 0) as [Hb|_]; [|destruct (N.eqb_spec (u8 b) 1) as [Hb|_]; [|done]]; injection Hr as <- <-.
      all: split; [exists (from_be ib); by eexists|]; split; [done|]; split; [done|]; cbn [message_body].
      all: by rewrite Hid, <-Hb, byte_of_u8, <-app_assoc.
  - intros ((id & Hm) & Hwf & Hs & ->). destruct probe.
    + subst m. cbn [message_body message_wf sendable] in *. rewrite take_n_app by (apply lenN_to_be). cbn [mbind outcome_bind].
      rewrite from_be_to_be by done. by rewrite (proj2 (gateway_refused_false id g) Hs).
    + destruct Hm as (ready & ->). cbn [message_body message_wf sendable] in *. rewrite <-app_assoc, take_n_app by (apply lenN_to_be).
      cbn [mbind outcome_bind]. rewrite from_be_to_be by done. rewrite (proj2 (gateway_refused_false id g) Hs).
      rewrite take_n_app by done. cbn [mbind outcome_bind]. by destruct ready.
Qed.
Lemma zeros_replicate l : forallb (fun b => u8 b =? 0) l = true -> l = replicate (length l) x00.
Proof.
  induction l as [|b l IH]; [done|]. cbn [forallb]. rewrite andb_true_iff, N.eqb_eq. intros [Hb Hl]. cbn. rewrite <-(IH Hl).
  f_equal. by apply u8_inj.
Qed.
Lemma forallb_zeros n : forallb (fun b => u8 b =? 0) (replicate n x00) = true.
Proof. by induction n. Qed.
Lemma decode_padding_Ok body m r : lenN body <= MAX_PROBE_PADDING -> decode_padding body = Ok (m, r) <->
  exists p, m = MtuProbe p /\ 0 < p /\ p <= MAX_PROBE_PADDING /\ r = [] /\ body = message_body m.
Proof.
  unfold decode_padding, MAX_PROBE_PADDING, U16_MAX. intros Hl. split.
  - destruct (N.eqb_spec (lenN body) 0) as [|Hne]; [done|]. cbn [negb andb].
    destruct (forallb _ body) eqn:Hz; [|done]. destruct (N.ltb_spec 0xffff (lenN body)); [done|]. intros [= <- <-].
    exists (lenN body). split; [done|]. split; [lia|]. split; [lia|]. split; [done|]. cbn [message_body].
    apply zeros_replicate in Hz. unfold lenN. by rewrite Nat2N.id.
  - intros (p & -> & Hp & Hp2 & -> & ->). cbn [message_body] in *. rewrite lenN_replicate, N2Nat.id, forallb_zeros.
    destruct (N.eqb_spec p 0); [lia|]. cbn [negb andb]. by destruct (N.ltb_spec 0xffff p); [lia|].
Qed.

Lemma decode_message_Ok k g body m : lenN body <= MAX_PROBE_PADDING ->
  decode_message k g body = Ok (m, []) <-> k = kind m /\ message_wf m /\ sendable g m /\ body = message_body m.
Proof.
  intros Hl. unfold decode_message.
  destruct (N.eqb_spec k 1) as [->|H1].
  { rewrite (decode_candidates_Ok g). setoid_rewrite app_nil_r. split; [intros (l & -> & ?); done|].
    intros (Hk & ? & ? & ?). destruct m; try done. by eexists. }
  destruct (N.eqb_spec k 2) as [->|H2].
  { split; [intros [= <- ->]; done|]. intros (Hk & _ & _ & ->). by destruct m. }
  destruct (N.eqb_spec k 3) as [->|H3].
  { split; [intros [= <- ->]; done|]. intros (Hk & _ & _ & ->). by destruct m. }
  destruct (N.eqb_spec k 4) as [->|H4].
  { split; [intros [= <- ->]; done|]. intros (Hk & _ & _ & ->). by destruct m. }
  destruct (N.eqb_spec k 6) as [->|H6]; cbn [orb].
  { rewrite decode_gateway_Ok, app_nil_r. split; [intros ((id & ->) & ?); done|].
    intros (Hk & ? & ? & ?). destruct m; try done. by split; [eexists|]. }
  destruct (N.eqb_spec k 7) as [->|H7].
  { rewrite decode_gateway_Ok, app_nil_r. split; [intros ((id & ready & ->) & ?); done|].
    intros (Hk & ? & ? & ?). destruct m; try done. split; [by eexists; eexists|done]. }
  destruct (N.eqb_spec k 5) as [->|H5].
  { rewrite decode_padding_Ok by done. split; [intros (p & -> & ? & ? & _ & ?); done|].
    intros (Hk & ? & Hs & ?). destruct m; try done. destruct Hs as [? ?]. eexists. by split_and!. }
  split; [done|]. intros (-> & _). by destruct m.
Qed.

Lemma decode_parts b0 b1 b2 b3 g t body : lenN g = 8 -> lenN t = 16 -> lenN body <= MAX_PROBE_PADDING ->
  decode ([b0; b1; b2; b3] ++ g ++ t ++ body) =
    if negb (u8 b0 =? 1) || negb (bool_decide ([b2; b3] = [x00; x00])) then Err InvalidPacket else
    '(m, rest) ← decode_message (u8 b1) (from_be g) body;
    if negb (lenN rest =? 0) then Err InvalidPacket else Ok (mkCoordination (from_be g) t m).
Proof.
  intros Hg Ht Hb. unfold decode. set (bytes := [b0; b1; b2; b3] ++ g ++ t ++ body).
  assert (Hl : lenN bytes = HEADER + lenN body).
  { unfold bytes. rewrite !lenN_app, Hg, Ht. change (lenN [b0; b1; b2; b3]) with 4. unfold HEADER. lia. }
  rewrite Hl. destruct (N.ltb_spec (HEADER + lenN body) HEADER); [lia|].
  destruct (N.ltb_spec (HEADER + MAX_PROBE_PADDING) (HEADER + lenN body)); [lia|]. cbn [orb].
  change (index bytes 0) with (@Ok PeerError _ b0). change (index bytes 1) with (@Ok PeerError _ b1). cbn [mbind outcome_bind].
  assert (slice bytes 2 4 = Ok [b2; b3]) as ->.
  { apply (slice_app [b0; b1] [b2; b3] (g ++ t ++ body)); done. }
  assert (slice bytes 4 12 = Ok g) as ->.
  { apply (slice_app [b0; b1; b2; b3] g (t ++ body)); [done|]. by rewrite Hg. }
  assert (slice bytes 12 28 = Ok t) as ->.
  { unfold bytes. rewrite (app_assoc _ g). apply slice_app; rewrite lenN_app, Hg, ?Ht; done. }
  assert (slice_from bytes HEADER = Ok body) as ->.
  { apply slice_from_Ok. rewrite Hl. split; [lia|]. unfold bytes. rewrite !app_assoc. symmetry. apply drop_app_length'.
    rewrite !length_app. unfold lenN, HEADER in *. cbn [length]. lia. }
  by cbn [mbind outcome_bind].
Qed.
Lemma parts_of (bytes : list byte) : HEADER <= lenN bytes -> exists (b0 b1 b2 b3 : byte) (g t body : list byte),
  bytes = [b0; b1; b2; b3] ++ g ++ t ++ body /\ lenN g = 8 /\ lenN t = 16.
Proof.
  unfold HEADER. intros Hl. destruct bytes as [|b0 [|b1 [|b2 [|b3 rest]]]]; rewrite ?lenN_cons, ?lenN_nil in Hl; try lia.
  exists b0, b1, b2, b3, (take 8 rest), (take 16 (drop 8 rest)), (drop 16 (drop 8 rest)).
  rewrite !take_drop. split; [done|]. unfold lenN in *. rewrite !length_take, length_drop. lia.
Qed.

Lemma lenN_endpoint e : lenN (encode_endpoint e) <= 19.
Proof. rewrite encode_endpoint_address, lenN_app. destruct (socket_ip e); cbn [encode_address]; rewrite lenN_cons; unfold v4_octets, v6_octets; rewrite !lenN_to_be; lia. Qed.
Lemma lenN_endpoints l : lenN (concat (encode_endpoint <$> l)) <= 19 * lenN l.
Proof. induction l as [|e l IH]; [done|]. rewrite fmap_cons. cbn [concat]. rewrite lenN_app, lenN_cons. pose proof (lenN_endpoint e). lia. Qed.
Lemma lenN_message_body g m : sendable g m -> lenN (message_body m) <= MAX_PROBE_PADDING.
Proof.
  unfold MAX_PROBE_PADDING. destruct m as [l| | | |p|id|id ready]; cbn [sendable message_body]; intros Hs;
    rewrite ?lenN_cons, ?lenN_app, ?lenN_to_be, ?lenN_replicate; try (unfold lenN; cbn; lia).
  - pose proof (lenN_endpoints l). pose proof (co_len _ Hs) as Hl. unfold MAX_CANDIDATES in Hl. lia.
  - unfold MAX_PROBE_PADDING in Hs. lia.
Qed.

Lemma kind_lt m : kind m < 256.
Proof. by destruct m. Qed.
Lemma decode_encode c bytes : coordination_ok c -> encode c = Ok bytes -> decode bytes = Ok c.
Proof.
  intros [Hg Ht Hm] (Hs & ->)%encode_Ok; [|done]. unfold header. rewrite <-!app_assoc.
  rewrite decode_parts; [|by rewrite lenN_to_be|done|by eapply lenN_message_body].
  change (u8 (byte_of 1) =? 1) with true. rewrite bool_decide_eq_true_2 by done. cbn [negb orb].
  rewrite u8_byte_of, (N.mod_small _ _ (kind_lt _)), from_be_to_be by (by apply be8_width).
  rewrite (proj2 (decode_message_Ok _ _ _ _ (lenN_message_body _ _ Hs))) by done. cbn [mbind outcome_bind]. by destruct c.
Qed.
Lemma decode_Ok bytes c : decode bytes = Ok c -> coordination_ok c /\ encode c = Ok bytes.
Proof.
  intros Hd. assert (HEADER <= lenN bytes /\ lenN bytes <= HEADER + MAX_PROBE_PADDING) as [Hl1 Hl2].
  { unfold decode in Hd. destruct (_ || _) eqn:Hb; [done|]. breflect. lia. }
  destruct (parts_of bytes Hl1) as (b0 & b1 & b2 & b3 & g & t & body & -> & Hg & Ht).
  assert (Hb : lenN body <= MAX_PROBE_PADDING).
  { rewrite !lenN_app, Hg, Ht in Hl2. change (lenN [b0; b1; b2; b3]) with 4 in Hl2. unfold HEADER in Hl2. lia. }
  rewrite decode_parts in Hd by done. destruct (_ || _) eqn:Ho; [done|].
  apply orb_false_iff in Ho as [H0%negb_false_iff%N.eqb_eq H23%negb_false_iff%bool_decide_eq_true]. injection H23 as -> ->.
  apply bind_Ok in Hd as ([m r] & Hm & Hd). destruct (N.eqb_spec (lenN r) 0) as [Hr|]; [|done].
  injection Hd as <-. destruct r; [|by rewrite lenN_cons in Hr; lia].
  apply decode_message_Ok in Hm as (Hk & Hwf & Hs & ->); [|done]. pose proof (from_be_lt g) as Hlt. rewrite Hg in Hlt.
  split.
  - split; cbn; [|done|done]. unfold U64_MAX. change (256 ^ 8) with (0xffff_ffff_ffff_ffff + 1) in Hlt. lia.
  - apply encode_Ok; [done|]. split; [done|]. unfold header. cbn [message generation transaction].
    rewrite <-Hk, byte_of_u8, <-H0, byte_of_u8, to_be_from_be' by (unfold lenN in Hg; lia). by rewrite <-!app_assoc.
Qed.

Lemma no_panic_take_n n body : no_panic (take_n n body).
Proof. unfold take_n. by case_match. Qed.
Lemma no_panic_take_endpoint body : no_panic (take_endpoint body).
Proof. unfold take_endpoint, take_address. panic_free; apply no_panic_take_n. Qed.
Lemma no_panic_take_endpoints n body : no_panic (take_endpoints n body).
Proof. revert body. induction n as [|n IH]; intros body; cbn [take_endpoints]; panic_free; apply no_panic_take_endpoint. Qed.
Lemma no_panic_decode_message k g body : no_panic (decode_message k g body).
Proof.
  unfold decode_message, decode_candidates, decode_gateway, decode_padding. panic_free; try apply no_panic_take_n.
  - apply no_panic_take_endpoints.
  - apply no_panic_validate_candidates.
Qed.
Lemma no_panic_decode bytes : no_panic (decode bytes).
Proof.
  unfold decode, HEADER. panic_free. apply no_panic_decode_message.
Qed.
End exact.

(** ** The channel: what is sent is what the strict parser accepts *)

Lemma words_sum_app (x y : list byte) : Nat.Even (length x) -> Pkt.words_sum (x ++ y) = Pkt.words_sum x + Pkt.words_sum y.
Proof.
  induction x as [|a|a b x IH] using list_pair_ind; intros Hx; [done|by destruct Hx as [k Hk]; cbn in Hk; lia|].
  cbn [app Pkt.words_sum]. rewrite IH; [lia|]. destruct Hx as [k Hk]. exists (k - 1)%nat. cbn in Hk. lia.
Qed.
Lemma words_sum_be2 v : v < 0x1_0000 -> Pkt.words_sum (to_be 2 v) = v.
Proof.
  intros Hv. pose proof (from_be_to_be 2 v Hv) as Hr. pose proof (length_to_be 2 v) as Hl.
  destruct (to_be 2 v) as [|a [|b [|]]]; try done. cbn [Pkt.words_sum]. unfold u16_be. lia.
Qed.
Lemma to_be_4_small v : v < 0x1_0000 -> to_be 4 v = [x00; x00] ++ to_be 2 v.
Proof.
  intros Hv. apply from_be_inj; [by rewrite length_app, !length_to_be|]. rewrite from_be_app, !from_be_to_be; [done|done|].
  eapply N.lt_le_trans; [exact Hv|by vm_compute].
Qed.
Lemma words_sum_be4 v : v < 0x1_0000 -> Pkt.words_sum (to_be 4 v) = v.
Proof. intros Hv. rewrite to_be_4_small by done. cbn [app Pkt.words_sum]. rewrite words_sum_be2 by done. by change (u16_be x00 x00) with 0. Qed.

Lemma checksum_spec bytes : lenN bytes <= 0x1_1000 -> exists ck, checksum (E:=PeerError) bytes = Ok ck /\ ck <= 0xffff /\
  (ck + Pkt.words_sum bytes) mod 0xffff = 0.
Proof.
  intros Hl. change (checksum bytes) with (Pkt.internet_checksum (E:=PeerError) bytes).
  destruct (Pkt.internet_checksum_spec (E:=PeerError) bytes Hl) as (ck & ? & ? & _ & ?). by exists ck.
Qed.

Lemma even_be n v : Nat.Even n -> Nat.Even (length (to_be n v)).
Proof. by rewrite length_to_be. Qed.
Lemma udp_sum udp_len v body : udp_len < 0x1_0000 -> v < 0x1_0000 ->
  Pkt.words_sum (udp_datagram udp_len v body) = PORT + PORT + udp_len + v + Pkt.words_sum body.
Proof.
  intros Hl Hv. unfold udp_datagram. rewrite !words_sum_app by (apply even_be; by exists 1%nat).
  rewrite !words_sum_be2 by (done || unfold PORT; lia). lia.
Qed.
Lemma lenN_udp udp_len v body : lenN (udp_datagram udp_len v body) = lenN body + 8.
Proof. unfold udp_datagram. rewrite !lenN_app, !lenN_to_be. lia. Qed.

(** The stored checksum makes the ones'-complement sum vanish. *)
Lemma stored_checksum ck total : (ck + total) mod 0xffff = 0 -> ((if ck =? 0 then U16_MAX else ck) + total) mod 0xffff = 0.
Proof.
  destruct (N.eqb_spec ck 0) as [->|]; [|done]. rewrite N.add_0_l. intros Ht. change U16_MAX with (1 * 0xffff).
  by rewrite N.add_comm, N.Div0.mod_add.
Qed.
Lemma udp_fields {E} l v body : l < 0x1_0000 -> v < 0x1_0000 ->
  be16_at (E:=E) (udp_datagram l v body) 0 = Ok PORT /\ be16_at (E:=E) (udp_datagram l v body) 2 = Ok PORT /\
  be16_at (E:=E) (udp_datagram l v body) 4 = Ok l /\ be16_at (E:=E) (udp_datagram l v body) 6 = Ok v.
Proof.
  intros Hl Hv. unfold udp_datagram. split_and!.
  - by apply (be16_at_app []).
  - by apply (be16_at_app (to_be 2 PORT)).
  - rewrite (app_assoc (to_be 2 PORT)). by apply be16_at_app.
  - rewrite (app_assoc (to_be 2 PORT)), (app_assoc _ (to_be 2 l)). by apply be16_at_app.
Qed.
Lemma finish_udp_accepts body v src dst : lenN body <= 0x1_0000 - 9 -> 0 < v -> v < 0x1_0000 ->
  Pkt.transport_checksum_ok (udp_datagram (lenN body + 8) v body) src dst Pkt.UDP ->
  Pkt.finish_udp (udp_datagram (lenN body + 8) v body) src dst false = Ok (Some PORT, Some PORT, None, None, None).
Proof.
  intros Hl Hv0 Hv Hok. destruct (udp_fields (E:=Pkt.ParseError) (lenN body + 8) v body) as (H0 & H2 & H4 & H6); [lia|done|].
  unfold Pkt.finish_udp. rewrite !lenN_udp, H0, H2, H4, H6. destruct (N.ltb_spec (lenN body + 8) 8); [lia|].
  cbn [mbind outcome_bind]. destruct (N.ltb_spec (lenN body + 8) 8); [lia|]. rewrite N.eqb_refl. cbn [negb andb orb].
  destruct (N.eqb_spec v 0); [lia|]. rewrite andb_false_r.
  destruct (Pkt.transport_checksum_valid_spec (E:=Pkt.ParseError) (udp_datagram (lenN body + 8) v body) src dst Pkt.UDP) as (b & Hb & Hi);
    [rewrite lenN_udp; lia|done|].
  apply Hi in Hok as ->. rewrite Hb. reflexivity.
Qed.

Definition parsed_udp (src dst : IpAddr) (len : N) : Pkt.ParsedPacket :=
  Pkt.mkParsedPacket src dst 17 (Some PORT) (Some PORT) None None None len None.
Lemma finish_transport_accepts body v src dst len : lenN body <= 0x1_0000 - 9 -> 0 < v -> v < 0x1_0000 ->
  Pkt.transport_checksum_ok (udp_datagram (lenN body + 8) v body) src dst Pkt.UDP ->
  Pkt.finish_transport (udp_datagram (lenN body + 8) v body) src dst 17 None len true = Ok (parsed_udp src dst len).
Proof.
  intros Hl Hv0 Hv Hok. unfold Pkt.finish_transport. change (17 =? Pkt.TCP) with false. change (17 =? Pkt.UDP) with true.
  cbv iota. rewrite finish_udp_accepts by done. reflexivity.
Qed.

Lemma lenN_ipv4_header l s d ck : lenN (ipv4_header l s d ck) = 20.
Proof. unfold ipv4_header, v4_octets. rewrite !lenN_cons, !lenN_app, !lenN_to_be. done. Qed.
Lemma lenN_ipv6_header l s d : lenN (ipv6_header l s d) = 40.
Proof. unfold ipv6_header, v6_octets. rewrite !lenN_cons, !lenN_app, !lenN_to_be. done. Qed.
Lemma ipv4_header_sum l s d ck : l + 20 < 0x1_0000 -> ck < 0x1_0000 ->
  Pkt.words_sum (ipv4_header l s d ck) = ck + Pkt.words_sum (ipv4_header l s d 0).
Proof.
  intros Hl Hc.
  assert (Hx : forall v, v < 0x1_0000 -> Pkt.words_sum (ipv4_header l s d v) =
    v + (Pkt.words_sum ([byte_of 0x45; x00] ++ to_be 2 (l + 20) ++ [x00; x00; x00; x00; byte_of 64; byte_of 17])
         + Pkt.words_sum (v4_octets s ++ v4_octets d))).
  { intros v Hv. change (ipv4_header l s d v)
      with (([byte_of 0x45; x00] ++ to_be 2 (l + 20) ++ [x00; x00; x00; x00; byte_of 64; byte_of 17]) ++ to_be 2 v ++ v4_octets s ++ v4_octets d).
    rewrite words_sum_app by (by exists 5%nat). rewrite (words_sum_app (to_be 2 v)) by (by exists 1%nat).
    rewrite (words_sum_be2 v) by done. lia. }
  rewrite (Hx ck Hc), (Hx 0) by lia. lia.
Qed.

Lemma parse_ipv4_udp s d ck v body : s < 2 ^ 32 -> d < 2 ^ 32 -> lenN body <= 0x1_0000 - 29 -> 0 < v -> v < 0x1_0000 ->
  ck <= 0xffff -> (ck + Pkt.words_sum (ipv4_header (lenN body + 8) s d 0)) mod 0xffff = 0 ->
  Pkt.transport_checksum_ok (udp_datagram (lenN body + 8) v body) (V4 s) (V4 d) Pkt.UDP ->
  Pkt.parse_packet (ipv4_header (lenN body + 8) s d ck ++ udp_datagram (lenN body + 8) v body)
    = Ok (parsed_udp (V4 s) (V4 d) (lenN body + 28)).
Proof.
  intros Hs Hd Hl Hv0 Hv Hck Hsum Hudp. set (l := lenN body + 8) in *. set (udp := udp_datagram l v body) in *.
  change (Pkt.parse_packet (ipv4_header l s d ck ++ udp)) with (Pkt.parse_ipv4 (ipv4_header l s d ck ++ udp) true).
  assert (Hlen : lenN (ipv4_header l s d ck ++ udp) = l + 20) by (rewrite lenN_app, lenN_ipv4_header; unfold udp; rewrite lenN_udp; lia).
  unfold Pkt.parse_ipv4. rewrite Hlen. destruct (N.ltb_spec (l + 20) 20); [lia|].
  change (index (ipv4_header l s d ck ++ udp) 0) with (@Ok Pkt.ParseError _ (byte_of 0x45)). cbn [mbind outcome_bind].
  change (N.land (u8 (byte_of 0x45)) 0x0f * 4) with 20. destruct (N.ltb_spec 20 20); [lia|]. destruct (N.ltb_spec (l + 20) 20); [lia|]. cbn [orb].
  assert (be16_at (E:=Pkt.ParseError) (ipv4_header l s d ck ++ udp) 2 = Ok (l + 20)) as ->.
  { unfold ipv4_header. apply (be16_at_app [byte_of 0x45; x00]); [lia|done]. }
  cbn [mbind outcome_bind]. rewrite N.eqb_refl. destruct (N.ltb_spec (l + 20) 20); [lia|]. cbn [negb orb].
  rewrite slice_here by (by rewrite lenN_ipv4_header). cbn [mbind outcome_bind].
  destruct (Pkt.internet_checksum_spec (E:=Pkt.ParseError) (ipv4_header l s d ck)) as (c & Hc & _ & Hz & _); [rewrite lenN_ipv4_header; lia|].
  unfold Pkt.ipv4_checksum. rewrite Hc. cbn [mbind outcome_bind].
  assert (c = 0) as ->.
  { apply Hz. rewrite ipv4_header_sum by lia. split; [|done]. unfold ipv4_header. cbn [Pkt.words_sum].
    rewrite u16_be_eq. change (u8 (byte_of 0x45)) with 0x45. lia. }
  rewrite N.eqb_refl. cbn [negb].
  assert (slice (E:=Pkt.ParseError) (ipv4_header l s d ck ++ udp) 12 16 = Ok (v4_octets s)) as ->.
  { change (ipv4_header l s d ck ++ udp) with (([byte_of 0x45; x00] ++ to_be 2 (l + 20) ++ [x00; x00; x00; x00; byte_of 64; byte_of 17] ++ to_be 2 ck)
      ++ v4_octets s ++ v4_octets d ++ udp). by apply slice_app. }
  assert (slice (E:=Pkt.ParseError) (ipv4_header l s d ck ++ udp) 16 20 = Ok (v4_octets d)) as ->.
  { change (ipv4_header l s d ck ++ udp) with (([byte_of 0x45; x00] ++ to_be 2 (l + 20) ++ [x00; x00; x00; x00; byte_of 64; byte_of 17] ++ to_be 2 ck
      ++ v4_octets s) ++ v4_octets d ++ udp). by apply slice_app. }
  cbn [mbind outcome_bind].
  change (be16_at (ipv4_header l s d ck ++ udp) 6) with (@Ok Pkt.ParseError _ 0).
  change (be16_at (ipv4_header l s d ck ++ udp) 4) with (@Ok Pkt.ParseError _ 0).
  change (index (ipv4_header l s d ck ++ udp) 9) with (@Ok Pkt.ParseError _ (byte_of 17)). cbn [mbind outcome_bind].
  rewrite (proj2 (slice_from_Ok (ipv4_header l s d ck ++ udp) 20 udp)); cycle 1.
  { rewrite Hlen. split; [lia|]. symmetry. by apply drop_app_length'. }
  cbn [mbind outcome_bind]. unfold v4_octets. rewrite !from_be_to_be by done.
  replace (lenN body + 28) with (l + 20) by (unfold l; lia). apply finish_transport_accepts; [lia|done..].
Qed.
Lemma parse_ipv6_udp s d v body : s < 2 ^ 128 -> d < 2 ^ 128 -> lenN body <= 0x1_0000 - 9 -> 0 < v -> v < 0x1_0000 ->
  Pkt.transport_checksum_ok (udp_datagram (lenN body + 8) v body) (V6 s) (V6 d) Pkt.UDP ->
  Pkt.parse_packet (ipv6_header (lenN body + 8) s d ++ udp_datagram (lenN body + 8) v body)
    = Ok (parsed_udp (V6 s) (V6 d) (lenN body + 48)).
Proof.
  intros Hs Hd Hl Hv0 Hv Hudp. set (l := lenN body + 8) in *. set (udp := udp_datagram l v body) in *.
  change (Pkt.parse_packet (ipv6_header l s d ++ udp)) with (Pkt.parse_ipv6 (ipv6_header l s d ++ udp) true).
  assert (Hlen : lenN (ipv6_header l s d ++ udp) = l + 40) by (rewrite lenN_app, lenN_ipv6_header; unfold udp; rewrite lenN_udp; lia).
  unfold Pkt.parse_ipv6. rewrite Hlen. destruct (N.ltb_spec (l + 40) 40); [lia|].
  assert (be16_at (E:=Pkt.ParseError) (ipv6_header l s d ++ udp) 4 = Ok l) as ->.
  { unfold ipv6_header. apply (be16_at_app [byte_of 0x60; x00; x00; x00]); [lia|done]. }
  cbn [mbind outcome_bind]. rewrite N.eqb_refl. cbn [negb].
  assert (slice (E:=Pkt.ParseError) (ipv6_header l s d ++ udp) 8 24 = Ok (v6_octets s)) as ->.
  { change (ipv6_header l s d ++ udp) with (([byte_of 0x60; x00; x00; x00] ++ to_be 2 l ++ [byte_of 17; byte_of 64])
      ++ v6_octets s ++ v6_octets d ++ udp). by apply slice_app. }
  assert (slice (E:=Pkt.ParseError) (ipv6_header l s d ++ udp) 24 40 = Ok (v6_octets d)) as ->.
  { change (ipv6_header l s d ++ udp) with (([byte_of 0x60; x00; x00; x00] ++ to_be 2 l ++ [byte_of 17; byte_of 64] ++ v6_octets s)
      ++ v6_octets d ++ udp). by apply slice_app. }
  change (index (ipv6_header l s d ++ udp) 6) with (@Ok Pkt.ParseError _ (byte_of 17)). cbn [mbind outcome_bind].
  unfold v6_octets. rewrite !from_be_to_be by done.
  change (u8 (byte_of 17)) with 17. cbn [Pkt.ipv6_chain]. change ((17 =? 0) || (17 =? 43) || (17 =? 60)) with false. change (17 =? 44) with false.
  rewrite (proj2 (slice_from_Ok (ipv6_header l s d ++ udp) 40 udp)); cycle 1.
  { rewrite Hlen. split; [lia|]. symmetry. by apply drop_app_length'. }
  cbn [mbind outcome_bind]. rewrite Hlen.
  replace (lenN body + 48) with (l + 40) by (unfold l; lia). apply finish_transport_accepts; [lia|done..].
Qed.

Section channel_exact.
Context `{UuidLib}.

Lemma encode_len c body : lenN (transaction c) = 16 -> encode c = Ok body -> lenN body <= HEADER + MAX_PROBE_PADDING.
Proof.
  intros Ht (Hs & ->)%encode_Ok; [|done]. rewrite lenN_app, lenN_header by done. pose proof (lenN_message_body _ _ Hs). lia.
Qed.
Lemma decode_ip_udp src dst header len body v :
  lenN body <= HEADER + MAX_PROBE_PADDING -> header_len (header ++ udp_datagram (lenN body + 8) v body) = Ok (lenN header) ->
  Pkt.parse_packet (header ++ udp_datagram (lenN body + 8) v body) = Ok (parsed_udp src dst len) ->
  decode_ip (header ++ udp_datagram (lenN body + 8) v body) = decode body.
Proof.
  intros Hl Hh Hp. unfold decode_ip. rewrite Hp. cbn [map_err mbind outcome_bind]. rewrite Hh. cbn [mbind outcome_bind].
  unfold parsed_udp. cbn [Pkt.protocol Pkt.source_port Pkt.destination_port Pkt.fragment]. rewrite !bool_decide_eq_true_2 by done.
  rewrite bool_decide_eq_false_2 by (by intros [? ?]). cbn [negb orb N.eqb]. change (17 =? 17) with true. cbn [negb orb].
  unfold get_slice. rewrite lenN_app, lenN_udp. destruct (N.leb_spec (lenN header + 8) (lenN header + (lenN body + 8))); [|lia].
  rewrite N.leb_refl. cbn [andb].
  assert (drop (N.to_nat (lenN header + 8)) (header ++ udp_datagram (lenN body + 8) v body) = body) as ->.
  { unfold udp_datagram. rewrite !app_assoc. apply drop_app_length'. rewrite !length_app, !length_to_be. unfold lenN. lia. }
  f_equal. apply take_ge. unfold lenN. lia.
Qed.

(** The two families: what the packet is made of, and that its sums vanish. *)
Lemma encode_ip_v4 s d c body : s < 2 ^ 32 -> d < 2 ^ 32 -> lenN (transaction c) = 16 -> encode c = Ok body ->
  exists ck v, encode_ip (V4 s) (V4 d) c = Ok (ipv4_header (lenN body + 8) s d ck ++ udp_datagram (lenN body + 8) v body) /\
    Pkt.parse_packet (ipv4_header (lenN body + 8) s d ck ++ udp_datagram (lenN body + 8) v body)
      = Ok (parsed_udp (V4 s) (V4 d) (lenN body + 28)).
Proof.
  intros Hs Hd Ht He. pose proof (encode_len c body Ht He) as Hl. unfold HEADER, MAX_PROBE_PADDING in Hl.
  unfold encode_ip. rewrite He. cbn [mbind outcome_bind]. unfold U16_MAX. destruct (N.ltb_spec 0xffff (lenN body + 8)); [lia|].
  unfold encode_headers, U16_MAX. destruct (N.ltb_spec 0xffff (lenN body + 8 + 20)); [lia|].
  destruct (checksum_spec (ipv4_header (lenN body + 8) s d 0)) as (ck & Hck & Hckl & Hcks); [rewrite lenN_ipv4_header; lia|].
  rewrite Hck. cbn [mbind outcome_bind]. set (pseudo := _ ++ _ ++ _ ++ to_be 2 (lenN body + 8)).
  assert (Hpl : lenN pseudo = 12) by (unfold pseudo, v4_octets; by rewrite !lenN_app, !lenN_to_be).
  destruct (checksum_spec (pseudo ++ udp_datagram (lenN body + 8) 0 body)) as (sum & Hsum & Hsl & Hss); [rewrite lenN_app, lenN_udp; lia|].
  rewrite Hsum. cbn [mbind outcome_bind]. set (v := if sum =? 0 then 65535 else sum).
  assert (Hv : 0 < v /\ v < 0x1_0000) by (unfold v; destruct (N.eqb_spec sum 0); lia).
  exists ck, v. split; [done|]. apply parse_ipv4_udp; [done|done|lia|lia|lia|done|done|].
  eexists. split; [reflexivity|]. rewrite lenN_udp, udp_sum by lia. split; [unfold PORT; lia|].
  apply stored_checksum in Hss. change (if sum =? 0 then U16_MAX else sum) with v in Hss.
  rewrite words_sum_app in Hss by (by exists 6%nat). rewrite udp_sum in Hss by lia.
  unfold pseudo, v4_octets in Hss. rewrite !words_sum_app in Hss by (first [by exists 2%nat|by exists 1%nat]).
  rewrite words_sum_be2 in Hss by lia. change (Pkt.words_sum [x00; byte_of 17]) with 17 in Hss. rewrite <-Hss. f_equal.
  unfold v4_octets, Pkt.UDP. lia.
Qed.
Lemma encode_ip_v6 s d c body : s < 2 ^ 128 -> d < 2 ^ 128 -> lenN (transaction c) = 16 -> encode c = Ok body ->
  exists v, encode_ip (V6 s) (V6 d) c = Ok (ipv6_header (lenN body + 8) s d ++ udp_datagram (lenN body + 8) v body) /\
    Pkt.parse_packet (ipv6_header (lenN body + 8) s d ++ udp_datagram (lenN body + 8) v body)
      = Ok (parsed_udp (V6 s) (V6 d) (lenN body + 48)).
Proof.
  intros Hs Hd Ht He. pose proof (encode_len c body Ht He) as Hl. unfold HEADER, MAX_PROBE_PADDING in Hl.
  unfold encode_ip. rewrite He. cbn [mbind outcome_bind]. unfold U16_MAX. destruct (N.ltb_spec 0xffff (lenN body + 8)); [lia|].
  cbn [encode_headers mbind outcome_bind]. set (pseudo := _ ++ _ ++ _ ++ [_; _; _; _]).
  assert (Hpl : lenN pseudo = 40) by (unfold pseudo, v6_octets; by rewrite !lenN_app, !lenN_to_be).
  destruct (checksum_spec (pseudo ++ udp_datagram (lenN body + 8) 0 body)) as (sum & Hsum & Hsl & Hss); [rewrite lenN_app, lenN_udp; lia|].
  rewrite Hsum. cbn [mbind outcome_bind]. set (v := if sum =? 0 then 65535 else sum).
  assert (Hv : 0 < v /\ v < 0x1_0000) by (unfold v; destruct (N.eqb_spec sum 0); lia).
  exists v. split; [done|]. apply parse_ipv6_udp; [done|done|lia|lia|lia|].
  eexists. split; [reflexivity|]. rewrite lenN_udp, udp_sum, words_sum_be4 by lia. split; [unfold PORT; lia|].
  apply stored_checksum in Hss. change (if sum =? 0 then U16_MAX else sum) with v in Hss.
  rewrite words_sum_app in Hss by (by exists 20%nat). rewrite udp_sum in Hss by lia.
  unfold pseudo, v6_octets in Hss. rewrite !words_sum_app in Hss by (first [by exists 8%nat|by exists 2%nat]).
  rewrite words_sum_be4 in Hss by lia. change (Pkt.words_sum [x00; x00; x00; byte_of 17]) with 17 in Hss. rewrite <-Hss. f_equal.
  unfold v6_octets, Pkt.UDP. lia.
Qed.

Lemma channel_delivers source destination c body (Hsource : IpAddr_wf source) (Hdestination : IpAddr_wf destination)
    (Hfamily : is_ipv6 source = is_ipv6 destination) (Hc : coordination_ok c) (Hencode : encode c = Ok body) :
  exists packet, encode_ip source destination c = Ok packet /\
    lenN packet = lenN body + (if is_ipv6 source then 48 else 28) /\
    Pkt.parse_packet packet = Ok (parsed_udp source destination (lenN packet)) /\
    decode_ip packet = Ok c.
Proof.
  pose proof (ok_transaction _ Hc) as Ht. pose proof (encode_len c body Ht Hencode) as Hl.
  pose proof (decode_encode c body Hc Hencode) as Hd.
  destruct source as [s|s], destination as [d|d]; try done.
  - destruct (encode_ip_v4 s d c body) as (ck & v & He & Hp); [done..|]. eexists. split; [exact He|].
    assert (Hlen : lenN (ipv4_header (lenN body + 8) s d ck ++ udp_datagram (lenN body + 8) v body) = lenN body + 28).
    { rewrite lenN_app, lenN_ipv4_header, lenN_udp. lia. }
    rewrite Hlen. split; [done|]. split; [done|]. rewrite <-Hd. eapply decode_ip_udp; [done| |exact Hp].
    by rewrite lenN_ipv4_header.
  - destruct (encode_ip_v6 s d c body) as (v & He & Hp); [done..|]. eexists. split; [exact He|].
    assert (Hlen : lenN (ipv6_header (lenN body + 8) s d ++ udp_datagram (lenN body + 8) v body) = lenN body + 48).
    { rewrite lenN_app, lenN_ipv6_header, lenN_udp. lia. }
    rewrite Hlen. split; [done|]. split; [done|]. rewrite <-Hd. eapply decode_ip_udp; [done| |exact Hp].
    rewrite lenN_ipv6_header. reflexivity.
Qed.

(** The coordination codec is exact. [decode] accepts exactly the bytes that
    [encode] produces of a message whose fields have their widths and whose
    candidates have no flow label: no two byte strings mean the same, none is
    longer than the largest probe, and neither direction panics. *)
Theorem coordination_codec_exact bytes c :
  (decode bytes = Ok c <-> coordination_ok c /\ encode c = Ok bytes) /\
  (coordination_ok c -> encode c = Ok bytes -> lenN bytes <= HEADER + MAX_PROBE_PADDING) /\
  no_panic (decode bytes) /\ no_panic (encode c).
Proof.
  split; [split; [apply decode_Ok|intros [Hc He]; by apply decode_encode]|].
  split; [intros [_ Ht _]; by apply encode_len|]. split; [apply no_panic_decode|apply no_panic_encode].
Qed.

(** What the encoding carries of a message: addresses and ports, no IPv6 flow label. *)
Definition unlabelled_endpoint (e : SocketAddr) : SocketAddr := socket_new (socket_ip e) (socket_port e).
Definition unlabelled (c : Coordination) : Coordination :=
  mkCoordination (generation c) (transaction c)
    (match message c with Candidates l => Candidates (unlabelled_endpoint <$> l) | m => m end).
(** The values have the widths of their types, and no two candidates differ in the label alone. *)
Record travels_ok (c : Coordination) : Prop := {
  se_generation : generation c <= U64_MAX;
  se_transaction : lenN (transaction c) = 16;
  se_message : match message c with
    | Candidates l => Forall (fun e => IpAddr_wf (socket_ip e) /\ socket_port e < 2 ^ 16) l /\ NoDup (unlabelled_endpoint <$> l)
    | GatewayProbe id | GatewayAck id _ => id < 2 ^ 128
    | _ => True
    end;
}.
Lemma socket_new_fields a p : socket_ip (socket_new a p) = a /\ socket_port (socket_new a p) = p.
Proof. by destruct a. Qed.
Lemma unlabelled_ok c : travels_ok c -> coordination_ok (unlabelled c).
Proof.
  intros [Hg Ht Hm]. split; [done|done|]. cbn. destruct (message c) as [l| | | | | |]; try done. destruct Hm as [Hf _]. cbn.
  apply Forall_fmap. eapply Forall_impl; [exact Hf|]. intros e [Hw Hp]. unfold endpoint_ok. cbn.
  unfold unlabelled_endpoint. destruct (socket_new_fields (socket_ip e) (socket_port e)) as [-> ->]. done.
Qed.
Lemma unlabelled_encode c body : travels_ok c -> encode c = Ok body -> encode (unlabelled c) = Ok body.
Proof.
  intros [_ _ Hm]. unfold encode, unlabelled. cbn [generation transaction message]. destruct (message c) as [l| | | | | |]; try done.
  destruct Hm as [_ Hn]. intros ([] & Hv & Hb)%bind_Ok. apply validate_candidates_Ok in Hv as [Hl Hval _].
  assert (Hlen : lenN (unlabelled_endpoint <$> l) = lenN l) by (unfold lenN; by rewrite length_fmap).
  assert (Hv' : validate_candidates (unlabelled_endpoint <$> l) = Ok tt).
  { apply validate_candidates_Ok. split; [by rewrite Hlen| |done]. apply Forall_fmap. eapply Forall_impl; [exact Hval|].
    intros [ip port|ip port flow scope]; [done|]. unfold unlabelled_endpoint, valid_endpoint. cbn.
    intros [Hx [Hy _]%andb_true_iff]%andb_true_iff. by rewrite Hx, Hy. }
  rewrite Hv', Hlen. cbn [mbind outcome_bind]. cbn [kind]. destruct (_ <? lenN l); [done|]. rewrite <-Hb. do 2 f_equal. f_equal. f_equal.
  rewrite <-list_fmap_compose. apply list_fmap_ext. intros _ e _. unfold compose, encode_endpoint, unlabelled_endpoint.
  by destruct (socket_new_fields (socket_ip e) (socket_port e)) as [-> ->].
Qed.

(** What a Peer sends on the channel, the other reads. Between addresses of one
    family every message that can be encoded, whose candidates differ in more than an
    IPv6 flow label, is put into an IP packet without a panic; the strict parser accepts
    that packet - its length fields and both its checksums are right - as UDP between
    the coordination ports, of those addresses and unfragmented; and [decode_ip] reads
    from it the message, without the flow labels, for which the encoding has no room. *)
Theorem coordination_travels source destination c body (Hsource : IpAddr_wf source) (Hdestination : IpAddr_wf destination)
    (Hfamily : is_ipv6 source = is_ipv6 destination) (Hc : travels_ok c) (Hencode : encode c = Ok body) :
  exists packet, encode_ip source destination c = Ok packet /\
    lenN packet = lenN body + (if is_ipv6 source then 48 else 28) /\
    Pkt.parse_packet packet = Ok (parsed_udp source destination (lenN packet)) /\
    decode_ip packet = Ok (unlabelled c).
Proof.
  pose proof (unlabelled_encode c body Hc Hencode) as He.
  destruct (channel_delivers source destination (unlabelled c) body Hsource Hdestination Hfamily (unlabelled_ok c Hc) He) as (packet & Hp & Hrest).
  exists packet. split; [|done]. unfold encode_ip in Hp |- *. by rewrite Hencode, <-He.
Qed.

(** What a Peer filters from its own observations it may advertise, and while the
    observations are few it loses none that is usable. *)
Theorem filtered_candidates_usable endpoints :
  candidates_ok (filter_wireguard_candidates endpoints) /\
  (lenN (retain_valid ∅ endpoints) <= MAX_CANDIDATES ->
   forall e, e ∈ endpoints -> valid_endpoint e = true -> e ∈ filter_wireguard_candidates endpoints).
Proof.
  destruct (retain_valid_spec ∅ endpoints) as (Hf & Hn & He). unfold filter_wireguard_candidates. split.
  - split; [rewrite lenN_take; lia|by apply Forall_take|]. eapply sublist_NoDup; [exact Hn|apply sublist_take].
  - intros Hl e Hin Hv. rewrite take_ge by (unfold lenN in *; lia). apply He. set_solver.
Qed.
End channel_exact.

(** ** Examples *)

#[local] Existing Instance uuid_rfc.
Definition example_coordination : Coordination :=
  mkCoordination 2 (replicate 16 x04)
    (Candidates [SockV4 0xc0000201 1234; SockV6 0x20010db8_00000000_00000000_00000001 5678 0 0]).
Definition example_probe : Coordination := mkCoordination 2 (replicate 16 x04) (MtuProbe 1224).

Example example_coordination_ok : coordination_ok example_coordination.
Proof. split; [by vm_compute|done|]. cbn. repeat constructor; by vm_compute. Qed.
Example probe_fills_1280 : lenN <$> encode_ip (V4 0x0a000001) (V4 0x0a000002) example_probe = Ok 1280.
Proof. vm_compute. reflexivity. Qed.
Example filter_example :
  filter_wireguard_candidates [SockV4 0x7f000001 3478; SockV4 0 3478; SockV4 0xffffffff 3478; SockV4 0xe0000000 3478;
    SockV6 0xfe800000_00000000_00000000_00000001 3478 0 0; SockV4 0xc0000201 0; SockV4 0xc0000201 1234; SockV4 0xc0000201 1234]
  = [SockV4 0xc0000201 1234].
Proof. vm_compute. reflexivity. Qed.

Definition example_bytes : list byte := match encode example_coordination with Ok b => b | _ => [] end.
Lemma coordination_codec_exact_witness :
  encode example_coordination = Ok example_bytes /\ decode example_bytes = Ok example_coordination /\
  lenN example_bytes <= HEADER + MAX_PROBE_PADDING.
Proof.
  assert (He : encode example_coordination = Ok example_bytes) by (vm_compute; reflexivity).
  destruct (coordination_codec_exact example_bytes example_coordination) as ([_ Hd] & Hl & _).
  exact (conj He (conj (Hd (conj example_coordination_ok He)) (Hl example_coordination_ok He))).
Defined.
Definition labelled_example (ports : list N) : Coordination := mkCoordination 7 (replicate 16 x03)
  (Candidates ((fun p => SockV6 0x20010db8_00000000_00000000_00000001 p (p + 1) 0) <$> ports)).
(** Two candidates that differ in the flow label alone are encoded, and refused by every receiver. *)
Lemma flow_label_refused : let c := mkCoordination 7 (replicate 16 x03) (Candidates
    [SockV6 0x20010db8_00000000_00000000_00000001 5678 1 0; SockV6 0x20010db8_00000000_00000000_00000001 5678 2 0]) in
  exists bytes, encode c = Ok bytes /\ decode bytes = Err InvalidPacket.
Proof. eexists. split; vm_compute; reflexivity. Qed.
Lemma coordination_travels_witness :
  exists packet, encode_ip (V6 1) (V6 2) (labelled_example [5678; 5679]) = Ok packet /\ decode_ip packet = Ok (unlabelled (labelled_example [5678; 5679])).
Proof.
  assert (Hs : travels_ok (labelled_example [5678; 5679])).
  { split; [discriminate|reflexivity|]. split; [repeat constructor|]. apply (bool_decide_unpack _). vm_compute. exact I. }
  destruct (coordination_travels (V6 1) (V6 2) (labelled_example [5678; 5679])
    (match encode (labelled_example [5678; 5679]) with Ok b => b | _ => [] end)) as (packet & He & _ & _ & Hd);
    [vm_compute; reflexivity|vm_compute; reflexivity|reflexivity|exact Hs|vm_compute; reflexivity|].
  exists packet. exact (conj He Hd).
Defined.

End Co.
