(* ===== verification/PathMtu.v ===== *)
(** * Datagram size search and path quality (peerward-peer-core wireguard_mtu.rs,
    wireguard_quality.rs)

    What a Peer keeps per path: the largest datagram it has proved to pass, the
    bounds of the search for a larger one, and the round-trip time and loss that
    rank paths. Times are nanoseconds since an arbitrary origin, durations
    nanoseconds: [saturating_duration_since] is the truncated subtraction. *)

From S2P Require Import Prelude Ordered Net Packet Coordination.
From Stdlib Require Import NArith ZArith Lia SpecFloat.
From stdpp Require Import base tactics decidable countable numbers list gmap.
From Stdlib.Init Require Import Byte.
Set Default Goal Selector "!".
Local Open Scope N_scope.

Module Pm.

Definition SECOND : N := 1_000_000_000.
Definition MILLI : N := 1_000_000.
Definition opt_lt_since (o : option N) (now interval : N) : bool :=
  match o with Some t => now - t <? interval | None => false end.

(** ** The size search (wireguard_mtu.rs) *)

Record Mtu := mkMtu {
  proof : option (N * N);
  sent : option N;
  failures : N;
  bounds : option (N * N * N);
  target : N;
  retry_full : option N;
}.
#[export] Instance Mtu_eq_dec : EqDecision Mtu.
Proof. solve_decision. Defined.
(** [Mtu::default()] *)
Definition mtu_default : Mtu := mkMtu None None 0 None 0 None.

Definition limit (now lifetime baseline : N) (self : Mtu) : N :=
  match proof self with
  | Some (l, confirmed) => if now - confirmed <? lifetime then N.max l baseline else baseline
  | None => baseline
  end.

Definition probe (mtu : N) (ipv6 : bool) : option (Co.Message * N) :=
  let overhead := if ipv6 then 76 else 56 in
  if mtu <? overhead then None else
  let padding := mtu - overhead in
  if U16_MAX <? padding then None else
  if (padding =? 0) || (Co.MAX_PROBE_PADDING <? padding) then None else
  Some (Co.MtuProbe padding, 32 + mtu).

Definition choose_target (now : N) (self : Mtu) : Mtu :=
  match bounds self with
  | None => self
  | Some (lower, upper, ceiling) =>
      if (upper <=? lower) || (upper - lower <? 16) then
        mkMtu (proof self) (sent self) (failures self) (bounds self) lower
          (if (lower <? ceiling) && negb (bool_decide (is_Some (retry_full self)))
           then Some (now + 30 * SECOND) else retry_full self)
      else
        mkMtu (proof self) (sent self) (failures self) (bounds self)
          (N.min (N.max ((lower + upper) / 2 / 16 * 16) (lower + 16)) upper) (retry_full self)
  end.

(** The three steps of [next]: a new ceiling restarts the search; the search is
    restarted towards the ceiling when [retry_full] is due. *)
Definition rebound (ceiling : N) (ipv6 : bool) (self : Mtu) : Mtu :=
  if match bounds self with None => true | Some (_, _, old) => negb (old =? ceiling) end
  then mkMtu None (sent self) 0 (Some (if ipv6 then 80 else 64, ceiling, ceiling)) ceiling (retry_full self)
  else self.
Definition retry (now : N) (self : Mtu) : Mtu :=
  match retry_full self, bounds self with
  | Some at_, Some (lower, _, ceiling) =>
      if at_ <=? now
      then mkMtu (proof self) (sent self) (failures self) (Some (lower, ceiling, ceiling)) ceiling None
      else self
  | _, _ => self
  end.
Definition next (ceiling : N) (ipv6 : bool) (now interval : N) (self : Mtu) : Mtu * option (Co.Message * N) :=
  let self := rebound ceiling ipv6 self in
  if opt_lt_since (sent self) now interval then (self, None) else
  let self := retry now self in (self, probe (target self) ipv6).

Definition mark_sent (now : N) (self : Mtu) : Mtu :=
  mkMtu (proof self) (Some now) (failures self) (bounds self) (target self) (retry_full self).

Definition failed (now lim : N) (self : Mtu) : Mtu :=
  if negb (lim =? 32 + target self) then self else
  let count := N.min (failures self + 1) U8_MAX in
  if count <? 3 then mkMtu (proof self) (sent self) count (bounds self) (target self) (retry_full self) else
  match bounds self with
  | None => mkMtu (proof self) (sent self) 0 None (target self) (retry_full self)
  | Some (lower, upper, ceiling) =>
      let lower := if target self <=? lower then 64 else lower in
      let upper := N.max (N.min upper (target self - 1)) lower in
      choose_target now (mkMtu (proof self) (sent self) 0 (Some (lower, upper, ceiling)) (target self) (retry_full self))
  end.

Definition confirm (lim now : N) (self : Mtu) : Mtu :=
  match bounds self with
  | Some (lower, upper, ceiling) =>
      choose_target now (mkMtu (Some (lim, now)) (sent self) 0
        (Some (N.max lower (lim - 32), upper, ceiling)) (target self) (retry_full self))
  | None => mkMtu (Some (lim, now)) (sent self) 0 None (target self) (retry_full self)
  end.

(** ** Path quality (wireguard_quality.rs) *)

Record Quality := mkQuality {
  rtt : option N;
  loss : N;
  samples : N;
  confirmed : option N;
}.
#[export] Instance Quality_eq_dec : EqDecision Quality.
Proof. solve_decision. Defined.
Definition quality_default : Quality := mkQuality None 0 0 None.

Definition sample (lost : bool) (self : Quality) : Quality :=
  let n := N.min (N.min (samples self + 1) U32_MAX) 8 in
  mkQuality (rtt self) ((loss self * (n - 1) + (if lost then 1 else 0) * 1000) / n) n (confirmed self).
Definition success (measured now : N) (self : Quality) : Quality :=
  let average := match rtt self with Some old => (old * 7 + measured) / 8 | None => measured end in
  let self := sample false (mkQuality (Some average) (loss self) (samples self) (confirmed self)) in
  mkQuality (rtt self) (loss self) (samples self) (Some now).
Definition failure (self : Quality) : Quality := sample true self.
Definition score (self : Quality) : N :=
  match rtt self with Some r => r | None => SECOND end + loss self * MILLI.

(** [Duration::mul_f32(0.8)]: the seconds as a binary32 number, the product, and
    the nearest whole nanosecond (the arithmetic of the standard library). *)
Definition f32_of (n : N) : spec_float := binary_normalize 24 128 (Z.of_N n) 0 false.
Definition as_secs_f32 (d : N) : spec_float :=
  SFadd 24 128 (f32_of (d / SECOND)) (SFdiv 24 128 (f32_of (d mod SECOND)) (f32_of SECOND)).
(** The literal [0.8]: 13421773 / 2^24. *)
Definition four_fifths : spec_float := S754_finite false 13421773 (-24).
(** [m * 2 ^ e], in nanoseconds, rounded to the nearest, ties to even. *)
Definition round_half_even (num den : N) : N :=
  let q := num / den in let r := num mod den in
  if 2 * r <? den then q else if den <? 2 * r then q + 1 else if N.even q then q else q + 1.
Definition from_secs_f32 (f : spec_float) : N :=
  match f with
  | S754_finite false m e =>
      if (0 <=? e)%Z then Npos m * 2 ^ Z.to_N e * SECOND else round_half_even (Npos m * SECOND) (2 ^ Z.to_N (- e))
  | _ => 0
  end.
Definition mul_f32 (factor : spec_float) (d : N) : N := from_secs_f32 (SFmul 24 128 factor (as_secs_f32 d)).

(** The values the standard library documents for 2.7 s times 3.14 and 3.14e5. *)
Example mul_f32_documented :
  mul_f32 (S754_finite false 13170115 (-22)) (2_700 * MILLI) = 8 * SECOND + 478_000_641 /\
  mul_f32 (f32_of 314_000) (2_700 * MILLI) = 847_800 * SECOND.
Proof. vm_compute. split; reflexivity. Qed.
Example four_fifths_of_a_second : mul_f32 four_fifths SECOND = 800_000_012.
Proof. vm_compute. reflexivity. Qed.

(** ** The search converges *)

(** One probe of a path that passes inner datagrams of at most [largest] bytes: it
    is confirmed, or counted as failed. *)
Definition round (largest ceiling : N) (ipv6 : bool) (interval now : N) (self : Mtu) : Mtu :=
  match next ceiling ipv6 now interval self with
  | (self, None) => self
  | (self, Some (_, lim)) =>
      let self := mark_sent now self in
      if lim <=? 32 + largest then confirm lim now self else failed now lim self
  end.
Definition rounds (largest ceiling : N) (ipv6 : bool) (interval : N) (times : list N) (self : Mtu) : Mtu :=
  foldl (fun s now => round largest ceiling ipv6 interval now s) self times.

(** Decisions left in a search of that width: each halves it, but for the rounding. *)
Definition steps (width : N) : N := if width <? 16 then 0 else 1 + N.log2_up (width - 30).

Lemma steps_mono v w : v <= w -> steps v <= steps w.
Proof.
  intros Hw. unfold steps. destruct (N.ltb_spec v 16), (N.ltb_spec w 16); try lia.
  pose proof (N.log2_up_le_mono (v - 30) (w - 30) ltac:(lia)). lia.
Qed.
Lemma steps_halved width rest : 16 <= width -> rest <= (width + 1) / 2 + 15 -> (width < 32 -> rest < 16) -> steps rest < steps width.
Proof.
  intros Hw Hr Hs. unfold steps. destruct (N.ltb_spec width 16); [lia|]. destruct (N.ltb_spec rest 16); [lia|].
  assert (Hx : 2 <= width - 30) by (destruct (N.le_gt_cases 32 width); lia).
  pose proof (N.log2_up_spec (width - 30) ltac:(lia)) as [_ Hp]. pose proof (N.log2_up_pos (width - 30) ltac:(lia)) as Hk.
  enough (N.log2_up (rest - 30) <= N.log2_up (width - 30) - 1) by lia.
  destruct (N.eq_dec (rest - 30) 0) as [->|Hr0]; [change (N.log2_up 0) with 0; lia|].
  apply N.log2_up_le_pow2; [lia|]. revert Hp Hk. generalize (N.log2_up (width - 30)). intros k Hp Hk.
  replace k with (N.succ (k - 1)) in Hp by lia. rewrite N.pow_succ_r' in Hp.
  pose proof (N.div_mod (width + 1) 2 ltac:(lia)). pose proof (N.mod_lt (width + 1) 2 ltac:(lia)).
  revert Hp. generalize (2 ^ (k - 1)). intros m Hm. generalize dependent ((width + 1) / 2). generalize dependent ((width + 1) mod 2). lia.
Qed.

(** A search in progress with at most [left] decisions to go: [target] is being
    probed between the known [lower] and [upper]. *)
Record searching (largest ceiling minimum left : N) (self : Mtu) (lower upper : N) : Prop := {
  se_bounds : bounds self = Some (lower, upper, ceiling);
  se_order : minimum <= lower /\ lower < target self /\ target self <= upper /\ upper <= ceiling;
  se_wide : lower + 16 <= upper;
  se_lower : lower <= largest;
  se_upper : largest <= upper \/ (upper = ceiling /\ target self = ceiling);
  se_known : lower = minimum \/ exists t, proof self = Some (32 + lower, t);
  se_fails : failures self < 3;
  se_retry : retry_full self = None;
  se_higher : steps (upper - target self) < left;
  se_smaller : steps (target self - 1 - lower) < left;
}.
(** The search is over: [size] is proved, and no size 16 bytes larger passes. *)
Record found (largest ceiling : N) (self : Mtu) (size : N) : Prop := {
  fo_target : target self = size;
  fo_proof : exists t, proof self = Some (32 + size, t);
  fo_passes : size <= largest;
  fo_maximal : size = ceiling \/ largest < size + 16;
}.

Lemma probe_Some mtu (ipv6 : bool) : (if ipv6 then 76 else 56) < mtu -> mtu <= 9000 ->
  probe mtu ipv6 = Some (Co.MtuProbe (mtu - if ipv6 then 76 else 56), 32 + mtu).
Proof.
  intros H1 H2. unfold probe, U16_MAX, Co.MAX_PROBE_PADDING. set (o := if ipv6 then 76 else 56).
  assert (56 <= o /\ o <= 76) by (unfold o; destruct ipv6; lia). fold o in H1.
  destruct (N.ltb_spec mtu o); [lia|]. destruct (N.ltb_spec 0xffff (mtu - o)); [lia|].
  destruct (N.eqb_spec (mtu - o) 0); [lia|]. by destruct (N.ltb_spec 9000 (mtu - o)); [lia|].
Qed.

Lemma div_parts n d : 0 < d -> exists q r, n = d * q + r /\ r < d /\ n / d = q.
Proof. intros Hd. exists (n / d), (n mod d). split; [by apply N.div_mod; lia|]. split; [by apply N.mod_lt; lia|done]. Qed.
Lemma midpoint_bounds lower upper : lower + 16 <= upper ->
  let target := N.min (N.max ((lower + upper) / 2 / 16 * 16) (lower + 16)) upper in
  lower < target /\ target <= upper /\
  steps (upper - target) < steps (upper - lower) /\ steps (target - 1 - lower) < steps (upper - lower).
Proof.
  intros Hw. cbv zeta. destruct (div_parts (lower + upper) 2) as (mid & b & Hd & Hb & ->); [lia|].
  destruct (div_parts mid 16) as (q & r & Hq & Hr & ->); [lia|].
  destruct (div_parts (upper - lower + 1) 2) as (h & c & Hh & Hc & He); [lia|].
  assert (Hm : q * 16 <= mid /\ mid < q * 16 + 16) by lia.
  split; [lia|]. split; [lia|]. split; apply steps_halved; rewrite ?He; lia.
Qed.
Lemma choose_searching largest ceiling minimum now s lower upper :
  bounds s = Some (lower, upper, ceiling) -> minimum <= lower -> lower + 16 <= upper -> upper <= ceiling ->
  lower <= largest -> largest <= upper -> (lower = minimum \/ exists t, proof s = Some (32 + lower, t)) ->
  failures s < 3 -> retry_full s = None ->
  searching largest ceiling minimum (steps (upper - lower)) (choose_target now s) lower upper.
Proof.
  intros Hb Hm Hw Hc Hl Hu Hk Hf Hr. unfold choose_target. rewrite Hb. destruct (N.leb_spec upper lower); [lia|].
  destruct (N.ltb_spec (upper - lower) 16); [lia|]. cbn [orb].
  destruct (midpoint_bounds lower upper Hw) as (H1 & H2 & H3 & H4).
  split; cbn [bounds target proof failures retry_full]; [done|lia|done|done|by left|done|done|done|done|done].
Qed.
Lemma choose_settled now s lower upper ceiling : bounds s = Some (lower, upper, ceiling) -> upper < lower + 16 ->
  target (choose_target now s) = lower /\ proof (choose_target now s) = proof s.
Proof.
  intros Hb Hw. unfold choose_target. rewrite Hb. destruct (N.leb_spec upper lower); cbn [orb]; [done|].
  by destruct (N.ltb_spec (upper - lower) 16); [|lia].
Qed.

Lemma confirm_searching largest ceiling minimum left now s lower upper :
  searching largest ceiling minimum left s lower upper -> target s <= largest ->
  found largest ceiling (confirm (32 + target s) now s) (target s) \/
  searching largest ceiling minimum (steps (upper - target s)) (confirm (32 + target s) now s) (target s) upper.
Proof.
  intros [Hb Ho Hw Hl Hu Hk Hf Hr Hh Hs] Ht. unfold confirm. rewrite Hb. replace (32 + target s - 32) with (target s) by lia.
  rewrite N.max_r by lia. set (s1 := mkMtu _ _ _ _ _ _). destruct (N.lt_ge_cases upper (target s + 16)) as [Hn|Hn].
  - left. destruct (choose_settled now s1 (target s) upper ceiling eq_refl Hn) as [Htg Hpr].
    split; [done|rewrite Hpr; by eexists|done|]. destruct Hu as [Hu|[-> ->]]; [right; lia|by left].
  - right. apply choose_searching; try done; try lia. by right; eexists.
Qed.
Lemma failed_searching largest ceiling minimum left now s lower upper : minimum + 16 <= largest ->
  searching largest ceiling minimum left s lower upper -> largest < target s ->
  found largest ceiling (failed now (32 + target s) s) lower \/
  searching largest ceiling minimum left (failed now (32 + target s) s) lower upper /\
    failures (failed now (32 + target s) s) = failures s + 1 \/
  searching largest ceiling minimum (steps (target s - 1 - lower)) (failed now (32 + target s) s) lower (target s - 1) /\
    failures s = 2.
Proof.
  intros Hmin [Hb Ho Hw Hl Hu Hk Hf Hr Hh Hs] Ht. unfold failed. rewrite N.eqb_refl. cbn [negb].
  rewrite N.min_l by (unfold U8_MAX; lia). destruct (N.ltb_spec (failures s + 1) 3) as [Hc|Hc].
  { right. left. split; [|done]. by split. }
  rewrite Hb. destruct (N.leb_spec (target s) lower); [lia|].
  replace (N.max (N.min upper (target s - 1)) lower) with (target s - 1) by lia. set (s1 := mkMtu _ _ _ _ _ _).
  destruct (N.lt_ge_cases (target s - 1) (lower + 16)) as [Hn|Hn].
  - left. destruct (choose_settled now s1 lower (target s - 1) ceiling eq_refl Hn) as [Htg Hpr].
    split; [done| |done|right; lia]. rewrite Hpr. destruct Hk as [->|[t Hp]]; [lia|by exists t].
  - right. right. split; [|lia]. apply choose_searching; try done; try lia.
Qed.

Lemma next_searching largest ceiling minimum left (ipv6 : bool) now interval s lower upper :
  (if ipv6 then 80 else 64) <= minimum -> ceiling <= 9000 ->
  searching largest ceiling minimum left s lower upper -> opt_lt_since (sent s) now interval = false ->
  next ceiling ipv6 now interval s = (s, Some (Co.MtuProbe (target s - if ipv6 then 76 else 56), 32 + target s)).
Proof.
  intros Hm Hc [Hb Ho _ _ _ _ _ Hr _ _] Hsent. unfold next, rebound. rewrite Hb, N.eqb_refl. cbn [negb].
  rewrite Hsent. unfold retry. rewrite Hr. by rewrite probe_Some by (destruct ipv6; lia).
Qed.

Fixpoint spaced (interval : N) (times : list N) : Prop :=
  match times with
  | t :: (u :: _) as rest => t + interval <= u /\ spaced interval rest
  | _ => True
  end.

Lemma mark_searching largest ceiling minimum left now s lower upper :
  searching largest ceiling minimum left s lower upper -> searching largest ceiling minimum left (mark_sent now s) lower upper.
Proof. intros []. by split. Qed.
Lemma sent_choose now s : sent (choose_target now s) = sent s.
Proof. unfold choose_target. destruct (bounds s) as [[[l u] c]|]; [|done]. by case_match. Qed.
Lemma sent_confirm lim now s : sent (confirm lim now s) = sent s.
Proof. unfold confirm. destruct (bounds s) as [[[l u] c]|]; [|done]. by rewrite sent_choose. Qed.
Lemma sent_failed now lim s : sent (failed now lim s) = sent s.
Proof.
  unfold failed. case_match; [done|]. case_match; [done|]. destruct (bounds s) as [[[l u] c]|]; [|done]. by rewrite sent_choose.
Qed.

Section search.
Context (largest ceiling minimum : N) (ipv6 : bool) (interval : N)
  (Hminimum : (if ipv6 then 80 else 64) <= minimum) (Hceiling : ceiling <= 9000) (Hlargest : minimum + 16 <= largest).

Lemma round_searching left now s lower upper :
  searching largest ceiling minimum left s lower upper -> opt_lt_since (sent s) now interval = false ->
  let s' := round largest ceiling ipv6 interval now s in
  sent s' = Some now /\
  ((exists size, found largest ceiling s' size) \/
   exists left' lower' upper', searching largest ceiling minimum left' s' lower' upper' /\ 3 * left' - failures s' < 3 * left - failures s).
Proof.
  intros Hs Hsent. cbv zeta. unfold round. rewrite (next_searching _ _ _ _ _ _ _ _ _ _ Hminimum Hceiling Hs Hsent).
  pose proof (mark_searching _ _ _ _ now _ _ _ Hs) as Hm. change (target s) with (target (mark_sent now s)).
  pose proof (se_fails _ _ _ _ _ _ _ Hs) as Hf. pose proof (se_higher _ _ _ _ _ _ _ Hs) as Hh. pose proof (se_smaller _ _ _ _ _ _ _ Hs) as Hsm.
  change (failures s) with (failures (mark_sent now s)) in *. change (target s) with (target (mark_sent now s)) in *.
  set (m := mark_sent now s) in *. assert (Hmt : sent m = Some now) by done.
  destruct (N.leb_spec (32 + target m) (32 + largest)) as [Ht|Ht].
  - split; [by rewrite sent_confirm|]. destruct (confirm_searching _ _ _ _ now _ _ _ Hm) as [Hf1|Hs1]; [lia|left; by eexists|].
    right. do 3 eexists. split; [exact Hs1|]. lia.
  - split; [by rewrite sent_failed|].
    destruct (failed_searching _ _ _ _ now _ _ _ Hlargest Hm) as [Hf1|[[Hs1 Hf1]|[Hs1 Hf1]]]; [lia|left; by eexists| |].
    + right. do 3 eexists. split; [exact Hs1|]. lia.
    + right. do 3 eexists. split; [exact Hs1|]. lia.
Qed.

Lemma search_ends n left times s lower upper :
  searching largest ceiling minimum left s lower upper -> 3 * left - failures s <= N.of_nat n -> (n <= length times)%nat ->
  spaced interval times -> (forall t rest, times = t :: rest -> opt_lt_since (sent s) t interval = false) ->
  exists k size, (k <= n)%nat /\ found largest ceiling (rounds largest ceiling ipv6 interval (take k times) s) size.
Proof.
  revert left times s lower upper. induction n as [|n IH]; intros left times s lower upper Hs Hn Hl Hsp Hsent.
  { pose proof (se_fails _ _ _ _ _ _ _ Hs). pose proof (se_higher _ _ _ _ _ _ _ Hs). lia. }
  destruct times as [|t times]; [cbn in Hl; lia|].
  destruct (round_searching left t s lower upper Hs (Hsent t times eq_refl)) as [Hse [[size Hf]|(left' & lo & up & Hs' & Hlt)]].
  { exists 1%nat, size. split; [lia|]. cbn [take rounds foldl]. exact Hf. }
  destruct (IH left' times (round largest ceiling ipv6 interval t s) lo up Hs') as (k & size & Hk & Hfo).
  - lia.
  - cbn in Hl. lia.
  - destruct times; [done|]. by destruct Hsp.
  - intros u rest ->. destruct Hsp as [Hu _]. rewrite Hse. cbn [opt_lt_since]. apply N.ltb_ge. lia.
  - exists (S k), size. split; [lia|]. exact Hfo.
Qed.
End search.

Lemma rounds_fresh largest ceiling ipv6 interval (times : list N) :
  rounds largest ceiling ipv6 interval times mtu_default =
  match times with [] => mtu_default | _ :: _ => rounds largest ceiling ipv6 interval times (rebound ceiling ipv6 mtu_default) end.
Proof.
  destruct times as [|t times]; [done|]. cbn [rounds foldl]. f_equal. unfold round, next.
  assert (rebound ceiling ipv6 (rebound ceiling ipv6 mtu_default) = rebound ceiling ipv6 mtu_default) as ->; [|done].
  unfold rebound at 1. cbn [rebound mtu_default bounds]. by rewrite N.eqb_refl.
Qed.
Lemma fresh_searching largest ceiling ipv6 : 1280 <= ceiling -> ceiling <= 9000 -> 96 <= largest ->
  searching largest ceiling 80 16 (rebound ceiling true mtu_default) 80 ceiling /\
  (ipv6 = false -> searching largest ceiling 64 16 (rebound ceiling false mtu_default) 64 ceiling).
Proof.
  intros H1 H2 Hl.
  assert (Hx : forall (minimum : N) (v6 : bool), 64 <= minimum -> minimum <= 80 -> (if v6 then 80 else 64) = minimum ->
    searching largest ceiling minimum 16 (rebound ceiling v6 mtu_default) minimum ceiling).
  { intros m v6 Hm Hm2 Hv. unfold rebound. cbn [mtu_default bounds sent retry_full]. rewrite Hv.
    split; cbn [bounds target proof failures retry_full]; try done; try lia; try (by left); try (by right).
    - by rewrite N.sub_diag.
    - eapply N.le_lt_trans; [apply (steps_mono _ 9000); lia|by vm_compute]. }
  split; [by apply Hx|intros _; by apply Hx].
Qed.

Lemma proof_choose now s : proof (choose_target now s) = proof s.
Proof. unfold choose_target. destruct (bounds s) as [[[l u] c]|]; [|done]. by case_match. Qed.
Lemma proof_failed now lim s : proof (failed now lim s) = proof s.
Proof.
  unfold failed. case_match; [done|]. case_match; [done|]. destruct (bounds s) as [[[l u] c]|]; [|done]. by rewrite proof_choose.
Qed.
Lemma proof_confirm lim now s : proof (confirm lim now s) = Some (lim, now).
Proof. unfold confirm. destruct (bounds s) as [[[l u] c]|]; [|done]. by rewrite proof_choose. Qed.
Lemma proof_retry now s : proof (retry now s) = proof s.
Proof. unfold retry. destruct (retry_full s), (bounds s) as [[[l u] c]|]; try done. by case_match. Qed.
Lemma proof_next ceiling ipv6 now interval s :
  proof (next ceiling ipv6 now interval s).1 = proof s \/ proof (next ceiling ipv6 now interval s).1 = None.
Proof.
  assert (Hr : proof (rebound ceiling ipv6 s) = proof s \/ proof (rebound ceiling ipv6 s) = None).
  { unfold rebound. case_match; [by right|by left]. }
  unfold next. case_match; cbn [fst]; [done|by rewrite proof_retry].
Qed.
Lemma round_proof_bound largest ceiling ipv6 interval now s :
  (forall l t, proof s = Some (l, t) -> l <= 32 + largest) ->
  forall l t, proof (round largest ceiling ipv6 interval now s) = Some (l, t) -> l <= 32 + largest.
Proof.
  intros Hs. pose proof (proof_next ceiling ipv6 now interval s) as Hn. unfold round.
  destruct (next ceiling ipv6 now interval s) as [s1 [[m lim]|]]; cbn [fst] in Hn; intros l t.
  - destruct (N.leb_spec lim (32 + largest)) as [Hl|Hl]; [rewrite proof_confirm; by intros [= <- <-]|].
    rewrite proof_failed. cbn [mark_sent proof]. destruct Hn as [->| ->]; [apply Hs|done].
  - destruct Hn as [->| ->]; [apply Hs|done].
Qed.

(** C22: the datagram size search converges and never overstates. On a path that
    passes inner datagrams of at most [largest] bytes, 96 or more, from a fresh start, probes
    that are answered or time out before the next one find within 48 probes, for any
    ceiling a device may have, a size that passes and is the ceiling or within 16
    bytes of the largest; at no time does the search hold a larger size proved than
    the path passes. *)
Theorem mtu_search_converges largest ceiling ipv6 interval times
    (Hceiling : 1280 <= ceiling /\ ceiling <= 9000) (Hlargest : 96 <= largest)
    (Hspaced : spaced interval times) (Htimes : 48 <= lenN times) :
  (exists n size, (n <= 48)%nat /\ found largest ceiling (rounds largest ceiling ipv6 interval (take n times) mtu_default) size) /\
  forall n l t, proof (rounds largest ceiling ipv6 interval (take n times) mtu_default) = Some (l, t) -> l <= 32 + largest.
Proof.
  split.
  - destruct (fresh_searching largest ceiling ipv6) as [H6 H4]; [lia..|].
    destruct (search_ends largest ceiling (if ipv6 then 80 else 64) ipv6 interval ltac:(destruct ipv6; lia) ltac:(lia) ltac:(destruct ipv6; lia)
      48 16 times (rebound ceiling ipv6 mtu_default) (if ipv6 then 80 else 64) ceiling) as (n & size & Hn & Hf).
    + destruct ipv6; [done|by apply H4].
    + done.
    + unfold lenN in Htimes. lia.
    + done.
    + done.
    + exists n, size. split; [done|]. rewrite rounds_fresh. destruct (take n times); [|done].
      by destruct (fo_proof _ _ _ _ Hf).
  - intros n. generalize (take n times). intros ts. induction ts as [|t ts IH] using rev_ind; [done|].
    unfold rounds. rewrite foldl_app. cbn [foldl]. by apply round_proof_bound.
Qed.

Section size.
Context `{UuidLib}.

(** A probe measures what it says. A probe for an inner size of [mtu] is a
    message whose packet, between addresses of its family, has exactly [mtu] bytes,
    and the ciphertext limit it proves is that and the 32 bytes WireGuard adds. *)
Theorem probe_fills_mtu mtu ipv6 message lim source destination generation transaction
    (Hprobe : probe mtu ipv6 = Some (message, lim)) (Hsource : IpAddr_wf source) (Hdestination : IpAddr_wf destination)
    (Hfamily : is_ipv6 source = ipv6 /\ is_ipv6 destination = ipv6)
    (Hfields : generation <= U64_MAX /\ lenN transaction = 16) :
  lim = mtu + 32 /\
  exists packet, Co.encode_ip source destination (Co.mkCoordination generation transaction message) = Ok packet /\
    lenN packet = mtu /\ Co.decode_ip packet = Ok (Co.mkCoordination generation transaction message).
Proof.
  unfold probe, U16_MAX in Hprobe. set (o := if ipv6 then 76 else 56) in *. destruct Hfamily as [Hf1 Hf2], Hfields as [Hg Ht].
  destruct (N.ltb_spec mtu o); [done|]. destruct (N.ltb_spec 0xffff (mtu - o)); [done|].
  destruct (N.eqb_spec (mtu - o) 0); [done|]. destruct (N.ltb_spec Co.MAX_PROBE_PADDING (mtu - o)); [done|]. injection Hprobe as <- <-.
  split; [lia|]. set (c := Co.mkCoordination _ _ _). assert (Hc : Co.coordination_ok c) by (by split).
  assert (He : Co.encode c = Ok (Co.header c ++ Co.message_body (Co.message c))).
  { apply Co.encode_Ok; [done|]. split; [|done]. cbn. lia. }
  destruct (Co.channel_delivers source destination c _ Hsource Hdestination ltac:(congruence) Hc He) as (packet & Hp & Hl & _ & Hd).
  exists packet. split; [done|]. split; [|done]. rewrite Hl, lenN_app, Co.lenN_header by done.
  cbn [Co.message_body c Co.message]. rewrite Co.lenN_replicate, Hf1, N2Nat.id. unfold Co.HEADER, o in *. destruct ipv6; lia.
Qed.
End size.

(** ** Examples *)

Definition every_second (n : nat) : list N := (fun i => N.of_nat i * SECOND) <$> seq 1 n.
Lemma mtu_search_converges_witness :
  (exists n size, (n <= 48)%nat /\ found 1000 1280 (rounds 1000 1280 false SECOND (take n (every_second 48)) mtu_default) size) /\
  forall n l t, proof (rounds 1000 1280 false SECOND (take n (every_second 48)) mtu_default) = Some (l, t) -> l <= 32 + 1000.
Proof. apply (mtu_search_converges 1000 1280 false SECOND (every_second 48)); [lia|lia|vm_compute; intuition discriminate|by vm_compute]. Defined.
Example found_1000 : target (rounds 1000 1280 false SECOND (every_second 21) mtu_default) = 992.
Proof. vm_compute. reflexivity. Qed.
#[local] Existing Instance uuid_rfc.
Lemma probe_fills_mtu_witness :
  1312 = 1280 + 32 /\
  exists packet, Co.encode_ip (V4 0x0a000001) (V4 0x0a000002) (Co.mkCoordination 2 (replicate 16 x04) (Co.MtuProbe 1224)) = Ok packet /\
    lenN packet = 1280 /\ Co.decode_ip packet = Ok (Co.mkCoordination 2 (replicate 16 x04) (Co.MtuProbe 1224)).
Proof. apply (probe_fills_mtu 1280 false (Co.MtuProbe 1224) 1312); by vm_compute. Defined.

End Pm.
