(* ===== verification/Connectivity.v ===== *)
(** * Path selection between Peers (peerward-peer-core wireguard_connectivity.rs,
    wireguard_checks.rs)

    Per remote Peer: the candidate endpoints it advertised, the pairs of local and
    remote endpoints to try, the checks in flight and the path a check has proved.
    Relay connectivity needs none of this; a direct path is used only while it is
    verified.

    Times are nanoseconds, as in PathMtu.v. The random transactions are the answers
    of the operating system, in the order in which they are drawn ([draws] counts
    them). The process-wide counters are passed in: [CHECKS] counts the permits the
    pending checks own, so that only those held elsewhere are an argument. *)

From S2P Require Import Prelude Ordered Net Coordination PathMtu.
From Stdlib Require Import NArith Lia.
From stdpp Require Import base tactics decidable countable numbers list gmap.
From Stdlib.Init Require Import Byte.
Set Default Goal Selector "!".
Local Open Scope N_scope.

Module Cn.
Notation SECOND := Pm.SECOND (only parsing).
Notation MILLI := Pm.MILLI (only parsing).
Notation presult := (outcome Co.PeerError).
Notation Key := (list byte) (only parsing).

#[local] Existing Instance Co.Message_eq_dec.

(** [transaction]: 16 random bytes, the n-th call. *)
Definition random `{OsRng} (n : nat) : list byte := fill_bytes n 16.

Definition MAX_PEERS : N := 256.
Definition MESH_CHECKS : N := 64.
Definition PROCESS_CHECKS : N := 256.
Definition ACTIVE_HEALTH_LIFETIME : N := 2500 * MILLI.
Definition wrapping_add (a b : N) : N := (a + b) mod 2 ^ 64.

(** ** Data *)

Record Rate := mkRate { since : N; count : N }.
Definition allow (now maximum : N) (self : Rate) : Rate * bool :=
  let self := if SECOND <=? now - since self then mkRate now 0 else self in
  if maximum <=? count self then (self, false) else (mkRate (since self) (count self + 1), true).

Record Route := mkRoute { endpoint : SocketAddr; source : option SocketAddr }.
#[export] Instance Route_eq_dec : EqDecision Route.
Proof. solve_decision. Defined.
#[export] Instance Route_countable : Countable Route.
Proof. apply (inj_countable' (fun r => (endpoint r, source r)) (fun p => mkRoute p.1 p.2)). by intros []. Defined.

Record Check := mkCheck { ck_route : Route; ck_sent : N; ck_limit : option N }.
Record Verified := mkVerified { v_route : Route; v_confirmed : N; v_selected : N; v_mtu : Pm.Mtu }.

Record Track := mkTrack {
  tr_local : list byte;
  tr_candidates : list SocketAddr;
  tr_pairs : list Route;
  tr_advertised : list SocketAddr;
  tr_remote_generation : option N;
  tr_next : N;
  tr_pending : gmap (list byte) Check;
  tr_verified : option Verified;
  tr_quality : gmap Route Pm.Quality;
  tr_last_alternative : option N;
  tr_candidate_tx : list byte;
  tr_candidate_ack : bool;
  tr_candidate_sent : option N;
  tr_last_check : option N;
  tr_last_activity : N;
  tr_rate_since : N;
  tr_rate_count : N;
}.

Record Connectivity := mkConnectivity {
  generation : N;
  generation_ceiling : N;
  candidates : list SocketAddr;
  local_paths : option (list SocketAddr);
  peers : gmap (list byte) Track;
  cursor : N;
  messages : Rate;
  draws : nat;
}.
Record Send := mkSend {
  sd_local : Key;
  sd_remote : Key;
  sd_endpoint : option SocketAddr;
  sd_source : option SocketAddr;
  sd_coordination : Co.Coordination;
}.

(** Assignments to fields. *)
Definition set_activity (x_last_activity : N) (t : Track) : Track :=
  mkTrack (tr_local t) (tr_candidates t) (tr_pairs t) (tr_advertised t) (tr_remote_generation t) (tr_next t)
    (tr_pending t) (tr_verified t) (tr_quality t) (tr_last_alternative t) (tr_candidate_tx t) (tr_candidate_ack t)
    (tr_candidate_sent t) (tr_last_check t) x_last_activity (tr_rate_since t) (tr_rate_count t).
Definition set_rate (x_rate_since : N) (x_rate_count : N) (t : Track) : Track :=
  mkTrack (tr_local t) (tr_candidates t) (tr_pairs t) (tr_advertised t) (tr_remote_generation t) (tr_next t)
    (tr_pending t) (tr_verified t) (tr_quality t) (tr_last_alternative t) (tr_candidate_tx t) (tr_candidate_ack t)
    (tr_candidate_sent t) (tr_last_check t) (tr_last_activity t) x_rate_since x_rate_count.
Definition set_pairs (x_pairs : list Route) (t : Track) : Track :=
  mkTrack (tr_local t) (tr_candidates t) x_pairs (tr_advertised t) (tr_remote_generation t) (tr_next t) (tr_pending t)
    (tr_verified t) (tr_quality t) (tr_last_alternative t) (tr_candidate_tx t) (tr_candidate_ack t)
    (tr_candidate_sent t) (tr_last_check t) (tr_last_activity t) (tr_rate_since t) (tr_rate_count t).
Definition set_candidate_ack (x_candidate_ack : bool) (t : Track) : Track :=
  mkTrack (tr_local t) (tr_candidates t) (tr_pairs t) (tr_advertised t) (tr_remote_generation t) (tr_next t)
    (tr_pending t) (tr_verified t) (tr_quality t) (tr_last_alternative t) (tr_candidate_tx t) x_candidate_ack
    (tr_candidate_sent t) (tr_last_check t) (tr_last_activity t) (tr_rate_since t) (tr_rate_count t).
Definition set_candidate_sent (x_candidate_sent : option N) (t : Track) : Track :=
  mkTrack (tr_local t) (tr_candidates t) (tr_pairs t) (tr_advertised t) (tr_remote_generation t) (tr_next t)
    (tr_pending t) (tr_verified t) (tr_quality t) (tr_last_alternative t) (tr_candidate_tx t)
    (tr_candidate_ack t) x_candidate_sent (tr_last_check t) (tr_last_activity t) (tr_rate_since t) (tr_rate_count t).
Definition set_last_check (x_last_check : option N) (t : Track) : Track :=
  mkTrack (tr_local t) (tr_candidates t) (tr_pairs t) (tr_advertised t) (tr_remote_generation t) (tr_next t)
    (tr_pending t) (tr_verified t) (tr_quality t) (tr_last_alternative t) (tr_candidate_tx t) (tr_candidate_ack t)
    (tr_candidate_sent t) x_last_check (tr_last_activity t) (tr_rate_since t) (tr_rate_count t).
Definition set_next (x_next : N) (t : Track) : Track :=
  mkTrack (tr_local t) (tr_candidates t) (tr_pairs t) (tr_advertised t) (tr_remote_generation t) x_next (tr_pending t)
    (tr_verified t) (tr_quality t) (tr_last_alternative t) (tr_candidate_tx t) (tr_candidate_ack t)
    (tr_candidate_sent t) (tr_last_check t) (tr_last_activity t) (tr_rate_since t) (tr_rate_count t).
Definition set_alternative (x_last_alternative : option N) (t : Track) : Track :=
  mkTrack (tr_local t) (tr_candidates t) (tr_pairs t) (tr_advertised t) (tr_remote_generation t) (tr_next t)
    (tr_pending t) (tr_verified t) (tr_quality t) x_last_alternative (tr_candidate_tx t) (tr_candidate_ack t)
    (tr_candidate_sent t) (tr_last_check t) (tr_last_activity t) (tr_rate_since t) (tr_rate_count t).
Definition set_verified (x_verified : option Verified) (t : Track) : Track :=
  mkTrack (tr_local t) (tr_candidates t) (tr_pairs t) (tr_advertised t) (tr_remote_generation t) (tr_next t)
    (tr_pending t) x_verified (tr_quality t) (tr_last_alternative t) (tr_candidate_tx t) (tr_candidate_ack t)
    (tr_candidate_sent t) (tr_last_check t) (tr_last_activity t) (tr_rate_since t) (tr_rate_count t).
Definition set_checks (x_pending : gmap (list byte) Check) (x_verified : option Verified) (x_quality : gmap Route Pm.Quality) (t : Track) : Track :=
  mkTrack (tr_local t) (tr_candidates t) (tr_pairs t) (tr_advertised t) (tr_remote_generation t)
    (tr_next t) x_pending x_verified x_quality (tr_last_alternative t) (tr_candidate_tx t) (tr_candidate_ack t)
    (tr_candidate_sent t) (tr_last_check t) (tr_last_activity t) (tr_rate_since t) (tr_rate_count t).
Definition set_pending (x_pending : gmap (list byte) Check) (t : Track) : Track :=
  mkTrack (tr_local t) (tr_candidates t) (tr_pairs t) (tr_advertised t) (tr_remote_generation t) (tr_next t) x_pending
    (tr_verified t) (tr_quality t) (tr_last_alternative t) (tr_candidate_tx t) (tr_candidate_ack t)
    (tr_candidate_sent t) (tr_last_check t) (tr_last_activity t) (tr_rate_since t) (tr_rate_count t).
Definition set_discovered (x_candidates : list SocketAddr) (x_pairs : list Route) (x_next : N) (x_last_check : option N) (t : Track) : Track :=
  mkTrack (tr_local t) x_candidates x_pairs (tr_advertised t) (tr_remote_generation t) x_next (tr_pending t)
    (tr_verified t) (tr_quality t) (tr_last_alternative t) (tr_candidate_tx t) (tr_candidate_ack t)
    (tr_candidate_sent t) x_last_check (tr_last_activity t) (tr_rate_since t) (tr_rate_count t).
Definition set_peers (ps : gmap (list byte) Track) (c : Connectivity) : Connectivity :=
  mkConnectivity (generation c) (generation_ceiling c) (candidates c) (local_paths c) ps (cursor c) (messages c) (draws c).
Definition set_messages (r : Rate) (c : Connectivity) : Connectivity :=
  mkConnectivity (generation c) (generation_ceiling c) (candidates c) (local_paths c) (peers c) (cursor c) r (draws c).

(** ** Pairs of endpoints *)

(** [source.is_ipv4() == endpoint.is_ipv4()], for the choice at one offset. *)
Definition pair_at (local : list SocketAddr) (offset index : nat) (remote : SocketAddr) : list Route :=
  match local !! ((index + offset) mod length local)%nat with
  | Some s => if bool_decide (socket_is_ipv4 s = socket_is_ipv4 remote) then [mkRoute remote (Some s)] else []
  | None => []
  end.
Definition pairs (local : option (list SocketAddr)) (remote : list SocketAddr) : list Route :=
  match local with
  | None => (fun e => mkRoute e None) <$> remote
  | Some local => take 128 (concat ((fun offset => concat (imap (pair_at local offset) remote)) <$> seq 0 (length local)))
  end.

(** ** Operations *)

Section operations.
Context `{OsRng}.

Definition new (g now : N) : Connectivity := mkConnectivity g U64_MAX [] None ∅ 0 (mkRate now 0) 0.
Definition reserve_generation (start ceiling : N) (c : Connectivity) : Connectivity :=
  mkConnectivity start ceiling (candidates c) (local_paths c) (peers c) (cursor c) (messages c) (draws c).

(** The loop of [update]: every track starts over, with a transaction of its own. *)
Definition restart (paths : option (list SocketAddr)) (tx : list byte) (t : Track) : Track :=
  mkTrack (tr_local t) (tr_candidates t) (pairs paths (tr_candidates t)) (tr_advertised t) (tr_remote_generation t) 0
    ∅ None ∅ None tx false None None (tr_last_activity t) (tr_rate_since t) (tr_rate_count t).
Definition restart_all (c : Connectivity) : gmap (list byte) Track :=
  list_to_map (imap (fun i e => (e.1, restart (local_paths c) (random (draws c + i)) e.2)) (bt_entries (peers c))).
Definition update (cands : list SocketAddr) (c : Connectivity) : Connectivity * presult unit :=
  match Co.validate_candidates cands with
  | Ok _ =>
      if generation_ceiling c <=? generation c then (c, Err Co.Checkpoint) else
      match checked_add (generation c) 1 with
      | None => (c, Err Co.Closed)
      | Some g =>
          (mkConnectivity g (generation_ceiling c) cands (local_paths c) (restart_all c) (cursor c) (messages c)
             (draws c + size (peers c)), Ok tt)
      end
  | Err e => (c, Err e)
  | Panic => (c, Panic)
  end.
Definition set_local_paths (local : list SocketAddr) (c : Connectivity) : Connectivity :=
  mkConnectivity (generation c) (generation_ceiling c) (candidates c) (Some local)
    ((fun t => set_pairs (pairs (Some local) (tr_candidates t)) t) <$> peers c) (cursor c) (messages c) (draws c).
Definition update_paths (local cands : list SocketAddr) (c : Connectivity) : Connectivity * presult unit :=
  match Co.validate_candidates local with
  | Ok _ =>
      if 8 <? lenN local then (c, Err Co.QueueFull) else
      match Co.validate_candidates cands with
      | Ok _ => match update cands c with (c', Ok _) => (set_local_paths local c', Ok tt) | failed => failed end
      | Err e => (c, Err e)
      | Panic => (c, Panic)
      end
  | Err e => (c, Err e)
  | Panic => (c, Panic)
  end.
Definition resume (c : Connectivity) : Connectivity * presult unit := update (candidates c) c.

(** [min_by_key(last_activity)] among the tracks idle for a minute: the first one. *)
Definition older (now : N) (best : option (list byte * N)) (e : list byte * Track) : option (list byte * N) :=
  if 60 * SECOND <? now - tr_last_activity e.2 then
    match best with
    | Some (_, a) => if tr_last_activity e.2 <? a then Some (e.1, tr_last_activity e.2) else best
    | None => Some (e.1, tr_last_activity e.2)
    end
  else best.
Definition oldest_idle (now : N) (ps : gmap (list byte) Track) : option (list byte) :=
  fst <$> foldl (older now) None (bt_entries ps).
Definition fresh_track (local tx : list byte) (now : N) : Track :=
  mkTrack local [] [] [] None 0 ∅ None ∅ None tx false None None now now 0.
Definition insert_track (local remote : Key) (now : N) (c : Connectivity) : Connectivity :=
  mkConnectivity (generation c) (generation_ceiling c) (candidates c) (local_paths c)
    (<[remote := fresh_track local (random (draws c)) now]> (peers c)) (cursor c) (messages c) (draws c + 1).
Definition make_room (local remote : Key) (now : N) (c : Connectivity) : Connectivity :=
  if MAX_PEERS <=? N.of_nat (size (peers c)) then
    match oldest_idle now (peers c) with
    | Some key => insert_track local remote now (set_peers (delete key (peers c)) c)
    | None => c
    end
  else insert_track local remote now c.
Definition touch (local remote : Key) (now : N) (c : Connectivity) : Connectivity :=
  match peers c !! remote with
  | Some t =>
      if bool_decide (tr_local t = local) then set_peers (<[remote := set_activity now t]> (peers c)) c
      else make_room local remote now (set_peers (delete remote (peers c)) c)
  | None => make_room local remote now c
  end.
Definition retain (authorized : Key -> Key -> bool) (c : Connectivity) : Connectivity :=
  set_peers (filter (fun e => authorized (tr_local e.2) e.1 = true) (peers c)) c.
Definition clear (c : Connectivity) : Connectivity := set_peers ∅ c.

Definition health_lifetime (t : Track) (now : N) : N :=
  if 30 * SECOND <? now - tr_last_activity t then 30 * SECOND else ACTIVE_HEALTH_LIFETIME.
Definition route (remote : Key) (now ciphertext_len : N) (c : Connectivity) : option Route :=
  t ← peers c !! remote;
  v ← tr_verified t;
  let lifetime := health_lifetime t now in
  if (now - v_confirmed v <? lifetime) && (ciphertext_len <=? Pm.limit now lifetime 96 (v_mtu v)) then Some (v_route v) else None.
Definition endpoint_of (remote : Key) (now ciphertext_len : N) (c : Connectivity) : option SocketAddr :=
  endpoint <$> route remote now ciphertext_len c.
Definition verified (now : N) (c : Connectivity) : list Key :=
  filter (fun key => is_Some (endpoint_of key now 32 c)) (bt_entries (peers c)).*1.

(** ** A received message *)

(** [track.rate_since], [track.rate_count]: the track counts, and refuses above 32. *)
Definition rate_track (now : N) (t : Track) : Track :=
  let t := if SECOND <=? now - tr_rate_since t then set_rate now 0 t else t in
  set_rate (tr_rate_since t) (N.min (tr_rate_count t + 1) U16_MAX) t.

Definition on_candidates (paths : option (list SocketAddr)) (g : N) (cands : list SocketAddr) (src : option SocketAddr)
    (t : Track) : Track * presult (option Co.Message) :=
  if bool_decide (is_Some src)
     || match tr_remote_generation t with Some known => g <? known | None => false end
     || (bool_decide (tr_remote_generation t = Some g) && negb (bool_decide (tr_advertised t = cands)))
  then (t, Err Co.InvalidPacket) else
  if bool_decide (tr_remote_generation t = Some g) then (t, Ok (Some Co.CandidatesAck)) else
  let ps := pairs paths cands in
  (mkTrack (tr_local t) cands ps cands (Some g) 0 ∅ None (filter (fun e => e.1 ∈ ps) (tr_quality t)) None
     (tr_candidate_tx t) (tr_candidate_ack t) (tr_candidate_sent t) None (tr_last_activity t) (tr_rate_since t) (tr_rate_count t),
   Ok (Some Co.CandidatesAck)).

Definition on_candidates_ack (own : N) (m : Co.Coordination) (src : option SocketAddr) (t : Track)
    : Track * presult (option Co.Message) :=
  if bool_decide (is_Some src) || negb (Co.generation m =? own) || negb (bool_decide (Co.transaction m = tr_candidate_tx t))
  then (t, Err Co.InvalidPacket) else (set_candidate_ack true t, Ok None).

Definition learn_endpoint (e : SocketAddr) (t : Track) : Track :=
  if negb (bool_decide (e ∈ tr_candidates t)) && (lenN (tr_candidates t) <? 32)
  then set_discovered (e :: tr_candidates t) (tr_pairs t) 0 None t else t.
Definition learn_route (r : Route) (t : Track) : Track :=
  if bool_decide (endpoint r ∈ tr_candidates t) && negb (bool_decide (r ∈ tr_pairs t)) && (lenN (tr_pairs t) <? 128)
  then set_discovered (tr_candidates t) (r :: tr_pairs t) 0 None t else t.
Definition on_probe (src local : option SocketAddr) (t : Track) : Track * presult (option Co.Message) :=
  match src with
  | Some e =>
      if Co.valid_endpoint e then (learn_route (mkRoute e local) (learn_endpoint e t), Ok (Some Co.ProbeAck))
      else (t, Err Co.InvalidPacket)
  | None => (t, Err Co.InvalidPacket)
  end.

(** Whether an acknowledged route takes the place of the verified one. *)
Definition replaces (r : Route) (now : N) (q : gmap Route Pm.Quality) (v : option Verified) : bool :=
  match v with
  | None => true
  | Some old =>
      bool_decide (v_route old = r)
      || (ACTIVE_HEALTH_LIFETIME <=? now - v_confirmed old)
      || ((5 * SECOND <=? now - v_selected old)
          && match q !! v_route old with
             | Some old_quality =>
                 Pm.score (default Pm.quality_default (q !! r)) + 5 * MILLI <? Pm.mul_f32 Pm.four_fifths (Pm.score old_quality)
             | None => false
             end)
  end.
Definition verify (r : Route) (lim : option N) (now : N) (v : option Verified) : Verified :=
  let same := match v with Some old => if bool_decide (v_route old = r) then Some old else None | None => None end in
  let mtu := match same with Some old => v_mtu old | None => Pm.mtu_default end in
  mkVerified r now (match same with Some old => v_selected old | None => now end)
    (match lim with Some l => Pm.confirm l now mtu | None => mtu end).
Definition acknowledge (r : Route) (check : Check) (now : N) (q : gmap Route Pm.Quality) : gmap Route Pm.Quality :=
  let entry := default Pm.quality_default (q !! r) in
  <[r := match ck_limit check with None => Pm.success (now - ck_sent check) now entry | Some _ => entry end]> q.
Definition on_probe_ack (own : N) (m : Co.Coordination) (src local : option SocketAddr) (now : N) (t : Track)
    : Track * presult (option Co.Message) :=
  match src with
  | None => (t, Err Co.InvalidPacket)
  | Some e =>
      if negb (Co.generation m =? own) then (t, Err Co.InvalidPacket) else
      match tr_pending t !! Co.transaction m with
      | None => (t, Err Co.InvalidPacket)
      | Some check =>
          let r := mkRoute e local in
          if negb (bool_decide (ck_route check = r)) || (SECOND <=? now - ck_sent check) then (t, Err Co.InvalidPacket) else
          let q := acknowledge r check now (tr_quality t) in
          (set_checks (delete (Co.transaction m) (tr_pending t))
             (if replaces r now q (tr_verified t) then Some (verify r (ck_limit check) now (tr_verified t)) else tr_verified t) q t,
           Ok None)
      end
  end.

Definition respond (c : Connectivity) (m : Co.Coordination) (src local : option SocketAddr) (now : N) (t : Track)
    : Track * presult (option Co.Message) :=
  match Co.message m with
  | Co.GatewayProbe _ | Co.GatewayAck _ _ => (t, Err Co.InvalidPacket)
  | Co.Candidates cands => on_candidates (local_paths c) (Co.generation m) cands src t
  | Co.CandidatesAck => on_candidates_ack (generation c) m src t
  | Co.Probe | Co.MtuProbe _ => on_probe src local t
  | Co.ProbeAck => on_probe_ack (generation c) m src local now t
  end.
Definition replies (local remote : Key) (m : Co.Coordination) (src local_endpoint : option SocketAddr)
    (answer : presult (option Co.Message)) : presult (list Send) :=
  match answer with
  | Ok (Some reply) =>
      Ok [mkSend local remote src local_endpoint (Co.mkCoordination (Co.generation m) (Co.transaction m) reply)]
  | Ok None => Ok []
  | Err e => Err e
  | Panic => Panic
  end.

(** What follows the two rate limits of the mesh and the process. *)
Definition receive_track (local remote : Key) (m : Co.Coordination) (src local_endpoint : option SocketAddr) (now : N)
    (c : Connectivity) : Connectivity * presult (list Send) :=
  let c := match peers c !! remote with
           | Some t => if bool_decide (tr_local t = local) then c else touch local remote now c
           | None => touch local remote now c
           end in
  match peers c !! remote with
  | None => (c, Err Co.QueueFull)
  | Some t =>
      let t := rate_track now t in
      if 32 <? tr_rate_count t then (set_peers (<[remote := t]> (peers c)) c, Err Co.QueueFull) else
      let '(t, answer) := respond c m src local_endpoint now t in
      (set_peers (<[remote := t]> (peers c)) c, replies local remote m src local_endpoint answer)
  end.
(** [rate] is the process-wide [MESSAGES], created at its first use. *)
Definition receive_on (local remote : Key) (m : Co.Coordination) (src local_endpoint : option SocketAddr) (now : N)
    (rate : option Rate) (c : Connectivity) : option Rate * (Connectivity * presult (list Send)) :=
  if match local_endpoint with
     | Some e => match local_paths c with None => true | Some paths => negb (bool_decide (e ∈ paths)) end
     | None => false
     end
  then (rate, (c, Err Co.InvalidPacket)) else
  let '(own, ok) := allow now 1024 (messages c) in
  let c := set_messages own c in
  if negb ok then (rate, (c, Err Co.QueueFull)) else
  let '(shared, ok) := allow now 4096 (default (mkRate now 0) rate) in
  (Some shared, if negb ok then (c, Err Co.QueueFull) else receive_track local remote m src local_endpoint now c).

(** ** The periodic poll (wireguard_checks.rs) *)

(** The [retain] of the pending checks: those a second old are lost, in the order of
    their transactions. *)
Definition alive (now : N) (check : Check) : bool := now - ck_sent check <? SECOND.
Definition lose (now : N) (acc : option Verified * gmap Route Pm.Quality) (check : Check) : option Verified * gmap Route Pm.Quality :=
  let '(v, q) := acc in
  match ck_limit check with
  | None => (v, <[ck_route check := Pm.failure (default Pm.quality_default (q !! ck_route check))]> q)
  | Some l =>
      (match v with
       | Some old =>
           if bool_decide (v_route old = ck_route check)
           then Some (mkVerified (v_route old) (v_confirmed old) (v_selected old) (Pm.failed now l (v_mtu old))) else v
       | None => None
       end, q)
  end.
Definition expire_checks (now : N) (t : Track) : Track :=
  let lost := filter (fun check => alive now check = false) (bt_entries (tr_pending t)).*2 in
  let '(v, q) := foldl (lose now) (tr_verified t, tr_quality t) lost in
  set_checks (filter (fun e => alive now e.2 = true) (tr_pending t)) v q t.
Definition pending_total (ps : gmap (list byte) Track) : N := map_sum (fun t => N.of_nat (size (tr_pending t))) ps.

(** [track.pending.values().any(|check| check.route == route)] *)
Definition busy (r : Route) (t : Track) : bool :=
  existsb (fun check => bool_decide (ck_route check = r)) (bt_entries (tr_pending t)).*2.
Definition pair_next (t : Track) : option Route := tr_pairs t !! N.to_nat (tr_next t mod lenN (tr_pairs t)).
Definition advance (t : Track) : Track := set_next (wrapping_add (tr_next t) 1) t.

(** The next pair that is neither the verified route nor being checked. *)
Fixpoint alternative (n : nat) (current : Route) (t : Track) : Track * option Route :=
  match n with
  | O => (t, None)
  | S n' =>
      match pair_next t with
      | Some r => if negb (bool_decide (r = current)) && negb (busy r t) then (advance t, Some r) else alternative n' current (advance t)
      | None => (t, None)
      end
  end.
(** The next pairs, without those being checked. *)
Fixpoint unproved (n : nat) (t : Track) : Track * list Route :=
  match n with
  | O => (t, [])
  | S n' =>
      match pair_next t with
      | Some r => let '(t', rest) := unproved n' (advance t) in (t', if busy r t then rest else r :: rest)
      | None => (t, [])
      end
  end.

Notation probe_target := (Route * Co.Message * option N)%type (only parsing).
Definition plain (r : Route) : probe_target := (r, Co.Probe, None).
Definition route_targets (now : N) (idle : bool) (available : N) (t : Track) : Track * list probe_target :=
  match tr_verified t with
  | Some v =>
      if now - v_confirmed v <? health_lifetime t now then
        if negb idle && match tr_last_alternative t with Some last => 5 * SECOND <=? now - last | None => true end then
          match alternative (length (tr_pairs t)) (v_route v) t with
          | (t, Some r) => (set_alternative (Some now) t, [plain (v_route v); plain r])
          | (t, None) => (t, [plain (v_route v)])
          end
        else (t, [plain (v_route v)])
      else let '(t, rs) := unproved (Nat.min (Nat.min (length (tr_pairs t)) (4 - size (tr_pending t))) (N.to_nat available)) t in
           (t, plain <$> rs)
  | None => let '(t, rs) := unproved (Nat.min (Nat.min (length (tr_pairs t)) (4 - size (tr_pending t))) (N.to_nat available)) t in
            (t, plain <$> rs)
  end.
Definition with_mtu (v : Verified) (m : Pm.Mtu) : Verified := mkVerified (v_route v) (v_confirmed v) (v_selected v) m.
Definition mtu_target (now mtu interval : N) (address : Key -> option IpAddr) (t : Track) : Track * list probe_target :=
  match tr_verified t with
  | Some v =>
      if now - v_confirmed v <? interval + 2 * SECOND then
        match address (tr_local t) with
        | Some a =>
            let '(m, probe) := Pm.next mtu (is_ipv6 a) now interval (v_mtu v) in
            (set_verified (Some (with_mtu v m)) t,
             match probe with Some (message, lim) => [(v_route v, message, Some lim)] | None => [] end)
        | None => (t, [])
        end
      else (t, [])
  | None => (t, [])
  end.

(** What the loop over the targets changes: the track, what is left of the mesh's
    checks, the permits taken in the process, the draws. *)
Record budget := mkBudget { available : N; permits : N; drawn : nat }.
Fixpoint send_checks (g : N) (key : Key) (now : N) (targets : list probe_target) (b : budget) (t : Track)
    : budget * Track * list Send :=
  match targets with
  | [] => (b, t, [])
  | (r, message, lim) :: rest =>
      if (available b =? 0) || (4 <=? N.of_nat (size (tr_pending t))) then (b, t, []) else
      if PROCESS_CHECKS <=? permits b then (b, t, []) else
      let t := match lim, tr_verified t with
               | Some _, Some v => set_verified (Some (with_mtu v (Pm.mark_sent now (v_mtu v)))) t
               | _, _ => t
               end in
      let tx := random (drawn b) in
      let replaced := match tr_pending t !! tx with Some _ => 1 | None => 0 end in
      let t := set_pending (<[tx := mkCheck r now lim]> (tr_pending t)) t in
      let '(b', t', sends) := send_checks g key now rest (mkBudget (available b - 1) (permits b + 1 - replaced) (drawn b + 1)) t in
      (b', t', mkSend (tr_local t) key (Some (endpoint r)) (source r) (Co.mkCoordination g tx message) :: sends)
  end.

Definition advertise (g : N) (cands : list SocketAddr) (key : Key) (now : N) (t : Track) : Track * list Send :=
  if negb (tr_candidate_ack t)
     && match tr_candidate_sent t with Some s => 2 * SECOND <=? now - s | None => true end
  then (set_candidate_sent (Some now) t,
        [mkSend (tr_local t) key None None (Co.mkCoordination g (tr_candidate_tx t) (Co.Candidates cands))])
  else (t, []).
Definition check_paths (g : N) (key : Key) (now mtu : N) (address : Key -> option IpAddr) (b : budget) (t : Track)
    : budget * Track * list Send :=
  let idle := 30 * SECOND <? now - tr_last_activity t in
  let interval := if idle then 25 * SECOND else SECOND in
  if Pm.opt_lt_since (tr_last_check t) now interval then (b, t, []) else
  if (available b =? 0) || (4 <=? N.of_nat (size (tr_pending t))) then (b, t, []) else
  let t := set_last_check (Some now) t in
  let '(t, targets) := route_targets now idle (available b) t in
  let '(t, sized) := mtu_target now mtu interval address t in
  send_checks g key now (targets ++ sized) b t.
Definition poll_track (c : Connectivity) (now mtu : N) (address : Key -> option IpAddr) (key : Key) (b : budget) (t : Track)
    : budget * Track * list Send :=
  let '(t, offers) := advertise (generation c) (candidates c) key now t in
  let '(b, t, checks) := check_paths (generation c) key now mtu address b t in
  (b, t, offers ++ checks).

(** [keys[(cursor + offset) % keys.len()]] for every offset. *)
Definition rotated (cur : N) (keys : list Key) : list Key :=
  let k := N.to_nat (cur mod lenN keys) in drop k keys ++ take k keys.
Fixpoint poll_keys (c : Connectivity) (now mtu : N) (address : Key -> option IpAddr) (keys : list Key) (b : budget)
    (ps : gmap (list byte) Track) : budget * gmap (list byte) Track * list Send :=
  match keys with
  | [] => (b, ps, [])
  | key :: rest =>
      match ps !! key with
      | Some t =>
          let '(b, t, sends) := poll_track c now mtu address key b t in
          let '(b, ps, more) := poll_keys c now mtu address rest b (<[key := t]> ps) in
          (b, ps, sends ++ more)
      | None => (b, ps, [])
      end
  end.
(** [elsewhere]: the permits that checks of other meshes of the process hold. *)
Definition poll_with_mtu (elsewhere now mtu : N) (address : Key -> option IpAddr) (c : Connectivity) : Connectivity * list Send :=
  let ps := expire_checks now <$> peers c in
  let total := pending_total ps in
  let '(b, ps, output) := poll_keys c now mtu address (rotated (cursor c) (bt_entries ps).*1)
                            (mkBudget (MESH_CHECKS - total) (elsewhere + total) (draws c)) ps in
  (mkConnectivity (generation c) (generation_ceiling c) (candidates c) (local_paths c) ps (wrapping_add (cursor c) 1)
     (messages c) (drawn b), output).
End operations.

(** ** Tracks are bounded and consistent *)

Record track_wf (t : Track) : Prop := {
  tw_candidates : lenN (tr_candidates t) <= 32;
  tw_pairs : lenN (tr_pairs t) <= 128;
  tw_pending : N.of_nat (size (tr_pending t)) <= 4;
  tw_checks : forall tx ck, tr_pending t !! tx = Some ck -> ck_route ck ∈ tr_pairs t;
  tw_quality : forall r, is_Some (tr_quality t !! r) -> r ∈ tr_pairs t;
  tw_verified : forall v, tr_verified t = Some v -> v_route v ∈ tr_pairs t;
}.

Lemma pairs_len local remote : lenN remote <= 32 -> lenN (pairs local remote) <= 128.
Proof. unfold pairs, lenN. destruct local; [rewrite length_take|rewrite length_fmap]; lia. Qed.
Lemma fresh_wf local tx now : track_wf (fresh_track local tx now).
Proof.
  split; cbn; [by vm_compute..| | |done]; [intros ? ? Hx|intros r [q Hx]]; by rewrite lookup_empty in Hx.
Qed.
Lemma restart_wf paths tx t : track_wf t -> track_wf (restart paths tx t).
Proof.
  intros []. split; cbn; try done; [by apply pairs_len|].
  intros r [q Hq]. by rewrite lookup_empty in Hq.
Qed.

(** The fields a step leaves alone. *)
Record same_but_pairs (t t' : Track) : Prop := {
  sb_candidates : tr_candidates t' = tr_candidates t;
  sb_pairs : tr_pairs t' = tr_pairs t;
  sb_pending : tr_pending t' = tr_pending t;
  sb_verified : tr_verified t' = tr_verified t;
  sb_quality : tr_quality t' = tr_quality t;
}.
Lemma same_wf t t' : same_but_pairs t t' -> track_wf t -> track_wf t'.
Proof. intros [H1 H2 H3 H4 H5] []. split; by rewrite ?H1, ?H2, ?H3, ?H4, ?H5. Qed.
Lemma same_refl t : same_but_pairs t t.
Proof. by split. Qed.
Lemma same_trans t u v : same_but_pairs t u -> same_but_pairs u v -> same_but_pairs t v.
Proof. intros [] []. split; congruence. Qed.
Lemma rate_same now t : same_but_pairs t (rate_track now t).
Proof. unfold rate_track. by case_match. Qed.
Lemma advance_same t : same_but_pairs t (advance t).
Proof. by split. Qed.

Lemma learn_endpoint_wf e t : track_wf t -> track_wf (learn_endpoint e t).
Proof.
  intros Hw. unfold learn_endpoint. case_bool_decide; cbn [negb andb]; [done|].
  destruct (N.ltb_spec (lenN (tr_candidates t)) 32); [|done]. destruct Hw. split; cbn; try done. rewrite lenN_cons. lia.
Qed.
Lemma learn_route_wf r t : track_wf t -> track_wf (learn_route r t).
Proof.
  intros Hw. unfold learn_route. destruct (_ && _ && _) eqn:Hb; [|done]. breflect. destruct Hw.
  split; cbn; try done; [rewrite lenN_cons; lia|..].
  - intros tx ck Hx. right. by eapply tw_checks0.
  - intros q Hx. right. by apply tw_quality0.
  - intros v Hx. right. by apply tw_verified0.
Qed.

Definition message_bounded (m : Co.Coordination) : Prop :=
  match Co.message m with Co.Candidates l => lenN l <= Co.MAX_CANDIDATES | _ => True end.

Lemma on_candidates_wf paths g cands src t : lenN cands <= 32 -> track_wf t -> track_wf (on_candidates paths g cands src t).1.
Proof.
  intros Hl Hw. unfold on_candidates. destruct (_ || _ || _); [done|]. case_bool_decide; [done|]. cbn [fst].
  split; cbn; try done; [by apply pairs_len|].
  intros r [q [_ Hq]%map_lookup_filter_Some]. exact Hq.
Qed.
Lemma lookup_delete_pending t tx k ck : delete tx (tr_pending t) !! k = Some ck -> tr_pending t !! k = Some ck.
Proof. by intros [_ ?]%lookup_delete_Some. Qed.
Lemma on_probe_ack_wf own m src local now t : track_wf t -> track_wf (on_probe_ack own m src local now t).1.
Proof.
  intros Hw. unfold on_probe_ack. destruct src as [e|]; [|done]. destruct (negb _); [done|].
  destruct (tr_pending t !! Co.transaction m) as [ck|] eqn:Hck; [|done]. destruct (_ || _) eqn:Hb; [done|]. breflect.
  match goal with H : bool_decide _ = true |- _ => apply bool_decide_eq_true in H as Hr end. destruct Hw.
  assert (Hin : mkRoute e local ∈ tr_pairs t) by (rewrite <-Hr; by eapply tw_checks0). cbn [fst].
  split; cbn; try done.
  - pose proof (size_delete_le (tr_pending t) (Co.transaction m)). lia.
  - intros tx c Hc%lookup_delete_pending. by eapply tw_checks0.
  - unfold acknowledge. intros r [q [[<- _]|[_ Hq]]%lookup_insert_Some]; [done|]. apply tw_quality0. by eexists.
  - intros v. case_match; [|apply tw_verified0]. by intros [= <-].
Qed.
Lemma respond_wf c m src local now t : message_bounded m -> track_wf t -> track_wf (respond c m src local now t).1.
Proof.
  unfold message_bounded, respond, on_candidates_ack, on_probe. intros Hm Hw. destruct (Co.message m) as [l| | | |p|id|id b]; try done.
  - by apply on_candidates_wf.
  - destruct (_ || _ || _); [done|]. by apply (same_wf t).
  - destruct src as [e|]; [|done]. case_match; [|done]. by apply learn_route_wf, learn_endpoint_wf.
  - by apply on_probe_ack_wf.
  - destruct src as [e|]; [|done]. case_match; [|done]. by apply learn_route_wf, learn_endpoint_wf.
Qed.

(** Losing checks keeps the verified route and its proof, and touches only the
    quality of routes that were checked. *)
Record kept_verified (v v' : option Verified) : Prop := {
  kv_route : v_route <$> v' = v_route <$> v;
  kv_confirmed : v_confirmed <$> v' = v_confirmed <$> v;
  kv_selected : v_selected <$> v' = v_selected <$> v;
  kv_proof : (v_mtu <$> v') ≫= Pm.proof = (v_mtu <$> v) ≫= Pm.proof;
}.
Lemma kept_refl v : kept_verified v v.
Proof. by split. Qed.
Lemma kept_trans u v w : kept_verified u v -> kept_verified v w -> kept_verified u w.
Proof. intros [] []. split; congruence. Qed.
Lemma kept_Some v v' x : kept_verified v v' -> v' = Some x -> exists y, v = Some y /\ v_route y = v_route x /\
  v_confirmed y = v_confirmed x /\ Pm.proof (v_mtu y) = Pm.proof (v_mtu x).
Proof. intros [H1 H2 H3 H4] ->. destruct v as [y|]; cbn in *; [|done]. exists y. by simplify_eq. Qed.

Lemma lose_kept now acc ck : kept_verified acc.1 (lose now acc ck).1.
Proof.
  destruct acc as [v q]. unfold lose. destruct (ck_limit ck) as [lim|]; cbn [fst]; [|apply kept_refl].
  destruct v as [old|]; [|apply kept_refl]. case_bool_decide; [|apply kept_refl]. split; cbn; try done. by rewrite Pm.proof_failed.
Qed.
Lemma lose_quality now acc ck r : is_Some ((lose now acc ck).2 !! r) -> is_Some (acc.2 !! r) \/ r = ck_route ck.
Proof.
  destruct acc as [v q]. unfold lose. destruct (ck_limit ck) as [lim|]; cbn [snd]; [by left|].
  intros [x [[<- _]|[_ Hx]]%lookup_insert_Some]; [by right|left; by exists x].
Qed.
Lemma lose_all now l acc : kept_verified acc.1 (foldl (lose now) acc l).1 /\
  forall r, is_Some ((foldl (lose now) acc l).2 !! r) -> is_Some (acc.2 !! r) \/ r ∈ ck_route <$> l.
Proof.
  revert acc. induction l as [|ck l IH]; intros acc; [split; [apply kept_refl|by left]|].
  change (foldl (lose now) acc (ck :: l)) with (foldl (lose now) (lose now acc ck) l). destruct (IH (lose now acc ck)) as [Hk Hq]. split.
  - eapply kept_trans; [apply lose_kept|exact Hk].
  - intros r [[Hr| ->]%lose_quality|Hr]%Hq; [by left|right; by left|right; by right].
Qed.
Lemma expired_route now t r : r ∈ ck_route <$> filter (fun check => alive now check = false) (bt_entries (tr_pending t)).*2 ->
  exists tx ck, tr_pending t !! tx = Some ck /\ ck_route ck = r.
Proof.
  intros (ck & -> & [_ ([tx c] & -> & Hin)%list_elem_of_fmap]%list_elem_of_filter)%list_elem_of_fmap.
  exists tx, c. split; [by apply elem_of_bt_entries|done].
Qed.
Lemma expire_kept now t : kept_verified (tr_verified t) (tr_verified (expire_checks now t)) /\
  tr_pending (expire_checks now t) ⊆ tr_pending t /\ tr_pairs (expire_checks now t) = tr_pairs t /\
  forall tx ck, tr_pending (expire_checks now t) !! tx = Some ck -> now - ck_sent ck < SECOND.
Proof.
  unfold expire_checks. set (lost := filter _ _). destruct (lose_all now lost (tr_verified t, tr_quality t)) as [Hk _].
  destruct (foldl (lose now) _ lost) as [v q]. cbn. split; [done|]. split; [apply map_filter_subseteq|]. split; [done|].
  intros tx ck [_ Ha]%map_lookup_filter_Some. by apply N.ltb_lt.
Qed.
Lemma expire_track_wf now t : track_wf t -> track_wf (expire_checks now t).
Proof.
  intros Hw. destruct (expire_kept now t) as (Hk & Hs & Hp & _). revert Hk Hs Hp. unfold expire_checks. set (lost := filter _ _).
  pose proof (lose_all now lost (tr_verified t, tr_quality t)) as [_ Hq]. destruct (foldl (lose now) _ lost) as [v q]. cbn [fst snd] in Hq. cbn.
  intros Hk Hs _. destruct Hw. split; cbn; try done.
  - pose proof (map_subseteq_size _ _ Hs). lia.
  - intros tx ck [Hx _]%map_lookup_filter_Some. by eapply tw_checks0.
  - intros r [Hr|(tx & ck & Hx & <-)%expired_route]%Hq; [by apply tw_quality0|by eapply tw_checks0].
  - intros x Hx. destruct (kept_Some _ _ _ Hk Hx) as (y & Hy & <- & _). by apply tw_verified0.
Qed.

(** ** What a poll does to a track *)

(** The message of a check, and the ciphertext its acknowledgement proves. *)
Definition carries (m : Co.Message) (lim : option N) : Prop :=
  match lim with
  | None => m = Co.Probe
  | Some l => exists p, m = Co.MtuProbe p /\ (l = 32 + 56 + p \/ l = 32 + 76 + p)
  end.
Definition check_send (g : N) (local key tx : list byte) (r : Route) (m : Co.Message) : Send :=
  mkSend local key (Some (endpoint r)) (source r) (Co.mkCoordination g tx m).
(** The verified route and its confirmation stay; a size proof stays or is dropped. *)
Definition moved (v v' : option Verified) : Prop := forall x, v' = Some x -> exists y, v = Some y /\ v_route y = v_route x /\
  v_confirmed y = v_confirmed x /\ (Pm.proof (v_mtu x) = Pm.proof (v_mtu y) \/ Pm.proof (v_mtu x) = None).
Lemma moved_refl v : moved v v.
Proof. intros x ->. exists x. split; [done|]. split; [done|]. split; [done|by left]. Qed.
Lemma moved_trans u v w : moved u v -> moved v w -> moved u w.
Proof.
  intros Huv Hvw x (y & (z & -> & <- & <- & Hp)%Huv & <- & <- & Hq)%Hvw. exists z. split_and!; try done.
  destruct Hq as [->| ->]; [done|by right].
Qed.
Lemma kept_moved v v' : kept_verified v v' -> moved v v'.
Proof. intros Hk x Hx. destruct (kept_Some _ _ _ Hk Hx) as (y & ? & ? & ? & ?). exists y. split_and!; try done. by left. Qed.

Record polled (g : N) (key : list byte) (now : N) (sends : list Send) (t t' : Track) : Prop := {
  po_wf : track_wf t -> track_wf t';
  po_local : tr_local t' = tr_local t;
  po_checks : forall tx ck, tr_pending t' !! tx = Some ck -> tr_pending t !! tx = Some ck \/
    ck_sent ck = now /\ exists m, carries m (ck_limit ck) /\ check_send g (tr_local t) key tx (ck_route ck) m ∈ sends;
  po_verified : moved (tr_verified t) (tr_verified t');
}.
Lemma polled_mono g key now s s' t t' : s ⊆ s' -> polled g key now s t t' -> polled g key now s' t t'.
Proof. intros Hs []. split; try done. intros tx ck Hx. destruct (po_checks0 tx ck Hx) as [?|(? & m & ? & ?)]; [by left|right]. set_solver. Qed.
Lemma polled_trans g key now s t u v : polled g key now s t u -> polled g key now s u v -> polled g key now s t v.
Proof.
  intros [Hw1 Hl1 Hc1 Hv1] [Hw2 Hl2 Hc2 Hv2]. split; [auto|congruence| |by eapply moved_trans].
  intros tx ck [Hx|Hx]%Hc2; [by apply Hc1|]. rewrite Hl1 in Hx. by right.
Qed.
Lemma polled_same g key now s t t' : same_but_pairs t t' -> tr_local t' = tr_local t -> polled g key now s t t'.
Proof.
  intros Hs Hl. split; [by apply same_wf|done| |].
  - intros tx ck Hx. left. by rewrite <-(sb_pending _ _ Hs).
  - rewrite (sb_verified _ _ Hs). apply moved_refl.
Qed.

Lemma pair_next_in t r : pair_next t = Some r -> r ∈ tr_pairs t.
Proof. apply list_elem_of_lookup_2. Qed.
Lemma alternative_spec n current t : let '(t', o) := alternative n current t in
  same_but_pairs t t' /\ tr_local t' = tr_local t /\ forall r, o = Some r -> r ∈ tr_pairs t.
Proof.
  revert t. induction n as [|n IH]; intros t; cbn [alternative]; [split_and!; [apply same_refl|done|done]|].
  destruct (pair_next t) as [r|] eqn:Hr; [|split_and!; [apply same_refl|done|done]]. destruct (_ && _).
  - split; [apply advance_same|]. split; [done|]. intros ? [= <-]. by apply pair_next_in.
  - specialize (IH (advance t)). destruct (alternative n current (advance t)) as [t' o]. destruct IH as (Hs & Hl & Ho).
    split; [by eapply same_trans; [apply advance_same|]|done].
Qed.
Lemma unproved_spec n t : let '(t', l) := unproved n t in
  same_but_pairs t t' /\ tr_local t' = tr_local t /\ forall r, r ∈ l -> r ∈ tr_pairs t.
Proof.
  revert t. induction n as [|n IH]; intros t; cbn [unproved]; [split; [apply same_refl|]; split; [done|set_solver]|].
  destruct (pair_next t) as [r|] eqn:Hr; [|split; [apply same_refl|]; split; [done|set_solver]].
  specialize (IH (advance t)). destruct (unproved n (advance t)) as [t' l]. destruct IH as (Hs & Hl & Ho).
  split; [by eapply same_trans; [apply advance_same|]|]. split; [done|]. intros q. case_match; [apply Ho|].
  intros [->|Hq]%elem_of_cons; [by apply pair_next_in|by apply Ho].
Qed.

Notation target_ok t := (fun tg : Route * Co.Message * option N => tg.1.1 ∈ tr_pairs t /\ carries tg.1.2 tg.2).
Lemma plain_ok t (l : list Route) : (forall r, r ∈ l -> r ∈ tr_pairs t) -> Forall (target_ok t) (plain <$> l).
Proof. intros Hl. apply Forall_forall. intros tg (r & -> & Hr)%list_elem_of_fmap. split; [by apply Hl|done]. Qed.
Lemma route_targets_spec now idle av t : track_wf t -> let '(t', l) := route_targets now idle av t in
  same_but_pairs t t' /\ tr_local t' = tr_local t /\ Forall (target_ok t) l.
Proof.
  intros Hw. unfold route_targets. set (n := Nat.min _ _).
  assert (Hun : let '(t', l) := unproved n t in same_but_pairs t t' /\ tr_local t' = tr_local t /\ Forall (target_ok t) (plain <$> l)).
  { pose proof (unproved_spec n t) as Hu. destruct (unproved n t) as [t' l]. destruct Hu as (? & ? & ?). split; [done|]. split; [done|by apply plain_ok]. }
  destruct (tr_verified t) as [v|] eqn:Hv; [|by destruct (unproved n t)].
  pose proof (tw_verified _ Hw v Hv) as Hin. destruct (now - v_confirmed v <? health_lifetime t now); [|by destruct (unproved n t)].
  assert (Hone : Forall (target_ok t) [plain (v_route v)]) by (by apply Forall_singleton).
  destruct (_ && _); [|split_and!; [apply same_refl|done|done]].
  pose proof (alternative_spec (length (tr_pairs t)) (v_route v) t) as Ha.
  destruct (alternative _ _ t) as [t' [r|]]; destruct Ha as (Hs & Hl & Hr); [|done].
  split; [by destruct Hs|]. split; [done|]. apply (plain_ok t [v_route v; r]).
  intros q [->|[->|?%not_elem_of_nil]%elem_of_cons]%elem_of_cons; [done|by apply Hr|done].
Qed.
Lemma probe_carries mtu ipv6 m lim : Pm.probe mtu ipv6 = Some (m, lim) -> carries m (Some lim).
Proof.
  unfold Pm.probe. set (o := if ipv6 then 76 else 56). destruct (N.ltb_spec mtu o); [done|]. destruct (_ <? _); [done|].
  destruct (_ || _); [done|]. intros [= <- <-]. exists (mtu - o). split; [done|]. unfold o in *. destruct ipv6; [right|left]; lia.
Qed.
Lemma next_probe ceiling ipv6 now interval s m : (Pm.next ceiling ipv6 now interval s).2 = Some m -> exists mtu, Pm.probe mtu ipv6 = Some m.
Proof. unfold Pm.next. case_match; [done|]. intros Hx. eexists. exact Hx. Qed.

Lemma set_verified_wf t v : track_wf t -> (forall x, v = Some x -> v_route x ∈ tr_pairs t) -> track_wf (set_verified v t).
Proof. intros [] Hv. by split. Qed.
Lemma with_mtu_moved v m : Pm.proof m = Pm.proof (v_mtu v) \/ Pm.proof m = None -> moved (Some v) (Some (with_mtu v m)).
Proof. intros Hm x [= <-]. by exists v. Qed.
Lemma remeasured g key now s t v m : tr_verified t = Some v -> Pm.proof m = Pm.proof (v_mtu v) \/ Pm.proof m = None ->
  polled g key now s t (set_verified (Some (with_mtu v m)) t).
Proof.
  intros Hv Hm. split; cbn; [|done|by left|rewrite Hv; by apply with_mtu_moved].
  intros Hw. apply set_verified_wf; [done|]. intros x [= <-]. exact (tw_verified _ Hw v Hv).
Qed.
Lemma mtu_target_spec g key s now mtu interval address t : track_wf t -> let '(t', l) := mtu_target now mtu interval address t in
  polled g key now s t t' /\ tr_pairs t' = tr_pairs t /\ tr_pending t' = tr_pending t /\ Forall (target_ok t) l.
Proof.
  intros Hw. unfold mtu_target.
  assert (Hnone : polled g key now s t t /\ tr_pairs t = tr_pairs t /\ tr_pending t = tr_pending t /\ Forall (target_ok t) []).
  { split; [apply polled_same; [apply same_refl|done]|]. split; [done|]. split; [done|constructor]. }
  destruct (tr_verified t) as [v|] eqn:Hv; [|exact Hnone].
  destruct (_ <? _); [|exact Hnone].
  destruct (address (tr_local t)) as [a|]; [|exact Hnone].
  pose proof (Pm.proof_next mtu (is_ipv6 a) now interval (v_mtu v)) as Hp.
  pose proof (next_probe mtu (is_ipv6 a) now interval (v_mtu v)) as Hn.
  destruct (Pm.next _ _ _ _ _) as [m o]. cbn [fst snd] in *. split; [by apply remeasured|]. split; [done|]. split; [done|].
  destruct o as [[message lim]|]; [|done]. apply Forall_singleton. split; [by apply (tw_verified _ Hw)|].
  destruct (Hn _ eq_refl) as [mt Hx]. by eapply probe_carries.
Qed.

(** What the checks sent cost: [n] and [n'] pending before and after. *)
Record spends (n n' : N) (b b' : budget) : Prop := {
  sp_available : available b' + n' <= available b + n;
  sp_permits : permits b' + n = permits b + n';
  sp_limit : permits b' <= N.max (permits b) PROCESS_CHECKS;
}.
Lemma spends_refl n b : spends n n b b.
Proof. split; lia. Qed.
Lemma spends_trans n1 n2 n3 b1 b2 b3 : spends n1 n2 b1 b2 -> spends n2 n3 b2 b3 -> spends n1 n3 b1 b3.
Proof. intros [] []. split; lia. Qed.

Section polls.
Context `{OsRng}.

Definition pending_of (t : Track) : N := N.of_nat (size (tr_pending t)).
Lemma size_insert_pending (m : gmap (list byte) Check) tx ck :
  N.of_nat (size (<[tx := ck]> m)) + match m !! tx with Some _ => 1 | None => 0 end = N.of_nat (size m) + 1.
Proof.
  destruct (m !! tx) eqn:Hx.
  - rewrite map_size_insert_Some by done. lia.
  - rewrite map_size_insert_None by done. lia.
Qed.
Lemma send_checks_spec g key now targets b t : Forall (target_ok t) targets ->
  let '(b', t', sends) := send_checks g key now targets b t in
  polled g key now sends t t' /\ spends (pending_of t) (pending_of t') b b'.
Proof.
  revert b t. induction targets as [|[[r m] lim] targets IH]; intros b t Hok; cbn [send_checks];
    [by split; [apply polled_same; [apply same_refl|]|apply spends_refl]|].
  apply Forall_cons in Hok as [[Hr Hm] Hok]. cbn [fst snd] in Hr, Hm.
  destruct (_ || _) eqn:Hb; [by split; [apply polled_same; [apply same_refl|]|apply spends_refl]|]. breflect.
  destruct (N.leb_spec PROCESS_CHECKS (permits b)) as [|Hp]; [by split; [apply polled_same; [apply same_refl|]|apply spends_refl]|].
  set (t1 := match lim with Some _ => _ | None => _ end).
  assert (Hre : forall s, polled g key now s t t1 /\ tr_pairs t1 = tr_pairs t /\ tr_pending t1 = tr_pending t).
  { intros s. unfold t1. destruct lim as [l|]; [destruct (tr_verified t) as [v|] eqn:Hv|].
    - split; [|done]. apply remeasured; [done|by left].
    - split; [apply polled_same; [apply same_refl|done]|done].
    - split; [apply polled_same; [apply same_refl|done]|done]. }
  set (tx := random (drawn b)). set (t2 := set_pending (<[tx := mkCheck r now lim]> (tr_pending t1)) t1).
  destruct (Hre []) as (_ & Hp1 & Hn1). specialize (IH (mkBudget (available b - 1)
    (permits b + 1 - match tr_pending t1 !! tx with Some _ => 1 | None => 0 end) (drawn b + 1)) t2).
  assert (Hok2 : Forall (target_ok t2) targets) by (cbn; by rewrite Hp1). specialize (IH Hok2).
  destruct (send_checks g key now targets _ t2) as [[b3 t3] sends]. destruct IH as [Hpo Hsp].
  pose proof (size_insert_pending (tr_pending t1) tx (mkCheck r now lim)) as Hsize. split.
  - eapply polled_trans; [apply Hre|]. eapply (polled_trans _ _ _ _ _ t2); [|eapply polled_mono; [|exact Hpo]; set_solver].
    split; cbn; [|done| |apply moved_refl].
    + intros Hw. rewrite <-Hp1 in Hr. rewrite <-Hn1 in *. destruct Hw. split; cbn; try done.
      * destruct (tr_pending t1 !! tx); lia.
      * intros k ck [[<- <-]|[_ Hx]]%lookup_insert_Some; [done|by eapply tw_checks0].
    + intros k ck [[<- <-]|[_ Hx]]%lookup_insert_Some; [right|by left]. split; [done|]. exists m. split; [done|]. by left.
  - apply (spends_trans _ (pending_of t2) _ _ (mkBudget (available b - 1)
      (permits b + 1 - match tr_pending t1 !! tx with Some _ => 1 | None => 0 end) (drawn b + 1))); [|exact Hsp].
    unfold pending_of in *. rewrite <-Hn1 in *. cbn [t2 set_pending tr_pending]. split; cbn [available permits]; destruct (tr_pending t1 !! tx); lia.
Qed.

Lemma advertise_spec g cands key now s t : let '(t', _) := advertise g cands key now t in
  polled g key now s t t' /\ tr_pending t' = tr_pending t.
Proof. unfold advertise. destruct (_ && _); (split; [apply polled_same; [by split|done]|done]). Qed.

Lemma check_paths_spec g key now mtu address b t : track_wf t ->
  let '(b', t', sends) := check_paths g key now mtu address b t in
  polled g key now sends t t' /\ spends (pending_of t) (pending_of t') b b'.
Proof.
  intros Hw. unfold check_paths.
  assert (Hnone : polled g key now [] t t /\ spends (pending_of t) (pending_of t) b b).
  { split; [apply polled_same; [apply same_refl|done]|apply spends_refl]. }
  destruct (Pm.opt_lt_since _ _ _); [exact Hnone|]. destruct (_ || _); [exact Hnone|].
  set (t0 := set_last_check (Some now) t). assert (Hw0 : track_wf t0) by (by apply (same_wf t)).
  pose proof (route_targets_spec now (30 * SECOND <? now - tr_last_activity t) (available b) t0 Hw0) as Hr.
  destruct (route_targets _ _ _ t0) as [t1 targets]. destruct Hr as (Hs1 & Hl1 & Hok1).
  assert (Hw1 : track_wf t1) by (by apply (same_wf t0)).
  pose proof (mtu_target_spec g key [] now mtu (if 30 * SECOND <? now - tr_last_activity t then 25 * SECOND else SECOND) address t1 Hw1) as Hm.
  destruct (mtu_target _ _ _ _ t1) as [t2 sized]. destruct Hm as (Hp2 & Hpairs & Hpend & Hok2).
  pose proof (send_checks_spec g key now (targets ++ sized) b t2) as Hsend.
  destruct (send_checks _ _ _ _ b t2) as [[b3 t3] sends]. destruct Hsend as [Hp3 Hs3].
  { apply Forall_app. rewrite Hpairs. split; [|done]. by rewrite (sb_pairs _ _ Hs1). }
  split.
  - eapply polled_trans; [apply (polled_same _ _ _ _ t t1); [by apply (same_trans _ t0)|exact Hl1]|].
    eapply polled_trans; [eapply polled_mono; [|exact Hp2]; set_solver|exact Hp3].
  - unfold pending_of in *. by rewrite Hpend, (sb_pending _ _ Hs1) in Hs3.
Qed.
Lemma poll_track_spec c now mtu address key b t : track_wf t ->
  let '(b', t', sends) := poll_track c now mtu address key b t in
  polled (generation c) key now sends t t' /\ spends (pending_of t) (pending_of t') b b'.
Proof.
  intros Hw. unfold poll_track.
  pose proof (fun s => advertise_spec (generation c) (candidates c) key now s t) as Ha.
  destruct (advertise _ _ _ _ t) as [t1 offers]. pose proof (proj2 (Ha [])) as Hn1.
  pose proof (check_paths_spec (generation c) key now mtu address b t1 (po_wf _ _ _ _ _ _ (proj1 (Ha [])) Hw)) as Hc.
  destruct (check_paths _ _ _ _ _ _ t1) as [[b2 t2] sends]. destruct Hc as [Hp Hs]. split.
  - eapply polled_trans; [apply Ha|]. eapply polled_mono; [|exact Hp]. set_solver.
  - unfold pending_of in *. by rewrite Hn1 in Hs.
Qed.

Lemma poll_keys_spec c now mtu address keys b ps : map_Forall (fun _ t => track_wf t) ps ->
  let '(b', ps', sends) := poll_keys c now mtu address keys b ps in
  (forall key t', ps' !! key = Some t' -> exists t, ps !! key = Some t /\ polled (generation c) key now sends t t') /\
  size ps' = size ps /\ spends (pending_total ps) (pending_total ps') b b'.
Proof.
  revert b ps. induction keys as [|key keys IH]; intros b ps Hw; cbn [poll_keys].
  { split; [|split; [done|apply spends_refl]]. intros k t Hk. exists t. split; [done|]. apply polled_same; [apply same_refl|done]. }
  destruct (ps !! key) as [t|] eqn:Ht; cycle 1.
  { split; [|split; [done|apply spends_refl]]. intros k u Hk. exists u. split; [done|]. apply polled_same; [apply same_refl|done]. }
  pose proof (poll_track_spec c now mtu address key b t (Hw _ _ Ht)) as Hp.
  destruct (poll_track c now mtu address key b t) as [[b1 t1] s1]. destruct Hp as [Hp1 Hs1].
  assert (Hw1 : map_Forall (fun _ t => track_wf t) (<[key := t1]> ps)).
  { apply map_Forall_insert_2; [|done]. apply (po_wf _ _ _ _ _ _ Hp1), (Hw _ _ Ht). }
  specialize (IH b1 (<[key := t1]> ps) Hw1). destruct (poll_keys c now mtu address keys b1 _) as [[b2 ps2] s2].
  destruct IH as (Hk & Hsize & Hs2). split; [|split].
  - intros k u (t2 & Ht2 & Hp2)%Hk. destruct (decide (k = key)) as [->|Hne].
    + rewrite lookup_insert_eq in Ht2. injection Ht2 as <-. exists t. split; [done|].
      eapply polled_trans; (eapply polled_mono; [|done]); set_solver.
    + rewrite lookup_insert_ne in Ht2 by done. exists t2. split; [done|]. eapply polled_mono; [|exact Hp2]. set_solver.
  - by rewrite Hsize, map_size_insert_Some.
  - eapply spends_trans; [|exact Hs2]. unfold pending_total.
    pose proof (map_sum_insert_Some (fun t => N.of_nat (size (tr_pending t))) ps key t1 t Ht) as Hsum.
    unfold pending_of in Hs1. destruct Hs1. split; cbn in *; lia.
Qed.

Lemma expire_total now ps : pending_total (expire_checks now <$> ps) <= pending_total ps.
Proof.
  unfold pending_total. induction ps as [|k t ps Hk IH] using map_ind; [done|].
  rewrite fmap_insert, !map_sum_insert_None by (by rewrite ?lookup_fmap, ?Hk).
  destruct (expire_kept now t) as (_ & Hs & _). pose proof (map_subseteq_size _ _ Hs). lia.
Qed.
End polls.

(** ** Sequences of operations *)

Section runs.
Context `{OsRng}.

Inductive op :=
| Update (cands : list SocketAddr)
| UpdatePaths (local cands : list SocketAddr)
| Resume
| Touch (local remote : list byte) (now : N)
| Retain (authorized : list byte -> list byte -> bool)
| Clear
| Receive (local remote : list byte) (m : Co.Coordination) (src local_endpoint : option SocketAddr) (now : N) (rate : option Rate)
| Poll (elsewhere now mtu : N) (address : list byte -> option IpAddr).
Definition step (o : op) (c : Connectivity) : Connectivity * list Send :=
  match o with
  | Update cands => ((update cands c).1, [])
  | UpdatePaths local cands => ((update_paths local cands c).1, [])
  | Resume => ((resume c).1, [])
  | Touch local remote now => (touch local remote now c, [])
  | Retain authorized => (retain authorized c, [])
  | Clear => (clear c, [])
  | Receive local remote m src le now rate =>
      let '(_, (c, answer)) := receive_on local remote m src le now rate c in (c, match answer with Ok sends => sends | _ => [] end)
  | Poll elsewhere now mtu address => poll_with_mtu elsewhere now mtu address c
  end.
Notation history := (list (op * list Send)) (only parsing).
Definition run_step (s : Connectivity * history) (o : op) : Connectivity * history :=
  let '(c, sends) := step o s.1 in (c, s.2 ++ [(o, sends)]).
Definition run (ops : list op) (c : Connectivity) : Connectivity * history := foldl run_step (c, []) ops.

(** Messages are decoded before they are handled. *)
Definition op_ok (o : op) : Prop :=
  match o with Receive _ _ m _ _ _ _ => message_bounded m | _ => True end.
Lemma decoded_bounded `{UuidLib} bytes m : Co.decode bytes = Ok m -> message_bounded m.
Proof.
  intros (Hc & He)%Co.decode_Ok. apply Co.encode_Ok in He as [Hs _]; [|by apply Co.ok_transaction].
  unfold message_bounded. destruct (Co.message m); try done. by apply Co.co_len in Hs.
Qed.

(** *** Steps on the map of tracks *)

Lemma restart_all_lookup c k t' : restart_all c !! k = Some t' -> exists t tx, peers c !! k = Some t /\ t' = restart (local_paths c) tx t.
Proof.
  unfold restart_all. intros Hx%elem_of_list_to_map_2. apply elem_of_lookup_imap in Hx as (i & [k0 t] & [= -> ->] & Hi).
  apply list_elem_of_lookup_2, elem_of_bt_entries in Hi. by eexists _, _.
Qed.
Lemma list_to_map_size {A} (l : list (list byte * A)) : (size (list_to_map l : gmap (list byte) A) <= length l)%nat.
Proof.
  induction l as [|[k t] l IH]; [done|]. rewrite list_to_map_cons, map_size_insert. cbn [length].
  destruct ((list_to_map l : gmap (list byte) A) !! k); cbn; unfold id; lia.
Qed.
Lemma restart_all_size c : (size (restart_all c) <= size (peers c))%nat.
Proof.
  unfold restart_all. set (l := imap _ _). assert (Hl : length l = size (peers c)).
  { unfold l. rewrite length_imap. unfold bt_entries. rewrite length_sort_by_key, length_map_to_list. done. }
  rewrite <-Hl. apply list_to_map_size.
Qed.
Lemma pending_total_idle ps : map_Forall (fun _ t => tr_pending t = ∅) ps -> pending_total ps = 0.
Proof.
  unfold pending_total. induction ps as [|k t ps Hk IH] using map_ind; [done|]. intros [Ht Hps]%map_Forall_insert; [|done].
  rewrite map_sum_insert_None by done. rewrite IH by done. by rewrite Ht.
Qed.
Lemma pending_total_insert ps k t : (match ps !! k with Some u => pending_of t <= pending_of u | None => pending_of t = 0 end) ->
  pending_total (<[k := t]> ps) <= pending_total ps.
Proof.
  unfold pending_total, pending_of. destruct (ps !! k) as [u|] eqn:Hu; intros Hle.
  - pose proof (map_sum_insert_Some (fun t => N.of_nat (size (tr_pending t))) ps k t u Hu). cbn in *. lia.
  - rewrite map_sum_insert_None by done. lia.
Qed.

(** A track with nothing in flight and nothing proved. *)
Definition idle_track (t : Track) : Prop := tr_pending t = ∅ /\ tr_verified t = None /\ tr_quality t = ∅.
Lemma idle_set_pairs_wf p t : idle_track t -> lenN p <= 128 -> track_wf t -> track_wf (set_pairs p t).
Proof.
  intros (Hp & Hv & Hq) Hl []. split; cbn; try done; rewrite ?Hp, ?Hv, ?Hq; try done.
  intros r [x Hx]. by rewrite lookup_empty in Hx.
Qed.

Record conn_wf (c : Connectivity) : Prop := {
  cw_peers : N.of_nat (size (peers c)) <= MAX_PEERS;
  cw_tracks : map_Forall (fun _ t => track_wf t) (peers c);
  cw_pending : pending_total (peers c) <= MESH_CHECKS;
  cw_local : match local_paths c with Some l => lenN l <= 8 | None => True end;
  cw_candidates : Co.candidates_ok (candidates c);
}.
Lemma conn_wf_start c : peers c = ∅ -> local_paths c = None -> candidates c = [] -> conn_wf c.
Proof.
  intros Hp Hl Hc. split; rewrite ?Hp, ?Hl, ?Hc; [by vm_compute|apply map_Forall_empty|by vm_compute|done|].
  split; [by vm_compute|constructor|constructor].
Qed.

Lemma update_cases cands c : (update cands c).1 = c \/
  exists g, generation c < g /\ Co.candidates_ok cands /\ (update cands c).2 = Ok tt /\
    (update cands c).1 = mkConnectivity g (generation_ceiling c) cands (local_paths c) (restart_all c) (cursor c) (messages c)
      (draws c + size (peers c)).
Proof.
  unfold update. destruct (Co.validate_candidates cands) as [[]|e|] eqn:Hv; [|by left..]. case_match; [by left|].
  destruct (checked_add (generation c) 1) as [g|] eqn:Hg; [|by left]. right. exists g.
  split; [unfold checked_add in Hg; case_match; [|done]; injection Hg as <-; lia|]. split; [by apply Co.validate_candidates_Ok|done].
Qed.
Lemma restart_all_wf c : conn_wf c -> map_Forall (fun _ t => track_wf t /\ idle_track t) (restart_all c).
Proof. intros Hw k t' (t & tx & Ht & ->)%restart_all_lookup. split; [by apply restart_wf, (cw_tracks _ Hw k)|done]. Qed.
Lemma update_wf cands c : conn_wf c -> conn_wf (update cands c).1.
Proof.
  intros Hw. destruct (update_cases cands c) as [->|(g & _ & Hc & _ & ->)]; [done|]. pose proof (restart_all_wf c Hw) as Hr.
  pose proof (restart_all_size c). destruct Hw. split; cbn; try done; [lia| |].
  - intros k t Hk. exact (proj1 (Hr k t Hk)).
  - rewrite pending_total_idle; [unfold MESH_CHECKS; lia|]. intros k t Hk. exact (proj1 (proj2 (Hr k t Hk))).
Qed.
Lemma update_paths_cases local cands c : (update_paths local cands c).1 = c \/
  lenN local <= 8 /\ exists g, generation c < g /\ Co.candidates_ok cands /\
    (update_paths local cands c).1 = set_local_paths local
      (mkConnectivity g (generation_ceiling c) cands (local_paths c) (restart_all c) (cursor c) (messages c) (draws c + size (peers c))).
Proof.
  unfold update_paths. destruct (Co.validate_candidates local) as [[]|e|]; [|by left..]. destruct (N.ltb_spec 8 (lenN local)); [by left|].
  destruct (Co.validate_candidates cands) as [[]|e|]; [|by left..].
  destruct (update_cases cands c) as [Hs|(g & Hg & Hc & Hok & Hu)].
  - destruct (update cands c) as [c' [[]|e|]] eqn:Hx; cbn [fst] in *; subst c'; [|by left..].
    exfalso. unfold update in Hx. destruct (Co.validate_candidates cands) as [[]|e|]; try done.
    destruct (generation_ceiling c <=? generation c); [done|]. unfold checked_add in Hx. destruct (_ <=? U64_MAX); [|done].
    injection Hx as Hx. apply (f_equal generation) in Hx. cbn in Hx. lia.
  - right. split; [done|]. exists g. split; [done|]. split; [done|]. destruct (update cands c) as [c' res]. cbn [fst snd] in *. by subst.
Qed.
Lemma update_paths_wf local cands c : conn_wf c -> conn_wf (update_paths local cands c).1.
Proof.
  intros Hw. destruct (update_paths_cases local cands c) as [->|(Hl & g & _ & Hc & ->)]; [done|].
  pose proof (restart_all_wf c Hw) as Hr. pose proof (restart_all_size c). destruct Hw. split; cbn; try done.
  - rewrite map_size_fmap. lia.
  - intros k t' (t & <- & Hk)%lookup_fmap_Some. destruct (Hr k t Hk) as [Ht Hi]. apply idle_set_pairs_wf; [done| |done].
    apply (pairs_len (Some local)). by destruct Ht.
  - rewrite pending_total_idle; [unfold MESH_CHECKS; lia|]. intros k t' (t & <- & Hk)%lookup_fmap_Some. exact (proj1 (proj2 (Hr k t Hk))).
Qed.

Lemma set_peers_wf ps c : conn_wf c -> (size ps <= size (peers c))%nat -> map_Forall (fun _ t => track_wf t) ps ->
  pending_total ps <= pending_total (peers c) -> conn_wf (set_peers ps c).
Proof. intros [] ? ? ?. split; cbn; try done; lia. Qed.
Lemma submap_wf ps c : conn_wf c -> ps ⊆ peers c -> conn_wf (set_peers ps c).
Proof.
  intros Hw Hs. apply set_peers_wf; [done|by apply map_subseteq_size| |by apply map_sum_mono].
  intros k t Hk. apply (cw_tracks _ Hw k). by eapply lookup_weaken.
Qed.
Lemma replace_track_wf k t u c : conn_wf c -> peers c !! k = Some u -> track_wf t -> pending_of t <= pending_of u ->
  conn_wf (set_peers (<[k := t]> (peers c)) c).
Proof.
  intros Hw Hu Ht Hp. apply set_peers_wf; [done| |by apply map_Forall_insert_2; [|apply Hw]|apply pending_total_insert; by rewrite Hu].
  by rewrite map_size_insert_Some.
Qed.
Lemma insert_track_wf local remote now c : conn_wf c -> N.of_nat (size (peers c)) < MAX_PEERS -> conn_wf (insert_track local remote now c).
Proof.
  intros Hw Hlt. pose proof (fresh_wf local (random (draws c)) now) as Hf.
  pose proof (map_size_insert remote (fresh_track local (random (draws c)) now) (peers c)) as Hs.
  pose proof (pending_total_insert (peers c) remote (fresh_track local (random (draws c)) now)) as Hp.
  destruct Hw. split; cbn; try done.
  - destruct (peers c !! remote); cbn in Hs; unfold id in Hs; lia.
  - by apply map_Forall_insert_2.
  - etrans; [apply Hp|done]. destruct (peers c !! remote); [apply N.le_0_l|done].
Qed.
Lemma make_room_wf local remote now c : conn_wf c -> conn_wf (make_room local remote now c).
Proof.
  intros Hw. unfold make_room. destruct (N.leb_spec MAX_PEERS (N.of_nat (size (peers c)))) as [Hm|]; [|by apply insert_track_wf].
  destruct (oldest_idle now (peers c)) as [key|] eqn:Ho; [|done].
  assert (Hin : is_Some (peers c !! key)).
  { unfold oldest_idle in Ho. apply fmap_Some in Ho as ([k a] & Hf & ->). cbn.
    assert (Hx : forall l best, (forall e, e ∈ l -> is_Some (peers c !! e.1)) -> (forall k a, best = Some (k, a) -> is_Some (peers c !! k)) ->
      forall k a, foldl (older now) best l = Some (k, a) -> is_Some (peers c !! k)).
    { clear. induction l as [|e l IH]; intros best Hl Hb; [done|]. cbn [foldl]. apply IH; [intros; apply Hl; by right|].
      intros k a. unfold older. case_match; [|apply Hb]. pose proof (Hl e ltac:(by left)).
      destruct best as [[k0 a0]|]; [case_match; [by intros [= <- _]|apply Hb]|by intros [= <- _]]. }
    apply (Hx (bt_entries (peers c)) None) with a; [|done|done]. intros [k0 t] He%elem_of_bt_entries. by eexists. }
  apply insert_track_wf; [apply submap_wf; [done|apply delete_subseteq]|]. cbn. destruct Hin as [t Ht].
  pose proof (map_size_delete key (peers c)) as Hd. rewrite Ht in Hd. cbn in Hd. pose proof (cw_peers _ Hw).
  assert (size (peers c) <> 0)%nat by (intros Hz%map_size_empty_inv; by rewrite Hz in Ht). unfold MAX_PEERS in *. lia.
Qed.
Lemma touch_wf local remote now c : conn_wf c -> conn_wf (touch local remote now c).
Proof.
  intros Hw. unfold touch. destruct (peers c !! remote) as [t|] eqn:Ht; [|by apply make_room_wf]. case_bool_decide.
  - eapply replace_track_wf; [done|exact Ht| |done]. eapply same_wf; [|by apply (cw_tracks _ Hw remote)]. by split.
  - apply make_room_wf, submap_wf; [done|apply delete_subseteq].
Qed.

Lemma respond_pending c m src local now t : tr_pending (respond c m src local now t).1 ⊆ tr_pending t.
Proof.
  unfold respond, on_candidates, on_candidates_ack, on_probe, on_probe_ack, learn_route, learn_endpoint.
  destruct (Co.message m) as [l| | | |p|id|id b]; try done.
  - destruct (_ || _ || _); [done|]. case_bool_decide; [done|]. apply map_empty_subseteq.
  - by destruct (_ || _ || _).
  - destruct src as [e|]; [|done]. destruct (Co.valid_endpoint e); [|done]. by repeat case_match.
  - destruct src as [e|]; [|done]. destruct (negb _); [done|]. destruct (tr_pending t !! _); [|done]. destruct (_ || _); [done|].
    apply delete_subseteq.
  - destruct src as [e|]; [|done]. destruct (Co.valid_endpoint e); [|done]. by repeat case_match.
Qed.

(** The state a message is handled in, and what handling it makes of the track. *)
Definition prepared (local remote : list byte) (now : N) (c : Connectivity) : Connectivity :=
  match peers c !! remote with
  | Some t => if bool_decide (tr_local t = local) then c else touch local remote now c
  | None => touch local remote now c
  end.
Lemma receive_cases local remote m src le now rate c :
  let c' := (receive_on local remote m src le now rate c).2.1 in
  c' = c \/ exists r, c' = set_messages r c \/ c' = prepared local remote now (set_messages r c) \/
    exists t t', peers (prepared local remote now (set_messages r c)) !! remote = Some t /\
      c' = set_peers (<[remote := t']> (peers (prepared local remote now (set_messages r c)))) (prepared local remote now (set_messages r c)) /\
      (t' = rate_track now t \/
       t' = (respond (prepared local remote now (set_messages r c)) m src le now (rate_track now t)).1).
Proof.
  cbv zeta. unfold receive_on. case_match; [by left|]. destruct (allow now 1024 (messages c)) as [own []]; [|right; exists own; by left].
  cbn [negb]. destruct (allow now 4096 _) as [shared []]; cbn [negb]; right; exists own; [right|by left]. cbn [snd].
  unfold receive_track. fold (prepared local remote now (set_messages own c)). set (cp := prepared local remote now (set_messages own c)).
  destruct (peers cp !! remote) as [t|] eqn:Ht; [right|by left]. destruct (_ <? _).
  - exists t, (rate_track now t). split; [done|]. split; [done|by left].
  - exists t, (respond cp m src le now (rate_track now t)).1. split; [done|].
    destruct (respond cp m src le now (rate_track now t)) as [t' answer]. split; [done|by right].
Qed.
Lemma set_messages_wf r c : conn_wf c -> conn_wf (set_messages r c).
Proof. intros []. by split. Qed.
Lemma prepared_wf local remote now c : conn_wf c -> conn_wf (prepared local remote now c).
Proof. intros Hw. unfold prepared. destruct (peers c !! remote); [case_bool_decide; [done|]|]; by apply touch_wf. Qed.
Lemma receive_wf local remote m src le now rate c : message_bounded m -> conn_wf c -> conn_wf (receive_on local remote m src le now rate c).2.1.
Proof.
  intros Hm Hw. destruct (receive_cases local remote m src le now rate c) as [->|(r & [->|[->|(t & t' & Ht & -> & Hor)]])]; [done| | |].
  - by apply set_messages_wf.
  - by apply prepared_wf, set_messages_wf.
  - set (cp := prepared _ _ _ _) in *. assert (Hcp : conn_wf cp) by (by apply prepared_wf, set_messages_wf).
    assert (Hr : track_wf (rate_track now t)) by (eapply same_wf; [apply rate_same|by apply (cw_tracks _ Hcp remote)]).
    pose proof (sb_pending _ _ (rate_same now t)) as Hp. eapply replace_track_wf; [done|exact Ht| |]; destruct Hor as [->| ->]; try done.
    + by apply respond_wf.
    + unfold pending_of. by rewrite Hp.
    + unfold pending_of. pose proof (map_subseteq_size _ _ (respond_pending cp m src le now (rate_track now t))) as Hs. rewrite Hp in Hs. lia.
Qed.

(** The tracks a poll works on. *)
Lemma expired_wf now c : conn_wf c -> map_Forall (fun _ t => track_wf t) (expire_checks now <$> peers c).
Proof. intros Hw k t' (t & <- & Ht)%lookup_fmap_Some. by apply expire_track_wf, (cw_tracks _ Hw k). Qed.
Lemma poll_checks_spec elsewhere now mtu address c : conn_wf c ->
  let '(c', sends) := poll_with_mtu elsewhere now mtu address c in
  (forall key t', peers c' !! key = Some t' -> exists t, peers c !! key = Some t /\ polled (generation c) key now sends (expire_checks now t) t') /\
  conn_wf c' /\ generation c' = generation c /\
  (elsewhere + pending_total (peers c) <= PROCESS_CHECKS -> elsewhere + pending_total (peers c') <= PROCESS_CHECKS).
Proof.
  intros Hw. unfold poll_with_mtu. set (ps := expire_checks now <$> peers c). set (total := pending_total ps).
  pose proof (poll_keys_spec c now mtu address (rotated (cursor c) (bt_entries ps).*1)
    (mkBudget (MESH_CHECKS - total) (elsewhere + total) (draws c)) ps (expired_wf now c Hw)) as Hk.
  destruct (poll_keys _ _ _ _ _ _ ps) as [[b' ps'] sends]. destruct Hk as (Hk & Hsize & [Ha Hp Hl]). cbn [peers generation available permits] in *.
  assert (Ht : total <= pending_total (peers c)) by apply expire_total. pose proof (cw_pending _ Hw) as Hc.
  assert (Hev : forall key t', ps' !! key = Some t' -> exists t, peers c !! key = Some t /\ polled (generation c) key now sends (expire_checks now t) t').
  { intros key t' (t0 & Ht0 & Hpo)%Hk. unfold ps in Ht0. rewrite lookup_fmap in Ht0. destruct (peers c !! key) as [t|]; [|done].
    injection Ht0 as <-. by exists t. }
  split; [done|]. split; [|split; [done|]].
  - destruct Hw. split; cbn; try done.
    + rewrite Hsize. unfold ps. by rewrite map_size_fmap.
    + intros k t' (t & Hx & Hpo)%Hev. by apply (po_wf _ _ _ _ _ _ Hpo), expire_track_wf, (cw_tracks0 k).
    + lia.
  - intros Hb. lia.
Qed.
Lemma step_wf o c : op_ok o -> conn_wf c -> conn_wf (step o c).1.
Proof.
  intros Ho Hw. destruct o as [cands|local cands| |local remote now|f| |local remote m src le now rate|e now mtu a]; cbn [step fst].
  - by apply update_wf.
  - by apply update_paths_wf.
  - by apply update_wf.
  - by apply touch_wf.
  - apply submap_wf; [done|apply map_filter_subseteq].
  - apply submap_wf; [done|apply map_empty_subseteq].
  - pose proof (receive_wf local remote m src le now rate c Ho Hw) as Hr. by destruct (receive_on _ _ _ _ _ _ _ c) as [? [? ?]].
  - pose proof (poll_checks_spec e now mtu a c Hw) as Hp. destruct (poll_with_mtu e now mtu a c) as [c' sends].
    by destruct Hp as (_ & ? & _).
Qed.
Lemma run_snoc ops o c : run (ops ++ [o]) c = run_step (run ops c) o.
Proof. unfold run. by rewrite foldl_app. Qed.
Lemma run_conn_wf ops c : Forall op_ok ops -> conn_wf c -> conn_wf (run ops c).1.
Proof.
  intros Hok Hw. induction ops as [|o ops IH] using rev_ind; [done|]. apply Forall_app in Hok as [Hok [Ho _]%Forall_cons].
  rewrite run_snoc. specialize (IH Hok). destruct (run ops c) as [c1 h]. unfold run_step. cbn [fst snd] in *.
  pose proof (step_wf o c1 Ho IH) as Hs. by destruct (step o c1).
Qed.

(** *** Where a verified path comes from *)

(** Every check in flight was sent, every verified route and size acknowledged. *)
Record backed (Sent : Route -> list byte -> N -> option N -> Prop) (Proven : Route -> N -> option N -> Prop) (t : Track) : Prop := {
  bk_checks : forall tx ck, tr_pending t !! tx = Some ck -> Sent (ck_route ck) tx (ck_sent ck) (ck_limit ck);
  bk_route : forall v, tr_verified t = Some v -> exists lim, Proven (v_route v) (v_confirmed v) lim;
  bk_size : forall v l u, tr_verified t = Some v -> Pm.proof (v_mtu v) = Some (l, u) -> Proven (v_route v) u (Some l);
}.
Section backing.
Context (Sent : Route -> list byte -> N -> option N -> Prop) (Proven : Route -> N -> option N -> Prop).
Notation backed := (backed Sent Proven).

Lemma backed_idle t : idle_track t -> backed t.
Proof. intros (Hp & Hv & _). by split; rewrite ?Hp, ?Hv. Qed.
Lemma backed_shrink t t' : tr_pending t' ⊆ tr_pending t -> moved (tr_verified t) (tr_verified t') -> backed t -> backed t'.
Proof.
  intros Hp Hv [Hc Hr Hs]. split.
  - intros tx ck Hx. apply Hc. by eapply lookup_weaken.
  - intros v (y & Hy & <- & <- & _)%Hv. by apply Hr.
  - intros v l u (y & Hy & <- & _ & [->| ->])%Hv Hl; [by eapply Hs|done].
Qed.
Lemma backed_same t t' : same_but_pairs t t' -> backed t -> backed t'.
Proof. intros Hs. apply backed_shrink; [by rewrite (sb_pending _ _ Hs)|rewrite (sb_verified _ _ Hs); apply moved_refl]. Qed.
Lemma backed_expired now t : backed t -> backed (expire_checks now t).
Proof. destruct (expire_kept now t) as (Hk & Hs & _). apply backed_shrink; [done|by apply kept_moved]. Qed.
Lemma backed_polled g key now sends t t' : polled g key now sends t t' ->
  (forall tx r m lim, check_send g (tr_local t) key tx r m ∈ sends -> carries m lim -> Sent r tx now lim) -> backed t -> backed t'.
Proof.
  intros Hp Hsent [Hc Hr Hs]. split.
  - intros tx ck [Hx|(-> & m & Hm & Hx)]%(po_checks _ _ _ _ _ _ Hp); [by apply Hc|by eapply Hsent].
  - intros v (y & Hy & <- & <- & _)%(po_verified _ _ _ _ _ _ Hp). by apply Hr.
  - intros v l u (y & Hy & <- & _ & [->| ->])%(po_verified _ _ _ _ _ _ Hp) Hl; [by eapply Hs|done].
Qed.

Lemma respond_other c m src local now t : Co.message m <> Co.ProbeAck -> moved (tr_verified t) (tr_verified (respond c m src local now t).1).
Proof.
  unfold respond, on_candidates, on_candidates_ack, on_probe, learn_route, learn_endpoint.
  destruct (Co.message m) as [l| | | |p|id|id b]; intros Hm; try done; try apply moved_refl.
  - destruct (_ || _ || _); [apply moved_refl|]. case_bool_decide; [apply moved_refl|]. done.
  - destruct (_ || _ || _); apply moved_refl.
  - destruct src as [e|]; [|apply moved_refl]. destruct (Co.valid_endpoint e); [|apply moved_refl]. repeat case_match; apply moved_refl.
  - destruct src as [e|]; [|apply moved_refl]. destruct (Co.valid_endpoint e); [|apply moved_refl]. repeat case_match; apply moved_refl.
Qed.
(** What an acknowledgement that changes anything proves. *)
Lemma on_probe_ack_cases own m src local now t : (on_probe_ack own m src local now t).1 = t \/
  exists e ck, src = Some e /\ Co.generation m = own /\ tr_pending t !! Co.transaction m = Some ck /\
    ck_route ck = mkRoute e local /\ now - ck_sent ck < SECOND /\
    let q := acknowledge (mkRoute e local) ck now (tr_quality t) in
    (on_probe_ack own m src local now t).2 = Ok None /\
    (on_probe_ack own m src local now t).1 = set_checks (delete (Co.transaction m) (tr_pending t))
      (if replaces (mkRoute e local) now q (tr_verified t)
       then Some (verify (mkRoute e local) (ck_limit ck) now (tr_verified t)) else tr_verified t) q t.
Proof.
  unfold on_probe_ack. destruct src as [e|]; [|by left]. destruct (negb _) eqn:Hg; [by left|].
  destruct (tr_pending t !! Co.transaction m) as [ck|] eqn:Hck; [|by left]. destruct (_ || _) eqn:Hb; [by left|]. right. breflect.
  match goal with H : bool_decide _ = true |- _ => apply bool_decide_eq_true in H end. by exists e, ck.
Qed.
Lemma backed_respond c m src local now t :
  (forall e u lim, Co.message m = Co.ProbeAck -> src = Some e -> Co.generation m = generation c ->
     Sent (mkRoute e local) (Co.transaction m) u lim -> now - u < SECOND -> Proven (mkRoute e local) now lim) ->
  backed t -> backed (respond c m src local now t).1.
Proof.
  intros Hack Hb. destruct (decide (Co.message m = Co.ProbeAck)) as [Hm|Hm];
    [|apply (backed_shrink t); [apply respond_pending|by apply respond_other|done]].
  unfold respond. rewrite Hm. destruct (on_probe_ack_cases (generation c) m src local now t) as
    [->|(e & ck & -> & Hg & Hck & Hr & Ht & _ & ->)]; [done|].
  assert (Hnow : Proven (mkRoute e local) now (ck_limit ck)).
  { apply (Hack e (ck_sent ck)); try done. rewrite <-Hr. by apply (bk_checks _ _ _ Hb). }
  destruct Hb as [Hc Hvr Hvs]. split; cbn.
  - intros tx x Hx%lookup_delete_pending. by apply Hc.
  - intros v. case_match; [|apply Hvr]. intros [= <-]. by exists (ck_limit ck).
  - intros v l u. case_match; [|apply Hvs]. intros [= <-]. unfold verify. cbn [v_mtu v_route].
    destruct (ck_limit ck) as [lim|]; [rewrite Pm.proof_confirm; by intros [= <- <-]|].
    destruct (tr_verified t) as [old|] eqn:Hold; [|done]. case_bool_decide as Hro; [|done]. rewrite <-Hro. by apply Hvs.
Qed.
End backing.

Definition probed (h : history) (key : list byte) (g : N) (r : Route) (tx : list byte) (u : N) (lim : option N) : Prop :=
  exists elsewhere mtu address sends local m,
    (Poll elsewhere u mtu address, sends) ∈ h /\ check_send g local key tx r m ∈ sends /\ carries m lim.
Definition acked (h : history) (key : list byte) (g : N) (r : Route) (tx : list byte) (u : N) : Prop :=
  exists local m rate sends, (Receive local key m (Some (endpoint r)) (source r) u rate, sends) ∈ h /\
    Co.message m = Co.ProbeAck /\ Co.generation m = g /\ Co.transaction m = tx.
(** A check of the route was sent, and its acknowledgement came back over the same
    route less than a second later, at [u]. *)
Definition proven (h : history) (key : list byte) (g : N) (r : Route) (u : N) (lim : option N) : Prop :=
  exists tx u0, probed h key g r tx u0 lim /\ acked h key g r tx u /\ u - u0 < SECOND.
Definition provenance (h : history) (c : Connectivity) : Prop :=
  forall key t, peers c !! key = Some t -> backed (probed h key (generation c)) (proven h key (generation c)) t.

Lemma backed_later h h' key g t : h ⊆ h' -> backed (probed h key g) (proven h key g) t -> backed (probed h' key g) (proven h' key g) t.
Proof.
  intros Hs. assert (Hp : forall r tx u lim, probed h key g r tx u lim -> probed h' key g r tx u lim).
  { intros r tx u lim (e & m & a & sd & l & msg & Hin & Hr). exists e, m, a, sd, l, msg. split; [by apply Hs|done]. }
  assert (Hq : forall r u lim, proven h key g r u lim -> proven h' key g r u lim).
  { intros r u lim (tx & u0 & Hpr & (l & m & rt & sd & Hin & Ha) & Hu). exists tx, u0. split; [by apply Hp|]. split; [|done].
    exists l, m, rt, sd. split; [by apply Hs|done]. }
  intros [Hc Hr Hz]. split; [intros; by apply Hp, Hc| |intros; apply Hq; by eapply Hz].
  intros v Hv. destruct (Hr v Hv) as [lim Hx]. exists lim. by apply Hq.
Qed.

Lemma make_room_lookup local remote now c k t' : peers (make_room local remote now c) !! k = Some t' ->
  peers c !! k = Some t' \/ idle_track t'.
Proof.
  assert (Hins : forall c0, (forall j u, peers c0 !! j = Some u -> peers c !! j = Some u) ->
    peers (insert_track local remote now c0) !! k = Some t' -> peers c !! k = Some t' \/ idle_track t').
  { intros c0 Hsub. cbn. intros [[_ <-]|[_ Hk]]%lookup_insert_Some; [by right|left; by apply Hsub]. }
  unfold make_room. destruct (_ <=? _); [|by apply Hins]. destruct (oldest_idle now (peers c)); [|by left].
  apply Hins. cbn. by intros j u [_ ?]%lookup_delete_Some.
Qed.
Lemma touch_lookup local remote now c k t' : peers (touch local remote now c) !! k = Some t' ->
  (exists t, peers c !! k = Some t /\ same_but_pairs t t') \/ idle_track t'.
Proof.
  unfold touch. destruct (peers c !! remote) as [t|] eqn:Ht; [case_bool_decide|].
  - cbn. intros [[<- <-]|[_ Hk]]%lookup_insert_Some; left; [exists t|exists t']; [done|split; [done|apply same_refl]].
  - intros [Hk|Hi]%make_room_lookup; [left|by right]. cbn in Hk. apply lookup_delete_Some in Hk as [_ Hk]. exists t'. split; [done|apply same_refl].
  - intros [Hk|Hi]%make_room_lookup; [left|by right]. exists t'. split; [done|apply same_refl].
Qed.
Lemma make_room_generation local remote now c : generation (make_room local remote now c) = generation c.
Proof. unfold make_room. case_match; [|done]. by destruct (oldest_idle _ _). Qed.
Lemma touch_generation local remote now c : generation (touch local remote now c) = generation c.
Proof. unfold touch. destruct (peers c !! remote); [case_bool_decide; [done|]|]; by rewrite make_room_generation. Qed.
Lemma prepared_lookup local remote now c k t' : peers (prepared local remote now c) !! k = Some t' ->
  (exists t, peers c !! k = Some t /\ same_but_pairs t t') \/ idle_track t'.
Proof.
  unfold prepared. destruct (peers c !! remote); [case_bool_decide|]; try apply touch_lookup.
  intros Hk. left. exists t'. split; [done|apply same_refl].
Qed.
Lemma prepared_generation local remote now c : generation (prepared local remote now c) = generation c.
Proof. unfold prepared. destruct (peers c !! remote); [case_bool_decide; [done|]|]; apply touch_generation. Qed.

Lemma provenance_sub h h' c c' : h ⊆ h' -> generation c' = generation c ->
  (forall k t', peers c' !! k = Some t' -> (exists t, peers c !! k = Some t /\ same_but_pairs t t') \/ idle_track t') ->
  provenance h c -> provenance h' c'.
Proof.
  intros Hs Hg Hsub Hp k t' Hk. rewrite Hg. destruct (Hsub k t' Hk) as [(t & Ht & Hsame)|Hi]; [|by apply backed_idle].
  eapply backed_same; [exact Hsame|]. by eapply backed_later; [|apply Hp].
Qed.
Lemma provenance_idle h c : map_Forall (fun _ t => idle_track t) (peers c) -> provenance h c.
Proof. intros Hi k t Hk. by apply backed_idle, (Hi k t). Qed.

Lemma lookup_kept h h' c c' : h ⊆ h' -> generation c' = generation c -> peers c' ⊆ peers c -> provenance h c -> provenance h' c'.
Proof.
  intros Hs Hg Hsub. apply provenance_sub; [done|done|]. intros k t Hk. left. exists t. split; [by eapply lookup_weaken|apply same_refl].
Qed.
Lemma restarted_provenance h g ceil cands c : provenance h (mkConnectivity g ceil cands (local_paths c) (restart_all c) (cursor c) (messages c)
  (draws c + size (peers c))).
Proof. apply provenance_idle. intros k t' (t & tx & _ & ->)%restart_all_lookup. done. Qed.

Lemma receive_provenance h local remote m src le now rate c answer :
  provenance h c ->
  provenance (h ++ [(Receive local remote m src le now rate, answer)]) (receive_on local remote m src le now rate c).2.1.
Proof.
  intros Hp. set (h' := h ++ _). assert (Hs : h ⊆ h') by (unfold h'; set_solver).
  destruct (receive_cases local remote m src le now rate c) as [->|(r & Hcase)]; [by apply (lookup_kept h h' c)|].
  set (cp := prepared local remote now (set_messages r c)) in *.
  assert (Hg : generation cp = generation c) by exact (prepared_generation local remote now (set_messages r c)).
  assert (Hcp : provenance h' cp) by (eapply provenance_sub; [exact Hs|exact Hg| |exact Hp]; intros k t'; exact (prepared_lookup local remote now (set_messages r c) k t')).
  destruct Hcase as [->|[->|(t & t' & Ht & -> & Hor)]]; [by apply (lookup_kept h h' c)|done|].
  intros k u. cbn [set_peers peers generation]. intros [[<- <-]|[_ Hk]]%lookup_insert_Some; [|by apply Hcp].
  pose proof (backed_same _ _ _ _ (rate_same now t) (Hcp _ _ Ht)) as Hb. destruct Hor as [->| ->]; [done|].
  apply backed_respond; [|done]. intros e v lim Hm -> Hgen Hsent Hv. exists (Co.transaction m), v. split; [done|]. split; [|done].
  exists local, m, rate, answer. split; [unfold h'; set_solver|done].
Qed.
Lemma step_provenance o c h : conn_wf c -> provenance h c ->
  let '(c', sends) := step o c in provenance (h ++ [(o, sends)]) c'.
Proof.
  intros Hw Hp. assert (Hs : forall s, h ⊆ h ++ [(o, s)]) by (intros s; set_solver).
  destruct o as [cands|local cands| |local remote now|f| |local remote m src le now rate|e now mtu a]; cbn [step].
  - destruct (update_cases cands c) as [->|(g & _ & _ & _ & ->)]; [by apply (lookup_kept h _ c)|apply restarted_provenance].
  - destruct (update_paths_cases local cands c) as [->|(_ & g & _ & _ & ->)]; [by apply (lookup_kept h _ c)|].
    apply provenance_idle. intros k t' (t & <- & (t0 & tx & _ & ->)%restart_all_lookup)%lookup_fmap_Some. done.
  - unfold resume. destruct (update_cases (candidates c) c) as [->|(g & _ & _ & _ & ->)]; [by apply (lookup_kept h _ c)|apply restarted_provenance].
  - eapply provenance_sub; [apply Hs|apply touch_generation| |exact Hp]. intros k t'. apply touch_lookup.
  - apply (lookup_kept h _ c); [done|done|apply map_filter_subseteq|done].
  - apply (lookup_kept h _ c); [done|done|apply map_empty_subseteq|done].
  - destruct (receive_on local remote m src le now rate c) as [rt [c' res]] eqn:Hr.
    pose proof (receive_provenance h local remote m src le now rate c (match res with Ok l => l | _ => [] end) Hp) as Hx. by rewrite Hr in Hx.
  - pose proof (poll_checks_spec e now mtu a c Hw) as Hpoll. destruct (poll_with_mtu e now mtu a c) as [c' sends].
    destruct Hpoll as (Hk & _ & Hg & _). intros key t' (t & Ht & Hpo)%Hk. rewrite Hg.
    eapply backed_polled; [exact Hpo| |].
    + intros tx r m lim Hin Hm. exists e, mtu, a, sends, (tr_local (expire_checks now t)), m. split; [set_solver|done].
    + eapply backed_later; [apply Hs|]. by apply backed_expired, Hp.
Qed.
Lemma run_provenance ops c : Forall op_ok ops -> conn_wf c -> map_Forall (fun _ t => idle_track t) (peers c) ->
  provenance (run ops c).2 (run ops c).1.
Proof.
  intros Hok Hw Hi. induction ops as [|o ops IH] using rev_ind; [by apply provenance_idle|].
  apply Forall_app in Hok as [Hok [Ho _]%Forall_cons]. rewrite run_snoc. specialize (IH Hok). pose proof (run_conn_wf ops c Hok Hw) as Hw1.
  destruct (run ops c) as [c1 h]. unfold run_step. cbn [fst snd] in *. pose proof (step_provenance o c1 h Hw1 IH) as Hs. by destruct (step o c1).
Qed.

(** A start: nothing learnt yet, as after [new] and [reserve_generation]. *)
Definition starts (c : Connectivity) : Prop := peers c = ∅ /\ local_paths c = None /\ candidates c = [].
Lemma new_starts g now : starts (new g now).
Proof. done. Qed.
Lemma reserve_starts start ceiling c : starts c -> starts (reserve_generation start ceiling c).
Proof. done. Qed.

(** C8: a direct path is proved before it is used. Whatever messages arrive and
    whatever else happens, if a datagram is routed directly to a Peer then, in the
    current path generation, a check of exactly that route was sent, and its
    acknowledgement came back over the same route less than a second later, recently
    enough for the track's health lifetime; and a datagram of more than 96 bytes is
    routed only if a size probe at least as large was acknowledged so. *)
Theorem path_is_proven c0 ops remote now len r (Hstart : starts c0) (Hops : Forall op_ok ops)
    (Hroute : route remote now len (run ops c0).1 = Some r) :
  let '(c, h) := run ops c0 in
  exists t u lim, peers c !! remote = Some t /\ proven h remote (generation c) r u lim /\ now - u < health_lifetime t now /\
    (len <= 96 \/ exists v l, proven h remote (generation c) r v (Some l) /\ now - v < health_lifetime t now /\ len <= l).
Proof.
  destruct Hstart as (Hp & Hl & Hc). pose proof (run_provenance ops c0 Hops (conn_wf_start c0 Hp Hl Hc)) as Hpr.
  rewrite Hp in Hpr. specialize (Hpr (map_Forall_empty _)). destruct (run ops c0) as [c h]. cbn [fst snd] in *.
  unfold route in Hroute. destruct (peers c !! remote) as [t|] eqn:Ht; [|done]. cbn [mbind option_bind] in Hroute.
  destruct (tr_verified t) as [v|] eqn:Hv; [|done]. cbn [mbind option_bind] in Hroute.
  destruct (_ && _) eqn:Hb; [|done]. injection Hroute as <-. breflect.
  destruct (Hpr _ _ Ht) as [_ Hr Hs]. destruct (Hr v Hv) as [lim Hlim]. exists t, (v_confirmed v), lim.
  split; [done|]. split; [done|]. split; [done|]. unfold Pm.limit in *.
  destruct (Pm.proof (v_mtu v)) as [[l u]|] eqn:Hpf; [|by left]. destruct (N.ltb_spec (now - u) (health_lifetime t now)); [|by left].
  destruct (N.le_gt_cases len 96); [by left|]. right. exists u, l. split; [by apply Hs|]. split; [done|lia].
Qed.

(** C18: what a Peer's messages can make another keep is bounded. In every reachable
    state there are at most 256 tracks with at most 32 candidates, 128 pairs, 4
    checks in flight and 128 measured routes each, all of them among the pairs; at
    most 64 checks in flight in the mesh; and a poll keeps the checks of the process
    within 256. *)
Theorem connectivity_bounded c0 ops (Hstart : starts c0) (Hops : Forall op_ok ops) :
  let c := (run ops c0).1 in
  conn_wf c /\
  (forall k t, peers c !! k = Some t -> track_wf t /\ N.of_nat (size (tr_quality t)) <= 128) /\
  forall elsewhere now mtu address, elsewhere + pending_total (peers c) <= PROCESS_CHECKS ->
    elsewhere + pending_total (peers (poll_with_mtu elsewhere now mtu address c).1) <= PROCESS_CHECKS.
Proof.
  destruct Hstart as (Hp & Hl & Hc). cbv zeta. pose proof (run_conn_wf ops c0 Hops (conn_wf_start c0 Hp Hl Hc)) as Hw.
  split; [done|]. split.
  - intros k t Hk. pose proof (cw_tracks _ Hw k t Hk) as Ht. split; [done|].
    etrans; [|apply (tw_pairs _ Ht)]. unfold lenN. enough (size (tr_quality t) <= length (tr_pairs t))%nat by lia.
    rewrite <-size_dom. apply submseteq_length, NoDup_submseteq; [apply NoDup_elements|].
    intros r Hr%elem_of_elements%elem_of_dom. by apply (tw_quality _ Ht).
  - intros e now mtu a He. pose proof (poll_checks_spec e now mtu a _ Hw) as Hs. destruct (poll_with_mtu e now mtu a _). by apply Hs.
Qed.

(** *** A check that is answered *)

(** The Peer has a track for the sender and is within its rates. *)
Record can_receive (local remote : list byte) (le : option SocketAddr) (now : N) (rate : option Rate) (c : Connectivity) (t : Track) : Prop := {
  cr_socket : match le with Some e => exists paths, local_paths c = Some paths /\ e ∈ paths | None => True end;
  cr_mesh : (allow now 1024 (messages c)).2 = true;
  cr_process : (allow now 4096 (default (mkRate now 0) rate)).2 = true;
  cr_track : peers c !! remote = Some t;
  cr_local : tr_local t = local;
  cr_rate : tr_rate_count (rate_track now t) <= 32;
}.
Lemma receive_handled local remote m src le now rate c t : can_receive local remote le now rate c t ->
  let c1 := set_messages (allow now 1024 (messages c)).1 c in
  let x := respond c1 m src le now (rate_track now t) in
  (receive_on local remote m src le now rate c).2 =
    (set_peers (<[remote := x.1]> (peers c)) c1, replies local remote m src le x.2).
Proof.
  intros [Hs Hm Hp Ht Hl Hr]. cbv zeta. unfold receive_on.
  assert ((match le with Some e => match local_paths c with Some paths => negb (bool_decide (e ∈ paths)) | None => true end | None => false end) = false) as ->.
  { destruct le as [e|]; [|done]. destruct Hs as (paths & -> & He). by rewrite bool_decide_eq_true_2. }
  destruct (allow now 1024 (messages c)) as [own ok]. cbn [snd] in Hm. subst ok. cbn [negb].
  destruct (allow now 4096 _) as [shared ok]. cbn [snd] in Hp. subst ok. cbn [negb snd fst].
  unfold receive_track. cbn [set_messages peers]. rewrite Ht. rewrite bool_decide_eq_true_2 by done. cbn [set_messages peers]. rewrite Ht.
  destruct (N.ltb_spec 32 (tr_rate_count (rate_track now t))); [lia|]. by destruct (respond _ m src le now (rate_track now t)).
Qed.

Lemma lifetime_pos t now : 0 < health_lifetime t now.
Proof. unfold health_lifetime. case_match; by vm_compute. Qed.
Lemma limit_least now lifetime m : 96 <= Pm.limit now lifetime 96 m.
Proof. unfold Pm.limit. destruct (Pm.proof m) as [[l u]|]; [|done]. case_match; lia. Qed.
(** A route verified now is used for small datagrams, and up to a proved size. *)
Lemma route_fresh remote now len c t v : peers c !! remote = Some t -> tr_verified t = Some v -> v_confirmed v = now ->
  len <= 96 \/ (exists l, Pm.proof (v_mtu v) = Some (l, now) /\ len <= l) -> route remote now len c = Some (v_route v).
Proof.
  intros Ht Hv Hn Hlen. unfold route. rewrite Ht. cbn [mbind option_bind]. rewrite Hv. cbn [mbind option_bind].
  pose proof (lifetime_pos t now). rewrite Hn, N.sub_diag. destruct (N.ltb_spec 0 (health_lifetime t now)); [|lia].
  assert (Hle : len <= Pm.limit now (health_lifetime t now) 96 (v_mtu v)).
  { destruct Hlen as [Hl|(l & Hp & Hl)]; [pose proof (limit_least now (health_lifetime t now) (v_mtu v)); lia|].
    unfold Pm.limit. rewrite Hp, N.sub_diag. destruct (N.ltb_spec 0 (health_lifetime t now)); lia. }
  by rewrite (proj2 (N.leb_le _ _) Hle).
Qed.

Lemma answer_probe c ask e local now t lim : carries (Co.message ask) lim -> Co.valid_endpoint e = true ->
  (respond c ask (Some e) local now t).2 = Ok (Some Co.ProbeAck).
Proof.
  intros Hm He. unfold respond. destruct lim as [l|]; cbn in Hm; [destruct Hm as (p & -> & _)|rewrite Hm]; unfold on_probe; by rewrite He.
Qed.
Lemma respond_ack c m e local now t ck : Co.message m = Co.ProbeAck -> Co.generation m = generation c ->
  tr_pending t !! Co.transaction m = Some ck -> ck_route ck = mkRoute e local -> now - ck_sent ck < SECOND ->
  let q := acknowledge (mkRoute e local) ck now (tr_quality t) in
  respond c m (Some e) local now t =
    (set_checks (delete (Co.transaction m) (tr_pending t))
       (if replaces (mkRoute e local) now q (tr_verified t) then Some (verify (mkRoute e local) (ck_limit ck) now (tr_verified t))
        else tr_verified t) q t, Ok None).
Proof.
  intros Hm Hg Hck Hr Hn. unfold respond. rewrite Hm. unfold on_probe_ack. rewrite Hg, N.eqb_refl. cbn [negb]. rewrite Hck, Hr.
  rewrite bool_decide_eq_true_2 by done. cbn [negb orb]. by destruct (N.leb_spec SECOND (now - ck_sent ck)); [lia|].
Qed.

(** C11: a check that is answered opens the path, and a healthy path is not given
    up early. Let each side track the other, on the sockets the packets come in at, and
    be within its limits on received messages. When a check of [a] reaches [b], [b] answers it to where it came from;
    when that answer comes back within a second, on the route of the check, [a]
    routes to [b] directly over it - small datagrams, and as large ones as the check
    itself was - unless it has another route confirmed in the last 2.5 seconds; and
    a route that is confirmed and was selected less than five seconds ago stays. *)
Theorem answered_check_opens_path a b ka kb t tb tx ck probe from le_b now_b rate_b now rate_a
    (Hb : can_receive kb ka le_b now_b rate_b b tb) (Hfrom : Co.valid_endpoint from = true) (Hprobe : carries probe (ck_limit ck))
    (Ha : can_receive ka kb (source (ck_route ck)) now rate_a a t) (Hck : tr_pending t !! tx = Some ck)
    (Htime : now - ck_sent ck < SECOND) :
  let ack := Co.mkCoordination (generation a) tx Co.ProbeAck in
  (receive_on kb ka (Co.mkCoordination (generation a) tx probe) (Some from) le_b now_b rate_b b).2.2 = Ok [mkSend kb ka (Some from) le_b ack] /\
  let answered := (receive_on ka kb ack (Some (endpoint (ck_route ck))) (source (ck_route ck)) now rate_a a).2 in
  answered.2 = Ok [] /\
  ((forall old, tr_verified t = Some old -> v_route old = ck_route ck \/ ACTIVE_HEALTH_LIFETIME <= now - v_confirmed old) ->
   forall len, len <= 96 \/ (exists l, ck_limit ck = Some l /\ len <= l) -> route kb now len answered.1 = Some (ck_route ck)) /\
  (forall old, tr_verified t = Some old -> v_route old <> ck_route ck -> now - v_confirmed old < ACTIVE_HEALTH_LIFETIME ->
   now - v_selected old < 5 * SECOND -> tr_verified <$> peers answered.1 !! kb = Some (Some old)).
Proof.
  cbv zeta. rewrite (receive_handled _ _ _ _ _ _ _ _ _ Hb), (receive_handled _ _ _ _ _ _ _ _ _ Ha). cbn [fst snd].
  rewrite (answer_probe _ _ _ _ _ _ (ck_limit ck)) by done. split; [done|].
  set (c1 := set_messages _ a). set (m := Co.mkCoordination (generation a) tx Co.ProbeAck). set (t0 := rate_track now t).
  pose proof (rate_same now t) as Hsame.
  assert (Hr : ck_route ck = mkRoute (endpoint (ck_route ck)) (source (ck_route ck))) by (by destruct (ck_route ck)).
  rewrite (respond_ack c1 m _ _ now t0 ck) by (done || (unfold t0; by rewrite (sb_pending _ _ Hsame))). cbn [fst snd].
  rewrite <-Hr. unfold t0. rewrite (sb_verified _ _ Hsame). set (q := acknowledge _ _ _ _). split; [done|]. split.
  - intros Hold len Hlen. set (v := verify (ck_route ck) (ck_limit ck) now (tr_verified t)).
    assert (replaces (ck_route ck) now q (tr_verified t) = true) as ->.
    { unfold replaces. destruct (tr_verified t) as [old|]; [|done]. destruct (Hold old eq_refl) as [He|Hc].
      - by rewrite bool_decide_eq_true_2.
      - rewrite (proj2 (N.leb_le _ _) Hc). by rewrite orb_true_r. }
    change (ck_route ck) with (v_route v). eapply route_fresh; [apply lookup_insert_eq|done|done|].
    destruct Hlen as [Hl|(l & Hl & Hle)]; [by left|right]. exists l. split; [|done]. unfold v, verify. cbn [v_mtu].
    by rewrite Hl, Pm.proof_confirm.
  - intros old Hold Hne Hconf Hsel. cbn [set_peers peers]. rewrite lookup_insert_eq. cbn. rewrite Hold. unfold replaces.
    rewrite bool_decide_eq_false_2 by done. destruct (N.leb_spec ACTIVE_HEALTH_LIFETIME (now - v_confirmed old)); [lia|].
    by destruct (N.leb_spec (5 * SECOND) (now - v_selected old)); [lia|].
Qed.
End runs.

(** ** Examples *)

#[local] Instance counting_rng : OsRng := {| fill_bytes n len := to_be len (N.of_nat n + 1) |}.
Definition key_of (n : N) : list byte := to_be 32 n.
Definition example_endpoint : SocketAddr := SockV4 0xc0000201 1234.
Definition example_route : Route := mkRoute example_endpoint None.
Definition example_address (k : list byte) : option IpAddr := Some (V4 0x7f000001).
Definition example_start : Connectivity := new 7 0.
(** Peer 2 advertises an endpoint; Peer 1 checks it; the check is acknowledged. *)
Definition example_offer : op :=
  Receive (key_of 1) (key_of 2) (Co.mkCoordination 1 (replicate 16 x02) (Co.Candidates [example_endpoint])) None None SECOND None.
Definition example_poll : op := Poll 0 SECOND 1280 example_address.
Definition example_ack : op :=
  Receive (key_of 1) (key_of 2) (Co.mkCoordination 7 (to_be 16 2) Co.ProbeAck) (Some example_endpoint) None (SECOND + 10 * MILLI) None.
Definition example_ops : list op := [example_offer; example_poll; example_ack].

Example example_sends :
  (run [example_offer; example_poll] example_start).2.*2 =
  [[mkSend (key_of 1) (key_of 2) None None (Co.mkCoordination 1 (replicate 16 x02) Co.CandidatesAck)];
   [mkSend (key_of 1) (key_of 2) None None (Co.mkCoordination 7 (to_be 16 1) (Co.Candidates []));
    check_send 7 (key_of 1) (key_of 2) (to_be 16 2) example_route Co.Probe]].
Proof. vm_compute. reflexivity. Qed.
Example example_other_route : route (key_of 2) (2 * SECOND) 96
  (run [example_offer; example_poll; Receive (key_of 1) (key_of 2) (Co.mkCoordination 7 (to_be 16 2) Co.ProbeAck) (Some (SockV4 0xc0000202 1234)) None
     (SECOND + 10 * MILLI) None] example_start).1 = None.
Proof. vm_compute. reflexivity. Qed.
Lemma example_ops_ok : Forall op_ok example_ops.
Proof. repeat constructor; by vm_compute. Qed.

Lemma path_is_proven_witness :
  let '(c, h) := run example_ops example_start in
  exists t u lim, peers c !! key_of 2 = Some t /\ proven h (key_of 2) (generation c) example_route u lim /\
    2 * SECOND - u < health_lifetime t (2 * SECOND) /\
    (96 <= 96 \/ exists v l, proven h (key_of 2) (generation c) example_route v (Some l) /\ 2 * SECOND - v < health_lifetime t (2 * SECOND) /\ 96 <= l).
Proof.
  apply (path_is_proven example_start example_ops (key_of 2) (2 * SECOND) 96 example_route); [done|exact example_ops_ok|].
  vm_compute. reflexivity.
Defined.
Lemma connectivity_bounded_witness :
  let c := (run example_ops example_start).1 in
  conn_wf c /\
  (forall k t, peers c !! k = Some t -> track_wf t /\ N.of_nat (size (tr_quality t)) <= 128) /\
  forall elsewhere now mtu address, elsewhere + pending_total (peers c) <= PROCESS_CHECKS ->
    elsewhere + pending_total (peers (poll_with_mtu elsewhere now mtu address c).1) <= PROCESS_CHECKS.
Proof. apply (connectivity_bounded example_start example_ops); [done|exact example_ops_ok]. Defined.

(** The answering Peer knows the asking one from an offer of its own. *)
Definition example_asking : Connectivity := (run [example_offer; example_poll] example_start).1.
Definition example_asked : Connectivity :=
  (step (Receive (key_of 2) (key_of 1) (Co.mkCoordination 7 (to_be 16 1) (Co.Candidates [])) None None SECOND None) (new 1 0)).1.
Definition track_at (k : N) (c : Connectivity) : Track := default (fresh_track [] [] 0) (peers c !! key_of k).
Definition example_check : Check := mkCheck example_route SECOND None.
Definition example_answer : Co.Coordination := Co.mkCoordination (generation example_asking) (to_be 16 2) Co.ProbeAck.
Lemma answered_check_opens_path_witness :
  (receive_on (key_of 2) (key_of 1) (Co.mkCoordination (generation example_asking) (to_be 16 2) Co.Probe) (Some (SockV4 0xc0000202 5678)) None SECOND None
     example_asked).2.2 = Ok [mkSend (key_of 2) (key_of 1) (Some (SockV4 0xc0000202 5678)) None example_answer] /\
  let answered := (receive_on (key_of 1) (key_of 2) example_answer (Some example_endpoint) None (SECOND + 10 * MILLI) None example_asking).2 in
  answered.2 = Ok [] /\
  forall len, len <= 96 -> route (key_of 2) (SECOND + 10 * MILLI) len answered.1 = Some example_route.
Proof.
  assert (Ht : peers example_asking !! key_of 2 = Some (track_at 2 example_asking)) by (vm_compute; reflexivity).
  assert (Htb : peers example_asked !! key_of 1 = Some (track_at 1 example_asked)) by (vm_compute; reflexivity).
  assert (Hv : tr_verified (track_at 2 example_asking) = None) by (vm_compute; reflexivity).
  destruct (answered_check_opens_path example_asking example_asked (key_of 1) (key_of 2) (track_at 2 example_asking) (track_at 1 example_asked)
    (to_be 16 2) example_check Co.Probe (SockV4 0xc0000202 5678) None SECOND None (SECOND + 10 * MILLI) None) as (Hans & Hok & Hroute & _).
  - split; [done|by vm_compute|by vm_compute|exact Htb|by vm_compute|by vm_compute].
  - by vm_compute.
  - done.
  - split; [done|by vm_compute|by vm_compute|exact Ht|by vm_compute|by vm_compute].
  - vm_compute. reflexivity.
  - by vm_compute.
  - split; [exact Hans|]. split; [exact Hok|]. intros len Hl. apply Hroute; [|by left]. intros old Hold. rewrite Hv in Hold. discriminate Hold.
Defined.

End Cn.
