(* ===== verification/WgEngine.v ===== *)
(** * The WireGuard engine (crate [peerward-wireguard]: lib.rs, queue.rs, engine.rs)

    One local credential's device: a tunnel per installed key, the queue of plaintext
    that waits for a session, and the receiver indices a datagram is dispatched by.
    The sessions themselves are gotatun's, which is not part of the repository:
    [Gotatun] has the calls the engine makes. Its tunnels share an index table and
    a rate limiter and read the clock and the random generator, so each call takes
    the state of all of that, [world], and returns the next one. *)

From S2P Require Import Prelude Ordered Net.
From Stdlib Require Import NArith Lia Sorting.Sorted.
From stdpp Require Import base tactics decidable countable numbers list sorting gmap.
From Stdlib.Init Require Import Byte.
Set Default Goal Selector "!".
Local Open Scope N_scope.

(** A parsed datagram, and what a tunnel answers to one. *)
Inductive WgKind :=
| HandshakeInit (packet : list byte)
| HandshakeResp (packet : list byte)
| CookieReply (packet : list byte)
| Data (packet : list byte).
Inductive TunnResult :=
| Done
| TunnErr
| WriteToNetwork (packet : WgKind)
| WriteToTunnel (packet : list byte).

(** [Tunn], [IndexTable], [RateLimiter] and [parse_handshake_anon]; a result is [None]
    where the call returns its error, or its empty answer. [sender_idx] and
    [receiver_idx] are fields of the packet types. *)
Class Gotatun := {
  Tunn : Type;
  IndexTable : Type;
  RateLimiter : Type;
  world : Type;
  from_os_rng : world -> world * IndexTable;
  in_use : IndexTable -> N -> world -> bool;
  rate_limiter_new : list byte -> N -> world -> world * RateLimiter;
  try_reset_count : RateLimiter -> world -> world;
  verify_packet : RateLimiter -> SocketAddr -> list byte -> world -> world * (WgKind + TunnResult);
  parse_handshake_anon : list byte -> list byte -> list byte -> option (list byte);
  sender_idx : list byte -> N;
  receiver_idx : list byte -> N;
  tunn_new : list byte -> list byte -> IndexTable -> RateLimiter -> world -> world * Tunn;
  tunn_reset : Tunn -> world -> world * Tunn;
  format_handshake_initiation : bool -> Tunn -> world -> world * Tunn * option (list byte);
  encapsulate_with_session : list byte -> Tunn -> world -> world * Tunn * option (list byte);
  handle_incoming_packet : WgKind -> Tunn -> world -> world * Tunn * TunnResult;
  update_timers : Tunn -> world -> world * Tunn * option WgKind;
}.
(** [PublicKey::from(&StaticSecret)] and [SharedSecret::was_contributory] of a
    Diffie-Hellman exchange, of x25519_dalek. *)
Class X25519Dh := {
  dh_public : list byte -> list byte;
  dh_contributory : list byte -> list byte -> bool;
}.

(** What the engine relies on once two tunnels share a session. [linked during i t r]:
    at any state in [during] - before the session expires - [t] can seal, and [r] opens
    what [t] sealed, in that order, each packet once; the ciphertexts carry the index
    [i] that [r] chose, are 32 bytes longer than the plaintext, and data packets are
    exempt from the rate limit. No call the engine makes while it ticks ends [during]. *)
Class GotatunLaws `{Gotatun} := {
  linked : (world -> Prop) -> N -> Tunn -> Tunn -> Prop;
  seal_linked during i t r x w : linked during i t r -> during w ->
    exists w' t' c, encapsulate_with_session x t w = (w', t', Some c) /\ receiver_idx c = i /\ lenN c = lenN x + 32 /\
      (forall lim a u, verify_packet lim a c u = (u, inl (Data c))) /\
      (forall u, during u -> exists u' r', handle_incoming_packet (Data c) r u = (u', r', WriteToTunnel x) /\ linked during i t' r');
  timers_linked during i t r w w' t' timer : linked during i t r -> during w -> update_timers t w = (w', t', timer) -> linked during i t' r;
  during_timers during i t r t1 w w' t' timer : linked during i t r -> during w -> update_timers t1 w = (w', t', timer) -> during w';
  during_seal during i t r x t1 w w' t' c : linked during i t r -> during w -> encapsulate_with_session x t1 w = (w', t', c) -> during w';
  during_count during i t r lim w : linked during i t r -> during w -> during (try_reset_count lim w);
}.

Module Wg.

(** ** lib.rs *)

Notation Key := (list byte) (only parsing).

Inductive Error :=
| Closed | InvalidLimits | PeerLimit | InvalidKey | UnknownPeer | UnknownIndex | Authentication
| Unauthorized | QueueFull | InvalidPacket | PacketTooLarge.
#[export] Instance Error_eq_dec : EqDecision Error.
Proof. solve_decision. Defined.
Notation result := (outcome Error).

Inductive Ingress := Direct (address : SocketAddr) | Relay (peer : Key).
Inductive Event :=
| Network (peer : option Key) (packet : list byte)
| Plaintext (peer : Key) (packet : list byte).
#[export] Instance Event_eq_dec : EqDecision Event.
Proof. solve_decision. Defined.

Record Limits := mkLimits {
  l_peers : N;
  mtu : N;
  queued_packets : N;
  l_queued_bytes : N;
  total_queued_bytes : N;
  queue_lifetime : N;
  handshakes_per_second : N;
}.
Definition SECOND : N := 1_000_000_000.
Definition DEFAULT_MTU : N := 1280.
Definition limits_default : Limits :=
  mkLimits 20000 DEFAULT_MTU 64 (256 * 1024) (16 * 1024 * 1024) (3 * SECOND) 100.
Definition validate (l : Limits) : result unit :=
  if (l_peers l =? 0) || (20000 <? l_peers l)
     || negb ((1280 <=? mtu l) && (mtu l <=? 9000))
     || (queued_packets l =? 0) || (512 <? queued_packets l)
     || (l_queued_bytes l <? mtu l) || (4 * 1024 * 1024 <? l_queued_bytes l)
     || (total_queued_bytes l <? l_queued_bytes l) || (64 * 1024 * 1024 <? total_queued_bytes l)
     || (queue_lifetime l =? 0) || (10 * SECOND <? queue_lifetime l)
     || (handshakes_per_second l =? 0) || (1000 <? handshakes_per_second l)
  then Err InvalidLimits else Ok tt.

(** ** queue.rs *)

(** [-=] on [usize]: underflow aborts. *)
Definition usub {E} (a b : N) : outcome E N := if b <=? a then Ok (a - b) else Panic.

Record Pending := mkPending { packet : list byte; expires : N; authorization : N }.
#[export] Instance Pending_eq_dec : EqDecision Pending.
Proof. solve_decision. Defined.
Record Queue := mkQueue { packets : list Pending; bytes : N }.
Definition queue_default : Queue := mkQueue [] 0.

Definition pop (q : Queue) : result (Queue * option Pending) :=
  match packets q with
  | [] => Ok (q, None)
  | p :: rest => b ← usub (bytes q) (lenN (packet p)); Ok (mkQueue rest b, Some p)
  end.
Definition restore (p : Pending) (q : Queue) : Queue := mkQueue (p :: packets q) (bytes q + lenN (packet p)).
(** The loop of [expire] pops while the front is due. *)
Fixpoint expire_packets (now : N) (ps : list Pending) (b : N) : result Queue :=
  match ps with
  | p :: rest =>
      if expires p <=? now then b ← usub b (lenN (packet p)); expire_packets now rest b
      else Ok (mkQueue ps b)
  | [] => Ok (mkQueue [] b)
  end.
Definition expire (now : N) (q : Queue) : result Queue := expire_packets now (packets q) (bytes q).
(** Expired packets are dropped even when the new one is refused. *)
Definition push (p : list byte) (now : N) (l : Limits) (auth : N) (q : Queue) : result (Queue * result unit) :=
  q ← expire now q;
  if (queued_packets l <=? lenN (packets q)) || (l_queued_bytes l - bytes q <? lenN p)
  then Ok (q, Err QueueFull)
  else Ok (mkQueue (packets q ++ [mkPending p (now + queue_lifetime l) auth]) (bytes q + lenN p), Ok tt).

(** ** engine.rs: the packets *)

Definition ip_length (p : list byte) : result N :=
  match head p with
  | Some b0 =>
      if (N.shiftr (u8 b0) 4 =? 4) && (20 <=? lenN p) then
        let header := N.land (u8 b0) 15 * 4 in
        if (header <? 20) || (lenN p <? header) then Err InvalidPacket else
        length ← be16_at p 2;
        if length <? header then Err InvalidPacket else Ok length
      else if (N.shiftr (u8 b0) 4 =? 6) && (40 <=? lenN p) then
        length ← be16_at p 4; Ok (40 + length)
      else Err InvalidPacket
  | None => Err InvalidPacket
  end.
Definition validate_ip (p : list byte) (m : N) : result unit :=
  if m <? lenN p then Err PacketTooLarge else
  length ← ip_length p;
  if negb (length =? lenN p) then Err InvalidPacket else Ok tt.

(** [resize(len.next_multiple_of(16).min(mtu), 0)] *)
Definition padded_len (len m : N) : N := N.min ((len + 15) / 16 * 16) m.
Definition padded (p : list byte) (m : N) : list byte :=
  let n := padded_len (lenN p) m in
  take (N.to_nat n) p ++ replicate (N.to_nat (n - lenN p)) x00.

Definition raw (k : WgKind) : list byte :=
  match k with HandshakeInit p | HandshakeResp p | CookieReply p | Data p => p end.

(** [u32::from_le_bytes] *)
Definition from_le (bs : list byte) : N := from_be (reverse bs).

(** [Ingress::cookie_address] *)
Definition cookie_address (i : Ingress) : SocketAddr :=
  match i with Direct a => a | Relay peer => socket_new (V6 (from_be (take 16 peer))) 1 end.

Section engine.
Context `{Gotatun} `{X25519Dh}.

(** ** engine.rs: the state *)

Record Peer := mkPeer { tunnel : Tunn; pending : Queue }.
Record Engine := mkEngine {
  private : Key;
  public : Key;
  indices : IndexTable;
  owners : gmap N (list byte);
  peers : gmap (list byte) Peer;
  queued_bytes : N;
  limiter : RateLimiter;
  limits : Limits;
  closed : bool;
}.
Definition set_peers (ps : gmap (list byte) Peer) (e : Engine) : Engine :=
  mkEngine (private e) (public e) (indices e) (owners e) ps (queued_bytes e) (limiter e) (limits e) (closed e).
Definition set_owners (o : gmap N (list byte)) (e : Engine) : Engine :=
  mkEngine (private e) (public e) (indices e) o (peers e) (queued_bytes e) (limiter e) (limits e) (closed e).
Definition set_queued (n : N) (e : Engine) : Engine :=
  mkEngine (private e) (public e) (indices e) (owners e) (peers e) n (limiter e) (limits e) (closed e).
Definition put_peer (k : Key) (p : Peer) (e : Engine) : Engine := set_peers (<[k := p]> (peers e)) e.

Definition with_indices (secret : Key) (l : Limits) (idx : IndexTable) (w : world) : world * result Engine :=
  match validate l with
  | Ok _ =>
      let pub := dh_public secret in
      let '(w, lim) := rate_limiter_new pub (handshakes_per_second l) w in
      (w, Ok (mkEngine secret pub idx ∅ ∅ 0 lim l false))
  | Err err => (w, Err err)
  | Panic => (w, Panic)
  end.
Definition new (secret : Key) (l : Limits) (w : world) : world * result Engine :=
  let '(w, idx) := from_os_rng w in with_indices secret l idx w.
Definition replacement (secret : Key) (e : Engine) (w : world) : world * result Engine :=
  if closed e then (w, Err Closed) else with_indices secret (limits e) (indices e) w.

Definition owner (index : N) (e : Engine) (w : world) : result Key :=
  if negb (in_use (indices e) index w) then Err UnknownIndex else ok_or (owners e !! index) UnknownIndex.
Definition owns_receiver (datagram : list byte) (e : Engine) (w : world) : bool :=
  let index :=
    match get_slice datagram 0 4 with
    | Some h =>
        if bool_decide (h = [x02; x00; x00; x00]) then get_slice datagram 8 12
        else if bool_decide (h = [x03; x00; x00; x00]) || bool_decide (h = [x04; x00; x00; x00])
        then get_slice datagram 4 8 else None
    | None => None
    end in
  match index with Some b => is_ok (owner (from_le b) e w) | None => false end.

Definition install (key : Key) (e : Engine) (w : world) : world * Engine * result unit :=
  if closed e then (w, e, Err Closed) else
  match peers e !! key with
  | Some _ => (w, e, Ok tt)
  | None =>
      if l_peers (limits e) <=? N.of_nat (size (peers e)) then (w, e, Err PeerLimit) else
      if bool_decide (key = public e) || negb (dh_contributory (private e) key) then (w, e, Err InvalidKey) else
      let '(w, t) := tunn_new (private e) key (indices e) (limiter e) w in
      (w, put_peer key (mkPeer t queue_default) e, Ok tt)
  end.

Definition disown (key : Key) (e : Engine) : Engine :=
  set_owners (filter (fun o : N * list byte => o.2 <> key) (owners e)) e.
Definition remove (key : Key) (e : Engine) (w : world) : world * Engine * result unit :=
  match peers e !! key with
  | Some p =>
      let e := set_peers (delete key (peers e)) e in
      match usub (queued_bytes e) (bytes (pending p)) with
      | Ok n => let '(w, _) := tunn_reset (tunnel p) w in (w, disown key (set_queued n e), Ok tt)
      | Err err => (w, e, Err err)
      | Panic => (w, e, Panic)
      end
  | None => (w, disown key e, Ok tt)
  end.

Definition clear_queue (p : Peer) : Peer := mkPeer (tunnel p) queue_default.
Definition clear_pending (e : Engine) : Engine := set_queued 0 (set_peers (clear_queue <$> peers e) e).

(** [values_mut] and [keys] of a [HashMap] visit every entry once, in any order: the
    operations that do take the order they meet. *)
Fixpoint reset_tunnels (keys : list Key) (ps : gmap (list byte) Peer) (w : world) : world * gmap (list byte) Peer :=
  match keys with
  | k :: rest =>
      match ps !! k with
      | Some p => let '(w, t) := tunn_reset (tunnel p) w in reset_tunnels rest (<[k := mkPeer t (pending p)]> ps) w
      | None => reset_tunnels rest ps w
      end
  | [] => (w, ps)
  end.
Definition reset_sessions (keys : list Key) (e : Engine) (w : world) : world * Engine :=
  let e := clear_pending e in
  let '(w, ps) := reset_tunnels keys (peers e) w in
  (w, set_owners ∅ (set_peers ps e)).
Definition close (keys : list Key) (e : Engine) (w : world) : world * Engine :=
  if closed e then (w, e) else
  let e := clear_pending e in
  let '(w, _) := reset_tunnels keys (peers e) w in
  (w, mkEngine (replicate 32 x00) (public e) (indices e) ∅ ∅ (queued_bytes e) (limiter e) (limits e) true).

(** ** engine.rs: the traffic *)

Definition claimed_index (k : WgKind) : option N :=
  match k with HandshakeInit p | HandshakeResp p => Some (sender_idx p) | _ => None end.
Definition network (peer : option Key) (k : WgKind) (e : Engine) : Engine * Event :=
  (match peer, claimed_index k with
   | Some key, Some index => set_owners (<[index := key]> (owners e)) e
   | _, _ => e
   end, Network peer (raw k)).
Fixpoint networks (key : Key) (ks : list WgKind) (e : Engine) : Engine * list Event :=
  match ks with
  | k :: rest => let '(e, event) := network (Some key) k e in let '(e, events) := networks key rest e in (e, event :: events)
  | [] => (e, [])
  end.

Definition initiate (key : Key) (e : Engine) (w : world) : world * Engine * result (list Event) :=
  if closed e then (w, e, Err Closed) else
  match peers e !! key with
  | None => (w, e, Err UnknownPeer)
  | Some p =>
      let '(w, t, hs) := format_handshake_initiation false (tunnel p) w in
      let '(e, events) := networks key (HandshakeInit <$> option_list hs) (put_peer key (mkPeer t (pending p)) e) in
      (w, e, Ok events)
  end.

Definition send_ready (key : Key) (pkt : list byte) (e : Engine) (w : world) : world * Engine * result (option Event) :=
  if closed e then (w, e, Err Closed) else
  match validate_ip pkt (mtu (limits e)) with
  | Ok _ =>
      match peers e !! key with
      | None => (w, e, Err UnknownPeer)
      | Some p =>
          let '(w, t, sealed) := encapsulate_with_session (padded pkt (mtu (limits e))) (tunnel p) w in
          let e := put_peer key (mkPeer t (pending p)) e in
          match sealed with
          | Some c => let '(e, event) := network (Some key) (Data c) e in (w, e, Ok (Some event))
          | None => (w, e, Ok None)
          end
      end
  | Err err => (w, e, Err err)
  | Panic => (w, e, Panic)
  end.

(** The branch of [send_tagged] without a session: the packet waits, a handshake starts. *)
Definition enqueue (key : Key) (pkt : list byte) (now available auth : N) (p : Peer) (e : Engine) (w : world)
    : world * Engine * result (list Event * bool) :=
  if available <? lenN pkt then (w, put_peer key p e, Err QueueFull) else
  match push pkt now (limits e) auth (pending p), usub (E:=Error) (queued_bytes e) (bytes (pending p)) with
  | Ok (q, queued), Ok n =>
      let e := set_queued (n + bytes q) (put_peer key (mkPeer (tunnel p) q) e) in
      match queued with
      | Ok _ =>
          let '(w, t, hs) := format_handshake_initiation false (tunnel p) w in
          let '(e, events) := networks key (HandshakeInit <$> option_list hs) (put_peer key (mkPeer t q) e) in
          (w, e, Ok (events, true))
      | Err err => (w, e, Err err)
      | Panic => (w, e, Panic)
      end
  | _, _ => (w, e, Panic)
  end.
Definition send_tagged (key : Key) (pkt : list byte) (now auth : N) (authorized : Key -> list byte -> bool)
    (e : Engine) (w : world) : world * Engine * result (list Event * bool) :=
  if closed e then (w, e, Err Closed) else
  match validate_ip pkt (mtu (limits e)) with
  | Ok _ =>
      if negb (authorized key pkt) then (w, e, Err Unauthorized) else
      let available := total_queued_bytes (limits e) - queued_bytes e in
      match peers e !! key with
      | None => (w, e, Err UnknownPeer)
      | Some p =>
          let '(w, t, sealed) := encapsulate_with_session (padded pkt (mtu (limits e))) (tunnel p) w in
          match sealed with
          | Some c =>
              let '(e, event) := network (Some key) (Data c) (put_peer key (mkPeer t (pending p)) e) in
              (w, e, Ok ([event], false))
          | None => enqueue key pkt now available auth (mkPeer t (pending p)) e w
          end
      end
  | Err err => (w, e, Err err)
  | Panic => (w, e, Panic)
  end.
Definition send (key : Key) (pkt : list byte) (now : N) (authorized : Key -> list byte -> bool)
    (e : Engine) (w : world) : world * Engine * result (list Event) :=
  let '(w, e, r) := send_tagged key pkt now 0 authorized e w in (w, e, fst <$> r).

(** ** engine.rs: receiving *)

(** The padding is cut off by the length the authenticated inner packet states. *)
Definition unpad (key : Key) (pkt : list byte) (e : Engine) : result (list Event) :=
  if bool_decide (pkt = []) then Ok [] else
  length ← ip_length pkt;
  if (lenN pkt <? length) || (15 <? lenN pkt - length)
     || existsb (fun b => negb (u8 b =? 0)) (drop (N.to_nat length) pkt)
  then Err InvalidPacket else
  let pkt := take (N.to_nat length) pkt in
  _ ← validate_ip pkt (mtu (limits e));
  Ok [Plaintext key pkt].
Definition identify (k : WgKind) (e : Engine) (w : world) : result Key :=
  match k with
  | HandshakeInit p => ok_or (parse_handshake_anon (private e) (public e) p) Authentication
  | HandshakeResp p | CookieReply p | Data p => owner (receiver_idx p) e w
  end.
Definition deliver (key : Key) (k : WgKind) (e : Engine) (w : world) : world * Engine * result (list Event) :=
  match peers e !! key with
  | None => (w, e, Err UnknownPeer)
  | Some p =>
      let '(w, t, answer) := handle_incoming_packet k (tunnel p) w in
      let e := put_peer key (mkPeer t (pending p)) e in
      match answer with
      | Done => (w, e, Ok [])
      | TunnErr => (w, e, Err Authentication)
      | WriteToNetwork reply => let '(e, event) := network (Some key) reply e in (w, e, Ok [event])
      | WriteToTunnel pkt => (w, e, unpad key pkt e)
      end
  end.
Definition receive_checked (address : SocketAddr) (datagram : list byte) (authorized : Key -> bool)
    (e : Engine) (w : world) : world * Engine * result (list Event) :=
  if closed e then (w, e, Err Closed) else
  if mtu (limits e) + 32 <? lenN datagram then (w, e, Err PacketTooLarge) else
  let '(w, verified) := verify_packet (limiter e) address datagram w in
  match verified with
  | inl k =>
      match identify k e w with
      | Ok key => if negb (authorized key) then (w, e, Err Unauthorized) else deliver key k e w
      | Err err => (w, e, Err err)
      | Panic => (w, e, Panic)
      end
  | inr (WriteToNetwork reply) => let '(e, event) := network None reply e in (w, e, Ok [event])
  | inr _ => (w, e, Err Authentication)
  end.
Definition receive (ingress : Ingress) (datagram : list byte) (e : Engine) (w : world)
    : world * Engine * result (list Event) :=
  match ingress with
  | Relay peer =>
      if bool_decide (is_Some (peers e !! peer))
      then receive_checked (cookie_address ingress) datagram (fun key => bool_decide (key = peer)) e w
      else (w, e, Err UnknownPeer)
  | Direct _ => receive_checked (cookie_address ingress) datagram (fun _ => true) e w
  end.
Definition receive_relay (source : list byte) (datagram : list byte) (authorized : Key -> bool) (e : Engine) (w : world)
    : world * Engine * result (list Event) :=
  receive_checked (socket_new (V6 (from_be source)) 1) datagram authorized e w.
Definition receive_direct (source : SocketAddr) (datagram : list byte) (authorized : Key -> bool) (e : Engine) (w : world)
    : world * Engine * result (list Event) :=
  receive_checked source datagram authorized e w.

(** ** engine.rs: the clock *)

(** The inner loop of [tick_tagged]: what is not authorized any more is dropped, and
    the first packet without a session goes back to the front. *)
Fixpoint drain (authorized : list byte -> N -> bool) (m : N) (ps : list Pending) (b : N) (t : Tunn) (w : world)
    : world * Tunn * result (Queue * list WgKind) :=
  match ps with
  | [] => (w, t, Ok (mkQueue [] b, []))
  | p :: rest =>
      match usub (E:=Error) b (lenN (packet p)) with
      | Ok b =>
          if negb (authorized (packet p) (authorization p)) then drain authorized m rest b t w else
          let '(w, t, sealed) := encapsulate_with_session (padded (packet p) m) t w in
          match sealed with
          | Some c => let '(w, t, r) := drain authorized m rest b t w in (w, t, (fun o => (o.1, Data c :: o.2)) <$> r)
          | None => (w, t, Ok (restore p (mkQueue rest b), []))
          end
      | Err err => (w, t, Err err)
      | Panic => (w, t, Panic)
      end
  end.
Definition tick_peer (now : N) (authorized : Key -> list byte -> N -> bool) (key : Key) (e : Engine) (w : world)
    : world * Engine * result (list Event) :=
  match peers e !! key with
  | None => (w, e, Panic)
  | Some p =>
      match expire now (pending p) with
      | Ok q =>
          let '(w, t, timer) := update_timers (tunnel p) w in
          let '(w, t, r) := drain (authorized key) (mtu (limits e)) (packets q) (bytes q) t w in
          match r, usub (E:=Error) (queued_bytes e) (bytes (pending p)) with
          | Ok (q, sealed), Ok n =>
              let e := set_queued (n + bytes q) (put_peer key (mkPeer t q) e) in
              let '(e, events) := networks key (option_list timer ++ sealed) e in (w, e, Ok events)
          | _, _ => (w, e, Panic)
          end
      | Err err => (w, e, Err err)
      | Panic => (w, e, Panic)
      end
  end.
Fixpoint tick_peers (now : N) (authorized : Key -> list byte -> N -> bool) (keys : list Key) (e : Engine) (w : world)
    : world * Engine * result (list Event) :=
  match keys with
  | [] => (w, e, Ok [])
  | key :: rest =>
      match tick_peer now authorized key e w with
      | (w, e, Ok events) => let '(w, e, more) := tick_peers now authorized rest e w in (w, e, app events <$> more)
      | failed => failed
      end
  end.
Definition tick_tagged (now : N) (authorized : Key -> list byte -> N -> bool) (keys : list Key) (e : Engine) (w : world)
    : world * Engine * result (list Event) :=
  if closed e then (w, e, Ok []) else
  let w := try_reset_count (limiter e) w in
  let e := set_owners (filter (fun o : N * list byte => in_use (indices e) o.1 w = true) (owners e)) e in
  tick_peers now authorized keys e w.
Definition tick (now : N) (authorized : Key -> list byte -> bool) (keys : list Key) (e : Engine) (w : world)
    : world * Engine * result (list Event) :=
  tick_tagged now (fun key p _ => authorized key p) keys e w.

(** ** Packets *)

Lemma usub_Ok {E} a b : b <= a -> usub (E:=E) a b = Ok (a - b).
Proof. intros Hb. unfold usub. by rewrite (proj2 (N.leb_le _ _)). Qed.
Lemma padded_len_bounds len m : len <= m -> len <= padded_len len m /\ padded_len len m <= len + 15 /\ padded_len len m <= m.
Proof.
  intros Hm. unfold padded_len. pose proof (N.div_mod (len + 15) 16 ltac:(lia)) as Hd.
  pose proof (N.mod_lt (len + 15) 16 ltac:(lia)) as Hr. revert Hd Hr. generalize ((len + 15) / 16), ((len + 15) mod 16). intros q r Hd Hr. split_and!; lia.
Qed.
(** A packet within the MTU is extended by at most 15 zero bytes, never past the MTU. *)
Lemma padded_app p m : lenN p <= m -> exists n, padded p m = p ++ replicate n x00 /\ (n <= 15)%nat /\ lenN (padded p m) <= m.
Proof.
  intros Hm. destruct (padded_len_bounds (lenN p) m Hm) as (Hl & Hu & Hc). unfold padded.
  exists (N.to_nat (padded_len (lenN p) m - lenN p)). rewrite take_ge by (unfold lenN in *; lia).
  split_and!; [done|lia|]. rewrite lenN_app. unfold lenN at 2. rewrite length_replicate. lia.
Qed.
Lemma be16_at_prefix {E} p q i : i + 1 < lenN p -> @be16_at E (p ++ q) i = be16_at p i.
Proof.
  intros Hi. unfold be16_at, index. unfold lenN in Hi. by rewrite !lookup_app_l by lia.
Qed.
Lemma ip_length_app p q l : ip_length p = Ok l -> (lenN p <= l) -> ip_length (p ++ q) = Ok l.
Proof.
  unfold ip_length. destruct p as [|b p]; [done|]. cbn [head app]. intros Hok Hl. set (bs := b :: p) in *.
  change (b :: p ++ q) with (bs ++ q). rewrite lenN_app.
  destruct (N.shiftr (u8 b) 4 =? 4) eqn:H4; cbn [andb] in *.
  - assert (20 <= lenN bs) as H20.
    { destruct (20 <=? lenN bs) eqn:Hx; [by apply N.leb_le|]. destruct (N.shiftr (u8 b) 4 =? 6) eqn:H6; [|done].
      apply N.eqb_eq in H4, H6. lia. }
    rewrite (proj2 (N.leb_le _ _) H20) in Hok. rewrite (proj2 (N.leb_le _ _)) by lia.
    destruct (N.land (u8 b) 15 * 4 <? 20) eqn:Hh; cbn [orb] in *; [done|].
    destruct (lenN bs <? N.land (u8 b) 15 * 4) eqn:Hb; [done|]. apply N.ltb_ge in Hb. rewrite (proj2 (N.ltb_ge _ _)) by lia.
    by rewrite be16_at_prefix by lia.
  - destruct (N.shiftr (u8 b) 4 =? 6); cbn [andb] in *; [|done].
    destruct (40 <=? lenN bs) eqn:Hx; [|done]. apply N.leb_le in Hx. rewrite (proj2 (N.leb_le _ _)) by lia.
    by rewrite be16_at_prefix by lia.
Qed.
Lemma validate_ip_Ok p m : validate_ip p m = Ok tt <-> lenN p <= m /\ ip_length p = Ok (lenN p).
Proof.
  unfold validate_ip. destruct (m <? lenN p) eqn:Hm; breflect; [split; [done|intros [? _]; lia]|].
  destruct (ip_length p) as [l| |]; cbn; [|naive_solver..].
  destruct (l =? lenN p) eqn:Hl; cbn; breflect; [subst; naive_solver|split; [done|]]. intros [_ [= ->]]. lia.
Qed.
Lemma ip_length_no_panic p : no_panic (ip_length p).
Proof.
  unfold ip_length. destruct p as [|b p]; [done|]. cbn [head].
  destruct (_ && _) eqn:H4; breflect.
  - destruct (_ || _); [done|]. apply no_panic_bind; [|intros; by case_match]. unfold be16_at.
    repeat panic_step; apply no_panic_index; lia.
  - destruct (_ && _) eqn:H6; breflect; [|done]. apply no_panic_bind; [|done]. unfold be16_at.
    repeat panic_step; apply no_panic_index; lia.
Qed.

(** ** Queues *)

Definition total_len (ps : list Pending) : N := foldr (fun p n => lenN (packet p) + n) 0 ps.
Lemma total_len_app ps qs : total_len (ps ++ qs) = total_len ps + total_len qs.
Proof. unfold total_len. induction ps as [|p ps IH]; cbn [foldr app]; [lia|]. rewrite IH. lia. Qed.

(** A queue within its limits, in order of expiry. *)
Record queue_wf (l : Limits) (q : Queue) : Prop := {
  qw_bytes : bytes q = total_len (packets q);
  qw_count : lenN (packets q) <= queued_packets l;
  qw_bound : bytes q <= l_queued_bytes l;
  qw_valid : Forall (fun p => validate_ip (packet p) (mtu l) = Ok tt) (packets q);
}.
Lemma queue_default_wf l : queue_wf l queue_default.
Proof. split; cbn; [done|rewrite lenN_nil; lia|lia|done]. Qed.
Lemma queue_suffix_wf l ps rest b : queue_wf l (mkQueue (ps ++ rest) b) -> queue_wf l (mkQueue rest (total_len rest)).
Proof.
  intros [Hb Hc Hl Hv]. cbn in *. rewrite total_len_app in Hb. rewrite lenN_app in Hc. apply Forall_app in Hv as [_ Hv].
  split; cbn; [done|lia|lia|done].
Qed.

Lemma expire_split now ps : exists old rest, expire_packets now ps (total_len ps) = Ok (mkQueue rest (total_len rest)) /\
  ps = old ++ rest /\ Forall (fun p => expires p <= now) old /\ (forall p, head rest = Some p -> now < expires p).
Proof.
  induction ps as [|p ps (old & rest & He & Hps & Hold & Hh)]; [by exists [], []|].
  cbn [expire_packets total_len foldr]. destruct (expires p <=? now) eqn:Hp; breflect.
  - fold (total_len ps). rewrite usub_Ok by lia. cbn [mbind outcome_bind]. rewrite N.add_comm, N.add_sub, He.
    exists (p :: old), rest. subst ps. by split_and!; [..|constructor|].
  - exists [], (p :: ps). split_and!; [done|done|constructor|]. by intros ? [= <-].
Qed.
Lemma queue_expire_wf l now q : queue_wf l q ->
  exists q', expire now q = Ok q' /\ queue_wf l q' /\ packets q' `suffix_of` packets q /\ bytes q' <= bytes q.
Proof.
  intros Hq. unfold expire. rewrite (qw_bytes _ _ Hq). destruct (expire_split now (packets q)) as (old & rest & -> & Hps & _).
  exists (mkQueue rest (total_len rest)). split_and!; [done| |by exists old|cbn; rewrite Hps, total_len_app; lia].
  apply (queue_suffix_wf l old rest (bytes q)). rewrite <-Hps. by destruct q.
Qed.
Lemma queue_push_wf l pkt now auth q : queue_wf l q -> validate_ip pkt (mtu l) = Ok tt ->
  exists q' r kept, push pkt now l auth q = Ok (q', r) /\ queue_wf l q' /\ r <> Panic /\
    bytes q' <= bytes q + lenN pkt /\ kept `suffix_of` packets q /\
    packets q' = kept ++ (if is_ok r then [mkPending pkt (now + queue_lifetime l) auth] else []).
Proof.
  intros Hq Hv. unfold push. destruct (queue_expire_wf l now q Hq) as (q1 & -> & Hq1 & Hs & Hle). cbn [mbind outcome_bind].
  destruct (_ || _) eqn:Hf.
  - eexists q1, _, _. split_and!; [done|done|done|lia|exact Hs|]. by rewrite app_nil_r.
  - destruct Hq1 as [Hb Hc Hl HV]. breflect. eexists _, _, _. split_and!; [done| |done|cbn; lia|exact Hs|done].
    split; cbn.
    + rewrite total_len_app, Hb. cbn. lia.
    + rewrite lenN_app, lenN_cons, lenN_nil. lia.
    + lia.
    + apply Forall_app. by split; [|constructor].
Qed.

(** *** What [drain] hands to a tunnel: only packets of the queue that are authorized now *)

Inductive seals (allowed : list byte -> Prop) (m : N) : Tunn -> world -> list WgKind -> Tunn -> world -> Prop :=
| seals_nil t w : seals allowed m t w [] t w
| seals_cons p t w w1 t1 c sealed t' w' : allowed p ->
    encapsulate_with_session (padded p m) t w = (w1, t1, Some c) -> seals allowed m t1 w1 sealed t' w' ->
    seals allowed m t w (Data c :: sealed) t' w'
| seals_none p t w w1 t1 : allowed p ->
    encapsulate_with_session (padded p m) t w = (w1, t1, None) -> seals allowed m t w [] t1 w1.
Lemma seals_weaken (P Q : list byte -> Prop) m t w sealed t' w' : (forall p, P p -> Q p) ->
  seals P m t w sealed t' w' -> seals Q m t w sealed t' w'.
Proof. intros HPQ. induction 1; [constructor|eapply seals_cons; eauto|eapply seals_none; eauto]. Qed.

Lemma drain_seals authorized m ps t w :
  exists t' w' done_ rest sealed, drain authorized m ps (total_len ps) t w = (w', t', Ok (mkQueue rest (total_len rest), sealed)) /\
    ps = done_ ++ rest /\
    seals (fun p => exists x, x ∈ ps /\ p = packet x /\ authorized p (authorization x) = true) m t w sealed t' w'.
Proof.
  revert t w. induction ps as [|p ps IH]; intros t w; [exists t, w, [], [], []; by split_and!; [..|constructor]|].
  cbn [drain]. rewrite usub_Ok by (cbn; lia).
  assert (Hlen : total_len (p :: ps) - lenN (packet p) = total_len ps) by (cbn; fold (total_len ps); lia). rewrite Hlen.
  destruct (authorized _ _) eqn:Ha; cbn [negb].
  - destruct (encapsulate_with_session _ t w) as [[w1 t1] [c|]] eqn:He.
    + destruct (IH t1 w1) as (t' & w' & d & rest & sealed & -> & -> & Hs). exists t', w', (p :: d), rest, (Data c :: sealed).
      split_and!; [done|done|]. eapply seals_cons; [|done|].
      * exists p. split_and!; [by left|done|done].
      * eapply seals_weaken, Hs. intros q (x & Hx & Hq). exists x. split; [by right|done].
    + exists t1, w1, [], (p :: ps), []. split_and!; [|done|].
      * cbn. unfold restore. cbn. do 4 f_equal. apply N.add_comm.
      * eapply seals_none; [|done]. exists p. split_and!; [by left|done|done].
  - destruct (IH t w) as (t' & w' & d & rest & sealed & -> & -> & Hs). exists t', w', (p :: d), rest, sealed.
    split_and!; [done|done|]. eapply seals_weaken, Hs. intros q (x & Hx & Hq). exists x. split; [by right|done].
Qed.

(** ** The engine within its limits *)

Record engine_wf (e : Engine) : Prop := {
  ew_limits : validate (limits e) = Ok tt;
  ew_queues : forall k p, peers e !! k = Some p -> queue_wf (limits e) (pending p);
  ew_queued : queued_bytes e = map_sum (fun p => bytes (pending p)) (peers e);
  ew_total : queued_bytes e <= total_queued_bytes (limits e);
  ew_peers : N.of_nat (size (peers e)) <= l_peers (limits e);
  ew_owners : forall i k, owners e !! i = Some k -> is_Some (peers e !! k);
  ew_self : peers e !! public e = None;
  ew_closed : closed e = true -> peers e = ∅ /\ owners e = ∅;
}.
Lemma ew_pending e k p : engine_wf e -> peers e !! k = Some p -> bytes (pending p) <= queued_bytes e.
Proof. intros Hw Hp. rewrite (ew_queued _ Hw). by apply (map_sum_lookup_le (fun p => bytes (pending p)) _ k). Qed.
Lemma ew_live e k p : engine_wf e -> peers e !! k = Some p -> closed e = false.
Proof. intros Hw Hp. destruct (closed e) eqn:Hc; [|done]. destruct (ew_closed _ Hw Hc) as [He _]. by rewrite He in Hp. Qed.

(** The queue of a key; none of a key that is not installed. *)
Definition queue_at (e : Engine) (k : Key) : list Pending :=
  match peers e !! k with Some p => packets (pending p) | None => [] end.
(** Queues only lose packets from the front and gain [new] at the back. *)
Definition evolves (e e' : Engine) (new : Key -> list Pending) : Prop :=
  limits e' = limits e /\ forall k, exists kept, kept `suffix_of` queue_at e k /\ queue_at e' k = kept ++ new k.
Definition nothing (k : Key) : list Pending := [].
Lemma evolves_same e e' : limits e' = limits e -> (forall k, queue_at e' k = queue_at e k) -> evolves e e' nothing.
Proof. intros Hl Hq. split; [done|]. intros k. exists (queue_at e k). by rewrite Hq, app_nil_r. Qed.
Lemma evolves_empty e e' : limits e' = limits e -> (forall k, queue_at e' k = queue_at e k \/ queue_at e' k = []) -> evolves e e' nothing.
Proof.
  intros Hl Hq. split; [done|]. intros k. destruct (Hq k) as [->| ->].
  - exists (queue_at e k). by rewrite app_nil_r.
  - exists []. split; [apply suffix_nil|done].
Qed.
Lemma queue_evolves_trans e e1 e2 new : evolves e e1 nothing -> evolves e1 e2 new -> evolves e e2 new.
Proof.
  intros [Hl1 H1] [Hl2 H2]. split; [congruence|]. intros k. destruct (H1 k) as (k1 & Hs1 & Hq1), (H2 k) as (k2 & Hs2 & Hq2).
  exists k2. split; [|done]. rewrite Hq1, app_nil_r in Hs2. by etrans.
Qed.
Lemma evolves_then_same e e1 e2 new : evolves e e1 new -> evolves e1 e2 nothing -> (forall k, queue_at e2 k = queue_at e1 k) ->
  evolves e e2 new.
Proof.
  intros [Hl1 H1] [Hl2 _] Hq. split; [congruence|]. intros k. rewrite Hq. apply H1.
Qed.

Lemma queue_at_put k t q e j : queue_at (put_peer k (mkPeer t q) e) j = if decide (j = k) then packets q else queue_at e j.
Proof. unfold queue_at. cbn. destruct (decide (j = k)) as [->|Hne]; by simplify_map_eq. Qed.

Lemma put_peer_wf e k p t q : engine_wf e -> peers e !! k = Some p -> queue_wf (limits e) q ->
  queued_bytes e - bytes (pending p) + bytes q <= total_queued_bytes (limits e) ->
  engine_wf (set_queued (queued_bytes e - bytes (pending p) + bytes q) (put_peer k (mkPeer t q) e)).
Proof.
  intros Hw Hp Hq Ht. pose proof (ew_pending _ _ _ Hw Hp) as Hle.
  pose proof (map_sum_insert_Some (fun p => bytes (pending p)) (peers e) k (mkPeer t q) p Hp) as Hsum.
  rewrite <-(ew_queued _ Hw) in Hsum. destruct Hw as [Hl Hqs Hqd Htt Hps Ho Hs Hc]. split; cbn in *; try done.
  - intros j pj [[<- <-]|[_ Hj]]%lookup_insert_Some; [done|by eapply Hqs].
  - lia.
  - rewrite map_size_insert_Some by eauto. done.
  - intros i j Hi. apply lookup_insert_is_Some'. right. by eapply Ho.
  - rewrite lookup_insert_ne; [done|]. intros ->. congruence.
  - intros Hcl. destruct (Hc Hcl) as [He _]. by rewrite He in Hp.
Qed.
Lemma put_tunnel_wf e k p t : engine_wf e -> peers e !! k = Some p -> engine_wf (put_peer k (mkPeer t (pending p)) e).
Proof.
  intros Hw Hp. pose proof (ew_pending _ _ _ Hw Hp) as Hle. pose proof (ew_total _ Hw) as Ht.
  pose proof (put_peer_wf e k p t (pending p) Hw Hp (ew_queues _ Hw _ _ Hp) ltac:(lia)) as Hput.
  rewrite N.sub_add in Hput by done. by destruct e.
Qed.
Lemma put_tunnel_queue e k p t j : peers e !! k = Some p -> queue_at (put_peer k (mkPeer t (pending p)) e) j = queue_at e j.
Proof. intros Hp. rewrite queue_at_put. case_decide as Hj; [|done]. subst. unfold queue_at. by rewrite Hp. Qed.

(** [network] touches the receiver indices only, and claims them for an installed key. *)
Lemma networks_spec key ks e : exists o, networks key ks e = (set_owners o e, (fun k => Network (Some key) (raw k)) <$> ks) /\
  (forall i k, o !! i = Some k -> k = key \/ owners e !! i = Some k).
Proof.
  revert e. induction ks as [|k ks IH]; intros e; [exists (owners e); split; [by destruct e|auto]|].
  cbn [networks network]. set (e1 := match claimed_index k with Some _ => _ | None => _ end).
  assert (Hk : exists o1, e1 = set_owners o1 e /\ forall i j, o1 !! i = Some j -> j = key \/ owners e !! i = Some j).
  { unfold e1. destruct (claimed_index k) as [i0|].
    - exists (<[i0 := key]> (owners e)). split; [done|]. intros i j [[_ <-]|[_ Hi]]%lookup_insert_Some; auto.
    - exists (owners e). split; [by destruct e|auto]. }
  destruct Hk as (o1 & -> & Ho1). destruct (IH (set_owners o1 e)) as (o & -> & Ho). exists o. split; [done|].
  intros i j [->|Hj]%Ho; [by left|by apply Ho1].
Qed.
Lemma network_networks key k e : network (Some key) k e = ((networks key [k] e).1, Network (Some key) (raw k)).
Proof. unfold networks, network. by destruct (claimed_index k). Qed.
Lemma set_owners_wf o e : engine_wf e -> closed e = false -> (forall i k, o !! i = Some k -> is_Some (peers e !! k)) -> engine_wf (set_owners o e).
Proof. intros [] Hc Ho. split; cbn; try done. by rewrite Hc. Qed.
Lemma networks_wf key ks e : engine_wf e -> is_Some (peers e !! key) -> engine_wf (networks key ks e).1.
Proof.
  intros Hw [p Hp]. destruct (networks_spec key ks e) as (o & -> & Ho). apply set_owners_wf; [done|by eapply ew_live|].
  intros i k [->|Hi]%Ho; [by exists p|by eapply ew_owners].
Qed.
Lemma networks_queue key ks e k : queue_at (networks key ks e).1 k = queue_at e k.
Proof. by destruct (networks_spec key ks e) as (o & -> & _). Qed.
Lemma networks_limits key ks e : limits (networks key ks e).1 = limits e.
Proof. by destruct (networks_spec key ks e) as (o & -> & _). Qed.

(** ** Every operation keeps the engine within its limits *)

(** A call of the engine that changes it. *)
Inductive op :=
| Install (key : Key)
| Remove (key : Key)
| ClearPending
| ResetSessions (keys : list Key)
| Close (keys : list Key)
| Initiate (key : Key)
| SendReady (key : Key) (pkt : list byte)
| SendTagged (key : Key) (pkt : list byte) (now auth : N) (authorized : Key -> list byte -> bool)
| Receive (ingress : Ingress) (datagram : list byte)
| ReceiveChecked (address : SocketAddr) (datagram : list byte) (authorized : Key -> bool)
| Tick (now : N) (authorized : Key -> list byte -> N -> bool) (keys : list Key).
Definition step (o : op) (e : Engine) (w : world) : world * Engine * result (list Event) :=
  match o with
  | Install key => let '(w, e, r) := install key e w in (w, e, const [] <$> r)
  | Remove key => let '(w, e, r) := remove key e w in (w, e, const [] <$> r)
  | ClearPending => (w, clear_pending e, Ok [])
  | ResetSessions keys => let '(w, e) := reset_sessions keys e w in (w, e, Ok [])
  | Close keys => let '(w, e) := close keys e w in (w, e, Ok [])
  | Initiate key => initiate key e w
  | SendReady key pkt => let '(w, e, r) := send_ready key pkt e w in (w, e, option_list <$> r)
  | SendTagged key pkt now auth authorized =>
      let '(w, e, r) := send_tagged key pkt now auth authorized e w in (w, e, fst <$> r)
  | Receive ingress datagram => receive ingress datagram e w
  | ReceiveChecked address datagram authorized => receive_checked address datagram authorized e w
  | Tick now authorized keys => tick_tagged now authorized keys e w
  end.
(** The order a [HashMap] is visited in lists its keys, each once. *)
Definition visits (keys : list Key) (e : Engine) : Prop := keys ≡ₚ (map_to_list (peers e)).*1.
Definition op_ok (o : op) (e : Engine) : Prop :=
  match o with ResetSessions keys | Close keys | Tick _ _ keys => visits keys e | _ => True end.
Lemma visits_installed keys e : visits keys e -> forall k, k ∈ keys -> is_Some (peers e !! k).
Proof.
  intros Hv k Hk. unfold visits in Hv. rewrite Hv in Hk. apply list_elem_of_fmap in Hk as ([j p] & -> & Hj).
  apply elem_of_map_to_list in Hj. by exists p.
Qed.

(** What an operation may add to the queue of a key: a packet authorized by its caller. *)
Definition accepts (l : Limits) (o : op) (k : Key) (new : list Pending) : Prop :=
  new = [] \/ exists pkt now auth authorized, o = SendTagged k pkt now auth authorized /\ authorized k pkt = true /\
    new = [mkPending pkt (now + queue_lifetime l) auth].
Definition good {A} (o : op) (e : Engine) (x : world * Engine * result A) : Prop :=
  engine_wf x.1.2 /\ x.2 <> Panic /\ exists new, evolves e x.1.2 new /\ forall k, accepts (limits e) o k (new k).
Lemma good_quiet {A} o e w e' (r : result A) : engine_wf e' -> r <> Panic -> evolves e e' nothing -> good o e (w, e', r).
Proof. intros Hw Hr He. split_and!; [done|done|]. exists nothing. split; [done|]. by left. Qed.
Lemma good_same {A} o e w (r : result A) : engine_wf e -> r <> Panic -> good o e (w, e, r).
Proof. intros. apply good_quiet; [done|done|]. by apply evolves_same. Qed.
Lemma good_fmap {A B} (f : A -> B) o e w e' r : good o e (w, e', r) -> good o e (w, e', f <$> r).
Proof. intros (Hw & Hr & Hn). split_and!; [done| |done]. by destruct r. Qed.
Lemma good_after {A} o e e1 (x : world * Engine * result A) : evolves e e1 nothing -> good o e1 x -> good o e x.
Proof.
  intros He (Hw & Hr & new & Hn & Ha). split_and!; [done|done|]. exists new. split; [by eapply queue_evolves_trans|].
  intros k. destruct He as [<- _]. apply Ha.
Qed.
(** [network] at the end of an operation. *)
Lemma good_networks {A} o e key ks w (r : result A) : engine_wf e -> is_Some (peers e !! key) -> r <> Panic ->
  good o e (w, (networks key ks e).1, r).
Proof.
  intros Hw Hk Hr. apply good_quiet; [by apply networks_wf|done|]. apply evolves_same; [apply networks_limits|intros; apply networks_queue].
Qed.
Lemma put_tunnel_evolves e k p t : peers e !! k = Some p -> evolves e (put_peer k (mkPeer t (pending p)) e) nothing.
Proof. intros Hp. apply evolves_same; [done|]. intros j. by apply put_tunnel_queue. Qed.
Lemma put_peer_installed k p e : is_Some (peers (put_peer k p e) !! k).
Proof. cbn. rewrite lookup_insert_eq. by eexists. Qed.

Lemma install_good key e w : engine_wf e -> good (Install key) e (install key e w).
Proof.
  intros Hw. unfold install. destruct (closed e) eqn:Hc; [by apply good_same|].
  destruct (peers e !! key) as [p|] eqn:Hp; [by apply good_same|].
  destruct (_ <=? _) eqn:Hl; [by apply good_same|]. destruct (_ || _) eqn:Hk; [by apply good_same|].
  destruct (tunn_new _ _ _ _ _) as [w1 t]. breflect. apply bool_decide_eq_false in H1. apply good_quiet; [|done|].
  - destruct Hw as [Hlm Hqs Hqd Ht Hps Ho Hs Hcl]. split; cbn; try done.
    + intros k p [[<- <-]|[_ Hj]]%lookup_insert_Some; [apply queue_default_wf|by eapply Hqs].
    + rewrite map_sum_insert_None by done. cbn. done.
    + rewrite map_size_insert_None by done. lia.
    + intros i k Hi. apply lookup_insert_is_Some'. right. by eapply Ho.
    + by rewrite lookup_insert_ne.
    + congruence.
  - apply evolves_same; [done|]. intros k. rewrite queue_at_put. case_decide as Hj; [|done]. subst. unfold queue_at. by rewrite Hp.
Qed.

Lemma remove_good key e w : engine_wf e -> good (Remove key) e (remove key e w) /\ queue_at (remove key e w).1.2 key = [].
Proof.
  intros Hw. unfold remove. destruct (peers e !! key) as [p|] eqn:Hp.
  - cbn [queued_bytes set_peers]. pose proof (ew_pending _ _ _ Hw Hp) as Hle. rewrite usub_Ok by exact Hle.
    destruct (tunn_reset _ _) as [w1 t1]. split; [|unfold queue_at; cbn; by rewrite lookup_delete_eq].
    apply good_quiet; [|done|].
    + pose proof (map_sum_delete (fun p => bytes (pending p)) (peers e) key p Hp) as Hsum.
      destruct Hw as [Hlm Hqs Hqd Ht Hps Ho Hs Hcl]. split; cbn in *; try done.
      * intros k q [_ Hk]%lookup_delete_Some. by eapply Hqs.
      * lia.
      * lia.
      * pose proof (size_delete_le (peers e) key). lia.
      * intros i k [Hi Hk]%map_lookup_filter_Some. cbn in Hk. rewrite lookup_delete_ne by done. by eapply Ho.
      * apply lookup_delete_None. by right.
      * intros Hc. destruct (Hcl Hc) as [He _]. by rewrite He in Hp.
    + apply evolves_empty; [done|]. intros k. unfold queue_at. cbn. destruct (decide (k = key)) as [->|Hk].
      * right. by rewrite lookup_delete_eq.
      * left. by rewrite lookup_delete_ne.
  - split; [|unfold queue_at; cbn; by rewrite Hp]. apply good_quiet; [|done|by apply evolves_same].
    destruct Hw as [Hlm Hqs Hqd Ht Hps Ho Hs Hcl]. split; cbn; try done.
    + intros i k [Hi _]%map_lookup_filter_Some. by eapply Ho.
    + intros Hc. destruct (Hcl Hc) as [He Hoe]. split; [done|]. by rewrite Hoe, map_filter_empty.
Qed.

Lemma map_sum_zero {A} (f : A -> N) (m : gmap (list byte) A) : (forall k v, m !! k = Some v -> f v = 0) -> map_sum f m = 0.
Proof.
  induction m as [|k v m Hk IH] using map_ind; intros Hz; [done|]. rewrite map_sum_insert_None by done.
  rewrite (Hz k v) by apply lookup_insert_eq. rewrite IH; [done|]. intros j x Hj. apply (Hz j).
  rewrite lookup_insert_ne; [done|]. intros ->. congruence.
Qed.
Lemma clear_pending_wf e : engine_wf e -> engine_wf (clear_pending e).
Proof.
  intros [Hlm Hqs Hqd Ht Hps Ho Hs Hcl]. split; cbn; try done.
  - intros k p Hp. apply lookup_fmap_Some in Hp as (q & <- & _). apply queue_default_wf.
  - symmetry. apply map_sum_zero. intros k p Hp. by apply lookup_fmap_Some in Hp as (q & <- & _).
  - lia.
  - by rewrite map_size_fmap.
  - intros i k Hi. rewrite lookup_fmap. destruct (Ho i k Hi) as [p ->]. by exists (clear_queue p).
  - by rewrite lookup_fmap, Hs.
  - intros Hc. destruct (Hcl Hc) as [-> ->]. by rewrite fmap_empty.
Qed.
Lemma clear_pending_queue e k : queue_at (clear_pending e) k = [].
Proof. unfold queue_at. cbn. rewrite lookup_fmap. by destruct (peers e !! k). Qed.
Lemma clear_pending_good e w : engine_wf e -> good ClearPending e (w, clear_pending e, Ok ([] : list Event)).
Proof.
  intros Hw. apply good_quiet; [by apply clear_pending_wf|done|]. apply evolves_empty; [done|]. intros k. right. apply clear_pending_queue.
Qed.

Lemma reset_tunnels_spec keys ps w w' ps' : reset_tunnels keys ps w = (w', ps') -> pending <$> ps' = pending <$> ps.
Proof.
  revert ps w. induction keys as [|k keys IH]; cbn [reset_tunnels]; intros ps w; [congruence|].
  destruct (ps !! k) as [p|] eqn:Hp; [|apply IH]. destruct (tunn_reset _ _) as [w1 t]. intros ->%IH.
  rewrite fmap_insert. cbn. apply insert_id. by rewrite lookup_fmap, Hp.
Qed.
Lemma same_pending_wf ps e : engine_wf e -> pending <$> ps = pending <$> peers e -> engine_wf (set_owners ∅ (set_peers ps e)).
Proof.
  intros [Hlm Hqs Hqd Ht Hps Ho Hs Hcl] Heq.
  assert (Hlk : forall k, pending <$> ps !! k = pending <$> peers e !! k) by (intros k; by rewrite <-!lookup_fmap, Heq).
  assert (Hsum : map_sum bytes (pending <$> ps) = map_sum bytes (pending <$> peers e)) by by rewrite Heq.
  assert (Hf : forall m : gmap (list byte) Peer, map_sum bytes (pending <$> m) = map_sum (fun p => bytes (pending p)) m).
  { intros m. unfold map_sum. by rewrite map_fold_fmap. }
  rewrite !Hf in Hsum. split; cbn; try done.
  - intros k p Hp. specialize (Hlk k). rewrite Hp in Hlk. destruct (peers e !! k) as [q|] eqn:Hq; [|done].
    cbn in Hlk. injection Hlk as ->. by eapply Hqs.
  - congruence.
  - by rewrite <-(map_size_fmap pending ps), Heq, map_size_fmap.
  - specialize (Hlk (public e)). rewrite Hs in Hlk. by destruct (ps !! public e).
  - intros Hc. destruct (Hcl Hc) as [He _]. split; [|done]. apply map_eq. intros k. specialize (Hlk k).
    rewrite He, lookup_empty in *. by destruct (ps !! k).
Qed.
Lemma reset_sessions_good keys e w : engine_wf e ->
  let x := reset_sessions keys e w in good (ResetSessions keys) e (x, Ok ([] : list Event)) /\ forall k, queue_at x.2 k = [].
Proof.
  intros Hw. unfold reset_sessions. destruct (reset_tunnels _ _ _) as [w1 ps] eqn:Hr. apply reset_tunnels_spec in Hr.
  assert (Hq : forall k, queue_at (set_owners ∅ (set_peers ps (clear_pending e))) k = []).
  { intros k. pose proof (clear_pending_queue e k) as Hc. unfold queue_at in *. cbn in *.
    assert (Hk : pending <$> ps !! k = pending <$> (clear_queue <$> peers e) !! k) by by rewrite <-!lookup_fmap, Hr.
    destruct (ps !! k) as [p|]; [|done]. destruct ((clear_queue <$> peers e) !! k); [|done]. cbn in Hk. by injection Hk as ->. }
  split; [|done]. apply good_quiet; [by apply same_pending_wf; [apply clear_pending_wf|]|done|]. apply evolves_empty; auto.
Qed.
Lemma close_good keys e w : engine_wf e ->
  let x := close keys e w in good (Close keys) e (x, Ok ([] : list Event)) /\ forall k, queue_at x.2 k = [].
Proof.
  intros Hw. unfold close. destruct (closed e) eqn:Hc.
  - destruct (ew_closed _ Hw Hc) as [He _]. assert (Hq : forall k, queue_at e k = []) by (intros k; unfold queue_at; by rewrite He).
    split; [|done]. by apply good_same.
  - destruct (reset_tunnels _ _ _) as [w1 ps]. split; [|done]. apply good_quiet; [|done|apply evolves_empty; auto].
    destruct Hw as [Hlm Hqs Hqd Ht Hps Ho Hs Hcl]. split; cbn; try done. all: rewrite ?map_size_empty; lia.
Qed.

Lemma initiate_good key e w : engine_wf e -> good (Initiate key) e (initiate key e w).
Proof.
  intros Hw. unfold initiate. destruct (closed e); [by apply good_same|].
  destruct (peers e !! key) as [p|] eqn:Hp; [|by apply good_same].
  destruct (format_handshake_initiation _ _ _) as [[w1 t] hs].
  eapply good_after; [by apply (put_tunnel_evolves e key p t)|].
  destruct (networks _ _ _) as [e' ev] eqn:Hn. change e' with (e', ev).1. rewrite <-Hn.
  apply good_networks; [by apply put_tunnel_wf|apply put_peer_installed|done].
Qed.
Lemma validate_ip_no_panic p m : no_panic (validate_ip p m).
Proof.
  unfold validate_ip. destruct (_ <? _); [done|]. apply no_panic_bind; [apply ip_length_no_panic|]. intros l _. by destruct (negb _).
Qed.
Lemma send_ready_good key pkt e w : engine_wf e -> good (SendReady key pkt) e (send_ready key pkt e w).
Proof.
  intros Hw. unfold send_ready. destruct (closed e); [by apply good_same|].
  pose proof (validate_ip_no_panic pkt (mtu (limits e))) as Hv.
  destruct (validate_ip _ _) as [[]|err|] eqn:Hvl; [|by apply good_same|done].
  destruct (peers e !! key) as [p|] eqn:Hp; [|by apply good_same].
  destruct (encapsulate_with_session _ _ _) as [[w1 t] [c|]].
  - rewrite network_networks. eapply good_after; [by apply (put_tunnel_evolves e key p t)|].
    apply good_networks; [by apply put_tunnel_wf|apply put_peer_installed|done].
  - apply good_quiet; [by apply put_tunnel_wf|done|by apply put_tunnel_evolves].
Qed.

Lemma enqueue_good key pkt now auth authorized p0 t e w : engine_wf e -> peers e !! key = Some p0 ->
  validate_ip pkt (mtu (limits e)) = Ok tt -> authorized key pkt = true ->
  good (SendTagged key pkt now auth authorized) e
    (enqueue key pkt now (total_queued_bytes (limits e) - queued_bytes e) auth (mkPeer t (pending p0)) e w).
Proof.
  intros Hw Hp Hv Ha. unfold enqueue. cbn [pending tunnel]. destruct (_ <? _) eqn:Hav; breflect.
  { apply good_quiet; [by apply put_tunnel_wf|done|by apply put_tunnel_evolves]. }
  pose proof (ew_pending _ _ _ Hw Hp) as Hle. pose proof (ew_total _ Hw) as Htot.
  destruct (queue_push_wf (limits e) pkt now auth (pending p0) (ew_queues _ Hw _ _ Hp) Hv) as (q & r & kept & -> & Hq & Hr & Hb & Hk & Hqs).
  rewrite usub_Ok by done.
  assert (Hput : forall t', engine_wf (set_queued (queued_bytes e - bytes (pending p0) + bytes q) (put_peer key (mkPeer t' q) e))).
  { intros t'. apply put_peer_wf; [done..|]. lia. }
  set (new k := if decide (k = key) then (if is_ok r then [mkPending pkt (now + queue_lifetime (limits e)) auth] else []) else []).
  assert (Hev : forall n t', evolves e (set_queued n (put_peer key (mkPeer t' q) e)) new).
  { intros n t'. split; [done|]. intros k. change (queue_at (set_queued _ _) k) with (queue_at (put_peer key (mkPeer t' q) e) k).
    rewrite queue_at_put. unfold new. case_decide as Hkk.
    - subst k. exists kept. split; [|done]. unfold queue_at. by rewrite Hp.
    - exists (queue_at e k). by rewrite app_nil_r. }
  assert (Hacc : forall k, accepts (limits e) (SendTagged key pkt now auth authorized) k (new k)).
  { intros k. unfold new. case_decide as Hkk; [|by left]. destruct (is_ok r); [|by left]. right. subst. by eexists _, _, _, _. }
  destruct r as [[]|err|]; [|split_and!; [apply Hput|done|exists new; split; [apply Hev|exact Hacc]]|done].
  destruct (format_handshake_initiation _ _ _) as [[w1 t1] hs]. set (e1 := set_queued _ _).
  assert (Hw1 : engine_wf (put_peer key (mkPeer t1 q) e1)).
  { apply (put_tunnel_wf e1 key (mkPeer t q)); [apply Hput|]. cbn. by rewrite lookup_insert_eq. }
  destruct (networks _ _ _) as [e' ev] eqn:Hn. change e' with (e', ev).1. rewrite <-Hn.
  split_and!; [by apply networks_wf; [|apply put_peer_installed]|done|]. exists new. split; [|done].
  eapply evolves_then_same; [apply (Hev (queued_bytes e - bytes (pending p0) + bytes q) t)| |].
  - apply evolves_same; [cbn [fst snd]; by rewrite networks_limits|]. intros k. cbn [fst snd]. rewrite networks_queue.
    change (mkPeer t1 q) with (mkPeer t1 (pending (mkPeer t q))). apply put_tunnel_queue. cbn. by rewrite lookup_insert_eq.
  - intros k. cbn [fst snd]. rewrite networks_queue.
    change (mkPeer t1 q) with (mkPeer t1 (pending (mkPeer t q))). apply put_tunnel_queue. cbn. by rewrite lookup_insert_eq.
Qed.
Lemma send_tagged_good key pkt now auth authorized e w : engine_wf e ->
  good (SendTagged key pkt now auth authorized) e (send_tagged key pkt now auth authorized e w).
Proof.
  intros Hw. unfold send_tagged. destruct (closed e); [by apply good_same|].
  pose proof (validate_ip_no_panic pkt (mtu (limits e))) as Hv.
  destruct (validate_ip _ _) as [[]|err|] eqn:Hvl; [|by apply good_same|done].
  destruct (authorized key pkt) eqn:Ha; [|by apply good_same]. cbn [negb].
  destruct (peers e !! key) as [p|] eqn:Hp; [|by apply good_same].
  destruct (encapsulate_with_session _ _ _) as [[w1 t] [c|]].
  - rewrite network_networks. eapply good_after; [by apply (put_tunnel_evolves e key p t)|].
    apply good_networks; [by apply put_tunnel_wf|apply put_peer_installed|done].
  - by apply enqueue_good.
Qed.

Lemma unpad_no_panic key pkt e : no_panic (unpad key pkt e).
Proof.
  unfold unpad. destruct (bool_decide _); [done|]. apply no_panic_bind; [apply ip_length_no_panic|]. intros l _.
  destruct (_ || _); [done|]. apply no_panic_bind; [apply validate_ip_no_panic|done].
Qed.
Lemma deliver_good o key k e w : engine_wf e -> good o e (deliver key k e w).
Proof.
  intros Hw. unfold deliver. destruct (peers e !! key) as [p|] eqn:Hp; [|by apply good_same].
  destruct (handle_incoming_packet _ _ _) as [[w1 t] answer].
  assert (Hput : forall r : result (list Event), r <> Panic -> good o e (w1, put_peer key (mkPeer t (pending p)) e, r)).
  { intros r Hr. apply good_quiet; [by apply put_tunnel_wf|done|by apply put_tunnel_evolves]. }
  destruct answer as [| |reply|pkt]; [by apply Hput..| |apply Hput, unpad_no_panic].
  rewrite network_networks. eapply good_after; [by apply (put_tunnel_evolves e key p t)|].
  apply good_networks; [by apply put_tunnel_wf|apply put_peer_installed|done].
Qed.
Lemma identify_no_panic k e w : no_panic (identify k e w).
Proof. destruct k; cbn; unfold owner; try (destruct (negb _)); (done || apply no_panic_ok_or). Qed.
Lemma receive_checked_good o address datagram authorized e w : engine_wf e -> good o e (receive_checked address datagram authorized e w).
Proof.
  intros Hw. unfold receive_checked. destruct (closed e); [by apply good_same|]. destruct (_ <? _); [by apply good_same|].
  destruct (verify_packet _ _ _ _) as [w1 [k|r]].
  - pose proof (identify_no_panic k e w1) as Hi. destruct (identify k e w1) as [key|err|]; [|by apply good_same|done].
    destruct (authorized key); [by apply deliver_good|by apply good_same].
  - destruct r; by apply good_same.
Qed.
Lemma receive_good o ingress datagram e w : engine_wf e -> good o e (receive ingress datagram e w).
Proof. intros Hw. unfold receive. destruct ingress; [|destruct (bool_decide _); [|by apply good_same]]; by apply receive_checked_good. Qed.

(** One key's turn of [tick_tagged]: it runs the timers, seals authorized packets that
    are not expired, and keeps the rest of the queue. *)
Definition turn (allowed : list byte -> Prop) (m : N) (key : Key) (out : list Event) : Prop :=
  exists t w t1 w1 timer sealed t2 w2, update_timers t w = (w1, t1, timer) /\ seals allowed m t1 w1 sealed t2 w2 /\
    out = (fun k => Network (Some key) (raw k)) <$> option_list timer ++ sealed.
Definition unexpired (now : N) (authorized : Key -> list byte -> N -> bool) (e : Engine) (key : Key) (p : list byte) : Prop :=
  exists x old rest, queue_at e key = old ++ rest /\ (forall y, head rest = Some y -> now < expires y) /\ x ∈ rest /\
    p = packet x /\ authorized key p (authorization x) = true.
Lemma tick_peer_spec now authorized key e w : engine_wf e -> is_Some (peers e !! key) ->
  exists w' e' out, tick_peer now authorized key e w = (w', e', Ok out) /\ engine_wf e' /\ evolves e e' nothing /\
    (forall k, k <> key -> queue_at e' k = queue_at e k) /\ dom (peers e') = dom (peers e) /\
    turn (unexpired now authorized e key) (mtu (limits e)) key out.
Proof.
  intros Hw [p Hp]. unfold tick_peer. rewrite Hp. unfold expire. pose proof (ew_queues _ Hw _ _ Hp) as Hq.
  destruct (expire_split now (packets (pending p))) as (old & live & Hex & Hps & Hold & Hh).
  rewrite <-(qw_bytes _ _ Hq) in Hex. rewrite Hex.
  destruct (update_timers _ _) as [[w1 t1] timer] eqn:Htm. cbn [packets bytes].
  destruct (drain_seals (authorized key) (mtu (limits e)) live t1 w1) as (t2 & w2 & d & rest & sealed & -> & Hd & Hs).
  pose proof (ew_pending _ _ _ Hw Hp) as Hle. pose proof (ew_total _ Hw) as Htot. rewrite usub_Ok by done. cbn [bytes].
  assert (Hrq : queue_wf (limits e) (mkQueue rest (total_len rest))).
  { apply (queue_suffix_wf _ (old ++ d) rest (bytes (pending p))). rewrite <-app_assoc, <-Hd, <-Hps. by destruct (pending p). }
  assert (Htl : total_len rest <= bytes (pending p)) by (rewrite (qw_bytes _ _ Hq), Hps, Hd, !total_len_app; lia).
  set (e1 := set_queued _ _).
  assert (Hw1 : engine_wf e1) by (apply (put_peer_wf e key p t2 (mkQueue rest (total_len rest))); [done..|cbn; lia]).
  assert (Hq1 : forall k, queue_at e1 k = if decide (k = key) then rest else queue_at e k).
  { intros k. apply (queue_at_put key t2 (mkQueue rest (total_len rest)) e k). }
  destruct (networks key (option_list timer ++ sealed) e1) as [e' out] eqn:Hn.
  destruct (networks_spec key (option_list timer ++ sealed) e1) as (o & Hno & _). rewrite Hn in Hno. injection Hno as He' Hout.
  assert (Hw' : engine_wf e').
  { change e' with (e', out).1. rewrite <-Hn. apply networks_wf; [done|]. apply put_peer_installed. }
  exists w2, e', out. subst e'. split_and!; [done|done| | | |].
  - split; [done|]. intros k. change (queue_at (set_owners o e1) k) with (queue_at e1 k). rewrite Hq1. case_decide as Hk.
    + subst k. exists rest. rewrite app_nil_r. split; [|done]. unfold queue_at. rewrite Hp, Hps, Hd. exists (old ++ d). by rewrite app_assoc.
    + exists (queue_at e k). by rewrite app_nil_r.
  - intros k Hk. change (queue_at (set_owners o e1) k) with (queue_at e1 k). rewrite Hq1. by rewrite decide_False.
  - cbn. rewrite dom_insert_L. apply elem_of_dom_2 in Hp. set_solver.
  - exists (tunnel p), w, t1, w1, timer, sealed, t2, w2. split_and!; [done| |done].
    eapply seals_weaken, Hs. intros pkt (x & Hx & Hpk & Ha). exists x, old, live. unfold queue_at. rewrite Hp. by split_and!.
Qed.

Lemma unexpired_same now authorized e e1 key p : queue_at e1 key = queue_at e key -> unexpired now authorized e1 key p -> unexpired now authorized e key p.
Proof. intros Hq. unfold unexpired. by rewrite Hq. Qed.
Lemma turn_weaken (P Q : list byte -> Prop) m key out : (forall p, P p -> Q p) -> turn P m key out -> turn Q m key out.
Proof.
  intros HPQ (t & w & t1 & w1 & tm & sl & t2 & w2 & Ht & Hs & Ho). exists t, w, t1, w1, tm, sl, t2, w2.
  split_and!; [done|by eapply seals_weaken|done].
Qed.
Lemma tick_peers_spec now authorized keys e w : engine_wf e -> NoDup keys -> (forall k, k ∈ keys -> is_Some (peers e !! k)) ->
  exists w' e' outs, tick_peers now authorized keys e w = (w', e', Ok (concat outs)) /\ engine_wf e' /\ evolves e e' nothing /\
    Forall2 (fun key out => turn (unexpired now authorized e key) (mtu (limits e)) key out) keys outs.
Proof.
  revert e w. induction keys as [|key keys IH]; intros e w Hw Hnd Hin.
  { exists w, e, []. split_and!; [done|done|by apply evolves_same|constructor]. }
  apply NoDup_cons in Hnd as [Hnk Hnd]. cbn [tick_peers].
  destruct (tick_peer_spec now authorized key e w Hw (Hin key ltac:(by left))) as (w1 & e1 & out & -> & Hw1 & He1 & Hq1 & Hd1 & Ht).
  destruct (IH e1 w1 Hw1 Hnd) as (w2 & e2 & outs & -> & Hw2 & He2 & Hf).
  { intros k Hk. apply elem_of_dom. rewrite Hd1. apply elem_of_dom, Hin. by right. }
  exists w2, e2, (out :: outs). split_and!; [done|done|by eapply queue_evolves_trans|]. constructor; [done|].
  rewrite (proj1 He1) in Hf. clear -Hf Hq1 Hnk. induction Hf as [|k o ks os Hk Hf IHf]; constructor.
  - eapply turn_weaken, Hk. intros p. apply unexpired_same, Hq1. intros ->. apply Hnk. by left.
  - apply IHf. intros Hin. apply Hnk. by right.
Qed.
Lemma visits_NoDup keys e : visits keys e -> NoDup keys.
Proof. unfold visits. intros Hv. rewrite Hv. apply NoDup_fst_map_to_list. Qed.
Lemma tick_spec now authorized keys e w : engine_wf e -> visits keys e ->
  exists w' e' outs, tick_tagged now authorized keys e w = (w', e', Ok (concat outs)) /\ engine_wf e' /\ evolves e e' nothing /\
    Forall2 (fun key out => turn (unexpired now authorized e key) (mtu (limits e)) key out) keys outs.
Proof.
  intros Hw Hv. unfold tick_tagged. destruct (closed e) eqn:Hc.
  { destruct (ew_closed _ Hw Hc) as [He _]. unfold visits in Hv. rewrite He, map_to_list_empty in Hv.
    apply Permutation_nil_r in Hv as ->. exists w, e, []. split_and!; [done|done|by apply evolves_same|constructor]. }
  set (e1 := set_owners _ e). assert (Hw1 : engine_wf e1).
  { apply set_owners_wf; [done..|]. intros i k [Hi _]%map_lookup_filter_Some. by eapply ew_owners. }
  destruct (tick_peers_spec now authorized keys e1 (try_reset_count (limiter e) w) Hw1) as (w' & e' & outs & -> & Hw' & He' & Hf);
    [by eapply visits_NoDup|by apply (visits_installed keys e)|].
  exists w', e', outs. split_and!; [done|done| |].
  - eapply queue_evolves_trans; [by apply (evolves_same e e1)|done].
  - exact Hf.
Qed.

(** Whether an operation empties the queue of a key. *)
Definition clears (k : Key) (o : op) : bool :=
  match o with
  | Remove key => bool_decide (key = k)
  | ClearPending | ResetSessions _ | Close _ => true
  | _ => false
  end.
Lemma step_good o e w : engine_wf e -> op_ok o e ->
  good o e (step o e w) /\ forall k, clears k o = true -> queue_at (step o e w).1.2 k = [].
Proof.
  intros Hw Ho. destruct o; cbn [step clears].
  - split; [|done]. pose proof (install_good key e w Hw) as Hg. destruct (install key e w) as [[w1 e1] r]. by apply good_fmap.
  - destruct (remove_good key e w Hw) as [Hg Hq]. destruct (remove key e w) as [[w1 e1] r]. split; [by apply good_fmap|].
    by intros k ->%bool_decide_eq_true.
  - split; [by apply clear_pending_good|]. intros k _. apply clear_pending_queue.
  - destruct (reset_sessions_good keys e w Hw) as [Hg Hq]. destruct (reset_sessions keys e w) as [w1 e1]. split; [done|auto].
  - destruct (close_good keys e w Hw) as [Hg Hq]. destruct (close keys e w) as [w1 e1]. split; [done|auto].
  - split; [by apply initiate_good|done].
  - split; [|done]. pose proof (send_ready_good key pkt e w Hw) as Hg. destruct (send_ready key pkt e w) as [[w1 e1] r]. by apply good_fmap.
  - split; [|done]. pose proof (send_tagged_good key pkt now auth authorized e w Hw) as Hg.
    destruct (send_tagged key pkt now auth authorized e w) as [[w1 e1] r]. by apply good_fmap.
  - split; [by apply receive_good|done].
  - split; [by apply receive_checked_good|done].
  - split; [|done]. destruct (tick_spec now authorized keys e w Hw Ho) as (w' & e' & outs & -> & Hw' & He' & _). by apply good_quiet.
Qed.

(** *** Sequences of operations, with any state of the library at each *)

Inductive steps (e0 : Engine) : list op -> Engine -> Prop :=
| steps_start : steps e0 [] e0
| steps_then ops e o w w' e' r : steps e0 ops e -> op_ok o e -> step o e w = (w', e', r) -> steps e0 (ops ++ [o]) e'.

Lemma new_engine_wf secret l w w' e : new secret l w = (w', Ok e) -> engine_wf e /\ limits e = l /\ forall k, queue_at e k = [].
Proof.
  unfold new, with_indices. destruct (from_os_rng w) as [w1 idx]. destruct (validate l) as [[]| |] eqn:Hv; [|done..].
  destruct (rate_limiter_new _ _ _) as [w2 lim]. intros [= <- <-]. split_and!; [|done|done].
  split; cbn; try done. all: rewrite ?map_size_empty; lia.
Qed.
Lemma steps_wf e0 ops e : engine_wf e0 -> steps e0 ops e -> engine_wf e /\ limits e = limits e0.
Proof.
  intros Hw. induction 1 as [|ops e o w w' e' r Hs [IH Hl] Ho Hst]; [done|].
  destruct (step_good o e w IH Ho) as [(Hw' & _ & new & [Hl' _] & _) _]. rewrite Hst in Hw', Hl'. split; [done|]. cbn in Hl'. congruence.
Qed.

(** C19: After any sequence of calls on a new engine, whatever state the WireGuard
    library is in at each of them, the engine is within its limits: the byte count it
    keeps is the sum of its queues and at most [total_queued_bytes], each queue has
    at most [queued_packets] packets and [l_queued_bytes] bytes, all of them whole IP
    packets within the MTU; at most [l_peers] keys are installed and never its own;
    every receiver index belongs to an installed key; a closed engine has nothing
    left. No further call panics, in particular none of the subtractions underflows. *)
Theorem engine_bounded secret l w w0 e0 ops e : new secret l w = (w0, Ok e0) -> steps e0 ops e ->
  engine_wf e /\ limits e = l /\ forall o w1, op_ok o e -> (step o e w1).2 <> Panic.
Proof.
  intros (Hw0 & <- & _)%new_engine_wf Hs. destruct (steps_wf _ _ _ Hw0 Hs) as [Hw Hl]. split_and!; [done..|].
  intros o w1 Ho. destruct (step_good o e w1 Hw Ho) as [(_ & Hp & _) _]. done.
Qed.

(** ** What is sealed late was authorized, and still is *)

(** The operations since the queue of [k] was last emptied. *)
Definition since (k : Key) (ops : list op) : list op := foldl (fun acc o => if clears k o then [] else acc ++ [o]) [] ops.
Lemma since_snoc k ops o : since k (ops ++ [o]) = if clears k o then [] else since k ops ++ [o].
Proof. unfold since. by rewrite foldl_app. Qed.
Lemma since_incl k ops : since k ops ⊆ ops.
Proof.
  induction ops as [|o ops IH] using rev_ind; [done|]. rewrite since_snoc. destruct (clears k o); [apply list_subseteq_nil|]. set_solver.
Qed.
Definition time_of (o : op) : option N :=
  match o with SendTagged _ _ now _ _ | Tick now _ _ => Some now | _ => None end.
(** The clock the caller passes never goes back. *)
Definition timely (ops : list op) : Prop := StronglySorted N.le (omap time_of ops).
Lemma timely_snoc ops o now : timely (ops ++ [o]) -> time_of o = Some now -> forall o' t, o' ∈ ops -> time_of o' = Some t -> t <= now.
Proof.
  unfold timely. rewrite omap_app. cbn. intros Ht Ho o' t Ho' Hto. rewrite Ho in Ht.
  eapply StronglySorted_app_1_elem_of; [exact Ht|..].
  - apply list_elem_of_omap. by exists o'.
  - by left.
Qed.
Lemma timely_app ops ops' : timely (ops ++ ops') -> timely ops.
Proof. unfold timely. rewrite omap_app. apply StronglySorted_app_1_l. Qed.

(** Packet [p] was handed over for [k] at [t], under [auth], by a caller that authorized
    it, and the queue of [k] was not emptied since. *)
Definition handed (ops : list op) (k : Key) (p : list byte) (auth t : N) : Prop :=
  exists authorized, SendTagged k p t auth authorized ∈ since k ops /\ authorized k p = true.
Record sourced (ops : list op) (e : Engine) (k : Key) : Prop := {
  so_sorted : StronglySorted N.le (expires <$> queue_at e k);
  so_handed : forall x, x ∈ queue_at e k ->
    exists t, handed ops k (packet x) (authorization x) t /\ expires x = t + queue_lifetime (limits e);
}.
Lemma suffix_sorted (l k : list Pending) : k `suffix_of` l -> StronglySorted N.le (expires <$> l) -> StronglySorted N.le (expires <$> k).
Proof. intros [j ->]. rewrite fmap_app. apply StronglySorted_app_1_r. Qed.
Lemma suffix_elem (l k : list Pending) x : k `suffix_of` l -> x ∈ k -> x ∈ l.
Proof. intros [j ->] Hx. set_solver. Qed.

Lemma steps_sourced e0 ops e : engine_wf e0 -> (forall k, queue_at e0 k = []) -> steps e0 ops e -> timely ops -> forall k, sourced ops e k.
Proof.
  intros Hw0 Hq0. induction 1 as [|ops e o w w' e' r Hs IH Ho Hst]; intros Ht k.
  { split; rewrite Hq0; [constructor|]. by intros x Hx%elem_of_nil. }
  destruct (steps_wf e0 ops e Hw0 Hs) as [Hw Hl]. specialize (IH (timely_app _ _ Ht) k).
  destruct (step_good o e w Hw Ho) as [(_ & _ & new & [Hl' Hev] & Hacc) Hclr]. rewrite Hst in Hl', Hev, Hclr. cbn in Hl', Hev, Hclr.
  destruct (clears k o) eqn:Hc.
  { rewrite <-(Hclr k Hc) in Hq0. split; rewrite (Hclr k Hc); [constructor|]. by intros x Hx%elem_of_nil. }
  destruct (Hev k) as (kept & Hsuf & Hq). destruct IH as [Hsort Hh].
  assert (Hkeep : forall x, x ∈ kept -> exists t, handed (ops ++ [o]) k (packet x) (authorization x) t /\ expires x = t + queue_lifetime (limits e')).
  { intros x Hx. destruct (Hh x (suffix_elem _ _ _ Hsuf Hx)) as (t & (a & Hin & Ha) & He). exists t. split; [|congruence].
    exists a. split; [|done]. rewrite since_snoc, Hc. set_solver. }
  destruct (Hacc k) as [Hn|(pkt & now & auth & authorized & -> & Ha & Hn)]; rewrite Hn in Hq.
  { rewrite app_nil_r in Hq. split; rewrite Hq; [by eapply suffix_sorted|done]. }
  split; rewrite Hq.
  - rewrite fmap_app. apply StronglySorted_app_2; [|by eapply suffix_sorted|repeat constructor].
    intros y z (x & -> & Hx)%list_elem_of_fmap Hz. apply list_elem_of_singleton in Hz as ->. cbn.
    destruct (Hh x (suffix_elem _ _ _ Hsuf Hx)) as (t & (a & Hin & _) & ->).
    pose proof (timely_snoc ops _ now Ht eq_refl _ t (since_incl _ _ _ Hin) eq_refl). lia.
  - intros x [Hx| ->%list_elem_of_singleton]%elem_of_app; [by apply Hkeep|]. cbn. exists now. split; [|congruence].
    exists authorized. split; [|done]. rewrite since_snoc. cbn. set_solver.
Qed.

(** C10: Plaintext that waited for a session is sealed only while that is still right.
    After any sequence of calls on a new engine, under a clock that does not go back,
    a tick answers for each installed key: what its timers send, then ciphertexts of
    packets each of which was handed over for exactly this key, by a caller that
    authorized it, less than [queue_lifetime] ago, and after the last removal of the
    key, policy change, resume or close - and which the tick's own check authorizes
    again, under the authorization identifier it was handed over with. *)
Theorem drained_plaintext_current secret l w w0 e0 ops e now authorized keys w1 :
  new secret l w = (w0, Ok e0) -> steps e0 ops e -> timely (ops ++ [Tick now authorized keys]) -> visits keys e ->
  exists w2 e2 outs, tick_tagged now authorized keys e w1 = (w2, e2, Ok (concat outs)) /\
    Forall2 (fun key out =>
      turn (fun p => exists auth t, handed ops key p auth t /\ now < t + queue_lifetime l /\ authorized key p auth = true)
        (mtu l) key out) keys outs.
Proof.
  intros (Hw0 & Hl0 & Hq0)%new_engine_wf Hs Ht Hv. destruct (steps_wf _ _ _ Hw0 Hs) as [Hw Hl].
  destruct (tick_spec now authorized keys e w1 Hw Hv) as (w2 & e2 & outs & Htick & _ & _ & Hf). exists w2, e2, outs. split; [done|].
  rewrite Hl, Hl0 in Hf. eapply Forall2_impl; [exact Hf|]. cbn. intros key out. apply turn_weaken.
  intros p (x & old & rest & Hq & Hh & Hx & -> & Ha).
  destruct (steps_sourced e0 ops e Hw0 Hq0 Hs (timely_app _ _ Ht) key) as [Hsort Hsrc].
  destruct (Hsrc x) as (t & Hhand & He); [rewrite Hq; set_solver|]. rewrite Hl, Hl0 in He.
  exists (authorization x), t. split_and!; [done| |done]. rewrite <-He.
  rewrite Hq, fmap_app in Hsort. apply StronglySorted_app_1_r in Hsort. destruct rest as [|y rest]; [by apply elem_of_nil in Hx|].
  specialize (Hh y eq_refl). apply elem_of_cons in Hx as [->|Hx]; [done|]. cbn in Hsort. apply StronglySorted_inv in Hsort as [_ Hall].
  rewrite Forall_forall in Hall. pose proof (Hall (expires x) ltac:(by apply list_elem_of_fmap_2)). lia.
Qed.

(** ** Receiving *)

Lemma unpad_Ok key pkt e evs k p : unpad key pkt e = Ok evs -> Plaintext k p ∈ evs ->
  evs = [Plaintext k p] /\ k = key /\ validate_ip p (mtu (limits e)) = Ok tt /\ exists n, pkt = p ++ replicate n x00 /\ (n <= 15)%nat.
Proof.
  unfold unpad. destruct (bool_decide _); [intros [= <-] Hin; by apply elem_of_nil in Hin|].
  intros (l & Hl & Hok)%bind_Ok. destruct (_ || _) eqn:Hf; [done|]. apply bind_Ok in Hok as ([] & Hv & [= <-]). breflect.
  intros [= -> ->]%list_elem_of_singleton. split_and!; [done..|]. exists (N.to_nat (lenN pkt - l)). split; [|lia].
  rewrite <-(take_drop (N.to_nat l) pkt) at 1. f_equal.
  assert (Hz : Forall (fun b => b = x00) (drop (N.to_nat l) pkt)).
  { apply Forall_forall. intros b Hb. destruct (u8 b =? 0) eqn:Hb0; [by apply N.eqb_eq, (u8_inj b x00) in Hb0|].
    rewrite <-not_true_iff_false in H2. destruct H2. apply existsb_exists. exists b. split; [by apply list_elem_of_In|by rewrite Hb0]. }
  assert (Hlen : length (drop (N.to_nat l) pkt) = N.to_nat (lenN pkt - l)) by (rewrite length_drop; unfold lenN; lia).
  rewrite <-Hlen. clear -Hz. induction Hz as [|b bs -> Hz IH]; cbn; by f_equal.
Qed.
Lemma unpad_padded key p n e : validate_ip p (mtu (limits e)) = Ok tt -> (n <= 15)%nat -> unpad key (p ++ replicate n x00) e = Ok [Plaintext key p].
Proof.
  intros Hv Hn. pose proof Hv as [Hm Hl]%validate_ip_Ok. unfold unpad.
  destruct p as [|b0 p]; [cbn in Hl; done|]. rewrite bool_decide_false by done. set (bs := b0 :: p) in *.
  rewrite (ip_length_app bs _ (lenN bs)) by (done || lia). cbn [mbind outcome_bind].
  assert (Hx : N.to_nat (lenN bs) = length bs) by (unfold lenN; lia). rewrite Hx, drop_app_length, take_app_length.
  assert (Hr : lenN (replicate n x00) = N.of_nat n) by (unfold lenN; by rewrite length_replicate). rewrite lenN_app, Hr.
  assert (Hz : existsb (fun b => negb (u8 b =? 0)) (replicate n x00) = false) by (clear; induction n; cbn; [done|by rewrite IHn]).
  rewrite Hz, orb_false_r. destruct (_ || _) eqn:Hf; [breflect; lia|]. by rewrite Hv.
Qed.

(** C9: A packet comes out of the engine only through its gates: the datagram passed the
    MAC and cookie check, its key is installed and the caller authorized that very key
    before the tunnel saw it; then the tunnel of that key opened it, and the packet is
    the whole IP packet it sealed, within the MTU, less at most 15 zero bytes of padding.
    Of the engine only the state of that tunnel changes: every queue with its packets, every
    other tunnel, the owners of indices and the accounting stay as they were. When the
    caller refuses the key, no tunnel is touched. *)
Theorem received_plaintext_gated address d authorized e w :
  (forall w' e' evs k p, receive_checked address d authorized e w = (w', e', Ok evs) -> Plaintext k p ∈ evs ->
     evs = [Plaintext k p] /\ authorized k = true /\ validate_ip p (mtu (limits e)) = Ok tt /\
     exists kind w1 peer t n, verify_packet (limiter e) address d w = (w1, inl kind) /\ identify kind e w1 = Ok k /\
       peers e !! k = Some peer /\ (n <= 15)%nat /\
       handle_incoming_packet kind (tunnel peer) w1 = (w', t, WriteToTunnel (p ++ replicate n x00)) /\
       e' = mkEngine (private e) (public e) (indices e) (owners e) (<[k := mkPeer t (pending peer)]> (peers e)) (queued_bytes e)
              (limiter e) (limits e) (closed e)) /\
  (forall kind w1 k, closed e = false -> lenN d <= mtu (limits e) + 32 -> verify_packet (limiter e) address d w = (w1, inl kind) ->
     identify kind e w1 = Ok k -> authorized k = false -> receive_checked address d authorized e w = (w1, e, Err Unauthorized)).
Proof.
  split.
  - intros w' e' evs k p. unfold receive_checked. destruct (closed e) eqn:Hc; [done|]. destruct (_ <? _) eqn:Hlen; [done|].
    destruct (verify_packet _ _ _ _) as [w1 [kind|r]] eqn:Hver.
    + destruct (identify kind e w1) as [key| |] eqn:Hid; [|done..]. destruct (authorized key) eqn:Ha; [|done].
      cbn [negb]. unfold deliver. destruct (peers e !! key) as [peer|] eqn:Hp; [|done].
      destruct (handle_incoming_packet _ _ _) as [[w2 t] answer] eqn:Hh. destruct answer as [| |reply|pkt]; try done.
      * intros [= <- <- <-] Hin. by apply elem_of_nil in Hin.
      * unfold network. intros [= <- <- <-] Hin%list_elem_of_singleton. done.
      * intros [= <- <- Hu] Hin. destruct (unpad_Ok _ _ _ _ _ _ Hu Hin) as (-> & -> & Hv & n & -> & Hn).
        split_and!; [done|done|exact Hv|]. exists kind, w1, peer, t, n. split_and!; [done|done|done|done|done|]. by rewrite <-Hc.
    + destruct r as [| |reply|]; try done. unfold network. intros [= <- <- <-] Hin%list_elem_of_singleton. done.
  - intros kind w1 k Hc Hl Hver Hid Ha. unfold receive_checked. rewrite Hc, (proj2 (N.ltb_ge _ _)), Hver, Hid, Ha by done. done.
Qed.

(** ** Delivery *)

(** The datagrams of a tick that go to one key. *)
Definition to_peer (key : Key) (out : list Event) : list (list byte) :=
  omap (fun ev => match ev with Network (Some k) p => if decide (k = key) then Some p else None | _ => None end) out.
Lemma to_peer_app key a b : to_peer key (a ++ b) = to_peer key a ++ to_peer key b.
Proof. apply omap_app. Qed.
Lemma to_peer_networks key k (ks : list WgKind) :
  to_peer key ((fun x => Network (Some k) (raw x)) <$> ks) = if decide (k = key) then raw <$> ks else [].
Proof. unfold to_peer. induction ks as [|x ks IH]; [by case_decide|]. csimpl. rewrite IH. by case_decide. Qed.

(** The datagrams reach the other engine, each at some state of its library. *)
Fixpoint receive_each (address : SocketAddr) (authorized : Key -> bool) (ds : list (list byte * world)) (e : Engine) : list Event :=
  match ds with
  | (d, u) :: rest =>
      let '(_, e, r) := receive_checked address d authorized e u in
      match r with Ok evs => evs | _ => [] end ++ receive_each address authorized rest e
  | [] => []
  end.

(** Without the expired packets at the front, and those not authorized any more. *)
Fixpoint live (now : N) (ps : list Pending) : list Pending :=
  match ps with p :: rest => if expires p <=? now then live now rest else ps | [] => [] end.
Definition due (now : N) (authorized : Key -> list byte -> N -> bool) (key : Key) (e : Engine) : list (list byte) :=
  packet <$> filter (fun p => authorized key (packet p) (authorization p) = true) (live now (queue_at e key)).
Lemma live_split now old rest : Forall (fun p => expires p <= now) old -> (forall p, head rest = Some p -> now < expires p) ->
  live now (old ++ rest) = rest.
Proof.
  induction 1 as [|p old Hp _ IH]; cbn; intros Hh.
  - destruct rest as [|q rest]; [done|]. cbn. by rewrite (proj2 (N.leb_gt _ _)) by by apply Hh.
  - rewrite (proj2 (N.leb_le _ _)) by done. by apply IH.
Qed.

#[local] Instance Data_inj : Inj (=) (=) Data.
Proof. by intros ?? [= ->]. Qed.

Section delivery.
Context `{!GotatunLaws}.
Variables (during : world -> Prop) (i : N) (from : Key) (address : SocketAddr) (admits : Key -> bool) (m : N).
Hypothesis admitted : admits from = true.

(** The receiving engine: it has the tunnel [r] for the sender, and owns its index. *)
Record receiving (r : Tunn) (e : Engine) : Prop := {
  rc_open : closed e = false;
  rc_mtu : m <= mtu (limits e);
  rc_peer : exists q, peers e !! from = Some (mkPeer r q);
  rc_index : forall u, during u -> owner i e u = Ok from;
}.
Lemma receive_sealed t r p w w1 t1 c e u : linked during i t r -> during w -> receiving r e -> during u -> validate_ip p m = Ok tt ->
  encapsulate_with_session (padded p m) t w = (w1, t1, Some c) ->
  exists r1 u1 e1, receive_checked address c admits e u = (u1, e1, Ok [Plaintext from p]) /\ linked during i t1 r1 /\ receiving r1 e1.
Proof.
  intros Hl Hdw [Ho Hm [q Hp] Hi] Hdu Hv He.
  destruct (seal_linked during i t r (padded p m) w Hl Hdw) as (w2 & t2 & c2 & He2 & Hidx & Hlen & Hver & Hopen).
  rewrite He in He2. injection He2 as <- <- <-. pose proof Hv as [Hpm _]%validate_ip_Ok.
  destruct (padded_app p m Hpm) as (n & Hpad & Hn & Hpl). destruct (Hopen u Hdu) as (u1 & r1 & Hh & Hl1).
  assert (Hve : validate_ip p (mtu (limits e)) = Ok tt) by (apply validate_ip_Ok in Hv as [? ?]; apply validate_ip_Ok; split; [lia|done]).
  exists r1, u1, (put_peer from (mkPeer r1 q) e). unfold receive_checked. rewrite Ho, (proj2 (N.ltb_ge _ _)), Hver by lia. cbn [identify].
  rewrite Hidx, (Hi u Hdu), admitted. cbn [negb]. unfold deliver. rewrite Hp. cbn [tunnel pending]. rewrite Hh, Hpad.
  rewrite unpad_padded by done. split_and!; [done|done|]. split; cbn; [done|done|rewrite lookup_insert_eq; by exists q|exact Hi].
Qed.
Lemma drain_delivers authorized ps t w r e : linked during i t r -> during w -> receiving r e ->
  Forall (fun p => validate_ip (packet p) m = Ok tt) ps ->
  exists w' t' cs, drain authorized m ps (total_len ps) t w = (w', t', Ok (mkQueue [] 0, Data <$> cs)) /\
    length cs = length (filter (fun p => authorized (packet p) (authorization p) = true) ps) /\
    forall us, length us = length cs -> Forall during us ->
      receive_each address admits (zip cs us) e = Plaintext from <$> (packet <$> filter (fun p => authorized (packet p) (authorization p) = true) ps).
Proof.
  revert t w r e. induction ps as [|p ps IH]; intros t w r e Hl Hd Hrc Hv.
  { exists w, t, []. split_and!; [done|done|]. by intros [|u us]. }
  apply Forall_cons in Hv as [Hp Hv]. cbn [drain]. rewrite usub_Ok by (cbn; lia).
  assert (Hlen : total_len (p :: ps) - lenN (packet p) = total_len ps) by (cbn; fold (total_len ps); lia). rewrite Hlen, filter_cons.
  destruct (authorized _ _) eqn:Ha; cbn [negb]; [rewrite decide_True by done|rewrite decide_False by done; by apply (IH t w r)].
  destruct (seal_linked during i t r (padded (packet p) m) w Hl Hd) as (w1 & t1 & c & He & Hidx & Hlc & Hver & Hopen).
  rewrite He. assert (Hd1 : during w1) by by eapply during_seal.
  assert (Hstep : forall u, during u -> exists r1 u1 e1,
            receive_checked address c admits e u = (u1, e1, Ok [Plaintext from (packet p)]) /\ linked during i t1 r1 /\ receiving r1 e1).
  { intros u Hu. by apply (receive_sealed t r (packet p) w w1 t1 c e u). }
  assert (Hsome : exists r1 e1, linked during i t1 r1 /\ receiving r1 e1).
  { destruct (Hstep w Hd) as (r1 & _ & e1 & _ & ? & ?). by exists r1, e1. }
  destruct Hsome as (r1 & e1 & Hl1 & Hrc1). destruct (IH t1 w1 r1 e1 Hl1 Hd1 Hrc1 Hv) as (w' & t' & cs & Hdr & Hlcs & _).
  rewrite Hdr. exists w', t', (c :: cs). split; [done|]. split; [by cbn; rewrite Hlcs|]. intros us Hus Hdu. destruct us as [|u us]; [done|].
  apply Forall_cons in Hdu as [Hu Hdu]. cbn [zip zip_with receive_each].
  destruct (Hstep u Hu) as (r2 & u2 & e2 & -> & Hl2 & Hrc2). cbn [fmap list_fmap app]. f_equal.
  destruct (IH t1 w1 r2 e2 Hl2 Hd1 Hrc2 Hv) as (w2 & t2 & cs2 & Hdr2 & _ & Hrec). rewrite Hdr in Hdr2. injection Hdr2 as _ _ Hcs.
  apply (inj (fmap (M:=list) Data)) in Hcs as <-. apply Hrec; [by injection Hus|done].
Qed.
(** The sending engine: the turns of other keys stay within [during]. *)
Variables (t0 r0 : Tunn) (to : Key).
Hypothesis linked0 : linked during i t0 r0.

Lemma drain_during authorized k ps b t w w' t' x : during w -> drain authorized k ps b t w = (w', t', x) -> during w'.
Proof.
  revert b t w w' t' x. induction ps as [|p ps IH]; cbn [drain]; intros b t w w' t' x Hd; [by intros [= <- _ _]|].
  destruct (usub _ _) as [b1| |]; [|by intros [= <- _ _]..]. destruct (negb _); [by apply IH|].
  destruct (encapsulate_with_session _ _ _) as [[w1 t1] [c|]] eqn:He; [|by intros [= <- _ _]; eapply during_seal].
  destruct (drain _ _ ps _ t1 w1) as [[w2 t2] y] eqn:Hdr. intros [= <- _ _]. eapply IH, Hdr. by eapply during_seal.
Qed.
Lemma tick_peer_during now authorized k e w w' e' x : during w -> tick_peer now authorized k e w = (w', e', x) -> during w'.
Proof.
  intros Hd. unfold tick_peer. destruct (peers e !! k) as [p|]; [|by intros [= <- _ _]].
  destruct (expire _ _) as [q| |]; [|by intros [= <- _ _]..]. destruct (update_timers _ _) as [[w1 t1] timer] eqn:Ht.
  destruct (drain _ _ _ _ t1 w1) as [[w2 t2] y] eqn:Hdr.
  assert (Hd2 : during w2) by (eapply drain_during, Hdr; by eapply during_timers).
  destruct y as [[q2 sealed]| |]; [|by intros [= <- _ _]..]. destruct (usub _ _) as [n| |]; [|by intros [= <- _ _]..].
  destruct (networks _ _ _) as [e1 out]. by intros [= <- _ _].
Qed.
Lemma tick_peer_other now authorized k e w w' e' out : k <> to -> tick_peer now authorized k e w = (w', e', Ok out) ->
  peers e' !! to = peers e !! to /\ to_peer to out = [].
Proof.
  intros Hk. unfold tick_peer. destruct (peers e !! k) as [p|]; [|done].
  destruct (expire _ _) as [q| |]; [|done..]. destruct (update_timers _ _) as [[w1 t1] timer].
  destruct (drain _ _ _ _ t1 w1) as [[w2 t2] [[q2 sealed]| |]]; [|done..]. destruct (usub _ _) as [n| |]; [|done..].
  destruct (networks_spec k (option_list timer ++ sealed) (set_queued (n + bytes q2) (put_peer k (mkPeer t2 q2) e))) as (o & -> & _).
  intros [= <- <- <-]. cbn [peers set_owners set_queued put_peer set_peers]. rewrite lookup_insert_ne by done.
  split; [done|]. rewrite to_peer_networks. by rewrite decide_False.
Qed.
Lemma tick_peers_app now authorized a b e w : tick_peers now authorized (a ++ b) e w =
  match tick_peers now authorized a e w with
  | (w, e, Ok evs) => let '(w, e, more) := tick_peers now authorized b e w in (w, e, app evs <$> more)
  | failed => failed
  end.
Proof.
  revert e w. induction a as [|k a IH]; cbn [tick_peers app]; intros e w.
  { destruct (tick_peers _ _ b e w) as [[w1 e1] [x| |]]; done. }
  destruct (tick_peer now authorized k e w) as [[w1 e1] [evs| |]]; [|done..]. rewrite IH.
  destruct (tick_peers now authorized a e1 w1) as [[w2 e2] [evs2| |]]; [|done..]. cbn.
  destruct (tick_peers now authorized b e2 w2) as [[w3 e3] [evs3| |]]; cbn; by rewrite ?app_assoc.
Qed.
Lemma tick_others now authorized keys e w : engine_wf e -> during w -> to ∉ keys -> (forall k, k ∈ keys -> is_Some (peers e !! k)) ->
  exists w' e' out, tick_peers now authorized keys e w = (w', e', Ok out) /\ engine_wf e' /\ during w' /\
    dom (peers e') = dom (peers e) /\ limits e' = limits e /\ peers e' !! to = peers e !! to /\ to_peer to out = [].
Proof.
  revert e w. induction keys as [|k keys IH]; intros e w Hw Hd Hn Hin; [by exists w, e, []|]. apply not_elem_of_cons in Hn as [Hnk Hn].
  destruct (tick_peer_spec now authorized k e w Hw (Hin k ltac:(by left))) as (w1 & e1 & out & Ht & Hw1 & [Hl1 _] & _ & Hd1 & _).
  cbn [tick_peers]. rewrite Ht. pose proof (tick_peer_during _ _ _ _ _ _ _ _ Hd Ht) as Hdw.
  destruct (tick_peer_other _ _ _ _ _ _ _ _ (not_eq_sym Hnk) Ht) as [Hp Ho].
  destruct (IH e1 w1 Hw1 Hdw Hn) as (w2 & e2 & out2 & -> & Hw2 & Hdw2 & Hd2 & Hl2 & Hp2 & Ho2).
  { intros j Hj. apply elem_of_dom. rewrite Hd1. apply elem_of_dom, Hin. by right. }
  exists w2, e2, (out ++ out2). split_and!; [done..|congruence|congruence|congruence|]. by rewrite to_peer_app, Ho, Ho2.
Qed.
Lemma tick_peer_to now authorized e w t q r eb : engine_wf e -> during w -> peers e !! to = Some (mkPeer t q) -> linked during i t r ->
  m = mtu (limits e) -> receiving r eb ->
  exists w' e' out timer cs, tick_peer now authorized to e w = (w', e', Ok out) /\ engine_wf e' /\ during w' /\
    dom (peers e') = dom (peers e) /\ queue_at e' to = [] /\
    to_peer to out = (raw <$> option_list timer) ++ cs /\ timer = (update_timers t w).2 /\
    length cs = length (due now authorized to e) /\
    forall us, length us = length cs -> Forall during us ->
      receive_each address admits (zip cs us) eb = Plaintext from <$> due now authorized to e.
Proof.
  intros Hw Hd Hp Hl Hm Hrc.
  destruct (tick_peer_spec now authorized to e w Hw (ltac:(by rewrite Hp))) as (w1 & e1 & out & Ht & Hw1 & _ & _ & Hd1 & _).
  pose proof (tick_peer_during _ _ _ _ _ _ _ _ Hd Ht) as Hdw. pose proof Ht as Ht'. revert Ht'. unfold tick_peer. rewrite Hp. unfold expire.
  pose proof (ew_queues _ Hw _ _ Hp) as Hq. cbn [pending tunnel] in *.
  destruct (expire_split now (packets q)) as (old & rest & Hex & Hps & Hold & Hh). rewrite <-(qw_bytes _ _ Hq) in Hex. rewrite Hex.
  destruct (update_timers t w) as [[w2 t2] timer] eqn:Htm. cbn [packets bytes].
  assert (Hv : Forall (fun p => validate_ip (packet p) m = Ok tt) rest).
  { pose proof (qw_valid _ _ Hq) as Hv. rewrite Hps in Hv. apply Forall_app in Hv as [_ Hv]. by rewrite Hm. }
  destruct (drain_delivers (authorized to) rest t2 w2 r eb) as (w3 & t3 & cs & Hdr & Hlcs & Hrec);
    [exact (timers_linked during i t r w w2 t2 timer Hl Hd Htm)|exact (during_timers during i t r t w w2 t2 timer Hl Hd Htm)|done|done|].
  rewrite <-Hm, Hdr. cbn [bytes packets]. destruct (usub _ _) as [n| |]; [|done..].
  destruct (networks_spec to (option_list timer ++ (Data <$> cs)) (set_queued (n + 0) (put_peer to (mkPeer t3 (mkQueue [] 0)) e))) as (o & -> & _).
  intros [= <- <- <-]. exists w3, (set_owners o (set_queued (n + 0) (put_peer to (mkPeer t3 (mkQueue [] 0)) e))).
  eexists _, timer, cs. split_and!; [done|done|done|done| | |done| |].
  - unfold queue_at. cbn. by rewrite lookup_insert_eq.
  - rewrite to_peer_networks, decide_True, fmap_app by done. f_equal. rewrite <-list_fmap_compose. apply list_fmap_id.
  - unfold due, queue_at. rewrite Hp. cbn [pending]. by rewrite Hps, live_split, length_fmap.
  - intros us Hus Hdu. rewrite Hrec by done. unfold due, queue_at. rewrite Hp. cbn [pending]. by rewrite Hps, live_split.
Qed.
End delivery.

(** C12: What waited for a session arrives. While the tunnels of two engines share a
    session, a tick of the sender empties the queue of the other key and sends to
    that key, after the one datagram its timers may ask for, exactly one ciphertext for
    each waiting packet that is not expired and still authorized, and nothing else; received in that order, at whatever states of the library
    within the session, they come out at the other engine as exactly those packets, in
    the order they were handed over, each once, attributed to the sender's key. *)
Theorem tunnel_delivers `{!GotatunLaws} during i from to address admits now authorized keys t q r ea eb w :
  engine_wf ea -> visits keys ea -> peers ea !! to = Some (mkPeer t q) -> linked during i t r -> during w ->
  receiving during i from (mtu (limits ea)) r eb -> admits from = true ->
  exists w' ea' out w1 cs, tick_tagged now authorized keys ea w = (w', ea', Ok out) /\ queue_at ea' to = [] /\
    during w1 /\ to_peer to out = (raw <$> option_list (update_timers t w1).2) ++ cs /\
    length cs = length (due now authorized to ea) /\
    forall us, length us = length cs -> Forall during us ->
      receive_each address admits (zip cs us) eb = Plaintext from <$> due now authorized to ea.
Proof.
  intros Hw Hv Hp Hl Hd Hrc Hadm. unfold tick_tagged. rewrite (ew_live _ _ _ Hw Hp).
  set (e1 := set_owners _ ea). set (w0 := try_reset_count _ w).
  assert (Hd0 : during w0) by by eapply during_count.
  assert (Hw1 : engine_wf e1).
  { apply set_owners_wf; [done|by eapply ew_live|]. intros j k [Hi _]%map_lookup_filter_Some. by eapply ew_owners. }
  pose proof (visits_NoDup _ _ Hv) as Hnd. pose proof (visits_installed _ _ Hv) as Hin.
  assert (Hto : to ∈ keys).
  { unfold visits in Hv. rewrite Hv. apply list_elem_of_fmap. exists (to, mkPeer t q). split; [done|]. by apply elem_of_map_to_list. }
  apply list_elem_of_split in Hto as (pre & post & ->). apply NoDup_app in Hnd as (_ & Hpre & Hpost). apply NoDup_cons in Hpost as [Hpost _].
  destruct (tick_others during i t r to Hl now authorized pre e1 w0 Hw1 Hd0) as (w2 & e2 & o2 & Ht2 & Hw2 & Hd2 & Hdm2 & Hl2 & Hp2 & Ho2).
  { intros Hx. apply (Hpre to Hx). by left. }
  { intros k Hk. apply Hin. set_solver. }
  change (peers e1 !! to) with (peers ea !! to) in Hp2. rewrite Hp in Hp2.
  destruct (tick_peer_to during i from address admits (mtu (limits ea)) Hadm t r to Hl now authorized e2 w2 t q r eb)
    as (w3 & e3 & o3 & timer & cs & Ht3 & Hw3 & Hd3 & Hdm3 & Hq3 & Ho3 & Htm & Hlcs & Hrec); [done..|by rewrite Hl2|done|]. subst timer.
  destruct (tick_others during i t r to Hl now authorized post e3 w3 Hw3 Hd3 Hpost) as (w4 & e4 & o4 & Ht4 & Hw4 & Hd4 & Hdm4 & Hl4 & Hp4 & Ho4).
  { intros k Hk. apply elem_of_dom. rewrite Hdm3, Hdm2. apply elem_of_dom, Hin. set_solver. }
  exists w4, e4, (o2 ++ o3 ++ o4), w2, cs. rewrite tick_peers_app, Ht2. cbn [tick_peers]. rewrite Ht3, Ht4. cbn [fmap outcome_fmap].
  assert (Hdue : due now authorized to e2 = due now authorized to ea) by (unfold due, queue_at; by rewrite Hp2, Hp).
  split_and!; [done| |done| |by rewrite Hlcs, Hdue|].
  - unfold queue_at. rewrite Hp4. exact Hq3.
  - by rewrite !to_peer_app, Ho2, Ho3, Ho4, app_nil_r.
  - intros us Hus Hdu. by rewrite Hrec, Hdue.
Qed.

Lemma steps_step e0 ops e o w : steps e0 ops e -> op_ok o e -> steps e0 (ops ++ [o]) (step o e w).1.2.
Proof. intros Hs Ho. destruct (step o e w) as [[w' e'] r] eqn:Hst. by eapply steps_then. Qed.

End engine.

(** ** A library in which indices are numbered, and nothing is encrypted *)

Record toy_tunn := mkToy { toy_own : list byte; toy_local : N; toy_remote : option N }.
Definition to_le (n : N) : list byte := reverse (to_be 4 n).
Definition toy_packet (kind : byte) (index : N) (rest : list byte) : list byte := [kind; x00; x00; x00] ++ to_le index ++ rest.
Definition toy_index (p : list byte) : N := from_le (take 4 (drop 4 p)).
Definition toy_kind (d : list byte) : WgKind + TunnResult :=
  match d with
  | x01 :: _ => inl (HandshakeInit d) | x02 :: _ => inl (HandshakeResp d)
  | x03 :: _ => inl (CookieReply d) | x04 :: _ => inl (Data d) | _ => inr TunnErr
  end.
Definition toy_handle (k : WgKind) (t : toy_tunn) (w : N) : N * toy_tunn * TunnResult :=
  match k with
  | HandshakeInit p =>
      (w, mkToy (toy_own t) (toy_local t) (Some (toy_index p)), WriteToNetwork (HandshakeResp (toy_packet x02 (toy_local t) (take 4 (drop 4 p)))))
  | HandshakeResp p => (w, mkToy (toy_own t) (toy_local t) (Some (toy_index p)), Done)
  | CookieReply _ => (w, t, Done)
  | Data p => if bool_decide (is_Some (toy_remote t)) then (w, t, WriteToTunnel (drop 32 p)) else (w, t, TunnErr)
  end.
#[export] Instance toy_gotatun : Gotatun := {|
  Tunn := toy_tunn; IndexTable := unit; RateLimiter := unit; world := N;
  from_os_rng w := (w, tt);
  in_use _ i w := i <? w;
  rate_limiter_new _ _ w := (w, tt);
  try_reset_count _ w := w;
  verify_packet _ _ d w := (w, toy_kind d);
  parse_handshake_anon _ _ p := Some (drop 8 p);
  sender_idx p := toy_index p;
  receiver_idx p := match p with x02 :: _ => from_le (take 4 (drop 8 p)) | _ => toy_index p end;
  tunn_new secret _ _ _ w := (w + 1, mkToy secret w None);
  tunn_reset t w := (w, mkToy (toy_own t) (toy_local t) None);
  format_handshake_initiation _ t w := (w, t, Some (toy_packet x01 (toy_local t) (toy_own t)));
  encapsulate_with_session x t w := (w, t, (fun i => toy_packet x04 i (replicate 24 x00 ++ x)) <$> toy_remote t);
  handle_incoming_packet := toy_handle;
  update_timers t w := (w, t, None);
|}.
#[export] Instance toy_dh : X25519Dh := {| dh_public s := s; dh_contributory _ _ := true |}.

Lemma toy_index_packet kind i rest : i < 2 ^ 32 -> toy_index (toy_packet kind i rest) = i.
Proof.
  intros Hi. unfold toy_index, toy_packet. change (drop 4 ([kind; x00; x00; x00] ++ to_le i ++ rest)) with (to_le i ++ rest).
  assert (Hl : length (to_le i) = 4%nat) by (unfold to_le; by rewrite length_reverse, length_to_be).
  rewrite take_app_length' by done. unfold from_le, to_le. rewrite reverse_involutive. by apply from_be_to_be.
Qed.
#[export] Instance toy_laws : GotatunLaws.
Proof.
  refine {| linked (during : @world toy_gotatun -> Prop) i (t r : @Tunn toy_gotatun) := toy_remote t = Some i /\ i < 2 ^ 32 /\ is_Some (toy_remote r) |}.
  - intros during i t r x w (Hi & Hlt & Hr) Hd. exists w, t, (toy_packet x04 i (replicate 24 x00 ++ x)).
    assert (Hle : length (to_le i) = 4%nat) by (unfold to_le; by rewrite length_reverse, length_to_be).
    split_and!; [cbn; by rewrite Hi|..].
    + by apply toy_index_packet.
    + unfold toy_packet, lenN. rewrite !length_app, length_replicate, Hle. cbn [length]. lia.
    + done.
    + intros u Hu. exists u, r. split; [|done]. cbn [handle_incoming_packet toy_gotatun toy_handle].
      rewrite bool_decide_true by done. unfold toy_packet. repeat f_equal.
  - by intros during i t r w w' t' timer Hl Hd [= <- <- <-].
  - by intros during i t r t1 w w' t' timer Hl Hd [= <- <- <-].
  - by intros during i t r x t1 w w' t' c Hl Hd [= <- <- <-].
  - done.
Defined.

Definition at_index (n : N) : @world toy_gotatun := n.
Definition key_a : list byte := replicate 32 x0a.
Definition key_b : list byte := replicate 32 x2a.
(** An IPv4 header alone, 20 bytes. *)
Definition example_packet : list byte := [x45; x00; x00; x14] ++ replicate 16 x00.
Definition anyone : list byte -> list byte -> bool := fun _ _ => true.
Definition example_start (secret : list byte) : Engine :=
  mkEngine secret secret tt ∅ ∅ 0 tt limits_default false.
Definition example_ops : list op := [Install key_b; SendTagged key_b example_packet 5 7 anyone].
Definition example_engine : Engine :=
  (step (SendTagged key_b example_packet 5 7 anyone) (step (Install key_b) (example_start key_a) (at_index 0)).1.2 (at_index 1)).1.2.
Lemma example_new : new key_a limits_default (at_index 0) = (at_index 0, Ok (example_start key_a)).
Proof. reflexivity. Qed.
Lemma example_steps : steps (example_start key_a) example_ops example_engine.
Proof. apply (steps_step _ [Install key_b]); [|done]. apply (steps_step _ []); [constructor|done]. Qed.

(** The engine holds one packet of 20 bytes, and a tick needs the key in its order. *)
Lemma engine_bounded_witness :
  queued_bytes example_engine = 20 /\ engine_wf example_engine /\
  (step (Tick 6 (fun _ _ _ => true) [key_b]) example_engine (at_index 1)).2 <> Panic.
Proof.
  destruct (engine_bounded key_a limits_default (at_index 0) (at_index 0) (example_start key_a) example_ops example_engine example_new example_steps)
    as (Hw & _ & Hp).
  split; [vm_compute; reflexivity|]. split; [exact Hw|]. apply Hp. vm_compute. reflexivity.
Defined.
Lemma drained_plaintext_current_witness : exists w2 e2 outs,
  tick_tagged 6 (fun _ _ _ => true) [key_b] example_engine (at_index 1) = (w2, e2, Ok (concat outs)) /\
  Forall2 (fun key out =>
    turn (fun p => exists auth t, handed example_ops key p auth t /\ 6 < t + queue_lifetime limits_default /\ true = true)
      (mtu limits_default) key out) [key_b] outs.
Proof.
  exact (drained_plaintext_current key_a limits_default (at_index 0) (at_index 0) (example_start key_a) example_ops example_engine 6 (fun _ _ _ => true)
    [key_b] (at_index 1) example_new example_steps ltac:(repeat constructor; lia) ltac:(vm_compute; reflexivity)).
Defined.

(** A handshake between the two: the packet of [example_engine] waits for it. *)
Definition first_packet (r : result (list Event)) : list byte := match r with Ok (Network _ p :: _) => p | _ => [] end.
Definition hello : list byte := first_packet (step (Initiate key_b) example_engine (at_index 1)).2.
Definition answered : @world toy_gotatun * Engine * result (list Event) :=
  step (Receive (Relay key_a) hello) (step (Install key_a) (example_start key_b) (at_index 0)).1.2 (at_index 1).
Definition engine_b : Engine := answered.1.2.
Definition engine_a : Engine := (step (Receive (Relay key_b) (first_packet answered.2)) example_engine (at_index 1)).1.2.
Lemma engine_a_wf : engine_wf engine_a.
Proof.
  destruct (engine_bounded key_a limits_default (at_index 0) (at_index 0) (example_start key_a)
    (example_ops ++ [Receive (Relay key_b) (first_packet answered.2)]) engine_a example_new) as [Hw _]; [|exact Hw].
  apply (steps_step _ example_ops); [exact example_steps|done].
Qed.
Lemma engine_b_wf : engine_wf engine_b.
Proof.
  destruct (engine_bounded key_b limits_default (at_index 0) (at_index 0) (example_start key_b)
    [Install key_a; Receive (Relay key_a) hello] engine_b) as [Hw _]; [reflexivity| |exact Hw].
  apply (steps_step _ [Install key_a]); [|done]. apply (steps_step _ []); [constructor|done].
Qed.
Definition opened (u : @world toy_gotatun) : Prop := (0 < u)%N.
Definition tunnel_a : @Tunn toy_gotatun := mkToy key_a 0 (Some 0).
Definition tunnel_b : @Tunn toy_gotatun := mkToy key_b 0 (Some 0).
Lemma engine_b_receiving : receiving opened 0 key_a (mtu (limits engine_a)) tunnel_b engine_b.
Proof.
  split; [vm_compute; reflexivity|vm_compute; discriminate|exists queue_default; vm_compute; reflexivity|].
  intros u Hu. unfold owner. assert (Ho : owners engine_b !! 0 = Some key_a) by (vm_compute; reflexivity). rewrite Ho.
  change (in_use (indices engine_b) 0 u) with (0 <? u). unfold opened in Hu. by rewrite (proj2 (N.ltb_lt 0 u) Hu).
Qed.
Definition waiting : Queue := mkQueue [mkPending example_packet (5 + 3 * SECOND) 7] 20.

Lemma tunnel_delivers_witness : exists w' ea' out w1 cs,
  tick_tagged 6 (fun _ _ _ => true) [key_b] engine_a (at_index 1) = (w', ea', Ok out) /\ queue_at ea' key_b = [] /\
  opened w1 /\ to_peer key_b out = (raw <$> option_list (update_timers tunnel_a w1).2) ++ cs /\ length cs = 1%nat /\
  forall us, length us = length cs -> Forall opened us ->
    receive_each (SockV4 1 1) (fun k => bool_decide (k = key_a)) (zip cs us) engine_b = [Plaintext key_a example_packet].
Proof.
  exact (tunnel_delivers opened 0 key_a key_b (SockV4 1 1) (fun k => bool_decide (k = key_a)) 6 (fun _ _ _ => true) [key_b]
    tunnel_a waiting tunnel_b engine_a engine_b (at_index 1) engine_a_wf ltac:(vm_compute; reflexivity) ltac:(vm_compute; reflexivity)
    (conj eq_refl (conj eq_refl (ex_intro _ 0 eq_refl))) eq_refl engine_b_receiving eq_refl).
Defined.

Definition sealed_example : list byte := first_packet (step (Tick 6 (fun _ _ _ => true) [key_b]) engine_a (at_index 1)).2.
Lemma received_plaintext_gated_witness :
  receive_checked (SockV4 1 1) sealed_example (fun _ => false) engine_b (at_index 1) = (at_index 1, engine_b, Err Unauthorized) /\
  exists w' e', receive_checked (SockV4 1 1) sealed_example (fun _ => true) engine_b (at_index 1) =
    (w', e', Ok [Plaintext key_a example_packet]) /\ queued_bytes e' = queued_bytes engine_b.
Proof.
  pose proof (received_plaintext_gated (SockV4 1 1) sealed_example (fun _ => false) engine_b (at_index 1)) as [_ Hrefused].
  pose proof (received_plaintext_gated (SockV4 1 1) sealed_example (fun _ => true) engine_b (at_index 1)) as [Hopened _].
  split.
  - apply (Hrefused (Data sealed_example) (at_index 1) key_a); vm_compute; try reflexivity; discriminate.
  - destruct (receive_checked (SockV4 1 1) sealed_example (fun _ => true) engine_b (at_index 1)) as [[w' e'] r] eqn:Hr.
    assert (Hok : r = Ok [Plaintext key_a example_packet]).
    { change r with (w', e', r).2. rewrite <-Hr. vm_compute. reflexivity. }
    subst r. exists w', e'. split; [reflexivity|].
    destruct (Hopened w' e' _ key_a example_packet eq_refl ltac:(by left)) as (_ & _ & _ & kind & w1 & peer & t & n & _ & _ & _ & _ & _ & He). rewrite He. reflexivity.
Defined.

End Wg.
