(* ===== verification/Stun.v ===== *)
(** * Discovering the public address (crate [peerward-p2p]: stun.rs, stun_server.rs,
    stun_runtime.rs, and the port prediction of mapping.rs)

    A binding request carries a random transaction; the server answers with the
    address it saw. [StunRuntime] schedules the requests of up to eight servers and
    accepts only what answers one of them. *)

From S2P Require Import Prelude Ordered Net.
From Stdlib Require Import ZArith NArith Lia Sorting.Sorted.
From stdpp Require Import base tactics decidable countable numbers list sorting gmap.
From Stdlib.Init Require Import Byte.
Set Default Goal Selector "!".
Local Open Scope N_scope.

(** [Ipv6Addr::to_ipv4_mapped], [Ipv4Addr::to_ipv6_mapped] and [IpAddr::to_canonical] *)
Definition to_ipv4_mapped (n : N) : option N := if n / 2 ^ 32 =? 0xffff then Some (n mod 2 ^ 32) else None.
Definition to_ipv6_mapped (n : N) : N := 0xffff * 2 ^ 32 + n.
Definition to_canonical (a : IpAddr) : IpAddr :=
  match a with V4 n => V4 n | V6 n => match to_ipv4_mapped n with Some v4 => V4 v4 | None => V6 n end end.
(** [a ^ b] on bytes, and of two slices byte by byte. *)
Definition xor_byte (a b : byte) : byte := byte_of (N.lxor (u8 a) (u8 b)).
Definition xor_bytes (l m : list byte) : list byte := zip_with xor_byte l m.

(** error.rs *)
Inductive P2pError := Candidate | StunError | Mapping | GatewayRestarted | Io | Timeout.
#[export] Instance P2pError_eq_dec : EqDecision P2pError.
Proof. solve_decision. Defined.
Notation p2p_result := (outcome P2pError).

Module St.

(** ** stun.rs *)

Definition STUN_MAGIC : N := 0x2112_a442.
Definition STUN_BINDING_REQUEST : N := 0x0001.
Definition STUN_BINDING_SUCCESS : N := 0x0101.
Definition XOR_MAPPED_ADDRESS : N := 0x0020.

Record StunRequest := mkRequest { transaction : list byte; request_bytes : list byte }.
#[export] Instance StunRequest_eq_dec : EqDecision StunRequest.
Proof. solve_decision. Defined.
Definition from_transaction (t : list byte) : StunRequest :=
  mkRequest t (to_be 2 STUN_BINDING_REQUEST ++ [x00; x00] ++ to_be 4 STUN_MAGIC ++ t).

Definition decode_xor_address (value t : list byte) : p2p_result SocketAddr :=
  if lenN value <? 4 then Err StunError else
  b0 ← index value 0;
  if negb (u8 b0 =? 0) then Err StunError else
  p ← be16_at value 2;
  let port := N.lxor p (N.shiftr STUN_MAGIC 16) in
  family ← index value 1;
  if (u8 family =? 1) && (lenN value =? 8) then
    address ← slice value 4 8;
    Ok (socket_new (V4 (from_be (xor_bytes address (to_be 4 STUN_MAGIC)))) port)
  else if (u8 family =? 2) && (lenN value =? 20) then
    address ← slice value 4 20;
    Ok (socket_new (V6 (from_be (xor_bytes address (to_be 4 STUN_MAGIC ++ t)))) port)
  else Err StunError.

(** A mapped address no peer could be reached at. *)
Definition unusable (address : SocketAddr) : bool :=
  (socket_port address =? 0) || is_unspecified (socket_ip address) || is_multicast (socket_ip address).
(** The loop over the attributes; each turn consumes at least four bytes. *)
Fixpoint parse_attributes (fuel : nat) (bytes t : list byte) (cursor : N) (mapped : option SocketAddr)
    : p2p_result (option SocketAddr) :=
  if negb (cursor <? lenN bytes) then Ok mapped else
  match fuel with
  | O => Panic
  | S fuel =>
      if lenN bytes <? cursor + 4 then Err StunError else
      kind ← be16_at bytes cursor;
      length ← be16_at bytes (cursor + 2);
      let start := cursor + 4 in
      let end_ := start + length in
      if lenN bytes <? end_ then Err StunError else
      mapped ←
        (if kind =? XOR_MAPPED_ADDRESS then
           match mapped with
           | Some _ => Err StunError
           | None =>
               value ← slice bytes start end_;
               address ← decode_xor_address value t;
               if unusable address then Err StunError else Ok (Some address)
           end
         else Ok mapped);
      let cursor := end_ + (4 - length mod 4) mod 4 in
      if lenN bytes <? cursor then Err StunError else parse_attributes fuel bytes t cursor mapped
  end.
Definition parse_response (self : StunRequest) (bytes : list byte) : p2p_result SocketAddr :=
  if negb ((20 <=? lenN bytes) && (lenN bytes <=? 1024)) then Err StunError else
  kind ← be16_at bytes 0;
  if negb (kind =? STUN_BINDING_SUCCESS) then Err StunError else
  magic ← slice bytes 4 8;
  if negb (from_be magic =? STUN_MAGIC) then Err StunError else
  t ← slice bytes 8 20;
  if negb (bool_decide (t = transaction self)) then Err StunError else
  declared ← be16_at bytes 2;
  if negb (declared + 20 =? lenN bytes) || negb (declared mod 4 =? 0) then Err StunError else
  mapped ← parse_attributes (length bytes) bytes (transaction self) 20 None;
  ok_or mapped StunError.

Inductive NatBehavior := EndpointIndependent | EndpointDependent | Unknown.
Definition classify_nat (observations : list SocketAddr) : NatBehavior :=
  match observations with
  | [] => Unknown
  | first :: _ => if forallb (fun e => bool_decide (e = first)) observations then EndpointIndependent else EndpointDependent
  end.

(** ** stun_server.rs *)

Definition stun_binding_response (request : list byte) (observed : SocketAddr) : option (list byte) :=
  if negb (lenN request =? 20)
     || negb (bool_decide (take 4 request = [x00; x01; x00; x00]))
     || negb (bool_decide (take 4 (drop 4 request) = to_be 4 STUN_MAGIC))
     || unusable observed
  then None else
  let address := to_canonical (socket_ip observed) in
  let size := match address with V4 _ => 8 | V6 _ => 20 end in
  Some ([x01; x01] ++ to_be 2 (size + 4) ++ drop 4 request ++ to_be 2 XOR_MAPPED_ADDRESS ++ to_be 2 size
        ++ [x00; match address with V4 _ => x01 | V6 _ => x02 end]
        ++ to_be 2 (N.lxor (socket_port observed) 0x2112)
        ++ match address with
           | V4 ip => xor_bytes (v4_octets ip) (take 4 (drop 4 request))
           | V6 ip => xor_bytes (v6_octets ip) (take 16 (drop 4 request))
           end).

Definition MAX_CLIENTS : N := 4096.
Definition MAX_PER_SECOND : N := 1000.
Definition MAX_PER_IP_SECOND : N := 10.
Definition SECOND : N := 1_000_000_000.
Record StunLimits := mkLimits { period : N; total : N; clients : gmap IpAddr N }.
Definition limits_new (now : N) : StunLimits := mkLimits now 0 ∅.
Definition client_of (ip : IpAddr) : IpAddr :=
  match to_canonical ip with
  | V6 n => V6 (N.land n (N.shiftl (2 ^ 64 - 1) 64))
  | V4 n => V4 n
  end.
Definition allow (ip : IpAddr) (now : N) (self : StunLimits) : StunLimits * bool :=
  let self := if SECOND <=? now - period self then mkLimits now 0 ∅ else self in
  if MAX_PER_SECOND <=? total self then (self, false) else
  let ip := client_of ip in
  if negb (bool_decide (is_Some (clients self !! ip))) && (MAX_CLIENTS <=? N.of_nat (size (clients self))) then (self, false) else
  let count := default 0 (clients self !! ip) in
  if MAX_PER_IP_SECOND <=? count then (mkLimits (period self) (total self) (<[ip := count]> (clients self)), false) else
  (mkLimits (period self) (total self + 1) (<[ip := count + 1]> (clients self)), true).

(** ** mapping.rs: port prediction *)

(** [windows(2)] *)
Definition windows2 {A} (l : list A) : list (A * A) := zip l (tail l).
Definition predicted_ports (observations : list SocketAddr) : list N :=
  if (lenN observations <? 3)
     || existsb (fun p => negb (bool_decide (socket_ip p.1 = socket_ip p.2))) (windows2 observations)
  then [] else
  let deltas := (fun p => (Z.of_N (socket_port p.2) - Z.of_N (socket_port p.1))%Z) <$> windows2 observations in
  match deltas with
  | [] => []
  | d :: ds =>
      let minimum := foldl Z.min d ds in
      let maximum := foldl Z.max d ds in
      if (1 <? maximum - minimum)%Z || (1024 <? Z.abs maximum)%Z then [] else
      let delta := (foldl Z.add 0 deltas ÷ Z.of_nat (length deltas))%Z in
      match last observations with
      | None => []
      | Some final =>
          let center := (Z.of_N (socket_port final) + delta)%Z in
          omap (fun offset => let port := (center + offset)%Z in
                              if (0 <? port)%Z && (port <=? 65535)%Z then Some (Z.to_N port) else None)
            [-2; -1; 0; 1; 2]%Z
      end
  end.

Record SymmetricNatPredictionGate := mkGate { last_round : option N; consecutive_failures : N; cooldown_until : N }.
Definition gate_default : SymmetricNatPredictionGate := mkGate None 0 0.
Definition begin_round (now : N) (self : SymmetricNatPredictionGate) : SymmetricNatPredictionGate * bool :=
  if (now <? cooldown_until self) || match last_round self with Some l => now - l <? 30 | None => false end
  then (self, false) else (mkGate (Some now) (consecutive_failures self) (cooldown_until self), true).
Definition complete_round (now : N) (stable : bool) (self : SymmetricNatPredictionGate) : SymmetricNatPredictionGate :=
  if stable then mkGate (last_round self) 0 (cooldown_until self) else
  let failures := N.min (consecutive_failures self + 1) U8_MAX in
  if 3 <=? failures then mkGate (last_round self) 0 (sat_add now (10 * 60))
  else mkGate (last_round self) failures (cooldown_until self).

(** ** stun_runtime.rs *)

Definition MAX_SERVERS : N := 8.
Definition TRANSACTION_MILLIS : N := 2_000.
Definition REFRESH_BASE_MILLIS : N := 60_000.
Definition REFRESH_JITTER_MILLIS : N := 6_000.

Record StunProbe := mkProbe { server_index : N; server : SocketAddr; probe_request : list byte }.
#[export] Instance StunProbe_eq_dec : EqDecision StunProbe.
Proof. solve_decision. Defined.
Record StunPoll := mkPoll { probes : list StunProbe; next_poll_millis : N }.
Record StunMapping := mkMapping { m_server_index : N; m_mapped : SocketAddr; m_predicted : list SocketAddr }.
#[export] Instance StunMapping_eq_dec : EqDecision StunMapping.
Proof. solve_decision. Defined.
Record Pending := mkPending { probe : StunProbe; retry : N; backoff : N; deadline : N }.

Record StunRuntime := mkRuntime {
  servers : list SocketAddr;
  pending : gmap (list byte) Pending;
  waiting : list (N * SocketAddr);
  next_refresh : option N;
  polled_at : option N;
  prediction : option SymmetricNatPredictionGate;
  prediction_active : bool;
  observations : gmap N SocketAddr;
  current_predictions : list SocketAddr;
  draws : nat;
}.

Definition with_prediction (ss : list SocketAddr) (enabled : bool) : p2p_result StunRuntime :=
  if bool_decide (ss = []) || (MAX_SERVERS <? lenN ss) || existsb unusable ss then Err Candidate else
  let sorted := dedup (sort_by_key id ss) in
  if negb (lenN sorted =? lenN ss) then Err Candidate else
  Ok (mkRuntime sorted ∅ [] None None (if enabled then Some gate_default else None) false ∅ [] 0).
Definition new (ss : list SocketAddr) : p2p_result StunRuntime := with_prediction ss false.

Definition reset_network (r : StunRuntime) : StunRuntime :=
  mkRuntime (servers r) ∅ [] None None (const gate_default <$> prediction r) false ∅ [] (draws r).
Definition finish_prediction (now : N) (success : bool) (r : StunRuntime) : StunRuntime :=
  mkRuntime (servers r) (pending r) (waiting r) (next_refresh r) (polled_at r)
    (if prediction_active r then complete_round (now / 1000) success <$> prediction r else prediction r)
    false (observations r) (current_predictions r) (draws r).

Section runtime.
Context `{OsRng}.

(** [StunRequest::random] *)
Definition random_request (n : nat) : StunRequest := from_transaction (fill_bytes n 12).

Definition set_polled (now : N) (r : StunRuntime) : StunRuntime :=
  mkRuntime (servers r) (pending r) (waiting r) (next_refresh r) (Some now) (prediction r) (prediction_active r)
    (observations r) (current_predictions r) (draws r).
Definition set_pending (ps : gmap (list byte) Pending) (r : StunRuntime) : StunRuntime :=
  mkRuntime (servers r) ps (waiting r) (next_refresh r) (polled_at r) (prediction r) (prediction_active r)
    (observations r) (current_predictions r) (draws r).
Definition set_filled (ps : gmap (list byte) Pending) (w : list (N * SocketAddr)) (n : nat) (r : StunRuntime) : StunRuntime :=
  mkRuntime (servers r) ps w (next_refresh r) (polled_at r) (prediction r) (prediction_active r)
    (observations r) (current_predictions r) n.

(** A new round over all servers, when it is due. *)
Definition refresh (now : N) (r : StunRuntime) : StunRuntime :=
  if match next_refresh r with Some next => next <=? now | None => true end then
    let r := finish_prediction now false r in
    let '(gate, active) :=
      match prediction r with
      | Some gate => let '(gate, active) := begin_round (now / 1000) gate in (Some gate, active)
      | None => (None, false)
      end in
    let seed := from_be (take 8 (transaction (random_request (draws r)))) in
    let interval := REFRESH_BASE_MILLIS - REFRESH_JITTER_MILLIS + seed mod (2 * REFRESH_JITTER_MILLIS + 1) in
    mkRuntime (servers r) ∅ (imap (fun i s => (N.of_nat i, s)) (servers r)) (Some (sat_add now interval)) (polled_at r)
      gate active ∅ [] (draws r + 1)
  else r.
Definition expire (now : N) (r : StunRuntime) : StunRuntime :=
  let expired := existsb (fun e => deadline e.2 <=? now) (bt_entries (pending r)) in
  let r := set_pending (filter (fun e : list byte * Pending => now < deadline e.2) (pending r)) r in
  if expired then finish_prediction now false r else r.
(** The requests of the waiting servers are issued in order while fewer than [parallel] are out. *)
Fixpoint fill (now parallel : N) (w : list (N * SocketAddr)) (ps : gmap (list byte) Pending) (n : nat)
    : gmap (list byte) Pending * list (N * SocketAddr) * nat :=
  match w with
  | (index, s) :: rest =>
      if N.of_nat (size ps) <? parallel then
        let request := random_request n in
        fill now parallel rest
          (<[transaction request := mkPending (mkProbe index s (request_bytes request)) now 250 (sat_add now TRANSACTION_MILLIS)]> ps) (n + 1)
      else (ps, w, n)
  | [] => (ps, w, n)
  end.
Definition retransmit (now : N) (p : Pending) : Pending :=
  if retry p <=? now then mkPending (probe p) (sat_add now (backoff p)) (N.min (backoff p * 2) 1000) (deadline p) else p.
Definition poll (now : N) (r : StunRuntime) : StunRuntime * StunPoll :=
  let r := if match polled_at r with Some previous => now <? previous | None => false end then reset_network r else r in
  let r := expire now (refresh now (set_polled now r)) in
  let parallel := if prediction_active r then 1 else 4 in
  let '(ps, w, n) := fill now parallel (waiting r) (pending r) (draws r) in
  let sent := (fun e => probe e.2) <$> filter (fun e : list byte * Pending => retry e.2 <= now) (bt_entries ps) in
  let ps := retransmit now <$> ps in
  let next := foldl (fun next e => N.min (N.min next (retry e.2)) (deadline e.2))
                (default (sat_add now 1) (next_refresh r)) (bt_entries ps) in
  (set_filled ps w n r, mkPoll sent (N.max (next - now) 1)).

Definition accept (source : SocketAddr) (response : list byte) (now : N) (r : StunRuntime) : StunRuntime * p2p_result StunMapping :=
  if negb ((20 <=? lenN response) && (lenN response <=? 1024))
     || match polled_at r with Some previous => now <? previous | None => true end
  then (r, Err StunError) else
  match get_slice response 8 20 with
  | None => (r, Panic)
  | Some t =>
      match pending r !! t with
      | None => (r, Err StunError)
      | Some p =>
          if negb (bool_decide (server (probe p) = source)) then (r, Err StunError) else
          if deadline p <=? now then
            (finish_prediction now false (set_pending (delete t (pending r)) r), Err Timeout)
          else
          match parse_response (from_transaction t) response with
          | Err e => (r, Err e)
          | Panic => (r, Panic)
          | Ok mapped =>
              let r := mkRuntime (servers r) (delete t (pending r)) (waiting r) (next_refresh r) (polled_at r) (prediction r)
                         (prediction_active r) (<[server_index (probe p) := mapped]> (observations r)) (current_predictions r) (draws r) in
              let r :=
                if prediction_active r then
                  let ports := predicted_ports (bt_entries (observations r)).*2 in
                  match ports with
                  | _ :: _ =>
                      finish_prediction now true
                        (mkRuntime (servers r) (pending r) (waiting r) (next_refresh r) (polled_at r) (prediction r)
                           (prediction_active r) (observations r) (socket_new (socket_ip mapped) <$> ports) (draws r))
                  | [] =>
                      if bool_decide (pending r = ∅) && bool_decide (waiting r = []) then finish_prediction now false r else r
                  end
                else r in
              (r, Ok (mkMapping (server_index (probe p)) mapped (current_predictions r)))
          end
      end
  end.
End runtime.

(** ** Answers and their parser *)

Lemma u8_xor a b : u8 (xor_byte a b) = N.lxor (u8 a) (u8 b).
Proof.
  unfold xor_byte. rewrite u8_byte_of. apply N.mod_small.
  pose proof (u8_lt a) as Ha. pose proof (u8_lt b) as Hb.
  destruct (N.eq_dec (N.lxor (u8 a) (u8 b)) 0) as [->|Hz]; [lia|].
  apply N.log2_lt_pow2 with (b := 8); [lia|]. eapply N.le_lt_trans; [apply N.log2_lxor|].
  assert (Hlog : forall n, n < 256 -> N.log2 n < 8).
  { intros n Hn. destruct (N.eq_dec n 0) as [->|]; [by vm_compute|]. apply N.log2_lt_pow2; [lia|done]. }
  pose proof (Hlog _ Ha). pose proof (Hlog _ Hb). lia.
Qed.
Lemma xor_byte_twice a b : xor_byte (xor_byte a b) b = a.
Proof. apply u8_inj. by rewrite !u8_xor, N.lxor_assoc, N.lxor_nilpotent, N.lxor_0_r. Qed.
Lemma xor_bytes_twice l m : length l = length m -> xor_bytes (xor_bytes l m) m = l.
Proof.
  revert m. induction l as [|a l IH]; intros [|b m] Hl; try done. unfold xor_bytes in *. cbn. rewrite xor_byte_twice. f_equal. apply IH. by injection Hl.
Qed.
Lemma length_xor_bytes l m : length (xor_bytes l m) = Nat.min (length l) (length m).
Proof. apply length_zip_with. Qed.
Lemma lxor_u16 a b : a < 2 ^ 16 -> b < 2 ^ 16 -> N.lxor a b < 2 ^ 16.
Proof.
  intros Ha Hb. destruct (N.eq_dec (N.lxor a b) 0) as [->|Hz]; [lia|]. apply N.log2_lt_pow2; [lia|].
  eapply N.le_lt_trans; [apply N.log2_lxor|].
  assert (Hlog : forall n, n < 2 ^ 16 -> N.log2 n < 16).
  { intros n Hn. destruct (N.eq_dec n 0) as [->|]; [by vm_compute|]. apply N.log2_lt_pow2; [lia|done]. }
  pose proof (Hlog _ Ha). pose proof (Hlog _ Hb). lia.
Qed.

Definition mask_of (a : IpAddr) (t : list byte) : list byte :=
  match a with V4 _ => to_be 4 STUN_MAGIC | V6 _ => to_be 4 STUN_MAGIC ++ t end.
Definition octets (a : IpAddr) : list byte := match a with V4 ip => v4_octets ip | V6 ip => v6_octets ip end.
Definition mapped_value (a : IpAddr) (port : N) (t : list byte) : list byte :=
  [x00; match a with V4 _ => x01 | V6 _ => x02 end] ++ to_be 2 (N.lxor port 0x2112) ++ xor_bytes (octets a) (mask_of a t).
Definition mapped_size (a : IpAddr) : N := match a with V4 _ => 8 | V6 _ => 20 end.

Lemma length_magic : length (to_be 4 STUN_MAGIC) = 4%nat.
Proof. apply length_to_be. Qed.
Lemma length_mapped a t : lenN t = 12 -> length (xor_bytes (octets a) (mask_of a t)) = length (octets a).
Proof.
  intros Ht. rewrite length_xor_bytes. unfold lenN in Ht. destruct a; cbn [octets mask_of]; unfold v4_octets, v6_octets;
    rewrite ?length_app, ?length_to_be; lia.
Qed.
Lemma lenN_mapped_value a port t : lenN t = 12 -> lenN (mapped_value a port t) = mapped_size a.
Proof.
  intros Ht. unfold mapped_value. rewrite !lenN_app, lenN_to_be. unfold lenN at 2. rewrite length_mapped by done.
  destruct a; cbn [octets mapped_size]; unfold v4_octets, v6_octets; rewrite length_to_be; done.
Qed.
Lemma decode_mapped a port t : IpAddr_wf a -> port < 2 ^ 16 -> lenN t = 12 ->
  decode_xor_address (mapped_value a port t) t = Ok (socket_new a port).
Proof.
  intros Ha Hp Ht. unfold decode_xor_address. rewrite lenN_mapped_value by done.
  set (fam := match a with V4 _ => x01 | V6 _ => x02 end).
  assert (Hb0 : @index P2pError (mapped_value a port t) 0 = Ok x00) by done.
  assert (Hb1 : @index P2pError (mapped_value a port t) 1 = Ok fam) by done.
  assert (Hb2 : @be16_at P2pError (mapped_value a port t) 2 = Ok (N.lxor port 0x2112)).
  { unfold mapped_value. fold fam. apply be16_at_app; [|done]. by apply lxor_u16. }
  assert (Hx : N.lxor (N.lxor port 0x2112) (N.shiftr STUN_MAGIC 16) = port).
  { change (N.shiftr STUN_MAGIC 16) with 0x2112. by rewrite N.lxor_assoc, N.lxor_nilpotent, N.lxor_0_r. }
  pose proof (length_mapped a t Ht) as Hlen.
  assert (Hs : @slice P2pError (mapped_value a port t) 4 (mapped_size a) = Ok (xor_bytes (octets a) (mask_of a t))).
  { unfold mapped_value. rewrite app_assoc. rewrite <-(app_nil_r (xor_bytes (octets a) (mask_of a t))) at 1. apply slice_app.
    - rewrite lenN_app, lenN_to_be. done.
    - rewrite lenN_app, lenN_to_be. unfold lenN at 2. rewrite Hlen. destruct a; cbn [octets mapped_size]; unfold v4_octets, v6_octets;
        by rewrite length_to_be. }
  assert (Hxx : xor_bytes (xor_bytes (octets a) (mask_of a t)) (mask_of a t) = octets a).
  { apply xor_bytes_twice. unfold lenN in Ht. destruct a; cbn [octets mask_of]; unfold v4_octets, v6_octets;
      rewrite ?length_app, !length_to_be; lia. }
  destruct a as [ip|ip]; cbn [mapped_size] in *; rewrite Hb0, Hb2, Hb1; cbn [mbind outcome_bind]; rewrite Hx; unfold fam; cbn [octets mask_of] in *.
  - change (20 <? 4) with false. change (negb (u8 x00 =? 0)) with false. change ((u8 x01 =? 1) && (8 =? 8)) with true. cbn [N.ltb].
    change (8 <? 4) with false. cbv iota. rewrite Hs. cbn [mbind outcome_bind]. rewrite Hxx. unfold v4_octets. by rewrite from_be_to_be.
  - change (20 <? 4) with false. change (negb (u8 x00 =? 0)) with false. change ((u8 x02 =? 1) && (20 =? 8)) with false.
    change ((u8 x02 =? 2) && (20 =? 20)) with true. cbv iota. rewrite Hs. cbn [mbind outcome_bind]. rewrite Hxx. unfold v6_octets.
    by rewrite from_be_to_be.
Qed.

(** A response with one attribute, the mapped address. *)
Definition binding_success (a : IpAddr) (port : N) (t : list byte) : list byte :=
  ([x01; x01] ++ to_be 2 (mapped_size a + 4) ++ to_be 4 STUN_MAGIC ++ t)
  ++ to_be 2 XOR_MAPPED_ADDRESS ++ to_be 2 (mapped_size a) ++ mapped_value a port t.
Lemma mapped_size_cases a : mapped_size a = 8 \/ mapped_size a = 20.
Proof. destruct a; auto. Qed.
Lemma lenN_binding_success a port t : lenN t = 12 -> lenN (binding_success a port t) = 24 + mapped_size a.
Proof.
  intros Ht. unfold binding_success. rewrite !lenN_app, !lenN_to_be, lenN_mapped_value, Ht by done. unfold lenN. cbn [length]. lia.
Qed.
Lemma parse_binding_success a port t : IpAddr_wf a -> port < 2 ^ 16 -> lenN t = 12 -> unusable (socket_new a port) = false ->
  parse_response (from_transaction t) (binding_success a port t) = Ok (socket_new a port).
Proof.
  intros Ha Hp Ht Hu. pose proof (lenN_binding_success a port t Ht) as Hlen. set (b := binding_success a port t) in *.
  pose proof (mapped_size_cases a) as Hsz. set (pre := [x01; x01] ++ to_be 2 (mapped_size a + 4) ++ to_be 4 STUN_MAGIC ++ t).
  assert (Hpre : lenN pre = 20) by (unfold pre; rewrite !lenN_app, !lenN_to_be, Ht; done).
  assert (H0 : @be16_at P2pError b 0 = Ok STUN_BINDING_SUCCESS) by done.
  assert (H2 : @be16_at P2pError b 2 = Ok (mapped_size a + 4)).
  { unfold b, binding_success. rewrite <-!app_assoc. apply (be16_at_app [x01; x01]); [|done]. lia. }
  assert (H4 : @slice P2pError b 4 8 = Ok (to_be 4 STUN_MAGIC)).
  { unfold b, binding_success. rewrite <-!app_assoc. rewrite app_assoc. apply slice_app; rewrite lenN_app, ?lenN_to_be; done. }
  assert (H8 : @slice P2pError b 8 20 = Ok t).
  { unfold b, binding_success. rewrite <-!app_assoc. rewrite (app_assoc (to_be 2 _)), (app_assoc [x01; x01]).
    apply slice_app; rewrite !lenN_app, ?lenN_to_be, ?Ht; done. }
  assert (Hk : @be16_at P2pError b 20 = Ok XOR_MAPPED_ADDRESS).
  { apply (be16_at_app pre); [done|by rewrite Hpre]. }
  assert (Hl : @be16_at P2pError b 22 = Ok (mapped_size a)).
  { unfold b, binding_success. fold pre. rewrite app_assoc. apply be16_at_app; [lia|]. by rewrite lenN_app, Hpre, lenN_to_be. }
  assert (Hv : @slice P2pError b 24 (24 + mapped_size a) = Ok (mapped_value a port t)).
  { unfold b, binding_success. fold pre. rewrite 2!app_assoc. rewrite <-(app_nil_r (mapped_value a port t)) at 1.
    apply slice_app; rewrite !lenN_app, Hpre, !lenN_to_be, ?lenN_mapped_value by done; done. }
  unfold parse_response. rewrite Hlen.
  rewrite (proj2 (N.leb_le _ _)), (proj2 (N.leb_le _ _)) by lia. cbn [andb negb].
  rewrite H0. cbn [mbind outcome_bind]. rewrite N.eqb_refl. cbn [negb]. rewrite H4. cbn [mbind outcome_bind].
  rewrite from_be_to_be by done. rewrite N.eqb_refl. cbn [negb]. rewrite H8. cbn [mbind outcome_bind transaction from_transaction].
  rewrite bool_decide_eq_true_2 by done. cbn [negb]. rewrite H2. cbn [mbind outcome_bind].
  replace (mapped_size a + 4 + 20) with (24 + mapped_size a) by lia. rewrite N.eqb_refl.
  replace ((mapped_size a + 4) mod 4) with 0 by (destruct Hsz as [-> | ->]; done). cbn [negb orb N.eqb].
  assert (Hfuel : exists f, length b = S (S f)).
  { unfold lenN in Hlen. destruct (length b) as [|[|f]]; [lia|lia|]. by exists f. }
  destruct Hfuel as [f ->]. set (f1 := S f). cbn [parse_attributes]. rewrite Hlen.
  rewrite (proj2 (N.ltb_lt 20 _)) by lia. cbn [negb]. change (20 + 4) with 24. change (20 + 2) with 22.
  rewrite (proj2 (N.ltb_ge _ _)) by lia. rewrite Hk, Hl. cbn [mbind outcome_bind]. rewrite (proj2 (N.ltb_ge _ _)) by lia.
  rewrite N.eqb_refl, Hv. cbn [mbind outcome_bind]. rewrite decode_mapped by done. cbn [mbind outcome_bind]. rewrite Hu.
  cbn [mbind outcome_bind]. replace (24 + mapped_size a + (4 - mapped_size a mod 4) mod 4) with (24 + mapped_size a)
    by (destruct Hsz as [-> | ->]; done).
  rewrite (proj2 (N.ltb_ge _ _)) by lia. unfold f1. cbn [parse_attributes]. rewrite Hlen, (proj2 (N.ltb_ge _ _)) by lia. done.
Qed.

Lemma request_fields t : drop 4 (request_bytes (from_transaction t)) = to_be 4 STUN_MAGIC ++ t /\
  take 4 (request_bytes (from_transaction t)) = [x00; x01; x00; x00].
Proof. split; reflexivity. Qed.
Lemma to_canonical_wf a : IpAddr_wf a -> IpAddr_wf (to_canonical a).
Proof.
  destruct a as [n|n]; cbn; [done|]. unfold to_ipv4_mapped. intros Hn. destruct (_ =? _); cbn; [|done].
  change (n mod 2 ^ 32 < 2 ^ 32). apply N.mod_lt. done.
Qed.
(** The server's answer to a request. *)
Lemma server_answers t e : lenN t = 12 -> unusable e = false ->
  stun_binding_response (request_bytes (from_transaction t)) e = Some (binding_success (to_canonical (socket_ip e)) (socket_port e) t).
Proof.
  intros Ht Hu. unfold stun_binding_response. destruct (request_fields t) as [Hd Hk].
  assert (Hl : lenN (request_bytes (from_transaction t)) = 20) by (cbn [from_transaction request_bytes]; rewrite !lenN_app, !lenN_to_be, Ht; done).
  rewrite Hl, Hd, Hk, Hu. assert (Hm : take 4 (to_be 4 STUN_MAGIC ++ t) = to_be 4 STUN_MAGIC) by (by apply take_app_length').
  rewrite Hm, !bool_decide_eq_true_2 by done. cbn [N.eqb Pos.eqb negb orb].
  assert (Ht16 : take 16 (to_be 4 STUN_MAGIC ++ t) = to_be 4 STUN_MAGIC ++ t).
  { apply take_ge. rewrite length_app, length_magic. unfold lenN in Ht. lia. }
  rewrite Ht16. f_equal. unfold binding_success, mapped_value. rewrite <-!app_assoc.
  destruct (to_canonical (socket_ip e)); reflexivity.
Qed.

Lemma decode_xor_no_panic v t : no_panic (decode_xor_address v t).
Proof.
  unfold decode_xor_address. destruct (lenN v <? 4) eqn:Hl; [done|]. breflect.
  repeat panic_step; auto with rust; try (apply no_panic_index; lia); try (apply no_panic_be16_at; lia); apply no_panic_slice; lia.
Qed.
Lemma parse_attributes_spec fuel bytes t c m : (N.to_nat (lenN bytes - c) <= fuel)%nat ->
  no_panic (parse_attributes fuel bytes t c m) /\
  ((forall a, m = Some a -> unusable a = false) -> forall a, parse_attributes fuel bytes t c m = Ok (Some a) -> unusable a = false).
Proof.
  revert c m. induction fuel as [|fuel IH]; intros c m Hf; cbn [parse_attributes].
  { destruct (c <? lenN bytes) eqn:Hc; breflect; [lia|]. cbn. split; [done|]. by intros Hm a [= ->]; apply Hm. }
  destruct (c <? lenN bytes) eqn:Hc; cbn [negb]; [|split; [done|]; by intros Hm a [= ->]; apply Hm]. breflect.
  destruct (lenN bytes <? c + 4) eqn:H4; [done|]. breflect.
  pose proof (no_panic_be16_at (E:=P2pError) bytes c ltac:(lia)) as Hk. destruct (be16_at bytes c) as [k| |]; [|done..].
  pose proof (no_panic_be16_at (E:=P2pError) bytes (c + 2) ltac:(lia)) as Hl. destruct (be16_at bytes (c + 2)) as [l| |]; [|done..].
  cbn [mbind outcome_bind]. destruct (lenN bytes <? c + 4 + l) eqn:He; [done|]. breflect.
  assert (Hnext : forall m', (forall a, m' = Some a -> unusable a = false) \/ m' = m ->
    no_panic (if lenN bytes <? c + 4 + l + (4 - l mod 4) mod 4 then Err StunError
              else parse_attributes fuel bytes t (c + 4 + l + (4 - l mod 4) mod 4) m') /\
    ((forall a, m = Some a -> unusable a = false) -> forall a,
       (if lenN bytes <? c + 4 + l + (4 - l mod 4) mod 4 then Err StunError
        else parse_attributes fuel bytes t (c + 4 + l + (4 - l mod 4) mod 4) m') = Ok (Some a) -> unusable a = false)).
  { intros m' Hm'. destruct (_ <? _) eqn:Hx; [done|]. breflect.
    destruct (IH (c + 4 + l + (4 - l mod 4) mod 4) m') as [Hn Hu]; [clear -Hf Hc; generalize ((4 - l mod 4) mod 4); intros; lia|]. split; [done|]. intros Hm. apply Hu. by destruct Hm' as [?| ->]. }
  destruct (k =? XOR_MAPPED_ADDRESS); [|apply Hnext; by right].
  destruct m as [a0|]; [done|].
  pose proof (no_panic_slice (E:=P2pError) bytes (c + 4) (c + 4 + l) ltac:(lia) ltac:(lia)) as Hs.
  destruct (slice bytes _ _) as [v| |]; [|done..]. cbn [mbind outcome_bind].
  pose proof (decode_xor_no_panic v t) as Hd. destruct (decode_xor_address v t) as [a| |]; [|done..]. cbn [mbind outcome_bind].
  destruct (unusable a) eqn:Hu; [done|]. cbn [mbind outcome_bind]. apply Hnext. left. by intros ? [= <-].
Qed.
Lemma parse_response_spec q bytes : no_panic (parse_response q bytes) /\
  forall a, parse_response q bytes = Ok a -> unusable a = false.
Proof.
  unfold parse_response. destruct (_ && _) eqn:Hl; cbn [negb]; [|done]. breflect.
  pose proof (no_panic_be16_at (E:=P2pError) bytes 0 ltac:(lia)) as Hk0. destruct (be16_at bytes 0) as [k| |]; [|done..].
  cbn [mbind outcome_bind]. destruct (negb _); [done|].
  pose proof (no_panic_slice (E:=P2pError) bytes 4 8 ltac:(lia) ltac:(lia)) as Hs4. destruct (slice bytes 4 8) as [m| |]; [|done..].
  cbn [mbind outcome_bind]. destruct (negb _); [done|].
  pose proof (no_panic_slice (E:=P2pError) bytes 8 20 ltac:(lia) ltac:(lia)) as Hs8. destruct (slice bytes 8 20) as [t| |]; [|done..].
  cbn [mbind outcome_bind]. destruct (negb _); [done|].
  pose proof (no_panic_be16_at (E:=P2pError) bytes 2 ltac:(lia)) as Hd2. destruct (be16_at bytes 2) as [d| |]; [|done..].
  cbn [mbind outcome_bind]. destruct (_ || _); [done|].
  destruct (parse_attributes_spec (length bytes) bytes (transaction q) 20 None) as [Hn Hu]; [unfold lenN; lia|].
  destruct (parse_attributes _ _ _ _ _) as [[a|]| |]; [|done..]. cbn. split; [done|]. intros ? [= <-]. by apply Hu.
Qed.

(** ** The runtime *)

Section runtime_facts.
Context `{OsRng}.
(** A draw fills its buffer. *)
Hypothesis draws_fill : forall n len, length (fill_bytes n len) = len.

(** A transaction in flight: to one of the servers, under its own request. *)
Record issued (ss : list SocketAddr) (t : list byte) (p : Pending) : Prop := {
  is_len : lenN t = 12;
  is_request : probe_request (probe p) = request_bytes (from_transaction t);
  is_server : ss !! N.to_nat (server_index (probe p)) = Some (server (probe p));
  is_backoff : 250 <= backoff p <= 1000;
}.
Record runtime_wf (r : StunRuntime) : Prop := {
  rw_servers : lenN (servers r) <= MAX_SERVERS;
  rw_distinct : NoDup (servers r);
  rw_usable : Forall (fun e => unusable e = false) (servers r);
  rw_pending : N.of_nat (size (pending r)) <= if prediction_active r then 1 else 4;
  rw_issued : forall t p, pending r !! t = Some p -> issued (servers r) t p;
  rw_waiting : Forall (fun w => servers r !! N.to_nat w.1 = Some w.2) (waiting r);
  rw_waiting_len : lenN (waiting r) <= MAX_SERVERS;
  rw_observations : forall i e, observations r !! i = Some e -> i < MAX_SERVERS /\ unusable e = false;
  rw_predictions : lenN (current_predictions r) <= 5;
}.

Lemma dedup_cons (x y : SocketAddr) l : dedup (x :: y :: l) = if decide (x = y) then dedup (y :: l) else x :: dedup (y :: l).
Proof. done. Qed.
Lemma dedup_spec (l : list SocketAddr) : dedup l ⊆ l /\ (lenN (dedup l) <= lenN l) /\ (lenN (dedup l) = lenN l -> dedup l = l).
Proof.
  induction l as [|x [|y l] IH]; [done|done|]. rewrite dedup_cons. destruct IH as (Hs & Hl & He).
  case_decide as Hxy; rewrite !lenN_cons in *.
  - split_and!; [set_solver|lia|]. intros Heq. lia.
  - split_and!; [set_solver|lia|]. intros Heq. f_equal. apply He. lia.
Qed.
Lemma dedup_NoDup (l : list SocketAddr) : StronglySorted (key_le id) l -> dedup l = l -> NoDup l.
Proof.
  intros Hs. induction Hs as [|x l Hs IH Hall]; [constructor|]. destruct l as [|y l]; [by intros; apply NoDup_singleton|].
  rewrite dedup_cons. case_decide as Hxy.
  { intros He. destruct (dedup_spec (y :: l)) as (_ & Hl & _). rewrite He, !lenN_cons in Hl. lia. }
  intros [= He]. apply NoDup_cons. split; [|by apply IH]. intros Hin. apply elem_of_cons in Hin as [->|Hin]; [done|].
  apply Forall_cons in Hall as [Hxy' Hall]. apply StronglySorted_inv in Hs as [_ Hy].
  rewrite Forall_forall in Hy. specialize (Hy x Hin).
  apply Hxy. by apply leb_of_antisym.
Qed.

Lemma existsb_unusable (l : list SocketAddr) : existsb unusable l = false -> Forall (fun e => unusable e = false) l.
Proof. intros Hx. apply Forall_forall. intros e He. apply not_true_iff_false. intros Hu. rewrite <-not_true_iff_false in Hx. apply Hx, existsb_exists. exists e. split; [by apply list_elem_of_In|done]. Qed.
Lemma with_prediction_wf ss enabled r : with_prediction ss enabled = Ok r ->
  runtime_wf r /\ servers r ≡ₚ ss /\ pending r = ∅ /\ polled_at r = None.
Proof.
  unfold with_prediction. destruct (_ || _ || _) eqn:Hb; [done|]. breflect. destruct (negb _) eqn:Hd; [done|]. breflect. intros [= <-].
  pose proof (length_sort_by_key id ss) as Hlen.
  assert (Hs : dedup (sort_by_key id ss) = sort_by_key id ss).
  { apply dedup_spec. unfold lenN in *. lia. }
  rewrite Hs. split_and!; [|cbn; apply sort_by_key_perm|done|done].
  split; cbn; try done.
  - unfold lenN in *. lia.
  - apply dedup_NoDup; [apply sort_by_key_sorted|done].
  - rewrite sort_by_key_perm. by apply existsb_unusable.
Qed.

Lemma finish_prediction_wf now success r : runtime_wf r -> runtime_wf (finish_prediction now success r).
Proof. intros [Hs Hd Hu Hp Hi Hw Hl Ho Hc]. split; cbn; try done. destruct (prediction_active r); lia. Qed.
Lemma reset_network_wf r : runtime_wf r -> runtime_wf (reset_network r).
Proof. intros [Hs Hd Hu Hp Hi Hw Hl Ho Hc]. split; cbn; done. Qed.
Lemma set_polled_wf now r : runtime_wf r -> runtime_wf (set_polled now r).
Proof. intros [Hs Hd Hu Hp Hi Hw Hl Ho Hc]. split; cbn; done. Qed.
Lemma set_pending_wf ps r : runtime_wf r -> ps ⊆ pending r -> runtime_wf (set_pending ps r).
Proof.
  intros [Hs Hd Hu Hp Hi Hw Hl Ho Hc] Hsub. split; cbn; try done.
  - apply map_subseteq_size in Hsub. lia.
  - intros t p Ht. apply Hi. by eapply lookup_weaken.
Qed.
Lemma refresh_wf now r : runtime_wf r -> runtime_wf (refresh now r) /\ servers (refresh now r) = servers r /\
  polled_at (refresh now r) = polled_at r /\ pending (refresh now r) ⊆ pending r.
Proof.
  intros Hw. unfold refresh. set (b := match next_refresh r with Some next => next <=? now | None => true end). destruct b; [|done].
  destruct (match prediction (finish_prediction now false r) with
            | Some gate => let '(gate, active) := begin_round (now / 1000) gate in (Some gate, active) | None => (None, false) end) as [gate active].
  split_and!; [|done|done|apply map_empty_subseteq]. destruct Hw as [Hs Hd Hu Hp Hi Hw Hl Ho Hc]. split; cbn; try done.
  - by destruct active.
  - apply Forall_forall. intros w Hin. apply elem_of_lookup_imap in Hin as (i & e & -> & He). cbn. by rewrite Nat2N.id.
  - unfold lenN. rewrite length_imap. exact Hs.
Qed.
Lemma stun_expire_wf now r : runtime_wf r -> runtime_wf (expire now r) /\ servers (expire now r) = servers r /\
  polled_at (expire now r) = polled_at r /\ forall t p, pending (expire now r) !! t = Some p -> pending r !! t = Some p /\ now < deadline p.
Proof.
  intros Hw. unfold expire. set (r1 := set_pending _ r).
  assert (Hw1 : runtime_wf r1) by (apply set_pending_wf; [done|apply map_filter_subseteq]).
  assert (Hp : forall t p, pending r1 !! t = Some p -> pending r !! t = Some p /\ now < deadline p).
  { intros t p [Ht Hlt]%map_lookup_filter_Some. done. }
  destruct (existsb _ _); [split_and!; [by apply finish_prediction_wf|done..]|done].
Qed.
Lemma fill_spec ss now parallel w ps n ps' w' n' : fill now parallel w ps n = (ps', w', n') ->
  Forall (fun w => ss !! N.to_nat w.1 = Some w.2) w -> (forall t p, ps !! t = Some p -> issued ss t p) -> N.of_nat (size ps) <= parallel ->
  N.of_nat (size ps') <= parallel /\ (forall t p, ps' !! t = Some p -> issued ss t p) /\ w' `suffix_of` w /\
  forall t p, ps' !! t = Some p -> ps !! t = Some p \/ (retry p = now /\ deadline p = sat_add now TRANSACTION_MILLIS).
Proof.
  revert ps n. induction w as [|[i e] w IH]; cbn [fill]; intros ps n; [intros [= <- <- <-] _ Hi Hp; by split_and!; [..|auto]|].
  destruct (_ <? _) eqn:Hlt; [|intros [= <- <- <-] _ Hi Hp; by split_and!; [..|auto]].
  intros Hf [He Hw]%Forall_cons Hi Hp. breflect. cbn in He.
  destruct (IH _ _ Hf Hw) as (Hs & Hi' & Hsuf & Hnew).
  - intros t p [[<- <-]|[_ Ht]]%lookup_insert_Some; [|by apply Hi].
    split; cbn; [unfold lenN; by rewrite draws_fill|done|done|lia].
  - rewrite map_size_insert. destruct (ps !! _); cbn; unfold id; lia.
  - split_and!; [done|done|by apply suffix_cons_r|].
    intros t p [[[<- <-]|[_ Ht]]%lookup_insert_Some|?]%Hnew; auto.
Qed.

Lemma stun_poll_wf now r r' out : runtime_wf r -> poll now r = (r', out) ->
  runtime_wf r' /\ servers r' = servers r /\ polled_at r' = Some now /\ lenN (probes out) <= 4 /\ 1 <= next_poll_millis out /\
  (forall t q, pending r' !! t = Some q ->
     (exists q0, pending r !! t = Some q0 /\ probe q0 = probe q /\ deadline q0 = deadline q /\ now < deadline q) \/
     (probe q ∈ probes out /\ deadline q = sat_add now TRANSACTION_MILLIS)) /\
  (forall p, p ∈ probes out -> exists t q, pending r' !! t = Some q /\ probe q = p).
Proof.
  intros Hw. unfold poll. set (b := match polled_at r with Some previous => now <? previous | None => false end). set (r0 := if b then reset_network r else r).
  assert (Hr0 : runtime_wf r0 /\ servers r0 = servers r /\ pending r0 ⊆ pending r).
  { unfold r0. destruct b; [|done].
    split_and!; [by apply reset_network_wf|done|apply map_empty_subseteq]. }
  destruct Hr0 as (Hw0 & Hs0 & Hp0).
  destruct (refresh_wf now (set_polled now r0) (set_polled_wf now r0 Hw0)) as (Hw1 & Hs1 & Ht1 & Hp1).
  destruct (stun_expire_wf now _ Hw1) as (Hw2 & Hs2 & Ht2 & Hp2).
  set (r2 := expire now _) in *. set (parallel := if prediction_active r2 then 1 else 4).
  destruct (fill now parallel (waiting r2) (pending r2) (draws r2)) as [[ps w] n] eqn:Hf.
  destruct (fill_spec (servers r2) now parallel _ _ _ _ _ _ Hf (rw_waiting _ Hw2) (rw_issued _ Hw2) (rw_pending _ Hw2)) as (Hsz & Hi & Hsuf & Hnew).
  intros [= <- <-]. split_and!.
  - destruct Hw2 as [Hs Hd Hu Hp Hiss Hw2 Hl Ho Hc]. split; cbn; try done.
    + by rewrite map_size_fmap.
    + intros t q (q0 & <- & Hq0)%lookup_fmap_Some. destruct (Hi t q0 Hq0) as [H1 H2 H3 H4].
      unfold retransmit. destruct (_ <=? _); [|done]. split; cbn; [done..|lia].
    + destruct Hsuf as [k Hk]. rewrite Hk in Hw2. by apply Forall_app in Hw2 as [_ Hw2].
    + destruct Hsuf as [k Hk]. rewrite Hk, lenN_app in Hl. lia.
  - cbn. by rewrite Hs2, Hs1.
  - cbn. by rewrite Ht2, Ht1.
  - cbn. unfold lenN. rewrite length_fmap.
    assert (Hlen : N.of_nat (length (filter (fun e : list byte * Pending => retry e.2 <= now) (bt_entries ps))) <= N.of_nat (size ps)).
    { assert (He : length (bt_entries ps) = size ps) by (unfold bt_entries; by rewrite length_sort_by_key, length_map_to_list).
      rewrite <-He. set (P := fun e : list byte * Pending => retry e.2 <= now). pose proof (length_filter P (bt_entries ps)). lia. }
    unfold parallel in Hsz. destruct (prediction_active r2); lia.
  - cbn. lia.
  - intros t q (q0 & <- & Hq0)%lookup_fmap_Some.
    assert (Hr : probe (retransmit now q0) = probe q0 /\ deadline (retransmit now q0) = deadline q0) by (unfold retransmit; by destruct (_ <=? _)).
    destruct Hr as [-> ->]. destruct (Hnew t q0 Hq0) as [Hold|[Hret Hdl]].
    + left. destruct (Hp2 t q0 Hold) as [Ho Hlt]. exists q0. split_and!; [|done..]. eapply lookup_weaken; [|exact Hp0].
      eapply lookup_weaken; [exact Ho|exact Hp1].
    + right. split; [|done]. cbn. apply list_elem_of_fmap. exists (t, q0). split; [done|]. apply list_elem_of_filter.
      split; [cbn; lia|by apply elem_of_bt_entries].
  - intros p (e & -> & [_ He]%list_elem_of_filter)%list_elem_of_fmap. destruct e as [t q0]. apply elem_of_bt_entries in He.
    exists t, (retransmit now q0). cbn. rewrite lookup_fmap, He. split; [done|]. unfold retransmit. by destruct (_ <=? _).
Qed.

Lemma predicted_ports_spec l : lenN (predicted_ports l) <= 5 /\ Forall (fun p => 0 < p <= 65535) (predicted_ports l).
Proof.
  unfold predicted_ports. destruct (_ || _); [split; [done|constructor]|]. destruct (_ <$> _) as [|d ds]; [split; [done|constructor]|].
  destruct (_ || _); [split; [done|constructor]|]. destruct (last l) as [final|]; [|split; [done|constructor]].
  set (c := (_ + _)%Z). split.
  - assert (Hl : forall os : list Z, lenN (omap (fun offset => if (0 <? c + offset)%Z && (c + offset <=? 65535)%Z
                                            then Some (Z.to_N (c + offset)) else None) os) <= lenN os).
    { induction os as [|o os IH]; [done|]. csimpl. destruct (_ && _); rewrite ?lenN_cons; lia. }
    apply (Hl [-2; -1; 0; 1; 2]%Z).
  - apply Forall_forall. intros p (o & _ & Ho)%list_elem_of_omap. cbv zeta in Ho. destruct (_ && _) eqn:Hb; [|done]. injection Ho as <-.
    apply andb_true_iff in Hb as [Hb1%Z.ltb_lt Hb2%Z.leb_le]. lia.
Qed.
Lemma accept_wf source response now r r' res : runtime_wf r -> accept source response now r = (r', res) ->
  runtime_wf r' /\ res <> Panic /\ servers r' = servers r /\ polled_at r' = polled_at r /\ pending r' ⊆ pending r.
Proof.
  intros Hw. unfold accept. destruct (_ || _) eqn:Hb; [by intros [= <- <-]|]. breflect.
  unfold get_slice. rewrite (proj2 (N.leb_le 20 _)) by done. change (8 <=? 20) with true. cbn [andb].
  set (t := take _ _). destruct (pending r !! t) as [p|] eqn:Hp; [|by intros [= <- <-]].
  destruct (bool_decide _); cbn [negb]; [|by intros [= <- <-]].
  assert (Hdel : delete t (pending r) ⊆ pending r) by apply delete_subseteq.
  destruct (deadline p <=? now).
  { intros [= <- <-]. split_and!; [by apply finish_prediction_wf, set_pending_wf|done..]. }
  destruct (parse_response_spec (from_transaction t) response) as [Hn Hu].
  destruct (parse_response _ _) as [mapped| |]; [|by intros [= <- <-]|done].
  set (r1 := mkRuntime _ _ _ _ _ _ _ _ _ _).
  assert (Hw1 : runtime_wf r1).
  { destruct (set_pending_wf _ r Hw Hdel) as [Hs Hd Hus Hpn Hi Hwt Hl Ho Hc]. split; cbn in *; try done.
    intros i e [[<- <-]|[_ Hx]]%lookup_insert_Some; [|by apply Ho].
    split; [|by apply Hu]. destruct (rw_issued _ Hw t p Hp) as [_ _ His _]. apply lookup_lt_Some in His. unfold lenN in Hs. lia. }
  cbv zeta. change (prediction_active r1) with (prediction_active r). set (r2 := if prediction_active r then _ else r1).
  assert (Hr2 : runtime_wf r2 /\ servers r2 = servers r /\ polled_at r2 = polled_at r /\ pending r2 = delete t (pending r)).
  { unfold r2. destruct (prediction_active r); [|done]. pose proof (predicted_ports_spec (bt_entries (observations r1)).*2) as [Hl _].
    destruct (predicted_ports _) as [|port ports].
    - destruct (_ && _); [split_and!; [by apply finish_prediction_wf|done..]|done].
    - split_and!; [|done..]. apply finish_prediction_wf. destruct Hw1 as [Hs Hd Hus Hpn Hi Hwt Hln Ho Hc]. split; try done. cbn [current_predictions].
      unfold lenN in *. by rewrite length_fmap. }
  intros [= <- <-]. destruct Hr2 as (Hw2 & Hs2 & Ht2 & Hp2). split_and!; [done..|]. by rewrite Hp2.
Qed.

(** ** Sequences of operations *)

Inductive op := Poll (now : N) | Accept (source : SocketAddr) (response : list byte) (now : N) | ResetNetwork.
Inductive event := Polled (now : N) (out : StunPoll) | Accepted (source : SocketAddr) (response : list byte) (now : N) (answer : p2p_result StunMapping).
(** The history since the network was last reset. *)
Definition run_step (s : StunRuntime * list event) (o : op) : StunRuntime * list event :=
  match o with
  | Poll now => let '(r, out) := poll now s.1 in (r, s.2 ++ [Polled now out])
  | Accept source response now => let '(r, answer) := accept source response now s.1 in (r, s.2 ++ [Accepted source response now answer])
  | ResetNetwork => (reset_network s.1, [])
  end.
Definition run (ops : list op) (r : StunRuntime) : StunRuntime * list event := foldl run_step (r, []) ops.
Lemma stun_run_snoc ops o r : run (ops ++ [o]) r = run_step (run ops r) o.
Proof. unfold run. by rewrite foldl_app. Qed.

(** Every transaction in flight was sent by a poll, which set its deadline. *)
Definition sent (h : list event) (p : Pending) : Prop :=
  exists t0 out, Polled t0 out ∈ h /\ probe p ∈ probes out /\ deadline p = sat_add t0 TRANSACTION_MILLIS.
Lemma sent_later h h' p q : h ⊆ h' -> probe q = probe p -> deadline q = deadline p -> sent h p -> sent h' q.
Proof. intros Hs Hp Hd (t0 & out & Hin & Hpr & Hdl). exists t0, out. rewrite Hp, Hd. auto. Qed.
Lemma run_invariant ss enabled r0 ops : with_prediction ss enabled = Ok r0 ->
  let '(r, h) := run ops r0 in runtime_wf r /\ servers r = servers r0 /\ forall t p, pending r !! t = Some p -> sent h p.
Proof.
  intros (Hw0 & _ & Hp0 & _)%with_prediction_wf. induction ops as [|o ops IH] using rev_ind.
  { cbn. split_and!; [done..|]. by rewrite Hp0. }
  rewrite stun_run_snoc. destruct (run ops r0) as [r h]. destruct IH as (Hw & Hs & Hsent). destruct o as [now|source response now|]; cbn [run_step fst snd].
  - destruct (poll now r) as [r' out] eqn:Hp. destruct (stun_poll_wf now r r' out Hw Hp) as (Hw' & Hs' & _ & _ & _ & Hpend & _).
    split_and!; [done|congruence|]. intros t q [(q0 & Hq0 & Hpr & Hdl & _)|[Hpr Hdl]]%Hpend.
    + eapply (sent_later h); [set_solver|done|done|by eapply Hsent].
    + exists now, out. split_and!; [set_solver|done|done].
  - destruct (accept source response now r) as [r' answer] eqn:Ha. destruct (accept_wf _ _ _ _ _ _ Hw Ha) as (Hw' & _ & Hs' & _ & Hsub).
    split_and!; [done|congruence|]. intros t q Hq. eapply (sent_later h); [set_solver|done|done|]. eapply Hsent, lookup_weaken; [exact Hq|exact Hsub].
  - split_and!; [by apply reset_network_wf|done|]. intros t q Hq. cbn in Hq. by rewrite lookup_empty in Hq.
Qed.

(** ** Draws: which transaction belongs to which request *)

(** The transactions drawn so far differ; refresh draws its jitter from the same numbers. *)
Definition distinct (n : nat) : Prop := forall j k, (j < n)%nat -> (k < n)%nat -> fill_bytes j 12 = fill_bytes k 12 -> j = k.
Lemma distinct_less n m : (n <= m)%nat -> distinct m -> distinct n.
Proof. intros Hle Hd j k Hj Hk. apply Hd; lia. Qed.
Lemma random_request_inj j k : request_bytes (random_request j) = request_bytes (random_request k) -> fill_bytes j 12 = fill_bytes k 12.
Proof.
  intros He. pose proof (request_fields (fill_bytes j 12)) as [Hj _]. pose proof (request_fields (fill_bytes k 12)) as [Hk _].
  unfold random_request in He. rewrite He, Hk in Hj. by apply app_inv_head in Hj.
Qed.
Lemma fill_draws now parallel w ps n ps' w' n' : fill now parallel w ps n = (ps', w', n') -> (n <= n')%nat /\
  (forall t p, ps' !! t = Some p -> ps !! t = Some p \/
     exists k, (n <= k < n')%nat /\ t = fill_bytes k 12 /\ deadline p = sat_add now TRANSACTION_MILLIS) /\
  (forall t, (forall k, (n <= k < n')%nat -> t <> fill_bytes k 12) -> ps' !! t = ps !! t).
Proof.
  revert ps n. induction w as [|[i e] w IH]; cbn [fill]; intros ps n; [intros [= <- <- <-]; by split_and!; auto|].
  destruct (_ <? _); [|intros [= <- <- <-]; by split_and!; auto].
  intros (Hle & Hnew & Hkeep)%IH. split_and!; [lia| |].
  - intros t p [[[<- <-]|[_ Ht]]%lookup_insert_Some|(k & Hk & Ht)]%Hnew; [|by left|right; exists k; split; [lia|done]].
    right. exists n. split_and!; [lia|lia|done|done].
  - intros t Ht. rewrite Hkeep by (intros k Hk; apply Ht; lia). apply lookup_insert_ne. intros He. apply (Ht n); [lia|]. by rewrite <-He.
Qed.
Lemma refresh_draws now r : (draws r <= draws (refresh now r))%nat.
Proof.
  unfold refresh. destruct (match next_refresh r with Some next => next <=? now | None => true end); [|lia].
  destruct (match prediction (finish_prediction now false r) with
            | Some gate => let '(gate, active) := begin_round (now / 1000) gate in (Some gate, active) | None => (None, false) end) as [gate active]. cbn. lia.
Qed.
Lemma expire_draws now r : draws (expire now r) = draws r /\ next_refresh (expire now r) = next_refresh r /\
  pending (expire now r) = filter (fun e : list byte * Pending => now < deadline e.2) (pending r).
Proof. unfold expire. by destruct (existsb _ _). Qed.
Lemma poll_draws now r r' out : runtime_wf r -> poll now r = (r', out) -> (draws r <= draws r')%nat /\
  forall t q, pending r' !! t = Some q ->
    (exists q0, pending r !! t = Some q0 /\ probe q0 = probe q /\ deadline q0 = deadline q /\ forall prev, polled_at r = Some prev -> prev <= now) \/
    (exists k, (draws r <= k < draws r')%nat /\ t = fill_bytes k 12 /\ deadline q = sat_add now TRANSACTION_MILLIS).
Proof.
  intros Hw. unfold poll. set (b := match polled_at r with Some previous => now <? previous | None => false end).
  set (r0 := if b then reset_network r else r). set (r1 := refresh now (set_polled now r0)). set (r2 := expire now r1).
  assert (Hd : (draws r <= draws r2)%nat).
  { unfold r2. destruct (expire_draws now r1) as (-> & _). assert (Hr0 : draws r0 = draws r) by (unfold r0; by destruct b).
    rewrite <-Hr0. apply (refresh_draws now (set_polled now r0)). }
  destruct (fill _ _ _ _ _) as [[ps w] n] eqn:Hf. apply fill_draws in Hf as (Hn & Hnew & _).
  intros [= <- <-]. cbn. split; [lia|]. intros t q (q0 & <- & Hq0)%lookup_fmap_Some.
  assert (Hr : probe (retransmit now q0) = probe q0 /\ deadline (retransmit now q0) = deadline q0) by (unfold retransmit; by destruct (_ <=? _)).
  destruct Hr as [-> ->]. destruct (Hnew t q0 Hq0) as [Hold|(k & Hk & Ht & Hdl)]; [|right; exists k; split_and!; [lia|lia|done|done]].
  left. exists q0. destruct (expire_draws now r1) as (_ & _ & He). unfold r2 in Hold. rewrite He in Hold. apply map_lookup_filter_Some in Hold as [Hold _].
  assert (Hsub : pending r1 ⊆ pending r0).
  { assert (Hw0 : runtime_wf r0) by (unfold r0; destruct b; [by apply reset_network_wf|done]).
    by destruct (refresh_wf now (set_polled now r0) (set_polled_wf now r0 Hw0)) as (_ & _ & _ & Hs). }
  eapply lookup_weaken in Hold; [|exact Hsub]. unfold r0 in Hold. destruct b eqn:Hb; [cbn in Hold; by rewrite lookup_empty in Hold|].
  split_and!; [done|done|done|]. intros prev Hp. unfold b in Hb. rewrite Hp in Hb. by apply N.ltb_ge.
Qed.
Lemma accept_keeps source response now r : draws (accept source response now r).1 = draws r /\
  next_refresh (accept source response now r).1 = next_refresh r /\
  forall t, get_slice response 8 20 <> Some t -> pending (accept source response now r).1 !! t = pending r !! t.
Proof.
  unfold accept. destruct (_ || _); [done|]. destruct (get_slice response 8 20) as [t0|]; [|done].
  destruct (pending r !! t0) as [p|]; [|done]. destruct (negb _); [done|].
  assert (Hdel : forall t, Some t0 <> Some t -> delete t0 (pending r) !! t = pending r !! t).
  { intros t Ht. apply lookup_delete_ne. congruence. }
  destruct (_ <=? now); [split_and!; [done|done|exact Hdel]|]. destruct (parse_response _ _) as [mapped| |]; [|done..].
  destruct (prediction_active r); [|split_and!; [done|done|exact Hdel]]. cbv zeta.
  match goal with |- context [match ?l with [] => _ | _ :: _ => _ end] => destruct l as [|a l0] end;
    [destruct (_ && _)|]; (split_and!; [done|done|exact Hdel]).
Qed.

(** What the draws say about a history. *)
Record drawn (r : StunRuntime) (h : list event) : Prop := {
  dr_pending : forall t q, pending r !! t = Some q -> exists k, (k < draws r)%nat /\ t = fill_bytes k 12;
  dr_history : forall t1 out p, Polled t1 out ∈ h -> p ∈ probes out -> exists k, (k < draws r)%nat /\ probe_request p = request_bytes (random_request k);
  dr_polled : forall t q, pending r !! t = Some q -> exists prev, polled_at r = Some prev /\ deadline q <= sat_add prev TRANSACTION_MILLIS;
}.
(** A deadline is at most two seconds after every poll that sent the request. *)
Definition first_sent (r : StunRuntime) (h : list event) : Prop :=
  forall t q t1 out, pending r !! t = Some q -> Polled t1 out ∈ h -> probe q ∈ probes out -> deadline q <= sat_add t1 TRANSACTION_MILLIS.
Lemma poll_drawn now r r' out h : runtime_wf r -> drawn r h -> poll now r = (r', out) ->
  drawn r' (h ++ [Polled now out]) /\ (distinct (draws r') -> first_sent r h -> first_sent r' (h ++ [Polled now out])).
Proof.
  intros Hw [Hp Hh Hl] Hpoll. destruct (stun_poll_wf now r r' out Hw Hpoll) as (Hw' & _ & Ht & _ & _ & _ & Hsent).
  destruct (poll_draws now r r' out Hw Hpoll) as [Hd Hnew].
  assert (Hp' : forall t q, pending r' !! t = Some q -> exists k, (k < draws r')%nat /\ t = fill_bytes k 12).
  { intros t q Hq. destruct (Hnew t q Hq) as [(q0 & Hq0 & _)|(k & Hk & Hx & _)]; [|exists k; split; [lia|done]].
    destruct (Hp t q0 Hq0) as (k & Hk & Hx). exists k. split; [lia|done]. }
  assert (Hreq : forall t q k, pending r' !! t = Some q -> t = fill_bytes k 12 -> probe_request (probe q) = request_bytes (random_request k)).
  { intros t q k Hq ->. by rewrite (is_request _ _ _ (rw_issued _ Hw' _ _ Hq)). }
  split; [split|].
  - done.
  - intros t1 o p [Hin|[= -> ->]%list_elem_of_singleton]%elem_of_app Hpr.
    + destruct (Hh t1 o p Hin Hpr) as (k & Hk & Hx). exists k. split; [lia|done].
    + destruct (Hsent p Hpr) as (t & q & Hq & <-). destruct (Hp' t q Hq) as (k & Hk & Hx). exists k. split; [done|by apply (Hreq t q k)].
  - intros t q Hq. exists now. split; [done|]. destruct (Hnew t q Hq) as [(q0 & Hq0 & _ & <- & Hle)|(k & _ & _ & ->)]; [|done].
    destruct (Hl t q0 Hq0) as (prev & Hprev & Hdl). specialize (Hle prev Hprev). unfold sat_add in *. lia.
  - intros Hdist Hfirst t q t1 o Hq [Hin|[= -> ->]%list_elem_of_singleton]%elem_of_app Hpr.
    + destruct (Hnew t q Hq) as [(q0 & Hq0 & Hpr0 & <- & _)|(k & Hk & Hx & _)]; [apply (Hfirst t q0 t1 o); [done|done|by rewrite Hpr0]|].
      destruct (Hh t1 o (probe q) Hin Hpr) as (j & Hj & He). rewrite (Hreq t q k Hq Hx) in He. symmetry in He.
      apply random_request_inj, Hdist in He; lia.
    + destruct (Hnew t q Hq) as [(q0 & Hq0 & _ & <- & Hle)|(k & _ & _ & ->)]; [|done].
      destruct (Hl t q0 Hq0) as (prev & Hprev & Hdl). specialize (Hle prev Hprev). unfold sat_add in *. lia.
Qed.
Lemma run_drawn ss enabled r0 ops : with_prediction ss enabled = Ok r0 ->
  let '(r, h) := run ops r0 in drawn r h /\ (distinct (draws r) -> first_sent r h).
Proof.
  intros Hr0. destruct (with_prediction_wf _ _ _ Hr0) as (_ & _ & Hp0 & _). induction ops as [|o ops IH] using rev_ind.
  { cbn. assert (Hno : forall t q, pending r0 !! t <> Some q) by (intros t q; by rewrite Hp0, lookup_empty). split; [split|].
    - intros t q Hq. by destruct (Hno t q).
    - by intros ??? ?%not_elem_of_nil.
    - intros t q Hq. by destruct (Hno t q).
    - intros _ t q t1 out Hq. by destruct (Hno t q). }
  rewrite stun_run_snoc. pose proof (run_invariant ss enabled r0 ops Hr0) as Hinv. destruct (run ops r0) as [r h].
  destruct Hinv as (Hw & _). destruct IH as [Hd Hf]. destruct o as [now|source response now|]; cbn [run_step fst snd].
  - destruct (poll now r) as [r' out] eqn:Hp. destruct (poll_drawn now r r' out h Hw Hd Hp) as [Hd' Hf']. split; [done|].
    intros Hdist. apply Hf'; [done|]. apply Hf. eapply distinct_less; [|exact Hdist]. by destruct (poll_draws now r r' out Hw Hp).
  - destruct (accept_keeps source response now r) as (Hdr & _ & _). destruct (accept source response now r) as [r' answer] eqn:Ha.
    destruct (accept_wf _ _ _ _ _ _ Hw Ha) as (_ & _ & _ & Hpa & Hsub). cbn in Hdr. destruct Hd as [Hp Hh Hl].
    assert (Hold : forall t q, pending r' !! t = Some q -> pending r !! t = Some q) by (intros t q Hq; by eapply lookup_weaken).
    assert (Hev : forall t1 out, Polled t1 out ∈ h ++ [Accepted source response now answer] -> Polled t1 out ∈ h).
    { by intros t1 out [?|?%list_elem_of_singleton]%elem_of_app. }
    split; [split|]; rewrite ?Hdr, ?Hpa; eauto. intros Hdist t q t1 out Hq Hin. eapply Hf; eauto.
  - assert (Hno : forall t q, pending (reset_network r) !! t <> Some q) by (intros t q; cbn; by rewrite lookup_empty). split; [split|].
    + intros t q Hq. by destruct (Hno t q).
    + by intros ??? ?%not_elem_of_nil.
    + intros t q Hq. by destruct (Hno t q).
    + intros _ t q t1 out Hq. by destruct (Hno t q).
Qed.

(** C21: The schedule stays bounded whatever arrives: after any sequence of polls,
    responses and network changes, the runtime has at most eight distinct usable
    servers, at most four transactions in flight - one while it observes ports in
    order - each to one of its servers under its own request, at most eight
    observations, all usable addresses, and five predictions; no response makes it
    panic, and a poll emits at most four requests and asks to be called again no
    sooner than a millisecond later. *)
Theorem stun_bounded ss enabled r0 ops : with_prediction ss enabled = Ok r0 ->
  let r := (run ops r0).1 in
  runtime_wf r /\ servers r ≡ₚ ss /\
  (forall source response now, (accept source response now r).2 <> Panic) /\
  forall now, lenN (probes (poll now r).2) <= 4 /\ 1 <= next_poll_millis (poll now r).2.
Proof.
  intros Hr0. pose proof (run_invariant ss enabled r0 ops Hr0) as Hinv. destruct (run ops r0) as [r h]. cbn [fst].
  destruct Hinv as (Hw & Hs & _). destruct (with_prediction_wf _ _ _ Hr0) as (_ & Hss & _). split_and!; [done|by rewrite Hs| |].
  - intros source response now. destruct (accept source response now r) as [r' answer] eqn:Ha. by destruct (accept_wf _ _ _ _ _ _ Hw Ha) as (_ & Hn & _).
  - intros now. destruct (poll now r) as [r' out] eqn:Hp. by destruct (stun_poll_wf now r r' out Hw Hp) as (_ & _ & _ & Hl & Hn & _).
Qed.

(** C20: A public address is believed only when it was asked for. An accepted response
    carries the transaction of a request that a poll sent, since the network was last
    replaced, to exactly the server it came from; when the random transactions of the run
    differ, it arrived less than two seconds after every poll that sent the request, the
    first one included - a retransmission does not extend its life; it is well formed for
    the transaction, and its address is usable. The transaction is then closed: the same response is not accepted twice. *)
Theorem accepted_mapping_solicited ss enabled r0 ops source response now r' m :
  with_prediction ss enabled = Ok r0 -> accept source response now (run ops r0).1 = (r', Ok m) ->
  exists t0 out p t, Polled t0 out ∈ (run ops r0).2 /\ p ∈ probes out /\ server p = source /\ server_index p = m_server_index m /\
    servers (run ops r0).1 !! N.to_nat (server_index p) = Some source /\
    probe_request p = request_bytes (from_transaction t) /\ get_slice response 8 20 = Some t /\
    now < sat_add t0 TRANSACTION_MILLIS /\
    (distinct (draws (run ops r0).1) -> forall t1 out1, Polled t1 out1 ∈ (run ops r0).2 -> p ∈ probes out1 -> now < sat_add t1 2000) /\
    parse_response (from_transaction t) response = Ok (m_mapped m) /\ unusable (m_mapped m) = false /\
    pending r' !! t = None /\ (accept source response now r').2 <> Ok m.
Proof.
  intros Hr0. pose proof (run_invariant ss enabled r0 ops Hr0) as Hinv. pose proof (run_drawn ss enabled r0 ops Hr0) as Hdrawn.
  destruct (run ops r0) as [r h]. cbn [fst snd]. destruct Hdrawn as [_ Hfirst].
  destruct Hinv as (Hw & _ & Hsent). intros Hacc. pose proof Hacc as Hacc'. revert Hacc. unfold accept at 1.
  destruct (_ || _) eqn:Hb; [done|]. breflect. destruct (get_slice response 8 20) as [t|] eqn:Ht; [|done].
  destruct (pending r !! t) as [p|] eqn:Hp; [|done]. destruct (bool_decide _) eqn:Hsrc; cbn [negb]; [|done].
  apply bool_decide_eq_true in Hsrc. destruct (deadline p <=? now) eqn:Hdl; [done|]. breflect.
  destruct (parse_response_spec (from_transaction t) response) as [_ Hu].
  destruct (parse_response _ _) as [mapped| |] eqn:Hparse; [|done..]. cbv zeta. set (r1 := mkRuntime _ _ _ _ _ _ _ _ _ _).
  change (prediction_active r1) with (prediction_active r). set (r2 := if prediction_active r then _ else r1). intros [= Hr' <-].
  assert (Hgone : pending r' !! t = None).
  { rewrite <-Hr'. unfold r2. destruct (prediction_active r); [destruct (predicted_ports _); [destruct (_ && _)|]|]; cbn; apply lookup_delete_eq. }
  destruct (Hsent t p Hp) as (t0 & out & Hin & Hpr & Hd). destruct (rw_issued _ Hw t p Hp) as [_ Hreq Hsrv _].
  exists t0, out, (probe p), t. cbn [m_server_index m_mapped]. split_and!; try done; [congruence|lia| |by apply Hu|].
  { intros Hdist t1 out1 Hin1 Hp1. specialize (Hfirst Hdist t p t1 out1 Hp Hin1 Hp1). unfold TRANSACTION_MILLIS in Hfirst. lia. }
  unfold accept. destruct (_ || _); [done|]. rewrite Ht, Hgone. done.
Qed.

(** ** Until its answer a request stays in flight *)

(** What happens meanwhile: polls in order before [limit], and responses to other requests. *)
Fixpoint quiet (limit : N) (t : list byte) (last : N) (ops : list op) : Prop :=
  match ops with
  | Poll now :: rest => last <= now < limit /\ quiet limit t now rest
  | Accept _ response _ :: rest => get_slice response 8 20 <> Some t /\ quiet limit t last rest
  | ResetNetwork :: _ => False
  | [] => True
  end.
Fixpoint last_poll (last : N) (ops : list op) : N :=
  match ops with Poll now :: rest => last_poll now rest | _ :: rest => last_poll last rest | [] => last end.
Record in_flight (t : list byte) (p : StunProbe) (d next last : N) (r : StunRuntime) : Prop := {
  if_wf : runtime_wf r;
  if_pending : exists q, pending r !! t = Some q /\ probe q = p /\ deadline q = d;
  if_drawn : exists k, (k < draws r)%nat /\ t = fill_bytes k 12;
  if_next : next_refresh r = Some next;
  if_polled : polled_at r = Some last;
}.
Lemma poll_stays t p d next last now r : in_flight t p d next last r -> last <= now -> now < next -> now < d ->
  distinct (draws (poll now r).1) -> in_flight t p d next now (poll now r).1.
Proof.
  intros [Hw (q & Hq & Hpr & Hdl) (k & Hk & Ht) Hn Hp] Hl Hnx Hd Hdist. destruct (poll now r) as [r' out] eqn:Hpoll.
  destruct (stun_poll_wf now r r' out Hw Hpoll) as (Hw' & _ & Ht' & _). destruct (poll_draws now r r' out Hw Hpoll) as [Hdr _]. cbn [fst] in *.
  revert Hpoll. unfold poll. rewrite Hp, (proj2 (N.ltb_ge _ _)) by done.
  assert (Href : refresh now (set_polled now r) = set_polled now r) by (unfold refresh; cbn; by rewrite Hn, (proj2 (N.leb_gt _ _))).
  rewrite Href. set (r2 := expire now (set_polled now r)). destruct (expire_draws now (set_polled now r)) as (Hd2 & Hn2 & Hp2). fold r2 in Hd2, Hn2, Hp2.
  destruct (fill _ _ _ _ _) as [[ps w] n] eqn:Hf. apply fill_draws in Hf as (Hle & _ & Hkeep).
  intros [= Hr' <-]. subst r'. cbn in Hdist, Hdr. split; [done| |exists k; cbn; split; [lia|done]|cbn; by rewrite Hn2|done].
  exists (retransmit now q). cbn. rewrite lookup_fmap, Hkeep.
  - rewrite Hp2. cbn. rewrite (map_lookup_filter_Some_2 _ _ t q) by (done || (cbn; lia)).
    split; [done|]. unfold retransmit. by destruct (_ <=? _).
  - intros j Hj He. rewrite Ht in He. rewrite Hd2 in Hj. cbn in Hj. apply Hdist in He; lia.
Qed.
Lemma run_draws_mono r ops : runtime_wf r -> (draws r <= draws (run ops r).1)%nat /\ runtime_wf (run ops r).1.
Proof.
  intros Hw. induction ops as [|o ops [IH IHw]] using rev_ind; [by split; cbn; [lia|]|]. rewrite stun_run_snoc.
  destruct (run ops r) as [r1 h]. cbn [fst] in *. destruct o as [now|source response now|]; cbn [run_step fst snd].
  - destruct (poll now r1) as [r2 out] eqn:Hp. destruct (poll_draws now r1 r2 out IHw Hp) as [Hd _].
    destruct (stun_poll_wf now r1 r2 out IHw Hp) as (Hw2 & _). cbn. split; [lia|done].
  - destruct (accept_keeps source response now r1) as (Hd & _ & _). destruct (accept source response now r1) as [r2 a] eqn:Ha.
    destruct (accept_wf _ _ _ _ _ _ IHw Ha) as (Hw2 & _). cbn in *. split; [lia|done].
  - cbn. split; [lia|by apply reset_network_wf].
Qed.
Lemma run_cons o ops r h : (foldl run_step (run_step (r, h) o) ops).1 = (run ops (run_step (r, []) o).1).1.
Proof.
  assert (Hx : forall ops s s', s.1 = s'.1 -> (foldl run_step s ops).1 = (foldl run_step s' ops).1).
  { clear. induction ops as [|a ops IH]; intros [r h] [r' h'] Hs; [done|]. cbn in Hs. subst r'. cbn [foldl]. apply IH.
    destruct a; cbn [run_step fst snd]; [by destruct (poll now r)|by destruct (accept source response now r)|done]. }
  unfold run. apply Hx. destruct o; cbn [run_step fst snd]; [by destruct (poll now r)|by destruct (accept source response now r)|done].
Qed.
Lemma run_stays t p d next ops : forall last r, in_flight t p d next last r -> quiet (N.min next d) t last ops ->
  distinct (draws (run ops r).1) -> in_flight t p d next (last_poll last ops) (run ops r).1.
Proof.
  induction ops as [|o ops IH]; intros last r Hf Hq Hd; [done|]. unfold run in Hd |- *. cbn [foldl] in Hd |- *. rewrite run_cons in Hd |- *.
  destruct o as [now|source response now|]; cbn [quiet last_poll] in *; [| |done].
  - destruct Hq as [[Hl Hn] Hq]. cbn [run_step fst snd] in Hd |- *. pose proof (poll_stays t p d next last now r Hf Hl) as Hst.
    destruct (poll now r) as [r1 out] eqn:Hp. cbn [fst] in *. destruct (stun_poll_wf now r r1 out (if_wf _ _ _ _ _ _ Hf) Hp) as (Hw1 & _).
    apply IH; [|done|done]. apply Hst; [lia|lia|]. eapply distinct_less; [|exact Hd]. by apply run_draws_mono.
  - destruct Hq as [Hne Hq]. cbn [run_step fst snd] in Hd |- *. destruct (accept_keeps source response now r) as (Hdr & Hnr & Hpe).
    specialize (Hpe t Hne). destruct (accept source response now r) as [r1 a] eqn:Ha. cbn [fst] in *. apply IH; [|done|done].
    destruct Hf as [Hw Hqe Hk Hn Hpo]. destruct (accept_wf _ _ _ _ _ _ Hw Ha) as (Hw1 & _ & _ & Hp1 & _).
    split; [done|by rewrite Hpe|by rewrite Hdr|by rewrite Hnr|by rewrite Hp1].
Qed.
(** The server's answer to a request in flight, accepted. *)
Lemma answer_accepted t p d next last r e now : in_flight t p d next last r ->
  IpAddr_wf (socket_ip e) -> socket_port e < 2 ^ 16 -> unusable e = false ->
  unusable (socket_new (to_canonical (socket_ip e)) (socket_port e)) = false -> last <= now -> now < d ->
  exists b r2 predicted, stun_binding_response (probe_request p) e = Some b /\ lenN b <= 44 /\
    accept (server p) b now r = (r2, Ok (mkMapping (server_index p) (socket_new (to_canonical (socket_ip e)) (socket_port e)) predicted)).
Proof.
  intros [Hw (q & Hq & Hpr & Hdl) _ _ Hpolled] He Hport Hu Huc Hle Hlt. destruct (rw_issued _ Hw t q Hq) as [Ht Hreq Hsrv _]. rewrite Hpr in Hreq, Hsrv.
  set (a := to_canonical (socket_ip e)) in *. exists (binding_success a (socket_port e) t).
  pose proof (to_canonical_wf _ He) as Ha. pose proof (lenN_binding_success a (socket_port e) t Ht) as Hlen.
  assert (Hs8 : get_slice (binding_success a (socket_port e) t) 8 20 = Some t).
  { unfold get_slice. rewrite Hlen. rewrite (proj2 (N.leb_le 20 _)) by lia. change (8 <=? 20) with true. cbn [andb].
    f_equal. change (N.to_nat (20 - 8)) with 12%nat. change (N.to_nat 8) with 8%nat. unfold binding_success.
    rewrite <-!app_assoc, (app_assoc (to_be 2 _)), (app_assoc [x01; x01]). rewrite drop_app_length' by (by rewrite !length_app, !length_to_be).
    apply take_app_length'. unfold lenN in Ht. lia. }
  eexists _, _. split_and!; [rewrite Hreq; by apply server_answers|pose proof (mapped_size_cases a); lia|].
  unfold accept. rewrite Hlen, Hpolled, Hs8, Hq, Hpr, Hdl. rewrite (proj2 (N.leb_le 20 _)), (proj2 (N.leb_le _ 1024)) by (pose proof (mapped_size_cases a); lia).
  rewrite (proj2 (N.ltb_ge _ _)) by done. cbn [andb negb orb]. rewrite bool_decide_eq_true_2 by done. cbn [negb].
  rewrite (proj2 (N.leb_gt _ _)) by done. rewrite (parse_binding_success a (socket_port e) t) by done. cbv zeta. reflexivity.
Qed.
Lemma poll_next_refresh now r r' out : poll now r = (r', out) -> exists next, next_refresh r' = Some next.
Proof.
  unfold poll. set (r0 := if match polled_at r with Some previous => now <? previous | None => false end then reset_network r else r).
  destruct (fill _ _ _ _ _) as [[ps w] n]. intros [= <- _]. cbn. destruct (expire_draws now (refresh now (set_polled now r0))) as (_ & -> & _).
  unfold refresh. destruct (next_refresh (set_polled now r0)) as [next|] eqn:Hn.
  - destruct (next <=? now); [|by exists next].
    destruct (match prediction _ with Some gate => let '(gate, active) := begin_round (now / 1000) gate in (Some gate, active) | None => (None, false) end) as [gate active].
    by eexists.
  - destruct (match prediction _ with Some gate => let '(gate, active) := begin_round (now / 1000) gate in (Some gate, active) | None => (None, false) end) as [gate active].
    by eexists.
Qed.

(** A request that is answered in time is believed. Whatever a poll of a reachable
    runtime sends has the deadline of two seconds after a poll that sent it. It stays in
    flight, with that deadline, through any further polls, in order, before the deadline
    and before the next round of requests, and any responses to other requests, as long
    as the random transactions differ; when the server then answers it as
    [stun_binding_response] does, in at most 44 bytes, for a client it saw at a usable
    address, and the answer comes back before the deadline, the runtime accepts it and
    reports exactly that address, an IPv4-mapped one in its IPv4 form. *)
Theorem stun_observes ss enabled r0 ops now r1 out p : with_prediction ss enabled = Ok r0 ->
  poll now (run ops r0).1 = (r1, out) -> p ∈ probes out ->
  exists t d next t0 out0, Polled t0 out0 ∈ (run (ops ++ [Poll now]) r0).2 /\ p ∈ probes out0 /\ d = sat_add t0 TRANSACTION_MILLIS /\
    next_refresh r1 = Some next /\
    forall more, quiet (N.min next d) t now more -> distinct (draws (run more r1).1) ->
      (exists q, pending (run more r1).1 !! t = Some q /\ probe q = p /\ deadline q = d) /\
      forall e now', IpAddr_wf (socket_ip e) -> socket_port e < 2 ^ 16 -> unusable e = false ->
        unusable (socket_new (to_canonical (socket_ip e)) (socket_port e)) = false -> last_poll now more <= now' -> now' < d ->
        exists b r2 predicted, stun_binding_response (probe_request p) e = Some b /\ lenN b <= 44 /\
          accept (server p) b now' (run more r1).1 =
            (r2, Ok (mkMapping (server_index p) (socket_new (to_canonical (socket_ip e)) (socket_port e)) predicted)).
Proof.
  intros Hr0 Hpoll Hin. pose proof (run_invariant ss enabled r0 (ops ++ [Poll now]) Hr0) as Hinv.
  pose proof (run_drawn ss enabled r0 (ops ++ [Poll now]) Hr0) as Hdrawn. pose proof (run_invariant ss enabled r0 ops Hr0) as Hbefore.
  rewrite stun_run_snoc in *. destruct (run ops r0) as [r h]. cbn [run_step fst snd] in *. rewrite Hpoll in *.
  destruct Hinv as (Hw1 & _ & Hsent1). destruct Hdrawn as [[Hdp _ _] _]. destruct Hbefore as (Hw & _).
  destruct (stun_poll_wf now r r1 out Hw Hpoll) as (_ & _ & Hpolled & _ & _ & _ & Hsent).
  destruct (Hsent p Hin) as (t & q & Hq & Hpr). destruct (Hsent1 t q Hq) as (t0 & out0 & Hin0 & Hp0 & Hd0).
  destruct (poll_next_refresh now r r1 out Hpoll) as [next Hn]. rewrite Hpr in Hp0.
  exists t, (deadline q), next, t0, out0. split_and!; [done|done|done|done|]. intros more Hquiet Hdist.
  assert (Hf : in_flight t p (deadline q) next now r1) by (split; [done|by exists q|by apply (Hdp t q)|done|done]).
  pose proof (run_stays t p (deadline q) next more now r1 Hf Hquiet Hdist) as Hf'. split; [by destruct Hf'|].
  intros e now' He Hport Hu Huc Hle Hlt. by eapply answer_accepted.
Qed.
End runtime_facts.

(** ** The server's rate limits *)

(** The addresses that get an answer, in order. *)
Fixpoint serve (calls : list (IpAddr * N)) (s : StunLimits) : StunLimits * list IpAddr :=
  match calls with
  | (ip, now) :: rest =>
      let '(s, ok) := allow ip now s in
      let '(s, more) := serve rest s in
      (s, if ok then ip :: more else more)
  | [] => (s, [])
  end.
Record limits_wf (s : StunLimits) : Prop := {
  lw_total : total s <= MAX_PER_SECOND;
  lw_clients : N.of_nat (size (clients s)) <= MAX_CLIENTS;
  lw_client : forall c n, clients s !! c = Some n -> n <= MAX_PER_IP_SECOND;
}.
(** One client: one IPv4 address, in either form, or one IPv6 /64. *)
Definition same_client (a b : IpAddr) : Prop :=
  match to_canonical a, to_canonical b with
  | V4 x, V4 y => x = y
  | V6 x, V6 y => x / 2 ^ 64 = y / 2 ^ 64
  | _, _ => False
  end.
#[export] Instance same_client_dec a b : Decision (same_client a b).
Proof. unfold same_client. destruct (to_canonical a), (to_canonical b); apply _. Defined.
Lemma same_client_of a b : same_client a b -> client_of a = client_of b.
Proof.
  unfold same_client, client_of. destruct (to_canonical a) as [x|x], (to_canonical b) as [y|y]; try done; [by intros ->|].
  intros He. f_equal. apply N.bits_inj. intros i. rewrite !N.land_spec. destruct (N.lt_ge_cases i 64) as [Hi|Hi].
  - by rewrite N.shiftl_spec_low, !andb_false_r.
  - f_equal. rewrite <-(N.sub_add 64 i), <-!N.div_pow2_bits by lia. by rewrite He.
Qed.
(** Answers counted so far, for all clients and for one. *)
Definition answers_of (c : IpAddr) (l : list IpAddr) : N := lenN (filter (fun x => x = c) l).
Lemma answers_of_snoc c l x : answers_of c (l ++ [x]) = answers_of c l + if decide (x = c) then 1 else 0.
Proof. unfold answers_of. rewrite filter_app, lenN_app, filter_cons, filter_nil. by case_decide. Qed.

Lemma answers_of_client ip l : lenN (filter (same_client ip) l) <= answers_of (client_of ip) (client_of <$> l).
Proof.
  unfold answers_of. induction l as [|x l IH]; [done|]. rewrite fmap_cons, !filter_cons.
  destruct (decide (same_client ip x)) as [Hs|Hs]; [rewrite decide_True by (by rewrite (same_client_of _ _ Hs)); rewrite !lenN_cons; lia|].
  case_decide; rewrite ?lenN_cons; lia.
Qed.
(** Within a second after [t0] at most one new period begins: [fresh] says it did. *)
Definition fresh (t0 : N) (s : StunLimits) : N := if t0 <=? period s then 1 else 0.
Record counted (t0 : N) (s : StunLimits) (l : list IpAddr) : Prop := {
  ct_wf : limits_wf s;
  ct_total : lenN l <= fresh t0 s * MAX_PER_SECOND + total s;
  ct_client : forall c, answers_of c l <= fresh t0 s * MAX_PER_IP_SECOND + default 0 (clients s !! c);
}.
Lemma lookup_count s c : limits_wf s -> default 0 (clients s !! c) <= MAX_PER_IP_SECOND.
Proof. intros [_ _ Hc]. destruct (clients s !! c) as [n|] eqn:Hn; cbn; [by eapply Hc|unfold MAX_PER_IP_SECOND; lia]. Qed.
Lemma allow_counted t0 ip now s l s' ok : t0 <= now -> now < t0 + SECOND -> counted t0 s l -> allow ip now s = (s', ok) ->
  counted t0 s' (l ++ if ok then [client_of ip] else []).
Proof.
  intros Hlo Hhi [Hw Ht Hc]. unfold allow. set (s1 := if SECOND <=? now - period s then _ else s).
  assert (H1 : counted t0 s1 l).
  { unfold s1. destruct (SECOND <=? now - period s) eqn:Hp; [|done]. breflect. unfold fresh in *.
    rewrite (proj2 (N.leb_gt _ (period s))) in Ht, Hc by lia. split; cbn.
    - split; cbn; [unfold MAX_PER_SECOND; lia|rewrite map_size_empty; unfold MAX_CLIENTS; lia|done].
    - unfold fresh. cbn. rewrite (proj2 (N.leb_le _ _)) by done. pose proof (lw_total _ Hw). lia.
    - intros c. unfold fresh. cbn. rewrite (proj2 (N.leb_le _ _)) by done. rewrite lookup_empty. cbn.
      pose proof (Hc c). pose proof (lookup_count s c Hw). lia. }
  clearbody s1. clear Hw Ht Hc. destruct H1 as [Hw Ht Hc]. destruct (_ <=? _) eqn:Hf1; [intros [= <- <-]; rewrite app_nil_r; by split|].
  destruct (_ && _) eqn:Hf2; [intros [= <- <-]; rewrite app_nil_r; by split|]. set (c0 := client_of ip) in *.
  pose proof (lookup_count s1 c0 Hw) as Hcount. set (count := default 0 (clients s1 !! c0)) in *. breflect.
  assert (Hsize : N.of_nat (size (<[c0 := count]> (clients s1))) <= MAX_CLIENTS /\ N.of_nat (size (<[c0 := count + 1]> (clients s1))) <= MAX_CLIENTS).
  { pose proof (lw_clients _ Hw) as Hsz. rewrite !map_size_insert. destruct (clients s1 !! c0) eqn:Hx; cbn; unfold id; [lia|].
    destruct Hf2 as [Hf2|Hf2]; [|lia]. rewrite bool_decide_eq_false_2 in Hf2; [done|]. by intros [? ?]. }
  destruct (MAX_PER_IP_SECOND <=? count) eqn:Hf3; intros [= <- <-]; breflect.
  - rewrite app_nil_r. split.
    + split; cbn; [by destruct Hw|by destruct Hsize|]. intros c n [[<- <-]|[_ Hn]]%lookup_insert_Some; [done|by eapply lw_client].
    + exact Ht.
    + intros c. cbn. destruct (decide (c = c0)) as [->|Hn]; [rewrite lookup_insert_eq|rewrite lookup_insert_ne by done]; apply Hc.
  - split.
    + split; cbn; [lia|by destruct Hsize|]. intros c n [[<- <-]|[_ Hn]]%lookup_insert_Some; [lia|by eapply lw_client].
    + unfold fresh in *. cbn. rewrite lenN_app. change (lenN [c0]) with 1. lia.
    + intros c. unfold fresh in *. cbn. rewrite answers_of_snoc. pose proof (Hc c) as Hcc. case_decide as Hx.
      * subst c. rewrite lookup_insert_eq. cbn. fold count in Hcc. lia.
      * rewrite lookup_insert_ne by done. lia.
Qed.
Lemma serve_counted t0 calls s l : Forall (fun c => t0 <= c.2 < t0 + SECOND) calls -> counted t0 s l ->
  counted t0 (serve calls s).1 (l ++ (client_of <$> (serve calls s).2)).
Proof.
  intros Hf. revert s l. induction Hf as [|[ip now] calls [Hlo Hhi] _ IH]; intros s l Hc; cbn [serve]; [by rewrite app_nil_r|].
  destruct (allow ip now s) as [s1 ok] eqn:Ha. pose proof (allow_counted _ _ _ _ _ _ _ Hlo Hhi Hc Ha) as H1.
  specialize (IH _ _ H1). destruct (serve calls s1) as [s2 more]. cbn in *. destruct ok; cbn in *; by rewrite <-?app_assoc, ?app_nil_r in *.
Qed.
Lemma allow_wf ip now s : limits_wf s -> limits_wf (allow ip now s).1.
Proof.
  intros Hw. destruct (allow ip now s) as [s' ok] eqn:Ha.
  assert (Hc : counted now s []).
  { split; [done|rewrite lenN_nil; lia|]. intros c. change (answers_of c []) with 0. lia. }
  assert (Hhi : now < now + SECOND) by (unfold SECOND; lia). by destruct (allow_counted now ip now s [] s' ok (N.le_refl _) Hhi Hc Ha).
Qed.
Lemma serve_wf calls s : limits_wf s -> limits_wf (serve calls s).1.
Proof.
  revert s. induction calls as [|[ip now] calls IH]; intros s Hw; [done|]. cbn [serve]. pose proof (allow_wf ip now s Hw) as H1.
  destruct (allow ip now s) as [s1 ok]. specialize (IH s1 H1). by destruct (serve calls s1).
Qed.
Lemma limits_new_wf now : limits_wf (limits_new now).
Proof. split; cbn; [unfold MAX_PER_SECOND; lia|rewrite map_size_empty; unfold MAX_CLIENTS; lia|done]. Qed.

(** C23: The public server cannot be made to flood. Whatever it was asked before, of the
    requests it receives within any one second it answers at most two thousand, and at
    most twenty of one client - an IPv4 address, IPv4-mapped or not, or all of an IPv6
    /64 together - and it never remembers more than 4096 clients. An answer is at most 44 bytes for a request of 20. *)
Theorem stun_server_rate start before t0 calls : Forall (fun c => t0 <= c.2 < t0 + SECOND) calls ->
  let s := (serve before (limits_new start)).1 in
  lenN (serve calls s).2 <= 2000 /\ (forall ip, lenN (filter (same_client ip) (serve calls s).2) <= 20) /\
  N.of_nat (size (clients (serve calls s).1)) <= MAX_CLIENTS /\
  forall request e b, stun_binding_response request e = Some b -> lenN request = 20 /\ lenN b <= 44.
Proof.
  intros Hf s. pose proof (serve_wf before _ (limits_new_wf start)) as Hw. fold s in Hw.
  assert (Hc : counted t0 s []).
  { split; [done|rewrite lenN_nil; lia|]. intros c. change (answers_of c []) with 0. lia. }
  destruct (serve_counted t0 calls s [] Hf Hc) as [Hw' Ht Hcl]. cbn [app] in *.
  assert (Hfr : fresh t0 (serve calls s).1 <= 1) by (unfold fresh; destruct (_ <=? _); lia). split_and!.
  - pose proof (lw_total _ Hw'). unfold lenN in Ht. rewrite length_fmap in Ht. fold (lenN (serve calls s).2) in Ht. unfold MAX_PER_SECOND in *. nia.
  - intros ip. apply (N.le_trans _ (answers_of (client_of ip) (client_of <$> (serve calls s).2))); [apply answers_of_client|].
    pose proof (Hcl (client_of ip)). pose proof (lookup_count _ (client_of ip) Hw'). unfold MAX_PER_IP_SECOND in *. nia.
  - by destruct Hw'.
  - intros request e b. unfold stun_binding_response. destruct (_ || _ || _ || _) eqn:Hb; [done|]. breflect. intros <-%(inj Some).
    split; [done|]. assert (Hd : lenN (drop 4 request) = 16) by (change 4%nat with (N.to_nat 4); rewrite lenN_drop; lia).
    rewrite !lenN_app, !lenN_to_be, Hd. unfold lenN. cbn [length]. destruct (to_canonical (socket_ip e)); rewrite length_xor_bytes; unfold v4_octets, v6_octets; rewrite length_to_be; lia.
Qed.

(** ** One server, one client *)

#[local] Instance counting_rng : OsRng := {| fill_bytes n len := to_be len (N.of_nat n + 1) |}.
Lemma counting_fills n len : length (fill_bytes n len) = len.
Proof. apply length_to_be. Qed.
Definition example_server : SocketAddr := SockV4 0x7f000001 3478.
(** 203.0.113.1:54321, as an IPv4-mapped IPv6 address. *)
Definition example_client : SocketAddr := SockV6 (to_ipv6_mapped 0xcb007101) 54321 0 0.
Definition example_mapped : SocketAddr := SockV4 0xcb007101 54321.
Definition example_runtime : StunRuntime := mkRuntime [example_server] ∅ [] None None None false ∅ [] 0.
Definition example_request : StunRequest := from_transaction (to_be 12 2).
Definition example_probe : StunProbe := mkProbe 0 example_server (request_bytes example_request).
Definition example_response : list byte := default [] (stun_binding_response (request_bytes example_request) example_client).
Lemma stun_example_new : with_prediction [example_server] false = Ok example_runtime.
Proof. vm_compute. reflexivity. Qed.

Lemma stun_bounded_witness : runtime_wf (run [Poll 1000; Accept example_server example_response 1010] example_runtime).1 /\
  lenN (probes (poll 60000 (run [Poll 1000] example_runtime).1).2) <= 4.
Proof.
  split; [exact (proj1 (stun_bounded counting_fills _ _ _ [Poll 1000; Accept example_server example_response 1010] stun_example_new))|].
  destruct (stun_bounded counting_fills _ _ _ [Poll 1000] stun_example_new) as (_ & _ & _ & Hp). exact (proj1 (Hp 60000)).
Defined.
Definition example_accept : StunRuntime * p2p_result StunMapping := accept example_server example_response 1010 (run [Poll 1000] example_runtime).1.
Lemma example_accepted : example_accept.2 = Ok (mkMapping 0 example_mapped []).
Proof. vm_compute. reflexivity. Qed.
Lemma counting_distinct n : N.of_nat n < 2 ^ 96 -> distinct n.
Proof.
  intros Hn j k Hj Hk He. cbn in He. assert (Hb : N.of_nat j + 1 = N.of_nat k + 1); [|lia].
  apply (to_be_inj 12); [change (256 ^ N.of_nat 12) with (2 ^ 96); lia..|exact He].
Qed.
Lemma accepted_mapping_solicited_witness :
  exists t0 out, Polled t0 out ∈ (run [Poll 1000; Poll 1400] example_runtime).2 /\ 1410 < sat_add t0 TRANSACTION_MILLIS /\
    (exists p, forall t1 out1, Polled t1 out1 ∈ (run [Poll 1000; Poll 1400] example_runtime).2 -> p ∈ probes out1 -> 1410 < sat_add t1 2000) /\
    (accept example_server example_response 1410 (accept example_server example_response 1410 (run [Poll 1000; Poll 1400] example_runtime).1).1).2
      <> Ok (mkMapping 0 example_mapped []).
Proof.
  assert (Ha : (accept example_server example_response 1410 (run [Poll 1000; Poll 1400] example_runtime).1).2 = Ok (mkMapping 0 example_mapped []))
    by (vm_compute; reflexivity).
  destruct (accepted_mapping_solicited counting_fills _ _ _ [Poll 1000; Poll 1400] example_server example_response 1410 _
    (mkMapping 0 example_mapped []) stun_example_new (pair_snd _ _ Ha))
    as (t0 & out & p & t & Hin & _ & _ & _ & _ & _ & _ & Hlt & Hfirst & _ & _ & _ & Hno).
  exists t0, out. split; [exact Hin|]. split; [exact Hlt|]. split; [|exact Hno].
  exists p. apply Hfirst. apply counting_distinct. vm_compute. reflexivity.
Defined.
Definition example_sent : StunRuntime := (poll 1000 (run [] example_runtime).1).1.
Lemma example_in_flight : Forall (fun e => deadline e.2 = 3000) (bt_entries (pending example_sent)) /\ next_refresh example_sent = Some 55000.
Proof. vm_compute. split; [repeat constructor|reflexivity]. Qed.
Lemma stun_observes_witness : exists b r2 predicted,
  stun_binding_response (probe_request example_probe) example_client = Some b /\ lenN b <= 44 /\
  accept example_server b 2999 (run [Poll 2000; Accept example_server [] 2001; Poll 2500] example_sent).1 = (r2, Ok (mkMapping 0 example_mapped predicted)).
Proof.
  assert (Hp : probes (poll 1000 (run [] example_runtime).1).2 = [example_probe]) by (vm_compute; reflexivity).
  assert (Hin : example_probe ∈ probes (poll 1000 (run [] example_runtime).1).2) by (rewrite Hp; by left).
  destruct (stun_observes counting_fills _ _ _ [] 1000 example_sent (poll 1000 (run [] example_runtime).1).2
    example_probe stun_example_new (surjective_pairing _) Hin) as (t & d & next & t0 & out0 & _ & _ & _ & Hnext & Hans).
  destruct example_in_flight as [Hd Hn]. rewrite Hn in Hnext. injection Hnext as <-.
  assert (Hdq : d = 3000).
  { destruct (Hans [] I) as [(q & Hq & _ & Hdl) _]; [apply counting_distinct; vm_compute; reflexivity|].
    rewrite Forall_forall in Hd. rewrite <-Hdl. apply (Hd (t, q)). by apply elem_of_bt_entries. }
  subst d. destruct (Hans [Poll 2000; Accept example_server [] 2001; Poll 2500]) as [_ Hacc].
  - cbn. split; [split; [discriminate|reflexivity]|]. split; [discriminate|]. split; [split; [discriminate|reflexivity]|exact I].
  - apply counting_distinct. vm_compute. reflexivity.
  - apply (Hacc example_client 2999); try (vm_compute; reflexivity); vm_compute; discriminate.
Defined.
Lemma stun_server_rate_witness :
  lenN (serve (replicate 50 (V4 0xcb007101, 5 * SECOND)) (serve [] (limits_new 0)).1).2 <= 2000 /\
  lenN (filter (same_client (V6 (to_ipv6_mapped 0xcb007101))) (serve (replicate 50 (V4 0xcb007101, 5 * SECOND)) (serve [] (limits_new 0)).1).2) <= 20.
Proof.
  destruct (stun_server_rate 0 [] (5 * SECOND) (replicate 50 (V4 0xcb007101, 5 * SECOND))) as (Ht & Hc & _).
  - apply Forall_replicate. cbn. unfold SECOND. split; [reflexivity|reflexivity].
  - exact (conj Ht (Hc (V6 (to_ipv6_mapped 0xcb007101)))).
Defined.

End St.
