(* ===== verification/PortMapping.v ===== *)
(** * Mappings of the local gateway (crate [peerward-p2p]: mapping.rs, mapping_codec.rs,
    mapping_upnp.rs)

    A Peer asks its gateway for a public UDP port by PCP, then NAT-PMP, then UPnP, renews
    the lease and deletes it. The exchange of datagrams - a platform's transport or a
    socket - and the UPnP client (igd_next) are not part of the model: [Gateway] has
    the calls, which take the state of the network and return the next one. *)

From S2P Require Import Prelude Net Stun.
From Stdlib Require Import NArith Lia.
From stdpp Require Import base tactics decidable countable numbers list.
From Stdlib.Init Require Import Byte.
Set Default Goal Selector "!".
Local Open Scope N_scope.

(** A call under [tokio::time::timeout]. *)
Inductive timed (A : Type) := Elapsed | Failed | Answered (a : A).
Arguments Elapsed {A}.
Arguments Failed {A}.
Arguments Answered {A} a.
Class Gateway := {
  network : Type;
  igd : Type;
  (** One datagram to [server] from a socket bound to the address, and its answer. *)
  mapping_exchange : SocketAddr -> IpAddr -> list byte -> network -> network * p2p_result (list byte);
  search_gateway : IpAddr -> network -> network * option igd;
  igd_ip : igd -> IpAddr;
  get_any_address : igd -> SocketAddr -> N -> network -> network * timed SocketAddr;
  add_port : igd -> N -> SocketAddr -> N -> network -> network * timed unit;
  remove_port : igd -> N -> network -> network * timed unit;
  get_external_ip : igd -> network -> network * timed IpAddr;
}.

Module Mp.

Definition MAPPING_PORT : N := 5351.
Definition PCP_VERSION : N := 2.
Definition PCP_MAP_OPCODE : N := 1.
Definition UDP_PROTOCOL : N := 17.
Definition NAT_PMP_VERSION : N := 0.
Definition NAT_PMP_PUBLIC_ADDRESS : N := 0.
Definition NAT_PMP_UDP_MAPPING : N := 1.

Inductive MappingProtocol := Pcp | NatPmp | Upnp.
#[export] Instance MappingProtocol_eq_dec : EqDecision MappingProtocol.
Proof. solve_decision. Defined.
Record MappingLease := mkLease {
  protocol : MappingProtocol;
  external : SocketAddr;
  internal : SocketAddr;
  lifetime_seconds : N;
  epoch : option N;
  nonce : option (list byte);
}.
#[export] Instance MappingLease_eq_dec : EqDecision MappingLease.
Proof. solve_decision. Defined.
Definition independently_deletable (self replacement : MappingLease) : bool :=
  match protocol self with
  | Upnp => negb (socket_port (external self) =? socket_port (external replacement))
  | Pcp | NatPmp => negb (bool_decide (internal self = internal replacement))
  end.
(** In seconds. *)
Definition renew_after (self : MappingLease) : N := N.max (lifetime_seconds self) 2 / 2.

(** ** The messages *)

Definition ipv6_bytes (a : IpAddr) : list byte :=
  match a with V4 n => to_be 16 (to_ipv6_mapped n) | V6 n => to_be 16 n end.
Definition decode_ip (bytes : list byte) : p2p_result IpAddr :=
  if negb (lenN bytes =? 16) then Err Mapping else
  let n := from_be bytes in Ok (match to_ipv4_mapped n with Some v4 => V4 v4 | None => V6 n end).
Definition encode_pcp_map (int : SocketAddr) (lifetime : N) (nonce : list byte) : list byte :=
  [byte_of PCP_VERSION; byte_of PCP_MAP_OPCODE; x00; x00] ++ to_be 4 lifetime ++ ipv6_bytes (socket_ip int) ++ nonce
  ++ [byte_of UDP_PROTOCOL; x00; x00; x00] ++ to_be 2 (socket_port int) ++ to_be 2 (socket_port int) ++ replicate 16 x00.
Definition all_zero (l : list byte) : bool := forallb (fun b => u8 b =? 0) l.
Definition decode_pcp_map (r : list byte) (int : SocketAddr) (nonce : list byte) (deleting : bool) : p2p_result MappingLease :=
  if negb (lenN r =? 60) then Err Mapping else
  head ← slice r 0 4;
  reserved ← slice r 12 24;
  echoed ← slice r 24 36;
  proto ← slice r 36 40;
  int_port ← be16_at r 40;
  if negb (bool_decide (head = [byte_of PCP_VERSION; byte_of (N.lor 0x80 PCP_MAP_OPCODE); x00; x00]))
     || negb (all_zero reserved) || negb (bool_decide (echoed = nonce))
     || negb (bool_decide (proto = [byte_of UDP_PROTOCOL; x00; x00; x00])) || negb (int_port =? socket_port int)
  then Err Mapping else
  lifetime ← from_be <$> slice r 4 8;
  if (lifetime =? 0) && negb deleting then Err Mapping else
  epoch ← from_be <$> slice r 8 12;
  port ← be16_at r 42;
  octets ← slice r 44 60;
  address ← decode_ip octets;
  if negb deleting && ((port =? 0) || is_unspecified address || is_multicast address) then Err Mapping else
  Ok (mkLease Pcp (if deleting then int else socket_new address port) int lifetime (Some epoch) (Some nonce)).

Definition decode_nat_pmp_public_address (r : list byte) : p2p_result (N * N) :=
  if negb (lenN r =? 12) then Err Mapping else
  head ← slice r 0 4;
  if negb (bool_decide (head = [byte_of NAT_PMP_VERSION; byte_of (128 + NAT_PMP_PUBLIC_ADDRESS); x00; x00])) then Err Mapping else
  epoch ← from_be <$> slice r 4 8;
  ip ← from_be <$> slice r 8 12;
  if is_unspecified (V4 ip) || is_multicast (V4 ip) then Err Mapping else Ok (ip, epoch).
Definition decode_nat_pmp_map (r : list byte) (int : SocketAddr) (external_ip : N) (deleting : bool) : p2p_result MappingLease :=
  if negb (lenN r =? 16) then Err Mapping else
  head ← slice r 0 4;
  int_port ← be16_at r 8;
  if negb (bool_decide (head = [byte_of NAT_PMP_VERSION; byte_of (128 + NAT_PMP_UDP_MAPPING); x00; x00]))
     || negb (int_port =? socket_port int)
  then Err Mapping else
  epoch ← from_be <$> slice r 4 8;
  port ← be16_at r 10;
  lifetime ← from_be <$> slice r 12 16;
  if negb deleting && ((port =? 0) || (lifetime =? 0) || is_unspecified (V4 external_ip) || is_multicast (V4 external_ip))
  then Err Mapping else
  Ok (mkLease NatPmp (if deleting then int else socket_new (V4 external_ip) port) int lifetime (Some epoch) None).

(** ** mapping_codec.rs *)

Record PcpMappingRequest := mkPcp { pcp_internal : SocketAddr; pcp_lifetime : N; pcp_nonce : list byte; pcp_bytes : list byte }.
Definition pcp_new `{OsRng} (draw : nat) (int : SocketAddr) (lifetime : N) (nonce : option (list byte)) : p2p_result PcpMappingRequest :=
  if (socket_port int =? 0) || is_unspecified (socket_ip int) then Err Mapping else
  let nonce := default (replicate 12 x00) nonce in
  let nonce := if all_zero nonce then fill_bytes draw 12 else nonce in
  Ok (mkPcp int lifetime nonce (encode_pcp_map int lifetime nonce)).
Definition suggest_external (ext : SocketAddr) (self : PcpMappingRequest) : PcpMappingRequest :=
  if negb (pcp_lifetime self =? 0)
  then mkPcp (pcp_internal self) (pcp_lifetime self) (pcp_nonce self)
         (take 42 (pcp_bytes self) ++ to_be 2 (socket_port ext) ++ ipv6_bytes (socket_ip ext))
  else self.
Definition pcp_accept (response : list byte) (self : PcpMappingRequest) : p2p_result MappingLease :=
  decode_pcp_map response (pcp_internal self) (pcp_nonce self) (pcp_lifetime self =? 0).

Record NatPmpMappingRequest := mkNatPmp { np_internal : SocketAddr; np_lifetime : N; np_bytes : list byte }.
Definition nat_pmp_new (int : SocketAddr) (lifetime : N) : p2p_result NatPmpMappingRequest :=
  if negb (socket_is_ipv4 int) || (socket_port int =? 0) || is_unspecified (socket_ip int) then Err Mapping else
  Ok (mkNatPmp int lifetime
        ([x00; byte_of NAT_PMP_UDP_MAPPING; x00; x00] ++ to_be 2 (socket_port int)
         ++ to_be 2 (if negb (lifetime =? 0) then socket_port int else 0) ++ to_be 4 lifetime)).
Definition suggest_external_port (port : N) (self : NatPmpMappingRequest) : NatPmpMappingRequest :=
  if negb (np_lifetime self =? 0)
  then mkNatPmp (np_internal self) (np_lifetime self) (take 6 (np_bytes self) ++ to_be 2 port ++ drop 8 (np_bytes self))
  else self.
Definition nat_pmp_accept (response : list byte) (external_ip : N) (self : NatPmpMappingRequest) : p2p_result MappingLease :=
  decode_nat_pmp_map response (np_internal self) external_ip (np_lifetime self =? 0).
Definition NAT_PMP_PUBLIC_ADDRESS_REQUEST : list byte := [byte_of NAT_PMP_VERSION; byte_of NAT_PMP_PUBLIC_ADDRESS].
Definition accept_nat_pmp_public_address (response : list byte) : p2p_result (N * N) := decode_nat_pmp_public_address response.

(** [gateway_epoch_restarted]: serial-number arithmetic on [u32]. *)
Definition gateway_epoch_restarted (previous current : option N) : bool :=
  match previous, current with
  | Some p, Some c => 0x7fff_ffff <? (c + 2 ^ 32 - p) mod 2 ^ 32
  | _, _ => false
  end.

Section exchanges.
Context `{OsRng} `{Gateway}.
Notation io A := (network -> network * p2p_result A).

(** ** mapping.rs: the exchanges. [draw] is the number of the call of the random generator. *)

Definition pcp_map_at (draw : nat) (server int : SocketAddr) (lifetime : N) (nonce : option (list byte)) (suggested : option SocketAddr)
    : io MappingLease := fun w =>
  match pcp_new draw int lifetime nonce with
  | Ok request =>
      let request := match suggested with Some s => suggest_external s request | None => request end in
      let '(w, answer) := mapping_exchange server (socket_ip int) (pcp_bytes request) w in
      (w, response ← answer; pcp_accept response request)
  | Err e => (w, Err e)
  | Panic => (w, Panic)
  end.
Definition pcp_map (draw : nat) (gateway : IpAddr) (int : SocketAddr) (lifetime : N) (nonce : option (list byte)) (suggested : option SocketAddr)
    : io MappingLease := pcp_map_at draw (socket_new gateway MAPPING_PORT) int lifetime nonce suggested.
Definition nat_pmp_map_at (server int : SocketAddr) (lifetime : N) (suggested : option N) : io MappingLease := fun w =>
  if negb (socket_is_ipv4 server) || negb (socket_is_ipv4 int) then (w, Err Mapping) else
  let '(w, answer) := mapping_exchange server (socket_ip int) NAT_PMP_PUBLIC_ADDRESS_REQUEST w in
  match response ← answer; decode_nat_pmp_public_address response with
  | Ok (external_ip, _) =>
      match nat_pmp_new int lifetime with
      | Ok request =>
          let request := suggest_external_port (default (socket_port int) suggested) request in
          let '(w, answer) := mapping_exchange server (socket_ip int) (np_bytes request) w in
          (w, response ← answer; nat_pmp_accept response external_ip request)
      | Err e => (w, Err e)
      | Panic => (w, Panic)
      end
  | Err e => (w, Err e)
  | Panic => (w, Panic)
  end.
Definition nat_pmp_map (gateway : N) (int : SocketAddr) (lifetime : N) (suggested : option N) : io MappingLease :=
  nat_pmp_map_at (socket_new (V4 gateway) MAPPING_PORT) int lifetime suggested.

(** [timeout(..).await.map_err(Timeout)?.map_err(Mapping)] *)
Definition settled {A} (r : timed A) : p2p_result A :=
  match r with Elapsed => Err Timeout | Failed => Err Mapping | Answered a => Ok a end.
(** [search_gateway(upnp_options(internal, timeout))], refused unless it is the gateway expected. *)
Definition expected_igd (gateway : IpAddr) (int : SocketAddr) : io igd := fun w =>
  let '(w, found) := search_gateway (socket_ip int) w in
  match found with
  | Some g => if bool_decide (igd_ip g = gateway) then (w, Ok g) else (w, Err Mapping)
  | None => (w, Err Mapping)
  end.
Definition upnp_map (gateway : IpAddr) (int : SocketAddr) (lifetime : N) : io MappingLease := fun w =>
  match expected_igd gateway int w with
  | (w, Ok g) =>
      let '(w, r) := get_any_address g int lifetime w in
      (w, ext ← settled r; Ok (mkLease Upnp ext int lifetime None None))
  | (w, Err e) => (w, Err e)
  | (w, Panic) => (w, Panic)
  end.

Definition discover_port_mapping_with_transport (draw : nat) (gateway : IpAddr) (int : SocketAddr) (lifetime : N) : io MappingLease := fun w =>
  if (socket_port int =? 0) || is_unspecified (socket_ip int) || (lifetime =? 0) then (w, Err Mapping) else
  let '(w, r) := pcp_map draw gateway int lifetime None None w in
  match r with
  | Ok lease => (w, Ok lease)
  | Panic => (w, Panic)
  | Err _ =>
      match gateway, socket_ip int with
      | V4 g, V4 _ =>
          let '(w, r) := nat_pmp_map g int lifetime None w in
          match r with Ok lease => (w, Ok lease) | Panic => (w, Panic) | Err _ => upnp_map gateway int lifetime w end
      | _, _ => upnp_map gateway int lifetime w
      end
  end.
Definition delete_port_mapping_with_transport (draw : nat) (gateway : IpAddr) (lease : MappingLease) : io unit := fun w =>
  match protocol lease with
  | Pcp => let '(w, r) := pcp_map draw gateway (internal lease) 0 (nonce lease) None w in (w, const tt <$> r)
  | NatPmp =>
      match gateway with
      | V4 g => let '(w, r) := nat_pmp_map g (internal lease) 0 None w in (w, const tt <$> r)
      | V6 _ => (w, Err Mapping)
      end
  | Upnp =>
      match expected_igd gateway (internal lease) w with
      | (w, Ok g) => let '(w, r) := remove_port g (socket_port (external lease)) w in (w, settled r)
      | (w, Err e) => (w, Err e)
      | (w, Panic) => (w, Panic)
      end
  end.
Definition set_ip (a : IpAddr) (e : SocketAddr) : SocketAddr :=
  match a, e with
  | V6 ip, SockV6 _ port fl sc => SockV6 ip port fl sc
  | _, _ => socket_new a (socket_port e)
  end.
Definition renew_port_mapping_with_transport (draw : nat) (gateway : IpAddr) (lease : MappingLease) : io MappingLease := fun w =>
  let '(w, renewed) :=
    match protocol lease with
    | Pcp => pcp_map draw gateway (internal lease) (lifetime_seconds lease) (nonce lease) (Some (external lease)) w
    | NatPmp =>
        match gateway with
        | V4 g => nat_pmp_map g (internal lease) (lifetime_seconds lease) (Some (socket_port (external lease))) w
        | V6 _ => (w, Err Mapping)
        end
    | Upnp =>
        match expected_igd gateway (internal lease) w with
        | (w, Ok g) =>
            let '(w, added) := add_port g (socket_port (external lease)) (internal lease) (lifetime_seconds lease) w in
            match settled added with
            | Ok _ =>
                let '(w, ip) := get_external_ip g w in
                (w, ip ← settled ip; Ok (mkLease Upnp (set_ip ip (external lease)) (internal lease) (lifetime_seconds lease)
                                           (epoch lease) (nonce lease)))
            | Err e => (w, Err e)
            | Panic => (w, Panic)
            end
        | (w, Err e) => (w, Err e)
        | (w, Panic) => (w, Panic)
        end
    end in
  (w, renewed ← renewed;
      if gateway_epoch_restarted (epoch lease) (epoch renewed) then Err GatewayRestarted else Ok renewed).
End exchanges.

(** ** The codec is exact *)

Definition usable (e : SocketAddr) : bool := negb (socket_port e =? 0) && negb (is_unspecified (socket_ip e)) && negb (is_multicast (socket_ip e)).
(** The answer of a PCP gateway that grants a mapping. *)
Definition pcp_success (int_port lifetime epoch : N) (nonce : list byte) (a : IpAddr) (port : N) : list byte :=
  [x02; x81; x00; x00] ++ to_be 4 lifetime ++ to_be 4 epoch ++ replicate 12 x00 ++ nonce ++ [x11; x00; x00; x00]
  ++ to_be 2 int_port ++ to_be 2 port ++ ipv6_bytes a.
Definition canonical (a : IpAddr) : Prop := IpAddr_wf a /\ to_canonical a = a.

Lemma length_ipv6_bytes a : length (ipv6_bytes a) = 16%nat.
Proof. destruct a; apply length_to_be. Qed.
Lemma mapped_inverse n : n < 2 ^ 32 -> to_ipv4_mapped (to_ipv6_mapped n) = Some n.
Proof.
  intros Hn. unfold to_ipv4_mapped, to_ipv6_mapped. rewrite N.div_add_l, N.div_small by lia.
  by rewrite (N.add_comm (0xffff * 2 ^ 32) n), N.Div0.mod_add, N.mod_small by lia.
Qed.
Lemma mapped_back n v : to_ipv4_mapped n = Some v -> to_ipv6_mapped v = n /\ v < 2 ^ 32.
Proof.
  unfold to_ipv4_mapped, to_ipv6_mapped. destruct (_ =? _) eqn:Hq; [|done]. breflect. intros [= <-].
  pose proof (N.div_mod n (2 ^ 32) ltac:(lia)) as Hd. pose proof (N.mod_lt n (2 ^ 32) ltac:(lia)) as Hm. rewrite Hq in Hd. split; [lia|done].
Qed.
Lemma decode_ip_bytes a : canonical a -> decode_ip (ipv6_bytes a) = Ok a.
Proof.
  intros [Hw Hc]. unfold decode_ip, lenN. rewrite length_ipv6_bytes. cbn [negb N.eqb Pos.eqb N.of_nat Pos.of_succ_nat Pos.succ].
  destruct a as [n|n]; cbn [ipv6_bytes IpAddr_wf] in *.
  - rewrite from_be_to_be by (unfold to_ipv6_mapped; lia). by rewrite mapped_inverse.
  - rewrite from_be_to_be by done. cbn in Hc. by destruct (to_ipv4_mapped n).
Qed.
Lemma decode_ip_Ok bytes a : decode_ip bytes = Ok a -> canonical a /\ ipv6_bytes a = bytes.
Proof.
  unfold decode_ip. destruct (negb _) eqn:Hl; [done|]. breflect. pose proof (from_be_lt bytes) as Hlt. rewrite Hl in Hlt.
  assert (Hb : to_be 16 (from_be bytes) = bytes) by (apply to_be_from_be'; unfold lenN in Hl; lia).
  destruct (to_ipv4_mapped (from_be bytes)) as [v|] eqn:Hm; intros [= <-].
  - destruct (mapped_back _ _ Hm) as [Hv Hlv]. split; [done|]. cbn. by rewrite Hv.
  - split; [|done]. split; [exact Hlt|]. cbn. by rewrite Hm.
Qed.
Lemma be16_slice r i v : @be16_at P2pError r i = Ok v -> @slice P2pError r i (i + 2) = Ok (to_be 2 v).
Proof.
  unfold be16_at. intros (a & Ha & (b & Hb & [= <-])%bind_Ok)%bind_Ok. apply index_Ok in Ha, Hb. apply slice_Ok.
  pose proof (lookup_lt_Some _ _ _ Hb) as Hl. split_and!; [lia|unfold lenN; lia|].
  replace (N.to_nat (i + 2 - i)) with 2%nat by lia. unfold u16_be. change 2%nat with (length [a; b]). rewrite to_be_from_be.
  rewrite (drop_S _ a) by done. replace (N.to_nat (i + 1)) with (S (N.to_nat i)) in Hb by lia. by rewrite (drop_S _ b).
Qed.
Lemma all_zero_replicate l : all_zero l = true -> l = replicate (length l) x00.
Proof.
  unfold all_zero. rewrite forallb_forall. intros Hz. induction l as [|b l IH]; [done|]. cbn. f_equal.
  - pose proof (Hz b ltac:(by left)) as Hb. apply N.eqb_eq in Hb. by apply (u8_inj b x00).
  - apply IH. intros x Hx. apply Hz. by right.
Qed.

Lemma decode_pcp_success int lifetime ep nonce a port : socket_port int < 2 ^ 16 -> lifetime < 2 ^ 32 -> ep < 2 ^ 32 -> lenN nonce = 12 ->
  canonical a -> port < 2 ^ 16 -> lifetime <> 0 -> usable (socket_new a port) = true ->
  decode_pcp_map (pcp_success (socket_port int) lifetime ep nonce a port) int nonce false =
    Ok (mkLease Pcp (socket_new a port) int lifetime (Some ep) (Some nonce)).
Proof.
  intros Hip Hli Hep Hn Ha Hp Hl0 Hu. unfold decode_pcp_map.
  assert (Hlen : lenN (pcp_success (socket_port int) lifetime ep nonce a port) = 60).
  { unfold pcp_success. rewrite !lenN_app, !lenN_to_be, Hn. unfold lenN. rewrite length_replicate, length_ipv6_bytes. done. }
  rewrite Hlen. cbn [negb N.eqb Pos.eqb]. set (r := pcp_success _ _ _ _ _ _) in *.
  assert (H0 : @slice P2pError r 0 4 = Ok [x02; x81; x00; x00]) by by apply (slice_here [x02; x81; x00; x00]).
  assert (H4 : @slice P2pError r 4 8 = Ok (to_be 4 lifetime)) by (apply (slice_app [x02; x81; x00; x00]); by rewrite ?lenN_to_be).
  assert (H8 : @slice P2pError r 8 12 = Ok (to_be 4 ep)).
  { unfold r, pcp_success. rewrite app_assoc. apply slice_app; rewrite !lenN_app, ?lenN_to_be; done. }
  assert (H12 : @slice P2pError r 12 24 = Ok (replicate 12 x00)).
  { unfold r, pcp_success. rewrite 2!app_assoc. apply slice_app; rewrite !lenN_app, ?lenN_to_be; done. }
  assert (H24 : @slice P2pError r 24 36 = Ok nonce).
  { unfold r, pcp_success. rewrite 3!app_assoc. apply slice_app; rewrite !lenN_app, ?lenN_to_be, ?Hn; done. }
  assert (H36 : @slice P2pError r 36 40 = Ok [x11; x00; x00; x00]).
  { unfold r, pcp_success. rewrite 4!app_assoc. apply slice_app; rewrite !lenN_app, ?lenN_to_be, ?Hn; done. }
  assert (H40 : @be16_at P2pError r 40 = Ok (socket_port int)).
  { unfold r, pcp_success. rewrite 5!app_assoc. apply be16_at_app; [done|]. rewrite !lenN_app, !lenN_to_be, Hn; done. }
  assert (H42 : @be16_at P2pError r 42 = Ok port).
  { unfold r, pcp_success. rewrite 6!app_assoc. apply be16_at_app; [done|]. rewrite !lenN_app, !lenN_to_be, Hn; done. }
  assert (H44 : @slice P2pError r 44 60 = Ok (ipv6_bytes a)).
  { unfold r, pcp_success. rewrite 7!app_assoc. rewrite <-(app_nil_r (ipv6_bytes a)) at 1.
    apply slice_app; rewrite !lenN_app, !lenN_to_be, Hn; unfold lenN; rewrite ?length_ipv6_bytes; done. }
  rewrite H0, H12, H24, H36, H40. cbn [mbind outcome_bind]. rewrite (bool_decide_eq_true_2 (nonce = nonce)), N.eqb_refl by done.
  change (negb (bool_decide ([x02; x81; x00; x00] = _)) || negb (all_zero (replicate 12 x00)) || _ ||
          negb (bool_decide ([x11; x00; x00; x00] = _)) || negb true) with false. cbv iota.
  rewrite H4, H8, H42, H44. cbn [fmap outcome_fmap mbind outcome_bind]. rewrite !from_be_to_be by done.
  rewrite (proj2 (N.eqb_neq lifetime 0)) by done. cbn [andb]. rewrite decode_ip_bytes by done. cbn [mbind outcome_bind negb andb].
  unfold usable in Hu. assert (Hsp : socket_port (socket_new a port) = port /\ socket_ip (socket_new a port) = a) by by destruct a.
  destruct Hsp as [Hsp Hsi]. rewrite Hsp, Hsi in Hu. by destruct (port =? 0), (is_unspecified a), (is_multicast a).
Qed.
Lemma decode_pcp_Ok r int nonce lease : decode_pcp_map r int nonce false = Ok lease -> lenN nonce = 12 ->
  exists a port ep, r = pcp_success (socket_port int) (lifetime_seconds lease) ep nonce a port /\ canonical a /\ port < 2 ^ 16 /\
    lifetime_seconds lease <> 0 /\ lifetime_seconds lease < 2 ^ 32 /\ ep < 2 ^ 32 /\ usable (socket_new a port) = true /\
    lease = mkLease Pcp (socket_new a port) int (lifetime_seconds lease) (Some ep) (Some nonce).
Proof.
  unfold decode_pcp_map. intros Hd Hn. destruct (negb (lenN r =? 60)) eqn:Hlen; [done|]. breflect.
  apply bind_Ok in Hd as (hd & H0 & Hd). apply bind_Ok in Hd as (rs & H12 & Hd). apply bind_Ok in Hd as (ec & H24 & Hd).
  apply bind_Ok in Hd as (pr & H36 & Hd). apply bind_Ok in Hd as (ip & H40 & Hd).
  destruct (_ || _) eqn:Hchk; [done|]. apply orb_false_iff in Hchk as [Hchk Hip%negb_false_iff%N.eqb_eq].
  apply orb_false_iff in Hchk as [Hchk Hpr%negb_false_iff%bool_decide_eq_true]. apply orb_false_iff in Hchk as [Hchk Hec%negb_false_iff%bool_decide_eq_true].
  apply orb_false_iff in Hchk as [Hhd%negb_false_iff%bool_decide_eq_true Hrs%negb_false_iff].
  apply bind_Ok in Hd as (li & (lib & H4 & <-)%fmap_Ok & Hd). cbn [negb] in Hd. rewrite andb_true_r in Hd.
  destruct (from_be lib =? 0) eqn:Hl0; [done|]. apply N.eqb_neq in Hl0.
  apply bind_Ok in Hd as (ep & (epb & H8 & <-)%fmap_Ok & Hd). apply bind_Ok in Hd as (port & H42 & Hd).
  apply bind_Ok in Hd as (ob & H44 & Hd). apply bind_Ok in Hd as (a & [Ha Hob]%decode_ip_Ok & Hd).
  destruct (_ && _) eqn:Hu; [done|]. injection Hd as <-. cbn [lifetime_seconds].
  pose proof (be16_at_lt _ _ _ H42) as Hpl. pose proof (slice_len _ _ _ _ H4) as Hl4. pose proof (slice_len _ _ _ _ H8) as Hl8.
  pose proof (slice_len _ _ _ _ H12) as Hl12. pose proof (from_be_lt lib) as Hlt4. pose proof (from_be_lt epb) as Hlt8. rewrite Hl4 in Hlt4. rewrite Hl8 in Hlt8.
  assert (Hsp : socket_port (socket_new a port) = port /\ socket_ip (socket_new a port) = a) by by destruct a. destruct Hsp as [Hsp Hsi].
  exists a, port, (from_be epb). split_and!; try done.
  - apply be16_slice in H40, H42. pose proof (slice_join _ _ _ _ _ _ H42 H44) as J. pose proof (slice_join _ _ _ _ _ _ H40 J) as J1.
    pose proof (slice_join _ _ _ _ _ _ H36 J1) as J2. pose proof (slice_join _ _ _ _ _ _ H24 J2) as J3.
    pose proof (slice_join _ _ _ _ _ _ H12 J3) as J4. pose proof (slice_join _ _ _ _ _ _ H8 J4) as J5.
    pose proof (slice_join _ _ _ _ _ _ H4 J5) as J6. pose proof (slice_join _ _ _ _ _ _ H0 J6) as J7.
    rewrite <-(slice_all _ _ _ J7) by done. unfold pcp_success. apply all_zero_replicate in Hrs.
    assert (Hlr : length rs = 12%nat) by (unfold lenN in Hl12; lia). rewrite Hlr in Hrs. subst hd rs ec pr ip ob.
    rewrite !to_be_from_be' by (unfold lenN in *; lia). reflexivity.
  - unfold usable. rewrite Hsp, Hsi. cbn [negb andb] in Hu. apply orb_false_iff in Hu as [[-> ->]%orb_false_iff ->]. done.
Qed.

(** C24: The PCP codec is exact in both directions. A request for a mapping accepts the
    gateway's success response for its own port and nonce, and reads from it the lease
    that was granted; and whatever it accepts is such a response, byte for byte, with a
    lifetime, a port that is not zero and an address that is neither unspecified nor
    multicast. So no response for another request, and none that grants nothing, is
    taken for a lease. *)
Theorem pcp_lease_exact `{OsRng} draw int lifetime nonce request : pcp_new draw int lifetime nonce = Ok request ->
  socket_port int < 2 ^ 16 -> lifetime <> 0 -> lenN (pcp_nonce request) = 12 ->
  (forall life ep a port, life < 2 ^ 32 -> ep < 2 ^ 32 -> canonical a -> port < 2 ^ 16 -> life <> 0 -> usable (socket_new a port) = true ->
     pcp_accept (pcp_success (socket_port int) life ep (pcp_nonce request) a port) request =
       Ok (mkLease Pcp (socket_new a port) int life (Some ep) (Some (pcp_nonce request)))) /\
  (forall r lease, pcp_accept r request = Ok lease ->
     exists a port ep, r = pcp_success (socket_port int) (lifetime_seconds lease) ep (pcp_nonce request) a port /\
       lifetime_seconds lease <> 0 /\ usable (socket_new a port) = true /\
       lease = mkLease Pcp (socket_new a port) int (lifetime_seconds lease) (Some ep) (Some (pcp_nonce request))).
Proof.
  unfold pcp_new. destruct (_ || _); [done|]. intros [= <-] Hip Hl Hn. cbn [pcp_nonce] in *. set (n := if all_zero _ then _ else _) in *.
  unfold pcp_accept. cbn [pcp_internal pcp_nonce pcp_lifetime]. rewrite (proj2 (N.eqb_neq lifetime 0)) by done. split.
  - intros life ep a port Hlife Hep Ha Hp Hl0 Hu. by apply decode_pcp_success.
  - intros r lease Hd. destruct (decode_pcp_Ok r int n lease Hd Hn) as (a & port & ep & Hr & _ & _ & Hl0 & _ & _ & Hu & Hlease).
    by exists a, port, ep.
Qed.

(** ** The life of a lease *)

Lemma decode_nat_pmp_Ok r int ip lease : decode_nat_pmp_map r int ip false = Ok lease ->
  protocol lease = NatPmp /\ internal lease = int /\ lifetime_seconds lease <> 0 /\ usable (external lease) = true /\ nonce lease = None /\
  is_Some (epoch lease).
Proof.
  unfold decode_nat_pmp_map. intros Hd. destruct (negb (lenN r =? 16)); [done|].
  apply bind_Ok in Hd as (hd & _ & Hd). apply bind_Ok in Hd as (ipt & _ & Hd). destruct (_ || _); [done|].
  apply bind_Ok in Hd as (ep & _ & Hd). apply bind_Ok in Hd as (port & _ & Hd). apply bind_Ok in Hd as (li & _ & Hd).
  destruct (_ && _) eqn:Hu; [done|]. injection Hd as <-. cbn [negb andb] in Hu. breflect.
  cbn [protocol internal lifetime_seconds external nonce epoch]. unfold usable. cbn [socket_new socket_port socket_ip].
  split_and!; [done|done|done| |done|by eexists]. rewrite (proj2 (N.eqb_neq port 0)) by done. by rewrite H1, H0.
Qed.

Section lease.
Context `{OsRng} `{Gateway}.
(** A random nonce fills its buffer and is not all zero. *)
Hypothesis draws_nonce : forall n, lenN (fill_bytes n 12) = 12 /\ all_zero (fill_bytes n 12) = false.

(** A lease as long as it lives: discovered for [int], then renewed any number of times. *)
Inductive leased (gateway : IpAddr) (int : SocketAddr) : MappingLease -> Prop :=
| leased_discovered draw lifetime w w' lease :
    discover_port_mapping_with_transport draw gateway int lifetime w = (w', Ok lease) -> leased gateway int lease
| leased_renewed draw lease w w' lease' : leased gateway int lease ->
    renew_port_mapping_with_transport draw gateway lease w = (w', Ok lease') -> leased gateway int lease'.

Record lease_ok (int : SocketAddr) (lease : MappingLease) : Prop := {
  lo_internal : internal lease = int;
  lo_granted : protocol lease <> Upnp -> lifetime_seconds lease <> 0 /\ usable (external lease) = true /\ is_Some (epoch lease);
  lo_nonce : match protocol lease with
             | Pcp => exists n, nonce lease = Some n /\ lenN n = 12 /\ all_zero n = false
             | _ => nonce lease = None
             end;
}.
Lemma pcp_map_Ok draw gateway int lifetime n suggested w w' lease : lifetime <> 0 ->
  match n with Some n => lenN n = 12 | None => True end ->
  pcp_map draw gateway int lifetime n suggested w = (w', Ok lease) ->
  protocol lease = Pcp /\ lease_ok int lease /\
  match n with Some n => all_zero n = false -> nonce lease = Some n | None => True end.
Proof.
  intros Hl Hn. unfold pcp_map, pcp_map_at, pcp_new. destruct (_ || _); [done|].
  set (n' := if all_zero _ then _ else _).
  assert (Hn' : lenN n' = 12 /\ all_zero n' = false /\ match n with Some n => all_zero n = false -> n' = n | None => True end).
  { unfold n'. destruct n as [n|]; cbn [default from_option id]; [|destruct (draws_nonce draw); by split_and!].
    destruct (all_zero n) eqn:Hz; [destruct (draws_nonce draw); by split_and!|by split_and!]. }
  destruct Hn' as (Hn12 & Hz & Hsame). set (req := match suggested with Some s => _ | None => _ end).
  assert (Hreq : pcp_internal req = int /\ pcp_nonce req = n' /\ pcp_lifetime req = lifetime).
  { unfold req, suggest_external. destruct suggested; [|done]. by destruct (negb _). }
  destruct Hreq as (Hri & Hrn & Hrl). destruct (mapping_exchange _ _ _ _) as [w1 [r| |]]; cbn [mbind outcome_bind]; [|done..].
  unfold pcp_accept. rewrite Hri, Hrn, Hrl, (proj2 (N.eqb_neq lifetime 0)) by done. intros [= <- Hd].
  destruct (decode_pcp_Ok _ _ _ _ Hd Hn12) as (a & port & ep & _ & _ & _ & Hl0 & _ & _ & Hu & Hlease). rewrite Hlease. cbn [protocol nonce].
  split_and!; [done| |by destruct n; [intros ?; f_equal; apply Hsame|]]. split; cbn; [done| |by exists n'].
  intros _. split_and!; [done|done|by eexists].
Qed.
Lemma nat_pmp_map_Ok gateway int lifetime suggested w w' lease : lifetime <> 0 ->
  nat_pmp_map gateway int lifetime suggested w = (w', Ok lease) -> protocol lease = NatPmp /\ lease_ok int lease.
Proof.
  intros Hl. unfold nat_pmp_map, nat_pmp_map_at. destruct (_ || _); [done|].
  destruct (mapping_exchange _ _ _ _) as [w1 [r| |]]; cbn [mbind outcome_bind]; [|done..].
  destruct (decode_nat_pmp_public_address r) as [[ip ep]| |]; [|done..]. unfold nat_pmp_new. destruct (_ || _); [done|].
  set (req := suggest_external_port _ _). assert (Hreq : np_internal req = int /\ np_lifetime req = lifetime).
  { unfold req, suggest_external_port. by destruct (negb _). }
  destruct Hreq as [Hri Hrl]. destruct (mapping_exchange _ _ _ w1) as [w2 [r2| |]]; cbn [mbind outcome_bind]; [|done..].
  unfold nat_pmp_accept. rewrite Hri, Hrl, (proj2 (N.eqb_neq lifetime 0)) by done. intros [= <- Hd].
  destruct (decode_nat_pmp_Ok _ _ _ _ Hd) as (Hp & Hi & Hl0 & Hu & Hno & He). split; [done|]. split; [done|by intros _|by rewrite Hp].
Qed.
Lemma upnp_map_Ok gateway int lifetime w w' lease : upnp_map gateway int lifetime w = (w', Ok lease) ->
  protocol lease = Upnp /\ lease_ok int lease.
Proof.
  unfold upnp_map. destruct (expected_igd gateway int w) as [w1 [g| |]]; [|done..]. destruct (get_any_address _ _ _ _) as [w2 [| |ext]]; [done..|].
  intros [= <- <-]. by split; [|split].
Qed.
Lemma discover_Ok draw gateway int lifetime w w' lease :
  discover_port_mapping_with_transport draw gateway int lifetime w = (w', Ok lease) -> lease_ok int lease.
Proof.
  unfold discover_port_mapping_with_transport. destruct (_ || _) eqn:Hg; [done|]. breflect.
  destruct (pcp_map _ _ _ _ _ _ _) as [w1 [l|e|]] eqn:Hp; [|clear Hp|done].
  { intros [= <- <-]. by eapply (pcp_map_Ok draw gateway int lifetime None None w w1 l). }
  assert (Hup : upnp_map gateway int lifetime w1 = (w', Ok lease) -> lease_ok int lease) by (intros Hx; by eapply upnp_map_Ok).
  destruct gateway as [g|g]; [|done]. destruct (socket_ip int); [|done].
  destruct (nat_pmp_map g int lifetime None w1) as [w2 [l|e2|]] eqn:Hp; [| |done].
  - intros [= <- <-]. by eapply nat_pmp_map_Ok.
  - intros Hx. by eapply upnp_map_Ok.
Qed.
Lemma renew_Ok draw gateway int lease w w' lease' : lease_ok int lease ->
  renew_port_mapping_with_transport draw gateway lease w = (w', Ok lease') ->
  lease_ok int lease' /\ protocol lease' = protocol lease /\ nonce lease' = nonce lease /\
  gateway_epoch_restarted (epoch lease) (epoch lease') = false.
Proof.
  intros [Hi Hg Hn]. unfold renew_port_mapping_with_transport. rewrite Hi.
  assert (Hfin : forall (w1 : network) r, (w1, r ≫= (fun renewed => if gateway_epoch_restarted (epoch lease) (epoch renewed)
            then Err GatewayRestarted else Ok renewed)) = (w', Ok lease') -> r = Ok lease' /\ gateway_epoch_restarted (epoch lease) (epoch lease') = false).
  { intros w1 [r| |]; cbn; [|done..]. destruct (gateway_epoch_restarted _ _) eqn:He; [done|]. by intros [= <- <-]. }
  destruct (protocol lease) eqn:Hp.
  - destruct (Hg ltac:(done)) as (Hl & _ & _). destruct Hn as (n & Hn & Hn12 & Hz). rewrite Hn.
    destruct (pcp_map _ _ _ _ _ _ _) as [w1 r] eqn:Hm. intros [-> He]%Hfin.
    destruct (pcp_map_Ok _ _ _ _ (Some n) _ _ _ _ Hl Hn12 Hm) as (Hpr & Hok & Hsame). split_and!; [done..|by apply Hsame|done].
  - destruct (Hg ltac:(done)) as (Hl & _ & _). destruct gateway as [g|g]; [|by intros [? _]%Hfin].
    destruct (nat_pmp_map _ _ _ _ _) as [w1 r] eqn:Hm. intros [-> He]%Hfin.
    destruct (nat_pmp_map_Ok _ _ _ _ _ _ _ Hl Hm) as [Hpr Hok]. split_and!; [done..| |done]. destruct Hok as [_ _ Hx]. rewrite Hpr in Hx. congruence.
  - destruct (expected_igd gateway int w) as [w1 [g|e|]]; [|by intros [? _]%Hfin..].
    destruct (add_port _ _ _ _ _) as [w2 added]. destruct (settled added); [|by intros [? _]%Hfin..].
    destruct (get_external_ip g w2) as [w3 ip]. intros [Hr He]%Hfin. destruct (settled ip); [|done..]. cbn in Hr. injection Hr as <-.
    split_and!; [|done..]. split; cbn; [done|by intros []|done].
Qed.

(** A lease keeps what identifies its mapping. However often it is renewed, through
    whatever answers, a lease stays for the endpoint it was discovered for; a PCP or
    NAT-PMP lease always has a lifetime and a usable external endpoint; a renewal keeps
    the protocol and PCP's nonce, by which the gateway knows the mapping, and is refused
    when the gateway's epoch went back. *)
Theorem lease_keeps_mapping gateway int lease : leased gateway int lease ->
  lease_ok int lease /\
  forall draw w w' renewed, renew_port_mapping_with_transport draw gateway lease w = (w', Ok renewed) ->
    lease_ok int renewed /\ protocol renewed = protocol lease /\ nonce renewed = nonce lease /\
    gateway_epoch_restarted (epoch lease) (epoch renewed) = false.
Proof.
  intros Hl. assert (Hok : lease_ok int lease).
  { induction Hl as [draw lifetime w w' l Hd|draw l w w' l' _ IH Hr]; [by eapply discover_Ok|by eapply renew_Ok]. }
  split; [done|]. intros draw w w' renewed Hr. by eapply renew_Ok.
Qed.
End lease.

(** The request that deletes a PCP mapping carries the internal port, never zero, in the
    field of the suggested external port, although the comment of [suggest_external] says
    that a deletion does not request an external endpoint. *)
Theorem pcp_deletion_suggests_port `{OsRng} draw int n request : pcp_new draw int 0 (Some n) = Ok request -> lenN n = 12 -> all_zero n = false ->
  socket_port int < 2 ^ 16 ->
  be16_at (E:=P2pError) (pcp_bytes request) 42 = Ok (socket_port int) /\ socket_port int <> 0.
Proof.
  unfold pcp_new. destruct (_ || _) eqn:Hg; [done|]. breflect. cbn [default from_option id]. intros [= <-] Hn Hz Hp.
  rewrite Hz. cbn [pcp_bytes]. split; [|done]. unfold encode_pcp_map. rewrite 5!app_assoc. apply be16_at_app; [done|].
  rewrite !lenN_app, !lenN_to_be, Hn. unfold lenN. by rewrite length_ipv6_bytes.
Qed.

(** ** Concrete instances *)

(** A generator whose output is never all zero. *)
#[local] Instance ones_rng : OsRng := {| fill_bytes n len := match len with O => [] | S k => x01 :: to_be k (N.of_nat n) end |}.
(** A PCP gateway at 192.0.2.1 that grants every request on 203.0.113.7 and whose epoch
    is the number of requests it served. *)
Definition example_answer (request : list byte) (served : N) : p2p_result (list byte) :=
  port ← be16_at request 40;
  nonce ← slice request 24 36;
  lifetime ← from_be <$> slice request 4 8;
  Ok (pcp_success port lifetime served nonce (V4 0xcb007107) (port + 1)).
#[local] Instance pcp_gateway : Gateway := {|
  network := N;
  igd := Empty_set;
  mapping_exchange server _ request served :=
    if bool_decide (server = SockV4 0xc0000201 5351) then (served + 1, example_answer request served) else (served, Err Timeout);
  search_gateway _ w := (w, None);
  igd_ip g := match g with end;
  get_any_address _ _ _ w := (w, Failed);
  add_port _ _ _ _ w := (w, Failed);
  remove_port _ _ w := (w, Failed);
  get_external_ip _ w := (w, Failed);
|}.
Lemma ones_draws_nonce n : lenN (fill_bytes n 12) = 12 /\ all_zero (fill_bytes n 12) = false.
Proof. split; [|reflexivity]. unfold lenN. cbn [fill_bytes ones_rng length]. by rewrite length_to_be. Qed.
Definition example_internal : SocketAddr := SockV4 0x0a000005 51820.
Definition example_lease (life ep : N) : MappingLease :=
  mkLease Pcp (SockV4 0xcb007107 51821) example_internal life (Some ep) (Some (fill_bytes 7 12)).

Lemma pcp_lease_exact_witness : exists request, pcp_new 7 example_internal 3600 None = Ok request /\
  pcp_accept (pcp_success 51820 120 9 (pcp_nonce request) (V4 0xcb007107) 51821) request = Ok (example_lease 120 9) /\
  pcp_accept (pcp_success 51820 120 9 (replicate 12 x05) (V4 0xcb007107) 51821) request = Err Mapping.
Proof.
  eexists. split; [reflexivity|].
  destruct (pcp_lease_exact 7 example_internal 3600 None _ eq_refl eq_refl ltac:(discriminate) eq_refl) as [Hgrant _].
  split; [|vm_compute; reflexivity].
  apply (Hgrant 120 9 (V4 0xcb007107) 51821); [reflexivity..| |reflexivity|discriminate|reflexivity].
  split; reflexivity.
Defined.
Lemma lease_keeps_mapping_witness :
  discover_port_mapping_with_transport 7 (V4 0xc0000201) example_internal 3600 4 = (5, Ok (example_lease 3600 4)) /\
  renew_port_mapping_with_transport 8 (V4 0xc0000201) (example_lease 3600 4) 5 = (6, Ok (example_lease 3600 5)) /\
  renew_port_mapping_with_transport 8 (V4 0xc0000201) (example_lease 3600 4) 2 = (3, Err GatewayRestarted) /\
  nonce (example_lease 3600 5) = nonce (example_lease 3600 4).
Proof.
  assert (Hd : discover_port_mapping_with_transport 7 (V4 0xc0000201) example_internal 3600 4 = (5, Ok (example_lease 3600 4)))
    by (vm_compute; reflexivity).
  assert (Hr : renew_port_mapping_with_transport 8 (V4 0xc0000201) (example_lease 3600 4) 5 = (6, Ok (example_lease 3600 5)))
    by (vm_compute; reflexivity).
  destruct (lease_keeps_mapping ones_draws_nonce (V4 0xc0000201) example_internal (example_lease 3600 4)
    (leased_discovered _ _ _ _ _ _ _ Hd)) as [_ Hkeep].
  destruct (Hkeep _ _ _ _ Hr) as (_ & _ & Hn & _).
  assert (Hrefused : renew_port_mapping_with_transport 8 (V4 0xc0000201) (example_lease 3600 4) 2 = (3, Err GatewayRestarted))
    by (vm_compute; reflexivity).
  exact (conj Hd (conj Hr (conj Hrefused Hn))).
Defined.

End Mp.
