(* ===== verification/Resources.v ===== *)
(** * Resources: targets, grants, rules and the choice of a gateway (crate
    [peerward-management]: internet_addresses.rs, resources.rs, collections.rs,
    resource_policy.rs, target_health.rs and the preferences of selection.rs)

    A resource is an address range behind a gateway Peer. A packet is decided by its
    address: the most specific resources that contain it, one order over all their
    rules, and a binding that an administrator approved. The UUID and CIDR libraries
    are parameters. *)

From S2P Require Import Prelude Ordered Net.
From Stdlib Require Import NArith ZArith Lia String.
From stdpp Require Import base tactics decidable countable numbers list sorting gmap.
From Stdlib.Init Require Import Byte.
Set Default Goal Selector "!".
Local Open Scope N_scope.

(** [get_version_num] and [is_nil] of the UUID library. *)
Class UuidInfo := { get_version_num : N -> N; is_nil : N -> bool }.
(** [addr] and [broadcast] of the CIDR library. *)
Class IpNetAddrs `{IpNetLib} := { net_addr : IpNet -> IpAddr; net_broadcast : IpNet -> IpAddr }.

(** lib.rs *)
Inductive ManagementError :=
| Invalid (field : string) | Conflict (field : string) | Signature | Incomplete | Expired | Rollback.
#[export] Instance ManagementError_eq_dec : EqDecision ManagementError.
Proof. solve_decision. Defined.
Notation managed := (outcome ManagementError).

Module Rs.

(** ** Text: UTF-8 bytes *)

(** [chars().any(char::is_control)]: the code points below U+0020 and U+007F..U+009F. *)
Fixpoint has_control (s : list byte) : bool :=
  match s with
  | [] => false
  | b :: rest =>
      (u8 b <? 0x20) || (u8 b =? 0x7f)
      || match rest with c :: _ => (u8 b =? 0xc2) && (0x80 <=? u8 c) && (u8 c <=? 0x9f) | [] => false end
      || has_control rest
  end.
(** The encodings of the code points [char::is_whitespace] accepts. *)
Definition whitespace : list (list byte) :=
  [[x09]; [x0a]; [x0b]; [x0c]; [x0d]; [x20]; [xc2; x85]; [xc2; xa0]; [xe1; x9a; x80];
   [xe2; x80; x80]; [xe2; x80; x81]; [xe2; x80; x82]; [xe2; x80; x83]; [xe2; x80; x84]; [xe2; x80; x85]; [xe2; x80; x86];
   [xe2; x80; x87]; [xe2; x80; x88]; [xe2; x80; x89]; [xe2; x80; x8a]; [xe2; x80; xa8]; [xe2; x80; xa9]; [xe2; x80; xaf];
   [xe2; x81; x9f]; [xe3; x80; x80]].
Definition trimmed (s : list byte) : bool :=
  negb (existsb (fun w => bool_decide (take (length w) s = w) || bool_decide (drop (length s - length w) s = w)) whitespace).
Definition name_valid (name : list byte) : bool :=
  negb (bool_decide (name = [])) && (lenN name <=? 128) && trimmed name && negb (has_control name).

(** ** internet_addresses.rs *)

Definition public_v4 (n : N) : bool :=
  let a := N.shiftr n 24 in
  let b := N.shiftr n 16 mod 256 in
  let c := N.shiftr n 8 mod 256 in
  let d := n mod 256 in
  negb ((a =? 0) || (a =? 10) || (a =? 127) || (224 <=? a)
        || ((a =? 100) && ((64 <=? b) && (b <=? 127)))
        || ((a =? 169) && (b =? 254))
        || ((a =? 172) && ((16 <=? b) && (b <=? 31)))
        || ((a =? 192) && (b =? 168))
        || ((a =? 192) && (b =? 0) && (c =? 0) && negb ((d =? 9) || (d =? 10)))
        || ((a =? 192) && (b =? 0) && (c =? 2))
        || ((a =? 192) && (b =? 88) && (c =? 99))
        || ((a =? 198) && ((b =? 18) || (b =? 19)))
        || ((a =? 198) && (b =? 51) && (c =? 100))
        || ((a =? 203) && (b =? 0) && (c =? 113))).
(** [segments()[i]] *)
Definition segment (n i : N) : N := N.shiftr n (112 - 16 * i) mod 0x1_0000.
Definition internet_destination (address : IpAddr) : bool :=
  match address with
  | V4 n => public_v4 n
  | V6 n =>
      let prefix := segment n 0 in
      let subnet := segment n 1 in
      if (segment n 0 =? 0x64) && (segment n 1 =? 0xff9b) && (segment n 2 =? 0) && (segment n 3 =? 0)
         && (segment n 4 =? 0) && (segment n 5 =? 0)
      then public_v4 (n mod 2 ^ 32)
      else if negb (N.land prefix 0xe000 =? 0x2000) || (prefix =? 0x2002) || ((prefix =? 0x2001) && (subnet =? 0xdb8))
              || ((prefix =? 0x3fff) && (subnet <? 0x1000))
      then false
      else if (prefix =? 0x2001) && (subnet <? 0x200)
      then ((subnet =? 1) && ((segment n 2 =? 0) && (segment n 3 =? 0) && (segment n 4 =? 0) && (segment n 5 =? 0) && (segment n 6 =? 0))
            && ((segment n 7 =? 1) || (segment n 7 =? 2) || (segment n 7 =? 3)))
           || (subnet =? 3) || ((subnet =? 4) && (segment n 2 =? 0x112)) || ((0x20 <=? subnet) && (subnet <=? 0x3f))
      else true
  end.

(** ** The values *)

Section networks.
Context `{IpNetLib}.
Definition net_network (n : IpNet) : IpAddr := match n with inl m => V4 (v4net_network m) | inr m => V6 (v6net_network m) end.
Definition net_prefix_len (n : IpNet) : N := match n with inl m => v4net_prefix_len m | inr m => v6net_prefix_len m end.
End networks.

Inductive ResourceTarget `{IpNetLib} := Subnet (prefix : IpNet) (site_id : N) | Internet (ipv4 ipv6 : bool).
#[export] Instance ResourceTarget_eq_dec `{IpNetLib} : EqDecision ResourceTarget.
Proof. solve_decision. Defined.
Record TargetProbe := mkProbe { probe_address : IpAddr; probe_port : N }.
#[export] Instance TargetProbe_eq_dec : EqDecision TargetProbe.
Proof. solve_decision. Defined.
Record ResourceDefinition `{IpNetLib} := mkDefinition {
  name : list byte;
  target : ResourceTarget;
  rd_labels : gmap (list byte) (list byte);
  health_probe : option TargetProbe;
}.
Record NetworkResource `{IpNetLib} := mkResource { nr_id : N; nr_mesh_id : MeshId; nr_version : N; definition : ResourceDefinition }.

Inductive ForwardingMode := Snat | PreserveSource.
#[export] Instance ForwardingMode_eq_dec : EqDecision ForwardingMode.
Proof. solve_decision. Defined.
Inductive ApprovalSource := Manual | Automatic (rule_id rule_version : N).
#[export] Instance ApprovalSource_eq_dec : EqDecision ApprovalSource.
Proof. solve_decision. Defined.
Record GatewayBinding := mkBinding {
  gb_id : N;
  gb_resource_id : N;
  gb_peer_id : PeerId;
  gb_version : N;
  approved : bool;
  gb_priority : N;
  forwarding : ForwardingMode;
  return_route_confirmed : bool;
  approval_source : ApprovalSource;
}.
#[export] Instance GatewayBinding_eq_dec : EqDecision GatewayBinding.
Proof. solve_decision. Defined.
Record RouteAdvertisement := mkAdvertisement {
  ad_binding_version : N;
  ad_binding_id : N;
  ad_peer_id : PeerId;
  ad_sequence : N;
  published : bool;
  ad_valid_until : N;
  forwarding_ready : bool;
}.
#[export] Instance RouteAdvertisement_eq_dec : EqDecision RouteAdvertisement.
Proof. solve_decision. Defined.
Record DeviceSelector `{IpNetLib} := mkSelector {
  ds_peers : gset DomainId;
  ds_labels : gmap (list byte) (list byte);
  ds_cidrs : list IpNet;
}.
#[export] Instance DeviceSelector_eq_dec `{IpNetLib} : EqDecision DeviceSelector.
Proof. solve_decision. Defined.

Inductive CollectionKind := Devices | Resources.
#[export] Instance CollectionKind_eq_dec : EqDecision CollectionKind.
Proof. solve_decision. Defined.
Record CollectionDefinition := mkCollectionDefinition {
  cd_name : list byte;
  cd_kind : CollectionKind;
  cd_members : gset N;
  cd_labels : gmap (list byte) (list byte);
}.
Record ResolvedCollection := mkResolved { rc_id : N; rc_kind : CollectionKind; rc_members : gset N }.
#[export] Instance ResolvedCollection_eq_dec : EqDecision ResolvedCollection.
Proof. solve_decision. Defined.

Inductive ResourceAction := Deny | Allow.
#[export] Instance ResourceAction_eq_dec : EqDecision ResourceAction.
Proof. solve_decision. Defined.
Definition ResourceAction_key (a : ResourceAction) : N := match a with Deny => 0 | Allow => 1 end.
#[export] Instance ResourceAction_compare : Compare ResourceAction := compare_via ResourceAction_key.
#[export] Instance ResourceAction_compare_laws : CompareLaws ResourceAction.
Proof. apply compare_via_laws. intros [] []; cbn; congruence. Qed.
Record ResourceRule `{IpNetLib} := mkRule {
  rr_id : N;
  rr_priority : N;
  rr_enabled : bool;
  action : ResourceAction;
  source : DeviceSelector;
  rr_resources : gset N;
  source_collections : gset N;
  resource_collections : gset N;
  providers : gset DomainId;
  rr_protocol : N;
  destination_ports : list (N * N);
  not_after : option N;
}.
Arguments mkDefinition {_} _ _ _ _.
Arguments mkResource {_} _ _ _ _.
Arguments mkSelector {_} _ _ _.
Arguments mkRule {_} _ _ _ _ _ _ _ _ _ _ _ _.
Record ResourceAccess := mkAccess {
  source_peer : PeerId;
  source_address : IpAddr;
  source_labels : gmap (list byte) (list byte);
  ra_resource : N;
  provider : PeerId;
  ra_protocol : N;
  destination_port : option N;
  now : N;
}.
Record ClientPreferences := mkPreferences {
  accept_private_routes : bool;
  accept_dns : bool;
  allow_inbound : bool;
  exit_resource : option N;
  allow_local_lan : bool;
}.
Definition preferences_default : ClientPreferences := mkPreferences true true true None false.

Section operations.
Context `{UuidInfo} `{IpNetAddrs}.

(** ** resources.rs *)

Definition specificity (t : ResourceTarget) : N :=
  match t with Subnet prefix _ => net_prefix_len prefix | Internet _ _ => 0 end.
Definition target_contains (t : ResourceTarget) (address : IpAddr) : bool :=
  match t with
  | Subnet prefix _ => net_contains prefix address
  | Internet ipv4 ipv6 => (match address with V4 _ => ipv4 | V6 _ => ipv6 end) && internet_destination address
  end.
Definition target_validate (t : ResourceTarget) : managed unit :=
  match t with
  | Subnet prefix site_id =>
      if is_nil site_id || (net_prefix_len prefix =? 0) || negb (bool_decide (net_addr prefix = net_network prefix))
         || is_unspecified (net_addr prefix) || is_multicast (net_addr prefix) || is_loopback (net_addr prefix)
      then Err (Invalid "target.prefix") else Ok tt
  | Internet false false => Err (Invalid "target.address_families")
  | Internet _ _ => Ok tt
  end.
(** target_health.rs *)
Definition probe_validate (t : ResourceTarget) (p : TargetProbe) : managed unit :=
  if (probe_port p =? 0) || negb (target_contains t (probe_address p)) || is_loopback (probe_address p)
     || is_multicast (probe_address p) || is_unspecified (probe_address p)
     || match probe_address p with
        | V4 ip => (N.shiftr ip 16 =? 0xa9fe) || is_broadcast ip
        | V6 ip => is_unicast_link_local ip || (ip / 2 ^ 32 =? 0xffff)
        end
  then Err (Invalid "health_probe") else Ok tt.
Definition labels_valid (labels : gmap (list byte) (list byte)) : bool :=
  (N.of_nat (size labels) <=? 32)
  && forallb (fun e => name_valid e.1 && negb (bool_decide (e.2 = [])) && (lenN e.2 <=? 256) && negb (has_control e.2)) (bt_entries labels).
Definition definition_validate (d : ResourceDefinition) : managed unit :=
  if negb (name_valid (name d)) then Err (Invalid "name") else
  if negb (labels_valid (rd_labels d)) then Err (Invalid "labels") else
  _ ← target_validate (target d);
  match health_probe d with Some probe => probe_validate (target d) probe | None => Ok tt end.
Definition binding_validate (b : GatewayBinding) : managed unit :=
  if negb (get_version_num (gb_id b) =? 4) || is_nil (gb_resource_id b) || (gb_version b =? 0) then Err (Invalid "binding") else
  if match approval_source b with
     | Automatic rule_id rule_version => negb (get_version_num rule_id =? 4) || (rule_version =? 0)
     | Manual => false
     end then Err (Invalid "approval_source") else
  if approved b && bool_decide (forwarding b = PreserveSource) && negb (return_route_confirmed b)
  then Err (Invalid "return_route_confirmed") else Ok tt.
Definition selector_validate (s : DeviceSelector) : managed unit :=
  if (4096 <? N.of_nat (size (ds_peers s))) || (32 <? N.of_nat (size (ds_labels s))) || (64 <? lenN (ds_cidrs s))
     || existsb (fun e => bool_decide (e.1 = []) || (64 <? lenN e.1) || (128 <? lenN e.2) || has_control e.1 || has_control e.2)
          (bt_entries (ds_labels s))
     || existsb (fun prefix => negb (bool_decide (net_network prefix = net_addr prefix))) (ds_cidrs s)
  then Err (Invalid "selector") else Ok tt.
(** [labels.get(key) == Some(value)] for every label that is asked for. *)
Definition labels_match (wanted labels : gmap (list byte) (list byte)) : bool :=
  forallb (fun e => bool_decide (labels !! e.1 = Some e.2)) (bt_entries wanted).
Definition selector_matches (peer : PeerId) (address : IpAddr) (labels : gmap (list byte) (list byte)) (s : DeviceSelector) : bool :=
  (bool_decide (ds_peers s = ∅) || bool_decide (peer ∈ ds_peers s))
  && labels_match (ds_labels s) labels
  && (bool_decide (ds_cidrs s = []) || existsb (fun cidr => net_contains cidr address) (ds_cidrs s)).
Definition overlaps (left right : IpNet) : bool := net_contains left (net_network right) || net_contains right (net_network left).
Definition validate_resource_conflicts (resource : ResourceTarget) (others : list ResourceTarget) (virtual_pools : list IpNet) : managed unit :=
  _ ← target_validate resource;
  match resource with
  | Internet _ _ => Ok tt
  | Subnet prefix site_id =>
      if existsb (overlaps prefix) virtual_pools then Err (Conflict "virtual_pool") else
      if existsb (fun t => match t with
                           | Subnet other other_site => negb (site_id =? other_site) && overlaps prefix other
                           | Internet _ _ => false
                           end) others
      then Err (Conflict "site_address_ambiguity") else Ok tt
  end.

(** ** collections.rs *)

Definition collection_validate (c : CollectionDefinition) : managed unit :=
  if negb (name_valid (cd_name c)) || (4096 <? N.of_nat (size (cd_members c))) || negb (labels_valid (cd_labels c))
     || existsb (fun id => negb (get_version_num id =? 4)) (bt_elements (cd_members c))
  then Err (Invalid "collection") else Ok tt.
Definition resolve (id : N) (candidates : list (N * gmap (list byte) (list byte))) (c : CollectionDefinition) : ResolvedCollection :=
  mkResolved id (cd_kind c)
    (list_to_set (fst <$> filter (fun e => bool_decide (e.1 ∈ cd_members c)
                            || negb (bool_decide (cd_labels c = ∅)) && labels_match (cd_labels c) e.2) candidates)).
Definition collection_contains (collections : list ResolvedCollection) (selected : gset N) (kind : CollectionKind) (member : N) : bool :=
  existsb (fun c => bool_decide (rc_kind c = kind) && bool_decide (rc_id c ∈ selected) && bool_decide (member ∈ rc_members c)) collections.

(** ** resource_policy.rs *)

Definition rule_validate (r : ResourceRule) : managed unit :=
  _ ← selector_validate (source r);
  if 4096 <? N.of_nat (size (providers r)) then Err (Invalid "resource_rule.providers") else
  if negb (get_version_num (rr_id r) =? 4)
     || bool_decide (rr_resources r = ∅) && bool_decide (resource_collections r = ∅)
     || (64 <? N.of_nat (size (source_collections r))) || (64 <? N.of_nat (size (resource_collections r)))
     || (4096 <? N.of_nat (size (rr_resources r))) || (64 <? lenN (destination_ports r))
     || negb (bool_decide (rr_protocol r ∈ [0; 1; 6; 17; 58]))
     || negb (bool_decide (destination_ports r = [])) && negb (bool_decide (rr_protocol r ∈ [6; 17]))
     || existsb (fun p => (p.1 =? 0) || (p.2 <? p.1)) (destination_ports r)
  then Err (Invalid "resource_rule") else Ok tt.
Definition resource_rule_matches (rule : ResourceRule) (collections : list ResolvedCollection) (access : ResourceAccess) : bool :=
  rr_enabled rule && is_ok (rule_validate rule)
  && match not_after rule with Some until => now access <? until | None => true end
  && (bool_decide (ra_resource access ∈ rr_resources rule)
      || collection_contains collections (resource_collections rule) Resources (ra_resource access))
  && (bool_decide (source_collections rule = ∅)
      || collection_contains collections (source_collections rule) Devices (id_uuid (source_peer access)))
  && (bool_decide (providers rule = ∅) || bool_decide (provider access ∈ providers rule))
  && selector_matches (source_peer access) (source_address access) (source_labels access) (source rule)
  && ((rr_protocol rule =? 0) || (rr_protocol rule =? ra_protocol access))
  && (bool_decide (destination_ports rule = [])
      || match destination_port access with
         | Some port => existsb (fun p => (p.1 <=? port) && (port <=? p.2)) (destination_ports rule)
         | None => false
         end).
(** [min_by_key]: the first of the least. *)
Definition min_by_key {A K} `{CompareLaws K} (key : A -> K) (l : list A) : option A := head (sort_by_key key l).
Definition decide_resource_with_collections (rules : list ResourceRule) (collections : list ResolvedCollection) (access : ResourceAccess)
    : ResourceAction * option N :=
  match min_by_key (fun r => (rr_priority r, (action r, rr_id r)))
          (filter (fun r => resource_rule_matches r collections access = true) rules) with
  | Some rule => (action rule, Some (rr_id rule))
  | None => (Deny, None)
  end.
Definition decide_resource (rules : list ResourceRule) (access : ResourceAccess) : ResourceAction * option N :=
  decide_resource_with_collections rules [] access.

Definition packet_resource_aliases (resources : list NetworkResource) (address : IpAddr) (exit : option N) : list N :=
  let matching := filter (fun r => target_contains (target (definition r)) address
                                   && match target (definition r) with
                                      | Subnet _ _ => true
                                      | Internet _ _ => bool_decide (Some (nr_id r) = exit)
                                      end = true) resources in
  match matching with
  | [] => []
  | r :: rest =>
      let s := foldl N.max (specificity (target (definition r))) ((fun r => specificity (target (definition r))) <$> rest) in
      sort_by_key id (nr_id <$> filter (fun r => specificity (target (definition r)) = s) matching)
  end.

(** [ResourceAccess { resource, ..access }] *)
Definition with_resource (resource : N) (a : ResourceAccess) : ResourceAccess :=
  mkAccess (source_peer a) (source_address a) (source_labels a) resource (provider a) (ra_protocol a) (destination_port a) (now a).
Definition provider_approved (bindings : list GatewayBinding) (resource : N) (peer : PeerId) : bool :=
  existsb (fun b => (gb_resource_id b =? resource) && bool_decide (gb_peer_id b = peer) && approved b) bindings.
(** The aliases a rule may decide for. *)
Definition applies (collections : list ResolvedCollection) (bindings : list GatewayBinding) (access : ResourceAccess)
    (rule : ResourceRule) (resource : N) : bool :=
  resource_rule_matches rule collections (with_resource resource access)
  && (bool_decide (action rule = Deny) || provider_approved bindings resource (provider access)).
Definition decide_resource_aliases (rules : list ResourceRule) (collections : list ResolvedCollection) (aliases : list N)
    (bindings : list GatewayBinding) (access : ResourceAccess) : ResourceAction * option N * option N :=
  let candidates := omap (fun rule =>
      resource ← min_by_key id (filter (fun resource => applies collections bindings access rule resource = true) aliases);
      Some (rule, resource)) rules in
  match min_by_key (fun c => (rr_priority c.1, (action c.1, (rr_id c.1, c.2)))) candidates with
  | Some (rule, resource) => (action rule, Some (rr_id rule), Some resource)
  | None => (Deny, None, None)
  end.
End operations.

(** ** The least element *)

Section least.
Context {A K : Type} `{CompareLaws K} (key : A -> K).
Lemma min_by_key_Some l x : min_by_key key l = Some x -> x ∈ l /\ forall y, y ∈ l -> leb_of (key x) (key y) = true.
Proof.
  unfold min_by_key. intros Hx. pose proof (sort_by_key_sorted key l) as Hs.
  destruct (sort_by_key key l) as [|z k] eqn:Hk; [done|]. cbn in Hx. injection Hx as ->.
  assert (Hin : forall y, y ∈ l <-> y ∈ x :: k) by (intros y; by rewrite <-Hk, elem_of_sort_by_key).
  split; [apply Hin; by left|]. intros y [->|Hy]%Hin%elem_of_cons; [apply leb_of_refl|].
  apply StronglySorted_inv in Hs as [_ Hs]. rewrite Forall_forall in Hs. by apply Hs.
Qed.
Lemma min_by_key_None l : min_by_key key l = None <-> l = [].
Proof.
  unfold min_by_key. pose proof (length_sort_by_key key l) as Hl. destruct (sort_by_key key l), l; cbn in *; try done.
Qed.
(** The key of the least element depends on the keys that occur only. *)
Lemma min_by_key_ext l k : (forall x, x ∈ l -> exists y, y ∈ k /\ key y = key x) -> (forall y, y ∈ k -> exists x, x ∈ l /\ key x = key y) ->
  key <$> min_by_key key l = key <$> min_by_key key k.
Proof.
  intros Hlk Hkl. destruct (min_by_key key l) as [x|] eqn:Hx, (min_by_key key k) as [y|] eqn:Hy; cbn.
  - apply min_by_key_Some in Hx as [Hx Hxm], Hy as [Hy Hym]. f_equal. destruct (Hlk x Hx) as (y' & Hy' & Hky), (Hkl y Hy) as (x' & Hx' & Hkx).
    apply leb_of_antisym; [rewrite <-Hkx; by apply Hxm|rewrite <-Hky; by apply Hym].
  - apply min_by_key_None in Hy as ->. apply min_by_key_Some in Hx as [Hx _]. destruct (Hlk x Hx) as (y & Hy & _). by apply not_elem_of_nil in Hy.
  - apply min_by_key_None in Hx as ->. apply min_by_key_Some in Hy as [Hy _]. destruct (Hkl y Hy) as (x & Hx & _). by apply not_elem_of_nil in Hx.
  - done.
Qed.
End least.
Lemma min_by_id_ext (l k : list N) : (forall x, x ∈ l <-> x ∈ k) -> min_by_key id l = min_by_key id k.
Proof.
  intros Hlk. pose proof (min_by_key_ext id l k) as He. rewrite !option_fmap_id in He. apply He.
  - intros x Hx. exists x. by split; [apply Hlk|].
  - intros x Hx. exists x. by split; [apply Hlk|].
Qed.

Lemma leb_pair_snd {K} `{CompareLaws K} (p : N) (k k' : K) : leb_of (p, k) (p, k') = true -> leb_of k k' = true.
Proof. unfold leb_of. unfold Ordered.compare at 1, prod_compare. cbn [fst snd]. by rewrite compare_refl. Qed.

Lemma leb_of_triple {J K} `{CompareLaws J} `{CompareLaws K} (p p' : N) (a a' : J) (i i' : N) (x x' : K) :
  leb_of (p, (a, (i, x))) (p', (a', (i', x'))) = true -> leb_of (p, (a, i)) (p', (a', i')) = true.
Proof.
  unfold leb_of, Ordered.compare, prod_compare. cbn [fst snd]. unfold Ordered.compare, prod_compare. cbn [fst snd].
  repeat (case_match; try done).
Qed.

Section decisions.
Context `{UuidInfo} `{IpNetAddrs}.

Lemma existsb_iff {A} (f : A -> bool) l : existsb f l = true <-> exists x, x ∈ l /\ f x = true.
Proof. rewrite existsb_exists. by setoid_rewrite list_elem_of_In. Qed.

(** What the scan over the rules sees. *)
Definition candidate (collections : list ResolvedCollection) (aliases : list N) (bindings : list GatewayBinding)
    (access : ResourceAccess) (rule : ResourceRule) : option (ResourceRule * N) :=
  resource ← min_by_key id (filter (fun resource => applies collections bindings access rule resource = true) aliases);
  Some (rule, resource).
Definition decision_key (c : ResourceRule * N) : N * (ResourceAction * (N * N)) := (rr_priority c.1, (action c.1, (rr_id c.1, c.2))).
Lemma decide_candidates rules collections aliases bindings access :
  decide_resource_aliases rules collections aliases bindings access =
  match decision_key <$> min_by_key decision_key (omap (candidate collections aliases bindings access) rules) with
  | Some (_, (act, (rule, resource))) => (act, Some rule, Some resource)
  | None => (Deny, None, None)
  end.
Proof.
  unfold decide_resource_aliases, candidate, decision_key. by destruct (min_by_key _ _) as [[rule resource]|].
Qed.
Lemma candidate_Some collections aliases bindings access rule r x : candidate collections aliases bindings access rule = Some (r, x) ->
  r = rule /\ x ∈ aliases /\ applies collections bindings access rule x = true.
Proof.
  unfold candidate. destruct (min_by_key _ _) as [y|] eqn:Hy; [|done]. cbn. intros [= <- <-].
  apply min_by_key_Some in Hy as [[Ha Hy]%list_elem_of_filter _]. done.
Qed.
Lemma candidate_applies collections aliases bindings access rule x : x ∈ aliases -> applies collections bindings access rule x = true ->
  exists y, candidate collections aliases bindings access rule = Some (rule, y) /\ y <= x.
Proof.
  intros Hx Ha. unfold candidate.
  assert (Hin : x ∈ filter (fun resource => applies collections bindings access rule resource = true) aliases) by by apply list_elem_of_filter.
  destruct (min_by_key _ _) as [y|] eqn:Hy.
  - apply min_by_key_Some in Hy as [_ Hy]. exists y. split; [done|]. by apply leb_of_N, (Hy x).
  - apply min_by_key_None in Hy. rewrite Hy in Hin. by apply not_elem_of_nil in Hin.
Qed.

(** What an address may be decided by: subnets, and the chosen exit. *)
Definition eligible_target (exit : option N) (address : IpAddr) (r : NetworkResource) : Prop :=
  target_contains (target (definition r)) address = true /\
  match target (definition r) with Subnet _ _ => True | Internet _ _ => exit = Some (nr_id r) end.
Lemma foldl_max_spec (l : list N) s : s <= foldl N.max s l /\ (forall x, x ∈ l -> x <= foldl N.max s l) /\ (foldl N.max s l = s \/ foldl N.max s l ∈ l).
Proof.
  revert s. induction l as [|a l IH]; intros s; cbn.
  { split_and!; [done|by intros ? ?%not_elem_of_nil|by left]. }
  destruct (IH (N.max s a)) as (Hi1 & Hi2 & Hi3). split_and!; [lia| |].
  - intros x [->|Hx]%elem_of_cons; [lia|by apply Hi2].
  - destruct Hi3 as [Hi3|Hi3]; [|right; by right]. destruct (N.max_spec s a) as [[_ Hm]|[_ Hm]]; rewrite Hm in Hi3 |- *; [right; rewrite Hi3; by left|by left].
Qed.
Lemma aliases_spec resources address exit x : x ∈ packet_resource_aliases resources address exit <->
  exists r, r ∈ resources /\ nr_id r = x /\ eligible_target exit address r /\
    forall r', r' ∈ resources -> eligible_target exit address r' -> specificity (target (definition r')) <= specificity (target (definition r)).
Proof.
  unfold packet_resource_aliases. set (m := filter _ resources).
  assert (Hm : forall r, r ∈ m <-> r ∈ resources /\ eligible_target exit address r).
  { intros r. unfold m. rewrite list_elem_of_filter, andb_true_iff. unfold eligible_target.
    destruct (target (definition r)); rewrite ?bool_decide_eq_true; naive_solver. }
  destruct m as [|r0 rest] eqn:Heq.
  { split; [by intros ?%not_elem_of_nil|]. intros (r & Hr & _ & He & _). by destruct (not_elem_of_nil r (proj2 (Hm r) (conj Hr He))). }
  rewrite <-Heq in *. set (sp := fun r => specificity (target (definition r))).
  destruct (foldl_max_spec (sp <$> rest) (sp r0)) as (Hm1 & Hm2 & Hm3). fold sp.
  set (top := foldl N.max (sp r0) (sp <$> rest)) in *.
  assert (Htop : forall r, r ∈ m -> sp r <= top).
  { intros r Hr. rewrite Heq in Hr. apply elem_of_cons in Hr as [->|Hr]; [done|]. apply Hm2. by apply list_elem_of_fmap_2. }
  assert (Hmax : exists r, r ∈ m /\ sp r = top).
  { rewrite Heq. destruct Hm3 as [Hm3|(r & Hr & Hin)%list_elem_of_fmap]; [exists r0; split; [by left|done]|exists r; split; [by right|done]]. }
  rewrite elem_of_sort_by_key, list_elem_of_fmap. setoid_rewrite list_elem_of_filter. split.
  - intros (r & -> & Hs & [Hr He]%Hm). exists r. split_and!; [done..|]. intros r' Hr' He'. fold (sp r') (sp r). unfold sp at 2. rewrite Hs. by apply Htop, Hm.
  - intros (r & Hr & <- & He & Hbest). exists r. split_and!; [done| |by apply Hm]. destruct Hmax as (q & Hq & Hqt).
    assert (Hrm : r ∈ m) by by apply Hm. apply Hm in Hq as [Hq Hqe]. specialize (Htop r Hrm). specialize (Hbest q Hq Hqe). unfold sp in *. lia.
Qed.

(** A collection of this kind that the rule selects has the member. *)
Definition collected (collections : list ResolvedCollection) (selected : gset N) (k : CollectionKind) (member : N) : Prop :=
  exists c, c ∈ collections /\ rc_kind c = k /\ rc_id c ∈ selected /\ member ∈ rc_members c.
(** What a rule is about: the accesses to one resource that all of its conditions admit; a
    condition left empty admits everything. *)
Record covers_access (rule : ResourceRule) (collections : list ResolvedCollection) (a : ResourceAccess) (resource : N) : Prop := {
  ca_enabled : rr_enabled rule = true;
  ca_valid : rule_validate rule = Ok tt;
  ca_current : forall t, not_after rule = Some t -> now a < t;
  ca_resource : resource ∈ rr_resources rule \/ collected collections (resource_collections rule) Resources resource;
  ca_source : source_collections rule = ∅ \/ collected collections (source_collections rule) Devices (id_uuid (source_peer a));
  ca_provider : providers rule = ∅ \/ provider a ∈ providers rule;
  ca_peer : ds_peers (source rule) = ∅ \/ source_peer a ∈ ds_peers (source rule);
  ca_labels : forall k v, ds_labels (source rule) !! k = Some v -> source_labels a !! k = Some v;
  ca_address : ds_cidrs (source rule) = [] \/ exists cidr, cidr ∈ ds_cidrs (source rule) /\ net_contains cidr (source_address a) = true;
  ca_protocol : rr_protocol rule = 0 \/ rr_protocol rule = ra_protocol a;
  ca_port : destination_ports rule = [] \/
    exists port first last, destination_port a = Some port /\ (first, last) ∈ destination_ports rule /\ first <= port <= last;
}.
Lemma collection_contains_iff collections selected k member :
  collection_contains collections selected k member = true <-> collected collections selected k member.
Proof.
  unfold collection_contains, collected. rewrite existsb_iff. apply exist_proper. intros c. rewrite !andb_true_iff, !bool_decide_eq_true. tauto.
Qed.
Lemma labels_match_iff wanted labels : labels_match wanted labels = true <-> forall k v, wanted !! k = Some v -> labels !! k = Some v.
Proof.
  unfold labels_match. rewrite forallb_forall. split.
  - intros Hf k v Hk. specialize (Hf (k, v)). rewrite bool_decide_eq_true in Hf. apply Hf, list_elem_of_In, elem_of_bt_entries, Hk.
  - intros Hf [k v] Hin%list_elem_of_In%elem_of_bt_entries. by apply bool_decide_eq_true, Hf.
Qed.
Lemma ports_match_iff ports port :
  bool_decide (ports = []) || match port with Some p => existsb (fun e => (e.1 <=? p) && (p <=? e.2)) ports | None => false end = true <->
  ports = [] \/ exists p first last, port = Some p /\ (first, last) ∈ ports /\ first <= p <= last.
Proof.
  rewrite orb_true_iff, bool_decide_eq_true. apply or_iff_compat_l. destruct port as [p|].
  - rewrite existsb_iff. split.
    + intros ([f l] & Hin & [Hf%N.leb_le Hl%N.leb_le]%andb_true_iff). by exists p, f, l.
    + intros (? & f & l & [= <-] & Hin & Hf & Hl). exists (f, l). split; [done|]. apply andb_true_iff. split; by apply N.leb_le.
  - split; [done|]. by intros (? & ? & ? & [=] & _).
Qed.
Lemma rule_covers rule collections a resource :
  resource_rule_matches rule collections (with_resource resource a) = true <-> covers_access rule collections a resource.
Proof.
  unfold resource_rule_matches, selector_matches. cbn [with_resource ra_resource now source_peer provider source_address source_labels ra_protocol destination_port].
  rewrite !andb_true_iff, ports_match_iff, labels_match_iff, !orb_true_iff, !collection_contains_iff, !bool_decide_eq_true, existsb_iff, !N.eqb_eq.
  assert (Hv : is_ok (rule_validate rule) = true <-> rule_validate rule = Ok tt) by (destruct (rule_validate rule) as [[]| |]; split; done).
  assert (Ht : match not_after rule with Some until => now a <? until | None => true end = true <-> forall t, not_after rule = Some t -> now a < t).
  { destruct (not_after rule) as [u|]; [|by split]. rewrite N.ltb_lt. split; [by intros ? ? [= <-]|by intros Hu; apply Hu]. }
  rewrite Hv, Ht. split; [intros ((((((((?&?)&?)&?)&?)&?)&(?&?)&?)&?)&?); by split|intros []; tauto].
Qed.

(** C13: A packet reaches a resource only by right. When the decision over the aliases of its
    destination allows it, the resource contains that address, is the chosen exit if it
    is one, and no resource that contains the address is more specific; an enabled,
    valid rule that has not expired names the resource, itself or by a collection, and
    its conditions on the source, the provider, the protocol and the port admit the
    access; an administrator approved the provider for the resource; and every denial
    that so covers the access, to this or any other alias, comes after that rule in
    priority. *)
Theorem resource_access_justified rules collections resources bindings access address exit rid res :
  decide_resource_aliases rules collections (packet_resource_aliases resources address exit) bindings access = (Allow, rid, res) ->
  exists rule r b, rid = Some (rr_id rule) /\ res = Some (nr_id r) /\ rule ∈ rules /\ r ∈ resources /\ b ∈ bindings /\
    action rule = Allow /\ covers_access rule collections access (nr_id r) /\
    eligible_target exit address r /\
    (forall r', r' ∈ resources -> eligible_target exit address r' -> specificity (target (definition r')) <= specificity (target (definition r))) /\
    gb_resource_id b = nr_id r /\ gb_peer_id b = provider access /\ approved b = true /\
    forall rule' r', rule' ∈ rules -> r' ∈ resources -> eligible_target exit address r' ->
      specificity (target (definition r')) = specificity (target (definition r)) -> action rule' = Deny ->
      covers_access rule' collections access (nr_id r') -> rr_priority rule < rr_priority rule'.
Proof.
  rewrite decide_candidates. set (aliases := packet_resource_aliases _ _ _). set (cs := omap _ rules).
  destruct (min_by_key decision_key cs) as [[rule x]|] eqn:Hmin; [|done]. cbn. intros [= Hact <- <-].
  apply min_by_key_Some in Hmin as [(rule0 & Hin & Hc)%list_elem_of_omap Hleast].
  apply candidate_Some in Hc as (<- & Hx & Ha). unfold applies in Ha. apply andb_true_iff in Ha as [Hmatch Happ].
  rewrite Hact in Happ. cbn in Happ. apply existsb_iff in Happ as (b & Hb & Hbb). breflect.
  match goal with Hd : bool_decide _ = true |- _ => apply bool_decide_eq_true in Hd end.
  destruct (proj1 (aliases_spec _ _ _ _) Hx) as (r & Hr & <- & He & Hbest).
  exists rule, r, b. split_and!; try done; [by apply rule_covers|].
  intros rule' r' Hrule' Hr' He' Hs Hdeny Hm'%rule_covers.
  assert (Hy : nr_id r' ∈ aliases).
  { apply aliases_spec. exists r'. split_and!; try done. intros q Hq Hqe. rewrite Hs. by apply Hbest. }
  destruct (candidate_applies collections aliases bindings access rule' (nr_id r') Hy) as (z & Hz & _).
  { unfold applies. by rewrite Hm', Hdeny. }
  assert (Hle : leb_of (decision_key (rule, nr_id r)) (decision_key (rule', z)) = true).
  { apply Hleast. apply list_elem_of_omap. by exists rule'. }
  unfold decision_key in Hle. cbn [fst snd] in Hle. rewrite Hact, Hdeny in Hle. pose proof (compare_pair_le _ _ _ _ Hle) as Hp.
  destruct (N.eq_dec (rr_priority rule) (rr_priority rule')) as [Hpe|]; [|lia]. rewrite Hpe in Hle.
  apply leb_pair_snd in Hle. done.
Qed.

Lemma candidate_ext collections aliases aliases' bindings bindings' access rule : (forall x, x ∈ aliases <-> x ∈ aliases') ->
  (forall b, b ∈ bindings <-> b ∈ bindings') ->
  candidate collections aliases bindings access rule = candidate collections aliases' bindings' access rule.
Proof.
  intros Ha Hb. unfold candidate. f_equal. apply min_by_id_ext. intros x. rewrite !list_elem_of_filter, Ha.
  enough (applies collections bindings access rule x = applies collections bindings' access rule x) as -> by done.
  unfold applies. f_equal. f_equal. apply eq_true_iff_eq. unfold provider_approved. rewrite !existsb_iff. by setoid_rewrite Hb.
Qed.

(** The decision does not depend on the order in which rules, aliases and bindings are
    listed, nor on repetitions: with the same rules, aliases and bindings it is the
    same, down to the rule and the resource it names. *)
Theorem decision_order_independent rules rules' collections aliases aliases' bindings bindings' access :
  (forall r, r ∈ rules <-> r ∈ rules') -> (forall x, x ∈ aliases <-> x ∈ aliases') -> (forall b, b ∈ bindings <-> b ∈ bindings') ->
  decide_resource_aliases rules collections aliases bindings access = decide_resource_aliases rules' collections aliases' bindings' access.
Proof.
  intros Hr Ha Hb. rewrite !decide_candidates.
  rewrite (min_by_key_ext decision_key (omap (candidate collections aliases bindings access) rules)
             (omap (candidate collections aliases' bindings' access) rules')); [done| |].
  - intros c (r & Hin & Hc)%list_elem_of_omap. exists c. split; [|done]. apply list_elem_of_omap. exists r.
    by rewrite <-Hr, <-(candidate_ext collections aliases aliases' bindings bindings' access r Ha Hb).
  - intros c (r & Hin & Hc)%list_elem_of_omap. exists c. split; [|done]. apply list_elem_of_omap. exists r.
    by rewrite Hr, (candidate_ext collections aliases aliases' bindings bindings' access r Ha Hb).
Qed.
(** For one resource whose provider is approved the two ways to decide agree. *)
Theorem decide_single_alias rules collections bindings access : provider_approved bindings (ra_resource access) (provider access) = true ->
  (decide_resource_aliases rules collections [ra_resource access] bindings access).1 = decide_resource_with_collections rules collections access.
Proof.
  intros Hp. rewrite decide_candidates. unfold decide_resource_with_collections.
  set (m := filter _ rules). set (key := fun r => (rr_priority r, (action r, rr_id r))).
  assert (Hw : with_resource (ra_resource access) access = access) by by destruct access.
  assert (Hcs : omap (candidate collections [ra_resource access] bindings access) rules = (fun r => (r, ra_resource access)) <$> m).
  { unfold m. clear m. induction rules as [|r rules IH]; [done|]. cbn [omap list_omap]. rewrite IH, filter_cons. unfold candidate at 1.
    assert (Ha : applies collections bindings access r (ra_resource access) = resource_rule_matches r collections access)
      by (unfold applies; by rewrite Hw, Hp, orb_true_r, andb_true_r).
    rewrite filter_cons, filter_nil, Ha. by destruct (decide (resource_rule_matches r collections access = true)). }
  rewrite Hcs. destruct (min_by_key key m) as [r|] eqn:Hr.
  - apply min_by_key_Some in Hr as [Hin Hmin]. destruct (min_by_key decision_key _) as [[r' x]|] eqn:Hc.
    + apply min_by_key_Some in Hc as [(r'' & [= <- ->] & Hin')%list_elem_of_fmap Hmin']. cbn.
      specialize (Hmin r' Hin'). specialize (Hmin' (r, ra_resource access) (list_elem_of_fmap_2 (fun r => (r, ra_resource access)) m r Hin)).
      assert (Hk : key r = key r'); [|unfold key in Hk; congruence]. apply leb_of_antisym; [done|].
      unfold decision_key in Hmin'. cbn [fst snd] in Hmin'. apply leb_of_triple in Hmin'. exact Hmin'.
    + apply min_by_key_None in Hc. apply fmap_nil_inv in Hc. rewrite Hc in Hin. by apply not_elem_of_nil in Hin.
  - apply min_by_key_None in Hr as ->. done.
Qed.
End decisions.


(** ** Which destinations the Internet is

    The reference definition: the prefixes, as the registries list them. *)

Definition special_v4 : list (N * N) :=
  [(0, 8); (0x0a000000, 8); (0x7f000000, 8); (0xe0000000, 3); (0x64400000, 10); (0xa9fe0000, 16); (0xac100000, 12); (0xc0a80000, 16);
   (0xc0000000, 24); (0xc0000200, 24); (0xc0586300, 24); (0xc6120000, 15); (0xc6336400, 24); (0xcb007100, 24)].
Definition global_v4 (n : N) : bool :=
  negb (existsb (fun p => prefix_contains 32 p n) special_v4) || (n =? 0xc0000009) || (n =? 0xc000000a).

Definition global_v6 (n : N) : bool :=
  if prefix_contains 128 (0x64ff9b * 2 ^ 96, 96) n then global_v4 (n mod 2 ^ 32) else
  prefix_contains 128 (0x2000 * 2 ^ 112, 3) n && negb (prefix_contains 128 (0x2002 * 2 ^ 112, 16) n)
  && negb (prefix_contains 128 (0x20010db8 * 2 ^ 96, 32) n) && negb (prefix_contains 128 (0x3fff * 2 ^ 112, 20) n)
  && (negb (prefix_contains 128 (0x2001 * 2 ^ 112, 23) n)
      || (n =? 0x20010001 * 2 ^ 96 + 1) || (n =? 0x20010001 * 2 ^ 96 + 2) || (n =? 0x20010001 * 2 ^ 96 + 3)
      || prefix_contains 128 (0x20010003 * 2 ^ 96, 32) n || prefix_contains 128 (0x200100040112 * 2 ^ 80, 48) n
      || prefix_contains 128 (0x20010020 * 2 ^ 96, 27) n).

Section internet.
#[local] Ltac Zify.zify_post_hook ::= Z.to_euclidean_division_equations.
Lemma octets_of n : n < 2 ^ 32 -> exists a b c d, a < 256 /\ b < 256 /\ c < 256 /\ d < 256 /\ n = ((a * 256 + b) * 256 + c) * 256 + d.
Proof.
  intros Hn. exists (n / 2 ^ 24), (n / 2 ^ 16 mod 256), (n / 2 ^ 8 mod 256), (n mod 256).
  split_and!; [apply N.Div0.div_lt_upper_bound; lia|by apply N.mod_lt..|].
  change (2 ^ 24) with (256 * 256 * 256). change (2 ^ 16) with (256 * 256). change (2 ^ 8) with 256.
  rewrite <-!N.Div0.div_div.
  pose proof (N.div_mod n 256 ltac:(done)). pose proof (N.div_mod (n / 256) 256 ltac:(done)).
  pose proof (N.div_mod (n / 256 / 256) 256 ltac:(done)). lia.
Qed.
#[local] Ltac beq := apply eq_true_iff_eq; rewrite ?andb_true_iff, ?orb_true_iff, ?N.eqb_eq, ?N.leb_le, ?N.ltb_lt.
Lemma public_v4_spec n : n < 2 ^ 32 -> public_v4 n = global_v4 n.
Proof.
  intros (a & b & c & d & Ha & Hb & Hc & Hd & ->)%octets_of. set (n := ((a * 256 + b) * 256 + c) * 256 + d).
  assert (E24 : N.shiftr n 24 = a) by (rewrite N.shiftr_div_pow2; subst n; change (2 ^ 24) with 16777216; lia).
  assert (E16 : N.shiftr n 16 = a * 256 + b) by (rewrite N.shiftr_div_pow2; subst n; change (2 ^ 16) with 65536; lia).
  assert (E8 : N.shiftr n 8 = (a * 256 + b) * 256 + c) by (rewrite N.shiftr_div_pow2; subst n; change (2 ^ 8) with 256; lia).
  unfold public_v4, global_v4, special_v4, prefix_contains. cbn [existsb fst snd].
  change (32 - 8) with 24; change (32 - 3) with 29; change (32 - 10) with 22; change (32 - 16) with 16; change (32-12) with 20; change (32-24) with 8; change (32-15) with 17.
  rewrite E24, E16, E8.
  assert (M16 : (a * 256 + b) mod 256 = b) by lia. assert (M8 : ((a * 256 + b) * 256 + c) mod 256 = c) by lia.
  assert (M0 : n mod 256 = d) by lia. rewrite M16, M8, M0.
  assert (P29 : (N.shiftr n 29 =? N.shiftr 0xe0000000 29) = (224 <=? a)).
  { change (N.shiftr 0xe0000000 29) with 7. rewrite N.shiftr_div_pow2. change (2 ^ 29) with 536870912. beq. subst n. lia. }
  assert (P22 : (N.shiftr n 22 =? N.shiftr 0x64400000 22) = (a =? 100) && ((64 <=? b) && (b <=? 127))).
  { change (N.shiftr 0x64400000 22) with 401. rewrite N.shiftr_div_pow2. change (2 ^ 22) with 4194304. beq. subst n. lia. }
  assert (P20 : (N.shiftr n 20 =? N.shiftr 0xac100000 20) = (a =? 172) && ((16 <=? b) && (b <=? 31))).
  { change (N.shiftr 0xac100000 20) with 2753. rewrite N.shiftr_div_pow2. change (2 ^ 20) with 1048576. beq. subst n. lia. }
  assert (P17 : (N.shiftr n 17 =? N.shiftr 0xc6120000 17) = (a =? 198) && ((b =? 18) || (b =? 19))).
  { change (N.shiftr 0xc6120000 17) with 25353. rewrite N.shiftr_div_pow2. change (2 ^ 17) with 131072. beq. subst n. lia. }
  assert (Q16 : forall x y, y < 256 -> (a * 256 + b =? x * 256 + y) = (a =? x) && (b =? y)) by (intros; beq; lia).
  assert (Q8 : forall x y z, y < 256 -> z < 256 -> ((a * 256 + b) * 256 + c =? (x * 256 + y) * 256 + z) = (a =? x) && (b =? y) && (c =? z)) by (intros; beq; lia).
  assert (Q0 : forall w, w < 256 -> (n =? ((192 * 256 + 0) * 256 + 0) * 256 + w) = (a =? 192) && (b =? 0) && (c =? 0) && (d =? w)) by (intros; beq; lia).
  rewrite P29, P22, P20, P17.
  change (N.shiftr 0xa9fe0000 16) with (169 * 256 + 254). change (N.shiftr 0xc0a80000 16) with (192 * 256 + 168).
  change (N.shiftr 0xc0000000 8) with ((192 * 256 + 0) * 256 + 0). change (N.shiftr 0xc0000200 8) with ((192 * 256 + 0) * 256 + 2).
  change (N.shiftr 0xc0586300 8) with ((192 * 256 + 88) * 256 + 99). change (N.shiftr 0xc6336400 8) with ((198 * 256 + 51) * 256 + 100).
  change (N.shiftr 0xcb007100 8) with ((203 * 256 + 0) * 256 + 113).
  change 0xc0000009 with (((192 * 256 + 0) * 256 + 0) * 256 + 9). change 0xc000000a with (((192 * 256 + 0) * 256 + 0) * 256 + 10).
  rewrite !Q16, !Q8, !Q0 by done.
  change (N.shiftr 0 24) with 0. change (N.shiftr 0x0a000000 24) with 10. change (N.shiftr 0x7f000000 24) with 127.
  destruct ((a =? 192) && (b =? 0) && (c =? 0)) eqn:Hx.
  - apply andb_true_iff in Hx as [[->%N.eqb_eq ->%N.eqb_eq]%andb_true_iff ->%N.eqb_eq]. cbn. by destruct (d =? 9), (d =? 10).
  - cbn [andb]. rewrite !orb_assoc, !orb_false_r. reflexivity.
Qed.

Lemma land_top s : s < 0x10000 -> (N.land s 0xe000 =? 0x2000) = (s / 2 ^ 13 =? 1).
Proof.
  intros Hs. pose proof (N.div_mod s (2 ^ 13) ltac:(done)) as Hd. pose proof (N.mod_lt s (2 ^ 13) ltac:(done)) as Hm.
  set (q := s / 2 ^ 13) in *. set (r := s mod 2 ^ 13) in *. assert (Hq : q < 8) by lia.
  assert (Hl : N.land s 0xe000 = N.shiftl (N.land q 7) 13).
  { change 0xe000 with (N.shiftl 7 13). rewrite N.shiftl_land. apply N.bits_inj. intros i. rewrite !N.land_spec.
    destruct (N.ltb_spec i 13) as [Hi|Hi]; [by rewrite !N.shiftl_spec_low by done; rewrite !andb_false_r|].
    rewrite !N.shiftl_spec_high' by done. f_equal. unfold q. rewrite <-N.shiftr_div_pow2, N.shiftr_spec by lia. f_equal. lia. }
  rewrite Hl. change 7 with (N.ones 3). rewrite N.land_ones, N.mod_small by done. rewrite N.shiftl_mul_pow2. beq.
  change (2 ^ 13) with 8192. lia.
Qed.


Lemma seg_step n k : N.shiftr n k = N.shiftr n (k + 16) * 0x10000 + N.shiftr n k mod 0x10000.
Proof. rewrite <-N.shiftr_shiftr, (N.shiftr_div_pow2 _ 16). change (2 ^ 16) with 0x10000. rewrite N.mul_comm. by apply N.div_mod. Qed.
Lemma seg_eqb x y x' y' : y < 0x10000 -> y' < 0x10000 -> (x * 0x10000 + y =? x' * 0x10000 + y') = (x =? x') && (y =? y').
Proof. intros. beq. lia. Qed.
Lemma shiftr_more n k j m : N.shiftr n k = m -> N.shiftr n (k + j) = m / 2 ^ j.
Proof. intros <-. by rewrite <-N.shiftr_shiftr, N.shiftr_div_pow2. Qed.

(** The number by its segments, cut where the prefixes end. *)
Lemma shiftr_segments n : n < 2 ^ 128 ->
  N.shiftr n 112 = segment n 0 /\ N.shiftr n 96 = segment n 0 * 0x10000 + segment n 1 /\
  N.shiftr n 80 = (segment n 0 * 0x10000 + segment n 1) * 0x10000 + segment n 2 /\
  N.shiftr n 32 = ((((segment n 0 * 0x10000 + segment n 1) * 0x10000 + segment n 2) * 0x10000 + segment n 3) * 0x10000 + segment n 4) * 0x10000
    + segment n 5 /\
  n = ((((((segment n 0 * 0x10000 + segment n 1) * 0x10000 + segment n 2) * 0x10000 + segment n 3) * 0x10000 + segment n 4) * 0x10000
    + segment n 5) * 0x10000 + segment n 6) * 0x10000 + segment n 7.
Proof.
  intros Hn.
  assert (E0 : N.shiftr n 112 = segment n 0).
  { unfold segment. cbn. rewrite N.mod_small; [done|]. rewrite N.shiftr_div_pow2. apply N.Div0.div_lt_upper_bound. exact Hn. }
  pose proof (seg_step n 96 : _ = N.shiftr n 112 * 0x10000 + segment n 1) as E1. rewrite E0 in E1.
  pose proof (seg_step n 80 : _ = N.shiftr n 96 * 0x10000 + segment n 2) as E2. rewrite E1 in E2.
  pose proof (seg_step n 64 : _ = N.shiftr n 80 * 0x10000 + segment n 3) as E3. pose proof (seg_step n 48 : _ = N.shiftr n 64 * 0x10000 + segment n 4) as E4.
  pose proof (seg_step n 32 : _ = N.shiftr n 48 * 0x10000 + segment n 5) as E5. pose proof (seg_step n 16 : _ = N.shiftr n 32 * 0x10000 + segment n 6) as E6.
  pose proof (seg_step n 0 : _ = N.shiftr n 16 * 0x10000 + segment n 7) as E7. rewrite N.shiftr_0_r in E7. rewrite E6, E5, E4, E3, E2 in E7.
  rewrite E4, E3, E2 in E5. done.
Qed.
Lemma inner_prefixes s0 s1 : s1 < 0x10000 ->
  ((s0 * 0x10000 + s1) / 2 ^ 12 =? N.shiftr (0x3fff * 2 ^ 112) 108) = (s0 =? 0x3fff) && (s1 <? 0x1000) /\
  ((s0 * 0x10000 + s1) / 2 ^ 9 =? N.shiftr (0x2001 * 2 ^ 112) 105) = (s0 =? 0x2001) && (s1 <? 0x200) /\
  ((s0 * 0x10000 + s1) / 2 ^ 5 =? N.shiftr (0x20010020 * 2 ^ 96) 101) = (s0 =? 0x2001) && ((0x20 <=? s1) && (s1 <=? 0x3f)).
Proof.
  intros Hs. split_and!.
  - change (N.shiftr (0x3fff * 2 ^ 112) 108) with 0x3fff0. change (2 ^ 12) with 0x1000. beq. lia.
  - change (N.shiftr (0x2001 * 2 ^ 112) 105) with 0x100080. change (2 ^ 9) with 0x200. beq. lia.
  - change (N.shiftr (0x20010020 * 2 ^ 96) 101) with 0x1000801. change (2 ^ 5) with 0x20. beq. lia.
Qed.
Lemma public_v6_spec n : n < 2 ^ 128 -> internet_destination (V6 n) = global_v6 n.
Proof.
  intros Hn. unfold internet_destination, global_v6, prefix_contains. cbn [fst snd].
  assert (Hlow : n mod 2 ^ 32 < 2 ^ 32) by by apply N.mod_lt. rewrite (public_v4_spec _ Hlow).
  assert (Hlt : forall i, segment n i < 0x10000) by (intros i; by apply N.mod_lt).
  destruct (shiftr_segments n Hn) as (H0 & H1 & H2 & H5 & H7).
  pose proof (shiftr_more n 112 13 _ H0) as H125. pose proof (shiftr_more n 96 12 _ H1) as H108. pose proof (shiftr_more n 96 9 _ H1) as H105.
  pose proof (shiftr_more n 96 5 _ H1) as H101.
  change (112 + 13) with 125 in H125. change (96 + 12) with 108 in H108. change (96 + 9) with 105 in H105. change (96 + 5) with 101 in H101.
  change (128 - 96) with 32. change (128 - 3) with 125. change (128 - 16) with 112. change (128 - 32) with 96. change (128 - 20) with 108.
  change (128 - 23) with 105. change (128 - 48) with 80. change (128 - 27) with 101.
  rewrite (land_top _ (Hlt 0)).
  change (N.shiftr (0x64ff9b * 2 ^ 96) 32) with (((((0x64 * 0x10000 + 0xff9b) * 0x10000 + 0) * 0x10000 + 0) * 0x10000 + 0) * 0x10000 + 0).
  assert (Hhost : forall w, w < 0x10000 -> (n =? 0x20010001 * 2 ^ 96 + w) =
    (segment n 0 =? 0x2001) && ((segment n 1 =? 1) && ((segment n 2 =? 0) && (segment n 3 =? 0) && (segment n 4 =? 0) && (segment n 5 =? 0) && (segment n 6 =? 0)) && (segment n 7 =? w))).
  { intros w Hw. rewrite H7 at 1.
    change (0x20010001 * 2 ^ 96) with (((((((0x2001 * 0x10000 + 1) * 0x10000 + 0) * 0x10000 + 0) * 0x10000 + 0) * 0x10000 + 0) * 0x10000 + 0) * 0x10000).
    rewrite !seg_eqb by done. by rewrite !andb_assoc. }
  rewrite !Hhost by done. rewrite H5, H125, H0, H1, H2, H108, H105, H101.
  change (N.shiftr (0x20010db8 * 2 ^ 96) 96) with (0x2001 * 0x10000 + 0xdb8). change (N.shiftr (0x20010003 * 2 ^ 96) 96) with (0x2001 * 0x10000 + 3).
  change (N.shiftr (0x200100040112 * 2 ^ 80) 80) with ((0x2001 * 0x10000 + 4) * 0x10000 + 0x112).
  rewrite !seg_eqb by done.
  change (N.shiftr (0x2000 * 2 ^ 112) 125) with 1. change (N.shiftr (0x2002 * 2 ^ 112) 112) with 0x2002.
  pose proof (Hlt 1) as L1. generalize dependent (segment n 1). intros s1 **.
  destruct (inner_prefixes (segment n 0) s1 L1) as (P20 & P23 & P27).
  rewrite P20, P23, P27. clear P20 P23 P27.
  destruct ((segment n 0 =? 100) && (s1 =? 65435) && (segment n 2 =? 0) && (segment n 3 =? 0) && (segment n 4 =? 0) && (segment n 5 =? 0)); [done|].
  destruct (segment n 0 / 2 ^ 13 =? 1); [|done]. destruct (segment n 0 =? 0x2002); [done|]. cbn [negb andb orb].
  destruct ((segment n 0 =? 0x2001) && (s1 =? 0xdb8)); [done|]. destruct ((segment n 0 =? 0x3fff) && (s1 <? 0x1000)); [done|]. cbn [negb andb orb].
  destruct (segment n 0 =? 0x2001); [|done]. cbn [andb orb negb]. destruct (s1 <? 0x200); [|done]. cbn [negb orb].
  rewrite !andb_orb_distrib_r. reflexivity.
Qed.
End internet.
(** A grant of the Internet covers public destinations only. The nested tests of the code
    on the octets and segments of an address decide exactly this: outside the
    special-purpose IPv4 prefixes (but for the two anycast addresses of 192.0.0.0/24),
    inside 2000::/3 without 6to4, documentation and the protocol assignments that are not
    global, and an address of the NAT64 prefix just when the IPv4 address in it is public. *)
Theorem internet_destination_exact a : IpAddr_wf a ->
  internet_destination a = match a with V4 n => global_v4 n | V6 n => global_v6 n end.
Proof. destruct a as [n|n]; intros Hn; [by apply public_v4_spec|by apply public_v6_spec]. Qed.

(** ** Concrete instances *)

(** The fields RFC 9562 gives version and nil. *)
Definition uuid_info_rfc : UuidInfo := {| get_version_num v := N.land (N.shiftr v 76) 0xf; is_nil v := v =? 0 |}.
Definition prefix_net_addr (n : N * N + N * N) : IpAddr := match n with inl m => V4 m.1 | inr m => V6 m.1 end.
Definition prefix_net_broadcast (n : N * N + N * N) : IpAddr :=
  match n with inl m => V4 (N.lor m.1 (N.ones (32 - m.2))) | inr m => V6 (N.lor m.1 (N.ones (128 - m.2))) end.
Definition ipnet_prefix_addrs : @IpNetAddrs ipnet_prefix := @Build_IpNetAddrs ipnet_prefix prefix_net_addr prefix_net_broadcast.
#[local] Existing Instance uuid_info_rfc.
#[local] Existing Instance ipnet_prefix.
#[local] Existing Instance ipnet_prefix_addrs.

(** A version 4 UUID. *)
Definition example_uuid (n : N) : N := 0x4000_8000_0000_0000_0000 + n.
Definition example_selector : DeviceSelector := mkSelector ∅ ∅ [].
Definition example_resource (n : N) (t : ResourceTarget) : NetworkResource :=
  mkResource (example_uuid n) (mkDomainId (example_uuid 1)) 1 (mkDefinition [x61] t ∅ None).
Definition example_host (n : N) : NetworkResource := example_resource n (Subnet (inl (0xc0a81432, 32)) 7).
(** A site network, two names for a host in it, and an exit. *)
Definition example_resources : list NetworkResource :=
  [example_resource 10 (Subnet (inl (0xc0a81400, 24)) 7); example_host 12;
   example_host 11; example_resource 13 (Internet true true)].
Definition example_rule (n priority : N) (a : ResourceAction) (resource : N) : ResourceRule :=
  mkRule (example_uuid n) priority true a example_selector {[ example_uuid resource ]} ∅ ∅ ∅ 6 [(80, 443)] None.
Definition example_gateway : DomainId := mkDomainId (example_uuid 30).
Definition example_binding (n resource : N) : GatewayBinding :=
  mkBinding (example_uuid n) (example_uuid resource) example_gateway 1 true 10 Snat false Manual.
Definition example_access (port : N) : ResourceAccess :=
  mkAccess (mkDomainId (example_uuid 2)) (V4 0x64400001) ∅ 0 example_gateway 6 (Some port) 1000.
Definition example_rules : list ResourceRule := [example_rule 20 5 Allow 11; example_rule 21 6 Deny 12; example_rule 22 1 Deny 10].

(** The denial of the second name has the later priority: the first name decides. *)
Lemma resource_access_justified_witness :
  packet_resource_aliases example_resources (V4 0xc0a81432) None = [example_uuid 11; example_uuid 12] /\
  decide_resource_aliases example_rules [] (packet_resource_aliases example_resources (V4 0xc0a81432) None) [example_binding 40 11] (example_access 443)
    = (Allow, Some (example_uuid 20), Some (example_uuid 11)) /\
  (exists rule, rule ∈ example_rules /\ action rule = Allow /\ rr_priority rule < 6) /\
  decide_resource_aliases (example_rule 23 5 Deny 12 :: example_rules) []
    (packet_resource_aliases example_resources (V4 0xc0a81432) None) [example_binding 40 11] (example_access 443)
    = (Deny, Some (example_uuid 23), Some (example_uuid 12)).
Proof.
  assert (Hd : decide_resource_aliases example_rules [] (packet_resource_aliases example_resources (V4 0xc0a81432) None) [example_binding 40 11]
    (example_access 443) = (Allow, Some (example_uuid 20), Some (example_uuid 11))) by (vm_compute; reflexivity).
  destruct (resource_access_justified _ _ _ _ _ _ _ _ _ Hd) as (rule & r & b & _ & Hres & Hrule & Hin & _ & Hact & _ & He & _ & _ & _ & _ & Hdeny).
  assert (Hlt : rr_priority rule < 6).
  { assert (Hname : r = example_host 11).
    { unfold example_resources in Hin. rewrite !elem_of_cons, elem_of_nil in Hin.
      destruct Hin as [->|[->|[->|[->|[]]]]]; [discriminate Hres|discriminate Hres|reflexivity|discriminate Hres]. }
    apply (Hdeny (example_rule 21 6 Deny 12) (example_host 12));
      [right; left|right; left|split; [vm_compute; reflexivity|exact I]|rewrite Hname; reflexivity|reflexivity|].
    apply rule_covers. vm_compute. reflexivity. }
  split; [vm_compute; reflexivity|]. split; [exact Hd|]. split; [exact (ex_intro _ rule (conj Hrule (conj Hact Hlt)))|]. vm_compute. reflexivity.
Defined.
Lemma decision_order_independent_witness :
  decide_resource_aliases (reverse example_rules) [] [example_uuid 12; example_uuid 11; example_uuid 12] [example_binding 40 11] (example_access 443)
    = (Allow, Some (example_uuid 20), Some (example_uuid 11)).
Proof.
  assert (Hx : decide_resource_aliases example_rules [] [example_uuid 11; example_uuid 12] [example_binding 40 11] (example_access 443)
    = (Allow, Some (example_uuid 20), Some (example_uuid 11))) by (vm_compute; reflexivity).
  assert (Hset : forall a b x : N, x ∈ [a; b; a] <-> x ∈ [b; a]) by (intros; rewrite !elem_of_cons, elem_of_nil; tauto).
  rewrite <-Hx. apply decision_order_independent; [intros r; apply elem_of_reverse|apply Hset|reflexivity].
Defined.
(** The metadata service of a cloud, behind NAT64. *)
Lemma internet_destination_exact_witness :
  internet_destination (V6 (0x64ff9b * 2 ^ 96 + 0xa9fea9fe)) = false /\ internet_destination (V4 0xc0000009) = true /\
  internet_destination (V6 (0x26064700 * 2 ^ 96 + 0x1111)) = true.
Proof.
  split; [|split].
  - rewrite (internet_destination_exact (V6 (0x64ff9b * 2 ^ 96 + 0xa9fea9fe)) eq_refl). vm_compute. reflexivity.
  - rewrite (internet_destination_exact (V4 0xc0000009) eq_refl). vm_compute. reflexivity.
  - rewrite (internet_destination_exact (V6 (0x26064700 * 2 ^ 96 + 0x1111)) eq_refl). vm_compute. reflexivity.
Defined.

End Rs.
