(* ===== verification/Gateways.v ===== *)
(** * The choice of a gateway (crate [peerward-management]: selection.rs)

    A consumer observes the paths to the gateways it was granted and chooses one per
    resource for new connections. Instants are nanoseconds. *)

From S2P Require Import Prelude Ordered Net Resources.
From Stdlib Require Import NArith Lia.
From stdpp Require Import base tactics decidable countable numbers list sorting gmap.
Set Default Goal Selector "!".
Local Open Scope N_scope.

Module Gs.
Import Rs.

Definition SECOND : N := 1_000_000_000.
Inductive PathHealth := Unknown | Healthy | Unhealthy.
#[export] Instance PathHealth_eq_dec : EqDecision PathHealth.
Proof. solve_decision. Defined.
Record Observation := mkObservation { o_health : PathHealth; failures : N; successes : N; stable_since : N; checked : N }.
Record GatewaySelector := mkSelector { observations : gmap N Observation; selected : gmap N N }.
Definition selector_default : GatewaySelector := mkSelector ∅ ∅.

(** ** The operations *)

Definition unobserved (now : N) : Observation := mkObservation Unknown 0 0 now now.
Definition register (binding now : N) (s : GatewaySelector) : GatewaySelector :=
  match observations s !! binding with
  | Some _ => s
  | None => mkSelector (<[binding := unobserved now]> (observations s)) (selected s)
  end.
Definition retain (keep : N -> bool) (s : GatewaySelector) : GatewaySelector :=
  let kept := filter (fun e : N * Observation => keep e.1 = true) (observations s) in
  mkSelector kept (filter (fun e : N * N => is_Some (kept !! e.2)) (selected s)).
Definition observation_health (now : N) (o : option Observation) : PathHealth :=
  match o with
  | Some o => if now - checked o <=? 15 * SECOND then o_health o else Unknown
  | None => Unknown
  end.
Definition health (binding now : N) (s : GatewaySelector) : PathHealth := observation_health now (observations s !! binding).
Definition eligible (binding now : N) (s : GatewaySelector) : bool :=
  bool_decide (health binding now s = Healthy)
  || match observations s !! binding with
     | Some o => bool_decide (o_health o = Unknown) && (failures o <? 3) && (now - stable_since o <? 15 * SECOND)
     | None => false
     end.
Definition observed (success : bool) (now : N) (o : Observation) : Observation :=
  if success then
    let count := N.min (successes o + 1) U8_MAX in
    mkObservation (if bool_decide (o_health o = Unknown) || (3 <=? count) then Healthy else o_health o) 0 count
      (if successes o =? 0 then now else stable_since o) now
  else
    let count := N.min (failures o + 1) U8_MAX in
    mkObservation (if 3 <=? count then Unhealthy else o_health o) count 0 (stable_since o) now.
Definition observe (binding : N) (success : bool) (now : N) (s : GatewaySelector) : GatewaySelector :=
  mkSelector (<[binding := observed success now (default (unobserved now) (observations s !! binding))]> (observations s)) (selected s).

Section selection.
Context `{UuidInfo}.

(** The provider published this version of the binding, forwards, and its statement holds. *)
Definition advertised (advertisements : list RouteAdvertisement) (wall : N) (b : GatewayBinding) : bool :=
  existsb (fun ad => (ad_binding_id ad =? gb_id b) && (ad_binding_version ad =? gb_version b) && bool_decide (ad_peer_id ad = gb_peer_id b)
                     && published ad && forwarding_ready ad && (wall <? ad_valid_until ad)) advertisements.
Definition is_candidate (aliases : list N) (advertisements : list RouteAdvertisement) (wall now : N) (s : GatewaySelector) (b : GatewayBinding) : bool :=
  bool_decide (gb_resource_id b ∈ aliases) && approved b && is_ok (binding_validate b) && eligible (gb_id b) now s
  && advertised advertisements wall b.
Definition binding_key (b : GatewayBinding) : N * (DomainId * N) := (gb_priority b, (gb_peer_id b, gb_id b)).
Definition select_aliases (resource : N) (aliases : list N) (bindings : list GatewayBinding) (advertisements : list RouteAdvertisement)
    (wall now : N) (s : GatewaySelector) : GatewaySelector * option PeerId :=
  let candidates := sort_by_key binding_key (filter (fun b => is_candidate aliases advertisements wall now s b = true) bindings) in
  match candidates with
  | [] => (s, None)
  | preferred :: _ =>
      let current := id ← selected s !! resource; find (fun b => gb_id b =? id) candidates in
      let choice :=
        match current with
        | Some current =>
            if negb (gb_id current =? gb_id preferred)
               && match observations s !! gb_id preferred with
                  | Some o => now - stable_since o <? 30 * SECOND
                  | None => true
                  end
            then current else preferred
        | None => preferred
        end in
      (mkSelector (observations s) (<[resource := gb_id choice]> (selected s)), Some (gb_peer_id choice))
  end.
Definition select (resource : N) (bindings : list GatewayBinding) (advertisements : list RouteAdvertisement) (wall now : N) (s : GatewaySelector)
    : GatewaySelector * option PeerId := select_aliases resource [resource] bindings advertisements wall now s.
End selection.

(** ** What the selector knows of a path

    The specification: for each path the time it was registered and the checks since,
    the last one first. *)

Inductive op :=
| Register (binding now : N) | Observe (binding : N) (success : bool) (now : N) | Retain (keep : N -> bool)
| Select (resource : N) (aliases : list N) (bindings : list GatewayBinding) (advertisements : list RouteAdvertisement) (wall now : N).
Notation trails := (gmap N (N * list (bool * N))).
Definition spec_step (t : trails) (o : op) : trails :=
  match o with
  | Register b now => match t !! b with Some _ => t | None => <[b := (now, [])]> t end
  | Observe b success now => let '(t0, l) := default (now, []) (t !! b) in <[b := (t0, (success, now) :: l)]> t
  | Retain keep => filter (fun e : N * (N * list (bool * N)) => keep e.1 = true) t
  | Select _ _ _ _ _ _ => t
  end.
Definition step `{UuidInfo} (s : GatewaySelector) (o : op) : GatewaySelector :=
  match o with
  | Register b now => register b now s
  | Observe b success now => observe b success now s
  | Retain keep => retain keep s
  | Select resource aliases bindings ads wall now => (select_aliases resource aliases bindings ads wall now s).1
  end.
(** Checks with one result in a row at the end. *)
Fixpoint streak (success : bool) (l : list (bool * N)) : N :=
  match l with
  | (b, _) :: rest => if Bool.eqb b success then streak success rest + 1 else 0
  | [] => 0
  end.
Definition last_check (trail : N * list (bool * N)) : N := match trail.2 with (_, t) :: _ => t | [] => trail.1 end.
(** The start of the successes in a row at the end. *)
Fixpoint streak_start (t : N) (l : list (bool * N)) : N :=
  match l with
  | (true, now) :: rest => if streak true rest =? 0 then now else streak_start t rest
  | (false, _) :: rest => streak_start t rest
  | [] => t
  end.
Definition succeeded (l : list (bool * N)) : Prop := exists t, (true, t) ∈ l.
Record tracks (trail : N * list (bool * N)) (o : Observation) : Prop := {
  tk_checked : checked o = last_check trail;
  tk_failures : failures o = N.min (streak false trail.2) U8_MAX;
  tk_successes : successes o = N.min (streak true trail.2) U8_MAX;
  tk_stable : stable_since o = streak_start trail.1 trail.2;
  tk_unknown : o_health o = Unknown -> ~ succeeded trail.2 /\ streak false trail.2 < 3;
  tk_healthy : o_health o = Healthy -> succeeded trail.2 /\ streak false trail.2 < 3;
  tk_unhealthy : o_health o = Unhealthy -> streak true trail.2 < 3;
}.
Definition refines (s : GatewaySelector) (t : trails) : Prop :=
  (forall b, match observations s !! b, t !! b with
             | Some o, Some trail => tracks trail o
             | None, None => True
             | _, _ => False
             end) /\
  forall r b, selected s !! r = Some b -> is_Some (observations s !! b).

(** ** The selector implements the specification *)

Lemma streak_other success l : streak success l = 0 \/ streak (negb success) l = 0.
Proof. destruct l as [|[b t] l]; cbn; [by left|]. destruct b, success; cbn; auto. Qed.
Lemma succeeded_cons b t l : succeeded ((b, t) :: l) <-> b = true \/ succeeded l.
Proof.
  unfold succeeded. split.
  - intros [t' [[= -> ->]|Hin]%elem_of_cons]; [by left|right; by exists t'].
  - intros [->|[t' Hin]]; [exists t; by left|exists t'; by right].
Qed.
Lemma streak_start_none t l : ~ succeeded l -> streak_start t l = t.
Proof.
  induction l as [|[b t'] l IH]; [done|]. rewrite succeeded_cons. intros Hn. destruct b; [by destruct Hn; left|]. cbn. apply IH. naive_solver.
Qed.
Lemma tracks_unobserved now : tracks (now, []) (unobserved now).
Proof.
  assert (Hn : ~ succeeded []) by by intros [t ?%not_elem_of_nil].
  split; cbn; try done.
Qed.
Lemma tracks_observed t0 l o success now : tracks (t0, l) o -> tracks (t0, (success, now) :: l) (observed success now o).
Proof.
  intros [Hc Hf Hs Hst Hu Hh Hun]. cbn [fst snd] in *. unfold observed, U8_MAX in *.
  pose proof (streak_other true l) as Hzero. cbn [negb] in Hzero. destruct success.
  - set (h := if _ || _ then Healthy else o_health o).
    assert (Hh' : h <> Unknown /\ (h = Unhealthy -> streak true l + 1 < 3)).
    { unfold h. destruct (bool_decide_reflect (o_health o = Unknown)) as [|Hk]; cbn [orb]; [done|].
      destruct (N.leb_spec 3 (N.min (successes o + 1) 255)); [done|]. split; [done|]. intros _. lia. }
    destruct Hh' as [Hk Hl]. split; cbn [o_health failures successes stable_since checked fst snd streak streak_start Bool.eqb last_check];
      rewrite ?succeeded_cons; try done.
    + rewrite Hs. unfold U8_MAX. lia.
    + rewrite Hs, Hst. destruct (N.eqb_spec (N.min (streak true l) 255) 0), (N.eqb_spec (streak true l) 0); try done; lia.
    + intros _. split; [by left|lia].
  - split; cbn [o_health failures successes stable_since checked fst snd streak streak_start Bool.eqb last_check]; rewrite ?succeeded_cons; try done.
    + rewrite Hf. unfold U8_MAX. lia.
    + case_match; breflect; [done|]. intros Ho. destruct (Hu Ho) as [Hn Hl]. split; [naive_solver|]. rewrite Hf in *. lia.
    + case_match; breflect; [done|]. intros Ho. destruct (Hh Ho) as [Hn Hl]. split; [by right|]. rewrite Hf in *. lia.
Qed.

Section refinement.
Context `{UuidInfo}.

Lemma eligible_observed binding now s : eligible binding now s = true -> is_Some (observations s !! binding).
Proof. unfold eligible, health, observation_health. destruct (observations s !! binding); [by eexists|done]. Qed.
Lemma select_cases resource aliases bindings ads wall now s :
  let cs := sort_by_key binding_key (filter (fun b => is_candidate aliases ads wall now s b = true) bindings) in
  (cs = [] /\ select_aliases resource aliases bindings ads wall now s = (s, None)) \/
  exists preferred choice, head cs = Some preferred /\ choice ∈ cs /\
    select_aliases resource aliases bindings ads wall now s =
      (mkSelector (observations s) (<[resource := gb_id choice]> (selected s)), Some (gb_peer_id choice)) /\
    (choice = preferred \/ selected s !! resource = Some (gb_id choice) /\
       match observations s !! gb_id preferred with Some o => now - stable_since o < 30 * SECOND | None => True end).
Proof.
  intros cs. unfold select_aliases. fold cs. destruct cs as [|preferred cs']; [by left|right]. exists preferred.
  destruct (selected s !! resource) as [id|] eqn:Hsel; cbn [mbind option_bind].
  2: { exists preferred. split_and!; [done|by left|done|by left]. }
  destruct (find _ (preferred :: cs')) as [current|] eqn:Hf.
  2: { exists preferred. split_and!; [done|by left|done|by left]. }
  apply find_some in Hf as [Hin Hid]. apply list_elem_of_In in Hin. breflect.
  destruct (negb _ && _) eqn:Hkeep.
  - exists current. split_and!; [done|done|done|right]. split; [by rewrite Hid|]. apply andb_true_iff in Hkeep as [_ Hk]. by case_match; breflect.
  - exists preferred. split_and!; [done|by left|done|by left].
Qed.
Lemma candidate_in aliases bindings ads wall now s b :
  b ∈ sort_by_key binding_key (filter (fun b => is_candidate aliases ads wall now s b = true) bindings) <->
  b ∈ bindings /\ is_candidate aliases ads wall now s b = true.
Proof. rewrite elem_of_sort_by_key, list_elem_of_filter. naive_solver. Qed.
Lemma is_candidate_iff aliases ads wall now s b : is_candidate aliases ads wall now s b = true <->
  gb_resource_id b ∈ aliases /\ approved b = true /\ binding_validate b = Ok tt /\ eligible (gb_id b) now s = true /\ advertised ads wall b = true.
Proof.
  unfold is_candidate. rewrite !andb_true_iff, bool_decide_eq_true. destruct (binding_validate b) as [[]| |]; cbn; naive_solver.
Qed.

Lemma refines_step s t o : refines s t -> refines (step s o) (spec_step t o).
Proof.
  intros [Ho Hs]. destruct o as [b now|b success now|keep|resource aliases bindings ads wall now]; cbn [step spec_step].
  - unfold register. specialize (Ho b) as Hb. destruct (observations s !! b) eqn:E, (t !! b) eqn:F; try done. split; cbn [observations selected].
    + intros c. destruct (decide (c = b)) as [->|]; [rewrite !lookup_insert_eq; apply tracks_unobserved|rewrite !lookup_insert_ne by done; apply Ho].
    + intros r c Hc. destruct (decide (c = b)) as [->|]; [by rewrite lookup_insert_eq|rewrite lookup_insert_ne by done; by apply (Hs r)].
  - unfold observe. specialize (Ho b) as Hb. destruct (default (now, []) (t !! b)) as [t0 l] eqn:Hd. split; cbn [observations selected].
    + intros c. destruct (decide (c = b)) as [->|]; [rewrite !lookup_insert_eq|rewrite !lookup_insert_ne by done; apply Ho].
      apply tracks_observed. destruct (observations s !! b), (t !! b); cbn in *; try done; [by subst|]. injection Hd as <- <-. apply tracks_unobserved.
    + intros r c Hc. destruct (decide (c = b)) as [->|]; [by rewrite lookup_insert_eq|rewrite lookup_insert_ne by done; by apply (Hs r)].
  - split; cbn [retain observations selected].
    + intros c. specialize (Ho c). rewrite !map_lookup_filter. destruct (observations s !! c), (t !! c); cbn; try done.
      case_guard; cbn; done.
    + intros r c [Hc Hk]%map_lookup_filter_Some. exact Hk.
  - destruct (select_cases resource aliases bindings ads wall now s) as [[_ ->]|(p & choice & _ & Hin & -> & _)]; [done|]. split; [done|]. cbn [fst observations selected].
    intros r c Hc. destruct (decide (r = resource)) as [->|]; [|rewrite lookup_insert_ne in Hc by done; by apply (Hs r)].
    rewrite lookup_insert_eq in Hc. injection Hc as <-. apply candidate_in in Hin as [_ (_ & _ & _ & He & _)%is_candidate_iff]. by eapply eligible_observed.
Qed.
Lemma refines_run ops : refines (foldl step selector_default ops) (foldl spec_step ∅ ops).
Proof.
  induction ops as [|o ops IH] using rev_ind; [|rewrite !foldl_app; by apply refines_step].
  split; [done|]. intros r b Hb. cbn in Hb. by rewrite lookup_empty in Hb.
Qed.

(** Why a path may be used: it answered, it is checked, and it did not fail three times in
    a row; or it is new. *)
Definition usable_path (now : N) (trail : N * list (bool * N)) : Prop :=
  streak false trail.2 < 3 /\
  (succeeded trail.2 /\ now - last_check trail <= 15 * SECOND \/ ~ succeeded trail.2 /\ now - trail.1 < 15 * SECOND).
Lemma eligible_usable b now s t : refines s t -> eligible b now s = true -> exists trail, t !! b = Some trail /\ usable_path now trail.
Proof.
  intros [Ho _]. specialize (Ho b). unfold eligible, health, observation_health, usable_path. destruct (observations s !! b) as [o|]; [|done].
  destruct (t !! b) as [trail|]; [|done]. destruct Ho as [Hc Hf Hsu Hst Hu Hh _]. intros [He|He]%orb_true_iff; exists trail; split; try done.
  - apply bool_decide_eq_true in He. case_match; [|done]. breflect. destruct (Hh He) as [Hd Hl]. split; [done|left]. by rewrite <-Hc.
  - apply andb_true_iff in He as [[He _]%andb_true_iff Ht%N.ltb_lt]. apply bool_decide_eq_true in He. destruct (Hu He) as [Hd Hl].
    split; [done|right]. split; [done|]. by rewrite Hst, streak_start_none in Ht.
Qed.

(** New connections go through a gateway with a reason. After any sequence of
    registrations, checks, removals and choices, the Peer chosen for a resource has an
    approved, valid binding of it, published by that Peer in this very version and not
    expired, whose path either answered and was checked within 15 seconds, or is new
    since less than 15 seconds, and in both cases did not fail its last three checks. It is
    the best of these by priority, unless connections already go through it and the best
    one is not stable for 30 seconds. A choice is made whenever there is such a binding;
    otherwise nothing changes. *)
Theorem gateway_choice_justified ops resource aliases bindings ads wall now :
  let s := foldl step selector_default ops in
  (forall s' peer, select_aliases resource aliases bindings ads wall now s = (s', Some peer) ->
     exists b trail, b ∈ bindings /\ gb_peer_id b = peer /\ gb_resource_id b ∈ aliases /\ approved b = true /\ binding_validate b = Ok tt /\
       advertised ads wall b = true /\ foldl spec_step ∅ ops !! gb_id b = Some trail /\ usable_path now trail /\
       selected s' = <[resource := gb_id b]> (selected s) /\
       exists best, best ∈ bindings /\ is_candidate aliases ads wall now s best = true /\
         (forall c, c ∈ bindings -> is_candidate aliases ads wall now s c = true -> leb_of (binding_key best) (binding_key c) = true) /\
         (b = best \/ selected s !! resource = Some (gb_id b) /\
            exists trail', foldl spec_step ∅ ops !! gb_id best = Some trail' /\ now - streak_start trail'.1 trail'.2 < 30 * SECOND)) /\
  ((select_aliases resource aliases bindings ads wall now s).2 = None <->
     forall b, b ∈ bindings -> is_candidate aliases ads wall now s b = false).
Proof.
  intros s. pose proof (refines_run ops) as Hr. fold s in Hr.
  destruct (select_cases resource aliases bindings ads wall now s) as [[Hcs ->]|(best & b & Hbest & Hin & -> & Hkept)].
  - split; [done|]. split; [|done]. intros _ c Hc. apply not_true_is_false. intros Hcand.
    assert (Hx : c ∈ @nil GatewayBinding); [|by apply not_elem_of_nil in Hx]. rewrite <-Hcs. by apply candidate_in.
  - split.
    + intros s' peer [= <- <-]. apply candidate_in in Hin as [Hb Hcand]. pose proof Hcand as (Ha & Hap & Hv & He & Had)%is_candidate_iff.
      destruct (eligible_usable _ _ _ _ Hr He) as (trail & Ht & Hu). exists b, trail. split_and!; try done.
      apply (min_by_key_Some binding_key) in Hbest as [Hbest Hleast]. apply list_elem_of_filter in Hbest as [Hbc Hbb]. exists best. split_and!; try done.
      { intros c Hc Hcc. apply Hleast. by apply list_elem_of_filter. }
      destruct Hkept as [->|[Hsel Hst]]; [by left|right]. split; [done|].
      apply is_candidate_iff in Hbc as (_ & _ & _ & Hbe & _). pose proof (eligible_observed _ _ _ Hbe) as [o Ho].
      destruct Hr as [Hr _]. specialize (Hr (gb_id best)). rewrite Ho in Hr, Hst. destruct (foldl spec_step ∅ ops !! gb_id best) as [trail'|]; [|done].
      exists trail'. split; [done|]. by rewrite <-(tk_stable _ _ Hr).
    + cbn [snd]. split; [done|]. intros Hno. apply candidate_in in Hin as [Hb Hc]. by rewrite Hno in Hc.
Qed.
End refinement.

(** ** A concrete choice

    Two gateways answer; the better one fails three times and comes back. *)

#[local] Existing Instance uuid_info_rfc.
Definition example_provider (n : N) : DomainId := mkDomainId (example_uuid (100 + n)).
Definition example_binding (n priority : N) : GatewayBinding :=
  mkBinding (example_uuid n) (example_uuid 50) (example_provider n) 3 true priority Snat false Manual.
Definition example_bindings : list GatewayBinding := [example_binding 1 20; example_binding 2 10].
Definition example_ad (n : N) : RouteAdvertisement := mkAdvertisement 3 (example_uuid n) (example_provider n) 1 true 5000 true.
Definition example_ads : list RouteAdvertisement := [example_ad 1; example_ad 2].
Definition example_choose (t : N) : op := Select (example_uuid 50) [example_uuid 50] example_bindings example_ads 1000 (t * SECOND).
Definition both (ok : bool) (t : N) : list op := [Observe (example_uuid 1) true (t * SECOND); Observe (example_uuid 2) ok (t * SECOND)].
Definition example_ops : list op :=
  both true 0 ++ [example_choose 0] ++ both false 5 ++ both false 10 ++ both false 15 ++ [example_choose 16]
  ++ both true 20 ++ both true 25 ++ both true 30.
Definition choose_at (t : N) (s : GatewaySelector) : GatewaySelector * option PeerId :=
  select (example_uuid 50) example_bindings example_ads 1000 (t * SECOND) s.

(** The second gateway was chosen first and left when it failed; it is healthy again, but
    for less than thirty seconds. *)
Lemma gateway_choice_justified_witness : exists s',
  select_aliases (example_uuid 50) [example_uuid 50] example_bindings example_ads 1000 (31 * SECOND) (foldl step selector_default example_ops)
    = (s', Some (example_provider 1)) /\
  (exists b, gb_peer_id b = example_provider 1 /\ approved b = true /\ advertised example_ads 1000 b = true) /\
  (choose_at 0 (foldl step selector_default (both true 0))).2 = Some (example_provider 2) /\
  (choose_at 16 (foldl step selector_default (take 9 example_ops))).2 = Some (example_provider 1).
Proof.
  destruct (select_aliases (example_uuid 50) [example_uuid 50] example_bindings example_ads 1000 (31 * SECOND) (foldl step selector_default example_ops))
    as [s' r] eqn:Hs. exists s'.
  assert (Hr : r = Some (example_provider 1)).
  { assert (Hc : (select_aliases (example_uuid 50) [example_uuid 50] example_bindings example_ads 1000 (31 * SECOND)
      (foldl step selector_default example_ops)).2 = Some (example_provider 1)) by (vm_compute; reflexivity). rewrite Hs in Hc. exact Hc. }
  subst r. split; [reflexivity|]. split.
  - destruct (proj1 (gateway_choice_justified example_ops (example_uuid 50) [example_uuid 50] example_bindings example_ads 1000 (31 * SECOND)) _ _ Hs)
      as (b & trail & _ & Hp & _ & Ha & _ & Had & _). exact (ex_intro _ b (conj Hp (conj Ha Had))).
  - split; vm_compute; reflexivity.
Defined.

End Gs.
