(* ===== verification/Admission.v ===== *)
(** * Which devices are admitted (crate [peerward-management]: device_conditions.rs)

    A device signs what it says of itself; an administrator states conditions on it. The
    control plane evaluates the conditions, and every Peer holds the decisions with the
    times they are valid until. Versions are compared by the semver library. *)

From S2P Require Import Prelude Ordered Net Resources.
From Stdlib Require Import NArith Lia String.
From stdpp Require Import base tactics decidable countable numbers list gmap.
From Stdlib.Init Require Import Byte.
Set Default Goal Selector "!".
Local Open Scope N_scope.

(** [Version::parse], [to_string] and [cmp_precedence] of the semver library. *)
Class SemverLib := {
  version : Type;
  semver_parse : list byte -> option version;
  semver_to_string : version -> list byte;
  cmp_precedence : version -> version -> comparison;
}.
(** Precedence is a total preorder; this is what is used of it. *)
Class SemverLaws `{SemverLib} : Prop := {
  precedence_trans a b c : cmp_precedence a b <> Lt -> cmp_precedence b c <> Lt -> cmp_precedence a c <> Lt;
}.

Module Ad.
Import Rs.

Inductive DevicePlatform := Linux | Android.
#[export] Instance DevicePlatform_eq_dec : EqDecision DevicePlatform.
Proof. solve_decision. Defined.
#[export] Instance DevicePlatform_countable : Countable DevicePlatform.
Proof.
  apply (inj_countable' (fun p => match p with Linux => false | Android => true end) (fun b : bool => if b then Android else Linux)). by intros [].
Defined.
Inductive DeviceCapability := ManagedDns | ResourceConsumer | ExitConsumer | SubnetGateway | ExitGateway.
#[export] Instance DeviceCapability_eq_dec : EqDecision DeviceCapability.
Proof. solve_decision. Defined.
#[export] Instance DeviceCapability_countable : Countable DeviceCapability.
Proof.
  apply (inj_countable'
    (fun c => match c with ManagedDns => 0 | ResourceConsumer => 1 | ExitConsumer => 2 | SubnetGateway => 3 | ExitGateway => 4 end)
    (fun n => match n with 0 => ManagedDns | 1 => ResourceConsumer | 2 => ExitConsumer | 3 => SubnetGateway | _ => ExitGateway end)).
  by intros [].
Defined.
Record DeviceEvidence := mkEvidence { ev_version : list byte; ev_platform : DevicePlatform; capabilities : gset DeviceCapability }.

Inductive AdmissionReason := EvidenceUnavailable | Version | Platform | Capabilities | Credential.
#[export] Instance AdmissionReason_eq_dec : EqDecision AdmissionReason.
Proof. solve_decision. Defined.
Record AdmissionDecision := mkDecision { allowed : bool; valid_until : option N; reasons : list AdmissionReason }.
#[export] Instance AdmissionDecision_eq_dec : EqDecision AdmissionDecision.
Proof. solve_decision. Defined.
Definition unrestricted : AdmissionDecision := mkDecision true None [].
Definition decision_permits (now : N) (d : AdmissionDecision) : bool :=
  allowed d && match valid_until d with Some t => now <? t | None => true end.

Record AdmissionConfiguration := mkAdmission { ac_enabled : bool; ac_peers : gmap DomainId AdmissionDecision }.
#[export] Instance AdmissionConfiguration_eq_dec : EqDecision AdmissionConfiguration.
Proof. solve_decision. Defined.
Definition same_decision (old new : AdmissionDecision) : bool :=
  Bool.eqb (allowed old) (allowed new) && bool_decide (reasons old = reasons new)
  && match valid_until old, valid_until new with
     | Some o, Some n => o <=? n
     | None, None => true
     | _, _ => false
     end.
Definition same_requirements (next self : AdmissionConfiguration) : bool :=
  Bool.eqb (ac_enabled self) (ac_enabled next) && bool_decide (size (ac_peers self) = size (ac_peers next))
  && forallb (fun e => match ac_peers next !! e.1 with Some new => same_decision e.2 new | None => false end) (bt_entries (ac_peers self)).
Definition configuration_permits (peer : PeerId) (now : N) (self : AdmissionConfiguration) : bool :=
  negb (ac_enabled self) || match ac_peers self !! peer with Some d => decision_permits now d | None => false end.
Definition admission_validate (self : AdmissionConfiguration) : managed unit :=
  if (4096 <? N.of_nat (size (ac_peers self)))
     || existsb (fun e => (5 <? lenN (reasons e.2)) || allowed e.2 && negb (bool_decide (reasons e.2 = []))) (bt_entries (ac_peers self))
  then Err (Invalid "admission_configuration") else Ok tt.

Section conditions.
Context `{SemverLib} `{UuidInfo} `{IpNetAddrs}.

Definition canonical_device_version (value : list byte) : managed version :=
  if 128 <? lenN value then Err (Invalid "device_version") else
  match semver_parse value with
  | Some parsed => if bool_decide (semver_to_string parsed = value) then Ok parsed else Err (Invalid "device_version")
  | None => Err (Invalid "device_version")
  end.
(** [DeviceEvidence::current]; [package] is the version of the package at build time. *)
Definition current (package : list byte) (platform : DevicePlatform) : DeviceEvidence :=
  mkEvidence package platform
    ({[ ManagedDns; ResourceConsumer; ExitConsumer ]} ∪ match platform with Linux => {[ SubnetGateway; ExitGateway ]} | Android => ∅ end).
Definition evidence_validate (e : DeviceEvidence) : managed unit :=
  _ ← canonical_device_version (ev_version e);
  if bool_decide (ev_platform e = Android) && (bool_decide (SubnetGateway ∈ capabilities e) || bool_decide (ExitGateway ∈ capabilities e))
  then Err (Invalid "device_evidence.capabilities") else Ok tt.

Record DeviceConditions := mkConditions {
  dc_enabled : bool;
  scope : DeviceSelector;
  minimum_version : option (list byte);
  platforms : gset DevicePlatform;
  required_capabilities : gset DeviceCapability;
  minimum_credential_seconds : N;
}.
#[export] Instance DeviceConditions_eq_dec : EqDecision DeviceConditions.
Proof using Type. solve_decision. Defined.

(** [!a.cmp_precedence(b).is_lt()] on the canonical versions; false when one is not canonical. *)
Definition not_older (a b : list byte) : bool :=
  match canonical_device_version a, canonical_device_version b with
  | Ok x, Ok y => negb (bool_decide (cmp_precedence x y = Lt))
  | _, _ => false
  end.
Definition only_restricts (old self : DeviceConditions) : bool :=
  if bool_decide (self = old) || negb (dc_enabled old) then true else
  if negb (dc_enabled self) || negb (bool_decide (scope self = scope old)) then false else
  (bool_decide (platforms old = ∅) || negb (bool_decide (platforms self = ∅)) && bool_decide (platforms self ⊆ platforms old))
  && bool_decide (required_capabilities old ⊆ required_capabilities self)
  && (minimum_credential_seconds old <=? minimum_credential_seconds self)
  && match minimum_version old with
     | Some old => match minimum_version self with Some new => not_older new old | None => false end
     | None => true
     end.
Definition conditions_validate (self : DeviceConditions) : managed unit :=
  _ ← selector_validate (scope self);
  _ ← match minimum_version self with Some v => const tt <$> canonical_device_version v | None => Ok tt end;
  if 86400 <? minimum_credential_seconds self then Err (Invalid "minimum_credential_seconds") else Ok tt.
Definition evaluate (evidence : option DeviceEvidence) (evidence_until credential_until now : N) (self : DeviceConditions) : AdmissionDecision :=
  let credential := credential_until - minimum_credential_seconds self in
  let until := N.min evidence_until credential in
  let stated :=
    match evidence with
    | Some e =>
        if is_ok (evidence_validate e) && (now <? evidence_until) then
          (if negb (bool_decide (platforms self = ∅)) && negb (bool_decide (ev_platform e ∈ platforms self)) then [Platform] else [])
          ++ (if negb (bool_decide (required_capabilities self ⊆ capabilities e)) then [Capabilities] else [])
          ++ match minimum_version self with
             | Some min => if not_older (ev_version e) min then [] else [Version]
             | None => []
             end
        else [EvidenceUnavailable]
    | None => [EvidenceUnavailable]
    end in
  let reasons := stated ++ (if credential <=? now then [Credential] else []) in
  mkDecision (bool_decide (reasons = [])) (Some until) reasons.

(** ** The decision *)

(** What a device has to state. *)
Definition meets (self : DeviceConditions) (e : DeviceEvidence) : Prop :=
  evidence_validate e = Ok tt /\ (platforms self = ∅ \/ ev_platform e ∈ platforms self) /\ required_capabilities self ⊆ capabilities e /\
  match minimum_version self with Some min => not_older (ev_version e) min = true | None => True end.
Lemma allowed_iff evidence eu cu now self : allowed (evaluate evidence eu cu now self) = true <->
  (exists e, evidence = Some e /\ meets self e) /\ now < eu /\ now < cu - minimum_credential_seconds self.
Proof.
  unfold evaluate, meets. cbn [allowed]. rewrite bool_decide_eq_true, app_nil.
  assert (Hc : (if cu - minimum_credential_seconds self <=? now then [Credential] else []) = [] <-> now < cu - minimum_credential_seconds self).
  { destruct (N.leb_spec (cu - minimum_credential_seconds self) now); split; try done; lia. }
  rewrite Hc. destruct evidence as [e|]; [|naive_solver].
  assert (Hv : is_ok (evidence_validate e) = true <-> evidence_validate e = Ok tt) by (destruct (evidence_validate e) as [[]| |]; naive_solver).
  destruct (is_ok (evidence_validate e)) eqn:Hok; cbn [andb].
  2: { split; [naive_solver|]. intros ((e' & [= <-] & He & _) & _). by apply Hv in He. }
  destruct (N.ltb_spec now eu); [|split; [naive_solver|lia]]. rewrite !app_nil.
  assert (Hp : (if negb (bool_decide (platforms self = ∅)) && negb (bool_decide (ev_platform e ∈ platforms self)) then [Platform] else []) = [] <->
    platforms self = ∅ \/ ev_platform e ∈ platforms self).
  { destruct (bool_decide_reflect (platforms self = ∅)), (bool_decide_reflect (ev_platform e ∈ platforms self)); cbn; naive_solver. }
  assert (Hcap : (if negb (bool_decide (required_capabilities self ⊆ capabilities e)) then [Capabilities] else []) = [] <->
    required_capabilities self ⊆ capabilities e).
  { destruct (bool_decide_reflect (required_capabilities self ⊆ capabilities e)); cbn; naive_solver. }
  assert (Hver : match minimum_version self with Some min => if not_older (ev_version e) min then [] else [Version] | None => [] end = [] <->
    match minimum_version self with Some min => not_older (ev_version e) min = true | None => True end).
  { destruct (minimum_version self) as [min|]; [destruct (not_older (ev_version e) min)|]; done. }
  rewrite Hp, Hcap, Hver. split.
  - intros ((? & ? & ?) & ?). split_and!; [|done..]. exists e. split_and!; try done. by apply Hv.
  - intros ((e' & [= <-] & _ & ? & ? & ?) & ? & ?). by split_and!.
Qed.
Lemma permits_evaluate t evidence eu cu now self : decision_permits t (evaluate evidence eu cu now self) = true <->
  allowed (evaluate evidence eu cu now self) = true /\ t < eu /\ t < cu - minimum_credential_seconds self.
Proof. unfold decision_permits. rewrite andb_true_iff. cbn [valid_until evaluate]. by rewrite N.ltb_lt, N.min_glb_lt_iff. Qed.

(** A decision that was handed out is as good as a new one. What the conditions decide at
    one time permits a device at any later time exactly when they would permit it if they
    were evaluated then, on the same evidence and credential. *)
Theorem decision_stays_exact evidence eu cu now t self : now <= t ->
  decision_permits t (evaluate evidence eu cu now self) = decision_permits t (evaluate evidence eu cu t self).
Proof. intros Ht. apply eq_true_iff_eq. rewrite !permits_evaluate, !allowed_iff. split; intros [(? & ? & ?) []]; split_and!; try done; lia. Qed.

Lemma not_older_trans `{!SemverLaws} a b c : not_older a b = true -> not_older b c = true -> not_older a c = true.
Proof.
  unfold not_older. destruct (canonical_device_version a), (canonical_device_version b), (canonical_device_version c); try done.
  rewrite !negb_true_iff, !bool_decide_eq_false. apply precedence_trans.
Qed.
(** An edit that counts as a restriction only restricts. When new conditions pass
    [only_restricts] against the old ones that were in force, every device that they
    permit at some time was permitted at that time by the old ones, on the same evidence
    and credential. *)
Theorem only_restricts_sound `{!SemverLaws} old new evidence eu cu now t : only_restricts old new = true -> dc_enabled old = true ->
  decision_permits t (evaluate evidence eu cu now new) = true -> decision_permits t (evaluate evidence eu cu now old) = true.
Proof.
  unfold only_restricts. intros Hr He. rewrite He in Hr. destruct (bool_decide_reflect (new = old)) as [->|_]; [done|]. cbn in Hr.
  destruct (negb (dc_enabled new) || _); [done|]. rewrite !andb_true_iff in Hr. destruct Hr as (((Hp & Hc) & Hm) & Hv). apply bool_decide_eq_true in Hc. apply N.leb_le in Hm.
  rewrite !permits_evaluate, !allowed_iff. unfold meets. intros (((e & -> & Hok & Hpl & Hcap & Hver) & Heu & Hcu) & Ht & Htc).
  split_and!; [|lia..]. exists e. split_and!; [done|done| |set_solver|].
  - apply orb_true_iff in Hp as [Hp%bool_decide_eq_true|[Hn%negb_true_iff%bool_decide_eq_false Hs%bool_decide_eq_true]%andb_true_iff]; [by left|right].
    destruct Hpl; [done|set_solver].
  - destruct (minimum_version old) as [vo|]; [|done]. destruct (minimum_version new) as [vn|]; [|done]. by eapply not_older_trans.
Qed.
End conditions.

(** ** The decisions a Peer holds *)

Lemma same_requirements_iff next self : same_requirements next self = true <->
  ac_enabled self = ac_enabled next /\ size (ac_peers self) = size (ac_peers next) /\
  forall p d, ac_peers self !! p = Some d -> exists d', ac_peers next !! p = Some d' /\ same_decision d d' = true.
Proof.
  unfold same_requirements. rewrite !andb_true_iff, Bool.eqb_true_iff, bool_decide_eq_true, forallb_forall. split.
  - intros [[He Hs] Hall]. split_and!; [done..|]. intros p d Hp.
    specialize (Hall (p, d) (proj1 (list_elem_of_In _ _) (proj2 (elem_of_bt_entries p d _) Hp))). cbn [fst snd] in Hall.
    destruct (ac_peers next !! p) as [d'|]; [by exists d'|done].
  - intros (He & Hs & Hall). split_and!; [done..|]. intros [p d] Hin. apply list_elem_of_In, elem_of_bt_entries in Hin.
    cbn [fst snd]. destruct (Hall p d Hin) as (d' & -> & Hd). done.
Qed.
Lemma same_decision_permits t old new : same_decision old new = true -> decision_permits t old = true -> decision_permits t new = true.
Proof.
  unfold same_decision, decision_permits. rewrite !andb_true_iff, Bool.eqb_true_iff. intros ((-> & _) & Hv) [-> Ht]. split; [done|].
  destruct (valid_until old), (valid_until new); try done. breflect. apply N.ltb_lt. lia.
Qed.
Lemma same_decision_trans a b c : same_decision a b = true -> same_decision b c = true -> same_decision a c = true.
Proof.
  unfold same_decision. rewrite !andb_true_iff, !Bool.eqb_true_iff, !bool_decide_eq_true. intros ((-> & ->) & H1) ((-> & ->) & H2).
  split_and!; [done..|]. destruct (valid_until a), (valid_until b), (valid_until c); try done. breflect. apply N.leb_le. lia.
Qed.
Lemma same_requirements_refl c : same_requirements c c = true.
Proof.
  apply same_requirements_iff. split_and!; [done..|]. intros p d Hp. exists d. split; [done|]. unfold same_decision.
  rewrite Bool.eqb_reflx, bool_decide_eq_true_2 by done. destruct (valid_until d); [|done]. apply N.leb_refl.
Qed.
Lemma same_requirements_trans a b c : same_requirements b a = true -> same_requirements c b = true -> same_requirements c a = true.
Proof.
  rewrite !same_requirements_iff. intros (E1 & S1 & H1) (E2 & S2 & H2). split_and!; [congruence..|]. intros p d Hp.
  destruct (H1 p d Hp) as (d1 & Hp1 & D1). destruct (H2 p d1 Hp1) as (d2 & Hp2 & D2). exists d2. split; [done|]. by eapply same_decision_trans.
Qed.
(** A refresh that keeps the requirements keeps every permission, and names the same
    devices. *)
Theorem refresh_keeps_access old new : same_requirements new old = true ->
  dom (ac_peers old) = dom (ac_peers new) /\
  forall peer t, configuration_permits peer t old = true -> configuration_permits peer t new = true.
Proof.
  intros (He & Hs & Hall)%same_requirements_iff. split.
  - assert (Hsub : dom (ac_peers old) ⊆ dom (ac_peers new)).
    { intros p [d Hp]%elem_of_dom. destruct (Hall p d Hp) as (d' & Hp' & _). apply elem_of_dom. by exists d'. }
    apply (set_subseteq_size_eq _ _ Hsub). rewrite !size_dom. lia.
  - intros peer t. unfold configuration_permits. rewrite <-He. destruct (ac_enabled old); [|done]. cbn.
    destruct (ac_peers old !! peer) as [d|] eqn:Hp; [|done]. destruct (Hall peer d Hp) as (d' & -> & Hd). by apply same_decision_permits.
Qed.

(** ** Concrete instances

    A version is one byte, a digit; precedence is its order. *)

Definition digit_semver : SemverLib := {|
  version := N;
  semver_parse s := match s with [b] => if (0x30 <=? u8 b) && (u8 b <=? 0x39) then Some (u8 b) else None | _ => None end;
  semver_to_string n := [byte_of n];
  cmp_precedence := N.compare;
|}.
Lemma digit_semver_laws : @SemverLaws digit_semver.
Proof. split. cbn. intros a b c. rewrite !N.compare_nlt_iff. lia. Qed.
#[local] Existing Instance digit_semver.
#[local] Existing Instance digit_semver_laws.
#[local] Existing Instance uuid_info_rfc.
#[local] Existing Instance ipnet_prefix.
#[local] Existing Instance ipnet_prefix_addrs.

Definition example_evidence : DeviceEvidence := current [x35] Linux.
Definition example_old : DeviceConditions := mkConditions true (mkSelector ∅ ∅ []) (Some [x33]) ∅ {[ ManagedDns ]} 60.
Definition example_new : DeviceConditions := mkConditions true (mkSelector ∅ ∅ []) (Some [x34]) {[ Linux ]} {[ ManagedDns; ExitGateway ]} 600.

Lemma decision_stays_exact_witness :
  decision_permits 399 (evaluate (Some example_evidence) 900 1000 0 example_new) = true /\
  decision_permits 399 (evaluate (Some example_evidence) 900 1000 399 example_new) = true /\
  reasons (evaluate (Some example_evidence) 900 1000 400 example_new) = [Credential].
Proof.
  assert (Hp : decision_permits 399 (evaluate (Some example_evidence) 900 1000 0 example_new) = true) by (vm_compute; reflexivity).
  split; [exact Hp|]. split; [|vm_compute; reflexivity].
  rewrite <-(decision_stays_exact (Some example_evidence) 900 1000 0 399 example_new); [exact Hp|discriminate].
Defined.
Lemma only_restricts_sound_witness :
  only_restricts example_old example_new = true /\ only_restricts example_new example_old = false /\
  decision_permits 399 (evaluate (Some example_evidence) 900 1000 0 example_old) = true.
Proof.
  assert (Hr : only_restricts example_old example_new = true) by (vm_compute; reflexivity).
  split; [exact Hr|]. split; [vm_compute; reflexivity|].
  apply (only_restricts_sound example_old example_new); [exact Hr|reflexivity|vm_compute; reflexivity].
Defined.

End Ad.
