(* ===== verification/Leases.v ===== *)
(** * Authorization leases (crate [peerward-management]: leases.rs)

    What a Peer may do depends on a configuration and on a lease that says how long it
    may rely on it, both signed by the control plane. [LeaseClock] decides whether
    there is such a lease now, with two clocks: a wall clock in seconds that may be set
    back, and a monotonic one in nanoseconds. serde_json and SHA-256 are parameters. *)

From S2P Require Import Prelude Ordered Net Credentials IdentityProofs Resources.
From Stdlib Require Import NArith Lia String Sorted.
From stdpp Require Import base tactics decidable countable numbers list sorting gmap.
From Stdlib.Init Require Import Byte.
Set Default Goal Selector "!".
Local Open Scope N_scope.

Module Ls.

Definition SECOND : N := 1_000_000_000.
(** [b"peerward/configuration-manifest/v1\0"] and [b"peerward/authorization-lease/v1\0"] *)
Definition MANIFEST_DOMAIN : list byte := (list_byte_of_string "peerward/configuration-manifest/v1") ++ [x00].
Definition LEASE_DOMAIN : list byte := (list_byte_of_string "peerward/authorization-lease/v1") ++ [x00].
Definition MAX_CLOCK_TOLERANCE_SECONDS : N := 30.

Inductive ConfigurationPart := Authorities | Peers | Policy | Resources | Dns | Revocations.
#[export] Instance ConfigurationPart_eq_dec : EqDecision ConfigurationPart.
Proof. solve_decision. Defined.
Definition part_key (p : ConfigurationPart) : N :=
  match p with Authorities => 0 | Peers => 1 | Policy => 2 | Resources => 3 | Dns => 4 | Revocations => 5 end.
#[export] Instance ConfigurationPart_countable : Countable ConfigurationPart.
Proof.
  apply (inj_countable' part_key
    (fun n => match n with 0 => Authorities | 1 => Peers | 2 => Policy | 3 => Resources | 4 => Dns | _ => Revocations end)). by intros [].
Defined.
Record ComponentReference := mkReference { cr_version : N; cr_digest : list byte }.
#[export] Instance ComponentReference_eq_dec : EqDecision ComponentReference.
Proof. solve_decision. Defined.
Notation parts_map := (gmap ConfigurationPart ComponentReference).
Record ConfigurationManifest := mkManifest { cm_mesh_id : MeshId; cm_version : N; parts : parts_map }.
Record AuthorizationLease := mkLease {
  al_mesh_id : MeshId;
  configuration_digest : list byte;
  al_sequence : N;
  issued_at : N;
  valid_until : N;
}.
Record SignedManifest := mkSignedManifest { manifest : ConfigurationManifest; sm_signature : list byte }.
Record SignedLease := mkSignedLease { lease : AuthorizationLease; sl_signature : list byte }.
Record AuthorizationFloor := mkFloor {
  af_configuration_version : N;
  af_configuration_digest : list byte;
  lease_sequence : N;
  lease_digest : list byte;
  time_floor : N;
}.
Record LeaseClock := mkClock { floor : AuthorizationFloor; active : option (N * N); pending : option (N * N) }.

(** serde_json, SHA-256, and which instants [Instant] can represent. *)
Class LeaseLib := {
  manifest_json : ConfigurationManifest -> option (list byte);
  lease_json : AuthorizationLease -> option (list byte);
  sha256 : list byte -> list byte;
  representable : N -> bool;
}.

Definition manifest_validate (m : ConfigurationManifest) : managed unit :=
  if (cm_version m =? 0) || negb (N.of_nat (size (parts m)) =? 6)
     || existsb (fun e : ConfigurationPart * ComponentReference => (cr_version e.2 =? 0) && (bool_decide (e.1 = Resources) || bool_decide (e.1 = Dns)))
          (map_to_list (parts m))
  then Err (Invalid "manifest") else Ok tt.
Definition lease_validate (l : AuthorizationLease) : managed unit :=
  if (al_sequence l =? 0) || (valid_until l <=? issued_at l)
     || negb (bool_decide (valid_until l - issued_at l ∈ [300; 900; 3600]))
  then Err (Invalid "lease") else Ok tt.
(** The subtraction is checked. *)
Definition renew_at (l : AuthorizationLease) : managed N :=
  if valid_until l <? issued_at l then Panic else
  let t := issued_at l + (valid_until l - issued_at l) / 3 in if t <=? U64_MAX then Ok t else Panic.

Section clock.
Context `{Ed25519Lib} `{StrictLib} `{LeaseLib}.

Definition transcript (domain : list byte) (json : option (list byte)) : managed (list byte) :=
  match json with Some bytes => Ok (domain ++ bytes) | None => Err (Invalid "encoding") end.
Definition content_digest (json : option (list byte)) : managed (list byte) :=
  match json with Some bytes => Ok (sha256 bytes) | None => Err (Invalid "encoding") end.
(** [verify_strict] with [Signature::from_slice], which takes 64 bytes. *)
Definition verify_bytes (key message signature : list byte) : managed unit :=
  if (lenN signature =? 64) && ed_verify_strict key message signature then Ok tt else Err Signature.

Definition manifest_sign (m : ConfigurationManifest) (seed : list byte) : managed SignedManifest :=
  _ ← manifest_validate m;
  bytes ← transcript MANIFEST_DOMAIN (manifest_json m);
  Ok (mkSignedManifest m (ed_sign seed bytes)).
Definition manifest_verify (key : list byte) (mesh : MeshId) (s : SignedManifest) : managed unit :=
  _ ← manifest_validate (manifest s);
  if negb (bool_decide (cm_mesh_id (manifest s) = mesh)) then Err Signature else
  bytes ← transcript MANIFEST_DOMAIN (manifest_json (manifest s));
  verify_bytes key bytes (sm_signature s).
Definition lease_sign (l : AuthorizationLease) (seed : list byte) : managed SignedLease :=
  _ ← lease_validate l;
  bytes ← transcript LEASE_DOMAIN (lease_json l);
  Ok (mkSignedLease l (ed_sign seed bytes)).
Definition lease_verify (key : list byte) (mesh : MeshId) (s : SignedLease) : managed unit :=
  _ ← lease_validate (lease s);
  if negb (bool_decide (al_mesh_id (lease s) = mesh)) then Err Signature else
  bytes ← transcript LEASE_DOMAIN (lease_json (lease s));
  verify_bytes key bytes (sl_signature s).

(** ** The clock *)

Definition clock_new (f : AuthorizationFloor) : LeaseClock := mkClock f None None.
(** The checks that leave the state alone: the digests of the manifest and of the lease. *)
Definition admissible (m : SignedManifest) (l : SignedLease) (key : list byte) (mesh : MeshId) (available : parts_map) (wall : N)
    (current : AuthorizationFloor) : managed (list byte * list byte) :=
  _ ← manifest_verify key mesh m;
  _ ← lease_verify key mesh l;
  digest ← content_digest (manifest_json (manifest m));
  l_digest ← content_digest (lease_json (lease l));
  if negb (bool_decide (digest = configuration_digest (lease l))) then Err Signature else
  if (cm_version (manifest m) <? af_configuration_version current)
     || (cm_version (manifest m) =? af_configuration_version current) && negb (bool_decide (digest = af_configuration_digest current))
     || (al_sequence (lease l) <? lease_sequence current)
     || (al_sequence (lease l) =? lease_sequence current) && negb (bool_decide (l_digest = lease_digest current))
  then Err Rollback else
  if (sat_add wall MAX_CLOCK_TOLERANCE_SECONDS <? time_floor current) || (sat_add wall MAX_CLOCK_TOLERANCE_SECONDS <? issued_at (lease l))
     || (valid_until (lease l) <=? N.max wall (time_floor current))
  then Err Expired else
  if existsb (fun e : ConfigurationPart * ComponentReference =>
       match parts (manifest m) !! e.1 with
       | Some required => (cr_version required <? cr_version e.2)
                          || (cr_version e.2 =? cr_version required) && negb (bool_decide (cr_digest e.2 = cr_digest required))
       | None => false
       end) (map_to_list available)
  then Err Rollback else Ok (digest, l_digest).
(** [monotonic.checked_add(Duration::from_secs(seconds))] *)
Definition instant_add (monotonic seconds : N) : option N :=
  let t := monotonic + seconds * SECOND in if representable t then Some t else None.
Definition stage (m : SignedManifest) (l : SignedLease) (digest l_digest : list byte) (wall monotonic : N) (c : LeaseClock)
    : LeaseClock * managed unit :=
  if lease_sequence (floor c) <? al_sequence (lease l) then
    let t := N.max (N.max wall (time_floor (floor c))) (issued_at (lease l)) in
    if valid_until (lease l) <? t then (c, Panic) else
    match instant_add monotonic (valid_until (lease l) - t) with
    | None => (c, Err Expired)
    | Some deadline =>
        (mkClock (mkFloor (cm_version (manifest m)) digest (al_sequence (lease l)) l_digest t) None
           (Some (valid_until (lease l), deadline)), Ok tt)
    end
  else (c, Ok tt).
Definition activate (m : SignedManifest) (available : parts_map) (wall monotonic : N) (c : LeaseClock) : LeaseClock * managed bool :=
  if negb (bool_decide (parts (manifest m) = available)) then (c, Err Incomplete) else
  match pending c with
  | None => (c, Ok false)
  | Some (t, deadline) =>
      if (t <=? N.max wall (time_floor (floor c))) || (deadline <=? monotonic)
      then (mkClock (floor c) (active c) None, Err Expired)
      else (mkClock (floor c) (Some (t, deadline)) None, Ok true)
  end.
Definition install (m : SignedManifest) (l : SignedLease) (key : list byte) (mesh : MeshId) (available : parts_map) (wall monotonic : N)
    (c : LeaseClock) : LeaseClock * managed bool :=
  match admissible m l key mesh available wall (floor c) with
  | Ok (digest, l_digest) =>
      match stage m l digest l_digest wall monotonic c with
      | (c, Ok _) => activate m available wall monotonic c
      | (c, Err e) => (c, Err e)
      | (c, Panic) => (c, Panic)
      end
  | Err e => (c, Err e)
  | Panic => (c, Panic)
  end.
Definition valid (wall monotonic : N) (c : LeaseClock) : LeaseClock * bool :=
  let c := if sat_add wall MAX_CLOCK_TOLERANCE_SECONDS <? time_floor (floor c) then mkClock (floor c) None None else c in
  let f := floor c in
  let f := mkFloor (af_configuration_version f) (af_configuration_digest f) (lease_sequence f) (lease_digest f) (N.max (time_floor f) wall) in
  let act := match active c with
             | Some (t, deadline) => if (t <=? wall) || (deadline <=? monotonic) then None else active c
             | None => None
             end in
  (mkClock f act (pending c), bool_decide (is_Some act)).
Definition invalidate (c : LeaseClock) : LeaseClock := mkClock (floor c) None (pending c).
Definition suspend (c : LeaseClock) : LeaseClock := mkClock (floor c) None None.
End clock.

(** ** Histories

    [Restart] is a new process that reads the floor it saved. *)

Inductive op :=
| Install (m : SignedManifest) (l : SignedLease) (available : parts_map) (wall monotonic : N)
| Valid (wall monotonic : N) | Invalidate | Suspend | Restart.

Section histories.
Context `{Ed25519Lib} `{StrictLib} `{LeaseLib} (key : list byte) (mesh : MeshId).

Definition step (c : LeaseClock) (o : op) : LeaseClock :=
  match o with
  | Install m l available wall monotonic => (install m l key mesh available wall monotonic c).1
  | Valid wall monotonic => (valid wall monotonic c).1
  | Invalidate => invalidate c
  | Suspend => suspend c
  | Restart => clock_new (floor c)
  end.
Definition run (c : LeaseClock) (ops : list op) : LeaseClock := foldl step c ops.

(** What an accepted pair of documents has. *)
Record signed_pair (m : SignedManifest) (l : SignedLease) (digest l_digest : list byte) : Prop := {
  sp_manifest : manifest_verify key mesh m = Ok tt;
  sp_lease : lease_verify key mesh l = Ok tt;
  sp_digest : content_digest (manifest_json (manifest m)) = Ok digest;
  sp_lease_digest : content_digest (lease_json (lease l)) = Ok l_digest;
  sp_bound : digest = configuration_digest (lease l);
}.
Lemma admissible_Ok m l available wall f d ld : admissible m l key mesh available wall f = Ok (d, ld) ->
  signed_pair m l d ld /\ af_configuration_version f <= cm_version (manifest m) /\
  (cm_version (manifest m) = af_configuration_version f -> d = af_configuration_digest f) /\
  lease_sequence f <= al_sequence (lease l) /\ (al_sequence (lease l) = lease_sequence f -> ld = lease_digest f) /\
  time_floor f <= sat_add wall 30 /\ issued_at (lease l) <= sat_add wall 30 /\ N.max wall (time_floor f) < valid_until (lease l).
Proof.
  unfold admissible. intros ([] & Hm & ([] & Hl & (d' & Hd & (ld' & Hld & Hr)%bind_Ok)%bind_Ok)%bind_Ok)%bind_Ok.
  destruct (negb _) eqn:Hb; [done|]. apply negb_false_iff, bool_decide_eq_true in Hb.
  destruct (_ || _) eqn:Hroll in Hr; [done|]. destruct (_ || _) eqn:Ht in Hr; [done|]. destruct (existsb _ _); [done|]. injection Hr as -> ->.
  apply orb_false_iff in Hroll as [[[Hv%N.ltb_ge Hsame]%orb_false_iff Hs%N.ltb_ge]%orb_false_iff Hlsame].
  apply orb_false_iff in Ht as [[Ht1%N.ltb_ge Ht2%N.ltb_ge]%orb_false_iff Ht3%N.leb_gt].
  split; [by split|]. split_and!; try done; intros He.
  - rewrite He, N.eqb_refl in Hsame. by apply negb_false_iff, bool_decide_eq_true in Hsame.
  - rewrite He, N.eqb_refl in Hlsame. by apply negb_false_iff, bool_decide_eq_true in Hlsame.
Qed.
Lemma lease_verify_valid l : lease_verify key mesh l = Ok tt ->
  issued_at (lease l) < valid_until (lease l) /\ valid_until (lease l) - issued_at (lease l) <= 3600 /\ al_sequence (lease l) <> 0.
Proof.
  unfold lease_verify, lease_validate. intros ([] & Hv & _)%bind_Ok. destruct (_ || _) eqn:He; [done|]. breflect.
  match goal with Hx : bool_decide _ = true |- _ => apply bool_decide_eq_true in Hx; rewrite !elem_of_cons, elem_of_nil in Hx end.
  split_and!; [lia|lia|done].
Qed.

(** ** One call *)

Definition staged (m : SignedManifest) (l : SignedLease) (d ld : list byte) (wall deadline : N) (c : LeaseClock) : LeaseClock :=
  mkClock (mkFloor (cm_version (manifest m)) d (al_sequence (lease l)) ld
             (N.max (N.max wall (time_floor (floor c))) (issued_at (lease l)))) None (Some (valid_until (lease l), deadline)).
Definition staging_deadline (l : SignedLease) (wall monotonic : N) (c : LeaseClock) : N :=
  monotonic + (valid_until (lease l) - N.max (N.max wall (time_floor (floor c))) (issued_at (lease l))) * SECOND.
(** The state that [activate] starts from. *)
Definition prepared (m : SignedManifest) (l : SignedLease) (d ld : list byte) (wall monotonic : N) (c c1 : LeaseClock) : Prop :=
  al_sequence (lease l) = lease_sequence (floor c) /\ c1 = c \/
  lease_sequence (floor c) < al_sequence (lease l) /\ c1 = staged m l d ld wall (staging_deadline l wall monotonic c) c.
Lemma install_cases m l available wall monotonic c :
  ((exists e, install m l key mesh available wall monotonic c = (c, Err e)) \/
   exists d ld c1, admissible m l key mesh available wall (floor c) = Ok (d, ld) /\ prepared m l d ld wall monotonic c c1 /\
     install m l key mesh available wall monotonic c = activate m available wall monotonic c1).
Proof.
  unfold install. destruct (admissible m l key mesh available wall (floor c)) as [[d ld]|e|] eqn:Ha.
  - destruct (admissible_Ok _ _ _ _ _ _ _ Ha) as (Hp & _ & _ & Hs & _ & _ & _ & Hu). pose proof (lease_verify_valid l (sp_lease _ _ _ _ Hp)) as (Hi & _).
    unfold stage. destruct (N.ltb_spec (lease_sequence (floor c)) (al_sequence (lease l))) as [Hlt|Hge].
    + destruct (N.ltb_spec (valid_until (lease l)) (N.max (N.max wall (time_floor (floor c))) (issued_at (lease l)))) as [|_]; [lia|].
      unfold instant_add. fold (staging_deadline l wall monotonic c). destruct (representable _); [right|left; by eexists].
      exists d, ld. eexists. split; [done|]. split; [right; by split|done].
    + right. exists d, ld, c. split; [done|]. split; [left; split; [lia|done]|done].
  - left. by eexists.
  - exfalso. revert Ha. unfold admissible, manifest_verify, lease_verify, manifest_validate, lease_validate, content_digest, transcript, verify_bytes.
    repeat (case_match; cbn [mbind outcome_bind]; try done).
Qed.
Lemma activate_cases m available wall monotonic c :
  (activate m available wall monotonic c).1 = c /\ (activate m available wall monotonic c).2 <> Ok true /\
    (activate m available wall monotonic c).2 <> Panic \/
  parts (manifest m) = available /\ exists t deadline, pending c = Some (t, deadline) /\
    (activate m available wall monotonic c = (mkClock (floor c) (active c) None, Err Expired) \/
     N.max wall (time_floor (floor c)) < t /\ monotonic < deadline /\
     activate m available wall monotonic c = (mkClock (floor c) (Some (t, deadline)) None, Ok true)).
Proof.
  unfold activate. destruct (bool_decide_reflect (parts (manifest m) = available)) as [Hp|]; cbn [negb]; [|by left].
  destruct (pending c) as [[t deadline]|]; [right|by left]. split; [done|]. exists t, deadline. split; [done|].
  destruct (N.leb_spec t (N.max wall (time_floor (floor c)))); [by left|]. destruct (N.leb_spec deadline monotonic); [by left|right]. done.
Qed.
(** No call of [install] aborts, whatever is presented. *)
Theorem install_no_panic m l available wall monotonic c : (install m l key mesh available wall monotonic c).2 <> Panic.
Proof.
  destruct (install_cases m l available wall monotonic c) as [[e ->]|(d & ld & c1 & _ & _ & ->)]; [done|].
  destruct (activate_cases m available wall monotonic c1) as [(_ & _ & Hn)|(_ & t & dl & _ & [->|(_ & _ & ->)])]; done.
Qed.

(** ** The floor *)

Definition floor_le (f g : AuthorizationFloor) : Prop :=
  af_configuration_version f <= af_configuration_version g /\ lease_sequence f <= lease_sequence g /\ time_floor f <= time_floor g /\
  (af_configuration_version f = af_configuration_version g -> af_configuration_digest f = af_configuration_digest g) /\
  (lease_sequence f = lease_sequence g -> lease_digest f = lease_digest g).
#[local] Instance floor_le_preorder : PreOrder floor_le.
Proof.
  split; [by intros f; split_and!|]. intros f g h (V & S & T & D & L) (V' & S' & T' & D' & L'). split_and!; [lia..| |].
  - intros He. rewrite D, D' by lia. done.
  - intros He. rewrite L, L' by lia. done.
Qed.
Lemma floor_step c o : floor_le (floor c) (floor (step c o)).
Proof.
  destruct o as [m l available wall monotonic|wall monotonic| | |]; cbn [step]; try done.
  - destruct (install_cases m l available wall monotonic c) as [[e ->]|(d & ld & c1 & Ha & Hp & ->)]; [done|].
    assert (Hc1 : floor_le (floor c) (floor c1)).
    { destruct Hp as [[_ ->]|[Hlt ->]]; [done|]. destruct (admissible_Ok _ _ _ _ _ _ _ Ha) as (_ & Hv & Hd & _ & _ & _).
      unfold floor_le. cbn [staged floor af_configuration_version af_configuration_digest lease_sequence lease_digest time_floor].
      split_and!; [lia|lia|lia| |lia]. intros He. symmetry. apply Hd. by symmetry. }
    destruct (activate_cases m available wall monotonic c1) as [(-> & _)|(_ & t & dl & _ & [->|(_ & _ & ->)])]; done.
  - unfold valid, floor_le. case_match; cbn; split_and!; try done; lia.
Qed.

(** Nothing that was accepted is taken back. Through any installations, checks,
    invalidations, suspensions and restarts, the configuration version, the lease
    sequence and the time a Peer accepted never decrease, and while a version or a
    sequence stays, so does the digest that came with it. *)
Theorem floor_never_back c ops : floor_le (floor c) (floor (run c ops)).
Proof.
  induction ops as [|o ops IH] using rev_ind; [done|]. unfold run in *. rewrite foldl_app. cbn. etrans; [exact IH|apply floor_step].
Qed.

(** ** What an active lease rests on *)





(** ** Each lease counts once *)

(** The sequences of the leases that installations activated, in order. *)
Fixpoint activations (c : LeaseClock) (ops : list op) : list N :=
  match ops with
  | [] => []
  | o :: rest =>
      match o with
      | Install m l available wall monotonic =>
          if bool_decide ((install m l key mesh available wall monotonic c).2 = Ok true) then [al_sequence (lease l)] else []
      | _ => []
      end ++ activations (step c o) rest
  end.
Lemma install_sequence m l available wall monotonic c : let r := install m l key mesh available wall monotonic c in
  lease_sequence (floor c) <= lease_sequence (floor r.1) /\
  (pending c = None -> lease_sequence (floor c) = lease_sequence (floor r.1) -> pending r.1 = None) /\
  (r.2 = Ok true -> al_sequence (lease l) = lease_sequence (floor r.1) /\ pending r.1 = None /\
     (pending c = None -> lease_sequence (floor c) < al_sequence (lease l))).
Proof.
  destruct (install_cases m l available wall monotonic c) as [[e ->]|(d & ld & c1 & Ha & Hp & Hi)]; [by cbn; split_and!|]. cbn zeta. rewrite Hi.
  assert (Hc1 : al_sequence (lease l) = lease_sequence (floor c1) /\ lease_sequence (floor c) <= lease_sequence (floor c1) /\
    (pending c = None -> lease_sequence (floor c) = lease_sequence (floor c1) -> pending c1 = None)).
  { destruct Hp as [[Hs ->]|[Hs ->]]; [by split_and!|]. cbn. split_and!; [done|lia|lia]. }
  destruct Hc1 as (Hs & Hle & Hpend).
  destruct (activate_cases m available wall monotonic c1) as [(-> & Hn & _)|(_ & t & dl & Ht & [->|(_ & _ & ->)])]; [done|by cbn; split_and!|].
  cbn. split_and!; [done|done|]. intros _. split_and!; [done|done|]. intros Hnone.
  destruct Hp as [[_ ->]|[Hlt _]]; [congruence|done].
Qed.
Lemma activations_after ops c a : a ∈ activations c ops -> lease_sequence (floor c) <= a /\ (pending c = None -> lease_sequence (floor c) < a).
Proof.
  revert c. induction ops as [|o ops IH]; intros c; cbn [activations]; [by intros ?%not_elem_of_nil|].
  intros [Hin|Hin]%elem_of_app.
  - destruct o as [m l available wall monotonic|wall monotonic| | |]; try by apply not_elem_of_nil in Hin.
    destruct (bool_decide_reflect ((install m l key mesh available wall monotonic c).2 = Ok true)) as [Hok|]; [|by apply not_elem_of_nil in Hin].
    apply list_elem_of_singleton in Hin as ->. destruct (install_sequence m l available wall monotonic c) as (Hle & _ & Hok').
    destruct (Hok' Hok) as (-> & _ & Hlt). by split.
  - destruct (IH _ Hin) as [Hle Hlt]. destruct o as [m l available wall monotonic|wall monotonic| | |]; cbn [step] in *; try done.
    + destruct (install_sequence m l available wall monotonic c) as (Hm & Hp & _). split; [lia|]. intros Hn.
      destruct (N.eq_dec (lease_sequence (floor c)) (lease_sequence (floor (install m l key mesh available wall monotonic c).1))); [|lia].
      assert (Hx : pending (install m l key mesh available wall monotonic c).1 = None) by auto. specialize (Hlt Hx). lia.
    + unfold valid in *. destruct (_ <? _); cbn in *; by split; auto.
    + by split; auto.
    + by split; auto.
Qed.

(** A lease counts once. In any history, restarts included, the leases that installations
    activate have strictly increasing sequences, all of them at least that of the floor it
    started from, and greater if no lease was pending: presenting a lease again, or an older one,
    after an invalidation, a suspension or a restart authorizes nothing. *)
Theorem lease_activates_once c ops :
  StronglySorted N.lt (activations c ops) /\
  forall a, a ∈ activations c ops -> lease_sequence (floor c) <= a /\ (pending c = None -> lease_sequence (floor c) < a).
Proof.
  split; [|intros a; apply activations_after]. revert c. induction ops as [|o ops IH]; intros c; cbn [activations]; [constructor|].
  destruct o as [m l available wall monotonic|wall monotonic| | |]; try apply IH.
  destruct (bool_decide_reflect ((install m l key mesh available wall monotonic c).2 = Ok true)) as [Hok|]; [|apply IH]. cbn [app].
  constructor; [apply IH|]. apply Forall_forall. intros a [_ Ha]%activations_after.
  destruct (install_sequence m l available wall monotonic c) as (_ & _ & Hok'). destruct (Hok' Hok) as (-> & Hp & _). by apply Ha.
Qed.

(** ** A new lease authorizes *)

Lemma valid_iff wall monotonic c t deadline : active c = Some (t, deadline) -> (valid wall monotonic c).2 = true <->
  time_floor (floor c) <= sat_add wall 30 /\ wall < t /\ monotonic < deadline.
Proof.
  intros Ha. unfold valid, MAX_CLOCK_TOLERANCE_SECONDS. cbn [snd].
  destruct (N.ltb_spec (sat_add wall 30) (time_floor (floor c))); cbn [active]; [split; [done|lia]|]. rewrite Ha.
  destruct (N.leb_spec t wall), (N.leb_spec deadline monotonic); cbn; split; try done; lia.
Qed.
Lemma signed_manifest_verifies `{!Ed25519Laws} `{!StrictLaws} m seed sm : manifest_sign m seed = Ok sm -> manifest sm = m /\ manifest_verify (ed_public seed) (cm_mesh_id m) sm = Ok tt.
Proof.
  unfold manifest_sign, manifest_verify. intros ([] & Hv & (b & Hb & [= <-])%bind_Ok)%bind_Ok. cbn [manifest sm_signature]. split; [done|].
  rewrite Hv. cbn [mbind outcome_bind]. rewrite bool_decide_eq_true_2 by done. cbn [negb]. rewrite Hb. cbn [mbind outcome_bind].
  unfold verify_bytes. by rewrite ed_sign_len, strict_verify_sign.
Qed.
Lemma signed_lease_verifies `{!Ed25519Laws} `{!StrictLaws} l seed sl : lease_sign l seed = Ok sl -> lease sl = l /\ lease_verify (ed_public seed) (al_mesh_id l) sl = Ok tt.
Proof.
  unfold lease_sign, lease_verify. intros ([] & Hv & (b & Hb & [= <-])%bind_Ok)%bind_Ok. cbn [lease sl_signature]. split; [done|].
  rewrite Hv. cbn [mbind outcome_bind]. rewrite bool_decide_eq_true_2 by done. cbn [negb]. rewrite Hb. cbn [mbind outcome_bind].
  unfold verify_bytes. by rewrite ed_sign_len, strict_verify_sign.
Qed.
End histories.

Section issuing.
Context `{Ed25519Lib} `{StrictLib} `{LeaseLib} `{!Ed25519Laws} `{!StrictLaws}.
(** A lease that was issued authorizes. A manifest and a newer lease that name each other
    and this mesh, signed by the control plane, are installed by a Peer that has exactly the
    parts of the manifest and whose clock and floor allow them; from then on the clock
    says so for as long as the lease runs on both clocks. *)
Theorem issued_lease_authorizes seed mesh m l sm sl digest l_digest wall monotonic c :
  manifest_sign m seed = Ok sm -> lease_sign l seed = Ok sl -> cm_mesh_id m = mesh -> al_mesh_id l = mesh ->
  content_digest (manifest_json m) = Ok digest -> configuration_digest l = digest -> content_digest (lease_json l) = Ok l_digest ->
  af_configuration_version (floor c) < cm_version m -> lease_sequence (floor c) < al_sequence l ->
  time_floor (floor c) <= wall -> issued_at l <= wall -> wall < valid_until l -> wall + 30 <= U64_MAX ->
  representable (monotonic + (valid_until l - wall) * SECOND) = true ->
  exists c', install sm sl (ed_public seed) mesh (parts m) wall monotonic c = (c', Ok true) /\
    forall wall' monotonic', wall <= wall' + 30 -> wall' + 30 <= U64_MAX -> wall' < valid_until l ->
      monotonic' < monotonic + (valid_until l - wall) * SECOND -> (valid wall' monotonic' c').2 = true.
Proof.
  intros Hsm Hsl Hm1 Hl1 Hd Hcd Hld Hver Hseq Hfloor Hiss Hvalid Hmax Hrep.
  destruct (signed_manifest_verifies m seed sm Hsm) as [Em Hmv]. destruct (signed_lease_verifies l seed sl Hsl) as [El Hlv].
  rewrite Hm1 in Hmv. rewrite Hl1 in Hlv. unfold install.
  assert (Ha : admissible sm sl (ed_public seed) mesh (parts m) wall (floor c) = Ok (digest, l_digest)).
  { unfold admissible, sat_add, MAX_CLOCK_TOLERANCE_SECONDS. rewrite Hmv, Hlv, Em, El. cbn [mbind outcome_bind]. rewrite Hd, Hld. cbn [mbind outcome_bind].
    rewrite (bool_decide_eq_true_2 (digest = configuration_digest l)) by done. cbn [negb].
    rewrite (proj2 (N.ltb_ge _ _)) by lia. rewrite (proj2 (N.eqb_neq _ _)) by lia. rewrite (proj2 (N.ltb_ge _ _)) by lia. rewrite (proj2 (N.eqb_neq _ _)) by lia. cbn [andb orb].
    rewrite (proj2 (N.ltb_ge _ _)) by lia. rewrite (proj2 (N.ltb_ge _ _)) by lia. rewrite (proj2 (N.leb_gt _ _)) by lia. cbn [orb].
    destruct (existsb _ _) eqn:Hex; [|done]. apply existsb_exists in Hex as ([part known] & Hin & Hbad).
    apply list_elem_of_In, elem_of_map_to_list in Hin. cbn [fst snd] in Hbad. rewrite Hin in Hbad.
    rewrite N.ltb_irrefl, N.eqb_refl, bool_decide_eq_true_2 in Hbad by done. done. }
  rewrite Ha. unfold stage. rewrite El, (proj2 (N.ltb_lt _ _) Hseq).
  replace (N.max (N.max wall (time_floor (floor c))) (issued_at l)) with wall by lia.
  rewrite (proj2 (N.ltb_ge _ _)) by lia. unfold instant_add. rewrite Hrep. unfold activate. rewrite Em, bool_decide_eq_true_2 by done. cbn [negb pending floor time_floor].
  rewrite N.max_id. assert (0 < (valid_until l - wall) * SECOND) by (unfold SECOND; lia).
  rewrite (proj2 (N.leb_gt _ _)) by lia. rewrite (proj2 (N.leb_gt _ _)) by lia. cbn [orb]. eexists. split; [done|].
  intros wall' monotonic' Hw Hwm Hu Hmo. eapply valid_iff; [done|]. cbn [floor time_floor]. unfold sat_add. split_and!; lia.
Qed.
End issuing.



(** ** Concrete instances

    A signature is the key and a residue of the message; the JSON of a document is its
    fields, and its digest is the document. *)

Definition residue_sign (key m : list byte) : list byte := key ++ to_be 32 (from_be m mod (2 ^ 256 - 189)).
Definition residue_public (seed : list byte) : list byte := take 32 (seed ++ replicate 32 x00).
Definition residue_ed : Ed25519Lib := {|
  ed_public := residue_public;
  ed_sign seed m := residue_sign (residue_public seed) m;
  ed_valid_key k := lenN k =? 32;
  ed_verify key m sg := bool_decide (sg = residue_sign key m);
|}.
Definition residue_strict : StrictLib := {| ed_verify_strict key m sg := bool_decide (sg = residue_sign key m) |}.
Lemma length_residue_public seed : lenN (residue_public seed) = 32.
Proof. unfold residue_public, lenN. rewrite length_take, length_app, length_replicate. lia. Qed.
Lemma residue_laws : @Ed25519Laws residue_ed.
Proof.
  split; cbn; intros; rewrite ?length_residue_public; try done.
  - unfold residue_sign. by rewrite lenN_app, length_residue_public, lenN_to_be.
  - by apply bool_decide_eq_true.
Qed.
Lemma residue_strict_laws : @StrictLaws residue_ed residue_strict.
Proof. split. intros. by apply bool_decide_eq_true. Qed.
Definition fields_json : LeaseLib := {|
  manifest_json m := Some (to_be 16 (id_uuid (cm_mesh_id m)) ++ to_be 8 (cm_version m) ++
    concat ((fun e : ConfigurationPart * ComponentReference => to_be 1 (part_key e.1) ++ to_be 8 (cr_version e.2) ++ cr_digest e.2)
              <$> map_to_list (parts m)));
  lease_json l := Some (to_be 16 (id_uuid (al_mesh_id l)) ++ configuration_digest l ++ to_be 8 (al_sequence l) ++ to_be 8 (issued_at l)
    ++ to_be 8 (valid_until l));
  sha256 b := b;
  representable t := t <? 2 ^ 90;
|}.
#[local] Existing Instance residue_ed.
#[local] Existing Instance residue_strict.
#[local] Existing Instance residue_laws.
#[local] Existing Instance residue_strict_laws.
#[local] Existing Instance fields_json.

Definition example_mesh : MeshId := mkDomainId 0x77.
Definition example_parts (v : N) : parts_map :=
  list_to_map ((fun p => (p, mkReference v [byte_of v])) <$> [Authorities; Peers; Policy; Resources; Dns; Revocations]).
Definition example_manifest (v : N) : ConfigurationManifest := mkManifest example_mesh v (example_parts v).
Definition example_lease (v sequence issued : N) : AuthorizationLease :=
  mkLease example_mesh (default [] (manifest_json (example_manifest v))) sequence issued (issued + 300).
Definition sign_manifest (v : N) : SignedManifest := default (mkSignedManifest (example_manifest v) [])
  (match manifest_sign (example_manifest v) [x2a] with Ok s => Some s | _ => None end).
Definition sign_lease (v sequence issued : N) : SignedLease := default (mkSignedLease (example_lease v sequence issued) [])
  (match lease_sign (example_lease v sequence issued) [x2a] with Ok s => Some s | _ => None end).
Definition example_key : list byte := residue_public [x2a].
Definition example_floor : AuthorizationFloor := mkFloor 0 [] 0 [] 0.
Definition present (v sequence issued : N) (available : parts_map) (t : N) : op :=
  Install (sign_manifest v) (sign_lease v sequence issued) available t (t * SECOND).
(** Incomplete first, then complete; suspended, and the same lease again. *)
Definition example_ops : list op :=
  [present 1 1 1000 (example_parts 0) 1001; present 1 1 1000 (example_parts 1) 1010; Valid 1020 (1020 * SECOND)].
Definition example_replay : list op := [Suspend; present 1 1 1000 (example_parts 1) 1030; Restart; present 1 1 1000 (example_parts 1) 1030;
  present 2 2 1040 (example_parts 2) 1041].

Lemma lease_activates_once_witness :
  activations example_key example_mesh (clock_new example_floor) (example_ops ++ example_replay) = [1; 2] /\
  forall a, a ∈ activations example_key example_mesh (run example_key example_mesh (clock_new example_floor) example_ops) example_replay -> 1 < a.
Proof.
  split; [vm_compute; reflexivity|].
  destruct (lease_activates_once example_key example_mesh (run example_key example_mesh (clock_new example_floor) example_ops) example_replay) as [_ Hlt].
  intros a Ha. exact (proj2 (Hlt a Ha) eq_refl).
Defined.
Lemma issued_lease_authorizes_witness : exists c',
  install (sign_manifest 1) (sign_lease 1 1 1000) example_key example_mesh (example_parts 1) 1001 (5 * SECOND) (clock_new example_floor) = (c', Ok true) /\
  (valid 1299 (303 * SECOND) c').2 = true.
Proof.
  assert (Hsm : manifest_sign (example_manifest 1) [x2a] = Ok (sign_manifest 1)) by (vm_compute; reflexivity).
  assert (Hsl : lease_sign (example_lease 1 1 1000) [x2a] = Ok (sign_lease 1 1 1000)) by (vm_compute; reflexivity).
  assert (Hd : content_digest (manifest_json (example_manifest 1)) = Ok (configuration_digest (example_lease 1 1 1000))) by (vm_compute; reflexivity).
  destruct (issued_lease_authorizes [x2a] example_mesh (example_manifest 1) (example_lease 1 1 1000) _ _ _ _ 1001 (5 * SECOND)
    (clock_new example_floor) Hsm Hsl eq_refl eq_refl Hd eq_refl eq_refl eq_refl eq_refl ltac:(discriminate) ltac:(discriminate) eq_refl
    ltac:(discriminate) eq_refl) as (c' & Hi & Hv).
  exists c'. split; [exact Hi|]. apply Hv; [discriminate|discriminate|reflexivity|reflexivity].
Defined.

End Ls.
