(* ===== verification/Webhooks.v ===== *)
(** * Webhook notifications (crate [peerward-management]: webhooks.rs)

    The control plane tells a receiver outside the mesh that something happened. The
    body is signed with the directory key, under a domain of its own, and a receiver
    takes it only for its own mesh and hook and within five minutes. serde_json is a
    parameter. *)

From S2P Require Import Prelude Ordered Net Credentials IdentityProofs Resources.
From Stdlib Require Import NArith Lia String.
From stdpp Require Import base tactics decidable countable numbers list sorting gmap.
From Stdlib.Init Require Import Byte.
Set Default Goal Selector "!".
Local Open Scope N_scope.

Module Wh.

Definition WEBHOOK_BODY_LIMIT : N := 16 * 1024.
Definition WEBHOOK_TIME_TOLERANCE : N := 300.
(** [b"peerward/webhook-notification/v1\0"] *)
Definition DOMAIN : list byte := list_byte_of_string "peerward/webhook-notification/v1" ++ [x00].

Record WebhookEvent := mkEvent {
  we_id : N; sequence : N; occurred_at : N; kind : list byte; resource_kind : list byte; resource_id : option N;
}.
Record WebhookNotification := mkNotification {
  version : N; wn_mesh_id : MeshId; webhook_id : N; delivery_id : N; attempt : N; sent_at : N; event : WebhookEvent;
}.

(** [b.is_ascii_alphanumeric() || b"._-".contains(&b)] *)
Definition token_byte (b : byte) : bool :=
  (0x30 <=? u8 b) && (u8 b <=? 0x39) || (0x41 <=? u8 b) && (u8 b <=? 0x5a) || (0x61 <=? u8 b) && (u8 b <=? 0x7a)
  || bool_decide (b ∈ [x2e; x5f; x2d]).
Definition token (value : list byte) : bool := negb (bool_decide (value = [])) && (lenN value <=? 128) && forallb token_byte value.
Definition transcript (body : list byte) : list byte := DOMAIN ++ body.

Class WebhookLib := {
  webhook_json : WebhookNotification -> option (list byte);
  webhook_of_json : list byte -> option WebhookNotification;
}.
(** What serde promises of a type that derives both directions. *)
Class WebhookLaws `{WebhookLib} : Prop := {
  webhook_json_read n body : webhook_json n = Some body -> webhook_of_json body = Some n;
}.

Section webhooks.
Context `{UuidInfo} `{Ed25519Lib} `{StrictLib} `{WebhookLib}.

Definition webhook_validate (n : WebhookNotification) : managed unit :=
  if negb (version n =? 1) || negb (get_version_num (webhook_id n) =? 4) || negb (get_version_num (delivery_id n) =? 4)
     || negb (get_version_num (we_id (event n)) =? 4)
     || match resource_id (event n) with Some id => negb (get_version_num id =? 4) | None => false end
     || (sequence (event n) =? 0) || negb ((1 <=? attempt n) && (attempt n <=? 10)) || (sent_at n <? occurred_at (event n))
     || negb (token (kind (event n))) || negb (token (resource_kind (event n)))
  then Err (Invalid "webhook.notification") else Ok tt.
Definition encode (n : WebhookNotification) : managed (list byte) :=
  _ ← webhook_validate n;
  match webhook_json n with
  | Some body => if WEBHOOK_BODY_LIMIT <? lenN body then Err (Invalid "webhook.body") else Ok body
  | None => Err (Invalid "webhook.body")
  end.
Definition sign (n : WebhookNotification) (seed : list byte) : managed (list byte * list byte) :=
  body ← encode n; Ok (body, ed_sign seed (transcript body)).
(** [now.abs_diff(sent_at)] *)
Definition abs_diff (a b : N) : N := N.max a b - N.min a b.
Definition verify (body signature key : list byte) (mesh : MeshId) (webhook now : N) : managed WebhookNotification :=
  if WEBHOOK_BODY_LIMIT <? lenN body then Err (Invalid "webhook.body") else
  if negb ((lenN signature =? 64) && ed_verify_strict key (transcript body) signature) then Err Signature else
  match webhook_of_json body with
  | None => Err (Invalid "webhook.body")
  | Some value =>
      _ ← webhook_validate value;
      if negb (bool_decide (wn_mesh_id value = mesh)) || negb (webhook_id value =? webhook) then Err Signature else
      if WEBHOOK_TIME_TOLERANCE <? abs_diff now (sent_at value) then Err Expired else Ok value
  end.

(** A notification that was accepted is signed, for this mesh and hook, valid and fresh. *)
Lemma webhook_verify_Ok body signature key mesh webhook now n : verify body signature key mesh webhook now = Ok n ->
  lenN body <= 16384 /\ ed_verify_strict key (transcript body) signature = true /\ webhook_of_json body = Some n /\
  webhook_validate n = Ok tt /\ wn_mesh_id n = mesh /\ webhook_id n = webhook /\ now <= sent_at n + 300 /\ sent_at n <= now + 300.
Proof.
  unfold verify. destruct (_ <? lenN body) eqn:Hl; [done|]. destruct (negb _) eqn:Hs; [done|].
  destruct (webhook_of_json body) as [v|]; [|done]. intros ([] & Hv & Hn)%bind_Ok. destruct (_ || _) eqn:Hm; [done|].
  destruct (_ <? abs_diff _ _) eqn:Ht; [done|]. injection Hn as <-. unfold abs_diff, WEBHOOK_TIME_TOLERANCE, WEBHOOK_BODY_LIMIT in *. breflect.
  repeat match goal with H : (_ || _) = false |- _ => apply orb_false_iff in H as [? ?] end. breflect.
  rewrite bool_decide_eq_true in *. split_and!; try done; lia.
Qed.
(** What the control plane signs is accepted for five minutes by the holder of the key. *)
Theorem signed_webhook_accepted `{!Ed25519Laws} `{!StrictLaws} `{!WebhookLaws} n seed body signature now :
  sign n seed = Ok (body, signature) -> now <= sent_at n + 300 -> sent_at n <= now + 300 ->
  verify body signature (ed_public seed) (wn_mesh_id n) (webhook_id n) now = Ok n.
Proof.
  unfold sign, encode. intros (b & ([] & Hv & Hj)%bind_Ok & [= <- <-])%bind_Ok Ha Hb.
  destruct (webhook_json n) as [j|] eqn:Hn; [|done]. destruct (_ <? lenN j) eqn:Hl; [done|]. injection Hj as <-.
  unfold verify. rewrite Hl, ed_sign_len, strict_verify_sign. cbn [andb negb N.eqb Pos.eqb]. rewrite (webhook_json_read _ _ Hn), Hv.
  cbn [mbind outcome_bind]. rewrite bool_decide_eq_true_2, N.eqb_refl by done. cbn [negb orb].
  rewrite (proj2 (N.ltb_ge _ _)); [done|]. unfold abs_diff, WEBHOOK_TIME_TOLERANCE. lia.
Qed.
End webhooks.

End Wh.
