(* ===== verification/Signatures.v ===== *)
(** * What signatures mean across the crates

    [peerward-credentials] and [peerward-directory] sign fourteen kinds of
    statement, with keys of four owners (root, authorities, directory key, Peer
    identities). This file composes their models: no transcript of one statement is
    the transcript of another, and a Peer directory that verifies is anchored in the
    mesh's root through the whole chain of certificates. *)

From S2P Require Import Prelude Ordered Net Directory Topology Credentials IdentityProofs DirectorySigning Resources Leases Webhooks.
From Stdlib Require Import NArith Lia String.
From stdpp Require Import base tactics decidable countable numbers list sorting gmap.
From Stdlib.Init Require Import Byte.
Set Default Goal Selector "!".
Local Open Scope N_scope.

Module Sig.
Import Cred Idp.

(** A statement as its signer means it: what the transcript covers of the object. *)
Inductive Statement :=
  | Credentials (c : Claim)
  | Join (p : JoinClaimProof)
  | RotationRequest (p : RotationRequestProof)
  | RotationActivation (p : RotationActivationProof)
  | Termination (revision terminated_at : N) (authority : AuthorityCertificate)
  | Entry (e : Sg.PeerEntry)
  | Peers (mesh : MeshId) (revision : N) (entries : list (PeerId * list byte))
  | Relays (mesh : MeshId) (revision : N)
      (entries : list (RelayId * list (list byte) * list (list byte) * list byte * CredentialSerial))
  | Topology (t : Topo.RelayTopologyV1)
  | Policy (b : Sg.PolicyBundle)
  | Revocations (b : Sg.RevocationBundle).

Section statements.
Context `{UuidLib} `{Ed25519Lib} `{X25519Lib} `{StrictLib}.

(** [speaks s t]: the code signs and verifies [s] as the bytes [t]; the values have
    their types' widths. *)
Definition speaks (s : Statement) (t : list byte) : Prop :=
  match s with
  | Credentials c => claim_ok c /\ claim_transcript c = t
  | Join p => join_wf p /\ join_claim_transcript p = Ok t
  | RotationRequest p => rotation_request_wf p /\ rotation_request_transcript p = Ok t
  | RotationActivation p => rotation_activation_wf p /\ rotation_activation_transcript p = t
  | Termination rev at_ a => exists x, termination_wf x /\ mt_revision x = rev /\ mt_terminated_at x = at_ /\
      mt_authority x = a /\ termination_transcript x = t
  | Entry e => Sg.entry_wf e /\ Sg.peer_entry_transcript e = Ok t
  | Peers m r v => exists d, Sg.peers_wf d /\ Sg.pd_mesh_id d = m /\ Sg.pd_revision d = r /\
      Sg.entry_view <$> Sg.pd_entries d = v /\ Sg.peer_revision_transcript d = Ok t
  | Relays m r v => exists d, Sg.relays_wf d /\ Sg.rd_mesh_id d = m /\ Sg.rd_revision d = r /\
      Sg.relay_view <$> Sg.rd_entries d = v /\ Sg.relay_transcript d = Ok t
  | Topology x => Sg.topology_wf x /\ Sg.relay_topology_transcript x = Ok t
  | Policy b => Sg.policy_wf b /\ Sg.policy_transcript b = Ok t
  | Revocations b => Sg.revocations_wf b /\ Sg.revocation_transcript b = Ok t
  end.

Definition domain (s : Statement) : list byte :=
  match s with
  | Credentials (AuthorityClaim _) => AUTHORITY_DOMAIN
  | Credentials (SubjectClaim _) => SUBJECT_DOMAIN
  | Credentials (DistributionClaim _ _ _ _ _) => DISTRIBUTION_DOMAIN
  | Credentials (BundleClaim _) => AUTHORITY_BUNDLE_DOMAIN
  | Join _ => JOIN_CLAIM_DOMAIN
  | RotationRequest _ => ROTATION_REQUEST_DOMAIN
  | RotationActivation _ => ROTATION_ACTIVATION_DOMAIN
  | Termination _ _ _ => TERMINATION_DOMAIN
  | Entry _ => Sg.PEER_ENTRY_DOMAIN
  | Peers _ _ _ => Sg.PEER_REVISION_DOMAIN
  | Relays _ _ _ => Sg.RELAY_DOMAIN
  | Topology _ => Sg.RELAY_TOPOLOGY_DOMAIN
  | Policy _ => Sg.POLICY_DOMAIN
  | Revocations _ => Sg.REVOCATION_DOMAIN
  end.

(** Every domain is a string with one NUL, its last byte: none is a prefix of another. *)
Definition nul_terminated (d : list byte) : Prop := exists body, d = body ++ [x00] /\ x00 ∉ body.
Lemma nul_terminated_inj d e a b : nul_terminated d -> nul_terminated e -> d ++ a = e ++ b -> d = e.
Proof.
  intros (x & -> & Hx) (y & -> & Hy) He. rewrite <-!app_assoc in He. f_equal. revert y Hy He.
  induction x as [|c x IH]; intros [|c' y] Hy He; cbn in He; [done| | |].
  - injection He as <- _. destruct Hy. by left.
  - injection He as -> _. destruct Hx. by left.
  - injection He as <- He. f_equal. apply IH; [|set_solver|done]. intros Hin. apply Hx. by right.
Qed.
Lemma nul_terminated_check d : last d = Some x00 -> bool_decide (x00 ∉ removelast d) = true -> nul_terminated d.
Proof.
  intros [body ->]%last_Some Hn%bool_decide_eq_true. exists body. split; [done|]. by rewrite removelast_last in Hn.
Qed.
Lemma domain_nul_terminated s : nul_terminated (domain s).
Proof. destruct s as [[]| | | | | | | | | |]; apply nul_terminated_check; reflexivity. Qed.

Lemma speaks_domain s t : speaks s t -> exists r, t = domain s ++ r.
Proof.
  destruct s as [[]|p|p| | | | | | | |]; cbn [speaks domain].
  1-4: intros [_ <-]; eexists; reflexivity.
  - intros [_ Ht]. rewrite join_claim_transcript_eq in Ht. destruct (join_invalid p); [done|]. apply Ok_inj in Ht as <-. by eexists.
  - intros [_ Ht]. unfold rotation_request_transcript in Ht. destruct (proof_keys_invalid _ _ _); [done|].
    apply Ok_inj in Ht as <-. by eexists.
  - intros [_ <-]. by eexists.
  - intros (x & _ & _ & _ & _ & <-). by eexists.
  - intros [_ [_ ->]%Sg.sealed_Ok]. by eexists.
  - intros (d & _ & _ & _ & _ & [_ ->]%Sg.sealed_Ok). by eexists.
  - intros (d & _ & _ & _ & _ & [_ ->]%Sg.sealed_Ok). by eexists.
  - intros [_ [_ ->]%Sg.sealed_Ok]. by eexists.
  - intros [_ [_ ->]%Sg.sealed_Ok]. by eexists.
  - intros [_ [_ ->]%Sg.sealed_Ok]. by eexists.
Qed.

Lemma speaks_same_domain s s' t : speaks s t -> speaks s' t -> domain s = domain s'.
Proof.
  intros [r Hr]%speaks_domain [r' Hr']%speaks_domain. rewrite Hr in Hr'.
  eapply nul_terminated_inj; [apply domain_nul_terminated|apply domain_nul_terminated|exact Hr'].
Qed.

Lemma signature_meaning s s' t : speaks s t -> speaks s' t -> s = s'.
Proof.
  intros Hs Hs'. pose proof (speaks_same_domain s s' t Hs Hs') as Hd.
  destruct s as [c|p|p|p|r n a|e|m r v|m r v|x|b|b], s' as [c'|p'|p'|p'|r' n' a'|e'|m' r' v'|m' r' v'|x'|b'|b'];
    try (exfalso; first [discriminate Hd | destruct c; discriminate Hd | destruct c'; discriminate Hd]);
    cbn [speaks] in Hs, Hs'.
  - destruct Hs as [Hc Ht], Hs' as [Hc' Ht']. f_equal. apply claim_transcript_inj; [done|done|congruence].
  - destruct Hs as [Hc Ht], Hs' as [Hc' Ht']. f_equal. by eapply join_claim_transcript_inj.
  - destruct Hs as [Hc Ht], Hs' as [Hc' Ht']. f_equal. by eapply rotation_request_transcript_inj.
  - destruct Hs as [Hc Ht], Hs' as [Hc' Ht']. f_equal. apply rotation_activation_transcript_inj; [done|done|congruence].
  - destruct Hs as (x & Hx & <- & <- & <- & Ht), Hs' as (y & Hy & <- & <- & <- & Ht').
    destruct (termination_transcript_inj x y Hx Hy) as (-> & -> & ->); [congruence|done].
  - destruct Hs as [Hc Ht], Hs' as [Hc' Ht']. f_equal. by eapply Sg.peer_entry_transcript_inj.
  - destruct Hs as (x & Hx & <- & <- & <- & Ht), Hs' as (y & Hy & <- & <- & <- & Ht').
    by destruct (Sg.peer_revision_transcript_inj x y t Hx Hy Ht Ht') as (-> & -> & ->).
  - destruct Hs as (x & Hx & <- & <- & <- & Ht), Hs' as (y & Hy & <- & <- & <- & Ht').
    by destruct (Sg.relay_transcript_inj x y t Hx Hy Ht Ht') as (-> & -> & ->).
  - destruct Hs as [Hc Ht], Hs' as [Hc' Ht']. f_equal. by eapply Sg.relay_topology_transcript_inj.
  - destruct Hs as [Hc Ht], Hs' as [Hc' Ht']. f_equal. by eapply Sg.policy_transcript_inj.
  - destruct Hs as [Hc Ht], Hs' as [Hc' Ht']. f_equal. by eapply Sg.revocation_transcript_inj.
Qed.

(** ** Properties *)

(** C15: a signature has one meaning. If two statements - of the fourteen kinds the
    two crates sign, in any combination - have the same transcript, they are the
    same statement: domains separate the kinds, and within a kind the lengths and
    widths of the fields determine them. So no signature made for one purpose, by
    whichever key, can be presented for another. *)
Theorem signature_has_one_meaning s s' t : speaks s t -> speaks s' t -> s = s'.
Proof. apply signature_meaning. Qed.

(** ** What else the holders of these keys sign

    A directory key also signs manifests, leases and webhook bodies, a root key also signs
    its recovery message; none of them begins with the domain of a statement. *)

Definition foreign (m : list byte) : Prop := forall s r, m <> domain s ++ r.
Lemma foreign_not_statement m s : foreign m -> ~ speaks s m.
Proof. intros Hf [r Hr]%speaks_domain. by apply (Hf s r). Qed.
Lemma foreign_domain d body : nul_terminated d -> (forall s, d <> domain s) -> foreign (d ++ body).
Proof. intros Hd Hne s r He. apply (Hne s). by eapply nul_terminated_inj; [|apply domain_nul_terminated|]. Qed.
Lemma other_domain d : bool_decide (d ∈ [AUTHORITY_DOMAIN; SUBJECT_DOMAIN; DISTRIBUTION_DOMAIN; AUTHORITY_BUNDLE_DOMAIN; JOIN_CLAIM_DOMAIN;
    ROTATION_REQUEST_DOMAIN; ROTATION_ACTIVATION_DOMAIN; TERMINATION_DOMAIN; Sg.PEER_ENTRY_DOMAIN; Sg.PEER_REVISION_DOMAIN; Sg.RELAY_DOMAIN;
    Sg.RELAY_TOPOLOGY_DOMAIN; Sg.POLICY_DOMAIN; Sg.REVOCATION_DOMAIN]) = false -> forall s, d <> domain s.
Proof. intros Hd%bool_decide_eq_false s ->. destruct Hd. apply list_elem_of_In. destruct s as [[]| | | | | | | | | |]; cbn [domain]; cbn; tauto. Qed.
Lemma management_foreign body :
  foreign (Ls.MANIFEST_DOMAIN ++ body) /\ foreign (Ls.LEASE_DOMAIN ++ body) /\ foreign (Wh.transcript body) /\
  foreign (list_byte_of_string "RCV1" ++ body).
Proof.
  split_and!.
  1-3: apply foreign_domain; [by apply nul_terminated_check|apply other_domain; vm_compute; reflexivity].
  intros s r He. apply (f_equal (take 4)) in He. destruct s as [[]| | | | | | | | | |]; discriminate He.
Qed.

(** C2: a verified Peer directory is anchored in the root. Suppose a signature that
    verifies under an honest key is over a message its holder signed, and that every
    message an honest holder signs is one of the fourteen statements or begins with
    none of their domains (as a manifest, a lease, a webhook body and a root recovery
    message do: [management_foreign]). Take any trust set a client reaches from its root
    by any sequence of installs and revocations, a distribution certificate it
    accepts at [now], and a Peer directory that verifies under the certificate's
    directory key. Then an authority the root's holder certified for this mesh -
    unrevoked and within its interval - is named by the certificate; if that
    authority is honest it signed the certificate, and if the directory key is
    honest its holder signed this revision, listing exactly these Peers and entry
    signatures, and signed each entry it contains. *)
Theorem directory_chain (honest : list byte -> Prop) (signed_message : list byte -> list byte -> Prop)
    (signs : list byte -> Statement -> Prop) root mesh ops c signed accepted now
    (Hunforgeable : forall key m sg, honest key -> ed_verify key m sg = true -> signed_message key m)
    (Hholders : forall key m, honest key -> signed_message key m -> foreign m \/ exists s, signs key s /\ speaks s m)
    (Hroot : honest root)
    (Hauthorities : Forall (fun a => ua_ok (ac_unsigned a)) (authorities (trust_run ops (trust_new root mesh))))
    (Hwidths : dc_ok c /\ Sg.peers_wf (Sg.spd_directory signed))
    (Hdistribution : verify_distribution c now (trust_run ops (trust_new root mesh)) = Ok tt)
    (Hdirectory : Sg.verify_peers (directory_public_key c) signed mesh accepted = Ok tt) :
  let t := trust_run ops (trust_new root mesh) in
  let d := Sg.spd_directory signed in
  exists a, let u := ac_unsigned a in
    a ∈ authorities t /\ ua_serial u ∉ revoked_authority_serials t /\ ua_mesh_id u = mesh /\
    ua_not_before u <= now < ua_not_after u /\ ua_public_key u = authority_public_key c /\
    signs root (Credentials (AuthorityClaim u)) /\
    (honest (authority_public_key c) -> signs (authority_public_key c) (Credentials (distribution_claim c))) /\
    (honest (directory_public_key c) ->
       signs (directory_public_key c) (Peers mesh (Sg.pd_revision d) (Sg.entry_view <$> Sg.pd_entries d)) /\
       forall s, s ∈ Sg.pd_entries d -> signs (directory_public_key c) (Entry (Sg.sp_entry s))).
Proof.
  cbv zeta. set (t := trust_run ops (trust_new root mesh)) in *. destruct Hwidths as [Hdc Hpw].
  destruct (trust_run_tightens ops (trust_new root mesh)) as (Hr & Hm & _). fold t in Hr, Hm. cbn in Hr, Hm.
  pose proof (trust_run_rooted ops _ (trust_new_rooted root mesh)) as Hrooted. fold t in Hrooted.
  apply verify_distribution_Ok in Hdistribution as (Hcm & a & Hin & Hkey & Hn & Ht & Hs).
  apply Sg.verify_peers_Ok in Hdirectory as (Hdm & _ & _ & _ & _ & He & td & Htd & Hvd).
  destruct (Hrooted a Hin) as [Hma Hsa]. rewrite Forall_forall in Hauthorities. rewrite Hr in Hsa. rewrite Hm in Hma.
  assert (Hmeans : forall key m sg st, honest key -> ed_verify key m sg = true -> speaks st m -> signs key st).
  { intros key m sg st Hh Hv Hst. destruct (Hholders key m Hh (Hunforgeable key m sg Hh Hv)) as [Hf|(s' & Hsg & Hsp)].
    { by destruct (foreign_not_statement m st Hf). }
    by rewrite (signature_meaning _ _ _ Hst Hsp). }
  exists a. split; [done|]. split; [done|]. split; [done|]. split; [done|]. split; [done|]. split; [|split].
  - apply (Hmeans _ _ _ _ Hroot Hsa). split; [by apply Hauthorities|done].
  - intros Hh. apply (Hmeans _ _ _ _ Hh Hs). split; [|by destruct c]. by destruct Hdc as (?&?&?&?&?&_).
  - intros Hh. split.
    + apply (Hmeans _ _ _ _ Hh Hvd). exists (Sg.spd_directory signed). done.
    + intros s Hs'. rewrite Forall_forall in He.
      destruct (proj1 (Sg.verify_peer_Ok _ _ _) (He s Hs')) as [_ (te & Hte & Hve)].
      apply (Hmeans _ _ _ _ Hh Hve). split; [|done]. destruct Hpw as (_ & _ & Hws). rewrite Forall_forall in Hws. exact (proj1 (Hws s Hs')).
Qed.

End statements.
(** ** Examples *)

#[local] Existing Instance uuid_rfc.
#[local] Existing Instance every_key.

Definition example_certificate : DistributionCertificate :=
  mkDistribution (example_id 1) (example_key x11) (example_key x30) (example_key x31) (example_key x32) (replicate 64 x00).
Definition example_peers : Sg.PeerDirectory := Sg.spd_directory Sg.example_directory.
Definition transcript_of (r : outcome Dir.DirectoryError (list byte)) : list byte := match r with Ok t => t | _ => [] end.

(** What the three holders of the example signed: key and statement. *)
Inductive example_signs : list byte -> Statement -> Prop :=
  | root_signs : example_signs (example_key x10) (Credentials (AuthorityClaim example_authority))
  | authority_signs : example_signs (example_key x11) (Credentials (distribution_claim example_certificate))
  | directory_signs : example_signs (example_key x30) (Peers (example_id 1) 5 (Sg.entry_view <$> Sg.pd_entries example_peers))
  | entry_signed : example_signs (example_key x30) (Entry (Sg.sp_entry Sg.example_signed_entry)).
Definition example_transcripts : list (list byte * list byte) :=
  [(example_key x10, authority_transcript example_authority);
   (example_key x11, distribution_transcript example_certificate);
   (example_key x30, transcript_of (Sg.peer_revision_transcript example_peers));
   (example_key x30, transcript_of (Sg.peer_entry_transcript (Sg.sp_entry Sg.example_signed_entry)));
   (example_key x30, Ls.MANIFEST_DOMAIN ++ [x7b; x7d]); (example_key x30, Wh.transcript [x7b; x7d])].
Definition example_signed (key m : list byte) : Prop := (key, m) ∈ example_transcripts.
Definition chain_ed : Ed25519Lib := {|
  ed_public := toy_public;
  ed_sign seed m := toy_mac (toy_public seed) m;
  ed_valid_key k := lenN k =? 32;
  ed_verify key m _ := existsb (fun p => bool_decide (p = (key, m))) example_transcripts;
|}.

Lemma example_entry_wf : Sg.entry_wf (Sg.sp_entry Sg.example_signed_entry).
Proof.
  assert (He : Sg.sp_entry Sg.example_signed_entry = Sg.example_entry) by (vm_compute; reflexivity). rewrite He.
  assert (Hb : Sg.binding_wf (Sg.from_subject example_credential None)) by (repeat split; done).
  do 7 (split; [repeat split; reflexivity|]). split; [constructor; [exact Hb|constructor]|vm_compute; discriminate].
Qed.
Lemma example_peers_wf : Sg.peers_wf example_peers.
Proof.
  split; [split; reflexivity|]. split; [vm_compute; discriminate|]. constructor; [|constructor].
  split; [exact example_entry_wf|reflexivity].
Qed.
Lemma example_unforgeable key m sg : ed_verify (Ed25519Lib := chain_ed) key m sg = true -> example_signed key m.
Proof. intros Hv. apply existsb_exists in Hv as (p & Hin & Hp%bool_decide_eq_true). subst p. by apply list_elem_of_In. Qed.
Lemma example_holders key m : example_signed key m -> foreign m \/ exists s, example_signs key s /\ speaks (H := uuid_rfc) s m.
Proof.
  intros Hin%list_elem_of_In. destruct Hin as [He|[He|[He|[He|[He|[He|[]]]]]]]; apply pair_equal_spec in He as [<- <-].
  - right. eexists. split; [apply root_signs|]. split; [exact (proj1 example_active_ok)|reflexivity].
  - right. eexists. split; [apply authority_signs|]. split; [repeat split; done|reflexivity].
  - right. eexists. split; [apply directory_signs|]. exists example_peers. split; [exact example_peers_wf|].
    split; [reflexivity|]. split; [reflexivity|]. split; [reflexivity|]. vm_compute. reflexivity.
  - right. eexists. split; [apply entry_signed|]. split; [exact example_entry_wf|]. vm_compute. reflexivity.
  - left. apply management_foreign.
  - left. apply management_foreign.
Qed.

Lemma example_authorities :
  authorities (trust_run (H0 := chain_ed) [AddAuthority example_active 150] (trust_new (example_key x10) (example_id 1))) =
  [example_active].
Proof. vm_compute. reflexivity. Qed.
Lemma example_entries : Sg.pd_entries (Sg.spd_directory Sg.example_directory) = [Sg.example_signed_entry].
Proof. vm_compute. reflexivity. Qed.

Lemma directory_chain_witness :
  exists a, example_signs (example_key x10) (Credentials (AuthorityClaim (ac_unsigned a))) /\
    ua_public_key (ac_unsigned a) = example_key x11 /\
    example_signs (example_key x30) (Entry (Sg.sp_entry Sg.example_signed_entry)).
Proof.
  destruct (directory_chain (H := uuid_rfc) (H0 := chain_ed) (fun _ => True) example_signed example_signs (example_key x10) (example_id 1)
    [AddAuthority example_active 150] example_certificate Sg.example_directory (Some 4) 150)
    as (a & _ & _ & _ & _ & Hk & Hr & _ & Hd).
  - intros key m sg _. exact (example_unforgeable key m sg).
  - intros key m _. exact (example_holders key m).
  - exact I.
  - rewrite example_authorities. constructor; [exact (proj1 example_active_ok)|constructor].
  - split; [repeat split; done|exact example_peers_wf].
  - vm_compute. reflexivity.
  - vm_compute. reflexivity.
  - exists a. split; [exact Hr|]. split; [exact Hk|]. destruct (Hd I) as [_ He]. apply He. rewrite example_entries. left.
Defined.

Lemma signature_has_one_meaning_witness :
  speaks (H := uuid_rfc) (Credentials (AuthorityClaim example_authority)) (authority_transcript example_authority) /\
  forall s, speaks (H := uuid_rfc) s (authority_transcript example_authority) -> Credentials (AuthorityClaim example_authority) = s.
Proof.
  assert (Hs : speaks (H := uuid_rfc) (Credentials (AuthorityClaim example_authority)) (authority_transcript example_authority)).
  { split; [exact (proj1 example_active_ok)|reflexivity]. }
  split; [exact Hs|]. intros s Hs'. exact (signature_has_one_meaning _ _ _ Hs Hs').
Defined.

End Sig.
