(* ===== verification/Configuration.v ===== *)
(** * The configuration of resources (crate [peerward-management]: configuration.rs,
    client_network.rs, auto_approval.rs, preferences.rs and the preferences of selection.rs)

    What the control plane delivers beside identities and policy, the routes a client
    captures from its host because of it, which gateways a rule approves by itself, and
    the preferences a user sets. *)

From S2P Require Import Prelude Ordered Net Resources Admission.
From Stdlib Require Import NArith Lia String.
From stdpp Require Import base tactics decidable countable numbers list sorting gmap.
From Stdlib.Init Require Import Byte.
Set Default Goal Selector "!".
Local Open Scope N_scope.

(** [Ipv4Net::default()] and [Ipv6Net::default()]. *)
Class IpNetDefaults `{IpNetLib} := { v4net_default : Ipv4Net; v6net_default : Ipv6Net }.

Module Cf.
Import Rs Ad.

(** ** Preferences *)

#[export] Instance ClientPreferences_eq_dec : EqDecision ClientPreferences.
Proof. solve_decision. Defined.
Record PreferenceChange := mkChange { request_id : N; expected_version : N; new_preferences : ClientPreferences }.
#[export] Instance PreferenceChange_eq_dec : EqDecision PreferenceChange.
Proof. solve_decision. Defined.
Record SavedClientPreferences := mkSaved {
  schema_version : N;
  sp_mesh_id : MeshId;
  sp_peer_id : PeerId;
  sp_version : N;
  preferences : ClientPreferences;
  last_change : option PreferenceChange;
}.
#[export] Instance SavedClientPreferences_eq_dec : EqDecision SavedClientPreferences.
Proof. solve_decision. Defined.
Definition saved_new (mesh : MeshId) (peer : PeerId) : SavedClientPreferences := mkSaved 4 mesh peer 0 preferences_default None.

Section preferences.
Context `{UuidInfo}.
Definition preferences_validate (p : ClientPreferences) : managed unit :=
  if match exit_resource p with Some id => negb (get_version_num id =? 4) | None => false end then Err (Invalid "preferences.exit_resource") else
  if bool_decide (is_Some (exit_resource p)) && negb (accept_dns p) then Err (Invalid "preferences.exit_requires_dns") else Ok tt.
Definition saved_validate (mesh : MeshId) (peer : PeerId) (s : SavedClientPreferences) : managed unit :=
  _ ← preferences_validate (preferences s);
  if negb (schema_version s =? 4) || negb (bool_decide (sp_mesh_id s = mesh)) || negb (bool_decide (sp_peer_id s = peer))
     || match last_change s with
        | Some change =>
            negb (get_version_num (request_id change) =? 4) || negb (bool_decide (checked_add (expected_version change) 1 = Some (sp_version s)))
            || negb (bool_decide (new_preferences change = preferences s))
        | None => false
        end
     || negb (Bool.eqb (sp_version s =? 0) (bool_decide (last_change s = None)))
  then Err (Conflict "client_preferences.identity_or_version") else Ok tt.
Definition validate_change (change : PreferenceChange) (s : SavedClientPreferences) : managed bool :=
  _ ← preferences_validate (new_preferences change);
  if negb (get_version_num (request_id change) =? 4) then Err (Invalid "request_id") else
  if bool_decide (last_change s = Some change) then Ok false else
  if match last_change s with Some l => request_id l =? request_id change | None => false end
     || negb (expected_version change =? sp_version s) || (sp_version s =? U64_MAX)
  then Err (Conflict "client_preferences.version") else Ok true.
Definition changed (change : PreferenceChange) (s : SavedClientPreferences) : managed SavedClientPreferences :=
  proceed ← validate_change change s;
  if negb proceed then Ok s else
  Ok (mkSaved (schema_version s) (sp_mesh_id s) (sp_peer_id s) (sp_version s + 1) (new_preferences change) (Some change)).
End preferences.

(** ** The configuration *)

Section configuration.
Context `{UuidInfo} `{IpNetAddrs} `{!IpNetDefaults}.

Record ResourceWithdrawal := mkWithdrawal { rw_target : ResourceTarget; rw_providers : gset DomainId }.
Record ProviderCaptureExclusion := mkExclusion { pe_target : ResourceTarget; pe_providers : gset DomainId }.
Record ResourceConfiguration := mkConfiguration {
  admission : AdmissionConfiguration;
  collections : list ResolvedCollection;
  withdrawals : list ResourceWithdrawal;
  capture_exclusions : list ProviderCaptureExclusion;
  resources : list NetworkResource;
  bindings : list GatewayBinding;
  advertisements : list RouteAdvertisement;
  rules : list ResourceRule;
}.

Definition too_many {A} (limit : N) (l : list A) : bool := limit <? lenN l.
Definition validate_bounds (c : ResourceConfiguration) : bool :=
  too_many 64 (collections c) || too_many 64 (filter (fun r => is_Some (health_probe (definition r))) (resources c))
  || too_many 4096 (withdrawals c) || too_many 4096 (capture_exclusions c) || too_many 4096 (resources c) || too_many 8192 (bindings c)
  || too_many 8192 (advertisements c) || too_many 4096 (rules c).
Definition validate_withdrawal (w : ResourceWithdrawal) : managed unit :=
  _ ← target_validate (rw_target w);
  if 4096 <? N.of_nat (size (rw_providers w)) then Err (Invalid "withdrawal.providers") else Ok tt.
Definition is_subnet (t : ResourceTarget) : bool := match t with Subnet _ _ => true | Internet _ _ => false end.
Definition validate_exclusion (e : ProviderCaptureExclusion) : managed unit :=
  _ ← target_validate (pe_target e);
  if negb (is_subnet (pe_target e)) || (4096 <? N.of_nat (size (pe_providers e))) then Err (Invalid "capture_exclusion.providers") else Ok tt.
(** The loops, each over what was seen before. *)
Definition validate_resource (ids : gset N) (r : NetworkResource) : managed (gset N) :=
  _ ← definition_validate (definition r);
  if (nr_version r =? 0) || is_nil (nr_id r) || bool_decide (nr_id r ∈ ids) then Err (Invalid "resource_configuration.identity")
  else Ok ({[ nr_id r ]} ∪ ids).
Definition validate_collection (ids : gset N) (kinds : gmap N CollectionKind) (c : ResolvedCollection) : managed (gmap N CollectionKind) :=
  if negb (get_version_num (rc_id c) =? 4) || (4096 <? N.of_nat (size (rc_members c)))
     || existsb (fun id => negb (get_version_num id =? 4)) (bt_elements (rc_members c))
     || bool_decide (rc_kind c = Resources) && negb (bool_decide (rc_members c ⊆ ids))
     || bool_decide (is_Some (kinds !! rc_id c))
  then Err (Invalid "resource_configuration.collection") else Ok (<[rc_id c := rc_kind c]> kinds).
Definition is_exit (rs : list NetworkResource) (id : N) : bool :=
  existsb (fun r => (nr_id r =? id) && negb (is_subnet (target (definition r)))) rs.
Definition validate_binding (ids : gset N) (rs : list NetworkResource) (st : gmap N GatewayBinding * gmap DomainId N) (b : GatewayBinding)
    : managed (gmap N GatewayBinding * gmap DomainId N) :=
  let '(seen, exits) := st in
  _ ← binding_validate b;
  if negb (bool_decide (gb_resource_id b ∈ ids)) || bool_decide (is_Some (seen !! gb_id b)) then Err (Invalid "resource_configuration.binding") else
  let seen := <[gb_id b := b]> seen in
  if approved b && is_exit rs (gb_resource_id b) then
    match exits !! gb_peer_id b with
    | Some previous =>
        if negb (previous =? gb_resource_id b) then Err (Conflict "exit.provider_resource")
        else Ok (seen, <[gb_peer_id b := gb_resource_id b]> exits)
    | None => Ok (seen, <[gb_peer_id b := gb_resource_id b]> exits)
    end
  else Ok (seen, exits).
Definition validate_advertisement (bs : gmap N GatewayBinding) (seen : gset N) (ad : RouteAdvertisement) : managed (gset N) :=
  if (ad_sequence ad =? 0) || (ad_binding_version ad =? 0) || bool_decide (ad_binding_id ad ∈ seen)
     || match bs !! ad_binding_id ad with Some b => negb (bool_decide (gb_peer_id b = ad_peer_id ad)) | None => true end
  then Err (Invalid "resource_configuration.advertisement") else Ok ({[ ad_binding_id ad ]} ∪ seen).
Definition validate_rule (ids : gset N) (kinds : gmap N CollectionKind) (seen : gset N) (r : ResourceRule) : managed (gset N) :=
  _ ← rule_validate r;
  if bool_decide (rr_id r ∈ seen) || existsb (fun id => negb (bool_decide (id ∈ ids))) (bt_elements (rr_resources r))
     || existsb (fun id => negb (bool_decide (kinds !! id = Some Devices))) (bt_elements (source_collections r))
     || existsb (fun id => negb (bool_decide (kinds !! id = Some Resources))) (bt_elements (resource_collections r))
  then Err (Invalid "resource_configuration.rule") else Ok ({[ rr_id r ]} ∪ seen).
Definition configuration_validate (c : ResourceConfiguration) : managed unit :=
  _ ← admission_validate (admission c);
  if validate_bounds c then Err (Invalid "resource_configuration.bounds") else
  _ ← foldM (fun _ => validate_withdrawal) tt (withdrawals c);
  _ ← foldM (fun _ => validate_exclusion) tt (capture_exclusions c);
  ids ← foldM validate_resource ∅ (resources c);
  kinds ← foldM (validate_collection ids) ∅ (collections c);
  seen ← foldM (validate_binding ids (resources c)) (∅, ∅) (bindings c);
  _ ← foldM (validate_advertisement seen.1) ∅ (advertisements c);
  _ ← foldM (validate_rule ids kinds) ∅ (rules c);
  Ok tt.

(** ** client_network.rs: a set of networks is a list without repetition in their order *)

Fixpoint net_insert (n : IpNet) (l : list IpNet) : list IpNet :=
  match l with
  | [] => [n]
  | m :: rest => match Ordered.compare n m with Lt => n :: l | Eq => l | Gt => m :: net_insert n rest end
  end.
Definition former_provider_captures_locally (prefix : IpNet) (local : PeerId) (c : ResourceConfiguration) : bool :=
  existsb (fun e => bool_decide (local ∈ pe_providers e)
                    && match pe_target e with
                       | Subnet prior _ => (net_prefix_len prior <=? net_prefix_len prefix) && net_contains prior (net_network prefix)
                       | Internet _ _ => false
                       end) (capture_exclusions c).
Definition captured_resource (local : PeerId) (c : ResourceConfiguration) (r : NetworkResource) : option IpNet :=
  match target (definition r) with
  | Subnet prefix _ =>
      if negb (existsb (fun b => (gb_resource_id b =? nr_id r) && bool_decide (gb_peer_id b = local)) (bindings c))
         && negb (former_provider_captures_locally prefix local c)
      then Some prefix else None
  | Internet _ _ => None
  end.
Definition captured_withdrawal (local : PeerId) (c : ResourceConfiguration) (w : ResourceWithdrawal) : option IpNet :=
  match rw_target w with
  | Subnet prefix _ =>
      if negb (bool_decide (local ∈ rw_providers w)) && negb (former_provider_captures_locally prefix local c) then Some prefix else None
  | Internet _ _ => None
  end.
Definition private_capture_routes (local : PeerId) (p : ClientPreferences) (c : ResourceConfiguration) : list IpNet :=
  if negb (accept_private_routes p) then [] else
  foldl (fun l n => net_insert n l) [] (omap (captured_resource local c) (resources c) ++ omap (captured_withdrawal local c) (withdrawals c)).
Definition capture_routes (local : PeerId) (p : ClientPreferences) (c : ResourceConfiguration) : list IpNet :=
  let routes := private_capture_routes local p c in
  match exit_resource p with
  | Some _ => net_insert (inr v6net_default) (net_insert (inl v4net_default) routes)
  | None => routes
  end.

(** ** auto_approval.rs *)

Record AutoApprovalDefinition := mkAutoApproval {
  aa_name : list byte;
  aa_enabled : bool;
  device_collection : N;
  aa_site_id : N;
  prefixes : list IpNet;
}.
Definition auto_approval_validate (a : AutoApprovalDefinition) : managed unit :=
  if negb (name_valid (aa_name a)) || negb (get_version_num (device_collection a) =? 4) || negb (get_version_num (aa_site_id a) =? 4)
     || bool_decide (prefixes a = []) || (32 <? lenN (prefixes a))
  then Err (Invalid "auto_approval") else
  const tt <$> foldM (fun seen prefix =>
    _ ← target_validate (Subnet prefix (aa_site_id a));
    if bool_decide (prefix ∈ seen) then Err (Invalid "auto_approval.prefixes") else Ok (prefix :: seen)) [] (prefixes a).
Definition covers (t : ResourceTarget) (a : AutoApprovalDefinition) : bool :=
  match t with
  | Subnet prefix site_id =>
      aa_enabled a && (site_id =? aa_site_id a)
      && existsb (fun allowed => (net_prefix_len allowed <=? net_prefix_len prefix) && net_contains allowed (net_network prefix)
                                 && net_contains allowed (net_broadcast prefix)) (prefixes a)
  | Internet _ _ => false
  end.
End configuration.

(** ** Preferences change step by step *)

Section changes.
Context `{UuidInfo}.
Inductive saved_reachable (mesh : MeshId) (peer : PeerId) : SavedClientPreferences -> Prop :=
| saved_first : saved_reachable mesh peer (saved_new mesh peer)
| saved_changed s change s' : saved_reachable mesh peer s -> changed change s = Ok s' -> saved_reachable mesh peer s'.
Lemma changed_cases change s s' : changed change s = Ok s' ->
  preferences_validate (new_preferences change) = Ok tt /\ get_version_num (request_id change) = 4 /\
  (last_change s = Some change /\ s' = s \/
   last_change s <> Some change /\ expected_version change = sp_version s /\ sp_version s <> U64_MAX /\
   (forall l, last_change s = Some l -> request_id l <> request_id change) /\
   s' = mkSaved (schema_version s) (sp_mesh_id s) (sp_peer_id s) (sp_version s + 1) (new_preferences change) (Some change)).
Proof.
  unfold changed, validate_change. intros (b & (u & Hp & Hr)%bind_Ok & Hs)%bind_Ok. destruct u.
  destruct (negb (_ =? 4)) eqn:Hid; [done|]. apply negb_false_iff, N.eqb_eq in Hid. split; [done|]. split; [done|].
  destruct (bool_decide_reflect (last_change s = Some change)); [injection Hr as <-; injection Hs as <-; by left|right].
  destruct (_ || _) eqn:Hc; [done|]. injection Hr as <-. injection Hs as <-.
  apply orb_false_iff in Hc as [[Hl He%negb_false_iff%N.eqb_eq]%orb_false_iff Hm%N.eqb_neq]. split_and!; try done.
  intros l Hlast. rewrite Hlast in Hl. by apply N.eqb_neq in Hl.
Qed.

(** Saved preferences are always those of their last change. From the first ones on, any
    sequence of accepted changes leaves preferences that pass their own validation, of
    the same mesh and Peer and with a version counting the changes; a change that is
    repeated changes nothing, and one made for another version, or under the identifier
    of a different last change, is refused. *)
Theorem preferences_consistent mesh peer s : saved_reachable mesh peer s -> sp_version s <= U64_MAX /\
  saved_validate mesh peer s = Ok tt /\
  (forall change s', changed change s = Ok s' -> changed change s' = Ok s' /\ (s' = s \/ sp_version s' = sp_version s + 1)) /\
  (forall change, last_change s <> Some change -> expected_version change <> sp_version s -> is_ok (changed change s) = false).
Proof.
  intros Hr. assert (Hinv : schema_version s = 4 /\ sp_mesh_id s = mesh /\ sp_peer_id s = peer /\ preferences_validate (preferences s) = Ok tt /\
    sp_version s <= U64_MAX /\
    match last_change s with
    | Some c => get_version_num (request_id c) = 4 /\ expected_version c + 1 = sp_version s /\ new_preferences c = preferences s
    | None => sp_version s = 0
    end).
  { induction Hr as [|s change s' _ IH Hc]; [by split_and!|].
    destruct (changed_cases _ _ _ Hc) as (Hp & Hid & [(_ & ->)|(_ & He & Hm & _ & ->)]); [done|].
    destruct IH as (? & ? & ? & ? & ? & _). cbn. split_and!; try done; lia. }
  clear Hr. destruct Hinv as (Hsch & Hm & Hpe & Hpv & Hmax & Hl). split; [done|]. split; [|split].
  - unfold saved_validate. rewrite Hpv, Hsch, Hm, Hpe, !bool_decide_eq_true_2 by done. cbn.
    destruct (last_change s) as [c|].
    + destruct Hl as (-> & He & ->). unfold checked_add. rewrite He, (proj2 (N.leb_le _ _) Hmax), !bool_decide_eq_true_2 by done. cbn.
      destruct (N.eqb_spec (sp_version s) 0); [lia|]. done.
    + by rewrite Hl.
  - intros change s' Hc. destruct (changed_cases _ _ _ Hc) as (Hp & Hid & [(Hlast & ->)|(_ & _ & _ & _ & ->)]); [split; [done|by left]|].
    split; [|by right]. unfold changed, validate_change. rewrite Hp. cbn. by rewrite Hid, bool_decide_eq_true_2.
  - intros change Hne Hve. destruct (changed change s) as [s'| |] eqn:Hc; [|done..].
    destruct (changed_cases _ _ _ Hc) as (_ & _ & [(? & _)|(_ & ? & _)]); done.
Qed.
End changes.

(** ** A valid configuration is closed *)

Section closed.
Context `{UuidInfo} `{IpNetAddrs}.

Lemma resources_seen rs ids : foldM validate_resource ∅ rs = Ok ids ->
  NoDup (nr_id <$> rs) /\ (forall id, id ∈ ids <-> id ∈ (nr_id <$> rs)) /\ Forall (fun r => definition_validate (definition r) = Ok tt) rs.
Proof.
  apply (foldM_ind (fun rs ids => NoDup (nr_id <$> rs) /\ (forall id, id ∈ ids <-> id ∈ (nr_id <$> rs)) /\
    Forall (fun r => definition_validate (definition r) = Ok tt) rs)).
  { split_and!; [constructor|set_solver|constructor]. }
  intros seen s x s' (Hn & Hi & Hv). unfold validate_resource. intros ([] & Hx & Hs)%bind_Ok. destruct (_ || _) eqn:He; [done|]. injection Hs as <-.
  apply orb_false_iff in He as [_ He%bool_decide_eq_false]. rewrite fmap_app. split_and!.
  - apply NoDup_snoc; [done|]. by rewrite <-Hi.
  - intros id. change (nr_id <$> [x]) with [nr_id x]. rewrite elem_of_union, elem_of_singleton, elem_of_app, list_elem_of_singleton, Hi. tauto.
  - apply Forall_app. by split; [|constructor].
Qed.
Lemma collections_seen ids cs kinds : foldM (validate_collection ids) ∅ cs = Ok kinds ->
  NoDup (rc_id <$> cs) /\ (forall id kind, kinds !! id = Some kind <-> exists c, c ∈ cs /\ rc_id c = id /\ rc_kind c = kind) /\
  Forall (fun c => rc_kind c = Resources -> rc_members c ⊆ ids) cs.
Proof.
  apply (foldM_ind (fun cs (kinds : gmap N CollectionKind) => NoDup (rc_id <$> cs) /\
    (forall id kind, kinds !! id = Some kind <-> exists c, c ∈ cs /\ rc_id c = id /\ rc_kind c = kind) /\
    Forall (fun c => rc_kind c = Resources -> rc_members c ⊆ ids) cs)).
  { split_and!; [constructor| |constructor]. intros id kind. rewrite lookup_empty. split; [done|]. by intros (c & Hc%not_elem_of_nil & _). }
  intros seen s x s' (Hn & Hi & Hv). unfold validate_collection. destruct (_ || _) eqn:He; [done|]. intros [= <-].
  apply orb_false_iff in He as [[He Hsub]%orb_false_iff Hnew%bool_decide_eq_false]. rewrite <-eq_None_not_Some in Hnew.
  assert (Hfresh : rc_id x ∉ (rc_id <$> seen)).
  { intros (c & He' & Hc)%list_elem_of_fmap. assert (Hx : s !! rc_id x = Some (rc_kind c)); [|congruence]. apply Hi. by exists c. }
  rewrite fmap_app. split_and!.
  - by apply NoDup_snoc.
  - intros id kind. destruct (decide (id = rc_id x)) as [->|Hne].
    + rewrite lookup_insert_eq. split; [intros [= <-]; exists x; split; [apply elem_of_app; right; by left|done]|].
      intros (c & [Hc|Hc%list_elem_of_singleton]%elem_of_app & Hid & <-); [|by subst].
      destruct Hfresh. rewrite <-Hid. by apply list_elem_of_fmap_2.
    + rewrite lookup_insert_ne by done. rewrite Hi.
      split; [intros (c & Hc & ? & ?); exists c; split; [apply elem_of_app; by left|done]|].
      intros (c & [Hc|Hc%list_elem_of_singleton]%elem_of_app & Hid & Hk); [by exists c|by subst].
  - apply Forall_app. split; [done|]. constructor; [|constructor]. intros Hk. apply andb_false_iff in Hsub as [Hs|Hs].
    + by apply bool_decide_eq_false in Hs.
    + by apply negb_false_iff, bool_decide_eq_true in Hs.
Qed.
Lemma is_exit_iff rs id : is_exit rs id = true <-> exists r, r ∈ rs /\ nr_id r = id /\ is_subnet (target (definition r)) = false.
Proof. unfold is_exit. rewrite existsb_iff. setoid_rewrite andb_true_iff. setoid_rewrite N.eqb_eq. by setoid_rewrite negb_true_iff. Qed.
Lemma bindings_seen ids rs bs seen exits : foldM (validate_binding ids rs) (∅, ∅) bs = Ok (seen, exits) ->
  NoDup (gb_id <$> bs) /\ (forall id b, seen !! id = Some b <-> b ∈ bs /\ gb_id b = id) /\
  Forall (fun b => binding_validate b = Ok tt /\ gb_resource_id b ∈ ids) bs /\
  (forall b, b ∈ bs -> approved b = true -> is_exit rs (gb_resource_id b) = true -> exits !! gb_peer_id b = Some (gb_resource_id b)).
Proof.
  apply (foldM_ind (fun bs (st : gmap N GatewayBinding * gmap DomainId N) => NoDup (gb_id <$> bs) /\
    (forall id b, st.1 !! id = Some b <-> b ∈ bs /\ gb_id b = id) /\ Forall (fun b => binding_validate b = Ok tt /\ gb_resource_id b ∈ ids) bs /\
    (forall b, b ∈ bs -> approved b = true -> is_exit rs (gb_resource_id b) = true -> st.2 !! gb_peer_id b = Some (gb_resource_id b)))).
  { cbn. split_and!; [constructor| |constructor|by intros b ?%not_elem_of_nil]. intros id b. rewrite lookup_empty. split; [done|]. by intros [?%not_elem_of_nil _]. }
  intros done_ [seen0 exits0] x [seen' exits'] (Hn & Hi & Hv & He). unfold validate_binding. intros ([] & Hx & Hs)%bind_Ok.
  destruct (_ || _) eqn:Hc; [done|]. apply orb_false_iff in Hc as [Hid%negb_false_iff%bool_decide_eq_true Hnew%bool_decide_eq_false].
  rewrite <-eq_None_not_Some in Hnew. cbn [fst snd] in *.
  assert (Hcase : seen' = <[gb_id x := x]> seen0 /\
    (approved x && is_exit rs (gb_resource_id x) = false /\ exits' = exits0 \/
     exits' = <[gb_peer_id x := gb_resource_id x]> exits0 /\ forall y, exits0 !! gb_peer_id x = Some y -> y = gb_resource_id x)).
  { destruct (approved x && _); [|injection Hs as <- <-; split; [done|by left]].
    destruct (exits0 !! gb_peer_id x) as [y|]; [|injection Hs as <- <-; split; [done|by right]].
    destruct (N.eqb_spec y (gb_resource_id x)); [|done]. cbn in Hs. injection Hs as <- <-. split; [done|right]. split; [done|congruence]. }
  destruct Hcase as [-> Hex]. clear Hs. rewrite fmap_app. split_and!.
  - apply NoDup_snoc; [done|]. intros (b & Hb & Hin)%list_elem_of_fmap. assert (Hy : seen0 !! gb_id x = Some b); [|congruence]. by apply Hi.
  - intros id b. rewrite elem_of_app, list_elem_of_singleton. destruct (decide (id = gb_id x)) as [->|Hne].
    + rewrite lookup_insert_eq. split; [intros [= <-]; by split; [right|]|]. intros [[Hb| ->] Hid']; [|done].
      assert (Hy : seen0 !! gb_id x = Some b); [by apply Hi|congruence].
    + rewrite lookup_insert_ne by done. rewrite Hi. split; [intros []; by split; [left|]|]. intros [[Hb| ->] Hid']; done.
  - apply Forall_app. split; [done|]. by repeat constructor.
  - intros b [Hb| ->%list_elem_of_singleton]%elem_of_app Hap Hx'.
    + specialize (He b Hb Hap Hx'). destruct Hex as [[_ ->]|[-> Hsame]]; [done|].
      destruct (decide (gb_peer_id b = gb_peer_id x)) as [Hp|]; [|by rewrite lookup_insert_ne]. rewrite Hp in He |- *. rewrite lookup_insert_eq.
      f_equal. symmetry. by apply Hsame.
    + destruct Hex as [[Hf _]|[-> _]]; [by rewrite Hap, Hx' in Hf|by rewrite lookup_insert_eq].
Qed.
Lemma advertisements_seen (bs : gmap N GatewayBinding) ads seen : foldM (validate_advertisement bs) ∅ ads = Ok seen ->
  NoDup (ad_binding_id <$> ads) /\ Forall (fun ad => exists b, bs !! ad_binding_id ad = Some b /\ gb_peer_id b = ad_peer_id ad) ads.
Proof.
  intros Hf. enough (NoDup (ad_binding_id <$> ads) /\ (forall id, id ∈ seen <-> id ∈ (ad_binding_id <$> ads)) /\
    Forall (fun ad => exists b, bs !! ad_binding_id ad = Some b /\ gb_peer_id b = ad_peer_id ad) ads) as (? & _ & ?) by done.
  revert Hf. apply (foldM_ind (fun ads (seen : gset N) => NoDup (ad_binding_id <$> ads) /\ (forall id, id ∈ seen <-> id ∈ (ad_binding_id <$> ads)) /\
    Forall (fun ad => exists b, bs !! ad_binding_id ad = Some b /\ gb_peer_id b = ad_peer_id ad) ads)).
  { split_and!; [constructor|set_solver|constructor]. }
  intros done_ s x s' (Hn & Hi & Hv). unfold validate_advertisement. destruct (_ || _) eqn:He; [done|]. intros [= <-].
  apply orb_false_iff in He as [[_ Hnew%bool_decide_eq_false]%orb_false_iff Hb]. rewrite fmap_app. split_and!.
  - apply NoDup_snoc; [done|]. by rewrite <-Hi.
  - intros id. change (ad_binding_id <$> [x]) with [ad_binding_id x]. rewrite elem_of_union, elem_of_singleton, elem_of_app, list_elem_of_singleton, Hi. tauto.
  - apply Forall_app. split; [done|]. constructor; [|constructor]. destruct (bs !! ad_binding_id x) as [b|]; [|done]. exists b. split; [done|].
    by apply negb_false_iff, bool_decide_eq_true in Hb.
Qed.
Lemma existsb_set_false {K} `{Countable K} `{!Compare K} `{!CompareLaws K} (f : K -> bool) (X : gset K) :
  existsb f (bt_elements X) = false <-> forall k, k ∈ X -> f k = false.
Proof.
  rewrite <-not_true_iff_false, existsb_iff. setoid_rewrite elem_of_bt_elements. split.
  - intros Hn k Hk. apply not_true_is_false. intros Hf. destruct Hn. by exists k.
  - intros Hn (k & Hk & Hf). by rewrite Hn in Hf.
Qed.
Lemma rules_seen (ids : gset N) kinds rs seen : foldM (validate_rule ids kinds) ∅ rs = Ok seen ->
  NoDup (rr_id <$> rs) /\ Forall (fun r => rule_validate r = Ok tt /\ (forall id, id ∈ rr_resources r -> id ∈ ids) /\
    (forall id, id ∈ source_collections r -> kinds !! id = Some Devices) /\ (forall id, id ∈ resource_collections r -> kinds !! id = Some Resources)) rs.
Proof.
  set (P := fun r => rule_validate r = Ok tt /\ (forall id, id ∈ rr_resources r -> id ∈ ids) /\
    (forall id, id ∈ source_collections r -> kinds !! id = Some Devices) /\ (forall id, id ∈ resource_collections r -> kinds !! id = Some Resources)).
  intros Hf. enough (NoDup (rr_id <$> rs) /\ (forall id, id ∈ seen <-> id ∈ (rr_id <$> rs)) /\ Forall P rs) as (? & _ & ?) by done.
  revert Hf. apply (foldM_ind (fun rs (seen : gset N) => NoDup (rr_id <$> rs) /\ (forall id, id ∈ seen <-> id ∈ (rr_id <$> rs)) /\ Forall P rs)).
  { split_and!; [constructor|set_solver|constructor]. }
  intros done_ s x s' (Hn & Hi & Hv). unfold validate_rule. intros ([] & Hx & Hs)%bind_Ok. destruct (_ || _) eqn:He; [done|]. injection Hs as <-.
  apply orb_false_iff in He as [[[Hnew%bool_decide_eq_false Hr]%orb_false_iff Hd]%orb_false_iff Hc]. rewrite existsb_set_false in Hr, Hd, Hc.
  rewrite fmap_app. split_and!.
  - apply NoDup_snoc; [done|]. by rewrite <-Hi.
  - intros id. change (rr_id <$> [x]) with [rr_id x]. rewrite elem_of_union, elem_of_singleton, elem_of_app, list_elem_of_singleton, Hi. tauto.
  - apply Forall_app. split; [done|]. constructor; [|constructor]. split_and!; [done|..]; intros id Hin.
    + by apply Hr, negb_false_iff, bool_decide_eq_true in Hin.
    + by apply Hd, negb_false_iff, bool_decide_eq_true in Hin.
    + by apply Hc, negb_false_iff, bool_decide_eq_true in Hin.
Qed.

(** A validated configuration is closed and unambiguous. Its resources, collections,
    bindings, advertisements and rules have one entry per identifier, each valid by itself;
    whatever a binding, an advertisement, a collection or a rule names is in the same
    configuration and of the right kind; an advertisement is made by the Peer of its
    binding; and a Peer is an approved provider of at most one exit. *)
Theorem configuration_closed c : configuration_validate c = Ok tt ->
  NoDup (nr_id <$> resources c) /\ NoDup (rc_id <$> collections c) /\ NoDup (gb_id <$> bindings c) /\
  NoDup (ad_binding_id <$> advertisements c) /\ NoDup (rr_id <$> rules c) /\
  (forall r, r ∈ resources c -> definition_validate (definition r) = Ok tt) /\
  (forall k id, k ∈ collections c -> rc_kind k = Resources -> id ∈ rc_members k -> id ∈ (nr_id <$> resources c)) /\
  (forall b, b ∈ bindings c -> binding_validate b = Ok tt /\ gb_resource_id b ∈ (nr_id <$> resources c)) /\
  (forall ad, ad ∈ advertisements c -> exists b, b ∈ bindings c /\ gb_id b = ad_binding_id ad /\ gb_peer_id b = ad_peer_id ad) /\
  (forall r, r ∈ rules c -> rule_validate r = Ok tt /\ (forall id, id ∈ rr_resources r -> id ∈ (nr_id <$> resources c)) /\
     (forall id, id ∈ source_collections r -> exists k, k ∈ collections c /\ rc_id k = id /\ rc_kind k = Devices) /\
     (forall id, id ∈ resource_collections r -> exists k, k ∈ collections c /\ rc_id k = id /\ rc_kind k = Resources)) /\
  (forall b b', b ∈ bindings c -> b' ∈ bindings c -> approved b = true -> approved b' = true -> gb_peer_id b = gb_peer_id b' ->
     is_exit (resources c) (gb_resource_id b) = true -> is_exit (resources c) (gb_resource_id b') = true -> gb_resource_id b = gb_resource_id b').
Proof.
  unfold configuration_validate. intros (u & _ & Hv)%bind_Ok. destruct (validate_bounds c); [done|].
  apply bind_Ok in Hv as (u1 & _ & Hv). apply bind_Ok in Hv as (u2 & _ & Hv).
  apply bind_Ok in Hv as (ids & Hids & Hv). apply bind_Ok in Hv as (kinds & Hk & Hv). apply bind_Ok in Hv as ([seen exits] & Hb & Hv).
  apply bind_Ok in Hv as (s1 & Ha & Hv). apply bind_Ok in Hv as (s2 & Hr & _). cbn [fst] in Ha.
  destruct (resources_seen _ _ Hids) as (Nr & Ir & Vr). destruct (collections_seen _ _ _ Hk) as (Nk & Ik & Vk).
  destruct (bindings_seen _ _ _ _ _ Hb) as (Nb & Ib & Vb & Eb). destruct (advertisements_seen _ _ _ Ha) as (Na & Va).
  destruct (rules_seen _ _ _ _ Hr) as (Nru & Vru). rewrite Forall_forall in Vr. rewrite Forall_forall in Vk. rewrite Forall_forall in Vb.
  rewrite Forall_forall in Va. rewrite Forall_forall in Vru. split_and!; try done.
  - intros k id Hin Hkind Hid. apply Ir. by apply (Vk k Hin Hkind).
  - intros b Hin. destruct (Vb b Hin). split; [done|]. by apply Ir.
  - intros ad Hin. destruct (Va ad Hin) as (b & [Hbin Hid]%Ib & Hp). by exists b.
  - intros r Hin. destruct (Vru r Hin) as (V & R & D & C). split_and!; [done| |..].
    + intros id Hid. by apply Ir, R.
    + intros id Hid. by apply Ik, D.
    + intros id Hid. by apply Ik, C.
  - intros b b' Hin Hin' Hap Hap' Hp He He'. pose proof (Eb b Hin Hap He) as E1. pose proof (Eb b' Hin' Hap' He') as E2. rewrite Hp in E1. congruence.
Qed.
End closed.

(** ** Captured routes *)

Section capture.
Context `{UuidInfo} `{IpNetAddrs} `{!IpNetDefaults}.

Lemma elem_of_net_insert n m l : n ∈ net_insert m l <-> n = m \/ n ∈ l.
Proof.
  induction l as [|k l IH]; cbn [net_insert]; [by rewrite list_elem_of_singleton, elem_of_nil; naive_solver|].
  destruct (Ordered.compare m k) eqn:Hc.
  - apply compare_eq in Hc as ->. rewrite elem_of_cons. naive_solver.
  - by rewrite !elem_of_cons.
  - rewrite !elem_of_cons, IH. naive_solver.
Qed.
Lemma elem_of_inserted n l k : n ∈ foldl (fun l n => net_insert n l) k l <-> n ∈ l \/ n ∈ k.
Proof.
  revert k. induction l as [|m l IH]; intros k; cbn [foldl]; [by rewrite elem_of_nil; naive_solver|].
  rewrite IH, elem_of_net_insert, elem_of_cons. naive_solver.
Qed.
(** [local] does not reach these addresses by its own network. *)
Definition away (local : PeerId) (c : ResourceConfiguration) (prefix : IpNet) : Prop := former_provider_captures_locally prefix local c = false.
(** Captured traffic is decided, never leaked. A client captures exactly the subnets of
    the resources it does not provide itself and of the withdrawn ones it did not provide,
    except what a former provider reaches on its own network; with an exit chosen also
    both default routes. The set depends on no approval, rule, advertisement or
    admission, so the loss of any of them drops packets instead of sending them past the
    mesh. *)
Theorem captured_exactly local p c n : n ∈ capture_routes local p c <->
  accept_private_routes p = true /\ away local c n /\
    ((exists r site, r ∈ resources c /\ target (definition r) = Subnet n site /\
        (forall b, b ∈ bindings c -> gb_resource_id b = nr_id r -> gb_peer_id b <> local)) \/
     (exists w site, w ∈ withdrawals c /\ rw_target w = Subnet n site /\ local ∉ rw_providers w)) \/
  is_Some (exit_resource p) /\ (n = inl v4net_default \/ n = inr v6net_default).
Proof.
  assert (Hpriv : n ∈ private_capture_routes local p c <-> accept_private_routes p = true /\ away local c n /\
    ((exists r site, r ∈ resources c /\ target (definition r) = Subnet n site /\
        (forall b, b ∈ bindings c -> gb_resource_id b = nr_id r -> gb_peer_id b <> local)) \/
     (exists w site, w ∈ withdrawals c /\ rw_target w = Subnet n site /\ local ∉ rw_providers w))).
  { unfold private_capture_routes. destruct (accept_private_routes p); cbn [negb]; [|rewrite elem_of_nil; naive_solver].
    rewrite elem_of_inserted, elem_of_app, elem_of_nil, !list_elem_of_omap. unfold away. split.
    - intros [[(r & Hr & Hc)|(w & Hw & Hc)]|[]]; (split; [done|]).
      + unfold captured_resource in Hc. destruct (target (definition r)) as [prefix site|] eqn:Ht; [|done]. destruct (_ && _) eqn:Hcond; [|done].
        injection Hc as ->. apply andb_true_iff in Hcond as [Hb%negb_true_iff Ha%negb_true_iff]. split; [done|left]. exists r, site. split_and!; [done..|].
        intros b Hin Hid Hp. assert (Hx : existsb (fun b => (gb_resource_id b =? nr_id r) && bool_decide (gb_peer_id b = local)) (bindings c) = true); [|congruence].
        apply existsb_iff. exists b. split; [done|]. by rewrite Hid, N.eqb_refl, bool_decide_eq_true_2.
      + unfold captured_withdrawal in Hc. destruct (rw_target w) as [prefix site|] eqn:Ht; [|done]. destruct (_ && _) eqn:Hcond; [|done].
        injection Hc as ->. apply andb_true_iff in Hcond as [Hb%negb_true_iff%bool_decide_eq_false Ha%negb_true_iff]. split; [done|right]. by exists w, site.
    - intros (_ & Ha & [(r & site & Hr & Ht & Hb)|(w & site & Hw & Ht & Hb)]); left.
      + left. exists r. split; [done|]. unfold captured_resource. rewrite Ht, Ha.
        replace (existsb _ _) with false; [done|]. symmetry. apply not_true_is_false. intros (b & Hin & Hx)%existsb_iff.
        apply andb_true_iff in Hx as [Hid%N.eqb_eq Hp%bool_decide_eq_true]. by apply (Hb b).
      + right. exists w. split; [done|]. unfold captured_withdrawal. by rewrite Ht, Ha, bool_decide_eq_false_2. }
  unfold capture_routes. destruct (exit_resource p).
  - rewrite !elem_of_net_insert, Hpriv. split; [intros [->|[->|]]; [right; split; [by eexists|by right]|right; split; [by eexists|by left]|by left]|].
    intros [|[_ [->| ->]]]; [by right; right|by right; left|by left].
  - rewrite Hpriv. split; [by left|]. intros [|[[] _]]; done.
Qed.
End capture.

(** ** Automatic approval *)

(** A network is the interval from its first address to its last. *)
Definition addr_le (a b : IpAddr) : Prop := match a, b with V4 x, V4 y => x <= y | V6 x, V6 y => x <= y | _, _ => False end.
Class IpNetIntervals `{IpNetAddrs} : Prop := {
  net_interval n a : net_contains n a = true <-> addr_le (net_network n) a /\ addr_le a (net_broadcast n);
}.
(** A rule approves by itself only targets inside one of its prefixes, at its own site, and
    never an exit. *)
Theorem automatic_approval_bounded `{UuidInfo} `{IpNetIntervals} rule t : covers t rule = true ->
  exists prefix allowed, t = Subnet prefix (aa_site_id rule) /\ aa_enabled rule = true /\ allowed ∈ prefixes rule /\
    forall a, target_contains t a = true -> net_contains allowed a = true.
Proof.
  destruct t as [prefix site|]; [|done]. cbn. intros [[He <-%N.eqb_eq]%andb_true_iff (allowed & Hin & Hc)%existsb_iff]%andb_true_iff.
  apply andb_true_iff in Hc as [[_ Hn]%andb_true_iff Hb]. exists prefix, allowed. split_and!; try done.
  intros a [Hl Hu]%net_interval. apply net_interval in Hn as [Hn _], Hb as [_ Hb]. apply net_interval.
  destruct (net_network allowed), (net_network prefix), a, (net_broadcast prefix), (net_broadcast allowed); cbn in *; try done; split; lia.
Qed.

(** ** Concrete instances *)

#[local] Existing Instance uuid_info_rfc.
#[local] Existing Instance ipnet_prefix.
#[local] Existing Instance ipnet_prefix_addrs.
#[local] Instance prefix_defaults : IpNetDefaults := @Build_IpNetDefaults ipnet_prefix (0, 0) (0, 0).

Definition example_change (n v : N) (exit : option N) : PreferenceChange :=
  mkChange (example_uuid n) v (mkPreferences true true false exit false).
Definition example_first : SavedClientPreferences := saved_new (mkDomainId 1) (mkDomainId 2).
Definition example_saved : SavedClientPreferences :=
  mkSaved 4 (mkDomainId 1) (mkDomainId 2) 1 (mkPreferences true true false (Some (example_uuid 13)) false)
    (Some (example_change 60 0 (Some (example_uuid 13)))).
Lemma preferences_consistent_witness :
  changed (example_change 60 0 (Some (example_uuid 13))) example_first = Ok example_saved /\
  saved_validate (mkDomainId 1) (mkDomainId 2) example_saved = Ok tt /\
  changed (example_change 60 0 (Some (example_uuid 13))) example_saved = Ok example_saved /\
  is_ok (changed (example_change 61 0 None) example_saved) = false.
Proof.
  assert (Hc : changed (example_change 60 0 (Some (example_uuid 13))) example_first = Ok example_saved) by (vm_compute; reflexivity).
  destruct (preferences_consistent (mkDomainId 1) (mkDomainId 2) example_first (saved_first _ _)) as (_ & _ & Hre & _).
  destruct (preferences_consistent (mkDomainId 1) (mkDomainId 2) example_saved (saved_changed _ _ _ _ _ (saved_first _ _) Hc)) as (_ & Hv & _ & Hno).
  split; [exact Hc|]. split; [exact Hv|]. split; [exact (proj1 (Hre _ _ Hc))|]. apply Hno; discriminate.
Defined.

Definition example_configuration : ResourceConfiguration := mkConfiguration (mkAdmission false ∅) []
  [mkWithdrawal (Subnet (inl (0x0a010000, 16)) 7) ∅] [mkExclusion (Subnet (inl (0x0a010000, 16)) 7) {[ mkDomainId (example_uuid 31) ]}]
  example_resources [example_binding 40 11; example_binding 41 13] [mkAdvertisement 1 (example_uuid 40) example_gateway 1 true 5000 true] example_rules.
Lemma configuration_closed_witness : configuration_validate example_configuration = Ok tt /\
  (forall r, r ∈ example_rules -> forall id, id ∈ rr_resources r -> id ∈ (nr_id <$> example_resources)).
Proof.
  assert (Hv : configuration_validate example_configuration = Ok tt) by (vm_compute; reflexivity). split; [exact Hv|].
  destruct (configuration_closed example_configuration Hv) as (_ & _ & _ & _ & _ & _ & _ & _ & _ & Hr & _).
  intros r Hin id Hid. exact (proj1 (proj2 (Hr r Hin)) id Hid).
Defined.
(** A gateway captures what it does not provide; a former provider of the withdrawn
    network reaches it by itself. *)
Lemma captured_exactly_witness :
  capture_routes example_gateway preferences_default example_configuration = [inl (0x0a010000, 16); inl (0xc0a81400, 24); inl (0xc0a81432, 32)] /\
  (inl (0x0a010000, 16) : IpNet) ∉ capture_routes (mkDomainId (example_uuid 31)) preferences_default example_configuration.
Proof.
  split; [vm_compute; reflexivity|]. intros [(_ & Ha & _)|[[x Hx] _]]%captured_exactly; [discriminate Ha|discriminate Hx].
Defined.

End Cf.
