(* ===== verification/Dns.v ===== *)
(** * Names of a mesh (crate [peerward-management]: dns.rs)

    Profiles hold the DNS settings of groups of devices; what a Peer uses is the union of
    those that apply to it, without conflicts. Names are lower-case bytes. *)

From S2P Require Import Prelude Ordered Net Resources.
From Stdlib Require Import NArith Lia String.
From stdpp Require Import base tactics decidable countable numbers list sorting gmap.
From Stdlib.Init Require Import Byte.
Set Default Goal Selector "!".
Local Open Scope N_scope.

Module Dn.
Import Rs.

Inductive DnsRecord := A (address : N) | AAAA (address : N) | CNAME (target : list byte).
#[export] Instance DnsRecord_eq_dec : EqDecision DnsRecord.
Proof. solve_decision. Defined.
Notation records_map := (gmap (list byte) (list DnsRecord)).
Record DnsRoute := mkRoute { suffix : list byte; upstreams : list SocketAddr }.
#[export] Instance DnsRoute_eq_dec : EqDecision DnsRoute.
Proof. solve_decision. Defined.
Record EffectiveDns := mkEffective { search_domains : list (list byte); routes : list DnsRoute; records : records_map }.

(** ** Names *)

(** [split('.')] *)
Fixpoint split_dots (label : list byte) (s : list byte) : list (list byte) :=
  match s with
  | [] => [label]
  | b :: rest => if u8 b =? 0x2e then label :: split_dots [] rest else split_dots (label ++ [b]) rest
  end.
Definition is_lower (b : byte) : bool := (0x61 <=? u8 b) && (u8 b <=? 0x7a).
Definition is_digit (b : byte) : bool := (0x30 <=? u8 b) && (u8 b <=? 0x39).
Definition to_lower (b : byte) : byte := if (0x41 <=? u8 b) && (u8 b <=? 0x5a) then byte_of (u8 b + 0x20) else b.
Definition to_ascii_lowercase (s : list byte) : list byte := to_lower <$> s.
Definition valid_label (l : list byte) : bool :=
  negb (bool_decide (l = [])) && (lenN l <=? 63) && forallb (fun b => is_lower b || is_digit b || (u8 b =? 0x2d)) l
  && negb (bool_decide (head l = Some x2d)) && negb (bool_decide (last l = Some x2d)).
Definition valid_dns_name (name : list byte) : bool :=
  negb (bool_decide (name = [])) && (lenN name <=? 253) && bool_decide (name = to_ascii_lowercase name)
  && forallb valid_label (split_dots [] name).
(** [trim_end_matches('.')] *)
Definition trim_dots (s : list byte) : list byte :=
  foldr (fun b rest => match rest with [] => if u8 b =? 0x2e then [] else [b] | _ => b :: rest end) [] s.
Definition strip_suffix (s name : list byte) : option (list byte) :=
  if bool_decide (drop (length name - length s) name = s) then Some (take (length name - length s) name) else None.
Definition ends_with_dot (s : list byte) : bool := bool_decide (last s = Some x2e).

(** ** Records *)

(** [while let Some(values) = records.get(current)]: every turn visits another name. *)
Fixpoint follow (fuel : nat) (rs : records_map) (visited : gset (list byte)) (current : list byte) : managed unit :=
  match rs !! current with
  | None => Ok tt
  | Some values =>
      match fuel with
      | O => Panic
      | S fuel =>
          if bool_decide (current ∈ visited) then Err (Conflict "dns.cname_cycle") else
          match head values with
          | Some (CNAME next) => follow fuel rs ({[ current ]} ∪ visited) next
          | _ => Ok tt
          end
      end
  end.
Definition validate_entry (rs : records_map) (e : list byte * list DnsRecord) : managed unit :=
  let '(name, values) := e in
  if negb (valid_dns_name name) || bool_decide (values = []) || (16 <? lenN values) then Err (Invalid "dns.records") else
  if existsb (fun v => match v with CNAME t => negb (lenN values =? 1) || negb (valid_dns_name t) | _ => false end) values
  then Err (Invalid "dns.cname") else
  follow (S (size rs)) rs ∅ name.
Definition validate_records (rs : records_map) : managed unit := foldM (fun _ => validate_entry rs) tt (bt_entries rs).

(** [matches!((qtype, record), (1, A(_)) | (28, AAAA(_)))] *)
Definition record_matches (qtype : N) (v : DnsRecord) : bool :=
  match v with A _ => qtype =? 1 | AAAA _ => qtype =? 28 | CNAME _ => false end.
(** [for _ in 0..16] *)
Fixpoint answer_loop (fuel : nat) (qtype : N) (current : list byte) (output : list (list byte * DnsRecord)) (rs : records_map)
    : managed (list (list byte * DnsRecord)) :=
  match fuel with
  | O => Err (Invalid "dns.cname_depth")
  | S fuel =>
      match rs !! current with
      | None => Ok output
      | Some values =>
          match head values with
          | Some (CNAME t) =>
              let output := output ++ [(current, CNAME t)] in
              if qtype =? 5 then Ok output else answer_loop fuel qtype t output rs
          | _ =>
              Ok (output ++ ((fun v => (current, v)) <$>
                    filter (fun v => record_matches qtype v = true) values))
          end
      end
  end.
Definition answer_records (name : list byte) (qtype : N) (d : EffectiveDns) : managed (list (list byte * DnsRecord)) :=
  answer_loop 16 qtype name [] (records d).

(** ** Routes *)

Definition route_matches (name : list byte) (r : DnsRoute) : bool :=
  bool_decide (suffix r = [x2e]) || bool_decide (name = suffix r)
  || match strip_suffix (suffix r) name with Some prefix => ends_with_dot prefix | None => false end.
Definition route (name : list byte) (d : EffectiveDns) : option DnsRoute :=
  let name := to_ascii_lowercase (trim_dots name) in find (route_matches name) (routes d).
Definition delegates_mesh_child (name mesh_suffix : list byte) (d : EffectiveDns) : bool :=
  let s := to_ascii_lowercase (trim_dots mesh_suffix) in
  match route name d with
  | Some r => match strip_suffix s (suffix r) with Some prefix => ends_with_dot prefix | None => false end
  | None => false
  end.

Section profiles.
Context `{UuidInfo} `{IpNetAddrs}.

Record DnsProfile := mkProfile {
  dp_id : N;
  dp_scope : DeviceSelector;
  dp_search_domains : list (list byte);
  dp_routes : list DnsRoute;
  dp_records : records_map;
}.
Definition validate_route (seen : gset (list byte)) (r : DnsRoute) : managed (gset (list byte)) :=
  if negb (bool_decide (suffix r = [x2e]) || valid_dns_name (suffix r)) || bool_decide (suffix r ∈ seen)
     || bool_decide (upstreams r = []) || (4 <? lenN (upstreams r))
     || existsb (fun s => (socket_port s =? 0) || is_unspecified (socket_ip s) || is_multicast (socket_ip s)) (upstreams r)
  then Err (Invalid "dns.routes") else Ok ({[ suffix r ]} ∪ seen).
Definition profile_validate (p : DnsProfile) : managed unit :=
  _ ← selector_validate (dp_scope p);
  if negb (get_version_num (dp_id p) =? 4) || (6 <? lenN (dp_search_domains p)) || (64 <? lenN (dp_routes p))
     || (4096 <? N.of_nat (size (dp_records p)))
  then Err (Invalid "dns.bounds") else
  if existsb (fun n => negb (valid_dns_name n)) (dp_search_domains p) then Err (Invalid "dns.search_domains") else
  _ ← foldM validate_route ∅ (dp_routes p);
  validate_records (dp_records p).

Definition merge_route (m : gmap (list byte) (list SocketAddr)) (r : DnsRoute) : managed (gmap (list byte) (list SocketAddr)) :=
  let servers := dedup (sort_by_key id (upstreams r)) in
  match m !! suffix r with
  | Some existing => if bool_decide (existing = servers) then Ok (<[suffix r := servers]> m) else Err (Conflict "dns.equal_suffix")
  | None => Ok (<[suffix r := servers]> m)
  end.
Definition merge_record (m : records_map) (e : list byte * list DnsRecord) : managed records_map :=
  match m !! e.1 with
  | Some existing => if bool_decide (existing = e.2) then Ok (<[e.1 := e.2]> m) else Err (Conflict "dns.record")
  | None => Ok (<[e.1 := e.2]> m)
  end.
Definition add_domain (l : list (list byte)) (d : list byte) : list (list byte) := if bool_decide (d ∈ l) then l else l ++ [d].
Record merged := mkMerged { mg_routes : gmap (list byte) (list SocketAddr); mg_records : records_map; mg_search : list (list byte) }.
Definition merge_profile (peer : PeerId) (address : IpAddr) (labels : gmap (list byte) (list byte)) (st : merged) (p : DnsProfile) : managed merged :=
  _ ← profile_validate p;
  if negb (selector_matches peer address labels (dp_scope p)) then Ok st else
  rs ← foldM merge_route (mg_routes st) (dp_routes p);
  recs ← foldM merge_record (mg_records st) (bt_entries (dp_records p));
  Ok (mkMerged rs recs (foldl add_domain (mg_search st) (dp_search_domains p))).
Definition route_key (r : DnsRoute) : Reverse N * list byte := (mkReverse (lenN (suffix r)), suffix r).
Definition for_peer (profiles : list DnsProfile) (peer : PeerId) (address : IpAddr) (labels : gmap (list byte) (list byte)) : managed EffectiveDns :=
  st ← foldM (merge_profile peer address labels) (mkMerged ∅ ∅ []) profiles;
  if 6 <? lenN (mg_search st) then Err (Conflict "dns.search_domains") else
  let rs := sort_by_key route_key ((fun e => mkRoute e.1 e.2) <$> bt_entries (mg_routes st)) in
  _ ← validate_records (mg_records st);
  Ok (mkEffective (mg_search st) rs (mg_records st)).
End profiles.

(** ** Aliases end *)

Definition alias (rs : records_map) (name : list byte) : option (list byte) :=
  match rs !! name with Some (CNAME t :: _) => Some t | _ => None end.
Inductive ends (rs : records_map) : list byte -> Prop :=
| ends_here n : alias rs n = None -> ends rs n
| ends_later n t : alias rs n = Some t -> ends rs t -> ends rs n.
(** The answer of a resolver that follows aliases without a limit. *)
Inductive answers (rs : records_map) (qtype : N) : list byte -> list (list byte * DnsRecord) -> Prop :=
| answers_unknown n : rs !! n = None -> answers rs qtype n []
| answers_alias n t : alias rs n = Some t -> qtype = 5 -> answers rs qtype n [(n, CNAME t)]
| answers_follow n t out : alias rs n = Some t -> qtype <> 5 -> answers rs qtype t out -> answers rs qtype n ((n, CNAME t) :: out)
| answers_values n vs : rs !! n = Some vs -> alias rs n = None ->
    answers rs qtype n ((fun v => (n, v)) <$> filter (fun v => record_matches qtype v = true) vs).
(** [k] aliases lead from a name to another. *)
Inductive steps (rs : records_map) : nat -> list byte -> list byte -> Prop :=
| steps_none n : steps rs 0 n n
| steps_more k n t u : alias rs n = Some t -> steps rs k t u -> steps rs (S k) n u.

Section aliases.
Variable rs : records_map.

Lemma alias_some n t : alias rs n = Some t -> exists vs, rs !! n = Some vs /\ head vs = Some (CNAME t).
Proof. unfold alias. destruct (rs !! n) as [[|[| |u] vs]|]; try done. intros [= ->]. eauto. Qed.
Lemma steps_snoc k n t u : steps rs k n t -> alias rs t = Some u -> steps rs (S k) n u.
Proof. induction 1 as [n|k n a b Ha Hs IH]; intros Hu; [by repeat econstructor|]. econstructor; eauto. Qed.
Lemma ends_steps k n t : steps rs k n t -> ends rs n -> ends rs t.
Proof. induction 1 as [n|k n a b Ha Hs IH]; [done|]. destruct 1; [congruence|]. apply IH. congruence. Qed.
Lemma ends_no_cycle n : ends rs n -> forall k, ~ steps rs (S k) n n.
Proof.
  induction 1 as [n Hn|n t Hn He IH]; intros k Hc; inversion Hc as [|k' n' t' u Ha Hs]; subst; [congruence|].
  replace t' with t in * by congruence. by apply (IH k), (steps_snoc k t n t).
Qed.

Lemma follow_turn fuel visited n : follow (S fuel) rs visited n =
  match rs !! n with
  | None => Ok tt
  | Some _ => if bool_decide (n ∈ visited) then Err (Conflict "dns.cname_cycle") else
      match alias rs n with Some t => follow fuel rs ({[ n ]} ∪ visited) t | None => Ok tt end
  end.
Proof. unfold alias. cbn [follow]. destruct (rs !! n) as [[|[| |t] vs]|]; reflexivity. Qed.
Lemma follow_ends fuel visited n : follow fuel rs visited n = Ok tt -> ends rs n.
Proof.
  revert visited n. induction fuel as [|fuel IH]; intros visited n.
  - cbn. intros Hn. apply ends_here. unfold alias. by destruct (rs !! n).
  - rewrite follow_turn. destruct (rs !! n) eqn:Hn; [|intros _; apply ends_here; unfold alias; by rewrite Hn].
    case_bool_decide; [done|]. destruct (alias rs n) as [t|] eqn:Ha; [|by constructor]. intros Hf. eapply ends_later; eauto.
Qed.
(** Every turn visits another name of the map: [S (size rs)] turns are enough. *)
Lemma follow_fuel fuel visited n : visited ⊆ dom rs -> (size rs < fuel + size visited)%nat -> follow fuel rs visited n <> Panic.
Proof.
  revert visited n. induction fuel as [|fuel IH]; intros visited n Hsub Hfuel.
  - apply subseteq_size in Hsub. rewrite size_dom in Hsub. lia.
  - rewrite follow_turn. destruct (rs !! n) as [vs|] eqn:Hn; [|done]. case_bool_decide as Hv; [done|].
    destruct (alias rs n) as [t|]; [|done]. apply IH.
    + apply union_subseteq. split; [|done]. apply singleton_subseteq_l, elem_of_dom_2 in Hn || apply singleton_subseteq_l. by apply elem_of_dom_2 in Hn.
    + rewrite size_union, size_singleton by (apply disjoint_singleton_l; done). lia.
Qed.
Lemma follow_accepts fuel visited n : ends rs n -> (forall v, v ∈ visited -> exists k, steps rs (S k) v n) ->
  follow fuel rs visited n <> Panic -> follow fuel rs visited n = Ok tt.
Proof.
  revert visited n. induction fuel as [|fuel IH]; intros visited n He Hv; [cbn; by destruct (rs !! n)|].
  rewrite follow_turn. destruct (rs !! n); [|done]. case_bool_decide as Hin.
  { destruct (Hv n Hin) as [k Hk]. by destruct (ends_no_cycle n He k). }
  destruct (alias rs n) as [t|] eqn:Ha; [|done]. apply IH.
  - apply (ends_steps 1 n t); [|done]. by repeat econstructor.
  - intros v [->%elem_of_singleton|Hin']%elem_of_union; [exists 0%nat; by repeat econstructor|].
    destruct (Hv v Hin') as [k Hk]. exists (S k). by apply (steps_snoc _ v n t).
Qed.
Lemma follow_exact n : follow (S (size rs)) rs ∅ n <> Panic /\ (follow (S (size rs)) rs ∅ n = Ok tt <-> ends rs n).
Proof.
  assert (Hp : follow (S (size rs)) rs ∅ n <> Panic) by (apply follow_fuel; [set_solver|lia]).
  split; [done|]. split; [apply follow_ends|]. intros He. by apply follow_accepts.
Qed.

Lemma answer_turn fuel q n acc : answer_loop (S fuel) q n acc rs =
  match rs !! n with
  | None => Ok acc
  | Some vs => match alias rs n with
      | Some t => if q =? 5 then Ok (acc ++ [(n, CNAME t)]) else answer_loop fuel q t (acc ++ [(n, CNAME t)]) rs
      | None => Ok (acc ++ ((fun v => (n, v)) <$> filter (fun v => record_matches q v = true) vs))
      end
  end.
Proof. unfold alias. cbn [answer_loop]. destruct (rs !! n) as [[|[| |t] vs]|]; reflexivity. Qed.
Lemma answer_sound fuel q n acc : match answer_loop fuel q n acc rs with
  | Ok out => exists rest, out = acc ++ rest /\ answers rs q n rest
  | Err e => e = Invalid "dns.cname_depth" /\ exists last, steps rs fuel n last
  | Panic => False
  end.
Proof.
  revert n acc. induction fuel as [|fuel IH]; intros n acc; [cbn; split; [done|]; eexists; constructor|].
  rewrite answer_turn. destruct (rs !! n) as [vs|] eqn:Hn; [|exists []; rewrite app_nil_r; split; [done|by constructor]].
  destruct (alias rs n) as [t|] eqn:Ha; [|eexists; split; [done|by constructor]].
  destruct (N.eqb_spec q 5) as [->|Hq]; [eexists; split; [done|by constructor]|].
  specialize (IH t (acc ++ [(n, CNAME t)])). destruct (answer_loop fuel q t _ rs) as [out|e|]; [|split; [by apply IH|]|done].
  - destruct IH as (rest & -> & Hr). exists ((n, CNAME t) :: rest). split; [by rewrite <-app_assoc|]. by apply answers_follow.
  - destruct IH as (_ & l & Hl). exists l. by econstructor.
Qed.
Lemma answers_unique q n out out' : answers rs q n out -> answers rs q n out' -> out = out'.
Proof.
  intros Ho. revert out'. induction Ho as [n Hn|n t Ha Hq|n t out Ha Hq Ho IH|n vs Hn Ha]; intros out'; inversion 1; subst;
    try congruence; try (exfalso; by destruct (alias_some _ _ ltac:(eassumption)) as (? & ? & ?); congruence); eauto.
  f_equal; [congruence|]. apply IH. congruence.
Qed.
Lemma ends_answers q n : ends rs n -> exists out, answers rs q n out.
Proof.
  induction 1 as [n Hn|n t Ha He [out IH]].
  - destruct (rs !! n) eqn:Hr; eexists; [by eapply answers_values|by apply answers_unknown].
  - destruct (decide (q = 5)); eexists; [by apply answers_alias|by eapply answers_follow].
Qed.
End aliases.

Definition entry_ok (rs : records_map) (n : list byte) (vs : list DnsRecord) : Prop :=
  valid_dns_name n = true /\ vs <> [] /\ lenN vs <= 16 /\
  (forall t, CNAME t ∈ vs -> vs = [CNAME t] /\ valid_dns_name t = true) /\ ends rs n.
Lemma validate_entry_exact rs n vs : validate_entry rs (n, vs) <> Panic /\ (validate_entry rs (n, vs) = Ok tt <-> entry_ok rs n vs).
Proof.
  unfold validate_entry, entry_ok. destruct (follow_exact rs n) as [Hp Hf].
  destruct (_ || _) eqn:E1; [split; [done|]; split; [done|]; intros (Hn & Hvs & Hl & _)|].
  { rewrite Hn, bool_decide_eq_false_2 in E1 by done. cbn in E1. apply N.ltb_lt in E1. lia. }
  apply orb_false_iff in E1 as [[Hn%negb_false_iff Hvs%bool_decide_eq_false]%orb_false_iff Hl%N.ltb_ge].
  destruct (existsb _ vs) eqn:E2; (split; [done|]).
  - split; [done|]. intros (_ & _ & _ & Hc & _). apply existsb_exists in E2 as ([| |t] & Hin & E2); try done.
    apply list_elem_of_In in Hin. destruct (Hc t Hin) as [-> Ht]. by rewrite Ht in E2.
  - rewrite Hf. split; [|by intros (_ & _ & _ & _ & ?)]. intros He. split_and!; try done. intros t Hin.
    apply list_elem_of_In in Hin. assert (Hx := proj2 (not_true_iff_false _) E2).
    destruct (negb (lenN vs =? 1) || negb (valid_dns_name t)) eqn:E3.
    { destruct Hx. apply existsb_exists. by exists (CNAME t). }
    apply orb_false_iff in E3 as [H1%negb_false_iff%N.eqb_eq Ht%negb_false_iff]. split; [|done].
    destruct vs as [|v [|w vs]]; [done| |unfold lenN in H1; cbn in H1; lia]. destruct Hin as [->|[]]. done.
Qed.
Lemma validate_records_exact rs : validate_records rs <> Panic /\
  (validate_records rs = Ok tt <-> forall n vs, rs !! n = Some vs -> entry_ok rs n vs).
Proof.
  unfold validate_records. setoid_rewrite <-elem_of_bt_entries. generalize (bt_entries rs) as l.
  induction l as [|[n vs] l [IHp IH]]; cbn [foldM].
  - split; [done|]. split; [|done]. intros _ n vs Hin%not_elem_of_nil. done.
  - destruct (validate_entry_exact rs n vs) as [Hp He]. destruct (validate_entry rs (n, vs)) as [[]|e|] eqn:E; cbn; [|split; [done|]|done].
    + split; [done|]. rewrite IH. split; [|by set_solver].
      intros Hall m ws [[= -> ->]|Hin]%elem_of_cons; [by apply He|by apply Hall].
    + split; [done|]. intros Hall. assert (Hc : entry_ok rs n vs) by (apply Hall; by left). by apply He in Hc.
Qed.

(** ** The union of the profiles *)

Section union.
Context `{UuidInfo} `{IpNetAddrs}.
Variables (peer : PeerId) (address : IpAddr) (labels : gmap (list byte) (list byte)).

Definition servers_of (r : DnsRoute) : list SocketAddr := dedup (sort_by_key id (upstreams r)).
Notation applies p := (selector_matches peer address labels (dp_scope p) = true).

Lemma insert_agrees {V} (m : gmap (list byte) V) k v : m !! k = None \/ m !! k = Some v ->
  forall n u, <[k:=v]> m !! n = Some u <-> m !! n = Some u \/ n = k /\ u = v.
Proof. intros Hk n u. destruct (decide (n = k)) as [->|Hn]; [rewrite lookup_insert_eq; naive_solver|rewrite lookup_insert_ne by done; naive_solver]. Qed.
Lemma merge_route_adds m r m' : merge_route m r = Ok m' ->
  forall s u, m' !! s = Some u <-> m !! s = Some u \/ s = suffix r /\ u = servers_of r.
Proof.
  unfold merge_route. fold (servers_of r). destruct (m !! suffix r) eqn:E; [case_bool_decide as Hs; [subst|done]|]; intros [= <-];
    apply insert_agrees; auto.
Qed.
Lemma merge_record_adds m e m' : merge_record m e = Ok m' ->
  forall n u, m' !! n = Some u <-> m !! n = Some u \/ n = e.1 /\ u = e.2.
Proof.
  unfold merge_record. destruct (m !! e.1) eqn:E; [case_bool_decide as Hs; [subst|done]|]; intros [= <-]; apply insert_agrees; auto.
Qed.
Lemma merge_routes_adds rs m m' : foldM merge_route m rs = Ok m' ->
  forall s u, m' !! s = Some u <-> m !! s = Some u \/ exists r, r ∈ rs /\ s = suffix r /\ u = servers_of r.
Proof.
  apply (foldM_ind (fun rs m' => forall s u, m' !! s = Some u <-> m !! s = Some u \/ exists r, r ∈ rs /\ s = suffix r /\ u = servers_of r)).
  - intros s u. set_solver.
  - intros seen m1 r m2 Hi Hr s u. rewrite (merge_route_adds _ _ _ Hr), Hi. setoid_rewrite elem_of_app. setoid_rewrite list_elem_of_singleton. naive_solver.
Qed.
Lemma merge_records_adds es m m' : foldM merge_record m es = Ok m' ->
  forall n u, m' !! n = Some u <-> m !! n = Some u \/ (n, u) ∈ es.
Proof.
  apply (foldM_ind (fun es m' => forall n u, m' !! n = Some u <-> m !! n = Some u \/ (n, u) ∈ es)).
  - intros n u. set_solver.
  - intros seen m1 e m2 Hi Hr n u. rewrite (merge_record_adds _ _ _ Hr), Hi, elem_of_app, list_elem_of_singleton. destruct e; naive_solver.
Qed.
Lemma add_domain_adds l d x : x ∈ add_domain l d <-> x ∈ l \/ x = d.
Proof. unfold add_domain. case_bool_decide; [naive_solver|]. rewrite elem_of_app, list_elem_of_singleton. done. Qed.
Lemma add_domains_adds ds l : (forall x, x ∈ foldl add_domain l ds <-> x ∈ l \/ x ∈ ds) /\ (NoDup l -> NoDup (foldl add_domain l ds)).
Proof.
  revert l. induction ds as [|d ds IH]; intros l; cbn; [set_solver|]. destruct (IH (add_domain l d)) as [Hi Hn]. split.
  - intros x. rewrite Hi, add_domain_adds. set_solver.
  - intros Hl. apply Hn. unfold add_domain. case_bool_decide; [done|by apply NoDup_snoc].
Qed.

Lemma applicable_snoc (Q : DnsProfile -> Prop) ps x :
  (exists p, p ∈ ps ++ [x] /\ applies p /\ Q p) <-> (exists p, p ∈ ps /\ applies p /\ Q p) \/ applies x /\ Q x.
Proof.
  setoid_rewrite elem_of_app. setoid_rewrite list_elem_of_singleton. split.
  - intros (p & [Hp| ->] & Ha); [left; by exists p|by right].
  - intros [(p & Hp & Ha)|Ha]; [exists p; by split; [left|]|exists x; by split; [right|]].
Qed.
(** What a run of the loop over the profiles has collected. *)
Definition collected (ps : list DnsProfile) (st : merged) : Prop :=
  (forall s u, mg_routes st !! s = Some u <-> exists p, p ∈ ps /\ applies p /\ exists r, r ∈ dp_routes p /\ s = suffix r /\ u = servers_of r) /\
  (forall n vs, mg_records st !! n = Some vs <-> exists p, p ∈ ps /\ applies p /\ dp_records p !! n = Some vs) /\
  (forall x, x ∈ mg_search st <-> exists p, p ∈ ps /\ applies p /\ x ∈ dp_search_domains p) /\
  NoDup (mg_search st) /\ Forall (fun p => profile_validate p = Ok tt) ps.
Lemma collects ps st : foldM (merge_profile peer address labels) (mkMerged ∅ ∅ []) ps = Ok st -> collected ps st.
Proof.
  apply (foldM_ind collected); [unfold collected; cbn; split_and!; [| | |constructor|constructor]|].
  { intros s u. split; [by rewrite lookup_empty|by intros (p & ?%not_elem_of_nil & _)]. }
  { intros n vs. split; [by rewrite lookup_empty|by intros (p & ?%not_elem_of_nil & _)]. }
  { intros x. split; [by intros ?%not_elem_of_nil|by intros (p & ?%not_elem_of_nil & _)]. }
  intros seen st1 p st2 (Hr & Hc & Hs & Hn & Hf). unfold merge_profile. intros ([] & Hv & Hm)%bind_Ok.
  assert (Hf' : Forall (fun p => profile_validate p = Ok tt) (seen ++ [p])) by (apply Forall_app; by split; [|constructor]).
  destruct (selector_matches peer address labels (dp_scope p)) eqn:Ha; cbn in Hm.
  - apply bind_Ok in Hm as (rs & Hrs & Hm). apply bind_Ok in Hm as (recs & Hrecs & [= <-]).
    destruct (add_domains_adds (dp_search_domains p) (mg_search st1)) as [Hd Hnd].
    unfold collected. cbn. setoid_rewrite applicable_snoc. rewrite Ha. assert (Ht : forall P : Prop, true = true /\ P <-> P) by tauto. split_and!; [..|by apply Hnd|done].
    + intros s u. rewrite (merge_routes_adds _ _ _ Hrs), Hr. by rewrite Ht.
    + intros n vs. rewrite (merge_records_adds _ _ _ Hrecs), Hc, elem_of_bt_entries. by rewrite Ht.
    + intros x. rewrite Hd, Hs. by rewrite Ht.
  - injection Hm as <-. unfold collected. setoid_rewrite applicable_snoc. rewrite Ha. split_and!; [..|done|done];
      intros; [rewrite Hr|rewrite Hc|rewrite Hs]; intuition congruence.
Qed.

Definition route_of (e : list byte * list SocketAddr) : DnsRoute := mkRoute e.1 e.2.
Lemma for_peer_Ok ps d : for_peer ps peer address labels = Ok d -> exists st, collected ps st /\
  routes d = sort_by_key route_key (route_of <$> bt_entries (mg_routes st)) /\ records d = mg_records st /\
  search_domains d = mg_search st /\ lenN (mg_search st) <= 6 /\ validate_records (mg_records st) = Ok tt.
Proof.
  unfold for_peer. intros (st & Hst%collects & Hd)%bind_Ok. destruct (6 <? _) eqn:Hl; [done|].
  apply bind_Ok in Hd as ([] & Hv & [= <-]). exists st. apply N.ltb_ge in Hl. by split_and!.
Qed.

(** The DNS settings of a Peer are exactly the union of the profiles that apply to it: a
    suffix leads to a server list just when an applicable profile says so (sorted, without
    repetitions), a name has records just when one holds them, no suffix and no search
    domain occurs twice, at most six search domains are kept, and every profile given,
    applicable or not, is valid. *)
Theorem effective_is_union ps d : for_peer ps peer address labels = Ok d ->
  (forall s u, mkRoute s u ∈ routes d <-> exists p, p ∈ ps /\ applies p /\ exists r, r ∈ dp_routes p /\ s = suffix r /\ u = servers_of r) /\
  (forall n vs, records d !! n = Some vs <-> exists p, p ∈ ps /\ applies p /\ dp_records p !! n = Some vs) /\
  (forall x, x ∈ search_domains d <-> exists p, p ∈ ps /\ applies p /\ x ∈ dp_search_domains p) /\
  NoDup (suffix <$> routes d) /\ NoDup (search_domains d) /\ lenN (search_domains d) <= 6 /\
  (forall n vs, records d !! n = Some vs -> entry_ok (records d) n vs) /\
  (forall p, p ∈ ps -> profile_validate p = Ok tt).
Proof.
  intros (st & (Hr & Hc & Hs & Hn & Hf) & Er & -> & -> & Hl & Hv)%for_peer_Ok. rewrite Er.
  pose proof (proj1 (proj2 (validate_records_exact _)) Hv) as Hall.
  split_and!; try done; [| |by apply Forall_forall].
  - intros s u. rewrite elem_of_sort_by_key, <-Hr, <-elem_of_bt_entries, list_elem_of_fmap. split.
    + by intros ([s' u'] & [= -> ->] & Hin).
    + intros Hin. by exists (s, u).
  - rewrite sort_by_key_perm, <-list_fmap_compose. apply NoDup_bt_entries.
Qed.

Lemma route_key_le r r' : leb_of (route_key r) (route_key r') = true ->
  lenN (suffix r') < lenN (suffix r) \/ lenN (suffix r') = lenN (suffix r) /\ leb_of (suffix r) (suffix r') = true.
Proof.
  change (match match N.compare (lenN (suffix r')) (lenN (suffix r)) with Eq => Ordered.compare (suffix r) (suffix r') | c => c end with
    Gt => false | _ => true end = true -> lenN (suffix r') < lenN (suffix r) \/
    lenN (suffix r') = lenN (suffix r) /\ leb_of (suffix r) (suffix r') = true).
  destruct (N.compare_spec (lenN (suffix r')) (lenN (suffix r))) as [Hl|Hl|Hl]; [by right|by left|done].
Qed.
(** A query goes to the route of the longest matching suffix, the smaller one of two of
    the same length, and to none only if no route matches. *)
Theorem route_longest ps d name : for_peer ps peer address labels = Ok d ->
  match route name d with
  | Some r => r ∈ routes d /\ route_matches (to_ascii_lowercase (trim_dots name)) r = true /\
      forall r', r' ∈ routes d -> route_matches (to_ascii_lowercase (trim_dots name)) r' = true -> r' <> r ->
        lenN (suffix r') < lenN (suffix r) \/
        lenN (suffix r') = lenN (suffix r) /\ leb_of (suffix r) (suffix r') = true
  | None => forall r', r' ∈ routes d -> route_matches (to_ascii_lowercase (trim_dots name)) r' = false
  end.
Proof.
  intros (st & _ & Er & _)%for_peer_Ok. unfold route. rewrite Er. generalize (to_ascii_lowercase (trim_dots name)) as n. intros n.
  destruct (find (route_matches n) _) as [r|] eqn:E.
  - destruct (find_sort_by_key _ _ _ _ E) as (l1 & l2 & El & Hm & _ & Hbest). setoid_rewrite elem_of_sort_by_key. split_and!; [|done|].
    + rewrite El. set_solver.
    + intros r' Hin Hm' _. by apply route_key_le, (Hbest r' Hin).
  - setoid_rewrite elem_of_sort_by_key. by apply (find_sort_by_key_None route_key).
Qed.

(** The aliases of a Peer's settings always end: every name has one complete answer, the
    accepting check visits finitely many names, and a query returns that answer, except
    behind sixteen aliases or more, where it is the error [dns.cname_depth]. *)
Theorem answers_resolve ps d name qtype : for_peer ps peer address labels = Ok d ->
  exists out, answers (records d) qtype name out /\ (forall out', answers (records d) qtype name out' -> out' = out) /\
    (answer_records name qtype d = Ok out \/
     answer_records name qtype d = Err (Invalid "dns.cname_depth") /\ exists last, steps (records d) 16 name last).
Proof.
  intros (st & _ & _ & Ed & _ & _ & Hv)%for_peer_Ok. pose proof (proj1 (proj2 (validate_records_exact _)) Hv) as Hall. rewrite <-Ed in Hall.
  assert (He : ends (records d) name).
  { destruct (records d !! name) as [vs|] eqn:E; [by apply (Hall _ vs)|]. apply ends_here. unfold alias. by rewrite E. }
  destruct (ends_answers (records d) qtype name He) as [out Ho]. exists out. split_and!; [done|intros out' Ho'; by eapply answers_unique|].
  unfold answer_records. pose proof (answer_sound (records d) 16 qtype name []) as Ha.
  destruct (answer_loop 16 qtype name [] (records d)) as [o|e|]; [|right; destruct Ha as [-> Ha]; by split|done].
  left. destruct Ha as (rest & -> & Hr). cbn. f_equal. by eapply answers_unique.
Qed.
End union.

(** ** Concrete instances *)

#[local] Existing Instance uuid_info_rfc.
#[local] Existing Instance ipnet_prefix.
#[local] Existing Instance ipnet_prefix_addrs.

Definition name_bytes (s : string) : list byte := list_byte_of_string s.
Definition everyone : DeviceSelector := mkSelector ∅ ∅ [].
Definition example_server (n : N) : SocketAddr := SockV4 (0x0a000000 + n) 53.
Definition example_profiles : list DnsProfile := [
  mkProfile (example_uuid 70) everyone [name_bytes "corp.example"]
    [mkRoute (name_bytes ".") [example_server 1]; mkRoute (name_bytes "x") [example_server 2];
     mkRoute (name_bytes "corp.example") [example_server 4; example_server 3; example_server 4]]
    {[ name_bytes "www.corp.example" := [CNAME (name_bytes "web.corp.example")];
       name_bytes "web.corp.example" := [A 0x0a000009; AAAA 1] ]};
  mkProfile (example_uuid 71) (mkSelector {[ mkDomainId 2 ]} ∅ []) [name_bytes "lab.example"] [mkRoute (name_bytes "lab.example") [example_server 5]] ∅;
  mkProfile (example_uuid 72) everyone [name_bytes "corp.example"] [mkRoute (name_bytes "corp.example") [example_server 3; example_server 4]] ∅].
Definition example_dns : EffectiveDns := mkEffective [name_bytes "corp.example"]
  [mkRoute (name_bytes "corp.example") [example_server 3; example_server 4];
   mkRoute (name_bytes ".") [example_server 1]; mkRoute (name_bytes "x") [example_server 2]]
  {[ name_bytes "www.corp.example" := [CNAME (name_bytes "web.corp.example")];
     name_bytes "web.corp.example" := [A 0x0a000009; AAAA 1] ]}.
Lemma example_for_peer : for_peer example_profiles (mkDomainId 1) (V4 0x0a000064) ∅ = Ok example_dns.
Proof. vm_compute. reflexivity. Qed.

(** The root route has length one and sorts before every one-letter suffix. *)
Lemma root_shadows_letter : route (name_bytes "host.x") example_dns = Some (mkRoute (name_bytes ".") [example_server 1]) /\
  valid_dns_name (name_bytes "x") = true.
Proof. by vm_compute. Qed.

Lemma effective_is_union_witness :
  mkRoute (name_bytes "corp.example") [example_server 3; example_server 4] ∈ routes example_dns /\
  NoDup (suffix <$> routes example_dns) /\
  (exists p, p ∈ example_profiles /\ selector_matches (mkDomainId 1) (V4 0x0a000064) ∅ (dp_scope p) = true /\
    dp_records p !! name_bytes "web.corp.example" = Some [A 0x0a000009; AAAA 1]).
Proof.
  destruct (effective_is_union (mkDomainId 1) (V4 0x0a000064) ∅ _ _ example_for_peer) as (Hr & Hc & _ & Hn & _).
  split; [|split; [exact Hn|]].
  - apply Hr. eexists. split; [by right; right; left|]. split; [vm_compute; reflexivity|]. eexists. split; [by left|]. split; vm_compute; reflexivity.
  - apply (Hc (name_bytes "web.corp.example") [A 0x0a000009; AAAA 1]). vm_compute. reflexivity.
Defined.
Lemma route_longest_witness :
  route (name_bytes "Git.Corp.example.") example_dns = Some (mkRoute (name_bytes "corp.example") [example_server 3; example_server 4]) /\
  forall r', r' ∈ routes example_dns -> route_matches (name_bytes "git.corp.example") r' = true ->
    r' <> mkRoute (name_bytes "corp.example") [example_server 3; example_server 4] -> lenN (suffix r') <= 12.
Proof.
  assert (Hr : route (name_bytes "Git.Corp.example.") example_dns = Some (mkRoute (name_bytes "corp.example") [example_server 3; example_server 4])) by (vm_compute; reflexivity).
  split; [exact Hr|]. pose proof (route_longest (mkDomainId 1) (V4 0x0a000064) ∅ _ _ (name_bytes "Git.Corp.example.") example_for_peer) as Hl.
  rewrite Hr in Hl. destruct Hl as (_ & _ & Hl). intros r' Hin Hm Hne. destruct (Hl r' Hin Hm Hne) as [Hlt|[He _]].
  - apply N.lt_le_incl. exact Hlt.
  - rewrite He. vm_compute. discriminate.
Defined.
Lemma answers_resolve_witness :
  answers (records example_dns) 1 (name_bytes "www.corp.example")
    [(name_bytes "www.corp.example", CNAME (name_bytes "web.corp.example")); (name_bytes "web.corp.example", A 0x0a000009)] /\
  answer_records (name_bytes "www.corp.example") 1 example_dns =
    Ok [(name_bytes "www.corp.example", CNAME (name_bytes "web.corp.example")); (name_bytes "web.corp.example", A 0x0a000009)].
Proof.
  assert (Ha : answer_records (name_bytes "www.corp.example") 1 example_dns =
    Ok [(name_bytes "www.corp.example", CNAME (name_bytes "web.corp.example")); (name_bytes "web.corp.example", A 0x0a000009)]) by (vm_compute; reflexivity).
  split; [|exact Ha].
  destruct (answers_resolve (mkDomainId 1) (V4 0x0a000064) ∅ _ _ (name_bytes "www.corp.example") 1 example_for_peer) as (out & Ho & _ & [Hok|[He _]]).
  - rewrite Ha in Hok. injection Hok as <-. exact Ho.
  - rewrite Ha in He. discriminate He.
Defined.

End Dn.
